(* ===== verification/_CoqProject ===== *)
-Q . S2P
Prelude.v
SortedVec.v
Sorting.v
Codec.v
Primitives.v
Crypto.v
Merkle.v
Smt.v
Store.v
Records.v
Group.v
GroupProofs.v
GroupTheorems.v
Account.v
Issuer.v
Bank.v
BankProofs.v
BankTheorems.v
Validators.v
Votes.v
VoteProofs.v
Round.v
Decentralization.v
Params.v
Alias.v
AliasProofs.v
Bech32.v
Request.v
Gov.v
GovProofs.v
GovTheorems.v
Tx.v
TxProofs.v
Staking.v
StakingProofs.v
StakingTheorems.v
ActiveSet.v
Accountability.v
StakingWitnesses.v
GroupWitnesses.v
Footprint.v
Executor.v
ExecProofs.v
ChainProofs.v
ChainGroups.v
ChainMessages.v
Block.v
Genesis.v
Light.v
LightProofs.v
Witness.v
WitnessProofs.v
StateNodes.v
ChainStore.v
ChainStoreProofs.v
Rpc.v
Mempool.v
MempoolProofs.v
Signing.v
Contact.v
Node.v
NodeProofs.v
Peer.v
PeerProofs.v
Wire.v
Handshake.v
Manager.v
ManagerProofs.v
Http.v
Json.v
HttpServe.v
ChainTheorems.v
ChainRuns.v
RpcProofs.v
ChainWitnesses.v
Witnesses.v
NodeWitnesses.v
StoreWitnesses.v
PeerWitnesses.v
HttpWitnesses.v
