(* ===== verification/Prelude.v ===== *)
(** * AfroLink, verified

    AfroLink is a proof-of-stake chain for native and sovereign-issued money, written
    as a workspace of Rust crates under [src/crates].  This library models the crates
    that carry its rules and proves what they promise, from the bytes of an amount to what a
    wallet may conclude from a stranger's answer.

    ** The program's parts, and the files that model them

    Foundations.
    - [Prelude]: [Result] and the state-and-error monad [M] (operations write in the order
      the code does, so what a failed call has already written is visible), inversion
      tactics [inv_M] and [bool_simpl], sums over finite maps, machine-integer arithmetic.
    - [SortedVec], [Sorting]: [Vec]s kept sorted and searched by binary search, [BTreeMap] as
      a sorted vector, the sorts and sums over lists the records use.
    - [Codec] ([primitives/src/codec.rs]): readers, encoders and decoders; the class [Lawful]
      says that decoding inverts encoding and that only canonical bytes decode.  Every
      record below has its instance.
    - [Primitives] ([amount.rs], [denom.rs], [ids.rs], [country.rs]).
    - [Crypto] ([hash.rs], [address.rs], [keys.rs]), [Merkle], [Bech32] ([crypto/src]).
    - [Smt], [StateNodes], [Store], [Records] ([state/src]): the sparse Merkle tree, its
      storage node by node, the trait [KeyValueStore] every module is written against, its
      contract [KVMap] (a finite map) and the tree-backed store that meets it.

    Modules of the ledger, each over any [KeyValueStore].
    - [Issuer], [Bank], [BankProofs], [BankTheorems] ([bank/src]).
    - [Staking], [StakingProofs], [StakingTheorems], [ActiveSet], [Accountability]
      ([staking/src] and the executor's handling of evidence).
    - [Params], [Gov], [GovProofs], [GovTheorems] ([gov/src]).
    - [Group], [GroupProofs], [GroupTheorems] ([types/src/group.rs]): savings groups.
    - [Account] ([types/src/account.rs], [pay/src/reference.rs]), [Request]
      ([pay/src/request.rs]).
    - [Alias], [AliasProofs], [Contact] ([alias/src]): names, contacts, rebinding; the
      commitment that stands for a phone number.
    - [Tx], [TxProofs] ([types/src/tx.rs]): messages, signatures, signing.

    The chain.
    - [Executor], [Block], [Genesis] ([executor/src]): every message's handler, one
      transaction, one block, the genesis file.
    - [Footprint], [ExecProofs], [ChainProofs], [ChainGroups], [ChainMessages],
      [ChainTheorems], [ChainRuns]: the invariant of the chain's store, its preservation
      by every message, and what holds over any blocks from genesis on.
    - [Validators], [Votes], [VoteProofs], [Round], [Decentralization] ([consensus/src]).
    - [Mempool], [MempoolProofs], [Signing], [Node], [NodeProofs] ([node/src],
      [daemon/src/signing.rs]): the pool, the signing record in memory and on disk, and
      the consensus driver as a function of state and event.

    What is kept, served and checked.
    - [ChainStore], [ChainStoreProofs] ([store/src/lib.rs], [daemon/src/chain.rs]): the block
      store, the publication of committed state, restart.
    - [Rpc], [RpcProofs] ([rpc/src], [store/src/serve.rs], the view in
      [daemon/src/chain.rs]): questions, answers with proofs, a wallet's walk of an
      account's history; a node that stores what it applies from its peers
      ([apply_block] and [after_commit] of [p2p/src/transport.rs]).
    - [Http] ([http/src/wire.rs]), [Json] ([json.rs]), [HttpServe] ([route.rs],
      [server.rs]): the requests of a connection, the queries they are, what is written
      back.
    - [Light], [LightProofs] ([light/src/lib.rs]): the light client.
    - [Witness], [WitnessProofs] ([witness/src]): witness logs, their audit, checkpoints.

    Peers.
    - [Peer], [PeerProofs] ([p2p/src/peer.rs], [addrbook.rs]): identities, groups, the book;
      the peers remembered over a stop ([daemon/src/anchors.rs]).
    - [Wire] ([p2p/src/wire.rs], [secret.rs], [sync.rs]): messages, sessions, frames.
    - [Handshake] ([p2p/src/handshake.rs]): how two peers come to share a session.
    - [Manager], [ManagerProofs] ([p2p/src/manager.rs]): connections, eviction, gossip,
      catching up.

    Inputs at which the theorems apply: [StakingWitnesses], [GroupWitnesses],
    [ChainWitnesses], [Witnesses], [NodeWitnesses], [StoreWitnesses], [PeerWitnesses],
    [HttpWitnesses].

    The parts meet as they do in the code.  The ledger's modules share the store and call
    the bank; the executor runs them behind one sandbox per transaction; the node executes
    blocks, votes through the signing record and adopts what a certificate of
    [Votes] finalises; the store keeps blocks and state trees, [Rpc] answers from it
    through the interface [ChainView], and [Light], [Witness] and the history cursor check
    those answers against headers alone.  Interfaces are classes: [KeyValueStore] with
    [KVMap], [Rooted] for stores with a root, [SignRecord], [NodeSource] and [NodeSink],
    [ChainView], [Submit].

    ** What the theorems show

    - Over a chain's whole life ([ChainRuns]): supply is the sum of balances and staking is
      backed; an account nobody signed for loses nothing; a charge had its sender's and its
      sponsor's keys; nonces never repeat; a transaction is refused, charged and failed, or
      applied whole; groups stay within their rules and backed; accounts stay usable; the
      history pointers link exactly the receipts that name an account.
    - Modules: each bank and staking call refines an abstract step and a failed one changes
      nothing; a group's share-out is exact; a governance decision carried out had been
      proposed, approved and announced; a bound contact is not redirected without notice;
      no two live names look alike; what a wallet signs is what the chain accepts; a genesis
      file is applied to the letter.
    - Consensus: tallies are exact; conflicting certificates expose double-signers beyond
      the fault bound; a reported double vote slashes exactly an unjailed bond under the key's
      own account; a node never equivocates, commits only certified blocks and its recursion
      ends; [nil_unlock_breaks_agreement] shows that releasing a lock on a nil quorum loses
      agreement in any set with two members it can do without.
    - Durability: the signing record and every committed state survive restarts; stored
      blocks and histories read back exactly; a node restarts on its last stored block
      whatever part of its state is lost.
    - Wallets: a light client never leaves the chain; accepted balances, histories and
      checkpoints are the chain's; what a node that follows its chain serves is accepted, a
      receipt exactly when its block's header is honest about receipts, which no node
      checks ([forged_receipts_verify]); a payment request survives its text and a mistyped
      address is refused.
    - Peers: an eclipse is bounded by groups; connections stay diverse and buffers bounded;
      eviction displaces only the over-represented; only blocks asked for are applied, in
      order; a handshake ends with the holder of the key it names or not at all; frames are
      read as sent or not at all; [full_staging_stalls] shows a buffer that never drains.
    - The query server: a stream of bytes has one reading, of bounded cost; the requests of a
      connection are answered in turn and nothing after a refusal; reads change nothing; no
      header or literal written can end early; a GET resolves by one table.
    - Encodings: round trips for every record, canonical bytes only, sound Merkle and state
      proofs.

    ** Representation, parameters, bounds and fuel

    Machine integers are [Z] with their width written out ([u64_max], [u128_max], checked,
    wrapping and saturating operations); [usize] sizes are [nat] or [Z] of 64 bits.  Byte
    strings are [list byte], strings their UTF-8 bytes.  A [BTreeMap] is a sorted vector, an
    association list or a [gmap] walked in the order of its keys.

    Parameters stand for third-party code: [Hasher] (BLAKE3), [Signer] and [Signing]
    (Ed25519), [KeyExchange] (X25519), [Unicode] (lowercasing), [Aead] (ChaCha20-Poly1305),
    [HexDecode] (the [hex] crate); [Wording] is the generated text of error values.  Nothing is assumed of
    collisions: a theorem that needs their absence asks it of the list of inputs that
    the code hashes ([collision_free]), and where the tree's empty marker matters that none
    of them hashes to it ([empty_free]).  What a database, a file system or a
    socket may refuse is an argument of the operation that asks it.

    Recursions follow the data except: the Merkle log's halving (well-founded);
    [split_point] (the candidate doubles); the tree's [split] (256 bits); decimal printing
    (the widest type's digits); [cap_loop] (the code's own bound); the driver's recursion
    through its own votes ([NODE_FUEL] is 2, [node_voting_terminates]); loading a tree
    ([LOAD_FUEL] is 257, one more than a path's bits); the manager's loops
    ([SYNC_FUEL] is 18, the heights from the one needed to its ceiling; one round per staged
    block); reading a socket (one round per byte wanted, [fill_len]); the headers of a request
    (one turn more than the limit on headers, [read_headers_fuel]).

    Hypotheses keep arguments within their Rust types ([call_ok], [scall_ok], [entry_wf])
    and exclude sizes no chain reaches: savings cycles and message counts under 2^54,
    supplies under 2^127, heights and nonces under 2^64 - 1, a pool's byte limit under 2^64 - 1.
    [reserved] addresses, the staking module's and the groups', are those no key can speak
    for.

    ** Not modelled

    Key generation and the zeroing of secrets; sockets, threads and timers, of peers
    ([p2p/src/transport.rs], but for the two functions above) and of the query server
    (accepting, the cap on connections, timeouts); the daemon's wiring, key files, configuration and timers; the thread that
    drives a node and the network simulator ([node/src/service.rs], [sim.rs]); the fuzz
    harness; printed diagnostics. *)

From Stdlib Require Export Init.Byte.
From coqutil Require Byte Word.LittleEndianList.
From Stdlib Require Export ZArith Lia.
From stdpp Require Export base gmap list strings sorting.

Set Default Goal Selector "!".

(** * Results and stateful computations *)

(** Rust's [Result<A, E>].  The error type comes first so that [result E]
    is the monad. *)
Inductive result (E A : Type) : Type :=
| Ok (a : A)
| Err (e : E).
Arguments Ok {_ _} _.
Arguments Err {_ _} _.

(** The [?] operator. *)
#[export] Instance result_ret E : MRet (result E) := λ A a, Ok a.
#[export] Instance result_bind E : MBind (result E) :=
  λ A B f m, match m with Ok a => f a | Err e => Err e end.
#[export] Instance result_fmap E : FMap (result E) :=
  λ A B f m, match m with Ok a => Ok (f a) | Err e => Err e end.

#[export] Instance result_eq_dec E A `{EqDecision E, EqDecision A} : EqDecision (result E A).
Proof. solve_decision. Defined.

(** [Result::map_err]. *)
Definition map_err {E F A} (f : E → F) (m : result E A) : result F A :=
  match m with Ok a => Ok a | Err e => Err (f e) end.

(** [Option::ok_or]. *)
Definition ok_or {E A} (e : E) (o : option A) : result E A :=
  match o with Some a => Ok a | None => Err e end.

(** [Result::is_ok] and friends. *)
Definition is_ok {E A} (m : result E A) : bool :=
  match m with Ok _ => true | Err _ => false end.

(** A method taking [&mut self] and returning a [Result]: the state survives an
    error with whatever was written before it, exactly as in Rust.  Atomicity is
    therefore something to prove about each operation, not a property of the
    monad. *)
Definition M (S E A : Type) : Type := S → result E A * S.

Definition ret {S E A} (a : A) : M S E A := λ s, (Ok a, s).
Definition throw {S E A} (e : E) : M S E A := λ s, (Err e, s).
Definition bind {S E A B} (m : M S E A) (f : A → M S E B) : M S E B :=
  λ s, match m s with
       | (Ok a, s') => f a s'
       | (Err e, s') => (Err e, s')
       end.
(** A read through [&self]. *)
Definition reads {S E A} (f : S → result E A) : M S E A := λ s, (f s, s).
(** A write through [&mut self] that cannot fail. *)
Definition writes {S E} (f : S → S) : M S E unit := λ s, (Ok tt, f s).
(** A guard: [if c { return Err(e) }]. *)
Definition fail_if {S E} (c : bool) (e : E) : M S E unit :=
  λ s, (if c then Err e else Ok tt, s).
(** Calling another module whose errors are wrapped ([#[from]]). *)
Definition wrap_err {S E F A} (f : E → F) (m : M S E A) : M S F A :=
  λ s, let '(r, s') := m s in (map_err f r, s').
(** Calling a [&mut self] method of a struct [T] held in a [S]. *)
Definition lift {S E A} (r : result E A) : M S E A := λ s, (r, s).

Declare Scope afro_scope.
Delimit Scope afro_scope with afro.
Notation "'let!' x ':=' m 'in' k" := (bind m (λ x, k))
  (at level 10, x binder, m at level 100, k at level 200,
   format "'[v' 'let!'  x  ':='  m  'in' '//' k ']'") : afro_scope.
Notation "'do!' m 'in' k" := (bind m (λ _, k))
  (at level 10, m at level 100, k at level 200,
   format "'[v' 'do!'  m  'in' '//' k ']'") : afro_scope.
Open Scope afro_scope.
Open Scope Z_scope.

(** * Inversion of computations

    [inv_M] turns [m s = (Ok a, s')], for a [m] written with the combinators
    above, into the facts each step established. *)

Section inversion.
Context {S E A B : Type}.
Implicit Types (m : M S E A) (f : A → M S E B) (s : S).

Lemma bind_Ok_inv m f s b s' :
  bind m f s = (Ok b, s') → ∃ a s1, m s = (Ok a, s1) ∧ f a s1 = (Ok b, s').
Proof. unfold bind. destruct (m s) as [[a|e] s1]; naive_solver. Qed.

Lemma bind_Err_inv m f s e s' :
  bind m f s = (Err e, s') →
  m s = (Err e, s') ∨ ∃ a s1, m s = (Ok a, s1) ∧ f a s1 = (Err e, s').
Proof. unfold bind. destruct (m s) as [[a|e'] s1]; naive_solver. Qed.

Lemma reads_inv (g : S → result E A) s r s' : reads g s = (r, s') → g s = r ∧ s' = s.
Proof. unfold reads. naive_solver. Qed.

Lemma lift_inv (x : result E A) s r s' : lift x s = (r, s') → x = r ∧ s' = s.
Proof. unfold lift. naive_solver. Qed.

Lemma ret_inv (a : A) s r s' : @ret S E A a s = (r, s') → r = Ok a ∧ s' = s.
Proof. unfold ret. naive_solver. Qed.

Lemma throw_inv (e : E) s r s' : @throw S E A e s = (r, s') → r = Err e ∧ s' = s.
Proof. unfold throw. naive_solver. Qed.

Lemma writes_inv (g : S → S) s r s' : @writes S E g s = (r, s') → r = Ok tt ∧ s' = g s.
Proof. unfold writes. naive_solver. Qed.

Lemma fail_if_Ok_inv c (e : E) s u s' : fail_if c e s = (Ok u, s') → c = false ∧ s' = s.
Proof. unfold fail_if. destruct c; naive_solver. Qed.

Lemma fail_if_Err_inv c (e e' : E) s s' :
  fail_if c e s = (Err e', s') → c = true ∧ e' = e ∧ s' = s.
Proof. unfold fail_if. destruct c; naive_solver. Qed.

Lemma result_bind_Ok_inv (x : result E A) (g : A → result E B) b :
  x ≫= g = Ok b → ∃ a, x = Ok a ∧ g a = Ok b.
Proof. destruct x; simpl; naive_solver. Qed.

Lemma ok_or_Ok_inv (e : E) (o : option A) a : ok_or e o = Ok a → o = Some a.
Proof. destruct o; simpl; naive_solver. Qed.

Lemma map_err_Ok_inv {F} (g : F → E) (x : result F A) a : map_err g x = Ok a → x = Ok a.
Proof. destruct x; simpl; naive_solver. Qed.

Lemma wrap_err_Ok_inv {F} (g : F → E) (m : M S F A) s a s' :
  wrap_err g m s = (Ok a, s') → m s = (Ok a, s').
Proof. unfold wrap_err. destruct (m s) as [[]]; simpl; naive_solver. Qed.

Lemma wrap_err_Err_inv {F} (g : F → E) (m : M S F A) s e s' :
  wrap_err g m s = (Err e, s') → ∃ e', e = g e' ∧ m s = (Err e', s').
Proof. unfold wrap_err. destruct (m s) as [[]]; simpl; naive_solver. Qed.
End inversion.

(** Evaluating only the outcome of a concrete run. *)
Lemma run_outcome {A B} (p : A * B) a : p.1 = a → p = (a, p.2).
Proof. by destruct p; intros <-. Qed.

Ltac inv_M_step :=
  match goal with
  | H : bind _ _ _ = (Ok _, _) |- _ =>
      apply bind_Ok_inv in H; destruct H as (? & ? & ? & ?)
  | H : bind _ _ _ = (Err _, _) |- _ =>
      apply bind_Err_inv in H; destruct H as [|(? & ? & ? & ?)]
  | H : reads _ _ = (_, _) |- _ => apply reads_inv in H; destruct H as [? ->]
  | H : lift _ _ = (_, _) |- _ => apply lift_inv in H; destruct H as [? ->]
  | H : ret _ _ = (_, _) |- _ => apply ret_inv in H; destruct H as [? ->]
  | H : throw _ _ = (_, _) |- _ => apply throw_inv in H; destruct H as [? ->]
  | H : writes _ _ = (_, _) |- _ => apply writes_inv in H; destruct H as [? ->]
  | H : fail_if _ _ _ = (Ok _, _) |- _ => apply fail_if_Ok_inv in H; destruct H as [? ->]
  | H : fail_if _ _ _ = (Err _, _) |- _ =>
      apply fail_if_Err_inv in H; destruct H as (? & ? & ->)
  | H : wrap_err _ _ _ = (Ok _, _) |- _ => apply wrap_err_Ok_inv in H
  | H : wrap_err _ _ _ = (Err _, _) |- _ =>
      apply wrap_err_Err_inv in H; destruct H as (? & ? & ?)
  | H : map_err _ _ = Ok _ |- _ => apply map_err_Ok_inv in H
  | H : ok_or _ _ = Ok _ |- _ => apply ok_or_Ok_inv in H
  | H : _ ≫= _ = Ok _ |- _ => apply result_bind_Ok_inv in H; destruct H as (? & ? & ?)
  | H : Ok _ = Ok _ |- _ => injection H as H
  | H : Ok _ = Err _ |- _ => discriminate H
  | H : Err _ = Ok _ |- _ => discriminate H
  | H : true = false |- _ => discriminate H
  | H : false = true |- _ => discriminate H
  | H : (_, _) = (_, _) |- _ => injection H as ? ?
  | H : ?x = ?y |- _ => is_var x; subst x
  | H : ?x = ?y |- _ => is_var y; subst y
  end.
Ltac inv_M := repeat (inv_M_step; simpl in * ).

(** Boolean tests of the source as propositions. *)
Ltac bool_simpl :=
  repeat match goal with
  | H : negb _ = true |- _ => apply negb_true_iff in H
  | H : negb _ = false |- _ => apply negb_false_iff in H
  | H : andb _ _ = true |- _ => apply andb_true_iff in H; destruct H
  | H : orb _ _ = false |- _ => apply orb_false_iff in H; destruct H
  | H : (_ <? _)%Z = true |- _ => apply Z.ltb_lt in H
  | H : (_ <? _)%Z = false |- _ => apply Z.ltb_ge in H
  | H : (_ <=? _)%Z = true |- _ => apply Z.leb_le in H
  | H : (_ <=? _)%Z = false |- _ => apply Z.leb_gt in H
  | H : (_ =? _)%Z = true |- _ => apply Z.eqb_eq in H
  | H : (_ =? _)%Z = false |- _ => apply Z.eqb_neq in H
  | H : bool_decide _ = true |- _ => apply bool_decide_eq_true in H
  | H : bool_decide _ = false |- _ => apply bool_decide_eq_false in H
  | H : Is_true _ |- _ => apply Is_true_true in H
  end.

(** * Weighted sums over finite maps *)

Section map_sum.
Context `{Countable K} {V : Type}.
Implicit Types (w : K → V → Z) (m : gmap K V).

Definition map_sum w m : Z := map_fold (λ k v acc, w k v + acc) 0 m.

Lemma map_sum_empty w : map_sum w ∅ = 0.
Proof. apply map_fold_empty. Qed.

Lemma map_sum_insert_fresh w m k v :
  m !! k = None → map_sum w (<[k:=v]> m) = w k v + map_sum w m.
Proof. intros Hk. unfold map_sum. rewrite map_fold_insert_L; [done|lia|done]. Qed.

(** What an entry contributes; absent entries contribute nothing. *)
Definition entry_weight w m k : Z := from_option (w k) 0 (m !! k).

Lemma map_sum_delete w m k : map_sum w (delete k m) = map_sum w m - entry_weight w m k.
Proof.
  unfold entry_weight. destruct (m !! k) as [v|] eqn:Hk; simpl.
  - rewrite <- (insert_delete_id m k v Hk) at 2.
    rewrite map_sum_insert_fresh; [lia|]. apply lookup_delete_eq.
  - rewrite delete_id; [lia|done].
Qed.

Lemma map_sum_insert w m k v :
  map_sum w (<[k:=v]> m) = map_sum w m - entry_weight w m k + w k v.
Proof.
  rewrite <- insert_delete_eq, map_sum_insert_fresh, map_sum_delete;
    [lia|apply lookup_delete_eq].
Qed.

Lemma map_sum_nonneg w m : (∀ k v, m !! k = Some v → 0 ≤ w k v) → 0 ≤ map_sum w m.
Proof.
  induction m as [|k v m Hk IH] using map_ind; intros Hw.
  - rewrite map_sum_empty. lia.
  - rewrite map_sum_insert_fresh by done.
    pose proof (Hw k v (lookup_insert_eq _ _ _)).
    enough (0 ≤ map_sum w m) by lia.
    apply IH. intros k' v' Hk'. apply Hw. rewrite lookup_insert_ne; [done|naive_solver].
Qed.

Lemma entry_weight_le_sum w m k :
  (∀ k v, m !! k = Some v → 0 ≤ w k v) → entry_weight w m k ≤ map_sum w m.
Proof.
  intros Hw. pose proof (map_sum_delete w m k) as Hd.
  enough (0 ≤ map_sum w (delete k m)) by lia.
  apply map_sum_nonneg. intros k' v' Hk'. apply (Hw k').
  apply lookup_delete_Some in Hk'. naive_solver.
Qed.

Lemma entry_weight_pair_le_sum w m k1 k2 :
  k1 ≠ k2 → (∀ k v, m !! k = Some v → 0 ≤ w k v) →
  entry_weight w m k1 + entry_weight w m k2 ≤ map_sum w m.
Proof.
  intros Hne Hw. pose proof (map_sum_delete w m k1) as Hd.
  assert (entry_weight w (delete k1 m) k2 ≤ map_sum w (delete k1 m)) as Hle.
  { apply entry_weight_le_sum. intros k' v' Hk'.
    apply lookup_delete_Some in Hk'. naive_solver. }
  unfold entry_weight in Hle at 1. rewrite lookup_delete_ne in Hle by done.
  unfold entry_weight in *. lia.
Qed.
End map_sum.

(** * Bytes and machine integers *)

#[export] Instance byte_eq_dec : EqDecision byte := Byte.byte_eq_dec.
#[export] Instance byte_countable : Countable byte.
Proof.
  refine (inj_countable Byte.to_N Byte.of_N _). exact Byte.of_to_N.
Defined.

Abbreviation bytes := (list byte).

(** Byte-string literals, [b"..."] in the source. *)
Definition bs (s : string) : bytes := String.list_byte_of_string s.

(** The value of a byte, and the byte of a value ([as u8]). *)
Abbreviation byte_val := coqutil.Byte.byte.unsigned.
Abbreviation byte_of := coqutil.Byte.byte.of_Z.

(** Bounds of the unsigned integer types. *)
Definition u8_max : Z := 2 ^ 8 - 1.
Definition u32_max : Z := 2 ^ 32 - 1.
Definition u64_max : Z := 2 ^ 64 - 1.
Definition u128_max : Z := 2 ^ 128 - 1.

(** [checked_add], [checked_sub], [checked_mul] and the saturating forms on an
    unsigned type whose largest value is [mx]. *)
Definition checked_add (mx a b : Z) : option Z := if a + b <=? mx then Some (a + b) else None.
Definition checked_sub (a b : Z) : option Z := if b <=? a then Some (a - b) else None.
Definition checked_mul (mx a b : Z) : option Z := if a * b <=? mx then Some (a * b) else None.
Definition saturating_add (mx a b : Z) : Z := Z.min mx (a + b).
Definition saturating_sub (a b : Z) : Z := Z.max 0 (a - b).
Definition saturating_mul (mx a b : Z) : Z := Z.min mx (a * b).

(** Lexicographic order on bytes: the derived [Ord] of [[u8; N]] and [str]. *)
Fixpoint bytes_cmp (a b : bytes) : comparison :=
  match a, b with
  | [], [] => Eq
  | [], _ :: _ => Lt
  | _ :: _, [] => Gt
  | x :: a', y :: b' =>
      match Z.compare (byte_val x) (byte_val y) with
      | Eq => bytes_cmp a' b'
      | c => c
      end
  end.
Definition bytes_ltb (a b : bytes) : bool := match bytes_cmp a b with Lt => true | _ => false end.
Definition bytes_lt (a b : bytes) : Prop := bytes_cmp a b = Lt.
