(* ===== verification/SortedVec.v ===== *)
(** Sorted vectors keyed by byte strings.

    Several records of the ledger ([Issuer::minters], the candidate index, the
    council, a savings group's members) are a [Vec] kept sorted by address and
    searched with [binary_search].  This file models the [Vec] and slice methods
    those records use and proves the facts their owners rely on. *)

From S2P Require Import Prelude.

(** * Lexicographic order on byte strings is a strict total order *)

Lemma byte_val_inj x y : byte_val x = byte_val y → x = y.
Proof. apply coqutil.Byte.byte.unsigned_inj. Qed.

(** A fact of every byte, decided on all 256. *)
Definition every_byte : bytes := (λ n, byte_of (Z.of_nat n)) <$> seq 0 256.
Lemma byte_cases (P : byte → bool) : forallb P every_byte = true → ∀ b, P b = true.
Proof.
  intros H b. rewrite forallb_forall in H. apply H. apply list_elem_of_In, list_elem_of_fmap. exists (Z.to_nat (byte_val b)).
  pose proof (coqutil.Byte.byte.unsigned_range b). rewrite Z2Nat.id by lia. split; [by rewrite coqutil.Byte.byte.of_Z_unsigned|].
  apply elem_of_seq. lia.
Qed.

Lemma removelast_snoc {A} (l : list A) x : removelast (l ++ [x]) = l.
Proof. by rewrite removelast_app, app_nil_r. Qed.

Lemma bytes_cmp_refl a : bytes_cmp a a = Eq.
Proof. induction a; simpl; [done|]. by rewrite Z.compare_refl. Qed.

Lemma bytes_cmp_eq a b : bytes_cmp a b = Eq ↔ a = b.
Proof.
  split; [|intros ->; apply bytes_cmp_refl].
  revert b. induction a as [|x a IH]; intros [|y b]; simpl; try done.
  destruct (Z.compare_spec (byte_val x) (byte_val y)) as [E| |]; try done.
  intros Hab. f_equal; [by apply byte_val_inj|by apply IH].
Qed.

Lemma bytes_cmp_antisym a b : bytes_cmp b a = CompOpp (bytes_cmp a b).
Proof.
  revert b. induction a as [|x a IH]; intros [|y b]; simpl; try done.
  rewrite Z.compare_antisym. destruct (byte_val x ?= byte_val y); simpl; auto.
Qed.

#[export] Instance bytes_lt_trans : Transitive bytes_lt.
Proof.
  unfold bytes_lt. intros a. induction a as [|x a IH]; intros [|y b] [|z c]; simpl; try done.
  destruct (Z.compare_spec (byte_val x) (byte_val y)),
    (Z.compare_spec (byte_val y) (byte_val z)),
    (Z.compare_spec (byte_val x) (byte_val z)); try done; try lia; eauto.
Qed.

#[export] Instance bytes_lt_irrefl : Irreflexive bytes_lt.
Proof. intros a. unfold complement, bytes_lt. by rewrite bytes_cmp_refl. Qed.

Lemma bytes_lt_gt a b : bytes_cmp a b = Gt ↔ bytes_lt b a.
Proof. unfold bytes_lt. rewrite (bytes_cmp_antisym a b). destruct (bytes_cmp a b); naive_solver. Qed.

Lemma bytes_ltb_lt a b : bytes_ltb a b = true ↔ bytes_lt a b.
Proof. unfold bytes_ltb, bytes_lt. destruct (bytes_cmp a b); naive_solver. Qed.

Lemma bytes_lt_ne a b : bytes_lt a b → a ≠ b.
Proof. intros H ->. by apply (bytes_lt_irrefl b). Qed.

(** * Vec and slice methods *)

(** [slice::binary_search_by]: [inl i] is [Ok(i)], [inr i] is [Err(i)].  On a
    sorted slice without repeats the result is unique, which is the only case
    the library documents; it is written here as the scan that finds it. *)
Fixpoint binary_search_by {A} (cmp : A → comparison) (l : list A) : nat + nat :=
  match l with
  | [] => inr 0%nat
  | x :: l =>
      match cmp x with
      | Lt => match binary_search_by cmp l with inl i => inl (S i) | inr i => inr (S i) end
      | Eq => inl 0%nat
      | Gt => inr 0%nat
      end
  end.

(** [Vec::insert] and [Vec::remove] at an index in range. *)
Definition vec_insert {A} (i : nat) (x : A) (l : list A) : list A := take i l ++ x :: drop i l.
Definition vec_remove {A} (i : nat) (l : list A) : list A := take i l ++ drop (S i) l.

(** [slice::is_sorted_by] for a strict comparison. *)
Fixpoint is_sorted_by {A} (lt : A → A → bool) (l : list A) : bool :=
  match l with
  | x :: (y :: _) as l' => lt x y && is_sorted_by lt l'
  | _ => true
  end.

Lemma elem_of_vec_insert {A} (l : list A) i x y : y ∈ vec_insert i x l ↔ y = x ∨ y ∈ l.
Proof.
  unfold vec_insert. rewrite elem_of_app, elem_of_cons.
  rewrite <- (take_drop i l) at 3. rewrite elem_of_app. naive_solver.
Qed.

Section sorted_vec.
Context {A : Type} (key : A → bytes).
Implicit Types (l : list A) (k : bytes).

Definition key_lt (x y : A) : Prop := bytes_lt (key x) (key y).
Abbreviation key_sorted := (StronglySorted key_lt).

#[export] Instance key_lt_trans : Transitive key_lt.
Proof. intros x y z. unfold key_lt. apply bytes_lt_trans. Qed.

Definition search k l : nat + nat := binary_search_by (λ x, bytes_cmp (key x) k) l.
Definition vec_get k l : option A :=
  match search k l with inl i => l !! i | inr _ => None end.

Lemma is_sorted_by_spec l :
  is_sorted_by (λ x y, bytes_ltb (key x) (key y)) l = true ↔ key_sorted l.
Proof.
  trans (Sorted key_lt l);
    [|split; [apply Sorted_StronglySorted; apply _|apply StronglySorted_Sorted]].
  induction l as [|x [|y l] IH].
  - split; [constructor|done].
  - split; [by repeat constructor|done].
  - change (is_sorted_by _ (x :: y :: l)) with
      (bytes_ltb (key x) (key y) && is_sorted_by (λ x y, bytes_ltb (key x) (key y)) (y :: l)).
    rewrite andb_true_iff, bytes_ltb_lt, IH. split.
    + intros [??]. constructor; [done|by constructor].
    + inversion 1 as [|? ? ? Hd]; subst. by inversion Hd.
Qed.

Lemma key_sorted_lookup l i j x y :
  key_sorted l → l !! i = Some x → l !! j = Some y → (i < j)%nat → key_lt x y.
Proof.
  intros Hl Hi Hj Hij. rewrite <- (take_drop_middle l i x Hi) in Hl.
  apply StronglySorted_app in Hl as (_ & _ & Hl).
  apply StronglySorted_cons in Hl as [Hx _]. rewrite Forall_forall in Hx. apply Hx.
  apply (list_elem_of_lookup_2 _ (j - S i)). rewrite lookup_drop. by replace (S i + (j - S i))%nat with j by lia.
Qed.

Lemma search_found k l i : search k l = inl i → ∃ x, l !! i = Some x ∧ key x = k.
Proof.
  unfold search. revert i. induction l as [|x l IH]; intros i; simpl; [done|].
  destruct (bytes_cmp (key x) k) eqn:E.
  - intros [= <-]. exists x. by apply bytes_cmp_eq in E.
  - destruct (binary_search_by _ l) as [j|] eqn:Hs; [|done].
    intros [= <-]. by apply IH.
  - done.
Qed.

Lemma search_missing k l i :
  key_sorted l → search k l = inr i →
  (i ≤ length l)%nat ∧ Forall (λ x, bytes_lt (key x) k) (take i l)
  ∧ Forall (λ x, bytes_lt k (key x)) (drop i l).
Proof.
  unfold search. revert i. induction l as [|x l IH]; intros i Hl; simpl.
  { intros [= <-]. repeat split; try constructor; simpl; lia. }
  apply StronglySorted_cons in Hl as [Hx Hl].
  destruct (bytes_cmp (key x) k) eqn:E; [done| |].
  - destruct (binary_search_by _ l) as [|j] eqn:Hs; [done|].
    intros [= <-]. destruct (IH j Hl eq_refl) as (?&?&?).
    simpl. repeat split; [lia|by constructor|done].
  - intros [= <-]. apply bytes_lt_gt in E. simpl. repeat split; [lia|constructor|].
    constructor; [done|]. eapply Forall_impl; [exact Hx|].
    intros y Hy. by etrans.
Qed.

Lemma vec_get_Some k l x : key_sorted l → vec_get k l = Some x ↔ x ∈ l ∧ key x = k.
Proof.
  intros Hl. unfold vec_get. destruct (search k l) as [i|i] eqn:Hs.
  - apply search_found in Hs as (y & Hy & <-). rewrite Hy. split.
    + intros [= ->]. split; [by eapply list_elem_of_lookup_2|done].
    + intros [Hx Hk]. f_equal. apply list_elem_of_lookup in Hx as [j Hj].
      destruct (decide (i = j)) as [->|Hij]; [congruence|].
      exfalso. destruct (Nat.lt_ge_cases i j).
      * eapply (bytes_lt_ne (key y) (key x)); [by eapply key_sorted_lookup|done].
      * eapply (bytes_lt_ne (key x) (key y)); [|done].
        eapply (key_sorted_lookup l j i); [done..|lia].
  - split; [done|]. intros [Hx <-]. exfalso.
    destruct (search_missing _ _ _ Hl Hs) as (_ & Ht & Hd).
    rewrite <- (take_drop i l) in Hx. apply elem_of_app in Hx as [Hx|Hx].
    + rewrite Forall_forall in Ht. by apply (bytes_lt_irrefl (key x)), Ht.
    + rewrite Forall_forall in Hd. by apply (bytes_lt_irrefl (key x)), Hd.
Qed.

Lemma vec_insert_sorted k l i x :
  key_sorted l → search k l = inr i → key x = k → key_sorted (vec_insert i x l).
Proof.
  intros Hl Hs Hk. destruct (search_missing _ _ _ Hl Hs) as (_ & Ht & Hd).
  pose proof Hl as Hl'. rewrite <- (take_drop i l) in Hl'.
  apply StronglySorted_app in Hl' as (H12 & H1 & H2).
  rewrite Forall_forall in Ht, Hd. unfold vec_insert.
  apply StronglySorted_app. rewrite StronglySorted_cons, Forall_forall.
  unfold key_lt in *. rewrite Hk. split_and!; [|done| |done].
  - intros y z Hy [->|Hz]%elem_of_cons; [rewrite Hk; by apply Ht|by apply H12].
  - intros y Hy. by apply Hd.
Qed.

Lemma vec_remove_sorted l i : key_sorted l → key_sorted (vec_remove i l).
Proof.
  intros Hl. unfold vec_remove.
  rewrite <- (take_drop i l) in Hl. apply StronglySorted_app in Hl as (H12 & H1 & H2).
  assert (∀ y, y ∈ drop (S i) l → y ∈ drop i l) as Hsub.
  { intros y Hy. replace (S i) with (i + 1)%nat in Hy by lia.
    rewrite <- drop_drop in Hy. destruct (drop i l); [done|]. simpl in Hy.
    rewrite drop_0 in Hy. by right. }
  apply StronglySorted_app. split_and!; [|done|].
  - intros x y Hx Hy. apply H12; auto.
  - replace (S i) with (i + 1)%nat by lia. rewrite <- drop_drop.
    destruct (drop i l) as [|z r]; simpl; [constructor|]. rewrite drop_0.
    by apply StronglySorted_cons in H2 as [? ?].
Qed.

Lemma vec_update_sorted l i x y :
  key_sorted l → l !! i = Some x → key y = key x → key_sorted (<[i:=y]> l).
Proof.
  intros Hl Hi Hk. rewrite (insert_take_drop l i y) by (by eapply lookup_lt_Some).
  rewrite <- (take_drop_middle l i x Hi) in Hl.
  apply StronglySorted_app in Hl as (H12 & H1 & H2).
  apply StronglySorted_cons in H2 as [Hx H2].
  apply StronglySorted_app. rewrite StronglySorted_cons.
  unfold key_lt in *. rewrite Hk. split_and!; [|done..].
  intros a b Ha [->|Hb]%elem_of_cons; [rewrite Hk|]; (apply H12; [done|]); [by left|by right].
Qed.

(** What the other two updates do to membership. *)
Lemma elem_of_vec_remove l i x y :
  key_sorted l → l !! i = Some x → y ∈ vec_remove i l ↔ y ∈ l ∧ key y ≠ key x.
Proof.
  intros Hl Hi. unfold vec_remove. pose proof Hl as Hl'.
  rewrite <- (take_drop_middle l i x Hi) in Hl'.
  apply StronglySorted_app in Hl' as (H12 & _ & H2).
  apply StronglySorted_cons in H2 as [Hx _]. rewrite Forall_forall in Hx.
  rewrite <- (take_drop_middle l i x Hi) at 3.
  rewrite !elem_of_app, elem_of_cons. split.
  - intros [Hy|Hy].
    + split; [by left|]. apply bytes_lt_ne, H12; [done|by left].
    + split; [by right; right|]. intros E. by apply (bytes_lt_ne (key x) (key y)), eq_sym; [apply Hx|].
  - intros [[Hy|[->|Hy]] Hne]; [by left|done|by right].
Qed.

Lemma elem_of_vec_update l i x y z :
  key_sorted l → l !! i = Some x → key y = key x →
  z ∈ <[i:=y]> l ↔ z = y ∨ (z ∈ l ∧ key z ≠ key x).
Proof.
  intros Hl Hi Hk. rewrite <- (elem_of_vec_remove l i x z Hl Hi).
  rewrite (insert_take_drop l i y) by (by eapply lookup_lt_Some).
  unfold vec_remove. rewrite !elem_of_app, elem_of_cons. naive_solver.
Qed.
End sorted_vec.

(** * Weighted sums over vectors *)

Section list_sum.
Context {A : Type}.
Implicit Types (w : A → Z) (l : list A).

Definition list_sum w l : Z := foldr (λ x acc, w x + acc) 0 l.

Lemma list_sum_cons w x l : list_sum w (x :: l) = w x + list_sum w l.
Proof. done. Qed.

Lemma list_sum_app w l1 l2 : list_sum w (l1 ++ l2) = list_sum w l1 + list_sum w l2.
Proof. induction l1; simpl; lia. Qed.

Lemma list_sum_perm w l1 l2 : l1 ≡ₚ l2 → list_sum w l1 = list_sum w l2.
Proof. induction 1; simpl; lia. Qed.

Lemma list_sum_nonneg w l : Forall (λ x, 0 ≤ w x) l → 0 ≤ list_sum w l.
Proof. induction 1; simpl; lia. Qed.

Lemma list_sum_ext w w' l : Forall (λ x, w x = w' x) l → list_sum w l = list_sum w' l.
Proof. induction 1; simpl; lia. Qed.

Lemma list_sum_le w w' l : Forall (λ x, w x ≤ w' x) l → list_sum w l ≤ list_sum w' l.
Proof. induction 1; simpl; lia. Qed.

Lemma list_sum_add w w' l : list_sum (λ x, w x + w' x) l = list_sum w l + list_sum w' l.
Proof. induction l; simpl; lia. Qed.

Lemma list_sum_insert w l i x : list_sum w (vec_insert i x l) = w x + list_sum w l.
Proof.
  unfold vec_insert. rewrite list_sum_app. simpl. rewrite <- (take_drop i l) at 3.
  rewrite list_sum_app. lia.
Qed.

Lemma list_sum_remove w l i x : l !! i = Some x → list_sum w (vec_remove i l) = list_sum w l - w x.
Proof.
  intros Hi. unfold vec_remove. rewrite <- (take_drop_middle l i x Hi) at 3.
  rewrite !list_sum_app. simpl. lia.
Qed.

Lemma list_sum_update w l i x y :
  l !! i = Some x → list_sum w (<[i:=y]> l) = list_sum w l - w x + w y.
Proof.
  intros Hi. rewrite (insert_take_drop l i y) by (by eapply lookup_lt_Some).
  rewrite <- (take_drop_middle l i x Hi) at 3. rewrite !list_sum_app. simpl. lia.
Qed.

(** A part never outweighs the whole. *)
Lemma list_sum_submseteq w l1 l2 :
  Forall (λ x, 0 ≤ w x) l2 → l1 ⊆+ l2 → list_sum w l1 ≤ list_sum w l2.
Proof.
  intros Hw [l3 Hp]%submseteq_Permutation. rewrite (list_sum_perm w _ _ Hp), list_sum_app.
  enough (0 ≤ list_sum w l3) by lia. apply list_sum_nonneg. rewrite Hp in Hw.
  by apply Forall_app in Hw as [_ ?].
Qed.

(** Splitting by a test. *)
Lemma list_sum_filter w (P : A → bool) l :
  list_sum w (List.filter P l) = list_sum (λ x, if P x then w x else 0) l.
Proof. induction l as [|x l IH]; simpl; [done|]. destruct (P x); simpl; lia. Qed.
End list_sum.

(** * BTreeMap

    An ordered map as the sorted vector of its entries; [key] renders a key to
    bytes in the order of its [Ord] instance. *)

Section btree.
Context {K V : Type} (key : K → bytes).
Implicit Types (m : list (K * V)) (k : K) (v : V).

Definition bt_key (e : K * V) : bytes := key e.1.
Definition bt_get k m : option V := snd <$> vec_get bt_key (key k) m.
Definition bt_insert k v m : list (K * V) :=
  match search bt_key (key k) m with
  | inl i => <[i := (k, v)]> m
  | inr i => vec_insert i (k, v) m
  end.
Definition bt_remove k m : list (K * V) :=
  match search bt_key (key k) m with
  | inl i => vec_remove i m
  | inr _ => m
  end.
Definition bt_contains k m : bool := bool_decide (is_Some (bt_get k m)).

Context (key_inj : ∀ a b, key a = key b → a = b).
Abbreviation bt_sorted := (StronglySorted (key_lt bt_key)).

Lemma bt_get_Some k v m : bt_sorted m → bt_get k m = Some v ↔ (k, v) ∈ m.
Proof.
  intros Hm. unfold bt_get. rewrite fmap_Some. split.
  - intros ([k' v'] & [Hin Hk]%vec_get_Some & ->); [|done]. unfold bt_key in Hk. simpl in *.
    by apply key_inj in Hk as ->.
  - intros Hin. exists (k, v). split; [|done]. by apply vec_get_Some.
Qed.

Lemma bt_search k m :
  bt_sorted m →
  match search bt_key (key k) m with
  | inl i => ∃ v, m !! i = Some (k, v) ∧ bt_get k m = Some v
  | inr _ => bt_get k m = None
  end.
Proof.
  intros Hm. destruct (search bt_key (key k) m) as [i|i] eqn:Hs.
  - pose proof Hs as ([k' v] & Hi & Hk)%search_found. unfold bt_key in Hk. simpl in Hk.
    apply key_inj in Hk as ->. exists v. split; [done|]. apply bt_get_Some; [done|].
    by eapply list_elem_of_lookup_2.
  - unfold bt_get, vec_get. by rewrite Hs.
Qed.

Lemma bt_insert_sorted k v m : bt_sorted m → bt_sorted (bt_insert k v m).
Proof.
  intros Hm. unfold bt_insert. pose proof (bt_search k m Hm) as Hs.
  destruct (search bt_key (key k) m) as [i|i] eqn:E.
  - destruct Hs as (v' & Hi & _). by eapply vec_update_sorted.
  - by eapply vec_insert_sorted.
Qed.

Lemma bt_remove_sorted k m : bt_sorted m → bt_sorted (bt_remove k m).
Proof.
  intros Hm. unfold bt_remove. destruct (search bt_key (key k) m); [by apply vec_remove_sorted|done].
Qed.

Lemma elem_of_bt_insert k v m e :
  bt_sorted m → e ∈ bt_insert k v m ↔ e = (k, v) ∨ (e ∈ m ∧ e.1 ≠ k).
Proof.
  intros Hm. unfold bt_insert. pose proof (bt_search k m Hm) as Hs.
  destruct (search bt_key (key k) m) as [i|i] eqn:E.
  - destruct Hs as (v' & Hi & _). rewrite (elem_of_vec_update bt_key m i (k, v')) by done.
    assert (bt_key e ≠ bt_key (k, v') ↔ e.1 ≠ k) by (unfold bt_key; simpl; split; [congruence|]; intros ? ?%key_inj; done).
    naive_solver.
  - rewrite elem_of_vec_insert. split; [|naive_solver]. intros [->|He]; [by left|right].
    split; [done|]. destruct e as [k' v']. simpl. intros ->. by apply bt_get_Some in He; [congruence|].
Qed.

Lemma elem_of_bt_remove k m e : bt_sorted m → e ∈ bt_remove k m ↔ e ∈ m ∧ e.1 ≠ k.
Proof.
  intros Hm. unfold bt_remove. pose proof (bt_search k m Hm) as Hs.
  destruct (search bt_key (key k) m) as [i|i] eqn:E.
  - destruct Hs as (v' & Hi & _). rewrite (elem_of_vec_remove bt_key m i (k, v')) by done.
    unfold bt_key. simpl. split; intros [? Hne]; (split; [done|]); [congruence|]. by intros ?%key_inj.
  - split; [|by intros [? _]]. intros He. split; [done|]. destruct e as [k' v']. simpl. intros ->.
    by apply bt_get_Some in He; [congruence|].
Qed.

Lemma bt_get_insert k v m k' :
  bt_sorted m → bt_get k' (bt_insert k v m) = if bool_decide (key k' = key k) then Some v else bt_get k' m.
Proof.
  intros Hm. apply option_eq. intros v'. rewrite bt_get_Some, elem_of_bt_insert by (done || by apply bt_insert_sorted).
  case_bool_decide as E.
  - apply key_inj in E as ->. simpl. naive_solver.
  - rewrite bt_get_Some by done. simpl. split; [naive_solver|]. intros Hin. right. split; [done|]. congruence.
Qed.

Lemma bt_get_remove k m k' :
  bt_sorted m → bt_get k' (bt_remove k m) = if bool_decide (key k' = key k) then None else bt_get k' m.
Proof.
  intros Hm. apply option_eq. intros v'. rewrite bt_get_Some, elem_of_bt_remove by (done || by apply bt_remove_sorted).
  case_bool_decide as E.
  - apply key_inj in E as ->. simpl. naive_solver.
  - rewrite bt_get_Some by done. simpl. split; [naive_solver|]. intros Hin. split; [done|]. congruence.
Qed.

Lemma list_sum_bt_insert w k v m :
  bt_sorted m →
  list_sum w (bt_insert k v m) = list_sum w m + w (k, v) - from_option (λ v, w (k, v)) 0 (bt_get k m).
Proof.
  intros Hm. unfold bt_insert. pose proof (bt_search k m Hm) as Hs.
  destruct (search bt_key (key k) m) as [i|i].
  - destruct Hs as (v' & Hi & ->). rewrite (list_sum_update w m i (k, v')) by done. simpl. lia.
  - rewrite Hs, list_sum_insert. simpl. lia.
Qed.

Lemma list_sum_bt_remove w k m :
  bt_sorted m →
  list_sum w (bt_remove k m) = list_sum w m - from_option (λ v, w (k, v)) 0 (bt_get k m).
Proof.
  intros Hm. unfold bt_remove. pose proof (bt_search k m Hm) as Hs.
  destruct (search bt_key (key k) m) as [i|i].
  - destruct Hs as (v' & Hi & ->). rewrite (list_sum_remove w m i (k, v')) by done. done.
  - rewrite Hs. simpl. lia.
Qed.

Lemma bt_keys_NoDup m : bt_sorted m → NoDup (fst <$> m).
Proof.
  induction 1 as [|[k v] m Hm IH Hk]; simpl; constructor; [|done].
  rewrite list_elem_of_fmap. intros ([k' v'] & -> & Hin). rewrite Forall_forall in Hk.
  by apply (bytes_lt_irrefl (key k')), (Hk _ Hin).
Qed.
End btree.
