(* ===== verification/Sorting.v ===== *)
(** Sorting by a byte-string key: [slice::sort_by_key], [sort_unstable] and
    [Vec::dedup] as the ledger's records use them, and what sorting says about
    repeats and permutations. *)

From S2P Require Import Prelude SortedVec.

(** * Methods *)

(** [slice::sort_by_key]: a stable sort. *)
Fixpoint insert_by_key {A} (key : A → bytes) (x : A) (l : list A) : list A :=
  match l with
  | [] => [x]
  | y :: l' => if bytes_ltb (key y) (key x) then y :: insert_by_key key x l' else x :: l
  end.
Definition sort_by_key {A} (key : A → bytes) (l : list A) : list A := foldr (insert_by_key key) [] l.

(** [windows(2).any(..)] for equal neighbouring keys. *)
Fixpoint adjacent_dup {A} (key : A → bytes) (l : list A) : bool :=
  match l with
  | x :: (y :: _) as l' => bool_decide (key x = key y) || adjacent_dup key l'
  | _ => false
  end.

(** [sort_unstable] then [dedup]. *)
Fixpoint dedup (l : list bytes) : list bytes :=
  match l with
  | x :: (y :: _) as l' => if bool_decide (x = y) then dedup l' else x :: dedup l'
  | _ => l
  end.
(** [sort_unstable] followed by [dedup]. *)
Definition sort_dedup (l : list bytes) : list bytes := dedup (sort_by_key (λ a, a) l).

(** * Canonical order *)

Section sorting.
Context {A : Type} (key : A → bytes).
Implicit Types (l : list A).

Definition key_le (x y : A) : Prop := ¬ bytes_lt (key y) (key x).

Lemma insert_by_key_perm x l : insert_by_key key x l ≡ₚ x :: l.
Proof.
  induction l as [|y l IH]; simpl; [done|]. destruct (bytes_ltb _ _); [|done].
  rewrite IH. constructor.
Qed.

Lemma sort_by_key_perm l : sort_by_key key l ≡ₚ l.
Proof. induction l; simpl; [done|]. rewrite insert_by_key_perm. by f_equiv. Qed.

Lemma bytes_lt_total (a b : bytes) : bytes_lt a b ∨ a = b ∨ bytes_lt b a.
Proof.
  destruct (bytes_cmp a b) eqn:E; [|by left|right; right; by apply bytes_lt_gt].
  right; left. by apply bytes_cmp_eq.
Qed.

Lemma key_le_trans x y z : key_le x y → key_le y z → key_le x z.
Proof.
  unfold key_le. intros H1 H2 H3. destruct (bytes_lt_total (key x) (key y)) as [H|[H|H]]; [|congruence|done].
  apply H2. by etrans.
Qed.

Lemma insert_by_key_sorted x l :
  StronglySorted key_le l → StronglySorted key_le (insert_by_key key x l).
Proof.
  induction 1 as [|y l Hl IH Hy]; simpl; [by repeat constructor|].
  destruct (bytes_ltb (key y) (key x)) eqn:E.
  - apply bytes_ltb_lt in E. constructor; [done|].
    apply Forall_forall. intros z. rewrite insert_by_key_perm, elem_of_cons.
    rewrite Forall_forall in Hy. intros [->|Hz]; [|by apply Hy].
    intros E'. by apply (bytes_lt_irrefl (key y)); etrans.
  - assert (key_le x y) as Hxy.
    { intros E'%bytes_ltb_lt. congruence. }
    constructor; [by constructor|]. constructor; [done|].
    eapply Forall_impl; [done|]. intros z. by apply key_le_trans.
Qed.

Lemma sort_by_key_sorted l : StronglySorted key_le (sort_by_key key l).
Proof. induction l; simpl; [constructor|by apply insert_by_key_sorted]. Qed.

(** A weakly sorted list without equal neighbours is strictly sorted. *)
Lemma adjacent_dup_sorted l :
  StronglySorted key_le l → adjacent_dup key l = false → StronglySorted (key_lt key) l.
Proof.
  intros Hl Hd. apply Sorted_StronglySorted; [apply _|].
  induction l as [|x [|y l] IH]; [constructor|by repeat constructor|].
  apply StronglySorted_cons in Hl as [Hx Hl].
  change (bool_decide (key x = key y) || adjacent_dup key (y :: l) = false) in Hd. bool_simpl.
  constructor; [by apply IH|]. constructor. apply Forall_cons in Hx as [Hx _].
  unfold key_lt. destruct (bytes_lt_total (key x) (key y)) as [|[|]]; done.
Qed.

Lemma strictly_sorted_no_dup l : StronglySorted (key_lt key) l → adjacent_dup key l = false.
Proof.
  induction 1 as [|x l Hl IH Hx]; [done|]. destruct l as [|y l]; [done|].
  change (bool_decide (key x = key y) || adjacent_dup key (y :: l) = false).
  rewrite IH, orb_false_r. apply bool_decide_eq_false_2. apply Forall_cons in Hx as [Hx _]. by apply bytes_lt_ne.
Qed.

Lemma strictly_sorted_unique l1 l2 :
  StronglySorted (key_lt key) l1 → StronglySorted (key_lt key) l2 → l1 ≡ₚ l2 → l1 = l2.
Proof.
  apply StronglySorted_unique_strong. intros x1 x2 _ _ H1 H2.
  exfalso. apply (bytes_lt_irrefl (key x1)). unfold key_lt in *. by etrans.
Qed.

Lemma sort_by_key_id l : StronglySorted (key_lt key) l → sort_by_key key l = l.
Proof.
  induction 1 as [|x l Hl IH Hx]; [done|]. simpl. rewrite IH. destruct l as [|y l]; [done|].
  apply Forall_cons in Hx as [Hx _]. simpl. destruct (bytes_ltb (key y) (key x)) eqn:E; [|done].
  apply bytes_ltb_lt in E. exfalso. apply (bytes_lt_irrefl (key x)). unfold key_lt in *. by etrans.
Qed.
End sorting.

(** Equal keys are adjacent after sorting, so the duplicate test sees any repeat. *)
Lemma sorted_dup_iff {A} (key : A → bytes) l :
  adjacent_dup key (sort_by_key key l) = false ↔ NoDup (key <$> l).
Proof.
  split.
  - intros Hd. pose proof (adjacent_dup_sorted key _ (sort_by_key_sorted key l) Hd) as Hs.
    rewrite <- (sort_by_key_perm key l). clear Hd. induction Hs as [|x l' Hl IH Hx]; simpl; [constructor|].
    constructor; [|done]. rewrite list_elem_of_fmap. intros (y & E & Hy). rewrite Forall_forall in Hx.
    apply (bytes_lt_ne (key x) (key y)); [by apply Hx|done].
  - intros Hnd. apply strictly_sorted_no_dup. rewrite <- (sort_by_key_perm key l) in Hnd.
    pose proof (sort_by_key_sorted key l) as Hs. revert Hs Hnd. generalize (sort_by_key key l).
    intros l'. induction 1 as [|x l1 Hl IH Hx]; [constructor|]. simpl. intros [Hnx Hnd]%NoDup_cons.
    constructor; [by apply IH|]. apply Forall_forall. intros y Hy. rewrite Forall_forall in Hx.
    destruct (bytes_lt_total (key x) (key y)) as [|[E|E]]; [done| |by destruct (Hx y Hy)].
    destruct Hnx. rewrite E. by apply list_elem_of_fmap_2.
Qed.

(** * Removing repeats *)

Lemma elem_of_dedup x l : x ∈ dedup l ↔ x ∈ l.
Proof.
  induction l as [|y [|z l] IH]; [done|done|].
  change (dedup (y :: z :: l)) with (if bool_decide (y = z) then dedup (z :: l) else y :: dedup (z :: l)).
  case_bool_decide as E; rewrite ?elem_of_cons, IH, ?elem_of_cons; naive_solver.
Qed.

Lemma dedup_sorted l :
  StronglySorted (key_le (λ a : bytes, a)) l → StronglySorted (key_lt (λ a : bytes, a)) (dedup l).
Proof.
  induction l as [|y [|z l] IH]; intros Hl; [constructor|by repeat constructor|].
  change (dedup (y :: z :: l)) with (if bool_decide (y = z) then dedup (z :: l) else y :: dedup (z :: l)).
  apply StronglySorted_cons in Hl as [Hy Hl]. case_bool_decide as E; [by apply IH|].
  constructor; [by apply IH|]. apply Forall_forall. intros x Hx. rewrite elem_of_dedup in Hx.
  assert (bytes_lt y z) as Hyz.
  { apply Forall_cons in Hy as [Hy _]. destruct (bytes_lt_total y z) as [|[|]]; done. }
  apply elem_of_cons in Hx as [->|Hx]; [done|]. unfold key_lt.
  apply StronglySorted_cons in Hl as [Hz _]. rewrite Forall_forall in Hz.
  destruct (bytes_lt_total z x) as [Hzx|[->|Hxz]]; [by etrans|done|by destruct (Hz x Hx)].
Qed.

Lemma sort_dedup_sorted l : StronglySorted (key_lt (λ a : bytes, a)) (sort_dedup l).
Proof. apply dedup_sorted, sort_by_key_sorted. Qed.

Lemma elem_of_sort_dedup x l : x ∈ sort_dedup l ↔ x ∈ l.
Proof. unfold sort_dedup. by rewrite elem_of_dedup, sort_by_key_perm. Qed.

Lemma strictly_sorted_NoDup {A} (key : A → bytes) l : StronglySorted (key_lt key) l → NoDup l.
Proof.
  induction 1 as [|x l Hl IH Hx]; constructor; [|done]. intros Hin. rewrite Forall_forall in Hx.
  by apply (bytes_lt_irrefl (key x)), (Hx x Hin).
Qed.

Lemma sort_dedup_NoDup l : NoDup (sort_dedup l).
Proof. eapply strictly_sorted_NoDup, sort_dedup_sorted. Qed.

(** The length test of the source is a test for repeats. *)
Lemma sort_dedup_length l : length (sort_dedup l) = length l ↔ NoDup l.
Proof.
  split; intros H.
  - assert (sort_dedup l ⊆+ l) as Hs.
    { apply NoDup_submseteq; [apply sort_dedup_NoDup|]. intros x. by rewrite elem_of_sort_dedup. }
    apply submseteq_length_Permutation in Hs; [|lia]. rewrite <- Hs. apply sort_dedup_NoDup.
  - apply Permutation_length, NoDup_Permutation; [apply sort_dedup_NoDup|done|].
    intros x. apply elem_of_sort_dedup.
Qed.

Lemma sort_dedup_perm l : NoDup l → sort_dedup l ≡ₚ l.
Proof.
  intros H. apply NoDup_Permutation; [apply sort_dedup_NoDup|done|]. intros x. apply elem_of_sort_dedup.
Qed.

(** Two lists have one sorted, deduplicated form exactly when they hold the same elements. *)
Lemma sort_dedup_eq l1 l2 : sort_dedup l1 = sort_dedup l2 ↔ ∀ x, x ∈ l1 ↔ x ∈ l2.
Proof.
  split.
  - intros E x. by rewrite <- (elem_of_sort_dedup x l1), E, elem_of_sort_dedup.
  - intros Hx. apply (strictly_sorted_unique (λ a, a)); [apply sort_dedup_sorted..|].
    apply NoDup_Permutation; [apply sort_dedup_NoDup..|]. intros x. by rewrite !elem_of_sort_dedup.
Qed.
