(* ===== verification/Codec.v ===== *)
(** The canonical consensus codec ([crates/primitives/src/codec.rs]).

    A [Reader] is its unread suffix: [Reader::new(buf)] is [buf] and [take]
    shortens it.  ([pos + n] cannot overflow [usize]: a slice is at most
    [isize::MAX] bytes long and every [n] is at most [MAX_FIELD_LEN], so the
    [checked_add] branch of [take] is not reachable.)  The text inside
    [CodecError::Invalid] is diagnostic only; it is kept as the reason the
    source gives, without the rendered operands.

    A type with [Encode] and [Decode] is a [codec]; [Lawful] states the two
    halves of "exactly one valid encoding of any value". *)

From S2P Require Import Prelude.
From coqutil Require Import Word.LittleEndianList.

(** * Errors and the reader *)

Definition MAX_FIELD_LEN : Z := 16 * 1024 * 1024.

Inductive CodecError :=
| UnexpectedEof (wanted left : Z)
| LengthTooLarge (len : Z)
| UnknownDiscriminant (tag : Z) (type_name : string)
| TrailingBytes (left : Z)
| CodecInvalid (reason : string).

#[export] Instance CodecError_eq_dec : EqDecision CodecError.
Proof. solve_decision. Defined.

Definition decoder (A : Type) : Type := bytes → result CodecError (A * bytes).

(** [Reader::remaining]. *)
Definition remaining (r : bytes) : Z := Z.of_nat (length r).

(** [Reader::take]. *)
Definition reader_take (n : Z) : decoder bytes := λ r,
  if remaining r <? n then Err (UnexpectedEof n (remaining r))
  else Ok (take (Z.to_nat n) r, drop (Z.to_nat n) r).

(** [Reader::take_array::<N>]. *)
Definition take_array (n : nat) : decoder bytes := reader_take (Z.of_nat n).

(** * Codecs and their laws *)

Record codec (A : Type) := Codec {
  encode : A → bytes;
  decode : decoder A;
  wf : A → Prop;
}.
Arguments Codec {_} _ _ _.
Arguments encode {_} _ _.
Arguments decode {_} _ _.
Arguments wf {_} _ _.

Class Lawful {A} (c : codec A) : Prop := {
  decode_encode x rest : wf c x → decode c (encode c x ++ rest) = Ok (x, rest);
  decode_sound b x rest : decode c b = Ok (x, rest) → wf c x ∧ b = encode c x ++ rest;
}.

(** [decode_exact]: the whole input must be consumed. *)
Definition decode_exact {A} (c : codec A) (b : bytes) : result CodecError A :=
  '(value, r) ← decode c b;
  if remaining r =? 0 then Ok value else Err (TrailingBytes (remaining r)).

(** * Integers *)

(** [impl_int_codec!]: an unsigned integer of [n] bytes, little-endian. *)
Definition uint_codec (n : nat) : codec Z := {|
  encode := λ x, le_split n x;
  decode := λ r, '(b, r) ← take_array n r; Ok (le_combine b, r);
  wf := λ x, 0 ≤ x < 2 ^ (8 * Z.of_nat n);
|}.

Definition u8_codec := uint_codec 1.
Definition u16_codec := uint_codec 2.
Definition u32_codec := uint_codec 4.
Definition u64_codec := uint_codec 8.
Definition u128_codec := uint_codec 16.

(** The signed instances: two's complement of [n] bytes. *)
Definition to_signed (n : nat) (x : Z) : Z :=
  if x <? 2 ^ (8 * Z.of_nat n - 1) then x else x - 2 ^ (8 * Z.of_nat n).
Definition sint_codec (n : nat) : codec Z := {|
  encode := λ x, le_split n (x mod 2 ^ (8 * Z.of_nat n));
  decode := λ r, '(b, r) ← take_array n r; Ok (to_signed n (le_combine b), r);
  wf := λ x, - 2 ^ (8 * Z.of_nat n - 1) ≤ x < 2 ^ (8 * Z.of_nat n - 1);
|}.
Definition i32_codec := sint_codec 4.
Definition i64_codec := sint_codec 8.

(** A byte array [[u8; N]], written without a prefix. *)
Definition array_codec (n : nat) : codec bytes := {|
  encode := λ x, x;
  decode := take_array n;
  wf := λ x, length x = n;
|}.

(** [Reader::take_len]. *)
Definition take_len : decoder Z := λ r,
  '(len, r) ← decode u32_codec r;
  if MAX_FIELD_LEN <? len then Err (LengthTooLarge len) else Ok (len, r).

(** * Booleans, byte fields, strings *)

Definition bool_codec : codec bool := {|
  encode := λ b : bool, [byte_of (if b then 1 else 0)];
  decode := λ r,
    '(tag, r) ← decode u8_codec r;
    if tag =? 0 then Ok (false, r)
    else if tag =? 1 then Ok (true, r)
    else Err (UnknownDiscriminant tag "bool");
  wf := λ _, True;
|}.

(** [encode_bytes]: the [as u32] cast wraps. *)
Definition encode_bytes (b : bytes) : bytes :=
  encode u32_codec (Z.of_nat (length b) mod 2 ^ 32) ++ b.

Definition decode_bytes : decoder bytes := λ r,
  '(len, r) ← take_len r;
  reader_take len r.

Definition bytes_codec : codec bytes := {|
  encode := encode_bytes;
  decode := decode_bytes;
  wf := λ b, Z.of_nat (length b) ≤ MAX_FIELD_LEN;
|}.

(** [String::from_utf8]'s well-formedness check. *)
Definition in_range (lo hi : Z) (b : byte) : bool := (lo <=? byte_val b) && (byte_val b <=? hi).

Fixpoint utf8_valid (l : bytes) : bool :=
  match l with
  | [] => true
  | b0 :: t =>
      if in_range 0x00 0x7F b0 then utf8_valid t
      else if in_range 0xC2 0xDF b0 then
        match t with
        | b1 :: t => in_range 0x80 0xBF b1 && utf8_valid t
        | _ => false
        end
      else if in_range 0xE0 0xEF b0 then
        match t with
        | b1 :: b2 :: t =>
            in_range (if byte_val b0 =? 0xE0 then 0xA0 else 0x80)
                     (if byte_val b0 =? 0xED then 0x9F else 0xBF) b1
            && in_range 0x80 0xBF b2 && utf8_valid t
        | _ => false
        end
      else if in_range 0xF0 0xF4 b0 then
        match t with
        | b1 :: b2 :: b3 :: t =>
            in_range (if byte_val b0 =? 0xF0 then 0x90 else 0x80)
                     (if byte_val b0 =? 0xF4 then 0x8F else 0xBF) b1
            && in_range 0x80 0xBF b2 && in_range 0x80 0xBF b3 && utf8_valid t
        | _ => false
        end
      else false
  end.

Definition string_codec : codec bytes := {|
  encode := encode_bytes;
  decode := λ r,
    '(b, r) ← decode_bytes r;
    if utf8_valid b then Ok (b, r) else Err (CodecInvalid "non-utf8 string");
  wf := λ b, Z.of_nat (length b) ≤ MAX_FIELD_LEN ∧ utf8_valid b = true;
|}.

(** * Options and vectors *)

Section containers.
Context {A : Type} (c : codec A).

Definition option_codec : codec (option A) := {|
  encode := λ o : option A, match o with
                 | None => [byte_of 0]
                 | Some v => byte_of 1 :: encode c v
                 end;
  decode := λ r,
    '(tag, r) ← decode u8_codec r;
    if tag =? 0 then Ok (None, r)
    else if tag =? 1 then '(v, r) ← decode c r; Ok (Some v, r)
    else Err (UnknownDiscriminant tag "Option");
  wf := λ o : option A, match o with None => True | Some v => wf c v end;
|}.

Fixpoint encode_items (l : list A) : bytes :=
  match l with [] => [] | x :: l => encode c x ++ encode_items l end.

Fixpoint decode_items (n : nat) : decoder (list A) := λ r,
  match n with
  | O => Ok ([], r)
  | S n => '(x, r) ← decode c r; '(l, r) ← decode_items n r; Ok (x :: l, r)
  end.

Definition vec_codec : codec (list A) := {|
  encode := λ l : list A, encode u32_codec (Z.of_nat (length l) mod 2 ^ 32) ++ encode_items l;
  decode := λ r, '(len, r) ← take_len r; decode_items (Z.to_nat len) r;
  wf := λ l, Z.of_nat (length l) ≤ MAX_FIELD_LEN ∧ Forall (wf c) l;
|}.
End containers.

(** Codecs are opened explicitly, never by [simpl]. *)
Arguments uint_codec : simpl never.
Arguments u8_codec : simpl never.
Arguments u16_codec : simpl never.
Arguments u32_codec : simpl never.
Arguments u64_codec : simpl never.
Arguments u128_codec : simpl never.
Arguments sint_codec : simpl never.
Arguments array_codec : simpl never.
Arguments bool_codec : simpl never.
Arguments bytes_codec : simpl never.
Arguments string_codec : simpl never.
Arguments option_codec : simpl never.
Arguments vec_codec : simpl never.
Arguments encode_bytes : simpl never.
Arguments decode_bytes : simpl never.
Arguments take_len : simpl never.

(** * Proof support *)

Lemma take_array_app n b rest : length b = n → take_array n (b ++ rest) = Ok (b, rest).
Proof.
  intros <-. unfold take_array, reader_take, remaining. rewrite length_app.
  destruct (Z.ltb_spec (Z.of_nat (length b + length rest)) (Z.of_nat (length b))); [lia|].
  by rewrite Nat2Z.id, take_app_length, drop_app_length.
Qed.

Lemma reader_take_app n b rest : Z.of_nat (length b) = n → reader_take n (b ++ rest) = Ok (b, rest).
Proof. intros <-. apply (take_array_app (length b)); done. Qed.

Lemma reader_take_Ok n r b rest :
  0 ≤ n → reader_take n r = Ok (b, rest) → Z.of_nat (length b) = n ∧ r = b ++ rest.
Proof.
  unfold reader_take, remaining. intros Hn.
  destruct (Z.ltb_spec (Z.of_nat (length r)) n); [done|]. intros [= <- <-].
  rewrite length_take, take_drop. split; [lia|done].
Qed.

Lemma take_array_Ok n r b rest :
  take_array n r = Ok (b, rest) → length b = n ∧ r = b ++ rest.
Proof. intros H%reader_take_Ok; [|lia]. destruct H as [H ->]. split; [lia|done]. Qed.

(** Take apart a successful decoder. *)
Ltac decode_step :=
  match goal with
  | H : _ ≫= _ = Ok _ |- _ =>
      apply result_bind_Ok_inv in H; destruct H as [[? ?] [? H]]; cbn beta iota in H
  | H : Err _ = Ok _ |- _ => discriminate H
  | H : Ok _ = Ok _ |- _ => progress simplify_eq
  | H : (if ?b then _ else _) = Ok _ |- _ => destruct b eqn:?
  end.
Ltac decode_inv := repeat decode_step.

#[export] Instance uint_lawful n : Lawful (uint_codec n).
Proof.
  split; unfold uint_codec; cbn [encode decode wf].
  - intros x rest Hx. rewrite take_array_app by apply length_le_split. simpl.
    rewrite le_combine_split, Z.mod_small; [done|].
    by rewrite Z.mul_comm.
  - intros b x rest H. decode_inv.
    match goal with H : take_array _ _ = _ |- _ => apply take_array_Ok in H as [<- ->] end.
    rewrite split_le_combine. split; [apply le_combine_bound|done].
Qed.

Lemma pow2_split n : (0 < n)%nat → 2 ^ (8 * Z.of_nat n) = 2 * 2 ^ (8 * Z.of_nat n - 1).
Proof. intros. rewrite <- Z.pow_succ_r by lia. f_equal. lia. Qed.

Lemma to_signed_bounds n v :
  (0 < n)%nat → 0 ≤ v < 2 ^ (8 * Z.of_nat n) →
  - 2 ^ (8 * Z.of_nat n - 1) ≤ to_signed n v < 2 ^ (8 * Z.of_nat n - 1)
  ∧ to_signed n v mod 2 ^ (8 * Z.of_nat n) = v.
Proof.
  intros Hn Hv. pose proof (pow2_split n Hn). unfold to_signed.
  destruct (Z.ltb_spec v (2 ^ (8 * Z.of_nat n - 1))).
  - split; [lia|]. apply Z.mod_small. lia.
  - split; [lia|]. rewrite <- (Z_mod_plus_full _ 1), Z.mod_small; lia.
Qed.

Lemma to_signed_mod n x :
  (0 < n)%nat → - 2 ^ (8 * Z.of_nat n - 1) ≤ x < 2 ^ (8 * Z.of_nat n - 1) →
  to_signed n (x mod 2 ^ (8 * Z.of_nat n)) = x.
Proof.
  intros Hn Hx. pose proof (pow2_split n Hn). unfold to_signed.
  destruct (Z.lt_ge_cases x 0).
  - rewrite <- (Z_mod_plus_full x 1), Z.mod_small by lia.
    destruct (Z.ltb_spec (x + 1 * 2 ^ (8 * Z.of_nat n)) (2 ^ (8 * Z.of_nat n - 1))); lia.
  - rewrite Z.mod_small by lia. destruct (Z.ltb_spec x (2 ^ (8 * Z.of_nat n - 1))); lia.
Qed.

Lemma sint_lawful n : (0 < n)%nat → Lawful (sint_codec n).
Proof.
  intros Hn. split; unfold sint_codec; cbn [encode decode wf].
  - intros x rest Hx. rewrite take_array_app by apply length_le_split. simpl.
    rewrite le_combine_split, (Z.mul_comm (Z.of_nat n)), Z.mod_mod by (apply Z.pow_nonzero; lia).
    by rewrite to_signed_mod.
  - intros b x rest H. decode_inv.
    match goal with H : take_array _ _ = Ok (?l, _) |- _ =>
      apply take_array_Ok in H as [<- ->]; pose proof (le_combine_bound l) as Hb end.
    apply to_signed_bounds in Hb as [Hb Hm]; [|done].
    rewrite Hm, split_le_combine. split; done.
Qed.
#[export] Instance u8_lawful : Lawful u8_codec := uint_lawful 1.
#[export] Instance u16_lawful : Lawful u16_codec := uint_lawful 2.
#[export] Instance u32_lawful : Lawful u32_codec := uint_lawful 4.
#[export] Instance u64_lawful : Lawful u64_codec := uint_lawful 8.
#[export] Instance u128_lawful : Lawful u128_codec := uint_lawful 16.
#[export] Instance i32_lawful : Lawful i32_codec := sint_lawful 4 ltac:(lia).
#[export] Instance i64_lawful : Lawful i64_codec := sint_lawful 8 ltac:(lia).

#[export] Instance array_lawful n : Lawful (array_codec n).
Proof.
  split; unfold array_codec; cbn [encode decode wf].
  - intros x rest Hx. by apply take_array_app.
  - intros b x rest H. by apply take_array_Ok in H.
Qed.

Lemma take_len_app n rest :
  0 ≤ n ≤ MAX_FIELD_LEN → take_len (encode u32_codec n ++ rest) = Ok (n, rest).
Proof.
  intros Hn. unfold take_len. rewrite decode_encode; simpl.
  - destruct (Z.ltb_spec MAX_FIELD_LEN n); [lia|done].
  - unfold MAX_FIELD_LEN in Hn. unfold u32_codec, uint_codec. simpl. lia.
Qed.

Lemma take_len_Ok r n rest :
  take_len r = Ok (n, rest) → 0 ≤ n ≤ MAX_FIELD_LEN ∧ r = encode u32_codec n ++ rest.
Proof.
  unfold take_len. intros H. decode_inv. bool_simpl.
  match goal with H : decode _ _ = _ |- _ => apply decode_sound in H as [Hwf ->] end.
  unfold u32_codec, uint_codec in Hwf. simpl in Hwf. split; [lia|done].
Qed.

Lemma field_len_mod n : 0 ≤ n ≤ MAX_FIELD_LEN → n mod 2 ^ 32 = n.
Proof. unfold MAX_FIELD_LEN. intros. apply Z.mod_small. lia. Qed.

#[export] Instance bytes_lawful : Lawful bytes_codec.
Proof.
  split; unfold bytes_codec; cbn [encode decode wf].
  - intros x rest Hx. unfold decode_bytes, encode_bytes.
    rewrite field_len_mod, <- app_assoc, take_len_app by lia. simpl.
    by apply reader_take_app.
  - intros b x rest H. unfold decode_bytes, encode_bytes in *. decode_inv.
    match goal with H : take_len _ = _ |- _ => apply take_len_Ok in H as [Hn ->] end.
    match goal with H : reader_take _ _ = _ |- _ => apply reader_take_Ok in H as [<- ->]; [|lia] end.
    rewrite field_len_mod, app_assoc by lia. split; [lia|done].
Qed.

Lemma decode_bytes_encode x rest :
  wf bytes_codec x → decode_bytes (encode_bytes x ++ rest) = Ok (x, rest).
Proof. apply (decode_encode (c:=bytes_codec)). Qed.

Lemma decode_bytes_sound b x rest :
  decode_bytes b = Ok (x, rest) → wf bytes_codec x ∧ b = encode_bytes x ++ rest.
Proof. apply (decode_sound (c:=bytes_codec)). Qed.

#[export] Instance string_lawful : Lawful string_codec.
Proof.
  split; unfold string_codec; cbn [encode decode wf].
  - intros x rest [Hl Hu]. rewrite (decode_encode (c:=bytes_codec)) by done. simpl. by rewrite Hu.
  - intros b x rest H. decode_inv.
    match goal with H : decode_bytes _ = _ |- _ =>
      apply (decode_sound (c:=bytes_codec)) in H as [Hwf ->] end.
    done.
Qed.

(** Decoding a tag byte that was just written. *)
Lemma decode_tag n rest : 0 ≤ n < 256 → decode u8_codec (byte_of n :: rest) = Ok (n, rest).
Proof.
  intros Hn. change (byte_of n :: rest) with (encode u8_codec n ++ rest).
  apply decode_encode. unfold u8_codec, uint_codec. simpl. lia.
Qed.

Lemma decode_tag_inv b n rest :
  decode u8_codec b = Ok (n, rest) → 0 ≤ n < 256 ∧ b = byte_of n :: rest.
Proof. intros [Hn ->]%decode_sound. unfold u8_codec, uint_codec in Hn. simpl in Hn. split; [lia|done]. Qed.

#[export] Instance bool_lawful : Lawful bool_codec.
Proof.
  split.
  - intros [] rest _; unfold bool_codec; cbn [encode decode wf app]; rewrite decode_tag by lia; done.
  - intros b x rest H. unfold bool_codec in *; cbn [encode decode wf app] in *. decode_inv; bool_simpl;
      match goal with H : decode _ _ = _ |- _ => apply decode_tag_inv in H as [? ->] end;
      subst; done.
Qed.

Section containers_lawful.
Context {A : Type} (c : codec A) `{!Lawful c}.

#[export] Instance option_lawful : Lawful (option_codec c).
Proof.
  split.
  - intros [x|] rest Hx; unfold option_codec in *; cbn [encode decode wf app] in *;
      rewrite decode_tag by lia; simpl; [|done].
    by rewrite decode_encode.
  - intros b x rest H. unfold option_codec in *; cbn [encode decode wf app] in *. decode_inv; bool_simpl;
      match goal with H : decode u8_codec _ = _ |- _ => apply decode_tag_inv in H as [? ->] end;
      subst; [done|].
    match goal with H : decode c _ = _ |- _ => apply decode_sound in H as [? ->] end. done.
Qed.

Lemma decode_items_encode l rest :
  Forall (wf c) l → decode_items c (length l) (encode_items c l ++ rest) = Ok (l, rest).
Proof.
  induction 1 as [|x l Hx Hl IH]; simpl; [done|].
  rewrite <- app_assoc, decode_encode by done. simpl. by rewrite IH.
Qed.

Lemma decode_items_sound n b l rest :
  decode_items c n b = Ok (l, rest) →
  length l = n ∧ Forall (wf c) l ∧ b = encode_items c l ++ rest.
Proof.
  revert b l rest. induction n as [|n IH]; intros b l rest H; simpl in H; decode_inv; [done|].
  match goal with H : decode c _ = _ |- _ => apply decode_sound in H as [? ->] end.
  match goal with H : decode_items _ _ _ = _ |- _ => apply IH in H as (<- & ? & ->) end.
  simpl. rewrite app_assoc. split_and!; [done|by constructor|done].
Qed.

#[export] Instance vec_lawful : Lawful (vec_codec c).
Proof.
  split; unfold vec_codec; cbn [encode decode wf].
  - intros x rest [Hl Hx]. rewrite field_len_mod, <- app_assoc, take_len_app by lia. simpl.
    rewrite Nat2Z.id. by apply decode_items_encode.
  - intros b x rest H. decode_inv.
    match goal with H : take_len _ = _ |- _ => apply take_len_Ok in H as [? ->] end.
    match goal with H : decode_items _ _ _ = _ |- _ =>
      apply decode_items_sound in H as (Hl & ? & ->) end.
    rewrite <- app_assoc, Hl, Z2Nat.id, field_len_mod by lia. split; [split; [lia|done]|done].
Qed.
End containers_lawful.

(** * Consequences every lawful codec has *)

Section lawful.
Context {A : Type} (c : codec A) `{!Lawful c}.

Lemma decode_exact_encode x : wf c x → decode_exact c (encode c x) = Ok x.
Proof.
  intros Hx. unfold decode_exact. rewrite <- (app_nil_r (encode c x)), decode_encode by done.
  done.
Qed.

Lemma decode_exact_sound b x : decode_exact c b = Ok x → wf c x ∧ b = encode c x.
Proof.
  unfold decode_exact. intros H. decode_inv. bool_simpl.
  match goal with H : decode c _ = _ |- _ => apply decode_sound in H as [? ->] end.
  match goal with H : remaining ?r = 0 |- _ => destruct r; [|unfold remaining in H; simpl in H; lia] end.
  by rewrite app_nil_r.
Qed.

Lemma decode_exact_iff b x : decode_exact c b = Ok x ↔ wf c x ∧ b = encode c x.
Proof. split; [apply decode_exact_sound|]. intros [? ->]. by apply decode_exact_encode. Qed.

Lemma encode_prefix_inj x y r1 r2 :
  wf c x → wf c y → encode c x ++ r1 = encode c y ++ r2 → x = y ∧ r1 = r2.
Proof.
  intros Hx Hy E. pose proof (decode_encode (c:=c) x r1 Hx) as H.
  rewrite E, decode_encode in H by done. by simplify_eq.
Qed.

Lemma encode_inj x y : wf c x → wf c y → encode c x = encode c y → x = y.
Proof. intros Hx Hy E. by destruct (encode_prefix_inj x y [] [] Hx Hy) as [-> _]; [f_equal|]. Qed.
End lawful.

(** Struct codecs: fields in order.  [run_decoder] evaluates the bind of a
    decoded field without opening the codecs; [codec_complete] replays a decoder on bytes
    just encoded; [codec_sound] takes a successful decoder apart field by field. *)
Ltac run_decoder := cbn [mbind result_bind Z.eqb Pos.eqb].
Ltac codec_complete :=
  rewrite <- ?app_assoc;
  repeat (rewrite decode_encode by (done || lia); run_decoder).
Ltac codec_sound :=
  repeat (decode_step ||
    match goal with
    | H : decode ?c ?b = Ok (_, _) |- _ =>
        apply (decode_sound (c:=c)) in H; destruct H as [? H]; subst b
    end).

(** * Struct combinators

    A struct written field by field is the product of its fields' codecs read
    through the record's constructor; a decoder that ends with a validity check
    is guarded.  Their laws are inherited, so a record's codec is lawful as soon
    as its fields' are. *)

Definition pair_codec {A B} (ca : codec A) (cb : codec B) : codec (A * B) := {|
  encode := λ p, encode ca p.1 ++ encode cb p.2;
  decode := λ r, '(a, r) ← decode ca r; '(b, r) ← decode cb r; Ok ((a, b), r);
  wf := λ p, wf ca p.1 ∧ wf cb p.2;
|}.
Notation "a ⊗ b" := (pair_codec a b) (at level 55, right associativity) : afro_scope.

(** Reading a product as a record ([build]) and a record as a product ([fields]). *)
Definition iso_codec {A B} (build : A → B) (fields : B → A) (c : codec A) : codec B := {|
  encode := λ b, encode c (fields b);
  decode := λ r, '(a, r) ← decode c r; Ok (build a, r);
  wf := λ b, wf c (fields b);
|}.

(** [let x = ...decode...; if !ok(&x) { return Err(..) } Ok(x)]. *)
Definition guard_codec {A} (check : A → result CodecError unit) (c : codec A) : codec A := {|
  encode := encode c;
  decode := λ r, '(a, r) ← decode c r; _ ← check a; Ok (a, r);
  wf := λ a, wf c a ∧ check a = Ok tt;
|}.

(** [match u8::decode(r)? { tag => .. }]: the payload's codec depends on the tag. *)
Definition tag_codec {A} (type_name : string) (tag : A → Z) (payload : Z → option (codec A)) : codec A := {|
  encode := λ a, byte_of (tag a) :: match payload (tag a) with Some c => encode c a | None => [] end;
  decode := λ r,
    '(t, r) ← decode u8_codec r;
    match payload t with Some c => decode c r | None => Err (UnknownDiscriminant t type_name) end;
  wf := λ a, match payload (tag a) with Some c => wf c a | None => False end;
|}.

(** One variant of a tagged union: the payload's codec and the projection that
    is total on that variant. *)
Definition variant_codec {A B} (inj : A → B) (proj : B → option A) (c : codec A) : codec B := {|
  encode := λ b, match proj b with Some a => encode c a | None => [] end;
  decode := λ r, '(a, r) ← decode c r; Ok (inj a, r);
  wf := λ b, match proj b with Some a => wf c a | None => False end;
|}.

(** A variant without a payload. *)
Definition unit_codec {A} (a : A) : codec A := {|
  encode := λ _, [];
  decode := λ r, Ok (a, r);
  wf := λ x, x = a;
|}.

Arguments pair_codec : simpl never.
Arguments iso_codec : simpl never.
Arguments guard_codec : simpl never.
Arguments tag_codec : simpl never.
Arguments variant_codec : simpl never.
Arguments unit_codec : simpl never.

#[export] Instance pair_lawful {A B} (ca : codec A) (cb : codec B) `{!Lawful ca, !Lawful cb} :
  Lawful (ca ⊗ cb).
Proof.
  split; unfold pair_codec; cbn [encode decode wf].
  - intros [a b] rest [??]. cbn [fst snd] in *. codec_complete. done.
  - intros b [x y] rest Hd. codec_sound. by rewrite <- app_assoc.
Qed.

Lemma iso_lawful {A B} (build : A → B) fields (c : codec A) :
  (∀ b, build (fields b) = b) → (∀ a, fields (build a) = a) → Lawful c →
  Lawful (iso_codec build fields c).
Proof.
  intros Hbf Hfb Hc. split; unfold iso_codec; cbn [encode decode wf].
  - intros x rest Hx. codec_complete. by rewrite Hbf.
  - intros b x rest Hd. codec_sound. by rewrite Hfb.
Qed.

#[export] Instance guard_lawful {A} check (c : codec A) `{!Lawful c} : Lawful (guard_codec check c).
Proof.
  split; unfold guard_codec; cbn [encode decode wf].
  - intros x rest [Hx Hc]. codec_complete. by rewrite Hc.
  - intros b x rest Hd. codec_sound.
    match goal with H : check ?a ≫= _ = _ |- _ => destruct (check a) as [[]|] eqn:?; simpl in H; [|done] end.
    by simplify_eq.
Qed.

#[export] Instance variant_lawful_unit {A} (a : A) : Lawful (unit_codec a).
Proof.
  split; unfold unit_codec; cbn [encode decode wf].
  - by intros x rest ->.
  - intros b x rest [= <- <-]. done.
Qed.

Lemma variant_lawful {A B} (inj : A → B) proj (c : codec A) :
  (∀ a, proj (inj a) = Some a) → (∀ b a, proj b = Some a → b = inj a) → Lawful c →
  Lawful (variant_codec inj proj c).
Proof.
  intros Hpi Hip Hc. split; unfold variant_codec; cbn [encode decode wf].
  - intros x rest Hx. destruct (proj x) as [a|] eqn:E; [|done]. codec_complete.
    by rewrite (Hip _ _ E).
  - intros b x rest Hd. codec_sound. by rewrite Hpi.
Qed.

(** A tagged union is lawful when every payload is, and each payload only
    describes values of its own tag. *)
Lemma tag_lawful {A} type_name tag (payload : Z → option (codec A)) :
  (∀ a, 0 ≤ tag a < 256) →
  (∀ t c, 0 ≤ t < 256 → payload t = Some c → Lawful c ∧ ∀ a, wf c a → tag a = t) →
  Lawful (tag_codec type_name tag payload).
Proof.
  intros Ht Hp. split; unfold tag_codec; cbn [encode decode wf].
  - intros x rest Hx. cbn [app]. rewrite decode_tag by apply Ht. run_decoder.
    destruct (payload (tag x)) as [c|] eqn:E; [|done].
    destruct (Hp _ _ (Ht x) E) as [Hc _]. by rewrite decode_encode.
  - intros b x rest Hd. decode_inv.
    match goal with H : decode u8_codec _ = _ |- _ => apply decode_tag_inv in H as [Hr ->] end.
    match goal with H : match payload ?t with _ => _ end = _ |- _ =>
      destruct (payload t) as [c|] eqn:E; [|done] end.
    destruct (Hp _ _ Hr E) as [Hc Htag]. apply decode_sound in Hd as [Hwf ->].
    rewrite (Htag _ Hwf), E. done.
Qed.

(** A record's codec is lawful by its fields. *)
Ltac struct_lawful :=
  repeat first
    [ apply iso_lawful; [by intros []|by intros; repeat match goal with p : _ * _ |- _ => destruct p end|]
    | apply variant_lawful;
        [by intros; repeat match goal with p : _ * _ |- _ => destruct p end
        |by intros [] ?; intros; simplify_eq|]
    | apply _ ].

(** A tagged union's codec: one case per tag. *)
Ltac tag_cases :=
  let t := fresh "t" in let c := fresh "c" in let Ht := fresh "Ht" in let Hc := fresh "Hc" in
  intros t c Ht Hc; repeat case_match; try discriminate Hc; injection Hc as <-;
  (split; [struct_lawful|]); intros []; unfold variant_codec, unit_codec; cbn [wf]; done.
