(* ===== verification/Primitives.v ===== *)
(** Amounts, denominations and identifiers ([crates/primitives/src]).

    [Amount], [Height], [Round] and [Timestamp] are newtypes over unsigned
    integers and are represented by [Z] with their width written out; [Denom],
    [ChainId] and [CountryCode] are validated byte strings. *)

From S2P Require Import Prelude Codec.

(** * Errors *)

Inductive PrimError :=
| PrimCodec (e : CodecError)
| InvalidDenom (denom : bytes) (reason : string)
| InvalidChainId (id : bytes) (reason : string)
| Overflow (op : string)
| Invalid (what : string).

#[export] Instance PrimError_eq_dec : EqDecision PrimError.
Proof. solve_decision. Defined.

Definition UNBONDING_MS : Z := 21 * 24 * 60 * 60 * 1000.

(** * Amounts *)

Abbreviation Amount := Z (only parsing).

Definition AFRI_DECIMALS : Z := 9.
Definition SENTE_PER_AFRI : Z := 1000000000.

Definition amount_ok (a : Amount) : Prop := 0 ≤ a ≤ u128_max.
Definition Amount_codec : codec Amount := u128_codec.

(** [Amount::from_afri], from a [u64]. *)
Definition Amount_from_afri (whole : Z) : Amount := saturating_mul u128_max whole SENTE_PER_AFRI.

Definition Amount_is_zero (a : Amount) : bool := a =? 0.

Definition Amount_checked_add (a b : Amount) : result PrimError Amount :=
  ok_or (Overflow "Amount::add") (checked_add u128_max a b).

Definition Amount_checked_sub (a b : Amount) : result PrimError Amount :=
  ok_or (Overflow "Amount::sub") (checked_sub a b).

Definition Amount_checked_mul (a scalar : Z) : result PrimError Amount :=
  ok_or (Overflow "Amount::mul") (checked_mul u128_max a scalar).

Definition Amount_mul_ratio (a : Amount) (numer denom : Z) : result PrimError Amount :=
  if denom =? 0 then Err (Overflow "Amount::mul_ratio/zero-denominator")
  else
    let q := a / denom in
    let r := a mod denom in
    lhs ← ok_or (Overflow "Amount::mul_ratio") (checked_mul u128_max q numer);
    rn ← ok_or (Overflow "Amount::mul_ratio") (checked_mul u128_max r numer);
    let rhs := rn / denom in
    ok_or (Overflow "Amount::mul_ratio") (checked_add u128_max lhs rhs).

(** ** Decimal text *)

Definition is_ascii_digit (b : byte) : bool := in_range 48 57 b.
Definition is_ascii_lowercase (b : byte) : bool := in_range 97 122 b.
Definition byte_eqb (c : Z) (b : byte) : bool := byte_val b =? c.
Definition dot : byte := byte_of 46.
Definition ascii_zero : byte := byte_of 48.
Definition digit (d : Z) : byte := byte_of (48 + d).

(** [<u128 as Display>::fmt]: 39 digits hold [u128::MAX]. *)
Fixpoint dec_digits (fuel : nat) (x : Z) (acc : bytes) : bytes :=
  match fuel with
  | O => acc
  | S fuel =>
      let acc := digit (x mod 10) :: acc in
      if x / 10 =? 0 then acc else dec_digits fuel (x / 10) acc
  end.
Definition u128_to_string (x : Z) : bytes := dec_digits 39 x [].

(** [str::parse::<u128>] on a string of digits: empty input and overflow fail. *)
Fixpoint parse_digits (acc : Z) (s : bytes) : option Z :=
  match s with
  | [] => Some acc
  | b :: s =>
      if is_ascii_digit b then
        acc ← checked_mul u128_max acc 10;
        acc ← checked_add u128_max acc (byte_val b - 48);
        parse_digits acc s
      else None
  end.
Definition parse_u128 (s : bytes) : option Z :=
  match s with [] => None | _ => parse_digits 0 s end.

(** [str::split_once('.')]. *)
Fixpoint split_once (c : Z) (s : bytes) : option (bytes * bytes) :=
  match s with
  | [] => None
  | b :: s => if byte_eqb c b then Some ([], s)
              else '(w, f) ← split_once c s; Some (b :: w, f)
  end.
Definition contains (c : Z) (s : bytes) : bool := existsb (byte_eqb c) s.

(** [format!("{s:0<n$}")] and [format!("{s:0>n$}")]. *)
Definition pad_right (n : nat) (s : bytes) : bytes := s ++ replicate (n - length s) ascii_zero.
Definition pad_left (n : nat) (s : bytes) : bytes := replicate (n - length s) ascii_zero ++ s.

(** [str::trim_end_matches('0')]. *)
Fixpoint drop_zeros (s : bytes) : bytes :=
  match s with
  | b :: s' => if byte_eqb 48 b then drop_zeros s' else s
  | [] => []
  end.
Definition trim_end_zeros (s : bytes) : bytes := rev (drop_zeros (rev s)).

Definition Amount_from_decimal (s : bytes) : result PrimError Amount :=
  let invalid := Invalid "Amount::from_decimal" in
  if bool_decide (s = []) || negb (forallb (λ b, is_ascii_digit b || byte_eqb 46 b) s)
  then Err invalid else
  '(whole_str, frac_str) ←
    match split_once 46 s with
    | Some (w, f) => if contains 46 f then Err invalid else Ok (w, f)
    | None => Ok (s, [])
    end;
  if bool_decide (whole_str = []) || (contains 46 s && bool_decide (frac_str = []))
  then Err invalid else
  let decimals := Z.to_nat AFRI_DECIMALS in
  if (decimals <? length frac_str)%nat then Err invalid else
  whole ← ok_or invalid (parse_u128 whole_str);
  let padded := pad_right decimals frac_str in
  frac ← (if bool_decide (padded = []) then Ok 0 else ok_or invalid (parse_u128 padded));
  ok_or (Overflow "Amount::from_decimal")
    (units ← checked_mul u128_max whole SENTE_PER_AFRI; checked_add u128_max units frac).

(** [Display for Amount], and [Amount::to_decimal]. *)
Definition Amount_to_decimal (a : Amount) : bytes :=
  let whole := a / SENTE_PER_AFRI in
  let frac := a mod SENTE_PER_AFRI in
  let frac_str := pad_left (Z.to_nat AFRI_DECIMALS) (u128_to_string frac) in
  let trimmed := trim_end_zeros frac_str in
  u128_to_string whole ++ [dot] ++ (if bool_decide (trimmed = []) then [ascii_zero] else trimmed).

(** * Denominations *)

Abbreviation Denom := bytes (only parsing).

Definition MAX_DENOM_LEN : Z := 128.
Definition MIN_DENOM_LEN : Z := 3.
Definition SOVEREIGN_PREFIX : bytes := bs "sov/".
Definition CONTRACT_PREFIX : bytes := bs "cw/".

Definition starts_with (p s : bytes) : bool := bool_decide (p `prefix_of` s).
Definition ends_with_byte (c : Z) (s : bytes) : bool :=
  match last s with Some b => byte_eqb c b | None => false end.
(** [str::contains("//")], for a two-byte needle. *)
Fixpoint contains_pair (c : Z) (s : bytes) : bool :=
  match s with
  | b1 :: (b2 :: _) as s' => (byte_eqb c b1 && byte_eqb c b2) || contains_pair c s'
  | _ => false
  end.

Definition denom_char (b : byte) : bool :=
  is_ascii_lowercase b || is_ascii_digit b || byte_eqb 47 b || byte_eqb 45 b || byte_eqb 46 b.

Definition Denom_native : Denom := bs "afri".

Definition Denom_new (s : bytes) : result PrimError Denom :=
  let invalid reason := Err (InvalidDenom s reason) in
  if Z.of_nat (length s) <? MIN_DENOM_LEN then invalid "shorter than 3 bytes"
  else if MAX_DENOM_LEN <? Z.of_nat (length s) then invalid "longer than 128 bytes"
  else if negb (match s with b :: _ => is_ascii_lowercase b | [] => false end)
  then invalid "must start with a lowercase ASCII letter"
  else if negb (forallb denom_char s) then invalid "may only contain [a-z0-9/.-]"
  else if contains_pair 47 s || ends_with_byte 47 s then invalid "malformed path segments"
  else Ok s.

Definition Denom_sovereign (country_code unit : bytes) : result PrimError Denom :=
  if negb (length country_code =? 2)%nat || negb (forallb is_ascii_lowercase country_code)
  then Err (InvalidDenom country_code
    "country code must be two lowercase ASCII letters (ISO 3166-1 alpha-2)")
  else Denom_new (SOVEREIGN_PREFIX ++ country_code ++ [byte_of 47] ++ unit).

Definition Denom_is_native (d : Denom) : bool := bool_decide (d = bs "afri").
Definition Denom_is_sovereign (d : Denom) : bool := starts_with SOVEREIGN_PREFIX d.
Definition Denom_is_contract (d : Denom) : bool := starts_with CONTRACT_PREFIX d.

Definition denom_ok (d : Denom) : Prop := Denom_new d = Ok d.

Definition Denom_codec : codec Denom := {|
  encode := encode string_codec;
  decode := λ r,
    '(s, r) ← decode string_codec r;
    match Denom_new s with
    | Ok d => Ok (d, r)
    | Err (InvalidDenom _ reason) => Err (CodecInvalid reason)
    | Err _ => Err (CodecInvalid "")
    end;
  wf := denom_ok;
|}.

(** * Heights, rounds, timestamps *)

Abbreviation Height := Z (only parsing).
Abbreviation Round := Z (only parsing).
Abbreviation Timestamp := Z (only parsing).

Definition GENESIS : Height := 0.
Definition Height_next (h : Height) : Height := saturating_add u64_max h 1.
Definition Round_next (r : Round) : Round := saturating_add u32_max r 1.
Definition Timestamp_as_secs (t : Timestamp) : Z := t / 1000.
Definition Height_codec : codec Height := u64_codec.
Definition Round_codec : codec Round := u32_codec.
Definition Timestamp_codec : codec Timestamp := u64_codec.

(** * Chain ids *)

Abbreviation ChainId := bytes (only parsing).
Definition CHAIN_ID_MAX_LEN : Z := 50.

Definition chain_id_char (b : byte) : bool :=
  is_ascii_lowercase b || is_ascii_digit b || byte_eqb 45 b.

Definition ChainId_new (s : bytes) : result PrimError ChainId :=
  let invalid reason := Err (InvalidChainId s reason) in
  if bool_decide (s = []) then invalid "must not be empty"
  else if CHAIN_ID_MAX_LEN <? Z.of_nat (length s) then invalid "longer than 50 bytes"
  else if negb (forallb chain_id_char s) then invalid "may only contain [a-z0-9-]"
  else Ok s.

Definition ChainId_codec : codec ChainId := {|
  encode := encode string_codec;
  decode := λ r,
    '(s, r) ← decode string_codec r;
    match ChainId_new s with
    | Ok d => Ok (d, r)
    | Err (InvalidChainId _ reason) => Err (CodecInvalid reason)
    | Err _ => Err (CodecInvalid "")
    end;
  wf := λ s, ChainId_new s = Ok s;
|}.

(** * Country codes *)

Abbreviation CountryCode := bytes (only parsing).

Definition CountryCode_UNSPECIFIED : CountryCode := bs "zz".

Definition CountryCode_new (s : bytes) : result PrimError CountryCode :=
  if negb (length s =? 2)%nat || negb (forallb is_ascii_lowercase s)
  then Err (Invalid "CountryCode") else Ok s.

Definition CountryCode_codec : codec CountryCode := {|
  encode := λ s, s;
  decode := λ r,
    '(b, r) ← take_array 2 r;
    if negb (forallb is_ascii_lowercase b)
    then Err (CodecInvalid "country code must be two lowercase ASCII letters")
    else Ok (b, r);
  wf := λ s, CountryCode_new s = Ok s;
|}.

Arguments Amount_codec : simpl never.
Arguments Denom_codec : simpl never.
Arguments Height_codec : simpl never.
Arguments Round_codec : simpl never.
Arguments Timestamp_codec : simpl never.
Arguments ChainId_codec : simpl never.
Arguments CountryCode_codec : simpl never.

(** * Lemmas *)

Lemma amount_ok_wf a : wf Amount_codec a ↔ amount_ok a.
Proof. unfold amount_ok, u128_max, Amount_codec, u128_codec, uint_codec. simpl. lia. Qed.

#[export] Instance Amount_lawful : Lawful Amount_codec := u128_lawful.
#[export] Instance Height_lawful : Lawful Height_codec := u64_lawful.
#[export] Instance Round_lawful : Lawful Round_codec := u32_lawful.
#[export] Instance Timestamp_lawful : Lawful Timestamp_codec := u64_lawful.

Lemma Amount_checked_add_Ok a b c :
  Amount_checked_add a b = Ok c ↔ c = a + b ∧ a + b ≤ u128_max.
Proof.
  unfold Amount_checked_add, checked_add. destruct (Z.leb_spec (a + b) u128_max); simpl.
  - split; [intros [= <-]; lia|]. intros [-> _]. done.
  - split; [done|lia].
Qed.

Lemma Amount_checked_sub_Ok a b c :
  Amount_checked_sub a b = Ok c ↔ c = a - b ∧ b ≤ a.
Proof.
  unfold Amount_checked_sub, checked_sub. destruct (Z.leb_spec b a); simpl.
  - split; [intros [= <-]; lia|]. intros [-> _]. done.
  - split; [done|lia].
Qed.

Lemma Amount_checked_mul_Ok a b c :
  Amount_checked_mul a b = Ok c ↔ c = a * b ∧ a * b ≤ u128_max.
Proof.
  unfold Amount_checked_mul, checked_mul. destruct (Z.leb_spec (a * b) u128_max); simpl.
  - split; [intros [= <-]; lia|]. intros [-> _]. done.
  - split; [done|lia].
Qed.

(** ** Decimal digits *)

Definition digits_val (a : Z) (s : bytes) : Z := fold_left (λ a b, 10 * a + (byte_val b - 48)) s a.
Abbreviation digits s := (forallb is_ascii_digit s = true).

Lemma digits_val_app a s t : digits_val a (s ++ t) = digits_val (digits_val a s) t.
Proof. apply fold_left_app. Qed.

Lemma is_ascii_digit_bounds b : is_ascii_digit b = true → 0 ≤ byte_val b - 48 ≤ 9.
Proof. unfold is_ascii_digit, in_range. intros. bool_simpl. lia. Qed.

Lemma digits_val_ge a s : 0 ≤ a → digits s → a ≤ digits_val a s.
Proof.
  revert a. induction s as [|b s IH]; intros a Ha Hs; simpl in *; [lia|]. bool_simpl.
  pose proof (is_ascii_digit_bounds b ltac:(done)).
  etrans; [|apply IH; [lia|done]]. lia.
Qed.

Lemma digits_val_bound a s :
  0 ≤ a → digits s → digits_val a s < (a + 1) * 10 ^ Z.of_nat (length s).
Proof.
  revert a. induction s as [|b s IH]; intros a Ha Hs; cbn [length digits_val fold_left forallb] in *.
  { simpl. lia. }
  bool_simpl. pose proof (is_ascii_digit_bounds b ltac:(done)).
  eapply Z.lt_le_trans; [apply IH; [lia|done]|].
  rewrite Nat2Z.inj_succ, Z.pow_succ_r by lia.
  pose proof (Z.pow_pos_nonneg 10 (Z.of_nat (length s))). nia.
Qed.

Lemma parse_digits_spec a s :
  0 ≤ a ≤ u128_max → digits s →
  parse_digits a s = if digits_val a s <=? u128_max then Some (digits_val a s) else None.
Proof.
  revert a. induction s as [|b s IH]; intros a Ha Hs; simpl in *.
  { destruct (Z.leb_spec a u128_max); [done|lia]. }
  bool_simpl. match goal with H : is_ascii_digit b = _ |- _ => rewrite H;
    pose proof (is_ascii_digit_bounds b H) end.
  assert (10 * a + (byte_val b - 48) ≤ digits_val (10 * a + (byte_val b - 48)) s)
    by (apply digits_val_ge; [lia|done]).
  unfold checked_mul, checked_add. destruct (Z.leb_spec (a * 10) u128_max); simpl.
  - destruct (Z.leb_spec (a * 10 + (byte_val b - 48)) u128_max); simpl.
    + rewrite IH by (done || lia).
      by replace (a * 10 + (byte_val b - 48)) with (10 * a + (byte_val b - 48)) by lia.
    + destruct (Z.leb_spec (digits_val (10 * a + (byte_val b - 48)) s) u128_max); [lia|done].
  - destruct (Z.leb_spec (digits_val (10 * a + (byte_val b - 48)) s) u128_max); [lia|done].
Qed.

Lemma parse_u128_spec s :
  s ≠ [] → digits s →
  parse_u128 s = if digits_val 0 s <=? u128_max then Some (digits_val 0 s) else None.
Proof.
  intros Hne Hs. rewrite <- parse_digits_spec by (done || unfold u128_max; lia). by destruct s.
Qed.

Lemma digit_val d : 0 ≤ d ≤ 9 → byte_val (digit d) = 48 + d ∧ is_ascii_digit (digit d) = true.
Proof.
  intros Hd. assert (d ∈ [0;1;2;3;4;5;6;7;8;9]) as Hin.
  { rewrite !elem_of_cons. lia. }
  repeat (apply elem_of_cons in Hin as [->|Hin]; [done|]). by apply elem_of_nil in Hin.
Qed.

Lemma dec_digits_spec k : ∀ fuel x acc,
  (1 ≤ k ≤ fuel)%nat → 0 ≤ x < 10 ^ Z.of_nat k →
  ∃ ds, dec_digits fuel x acc = ds ++ acc ∧ ds ≠ [] ∧ (length ds ≤ k)%nat
    ∧ digits ds ∧ digits_val 0 ds = x.
Proof.
  induction k as [|k IH]; intros [|fuel] x acc Hk Hx; try lia. cbn [dec_digits].
  pose proof (Z.div_mod x 10 ltac:(lia)) as Hdm.
  pose proof (Z.mod_pos_bound x 10 ltac:(lia)) as Hm.
  destruct (digit_val (x mod 10) ltac:(lia)) as [Hv Hd].
  rewrite Nat2Z.inj_succ, Z.pow_succ_r in Hx by lia.
  destruct (Z.eqb_spec (x / 10) 0) as [E|E].
  - exists [digit (x mod 10)]. simpl. rewrite Hd, Hv. split_and!; [done|done|lia|done|lia].
  - assert (x / 10 < 10 ^ Z.of_nat k) by (apply Z.div_lt_upper_bound; lia).
    assert (0 ≤ x / 10) by (apply Z.div_pos; lia).
    assert (k ≠ 0)%nat by (intros ->; simpl in *; lia).
    destruct (IH fuel (x / 10) (digit (x mod 10) :: acc)) as (ds & -> & Hne & Hl & Hds & Hval);
      [lia|lia|].
    exists (ds ++ [digit (x mod 10)]). rewrite <- app_assoc. split_and!.
    + done.
    + by destruct ds.
    + rewrite length_app. simpl. lia.
    + by rewrite forallb_app, Hds; simpl; rewrite Hd.
    + rewrite digits_val_app, Hval. simpl. lia.
Qed.

Lemma u128_to_string_spec k x :
  (1 ≤ k ≤ 39)%nat → 0 ≤ x < 10 ^ Z.of_nat k →
  u128_to_string x ≠ [] ∧ (length (u128_to_string x) ≤ k)%nat
  ∧ digits (u128_to_string x) ∧ digits_val 0 (u128_to_string x) = x.
Proof.
  intros Hk Hx. unfold u128_to_string.
  destruct (dec_digits_spec k 39 x [] Hk Hx) as (ds & -> & H). by rewrite app_nil_r.
Qed.

Lemma parse_u128_to_string x : 0 ≤ x ≤ u128_max → parse_u128 (u128_to_string x) = Some x.
Proof.
  intros Hx. destruct (u128_to_string_spec 39 x) as (Hne & _ & Hd & Hv); [lia| |].
  { unfold u128_max in Hx. simpl. lia. }
  rewrite parse_u128_spec, Hv by done.
  destruct (Z.leb_spec x u128_max); [done|lia].
Qed.

Lemma drop_zeros_pad t : ∃ n, t = replicate n ascii_zero ++ drop_zeros t.
Proof.
  induction t as [|b t [n IH]]; simpl; [by exists 0%nat|].
  unfold byte_eqb. destruct (Z.eqb_spec (byte_val b) 48) as [Hb|]; [|by exists 0%nat].
  assert (b = ascii_zero) as -> by (apply coqutil.Byte.byte.unsigned_inj; done).
  exists (S n). simpl. by rewrite <- IH.
Qed.

Lemma trim_end_zeros_pad s :
  trim_end_zeros s ++ replicate (length s - length (trim_end_zeros s)) ascii_zero = s.
Proof.
  unfold trim_end_zeros. destruct (drop_zeros_pad (rev s)) as [n Hn].
  revert Hn. generalize (drop_zeros (rev s)) as d. intros d Hn.
  apply (f_equal (@rev byte)) in Hn. rewrite rev_involutive, rev_app_distr in Hn.
  assert (rev (replicate n ascii_zero) = replicate n ascii_zero) as Hr
    by (rewrite rev_alt; apply reverse_replicate).
  rewrite Hr in Hn. rewrite Hn at 2. rewrite Hn, length_app, length_replicate.
  by replace (length (rev d) + n - length (rev d))%nat with n by lia.
Qed.

Lemma digits_not_dot s : digits s → contains 46 s = false.
Proof.
  intros Hs. apply not_true_iff_false. unfold contains. rewrite existsb_exists.
  intros (b & Hb & E). rewrite forallb_forall in Hs. apply Hs in Hb.
  unfold byte_eqb, is_ascii_digit, in_range in *. bool_simpl. lia.
Qed.

Lemma split_once_digits w f : digits w → split_once 46 (w ++ dot :: f) = Some (w, f).
Proof.
  induction w as [|b w IH]; [done|]. intros Hw. pose proof (digits_not_dot _ Hw) as Hc.
  simpl in *. apply orb_false_iff in Hc as [-> _]. bool_simpl. by rewrite IH.
Qed.

Lemma digits_val_zeros n s : digits_val 0 (replicate n ascii_zero ++ s) = digits_val 0 s.
Proof. induction n; done. Qed.

Lemma digits_zeros n : digits (replicate n ascii_zero).
Proof. induction n; done. Qed.

Lemma digits_app s t : digits (s ++ t) ↔ digits s ∧ digits t.
Proof. by rewrite forallb_app, andb_true_iff. Qed.

(** The fractional field as printed, and as re-padded by the parser. *)
Lemma frac_field frac :
  0 ≤ frac < SENTE_PER_AFRI →
  let fs := pad_left 9 (u128_to_string frac) in
  let t := trim_end_zeros fs in
  let f := if bool_decide (t = []) then [ascii_zero] else t in
  length fs = 9%nat ∧ parse_u128 fs = Some frac ∧ digits fs
  ∧ f ≠ [] ∧ digits f ∧ (length f ≤ 9)%nat ∧ pad_right 9 f = fs.
Proof.
  intros Hf fs t f.
  destruct (u128_to_string_spec 9 frac) as (Hne & Hl & Hd & Hv); [lia|done|].
  assert (length fs = 9%nat) as Hfs.
  { unfold fs, pad_left. rewrite length_app, length_replicate. lia. }
  assert (digits fs) as Hdf by (unfold fs, pad_left; apply digits_app; auto using digits_zeros).
  assert (t ++ replicate (9 - length t) ascii_zero = fs) as Ht.
  { rewrite <- Hfs. apply trim_end_zeros_pad. }
  split_and!; [done| |done|..].
  - rewrite parse_u128_spec by (done || intros E; by rewrite E in Hfs).
    assert (digits_val 0 fs = frac) as -> by (unfold fs, pad_left; by rewrite digits_val_zeros).
    unfold SENTE_PER_AFRI in Hf. unfold u128_max.
    destruct (Z.leb_spec frac (2 ^ 128 - 1)); [done|lia].
  - unfold f. case_bool_decide; done.
  - unfold f. case_bool_decide; [done|]. rewrite <- Ht in Hdf. apply digits_app in Hdf as [Hdt _]. exact Hdt.
  - unfold f. case_bool_decide; simpl; [lia|].
    apply (f_equal length) in Ht. rewrite length_app in Ht. lia.
  - unfold pad_right, f. case_bool_decide as E; [|done]. rewrite E in Ht. by rewrite <- Ht.
Qed.

Lemma from_decimal_digits w f whole frac :
  digits w → w ≠ [] → digits f → f ≠ [] → (length f ≤ 9)%nat →
  parse_u128 w = Some whole → parse_u128 (pad_right 9 f) = Some frac →
  Amount_from_decimal (w ++ dot :: f) =
    ok_or (Overflow "Amount::from_decimal")
      (units ← checked_mul u128_max whole SENTE_PER_AFRI; checked_add u128_max units frac).
Proof.
  intros Hw Hwne Hf Hfne Hlen Hpw Hpf. unfold Amount_from_decimal.
  change (Z.to_nat AFRI_DECIMALS) with 9%nat.
  rewrite bool_decide_eq_false_2 by (by destruct w). simpl.
  assert (forallb (λ b, is_ascii_digit b || byte_eqb 46 b) (w ++ dot :: f) = true) as ->.
  { rewrite forallb_forall in Hw, Hf |- *. intros b [Hb|[<-|Hb]]%in_app_iff; [|done|].
    - by rewrite Hw.
    - by rewrite Hf. }
  cbn [negb orb]. rewrite split_once_digits, (digits_not_dot f) by done. cbn [mbind result_bind].
  rewrite !bool_decide_eq_false_2, andb_false_r by done. cbn [orb].
  destruct (Nat.ltb_spec 9 (length f)); [lia|]. rewrite Hpw, Hpf. simpl.
  rewrite bool_decide_eq_false_2; [done|]. by destruct f.
Qed.

(** An amount written into a payment request parses back to the same value. *)
Theorem amount_decimal_roundtrip a :
  amount_ok a → Amount_from_decimal (Amount_to_decimal a) = Ok a.
Proof.
  intros Ha. unfold amount_ok in Ha. unfold Amount_to_decimal. cbn [app].
  assert (0 ≤ a mod SENTE_PER_AFRI < SENTE_PER_AFRI) as Hf by (apply Z.mod_pos_bound; done).
  pose proof (Z.div_mod a SENTE_PER_AFRI ltac:(done)) as Hdm.
  assert (0 ≤ a / SENTE_PER_AFRI ≤ u128_max) as Hw.
  { split; [by apply Z.div_pos; lia|]. unfold SENTE_PER_AFRI in *. lia. }
  destruct (frac_field _ Hf) as (_ & Hp & _ & Hne & Hd & Hl & Hpad).
  change (Z.to_nat AFRI_DECIMALS) with 9%nat.
  destruct (u128_to_string_spec 39 (a / SENTE_PER_AFRI)) as (Hwne & _ & Hwd & _);
    [lia|unfold u128_max in Hw; simpl; lia|].
  rewrite (from_decimal_digits _ _ (a / SENTE_PER_AFRI) (a mod SENTE_PER_AFRI));
    try done; [|by apply parse_u128_to_string|by rewrite Hpad].
  unfold checked_mul, checked_add.
  destruct (Z.leb_spec (a / SENTE_PER_AFRI * SENTE_PER_AFRI) u128_max); [simpl|lia].
  destruct (Z.leb_spec (a / SENTE_PER_AFRI * SENTE_PER_AFRI + a mod SENTE_PER_AFRI) u128_max);
    simpl; [f_equal|]; lia.
Qed.

(** ** Ratios *)

Lemma div_ratio_split a n d : 0 < d → 0 ≤ n → (a / d) * n + (a mod d * n) / d = a * n / d.
Proof.
  intros Hd Hn. rewrite (Z.div_mod a d) at 3 by lia.
  rewrite Z.mul_add_distr_r, <- Z.mul_assoc, (Z.mul_comm d), Z.div_add_l by lia. done.
Qed.

Lemma mul_ratio_spec a numer denom :
  amount_ok a → 0 ≤ numer ≤ u128_max → 0 ≤ denom ≤ u128_max →
  match Amount_mul_ratio a numer denom with
  | Ok r => denom ≠ 0 ∧ r = a * numer / denom ∧ amount_ok r
  | Err _ => denom = 0 ∨ u128_max < a mod denom * numer ∨ u128_max < a * numer / denom
  end.
Proof.
  unfold amount_ok. intros Ha Hn Hd. unfold Amount_mul_ratio.
  destruct (Z.eqb_spec denom 0); [by left|].
  pose proof (div_ratio_split a numer denom ltac:(lia) ltac:(lia)) as Hs.
  pose proof (Z.mod_pos_bound a denom ltac:(lia)).
  assert (0 ≤ a / denom) by (apply Z.div_pos; lia).
  assert (0 ≤ (a mod denom * numer) / denom) by (apply Z.div_pos; nia).
  unfold checked_mul, checked_add.
  destruct (Z.leb_spec (a / denom * numer) u128_max); simpl; [|lia].
  destruct (Z.leb_spec (a mod denom * numer) u128_max); simpl; [|lia].
  destruct (Z.leb_spec (a / denom * numer + a mod denom * numer / denom) u128_max); simpl; [|lia].
  split_and!; nia.
Qed.

(** [mul_ratio] never rounds up, wraps or loses precision: when it returns,
    the result is exactly the floor of [a * numer / denom]; and it fails only
    on a zero denominator, on a product [(a mod denom) * numer] too wide for the
    128 bits the split leaves it, or on a result that does not fit. *)
Theorem mul_ratio_exact a numer denom :
  amount_ok a → 0 ≤ numer ≤ u128_max → 0 ≤ denom ≤ u128_max →
  match Amount_mul_ratio a numer denom with
  | Ok r => denom ≠ 0 ∧ r = a * numer / denom ∧ amount_ok r
  | Err _ => denom = 0 ∨ u128_max < a mod denom * numer ∨ u128_max < a * numer / denom
  end.
Proof. apply mul_ratio_spec. Qed.

(** ** Validated strings *)

Lemma utf8_ascii s : forallb (λ b, byte_val b <? 128) s = true → utf8_valid s = true.
Proof.
  induction s as [|b s IH]; [done|]. simpl. intros. bool_simpl.
  pose proof (coqutil.Byte.byte.unsigned_range b). unfold in_range at 1.
  destruct (Z.leb_spec 0 (byte_val b)), (Z.leb_spec (byte_val b) 127); simpl; auto; lia.
Qed.

Lemma forallb_impl {A} (f g : A → bool) l :
  (∀ x, f x = true → g x = true) → forallb f l = true → forallb g l = true.
Proof. intros H. rewrite !forallb_forall. eauto. Qed.

Lemma char_ascii b :
  denom_char b = true ∨ chain_id_char b = true ∨ is_ascii_lowercase b = true → byte_val b < 128.
Proof.
  unfold denom_char, chain_id_char, is_ascii_lowercase, is_ascii_digit, byte_eqb, in_range. lia.
Qed.

Lemma Denom_new_Ok s d : Denom_new s = Ok d → d = s ∧ denom_ok s ∧ wf string_codec s.
Proof.
  intros H. assert (d = s) as -> by (unfold Denom_new in H; repeat case_match; congruence).
  split_and!; [done..|]. unfold Denom_new in H.
  destruct (Z.ltb_spec (Z.of_nat (length s)) MIN_DENOM_LEN); [done|].
  destruct (Z.ltb_spec MAX_DENOM_LEN (Z.of_nat (length s))) as [|Hmax]; [done|].
  destruct (negb match s with [] => _ | _ => _ end); [done|].
  destruct (forallb denom_char s) eqn:Hc; [|done].
  unfold string_codec; simpl. unfold MAX_DENOM_LEN, MAX_FIELD_LEN in *. split; [lia|].
  apply utf8_ascii. eapply forallb_impl; [|exact Hc].
  intros b Hb. apply Z.ltb_lt, char_ascii. auto.
Qed.

Lemma denom_ok_len d : denom_ok d → 3 ≤ Z.of_nat (length d) ≤ 128.
Proof.
  unfold denom_ok, Denom_new, MIN_DENOM_LEN, MAX_DENOM_LEN.
  destruct (Z.ltb_spec (Z.of_nat (length d)) 3); [done|].
  destruct (Z.ltb_spec 128 (Z.of_nat (length d))); [done|]. lia.
Qed.

#[export] Instance Denom_lawful : Lawful Denom_codec.
Proof.
  split; unfold Denom_codec; cbn [encode decode wf].
  - intros x rest Hx. destruct (Denom_new_Ok _ _ Hx) as (_ & _ & Hw).
    rewrite decode_encode by done. simpl. unfold denom_ok in Hx. by rewrite Hx.
  - intros b x rest H. decode_inv.
    match goal with H : decode _ _ = _ |- _ => apply decode_sound in H as [_ ->] end.
    match goal with H : match Denom_new ?s with _ => _ end = _ |- _ =>
      destruct (Denom_new s) as [d|[]] eqn:E end; try done.
    apply Denom_new_Ok in E as (-> & ? & ?). by simplify_eq.
Qed.

Lemma ChainId_new_Ok s d : ChainId_new s = Ok d → d = s ∧ wf string_codec s.
Proof.
  unfold ChainId_new. intros H. destruct (bool_decide (s = [])); [done|].
  destruct (Z.ltb_spec CHAIN_ID_MAX_LEN (Z.of_nat (length s))) as [|Hmax]; [done|].
  destruct (forallb chain_id_char s) eqn:Hc; [|done]. simpl in H. simplify_eq.
  split; [done|]. unfold string_codec; simpl. unfold CHAIN_ID_MAX_LEN, MAX_FIELD_LEN in *.
  split; [lia|]. apply utf8_ascii. eapply forallb_impl; [|exact Hc].
  intros b Hb. apply Z.ltb_lt, char_ascii. auto.
Qed.

#[export] Instance ChainId_lawful : Lawful ChainId_codec.
Proof.
  split; unfold ChainId_codec; cbn [encode decode wf].
  - intros x rest Hx. destruct (ChainId_new_Ok _ _ Hx) as (_ & Hw).
    rewrite decode_encode by done. simpl. by rewrite Hx.
  - intros b x rest H. decode_inv.
    match goal with H : decode _ _ = _ |- _ => apply decode_sound in H as [_ ->] end.
    match goal with H : match ChainId_new ?s with _ => _ end = _ |- _ =>
      destruct (ChainId_new s) as [d|[]] eqn:E end; try done.
    pose proof E as E'. apply ChainId_new_Ok in E' as (-> & ?). by simplify_eq.
Qed.

#[export] Instance CountryCode_lawful : Lawful CountryCode_codec.
Proof.
  split; unfold CountryCode_codec, CountryCode_new; cbn [encode decode wf].
  - intros x rest Hx. destruct (Nat.eqb_spec (length x) 2) as [Hl|]; [|done].
    destruct (forallb is_ascii_lowercase x) eqn:E; [|done].
    rewrite take_array_app by done. simpl. by rewrite E.
  - intros b x rest H. decode_inv.
    match goal with H : take_array _ _ = _ |- _ => apply take_array_Ok in H as [Hl ->] end.
    bool_simpl. rewrite Hl. by match goal with H : forallb _ _ = true |- _ => rewrite H end.
Qed.

(** The asset namespaces are disjoint and decided by the string alone: no
    denomination is both sovereign and contract-issued, the native coin is
    neither, and [Denom::sovereign] only ever builds sovereign denominations. *)
Theorem denom_namespaces_disjoint d cc unit :
  (Denom_is_sovereign d && Denom_is_contract d = false)
  ∧ (Denom_is_native d = true → Denom_is_sovereign d = false ∧ Denom_is_contract d = false)
  ∧ (∀ s, Denom_sovereign cc unit = Ok s →
       Denom_is_sovereign s = true ∧ Denom_is_contract s = false ∧ Denom_is_native s = false).
Proof.
  assert (∀ s, Denom_is_sovereign s = true → Denom_is_contract s = false) as Hd.
  { intros s Hs. unfold Denom_is_sovereign, Denom_is_contract, starts_with in *. bool_simpl.
    apply bool_decide_eq_false. destruct Hs as [k ->]. intros [k' E]. by simplify_eq. }
  split_and!.
  - apply not_true_iff_false. intros H. bool_simpl. by rewrite Hd in *.
  - unfold Denom_is_native. intros ->%bool_decide_eq_true. done.
  - intros s. unfold Denom_sovereign. case_match; [done|]. intros (-> & _)%Denom_new_Ok.
    assert (Denom_is_sovereign (SOVEREIGN_PREFIX ++ cc ++ [byte_of 47] ++ unit) = true) as Hs.
    { unfold Denom_is_sovereign, starts_with. apply bool_decide_eq_true. by eexists. }
    split_and!; [done|by apply Hd|]. by apply bool_decide_eq_false.
Qed.
