(* ===== verification/Crypto.v ===== *)
(** Hashing, addresses and keys ([crates/crypto/src]: [hash.rs], [address.rs],
    [keys.rs]).

    BLAKE3 and Ed25519 come from external crates.  They are the parameters
    [Hasher] and [Signer]: a digest function with 32-byte output, and the two
    predicates the code asks of [ed25519_dalek] (whether 32 bytes decompress to a
    point, and [verify_strict]).  Nothing is assumed about collisions; theorems
    that need collision-freeness state it for the finite list of inputs that the
    code actually hashes. *)

From S2P Require Import Prelude Codec Primitives.
From coqutil Require Import Word.LittleEndianList.

(** The digest of the [blake3] crate. *)
Class Hasher := {
  blake3 : bytes → bytes;
  blake3_len b : length (blake3 b) = 32%nat;
}.

(** What the code uses of [ed25519_dalek]. *)
Class Signer := {
  is_point : bytes → bool;
  verify_strict : bytes → bytes → bytes → bool;
}.

(** * [hash.rs] *)

Abbreviation Hash32 := bytes (only parsing).

Definition Hash32_ZERO : Hash32 := replicate 32 (byte_of 0).
Definition Hash32_codec : codec Hash32 := array_codec 32.
Arguments Hash32_codec : simpl never.
#[export] Instance Hash32_lawful : Lawful Hash32_codec := array_lawful 32.

(** [Hash32::bit], counting from the most significant bit of byte 0. *)
Definition Hash32_bit (h : Hash32) (i : nat) : bool :=
  match h !! (i / 8)%nat with
  | Some b => Z.land (Z.shiftr (byte_val b) (7 - Z.of_nat (i mod 8))) 1 =? 1
  | None => false
  end.

Inductive Domain :=
| DAddress | DTxSignDoc | DTxId | DBlockId | DMerkleLeaf | DMerkleNode
| DStateLeaf | DStateNode | DVoteSignDoc | DValidatorId | DGroupAddress
| DModuleAddress | DValidatorSetHash | DContactCommitment | DWitnessLogId
| DTreeHeadSignDoc | DWitnessEntry | DP2pTranscript | DP2pSessionKey
| DP2pHandshakeSignDoc | DGenesisId | DP2pAddrBucket.

#[export] Instance Domain_eq_dec : EqDecision Domain.
Proof. solve_decision. Defined.

Definition Domain_as_str (d : Domain) : bytes :=
  bs match d with
     | DAddress => "afrolink/v1/address"
     | DTxSignDoc => "afrolink/v1/tx-sign-doc"
     | DTxId => "afrolink/v1/tx-id"
     | DBlockId => "afrolink/v1/block-id"
     | DMerkleLeaf => "afrolink/v1/merkle-leaf"
     | DMerkleNode => "afrolink/v1/merkle-node"
     | DStateLeaf => "afrolink/v1/state-leaf"
     | DStateNode => "afrolink/v1/state-node"
     | DVoteSignDoc => "afrolink/v1/vote-sign-doc"
     | DValidatorId => "afrolink/v1/validator-id"
     | DGroupAddress => "afrolink/v1/group-address"
     | DModuleAddress => "afrolink/v1/module-address"
     | DValidatorSetHash => "afrolink/v1/validator-set-hash"
     | DContactCommitment => "afrolink/v1/contact-commitment"
     | DWitnessLogId => "afrolink/v1/witness-log-id"
     | DTreeHeadSignDoc => "afrolink/v1/tree-head-sign-doc"
     | DWitnessEntry => "afrolink/v1/witness-entry"
     | DP2pTranscript => "afrolink/v1/p2p-transcript"
     | DP2pSessionKey => "afrolink/v1/p2p-session-key"
     | DP2pHandshakeSignDoc => "afrolink/v1/p2p-handshake-sign-doc"
     | DGenesisId => "afrolink/v1/genesis-id"
     | DP2pAddrBucket => "afrolink/v1/p2p-addr-bucket"
     end.

(** [absorb_domain]: the bytes fed to the hasher before the data. *)
Definition absorb_domain (d : Domain) : bytes :=
  encode u32_codec (Z.of_nat (length (Domain_as_str d)) mod 2 ^ 32) ++ Domain_as_str d.

(** The whole input of a domain-separated hash. *)
Definition hash_input (d : Domain) (data : bytes) : bytes := absorb_domain d ++ data.

Definition hash `{Hasher} (d : Domain) (data : bytes) : Hash32 := blake3 (hash_input d data).
Definition hash_parts `{Hasher} (d : Domain) (parts : list bytes) : Hash32 :=
  blake3 (hash_input d (concat parts)).

(** No two of the listed inputs share a digest. *)
Definition collision_free `{Hasher} (inputs : list bytes) : Prop :=
  ∀ x y, x ∈ inputs → y ∈ inputs → blake3 x = blake3 y → x = y.

(** * [address.rs] *)

Abbreviation Address := bytes (only parsing).

Definition ADDRESS_LEN : nat := 20.
Definition Address_ZERO : Address := replicate ADDRESS_LEN (byte_of 0).
Definition address_ok (a : Address) : Prop := length a = ADDRESS_LEN.
Definition Address_codec : codec Address := array_codec ADDRESS_LEN.
Arguments Address_codec : simpl never.
#[export] Instance Address_lawful : Lawful Address_codec := array_lawful 20.

(** [digest.get(..ADDRESS_LEN).unwrap_or(&[0; ADDRESS_LEN])]. *)
Definition truncate_digest (digest : Hash32) : Address :=
  if (length digest <? ADDRESS_LEN)%nat then Address_ZERO else take ADDRESS_LEN digest.

(** * [keys.rs] *)

Abbreviation PublicKey := bytes (only parsing).
Abbreviation Signature := bytes (only parsing).

Section keys.
Context `{Hasher, Signer}.

Definition Address_from_public_key (pk : PublicKey) : Address :=
  truncate_digest (hash DAddress pk).
Definition Address_derived (d : Domain) (seed : bytes) : Address :=
  truncate_digest (hash d seed).

Definition PublicKey_ok (pk : PublicKey) : Prop := length pk = 32%nat ∧ is_point pk = true.

(** [PublicKey::verify]: strict verification of the domain-separated digest. *)
Definition PublicKey_verify (pk : PublicKey) (d : Domain) (message : bytes) (sig : Signature) : bool :=
  verify_strict pk (hash d message) sig.

Definition PublicKey_codec : codec PublicKey := {|
  encode := λ pk, pk;
  decode := λ r,
    '(b, r) ← take_array 32 r;
    if is_point b then Ok (b, r) else Err (CodecInvalid "invalid public key");
  wf := PublicKey_ok;
|}.
Definition Signature_codec : codec Signature := array_codec 64.

#[export] Instance PublicKey_lawful : Lawful PublicKey_codec.
Proof.
  split; unfold PublicKey_codec, PublicKey_ok; cbn [encode decode wf].
  - intros x rest [Hl Hp]. rewrite take_array_app by done. simpl. by rewrite Hp.
  - intros b x rest Hd. decode_inv.
    match goal with H : take_array _ _ = _ |- _ => apply take_array_Ok in H as [? ->] end. done.
Qed.
#[export] Instance Signature_lawful : Lawful Signature_codec := array_lawful 64.

Lemma hash_len d b : length (hash d b) = 32%nat.
Proof. apply blake3_len. Qed.
Lemma hash_parts_len d b : length (hash_parts d b) = 32%nat.
Proof. apply blake3_len. Qed.

Lemma Address_derived_ok d seed : address_ok (Address_derived d seed).
Proof.
  unfold Address_derived, truncate_digest, address_ok. rewrite hash_len. simpl.
  rewrite length_take, hash_len. done.
Qed.
End keys.
Arguments PublicKey_codec {_} : simpl never.
Arguments Signature_codec : simpl never.

(** A concrete digest, for evaluating the definitions: a polynomial in the
    input bytes modulo 2^256. *)
Definition sample_digest (b : bytes) : bytes :=
  le_split 32 (fold_left (λ h x, Z.land (h * 65599 + byte_val x + 1) (Z.ones 256)) b 7).
Definition sample_hasher : Hasher.
Proof. refine {| blake3 := sample_digest |}. intros b. apply length_le_split. Defined.

(** A concrete signature check: a signature is the digest of key and message,
    twice. *)
Definition sample_sign (pk msg : bytes) : bytes :=
  sample_digest (pk ++ msg) ++ sample_digest (pk ++ msg).
Definition sample_signer : Signer := {|
  is_point := λ _, true;
  verify_strict := λ pk msg sig, bool_decide (sig = sample_sign pk msg);
|}.

(** * Domain separation *)

Lemma Domain_as_str_inj d1 d2 : Domain_as_str d1 = Domain_as_str d2 → d1 = d2.
Proof. destruct d1, d2; vm_compute; congruence. Qed.

Lemma Domain_as_str_wf d : wf bytes_codec (Domain_as_str d).
Proof. unfold bytes_codec, MAX_FIELD_LEN. simpl. destruct d; vm_compute; congruence. Qed.

Lemma hash_input_inj d1 d2 x1 x2 : hash_input d1 x1 = hash_input d2 x2 → d1 = d2 ∧ x1 = x2.
Proof.
  intros E.
  change (encode bytes_codec (Domain_as_str d1) ++ x1 = encode bytes_codec (Domain_as_str d2) ++ x2) in E.
  apply encode_prefix_inj in E as [Hd ->]; [|apply _|apply Domain_as_str_wf..].
  by apply Domain_as_str_inj in Hd.
Qed.

(** Domain separation is injective: the bytes fed to the hasher determine
    both the domain and the data, so nothing hashed in one context can be
    reinterpreted in another without a digest collision. *)
Theorem hash_input_injective d1 d2 x1 x2 :
  hash_input d1 x1 = hash_input d2 x2 ↔ d1 = d2 ∧ x1 = x2.
Proof. split; [apply hash_input_inj|by intros [-> ->]]. Qed.

Lemma hash_inj `{Hasher} inputs d1 d2 x1 x2 :
  collision_free inputs → hash_input d1 x1 ∈ inputs → hash_input d2 x2 ∈ inputs →
  hash d1 x1 = hash d2 x2 → d1 = d2 ∧ x1 = x2.
Proof. intros Hc H1 H2 E. apply hash_input_inj, Hc; done. Qed.

(** Two 32-byte strings packed side by side can be told apart. *)
Lemma app32_inj (a b c d : Hash32) : length a = length c → a ++ b = c ++ d → a = c ∧ b = d.
Proof. intros Hl E. by apply app_inj_1. Qed.

(** Deciding collision-freedom of concrete inputs. *)
Definition collision_freeb `{Hasher} (inputs : list bytes) : bool :=
  let ds := (λ x, (x, blake3 x)) <$> inputs in
  forallb (λ x, forallb (λ y, implb (bool_decide (x.2 = y.2)) (bool_decide (x.1 = y.1))) ds) ds.

Lemma collision_freeb_sound `{Hasher} inputs : collision_freeb inputs = true → collision_free inputs.
Proof.
  unfold collision_freeb, collision_free. cbv zeta. rewrite forallb_forall. intros Hc x y Hx Hy E.
  assert (∀ z, z ∈ inputs → List.In (z, blake3 z) ((λ x, (x, blake3 x)) <$> inputs)) as Hin.
  { intros z Hz. apply list_elem_of_In, list_elem_of_fmap. by exists z. }
  specialize (Hc _ (Hin x Hx)). rewrite forallb_forall in Hc. specialize (Hc _ (Hin y Hy)). simpl in Hc.
  rewrite bool_decide_eq_true_2 in Hc by done. simpl in Hc. by bool_simpl.
Qed.
