(* ===== verification/Merkle.v ===== *)
(** Binary Merkle trees, inclusion and consistency proofs
    ([crates/crypto/src/merkle.rs], the RFC 6962 shape).

    Sizes and indices ([usize]) are [nat].  The recursions of the source halve
    the slice at [split_point]; they are written with [Equations] on the number
    of leaves. *)

From S2P Require Import Prelude Codec Primitives Crypto.
From Equations Require Import Equations.

Set Equations With UIP.
#[local] Open Scope nat_scope.

Inductive CryptoError := InvalidProof (reason : string).

#[export] Instance CryptoError_eq_dec : EqDecision CryptoError.
Proof. solve_decision. Defined.

(** * The split point *)

(** The [while k * 2 < n] loop; [n] iterations are more than it needs. *)
Fixpoint split_loop (fuel k n : nat) : nat :=
  match fuel with
  | O => k
  | S fuel => if k * 2 <? n then split_loop fuel (k * 2) n else k
  end.
Definition split_point (n : nat) : nat := split_loop n 1 n.

Lemma split_loop_spec fuel k n :
  1 ≤ k → k < n → n ≤ k * 2 ^ fuel →
  k ≤ split_loop fuel k n ∧ split_loop fuel k n < n ∧ n ≤ 2 * split_loop fuel k n
  ∧ ∃ e, split_loop fuel k n = k * 2 ^ e.
Proof.
  revert k. induction fuel as [|fuel IH]; intros k Hk Hkn Hn; simpl in *.
  { lia. }
  destruct (Nat.ltb_spec (k * 2) n).
  - destruct (IH (k * 2)) as (?&?&?&[e He]); [lia|lia| |].
    { rewrite <- Nat.mul_assoc. simpl. lia. }
    split_and!; [lia..|]. exists (S e). simpl. lia.
  - split_and!; [lia..|]. exists 0. simpl. lia.
Qed.

Lemma split_point_spec n :
  2 ≤ n → 1 ≤ split_point n ∧ split_point n < n ∧ n ≤ 2 * split_point n
  ∧ ∃ e, split_point n = 2 ^ e.
Proof.
  intros Hn. destruct (split_loop_spec n 1 n) as (?&?&?&[e He]); [lia|lia| |].
  { pose proof (Nat.pow_gt_lin_r 2 n). lia. }
  split_and!; [done..|]. exists e. unfold split_point. lia.
Qed.

Lemma pow2_sandwich a b n :
  2 ^ a < n → n ≤ 2 * 2 ^ a → 2 ^ b < n → n ≤ 2 * 2 ^ b → a = b.
Proof.
  intros H1 H2 H3 H4. rewrite <- !Nat.pow_succ_r' in *.
  assert (a < S b) by (apply (Nat.pow_lt_mono_r_iff 2); lia).
  assert (b < S a) by (apply (Nat.pow_lt_mono_r_iff 2); lia). lia.
Qed.

(** A shorter tree that still reaches past the split has the same split. *)
Lemma split_point_shorter m n :
  2 ≤ n → split_point n < m → m ≤ n → split_point m = split_point n.
Proof.
  intros Hn Hm Hmn. destruct (split_point_spec n Hn) as (?&?&?&[a Ha]).
  destruct (split_point_spec m) as (?&?&?&[b Hb]); [lia|].
  rewrite Ha, Hb. f_equal. apply (pow2_sandwich b a m); lia.
Qed.

Section merkle.
Context `{Hasher}.
Implicit Types (leaves : list Hash32) (h : Hash32).

Definition empty_root : Hash32 := hash DMerkleNode [].
Definition merkle_leaf_hash (data : bytes) : Hash32 := hash DMerkleLeaf data.
Definition merkle_node_hash (left right : Hash32) : Hash32 := hash_parts DMerkleNode [left; right].

(** [MerkleTree::from_items]. *)
Definition MerkleTree_from_items (items : list bytes) : list Hash32 := merkle_leaf_hash <$> items.

(** [MerkleTree::root_of]. *)
Equations? root_of (leaves : list Hash32) : Hash32 by wf (length leaves) lt :=
  root_of [] := empty_root;
  root_of [only] := only;
  root_of (x :: y :: r) :=
    let k := split_point (length (x :: y :: r)) in
    merkle_node_hash (root_of (take k (x :: y :: r))) (root_of (drop k (x :: y :: r))).
Proof.
  all: destruct (split_point_spec (length (x :: y :: r))) as (?&?&_); [simpl; lia|].
  - fold k. rewrite firstn_length_le; simpl in *; lia.
  - fold k. rewrite length_drop. simpl in *. lia.
Qed.

(** ** Inclusion proofs *)

Record MerkleProof := {
  mp_index : nat;
  mp_total : nat;
  mp_siblings : list Hash32;
}.

(** [MerkleTree::collect_siblings]: what it pushes, in order. *)
Equations? collect_siblings (leaves : list Hash32) (index : nat) : list Hash32
  by wf (length leaves) lt :=
  collect_siblings [] index := [];
  collect_siblings [_] index := [];
  collect_siblings (x :: y :: r) index :=
    let k := split_point (length (x :: y :: r)) in
    if index <? k
    then root_of (drop k (x :: y :: r)) :: collect_siblings (take k (x :: y :: r)) index
    else root_of (take k (x :: y :: r)) :: collect_siblings (drop k (x :: y :: r)) (index - k).
Proof.
  all: destruct (split_point_spec (length (x :: y :: r))) as (?&?&_); [simpl; lia|].
  - fold k. rewrite firstn_length_le; simpl in *; lia.
  - fold k. rewrite length_drop. simpl in *. lia.
Qed.

Definition MerkleTree_prove (leaves : list Hash32) (index : nat) : result CryptoError MerkleProof :=
  if length leaves <=? index then Err (InvalidProof "leaf index out of range")
  else Ok {| mp_index := index; mp_total := length leaves;
             mp_siblings := collect_siblings leaves index |}.

(** The [while total > 1] loop of [compute_root]: which side the path takes,
    from the root down. *)
Equations? frames_of (idx total : nat) : list bool by wf total lt :=
  frames_of idx 0 := [];
  frames_of idx 1 := [];
  frames_of idx (S (S t)) :=
    let k := split_point (S (S t)) in
    if idx <? k then true :: frames_of idx k else false :: frames_of (idx - k) (S (S t) - k).
Proof.
  all: destruct (split_point_spec (S (S t))) as (?&?&_); [lia|]; subst k; lia.
Qed.

(** The bottom-up loop over the reversed frames and siblings. *)
Fixpoint climb_loop (frames : list bool) (siblings : list Hash32) (acc : Hash32)
  : result CryptoError Hash32 :=
  match frames with
  | [] => Ok acc
  | on_left :: frames =>
      match siblings with
      | [] => Err (InvalidProof "ran out of siblings")
      | sibling :: siblings =>
          climb_loop frames siblings
            (if on_left : bool then merkle_node_hash acc sibling else merkle_node_hash sibling acc)
      end
  end.

Definition MerkleProof_compute_root (p : MerkleProof) (leaf : Hash32)
  : result CryptoError Hash32 :=
  if (mp_total p =? 0) || (mp_total p <=? mp_index p)
  then Err (InvalidProof "index out of range for total") else
  let frames := frames_of (mp_index p) (mp_total p) in
  if negb (length frames =? length (mp_siblings p))
  then Err (InvalidProof "sibling count does not match tree shape") else
  climb_loop (rev frames) (rev (mp_siblings p)) leaf.

Definition MerkleProof_verify (p : MerkleProof) (root leaf : Hash32) (index total : nat)
  : result CryptoError unit :=
  if negb (mp_index p =? index) || negb (mp_total p =? total)
  then Err (InvalidProof "proof is for a different position or tree size") else
  r ← MerkleProof_compute_root p leaf;
  if bool_decide (r = root) then Ok () else Err (InvalidProof "recomputed root does not match").

(** ** Consistency proofs *)

Record ConsistencyProof := {
  cp_old_size : nat;
  cp_new_size : nat;
  cp_nodes : list Hash32;
}.

(** [MerkleTree::collect_consistency], called with [0 < m <= leaves.len()];
    the first test makes it total on the arguments it is never given. *)
Equations? collect_consistency (leaves : list Hash32) (m : nat) (is_top : bool) : list Hash32
  by wf (length leaves) lt :=
  collect_consistency leaves m is_top with (m =? length leaves) => {
    | true := if is_top then [] else [root_of leaves];
    | false with le_lt_dec (length leaves) 1 => {
      | left _ := [];
      | right _ :=
        let k := split_point (length leaves) in
        if m <=? k
        then collect_consistency (take k leaves) m is_top ++ [root_of (drop k leaves)]
        else collect_consistency (drop k leaves) (m - k) false ++ [root_of (take k leaves)] } }.
Proof.
  all: destruct (split_point_spec (length leaves)) as (?&?&_); [lia|]; subst k.
  - rewrite firstn_length_le; lia.
  - rewrite length_drop. lia.
Qed.

Definition MerkleTree_prove_consistency (leaves : list Hash32) (old_size : nat)
  : result CryptoError ConsistencyProof :=
  let new_size := length leaves in
  if new_size <? old_size then Err (InvalidProof "old size exceeds tree size") else
  Ok {| cp_old_size := old_size; cp_new_size := new_size;
        cp_nodes := if negb (old_size =? 0) && negb (old_size =? new_size)
                    then collect_consistency leaves old_size true else [] |}.

Definition next_node (nodes : list Hash32) : result CryptoError (Hash32 * list Hash32) :=
  match nodes with
  | h :: nodes => Ok (h, nodes)
  | [] => Err (InvalidProof "consistency proof ran out of nodes")
  end.

(** [ConsistencyProof::replay]; the iterator is threaded through. *)
Equations? replay (m n : nat) (is_top : bool) (known_old : Hash32) (nodes : list Hash32)
  : result CryptoError (Hash32 * Hash32 * list Hash32) by wf n lt :=
  replay m n is_top known_old nodes with (m =? n) => {
    | true := if is_top then Ok (known_old, known_old, nodes)
              else '(h, nodes) ← next_node nodes; Ok (h, h, nodes);
    | false with le_lt_dec n 1 => {
      | left _ := Err (InvalidProof "empty subtree");
      | right _ :=
        let k := split_point n in
        if m <=? k then
          '(old, new_left, nodes) ← replay m k is_top known_old nodes;
          '(rhs, nodes) ← next_node nodes;
          Ok (old, merkle_node_hash new_left rhs, nodes)
        else
          '(old_right, new_right, nodes) ← replay (m - k) (n - k) false known_old nodes;
          '(lhs, nodes) ← next_node nodes;
          Ok (merkle_node_hash lhs old_right, merkle_node_hash lhs new_right, nodes) } }.
Proof.
  all: destruct (split_point_spec n) as (?&?&_); [lia|]; subst k; lia.
Qed.

Definition ConsistencyProof_verify (p : ConsistencyProof) (old_root new_root : Hash32)
    (old_size new_size : nat) : result CryptoError unit :=
  if negb (cp_old_size p =? old_size) || negb (cp_new_size p =? new_size)
  then Err (InvalidProof "proof spans a different pair of tree sizes") else
  if cp_new_size p <? cp_old_size p then Err (InvalidProof "old size exceeds new size") else
  if (cp_old_size p =? 0) || (cp_old_size p =? cp_new_size p) then
    if negb (bool_decide (cp_nodes p = []))
    then Err (InvalidProof "degenerate consistency proof must be empty") else
    let expected := if cp_old_size p =? 0 then empty_root else new_root in
    if bool_decide (old_root = expected) then Ok ()
    else Err (InvalidProof "old root does not match")
  else
    '(old, new, rest) ← replay (cp_old_size p) (cp_new_size p) true old_root (cp_nodes p);
    if negb (bool_decide (rest = []))
    then Err (InvalidProof "consistency proof has spare nodes") else
    if negb (bool_decide (old = old_root))
    then Err (InvalidProof "proof does not reproduce the old root") else
    if negb (bool_decide (new = new_root))
    then Err (InvalidProof "proof does not reproduce the new root") else
    Ok ().
End merkle.

(** * Induction along the split *)

Lemma split_lengths {A} (l : list A) :
  2 ≤ length l →
  let k := split_point (length l) in
  1 ≤ k ∧ k < length l ∧ length (take k l) = k ∧ length (drop k l) = length l - k.
Proof.
  intros Hl k. destruct (split_point_spec (length l) Hl) as (?&?&_).
  rewrite length_drop, firstn_length_le by (subst k; lia). subst k. split_and!; lia.
Qed.

Lemma split_ind {A} (P : list A → Prop) :
  (∀ l, length l ≤ 1 → P l) →
  (∀ l, 2 ≤ length l → P (take (split_point (length l)) l) →
        P (drop (split_point (length l)) l) → P l) →
  ∀ l, P l.
Proof.
  intros Hsmall Hsplit l.
  induction l as [l IH] using (well_founded_induction (Wf_nat.well_founded_ltof _ length)).
  unfold Wf_nat.ltof in IH. destruct (le_lt_dec (length l) 1); [by apply Hsmall|].
  destruct (split_lengths l ltac:(lia)) as (?&?&?&?).
  apply Hsplit; [lia|apply IH; lia..].
Qed.

Section merkle_proofs.
Context `{Hasher}.
Implicit Types (leaves : list Hash32) (leaf : Hash32).

(** The [Hash32] type invariant. *)
Definition hash32_ok (h : Hash32) : Prop := length h = 32.

Lemma merkle_node_hash_len a b : hash32_ok (merkle_node_hash a b).
Proof. apply hash_parts_len. Qed.

Lemma root_of_split leaves :
  2 ≤ length leaves →
  root_of leaves =
    merkle_node_hash (root_of (take (split_point (length leaves)) leaves))
                     (root_of (drop (split_point (length leaves)) leaves)).
Proof. destruct leaves as [|x [|y r]]; simpl; intros; [lia|lia|]. by rewrite root_of_equation_3. Qed.

Lemma root_of_len leaves : Forall hash32_ok leaves → hash32_ok (root_of leaves).
Proof.
  intros Hl. destruct (le_lt_dec 2 (length leaves)).
  - rewrite root_of_split by lia. apply merkle_node_hash_len.
  - destruct leaves as [|x [|]]; simpl in *; [rewrite root_of_equation_1; apply hash_len| |lia].
    rewrite root_of_equation_2. by inversion Hl.
Qed.

Lemma collect_siblings_split leaves index :
  2 ≤ length leaves →
  collect_siblings leaves index =
    if index <? split_point (length leaves)
    then root_of (drop (split_point (length leaves)) leaves)
           :: collect_siblings (take (split_point (length leaves)) leaves) index
    else root_of (take (split_point (length leaves)) leaves)
           :: collect_siblings (drop (split_point (length leaves)) leaves)
                (index - split_point (length leaves)).
Proof.
  destruct leaves as [|x [|y r]]; simpl; intros; [lia|lia|]. by rewrite collect_siblings_equation_3.
Qed.

Lemma frames_of_split idx n :
  2 ≤ n →
  frames_of idx n =
    if idx <? split_point n then true :: frames_of idx (split_point n)
    else false :: frames_of (idx - split_point n) (n - split_point n).
Proof. destruct n as [|[|t]]; intros; [lia|lia|]. by rewrite frames_of_equation_3. Qed.

(** The bottom-up loop, read from the top. *)
Fixpoint climb (frames : list bool) (siblings : list Hash32) (leaf : Hash32) : Hash32 :=
  match frames, siblings with
  | true :: fs, s :: ss => merkle_node_hash (climb fs ss leaf) s
  | false :: fs, s :: ss => merkle_node_hash s (climb fs ss leaf)
  | _, _ => leaf
  end.

Lemma climb_loop_app f1 f2 s1 s2 acc :
  length f1 = length s1 →
  climb_loop (f1 ++ f2) (s1 ++ s2) acc =
    (x ← climb_loop f1 s1 acc; climb_loop f2 s2 x).
Proof.
  revert s1 acc. induction f1 as [|b f1 IH]; intros [|s s1] acc Hl; simplify_eq/=; [done|].
  by apply IH.
Qed.

Lemma climb_loop_rev frames siblings leaf :
  length frames = length siblings →
  climb_loop (rev frames) (rev siblings) leaf = Ok (climb frames siblings leaf).
Proof.
  revert siblings. induction frames as [|b fs IH]; intros [|s ss] Hl; simplify_eq/=; [done|].
  rewrite climb_loop_app by (by rewrite !length_rev). rewrite IH by done. simpl.
  by destruct b.
Qed.

Lemma compute_root_climb p leaf :
  mp_index p < mp_total p →
  length (frames_of (mp_index p) (mp_total p)) = length (mp_siblings p) →
  MerkleProof_compute_root p leaf =
    Ok (climb (frames_of (mp_index p) (mp_total p)) (mp_siblings p) leaf).
Proof.
  intros Hi Hl. unfold MerkleProof_compute_root.
  destruct (Nat.eqb_spec (mp_total p) 0), (Nat.leb_spec (mp_total p) (mp_index p)); try lia. simpl.
  rewrite Hl, Nat.eqb_refl. simpl. by apply climb_loop_rev.
Qed.

Lemma compute_root_Ok p leaf r :
  MerkleProof_compute_root p leaf = Ok r →
  mp_index p < mp_total p
  ∧ length (frames_of (mp_index p) (mp_total p)) = length (mp_siblings p)
  ∧ r = climb (frames_of (mp_index p) (mp_total p)) (mp_siblings p) leaf.
Proof.
  intros Hr. assert (mp_index p < mp_total p
    ∧ length (frames_of (mp_index p) (mp_total p)) = length (mp_siblings p)) as [Hi Hl].
  { unfold MerkleProof_compute_root in Hr.
    destruct (Nat.eqb_spec (mp_total p) 0), (Nat.leb_spec (mp_total p) (mp_index p)); try done.
    simpl in Hr. destruct (Nat.eqb_spec (length (frames_of (mp_index p) (mp_total p)))
      (length (mp_siblings p))); [done|done]. }
  rewrite compute_root_climb in Hr by done. injection Hr as <-. done.
Qed.

Lemma inclusion_complete leaves index leaf :
  leaves !! index = Some leaf →
  length (frames_of index (length leaves)) = length (collect_siblings leaves index)
  ∧ climb (frames_of index (length leaves)) (collect_siblings leaves index) leaf = root_of leaves.
Proof.
  revert index. induction leaves as [l Hl|l Hl IHl IHr] using split_ind; intros index Hi.
  - destruct l as [|x [|]]; simpl in *; [by rewrite lookup_nil in Hi| |lia].
    apply list_lookup_singleton_Some in Hi as [-> ->]. by rewrite root_of_equation_2.
  - destruct (split_lengths l Hl) as (Hk & Hkl & Htk & Hdr).
    rewrite frames_of_split, collect_siblings_split, (root_of_split l) by done.
    destruct (Nat.ltb_spec index (split_point (length l))).
    + destruct (IHl index) as [E1 E2]; [by rewrite lookup_take_lt|].
      rewrite Htk in *. simpl. by rewrite E1, E2.
    + destruct (IHr (index - split_point (length l))) as [E1 E2].
      { rewrite lookup_drop. by replace (_ + _)%nat with index by lia. }
      rewrite Hdr in *. simpl. by rewrite E1, E2.
Qed.

(** An honest tree's inclusion proof for any of its leaves verifies. *)
Theorem inclusion_proof_verifies leaves index leaf :
  leaves !! index = Some leaf →
  ∃ p, MerkleTree_prove leaves index = Ok p ∧
       MerkleProof_verify p (root_of leaves) leaf index (length leaves) = Ok ().
Proof.
  intros Hi. pose proof (lookup_lt_Some _ _ _ Hi) as Hlt. unfold MerkleTree_prove.
  destruct (Nat.leb_spec (length leaves) index); [lia|]. eexists. split; [done|].
  destruct (inclusion_complete _ _ _ Hi) as [E1 E2].
  unfold MerkleProof_verify. simpl. rewrite !Nat.eqb_refl. simpl.
  rewrite compute_root_climb by done. simpl. rewrite E2. by rewrite bool_decide_eq_true_2.
Qed.

(** ** Soundness: what the verifier can conclude *)

Abbreviation node_input a b := (hash_input DMerkleNode (a ++ b)) (only parsing).

(** The inputs hashed to compute a tree's root. *)
Equations? tree_inputs (leaves : list Hash32) : list bytes by wf (length leaves) lt :=
  tree_inputs [] := [];
  tree_inputs [_] := [];
  tree_inputs (x :: y :: r) :=
    let k := split_point (length (x :: y :: r)) in
    hash_input DMerkleNode (root_of (take k (x :: y :: r)) ++ root_of (drop k (x :: y :: r)))
      :: tree_inputs (take k (x :: y :: r)) ++ tree_inputs (drop k (x :: y :: r)).
Proof.
  all: destruct (split_lengths (x :: y :: r)) as (?&?&Ht&Hd); [simpl; lia|].
  - subst k. simpl in *. lia.
  - subst k. simpl in *. lia.
Qed.

(** The inputs a verifier hashes to climb from a leaf to the root. *)
Fixpoint climb_inputs (frames : list bool) (siblings : list Hash32) (leaf : Hash32) : list bytes :=
  match frames, siblings with
  | true :: fs, s :: ss => node_input (climb fs ss leaf) s :: climb_inputs fs ss leaf
  | false :: fs, s :: ss => node_input s (climb fs ss leaf) :: climb_inputs fs ss leaf
  | _, _ => []
  end.

Lemma tree_inputs_split leaves :
  2 ≤ length leaves →
  tree_inputs leaves =
    node_input (root_of (take (split_point (length leaves)) leaves))
               (root_of (drop (split_point (length leaves)) leaves))
      :: tree_inputs (take (split_point (length leaves)) leaves)
      ++ tree_inputs (drop (split_point (length leaves)) leaves).
Proof.
  destruct leaves as [|x [|y r]]; simpl; intros; [lia|lia|]. by rewrite tree_inputs_equation_3.
Qed.

Lemma merkle_node_hash_inj inputs a b c d :
  collision_free inputs → node_input a b ∈ inputs → node_input c d ∈ inputs →
  hash32_ok a → hash32_ok c →
  merkle_node_hash a b = merkle_node_hash c d → a = c ∧ b = d.
Proof.
  unfold merkle_node_hash, hash_parts. simpl. rewrite !app_nil_r.
  intros Hc H1 H2 Ha Hc' E. apply (hash_inj inputs) in E as [_ E]; [|done..].
  apply app32_inj in E; [done|]. by rewrite Ha, Hc'.
Qed.

Lemma collision_free_mono i1 i2 : i1 ⊆ i2 → collision_free i2 → collision_free i1.
Proof. unfold collision_free. set_solver. Qed.

Lemma climb_len frames siblings leaf :
  hash32_ok leaf → hash32_ok (climb frames siblings leaf).
Proof. destruct frames as [|[] ?], siblings; simpl; auto using merkle_node_hash_len. Qed.

Lemma inclusion_sound leaves index siblings leaf :
  Forall hash32_ok leaves → Forall hash32_ok siblings → hash32_ok leaf →
  index < length leaves →
  length (frames_of index (length leaves)) = length siblings →
  collision_free (tree_inputs leaves
    ++ climb_inputs (frames_of index (length leaves)) siblings leaf) →
  climb (frames_of index (length leaves)) siblings leaf = root_of leaves →
  leaves !! index = Some leaf.
Proof.
  revert index siblings.
  induction leaves as [l Hl|l Hl IHl IHr] using split_ind;
    intros index siblings Hls Hss Hleaf Hi Hlen Hcf Hroot.
  { destruct l as [|x [|]]; simpl in *; [lia| |lia].
    assert (index = 0) as -> by lia. rewrite root_of_equation_2 in Hroot.
    rewrite frames_of_equation_2 in Hroot. simpl in Hroot. by subst. }
  destruct (split_lengths l Hl) as (Hk & Hkl & Htk & Hdr).
  rewrite frames_of_split, tree_inputs_split in Hcf by done.
  rewrite frames_of_split in Hroot, Hlen by done. rewrite root_of_split in Hroot by done.
  assert (hash32_ok (root_of (take (split_point (length l)) l))) by (by apply root_of_len, Forall_take).
  destruct (Nat.ltb_spec index (split_point (length l))).
  - destruct siblings as [|s ss]; [done|]. simpl in *.
    apply (merkle_node_hash_inj _ _ _ _ _ Hcf) in Hroot as [Hroot _];
      [|set_solver..|by apply climb_len|done].
    apply Forall_cons in Hss as [_ Hss]. injection Hlen as Hlen.
    specialize (IHl index ss). rewrite Htk in IHl.
    rewrite lookup_take_lt in IHl by done. apply IHl; try done; [by apply Forall_take|].
    eapply collision_free_mono; [|exact Hcf]. set_solver.
  - destruct siblings as [|s ss]; [done|]. simpl in *.
    apply Forall_cons in Hss as [Hs Hss]. injection Hlen as Hlen.
    apply (merkle_node_hash_inj _ _ _ _ _ Hcf) in Hroot as [_ Hroot];
      [|set_solver..|done|done].
    specialize (IHr (index - split_point (length l)) ss). rewrite Hdr in IHr.
    rewrite lookup_drop in IHr. replace (split_point (length l) + (index - split_point (length l)))
      with index in IHr by lia.
    apply IHr; try done; [by apply Forall_drop|lia|].
    eapply collision_free_mono; [|exact Hcf]. set_solver.
Qed.

(** An inclusion proof accepted against a tree's root, at the index and size the
    verifier asked for, is for the leaf really at that index, unless two of
    the inputs hashed by the tree and by the verifier collide. *)
Theorem inclusion_proof_sound leaves p index leaf :
  Forall hash32_ok leaves → Forall hash32_ok (mp_siblings p) → hash32_ok leaf →
  collision_free (tree_inputs leaves
    ++ climb_inputs (frames_of index (length leaves)) (mp_siblings p) leaf) →
  MerkleProof_verify p (root_of leaves) leaf index (length leaves) = Ok () →
  leaves !! index = Some leaf.
Proof.
  intros Hls Hss Hleaf Hcf Hv. unfold MerkleProof_verify in Hv.
  destruct (Nat.eqb_spec (mp_index p) index) as [<-|]; [|done].
  destruct (Nat.eqb_spec (mp_total p) (length leaves)) as [Ht|]; [simpl in Hv|done].
  apply result_bind_Ok_inv in Hv as (r & Hr & Hv). case_bool_decide as E; [|done].
  apply compute_root_Ok in Hr as (Hi & Hlen & ->). rewrite Ht in *.
  by apply (inclusion_sound leaves _ (mp_siblings p)).
Qed.

(** ** Consistency *)

Lemma collect_consistency_same leaves top :
  collect_consistency leaves (length leaves) top = if top then [] else [root_of leaves].
Proof. rewrite collect_consistency_equation_1, Nat.eqb_refl. done. Qed.

Lemma collect_consistency_split leaves m top :
  m ≠ length leaves → 2 ≤ length leaves →
  collect_consistency leaves m top =
    let k := split_point (length leaves) in
    if m <=? k then collect_consistency (take k leaves) m top ++ [root_of (drop k leaves)]
    else collect_consistency (drop k leaves) (m - k) false ++ [root_of (take k leaves)].
Proof.
  intros Hm Hl. rewrite collect_consistency_equation_1.
  destruct (Nat.eqb_spec m (length leaves)); [done|]. simpl.
  destruct (le_lt_dec (length leaves) 1); [lia|done].
Qed.

Lemma replay_same n top old nodes :
  replay n n top old nodes =
    if top then Ok (old, old, nodes) else '(h, nodes) ← next_node nodes; Ok (h, h, nodes).
Proof. rewrite replay_equation_1, Nat.eqb_refl. done. Qed.

Lemma replay_split m n top old nodes :
  m ≠ n → 2 ≤ n →
  replay m n top old nodes =
    let k := split_point n in
    if m <=? k then
      '(o, new_left, nodes) ← replay m k top old nodes;
      '(rhs, nodes) ← next_node nodes;
      Ok (o, merkle_node_hash new_left rhs, nodes)
    else
      '(old_right, new_right, nodes) ← replay (m - k) (n - k) false old nodes;
      '(lhs, nodes) ← next_node nodes;
      Ok (merkle_node_hash lhs old_right, merkle_node_hash lhs new_right, nodes).
Proof.
  intros Hm Hn. rewrite replay_equation_1.
  destruct (Nat.eqb_spec m n); [done|]. simpl.
  destruct (le_lt_dec n 1); [lia|done].
Qed.

(** The root of a prefix that reaches past the split shares the left half. *)
Lemma root_of_prefix leaves m :
  2 ≤ length leaves → split_point (length leaves) < m → m ≤ length leaves →
  root_of (take m leaves) =
    merkle_node_hash (root_of (take (split_point (length leaves)) leaves))
      (root_of (take (m - split_point (length leaves)) (drop (split_point (length leaves)) leaves))).
Proof.
  intros Hl Hk Hm. destruct (split_lengths leaves Hl) as (?&?&_&_).
  assert (length (take m leaves) = m) as Ht by (rewrite firstn_length_le; lia).
  rewrite root_of_split by lia. rewrite Ht, (split_point_shorter m (length leaves)) by lia.
  rewrite take_take, skipn_firstn_comm. do 3 f_equal. lia.
Qed.

Lemma consistency_complete leaves m top old rest :
  0 < m ≤ length leaves → (top = true → old = root_of (take m leaves)) →
  replay m (length leaves) top old (collect_consistency leaves m top ++ rest)
    = Ok (root_of (take m leaves), root_of leaves, rest).
Proof.
  revert m top rest. induction leaves as [l Hl|l Hl IHl IHr] using split_ind; intros m top rest Hm Hold.
  { assert (m = length l) as -> by lia.
    rewrite replay_same, collect_consistency_same, firstn_all in *.
    destruct top; simpl; [|done]. by rewrite Hold. }
  destruct (decide (m = length l)) as [->|Hne].
  { rewrite replay_same, collect_consistency_same, firstn_all in *.
    destruct top; simpl; [|done]. by rewrite Hold. }
  destruct (split_lengths l Hl) as (Hk & Hkl & Htk & Hdr).
  rewrite replay_split, collect_consistency_split by done. cbn zeta.
  rewrite (root_of_split l) by done.
  destruct (Nat.leb_spec m (split_point (length l))).
  - specialize (IHl m top (root_of (drop (split_point (length l)) l) :: rest)).
    rewrite Htk in IHl. rewrite <- app_assoc. simpl.
    rewrite IHl; [|lia|]; rewrite take_take, (Nat.min_l m) by done; done.
  - specialize (IHr (m - split_point (length l)) false (root_of (take (split_point (length l)) l) :: rest)).
    rewrite Hdr in IHr. rewrite <- app_assoc. simpl. rewrite IHr by (done || lia). simpl.
    by rewrite <- root_of_prefix by lia.
Qed.

(** The inputs a verifier hashes to rebuild the new root. *)
Equations? replay_inputs (m n : nat) (is_top : bool) (old : Hash32) (nodes : list Hash32)
  : list bytes by wf n lt :=
  replay_inputs m n is_top old nodes with (m =? n) => {
    | true := [];
    | false with le_lt_dec n 1 => {
      | left _ := [];
      | right _ :=
        let k := split_point n in
        if m <=? k then
          match replay m k is_top old nodes with
          | Ok (_, new_left, rhs :: _) =>
              hash_input DMerkleNode (new_left ++ rhs) :: replay_inputs m k is_top old nodes
          | _ => []
          end
        else
          match replay (m - k) (n - k) false old nodes with
          | Ok (_, new_right, lhs :: _) =>
              hash_input DMerkleNode (lhs ++ new_right)
                :: replay_inputs (m - k) (n - k) false old nodes
          | _ => []
          end } }.
Proof.
  all: destruct (split_point_spec n) as (?&?&_); [lia|]; subst k; lia.
Qed.

Lemma replay_inputs_split m n top old nodes :
  m ≠ n → 2 ≤ n →
  replay_inputs m n top old nodes =
    let k := split_point n in
    if m <=? k then
      match replay m k top old nodes with
      | Ok (_, new_left, rhs :: _) => node_input new_left rhs :: replay_inputs m k top old nodes
      | _ => []
      end
    else
      match replay (m - k) (n - k) false old nodes with
      | Ok (_, new_right, lhs :: _) =>
          node_input lhs new_right :: replay_inputs (m - k) (n - k) false old nodes
      | _ => []
      end.
Proof.
  intros Hm Hn. rewrite replay_inputs_equation_1.
  destruct (Nat.eqb_spec m n); [done|]. simpl.
  destruct (le_lt_dec n 1); [lia|done].
Qed.

Lemma replay_len m n top old nodes o nw rest :
  hash32_ok old → Forall hash32_ok nodes →
  replay m n top old nodes = Ok (o, nw, rest) →
  hash32_ok nw ∧ Forall hash32_ok rest.
Proof.
  revert m top nodes o nw rest. induction n as [n IH] using lt_wf_ind.
  intros m top nodes o nw rest Hold Hnodes Hr.
  destruct (decide (m = n)) as [->|Hne].
  { rewrite replay_same in Hr. destruct top; [injection Hr as <- <- <-; done|].
    destruct nodes as [|h nodes]; [done|]. apply Forall_cons in Hnodes as [??].
    simpl in Hr. injection Hr as <- <- <-. done. }
  destruct (le_lt_dec n 1).
  { rewrite replay_equation_1 in Hr. destruct (Nat.eqb_spec m n); [done|]. simpl in Hr.
    destruct (le_lt_dec n 1); [done|lia]. }
  destruct (split_point_spec n) as (?&?&_); [lia|].
  rewrite replay_split in Hr by lia. cbn zeta in Hr.
  destruct (m <=? split_point n); (destruct (replay _ _ _ _ _) as [[[o' nw'] nodes']|] eqn:E; [|done]);
    apply IH in E as [? Hn']; try done; try lia;
    (destruct nodes' as [|h nodes']; [done|]); simpl in Hr; injection Hr as <- <- <-;
    (split; [apply merkle_node_hash_len|by apply Forall_cons in Hn' as [??]]).
Qed.

Lemma consistency_sound leaves m top old nodes o nw rest :
  Forall hash32_ok leaves → Forall hash32_ok nodes → hash32_ok old →
  0 < m ≤ length leaves →
  collision_free (tree_inputs leaves ++ replay_inputs m (length leaves) top old nodes) →
  replay m (length leaves) top old nodes = Ok (o, nw, rest) →
  nw = root_of leaves → o = root_of (take m leaves).
Proof.
  revert m top nodes o nw rest.
  induction leaves as [l Hl|l Hl IHl IHr] using split_ind;
    intros m top nodes o nw rest Hls Hns Hold Hm Hcf Hr ->.
  { assert (m = length l) as -> by lia. rewrite firstn_all.
    rewrite replay_same in Hr. destruct top; [by injection Hr as ->|].
    destruct nodes; [done|]. simpl in Hr. by injection Hr as ->. }
  destruct (decide (m = length l)) as [->|Hne].
  { rewrite firstn_all. rewrite replay_same in Hr. destruct top; [by injection Hr as ->|].
    destruct nodes; [done|]. simpl in Hr. by injection Hr as ->. }
  destruct (split_lengths l Hl) as (Hk & Hkl & Htk & Hdr).
  rewrite tree_inputs_split, replay_inputs_split in Hcf by done.
  rewrite replay_split in Hr by done. cbn zeta in *.
  assert (hash32_ok (root_of (take (split_point (length l)) l))) by (by apply root_of_len, Forall_take).
  destruct (Nat.leb_spec m (split_point (length l))).
  - destruct (replay m _ top old nodes) as [[[o' nl] [|rhs nodes']]|] eqn:E; [done| |done].
    simpl in Hr. injection Hr as -> Hnw _. rewrite (root_of_split l) in Hnw by done.
    destruct (replay_len _ _ _ _ _ _ _ _ Hold Hns E) as [Hnl _].
    apply (merkle_node_hash_inj _ _ _ _ _ Hcf) in Hnw as [-> _]; [|set_solver..|done|done].
    specialize (IHl m top nodes o (root_of (take (split_point (length l)) l)) (rhs :: nodes')).
    rewrite Htk in IHl.
    rewrite IHl; [by rewrite take_take, Nat.min_l|by apply Forall_take|done..|lia| |done|done].
    eapply collision_free_mono; [|exact Hcf]. set_solver.
  - destruct (replay (m - _) _ false old nodes) as [[[orr nr] [|lhs nodes']]|] eqn:E; [done| |done].
    simpl in Hr. injection Hr as <- Hnw _. rewrite (root_of_split l) in Hnw by done.
    destruct (replay_len _ _ _ _ _ _ _ _ Hold Hns E) as [_ Hrest].
    apply Forall_cons in Hrest as [Hlhs _].
    apply (merkle_node_hash_inj _ _ _ _ _ Hcf) in Hnw as [-> ->]; [|set_solver..|done|done].
    rewrite (root_of_prefix l m) by lia. f_equal.
    specialize (IHr (m - split_point (length l)) false nodes orr
      (root_of (drop (split_point (length l)) l)) (root_of (take (split_point (length l)) l) :: nodes')). rewrite Hdr in IHr.
    apply IHr; [by apply Forall_drop|done..|lia| |done|done].
    eapply collision_free_mono; [|exact Hcf]. set_solver.
Qed.

(** For every prefix of a log, the consistency proof the log builds convinces
    a verifier that remembered the prefix's root. *)
Theorem consistency_proof_verifies leaves m :
  m ≤ length leaves →
  ∃ p, MerkleTree_prove_consistency leaves m = Ok p ∧
       ConsistencyProof_verify p (root_of (take m leaves)) (root_of leaves) m (length leaves) = Ok ().
Proof.
  intros Hm. unfold MerkleTree_prove_consistency.
  destruct (Nat.ltb_spec (length leaves) m); [lia|]. eexists. split; [done|].
  unfold ConsistencyProof_verify. simpl. rewrite !Nat.eqb_refl. simpl.
  destruct (Nat.ltb_spec (length leaves) m); [lia|].
  destruct (Nat.eqb_spec m 0) as [->|Hm0]; simpl.
  { rewrite root_of_equation_1, bool_decide_eq_true_2 by done. done. }
  destruct (Nat.eqb_spec m (length leaves)) as [->|Hmn]; simpl.
  { rewrite firstn_all, bool_decide_eq_true_2 by done. done. }
  pose proof (consistency_complete leaves m true (root_of (take m leaves)) []) as Hc.
  rewrite app_nil_r in Hc. rewrite Hc by (done || lia). simpl.
  by rewrite !bool_decide_eq_true_2 by done.
Qed.

(** An append-only log cannot be rewritten: if a consistency proof is
    accepted between a remembered root and the root of a log's current
    leaves, the remembered root is the root of exactly the log's first
    [m] leaves, unless two of the hashed inputs collide. *)
Theorem consistency_proof_sound leaves p m old_root :
  Forall hash32_ok leaves → Forall hash32_ok (cp_nodes p) → hash32_ok old_root →
  collision_free (tree_inputs leaves ++ replay_inputs m (length leaves) true old_root (cp_nodes p)) →
  ConsistencyProof_verify p old_root (root_of leaves) m (length leaves) = Ok () →
  m ≤ length leaves ∧ old_root = root_of (take m leaves).
Proof.
  intros Hls Hns Hold Hcf Hv. unfold ConsistencyProof_verify in Hv.
  destruct (Nat.eqb_spec (cp_old_size p) m) as [<-|]; [|done].
  destruct (Nat.eqb_spec (cp_new_size p) (length leaves)) as [Hn|]; [simpl in Hv|done].
  rewrite Hn in Hv. destruct (Nat.ltb_spec (length leaves) (cp_old_size p)); [done|].
  split; [done|].
  destruct (Nat.eqb_spec (cp_old_size p) 0) as [->|]; simpl in Hv.
  { destruct (negb _); [done|]. case_bool_decide as E; [|done]. by rewrite root_of_equation_1. }
  destruct (Nat.eqb_spec (cp_old_size p) (length leaves)) as [->|].
  { destruct (negb _); [done|]. case_bool_decide; [|done]. by rewrite firstn_all. }
  apply result_bind_Ok_inv in Hv as ([[o nw] rest] & Hr & Hv).
  destruct (negb (bool_decide (rest = []))); [done|].
  case_bool_decide as Eo; [simpl in Hv|done]. case_bool_decide as En; [|done].
  rewrite <- Eo. eapply (consistency_sound leaves _ true old_root (cp_nodes p)); try done. lia.
Qed.
End merkle_proofs.
