(* ===== verification/Smt.v ===== *)
(** The compact sparse Merkle tree ([crates/state/src/smt.rs]).

    A [Link] is [Option<Arc<TreeNode>>]: [Empty] is [None], the other two
    constructors are a shared node with its cached hash (and, for a branch, its
    cached size).  Sharing through [Arc] is not observable: nodes are never
    mutated.  The [added] and [removed] out-parameters are returned. *)

From S2P Require Import Prelude Codec Primitives Crypto.

Definition MAX_PROOF_DEPTH : nat := 256.
Lemma MAX_PROOF_DEPTH_eq : MAX_PROOF_DEPTH = 256%nat.
Proof. reflexivity. Qed.
#[global] Opaque MAX_PROOF_DEPTH.
Definition EMPTY : Hash32 := replicate 32 (byte_of 0).

Section smt.
Context `{Hasher}.

Definition smt_leaf_hash (key_hash : Hash32) (value : bytes) : Hash32 :=
  let value_hash := hash DStateLeaf value in
  hash_parts DStateLeaf [key_hash; value_hash].
Definition smt_node_hash (left right : Hash32) : Hash32 := hash_parts DStateNode [left; right].
Definition key_hash (key : bytes) : Hash32 := hash DStateLeaf key.

(** * Proofs *)

Inductive ProofLeaf :=
| Present (value : bytes)
| Absent
| AbsentOccupied (other_key_hash : Hash32) (other_value : bytes).

Record SmtProof := { siblings : list Hash32; leaf : ProofLeaf }.

Definition shares_prefix (a b : Hash32) (bits : nat) : bool :=
  forallb (λ i, Bool.eqb (Hash32_bit a i) (Hash32_bit b i)) (seq 0 bits).

(** The [for level in (0..depth).rev()] loop: [ls] are the siblings from the
    deepest level up, paired with their level. *)
Fixpoint fold_siblings (kh : Hash32) (ls : list (nat * Hash32)) (acc : Hash32) : Hash32 :=
  match ls with
  | [] => acc
  | (level, sibling) :: ls =>
      fold_siblings kh ls
        (if Hash32_bit kh level then smt_node_hash sibling acc else smt_node_hash acc sibling)
  end.

Definition Proof_compute_root (p : SmtProof) (key : bytes) : option Hash32 :=
  let kh := key_hash key in
  let depth := length (siblings p) in
  if (MAX_PROOF_DEPTH <? depth)%nat then None else
  acc ← match leaf p with
        | Present value => Some (smt_leaf_hash kh value)
        | Absent => Some EMPTY
        | AbsentOccupied other_key_hash other_value =>
            if bool_decide (other_key_hash = kh) then None
            else if negb (shares_prefix kh other_key_hash depth) then None
            else Some (smt_leaf_hash other_key_hash other_value)
        end;
  Some (fold_siblings kh (rev (combine (seq 0 depth) (siblings p))) acc).

Definition Proof_verify (p : SmtProof) (root : Hash32) (key : bytes) (expected : option bytes) : bool :=
  let matches_claim :=
    match leaf p, expected with
    | Present value, Some want => bool_decide (value = want)
    | Absent, None | AbsentOccupied _ _, None => true
    | _, _ => false
    end in
  matches_claim && bool_decide (Proof_compute_root p key = Some root).

(** * The tree *)

Inductive Link :=
| Empty
| Leaf (key : Hash32) (value : bytes) (h : Hash32)
| Internal (lt rt : Link) (h : Hash32) (len : Z).

Definition link_hash (t : Link) : Hash32 :=
  match t with Empty => EMPTY | Leaf _ _ h => h | Internal _ _ h _ => h end.
Definition link_len (t : Link) : Z :=
  match t with Empty => 0 | Leaf _ _ _ => 1 | Internal _ _ _ len => len end.

(** [TreeNode::leaf] and [TreeNode::internal]. *)
Definition mk_leaf (key : Hash32) (value : bytes) : Link := Leaf key value (smt_leaf_hash key value).
Definition mk_internal (lt rt : Link) : Link :=
  Internal lt rt (smt_node_hash (link_hash lt) (link_hash rt))
    (saturating_add u64_max (link_len lt) (link_len rt)).

(** [split]; [fuel] is [MAX_PROOF_DEPTH - depth]. *)
Fixpoint split_from (fuel : nat) (a : Link) (a_key : Hash32) (b : Link) (b_key : Hash32)
    (depth : nat) : Link :=
  match fuel with
  | O => b
  | S fuel =>
      let a_bit := Hash32_bit a_key depth in
      let b_bit := Hash32_bit b_key depth in
      if Bool.eqb a_bit b_bit then
        let deeper := split_from fuel a a_key b b_key (S depth) in
        if a_bit then mk_internal Empty deeper else mk_internal deeper Empty
      else if a_bit then mk_internal b a else mk_internal a b
  end.
Definition split (a : Link) (a_key : Hash32) (b : Link) (b_key : Hash32) (depth : nat) : Link :=
  split_from (MAX_PROOF_DEPTH - depth) a a_key b b_key depth.

Fixpoint insert_at (t : Link) (key : Hash32) (value : bytes) (depth : nat) : Link * bool :=
  match t with
  | Empty => (mk_leaf key value, true)
  | Leaf existing existing_value _ =>
      if bool_decide (existing = key) then (mk_leaf key value, false)
      else if (MAX_PROOF_DEPTH <=? depth)%nat then (mk_leaf key value, false)
      else (split (mk_leaf existing existing_value) existing (mk_leaf key value) key depth, true)
  | Internal lt rt _ _ =>
      if (MAX_PROOF_DEPTH <=? depth)%nat then (t, false)
      else if Hash32_bit key depth then
        let '(rebuilt, added) := insert_at rt key value (S depth) in
        (mk_internal lt rebuilt, added)
      else
        let '(rebuilt, added) := insert_at lt key value (S depth) in
        (mk_internal rebuilt rt, added)
  end.

Definition collapse (lt rt : Link) : Link :=
  match lt, rt with
  | Empty, Empty => Empty
  | Leaf _ _ _, Empty => lt
  | Empty, Leaf _ _ _ => rt
  | _, _ => mk_internal lt rt
  end.

Fixpoint remove_at (t : Link) (key : Hash32) (depth : nat) : Link * bool :=
  match t with
  | Empty => (Empty, false)
  | Leaf existing _ _ => if bool_decide (existing = key) then (Empty, true) else (t, false)
  | Internal lt rt _ _ =>
      if (MAX_PROOF_DEPTH <=? depth)%nat then (t, false)
      else if Hash32_bit key depth then
        let '(rebuilt, removed) := remove_at rt key (S depth) in
        (collapse lt rebuilt, removed)
      else
        let '(rebuilt, removed) := remove_at lt key (S depth) in
        (collapse rebuilt rt, removed)
  end.

Fixpoint get_at (t : Link) (key : Hash32) (depth : nat) : option bytes :=
  match t with
  | Empty => None
  | Leaf existing value _ => if bool_decide (existing = key) then Some value else None
  | Internal lt rt _ _ =>
      if (MAX_PROOF_DEPTH <=? depth)%nat then None
      else if Hash32_bit key depth then get_at rt key (S depth)
      else get_at lt key (S depth)
  end.

Record SparseMerkleTree := { smt_root : Link; smt_len : Z }.

Definition smt_new : SparseMerkleTree := {| smt_root := Empty; smt_len := 0 |}.

Definition smt_insert_hashed (t : SparseMerkleTree) (key : Hash32) (value : bytes) : SparseMerkleTree :=
  let '(root, added) := insert_at (smt_root t) key value 0 in
  {| smt_root := root;
     smt_len := if added : bool then saturating_add u64_max (smt_len t) 1 else smt_len t |}.
Definition smt_insert (t : SparseMerkleTree) (key value : bytes) : SparseMerkleTree :=
  smt_insert_hashed t (key_hash key) value.

Definition smt_remove (t : SparseMerkleTree) (key : bytes) : SparseMerkleTree * bool :=
  let '(root, removed) := remove_at (smt_root t) (key_hash key) 0 in
  ({| smt_root := root;
      smt_len := if removed : bool then saturating_sub (smt_len t) 1 else smt_len t |}, removed).

Definition smt_get (t : SparseMerkleTree) (key : bytes) : option bytes :=
  get_at (smt_root t) (key_hash key) 0.
Definition smt_root_hash (t : SparseMerkleTree) : Hash32 := link_hash (smt_root t).

(** [SparseMerkleTree::entries]: the in-order walk of [Entries]. *)
Fixpoint entries_of (t : Link) : list (Hash32 * bytes) :=
  match t with
  | Empty => []
  | Leaf key value _ => [(key, value)]
  | Internal lt rt _ _ => entries_of lt ++ entries_of rt
  end.

(** The loop of [SparseMerkleTree::prove]. *)
Fixpoint prove_at (t : Link) (kh : Hash32) (depth : nat) : list Hash32 * ProofLeaf :=
  match t with
  | Empty => ([], Absent)
  | Leaf k value _ =>
      ([], if bool_decide (k = kh) then Present value else AbsentOccupied k value)
  | Internal lt rt _ _ =>
      if (MAX_PROOF_DEPTH <=? depth)%nat then ([], Absent)
      else if Hash32_bit kh depth then
        let '(sib, lf) := prove_at rt kh (S depth) in (link_hash lt :: sib, lf)
      else
        let '(sib, lf) := prove_at lt kh (S depth) in (link_hash rt :: sib, lf)
  end.
Definition smt_prove (t : SparseMerkleTree) (key : bytes) : SmtProof :=
  let '(sib, lf) := prove_at (smt_root t) (key_hash key) 0 in {| siblings := sib; leaf := lf |}.

(** * Wire form of proofs *)

Definition ProofLeaf_codec : codec ProofLeaf := {|
  encode := λ l, match l with
    | Present value => byte_of 0 :: encode_bytes value
    | Absent => [byte_of 1]
    | AbsentOccupied k v => byte_of 2 :: encode Hash32_codec k ++ encode_bytes v
    end;
  decode := λ r,
    '(tag, r) ← decode u8_codec r;
    if tag =? 0 then '(v, r) ← decode_bytes r; Ok (Present v, r)
    else if tag =? 1 then Ok (Absent, r)
    else if tag =? 2 then
      '(k, r) ← decode Hash32_codec r; '(v, r) ← decode_bytes r; Ok (AbsentOccupied k v, r)
    else Err (UnknownDiscriminant tag "ProofLeaf");
  wf := λ l, match l with
    | Present v => wf bytes_codec v
    | Absent => True
    | AbsentOccupied k v => wf Hash32_codec k ∧ wf bytes_codec v
    end;
|}.

Definition Proof_codec : codec SmtProof := {|
  encode := λ p, encode (vec_codec Hash32_codec) (siblings p) ++ encode ProofLeaf_codec (leaf p);
  decode := λ r,
    '(sib, r) ← decode (vec_codec Hash32_codec) r;
    if (MAX_PROOF_DEPTH <? length sib)%nat then Err (CodecInvalid "proof has too many siblings") else
    '(lf, r) ← decode ProofLeaf_codec r;
    Ok ({| siblings := sib; leaf := lf |}, r);
  wf := λ p, (length (siblings p) ≤ MAX_PROOF_DEPTH)%nat
             ∧ wf (vec_codec Hash32_codec) (siblings p) ∧ wf ProofLeaf_codec (leaf p);
|}.
End smt.
Arguments ProofLeaf_codec : simpl never.
Arguments Proof_codec : simpl never.

(** * Keys are determined by their 256 bits *)

Lemma Hash32_bit_testbit h i b :
  h !! (i / 8)%nat = Some b →
  Hash32_bit h i = Z.testbit (byte_val b) (7 - Z.of_nat (i mod 8)).
Proof.
  intros Hb. unfold Hash32_bit. rewrite Hb.
  pose proof (Nat.mod_upper_bound i 8 ltac:(lia)).
  rewrite Z.testbit_odd. change 1 with (Z.ones 1) at 1. rewrite Z.land_ones by lia.
  change (2 ^ 1) with 2. rewrite Zmod_odd. by destruct (Z.odd _).
Qed.

Lemma byte_bits_inj x y :
  (∀ o, (o < 8)%nat → Z.testbit (byte_val x) (7 - Z.of_nat o) = Z.testbit (byte_val y) (7 - Z.of_nat o)) →
  x = y.
Proof.
  intros Hb. apply coqutil.Byte.byte.unsigned_inj. apply Z.bits_inj'. intros n Hn.
  destruct (Z.lt_ge_cases n 8).
  - specialize (Hb (Z.to_nat (7 - n)) ltac:(lia)).
    by replace (7 - Z.of_nat (Z.to_nat (7 - n))) with n in Hb by lia.
  - pose proof (coqutil.Byte.byte.unsigned_range x). pose proof (coqutil.Byte.byte.unsigned_range y).
    assert (∀ v, 0 ≤ v < 256 → Z.testbit v n = false) as Hhigh.
    { intros v Hv. destruct (Z.eq_dec v 0) as [->|]; [apply Z.bits_0|].
      apply Z.bits_above_log2; [lia|]. apply Z.lt_le_trans with 8; [|done].
      apply Z.log2_lt_pow2; lia. }
    by rewrite !Hhigh.
Qed.

(** Agreement on the first [d] bits. *)
Definition agree (d : nat) (a b : Hash32) : Prop :=
  ∀ i, (i < d)%nat → Hash32_bit a i = Hash32_bit b i.

Lemma agree_256_eq a b : length a = 32%nat → length b = 32%nat → agree 256 a b → a = b.
Proof.
  intros Ha Hb Hag. apply list_eq_same_length with 32%nat; [done..|].
  intros i x y Hi Hx Hy. apply byte_bits_inj. intros o Ho.
  specialize (Hag (i * 8 + o)%nat ltac:(lia)).
  assert ((i * 8 + o) / 8 = i)%nat as Hd by (rewrite Nat.div_add_l by lia; rewrite Nat.div_small by lia; lia).
  assert ((i * 8 + o) mod 8 = o)%nat as Hm.
  { rewrite Nat.add_comm, Nat.Div0.mod_add. by apply Nat.mod_small. }
  rewrite (Hash32_bit_testbit a _ x), (Hash32_bit_testbit b _ y), Hm in Hag by (by rewrite Hd). done.
Qed.

Lemma agree_S d a b : agree d a b → Hash32_bit a d = Hash32_bit b d → agree (S d) a b.
Proof. intros Hag Hd i Hi. destruct (decide (i = d)) as [->|]; [done|]. apply Hag. lia. Qed.

Lemma shares_prefix_agree a b n : shares_prefix a b n = true ↔ agree n a b.
Proof.
  unfold shares_prefix, agree. rewrite forallb_forall. split.
  - intros Hf i Hi. apply Bool.eqb_prop, Hf, in_seq. lia.
  - intros Hf i Hi%in_seq. rewrite Hf by lia. apply Bool.eqb_reflx.
Qed.

(** * The invariant: the one canonical shape *)

Section smt_invariant.
Context `{Hasher}.

Definition keys_of (t : Link) : list Hash32 := (entries_of t).*1.

Inductive wf_tree : nat → Link → Prop :=
| wf_empty d : wf_tree d Empty
| wf_leaf d k v : length k = 32%nat → wf_tree d (mk_leaf k v)
| wf_internal d l r :
    (d < MAX_PROOF_DEPTH)%nat → wf_tree (S d) l → wf_tree (S d) r →
    (∀ k, k ∈ keys_of l → Hash32_bit k d = false) →
    (∀ k, k ∈ keys_of r → Hash32_bit k d = true) →
    (2 ≤ length (entries_of l) + length (entries_of r))%nat →
    wf_tree d (mk_internal l r).

(** All keys below a node at depth [d] lie on [key]'s path. *)
Definition on_path (d : nat) (key : Hash32) (t : Link) : Prop :=
  ∀ k, k ∈ keys_of t → agree d key k.

Lemma keys_of_internal l r k : k ∈ keys_of (mk_internal l r) ↔ k ∈ keys_of l ∨ k ∈ keys_of r.
Proof. unfold keys_of. simpl. rewrite fmap_app. apply elem_of_app. Qed.

Lemma get_at_None d t key : wf_tree d t → key ∉ keys_of t → get_at t key d = None.
Proof.
  intros Hwf. revert key. induction Hwf as [d|d k v Hk|d l r Hd Hl IHl Hr IHr Bl Br Hsz]; intros key Hn.
  - done.
  - simpl. case_bool_decide as E; [|done]. destruct Hn. subst. unfold keys_of. simpl. set_solver.
  - simpl. destruct (Nat.leb_spec MAX_PROOF_DEPTH d); [done|].
    rewrite keys_of_internal in Hn. destruct (Hash32_bit key d); [apply IHr|apply IHl]; tauto.
Qed.

Lemma get_at_Some d t key v : wf_tree d t → get_at t key d = Some v ↔ (key, v) ∈ entries_of t.
Proof.
  intros Hwf. revert key. induction Hwf as [d|d k w Hk|d l r Hd Hl IHl Hr IHr Bl Br Hsz]; intros key.
  - simpl. set_solver.
  - simpl. rewrite list_elem_of_singleton. case_bool_decide; naive_solver.
  - simpl. destruct (Nat.leb_spec MAX_PROOF_DEPTH d); [lia|].
    rewrite elem_of_app. destruct (Hash32_bit key d) eqn:Hb.
    + rewrite IHr. split; [auto|]. intros [Hin|]; [|done].
      apply (list_elem_of_fmap_2 fst) in Hin. simpl in Hin. apply Bl in Hin. congruence.
    + rewrite IHl. split; [auto|]. intros [|Hin]; [done|].
      apply (list_elem_of_fmap_2 fst) in Hin. simpl in Hin. apply Br in Hin. congruence.
Qed.

Lemma keys_of_get d t key : wf_tree d t → key ∈ keys_of t ↔ is_Some (get_at t key d).
Proof.
  intros Hwf. unfold keys_of. rewrite list_elem_of_fmap. split.
  - intros ([k v] & -> & Hin). exists v. by apply get_at_Some.
  - intros [v Hv]. exists (key, v). split; [done|]. by apply (get_at_Some d).
Qed.

Lemma wf_tree_entries_32 d t k : wf_tree d t → k ∈ keys_of t → length k = 32%nat.
Proof.
  intros Hwf. induction Hwf as [d|d k' w Hk|d l r Hd Hl IHl Hr IHr Bl Br Hsz].
  - unfold keys_of. simpl. set_solver.
  - unfold keys_of. simpl. rewrite list_elem_of_singleton. by intros ->.
  - rewrite keys_of_internal. naive_solver.
Qed.

(** ** Insertion *)

Lemma elem_of_entries_internal l r e :
  e ∈ entries_of (mk_internal l r) ↔ e ∈ entries_of l ∨ e ∈ entries_of r.
Proof. simpl. apply elem_of_app. Qed.

Lemma keys_of_entries t k : k ∈ keys_of t ↔ ∃ v, (k, v) ∈ entries_of t.
Proof. unfold keys_of. rewrite list_elem_of_fmap. split; [intros ([]&->&?)|intros [v ?]]; eauto. by exists (k, v). Qed.

Lemma split_from_spec fuel depth a va b vb :
  (depth + fuel = MAX_PROOF_DEPTH)%nat → agree depth a b → a ≠ b →
  length a = 32%nat → length b = 32%nat →
  let t := split_from fuel (mk_leaf a va) a (mk_leaf b vb) b depth in
  wf_tree depth t ∧ length (entries_of t) = 2%nat
  ∧ ∀ e, e ∈ entries_of t ↔ e = (a, va) ∨ e = (b, vb).
Proof.
  revert depth. induction fuel as [|fuel IH]; intros depth Hfuel Hag Hne Ha Hb.
  { exfalso. apply Hne, agree_256_eq; [done..|]. rewrite MAX_PROOF_DEPTH_eq in Hfuel.
    by replace 256%nat with depth by lia. }
  simpl. destruct (Bool.eqb (Hash32_bit a depth) (Hash32_bit b depth)) eqn:E.
  - apply Bool.eqb_prop in E.
    destruct (IH (S depth)) as (Hwf & Hlen & Hent); [lia|by apply agree_S|done..|].
    set (t := split_from fuel _ _ _ _ _) in *.
    assert (∀ k, k ∈ keys_of t → Hash32_bit k depth = Hash32_bit a depth) as Hk.
    { intros k (v & [[= -> _]|[= -> _]]%Hent)%keys_of_entries; [done|]. by rewrite E. }
    assert (∀ P : Hash32 → Prop, ∀ k, k ∈ keys_of Empty → P k) as Hemp
      by (intros P k Hin; unfold keys_of in Hin; simpl in Hin; set_solver).
    destruct (Hash32_bit a depth); split_and!.
    + apply wf_internal; [lia|constructor|done|apply Hemp|done|]. simpl. lia.
    + simpl. lia.
    + intros e. rewrite elem_of_entries_internal, Hent. simpl. set_solver.
    + apply wf_internal; [lia|done|constructor|done|apply Hemp|]. simpl. lia.
    + simpl. rewrite app_nil_r. lia.
    + intros e. rewrite elem_of_entries_internal, Hent. simpl. set_solver.
  - apply Bool.eqb_false_iff in E.
    assert (∀ k w k', k' ∈ keys_of (mk_leaf k w) → k' = k) as Hleaf.
    { intros k w k' Hin. unfold keys_of in Hin. simpl in Hin. set_solver. }
    destruct (Hash32_bit a depth) eqn:Ea; split_and!; try done.
    + apply wf_internal; [lia|by constructor|by constructor| | |simpl; lia].
      * intros k ->%Hleaf. by destruct (Hash32_bit b depth).
      * by intros k ->%Hleaf.
    + intros e. rewrite elem_of_entries_internal. simpl. rewrite !list_elem_of_singleton. tauto.
    + apply wf_internal; [lia|by constructor|by constructor| | |simpl; lia].
      * by intros k ->%Hleaf.
      * intros k ->%Hleaf. by destruct (Hash32_bit b depth).
    + intros e. rewrite elem_of_entries_internal. simpl. rewrite !list_elem_of_singleton. tauto.
Qed.

Lemma on_path_child d key l r :
  wf_tree d (mk_internal l r) → on_path d key (mk_internal l r) →
  on_path (S d) key (if Hash32_bit key d then r else l).
Proof.
  intros Hwf Hp k Hk.
  assert (Hash32_bit key d = Hash32_bit k d ∧ k ∈ keys_of (mk_internal l r)) as [Hb Hin].
  { inversion Hwf; subst. rewrite keys_of_internal.
    destruct (Hash32_bit key d); (split; [symmetry; eauto|tauto]). }
  apply agree_S; [|done]. by apply Hp.
Qed.

(** A branch seen from the side [b] a path takes through it. *)
Definition branch (b : bool) (self other : Link) : Link :=
  if b then mk_internal other self else mk_internal self other.

Record branch_ok (d : nat) (b : bool) (self other : Link) : Prop := {
  bo_depth : (d < MAX_PROOF_DEPTH)%nat;
  bo_self : wf_tree (S d) self;
  bo_other : wf_tree (S d) other;
  bo_self_bit k : k ∈ keys_of self → Hash32_bit k d = b;
  bo_other_bit k : k ∈ keys_of other → Hash32_bit k d = negb b;
}.

Lemma branch_wf d b self other :
  branch_ok d b self other →
  (2 ≤ length (entries_of self) + length (entries_of other))%nat →
  wf_tree d (branch b self other).
Proof. intros [] Hsz. destruct b; (apply wf_internal; [done..|lia]). Qed.

Lemma wf_branch d l r (b : bool) :
  wf_tree d (mk_internal l r) → branch_ok d b (if b then r else l) (if b then l else r).
Proof. inversion 1; subst. by destruct b. Qed.

Lemma branch_eta (b : bool) l r : mk_internal l r = branch b (if b then r else l) (if b then l else r).
Proof. by destruct b. Qed.

Lemma entries_of_branch b self other e :
  e ∈ entries_of (branch b self other) ↔ e ∈ entries_of self ∨ e ∈ entries_of other.
Proof. destruct b; simpl; rewrite elem_of_app; tauto. Qed.

Lemma length_entries_branch b self other :
  length (entries_of (branch b self other)) = (length (entries_of self) + length (entries_of other))%nat.
Proof. destruct b; simpl; rewrite length_app; lia. Qed.

Lemma keys_of_branch b self other k :
  k ∈ keys_of (branch b self other) ↔ k ∈ keys_of self ∨ k ∈ keys_of other.
Proof. destruct b; simpl; rewrite keys_of_internal; tauto. Qed.

Lemma branch_other_key d b self other key v :
  branch_ok d b self other → Hash32_bit key d = b → (key, v) ∉ entries_of other.
Proof.
  intros Hb Hk Hin. apply (list_elem_of_fmap_2 fst), (bo_other_bit _ _ _ _ Hb) in Hin.
  simpl in Hin. rewrite Hk in Hin. by destruct b.
Qed.

(** What an insertion must do to a subtree at depth [d]. *)
Definition inserted (d : nat) (t : Link) (key : Hash32) (value : bytes) (res : Link * bool) : Prop :=
  wf_tree d res.1
  ∧ length (entries_of res.1) = (length (entries_of t) + if res.2 then 1 else 0)%nat
  ∧ (res.2 = true ↔ key ∉ keys_of t)
  ∧ ∀ k v, (k, v) ∈ entries_of res.1 ↔ (k = key ∧ v = value) ∨ (k ≠ key ∧ (k, v) ∈ entries_of t).

Lemma inserted_leaf d ek ev key value :
  (d ≤ MAX_PROOF_DEPTH)%nat → length ek = 32%nat → length key = 32%nat → agree d key ek →
  inserted d (mk_leaf ek ev) key value (insert_at (mk_leaf ek ev) key value d).
Proof.
  intros Hdm Hek H32 Hag. unfold inserted, keys_of. simpl. case_bool_decide as E.
  { subst. simpl. split_and!; [by constructor|done|set_solver|].
    intros k v. rewrite !list_elem_of_singleton. naive_solver. }
  destruct (Nat.leb_spec MAX_PROOF_DEPTH d) as [Hge|Hlt].
  { exfalso. apply E. symmetry. apply agree_256_eq; [done..|].
    rewrite MAX_PROOF_DEPTH_eq in *. by replace 256%nat with d by lia. }
  destruct (split_from_spec (MAX_PROOF_DEPTH - d) d ek ev key value)
    as (Hwf & Hlen & Hent); try done; [lia|by intros i Hi; symmetry; apply Hag|].
  simpl. split_and!; [done|done|set_solver|].
  intros k v. unfold split. rewrite Hent, list_elem_of_singleton. naive_solver.
Qed.

Lemma inserted_branch d b self other key value res :
  branch_ok d b self other → Hash32_bit key d = b →
  (2 ≤ length (entries_of self) + length (entries_of other))%nat →
  inserted (S d) self key value res →
  inserted d (branch b self other) key value (branch b res.1 other, res.2).
Proof.
  intros Hb Hk Hsz (Hwf & Hlen & Hadd & Hent). unfold inserted. cbn [fst snd].
  rewrite !length_entries_branch, keys_of_branch, Hadd.
  pose proof (λ v, branch_other_key d b self other key v Hb Hk) as Hno.
  split_and!.
  - apply branch_wf; [destruct Hb; split; [done..| |done]|destruct res.2; lia].
    intros k (v & [[-> _]|[_ Hin]]%Hent)%keys_of_entries; [done|].
    apply bo_self_bit0, keys_of_entries. eauto.
  - lia.
  - rewrite (keys_of_entries other). naive_solver.
  - intros k v. rewrite !entries_of_branch, Hent. split; [|tauto].
    intros [Hin|Hin]; [tauto|]. right. split; [by intros ->; eapply Hno|auto].
Qed.

(** What an insertion does to the entries, and that it keeps the shape. *)
Lemma insert_at_spec d t key value :
  wf_tree d t → (d ≤ MAX_PROOF_DEPTH)%nat → on_path d key t → length key = 32%nat →
  inserted d t key value (insert_at t key value d).
Proof.
  intros Hwf. induction Hwf as [d|d ek ev Hk|d l r Hd Hl IHl Hr IHr Bl Br Hsz]; intros Hdm Hp H32.
  - unfold inserted, keys_of. simpl. split_and!; [by constructor|done|set_solver|set_solver].
  - apply inserted_leaf; [done..|]. apply Hp. unfold keys_of. simpl. set_solver.
  - pose proof (wf_internal d l r Hd Hl Hr Bl Br Hsz) as Hwf.
    pose proof (on_path_child _ _ _ _ Hwf Hp) as Hpc.
    pose proof (wf_branch _ _ _ (Hash32_bit key d) Hwf) as Hb.
    simpl. destruct (Nat.leb_spec MAX_PROOF_DEPTH d); [lia|]. rewrite (branch_eta (Hash32_bit key d)).
    destruct (Hash32_bit key d) eqn:Hbit.
    + pose proof (inserted_branch d true r l key value _ Hb Hbit ltac:(lia) (IHr ltac:(lia) Hpc H32)).
      by destruct (insert_at r key value (S d)).
    + pose proof (inserted_branch d false l r key value _ Hb Hbit ltac:(lia) (IHl ltac:(lia) Hpc H32)).
      by destruct (insert_at l key value (S d)).
Qed.

(** ** Removal *)

Definition removed (d : nat) (t : Link) (key : Hash32) (res : Link * bool) : Prop :=
  wf_tree d res.1
  ∧ length (entries_of t) = (length (entries_of res.1) + if res.2 then 1 else 0)%nat
  ∧ (res.2 = true ↔ key ∈ keys_of t)
  ∧ ∀ k v, (k, v) ∈ entries_of res.1 ↔ k ≠ key ∧ (k, v) ∈ entries_of t.

Definition collapse_side (b : bool) (self other : Link) : Link :=
  if b then collapse other self else collapse self other.

(** A branch left with at least one entry collapses to a well-formed tree
    with the same entries. *)
Lemma collapse_side_spec d b self other :
  branch_ok d b self other →
  (1 ≤ length (entries_of self) + length (entries_of other))%nat →
  wf_tree d (collapse_side b self other)
  ∧ (∀ e, e ∈ entries_of (collapse_side b self other) ↔ e ∈ entries_of self ∨ e ∈ entries_of other)
  ∧ length (entries_of (collapse_side b self other))
    = (length (entries_of self) + length (entries_of other))%nat.
Proof.
  intros Hb Hsz.
  assert ((2 ≤ length (entries_of self) + length (entries_of other))%nat ∧
          collapse_side b self other = branch b self other
        ∨ (self = Empty ∧ ∃ k v, other = mk_leaf k v ∧ length k = 32%nat
             ∧ collapse_side b self other = other)
        ∨ (other = Empty ∧ ∃ k v, self = mk_leaf k v ∧ length k = 32%nat
             ∧ collapse_side b self other = self))
    as [[Hsz2 ->]|[(-> & k & v & -> & Hk & ->)|(-> & k & v & -> & Hk & ->)]].
  { destruct Hb as [_ Hs Ho _ _].
    inversion Hs; subst; inversion Ho; subst; unfold collapse_side; simpl in *;
      try lia; try (left; split; [rewrite ?length_app in *; lia|by destruct b]).
    - right; left. split; [done|]. by destruct b; eauto 10.
    - right; right. split; [done|]. by destruct b; eauto 10. }
  - split_and!; [by apply branch_wf|apply entries_of_branch|apply length_entries_branch].
  - split_and!; [by constructor|intros e; simpl; set_solver|done].
  - split_and!; [by constructor|intros e; simpl; set_solver|done].
Qed.

Lemma removed_branch d b self other key res :
  branch_ok d b self other → Hash32_bit key d = b →
  (2 ≤ length (entries_of self) + length (entries_of other))%nat →
  removed (S d) self key res →
  removed d (branch b self other) key (collapse_side b res.1 other, res.2).
Proof.
  intros Hb Hk Hsz (Hwf & Hlen & Hrem & Hent). unfold removed. cbn [fst snd].
  pose proof (λ v, branch_other_key d b self other key v Hb Hk) as Hno.
  destruct (collapse_side_spec d b res.1 other) as (Hwf' & Hent' & Hlen').
  { destruct Hb; split; [done..| |done].
    intros k (v & [_ Hin]%Hent)%keys_of_entries. apply bo_self_bit0, keys_of_entries. eauto. }
  { destruct res.2; lia. }
  rewrite length_entries_branch, keys_of_branch, Hrem, Hlen'. split_and!.
  - done.
  - lia.
  - rewrite (keys_of_entries other). naive_solver.
  - intros k v. rewrite Hent', entries_of_branch, Hent. split; [|tauto].
    intros [Hin|Hin]; [tauto|]. split; [by intros ->; eapply Hno|auto].
Qed.

Lemma remove_at_spec d t key : wf_tree d t → removed d t key (remove_at t key d).
Proof.
  intros Hwf. induction Hwf as [d|d ek ev Hk|d l r Hd Hl IHl Hr IHr Bl Br Hsz].
  - unfold removed, keys_of. simpl. split_and!; [by constructor|done|set_solver|set_solver].
  - unfold removed, keys_of. simpl. case_bool_decide; subst; simpl.
    + split_and!; [by constructor|done|set_solver|]. intros k v. set_solver.
    + split_and!; [by constructor|done|set_solver|]. intros k v. set_solver.
  - pose proof (wf_internal d l r Hd Hl Hr Bl Br Hsz) as Hwf.
    pose proof (wf_branch _ _ _ (Hash32_bit key d) Hwf) as Hb.
    simpl. destruct (Nat.leb_spec MAX_PROOF_DEPTH d); [lia|]. rewrite (branch_eta (Hash32_bit key d)).
    destruct (Hash32_bit key d) eqn:Hbit.
    + pose proof (removed_branch d true r l key _ Hb Hbit ltac:(lia) IHr).
      by destruct (remove_at r key (S d)).
    + pose proof (removed_branch d false l r key _ Hb Hbit ltac:(lia) IHl).
      by destruct (remove_at l key (S d)).
Qed.

(** ** One shape per set of entries *)

Lemma wf_tree_nodup d t : wf_tree d t → NoDup (keys_of t).
Proof.
  induction 1 as [d|d k v Hk|d l r Hd Hl IHl Hr IHr Bl Br Hsz].
  - constructor.
  - apply NoDup_singleton.
  - unfold keys_of. simpl. rewrite fmap_app. apply NoDup_app. split_and!; [done| |done].
    intros k Hkl%Bl Hkr%Br. congruence.
Qed.

(** Two entries cannot both be the only one. *)
Lemma two_entries_not_one d t e :
  wf_tree d t → (2 ≤ length (entries_of t))%nat → ~ (∀ e', e' ∈ entries_of t → e' = e).
Proof.
  intros Hwf Hlen Hall. apply wf_tree_nodup in Hwf. unfold keys_of in Hwf.
  destruct (entries_of t) as [|e1 [|e2 r]]; simpl in Hlen; [lia|lia|].
  assert (e1 = e) by (apply Hall; set_solver). assert (e2 = e) by (apply Hall; set_solver).
  subst. simpl in Hwf. apply NoDup_cons in Hwf as [Hnin _]. set_solver.
Qed.

Lemma wf_tree_unique d t1 t2 :
  wf_tree d t1 → wf_tree d t2 → (∀ e, e ∈ entries_of t1 ↔ e ∈ entries_of t2) → t1 = t2.
Proof.
  intros Hwf1. revert t2. induction Hwf1 as [d|d k v Hk|d l r Hd Hl IHl Hr IHr Bl Br Hsz];
    intros t2 Hwf2 He.
  - inversion Hwf2 as [|? k v|? l r ?????]; subst; [done| |].
    + specialize (He (k, v)). simpl in He. set_solver.
    + simpl in He. destruct (entries_of l ++ entries_of r) as [|e rest] eqn:E.
      * apply (f_equal length) in E. rewrite length_app in E. simpl in E. lia.
      * specialize (He e). set_solver.
  - inversion Hwf2 as [|? k' v'|? l r ?????]; subst.
    + specialize (He (k, v)). simpl in He. set_solver.
    + assert ((k, v) = (k', v')) as [= -> ->]; [|done].
      specialize (He (k, v)). simpl in He. rewrite !list_elem_of_singleton in He. tauto.
    + exfalso. apply (two_entries_not_one _ _ (k, v) Hwf2); [simpl; rewrite length_app; lia|].
      intros e Hin%He. simpl in Hin. by apply list_elem_of_singleton in Hin.
  - pose proof (wf_internal d l r Hd Hl Hr Bl Br Hsz) as Hwf1.
    assert (2 ≤ length (entries_of (mk_internal l r)))%nat as Hsz1 by (simpl; rewrite length_app; lia).
    inversion Hwf2 as [|? k' v'|? l2 r2 ? Hl2 Hr2 Bl2 Br2 ?]; subst.
    + exfalso. apply (two_entries_not_one _ _ ([], []) Hwf1 Hsz1). intros e Hin%He. simpl in Hin. set_solver.
    + exfalso. apply (two_entries_not_one _ _ (k', v') Hwf1 Hsz1).
      intros e Hin%He. simpl in Hin. by apply list_elem_of_singleton in Hin.
    + assert (∀ t e, e ∈ entries_of t → e.1 ∈ keys_of t) as Hk
        by (intros; by apply list_elem_of_fmap_2).
      assert (∀ e, e ∈ entries_of l ∨ e ∈ entries_of r ↔ e ∈ entries_of l2 ∨ e ∈ entries_of r2) as He'.
      { intros e. specialize (He e). by rewrite !elem_of_entries_internal in He. }
      rewrite (IHl l2), (IHr r2); [done|done| |done|].
      * intros e. specialize (He' e). split; intros Hin; pose proof (Hk _ _ Hin) as Hin'.
        -- apply Br in Hin'. destruct He' as [[Hx|] _]; [auto| |done]. apply Hk, Bl2 in Hx. congruence.
        -- apply Br2 in Hin'. destruct He' as [_ [Hx|]]; [auto| |done]. apply Hk, Bl in Hx. congruence.
      * intros e. specialize (He' e). split; intros Hin; pose proof (Hk _ _ Hin) as Hin'.
        -- apply Bl in Hin'. destruct He' as [[|Hx] _]; [auto|done|]. apply Hk, Br2 in Hx. congruence.
        -- apply Bl2 in Hin'. destruct He' as [_ [|Hx]]; [auto|done|]. apply Hk, Br in Hx. congruence.
Qed.

(** * The tree as a map *)

Definition smt_ok (t : SparseMerkleTree) : Prop := wf_tree 0 (smt_root t).
Definition smt_count (t : SparseMerkleTree) : Z := Z.of_nat (length (entries_of (smt_root t))).

Lemma on_path_0 key t : on_path 0 key t.
Proof. intros k _ i Hi. lia. Qed.

Lemma get_at_entries_iff t1 t2 k1 k2 d1 d2 :
  wf_tree d1 t1 → wf_tree d2 t2 →
  (∀ v, (k1, v) ∈ entries_of t1 ↔ (k2, v) ∈ entries_of t2) → get_at t1 k1 d1 = get_at t2 k2 d2.
Proof.
  intros H1 H2 He. apply option_eq. intros v. by rewrite (get_at_Some d1), (get_at_Some d2).
Qed.

Lemma smt_new_ok : smt_ok smt_new.
Proof. constructor. Qed.

Lemma smt_insert_hashed_spec t key v :
  smt_ok t → length key = 32%nat →
  let t' := smt_insert_hashed t key v in
  smt_ok t'
  ∧ (∀ k, get_at (smt_root t') k 0 = if decide (k = key) then Some v else get_at (smt_root t) k 0)
  ∧ (smt_len t = smt_count t → smt_count t < u64_max → smt_len t' = smt_count t').
Proof.
  intros Hok H32. unfold smt_ok, smt_insert_hashed, smt_count.
  destruct (insert_at_spec 0 (smt_root t) key v Hok ltac:(lia) (on_path_0 _ _) H32)
    as (Hwf & Hlen & _ & Hent).
  destruct (insert_at (smt_root t) key v 0) as [r added]. simpl in *. split_and!.
  - done.
  - intros k. case_decide as E.
    + subst. apply (get_at_Some 0); [done|]. rewrite Hent. auto.
    + apply get_at_entries_iff; [done..|]. intros w. rewrite Hent. naive_solver.
  - intros -> Hlt. rewrite Hlen. destruct added; unfold saturating_add; lia.
Qed.

(** Inserting keeps the tree canonical, overwrites exactly the entry under the
    key's path hash, leaves every other entry alone, and keeps the entry
    count exact. *)
Theorem smt_insert_spec t key v :
  smt_ok t →
  smt_ok (smt_insert t key v)
  ∧ (∀ k, smt_get (smt_insert t key v) k =
          if decide (key_hash k = key_hash key) then Some v else smt_get t k)
  ∧ (smt_len t = smt_count t → smt_count t < u64_max →
     smt_len (smt_insert t key v) = smt_count (smt_insert t key v)).
Proof.
  intros Hok. destruct (smt_insert_hashed_spec t (key_hash key) v Hok (hash_len _ _)) as (?&Hg&?).
  split_and!; [done| |done]. intros k. apply Hg.
Qed.

(** Removing keeps the tree canonical, deletes exactly the entry under the
    key's path hash, reports whether it existed, and keeps the count exact. *)
Theorem smt_remove_spec t key :
  smt_ok t →
  let '(t', existed) := smt_remove t key in
  smt_ok t'
  ∧ (∀ k, smt_get t' k = if decide (key_hash k = key_hash key) then None else smt_get t k)
  ∧ (existed = true ↔ is_Some (smt_get t key))
  ∧ (smt_len t = smt_count t → smt_len t' = smt_count t').
Proof.
  intros Hok. unfold smt_ok, smt_remove, smt_get, smt_count.
  destruct (remove_at_spec 0 (smt_root t) (key_hash key) Hok) as (Hwf & Hlen & Hrem & Hent).
  destruct (remove_at (smt_root t) (key_hash key) 0) as [r existed]. simpl in *. split_and!.
  - done.
  - intros k. case_decide as E.
    + rewrite E. apply get_at_None; [done|]. rewrite keys_of_entries. naive_solver.
    + apply get_at_entries_iff; [done..|]. intros w. rewrite Hent. naive_solver.
  - by rewrite Hrem, (keys_of_get 0).
  - intros ->. rewrite Hlen. destruct existed; unfold saturating_sub; lia.
Qed.

(** The state root commits to the contents and to nothing else: two trees,
    however they were built, that answer every path-hash lookup alike are the
    same tree, so honest nodes cannot disagree on the root because they
    applied the same writes and deletions in a different order. *)
Theorem smt_history_independent t1 t2 :
  smt_ok t1 → smt_ok t2 →
  (∀ kh, get_at (smt_root t1) kh 0 = get_at (smt_root t2) kh 0) →
  smt_root t1 = smt_root t2 ∧ smt_root_hash t1 = smt_root_hash t2.
Proof.
  intros H1 H2 Hg. assert (smt_root t1 = smt_root t2) as E; [|split; [done|]].
  - eapply wf_tree_unique; [done..|]. intros [k v]. by rewrite <- !(get_at_Some 0), Hg.
  - unfold smt_root_hash. by rewrite E.
Qed.
End smt_invariant.

(** * Proofs of presence and absence *)

Section smt_proofs.
Context `{Hasher}.

(** [fold_siblings] read from the root down. *)
Fixpoint climb_path (kh : Hash32) (d : nat) (sib : list Hash32) (acc : Hash32) : Hash32 :=
  match sib with
  | [] => acc
  | s :: ss =>
      if Hash32_bit kh d then smt_node_hash s (climb_path kh (S d) ss acc)
      else smt_node_hash (climb_path kh (S d) ss acc) s
  end.

Lemma fold_siblings_app kh l1 l2 acc :
  fold_siblings kh (l1 ++ l2) acc = fold_siblings kh l2 (fold_siblings kh l1 acc).
Proof. revert acc. induction l1 as [|[]]; intros; simpl; auto. Qed.

Lemma fold_siblings_climb kh d sib acc :
  fold_siblings kh (rev (combine (seq d (length sib)) sib)) acc = climb_path kh d sib acc.
Proof.
  revert d. induction sib as [|s ss IH]; intros d; simpl; [done|].
  rewrite fold_siblings_app, IH. done.
Qed.

(** The hash a proof's terminal node stands for. *)
Definition leaf_digest (kh : Hash32) (lf : ProofLeaf) : Hash32 :=
  match lf with
  | Present v => smt_leaf_hash kh v
  | Absent => EMPTY
  | AbsentOccupied k v => smt_leaf_hash k v
  end.

Lemma Proof_compute_root_Some p key r :
  Proof_compute_root p key = Some r ↔
    (length (siblings p) ≤ MAX_PROOF_DEPTH)%nat
    ∧ (∀ k v, leaf p = AbsentOccupied k v →
         k ≠ key_hash key ∧ agree (length (siblings p)) (key_hash key) k)
    ∧ r = climb_path (key_hash key) 0 (siblings p) (leaf_digest (key_hash key) (leaf p)).
Proof.
  unfold Proof_compute_root. destruct (Nat.ltb_spec MAX_PROOF_DEPTH (length (siblings p))).
  { split; [done|]. intros (?&_). lia. }
  destruct (leaf p) as [v| |k v]; simpl; rewrite ?fold_siblings_climb.
  - naive_solver.
  - naive_solver.
  - case_bool_decide as E; simpl; [naive_solver|].
    destruct (shares_prefix (key_hash key) k (length (siblings p))) eqn:Es; simpl.
    + rewrite fold_siblings_climb. apply shares_prefix_agree in Es. split.
      * intros [= <-]. split_and!; [done| |done]. by intros ?? [= <- <-].
      * by intros (_ & _ & ->).
    + split; [done|]. intros (_ & Hx & _). destruct (Hx k v eq_refl) as [_ Hag].
      apply shares_prefix_agree in Hag. congruence.
Qed.

Lemma wf_tree_prove d t kh :
  wf_tree d t → (d ≤ MAX_PROOF_DEPTH)%nat → on_path d kh t → length kh = 32%nat →
  let '(sib, lf) := prove_at t kh d in
  (d + length sib ≤ MAX_PROOF_DEPTH)%nat
  ∧ climb_path kh d sib (leaf_digest kh lf) = link_hash t
  ∧ match get_at t kh d with
    | Some v => lf = Present v
    | None => lf = Absent ∨ ∃ k v, lf = AbsentOccupied k v ∧ k ≠ kh ∧ agree (d + length sib) kh k
    end.
Proof.
  intros Hwf. induction Hwf as [d|d ek ev Hk|d l r Hd Hl IHl Hr IHr Bl Br Hsz]; intros Hdm Hp H32.
  - simpl. split_and!; [lia|done|by left].
  - simpl. rewrite Nat.add_0_r.
    assert (agree d kh ek) by (apply Hp; unfold keys_of; simpl; set_solver).
    case_bool_decide; subst; simpl; [done|]. split_and!; [done..|]. right. eauto.
  - pose proof (wf_internal d l r Hd Hl Hr Bl Br Hsz) as Hwf.
    pose proof (on_path_child _ _ _ _ Hwf Hp) as Hpc.
    simpl. destruct (Nat.leb_spec MAX_PROOF_DEPTH d); [lia|].
    destruct (Hash32_bit kh d) eqn:Hb.
    + specialize (IHr ltac:(lia) Hpc H32). destruct (prove_at r kh (S d)) as [sib lf].
      destruct IHr as (Hle & Hc & Hm). simpl. rewrite Hb, Hc. split_and!; [lia|done|].
      by rewrite Nat.add_succ_r.
    + specialize (IHl ltac:(lia) Hpc H32). destruct (prove_at l kh (S d)) as [sib lf].
      destruct IHl as (Hle & Hc & Hm). simpl. rewrite Hb, Hc. split_and!; [lia|done|].
      by rewrite Nat.add_succ_r.
Qed.

(** A server holding the tree can always answer: the proof it builds for any
    key, present or absent, verifies against the tree's own root for exactly
    the value the tree holds. *)
Theorem smt_prove_verifies t key :
  smt_ok t → Proof_verify (smt_prove t key) (smt_root_hash t) key (smt_get t key) = true.
Proof.
  intros Hok. unfold smt_prove, smt_get, smt_root_hash.
  pose proof (wf_tree_prove 0 (smt_root t) (key_hash key) Hok ltac:(lia) (on_path_0 _ _) (hash_len _ _)) as Hp.
  destruct (prove_at (smt_root t) (key_hash key) 0) as [sib lf]. destruct Hp as (Hle & Hc & Hm).
  unfold Proof_verify. apply andb_true_iff. split.
  - simpl. destruct (get_at (smt_root t) (key_hash key) 0); [subst; by apply bool_decide_eq_true|].
    by destruct Hm as [->|(?&?&->&_)].
  - apply bool_decide_eq_true, Proof_compute_root_Some. simpl. split_and!; [lia| |done].
    intros k v ->. destruct (get_at (smt_root t) (key_hash key) 0); [done|].
    destruct Hm as [?|(?&?&[= <- <-]&?&?)]; done.
Qed.

(** ** Soundness *)

Definition leaf_inputs (k v : bytes) : list bytes :=
  [hash_input DStateLeaf v; hash_input DStateLeaf (k ++ hash DStateLeaf v)].

(** Every input hashed to build the tree. *)
Fixpoint link_inputs (t : Link) : list bytes :=
  match t with
  | Empty => []
  | Leaf k v _ => leaf_inputs k v
  | Internal l r _ _ =>
      hash_input DStateNode (link_hash l ++ link_hash r) :: link_inputs l ++ link_inputs r
  end.

(** Every input hashed by the verifier. *)
Fixpoint path_inputs (kh : Hash32) (d : nat) (sib : list Hash32) (acc : Hash32) : list bytes :=
  match sib with
  | [] => []
  | s :: ss =>
      hash_input DStateNode
        (if Hash32_bit kh d then s ++ climb_path kh (S d) ss acc else climb_path kh (S d) ss acc ++ s)
      :: path_inputs kh (S d) ss acc
  end.
Definition proof_inputs (kh : Hash32) (lf : ProofLeaf) : list bytes :=
  match lf with
  | Present v => leaf_inputs kh v
  | Absent => []
  | AbsentOccupied k v => leaf_inputs k v
  end.

(** No listed input hashes to the constant that marks an empty subtree. *)
Definition empty_free (inputs : list bytes) : Prop := ∀ x, x ∈ inputs → blake3 x ≠ EMPTY.

Lemma smt_leaf_hash_eq k v : smt_leaf_hash k v = hash DStateLeaf (k ++ hash DStateLeaf v).
Proof. unfold smt_leaf_hash, hash_parts, hash. simpl. by rewrite app_nil_r. Qed.
Lemma smt_node_hash_eq a b : smt_node_hash a b = hash DStateNode (a ++ b).
Proof. unfold smt_node_hash, hash_parts, hash. simpl. by rewrite app_nil_r. Qed.

Lemma smt_node_hash_len a b : length (smt_node_hash a b) = 32%nat.
Proof. apply hash_parts_len. Qed.

Lemma leaf_digest_len kh lf : length (leaf_digest kh lf) = 32%nat.
Proof. destruct lf; simpl; [apply hash_parts_len|done|apply hash_parts_len]. Qed.

Lemma climb_path_len kh d sib acc : length acc = 32%nat → length (climb_path kh d sib acc) = 32%nat.
Proof. destruct sib; simpl; [done|]. destruct (Hash32_bit kh d); intros; apply smt_node_hash_len. Qed.

Lemma link_hash_len d t : wf_tree d t → length (link_hash t) = 32%nat.
Proof. destruct 1; simpl; [done|apply hash_parts_len|apply smt_node_hash_len]. Qed.

Section sound.
Context (inputs : list bytes) (Hcf : collision_free inputs) (Hef : empty_free inputs).

Lemma hash_ne_EMPTY d x : hash_input d x ∈ inputs → hash d x ≠ EMPTY.
Proof. intros Hin. by apply Hef. Qed.

Lemma node_ne_EMPTY a b : hash_input DStateNode (a ++ b) ∈ inputs → smt_node_hash a b ≠ EMPTY.
Proof. rewrite smt_node_hash_eq. apply hash_ne_EMPTY. Qed.

Lemma leaf_ne_EMPTY k v : leaf_inputs k v ⊆ inputs → smt_leaf_hash k v ≠ EMPTY.
Proof. intros Hs. rewrite smt_leaf_hash_eq. apply hash_ne_EMPTY, Hs. set_solver. Qed.

Lemma leaf_ne_node k v a b :
  leaf_inputs k v ⊆ inputs → hash_input DStateNode (a ++ b) ∈ inputs →
  smt_leaf_hash k v ≠ smt_node_hash a b.
Proof.
  intros Hs Hn. rewrite smt_leaf_hash_eq, smt_node_hash_eq. intros E.
  apply (hash_inj inputs) in E as [E _]; [done|done| |done]. apply Hs. set_solver.
Qed.

Lemma node_inj a b c d :
  hash_input DStateNode (a ++ b) ∈ inputs → hash_input DStateNode (c ++ d) ∈ inputs →
  length a = 32%nat → length c = 32%nat → smt_node_hash a b = smt_node_hash c d → a = c ∧ b = d.
Proof.
  rewrite !smt_node_hash_eq. intros H1 H2 Ha Hc E.
  apply (hash_inj inputs) in E as [_ E]; [|done..]. apply app32_inj in E; [done|congruence].
Qed.

Lemma leaf_inj k v k' v' :
  leaf_inputs k v ⊆ inputs → leaf_inputs k' v' ⊆ inputs → length k = 32%nat → length k' = 32%nat →
  smt_leaf_hash k v = smt_leaf_hash k' v' → k = k' ∧ v = v'.
Proof.
  intros H1 H2 Hk Hk' E. rewrite !smt_leaf_hash_eq in E.
  apply (hash_inj inputs) in E as [_ E]; [|done|apply H1; set_solver|apply H2; set_solver].
  apply app32_inj in E as [-> E]; [|congruence].
  apply (hash_inj inputs) in E as [_ E]; [done|done|apply H1; set_solver|apply H2; set_solver].
Qed.

(** The value a proof's terminal node claims for the key. *)
Definition claimed (lf : ProofLeaf) : option bytes :=
  match lf with Present v => Some v | _ => None end.

Definition occupied_ok (kh : Hash32) (lf : ProofLeaf) : Prop :=
  match lf with AbsentOccupied k _ => k ≠ kh ∧ length k = 32%nat | _ => True end.

(** The terminal node of an accepted proof against the node it stands for. *)
Lemma terminal_sound d t kh lf :
  wf_tree d t → length kh = 32%nat → occupied_ok kh lf →
  link_inputs t ⊆ inputs → proof_inputs kh lf ⊆ inputs →
  leaf_digest kh lf = link_hash t → get_at t kh d = claimed lf.
Proof.
  intros Hwf H32 Hocc Ht Hp E.
  destruct Hwf as [d|d k v Hk|d l r Hd Hl Hr Bl Br Hsz]; simpl in *.
  - destruct lf; simpl in *; [|done|done]. by apply leaf_ne_EMPTY in E.
  - destruct lf as [w| |ok ow]; simpl in *.
    + apply leaf_inj in E as [-> ->]; [|done..]. by rewrite bool_decide_eq_true_2.
    + symmetry in E. by apply leaf_ne_EMPTY in E.
    + destruct Hocc as [Hne Hok]. apply leaf_inj in E as [-> ->]; [|done..].
      by rewrite bool_decide_eq_false_2.
  - assert (hash_input DStateNode (link_hash l ++ link_hash r) ∈ inputs) by (apply Ht; set_solver).
    destruct lf; simpl in *.
    + by apply leaf_ne_node in E.
    + symmetry in E. by apply node_ne_EMPTY in E.
    + by apply leaf_ne_node in E.
Qed.

Lemma path_sound sib : ∀ d t kh lf,
  wf_tree d t → length kh = 32%nat → Forall (λ h, length h = 32%nat) sib → occupied_ok kh lf →
  link_inputs t ⊆ inputs → proof_inputs kh lf ⊆ inputs →
  path_inputs kh d sib (leaf_digest kh lf) ⊆ inputs →
  climb_path kh d sib (leaf_digest kh lf) = link_hash t → get_at t kh d = claimed lf.
Proof.
  induction sib as [|s ss IH]; intros d t kh lf Hwf H32 Hss Hocc Ht Hp Hpath E.
  { by eapply terminal_sound. }
  apply Forall_cons in Hss as [Hs Hss]. simpl in *.
  pose proof (climb_path_len kh (S d) ss _ (leaf_digest_len kh lf)) as Hlen.
  set (sub := climb_path kh (S d) ss (leaf_digest kh lf)) in *.
  assert (hash_input DStateNode (if Hash32_bit kh d then s ++ sub else sub ++ s) ∈ inputs) as Hin
    by (apply Hpath; set_solver).
  assert ((if Hash32_bit kh d then smt_node_hash s sub else smt_node_hash sub s) = link_hash t) as E'
    by done.
  clear E. destruct Hwf as [d|d k v Hk|d l r Hd Hl Hr Bl Br Hsz]; simpl in *.
  - exfalso. destruct (Hash32_bit kh d); by apply node_ne_EMPTY in E'.
  - exfalso. destruct (Hash32_bit kh d); symmetry in E'; by apply leaf_ne_node in E'.
  - destruct (Nat.leb_spec MAX_PROOF_DEPTH d); [lia|].
    assert (hash_input DStateNode (link_hash l ++ link_hash r) ∈ inputs) by (apply Ht; set_solver).
    destruct (Hash32_bit kh d).
    + apply node_inj in E' as [_ E']; [|done..|by eapply link_hash_len].
      by apply (IH (S d)); [..|set_solver|done|set_solver|done].
    + apply node_inj in E' as [E' _]; [|done..|by eapply link_hash_len].
      by apply (IH (S d)); [..|set_solver|done|set_solver|done].
Qed.
End sound.

(** A light client cannot be lied to, by commission or by omission: a proof
    accepted against the root of a tree proves exactly what the tree holds
    under that key, a value or its absence, unless two of the hashed inputs
    collide or one of them hashes to the empty marker. *)
Theorem smt_proof_sound t p key expected :
  smt_ok t → wf Proof_codec p →
  (let kh := key_hash key in
   let inputs := link_inputs (smt_root t) ++ proof_inputs kh (leaf p)
                 ++ path_inputs kh 0 (siblings p) (leaf_digest kh (leaf p)) in
   collision_free inputs ∧ empty_free inputs) →
  Proof_verify p (smt_root_hash t) key expected = true →
  smt_get t key = expected.
Proof.
  intros Hok (_ & [_ Hsib] & Hleaf) [Hcf Hef] Hv. unfold Proof_verify in Hv. bool_simpl.
  match goal with E : Proof_compute_root _ _ = _ |- _ =>
    apply Proof_compute_root_Some in E as (_ & Hocc & E) end.
  unfold smt_get. rewrite (path_sound _ Hcf Hef (siblings p) 0 _ _ (leaf p)).
  - destruct (leaf p), expected; try done. simpl. case_bool_decide; by subst.
  - done.
  - apply hash_len.
  - done.
  - destruct (leaf p) as [| |k v]; simpl; [done..|]. split; [by apply (Hocc k v)|].
    unfold ProofLeaf_codec in Hleaf. simpl in Hleaf. by destruct Hleaf.
  - set_solver.
  - set_solver.
  - set_solver.
  - done.
Qed.

(** ** Codecs *)

#[export] Instance ProofLeaf_lawful : Lawful ProofLeaf_codec.
Proof.
  split; unfold ProofLeaf_codec; cbn [encode decode wf].
  - intros [v| |k v] rest Hx; cbn [app]; rewrite decode_tag by lia; run_decoder.
    + by rewrite decode_bytes_encode.
    + done.
    + destruct Hx. codec_complete. by rewrite decode_bytes_encode.
  - intros b x rest Hd. decode_inv; bool_simpl; subst;
      repeat match goal with
      | H : decode u8_codec _ = _ |- _ => apply decode_tag_inv in H as [? ->]
      | H : decode Hash32_codec _ = _ |- _ => apply decode_sound in H as [? ->]
      | H : decode_bytes _ = _ |- _ => apply decode_bytes_sound in H as [? ->]
      end; try done.
    cbn [app]. by rewrite <- app_assoc.
Qed.

#[export] Instance Proof_lawful : Lawful Proof_codec.
Proof.
  split; unfold Proof_codec; cbn [encode decode wf].
  - intros [sib lf] rest (Hl & Hs & Hf). cbn [siblings leaf] in *.
    rewrite <- app_assoc, decode_encode by done. run_decoder.
    destruct (Nat.ltb_spec MAX_PROOF_DEPTH (length sib)); [lia|]. codec_complete. done.
  - intros b x rest Hd. codec_sound. cbn [siblings leaf].
    match goal with H : Nat.ltb _ _ = false |- _ => apply Nat.ltb_ge in H end.
    by rewrite <- app_assoc.
Qed.
End smt_proofs.
