(* ===== verification/Store.v ===== *)
(** The keyspace and the storage trait ([crates/state/src/store.rs]).

    [KeyValueStore] is the trait modules are written against; [KVMap] is its
    contract, a finite map from key bytes to value bytes.  The plain map meets it
    outright; [MemoryStore], the sparse Merkle tree keyed by path hash, refines
    it on any set of keys whose path hashes do not collide. *)

From S2P Require Import Prelude Codec Primitives Crypto Smt.

(** * Namespaces and keys *)

Inductive Namespace :=
| NsAccount | NsBalance | NsSupply | NsIssuer | NsValidator | NsDelegation | NsParams
| NsContract | NsFrozen | NsAlias | NsAliasSkeleton | NsAliasReverse | NsContact
| NsAttestor | NsUnbonding | NsBondIndex | NsCouncil | NsProposal | NsProposalIndex.

#[export] Instance Namespace_eq_dec : EqDecision Namespace.
Proof. solve_decision. Defined.

Definition Namespace_byte (ns : Namespace) : Z :=
  match ns with
  | NsAccount => 0x01 | NsBalance => 0x02 | NsSupply => 0x03 | NsIssuer => 0x04
  | NsValidator => 0x05 | NsDelegation => 0x06 | NsParams => 0x07 | NsContract => 0x08
  | NsFrozen => 0x09 | NsAlias => 0x0a | NsAliasSkeleton => 0x0b | NsAliasReverse => 0x0c
  | NsContact => 0x0d | NsAttestor => 0x0e | NsUnbonding => 0x0f | NsBondIndex => 0x10
  | NsCouncil => 0x11 | NsProposal => 0x12 | NsProposalIndex => 0x13
  end.

Abbreviation StoreKey := bytes (only parsing).

Definition StoreKey_new (ns : Namespace) (parts : list bytes) : StoreKey :=
  byte_of (Namespace_byte ns) :: encode_items bytes_codec parts.

Definition key_balance (address : Address) (denom : Denom) : StoreKey :=
  StoreKey_new NsBalance [address; denom].
Definition key_account (address : Address) : StoreKey := StoreKey_new NsAccount [address].
Definition key_supply (denom : Denom) : StoreKey := StoreKey_new NsSupply [denom].
Definition key_issuer (denom : Denom) : StoreKey := StoreKey_new NsIssuer [denom].
Definition key_frozen (denom : Denom) (address : Address) : StoreKey :=
  StoreKey_new NsFrozen [denom; address].
Definition key_alias (name : bytes) : StoreKey := StoreKey_new NsAlias [name].
Definition key_alias_skeleton (skeleton : bytes) : StoreKey := StoreKey_new NsAliasSkeleton [skeleton].
Definition key_alias_reverse (address : Address) : StoreKey := StoreKey_new NsAliasReverse [address].
Definition key_contact (commitment : Hash32) : StoreKey := StoreKey_new NsContact [commitment].
Definition key_attestor (address : Address) : StoreKey := StoreKey_new NsAttestor [address].
Definition key_bond (operator : Address) : StoreKey := StoreKey_new NsValidator [operator].
Definition key_unbonding (operator : Address) : StoreKey := StoreKey_new NsUnbonding [operator].
Definition key_bond_index : StoreKey := StoreKey_new NsBondIndex [].
Definition key_params : StoreKey := StoreKey_new NsParams [].
Definition key_council : StoreKey := StoreKey_new NsCouncil [].
Definition key_proposal (id : Z) : StoreKey := StoreKey_new NsProposal [encode u64_codec id].
Definition key_proposal_index : StoreKey := StoreKey_new NsProposalIndex [].

Arguments StoreKey_new : simpl never.

(** * The storage trait *)

Inductive StateError := Corrupt (key : bytes) (reason : CodecError).

#[export] Instance StateError_eq_dec : EqDecision StateError.
Proof. solve_decision. Defined.

Class KeyValueStore (St : Type) := {
  kv_get : St → StoreKey → option bytes;
  kv_set : St → StoreKey → bytes → St;
  kv_delete : St → StoreKey → St * bool;
}.

(** [hex_of]. *)
Definition hex_digit (d : Z) : byte := byte_of (if d <? 10 then 48 + d else 87 + d).
Definition hex_of (b : bytes) : bytes :=
  b ≫= λ x, [hex_digit (byte_val x / 16); hex_digit (byte_val x mod 16)].

Definition get_decoded `{KeyValueStore St} {A} (c : codec A) (s : St) (key : StoreKey)
  : result StateError (option A) :=
  match kv_get s key with
  | None => Ok None
  | Some b => Some <$> map_err (Corrupt (hex_of key)) (decode_exact c b)
  end.

Definition set_encoded `{KeyValueStore St} {A} (c : codec A) (s : St) (key : StoreKey) (v : A) : St :=
  kv_set s key (encode c v).

(** What the modules may rely on: the store is a finite map. *)
Class KVMap (St : Type) `{KeyValueStore St} := {
  kv_map : St → gmap bytes bytes;
  kv_get_map s k : kv_get s k = kv_map s !! k;
  kv_set_map s k v : kv_map (kv_set s k v) = <[k:=v]> (kv_map s);
  kv_delete_map s k : kv_map (kv_delete s k).1 = delete k (kv_map s);
}.

Abbreviation MapStore := (gmap bytes bytes) (only parsing).

#[export] Instance map_store : KeyValueStore MapStore := {
  kv_get s k := s !! k;
  kv_set s k v := <[k:=v]> s;
  kv_delete s k := (delete k s, bool_decide (is_Some (s !! k)));
}.
#[export] Instance map_store_map : KVMap MapStore.
Proof. by refine {| kv_map := λ s, s |}. Defined.

(** [MemoryStore]: the same trait over the sparse Merkle tree. *)
Definition memory_store `{Hasher} : KeyValueStore SparseMerkleTree := {|
  kv_get t k := smt_get t k;
  kv_set t k v := smt_insert t k v;
  kv_delete t k := smt_remove t k;
|}.

Create Rewrite HintDb kv.
#[export] Hint Rewrite @kv_get_map @kv_set_map @kv_delete_map : kv.

(** * Keys never collide *)

Lemma Namespace_byte_inj a b : Namespace_byte a = Namespace_byte b → a = b.
Proof. destruct a, b; simpl; congruence. Qed.

Lemma Namespace_byte_of_inj a b :
  byte_of (Namespace_byte a) = byte_of (Namespace_byte b) → a = b.
Proof. destruct a, b; vm_compute; congruence. Qed.

Lemma encode_bytes_not_nil b : encode_bytes b ≠ [].
Proof.
  intros E. apply (f_equal length) in E. unfold encode_bytes in E. rewrite length_app in E.
  unfold u32_codec, uint_codec in E. simpl in E. done.
Qed.

Lemma encode_items_inj p q :
  Forall (wf bytes_codec) p → Forall (wf bytes_codec) q →
  encode_items bytes_codec p = encode_items bytes_codec q → p = q.
Proof.
  intros Hp. revert q. induction Hp as [|x p Hx Hp IH]; intros q Hq E.
  - destruct q as [|y q]; [done|]. cbn [encode_items] in E. symmetry in E.
    apply app_eq_nil in E as [E _]. by apply encode_bytes_not_nil in E.
  - destruct q as [|y q]; cbn [encode_items] in E.
    { apply app_eq_nil in E as [E _]. by apply encode_bytes_not_nil in E. }
    apply Forall_cons in Hq as [Hy Hq].
    apply encode_prefix_inj in E as [-> E]; [|apply _|done..]. f_equal. by apply IH.
Qed.

Lemma StoreKey_new_inj ns1 ns2 p1 p2 :
  Forall (wf bytes_codec) p1 → Forall (wf bytes_codec) p2 →
  StoreKey_new ns1 p1 = StoreKey_new ns2 p2 → ns1 = ns2 ∧ p1 = p2.
Proof.
  intros H1 H2. unfold StoreKey_new. intros [= E1 E2].
  split; [by apply Namespace_byte_of_inj|by apply encode_items_inj].
Qed.

(** Namespaced, length-prefixed keys are injective: no two (namespace, parts)
    pairs share a key, so no module and no account can read another's data. *)
Theorem store_key_injective ns1 ns2 p1 p2 :
  Forall (wf bytes_codec) p1 → Forall (wf bytes_codec) p2 →
  StoreKey_new ns1 p1 = StoreKey_new ns2 p2 ↔ ns1 = ns2 ∧ p1 = p2.
Proof.
  intros H1 H2. split; [by apply StoreKey_new_inj|by intros [-> ->]].
Qed.

Lemma StoreKey_new_ns_ne ns1 ns2 p1 p2 : ns1 ≠ ns2 → StoreKey_new ns1 p1 ≠ StoreKey_new ns2 p2.
Proof. intros Hne. unfold StoreKey_new. intros [= E _]. by apply Namespace_byte_of_inj in E. Qed.

Lemma address_ok_part a : address_ok a → wf bytes_codec a.
Proof. unfold address_ok, ADDRESS_LEN, bytes_codec, MAX_FIELD_LEN. simpl. intros ->. lia. Qed.
Lemma denom_ok_part d : denom_ok d → wf bytes_codec d.
Proof. intros Hd%denom_ok_len. unfold bytes_codec, MAX_FIELD_LEN. simpl. lia. Qed.

(** * Reading back what was written *)

Section kv.
Context `{KVMap St} {A : Type} (c : codec A) `{!Lawful c}.

Lemma get_decoded_None s k : kv_map s !! k = None → get_decoded c s k = Ok None.
Proof. intros Hk. unfold get_decoded. by rewrite kv_get_map, Hk. Qed.

Lemma get_decoded_Some s k v :
  get_decoded c s k = Ok (Some v) ↔ wf c v ∧ kv_map s !! k = Some (encode c v).
Proof.
  unfold get_decoded. rewrite kv_get_map. destruct (kv_map s !! k) as [b|]; [|naive_solver].
  destruct (decode_exact c b) as [x|e] eqn:E; simpl.
  - apply decode_exact_sound in E as [Hx ->]; [|done]. split.
    + by intros [= ->].
    + intros [Hv [= E]]. apply encode_inj in E; [by subst|done..].
  - split; [done|]. intros [Hv [= ->]]. rewrite decode_exact_encode in E; done.
Qed.

Lemma get_decoded_set_eq s k v : wf c v → get_decoded c (set_encoded c s k v) k = Ok (Some v).
Proof.
  intros Hv. apply get_decoded_Some. split; [done|]. unfold set_encoded.
  rewrite kv_set_map. apply lookup_insert_eq.
Qed.

Lemma get_decoded_map_eq s s' k :
  kv_map s !! k = kv_map s' !! k → get_decoded c s k = get_decoded c s' k.
Proof. intros E. unfold get_decoded. by rewrite !kv_get_map, E. Qed.
End kv.

(** * MemoryStore refines the map *)

Section refinement.
Context `{Hasher}.

Inductive kv_op := OpSet (k : StoreKey) (v : bytes) | OpDelete (k : StoreKey).

Definition op_key (o : kv_op) : StoreKey := match o with OpSet k _ => k | OpDelete k => k end.

(** One write through the trait, over any store. *)
Definition kv_step {St} {kvs : KeyValueStore St} (s : St) (o : kv_op) : St :=
  match o with
  | OpSet k v => kv_set s k v
  | OpDelete k => (kv_delete s k).1
  end.

Definition kv_run {St} {kvs : KeyValueStore St} (s : St) (ops : list kv_op) : St := foldl kv_step s ops.

(** The path hashes of the keys in use are distinct. *)
Definition keys_distinct (ks : list StoreKey) : Prop :=
  ∀ k1 k2, k1 ∈ ks → k2 ∈ ks → key_hash k1 = key_hash k2 → k1 = k2.

Definition refines (ks : list StoreKey) (t : SparseMerkleTree) (m : MapStore) : Prop :=
  smt_ok t ∧ ∀ k, k ∈ ks → smt_get t k = m !! k.

Lemma refines_step ks t m o :
  keys_distinct ks → op_key o ∈ ks → refines ks t m →
  refines ks (kv_step (kvs := memory_store) t o) (kv_step m o).
Proof.
  intros Hd Hin [Hok Hg]. destruct o as [k v|k]; simpl in *.
  - destruct (smt_insert_hashed_spec t (key_hash k) v Hok (hash_len _ _)) as (Hok' & Hg' & _).
    split; [done|]. intros k' Hk'. unfold smt_get, smt_insert. rewrite Hg', lookup_insert.
    case_decide as E.
    + rewrite decide_True; [done|]. symmetry. by apply Hd.
    + rewrite decide_False by congruence. by apply Hg.
  - destruct (remove_at_spec 0 (smt_root t) (key_hash k) Hok) as (Hok' & _ & _ & Hent).
    unfold smt_remove. destruct (remove_at (smt_root t) (key_hash k) 0) as [r b]. simpl in *.
    split; [done|]. intros k' Hk'. unfold smt_get in *. simpl. rewrite lookup_delete.
    case_decide as E.
    + subst. apply get_at_None; [done|]. rewrite keys_of_entries. naive_solver.
    + rewrite <- Hg by done. apply get_at_entries_iff; [done..|]. intros w. rewrite Hent.
      assert (key_hash k' ≠ key_hash k) by (intros E'; apply E; symmetry; by apply Hd). tauto.
Qed.

(** A store backed by the sparse Merkle tree behaves as the finite map the modules
    are proved against: after any sequence of writes and deletions over keys
    whose path hashes are distinct, every read returns what the map holds. *)
Theorem memory_store_refines ks ops :
  keys_distinct ks → Forall (λ o, op_key o ∈ ks) ops →
  smt_ok (kv_run (kvs := memory_store) smt_new ops) ∧
  ∀ k, k ∈ ks →
    @kv_get _ memory_store
      (kv_run (kvs := memory_store) smt_new ops) k
    = kv_get (kv_run (∅ : MapStore) ops) k.
Proof.
  intros Hd Hops.
  enough (refines ks (kv_run (kvs := memory_store) smt_new ops) (kv_run (∅ : MapStore) ops)) as [? Hg]
    by (split; [done|exact Hg]).
  assert (refines ks smt_new (∅ : MapStore)) as Hr by (split; [constructor|done]).
  revert Hr. generalize (∅ : MapStore). generalize smt_new. unfold kv_run.
  induction Hops as [|o ops Ho Hops IH]; intros t m Hr; simpl; [done|].
  apply IH. by apply refines_step.
Qed.
End refinement.
