(* ===== verification/Records.v ===== *)
(** Records as the store holds them: reading a key through a lawful codec, for
    every module written against [KeyValueStore]. *)

From S2P Require Import Prelude Codec Primitives Crypto Store.

Implicit Types (m : gmap bytes bytes) (k : bytes).

(** Keys of different namespaces. *)
Ltac ns_ne := solve [by apply StoreKey_new_ns_ne | apply not_eq_sym; by apply StoreKey_new_ns_ne].

(** * Whatever is stored decodes *)

Definition readable {A} (c : codec A) m k : Prop := ∀ b, m !! k = Some b → is_ok (decode_exact c b) = true.

Lemma readable_ext {A} (c : codec A) m m' k : m' !! k = m !! k → readable c m k → readable c m' k.
Proof. intros E Hk b Hb. rewrite E in Hb. by apply Hk. Qed.

Lemma readable_insert {A} (c : codec A) `{!Lawful c} m k v k' :
  wf c v → readable c m k' → readable c (<[k := encode c v]> m) k'.
Proof.
  intros Hv Hk b. rewrite lookup_insert. case_decide; [|by apply Hk].
  intros [= <-]. by rewrite decode_exact_encode.
Qed.

(** * The record at a key *)

Definition record_at {A} (c : codec A) m k : option A :=
  match m !! k with
  | Some b => match decode_exact c b with Ok x => Some x | Err _ => None end
  | None => None
  end.

Section record_at.
Context {A : Type} (c : codec A) `{!Lawful c}.

Lemma record_at_Some m k x : record_at c m k = Some x ↔ wf c x ∧ m !! k = Some (encode c x).
Proof.
  unfold record_at. destruct (m !! k) as [b|]; [|naive_solver].
  destruct (decode_exact c b) as [y|e] eqn:E.
  - apply decode_exact_iff in E as [Hy ->]; [|done]. split.
    + by intros [= ->].
    + intros [Hx [= E]]. apply encode_inj in E; [by subst|done..].
  - split; [done|]. intros [Hx [= ->]]. by rewrite decode_exact_encode in E.
Qed.

Lemma record_at_insert m k x : wf c x → record_at c (<[k := encode c x]> m) k = Some x.
Proof. intros Hx. apply record_at_Some. by rewrite lookup_insert_eq. Qed.

Lemma record_at_ext m m' k : m' !! k = m !! k → record_at c m' k = record_at c m k.
Proof. unfold record_at. by intros ->. Qed.

Lemma record_at_readable_None m k : readable c m k → record_at c m k = None → m !! k = None.
Proof.
  unfold record_at, readable. destruct (m !! k) as [b|]; [|done]. intros Hr. specialize (Hr b eq_refl).
  by destruct (decode_exact c b).
Qed.

Lemma readable_insert_ne m k k' v : k ≠ k' → readable c m k' → readable c (<[k := v]> m) k'.
Proof. intros Hne. apply readable_ext. by rewrite lookup_insert_ne. Qed.
Lemma readable_delete m k k' : readable c m k' → readable c (delete k m) k'.
Proof. intros Hr b [_ Hb]%lookup_delete_Some. by apply Hr. Qed.

Context `{KVMap St}.
Implicit Types (s : St).

Lemma get_decoded_record k s o : get_decoded c s k = Ok o → o = record_at c (kv_map s) k.
Proof.
  unfold get_decoded, record_at. rewrite kv_get_map. destruct (kv_map s !! k) as [b|]; [|by intros [= <-]].
  destruct (decode_exact c b); simpl; by intros [= <-].
Qed.

Lemma get_decoded_some k s x : record_at c (kv_map s) k = Some x → get_decoded c s k = Ok (Some x).
Proof.
  unfold get_decoded, record_at. rewrite kv_get_map. destruct (kv_map s !! k) as [b|]; [|done].
  by destruct (decode_exact c b); intros [= ->].
Qed.

Lemma get_decoded_readable k s :
  readable c (kv_map s) k → get_decoded c s k = Ok (record_at c (kv_map s) k).
Proof.
  unfold get_decoded, record_at. rewrite kv_get_map. intros Hr.
  destruct (kv_map s !! k) as [b|] eqn:E; [|done]. specialize (Hr b E).
  by destruct (decode_exact c b).
Qed.
End record_at.
