(* ===== verification/Group.v ===== *)
(** Savings groups ([crates/types/src/group.rs]): the data, the rules of the two
    instruments (a rotating pot and an accumulating, lending fund), and the wire
    format.

    A method taking [&mut self] is a computation of [M GroupAccount GroupError],
    so whatever it wrote before failing is kept; the executor drops the copy it
    called the method on when it fails.  [usize] is 64 bits wide.  Rendered
    operands of an error ([units().to_string()]) are kept as that text. *)

From S2P Require Import Prelude SortedVec Sorting Codec Primitives Crypto.

Definition MAX_GROUP_MEMBERS : Z := 100.
Definition MAX_SHARES_PER_CYCLE : Z := 10.
Definition BPS_DENOMINATOR : Z := 10000.

Inductive GroupError :=
| TooFewMembers (n : Z)
| DuplicateMember
| TreasurerCount (n : Z)
| InvalidRotationOrder
| InvalidQuorum (numerator denominator : Z)
| NotAMember
| ZeroContribution
| InvalidName
| TooManyMembers (n : Z)
| AlreadyContributed
| WrongContributionAmount (expected got : bytes)
| CycleNotDue
| EmptyPot
| NotAccumulating
| NotRotating
| InvalidShareRules (reason : string)
| ZeroShares
| ShareLimit (max requested : Z)
| AlreadyBorrowing
| InsufficientCover (required held : bytes)
| LoanFundShort
| NoLoan
| Overpayment (owed : bytes)
| BadGuarantor
| GuarantorCount (need got : Z)
| ProposalPending
| NoProposal
| AlreadyApproved
| TooLateInRound (due round_ends : Z)
| RoundNotComplete (done needed : Z)
| SocialFundShort
| EmptyFund
| NoShares
| GroupOverflow.

#[export] Instance GroupError_eq_dec : EqDecision GroupError.
Proof. solve_decision. Defined.

(** * Data *)

Inductive Role := Treasurer | OrdinaryMember.

#[export] Instance Role_eq_dec : EqDecision Role.
Proof. solve_decision. Defined.

Record FoundingMember := { fm_address : Address; fm_role : Role }.

Record Loan := {
  principal : Amount;
  service_charge : Amount;
  repaid : Amount;
  due_cycle : Z;
  guarantors : list Address;
  fined : bool;
}.

Record Member := {
  mb_address : Address;
  mb_role : Role;
  joined_cycle : Z;
  contributions_made : Z;
  contributions_missed : Z;
  last_paid_cycle : option Z;
  shares : Z;
  shares_this_cycle : Z;
  mb_loan : option Loan;
  fines_owed : Amount;
  social_paid_cycle : option Z;
  loans_repaid : Z;
  loans_defaulted : Z;
}.

Record ShareRules := {
  min_shares : Z;
  max_shares : Z;
  cycles_per_round : Z;
  service_charge_bps : Z;
  cover_bps : Z;
  loan_term_cycles : Z;
  late_fine_bps : Z;
  required_guarantors : Z;
  social_contribution : Amount;
}.

Inductive ProposalKind :=
| KLoan (principal : Amount) (guarantors : list Address)
| KSocialGrant (amount : Amount).

Record GroupProposal := {
  beneficiary : Address;
  gp_kind : ProposalKind;
  approvals : list Address;
  opened_cycle : Z;
}.

Inductive PayoutPolicy :=
| Rotation (order : list Address) (next : Z)
| Accumulate (rules : ShareRules).

Record Contribution := { c_amount : Amount; c_denom : Denom; period_blocks : Z }.

Record Quorum := { q_numerator : Z; q_denominator : Z }.

Record GroupAccount := {
  g_name : bytes;
  members : list Member;
  contribution : Contribution;
  policy : PayoutPolicy;
  quorum : Quorum;
  cycle : Z;
  cycle_started : Height;
  g_round : Z;
  round_start_cycle : Z;
  social_fund : Amount;
  pending : option GroupProposal;
}.

#[export] Instance FoundingMember_eq_dec : EqDecision FoundingMember.
Proof. solve_decision. Defined.
#[export] Instance Loan_eq_dec : EqDecision Loan.
Proof. solve_decision. Defined.
#[export] Instance Member_eq_dec : EqDecision Member.
Proof. solve_decision. Defined.
#[export] Instance ShareRules_eq_dec : EqDecision ShareRules.
Proof. solve_decision. Defined.
#[export] Instance ProposalKind_eq_dec : EqDecision ProposalKind.
Proof. solve_decision. Defined.
#[export] Instance GroupProposal_eq_dec : EqDecision GroupProposal.
Proof. solve_decision. Defined.
#[export] Instance PayoutPolicy_eq_dec : EqDecision PayoutPolicy.
Proof. solve_decision. Defined.
#[export] Instance Contribution_eq_dec : EqDecision Contribution.
Proof. solve_decision. Defined.
#[export] Instance Quorum_eq_dec : EqDecision Quorum.
Proof. solve_decision. Defined.
#[export] Instance GroupAccount_eq_dec : EqDecision GroupAccount.
Proof. solve_decision. Defined.

(** Assignments to fields. *)
Definition with_members (ms : list Member) (g : GroupAccount) : GroupAccount :=
  {| g_name := g_name g; members := ms; contribution := contribution g; policy := policy g; quorum := quorum g;
     cycle := cycle g; cycle_started := cycle_started g; g_round := g_round g;
     round_start_cycle := round_start_cycle g; social_fund := social_fund g; pending := pending g |}.
Definition with_pending (p : option GroupProposal) (g : GroupAccount) : GroupAccount :=
  {| g_name := g_name g; members := members g; contribution := contribution g; policy := policy g;
     quorum := quorum g; cycle := cycle g; cycle_started := cycle_started g; g_round := g_round g;
     round_start_cycle := round_start_cycle g; social_fund := social_fund g; pending := p |}.
Definition with_social_fund (x : Amount) (g : GroupAccount) : GroupAccount :=
  {| g_name := g_name g; members := members g; contribution := contribution g; policy := policy g;
     quorum := quorum g; cycle := cycle g; cycle_started := cycle_started g; g_round := g_round g;
     round_start_cycle := round_start_cycle g; social_fund := x; pending := pending g |}.

Definition with_paid (made : Z) (last : option Z) (m : Member) : Member :=
  {| mb_address := mb_address m; mb_role := mb_role m; joined_cycle := joined_cycle m;
     contributions_made := made; contributions_missed := contributions_missed m; last_paid_cycle := last;
     shares := shares m; shares_this_cycle := shares_this_cycle m; mb_loan := mb_loan m;
     fines_owed := fines_owed m; social_paid_cycle := social_paid_cycle m; loans_repaid := loans_repaid m;
     loans_defaulted := loans_defaulted m |}.
Definition with_missed (missed : Z) (m : Member) : Member :=
  {| mb_address := mb_address m; mb_role := mb_role m; joined_cycle := joined_cycle m;
     contributions_made := contributions_made m; contributions_missed := missed;
     last_paid_cycle := last_paid_cycle m; shares := shares m; shares_this_cycle := shares_this_cycle m;
     mb_loan := mb_loan m; fines_owed := fines_owed m; social_paid_cycle := social_paid_cycle m;
     loans_repaid := loans_repaid m; loans_defaulted := loans_defaulted m |}.
Definition with_shares (n this_cycle : Z) (m : Member) : Member :=
  {| mb_address := mb_address m; mb_role := mb_role m; joined_cycle := joined_cycle m;
     contributions_made := contributions_made m; contributions_missed := contributions_missed m;
     last_paid_cycle := last_paid_cycle m; shares := n; shares_this_cycle := this_cycle; mb_loan := mb_loan m;
     fines_owed := fines_owed m; social_paid_cycle := social_paid_cycle m; loans_repaid := loans_repaid m;
     loans_defaulted := loans_defaulted m |}.
Definition with_loan (l : option Loan) (fines : Amount) (m : Member) : Member :=
  {| mb_address := mb_address m; mb_role := mb_role m; joined_cycle := joined_cycle m;
     contributions_made := contributions_made m; contributions_missed := contributions_missed m;
     last_paid_cycle := last_paid_cycle m; shares := shares m; shares_this_cycle := shares_this_cycle m;
     mb_loan := l; fines_owed := fines; social_paid_cycle := social_paid_cycle m;
     loans_repaid := loans_repaid m; loans_defaulted := loans_defaulted m |}.
Definition with_social_paid (c : option Z) (m : Member) : Member :=
  {| mb_address := mb_address m; mb_role := mb_role m; joined_cycle := joined_cycle m;
     contributions_made := contributions_made m; contributions_missed := contributions_missed m;
     last_paid_cycle := last_paid_cycle m; shares := shares m; shares_this_cycle := shares_this_cycle m;
     mb_loan := mb_loan m; fines_owed := fines_owed m; social_paid_cycle := c;
     loans_repaid := loans_repaid m; loans_defaulted := loans_defaulted m |}.
Definition with_concluded (repaid_ defaulted : Z) (m : Member) : Member :=
  {| mb_address := mb_address m; mb_role := mb_role m; joined_cycle := joined_cycle m;
     contributions_made := contributions_made m; contributions_missed := contributions_missed m;
     last_paid_cycle := last_paid_cycle m; shares := shares m; shares_this_cycle := shares_this_cycle m;
     mb_loan := mb_loan m; fines_owed := fines_owed m; social_paid_cycle := social_paid_cycle m;
     loans_repaid := repaid_; loans_defaulted := defaulted |}.
Definition with_repaid (x : Amount) (l : Loan) : Loan :=
  {| principal := principal l; service_charge := service_charge l; repaid := x; due_cycle := due_cycle l;
     guarantors := guarantors l; fined := fined l |}.
Definition with_fined (l : Loan) : Loan :=
  {| principal := principal l; service_charge := service_charge l; repaid := repaid l; due_cycle := due_cycle l;
     guarantors := guarantors l; fined := true |}.

(** * Members and loans *)

Definition Member_new (address : Address) (role : Role) (c : Z) : Member :=
  {| mb_address := address; mb_role := role; joined_cycle := c; contributions_made := 0;
     contributions_missed := 0; last_paid_cycle := None; shares := 0; shares_this_cycle := 0;
     mb_loan := None; fines_owed := 0; social_paid_cycle := None; loans_repaid := 0; loans_defaulted := 0 |}.

Definition into_member (fm : FoundingMember) (c : Z) : Member := Member_new (fm_address fm) (fm_role fm) c.

Definition has_paid (m : Member) (c : Z) : bool := bool_decide (last_paid_cycle m = Some c).
Definition has_paid_social (m : Member) (c : Z) : bool := bool_decide (social_paid_cycle m = Some c).

Definition outstanding (l : Loan) : result GroupError Amount :=
  total ← map_err (λ _, GroupOverflow) (Amount_checked_add (principal l) (service_charge l));
  Ok (saturating_sub total (repaid l)).

Definition is_settled (l : Loan) : bool :=
  match outstanding l with Ok x => Amount_is_zero x | Err _ => false end.

Definition is_overdue (l : Loan) (c : Z) : bool := (due_cycle l <=? c) && negb (is_settled l).

(** [Member::owed]. *)
Definition owed (m : Member) : result GroupError Amount :=
  loan ← match mb_loan m with Some l => outstanding l | None => Ok 0 end;
  map_err (λ _, GroupOverflow) (Amount_checked_add loan (fines_owed m)).

Definition loans_concluded (m : Member) : Z := saturating_add u64_max (loans_repaid m) (loans_defaulted m).
Definition contributions_due (m : Member) : Z :=
  saturating_add u64_max (contributions_made m) (contributions_missed m).

(** [u32::try_from(x).ok()] of a rate in basis points. *)
Definition rate_bps (part whole : Z) : option Z :=
  if whole =? 0 then None
  else
    let bps := saturating_mul u64_max part 10000 / whole in
    if bps <=? u32_max then Some bps else None.
Definition repayment_bps (m : Member) : option Z := rate_bps (loans_repaid m) (loans_concluded m).
Definition reliability_bps (m : Member) : option Z := rate_bps (contributions_made m) (contributions_due m).

(** * Rules *)

Definition ShareRules_validate (r : ShareRules) : result GroupError unit :=
  let invalid reason := Err (InvalidShareRules reason) in
  if min_shares r =? 0 then invalid "a member must buy at least one share per cycle"
  else if max_shares r <? min_shares r then invalid "the share ceiling is below the floor"
  else if MAX_SHARES_PER_CYCLE <? max_shares r then invalid "the share ceiling exceeds the protocol maximum"
  else if cycles_per_round r =? 0 then invalid "a round must run at least one cycle"
  else if loan_term_cycles r =? 0 then invalid "a loan must have at least one cycle to run"
  else if cycles_per_round r <? loan_term_cycles r
  then invalid "a loan term cannot outlast the round it is made in"
  else if BPS_DENOMINATOR <? service_charge_bps r then invalid "a service charge above 100% of principal"
  else if BPS_DENOMINATOR <? late_fine_bps r then invalid "a late fine above 100% of the debt"
  else if (cover_bps r =? 0) || (BPS_DENOMINATOR <? cover_bps r)
  then invalid "loan cover must be between 1 basis point and 100%"
  else Ok tt.

Definition ShareRules_vicoba (social : Amount) : ShareRules :=
  {| min_shares := 1; max_shares := 5; cycles_per_round := 12; service_charge_bps := 1000; cover_bps := 3334;
     loan_term_cycles := 3; late_fine_bps := 1000; required_guarantors := 2; social_contribution := social |}.

Definition service_charge_on (r : ShareRules) (p : Amount) : result GroupError Amount :=
  map_err (λ _, GroupOverflow) (Amount_mul_ratio p (service_charge_bps r) BPS_DENOMINATOR).

Definition cover_required_for (r : ShareRules) (p : Amount) : result GroupError Amount :=
  map_err (λ _, GroupOverflow) (Amount_mul_ratio p (cover_bps r) BPS_DENOMINATOR).

Definition Quorum_TWO_THIRDS : Quorum := {| q_numerator := 2; q_denominator := 3 |}.

Definition Quorum_validate (q : Quorum) : result GroupError Quorum :=
  if (q_denominator q =? 0) || (q_denominator q <? q_numerator q) || (q_numerator q =? 0)
  then Err (InvalidQuorum (q_numerator q) (q_denominator q)) else Ok q.

(** [u128::div_ceil]. *)
Definition div_ceil (a b : Z) : Z := if a mod b =? 0 then a / b else a / b + 1.

Definition required_of (q : Quorum) (total : Z) : Z :=
  if q_denominator q =? 0 then total
  else
    let needed := div_ceil (saturating_mul u128_max total (q_numerator q)) (q_denominator q) in
    Z.min (if needed <=? u64_max then needed else u64_max) total.

(** * Proposals *)

Definition approved_by (p : GroupProposal) (m : Address) : bool :=
  match search (λ a, a) m (approvals p) with inl _ => true | inr _ => false end.

Definition with_approvals (l : list Address) (p : GroupProposal) : GroupProposal :=
  {| beneficiary := beneficiary p; gp_kind := gp_kind p; approvals := l; opened_cycle := opened_cycle p |}.

(** [Proposal::approve]. *)
Definition proposal_approve (p : GroupProposal) (m : Address) : result GroupError GroupProposal :=
  match search (λ a, a) m (approvals p) with
  | inl _ => Err AlreadyApproved
  | inr at_ => Ok (with_approvals (vec_insert at_ m (approvals p)) p)
  end.

(** * Groups *)

Definition GroupAccount_new (name : bytes) (ms : list Member) (contrib : Contribution) (pol : PayoutPolicy)
    (q : Quorum) (opened_at : Height) : result GroupError GroupAccount :=
  let n := Z.of_nat (length ms) in
  if bool_decide (name = []) || (64 <? Z.of_nat (length name)) then Err InvalidName
  else if n <? 2 then Err (TooFewMembers n)
  else if MAX_GROUP_MEMBERS <? n then Err (TooManyMembers n)
  else if Amount_is_zero (c_amount contrib) then Err ZeroContribution
  else
    let seen := sort_dedup (mb_address <$> ms) in
    if negb (length seen =? length ms)%nat then Err DuplicateMember
    else
      let treasurers := Z.of_nat (length (List.filter (λ m, bool_decide (mb_role m = Treasurer)) ms)) in
      if negb (treasurers =? 1) then Err (TreasurerCount treasurers)
      else
        q ← Quorum_validate q;
        _ ← match pol with
            | Rotation order next =>
                if negb (length order =? length ms)%nat then Err InvalidRotationOrder
                else
                  let sorted_order := sort_dedup order in
                  if negb (length sorted_order =? length order)%nat || negb (bool_decide (sorted_order = seen))
                  then Err InvalidRotationOrder
                  else if Z.of_nat (length order) <=? next then Err InvalidRotationOrder
                  else Ok tt
            | Accumulate rules =>
                _ ← ShareRules_validate rules;
                if n <=? required_guarantors rules
                then Err (InvalidShareRules "more guarantors required than the group has other members")
                else Ok tt
            end;
        Ok {| g_name := name; members := ms; contribution := contrib; policy := pol; quorum := q; cycle := 0;
              cycle_started := opened_at; g_round := 0; round_start_cycle := 0; social_fund := 0;
              pending := None |}.

(** [members.iter().find(|m| m.address == address)], with its position. *)
Definition find_member (a : Address) (ms : list Member) : option (nat * Member) :=
  list_find (λ m, mb_address m = a) ms.
Definition member (g : GroupAccount) (a : Address) : option Member := snd <$> find_member a (members g).
Definition is_member (g : GroupAccount) (a : Address) : bool := bool_decide (is_Some (member g a)).

Definition treasurer (g : GroupAccount) : option Address :=
  mb_address ∘ snd <$> list_find (λ m, mb_role m = Treasurer) (members g).

Definition pot_per_cycle (g : GroupAccount) : result GroupError Amount :=
  map_err (λ _, ZeroContribution) (Amount_checked_mul (c_amount (contribution g)) (Z.of_nat (length (members g)))).

Abbreviation G := (M GroupAccount GroupError).

(** [iter_mut().find(..).ok_or(NotAMember)?]: the member and the position it is
    written back to. *)
Definition member_mut (a : Address) : G (nat * Member) :=
  reads (λ g, ok_or NotAMember (find_member a (members g))).
Definition put_member (i : nat) (m : Member) : G unit :=
  writes (λ g, with_members (<[i := m]> (members g)) g).

Definition record_contribution (a : Address) : G unit :=
  let! g := reads Ok in
  let! p := member_mut a in
  let '(i, m) := p in
  do! fail_if (has_paid m (cycle g)) AlreadyContributed in
  put_member i (with_paid (saturating_add u64_max (contributions_made m) 1) (Some (cycle g)) m).

Definition share_rules (g : GroupAccount) : option ShareRules :=
  match policy g with Accumulate rules => Some rules | Rotation _ _ => None end.
Definition require_share_rules (g : GroupAccount) : result GroupError ShareRules :=
  ok_or NotAccumulating (share_rules g).

Definition total_shares (g : GroupAccount) : Z :=
  fold_left (λ sum m, saturating_add u64_max sum (shares m)) (members g) 0.

Definition cycles_this_round (g : GroupAccount) : Z := saturating_sub (cycle g) (round_start_cycle g).
Definition round_complete (g : GroupAccount) : bool :=
  match share_rules g with Some rules => cycles_per_round rules <=? cycles_this_round g | None => false end.
Definition round_ends_at_cycle (g : GroupAccount) : Z :=
  match share_rules g with
  | Some rules => saturating_add u64_max (round_start_cycle g) (cycles_per_round rules)
  | None => cycle g
  end.

Definition check_term_fits (g : GroupAccount) (rules : ShareRules) : result GroupError Z :=
  let due := saturating_add u64_max (cycle g) (loan_term_cycles rules) in
  let round_ends := round_ends_at_cycle g in
  if round_ends <? due then Err (TooLateInRound due round_ends) else Ok due.

Definition buy_shares (a : Address) (n : Z) : G Amount :=
  let! g := reads Ok in
  let! rules := lift (require_share_rules g) in
  do! fail_if (n =? 0) ZeroShares in
  let! p := member_mut a in
  let '(i, m) := p in
  let after := saturating_add u32_max (shares_this_cycle m) n in
  do! fail_if (max_shares rules <? after) (ShareLimit (max_shares rules) after) in
  let! cost := lift (map_err (λ _, GroupOverflow) (Amount_checked_mul (c_amount (contribution g)) n)) in
  let m' := with_shares (saturating_add u64_max (shares m) n) after m in
  do! put_member i
        (if (min_shares rules <=? after) && negb (has_paid m' (cycle g))
         then with_paid (saturating_add u64_max (contributions_made m') 1) (Some (cycle g)) m' else m') in
  ret cost.

Definition pay_social (a : Address) : G Amount :=
  let! g := reads Ok in
  let! rules := lift (require_share_rules g) in
  let amount := social_contribution rules in
  do! fail_if (Amount_is_zero amount) SocialFundShort in
  let! p := member_mut a in
  let '(i, m) := p in
  do! fail_if (has_paid_social m (cycle g)) AlreadyContributed in
  do! put_member i (with_social_paid (Some (cycle g)) m) in
  let! fund := lift (map_err (λ _, GroupOverflow) (Amount_checked_add (social_fund g) amount)) in
  do! writes (with_social_fund fund) in
  ret amount.

Definition lendable (g : GroupAccount) (balance : Amount) : result GroupError Amount :=
  map_err (λ _, GroupOverflow) (Amount_checked_sub balance (social_fund g)).

Fixpoint guarantors_known (g : GroupAccount) (borrower : Address) (gs : list Address) : result GroupError unit :=
  match gs with
  | [] => Ok tt
  | x :: gs => if bool_decide (x = borrower) || negb (is_member g x) then Err BadGuarantor
               else guarantors_known g borrower gs
  end.

Definition check_guarantors (g : GroupAccount) (borrower : Address) (gs : list Address) (required : Z)
    : result GroupError unit :=
  let n := Z.of_nat (length gs) in
  let got := if n <=? u32_max then n else u32_max in
  if negb (got =? required) then Err (GuarantorCount required got)
  else if negb (length (sort_dedup gs) =? length gs)%nat then Err BadGuarantor
  else guarantors_known g borrower gs.

(** The savings a member's shares stand for. *)
Definition savings_of (g : GroupAccount) (m : Member) : result GroupError Amount :=
  map_err (λ _, GroupOverflow) (Amount_checked_mul (c_amount (contribution g)) (shares m)).

Definition cover_check (required held : Amount) : result GroupError unit :=
  if held <? required then Err (InsufficientCover (u128_to_string required) (u128_to_string held)) else Ok tt.

Definition open_proposal (who : Address) (kind : ProposalKind) (balance : Amount) : G unit :=
  let! g := reads Ok in
  let! rules := lift (require_share_rules g) in
  do! fail_if (bool_decide (is_Some (pending g))) ProposalPending in
  let! m := lift (ok_or NotAMember (member g who)) in
  do! match kind with
      | KLoan p gs =>
          do! fail_if (Amount_is_zero p) ZeroContribution in
          do! fail_if (bool_decide (is_Some (mb_loan m))) AlreadyBorrowing in
          let! held := lift (savings_of g m) in
          let! required := lift (cover_required_for rules p) in
          do! lift (cover_check required held) in
          do! lift (check_guarantors g who gs (required_guarantors rules)) in
          do! lift (check_term_fits g rules) in
          let! free := lift (lendable g balance) in
          fail_if (free <? p) LoanFundShort
      | KSocialGrant x =>
          do! fail_if (Amount_is_zero x) ZeroContribution in
          fail_if (social_fund g <? x) SocialFundShort
      end in
  writes (with_pending (Some {| beneficiary := who; gp_kind := kind; approvals := []; opened_cycle := cycle g |})).

Definition approvals_required (g : GroupAccount) : Z := required_of (quorum g) (Z.of_nat (length (members g))).

(** [GroupAccount::approve]. *)
Definition approve (who : Address) : G bool :=
  let! g := reads Ok in
  do! fail_if (negb (is_member g who)) NotAMember in
  let needed := approvals_required g in
  let! p := lift (ok_or NoProposal (pending g)) in
  let! p := lift (proposal_approve p who) in
  do! writes (with_pending (Some p)) in
  ret (needed <=? Z.of_nat (length (approvals p))).

Definition issue_loan (balance : Amount) : G (Address * Amount) :=
  let! g := reads Ok in
  let! rules := lift (require_share_rules g) in
  let! p := lift (ok_or NoProposal (pending g)) in
  match gp_kind p with
  | KLoan amount gs =>
      let borrower := beneficiary p in
      let! free := lift (lendable g balance) in
      do! fail_if (free <? amount) LoanFundShort in
      do! lift (check_guarantors g borrower gs (required_guarantors rules)) in
      let! charge := lift (service_charge_on rules amount) in
      let! due := lift (check_term_fits g rules) in
      let! required := lift (cover_required_for rules amount) in
      let! f := member_mut borrower in
      let '(i, m) := f in
      do! fail_if (bool_decide (is_Some (mb_loan m))) AlreadyBorrowing in
      let! held := lift (savings_of g m) in
      do! lift (cover_check required held) in
      do! put_member i (with_loan (Some {| principal := amount; service_charge := charge; repaid := 0;
                                           due_cycle := due; guarantors := gs; fined := false |})
                          (fines_owed m) m) in
      do! writes (with_pending None) in
      ret (borrower, amount)
  | KSocialGrant _ => throw NoProposal
  end.

Definition issue_grant : G (Address * Amount) :=
  let! g := reads Ok in
  let! p := lift (ok_or NoProposal (pending g)) in
  match gp_kind p with
  | KLoan _ _ => throw NoProposal
  | KSocialGrant amount =>
      let! fund := lift (map_err (λ _, SocialFundShort) (Amount_checked_sub (social_fund g) amount)) in
      do! writes (with_social_fund fund) in
      do! writes (with_pending None) in
      ret (beneficiary p, amount)
  end.

Definition repay (a : Address) (amount : Amount) : G unit :=
  do! fail_if (Amount_is_zero amount) ZeroContribution in
  let! p := member_mut a in
  let '(i, m) := p in
  let! loan := lift (ok_or NoLoan (mb_loan m)) in
  let! owed := lift (outstanding loan) in
  do! fail_if (owed <? amount) (Overpayment (u128_to_string owed)) in
  let! x := lift (map_err (λ _, GroupOverflow) (Amount_checked_add (repaid loan) amount)) in
  let loan := with_repaid x loan in
  put_member i
    (if is_settled loan
     then with_concluded (saturating_add u64_max (loans_repaid m) 1) (loans_defaulted m)
            (with_loan None (fines_owed m) m)
     else with_loan (Some loan) (fines_owed m) m).

(** One turn of [share_out]'s loop: the member's payment, and the member reset. *)
Definition share_out_member (fund : Amount) (total : Z) (m : Member)
    : result GroupError (list (Address * Amount) * Member) :=
  gross ← map_err (λ _, GroupOverflow) (Amount_mul_ratio fund (shares m) total);
  owed ← owed m;
  let net := saturating_sub gross owed in
  let defaulted := if bool_decide (is_Some (mb_loan m)) then saturating_add u64_max (loans_defaulted m) 1
                   else loans_defaulted m in
  Ok (if negb (Amount_is_zero net) then [(mb_address m, net)] else [],
      with_shares 0 0 (with_loan None 0 (with_concluded (loans_repaid m) defaulted m))).

(** The loop stops at the first error, the members before it already reset. *)
Fixpoint share_out_loop (fund : Amount) (total : Z) (ms : list Member)
    : result GroupError (list (Address * Amount)) * list Member :=
  match ms with
  | [] => (Ok [], [])
  | m :: ms =>
      match share_out_member fund total m with
      | Err e => (Err e, m :: ms)
      | Ok (pay, m') => let '(r, ms') := share_out_loop fund total ms in (app pay <$> r, m' :: ms')
      end
  end.

Definition close_round (g : GroupAccount) : GroupAccount :=
  {| g_name := g_name g; members := members g; contribution := contribution g; policy := policy g;
     quorum := quorum g; cycle := cycle g; cycle_started := cycle_started g;
     g_round := saturating_add u64_max (g_round g) 1; round_start_cycle := cycle g;
     social_fund := social_fund g; pending := None |}.

Definition share_out (fund : Amount) : G (list (Address * Amount)) :=
  let! g := reads Ok in
  let! rules := lift (require_share_rules g) in
  do! fail_if (negb (round_complete g)) (RoundNotComplete (cycles_this_round g) (cycles_per_round rules)) in
  do! fail_if (Amount_is_zero fund) EmptyFund in
  let total := total_shares g in
  do! fail_if (total =? 0) NoShares in
  let '(r, ms) := share_out_loop fund total (members g) in
  do! writes (with_members ms) in
  let! payments := lift r in
  do! writes close_round in
  ret payments.

Definition everyone_has_paid (g : GroupAccount) : bool := forallb (λ m, has_paid m (cycle g)) (members g).
Definition period_ends (g : GroupAccount) : Height :=
  saturating_add u64_max (cycle_started g) (period_blocks (contribution g)).
Definition payout_due (g : GroupAccount) (now : Height) : bool :=
  everyone_has_paid g || (period_ends g <=? now).

Definition record_missed (a : Address) : G unit :=
  let! p := member_mut a in
  let '(i, m) := p in
  put_member i (with_missed (saturating_add u64_max (contributions_missed m) 1) m).

Definition next_recipient (g : GroupAccount) : option Address :=
  match policy g with Rotation order next => order !! Z.to_nat next | Accumulate _ => None end.

(** The late fine on a member's loan when cycle [closing] ends, if one falls due. *)
Definition late_fine (bps : option Z) (closing : Z) (m : Member) : option (Loan * Amount) :=
  match bps, mb_loan m with
  | Some bps, Some loan =>
      if negb (fined loan) && is_overdue loan closing then
        match outstanding loan with
        | Ok x => match Amount_mul_ratio x bps BPS_DENOMINATOR with
                  | Ok fine => Some (loan, fine)
                  | Err _ => None
                  end
        | Err _ => None
        end
      else None
  | _, _ => None
  end.

(** One turn of [advance_cycle]'s loop. *)
Definition close_member (bps : option Z) (closing : Z) (m : Member) : Member :=
  let m := if has_paid m closing then m
           else with_missed (saturating_add u64_max (contributions_missed m) 1) m in
  let m := with_shares (shares m) 0 m in
  match late_fine bps closing m with
  | Some (loan, fine) =>
      with_loan (Some (with_fined loan))
        (match Amount_checked_add (fines_owed m) fine with Ok x => x | Err _ => u128_max end) m
  | None => m
  end.

Definition rotate (p : PayoutPolicy) : PayoutPolicy :=
  match p with
  | Rotation order next =>
      let n := Z.of_nat (length order) in
      let len := Z.max (if n <=? u32_max then n else 1) 1 in
      Rotation order (saturating_add u32_max next 1 mod len)
  | Accumulate rules => Accumulate rules
  end.

Definition advance_cycle (at_ : Height) (g : GroupAccount) : GroupAccount :=
  let closing := cycle g in
  {| g_name := g_name g;
     members := close_member (late_fine_bps <$> share_rules g) closing <$> members g;
     contribution := contribution g; policy := rotate (policy g); quorum := quorum g;
     cycle := saturating_add u64_max (cycle g) 1; cycle_started := at_; g_round := g_round g;
     round_start_cycle := round_start_cycle g; social_fund := social_fund g;
     pending := match pending g with
                | Some p => if opened_cycle p <=? closing then None else Some p
                | None => None
                end |}.

(** * Wire format *)

Definition Role_codec : codec Role :=
  tag_codec "Role" (λ r, match r with Treasurer => 0 | OrdinaryMember => 1 end)
    (λ t, match t with
          | 0 => Some (unit_codec Treasurer)
          | 1 => Some (unit_codec OrdinaryMember)
          | _ => None
          end).

Definition FoundingMember_codec : codec FoundingMember :=
  iso_codec (λ '(a, r), {| fm_address := a; fm_role := r |}) (λ f, (fm_address f, fm_role f))
    (Address_codec ⊗ Role_codec).

Definition Loan_check (l : Loan) : result CodecError unit :=
  total ← map_err (λ _, CodecInvalid "loan total overflows") (Amount_checked_add (principal l) (service_charge l));
  if total <? repaid l then Err (CodecInvalid "a loan repaid beyond what it was worth")
  else if (u32_max <? Z.of_nat (length (guarantors l))) || (MAX_GROUP_MEMBERS <=? Z.of_nat (length (guarantors l)))
  then Err (CodecInvalid "more guarantors than a group can hold")
  else Ok tt.

Definition Loan_codec : codec Loan :=
  guard_codec Loan_check
    (iso_codec
       (λ '(p, (s, (r, (d, (gs, f))))),
          {| principal := p; service_charge := s; repaid := r; due_cycle := d; guarantors := gs; fined := f |})
       (λ l, (principal l, (service_charge l, (repaid l, (due_cycle l, (guarantors l, fined l))))))
       (Amount_codec ⊗ Amount_codec ⊗ Amount_codec ⊗ u64_codec ⊗ vec_codec Address_codec ⊗ bool_codec)).

(** The text of a [GroupError], for the rules' own error only. *)
Definition ShareRules_check (r : ShareRules) : result CodecError unit :=
  map_err (λ e, match e with InvalidShareRules reason => CodecInvalid reason | _ => CodecInvalid "" end)
    (ShareRules_validate r).

Definition ShareRules_codec : codec ShareRules :=
  guard_codec ShareRules_check
    (iso_codec
       (λ '(mn, (mx, (cpr, (sc, (cov, (term, (fine, (rg, soc)))))))),
          {| min_shares := mn; max_shares := mx; cycles_per_round := cpr; service_charge_bps := sc;
             cover_bps := cov; loan_term_cycles := term; late_fine_bps := fine; required_guarantors := rg;
             social_contribution := soc |})
       (λ r, (min_shares r, (max_shares r, (cycles_per_round r, (service_charge_bps r, (cover_bps r,
               (loan_term_cycles r, (late_fine_bps r, (required_guarantors r, social_contribution r)))))))))
       (u32_codec ⊗ u32_codec ⊗ u64_codec ⊗ u32_codec ⊗ u32_codec ⊗ u64_codec ⊗ u32_codec ⊗ u32_codec
        ⊗ Amount_codec)).

Definition ProposalKind_codec : codec ProposalKind :=
  tag_codec "ProposalKind" (λ k, match k with KLoan _ _ => 0 | KSocialGrant _ => 1 end)
    (λ t, match t with
          | 0 => Some (variant_codec (λ '(p, gs), KLoan p gs)
                         (λ k, match k with KLoan p gs => Some (p, gs) | _ => None end)
                         (Amount_codec ⊗ vec_codec Address_codec))
          | 1 => Some (variant_codec KSocialGrant
                         (λ k, match k with KSocialGrant x => Some x | _ => None end) Amount_codec)
          | _ => None
          end).

Definition Proposal_check (p : GroupProposal) : result CodecError unit :=
  if negb (is_sorted_by bytes_ltb (approvals p)) then Err (CodecInvalid "proposal approvals must be sorted and unique")
  else if MAX_GROUP_MEMBERS <? Z.of_nat (length (approvals p))
  then Err (CodecInvalid "more approvals than a group can hold")
  else Ok tt.

Definition GroupProposal_codec : codec GroupProposal :=
  guard_codec Proposal_check
    (iso_codec
       (λ '(b, (k, (ap, o))), {| beneficiary := b; gp_kind := k; approvals := ap; opened_cycle := o |})
       (λ p, (beneficiary p, (gp_kind p, (approvals p, opened_cycle p))))
       (Address_codec ⊗ ProposalKind_codec ⊗ vec_codec Address_codec ⊗ u64_codec)).

Definition Member_codec : codec Member :=
  iso_codec
    (λ '(a, (r, (j, (made, (missed, (last, (sh, (stc, (l, (f, (soc, (rep, def)))))))))))),
       {| mb_address := a; mb_role := r; joined_cycle := j; contributions_made := made;
          contributions_missed := missed; last_paid_cycle := last; shares := sh; shares_this_cycle := stc;
          mb_loan := l; fines_owed := f; social_paid_cycle := soc; loans_repaid := rep;
          loans_defaulted := def |})
    (λ m, (mb_address m, (mb_role m, (joined_cycle m, (contributions_made m, (contributions_missed m,
            (last_paid_cycle m, (shares m, (shares_this_cycle m, (mb_loan m, (fines_owed m,
            (social_paid_cycle m, (loans_repaid m, loans_defaulted m)))))))))))))
    (Address_codec ⊗ Role_codec ⊗ u64_codec ⊗ u64_codec ⊗ u64_codec ⊗ option_codec u64_codec ⊗ u64_codec
     ⊗ u32_codec ⊗ option_codec Loan_codec ⊗ Amount_codec ⊗ option_codec u64_codec ⊗ u64_codec ⊗ u64_codec).

Definition Contribution_codec : codec Contribution :=
  iso_codec (λ '(x, (d, p)), {| c_amount := x; c_denom := d; period_blocks := p |})
    (λ c, (c_amount c, (c_denom c, period_blocks c)))
    (Amount_codec ⊗ Denom_codec ⊗ u64_codec).

Definition Quorum_codec : codec Quorum :=
  iso_codec (λ '(n, d), {| q_numerator := n; q_denominator := d |}) (λ q, (q_numerator q, q_denominator q))
    (u32_codec ⊗ u32_codec).

Definition PayoutPolicy_codec : codec PayoutPolicy :=
  tag_codec "PayoutPolicy" (λ p, match p with Rotation _ _ => 0 | Accumulate _ => 1 end)
    (λ t, match t with
          | 0 => Some (variant_codec (λ '(o, n), Rotation o n)
                         (λ p, match p with Rotation o n => Some (o, n) | _ => None end)
                         (vec_codec Address_codec ⊗ u32_codec))
          | 1 => Some (variant_codec Accumulate
                         (λ p, match p with Accumulate r => Some r | _ => None end) ShareRules_codec)
          | _ => None
          end).

Definition GroupAccount_check (g : GroupAccount) : result CodecError unit :=
  if MAX_GROUP_MEMBERS <? Z.of_nat (length (members g)) then Err (CodecInvalid "a group may hold at most 100 members")
  else if cycle g <? round_start_cycle g then Err (CodecInvalid "a round starting after the current cycle")
  else Ok tt.

Definition GroupAccount_codec : codec GroupAccount :=
  guard_codec GroupAccount_check
    (iso_codec
       (λ '(n, (ms, (c, (p, (q, (cy, (cs, (r, (rs, (sf, pd)))))))))),
          {| g_name := n; members := ms; contribution := c; policy := p; quorum := q; cycle := cy;
             cycle_started := cs; g_round := r; round_start_cycle := rs; social_fund := sf; pending := pd |})
       (λ g, (g_name g, (members g, (contribution g, (policy g, (quorum g, (cycle g, (cycle_started g,
               (g_round g, (round_start_cycle g, (social_fund g, pending g)))))))))))
       (string_codec ⊗ vec_codec Member_codec ⊗ Contribution_codec ⊗ PayoutPolicy_codec ⊗ Quorum_codec
        ⊗ u64_codec ⊗ Height_codec ⊗ u64_codec ⊗ u64_codec ⊗ Amount_codec
        ⊗ option_codec GroupProposal_codec)).

#[export] Instance Role_lawful : Lawful Role_codec.
Proof. apply tag_lawful; [intros []; lia|tag_cases]. Qed.
#[export] Instance FoundingMember_lawful : Lawful FoundingMember_codec.
Proof. unfold FoundingMember_codec. struct_lawful. Qed.
#[export] Instance Loan_lawful : Lawful Loan_codec.
Proof. apply guard_lawful. struct_lawful. Qed.
#[export] Instance ShareRules_lawful : Lawful ShareRules_codec.
Proof. apply guard_lawful. struct_lawful. Qed.
#[export] Instance ProposalKind_lawful : Lawful ProposalKind_codec.
Proof. apply tag_lawful; [intros []; lia|tag_cases]. Qed.
#[export] Instance GroupProposal_lawful : Lawful GroupProposal_codec.
Proof. apply guard_lawful. struct_lawful. Qed.
#[export] Instance Member_lawful : Lawful Member_codec.
Proof. unfold Member_codec. struct_lawful. Qed.
#[export] Instance Contribution_lawful : Lawful Contribution_codec.
Proof. unfold Contribution_codec. struct_lawful. Qed.
#[export] Instance Quorum_lawful : Lawful Quorum_codec.
Proof. unfold Quorum_codec. struct_lawful. Qed.
#[export] Instance PayoutPolicy_lawful : Lawful PayoutPolicy_codec.
Proof. apply tag_lawful; [intros []; lia|tag_cases]. Qed.
#[export] Instance GroupAccount_lawful : Lawful GroupAccount_codec.
Proof. apply guard_lawful. struct_lawful. Qed.

Arguments Role_codec : simpl never.
Arguments FoundingMember_codec : simpl never.
Arguments Loan_codec : simpl never.
Arguments ShareRules_codec : simpl never.
Arguments ProposalKind_codec : simpl never.
Arguments GroupProposal_codec : simpl never.
Arguments Member_codec : simpl never.
Arguments Contribution_codec : simpl never.
Arguments Quorum_codec : simpl never.
Arguments PayoutPolicy_codec : simpl never.
Arguments GroupAccount_codec : simpl never.
