(* ===== verification/GroupProofs.v ===== *)
(** The invariant of a savings group and its preservation by every operation of
    [crates/types/src/group.rs]. *)

From S2P Require Import Prelude SortedVec Sorting Codec Primitives Crypto Group.

(** * Ranges of the fields *)

Lemma wf_u64 x : wf u64_codec x ↔ 0 ≤ x ≤ u64_max.
Proof. unfold u64_codec, uint_codec, u64_max. simpl. lia. Qed.
Lemma wf_u32 x : wf u32_codec x ↔ 0 ≤ x ≤ u32_max.
Proof. unfold u32_codec, uint_codec, u32_max. simpl. lia. Qed.
Lemma wf_Height x : wf Height_codec x ↔ 0 ≤ x ≤ u64_max.
Proof. apply wf_u64. Qed.
Lemma wf_option {A} (c : codec A) o : wf (option_codec c) o ↔ ∀ x, o = Some x → wf c x.
Proof. destruct o; unfold option_codec; cbn [wf]; naive_solver. Qed.

Lemma Member_wf m :
  wf Member_codec m ↔
    wf Address_codec (mb_address m) ∧ wf Role_codec (mb_role m) ∧ wf u64_codec (joined_cycle m)
    ∧ wf u64_codec (contributions_made m) ∧ wf u64_codec (contributions_missed m)
    ∧ wf (option_codec u64_codec) (last_paid_cycle m) ∧ wf u64_codec (shares m)
    ∧ wf u32_codec (shares_this_cycle m) ∧ wf (option_codec Loan_codec) (mb_loan m)
    ∧ wf Amount_codec (fines_owed m) ∧ wf (option_codec u64_codec) (social_paid_cycle m)
    ∧ wf u64_codec (loans_repaid m) ∧ wf u64_codec (loans_defaulted m).
Proof. reflexivity. Qed.

Lemma Loan_wf l :
  wf Loan_codec l ↔
    (wf Amount_codec (principal l) ∧ wf Amount_codec (service_charge l) ∧ wf Amount_codec (repaid l)
     ∧ wf u64_codec (due_cycle l) ∧ wf (vec_codec Address_codec) (guarantors l) ∧ wf bool_codec (fined l))
    ∧ Loan_check l = Ok tt.
Proof. reflexivity. Qed.

Lemma Loan_check_Ok l :
  Loan_check l = Ok tt ↔
    principal l + service_charge l ≤ u128_max ∧ repaid l ≤ principal l + service_charge l
    ∧ Z.of_nat (length (guarantors l)) < MAX_GROUP_MEMBERS.
Proof.
  unfold Loan_check, Amount_checked_add, checked_add.
  destruct (Z.leb_spec (principal l + service_charge l) u128_max); simpl; [|split; [done|lia]].
  destruct (Z.ltb_spec (principal l + service_charge l) (repaid l)); simpl; [split; [done|lia]|].
  destruct (Z.ltb_spec u32_max (Z.of_nat (length (guarantors l)))),
    (Z.leb_spec MAX_GROUP_MEMBERS (Z.of_nat (length (guarantors l)))); simpl;
    unfold u32_max, MAX_GROUP_MEMBERS in *; split; (done || lia).
Qed.

Lemma ShareRules_wf r :
  wf ShareRules_codec r ↔
    (wf u32_codec (min_shares r) ∧ wf u32_codec (max_shares r) ∧ wf u64_codec (cycles_per_round r)
     ∧ wf u32_codec (service_charge_bps r) ∧ wf u32_codec (cover_bps r) ∧ wf u64_codec (loan_term_cycles r)
     ∧ wf u32_codec (late_fine_bps r) ∧ wf u32_codec (required_guarantors r)
     ∧ wf Amount_codec (social_contribution r))
    ∧ ShareRules_check r = Ok tt.
Proof. reflexivity. Qed.

(** What validated rules promise. *)
Lemma ShareRules_validate_Ok r :
  ShareRules_validate r = Ok tt →
  min_shares r ≠ 0 ∧ min_shares r ≤ max_shares r ≤ MAX_SHARES_PER_CYCLE ∧ cycles_per_round r ≠ 0
  ∧ loan_term_cycles r ≠ 0 ∧ loan_term_cycles r ≤ cycles_per_round r
  ∧ service_charge_bps r ≤ BPS_DENOMINATOR ∧ late_fine_bps r ≤ BPS_DENOMINATOR
  ∧ cover_bps r ≠ 0 ∧ cover_bps r ≤ BPS_DENOMINATOR.
Proof.
  unfold ShareRules_validate. intros H.
  repeat match type of H with (if ?b then _ else _) = _ => destruct b eqn:?; [discriminate H|] end.
  bool_simpl. lia.
Qed.

Lemma ShareRules_wf_validate r : wf ShareRules_codec r → ShareRules_validate r = Ok tt.
Proof.
  intros [_ Hc]%ShareRules_wf. unfold ShareRules_check in Hc.
  destruct (ShareRules_validate r) as [[]|]; done.
Qed.

Lemma ShareRules_ranges r :
  wf ShareRules_codec r →
  0 < min_shares r ≤ max_shares r ∧ max_shares r ≤ MAX_SHARES_PER_CYCLE
  ∧ 0 < loan_term_cycles r ≤ cycles_per_round r ∧ cycles_per_round r ≤ u64_max
  ∧ 0 ≤ service_charge_bps r ≤ BPS_DENOMINATOR ∧ 0 ≤ late_fine_bps r ≤ BPS_DENOMINATOR
  ∧ 0 < cover_bps r ≤ BPS_DENOMINATOR ∧ 0 ≤ required_guarantors r ≤ u32_max
  ∧ 0 ≤ social_contribution r ≤ u128_max.
Proof.
  intros Hw. pose proof (ShareRules_validate_Ok r (ShareRules_wf_validate r Hw)).
  apply (proj1 (ShareRules_wf _)) in Hw as [Hw _]. rewrite !wf_u32, !wf_u64, amount_ok_wf in Hw.
  unfold amount_ok in Hw. lia.
Qed.

(** [mul_ratio] in basis points: exact for every amount, and never above it. *)
Lemma mul_bps_Ok x bps y :
  amount_ok x → 0 ≤ bps ≤ BPS_DENOMINATOR → Amount_mul_ratio x bps BPS_DENOMINATOR = Ok y →
  y = x * bps / BPS_DENOMINATOR ∧ 0 ≤ y ≤ x.
Proof.
  unfold BPS_DENOMINATOR. intros Hx Hb H. pose proof (mul_ratio_spec x bps 10000) as Hs. rewrite H in Hs.
  destruct Hs as (_ & -> & _); [done|unfold u128_max; lia..|].
  split; [done|]. unfold amount_ok in Hx. split; [apply Z.div_pos; nia|apply Z.div_le_upper_bound; nia].
Qed.

Ltac loan_fields :=
  cbn [principal service_charge repaid due_cycle guarantors fined with_repaid with_fined] in *.

(** * Looking members up *)

Definition addresses (g : GroupAccount) : list Address := mb_address <$> members g.

Lemma find_member_Some a ms i m :
  find_member a ms = Some (i, m) → ms !! i = Some m ∧ mb_address m = a.
Proof. intros (?&?&_)%list_find_Some. done. Qed.

Lemma find_member_None a ms : find_member a ms = None ↔ a ∉ mb_address <$> ms.
Proof.
  unfold find_member. rewrite list_find_None, Forall_forall, list_elem_of_fmap. naive_solver.
Qed.

Lemma is_member_iff g a : is_member g a = true ↔ a ∈ addresses g.
Proof.
  unfold is_member, member, addresses. rewrite bool_decide_eq_true.
  destruct (find_member a (members g)) as [[i m]|] eqn:E; simpl.
  - apply find_member_Some in E as [Hi <-]. split; [|done]. intros _.
    apply list_elem_of_fmap. exists m. split; [done|by eapply list_elem_of_lookup_2].
  - apply find_member_None in E. split; [intros [? [=]]|done].
Qed.

Lemma find_member_elem g i m : members g !! i = Some m → mb_address m ∈ addresses g.
Proof. intros Hi. apply list_elem_of_fmap. exists m. split; [done|by eapply list_elem_of_lookup_2]. Qed.

Lemma addresses_insert g i m m' :
  members g !! i = Some m → mb_address m' = mb_address m →
  mb_address <$> <[i := m']> (members g) = addresses g.
Proof.
  intros Hi Ha. unfold addresses. rewrite list_fmap_insert, Ha. apply list_insert_id.
  by rewrite list_lookup_fmap, Hi.
Qed.

(** * The invariant *)

(** A loan on the books: its charge was computed once on the principal, it is
    not yet settled, it falls due before the round that would settle it closes,
    the borrower's own savings still cover the agreed part of it, and other
    members of the group, each named once, stand behind it. *)
Record loan_ok (g : GroupAccount) (rules : ShareRules) (m : Member) (l : Loan) : Prop := {
  lo_positive : 0 < principal l;
  lo_charge : service_charge l = principal l * service_charge_bps rules / BPS_DENOMINATOR;
  lo_unsettled : repaid l < principal l + service_charge l;
  lo_due : due_cycle l ≤ round_ends_at_cycle g;
  lo_cover : principal l * cover_bps rules / BPS_DENOMINATOR ≤ c_amount (contribution g) * shares m;
  lo_guarantors : NoDup (guarantors l) ∧ Z.of_nat (length (guarantors l)) = required_guarantors rules
    ∧ Forall (λ a, a ≠ mb_address m ∧ a ∈ addresses g) (guarantors l);
}.

(** A member of an accumulating group: within the share ceiling, every cycle of the round. *)
Record saver_ok (g : GroupAccount) (rules : ShareRules) (m : Member) : Prop := {
  so_ceiling : shares_this_cycle m ≤ max_shares rules;
  so_shares : cycle g < u64_max →
    shares m ≤ max_shares rules * (cycle g - round_start_cycle g) + shares_this_cycle m;
  so_loan : ∀ l, mb_loan m = Some l → loan_ok g rules m l;
}.

(** The credit record is exact: one entry, made or missed, per cycle closed, and
    one more if the open cycle is already paid. *)
Record member_ok (g : GroupAccount) (m : Member) : Prop := {
  mo_wf : wf Member_codec m;
  mo_last : ∀ c, last_paid_cycle m = Some c → c ≤ cycle g;
  mo_credit : cycle g < u64_max →
    contributions_made m + contributions_missed m = cycle g + (if has_paid m (cycle g) then 1 else 0);
  mo_policy : match policy g with
              | Rotation _ _ => shares m = 0 ∧ shares_this_cycle m = 0 ∧ mb_loan m = None ∧ fines_owed m = 0
              | Accumulate rules => saver_ok g rules m
              end;
}.

(** The open question: asked in the open cycle, about a member, approved by
    distinct members, and, for a grant, still covered by the social fund. *)
Record proposal_ok (g : GroupAccount) (p : GroupProposal) : Prop := {
  po_wf : wf ProposalKind_codec (gp_kind p);
  po_who : beneficiary p ∈ addresses g;
  po_sorted : StronglySorted (key_lt (λ a : bytes, a)) (approvals p);
  po_members : Forall (λ a, a ∈ addresses g) (approvals p);
  po_cycle : opened_cycle p = cycle g;
  po_kind : match gp_kind p with KLoan x _ => 0 < x | KSocialGrant x => 0 < x ≤ social_fund g end;
}.

Record group_ok (g : GroupAccount) : Prop := {
  go_name : wf string_codec (g_name g) ∧ 1 ≤ Z.of_nat (length (g_name g)) ≤ 64;
  go_size : 2 ≤ Z.of_nat (length (members g)) ≤ MAX_GROUP_MEMBERS;
  go_nodup : NoDup (addresses g);
  go_treasurer : length (List.filter (λ m, bool_decide (mb_role m = Treasurer)) (members g)) = 1%nat;
  go_quorum : wf Quorum_codec (quorum g) ∧ Quorum_validate (quorum g) = Ok (quorum g);
  go_contribution : wf Contribution_codec (contribution g) ∧ 0 < c_amount (contribution g);
  go_clock : wf u64_codec (cycle g) ∧ wf Height_codec (cycle_started g) ∧ wf u64_codec (g_round g)
    ∧ wf u64_codec (round_start_cycle g) ∧ round_start_cycle g ≤ cycle g;
  go_fund : wf Amount_codec (social_fund g);
  go_members : Forall (member_ok g) (members g);
  go_policy : wf PayoutPolicy_codec (policy g) ∧
    match policy g with
    | Rotation order next =>
        order ≡ₚ addresses g ∧ next < Z.of_nat (length order) ∧ social_fund g = 0 ∧ pending g = None
    | Accumulate rules =>
        required_guarantors rules < Z.of_nat (length (members g)) ∧ ∀ p, pending g = Some p → proposal_ok g p
    end;
}.

Lemma group_member g i m : group_ok g → members g !! i = Some m → member_ok g m.
Proof. intros Hg Hi. by eapply Forall_lookup_1; [apply go_members|]. Qed.

Lemma group_rules g rules :
  group_ok g → share_rules g = Some rules →
  policy g = Accumulate rules ∧ wf ShareRules_codec rules
  ∧ required_guarantors rules < Z.of_nat (length (members g)) ∧ ∀ p, pending g = Some p → proposal_ok g p.
Proof.
  intros Hg. unfold share_rules. destruct (go_policy g Hg) as [Hw Hp].
  destruct (policy g) as [|r] eqn:E; [done|]. intros [= <-]. naive_solver.
Qed.

(** ** What a member's standing depends on *)

Definition same_rules (g g' : GroupAccount) : Prop :=
  cycle g' = cycle g ∧ round_start_cycle g' = round_start_cycle g ∧ contribution g' = contribution g
  ∧ policy g' = policy g ∧ addresses g' = addresses g.

Lemma member_ok_frame g g' m : same_rules g g' → member_ok g m → member_ok g' m.
Proof.
  intros (Hc & Hr & Hb & Hp & Ha) [Hw Hl Hcr Hpol]. split; rewrite ?Hc; [done..|].
  rewrite Hp. destruct (policy g) as [|rules] eqn:E; [done|].
  destruct Hpol as [H1 H2 H3]. split; rewrite ?Hc, ?Hr; [done..|].
  intros l Hlo. destruct (H3 l Hlo). split; rewrite ?Hb, ?Ha; try done.
  unfold round_ends_at_cycle, share_rules in *. rewrite Hr, Hp, ?Hc. by rewrite E in *.
Qed.

Lemma proposal_ok_frame g g' p :
  same_rules g g' → social_fund g ≤ social_fund g' → proposal_ok g p → proposal_ok g' p.
Proof.
  intros (Hc & Hr & Hb & Hp & Ha) Hs [????? Hk]. split; rewrite ?Hc, ?Ha; try done.
  destruct (gp_kind p); lia.
Qed.

(** Replacing one member's record. *)
Lemma group_ok_put g i m m' :
  group_ok g → members g !! i = Some m → mb_address m' = mb_address m → mb_role m' = mb_role m →
  member_ok g m' → group_ok (with_members (<[i := m']> (members g)) g).
Proof.
  intros Hg Hi Ha Hr Hm'. pose proof (addresses_insert g i m m' Hi Ha) as Had.
  assert (same_rules g (with_members (<[i := m']> (members g)) g)) as Hs by done.
  destruct Hg as [Hn Hsz Hnd Ht Hq Hc Hk Hf Hm [Hpw Hp]].
  split; cbn [with_members g_name members quorum contribution cycle cycle_started g_round round_start_cycle
              social_fund policy pending]; try done.
  - by rewrite length_insert.
  - unfold addresses at 1. cbn [with_members members]. by rewrite Had.
  - rewrite <- Ht. clear -Hi Hr.
    revert i Hi. induction (members g) as [|x l IH]; intros [|i] Hi; simpl in *;
      simplify_eq;
      [rewrite Hr; by case_bool_decide|].
    case_bool_decide; simpl; by rewrite IH.
  - apply Forall_insert; [|by eapply member_ok_frame].
    eapply Forall_impl; [done|]. intros x. by apply member_ok_frame.
  - split; [done|]. destruct (policy g) as [order next|rules].
    + unfold addresses at 1. cbn [with_members members]. by rewrite Had.
    + rewrite length_insert. destruct Hp as [Hp1 Hp2]. split; [done|]. intros p Hpe.
      eapply (proposal_ok_frame g); [done|simpl; lia|by apply Hp2].
Qed.

(** Changing the open question or the social fund. *)
Lemma group_ok_pending g o :
  group_ok g → (o ≠ None → ∃ rules, policy g = Accumulate rules) → (∀ p, o = Some p → proposal_ok g p) →
  group_ok (with_pending o g).
Proof.
  intros [Hn Hsz Hnd Ht Hq Hc Hk Hf Hm [Hpw Hp]] Ho Hpo.
  split; cbn [with_pending g_name members quorum contribution cycle cycle_started g_round round_start_cycle
              social_fund policy pending]; try done.
  - eapply Forall_impl; [done|]. intros x. by apply member_ok_frame.
  - split; [done|]. destruct (policy g) as [order next|rules].
    + destruct Hp as (?&?&?&?). split_and!; try done. destruct o; [|done]. by destruct Ho as [? [=]].
    + split; [naive_solver|]. intros p Hpe. eapply (proposal_ok_frame g); [done|simpl; lia|by apply Hpo].
Qed.

Lemma group_ok_social g x rules :
  group_ok g → policy g = Accumulate rules → wf Amount_codec x →
  (social_fund g ≤ x ∨ pending g = None) → group_ok (with_social_fund x g).
Proof.
  intros [Hn Hsz Hnd Ht Hq Hc Hk Hf Hm [Hpw Hp]] Hpol Hx Hle.
  split; cbn [with_social_fund g_name members quorum contribution cycle cycle_started g_round round_start_cycle
              social_fund policy pending]; try done.
  - eapply Forall_impl; [done|]. intros y. by apply member_ok_frame.
  - split; [done|]. rewrite Hpol in *. split; [naive_solver|]. intros p Hpe.
    destruct Hle as [Hle|Hle]; [|congruence].
    eapply (proposal_ok_frame g); [done|exact Hle|naive_solver].
Qed.

(** ** Updates of a member's record *)

Ltac member_fields :=
  cbn [with_paid with_missed with_shares with_loan with_social_paid with_concluded mb_address mb_role
       joined_cycle contributions_made contributions_missed last_paid_cycle shares shares_this_cycle mb_loan
       fines_owed social_paid_cycle loans_repaid loans_defaulted] in *.

Ltac member_wf :=
  match goal with Hw : wf Member_codec _ |- wf Member_codec _ =>
    apply (proj1 (Member_wf _)) in Hw; apply (proj2 (Member_wf _)); member_fields;
    rewrite ?wf_u64, ?wf_u32 in *; destruct_and?; split_and!;
    first [done | unfold saturating_add, u64_max, u32_max in *; lia | idtac] end.

Ltac member_ranges m :=
  match goal with Hw : wf Member_codec m |- _ =>
    let H := fresh "Hw" in
    pose proof (proj1 (Member_wf _) Hw) as H; rewrite !wf_u64, !wf_u32 in H; destruct_and? end.

Lemma u64_sat_add x y : 0 ≤ x → 0 ≤ y → wf u64_codec (saturating_add u64_max x y).
Proof. rewrite wf_u64. unfold saturating_add, u64_max. lia. Qed.

Lemma saver_frame g rules m m' :
  shares m' = shares m → shares_this_cycle m' = shares_this_cycle m → mb_loan m' = mb_loan m →
  mb_address m' = mb_address m → saver_ok g rules m → saver_ok g rules m'.
Proof.
  intros Hs Ht Hl Ha [H1 H2 H3]. split; rewrite ?Hs, ?Ht; [done..|].
  intros l Hlo. rewrite Hl in Hlo. destruct (H3 l Hlo). split; rewrite ?Hs, ?Ha; done.
Qed.

(** The non-savings part of a record: contributions and social premiums. *)
Lemma member_ok_paid g m :
  0 ≤ cycle g ≤ u64_max → member_ok g m → has_paid m (cycle g) = false →
  member_ok g (with_paid (saturating_add u64_max (contributions_made m) 1) (Some (cycle g)) m).
Proof.
  intros Hc [Hw Hl Hcr Hp] Hpd. split.
  - member_wf. apply wf_option. intros x [= <-]. by apply wf_u64.
  - intros c [= <-]. lia.
  - intros Hlt. specialize (Hcr Hlt). unfold has_paid in *. member_fields. rewrite Hpd in Hcr.
    rewrite bool_decide_eq_true_2 by done. member_ranges m.
    unfold saturating_add. lia.
  - destruct (policy g); [done|]. by apply (saver_frame _ _ m).
Qed.

Lemma member_ok_social_paid g m :
  0 ≤ cycle g ≤ u64_max → member_ok g m → member_ok g (with_social_paid (Some (cycle g)) m).
Proof.
  intros Hc [Hw Hl Hcr Hp]. split; [|done..|].
  - member_wf. apply wf_option. intros x [= <-]. by apply wf_u64.
  - destruct (policy g); [done|]. by apply (saver_frame _ _ m).
Qed.

Lemma member_ok_shares g rules m n :
  policy g = Accumulate rules → 0 ≤ round_start_cycle g ≤ cycle g → 0 < c_amount (contribution g) →
  wf ShareRules_codec rules → 0 ≤ n →
  saturating_add u32_max (shares_this_cycle m) n ≤ max_shares rules → member_ok g m →
  member_ok g (with_shares (saturating_add u64_max (shares m) n)
                 (saturating_add u32_max (shares_this_cycle m) n) m).
Proof.
  intros Hpol Hr Hpr Hrw Hn Hmax [Hw Hl Hcr Hp]. rewrite Hpol in Hp.
  pose proof (ShareRules_ranges rules Hrw).
  member_ranges m.
  unfold MAX_SHARES_PER_CYCLE in *. split; try done.
  - member_wf.
  - rewrite Hpol. destruct Hp as [Hs1 Hs2 Hs3]. split; member_fields; [done| |].
    + intros Hlt. specialize (Hs2 Hlt). unfold saturating_add, u32_max in *. lia.
    + intros l Hlo. destruct (Hs3 l Hlo) as [???? Hcov ?]. split; member_fields; try done.
      etrans; [exact Hcov|]. apply Z.mul_le_mono_nonneg_l; [lia|]. unfold saturating_add, u64_max in *. lia.
Qed.

Lemma member_ok_loan g rules m o f rep def :
  policy g = Accumulate rules → wf Amount_codec f → wf u64_codec rep → wf u64_codec def →
  (∀ l, o = Some l → wf Loan_codec l ∧ loan_ok g rules m l) → member_ok g m →
  member_ok g (with_concluded rep def (with_loan o f m)).
Proof.
  intros Hpol Hf Hrep Hdef Ho [Hw Hl Hcr Hp]. rewrite Hpol in Hp. split; try done.
  - member_wf. apply wf_option. naive_solver.
  - rewrite Hpol. destruct Hp as [Hs1 Hs2 Hs3]. split; member_fields; [done..|].
    intros l Hlo. destruct (Ho l Hlo) as [_ []]. split; member_fields; done.
Qed.

(** Leaving the counters alone. *)
Lemma with_concluded_id o f m :
  with_concluded (loans_repaid m) (loans_defaulted m) (with_loan o f m) = with_loan o f m.
Proof. by destruct m. Qed.

Lemma group_clock g : group_ok g → 0 ≤ cycle g ≤ u64_max ∧ 0 ≤ round_start_cycle g ≤ cycle g.
Proof.
  intros Hg. pose proof (go_clock g Hg) as (H1 & _ & _ & H2 & ?). apply wf_u64 in H1, H2. lia.
Qed.

(** * Operations preserve the invariant *)

Lemma member_mut_Ok a g p g' :
  member_mut a g = (Ok p, g') → g' = g ∧ members g !! p.1 = Some p.2 ∧ mb_address p.2 = a.
Proof.
  unfold member_mut. intros H. apply reads_inv in H as [H ->]. apply ok_or_Ok_inv in H.
  destruct p as [i m]. apply find_member_Some in H. naive_solver.
Qed.

(** Taking a method of [&mut self] apart, step by step. *)
Ltac group_inv :=
  unfold put_member in *;
  repeat match goal with
  | H : bind (reads Ok) ?f ?g = ?r |- _ => change (f g g = r) in H; cbv beta in H
  | H : member_mut _ _ = (Ok ?p, _) |- _ =>
      apply member_mut_Ok in H; destruct p as [? ?]; destruct H as (-> & ? & ?);
      cbn [fst snd] in *; cbv beta iota zeta in *
  | _ => inv_M_step
  end.

Lemma record_contribution_ok a g g' : group_ok g → record_contribution a g = (Ok tt, g') → group_ok g'.
Proof.
  intros Hg H. unfold record_contribution in H. group_inv. destruct (group_clock g Hg).
  eapply group_ok_put; try done. apply member_ok_paid; [lia|by eapply group_member|done].
Qed.

(** The rules a savings operation runs under. *)
Lemma require_rules g rules :
  group_ok g → require_share_rules g = Ok rules →
  policy g = Accumulate rules ∧ wf ShareRules_codec rules
  ∧ required_guarantors rules < Z.of_nat (length (members g)) ∧ ∀ p, pending g = Some p → proposal_ok g p.
Proof. intros Hg H%ok_or_Ok_inv. by apply group_rules. Qed.

Ltac use_rules Hg :=
  match goal with H : require_share_rules _ = Ok _ |- _ =>
    destruct (require_rules _ _ Hg H) as (Hpol & Hrw & Hrg & Hpend) end.

Lemma buy_shares_ok a n g c g' :
  group_ok g → 0 ≤ n → buy_shares a n g = (Ok c, g') → group_ok g'.
Proof.
  intros Hg Hn H. unfold buy_shares in H. group_inv. use_rules Hg. bool_simpl.
  destruct (group_clock g Hg). pose proof (go_contribution g Hg) as [_ Hpr].
  assert (member_ok g m) as Hm by (by eapply group_member).
  eapply (member_ok_shares g x m n) in Hm; try done.
  destruct (_ && _) eqn:E; eapply group_ok_put; try done. bool_simpl.
  by apply (member_ok_paid g (with_shares _ _ m)); [lia|..].
Qed.

Lemma pay_social_ok a g x g' : group_ok g → pay_social a g = (Ok x, g') → group_ok g'.
Proof.
  intros Hg H. unfold pay_social in H. group_inv. use_rules Hg. bool_simpl.
  destruct (group_clock g Hg).
  match goal with H : Amount_checked_add _ _ = Ok _ |- _ => apply Amount_checked_add_Ok in H as [-> Hle] end.
  pose proof (ShareRules_ranges _ Hrw). pose proof (go_fund g Hg) as Hf. rewrite amount_ok_wf in *. unfold amount_ok in *.
  eapply (group_ok_social (with_members _ g)); [|done|rewrite amount_ok_wf; unfold amount_ok; lia|left; simpl; lia].
  eapply group_ok_put; try done. apply member_ok_social_paid; [lia|by eapply group_member].
Qed.

Lemma member_find g a m : member g a = Some m → ∃ i, members g !! i = Some m ∧ mb_address m = a.
Proof.
  unfold member. intros ([i m'] & H & ->)%fmap_Some. apply find_member_Some in H. by exists i.
Qed.

Lemma open_proposal_ok who kind balance g g' :
  group_ok g → wf ProposalKind_codec kind → open_proposal who kind balance g = (Ok tt, g') → group_ok g'.
Proof.
  intros Hg Hk H. unfold open_proposal in H. group_inv. use_rules Hg.
  match goal with H : member g who = Some _ |- _ => apply member_find in H as (i & Hi & <-) end.
  match goal with H : match kind with _ => _ end _ = (Ok _, ?s) |- _ =>
    assert (s = g ∧ match kind with KLoan x _ => 0 < x | KSocialGrant x => 0 < x ≤ social_fund g end) as [-> Hkind] end.
  { pose proof Hk as Hk'. destruct kind as [p gs|x']; group_inv; bool_simpl; unfold Amount_is_zero in *; bool_simpl.
    - destruct Hk' as [Hk' _]. cbn in Hk'. apply amount_ok_wf in Hk'. unfold amount_ok in Hk'.
      split; [done|lia].
    - apply amount_ok_wf in Hk'. unfold amount_ok in Hk'. split; [done|lia]. }
  apply group_ok_pending; [done|by eauto|]. intros p [= <-].
  split; simpl; try done; [by eapply find_member_elem|constructor..].
Qed.

(** ** Decisions *)

Lemma proposal_approve_Ok p who p' :
  StronglySorted (key_lt (λ a : bytes, a)) (approvals p) → proposal_approve p who = Ok p' →
  who ∉ approvals p ∧ beneficiary p' = beneficiary p ∧ gp_kind p' = gp_kind p
  ∧ opened_cycle p' = opened_cycle p ∧ approvals p' ≡ₚ who :: approvals p
  ∧ StronglySorted (key_lt (λ a : bytes, a)) (approvals p').
Proof.
  unfold proposal_approve. intros Hs H.
  destruct (search (λ a, a) who (approvals p)) as [i|i] eqn:E; [done|]. simplify_eq. simpl.
  split_and!; try done.
  - intros Hin. pose proof (proj2 (vec_get_Some (λ a : bytes, a) who (approvals p) who Hs) (conj Hin eq_refl)) as Hg.
    unfold vec_get in Hg. by rewrite E in Hg.
  - unfold vec_insert. rewrite <- (take_drop i (approvals p)) at 3. by rewrite Permutation_middle.
  - by eapply (vec_insert_sorted (λ a : bytes, a)).
Qed.

Lemma approve_ok who g b g' : group_ok g → approve who g = (Ok b, g') → group_ok g'.
Proof.
  intros Hg H. unfold approve in H. group_inv.
  match goal with H : pending g = Some ?p |- _ => rename p into p0; rename H into Hp end.
  match goal with H : proposal_approve p0 who = Ok ?p |- _ => rename p into p1; rename H into Hap end.
  bool_simpl. destruct (go_policy g Hg) as [_ Hpol]. destruct (policy g) as [|rules] eqn:Epol; [naive_solver|].
  destruct Hpol as [_ Hpo]. specialize (Hpo p0 Hp) as [Hw Hwho Hs Hm Hc Hk].
  apply proposal_approve_Ok in Hap as (_ & Hb & Hkd & Ho & Hperm & Hs'); [|done].
  apply group_ok_pending; [done|by eauto|]. intros p [= <-].
  split; rewrite ?Hb, ?Hkd, ?Ho; try done. rewrite Hperm. constructor; [|done]. by apply is_member_iff.
Qed.

Lemma guarantors_known_Ok g b gs :
  guarantors_known g b gs = Ok tt → Forall (λ a, a ≠ b ∧ a ∈ addresses g) gs.
Proof.
  induction gs as [|x gs IH]; simpl; [constructor|].
  destruct (bool_decide (x = b) || negb (is_member g x)) eqn:E; [done|]. intros H.
  bool_simpl. constructor; [|by apply IH]. by rewrite <- is_member_iff.
Qed.

Lemma check_guarantors_Ok g b gs n :
  n ≤ 100 → check_guarantors g b gs n = Ok tt →
  NoDup gs ∧ Z.of_nat (length gs) = n ∧ Forall (λ a, a ≠ b ∧ a ∈ addresses g) gs.
Proof.
  intros Hn. unfold check_guarantors. destruct (negb (_ =? n)) eqn:E; [done|].
  destruct (negb (_ =? _)%nat) eqn:E2; [done|]. intros H%guarantors_known_Ok. bool_simpl.
  apply Nat.eqb_eq, sort_dedup_length in E2. split_and!; [done| |done].
  unfold u32_max in E. destruct (Z.leb_spec (Z.of_nat (length gs)) (2 ^ 32 - 1)); lia.
Qed.

Lemma check_term_fits_Ok g rules due :
  check_term_fits g rules = Ok due →
  due = saturating_add u64_max (cycle g) (loan_term_cycles rules) ∧ due ≤ round_ends_at_cycle g.
Proof.
  unfold check_term_fits. destruct (Z.ltb_spec (round_ends_at_cycle g)
    (saturating_add u64_max (cycle g) (loan_term_cycles rules))); [done|]. intros [= <-]. done.
Qed.

Lemma lendable_Ok g b free : lendable g b = Ok free → free = b - social_fund g ∧ social_fund g ≤ b.
Proof. intros H%map_err_Ok_inv. by apply Amount_checked_sub_Ok in H. Qed.

Lemma cover_check_Ok r h : cover_check r h = Ok tt → r ≤ h.
Proof. unfold cover_check. destruct (Z.ltb_spec h r); [done|]. lia. Qed.

(** What issuing a loan establishes. *)
Lemma issue_loan_Ok balance g r g' :
  group_ok g → amount_ok balance → issue_loan balance g = (Ok r, g') →
  ∃ rules p gs i m due,
    policy g = Accumulate rules ∧ pending g = Some p ∧ gp_kind p = KLoan r.2 gs ∧ beneficiary p = r.1
    ∧ members g !! i = Some m ∧ mb_address m = r.1 ∧ mb_loan m = None
    ∧ 0 < r.2 ≤ balance - social_fund g
    ∧ r.2 * cover_bps rules / BPS_DENOMINATOR ≤ c_amount (contribution g) * shares m
    ∧ due = saturating_add u64_max (cycle g) (loan_term_cycles rules) ∧ due ≤ round_ends_at_cycle g
    ∧ (NoDup gs ∧ Z.of_nat (length gs) = required_guarantors rules
       ∧ Forall (λ a, a ≠ r.1 ∧ a ∈ addresses g) gs)
    ∧ g' = with_pending None (with_members (<[i := with_loan
             (Some {| principal := r.2; service_charge := r.2 * service_charge_bps rules / BPS_DENOMINATOR;
                      repaid := 0; due_cycle := due; guarantors := gs; fined := false |}) (fines_owed m) m]>
             (members g)) g).
Proof.
  intros Hg Hb H. unfold issue_loan in H. group_inv. use_rules Hg.
  match goal with H : pending g = Some ?p |- _ => rename p into p0; rename H into Hp end.
  destruct (gp_kind p0) as [amt gs|] eqn:Ek; [|by group_inv]. group_inv.
  match goal with H : lendable _ _ = Ok _ |- _ => apply lendable_Ok in H as [-> Hs] end. bool_simpl.
  pose proof (ShareRules_ranges _ Hrw). destruct (Hpend _ Hp) as [_ _ _ _ _ Hk]. rewrite Ek in Hk.
  pose proof (go_fund g Hg) as Hf. apply amount_ok_wf in Hf. unfold amount_ok in *.
  pose proof (go_size g Hg). unfold MAX_GROUP_MEMBERS in *.
  match goal with H : check_guarantors _ _ _ _ = Ok ?u |- _ => destruct u; apply check_guarantors_Ok in H; [|lia] end.
  match goal with H : check_term_fits _ _ = Ok _ |- _ => apply check_term_fits_Ok in H as [-> Hdue] end.
  unfold service_charge_on, cover_required_for, savings_of in *. group_inv.
  repeat match goal with H : Amount_mul_ratio _ _ _ = Ok _ |- _ =>
    apply mul_bps_Ok in H as [-> _]; [|unfold amount_ok; lia|lia] end.
  match goal with H : Amount_checked_mul _ _ = Ok _ |- _ => apply Amount_checked_mul_Ok in H as [-> _] end.
  match goal with H : cover_check _ _ = Ok ?u |- _ => destruct u; apply cover_check_Ok in H end.
  match goal with H : ¬ is_Some (mb_loan _) |- _ => apply eq_None_not_Some in H end.
  destruct_and?. do 6 eexists. simpl. split_and!; try done; lia.
Qed.

Lemma vec_address_wf l : Forall address_ok l → Z.of_nat (length l) ≤ MAX_FIELD_LEN → wf (vec_codec Address_codec) l.
Proof. intros Hl Hn. by split. Qed.

Lemma member_address_ok g a : group_ok g → a ∈ addresses g → address_ok a.
Proof.
  intros Hg (m & -> & Hm)%list_elem_of_fmap. pose proof (go_members g Hg) as Hms. rewrite Forall_forall in Hms.
  specialize (Hms m Hm) as [Hw _ _ _]. by apply (proj1 (Member_wf _)) in Hw as [? _].
Qed.

Lemma issue_loan_ok balance g r g' :
  group_ok g → 0 ≤ balance → 2 * balance ≤ u128_max → issue_loan balance g = (Ok r, g') → group_ok g'.
Proof.
  intros Hg Hb1 Hb2 H. pose proof H as Hi. apply issue_loan_Ok in Hi; [|done|unfold amount_ok; lia].
  destruct Hi as (rules & p & gs & i & m & due & Hpol & Hp & Hk & Hben & Hi & Ha & Hln & Hr & Hcov & Hdue & Hend & (Hnd & Hlen & Hgs) & ->).
  destruct (group_rules g rules Hg) as (_ & Hrw & Hrg & _); [by unfold share_rules; rewrite Hpol|].
  pose proof (ShareRules_ranges _ Hrw) as Hrr. pose proof (go_size g Hg) as Hsz.
  destruct (group_clock g Hg). assert (member_ok g m) as Hm by (by eapply group_member).
  pose proof (go_fund g Hg) as Hf. rewrite amount_ok_wf in Hf. unfold amount_ok in Hf.
  apply group_ok_pending; [|done|done]. eapply group_ok_put; try done. rewrite <- with_concluded_id.
  assert (0 ≤ r.2 * service_charge_bps rules / BPS_DENOMINATOR ≤ r.2).
  { unfold BPS_DENOMINATOR in *. split; [apply Z.div_pos; nia|apply Z.div_le_upper_bound; nia]. }
  pose proof (mo_wf g m Hm) as Hw. pose proof (proj1 (Member_wf _) Hw). destruct_and?.
  apply (member_ok_loan g rules); try done. intros l [= <-]. split.
  - apply (proj2 (Loan_wf _)). loan_fields. rewrite !amount_ok_wf, wf_u64. unfold amount_ok.
    unfold saturating_add, u64_max, MAX_GROUP_MEMBERS, u128_max, MAX_FIELD_LEN in *. split_and!; try lia; try done.
    + apply vec_address_wf; [|unfold MAX_FIELD_LEN; lia]. eapply Forall_impl; [exact Hgs|].
      intros a [_ Hin]. by eapply member_address_ok.
    + apply Loan_check_Ok. simpl. unfold MAX_GROUP_MEMBERS, u128_max. lia.
  - split; simpl; try done; try lia. rewrite Ha. done.
Qed.

Lemma issue_grant_Ok g r g' :
  issue_grant g = (Ok r, g') →
  ∃ p, pending g = Some p ∧ gp_kind p = KSocialGrant r.2 ∧ beneficiary p = r.1 ∧ r.2 ≤ social_fund g
    ∧ g' = with_pending None (with_social_fund (social_fund g - r.2) g).
Proof.
  intros H. unfold issue_grant in H. group_inv.
  match goal with H : pending g = Some ?p |- _ => rename p into p0; rename H into Hp end.
  destruct (gp_kind p0) as [|amt] eqn:Ek; [by group_inv|]. group_inv.
  match goal with H : Amount_checked_sub _ _ = Ok _ |- _ => apply Amount_checked_sub_Ok in H as [-> Hs] end.
  by exists p0.
Qed.

(** The two assignments of [issue_grant] commute. *)
Lemma pending_social_comm o x g : with_pending o (with_social_fund x g) = with_social_fund x (with_pending o g).
Proof. done. Qed.

Lemma issue_grant_ok g r g' : group_ok g → issue_grant g = (Ok r, g') → group_ok g'.
Proof.
  intros Hg (p & Hp & Hk & Hb & Hle & ->)%issue_grant_Ok.
  destruct (go_policy g Hg) as [_ Hpol]. destruct (policy g) as [|rules] eqn:Epol; [naive_solver|].
  destruct Hpol as [_ Hpo]. destruct (Hpo p Hp) as [_ _ _ _ _ Hkd]. rewrite Hk in Hkd.
  pose proof (go_fund g Hg) as Hf. rewrite amount_ok_wf in Hf. unfold amount_ok in Hf.
  rewrite pending_social_comm. eapply group_ok_social; [by apply group_ok_pending|done| |by right].
  rewrite amount_ok_wf. unfold amount_ok. lia.
Qed.

(** ** Repayment *)

Lemma outstanding_Ok l : wf Loan_codec l → outstanding l = Ok (principal l + service_charge l - repaid l).
Proof.
  intros [_ Hc]%(proj1 (Loan_wf _)). apply Loan_check_Ok in Hc.
  unfold outstanding, Amount_checked_add, checked_add, saturating_sub.
  destruct (Z.leb_spec (principal l + service_charge l) u128_max); [|lia]. simpl. f_equal. lia.
Qed.

Lemma is_settled_iff l :
  wf Loan_codec l → is_settled l = true ↔ repaid l = principal l + service_charge l.
Proof.
  intros Hw. unfold is_settled. rewrite outstanding_Ok by done. unfold Amount_is_zero. rewrite Z.eqb_eq. lia.
Qed.

(** The record a repayment leaves. *)
Definition repaid_member (m : Member) (l : Loan) (x : Amount) : Member :=
  if repaid l + x =? principal l + service_charge l
  then with_concluded (saturating_add u64_max (loans_repaid m) 1) (loans_defaulted m)
         (with_loan None (fines_owed m) m)
  else with_loan (Some (with_repaid (repaid l + x) l)) (fines_owed m) m.

Lemma with_repaid_wf l x :
  wf Loan_codec l → 0 ≤ repaid l + x ≤ principal l + service_charge l → wf Loan_codec (with_repaid (repaid l + x) l).
Proof.
  intros Hw%(proj1 (Loan_wf _)) Hx. apply (proj2 (Loan_wf _)). destruct Hw as [Hw Hc].
  rewrite Loan_check_Ok in *. rewrite !amount_ok_wf in *. unfold amount_ok in *. loan_fields. destruct_and?.
  split_and!; try done; lia.
Qed.

Lemma repay_Ok a x g g' :
  group_ok g → amount_ok x → repay a x g = (Ok tt, g') →
  ∃ i m l, members g !! i = Some m ∧ mb_address m = a ∧ mb_loan m = Some l ∧ wf Loan_codec l
    ∧ 0 < x ≤ principal l + service_charge l - repaid l
    ∧ g' = with_members (<[i := repaid_member m l x]> (members g)) g.
Proof.
  intros Hg Hx H. unfold repay in H. group_inv. bool_simpl.
  match goal with H : mb_loan ?m0 = Some ?l0 |- _ => rename m0 into m; rename l0 into l end.
  assert (member_ok g m) as Hm by (by eapply group_member).
  pose proof (proj1 (Member_wf _) (mo_wf g m Hm)) as Hw. destruct_and?.
  assert (wf Loan_codec l) as Hlw by (by eapply wf_option).
  match goal with H : outstanding l = Ok _ |- _ => rewrite outstanding_Ok in H by done; injection H as <- end.
  match goal with H : Amount_checked_add _ _ = Ok _ |- _ => apply Amount_checked_add_Ok in H as [-> _] end.
  unfold Amount_is_zero, amount_ok in *. bool_simpl.
  do 3 eexists. split_and!; try done; try lia. do 2 f_equal. unfold repaid_member.
  pose proof (proj1 (Loan_wf _) Hlw) as [Hl _]. rewrite !amount_ok_wf in Hl. unfold amount_ok in Hl.
  pose proof (is_settled_iff _ (with_repaid_wf l x Hlw ltac:(lia))) as Hs. loan_fields.
  destruct (Z.eqb_spec (repaid l + x) (principal l + service_charge l)), (is_settled _); naive_solver.
Qed.

Lemma repay_ok a x g g' : group_ok g → amount_ok x → repay a x g = (Ok tt, g') → group_ok g'.
Proof.
  intros Hg Hx (i & m & l & Hi & Ha & Hl & Hlw & Hb & ->)%repay_Ok; [|done..].
  assert (member_ok g m) as Hm by (by eapply group_member). pose proof Hm as [Hw _ _ Hp].
  pose proof (proj1 (Member_wf _) Hw). destruct_and?.
  destruct (policy g) as [|rules] eqn:Epol; [naive_solver|]. destruct Hp as [_ _ Hso].
  specialize (Hso l Hl) as [Hl1 Hl2 Hl3 Hl4 Hl5 Hl6]. pose proof (proj1 (Loan_wf _) Hlw) as [Hlr _].
  rewrite !amount_ok_wf in *. unfold amount_ok in *.
  eapply group_ok_put; try done; unfold repaid_member;
    destruct (Z.eqb_spec (repaid l + x) (principal l + service_charge l)) as [E|E]; try done.
  - apply (member_ok_loan g rules); try done; [by apply amount_ok_wf|]. rewrite wf_u64 in *.
    unfold saturating_add, u64_max in *. lia.
  - rewrite <- with_concluded_id. apply (member_ok_loan g rules); try done; [by apply amount_ok_wf|].
    intros l' [= <-]. split; [apply with_repaid_wf; [done|lia]|]. split; loan_fields; try done. lia.
Qed.

(** ** Closing a cycle *)

Lemma late_fine_Some bps c m l x : late_fine bps c m = Some (l, x) → ∃ b y,
  bps = Some b ∧ mb_loan m = Some l ∧ fined l = false ∧ due_cycle l ≤ c ∧ outstanding l = Ok y
  ∧ Amount_mul_ratio y b BPS_DENOMINATOR = Ok x.
Proof.
  unfold late_fine, is_overdue. intros H. repeat case_match; try done. simplify_eq. bool_simpl. naive_solver.
Qed.

(** The record a closed cycle leaves, field by field. *)
Lemma close_member_fields bps c m :
  let m' := close_member bps c m in
  mb_address m' = mb_address m ∧ mb_role m' = mb_role m ∧ joined_cycle m' = joined_cycle m
  ∧ contributions_made m' = contributions_made m ∧ last_paid_cycle m' = last_paid_cycle m
  ∧ contributions_missed m' = (if has_paid m c then contributions_missed m
                               else saturating_add u64_max (contributions_missed m) 1)
  ∧ shares m' = shares m ∧ shares_this_cycle m' = 0 ∧ social_paid_cycle m' = social_paid_cycle m
  ∧ loans_repaid m' = loans_repaid m ∧ loans_defaulted m' = loans_defaulted m
  ∧ mb_loan m' = match late_fine bps c m with Some (l, _) => Some (with_fined l) | None => mb_loan m end
  ∧ fines_owed m' = match late_fine bps c m with
                    | Some (_, x) => saturating_add u128_max (fines_owed m) x
                    | None => fines_owed m
                    end.
Proof.
  assert (∀ a m2, mb_loan m2 = mb_loan m → late_fine a c m2 = late_fine a c m) as Hlf.
  { intros a m2 E. unfold late_fine. by rewrite E. }
  assert (∀ x, match Amount_checked_add (fines_owed m) x with Ok y => y | Err _ => u128_max end
               = saturating_add u128_max (fines_owed m) x) as Hsat.
  { intros x. unfold Amount_checked_add, checked_add, saturating_add.
    destruct (Z.leb_spec (fines_owed m + x) u128_max); simpl; lia. }
  unfold close_member. destruct (has_paid m c); rewrite Hlf by done; member_fields;
    (destruct (late_fine bps c m) as [[l x]|]; member_fields; rewrite ?Hsat; split_and!; done).
Qed.

Lemma with_fined_wf l : wf Loan_codec l → wf Loan_codec (with_fined l).
Proof. intros [Hw Hc]%(proj1 (Loan_wf _)). apply (proj2 (Loan_wf _)). by rewrite Loan_check_Ok in *. Qed.

(** A loan survives the close of a cycle, at most marked as fined. *)
Lemma close_member_loan bps c m l :
  mb_loan (close_member bps c m) = Some l → ∃ l0, mb_loan m = Some l0 ∧ (l = l0 ∨ l = with_fined l0).
Proof.
  destruct (close_member_fields bps c m) as (_&_&_&_&_&_&_&_&_&_&_&Hl&_). rewrite Hl.
  destruct (late_fine bps c m) as [[l0 x]|] eqn:E.
  - apply late_fine_Some in E as (?&?&_&?&_). intros [= <-]. eauto.
  - eauto.
Qed.

Lemma close_member_wf g m bps :
  0 ≤ cycle g → wf Member_codec m → match bps with Some b => 0 ≤ b ≤ BPS_DENOMINATOR | None => True end →
  wf Member_codec (close_member bps (cycle g) m).
Proof.
  intros Hc Hw Hb. destruct (close_member_fields bps (cycle g) m)
    as (E1&E2&E3&E4&E5&E6&E7&E8&E9&E10&E11&E12&E13).
  pose proof (close_member_loan bps (cycle g) m) as Hln.
  pose proof (proj1 (Member_wf _) Hw) as (Hw1&Hw2&Hw3&Hw4&Hw5&Hw6&Hw7&Hw8&Hw9&Hw10&Hw11&Hw12&Hw13).
  apply (proj2 (Member_wf _)). rewrite E1, E2, E3, E4, E5, E6, E7, E8, E9, E10, E11, E13.
  rewrite wf_u64 in Hw5. rewrite wf_option in Hw9. split_and!; try done.
  - destruct (has_paid m (cycle g)); [by apply wf_u64|apply u64_sat_add; lia].
  - apply wf_option. intros l Hl. destruct (Hln l Hl) as (l0 & Hl0 & [->| ->]); [|apply with_fined_wf]; auto.
  - destruct (late_fine bps (cycle g) m) as [[l x]|] eqn:E; [|done].
    apply late_fine_Some in E as (b & y & -> & Hl0 & _ & _ & Hy & Hx).
    pose proof (Hw9 l Hl0) as Hlw. rewrite outstanding_Ok in Hy by done. injection Hy as <-.
    apply (proj1 (Loan_wf _)) in Hlw as [Hlw Hlc]. apply Loan_check_Ok in Hlc.
    rewrite !amount_ok_wf in *. unfold amount_ok in *. destruct_and?.
    apply mul_bps_Ok in Hx as [_ Hx]; [|unfold amount_ok; lia|done]. unfold saturating_add, u128_max in *. lia.
Qed.

Lemma loan_ok_fined g rules m l : loan_ok g rules m l → loan_ok g rules m (with_fined l).
Proof. intros []. by split. Qed.

Lemma advance_addresses h g : addresses (advance_cycle h g) = addresses g.
Proof.
  unfold addresses. cbn [advance_cycle members]. rewrite <- list_fmap_compose.
  apply list_fmap_ext. intros ? x _. apply close_member_fields.
Qed.

(** Closing the cycle leaves every standing sound. *)
Lemma close_member_ok g h m :
  group_ok g → m ∈ members g →
  member_ok (advance_cycle h g) (close_member (late_fine_bps <$> share_rules g) (cycle g) m).
Proof.
  intros Hg Hin. pose proof (go_members g Hg) as Hms. rewrite Forall_forall in Hms.
  destruct (Hms m Hin) as [Hw Hl Hcr Hp]. destruct (group_clock g Hg) as [Hc1 Hc2].
  set (bps := late_fine_bps <$> share_rules g).
  destruct (close_member_fields bps (cycle g) m) as (E1&E2&E3&E4&E5&E6&E7&E8&_&_&_&E12&E13).
  assert (match bps with Some b => 0 ≤ b ≤ BPS_DENOMINATOR | None => True end) as Hb.
  { unfold bps. destruct (share_rules g) as [rules|] eqn:Er; [|done]. simpl.
    destruct (group_rules g rules Hg Er) as (_ & Hrw & _). apply ShareRules_ranges in Hrw. lia. }
  pose proof (proj1 (Member_wf _) Hw) as Hwf. rewrite !wf_u64, !wf_u32 in Hwf. destruct_and?.
  split.
  - apply close_member_wf; [lia|done..].
  - rewrite E5. intros c Hlc. specialize (Hl c Hlc). simpl. unfold saturating_add. lia.
  - cbn [advance_cycle cycle]. intros Hlt. assert (cycle g < u64_max) as Hlt' by (unfold saturating_add in Hlt; lia).
    specialize (Hcr Hlt'). assert (saturating_add u64_max (cycle g) 1 = cycle g + 1) as ->
      by (unfold saturating_add; lia).
    assert (has_paid (close_member bps (cycle g) m) (cycle g + 1) = false) as ->.
    { unfold has_paid. rewrite E5. apply bool_decide_eq_false. intros Hlc. specialize (Hl _ Hlc). lia. }
    rewrite E4, E6. unfold saturating_add. destruct (has_paid m (cycle g)); lia.
  - cbn [advance_cycle policy]. unfold rotate. destruct (policy g) as [order next|rules] eqn:Epol.
    + destruct Hp as (Hp1 & Hp2 & Hp3 & Hp4).
      assert (late_fine bps (cycle g) m = None) as Hlf by (unfold late_fine; rewrite Hp3; by destruct bps).
      rewrite E7, E8, E12, E13, Hlf. done.
    + destruct Hp as [Hs1 Hs2 Hs3]. destruct (group_rules g rules Hg) as (_ & Hrw & _);
        [by unfold share_rules; rewrite Epol|]. pose proof (ShareRules_ranges _ Hrw).
      split; rewrite ?E7, ?E8; [lia| |].
      * cbn [advance_cycle cycle round_start_cycle]. unfold saturating_add. intros Hlt.
        specialize (Hs2 ltac:(lia)). nia.
      * intros l Hlo. destruct (close_member_loan _ _ _ _ Hlo) as (l0 & Hl0 & Hle).
        assert (loan_ok (advance_cycle h g) rules (close_member bps (cycle g) m) l0) as Hok.
        { destruct (Hs3 l0 Hl0) as [?? ? Hdue ? Hgs]. split; rewrite ?E7, ?E1; try done.
          - unfold round_ends_at_cycle, share_rules in *. cbn [advance_cycle policy round_start_cycle].
            rewrite Epol in *. done.
          - by rewrite advance_addresses. }
        destruct Hle as [->| ->]; [done|by apply loan_ok_fined].
Qed.

Lemma rotate_wf p : wf PayoutPolicy_codec p → wf PayoutPolicy_codec (rotate p).
Proof.
  destruct p as [order next|rules]; [|done]. intros [Ho Hn]. cbn in Ho, Hn.
  split; [done|]. cbn [snd]. apply wf_u32. apply wf_u32 in Hn.
  set (len := Z.max _ 1). assert (1 ≤ len ≤ u32_max).
  { unfold len. destruct (Z.leb_spec (Z.of_nat (length order)) u32_max); unfold u32_max in *; lia. }
  pose proof (Z.mod_pos_bound (saturating_add u32_max next 1) len). lia.
Qed.

Lemma advance_cycle_ok h g : group_ok g → wf Height_codec h → group_ok (advance_cycle h g).
Proof.
  intros Hg Hh. destruct (group_clock g Hg) as [Hc1 Hc2]. pose proof Hg as [Hn Hsz Hnd Ht Hq Hc Hk Hf Hm [Hpw Hp]].
  split; rewrite ?advance_addresses;
    cbn [advance_cycle g_name members quorum contribution cycle cycle_started g_round round_start_cycle
         social_fund policy pending]; try done.
  - by rewrite length_fmap.
  - rewrite <- Ht. generalize (late_fine_bps <$> share_rules g). intros bps. clear.
    induction (members g) as [|m l IH]; [done|]. simpl.
    destruct (close_member_fields bps (cycle g) m) as (_ & -> & _). case_bool_decide; simpl; [f_equal|]; exact IH.
  - destruct Hk as (?&?&?&?&?). split_and!; try done; [apply u64_sat_add; lia|].
    unfold saturating_add. lia.
  - apply Forall_fmap, Forall_forall. intros m Hin. by apply close_member_ok.
  - split; [by apply rotate_wf|]. destruct (policy g) as [order next|rules] eqn:Epol; simpl.
    + destruct Hp as (Hperm & Hnext & Hs & Hpd). rewrite Hpd. split_and!; try done.
      assert (length order = length (members g)) as Hlen.
      { rewrite (Permutation_length Hperm). unfold addresses. by rewrite length_fmap. }
      unfold MAX_GROUP_MEMBERS, u32_max in *.
      destruct (Z.leb_spec (Z.of_nat (length order)) (2 ^ 32 - 1)); [|lia].
      pose proof (Z.mod_pos_bound (saturating_add (2 ^ 32 - 1) next 1) (Z.max (Z.of_nat (length order)) 1)). lia.
    + rewrite length_fmap. destruct Hp as [Hp1 Hp2]. split; [done|]. intros p Hpe.
      destruct (pending g) as [p0|] eqn:Epd; [|done]. destruct (Hp2 p0 eq_refl) as [_ _ _ _ Ho _].
      rewrite Ho in Hpe. by rewrite Z.leb_refl in Hpe.
Qed.
