(* ===== verification/GroupTheorems.v ===== *)
(** What a savings group guarantees its members ([crates/types/src/group.rs]):
    the invariant over every history, the share-out, the rotation, and the
    decisions taken by quorum. *)

From S2P Require Import Prelude SortedVec Sorting Codec Primitives Crypto Group GroupProofs.

(** * Creation *)

Lemma Quorum_validate_Ok q q' :
  Quorum_validate q = Ok q' → q' = q ∧ q_numerator q ≠ 0 ∧ q_denominator q ≠ 0 ∧ q_numerator q ≤ q_denominator q.
Proof.
  unfold Quorum_validate. intros H.
  match type of H with (if ?b then _ else _) = _ => destruct b eqn:E; [discriminate H|] end.
  injection H as <-. bool_simpl. done.
Qed.

Lemma GroupAccount_new_Ok name ms c pol q h g :
  GroupAccount_new name ms c pol q h = Ok g →
  g = {| g_name := name; members := ms; contribution := c; policy := pol; quorum := q; cycle := 0;
         cycle_started := h; g_round := 0; round_start_cycle := 0; social_fund := 0; pending := None |}
  ∧ 1 ≤ Z.of_nat (length name) ≤ 64 ∧ 2 ≤ Z.of_nat (length ms) ≤ MAX_GROUP_MEMBERS ∧ c_amount c ≠ 0
  ∧ NoDup (mb_address <$> ms)
  ∧ length (List.filter (λ m, bool_decide (mb_role m = Treasurer)) ms) = 1%nat
  ∧ Quorum_validate q = Ok q
  ∧ match pol with
    | Rotation order next => order ≡ₚ mb_address <$> ms ∧ next < Z.of_nat (length order)
    | Accumulate rules => ShareRules_validate rules = Ok tt ∧ required_guarantors rules < Z.of_nat (length ms)
    end.
Proof.
  unfold GroupAccount_new. intros H.
  repeat match type of H with (if ?b then _ else _) = _ => destruct b eqn:?; [discriminate H|] end.
  apply result_bind_Ok_inv in H as (q' & Hq & H). apply result_bind_Ok_inv in H as (u & Hp & H).
  pose proof Hq as [-> _]%Quorum_validate_Ok. simplify_eq.
  bool_simpl. unfold Amount_is_zero in *. bool_simpl.
  match goal with H : (length (sort_dedup _) =? _)%nat = true |- _ => apply Nat.eqb_eq in H; rename H into Hd end.
  assert (NoDup (mb_address <$> ms)) as Hnd by (apply sort_dedup_length; by rewrite length_fmap).
  split_and!; try done; try lia.
  - destruct name; [done|simpl; lia].
  - destruct pol as [order next|rules]; simpl in Hp.
    + repeat match type of Hp with (if ?b then _ else _) = _ => destruct b eqn:?; [discriminate Hp|] end.
      bool_simpl. repeat match goal with H : (_ =? _)%nat = true |- _ => apply Nat.eqb_eq in H end.
      assert (NoDup order) by (by apply sort_dedup_length). split; [|lia].
      rewrite <- (sort_dedup_perm order), <- (sort_dedup_perm (mb_address <$> ms)) by done.
      by match goal with H : sort_dedup order = _ |- _ => rewrite H end.
    + apply result_bind_Ok_inv in Hp as ([] & Hv & Hp). split; [done|].
      destruct (_ <=? _) eqn:E; [done|]. bool_simpl. lia.
Qed.

(** A group's charter as [Message::CreateGroup] carries it. *)
Definition charter_wf (name : bytes) (fs : list FoundingMember) (c : Contribution) (pol : PayoutPolicy)
    (q : Quorum) (h : Height) : Prop :=
  wf string_codec name ∧ Forall (wf FoundingMember_codec) fs ∧ wf Contribution_codec c
  ∧ wf PayoutPolicy_codec pol ∧ wf Quorum_codec q ∧ wf Height_codec h.

Lemma GroupAccount_new_ok name fs c pol q h g :
  charter_wf name fs c pol q h →
  GroupAccount_new name ((λ f, into_member f 0) <$> fs) c pol q h = Ok g → group_ok g.
Proof.
  intros (Hn & Hfs & Hc & Hpw & Hq & Hh) (-> & Hnl & Hms & Hca & Hnd & Ht & Hqv & Hpol)%GroupAccount_new_Ok.
  split; cbn [g_name members quorum contribution cycle cycle_started g_round round_start_cycle social_fund
              policy pending addresses]; try done.
  - split; [done|]. destruct Hc as [Hc _]. cbn in Hc. apply amount_ok_wf in Hc. unfold amount_ok in Hc. lia.
  - apply Forall_fmap, Forall_forall. intros f Hf. rewrite Forall_forall in Hfs. destruct (Hfs f Hf) as [Ha Hr].
    split; try done.
    cbn [policy]. destruct pol as [|rules]; [done|]. split; simpl; try done; [|lia].
    destruct Hpol as [Hv _]. apply ShareRules_validate_Ok in Hv.
    apply (proj1 (ShareRules_wf _)) in Hpw as [Hpw _]. rewrite !wf_u32 in Hpw. lia.
  - split; [done|]. destruct pol as [order next|rules]; destruct Hpol; split_and!; done.
Qed.

(** * Histories *)

Inductive group_op :=
| OpContribute (a : Address)
| OpBuyShares (a : Address) (n : Z)
| OpPaySocial (a : Address)
| OpPropose (who : Address) (kind : ProposalKind) (balance : Amount)
| OpApprove (who : Address)
| OpIssueLoan (balance : Amount)
| OpIssueGrant
| OpRepay (a : Address) (x : Amount)
| OpShareOut (fund : Amount)
| OpAdvance (h : Height).

(** The result of an operation is dropped: what matters is the state it leaves. *)
Definition run_op (op : group_op) : G unit :=
  match op with
  | OpContribute a => record_contribution a
  | OpBuyShares a n => do! buy_shares a n in ret tt
  | OpPaySocial a => do! pay_social a in ret tt
  | OpPropose who kind b => open_proposal who kind b
  | OpApprove who => do! approve who in ret tt
  | OpIssueLoan b => do! issue_loan b in ret tt
  | OpIssueGrant => do! issue_grant in ret tt
  | OpRepay a x => repay a x
  | OpShareOut f => do! share_out f in ret tt
  | OpAdvance h => writes (advance_cycle h)
  end.

(** Arguments as a decoded message, a height or a ledger balance supplies them. *)
Definition op_wf (op : group_op) : Prop :=
  match op with
  | OpBuyShares _ n => 0 ≤ n ≤ u32_max
  | OpPropose _ kind _ => wf ProposalKind_codec kind
  | OpIssueLoan b => 0 ≤ b ∧ 2 * b ≤ u128_max
  | OpRepay _ x => amount_ok x
  | OpShareOut f => amount_ok f
  | OpAdvance h => wf Height_codec h
  | _ => True
  end.

(** Failed operations leave no trace: the executor drops the copy. *)
Inductive group_history : GroupAccount → GroupAccount → Prop :=
| history_start g : group_history g g
| history_step g g1 g2 op :
    group_history g g1 → op_wf op → run_op op g1 = (Ok tt, g2) → group_history g g2.

(** * The share-out *)

(** What a member owes, as a number. *)
Definition debt (m : Member) : Z :=
  match mb_loan m with Some l => principal l + service_charge l - repaid l | None => 0 end + fines_owed m.

(** What the share-out pays a member, and the record it leaves. *)
Definition payment (fund : Amount) (total : Z) (m : Member) : Amount := Z.max 0 (fund * shares m / total - debt m).
Definition settled (m : Member) : Member :=
  with_shares 0 0 (with_loan None 0 (with_concluded (loans_repaid m)
    (if bool_decide (is_Some (mb_loan m)) then saturating_add u64_max (loans_defaulted m) 1 else loans_defaulted m) m)).
Definition payments_of (fund : Amount) (total : Z) (ms : list Member) : list (Address * Amount) :=
  List.filter (λ p, negb (p.2 =? 0)) ((λ m, (mb_address m, payment fund total m)) <$> ms).

Lemma owed_spec m :
  wf Member_codec m → owed m = if debt m <=? u128_max then Ok (debt m) else Err GroupOverflow.
Proof.
  intros Hw. pose proof (proj1 (Member_wf _) Hw) as (_&_&_&_&_&_&_&_&Hl&_). rewrite wf_option in Hl.
  unfold owed, debt, Amount_checked_add, checked_add. destruct (mb_loan m) as [l|].
  - rewrite outstanding_Ok by auto. simpl. by destruct (_ <=? _).
  - simpl. by destruct (_ <=? _).
Qed.

Lemma share_ratio_Ok fund s total :
  amount_ok fund → 0 ≤ s ≤ total → 0 < total ≤ u64_max → Amount_mul_ratio fund s total = Ok (fund * s / total).
Proof.
  unfold amount_ok, u64_max. intros Hf Hs Ht.
  pose proof (mul_ratio_spec fund s total) as H. unfold amount_ok, u128_max in *.
  specialize (H Hf ltac:(lia) ltac:(lia)).
  destruct (Amount_mul_ratio fund s total) as [r|e]; [by destruct H as (_ & -> & _)|].
  pose proof (Z.mod_pos_bound fund total ltac:(lia)).
  assert (fund * s / total ≤ fund) by (apply Z.div_le_upper_bound; nia).
  destruct H as [H|[H|H]]; [lia| |lia]. exfalso. assert (fund mod total * s < 2 ^ 64 * 2 ^ 64) by nia. lia.
Qed.

Lemma share_out_member_spec fund total m :
  wf Member_codec m → amount_ok fund → shares m ≤ total → 0 < total ≤ u64_max →
  share_out_member fund total m =
    if debt m <=? u128_max then Ok (payments_of fund total [m], settled m) else Err GroupOverflow.
Proof.
  intros Hw Hf Hs Ht. unfold share_out_member. pose proof (proj1 (Member_wf _) Hw) as Hr.
  rewrite !wf_u64 in Hr. rewrite share_ratio_Ok by (done || lia). simpl. rewrite owed_spec by done.
  destruct (debt m <=? u128_max); [|done]. simpl. unfold payments_of, payment, settled, Amount_is_zero, saturating_sub.
  simpl. by destruct (Z.max 0 _ =? 0).
Qed.

Lemma share_out_loop_spec fund total ms :
  Forall (λ m, wf Member_codec m ∧ shares m ≤ total ∧ debt m ≤ u128_max) ms → amount_ok fund →
  0 < total ≤ u64_max →
  share_out_loop fund total ms = (Ok (payments_of fund total ms), settled <$> ms).
Proof.
  intros Hms Hf Ht. induction Hms as [|m ms (Hw & Hs & Hd) _ IH]; [done|]. simpl.
  rewrite share_out_member_spec by done. destruct (Z.leb_spec (debt m) u128_max); [|lia].
  rewrite IH. simpl. f_equal. f_equal. unfold payments_of. simpl. by destruct (negb _).
Qed.

(** Shares of a whole never exceed it, however they are rounded down. *)
Lemma floor_shares_le (fund total : Z) (w : Member → Z) ms :
  0 ≤ fund → 0 < total → Forall (λ m, 0 ≤ w m) ms → list_sum w ms ≤ total →
  list_sum (λ m, fund * w m / total) ms ≤ fund.
Proof.
  intros Hf Ht Hw Hsum. apply Z.mul_le_mono_pos_l with (p := total); [done|].
  assert (total * list_sum (λ m, fund * w m / total) ms ≤ fund * list_sum w ms) as H; [|nia].
  clear Hsum. induction Hw as [|m ms Hm _ IH]; simpl; [lia|].
  pose proof (Z.mul_div_le (fund * w m) total Ht). nia.
Qed.

Lemma payments_sum fund total ms :
  list_sum snd (payments_of fund total ms) = list_sum (payment fund total) ms.
Proof.
  induction ms as [|m ms IH]; [done|]. rewrite list_sum_cons, <- IH. unfold payments_of. simpl.
  destruct (Z.eqb_spec (payment fund total m) 0) as [E|E]; simpl; [|done]. by rewrite E.
Qed.

Lemma debt_nonneg m : wf Member_codec m → 0 ≤ debt m.
Proof.
  intros Hw. pose proof (proj1 (Member_wf _) Hw) as (_&_&_&_&_&_&_&_&Hl&Hf&_). rewrite wf_option in Hl.
  apply amount_ok_wf in Hf. unfold debt, amount_ok in *. destruct (mb_loan m) as [l|]; [|lia].
  pose proof (proj1 (Loan_wf _) (Hl l eq_refl)) as [_ Hc]. apply Loan_check_Ok in Hc. lia.
Qed.

(** The running total saturates only beyond 64 bits. *)
Lemma fold_shares ms acc :
  Forall (λ m, 0 ≤ shares m) ms → 0 ≤ acc → acc + list_sum shares ms ≤ u64_max →
  fold_left (λ sum m, saturating_add u64_max sum (shares m)) ms acc = acc + list_sum shares ms.
Proof.
  intros Hms. revert acc. induction Hms as [|m ms Hm Hms IH]; intros acc Ha Hle; simpl in *; [lia|].
  pose proof (list_sum_nonneg shares ms Hms). unfold saturating_add at 2.
  rewrite Z.min_r by lia. rewrite IH; lia.
Qed.

(** Histories long enough for anyone: the share counters cannot have saturated
    before cycle 2^54. *)
Lemma total_shares_exact g rules :
  group_ok g → policy g = Accumulate rules → cycle g < 2 ^ 54 →
  total_shares g = list_sum shares (members g) ∧ total_shares g ≤ u64_max
  ∧ Forall (λ m, 0 ≤ shares m ≤ total_shares g) (members g).
Proof.
  intros Hg Hpol Hc. destruct (group_clock g Hg).
  destruct (group_rules g rules Hg) as (_ & Hrw & _); [by unfold share_rules; rewrite Hpol|].
  pose proof (ShareRules_ranges _ Hrw). pose proof (go_size g Hg). unfold MAX_SHARES_PER_CYCLE, MAX_GROUP_MEMBERS in *.
  assert (Forall (λ m, 0 ≤ shares m ≤ 10 * 2 ^ 54) (members g)) as Hb.
  { eapply Forall_impl; [apply go_members, Hg|]. intros m [Hw _ _ Hp]. rewrite Hpol in Hp.
    destruct Hp as [Hp1 Hp2 _]. pose proof (proj1 (Member_wf _) Hw) as Hr. rewrite !wf_u64, !wf_u32 in Hr.
    specialize (Hp2 ltac:(unfold u64_max; lia)). nia. }
  assert (Forall (λ m, 0 ≤ shares m) (members g)) as Hnn by (eapply Forall_impl; [exact Hb|]; simpl; lia).
  assert (list_sum shares (members g) ≤ Z.of_nat (length (members g)) * (10 * 2 ^ 54)) as Hsum.
  { clear -Hb. induction Hb; simpl; lia. }
  assert (total_shares g = list_sum shares (members g)) as Ht.
  { unfold total_shares. rewrite fold_shares; [lia|done|lia|]. unfold u64_max. lia. }
  split_and!; [done|unfold u64_max; lia|]. rewrite Ht. apply Forall_forall. intros m Hin.
  rewrite Forall_forall in Hnn. split; [by apply Hnn|]. apply elem_of_Permutation in Hin as [l Hl].
  rewrite (list_sum_perm _ _ _ Hl). simpl. enough (0 ≤ list_sum shares l) by lia.
  apply list_sum_nonneg, Forall_forall. intros x Hx. apply Hnn. rewrite Hl. by right.
Qed.

Lemma payments_le_fund g rules fund :
  group_ok g → policy g = Accumulate rules → cycle g < 2 ^ 54 → 0 ≤ fund → 0 < total_shares g →
  list_sum snd (payments_of fund (total_shares g) (members g)) ≤ fund.
Proof.
  intros Hg Hpol Hc Hf Ht. destruct (total_shares_exact g rules Hg Hpol Hc) as (Hs & _ & Hb).
  rewrite payments_sum. etrans; [|apply (floor_shares_le fund (total_shares g) shares (members g)); try done].
  - apply list_sum_le. rewrite Forall_forall in *. intros m Hm. specialize (Hb m Hm).
    pose proof (go_members g Hg) as Hms. rewrite Forall_forall in Hms. pose proof (mo_wf g m (Hms m Hm)) as Hw.
    pose proof (debt_nonneg m Hw). unfold payment.
    assert (0 ≤ fund * shares m / total_shares g) by (apply Z.div_pos; nia). lia.
  - eapply Forall_impl; [exact Hb|]. simpl. lia.
  - lia.
Qed.

(** When the share-out succeeds, and what it does. *)
Lemma share_out_spec fund g rules :
  group_ok g → policy g = Accumulate rules → cycle g < 2 ^ 54 → amount_ok fund →
  Forall (λ m, debt m ≤ u128_max) (members g) →
  round_complete g = true → fund ≠ 0 → total_shares g ≠ 0 →
  share_out fund g =
    (Ok (payments_of fund (total_shares g) (members g)),
     close_round (with_members (settled <$> members g) g)).
Proof.
  intros Hg Hpol Hc Hf Hd Hr Hfz Htz. destruct (total_shares_exact g rules Hg Hpol Hc) as (Hs & Hmx & Hb).
  unfold share_out, require_share_rules, share_rules, fail_if, reads, lift, writes, bind, ret. rewrite Hpol. simpl.
  rewrite Hr. simpl. unfold Amount_is_zero. destruct (Z.eqb_spec fund 0); [done|].
  destruct (Z.eqb_spec (total_shares g) 0); [done|].
  rewrite share_out_loop_spec; [done| |done|].
  - rewrite Forall_forall in *. pose proof (go_members g Hg) as Hms. rewrite Forall_forall in Hms.
    intros m Hm. split_and!; [by apply mo_wf with g, Hms|by apply Hb|by apply Hd].
  - assert (0 ≤ total_shares g); [|lia]. rewrite Hs. apply list_sum_nonneg.
    eapply Forall_impl; [exact Hb|]. simpl. lia.
Qed.

Lemma share_out_loop_members fund total ms ps ms' :
  share_out_loop fund total ms = (Ok ps, ms') → ms' = settled <$> ms.
Proof.
  revert ps ms'. induction ms as [|m ms IH]; intros ps ms'; simpl; [by intros [= <- <-]|].
  destruct (share_out_member fund total m) as [[pay m']|e] eqn:Em; [|done].
  destruct (share_out_loop fund total ms) as [[ps'|] ms2] eqn:El; simpl; [|done].
  intros [= _ <-]. rewrite (IH ps' ms2) by done. f_equal.
  unfold share_out_member in Em. apply result_bind_Ok_inv in Em as (? & _ & Em).
  apply result_bind_Ok_inv in Em as (? & _ & Em). by simplify_eq.
Qed.

Lemma share_out_Ok fund g ps g' :
  share_out fund g = (Ok ps, g') →
  g' = close_round (with_members (settled <$> members g) g) ∧ round_complete g = true ∧ fund ≠ 0
  ∧ total_shares g ≠ 0 ∧ ∃ rules, policy g = Accumulate rules.
Proof.
  intros H. unfold share_out in H. group_inv.
  destruct (share_out_loop fund (total_shares g) (members g)) as [r ms] eqn:El. group_inv.
  apply share_out_loop_members in El as ->. bool_simpl. unfold Amount_is_zero in *. bool_simpl.
  split_and!; try done. unfold require_share_rules, share_rules in *. destruct (policy g); [done|by eauto].
Qed.

Lemma settled_ok g rules m :
  policy g = Accumulate rules → wf ShareRules_codec rules → member_ok g m →
  member_ok (close_round (with_members (settled <$> members g) g)) (settled m).
Proof.
  intros Hpol Hrw [Hw Hl Hcr Hp]. pose proof (ShareRules_ranges _ Hrw). unfold settled. split; try done.
  - member_wf; case_bool_decide; unfold saturating_add, u64_max in *; lia.
  - cbn [close_round with_members policy]. rewrite Hpol. split; member_fields; [lia| |done].
    intros _. cbn [close_round cycle round_start_cycle with_members]. lia.
Qed.

Lemma share_out_ok fund g ps g' : group_ok g → share_out fund g = (Ok ps, g') → group_ok g'.
Proof.
  intros Hg (-> & Hr & _ & _ & rules & Hpol)%share_out_Ok. destruct (group_clock g Hg) as [Hc1 Hc2].
  destruct (group_rules g rules Hg) as (_ & Hrw & Hrg & _); [by unfold share_rules; rewrite Hpol|].
  assert (addresses (close_round (with_members (settled <$> members g) g)) = addresses g) as Had.
  { unfold addresses. simpl. rewrite <- list_fmap_compose. by apply list_fmap_ext. }
  destruct Hg as [Hn Hsz Hnd Ht Hq Hc Hk Hf Hm [Hpw Hp]].
  split; rewrite ?Had;
    cbn [close_round with_members g_name members quorum contribution cycle cycle_started g_round
         round_start_cycle social_fund policy pending]; try done.
  - by rewrite length_fmap.
  - rewrite <- Ht. clear. induction (members g) as [|m l IH]; [done|]. simpl.
    case_bool_decide; simpl; [f_equal|]; exact IH.
  - destruct Hk as (?&?&Hgr&?&?). apply wf_u64 in Hgr. split_and!; try done. apply u64_sat_add; lia.
  - apply Forall_fmap. eapply Forall_impl; [exact Hm|]. intros m Hmo. by eapply settled_ok.
  - split; [done|]. rewrite Hpol. by rewrite length_fmap.
Qed.

(** * The theorems *)

Lemma run_op_ok op g g' : op_wf op → group_ok g → run_op op g = (Ok tt, g') → group_ok g'.
Proof.
  intros Hop Hg H. destruct op as [a|a n|a|who k b|who|b| |a x|f|h]; cbn [run_op op_wf] in *.
  - by eapply record_contribution_ok.
  - group_inv. by eapply (buy_shares_ok a n); [|lia|].
  - group_inv. by eapply pay_social_ok.
  - by eapply open_proposal_ok.
  - group_inv. by eapply approve_ok.
  - group_inv. destruct Hop. by eapply issue_loan_ok.
  - group_inv. by eapply issue_grant_ok.
  - by eapply repay_ok.
  - group_inv. by eapply share_out_ok.
  - group_inv. by apply advance_cycle_ok.
Qed.

Lemma history_ok g g' : group_history g g' → group_ok g → group_ok g'.
Proof. induction 1; eauto using run_op_ok. Qed.

(** The record of a sound group is canonical on the wire. *)
Lemma group_ok_wf g : group_ok g → wf GroupAccount_codec g.
Proof.
  intros Hg. pose proof Hg as [[Hn Hnl] Hsz Hnd Ht [Hq _] [Hc _] (Hk1&Hk2&Hk3&Hk4&Hk5) Hf Hm [Hpw Hp]].
  unfold MAX_GROUP_MEMBERS in *. split.
  - repeat (split; [solve [done | split; [unfold MAX_FIELD_LEN; simpl; lia|]; eapply Forall_impl; [exact Hm|]; by intros ? []]|]).
    cbn. apply wf_option. intros p Hpe. destruct (policy g) as [|rules]; [naive_solver|].
    destruct Hp as [_ Hp]. destruct (Hp p Hpe) as [Hw Hwho Hs Hmem Ho _].
    assert (Z.of_nat (length (approvals p)) ≤ 100) as Hlen.
    { assert (approvals p ⊆+ addresses g) as Hsub.
      { apply NoDup_submseteq; [by eapply strictly_sorted_NoDup|]. intros a Ha.
        rewrite Forall_forall in Hmem. by apply Hmem. }
      apply submseteq_length in Hsub. unfold addresses in Hsub. rewrite length_fmap in Hsub. lia. }
    split.
    + refine (conj _ (conj Hw (conj _ _))); cbn [fst snd]; [by eapply member_address_ok| |by rewrite Ho].
      apply vec_address_wf; [|unfold MAX_FIELD_LEN; lia]. eapply Forall_impl; [exact Hmem|].
      intros a. by apply member_address_ok.
    + unfold Proposal_check. change bytes_ltb with (λ a b, bytes_ltb a b).
      rewrite (proj2 (is_sorted_by_spec (λ a : bytes, a) (approvals p))) by done. simpl.
      unfold MAX_GROUP_MEMBERS. destruct (Z.ltb_spec 100 (Z.of_nat (length (approvals p)))); [lia|done].
  - unfold GroupAccount_check, MAX_GROUP_MEMBERS.
    destruct (Z.ltb_spec 100 (Z.of_nat (length (members g)))); [lia|].
    destruct (Z.ltb_spec (cycle g) (round_start_cycle g)); [lia|done].
Qed.

(** Every group the chain can hold is sound.  Whatever sequence of contributions,
    share purchases, social payments, proposals, approvals, loans, grants,
    repayments, share-outs and cycle closes follows a valid creation, the group
    keeps one treasurer and distinct members within the cap; every loan on its
    books is unsettled, covered by the borrower's own savings, backed by the
    agreed number of other members and due before the round closes; every
    credit record has exactly one entry per closed cycle; a pending grant is
    covered by the social fund; and the record decodes back from its own
    encoding. *)
Theorem group_invariant name fs c pol q h g g' :
  charter_wf name fs c pol q h →
  GroupAccount_new name ((λ f, into_member f 0) <$> fs) c pol q h = Ok g →
  group_history g g' →
  group_ok g' ∧ decode_exact GroupAccount_codec (encode GroupAccount_codec g') = Ok g'.
Proof.
  intros Hw Hn Hh. apply GroupAccount_new_ok in Hn; [|done]. pose proof (history_ok _ _ Hh Hn) as Hg.
  split; [done|]. by apply decode_exact_encode, group_ok_wf; [apply _|].
Qed.

(** C22: The share-out of a complete round pays each member exactly the floor of
    their share of the fund less everything they owe, never more than the fund
    in all, clears every loan and share, and leaves the social fund alone. *)
Theorem share_out_exact g rules fund :
  group_ok g → policy g = Accumulate rules → cycle g < 2 ^ 54 → amount_ok fund →
  Forall (λ m, debt m ≤ u128_max) (members g) →
  round_complete g = true → fund ≠ 0 → total_shares g ≠ 0 →
  ∃ payments g', share_out fund g = (Ok payments, g')
    ∧ payments = payments_of fund (total_shares g) (members g)
    ∧ list_sum snd payments ≤ fund
    ∧ total_shares g = list_sum shares (members g)
    ∧ social_fund g' = social_fund g ∧ round_start_cycle g' = cycle g
    ∧ Forall (λ m, shares m = 0 ∧ mb_loan m = None ∧ fines_owed m = 0) (members g').
Proof.
  intros Hg Hpol Hc Hf Hd Hr Hfz Htz. do 2 eexists. split; [by eapply share_out_spec|].
  destruct (total_shares_exact g rules Hg Hpol Hc) as (Hs & _ & Hb). split_and!; try done.
  - eapply payments_le_fund; try done; [unfold amount_ok in Hf; lia|].
    assert (0 ≤ total_shares g); [|lia]. rewrite Hs. apply list_sum_nonneg.
    eapply Forall_impl; [exact Hb|]. simpl. lia.
  - apply Forall_fmap, Forall_true. done.
Qed.

(** ** The round always ends *)

Definition close_cycles (hs : list Height) (g : GroupAccount) : GroupAccount := fold_left (λ g h, advance_cycle h g) hs g.

(** What a member may still come to owe: each loan is fined at most once. *)
Definition exposure (m : Member) : Z :=
  debt m + match mb_loan m with
           | Some l => if fined l then 0 else principal l + service_charge l - repaid l
           | None => 0
           end.

Lemma close_member_exposure bps c m :
  wf Member_codec m → match bps with Some b => 0 ≤ b ≤ BPS_DENOMINATOR | None => True end →
  exposure (close_member bps c m) ≤ exposure m.
Proof.
  intros Hw Hb. destruct (close_member_fields bps c m) as (_&_&_&_&_&_&_&_&_&_&_&Hl&Hf).
  unfold exposure, debt. rewrite Hl, Hf.
  destruct (late_fine bps c m) as [[l x]|] eqn:E; [|done].
  apply late_fine_Some in E as (b & y & -> & Hl0 & Hfd & _ & Hy & Hx). rewrite Hl0, Hfd.
  pose proof (proj1 (Member_wf _) Hw) as (_&_&_&_&_&_&_&_&Hwl&_). rewrite wf_option in Hwl.
  pose proof (Hwl l Hl0) as Hlw. rewrite outstanding_Ok in Hy by done. injection Hy as <-.
  apply (proj1 (Loan_wf _)) in Hlw as [Hlw Hlc]. apply Loan_check_Ok in Hlc. rewrite !amount_ok_wf in Hlw.
  unfold amount_ok in Hlw. apply mul_bps_Ok in Hx as [_ Hx]; [|unfold amount_ok; lia|done].
  loan_fields. unfold saturating_add. lia.
Qed.

Lemma close_cycles_facts hs g rules :
  group_ok g → policy g = Accumulate rules → Forall (wf Height_codec) hs →
  cycle g + Z.of_nat (length hs) < u64_max →
  let g' := close_cycles hs g in
  group_ok g' ∧ policy g' = Accumulate rules ∧ cycle g' = cycle g + Z.of_nat (length hs)
  ∧ round_start_cycle g' = round_start_cycle g ∧ list_sum shares (members g') = list_sum shares (members g)
  ∧ (∀ b, Forall (λ m, exposure m ≤ b) (members g) → Forall (λ m, exposure m ≤ b) (members g')).
Proof.
  intros Hg Hpol Hhs. revert g Hg Hpol. induction Hhs as [|h hs Hh Hhs IH]; intros g Hg Hpol Hlt; simpl in *.
  { split_and!; try done. lia. }
  destruct (group_clock g Hg). destruct (group_rules g rules Hg) as (_ & Hrw & _);
    [by unfold share_rules; rewrite Hpol|]. pose proof (ShareRules_ranges _ Hrw).
  assert (cycle (advance_cycle h g) = cycle g + 1) as Hcy by (simpl; unfold saturating_add; lia).
  destruct (IH (advance_cycle h g)) as (Hi1 & Hi2 & Hi3 & Hi4 & Hi5 & Hi6).
  - by apply advance_cycle_ok.
  - simpl. by rewrite Hpol.
  - rewrite Hcy. lia.
  - split_and!; try done; [lia| |].
    + rewrite Hi5. cbn [advance_cycle members]. clear. induction (members g) as [|m l IH]; [done|]. simpl.
      destruct (close_member_fields (late_fine_bps <$> share_rules g) (cycle g) m) as (_&_&_&_&_&_&->&_).
      f_equal. exact IH.
    + intros b Hb. apply Hi6. apply Forall_fmap. rewrite Forall_forall in *. intros m Hm. specialize (Hb m Hm).
      pose proof (go_members g Hg) as Hms. rewrite Forall_forall in Hms.
      unfold compose. etrans; [apply close_member_exposure|done]; [by apply mo_wf with g, Hms|].
      unfold share_rules. rewrite Hpol. simpl. lia.
Qed.

Lemma debt_le_exposure m : wf Member_codec m → debt m ≤ exposure m.
Proof.
  intros Hw. unfold exposure. pose proof (proj1 (Member_wf _) Hw) as (_&_&_&_&_&_&_&_&Hl&_). rewrite wf_option in Hl.
  destruct (mb_loan m) as [l|]; [|lia]. pose proof (proj1 (Loan_wf _) (Hl l eq_refl)) as [_ Hc].
  apply Loan_check_Ok in Hc. destruct (fined l); lia.
Qed.

(** Savings are never locked in.  In an accumulating group where somebody has
    bought a share, once as many cycles close as the round has left, whether
    members pay or default, the share-out of any fund succeeds. *)
Theorem share_out_live g rules hs fund :
  group_ok g → policy g = Accumulate rules → Forall (wf Height_codec) hs →
  cycles_per_round rules ≤ cycles_this_round g + Z.of_nat (length hs) →
  cycle g + Z.of_nat (length hs) < 2 ^ 54 →
  0 < list_sum shares (members g) → Forall (λ m, exposure m ≤ u128_max) (members g) →
  amount_ok fund → fund ≠ 0 →
  ∃ payments g', share_out fund (close_cycles hs g) = (Ok payments, g') ∧ list_sum snd payments ≤ fund.
Proof.
  intros Hg Hpol Hhs Hr Hc Hsh Hex Hf Hfz.
  destruct (close_cycles_facts hs g rules) as (Hg' & Hpol' & Hc' & Hrs & Hs' & He'); try done;
    [unfold u64_max; lia|]. specialize (He' _ Hex).
  destruct (total_shares_exact _ _ Hg' Hpol' ltac:(lia)) as (Ht & _ & _).
  destruct (group_clock g Hg).
  do 2 eexists. split; [eapply share_out_spec; try done|]; try lia.
  - rewrite Forall_forall in *. intros m Hm. pose proof (go_members _ Hg') as Hms. rewrite Forall_forall in Hms.
    etrans; [apply debt_le_exposure, mo_wf with (close_cycles hs g), Hms|]; auto.
  - unfold round_complete, share_rules. rewrite Hpol'. apply Z.leb_le.
    unfold cycles_this_round, saturating_sub in *. lia.
  - unfold amount_ok in Hf. eapply payments_le_fund; try done; lia.
Qed.

(** ** The rotation *)

(** Who is paid over the next cycles. *)
Fixpoint recipients (hs : list Height) (g : GroupAccount) : list (option Address) :=
  match hs with [] => [] | h :: hs => next_recipient g :: recipients hs (advance_cycle h g) end.

Lemma rotate_next order next :
  0 ≤ next < Z.of_nat (length order) → Z.of_nat (length order) ≤ 100 →
  rotate (Rotation order next) = Rotation order ((next + 1) mod Z.of_nat (length order)).
Proof.
  intros Hn Hl. unfold rotate, saturating_add, u32_max.
  destruct (Z.leb_spec (Z.of_nat (length order)) (2 ^ 32 - 1)); [|lia].
  rewrite Z.min_r, Z.max_l by lia. done.
Qed.

Lemma recipients_lookup hs g order next :
  policy g = Rotation order next → 0 ≤ next < Z.of_nat (length order) → Z.of_nat (length order) ≤ 100 →
  recipients hs g = (λ i, order !! Z.to_nat ((next + Z.of_nat i) mod Z.of_nat (length order))) <$> seq 0 (length hs).
Proof.
  intros Hpol Hn Hl. revert g next Hpol Hn. induction hs as [|h hs IH]; intros g next Hpol Hn; [done|].
  cbn [recipients length seq fmap list_fmap]. f_equal.
  - unfold next_recipient. rewrite Hpol, Z.add_0_r, Z.mod_small by done. done.
  - rewrite (IH (advance_cycle h g) ((next + 1) mod Z.of_nat (length order))).
    + rewrite <- fmap_S_seq, <- list_fmap_compose. apply list_fmap_ext. intros ? i _. unfold compose.
      rewrite Zplus_mod_idemp_l. do 3 f_equal. lia.
    + simpl. rewrite Hpol. by apply rotate_next.
    + apply Z.mod_pos_bound. lia.
Qed.

(** A full turn from any starting point visits every position once. *)
Lemma full_turn n next :
  0 < n → 0 ≤ next < n → (λ i, Z.to_nat ((next + Z.of_nat i) mod n)) <$> seq 0 (Z.to_nat n) ≡ₚ seq 0 (Z.to_nat n).
Proof.
  intros Hn Hx. apply NoDup_Permutation.
  - apply NoDup_fmap_2_strong; [|apply NoDup_seq]. intros i j Hi Hj E. apply elem_of_seq in Hi, Hj.
    apply Z2Nat.inj in E; [|apply Z.mod_pos_bound; lia..].
    assert (∀ k, 0 ≤ k < n → (next + k) mod n = if next + k <? n then next + k else next + k - n) as Hm.
    { intros k Hk. destruct (Z.ltb_spec (next + k) n); [apply Z.mod_small; lia|].
      rewrite <- (Z_mod_plus_full _ (-1)), Z.mod_small; lia. }
    rewrite !Hm in E by lia.
    destruct (Z.ltb_spec (next + Z.of_nat i) n), (Z.ltb_spec (next + Z.of_nat j) n); lia.
  - apply NoDup_seq.
  - intros k. rewrite list_elem_of_fmap, elem_of_seq. split.
    + intros (i & -> & Hi%elem_of_seq). pose proof (Z.mod_pos_bound (next + Z.of_nat i) n). lia.
    + intros Hk. exists (Z.to_nat ((Z.of_nat k - next) mod n)).
      pose proof (Z.mod_pos_bound (Z.of_nat k - next) n ltac:(lia)). rewrite elem_of_seq. split; [|lia].
      rewrite Z2Nat.id, Zplus_mod_idemp_r by lia.
      replace (next + (Z.of_nat k - next)) with (Z.of_nat k) by lia. rewrite Z.mod_small by lia. lia.
Qed.

Lemma fmap_lookup_seq {A} (l : list A) : (λ i, l !! i) <$> seq 0 (length l) = Some <$> l.
Proof.
  apply list_eq. intros i. rewrite !list_lookup_fmap.
  destruct (decide (i < length l)%nat) as [Hi|Hi].
  - rewrite lookup_seq_lt by done. simpl. destruct (lookup_lt_is_Some_2 l i Hi) as [x Hx]. by rewrite Hx.
  - rewrite lookup_seq_ge by lia. by rewrite lookup_ge_None_2 by lia.
Qed.

(** A rotation is fair: over any run of as many cycles as there are members,
    whichever member is next and whenever the cycles close, the pot is paid to
    every member exactly once. *)
Theorem rotation_pays_everyone_once g order next hs :
  group_ok g → policy g = Rotation order next → length hs = length (members g) →
  recipients hs g ≡ₚ Some <$> addresses g.
Proof.
  intros Hg Hpol Hhs. destruct (go_policy g Hg) as [Hpw Hp]. pose proof (go_size g Hg) as Hsz.
  rewrite Hpol in *. destruct Hp as (Hperm & Hnext & _). destruct Hpw as [_ Hn]. cbn in Hn. apply wf_u32 in Hn.
  assert (length order = length (members g)) as Hlen.
  { rewrite (Permutation_length Hperm). unfold addresses. by rewrite length_fmap. }
  unfold MAX_GROUP_MEMBERS in *.
  rewrite (recipients_lookup hs g order next), <- Hperm, <- fmap_lookup_seq by (done || lia).
  rewrite Hhs, <- Hlen. change (λ i : nat, order !! Z.to_nat ((next + Z.of_nat i) mod Z.of_nat (length order)))
    with ((λ i, order !! i) ∘ (λ i : nat, Z.to_nat ((next + Z.of_nat i) mod Z.of_nat (length order)))).
  rewrite list_fmap_compose. apply fmap_Permutation.
  pose proof (full_turn (Z.of_nat (length order)) next ltac:(lia) ltac:(lia)) as Hft. by rewrite Nat2Z.id in Hft.
Qed.

(** ** Decisions by quorum *)

Lemma div_ceil_le a b k : 0 < b → div_ceil a b ≤ k ↔ a ≤ k * b.
Proof.
  intros Hb. unfold div_ceil. pose proof (Z.div_mod a b ltac:(lia)). pose proof (Z.mod_pos_bound a b Hb).
  destruct (Z.eqb_spec (a mod b) 0); split; nia.
Qed.

(** [required_of] is the least number of approvals that reaches the agreed share. *)
Lemma required_of_le q total k :
  wf Quorum_codec q → Quorum_validate q = Ok q → 0 ≤ total ≤ u64_max → k ≤ total →
  required_of q total ≤ k ↔ q_numerator q * total ≤ k * q_denominator q.
Proof.
  intros [Hn Hd] (_ & Hv1 & Hv2 & Hv3)%Quorum_validate_Ok Ht Hk. cbn in Hn, Hd. apply wf_u32 in Hn, Hd.
  unfold u32_max, u64_max in *. unfold required_of. destruct (Z.eqb_spec (q_denominator q) 0); [lia|].
  assert (saturating_mul u128_max total (q_numerator q) = total * q_numerator q) as ->.
  { unfold saturating_mul, u128_max. apply Z.min_r. nia. }
  assert (div_ceil (total * q_numerator q) (q_denominator q) ≤ total) as Hle by (apply div_ceil_le; nia).
  unfold u64_max. destruct (Z.leb_spec (div_ceil (total * q_numerator q) (q_denominator q)) (2 ^ 64 - 1)); [|lia].
  rewrite Z.min_l by lia. rewrite div_ceil_le by lia. nia.
Qed.

(** Money leaves the group's fund only on a decision of the agreed share of the
    members: an approval adds one member who had not approved before, and it
    reports the question decided exactly when the distinct members who have
    approved make up at least [numerator/denominator] of the membership. *)
Theorem approve_quorum g who b g' :
  group_ok g → approve who g = (Ok b, g') →
  ∃ p p', pending g = Some p ∧ pending g' = Some p' ∧ gp_kind p' = gp_kind p ∧ beneficiary p' = beneficiary p
    ∧ who ∉ approvals p ∧ approvals p' ≡ₚ who :: approvals p
    ∧ NoDup (approvals p') ∧ (∀ a, a ∈ approvals p' → a ∈ addresses g)
    ∧ (b = true ↔ q_numerator (quorum g) * Z.of_nat (length (members g))
                  ≤ Z.of_nat (length (approvals p')) * q_denominator (quorum g)).
Proof.
  intros Hg H. pose proof (approve_ok _ _ _ _ Hg H) as Hg'. unfold approve in H. group_inv.
  match goal with H : pending g = Some ?p |- _ => rename p into p0; rename H into Hp end.
  match goal with H : proposal_approve p0 who = Ok ?p |- _ => rename p into p1; rename H into Hap end.
  destruct (go_policy g Hg) as [_ Hpol]. destruct (policy g) as [|rules] eqn:Epol; [naive_solver|].
  destruct Hpol as [_ Hpo]. specialize (Hpo p0 Hp) as [Hw Hwho Hs Hm Hc Hk].
  apply proposal_approve_Ok in Hap as (Hnin & Hb & Hkd & Ho & Hperm & Hs'); [|done].
  destruct (go_policy _ Hg') as [_ Hpol']. simpl in Hpol'. rewrite Epol in Hpol'.
  destruct Hpol' as [_ Hpo']. destruct (Hpo' p1 eq_refl) as [_ _ _ Hm' _ _].
  assert (NoDup (approvals p1)) as Hnd by (by eapply strictly_sorted_NoDup).
  assert (∀ a, a ∈ approvals p1 → a ∈ addresses g) as Hsub by (rewrite Forall_forall in Hm'; exact Hm').
  exists p0, p1. split_and!; try done.
  rewrite Z.leb_le. pose proof (go_size g Hg). unfold MAX_GROUP_MEMBERS in *.
  destruct (go_quorum g Hg). apply required_of_le; [done..|unfold u64_max; lia|].
  assert (approvals p1 ⊆+ addresses g) as Hle%submseteq_length by (by apply NoDup_submseteq).
  unfold addresses in Hle. rewrite length_fmap in Hle. lia.
Qed.

(** The credit signal is exact.  For a member of any group in its history, the
    on-time rate in basis points is the floor of contributions made over cycles
    due, where the cycles due are all those closed and, once it is paid, the
    open one; it never exceeds 100%, and is withheld only before any cycle is due. *)
Theorem reliability_exact g m :
  group_ok g → m ∈ members g → cycle g < 2 ^ 50 →
  let due := cycle g + (if has_paid m (cycle g) then 1 else 0) in
  contributions_made m ≤ due ∧
  reliability_bps m = if due =? 0 then None else Some (contributions_made m * 10000 / due).
Proof.
  intros Hg Hin Hc due. pose proof (go_members g Hg) as Hms. rewrite Forall_forall in Hms.
  destruct (Hms m Hin) as [Hw _ Hcr _]. specialize (Hcr ltac:(unfold u64_max; lia)). fold due in Hcr.
  pose proof (proj1 (Member_wf _) Hw) as Hr. rewrite !wf_u64 in Hr. destruct_and?.
  assert (0 ≤ due ≤ 2 ^ 50) by (unfold due; destruct (group_clock g Hg), (has_paid m (cycle g)); lia).
  split; [lia|]. unfold reliability_bps, contributions_due, rate_bps, saturating_add, saturating_mul.
  rewrite Z.min_r by (unfold u64_max; lia). rewrite Hcr.
  destruct (Z.eqb_spec due 0); [done|]. rewrite Z.min_r by (unfold u64_max; lia).
  assert (contributions_made m * 10000 / due ≤ 10000) by (apply Z.div_le_upper_bound; nia).
  unfold u32_max. destruct (Z.leb_spec (contributions_made m * 10000 / due) (2 ^ 32 - 1)); [done|lia].
Qed.

(** A repayment is credited exactly: it is refused beyond the debt, lowers what
    the member owes by exactly what was paid, closes the loan in the payment
    that settles it and counts it as repaid, and touches nobody else. *)
Theorem repay_exact g a x g' :
  group_ok g → amount_ok x → repay a x g = (Ok tt, g') →
  ∃ i m m' l, members g !! i = Some m ∧ mb_address m = a ∧ mb_loan m = Some l
    ∧ 0 < x ≤ principal l + service_charge l - repaid l
    ∧ members g' = <[i := m']> (members g) ∧ debt m' = debt m - x
    ∧ (mb_loan m' = None ↔ x = principal l + service_charge l - repaid l)
    ∧ loans_repaid m' = (if decide (mb_loan m' = None) then saturating_add u64_max (loans_repaid m) 1
                         else loans_repaid m).
Proof.
  intros Hg Hx (i & m & l & Hi & Ha & Hl & Hlw & Hb & ->)%repay_Ok; [|done..].
  exists i, m, (repaid_member m l x), l. split_and!; try done; try lia;
    unfold repaid_member, debt; rewrite ?Hl;
    destruct (Z.eqb_spec (repaid l + x) (principal l + service_charge l)); member_fields; loan_fields;
    first [lia | done | split; intros; (done || lia) | by rewrite decide_True | by rewrite decide_False].
Qed.
