(* ===== verification/Account.v ===== *)
(** Account records ([crates/types/src/account.rs]) and payment references
    ([crates/pay/src/reference.rs]): account flags, signer lists, who may sign
    for an account, and the record's wire format.

    A flag word is its 32 bits, written as a [Z] with [!x] as the complement on
    that width. *)

From S2P Require Import Prelude SortedVec Sorting Codec Primitives Crypto Group GroupProofs.

(** * Payment references *)

Abbreviation PaymentReference := Z (only parsing).

Definition u64_to_string (x : Z) : bytes := dec_digits 20 x [].
Definition PaymentReference_to_decimal (r : PaymentReference) : bytes := u64_to_string r.

(** [str::parse::<u64>] on a string of digits. *)
Definition parse_u64 (s : bytes) : option Z :=
  x ← parse_u128 s; if x <=? u64_max then Some x else None.

Definition PaymentReference_parse (s : bytes) : option PaymentReference :=
  if bool_decide (s = []) || negb (forallb is_ascii_digit s) then None else parse_u64 s.

Inductive RequiresReference := RefNo | RefYes.

Definition accepts (r : RequiresReference) (reference : option PaymentReference) : bool :=
  match r with RefNo => true | RefYes => bool_decide (is_Some reference) end.

Definition PaymentReference_codec : codec PaymentReference := u64_codec.
#[export] Instance PaymentReference_lawful : Lawful PaymentReference_codec := u64_lawful.
Arguments PaymentReference_codec : simpl never.

(** * Flags *)

Inductive AccountFlag := RequireReference | MasterKeyDisabled.

#[export] Instance AccountFlag_eq_dec : EqDecision AccountFlag.
Proof. solve_decision. Defined.

Definition AccountFlag_ALL : list AccountFlag := [RequireReference; MasterKeyDisabled].

Definition AccountFlag_bit (f : AccountFlag) : Z :=
  match f with RequireReference => Z.shiftl 1 0 | MasterKeyDisabled => Z.shiftl 1 1 end.

Definition AccountFlag_from_bit (bit : Z) : option AccountFlag :=
  List.find (λ f, AccountFlag_bit f =? bit) AccountFlag_ALL.

Abbreviation AccountFlags := Z (only parsing).

(** [!x] on [u32]. *)
Definition not_u32 (x : Z) : Z := Z.lxor x u32_max.

Definition AccountFlags_KNOWN : Z :=
  Z.lor (AccountFlag_bit RequireReference) (AccountFlag_bit MasterKeyDisabled).
Definition AccountFlags_NONE : AccountFlags := 0.

Definition is_set (fs : AccountFlags) (f : AccountFlag) : bool := negb (Z.land fs (AccountFlag_bit f) =? 0).

Definition flags_with (fs : AccountFlags) (f : AccountFlag) (enabled : bool) : AccountFlags :=
  if enabled then Z.lor fs (AccountFlag_bit f) else Z.land fs (not_u32 (AccountFlag_bit f)).

Definition AccountFlags_from_bits (bits : Z) : option AccountFlags :=
  if Z.land bits (not_u32 AccountFlags_KNOWN) =? 0 then Some bits else None.

Definition flags_requires_reference (fs : AccountFlags) : RequiresReference :=
  if is_set fs RequireReference then RefYes else RefNo.

(** * Signer lists *)

Definition MAX_SIGNERS : Z := 32.

Inductive AuthorityError :=
| NoSigners
| TooManySigners (n : Z)
| UnsortedOrRepeatedSigners
| ZeroWeight
| ZeroQuorum
| UnreachableQuorum (quorum total : Z).

Record ListSigner := { s_key : PublicKey; weight : Z }.
Record SignerList := { sl_signers : list ListSigner; sl_quorum : Z }.

#[export] Instance ListSigner_eq_dec : EqDecision ListSigner.
Proof. solve_decision. Defined.
#[export] Instance SignerList_eq_dec : EqDecision SignerList.
Proof. solve_decision. Defined.

(** [windows(2).all(..)] over neighbouring keys. *)
Definition keys_sorted (l : list ListSigner) : bool := is_sorted_by (λ x y, bytes_ltb (s_key x) (s_key y)) l.

(** The [u64] sum of at most 32 weights of 32 bits cannot wrap. *)
Definition SignerList_from_sorted (l : list ListSigner) (q : Z) : result AuthorityError SignerList :=
  if bool_decide (l = []) then Err NoSigners
  else if MAX_SIGNERS <? Z.of_nat (length l) then Err (TooManySigners (Z.of_nat (length l)))
  else if negb (keys_sorted l) then Err UnsortedOrRepeatedSigners
  else if existsb (λ s, weight s =? 0) l then Err ZeroWeight
  else if q =? 0 then Err ZeroQuorum
  else
    let total := list_sum weight l in
    if total <? q then Err (UnreachableQuorum q total) else Ok {| sl_signers := l; sl_quorum := q |}.

Definition SignerList_new (l : list ListSigner) (q : Z) : result AuthorityError SignerList :=
  SignerList_from_sorted (sort_by_key s_key l) q.

Definition weight_of (sl : SignerList) (key : PublicKey) : option Z :=
  weight ∘ snd <$> list_find (λ s, s_key s = key) (sl_signers sl).

Fixpoint gather (sl : SignerList) (gathered : Z) (keys : list PublicKey) : bool :=
  match keys with
  | [] => sl_quorum sl <=? gathered
  | key :: keys =>
      match weight_of sl key with
      | Some w => gather sl (saturating_add u64_max gathered w) keys
      | None => false
      end
  end.
Definition satisfied_by (sl : SignerList) (keys : list PublicKey) : bool := gather sl 0 keys.

(** * Accounts *)

Inductive AccountKind :=
| Individual (public_key : option PublicKey)
| GroupKind (g : GroupAccount)
| ModuleKind (name : bytes).

Record TxPointer := { tp_tx_id : Hash32; tp_height : Height }.

Record Account := {
  a_address : Address;
  nonce : Z;
  a_kind : AccountKind;
  last_txn : option TxPointer;
  flags : AccountFlags;
  regular_key : option PublicKey;
  a_signers : option SignerList;
}.

#[export] Instance AccountKind_eq_dec : EqDecision AccountKind.
Proof. solve_decision. Defined.
#[export] Instance TxPointer_eq_dec : EqDecision TxPointer.
Proof. solve_decision. Defined.
#[export] Instance Account_eq_dec : EqDecision Account.
Proof. solve_decision. Defined.

Definition Account_of_kind (address : Address) (k : AccountKind) : Account :=
  {| a_address := address; nonce := 0; a_kind := k; last_txn := None; flags := AccountFlags_NONE;
     regular_key := None; a_signers := None |}.
Definition Account_individual (address : Address) : Account := Account_of_kind address (Individual None).
Definition Account_group (address : Address) (g : GroupAccount) : Account := Account_of_kind address (GroupKind g).
Definition Account_module (address : Address) (name : bytes) : Account := Account_of_kind address (ModuleKind name).

Definition with_kind (k : AccountKind) (a : Account) : Account :=
  {| a_address := a_address a; nonce := nonce a; a_kind := k; last_txn := last_txn a; flags := flags a;
     regular_key := regular_key a; a_signers := a_signers a |}.
Definition with_last_txn (p : option TxPointer) (a : Account) : Account :=
  {| a_address := a_address a; nonce := nonce a; a_kind := a_kind a; last_txn := p; flags := flags a;
     regular_key := regular_key a; a_signers := a_signers a |}.
Definition with_flags (fs : AccountFlags) (a : Account) : Account :=
  {| a_address := a_address a; nonce := nonce a; a_kind := a_kind a; last_txn := last_txn a; flags := fs;
     regular_key := regular_key a; a_signers := a_signers a |}.
Definition with_regular_key (k : option PublicKey) (a : Account) : Account :=
  {| a_address := a_address a; nonce := nonce a; a_kind := a_kind a; last_txn := last_txn a; flags := flags a;
     regular_key := k; a_signers := a_signers a |}.
Definition with_signers (l : option SignerList) (a : Account) : Account :=
  {| a_address := a_address a; nonce := nonce a; a_kind := a_kind a; last_txn := last_txn a; flags := flags a;
     regular_key := regular_key a; a_signers := l |}.

Definition as_group (a : Account) : option GroupAccount :=
  match a_kind a with GroupKind g => Some g | _ => None end.
Definition can_sign (a : Account) : bool := match a_kind a with ModuleKind _ => false | _ => true end.

Definition increment_nonce (a : Account) : Account :=
  {| a_address := a_address a; nonce := saturating_add u64_max (nonce a) 1; a_kind := a_kind a;
     last_txn := last_txn a; flags := flags a; regular_key := regular_key a; a_signers := a_signers a |}.

Definition requires_reference (a : Account) : RequiresReference := flags_requires_reference (flags a).

Definition has_a_usable_authority (a : Account) : bool :=
  negb (is_set (flags a) MasterKeyDisabled) || bool_decide (is_Some (regular_key a))
  || bool_decide (is_Some (a_signers a)).

Section signing.
Context `{Hasher, Signer}.

Definition Account_with_key (pk : PublicKey) : Account :=
  Account_of_kind (Address_from_public_key pk) (Individual (Some pk)).

Definition master_key_may_sign (a : Account) (key : PublicKey) : bool :=
  negb (is_set (flags a) MasterKeyDisabled) && bool_decide (Address_from_public_key key = a_address a).

Definition authorises (a : Account) (keys : list PublicKey) : bool :=
  if negb (can_sign a) then false
  else
    if match keys with
       | [only] => master_key_may_sign a only || bool_decide (regular_key a = Some only)
       | _ => false
       end
    then true
    else match a_signers a with
         | Some l => negb (bool_decide (keys = [])) && satisfied_by l keys
         | None => false
         end.

(** * Wire format *)

Definition AccountFlag_codec : codec AccountFlag := {|
  encode := λ f, encode u32_codec (AccountFlag_bit f);
  decode := λ r,
    '(bit, r) ← decode u32_codec r;
    f ← ok_or (CodecInvalid "no account flag is defined for bit") (AccountFlag_from_bit bit);
    Ok (f, r);
  wf := λ _, True;
|}.

Definition AccountFlags_check (bits : Z) : result CodecError unit :=
  match AccountFlags_from_bits bits with
  | Some _ => Ok tt
  | None => Err (CodecInvalid "account flags carry unknown bits")
  end.
Definition AccountFlags_codec : codec AccountFlags := guard_codec AccountFlags_check u32_codec.

Definition ListSigner_codec : codec ListSigner :=
  iso_codec (λ '(k, w), {| s_key := k; weight := w |}) (λ s, (s_key s, weight s)) (PublicKey_codec ⊗ u32_codec).

(** The text of an [AuthorityError] is diagnostic only. *)
Definition SignerList_check (sl : SignerList) : result CodecError unit :=
  match SignerList_from_sorted (sl_signers sl) (sl_quorum sl) with
  | Ok _ => Ok tt
  | Err _ => Err (CodecInvalid "signer list")
  end.
Definition SignerList_codec : codec SignerList :=
  guard_codec SignerList_check
    (iso_codec (λ '(l, q), {| sl_signers := l; sl_quorum := q |}) (λ s, (sl_signers s, sl_quorum s))
       (vec_codec ListSigner_codec ⊗ u32_codec)).

Definition AccountKind_codec : codec AccountKind :=
  tag_codec "AccountKind" (λ k, match k with Individual _ => 0 | GroupKind _ => 1 | ModuleKind _ => 2 end)
    (λ t, match t with
          | 0 => Some (variant_codec Individual (λ k, match k with Individual p => Some p | _ => None end)
                         (option_codec PublicKey_codec))
          | 1 => Some (variant_codec GroupKind (λ k, match k with GroupKind g => Some g | _ => None end)
                         GroupAccount_codec)
          | 2 => Some (variant_codec ModuleKind (λ k, match k with ModuleKind n => Some n | _ => None end)
                         string_codec)
          | _ => None
          end).

Definition TxPointer_codec : codec TxPointer :=
  iso_codec (λ '(t, h), {| tp_tx_id := t; tp_height := h |}) (λ p, (tp_tx_id p, tp_height p))
    (Hash32_codec ⊗ Height_codec).

Definition Account_check (a : Account) : result CodecError unit :=
  if negb (has_a_usable_authority a) then Err (CodecInvalid "account record has no key that could sign for it")
  else Ok tt.

Definition Account_codec : codec Account :=
  guard_codec Account_check
    (iso_codec
       (λ '(a, (n, (k, (l, (f, (r, s)))))),
          {| a_address := a; nonce := n; a_kind := k; last_txn := l; flags := f; regular_key := r; a_signers := s |})
       (λ a, (a_address a, (nonce a, (a_kind a, (last_txn a, (flags a, (regular_key a, a_signers a)))))))
       (Address_codec ⊗ u64_codec ⊗ AccountKind_codec ⊗ option_codec TxPointer_codec ⊗ AccountFlags_codec
        ⊗ option_codec PublicKey_codec ⊗ option_codec SignerList_codec)).

#[export] Instance AccountFlag_lawful : Lawful AccountFlag_codec.
Proof.
  split; unfold AccountFlag_codec; cbn [encode decode wf].
  - intros [] rest _; rewrite decode_encode by done; done.
  - intros b f rest Hd. codec_sound.
    match goal with H : ok_or _ (AccountFlag_from_bit ?bit) ≫= _ = _ |- _ =>
      destruct (AccountFlag_from_bit bit) as [f'|] eqn:E; [|done]; simpl in H; simplify_eq;
      apply find_some in E as [_ E%Z.eqb_eq]; by rewrite E end.
Qed.
#[export] Instance AccountFlags_lawful : Lawful AccountFlags_codec.
Proof. apply guard_lawful, _. Qed.
#[export] Instance ListSigner_lawful : Lawful ListSigner_codec.
Proof. unfold ListSigner_codec. struct_lawful. Qed.
#[export] Instance SignerList_lawful : Lawful SignerList_codec.
Proof. apply guard_lawful. struct_lawful. Qed.
#[export] Instance AccountKind_lawful : Lawful AccountKind_codec.
Proof. apply tag_lawful; [intros []; lia|tag_cases]. Qed.
#[export] Instance TxPointer_lawful : Lawful TxPointer_codec.
Proof. unfold TxPointer_codec. struct_lawful. Qed.
#[export] Instance Account_lawful : Lawful Account_codec.
Proof. apply guard_lawful. struct_lawful. Qed.
End signing.

Arguments AccountFlag_codec : simpl never.
Arguments AccountFlags_codec : simpl never.
Arguments ListSigner_codec {_} : simpl never.
Arguments SignerList_codec {_} : simpl never.
Arguments AccountKind_codec {_} : simpl never.
Arguments TxPointer_codec : simpl never.
Arguments Account_codec {_} : simpl never.

(** * Flags *)

Lemma flags_known fs : wf AccountFlags_codec fs → fs ∈ [0; 1; 2; 3].
Proof.
  intros [Hr Hc]. unfold AccountFlags_check, AccountFlags_from_bits in Hc. apply wf_u32 in Hr.
  destruct (Z.land fs (not_u32 AccountFlags_KNOWN) =? 0) eqn:E; [|done]. bool_simpl.
  assert (fs = Z.land fs 3) as Hf.
  { apply Z.bits_inj'. intros n Hn. rewrite Z.land_spec.
    assert (Z.testbit (Z.land fs (not_u32 AccountFlags_KNOWN)) n = false) as Hb by (rewrite E; apply Z.bits_0).
    rewrite Z.land_spec in Hb. change (not_u32 AccountFlags_KNOWN) with (Z.lxor 3 (Z.ones 32)) in Hb.
    rewrite Z.lxor_spec, Z.testbit_ones in Hb by lia.
    destruct (Z.ltb_spec n 32).
    - destruct (Z.leb_spec 0 n); [|lia]. destruct (Z.testbit fs n), (Z.testbit 3 n); done.
    - rewrite (Z.bits_above_log2 fs n); [done|lia|]. destruct (Z.eq_dec fs 0) as [->|]; [simpl; lia|].
      apply Z.log2_lt_pow2; [lia|]. unfold u32_max in Hr.
      assert (2 ^ 32 ≤ 2 ^ n) by (apply Z.pow_le_mono_r; lia). lia. }
  assert (0 ≤ Z.land fs 3 < 4).
  { change 3 with (Z.ones 2). rewrite Z.land_ones by lia. apply Z.mod_pos_bound. lia. }
  rewrite !elem_of_cons. lia.
Qed.

Lemma flags_wf fs : fs ∈ [0; 1; 2; 3] → wf AccountFlags_codec fs.
Proof.
  intros Hin. repeat (apply elem_of_cons in Hin as [->|Hin]; [split; [apply wf_u32; unfold u32_max; lia|done]|]).
  by apply elem_of_nil in Hin.
Qed.

(** Setting a flag sets that flag and no other, and invents no bit. *)
Lemma flags_with_spec fs f e :
  wf AccountFlags_codec fs →
  wf AccountFlags_codec (flags_with fs f e)
  ∧ ∀ f', is_set (flags_with fs f e) f' = if decide (f' = f) then e else is_set fs f'.
Proof.
  intros Hin%flags_known. repeat (apply elem_of_cons in Hin as [->|Hin];
    [destruct f, e; (split; [apply flags_wf; vm_compute; by repeat (first [apply list_elem_of_here|apply list_elem_of_further])|by intros []])|]).
  by apply elem_of_nil in Hin.
Qed.

(** * Signer lists *)

Definition signer_keys (sl : SignerList) : list PublicKey := s_key <$> sl_signers sl.

Lemma SignerList_from_sorted_Ok l q sl :
  SignerList_from_sorted l q = Ok sl ↔
  sl = {| sl_signers := l; sl_quorum := q |} ∧ l ≠ [] ∧ Z.of_nat (length l) ≤ MAX_SIGNERS
  ∧ StronglySorted (key_lt s_key) l ∧ Forall (λ s, weight s ≠ 0) l ∧ q ≠ 0 ∧ q ≤ list_sum weight l.
Proof.
  unfold SignerList_from_sorted, keys_sorted. rewrite <- (is_sorted_by_spec s_key).
  assert (existsb (λ s, weight s =? 0) l = false ↔ Forall (λ s, weight s ≠ 0) l) as Hz.
  { induction l as [|s l IH]; simpl; [by split|]. rewrite orb_false_iff, Z.eqb_neq, Forall_cons, IH. done. }
  rewrite <- Hz. case_bool_decide; [naive_solver|].
  destruct (Z.ltb_spec MAX_SIGNERS (Z.of_nat (length l))); [split; [done|lia]|].
  destruct (is_sorted_by _ l); simpl; [|naive_solver].
  destruct (existsb _ l); [naive_solver|].
  destruct (Z.eqb_spec q 0); [naive_solver|].
  destruct (Z.ltb_spec (list_sum weight l) q); [split; [done|lia]|]. naive_solver.
Qed.

Record signer_list_ok (sl : SignerList) : Prop := {
  sl_sorted : StronglySorted (key_lt s_key) (sl_signers sl);
  sl_nonempty : sl_signers sl ≠ [];
  sl_weights : Forall (λ s, 0 < weight s ≤ u32_max) (sl_signers sl);
  sl_len : Z.of_nat (length (sl_signers sl)) ≤ MAX_SIGNERS;
  sl_reachable : 0 < sl_quorum sl ≤ list_sum weight (sl_signers sl);
}.

Lemma SignerList_wf_ok `{Signer} sl : wf SignerList_codec sl → signer_list_ok sl.
Proof.
  intros [[Hl Hq] Hc]. cbn in Hl, Hq. apply wf_u32 in Hq. unfold SignerList_check in Hc.
  destruct (SignerList_from_sorted (sl_signers sl) (sl_quorum sl)) eqn:E; [|done].
  apply SignerList_from_sorted_Ok in E as (_ & Hne & Hlen & Hs & Hw & Hq0 & Hle).
  destruct Hl as [_ Hl]. split; try done; [|lia].
  rewrite Forall_forall in *. intros s Hin. specialize (Hw s Hin). destruct (Hl s Hin) as [_ Hr].
  cbn in Hr. apply wf_u32 in Hr. lia.
Qed.

Lemma weight_of_Some sl s :
  StronglySorted (key_lt s_key) (sl_signers sl) → s ∈ sl_signers sl → weight_of sl (s_key s) = Some (weight s).
Proof.
  intros Hs Hin. unfold weight_of. destruct (list_find _ _) as [[i s']|] eqn:E; simpl.
  - apply list_find_Some in E as (Hi & Hk & _).
    assert (vec_get s_key (s_key s) (sl_signers sl) = Some s) as H1 by (by apply vec_get_Some).
    assert (vec_get s_key (s_key s) (sl_signers sl) = Some s') as H2.
    { apply vec_get_Some; [done|]. split; [by eapply list_elem_of_lookup_2|done]. }
    congruence.
  - apply list_find_None in E. rewrite Forall_forall in E. by destruct (E s Hin).
Qed.

Lemma weight_of_None sl k : weight_of sl k = None ↔ k ∉ signer_keys sl.
Proof.
  unfold weight_of, signer_keys. rewrite fmap_None, list_find_None, Forall_forall, list_elem_of_fmap.
  naive_solver.
Qed.

(** The weight a set of keys carries in a list. *)
Definition key_weight (sl : SignerList) (k : PublicKey) : Z := default 0 (weight_of sl k).

Lemma key_weight_bounds sl k : signer_list_ok sl → 0 ≤ key_weight sl k ≤ u32_max.
Proof.
  intros Hok. unfold key_weight, weight_of. destruct (list_find _ _) as [[i s]|] eqn:E; simpl.
  - apply list_find_Some in E as (Hi & _). pose proof (Forall_lookup_1 _ _ _ _ (sl_weights sl Hok) Hi). simpl in *. lia.
  - unfold u32_max. lia.
Qed.

Lemma list_sum_fmap {A B} (f : A → B) (w : B → Z) l : list_sum w (f <$> l) = list_sum (w ∘ f) l.
Proof. induction l as [|x l IH]; [done|]. rewrite fmap_cons, !list_sum_cons, IH. done. Qed.

Lemma key_weight_all sl :
  signer_list_ok sl → list_sum (key_weight sl) (signer_keys sl) = list_sum weight (sl_signers sl).
Proof.
  intros Hok. unfold signer_keys. rewrite list_sum_fmap. apply list_sum_ext, Forall_forall. intros s Hs.
  unfold compose, key_weight. by rewrite weight_of_Some by (done || apply Hok).
Qed.

(** Keys named once carry at most the whole list's weight. *)
Lemma key_weight_sum_le sl keys :
  signer_list_ok sl → NoDup keys → list_sum (key_weight sl) keys ≤ list_sum weight (sl_signers sl).
Proof.
  intros Hok Hnd.
  rewrite <- key_weight_all by done.
  assert (list_sum (key_weight sl) keys
          = list_sum (key_weight sl) (filter (λ k, k ∈ signer_keys sl) keys)) as ->.
  { clear Hnd. induction keys as [|k keys IH]; [done|]. rewrite filter_cons. case_decide as Hk; simpl; [lia|].
    rewrite IH. unfold key_weight at 1. by rewrite (proj2 (weight_of_None sl k)). }
  apply list_sum_submseteq.
  - apply Forall_forall. intros k _. by apply key_weight_bounds.
  - apply NoDup_submseteq; [by apply NoDup_filter|]. intros k [? _]%list_elem_of_filter. done.
Qed.

Lemma gather_spec sl keys acc :
  signer_list_ok sl → 0 ≤ acc → acc + Z.of_nat (length keys) * u32_max ≤ u64_max →
  gather sl acc keys = true ↔
    (∀ k, k ∈ keys → k ∈ signer_keys sl) ∧ sl_quorum sl ≤ acc + list_sum (key_weight sl) keys.
Proof.
  intros Hok. revert acc. induction keys as [|k keys IH]; intros acc Ha Hb.
  { simpl. rewrite Z.leb_le, Z.add_0_r. split; [|naive_solver]. intros; split; [|done]. by intros k Hk%elem_of_nil. }
  cbn [gather length] in *. rewrite list_sum_cons. unfold key_weight at 1.
  pose proof (key_weight_bounds sl k Hok) as Hw. unfold key_weight in Hw.
  destruct (weight_of sl k) as [w|] eqn:E; simpl in *.
  - assert (saturating_add u64_max acc w = acc + w) as -> by (unfold saturating_add; unfold u32_max in *; lia).
    rewrite IH by lia. rewrite Z.add_assoc. assert (k ∈ signer_keys sl) as Hk.
    { apply dec_stable. intros Hn. apply weight_of_None in Hn. congruence. }
    split; intros [H1 H2]; (split; [|done]); [by intros k' [->|Hin]%elem_of_cons; auto|].
    intros k' Hin. apply H1. by right.
  - apply weight_of_None in E. split; [done|]. intros [H1 _]. destruct E. apply H1. by left.
Qed.

Section authority.
Context `{Hasher, Signer}.

(** Who may sign.  For a set of distinct keys (the form every accepted
    transaction carries), an account authorises it exactly when the account is
    not a module's and either it is the one master key, not disabled, or the one
    regular key, or it is a non-empty set of listed signers whose weights reach
    the quorum. *)
Theorem authorises_iff a keys :
  wf Account_codec a → NoDup keys → Z.of_nat (length keys) ≤ MAX_SIGNERS →
  authorises a keys = true ↔
    can_sign a = true ∧
    ((∃ k, keys = [k] ∧ (is_set (flags a) MasterKeyDisabled = false ∧ Address_from_public_key k = a_address a
                         ∨ regular_key a = Some k))
     ∨ ∃ l, a_signers a = Some l ∧ keys ≠ [] ∧ (∀ k, k ∈ keys → k ∈ signer_keys l)
         ∧ sl_quorum l ≤ list_sum (key_weight l) keys).
Proof.
  intros [Hw _] Hnd Hlen. destruct Hw as (_ & _ & _ & _ & _ & _ & Hsl). cbn in Hsl. rewrite wf_option in Hsl.
  unfold authorises. destruct (can_sign a); simpl; [|split; [done|naive_solver]].
  set (single := match keys with [only] => _ | _ => _ end).
  assert (single = true ↔ ∃ k, keys = [k] ∧
    (is_set (flags a) MasterKeyDisabled = false ∧ Address_from_public_key k = a_address a ∨ regular_key a = Some k)) as Hsing.
  { unfold single, master_key_may_sign. destruct keys as [|k [|k' keys]]; [split; naive_solver| |split; naive_solver].
    rewrite orb_true_iff, andb_true_iff, negb_true_iff, !bool_decide_eq_true. naive_solver. }
  destruct single.
  { split; [|done]. intros _. split; [done|]. left. by apply Hsing. }
  assert (∀ l, a_signers a = Some l → satisfied_by l keys = true ↔
    (∀ k, k ∈ keys → k ∈ signer_keys l) ∧ sl_quorum l ≤ list_sum (key_weight l) keys) as Hsat.
  { intros l Hl. unfold satisfied_by. rewrite gather_spec; [by rewrite Z.add_0_l|by apply SignerList_wf_ok, Hsl|lia|].
    unfold MAX_SIGNERS, u32_max, u64_max in *. lia. }
  destruct (a_signers a) as [l|].
  - rewrite andb_true_iff, negb_true_iff, bool_decide_eq_false, Hsat by done. split.
    + intros (? & ? & ?). split; [done|]. right. by exists l.
    + intros [_ [Hk%Hsing|(l' & [= <-] & ?)]]; [done|]. destruct_and!. done.
  - split; [done|]. intros [_ [Hk%Hsing|(l' & [=] & _)]]. done.
Qed.

(** No account is locked out.  A record that decodes and is not a module's can
    still be signed for: the holder of the key its address was derived from may
    sign, or some set of keys the record itself names may. *)
Theorem decoded_account_can_be_signed_for b a :
  decode_exact Account_codec b = Ok a → can_sign a = true →
  (∀ pk, Address_from_public_key pk = a_address a → authorises a [pk] = true)
  ∨ ∃ keys, keys ≠ [] ∧ authorises a keys = true.
Proof.
  intros [Hwf _]%decode_exact_sound Hcs; [|apply _]. pose proof Hwf as [Hw Hc].
  destruct Hw as (_ & _ & _ & _ & _ & _ & Hsl). cbn in Hsl. rewrite wf_option in Hsl.
  unfold Account_check, has_a_usable_authority in Hc. unfold authorises. rewrite Hcs. simpl.
  destruct (is_set (flags a) MasterKeyDisabled) eqn:Em; simpl in Hc.
  - right. case_bool_decide as Hr; [|case_bool_decide as Hs; [|done]].
    + destruct Hr as [k Hk]. exists [k]. split; [done|]. rewrite Hk.
      rewrite (bool_decide_eq_true_2 (Some k = Some k)) by done. by rewrite orb_true_r.
    + destruct Hs as [l Hl]. exists (signer_keys l). pose proof (SignerList_wf_ok l (Hsl l Hl)) as Hok.
      assert (signer_keys l ≠ []) as Hne.
      { unfold signer_keys. pose proof (sl_nonempty l Hok). by destruct (sl_signers l). }
      split; [done|]. match goal with |- (if ?b then _ else _) = _ => destruct b; [done|] end. rewrite Hl. rewrite bool_decide_eq_false_2 by done. simpl.
      unfold satisfied_by. apply gather_spec; [done|lia| |].
      * pose proof (sl_len l Hok). unfold signer_keys. rewrite length_fmap.
        unfold MAX_SIGNERS, u32_max, u64_max in *. lia.
      * split; [done|]. rewrite Z.add_0_l, key_weight_all by done. apply (sl_reachable l Hok).
  - left. intros pk Hpk. unfold master_key_may_sign. rewrite Em, bool_decide_eq_true_2 by done. done.
Qed.
End authority.
