(* ===== verification/Issuer.v ===== *)
(** Sovereign issuer records ([crates/bank/src/issuer.rs]). *)

From S2P Require Import Prelude SortedVec Codec Primitives Crypto.

Definition MAX_MINTERS : nat := 16.

Record Minter := { m_address : Address; m_allowance : Amount }.

#[export] Instance Minter_eq_dec : EqDecision Minter.
Proof. solve_decision. Defined.

Definition Minter_new (address : Address) (allowance : Amount) : Minter :=
  {| m_address := address; m_allowance := allowance |}.

Inductive IssuerError :=
| TooManyMinters
| CapWouldRise
| NotPendingAuthority (caller : Address)
| AuthorityUnchanged.

#[export] Instance IssuerError_eq_dec : EqDecision IssuerError.
Proof. solve_decision. Defined.

Record Issuer := {
  authority : Address;
  minters : list Minter;
  freezer : option Address;
  max_supply : option Amount;
  pending_authority : option Address;
  paused : bool;
}.

#[export] Instance Issuer_eq_dec : EqDecision Issuer.
Proof. solve_decision. Defined.

Definition Issuer_new (a : Address) : Issuer :=
  {| authority := a; minters := []; freezer := None; max_supply := None;
     pending_authority := None; paused := false |}.

Definition set_minters (i : Issuer) (ms : list Minter) : Issuer :=
  {| authority := authority i; minters := ms; freezer := freezer i; max_supply := max_supply i;
     pending_authority := pending_authority i; paused := paused i |}.
Definition set_freezer_field (i : Issuer) (f : option Address) : Issuer :=
  {| authority := authority i; minters := minters i; freezer := f; max_supply := max_supply i;
     pending_authority := pending_authority i; paused := paused i |}.
Definition set_max_supply (i : Issuer) (c : option Amount) : Issuer :=
  {| authority := authority i; minters := minters i; freezer := freezer i; max_supply := c;
     pending_authority := pending_authority i; paused := paused i |}.
Definition set_pending (i : Issuer) (p : option Address) : Issuer :=
  {| authority := authority i; minters := minters i; freezer := freezer i; max_supply := max_supply i;
     pending_authority := p; paused := paused i |}.
Definition set_paused_field (i : Issuer) (p : bool) : Issuer :=
  {| authority := authority i; minters := minters i; freezer := freezer i; max_supply := max_supply i;
     pending_authority := pending_authority i; paused := p |}.

Definition Issuer_with_cap (i : Issuer) (cap : Amount) : Issuer := set_max_supply i (Some cap).
Definition Issuer_paused (i : Issuer) : Issuer := set_paused_field i true.
Definition Issuer_with_freezer (i : Issuer) (f : Address) : Issuer := set_freezer_field i (Some f).

Definition is_authority (i : Issuer) (account : Address) : bool :=
  bool_decide (authority i = account).

Definition may_freeze (i : Issuer) (account : Address) : bool :=
  match freezer i with
  | None => is_authority i account
  | Some f => bool_decide (f = account)
  end.

(** [Issuer::minter]: a binary search by address. *)
Definition minter (i : Issuer) (address : Address) : option Minter :=
  vec_get m_address address (minters i).

Definition allowance_of (i : Issuer) (address : Address) : Amount :=
  match minter i address with Some m => m_allowance m | None => 0 end.

Definition set_minter (i : Issuer) (address : Address) (allowance : Amount)
  : result IssuerError Issuer :=
  match search m_address address (minters i) with
  | inl at_ =>
      if Amount_is_zero allowance then Ok (set_minters i (vec_remove at_ (minters i)))
      else
        match minters i !! at_ with
        | Some m => Ok (set_minters i (<[at_ := Minter_new (m_address m) allowance]> (minters i)))
        | None => Ok i
        end
  | inr at_ =>
      if Amount_is_zero allowance then Ok i
      else if (MAX_MINTERS <=? length (minters i))%nat then Err TooManyMinters
      else Ok (set_minters i (vec_insert at_ (Minter_new address allowance) (minters i)))
  end.

(** [Issuer::with_minter]; [None] is the panic of its [expect]. *)
Definition Issuer_with_minter (i : Issuer) (address : Address) (allowance : Amount) : option Issuer :=
  match set_minter i address allowance with Ok i => Some i | Err _ => None end.

(** [Issuer::spend_allowance]: the returned flag, and the record afterwards. *)
Definition spend_allowance (i : Issuer) (address : Address) (amount : Amount) : bool * Issuer :=
  match search m_address address (minters i) with
  | inr _ => (false, i)
  | inl at_ =>
      match minters i !! at_ with
      | None => (false, i)
      | Some m =>
          match Amount_checked_sub (m_allowance m) amount with
          | Err _ => (false, i)
          | Ok remaining =>
              (true,
               if Amount_is_zero remaining then set_minters i (vec_remove at_ (minters i))
               else set_minters i (<[at_ := Minter_new (m_address m) remaining]> (minters i)))
          end
      end
  end.

Definition offer_authority (i : Issuer) (to : option Address) : result IssuerError Issuer :=
  if match to with Some t => bool_decide (t = authority i) | None => false end
  then Err AuthorityUnchanged
  else Ok (set_pending i to).

Definition accept_authority (i : Issuer) (caller : Address) : result IssuerError Issuer :=
  if negb (bool_decide (pending_authority i = Some caller)) then Err (NotPendingAuthority caller)
  else Ok {| authority := caller; minters := minters i; freezer := freezer i;
             max_supply := max_supply i; pending_authority := None; paused := paused i |}.

Definition tighten_cap (i : Issuer) (cap : Amount) : result IssuerError Issuer :=
  if match max_supply i with Some current => current <? cap | None => false end
  then Err CapWouldRise
  else Ok (set_max_supply i (Some cap)).

(** * Wire form *)

Definition Minter_codec : codec Minter := {|
  encode := λ m, encode Address_codec (m_address m) ++ encode Amount_codec (m_allowance m);
  decode := λ r,
    '(a, r) ← decode Address_codec r;
    '(al, r) ← decode Amount_codec r;
    Ok ({| m_address := a; m_allowance := al |}, r);
  wf := λ m, wf Address_codec (m_address m) ∧ wf Amount_codec (m_allowance m);
|}.
Arguments Minter_codec : simpl never.

(** The checks [Decode for Issuer] makes after reading the fields. *)
Definition issuer_check (i : Issuer) : result CodecError unit :=
  if (MAX_MINTERS <? length (minters i))%nat
  then Err (CodecInvalid "a denomination may have at most 16 minters")
  else if bool_decide (pending_authority i = Some (authority i))
  then Err (CodecInvalid "an offer of the authority to the account already holding it")
  else if negb (is_sorted_by (λ a b, bytes_ltb (m_address a) (m_address b)) (minters i))
  then Err (CodecInvalid "issuer minters must be sorted by address and unique")
  else if existsb (λ m, Amount_is_zero (m_allowance m)) (minters i)
  then Err (CodecInvalid "an issuer minter must have a non-zero allowance")
  else Ok ().

Definition Issuer_codec : codec Issuer := {|
  encode := λ i,
    encode Address_codec (authority i)
    ++ encode (option_codec Address_codec) (pending_authority i)
    ++ encode (vec_codec Minter_codec) (minters i)
    ++ encode (option_codec Address_codec) (freezer i)
    ++ encode (option_codec Amount_codec) (max_supply i)
    ++ encode bool_codec (paused i);
  decode := λ r,
    '(a, r) ← decode Address_codec r;
    '(p, r) ← decode (option_codec Address_codec) r;
    '(ms, r) ← decode (vec_codec Minter_codec) r;
    '(f, r) ← decode (option_codec Address_codec) r;
    '(c, r) ← decode (option_codec Amount_codec) r;
    '(pd, r) ← decode bool_codec r;
    let i := {| authority := a; minters := ms; freezer := f; max_supply := c;
                pending_authority := p; paused := pd |} in
    _ ← issuer_check i;
    Ok (i, r);
  wf := λ i,
    wf Address_codec (authority i)
    ∧ wf (option_codec Address_codec) (pending_authority i)
    ∧ wf (vec_codec Minter_codec) (minters i)
    ∧ wf (option_codec Address_codec) (freezer i)
    ∧ wf (option_codec Amount_codec) (max_supply i)
    ∧ issuer_check i = Ok ();
|}.
Arguments Issuer_codec : simpl never.

Abbreviation issuer_ok := (wf Issuer_codec).

#[export] Instance Minter_lawful : Lawful Minter_codec.
Proof.
  split; unfold Minter_codec; cbn [encode decode wf].
  - intros [a al] rest [Ha Hal]. cbn [m_address m_allowance] in *. codec_complete. done.
  - intros b x rest H. codec_sound. cbn [m_address m_allowance]. by rewrite <- app_assoc.
Qed.

#[export] Instance Issuer_lawful : Lawful Issuer_codec.
Proof.
  split; unfold Issuer_codec; cbn [encode decode wf].
  - intros [a ms f c p pd] rest (Ha & Hp & Hm & Hf & Hc & Hchk).
    cbn [authority minters freezer max_supply pending_authority paused] in *.
    codec_complete. cbv zeta. rewrite Hchk. done.
  - intros b x rest H.
    repeat (apply result_bind_Ok_inv in H as [[? ?] [? H]]; cbn beta iota in H).
    cbv zeta in H. apply result_bind_Ok_inv in H as [[] [Hchk H]].
    codec_sound. cbn [authority minters freezer max_supply pending_authority paused].
    rewrite <- !app_assoc. done.
Qed.

(** * The record invariant *)

(** The three things [issuer_check] protects, as propositions. *)
Lemma issuer_check_Ok i :
  issuer_check i = Ok () ↔
    (length (minters i) ≤ MAX_MINTERS)%nat ∧ pending_authority i ≠ Some (authority i)
    ∧ StronglySorted (key_lt m_address) (minters i)
    ∧ Forall (λ m, m_allowance m ≠ 0) (minters i).
Proof.
  unfold issuer_check. destruct (Nat.ltb_spec MAX_MINTERS (length (minters i))).
  { split; [done|]. intros (?&_). lia. }
  case_bool_decide as Hp; [split; [done|]; tauto|].
  destruct (is_sorted_by _ _) eqn:Hs; simpl.
  2: { split; [done|]. intros (_&_&Hs'&_). apply is_sorted_by_spec in Hs'. congruence. }
  apply is_sorted_by_spec in Hs.
  destruct (existsb _ _) eqn:Hz.
  - split; [done|]. intros (_&_&_&Hf). apply existsb_exists in Hz as (m & Hin & Hm).
    rewrite Forall_forall in Hf. apply list_elem_of_In, Hf in Hin. unfold Amount_is_zero in Hm.
    bool_simpl. done.
  - split; [|done]. intros _. split_and!; [done..|]. apply Forall_forall. intros m Hin E.
    apply not_true_iff_false in Hz. apply Hz, existsb_exists. exists m.
    rewrite <- list_elem_of_In. split; [done|]. unfold Amount_is_zero. by rewrite E.
Qed.

Lemma issuer_ok_iff i :
  issuer_ok i ↔
    wf Address_codec (authority i)
    ∧ wf (option_codec Address_codec) (pending_authority i)
    ∧ Forall (wf Minter_codec) (minters i)
    ∧ wf (option_codec Address_codec) (freezer i)
    ∧ wf (option_codec Amount_codec) (max_supply i)
    ∧ (length (minters i) ≤ MAX_MINTERS)%nat ∧ pending_authority i ≠ Some (authority i)
    ∧ StronglySorted (key_lt m_address) (minters i)
    ∧ Forall (λ m, m_allowance m ≠ 0) (minters i).
Proof.
  unfold Issuer_codec. cbn [wf]. rewrite issuer_check_Ok.
  unfold vec_codec at 1. cbn [wf]. unfold MAX_FIELD_LEN, MAX_MINTERS. split; [naive_solver|].
  intros (?&?&?&?&?&?&?&?&?). split_and!; try done. lia.
Qed.

(** * Allowances *)

Abbreviation minters_sorted ms := (StronglySorted (key_lt m_address) ms).

Lemma issuer_ok_sorted i : issuer_ok i → minters_sorted (minters i).
Proof. rewrite issuer_ok_iff. tauto. Qed.

Lemma minter_Some i a m : issuer_ok i → minter i a = Some m ↔ m ∈ minters i ∧ m_address m = a.
Proof. intros Hi%issuer_ok_sorted. by apply vec_get_Some. Qed.

(** The allowance held by one address in a sorted list determines [minter]. *)
Lemma minter_ext ms ms' a :
  minters_sorted ms → minters_sorted ms' →
  (∀ m, m_address m = a → m ∈ ms ↔ m ∈ ms') →
  vec_get m_address a ms = vec_get m_address a ms'.
Proof.
  intros H1 H2 Hm. apply option_eq. intros m. rewrite !vec_get_Some by done.
  split; intros [Hin Ha]; (split; [by apply Hm|done]).
Qed.

Lemma issuer_ok_set_minters i ms :
  issuer_ok i → Forall (wf Minter_codec) ms → (length ms ≤ MAX_MINTERS)%nat →
  minters_sorted ms → Forall (λ m, m_allowance m ≠ 0) ms → issuer_ok (set_minters i ms).
Proof. rewrite !issuer_ok_iff. simpl. tauto. Qed.

(** The minter list after an entry is replaced or removed at a found index. *)
Section found.
Context (i : Issuer) (a : Address) (n : nat) (m : Minter).
Context (Hok : issuer_ok i) (Hm : minters i !! n = Some m) (Ha : m_address m = a).

Lemma removed_ok : issuer_ok (set_minters i (vec_remove n (minters i))).
Proof.
  pose proof Hok as Hok'. rewrite issuer_ok_iff in Hok'. destruct Hok' as (_&_&Hwf&_&_&Hlen&_&Hs&Hz).
  apply issuer_ok_set_minters; [done|..].
  - apply Forall_app. split; [by apply Forall_take|by apply Forall_drop].
  - unfold vec_remove. rewrite length_app, length_take, length_drop. lia.
  - by apply vec_remove_sorted.
  - apply Forall_app. split; [by apply Forall_take|by apply Forall_drop].
Qed.

Lemma removed_minter b :
  minter (set_minters i (vec_remove n (minters i))) b = if decide (b = a) then None else minter i b.
Proof.
  pose proof (issuer_ok_sorted _ Hok) as Hs. apply option_eq. intros m'. simpl.
  rewrite minter_Some by apply removed_ok. simpl.
  rewrite (elem_of_vec_remove m_address _ _ _ _ Hs Hm), Ha. case_decide as E.
  - naive_solver.
  - rewrite minter_Some by done. naive_solver.
Qed.

Lemma updated_ok x :
  wf Amount_codec x → x ≠ 0 →
  issuer_ok (set_minters i (<[n := Minter_new (m_address m) x]> (minters i))).
Proof.
  intros Hx Hx0. pose proof Hok as Hok'. rewrite issuer_ok_iff in Hok'.
  destruct Hok' as (_&_&Hwf&_&_&Hlen&_&Hs&Hz).
  apply issuer_ok_set_minters; [done|..].
  - apply Forall_insert; [done|]. rewrite Forall_lookup in Hwf. split; [by apply (Hwf n m)|done].
  - by rewrite length_insert.
  - by apply (vec_update_sorted m_address _ _ m).
  - by apply Forall_insert.
Qed.

Lemma updated_minter x b :
  wf Amount_codec x → x ≠ 0 →
  minter (set_minters i (<[n := Minter_new (m_address m) x]> (minters i))) b
  = if decide (b = a) then Some (Minter_new a x) else minter i b.
Proof.
  intros Hx Hx0. pose proof (issuer_ok_sorted _ Hok) as Hs. apply option_eq. intros m'. simpl.
  rewrite minter_Some by (by apply updated_ok). simpl.
  rewrite (elem_of_vec_update m_address _ _ m) by done. rewrite Ha. case_decide as E.
  - subst. split; [|intros [= <-]; simpl; auto]. intros [[->|[? ?]] Hb]; [done|congruence].
  - rewrite minter_Some by done. split; [|naive_solver]. intros [[->|[? ?]] Hb]; [done|done].
Qed.
End found.

Lemma search_found_minter i a n :
  search m_address a (minters i) = inl n → ∃ m, minters i !! n = Some m ∧ m_address m = a.
Proof. apply search_found. Qed.

Lemma minter_missing i a n :
  search m_address a (minters i) = inr n → minter i a = None.
Proof. unfold minter, vec_get. by intros ->. Qed.

Lemma set_minter_spec i a x i' :
  issuer_ok i → wf Address_codec a → wf Amount_codec x → set_minter i a x = Ok i' →
  issuer_ok i'
  ∧ (∀ b, minter i' b = if decide (b = a) then (if Amount_is_zero x then None else Some (Minter_new a x))
                        else minter i b)
  ∧ i' = set_minters i (minters i').
Proof.
  intros Hok Ha Hx. unfold set_minter, Amount_is_zero.
  destruct (search m_address a (minters i)) as [n|n] eqn:Hs.
  - destruct (search_found_minter _ _ _ Hs) as (m & Hm & Hma). rewrite Hm.
    destruct (Z.eqb_spec x 0); intros [= <-].
    + split_and!; [by apply removed_ok|intros b; by apply (removed_minter i a n m)|done].
    + split_and!; [by apply (updated_ok i n m)|intros b; by apply (updated_minter i a n m)|done].
  - pose proof (minter_missing _ _ _ Hs) as Hnone. destruct (Z.eqb_spec x 0).
    { intros [= <-]. split_and!; [done| |by destruct i]. intros b. case_decide; by subst. }
    destruct (Nat.leb_spec MAX_MINTERS (length (minters i))); [done|]. intros [= <-].
    pose proof Hok as Hok'. rewrite issuer_ok_iff in Hok'. destruct Hok' as (_&_&Hwf&_&_&_&_&Hst&Hz).
    assert (issuer_ok (set_minters i (vec_insert n (Minter_new a x) (minters i)))) as Hok2.
    { apply issuer_ok_set_minters; [done|..].
      - apply Forall_forall. intros m [->|Hin]%elem_of_vec_insert; [done|].
        rewrite Forall_forall in Hwf. by apply Hwf.
      - unfold vec_insert. rewrite length_app, length_take. simpl. rewrite length_drop. lia.
      - by apply (vec_insert_sorted m_address a).
      - apply Forall_forall. intros m [->|Hin]%elem_of_vec_insert; [done|].
        rewrite Forall_forall in Hz. by apply Hz. }
    split_and!; [done| |done]. intros b. apply option_eq. intros m.
    rewrite minter_Some by done. simpl. rewrite elem_of_vec_insert. case_decide as E.
    + subst b. split; [|intros [= <-]; simpl; auto]. intros [[->|Hin] Hma]; [done|].
      assert (minter i a = Some m) by (by apply minter_Some). congruence.
    + rewrite minter_Some by done. naive_solver.
Qed.

(** The authority sets an absolute allowance: afterwards the minter has exactly
    that, every other minter has what it had, nothing else in the record moved,
    and the record is still canonical. *)
Theorem set_minter_exact i a x i' :
  issuer_ok i → address_ok a → amount_ok x → set_minter i a x = Ok i' →
  issuer_ok i' ∧ (∀ b, allowance_of i' b = if decide (b = a) then x else allowance_of i b)
  ∧ i' = set_minters i (minters i').
Proof.
  intros Hok Ha Hx%amount_ok_wf H. destruct (set_minter_spec _ _ _ _ Hok Ha Hx H) as (Hok' & Hm & Hi).
  split_and!; [done| |done]. intros b. unfold allowance_of. rewrite Hm.
  case_decide; [|done]. unfold Amount_is_zero. by destruct (Z.eqb_spec x 0).
Qed.

Lemma spend_allowance_spec i a x :
  issuer_ok i → 0 < x →
  match spend_allowance i a x with
  | (true, i') =>
      is_Some (minter i a) ∧ x ≤ allowance_of i a ∧ issuer_ok i' ∧ i' = set_minters i (minters i')
      ∧ ∀ b, allowance_of i' b = allowance_of i b - if decide (b = a) then x else 0
  | (false, i') => i' = i ∧ allowance_of i a < x
  end.
Proof.
  intros Hok Hx. unfold spend_allowance, allowance_of.
  destruct (search m_address a (minters i)) as [n|n] eqn:Hs.
  2: { rewrite (minter_missing _ _ _ Hs). done. }
  destruct (search_found_minter _ _ _ Hs) as (m & Hm & Hma). rewrite Hm.
  assert (minter i a = Some m) as Hmi.
  { apply minter_Some; [done|]. split; [by eapply list_elem_of_lookup_2|done]. }
  assert (wf Amount_codec (m_allowance m)) as Hwf.
  { pose proof Hok as Hok'. rewrite issuer_ok_iff in Hok'. destruct Hok' as (_&_&Hwf&_).
    rewrite Forall_lookup in Hwf. by apply (Hwf n m). }
  rewrite Hmi. rewrite amount_ok_wf in Hwf. unfold amount_ok in Hwf.
  unfold Amount_checked_sub, checked_sub, Amount_is_zero.
  destruct (Z.leb_spec x (m_allowance m)); simpl; [|done].
  destruct (Z.eqb_spec (m_allowance m - x) 0) as [E|E];
    (split; [done|]); (split; [done|]); split; [|split; [done|]| |split; [done|]].
  - by apply removed_ok.
  - intros b. rewrite (removed_minter i a n m) by done.
    case_decide; [subst b; rewrite Hmi|]; lia.
  - apply (updated_ok i n m); [done..| |done]. apply amount_ok_wf. unfold amount_ok. lia.
  - intros b. rewrite (updated_minter i a n m);
      [|done..|apply amount_ok_wf; unfold amount_ok; lia|done].
    case_decide; [subst b; rewrite Hmi; simpl|]; lia.
Qed.

(** ** Handover and cap *)

Lemma offer_authority_spec i to i' :
  issuer_ok i → wf (option_codec Address_codec) to → offer_authority i to = Ok i' →
  issuer_ok i' ∧ i' = set_pending i to.
Proof.
  intros Hok Hto. unfold offer_authority. intros H.
  destruct (match to with Some t => _ | None => _ end) eqn:E; [done|].
  injection H as <-. split; [|done]. rewrite issuer_ok_iff in *. simpl.
  destruct Hok as (?&?&?&?&?&?&?&?&?). split_and!; try done.
  intros ->. by rewrite bool_decide_eq_true_2 in E.
Qed.

Lemma accept_authority_spec i caller i' :
  issuer_ok i → accept_authority i caller = Ok i' →
  pending_authority i = Some caller ∧ authority i' = caller ∧ pending_authority i' = None ∧ issuer_ok i'
  ∧ minters i' = minters i ∧ max_supply i' = max_supply i ∧ paused i' = paused i ∧ freezer i' = freezer i.
Proof.
  unfold accept_authority. intros Hok H. case_bool_decide as E; [|done]. injection H as <-.
  split_and!; try done. rewrite issuer_ok_iff in *. simpl.
  destruct Hok as (?&Hp&?&?&?&?&?&?&?). rewrite E in Hp. by split_and!.
Qed.

Lemma tighten_cap_spec i cap i' :
  issuer_ok i → amount_ok cap → tighten_cap i cap = Ok i' →
  issuer_ok i' ∧ i' = set_max_supply i (Some cap)
  ∧ match max_supply i with Some c => cap ≤ c | None => True end.
Proof.
  unfold tighten_cap. intros Hok Hc H.
  destruct (match max_supply i with Some c => _ | None => _ end) eqn:E; [done|].
  injection H as <-. split_and!; [|done|].
  - rewrite issuer_ok_iff in *. simpl. apply amount_ok_wf in Hc.
    destruct Hok as (?&?&?&?&?&?&?&?&?). by repeat (split; [done|]).
  - destruct (max_supply i); [|done]. bool_simpl. lia.
Qed.
