(* ===== verification/Bank.v ===== *)
(** The bank: balances, total supply, issuer records and freezes
    ([crates/bank/src/lib.rs]).

    Every operation is written in the state monad [M] over an arbitrary
    [KeyValueStore], writes in the order the code performs them.  [bank_call]
    enumerates the public mutating methods; the theorems speak of one call, or of
    any sequence of calls, failed ones included. *)

From S2P Require Import Prelude SortedVec Codec Primitives Crypto Store Issuer.

Inductive BankError :=
| InsufficientFunds (denom needed available : bytes)
| ZeroAmount
| Overflow (what : string)
| NotIssuer (denom : bytes)
| NotMinter (denom : bytes)
| MintAllowanceExceeded (denom amount allowance : bytes)
| NotFreezer (denom : bytes)
| IssuerErr (e : IssuerError)
| NoIssuer (denom : bytes)
| IssuerExists (denom : bytes)
| IssuerPaused (denom : bytes)
| SupplyCapExceeded (denom amount : bytes)
| AccountFrozen (denom : bytes)
| NativeNotIssuable
| StateErr (e : StateError).

#[export] Instance BankError_eq_dec : EqDecision BankError.
Proof. solve_decision. Defined.

Section bank.
  Context `{KeyValueStore St}.
  Implicit Types (s : St) (address from to : Address) (denom : Denom) (amount : Amount).

(** ** [BankView] *)

Definition view_balance s address denom : result BankError Amount :=
  o ← map_err StateErr (get_decoded Amount_codec s (key_balance address denom));
  Ok (default 0 o).

Definition view_total_supply s denom : result BankError Amount :=
  o ← map_err StateErr (get_decoded Amount_codec s (key_supply denom));
  Ok (default 0 o).

Definition is_frozen s address denom : bool :=
  bool_decide (is_Some (kv_get s (key_frozen denom address))).

Definition view_issuer s denom : result BankError (option Issuer) :=
  map_err StateErr (get_decoded Issuer_codec s (key_issuer denom)).

(** ** [Bank] *)

Definition balance address denom : M St BankError Amount := reads (λ s, view_balance s address denom).
Definition total_supply denom : M St BankError Amount := reads (λ s, view_total_supply s denom).
Definition frozen address denom : M St BankError bool := reads (λ s, Ok (is_frozen s address denom)).
Definition issuer denom : M St BankError (option Issuer) := reads (λ s, view_issuer s denom).

Definition write_amount (key : StoreKey) amount s : St :=
  if Amount_is_zero amount then (kv_delete s key).1 else set_encoded Amount_codec s key amount.
Definition write_balance address denom amount : M St BankError unit :=
  writes (write_amount (key_balance address denom) amount).
Definition write_supply denom amount : M St BankError unit :=
  writes (write_amount (key_supply denom) amount).

Definition insufficient denom (needed available : Amount) : BankError :=
  InsufficientFunds denom (u128_to_string needed) (u128_to_string available).

Definition transfer from to denom amount : M St BankError unit :=
  do! fail_if (Amount_is_zero amount) ZeroAmount in
  let! f1 := frozen from denom in
  let! f2 := frozen to denom in
  do! fail_if (f1 || f2) (AccountFrozen denom) in
  if bool_decide (from = to) then
    let! b := balance from denom in
    do! fail_if (b <? amount) (insufficient denom amount b) in
    ret tt
  else
    let! from_balance := balance from denom in
    let! to_balance := balance to denom in
    let! new_from := lift (map_err (λ _, insufficient denom amount from_balance)
                                   (Amount_checked_sub from_balance amount)) in
    let! new_to := lift (map_err (λ _, Overflow "transfer/credit")
                                 (Amount_checked_add to_balance amount)) in
    do! write_balance from denom new_from in
    do! write_balance to denom new_to in
    ret tt.

Definition require_issuer denom : M St BankError Issuer :=
  do! fail_if (Denom_is_native denom) NativeNotIssuable in
  let! o := issuer denom in
  lift (ok_or (NoIssuer denom) o).

Definition require_authority (auth : Address) denom : M St BankError Issuer :=
  let! i := require_issuer denom in
  do! fail_if (negb (is_authority i auth)) (NotIssuer denom) in
  ret i.

Definition write_issuer denom (i : Issuer) : M St BankError unit :=
  writes (λ s, set_encoded Issuer_codec s (key_issuer denom) i).

Definition mint (minter_ to : Address) denom amount : M St BankError unit :=
  do! fail_if (Amount_is_zero amount) ZeroAmount in
  let! i := require_issuer denom in
  do! fail_if (negb (bool_decide (is_Some (minter i minter_)))) (NotMinter denom) in
  do! fail_if (paused i) (IssuerPaused denom) in
  let! f := frozen to denom in
  do! fail_if f (AccountFrozen denom) in
  let! supply := total_supply denom in
  let! new_supply := lift (map_err (λ _, Overflow "mint/supply") (Amount_checked_add supply amount)) in
  do! fail_if (match max_supply i with Some cap => cap <? new_supply | None => false end)
              (SupplyCapExceeded denom (u128_to_string amount)) in
  let! b := balance to denom in
  let! new_balance := lift (map_err (λ _, Overflow "mint/credit") (Amount_checked_add b amount)) in
  let '(spent, i') := spend_allowance i minter_ amount in
  do! fail_if (negb spent)
        (MintAllowanceExceeded denom (u128_to_string amount) (u128_to_string (allowance_of i' minter_))) in
  do! write_balance to denom new_balance in
  do! write_supply denom new_supply in
  write_issuer denom i'.

Definition burn (minter_ : Address) denom amount : M St BankError unit :=
  do! fail_if (Amount_is_zero amount) ZeroAmount in
  let! i := require_issuer denom in
  do! fail_if (negb (bool_decide (is_Some (minter i minter_)))) (NotMinter denom) in
  let! f := frozen minter_ denom in
  do! fail_if f (AccountFrozen denom) in
  let! b := balance minter_ denom in
  let! new_balance := lift (map_err (λ _, insufficient denom amount b) (Amount_checked_sub b amount)) in
  let! supply := total_supply denom in
  let! new_supply := lift (map_err (λ _, Overflow "burn/supply") (Amount_checked_sub supply amount)) in
  do! write_balance minter_ denom new_balance in
  write_supply denom new_supply.

(** Issuer configuration, by the authority. *)

Definition set_minter_allowance (auth : Address) denom (minter_ : Address) (allowance : Amount)
  : M St BankError unit :=
  let! i := require_authority auth denom in
  let! i' := lift (map_err IssuerErr (set_minter i minter_ allowance)) in
  write_issuer denom i'.

Definition transfer_issuer_authority (auth : Address) denom (to : option Address) : M St BankError unit :=
  let! i := require_authority auth denom in
  let! i' := lift (map_err IssuerErr (offer_authority i to)) in
  write_issuer denom i'.

Definition accept_issuer_authority (caller : Address) denom : M St BankError unit :=
  let! i := require_issuer denom in
  let! i' := lift (map_err IssuerErr (accept_authority i caller)) in
  write_issuer denom i'.

Definition set_freezer (auth : Address) denom (f : option Address) : M St BankError unit :=
  let! i := require_authority auth denom in
  write_issuer denom (set_freezer_field i f).

Definition set_paused (auth : Address) denom (p : bool) : M St BankError unit :=
  let! i := require_authority auth denom in
  write_issuer denom (set_paused_field i p).

Definition tighten_supply_cap (auth : Address) denom (cap : Amount) : M St BankError unit :=
  let! i := require_authority auth denom in
  let! i' := lift (map_err IssuerErr (tighten_cap i cap)) in
  write_issuer denom i'.

(** Protocol paths. *)

(** The body [emit_native] and [genesis_allocate] share, up to the name in the error. *)
Definition credit (tag : string) to denom amount : M St BankError unit :=
  do! fail_if (Amount_is_zero amount) ZeroAmount in
  let! supply := total_supply denom in
  let! new_supply := lift (map_err (λ _, Overflow (tag +:+ "/supply")) (Amount_checked_add supply amount)) in
  let! b := balance to denom in
  let! new_balance := lift (map_err (λ _, Overflow (tag +:+ "/credit")) (Amount_checked_add b amount)) in
  do! write_balance to denom new_balance in
  write_supply denom new_supply.

Definition emit_native to amount : M St BankError unit := credit "emit" to Denom_native amount.
Definition genesis_allocate to denom amount : M St BankError unit := credit "genesis" to denom amount.

Definition slash_native from amount : M St BankError unit :=
  do! fail_if (Amount_is_zero amount) ZeroAmount in
  let! b := balance from Denom_native in
  let! new_balance :=
    lift (map_err (λ _, InsufficientFunds Denom_native (Amount_to_decimal amount) (Amount_to_decimal b))
                  (Amount_checked_sub b amount)) in
  let! supply := total_supply Denom_native in
  let! new_supply := lift (map_err (λ _, Overflow "slash/supply") (Amount_checked_sub supply amount)) in
  do! write_balance from Denom_native new_balance in
  write_supply Denom_native new_supply.

Definition register_issuer denom (i : Issuer) : M St BankError unit :=
  do! fail_if (Denom_is_native denom) NativeNotIssuable in
  write_issuer denom i.

Definition admit_issuer denom (auth : Address) : M St BankError unit :=
  let! o := issuer denom in
  do! fail_if (bool_decide (is_Some o)) (IssuerExists denom) in
  register_issuer denom (Issuer_new auth).

Definition freeze (caller address : Address) denom : M St BankError unit :=
  let! i := require_issuer denom in
  do! fail_if (negb (may_freeze i caller)) (NotFreezer denom) in
  writes (λ s, set_encoded u8_codec s (key_frozen denom address) 1).

Definition unfreeze (caller address : Address) denom : M St BankError unit :=
  let! i := require_issuer denom in
  do! fail_if (negb (may_freeze i caller)) (NotFreezer denom) in
  writes (λ s, (kv_delete s (key_frozen denom address)).1).
End bank.

(** * Calls *)

(** The public mutating methods of [Bank], with their arguments. *)
Inductive bank_call :=
| Transfer (from to : Address) (denom : Denom) (amount : Amount)
| Mint (minter to : Address) (denom : Denom) (amount : Amount)
| Burn (minter : Address) (denom : Denom) (amount : Amount)
| SetMinterAllowance (authority : Address) (denom : Denom) (minter : Address) (allowance : Amount)
| TransferIssuerAuthority (authority : Address) (denom : Denom) (to : option Address)
| AcceptIssuerAuthority (caller : Address) (denom : Denom)
| SetFreezer (authority : Address) (denom : Denom) (freezer : option Address)
| SetPaused (authority : Address) (denom : Denom) (paused : bool)
| TightenSupplyCap (authority : Address) (denom : Denom) (cap : Amount)
| EmitNative (to : Address) (amount : Amount)
| SlashNative (from : Address) (amount : Amount)
| GenesisAllocate (to : Address) (denom : Denom) (amount : Amount)
| RegisterIssuer (denom : Denom) (i : Issuer)
| AdmitIssuer (denom : Denom) (authority : Address)
| Freeze (caller address : Address) (denom : Denom)
| Unfreeze (caller address : Address) (denom : Denom).

Definition bank_exec `{KeyValueStore St} (c : bank_call) : M St BankError unit :=
  match c with
  | Transfer from to d x => transfer from to d x
  | Mint m to d x => mint m to d x
  | Burn m d x => burn m d x
  | SetMinterAllowance a d m x => set_minter_allowance a d m x
  | TransferIssuerAuthority a d to => transfer_issuer_authority a d to
  | AcceptIssuerAuthority c d => accept_issuer_authority c d
  | SetFreezer a d f => set_freezer a d f
  | SetPaused a d p => set_paused a d p
  | TightenSupplyCap a d cap => tighten_supply_cap a d cap
  | EmitNative to x => emit_native to x
  | SlashNative from x => slash_native from x
  | GenesisAllocate to d x => genesis_allocate to d x
  | RegisterIssuer d i => register_issuer d i
  | AdmitIssuer d a => admit_issuer d a
  | Freeze c a d => freeze c a d
  | Unfreeze c a d => unfreeze c a d
  end.

(** The arguments are values of their Rust types. *)
Definition option_all {A} (P : A → Prop) (o : option A) : Prop := match o with Some x => P x | None => True end.
Definition call_ok (c : bank_call) : Prop :=
  match c with
  | Transfer from to d x => address_ok from ∧ address_ok to ∧ denom_ok d ∧ amount_ok x
  | Mint m to d x => address_ok m ∧ address_ok to ∧ denom_ok d ∧ amount_ok x
  | Burn m d x => address_ok m ∧ denom_ok d ∧ amount_ok x
  | SetMinterAllowance a d m x => address_ok a ∧ denom_ok d ∧ address_ok m ∧ amount_ok x
  | TransferIssuerAuthority a d to => address_ok a ∧ denom_ok d ∧ option_all address_ok to
  | AcceptIssuerAuthority c d => address_ok c ∧ denom_ok d
  | SetFreezer a d f => address_ok a ∧ denom_ok d ∧ option_all address_ok f
  | SetPaused a d _ => address_ok a ∧ denom_ok d
  | TightenSupplyCap a d cap => address_ok a ∧ denom_ok d ∧ amount_ok cap
  | EmitNative to x => address_ok to ∧ amount_ok x
  | SlashNative from x => address_ok from ∧ amount_ok x
  | GenesisAllocate to d x => address_ok to ∧ denom_ok d ∧ amount_ok x
  | RegisterIssuer d i => denom_ok d ∧ issuer_ok i
  | AdmitIssuer d a => denom_ok d ∧ address_ok a
  | Freeze c a d => address_ok c ∧ address_ok a ∧ denom_ok d
  | Unfreeze c a d => address_ok c ∧ address_ok a ∧ denom_ok d
  end.

(** A run of calls: a failed call leaves whatever it wrote, and the next one goes on. *)
Definition bank_run `{KeyValueStore St} (cs : list bank_call) (s : St) : St :=
  foldl (λ s c, (bank_exec c s).2) s cs.
