(* ===== verification/BankProofs.v ===== *)
(** What the bank guarantees: the ledger each call computes, conservation of
    supply, atomicity, the mint allowance as a lifetime total, freezes and the
    authority handover ([crates/bank/src/lib.rs]). *)

From S2P Require Import Prelude SortedVec Codec Primitives Crypto Store Records Issuer Bank.

(** * The ledger a store holds *)

Implicit Types (m : gmap bytes bytes) (k : bytes).

(** The amount stored under a key; absent (or corrupt) reads as zero. *)
Definition amount_at m k : Z :=
  match m !! k with
  | Some b => match decode_exact Amount_codec b with Ok x => x | Err _ => 0 end
  | None => 0
  end.

Definition put_amount k (x : Z) m : gmap bytes bytes :=
  if Amount_is_zero x then delete k m else <[k := encode Amount_codec x]> m.

(** The (address, denomination) a balance key stands for. *)
Definition balance_key_parts k : option (bytes * bytes) :=
  match k with
  | [] => None
  | b :: r =>
      if bool_decide (b = byte_of (Namespace_byte NsBalance)) then
        match decode bytes_codec r with
        | Ok (a, r) => match decode_exact bytes_codec r with Ok d => Some (a, d) | Err _ => None end
        | Err _ => None
        end
      else None
  end.

(** What one store entry contributes to the circulation of [d]. *)
Definition holding (d : Denom) k (v : bytes) : Z :=
  match balance_key_parts k with
  | Some (_, d') =>
      if bool_decide (d' = d)
      then match decode_exact Amount_codec v with Ok x => x | Err _ => 0 end
      else 0
  | None => 0
  end.

(** The sum of every account's balance of [d]. *)
Definition circulating_in (m : gmap bytes bytes) (d : Denom) : Z := map_sum (holding d) m.

Lemma decode_amount_bounds b x : decode_exact Amount_codec b = Ok x → amount_ok x.
Proof. intros [Hx _]%decode_exact_sound; [by apply amount_ok_wf|apply _]. Qed.

Lemma amount_at_ok m k : amount_ok (amount_at m k).
Proof.
  assert (amount_ok 0) by done. unfold amount_at. destruct (m !! k) as [b|]; [|done].
  destruct (decode_exact Amount_codec b) eqn:E; [|done]. by eapply decode_amount_bounds.
Qed.

Lemma holding_nonneg d k v : 0 ≤ holding d k v.
Proof.
  unfold holding. destruct (balance_key_parts k) as [[a d']|]; [|done]. case_bool_decide; [|done].
  destruct (decode_exact Amount_codec v) eqn:E; [|done]. by apply decode_amount_bounds in E as [? _].
Qed.

Lemma balance_key_parts_key a d :
  address_ok a → denom_ok d → balance_key_parts (key_balance a d) = Some (a, d).
Proof.
  intros Ha%address_ok_part Hd%denom_ok_part. unfold key_balance, StoreKey_new, balance_key_parts.
  rewrite bool_decide_eq_true_2 by done. cbn [encode_items].
  rewrite decode_encode by done. rewrite app_nil_r. by rewrite (decode_exact_encode bytes_codec).
Qed.

Lemma balance_key_parts_other ns parts :
  ns ≠ NsBalance → balance_key_parts (StoreKey_new ns parts) = None.
Proof.
  intros Hne. unfold StoreKey_new, balance_key_parts. rewrite bool_decide_eq_false_2; [done|].
  intros E. by apply Namespace_byte_of_inj in E.
Qed.

Lemma key_balance_inj a d a' d' :
  address_ok a → denom_ok d → address_ok a' → denom_ok d' →
  key_balance a d = key_balance a' d' ↔ a = a' ∧ d = d'.
Proof.
  intros Ha Hd Ha' Hd'. split; [|by intros [-> ->]]. intros E.
  pose proof (balance_key_parts_key _ _ Ha Hd) as E1. rewrite E, balance_key_parts_key in E1; naive_solver.
Qed.

Lemma key_supply_inj d d' : denom_ok d → denom_ok d' → key_supply d = key_supply d' ↔ d = d'.
Proof.
  intros Hd%denom_ok_part Hd'%denom_ok_part. split; [|by intros ->].
  intros [_ E]%StoreKey_new_inj; [congruence|by repeat constructor..].
Qed.

Lemma key_issuer_inj d d' : denom_ok d → denom_ok d' → key_issuer d = key_issuer d' ↔ d = d'.
Proof.
  intros Hd%denom_ok_part Hd'%denom_ok_part. split; [|by intros ->].
  intros [_ E]%StoreKey_new_inj; [congruence|by repeat constructor..].
Qed.

Lemma key_frozen_inj d a d' a' :
  address_ok a → denom_ok d → address_ok a' → denom_ok d' →
  key_frozen d a = key_frozen d' a' ↔ a = a' ∧ d = d'.
Proof.
  intros Ha%address_ok_part Hd%denom_ok_part Ha'%address_ok_part Hd'%denom_ok_part.
  split; [|by intros [-> ->]]. intros [_ E]%StoreKey_new_inj; [naive_solver|by repeat constructor..].
Qed.

(** Keys of different modules differ. *)

Lemma lookup_put_amount k x m k' :
  put_amount k x m !! k'
  = if decide (k' = k) then (if Amount_is_zero x then None else Some (encode Amount_codec x))
    else m !! k'.
Proof.
  unfold put_amount. case_decide as E.
  - subst. destruct (Amount_is_zero x); [apply lookup_delete_eq|apply lookup_insert_eq].
  - destruct (Amount_is_zero x); [by apply lookup_delete_ne|by apply lookup_insert_ne].
Qed.

Lemma amount_at_put k x m k' :
  amount_ok x → amount_at (put_amount k x m) k' = if decide (k' = k) then x else amount_at m k'.
Proof.
  intros Hx%amount_ok_wf. unfold amount_at. rewrite lookup_put_amount. case_decide; [|done].
  unfold Amount_is_zero. destruct (Z.eqb_spec x 0); [done|]. by rewrite (decode_exact_encode Amount_codec).
Qed.

Lemma entry_weight_balance m a d d' :
  address_ok a → denom_ok d' →
  entry_weight (holding d) m (key_balance a d')
  = if decide (d' = d) then amount_at m (key_balance a d') else 0.
Proof.
  intros Ha Hd. unfold entry_weight, amount_at. destruct (m !! _) as [b|]; simpl; [|by case_decide].
  unfold holding. rewrite balance_key_parts_key by done.
  case_decide; [by rewrite bool_decide_eq_true_2|by rewrite bool_decide_eq_false_2].
Qed.

Lemma circulating_put_balance m a d x d' :
  address_ok a → denom_ok d → amount_ok x →
  circulating_in (put_amount (key_balance a d) x m) d'
  = circulating_in m d' + if decide (d = d') then x - amount_at m (key_balance a d) else 0.
Proof.
  intros Ha Hd Hx%amount_ok_wf. unfold circulating_in, put_amount.
  pose proof (entry_weight_balance m a d' d Ha Hd) as Hw.
  unfold Amount_is_zero. destruct (Z.eqb_spec x 0).
  - rewrite map_sum_delete, Hw. case_decide; lia.
  - rewrite map_sum_insert, Hw. unfold holding at 2. rewrite balance_key_parts_key, (decode_exact_encode Amount_codec) by done.
    case_decide; [rewrite bool_decide_eq_true_2 by done|rewrite bool_decide_eq_false_2 by done]; lia.
Qed.

Lemma entry_weight_other m ns parts d :
  ns ≠ NsBalance → entry_weight (holding d) m (StoreKey_new ns parts) = 0.
Proof.
  intros Hne. unfold entry_weight. destruct (m !! _); [|done]. simpl.
  unfold holding. by rewrite balance_key_parts_other.
Qed.

Lemma circulating_insert_other m ns parts v d :
  ns ≠ NsBalance → circulating_in (<[StoreKey_new ns parts := v]> m) d = circulating_in m d.
Proof.
  intros Hne. unfold circulating_in. rewrite map_sum_insert, entry_weight_other by done.
  unfold holding at 2. rewrite balance_key_parts_other by done. lia.
Qed.

Lemma circulating_delete_other m ns parts d :
  ns ≠ NsBalance → circulating_in (delete (StoreKey_new ns parts) m) d = circulating_in m d.
Proof. intros Hne. unfold circulating_in. rewrite map_sum_delete, entry_weight_other by done. lia. Qed.

Lemma circulating_put_other m ns parts x d :
  ns ≠ NsBalance → circulating_in (put_amount (StoreKey_new ns parts) x m) d = circulating_in m d.
Proof.
  intros Hne. unfold put_amount. destruct (Amount_is_zero x);
    [by apply circulating_delete_other|by apply circulating_insert_other].
Qed.

(** * What a call does to the ledger *)

(** Balance and supply movements a successful call makes. *)
Definition balance_delta (c : bank_call) (a : Address) (d : Denom) : Z :=
  match c with
  | Transfer from to d' x =>
      if decide (d' = d) then (if decide (a = to) then x else 0) - (if decide (a = from) then x else 0)
      else 0
  | Mint _ to d' x | GenesisAllocate to d' x => if decide (to = a ∧ d' = d) then x else 0
  | Burn m d' x => if decide (m = a ∧ d' = d) then - x else 0
  | EmitNative to x => if decide (to = a ∧ Denom_native = d) then x else 0
  | SlashNative from x => if decide (from = a ∧ Denom_native = d) then - x else 0
  | _ => 0
  end.

Definition supply_delta (c : bank_call) (d : Denom) : Z :=
  match c with
  | Mint _ _ d' x | GenesisAllocate _ d' x => if decide (d' = d) then x else 0
  | Burn _ d' x => if decide (d' = d) then - x else 0
  | EmitNative _ x => if decide (Denom_native = d) then x else 0
  | SlashNative _ x => if decide (Denom_native = d) then - x else 0
  | _ => 0
  end.

(** [m'] is [m] with every balance moved by [db] and every supply by [ds], and the
    circulation of every denomination moved with its supply. *)
Definition ledger_change m (db : Address → Denom → Z) (ds : Denom → Z) m' : Prop :=
  ∀ a d, address_ok a → denom_ok d →
    amount_at m' (key_balance a d) = amount_at m (key_balance a d) + db a d
    ∧ amount_at m' (key_supply d) = amount_at m (key_supply d) + ds d
    ∧ circulating_in m' d = circulating_in m d + ds d.

Definition no_move (a : Address) (d : Denom) : Z := 0.
Definition no_supply (d : Denom) : Z := 0.

Lemma ledger_change_refl m : ledger_change m no_move no_supply m.
Proof. intros a d _ _. unfold no_move, no_supply. lia. Qed.

Lemma amount_at_insert_ne m k v k' : k ≠ k' → amount_at (<[k:=v]> m) k' = amount_at m k'.
Proof. intros Hne. unfold amount_at. by rewrite lookup_insert_ne. Qed.
Lemma amount_at_delete_ne m k k' : k ≠ k' → amount_at (delete k m) k' = amount_at m k'.
Proof. intros Hne. unfold amount_at. by rewrite lookup_delete_ne. Qed.

(** Writing outside the bank's two ledgers moves nothing. *)
Lemma ledger_change_insert m db ds m' ns parts v :
  ns ≠ NsBalance → ns ≠ NsSupply →
  ledger_change m db ds m' → ledger_change m db ds (<[StoreKey_new ns parts := v]> m').
Proof.
  intros Hb Hs Hm a d Ha Hd. specialize (Hm a d Ha Hd).
  rewrite !amount_at_insert_ne, circulating_insert_other by (done || ns_ne). done.
Qed.

Lemma ledger_change_delete m db ds m' ns parts :
  ns ≠ NsBalance → ns ≠ NsSupply →
  ledger_change m db ds m' → ledger_change m db ds (delete (StoreKey_new ns parts) m').
Proof.
  intros Hb Hs Hm a d Ha Hd. specialize (Hm a d Ha Hd).
  rewrite !amount_at_delete_ne, circulating_delete_other by (done || ns_ne). done.
Qed.

(** Crediting (or, with [x < 0], debiting) one account together with the supply. *)
Lemma ledger_change_supply m to d x :
  address_ok to → denom_ok d →
  amount_ok (amount_at m (key_balance to d) + x) → amount_ok (amount_at m (key_supply d) + x) →
  ledger_change m (λ a d', if decide (to = a ∧ d = d') then x else 0)
    (λ d', if decide (d = d') then x else 0)
    (put_amount (key_supply d) (amount_at m (key_supply d) + x)
       (put_amount (key_balance to d) (amount_at m (key_balance to d) + x) m)).
Proof.
  intros Hto Hd Hb Hs a d' Ha Hd'.
  rewrite !amount_at_put by done. rewrite (circulating_put_other _ NsSupply [d]) by done.
  rewrite circulating_put_balance by done. split_and!.
  - rewrite decide_False by ns_ne.
    destruct (decide (to = a ∧ d = d')) as [[-> ->]|Hne]; [by rewrite decide_True|].
    rewrite decide_False; [lia|]. rewrite key_balance_inj by done. naive_solver.
  - destruct (decide (d = d')) as [->|Hne]; [by rewrite decide_True|].
    rewrite decide_False by (rewrite key_supply_inj; naive_solver).
    rewrite decide_False by ns_ne. lia.
  - case_decide; lia.
Qed.

Lemma ledger_change_transfer m from to d x :
  address_ok from → address_ok to → denom_ok d → from ≠ to →
  amount_ok (amount_at m (key_balance from d) - x) → amount_ok (amount_at m (key_balance to d) + x) →
  ledger_change m
    (λ a d', if decide (d = d') then (if decide (a = to) then x else 0) - (if decide (a = from) then x else 0) else 0)
    no_supply
    (put_amount (key_balance to d) (amount_at m (key_balance to d) + x)
       (put_amount (key_balance from d) (amount_at m (key_balance from d) - x) m)).
Proof.
  intros Hf Ht Hd Hne Hbf Hbt a d' Ha Hd'. unfold no_supply.
  rewrite !amount_at_put by done. rewrite !circulating_put_balance by done.
  rewrite amount_at_put by done.
  rewrite (decide_False (P := key_supply _ = _)) by ns_ne.
  rewrite (decide_False (P := key_supply _ = _)) by ns_ne.
  rewrite (decide_False (P := key_balance to d = key_balance from d)) by (rewrite key_balance_inj; naive_solver).
  split_and!; [|lia|case_decide; lia].
  destruct (decide (d = d')) as [<-|Hdd].
  - destruct (decide (a = to)) as [->|Hat].
    + rewrite decide_True by done. rewrite decide_False by done. lia.
    + rewrite decide_False by (rewrite key_balance_inj; naive_solver).
      destruct (decide (a = from)) as [->|Haf]; [rewrite decide_True by done; lia|].
      rewrite decide_False by (rewrite key_balance_inj; naive_solver). lia.
  - rewrite !decide_False by (rewrite key_balance_inj; naive_solver). lia.
Qed.

(** * Each method, inverted

    What a successful call read, checked and wrote. *)

Section bank_proofs.
Context `{KVMap St}.
Implicit Types (s : St).

Abbreviation ledger_balance s a d := (amount_at (kv_map s) (key_balance a d)).
Abbreviation ledger_supply s d := (amount_at (kv_map s) (key_supply d)).
Definition circulating s (d : Denom) : Z := circulating_in (kv_map s) d.

Lemma kv_write_amount k x s : kv_map (write_amount k x s) = put_amount k x (kv_map s).
Proof. unfold write_amount, put_amount, set_encoded. by destruct (Amount_is_zero x); autorewrite with kv. Qed.

Lemma kv_set_encoded {A} (c : codec A) s k v : kv_map (set_encoded c s k v) = <[k := encode c v]> (kv_map s).
Proof. apply kv_set_map. Qed.

Lemma read_amount_Ok s k x :
  (o ← map_err StateErr (get_decoded Amount_codec s k); Ok (default 0 o)) = Ok x →
  x = amount_at (kv_map s) k.
Proof.
  unfold get_decoded, amount_at. rewrite kv_get_map. destruct (kv_map s !! k) as [b|]; [|by intros [= <-]].
  destruct (decode_exact Amount_codec b); by intros [= <-].
Qed.

Lemma view_balance_Ok s a d x : view_balance s a d = Ok x → x = ledger_balance s a d.
Proof. apply read_amount_Ok. Qed.
Lemma view_total_supply_Ok s d x : view_total_supply s d = Ok x → x = ledger_supply s d.
Proof. apply read_amount_Ok. Qed.

Lemma view_issuer_Some s d i :
  view_issuer s d = Ok (Some i) ↔ issuer_ok i ∧ kv_map s !! key_issuer d = Some (encode Issuer_codec i).
Proof.
  unfold view_issuer. rewrite <- (get_decoded_Some Issuer_codec).
  destruct (get_decoded Issuer_codec s (key_issuer d)); simpl; split; congruence.
Qed.

Lemma require_issuer_Ok d s i s' :
  require_issuer d s = (Ok i, s') → s' = s ∧ view_issuer s d = Ok (Some i) ∧ d ≠ Denom_native.
Proof.
  unfold require_issuer, issuer. intros Hr. inv_M.
  unfold Denom_is_native in *. bool_simpl. done.
Qed.

Lemma require_authority_Ok au d s i s' :
  require_authority au d s = (Ok i, s') →
  s' = s ∧ view_issuer s d = Ok (Some i) ∧ d ≠ Denom_native ∧ authority i = au.
Proof.
  unfold require_authority. intros Hr. inv_M.
  match goal with Hi : require_issuer _ _ = _ |- _ => apply require_issuer_Ok in Hi as (-> & ? & ?) end.
  unfold is_authority in *. bool_simpl. done.
Qed.
End bank_proofs.

(** Turn the pieces [inv_M] leaves behind into facts about the ledger. *)
Ltac bank_facts :=
  repeat match goal with
  | Hi : require_issuer _ _ = (Ok _, _) |- _ => apply require_issuer_Ok in Hi as (-> & ? & ?)
  | Hi : require_authority _ _ _ = (Ok _, _) |- _ => apply require_authority_Ok in Hi as (-> & ? & ? & ?)
  | Hi : view_balance _ _ _ = Ok _ |- _ => apply view_balance_Ok in Hi
  | Hi : view_total_supply _ _ = Ok _ |- _ => apply view_total_supply_Ok in Hi
  | Hi : Amount_checked_add _ _ = Ok _ |- _ => apply Amount_checked_add_Ok in Hi as [? ?]
  | Hi : Amount_checked_sub _ _ = Ok _ |- _ => apply Amount_checked_sub_Ok in Hi as [? ?]
  | Hi : Amount_is_zero _ = false |- _ => unfold Amount_is_zero in Hi
  end; subst; bool_simpl.
Ltac inv_bank :=
  inv_M; bank_facts;
  repeat match goal with
  | Hm : context [kv_map (write_amount _ _ _)] |- _ => rewrite kv_write_amount in Hm
  | Hm : context [kv_map (set_encoded _ _ _ _)] |- _ => rewrite kv_set_encoded in Hm
  end.

Section methods.
Context `{KVMap St}.
Implicit Types (s : St).
Abbreviation ledger_balance s a d := (amount_at (kv_map s) (key_balance a d)).
Abbreviation ledger_supply s d := (amount_at (kv_map s) (key_supply d)).

Lemma transfer_Ok from to d x s u s' :
  transfer from to d x s = (Ok u, s') →
  x ≠ 0 ∧ is_frozen s from d = false ∧ is_frozen s to d = false ∧ x ≤ ledger_balance s from d
  ∧ (from = to → s' = s)
  ∧ (from ≠ to → ledger_balance s to d + x ≤ u128_max
      ∧ kv_map s' = put_amount (key_balance to d) (ledger_balance s to d + x)
                      (put_amount (key_balance from d) (ledger_balance s from d - x) (kv_map s))).
Proof.
  unfold transfer, frozen, balance, write_balance. intros Hr. inv_M. bool_simpl.
  case_bool_decide as E; inv_bank; [by split_and!|].
  split_and!; try done. by rewrite !kv_write_amount.
Qed.

Lemma credit_Ok tag to d x s u s' :
  credit tag to d x s = (Ok u, s') →
  x ≠ 0 ∧ ledger_supply s d + x ≤ u128_max ∧ ledger_balance s to d + x ≤ u128_max
  ∧ kv_map s' = put_amount (key_supply d) (ledger_supply s d + x)
                  (put_amount (key_balance to d) (ledger_balance s to d + x) (kv_map s)).
Proof.
  unfold credit, balance, total_supply, write_balance, write_supply. intros Hr. inv_bank.
  rewrite !kv_write_amount. done.
Qed.

Lemma mint_Ok mt to d x s u s' :
  mint mt to d x s = (Ok u, s') →
  ∃ i i', view_issuer s d = Ok (Some i) ∧ d ≠ Denom_native ∧ x ≠ 0 ∧ paused i = false
  ∧ is_frozen s to d = false
  ∧ spend_allowance i mt x = (true, i')
  ∧ (∀ cap, max_supply i = Some cap → ledger_supply s d + x ≤ cap)
  ∧ ledger_supply s d + x ≤ u128_max ∧ ledger_balance s to d + x ≤ u128_max
  ∧ kv_map s' = <[key_issuer d := encode Issuer_codec i']>
                  (put_amount (key_supply d) (ledger_supply s d + x)
                    (put_amount (key_balance to d) (ledger_balance s to d + x) (kv_map s))).
Proof.
  unfold mint, frozen, balance, total_supply, write_balance, write_supply, write_issuer. intros Hr. inv_bank.
  match goal with Hs : context [spend_allowance ?i mt x] |- _ =>
    destruct (spend_allowance i mt x) as [[] i'] eqn:Hsp; exists i, i' end; inv_bank.
  split_and!; try done.
  - intros cap E. rewrite E in *. bool_simpl. lia.
  - by rewrite kv_set_encoded, !kv_write_amount.
Qed.

Lemma burn_Ok mt d x s u s' :
  burn mt d x s = (Ok u, s') →
  ∃ i, view_issuer s d = Ok (Some i) ∧ d ≠ Denom_native ∧ x ≠ 0 ∧ is_Some (minter i mt)
  ∧ is_frozen s mt d = false ∧ x ≤ ledger_balance s mt d ∧ x ≤ ledger_supply s d
  ∧ kv_map s' = put_amount (key_supply d) (ledger_supply s d - x)
                  (put_amount (key_balance mt d) (ledger_balance s mt d - x) (kv_map s)).
Proof.
  unfold burn, frozen, balance, total_supply, write_balance, write_supply. intros Hr. inv_bank.
  eexists. split_and!; try done. by rewrite !kv_write_amount.
Qed.

Lemma slash_native_Ok from x s u s' :
  slash_native from x s = (Ok u, s') →
  x ≠ 0 ∧ x ≤ ledger_balance s from Denom_native ∧ x ≤ ledger_supply s Denom_native
  ∧ kv_map s' = put_amount (key_supply Denom_native) (ledger_supply s Denom_native - x)
                  (put_amount (key_balance from Denom_native) (ledger_balance s from Denom_native - x) (kv_map s)).
Proof.
  unfold slash_native, balance, total_supply, write_balance, write_supply. intros Hr. inv_bank.
  rewrite !kv_write_amount. done.
Qed.

(** The issuer record a configuration call writes, from the one it read. *)
Definition reconfigured (c : bank_call) (i i' : Issuer) : Prop :=
  match c with
  | SetMinterAllowance au _ mt x => authority i = au ∧ set_minter i mt x = Ok i'
  | TransferIssuerAuthority au _ to => authority i = au ∧ offer_authority i to = Ok i'
  | AcceptIssuerAuthority caller _ => accept_authority i caller = Ok i'
  | SetFreezer au _ f => authority i = au ∧ i' = set_freezer_field i f
  | SetPaused au _ p => authority i = au ∧ i' = set_paused_field i p
  | TightenSupplyCap au _ cap => authority i = au ∧ tighten_cap i cap = Ok i'
  | _ => False
  end.

(** The denomination a configuration call is about. *)
Definition config_denom (c : bank_call) : option Denom :=
  match c with
  | SetMinterAllowance _ d _ _ | TransferIssuerAuthority _ d _ | AcceptIssuerAuthority _ d
  | SetFreezer _ d _ | SetPaused _ d _ | TightenSupplyCap _ d _ => Some d
  | _ => None
  end.

Lemma config_Ok c d s u s' :
  config_denom c = Some d → bank_exec c s = (Ok u, s') →
  ∃ i i', view_issuer s d = Ok (Some i) ∧ d ≠ Denom_native ∧ reconfigured c i i'
  ∧ s' = set_encoded Issuer_codec s (key_issuer d) i'.
Proof.
  intros E. destruct c; simpl in E; simplify_eq; simpl;
    unfold set_minter_allowance, transfer_issuer_authority, accept_issuer_authority, set_freezer,
      set_paused, tighten_supply_cap, write_issuer; intros Hr; inv_bank; by eauto 10.
Qed.

Lemma register_issuer_Ok d i s u s' :
  register_issuer d i s = (Ok u, s') → d ≠ Denom_native ∧ s' = set_encoded Issuer_codec s (key_issuer d) i.
Proof.
  unfold register_issuer, write_issuer. intros Hr. inv_M. unfold Denom_is_native in *. by bool_simpl.
Qed.

Lemma admit_issuer_Ok d au s u s' :
  admit_issuer d au s = (Ok u, s') →
  view_issuer s d = Ok None ∧ d ≠ Denom_native
  ∧ s' = set_encoded Issuer_codec s (key_issuer d) (Issuer_new au).
Proof.
  unfold admit_issuer, issuer. intros Hr. inv_M. bool_simpl.
  match goal with Hr : register_issuer _ _ _ = _ |- _ => apply register_issuer_Ok in Hr as [? ->] end.
  match goal with Hn : ¬ is_Some ?o |- _ => destruct o; [naive_solver|done] end.
Qed.

Lemma freeze_Ok c a d s u s' :
  freeze c a d s = (Ok u, s') →
  ∃ i, view_issuer s d = Ok (Some i) ∧ d ≠ Denom_native ∧ may_freeze i c = true
  ∧ s' = set_encoded u8_codec s (key_frozen d a) 1.
Proof. unfold freeze. intros Hr. inv_bank. by eauto. Qed.

Lemma unfreeze_Ok c a d s u s' :
  unfreeze c a d s = (Ok u, s') →
  ∃ i, view_issuer s d = Ok (Some i) ∧ d ≠ Denom_native ∧ may_freeze i c = true
  ∧ s' = (kv_delete s (key_frozen d a)).1.
Proof. unfold unfreeze. intros Hr. inv_bank. by eauto. Qed.

(** * Refinement of the ledger *)

Lemma ledger_change_ext m db ds db' ds' m' :
  (∀ a d, db a d = db' a d) → (∀ d, ds d = ds' d) → ledger_change m db ds m' → ledger_change m db' ds' m'.
Proof. intros Hb Hs Hm a d Ha Hd. rewrite <- Hb, <- Hs. by apply Hm. Qed.

Lemma native_ok : denom_ok Denom_native.
Proof. by vm_compute. Qed.

Lemma ledger_change_supply_sub m from d x :
  address_ok from → denom_ok d → 0 ≤ x →
  x ≤ amount_at m (key_balance from d) → x ≤ amount_at m (key_supply d) →
  ledger_change m (λ a d', if decide (from = a ∧ d = d') then - x else 0)
    (λ d', if decide (d = d') then - x else 0)
    (put_amount (key_supply d) (amount_at m (key_supply d) - x)
       (put_amount (key_balance from d) (amount_at m (key_balance from d) - x) m)).
Proof.
  intros Hf Hd Hx Hb Hs. rewrite <- !Z.add_opp_r.
  pose proof (amount_at_ok m (key_balance from d)) as [_ ?].
  pose proof (amount_at_ok m (key_supply d)) as [_ ?].
  apply ledger_change_supply; try done; split; lia.
Qed.

Lemma ledger_change_supply_add m to d x :
  address_ok to → denom_ok d → 0 ≤ x →
  amount_at m (key_balance to d) + x ≤ u128_max → amount_at m (key_supply d) + x ≤ u128_max →
  ledger_change m (λ a d', if decide (to = a ∧ d = d') then x else 0)
    (λ d', if decide (d = d') then x else 0)
    (put_amount (key_supply d) (amount_at m (key_supply d) + x)
       (put_amount (key_balance to d) (amount_at m (key_balance to d) + x) m)).
Proof.
  intros Hf Hd Hx Hb Hs.
  pose proof (amount_at_ok m (key_balance to d)) as [? _].
  pose proof (amount_at_ok m (key_supply d)) as [? _].
  apply ledger_change_supply; try done; split; lia.
Qed.

Lemma transfer_ledger from to d x s u s' :
  call_ok (Transfer from to d x) → transfer from to d x s = (Ok u, s') →
  ledger_change (kv_map s) (balance_delta (Transfer from to d x)) no_supply (kv_map s').
Proof.
  intros (Hf & Ht & Hd & Hx) Hr. apply transfer_Ok in Hr as (Hz & _ & _ & Hle & Heq & Hne).
  destruct (decide (from = to)) as [->|Hft].
  - rewrite Heq by done. eapply ledger_change_ext; [| |apply ledger_change_refl]; [|done].
    intros a d'. simpl. unfold no_move. repeat case_decide; done || lia.
  - destruct (Hne Hft) as [Hmax ->].
    pose proof (amount_at_ok (kv_map s) (key_balance from d)).
    pose proof (amount_at_ok (kv_map s) (key_balance to d)). unfold amount_ok in *.
    apply ledger_change_transfer; try done; unfold amount_ok; lia.
Qed.

Lemma bank_exec_ledger c s u s' :
  call_ok c → bank_exec c s = (Ok u, s') →
  ledger_change (kv_map s) (balance_delta c) (supply_delta c) (kv_map s').
Proof.
  intros Hc Hr. destruct (config_denom c) as [d|] eqn:E.
  { destruct (config_Ok _ _ _ _ _ E Hr) as (i & i' & _ & _ & _ & ->). rewrite kv_set_encoded.
    apply ledger_change_insert; [done..|].
    destruct c; simpl in E; simplify_eq; apply ledger_change_refl. }
  destruct c; simpl in E; simplify_eq; simpl in Hr.
  - by eapply transfer_ledger.
  - destruct Hc as (? & ? & ? & [? ?]).
    apply mint_Ok in Hr as (i & i' & _ & _ & _ & _ & _ & _ & _ & ? & ? & ->).
    apply ledger_change_insert; [done..|]. by apply ledger_change_supply_add.
  - destruct Hc as (? & ? & [? ?]). apply burn_Ok in Hr as (i & _ & _ & _ & _ & _ & ? & ? & ->).
    by apply ledger_change_supply_sub.
  - destruct Hc as (? & [? ?]). apply credit_Ok in Hr as (_ & ? & ? & ->).
    by apply ledger_change_supply_add.
  - destruct Hc as (? & [? ?]). apply slash_native_Ok in Hr as (_ & ? & ? & ->).
    by apply ledger_change_supply_sub.
  - destruct Hc as (? & ? & [? ?]). apply credit_Ok in Hr as (_ & ? & ? & ->).
    by apply ledger_change_supply_add.
  - apply register_issuer_Ok in Hr as [_ ->]. rewrite kv_set_encoded.
    apply ledger_change_insert; [done..|]. apply ledger_change_refl.
  - apply admit_issuer_Ok in Hr as (_ & _ & ->). rewrite kv_set_encoded.
    apply ledger_change_insert; [done..|]. apply ledger_change_refl.
  - apply freeze_Ok in Hr as (i & _ & _ & _ & ->). rewrite kv_set_encoded.
    apply ledger_change_insert; [done..|]. apply ledger_change_refl.
  - apply unfreeze_Ok in Hr as (i & _ & _ & _ & ->). rewrite kv_delete_map.
    apply ledger_change_delete; [done..|]. apply ledger_change_refl.
Qed.

(** A failed call wrote nothing. *)
Lemma bank_exec_atomic c s e s' : bank_exec c s = (Err e, s') → s' = s.
Proof.
  destruct c; simpl;
    unfold transfer, mint, burn, set_minter_allowance, transfer_issuer_authority, accept_issuer_authority,
      set_freezer, set_paused, tighten_supply_cap, emit_native, slash_native, genesis_allocate, credit,
      admit_issuer, register_issuer, freeze, unfreeze, require_authority, require_issuer,
      balance, total_supply, frozen, issuer, write_balance, write_supply, write_issuer; intros Hr.
  all: inv_M; try done.
  all: repeat case_match; inv_M; done.
Qed.

(** * The bank invariant *)

Lemma readable_put m k x k' :
  amount_ok x → readable Amount_codec m k' → readable Amount_codec (put_amount k x m) k'.
Proof.
  intros Hx%amount_ok_wf Hk. unfold put_amount. destruct (Amount_is_zero x).
  - intros b [_ Hb]%lookup_delete_Some. by apply Hk.
  - by apply readable_insert; [apply _|..].
Qed.

(** Every stored balance, supply and issuer record decodes. *)
Record bank_readable m : Prop := {
  readable_balance a d : address_ok a → denom_ok d → readable Amount_codec m (key_balance a d);
  readable_supply d : denom_ok d → readable Amount_codec m (key_supply d);
  readable_issuer d : denom_ok d → readable Issuer_codec m (key_issuer d);
}.

(** Moreover, for every denomination the recorded supply is the sum of all balances. *)
Definition bank_ok (s : St) : Prop :=
  bank_readable (kv_map s) ∧ ∀ d, denom_ok d → circulating s d = ledger_supply s d.

Lemma bank_ok_empty s : kv_map s = ∅ → bank_ok s.
Proof.
  intros E. split.
  - rewrite E. split; by intros.
  - intros d _. unfold circulating. rewrite E. unfold circulating_in. by rewrite map_sum_empty.
Qed.

Lemma bank_readable_put m ns parts x :
  ns ≠ NsIssuer → amount_ok x → bank_readable m → bank_readable (put_amount (StoreKey_new ns parts) x m).
Proof.
  intros Hns Hx [Hb Hs Hi]. split.
  - intros a d Ha Hd. by apply readable_put, Hb.
  - intros d Hd. by apply readable_put, Hs.
  - intros d Hd. apply (readable_ext _ m); [|by apply Hi].
    rewrite lookup_put_amount, decide_False; [done|ns_ne].
Qed.

Lemma bank_readable_issuer m d i :
  issuer_ok i → bank_readable m → bank_readable (<[key_issuer d := encode Issuer_codec i]> m).
Proof.
  intros Hok [Hb Hs Hi]. split.
  - intros a d' Ha Hd'. apply (readable_ext _ m); [|by apply Hb]. rewrite lookup_insert_ne; [done|ns_ne].
  - intros d' Hd'. apply (readable_ext _ m); [|by apply Hs]. rewrite lookup_insert_ne; [done|ns_ne].
  - intros d' Hd'. apply readable_insert; [apply _|done|by apply Hi].
Qed.

(** Records outside the bank's namespaces are not the bank's concern. *)
Lemma bank_readable_frame m m' :
  (∀ ns parts, ns ∈ [NsBalance; NsSupply; NsIssuer] →
     m' !! StoreKey_new ns parts = m !! StoreKey_new ns parts) →
  bank_readable m → bank_readable m'.
Proof.
  intros E [Hb Hs Hi].
  split; intros; apply (readable_ext _ m); [apply E; set_solver|by auto|apply E; set_solver|by auto
                                          |apply E; set_solver|by auto].
Qed.

Lemma reconfigured_ok c i i' : call_ok c → issuer_ok i → reconfigured c i i' → issuer_ok i'.
Proof.
  intros Hc Hi Hr. destruct c; simpl in Hr; try done.
  - destruct Hc as (_ & _ & ? & ?%amount_ok_wf), Hr as [_ Hr]. by apply set_minter_spec in Hr as [? _].
  - destruct Hc as (_ & _ & Hto), Hr as [_ Hr].
    apply offer_authority_spec in Hr as [? _]; [done..|]. by destruct to.
  - by apply accept_authority_spec in Hr as (_ & _ & _ & ? & _).
  - destruct Hc as (_ & _ & Hf), Hr as [_ ->]. rewrite issuer_ok_iff in *. simpl.
    assert (wf (option_codec Address_codec) freezer) by by destruct freezer.
    destruct Hi as (?&?&?&?&?&?&?&?&?). by repeat (split; [done|]).
  - destruct Hr as [_ ->]. rewrite issuer_ok_iff in *. done.
  - destruct Hc as (_ & _ & ?), Hr as [_ Hr]. by apply tighten_cap_spec in Hr as [? _].
Qed.

Lemma Issuer_new_ok a : address_ok a → issuer_ok (Issuer_new a).
Proof.
  intros Ha. rewrite issuer_ok_iff. simpl. repeat (split; [by try constructor; try lia|]). constructor.
Qed.

Lemma amount_ok_add a x : amount_ok a → amount_ok x → a + x ≤ u128_max → amount_ok (a + x).
Proof. unfold amount_ok. lia. Qed.
Lemma amount_ok_sub a x : amount_ok a → amount_ok x → x ≤ a → amount_ok (a - x).
Proof. unfold amount_ok. lia. Qed.
Hint Resolve amount_ok_add amount_ok_sub amount_at_ok : core.

Lemma bank_exec_readable c s u s' :
  call_ok c → bank_exec c s = (Ok u, s') → bank_readable (kv_map s) → bank_readable (kv_map s').
Proof.
  intros Hc Hr Hok. destruct (config_denom c) as [d|] eqn:E.
  { destruct (config_Ok _ _ _ _ _ E Hr) as (i & i' & Hi & _ & Hrc & ->). rewrite kv_set_encoded.
    apply view_issuer_Some in Hi as [Hi _]. apply bank_readable_issuer; [|done].
    by eapply reconfigured_ok. }
  destruct c; simpl in E; simplify_eq; simpl in Hr; simpl in Hc.
  - apply transfer_Ok in Hr as (Hz & _ & _ & Hle & Heq & Hne).
    destruct (decide (from = to)) as [->|Hft]; [by rewrite Heq|]. destruct (Hne Hft) as [Hmax ->].
    destruct Hc as (_ & _ & _ & Hx). do 2 (apply bank_readable_put; auto).
  - destruct Hc as (_ & _ & _ & Hx).
    apply mint_Ok in Hr as (i & i' & Hi & _ & Hz & _ & _ & Hsp & _ & ? & ? & ->).
    apply view_issuer_Some in Hi as [Hi _]. apply bank_readable_issuer.
    { pose proof (spend_allowance_spec i minter amount Hi) as Hspec. rewrite Hsp in Hspec.
      unfold amount_ok in Hx. by apply Hspec; lia. }
    do 2 (apply bank_readable_put; auto).
  - destruct Hc as (_ & _ & Hx). apply burn_Ok in Hr as (i & _ & _ & _ & _ & _ & ? & ? & ->).
    do 2 (apply bank_readable_put; auto).
  - destruct Hc as (_ & Hx). apply credit_Ok in Hr as (_ & ? & ? & ->). do 2 (apply bank_readable_put; auto).
  - destruct Hc as (_ & Hx). apply slash_native_Ok in Hr as (_ & ? & ? & ->). do 2 (apply bank_readable_put; auto).
  - destruct Hc as (_ & _ & Hx). apply credit_Ok in Hr as (_ & ? & ? & ->). do 2 (apply bank_readable_put; auto).
  - apply register_issuer_Ok in Hr as [_ ->]. rewrite kv_set_encoded.
    destruct Hc as [_ Hi]. by apply bank_readable_issuer.
  - apply admit_issuer_Ok in Hr as (_ & _ & ->). rewrite kv_set_encoded.
    apply bank_readable_issuer; [|done]. destruct Hc as [_ ?]. by apply Issuer_new_ok.
  - apply freeze_Ok in Hr as (i & _ & _ & _ & ->). rewrite kv_set_encoded.
    eapply bank_readable_frame; [|done]. intros ns parts Hns. rewrite lookup_insert_ne; [done|].
    apply StoreKey_new_ns_ne. set_solver.
  - apply unfreeze_Ok in Hr as (i & _ & _ & _ & ->). rewrite kv_delete_map.
    eapply bank_readable_frame; [|done]. intros ns parts Hns. rewrite lookup_delete_ne; [done|].
    apply StoreKey_new_ns_ne. set_solver.
Qed.

Lemma bank_exec_ok c s r s' : call_ok c → bank_exec c s = (r, s') → bank_ok s → bank_ok s'.
Proof.
  intros Hc Hr Hok. destruct r as [u|e]; [|by apply bank_exec_atomic in Hr as ->].
  destruct Hok as [Hrd Hcs]. split; [by eapply bank_exec_readable|]. intros d Hd.
  destruct (bank_exec_ledger _ _ _ _ Hc Hr Address_ZERO d eq_refl Hd) as (_ & -> & E).
  specialize (Hcs d Hd). unfold circulating in *. lia.
Qed.

Lemma bank_run_ok cs s : Forall call_ok cs → bank_ok s → bank_ok (bank_run cs s).
Proof.
  intros Hcs. revert s. induction Hcs as [|c cs Hc Hcs IH]; intros s Hok; [done|].
  simpl. apply IH. destruct (bank_exec c s) as [r s1] eqn:E. by eapply bank_exec_ok.
Qed.

(** * Footprint *)

(** The namespaces a call may write. *)
Definition writes_ns (c : bank_call) (ns : Namespace) : bool :=
  existsb (λ n, bool_decide (n = ns)) match c with
  | Transfer _ _ _ _ => [NsBalance]
  | Mint _ _ _ _ => [NsBalance; NsSupply; NsIssuer]
  | Burn _ _ _ | EmitNative _ _ | SlashNative _ _ | GenesisAllocate _ _ _ => [NsBalance; NsSupply]
  | Freeze _ _ _ | Unfreeze _ _ _ => [NsFrozen]
  | _ => [NsIssuer]
  end.
Arguments writes_ns !_ !_ /.

Lemma lookup_put_ne k x m k' : k' ≠ k → put_amount k x m !! k' = m !! k'.
Proof. intros. by rewrite lookup_put_amount, decide_False. Qed.

Lemma bank_exec_footprint c s r s' ns parts :
  writes_ns c ns = false → bank_exec c s = (r, s') →
  kv_map s' !! StoreKey_new ns parts = kv_map s !! StoreKey_new ns parts.
Proof.
  intros Hns Hr. destruct r as [u|e]; [|by apply bank_exec_atomic in Hr as ->].
  destruct (config_denom c) as [d'|] eqn:E.
  { assert (ns ≠ NsIssuer) by (intros ->; by destruct c).
    destruct (config_Ok _ _ _ _ _ E Hr) as (i & i' & Hi & _ & _ & ->).
    rewrite kv_set_encoded, lookup_insert_ne; [done|ns_ne]. }
  destruct c; simpl in E; simplify_eq; simpl in Hr; unfold writes_ns in Hns; simpl in Hns; bool_simpl.
  - apply transfer_Ok in Hr as (Hz & _ & _ & Hle & Heq & Hne).
    destruct (decide (from = to)) as [->|Hft]; [by rewrite Heq|]. destruct (Hne Hft) as [_ Hm].
    rewrite Hm, !lookup_put_ne by ns_ne. done.
  - apply mint_Ok in Hr as (i & i' & _ & _ & _ & _ & _ & _ & _ & _ & _ & Hm).
    rewrite Hm, lookup_insert_ne by ns_ne. rewrite !lookup_put_ne by ns_ne. done.
  - apply burn_Ok in Hr as (i & _ & _ & _ & _ & _ & _ & _ & Hm). rewrite Hm, !lookup_put_ne by ns_ne. done.
  - apply credit_Ok in Hr as (_ & _ & _ & Hm). rewrite Hm, !lookup_put_ne by ns_ne. done.
  - apply slash_native_Ok in Hr as (_ & _ & _ & Hm). rewrite Hm, !lookup_put_ne by ns_ne. done.
  - apply credit_Ok in Hr as (_ & _ & _ & Hm). rewrite Hm, !lookup_put_ne by ns_ne. done.
  - apply register_issuer_Ok in Hr as [_ ->]. rewrite kv_set_encoded, lookup_insert_ne; [done|ns_ne].
  - apply admit_issuer_Ok in Hr as (_ & _ & ->). rewrite kv_set_encoded, lookup_insert_ne; [done|ns_ne].
  - apply freeze_Ok in Hr as (i & _ & _ & _ & ->). rewrite kv_set_encoded, lookup_insert_ne; [done|ns_ne].
  - apply unfreeze_Ok in Hr as (i & _ & _ & _ & ->). rewrite kv_delete_map, lookup_delete_ne; [done|ns_ne].
Qed.

(** * Issuer records *)

Lemma view_issuer_insert s d i d' :
  issuer_ok i → denom_ok d → denom_ok d' →
  view_issuer (set_encoded Issuer_codec s (key_issuer d) i) d'
  = if decide (d = d') then Ok (Some i) else view_issuer s d'.
Proof.
  intros Hi Hd Hd'. unfold view_issuer. case_decide as E.
  - subst. by rewrite (get_decoded_set_eq Issuer_codec).
  - f_equal. apply get_decoded_map_eq. rewrite kv_set_encoded, lookup_insert_ne; [done|].
    by rewrite key_issuer_inj.
Qed.

Lemma view_issuer_ext s s' d :
  kv_map s' !! key_issuer d = kv_map s !! key_issuer d → view_issuer s' d = view_issuer s d.
Proof. intros E. unfold view_issuer. f_equal. by apply get_decoded_map_eq. Qed.

(** How a successful call may change the issuer record of [d]. *)
Inductive issuer_step (c : bank_call) (d : Denom) (s s' : St) : Prop :=
| issuer_same :
    view_issuer s' d = view_issuer s d →
    (∀ mt to x, c = Mint mt to d x → False) →
    issuer_step c d s s'
| issuer_configured i i' :
    config_denom c = Some d → view_issuer s d = Ok (Some i) → reconfigured c i i' →
    view_issuer s' d = Ok (Some i') → issuer_step c d s s'
| issuer_spent mt to x i i' :
    c = Mint mt to d x → view_issuer s d = Ok (Some i) → spend_allowance i mt x = (true, i') →
    view_issuer s' d = Ok (Some i') → issuer_step c d s s'
| issuer_registered i :
    c = RegisterIssuer d i → view_issuer s' d = Ok (Some i) → issuer_step c d s s'
| issuer_admitted au :
    c = AdmitIssuer d au → view_issuer s d = Ok None → view_issuer s' d = Ok (Some (Issuer_new au)) →
    issuer_step c d s s'.

Lemma config_denom_ok c d : call_ok c → config_denom c = Some d → denom_ok d.
Proof. intros Hc E. destruct c; simpl in *; simplify_eq; naive_solver. Qed.

Lemma mint_issuer mt to d x d' s u s' :
  call_ok (Mint mt to d x) → denom_ok d' → mint mt to d x s = (Ok u, s') → issuer_step (Mint mt to d x) d' s s'.
Proof.
  intros (_ & _ & Hd & Hx) Hd' Hr.
  apply mint_Ok in Hr as (i & i' & Hi & _ & Hz & _ & _ & Hsp & _ & _ & _ & Hm).
  destruct (decide (d = d')) as [<-|Hne].
  - eapply issuer_spent; [done..|]. apply view_issuer_Some.
    rewrite Hm, lookup_insert_eq. split; [|done]. apply view_issuer_Some in Hi as [Hi _].
    pose proof (spend_allowance_spec i mt x Hi) as Hspec. rewrite Hsp in Hspec.
    unfold amount_ok in Hx. apply Hspec; lia.
  - apply issuer_same; [|naive_solver]. apply view_issuer_ext.
    rewrite Hm, lookup_insert_ne by (by rewrite key_issuer_inj).
    rewrite !lookup_put_ne by ns_ne. done.
Qed.

Lemma bank_exec_issuer c d s u s' :
  call_ok c → denom_ok d → bank_exec c s = (Ok u, s') → issuer_step c d s s'.
Proof.
  intros Hc Hd Hr. destruct (config_denom c) as [d'|] eqn:E.
  { destruct (config_Ok _ _ _ _ _ E Hr) as (i & i' & Hi & _ & Hrc & ->).
    pose proof (config_denom_ok _ _ Hc E) as Hd'.
    pose proof Hi as [Hok _]%view_issuer_Some.
    pose proof (reconfigured_ok _ _ _ Hc Hok Hrc) as Hok'.
    pose proof (view_issuer_insert s d' i' d Hok' Hd' Hd) as Hv. case_decide as Ed; subst.
    - by eapply issuer_configured.
    - apply issuer_same; [done|]. intros ? ? ? ->. done. }
  destruct (writes_ns c NsIssuer) eqn:Hw; cycle 1.
  { apply issuer_same; [|by intros ? ? ? ->]. apply view_issuer_ext.
    by apply (bank_exec_footprint c s (Ok u) s'). }
  destruct c; simpl in E; simplify_eq; simpl in Hr; simpl in Hc; try done.
  - by eapply mint_issuer.
  - apply register_issuer_Ok in Hr as [_ ->]. destruct Hc as [Hd' Hi].
    pose proof (view_issuer_insert s denom i d Hi Hd' Hd) as Hv. case_decide; subst;
      [by eapply issuer_registered|by apply issuer_same].
  - apply admit_issuer_Ok in Hr as (Hn & _ & ->). destruct Hc as [Hd' Ha].
    pose proof (view_issuer_insert s denom _ d (Issuer_new_ok _ Ha) Hd' Hd) as Hv. case_decide; subst;
      [by eapply issuer_admitted|by apply issuer_same].
Qed.

(** * Freezes *)

(** Which freeze a call sets or lifts. *)
Definition frozen_after (c : bank_call) (a : Address) (d : Denom) (was : bool) : bool :=
  match c with
  | Freeze _ a' d' => bool_decide (a' = a ∧ d' = d) || was
  | Unfreeze _ a' d' => negb (bool_decide (a' = a ∧ d' = d)) && was
  | _ => was
  end.

Lemma bank_exec_frozen c a d s u s' :
  call_ok c → address_ok a → denom_ok d → bank_exec c s = (Ok u, s') →
  is_frozen s' a d = frozen_after c a d (is_frozen s a d).
Proof.
  intros Hc Ha Hd Hr. destruct (writes_ns c NsFrozen) eqn:Hw; cycle 1.
  { transitivity (is_frozen s a d); [|by destruct c].
    unfold is_frozen. rewrite !kv_get_map. unfold key_frozen.
    by rewrite (bank_exec_footprint c s (Ok u) s'). }
  destruct c; try done; simpl in Hr, Hc; simpl frozen_after;
    destruct Hc as (_ & Ha' & Hd'); unfold is_frozen; rewrite !kv_get_map.
  - apply freeze_Ok in Hr as (i & _ & _ & _ & ->). rewrite kv_set_encoded.
    destruct (decide (address = a ∧ denom = d)) as [[-> ->]|E2].
    + by rewrite lookup_insert_eq, (bool_decide_eq_true_2 (a = a ∧ d = d)).
    + rewrite (bool_decide_eq_false_2 _ E2), lookup_insert_ne; [done|].
      rewrite key_frozen_inj by done. naive_solver.
  - apply unfreeze_Ok in Hr as (i & _ & _ & _ & ->). rewrite kv_delete_map.
    destruct (decide (address = a ∧ denom = d)) as [[-> ->]|E2].
    + by rewrite lookup_delete_eq, (bool_decide_eq_true_2 (a = a ∧ d = d)).
    + rewrite (bool_decide_eq_false_2 _ E2), lookup_delete_ne; [done|].
      rewrite key_frozen_inj by done. naive_solver.
Qed.
End methods.
