(* ===== verification/BankTheorems.v ===== *)
(** The bank's promises, stated over single calls and over arbitrary runs of calls
    ([crates/bank/src/lib.rs]), each with a concrete run that meets its hypotheses. *)

From S2P Require Import Prelude SortedVec Codec Primitives Crypto Store Records Issuer Bank BankProofs.

Abbreviation ledger_balance s a d := (amount_at (kv_map s) (key_balance a d)).
Abbreviation ledger_supply s d := (amount_at (kv_map s) (key_supply d)).

(** ** Sample accounts and denominations for the witnesses *)

Definition sample_address (n : Z) : Address := replicate 20 (byte_of n).
Definition kes : Denom := bs "sov/ke/kes".
Definition sample_calls : list bank_call :=
  [ RegisterIssuer kes (set_minters (Issuer_new (sample_address 100))
      [Minter_new (sample_address 101) 1000]);
    Mint (sample_address 101) (sample_address 1) kes 700;
    Transfer (sample_address 1) (sample_address 2) kes 200;
    Burn (sample_address 101) kes 50;
    GenesisAllocate (sample_address 1) Denom_native 12 ].
Definition sample_bank : gmap bytes bytes := bank_run sample_calls ∅.

Ltac sample_side :=
  solve [ done | by vm_compute | lia | split_and!; done | by repeat constructor ].

Section theorems.
Context `{KVMap St}.
Implicit Types (s : St).

Lemma view_readable s k :
  readable Amount_codec (kv_map s) k →
  (o ← map_err StateErr (get_decoded Amount_codec s k); Ok (default 0 o)) = Ok (amount_at (kv_map s) k).
Proof.
  unfold readable, get_decoded, amount_at. intros Hk. rewrite kv_get_map.
  destruct (kv_map s !! k) as [b|] eqn:E; [|done]. specialize (Hk b eq_refl).
  by destruct (decode_exact Amount_codec b).
Qed.

Lemma bank_ok_view_balance s a d :
  bank_ok s → address_ok a → denom_ok d → view_balance s a d = Ok (ledger_balance s a d).
Proof. intros [Hr _] Ha Hd. apply view_readable. by apply Hr. Qed.

Lemma bank_ok_view_supply s d :
  bank_ok s → denom_ok d → view_total_supply s d = Ok (ledger_supply s d).
Proof. intros [Hr _] Hd. apply view_readable. by apply Hr. Qed.

(** Supply conservation.  Starting from an empty ledger, after any sequence of bank
    calls, failed ones included, the recorded total supply of every denomination
    reads back and is exactly the sum of every account's balance of it. *)
Theorem bank_supply_conserved (cs : list bank_call) s d :
  kv_map s = ∅ → Forall call_ok cs → denom_ok d →
  view_total_supply (bank_run cs s) d = Ok (circulating (bank_run cs s) d).
Proof.
  intros He Hcs Hd. pose proof (bank_run_ok cs s Hcs (bank_ok_empty s He)) as Hok.
  rewrite bank_ok_view_supply by done. destruct Hok as [_ Hc]. by rewrite Hc.
Qed.

(** C12: every call refines the abstract ledger.  A call that succeeds moves every balance
    by [balance_delta], every supply by [supply_delta] and every freeze as
    [frozen_after] says; a call that fails leaves the store exactly as it was. *)
Theorem bank_call_refines (c : bank_call) s r s' :
  call_ok c → bank_exec c s = (r, s') →
  match r with
  | Ok _ => ∀ a d, address_ok a → denom_ok d →
      ledger_balance s' a d = ledger_balance s a d + balance_delta c a d
      ∧ ledger_supply s' d = ledger_supply s d + supply_delta c d
      ∧ is_frozen s' a d = frozen_after c a d (is_frozen s a d)
  | Err _ => s' = s
  end.
Proof.
  intros Hc Hr. destruct r as [u|e]; [|by eapply bank_exec_atomic]. intros a d Ha Hd.
  destruct (bank_exec_ledger _ _ _ _ Hc Hr a d Ha Hd) as (? & ? & _).
  split_and!; [done..|]. by eapply bank_exec_frozen.
Qed.

(** ** Transfers *)

Lemma two_balances_bounded s a b d :
  bank_ok s → address_ok a → address_ok b → denom_ok d → a ≠ b →
  ledger_balance s a d + ledger_balance s b d ≤ u128_max.
Proof.
  intros [_ Hc] Ha Hb Hd Hne. specialize (Hc d Hd).
  pose proof (amount_at_ok (kv_map s) (key_supply d)) as [_ Hmax].
  assert (key_balance a d ≠ key_balance b d) as Hk by (rewrite key_balance_inj; naive_solver).
  pose proof (entry_weight_pair_le_sum (holding d) (kv_map s) _ _ Hk (λ k v _, holding_nonneg d k v)) as Hp.
  rewrite !entry_weight_balance, !decide_True in Hp by done. unfold circulating, circulating_in in Hc. lia.
Qed.

(** Over a consistent ledger the guards are all that can stop a transfer. *)
Lemma transfer_progress from to d x s :
  bank_ok s → call_ok (Transfer from to d x) → x ≠ 0 →
  is_frozen s from d = false → is_frozen s to d = false → x ≤ ledger_balance s from d →
  ∃ s', transfer from to d x s = (Ok tt, s').
Proof.
  intros Hok (Hf & Ht & Hd & Hx) Hz Hff Hft Hle.
  unfold transfer, frozen, balance, bind, reads, fail_if, lift, write_balance, writes, ret.
  unfold Amount_is_zero. apply Z.eqb_neq in Hz. rewrite Hz, Hff, Hft. simpl.
  case_bool_decide as E; rewrite !bank_ok_view_balance by done.
  - apply Z.ltb_ge in Hle. rewrite Hle. eauto.
  - pose proof (two_balances_bounded _ _ _ _ Hok Hf Ht Hd E).
    assert (ledger_balance s to d + x ≤ u128_max) as Hmax by lia.
    rewrite (proj2 (Amount_checked_sub_Ok _ _ _) (conj eq_refl Hle)).
    rewrite (proj2 (Amount_checked_add_Ok _ _ _) (conj eq_refl Hmax)). simpl. eauto.
Qed.

Lemma balance_le_supply s a d :
  bank_ok s → address_ok a → denom_ok d → ledger_balance s a d ≤ ledger_supply s d.
Proof.
  intros [_ Hc] Ha Hd. rewrite <- Hc by done. unfold circulating, circulating_in.
  pose proof (entry_weight_le_sum (holding d) (kv_map s) (key_balance a d) (λ k v _, holding_nonneg d k v)) as Hp.
  by rewrite entry_weight_balance, decide_True in Hp by done.
Qed.

Lemma slash_native_progress from x s :
  bank_ok s → address_ok from → x ≠ 0 → x ≤ ledger_balance s from Denom_native →
  ∃ s', slash_native from x s = (Ok tt, s').
Proof.
  intros Hok Hf Hz Hle. pose proof (balance_le_supply s from Denom_native Hok Hf native_ok) as Hs.
  assert (x ≤ ledger_supply s Denom_native) as Hle' by lia.
  unfold slash_native, balance, total_supply, bind, reads, fail_if, lift, write_balance, write_supply, writes, ret.
  unfold Amount_is_zero. apply Z.eqb_neq in Hz. rewrite Hz. simpl.
  rewrite bank_ok_view_balance by (done || apply native_ok).
  rewrite (proj2 (Amount_checked_sub_Ok _ _ _) (conj eq_refl Hle)). simpl.
  rewrite bank_ok_view_supply by (done || apply native_ok).
  rewrite (proj2 (Amount_checked_sub_Ok _ _ _) (conj eq_refl Hle')). simpl. eauto.
Qed.

(** Over a consistent ledger a transfer succeeds exactly when the amount is positive,
    neither party is frozen for the denomination and the sender holds the amount;
    in particular the credit overflow can never happen. *)
Theorem transfer_succeeds_iff from to d x s :
  bank_ok s → call_ok (Transfer from to d x) →
  (∃ s', transfer from to d x s = (Ok tt, s'))
  ↔ x ≠ 0 ∧ is_frozen s from d = false ∧ is_frozen s to d = false ∧ x ≤ ledger_balance s from d.
Proof.
  intros Hok Hc. split.
  - intros [s' (? & ? & ? & ? & _)%transfer_Ok]. done.
  - intros (Hz & Hff & Hft & Hle). by apply transfer_progress.
Qed.

(** Nobody's balance falls without them.  If a successful call lowers an account's
    balance of a denomination, the call is that account's own transfer, that
    account burning as a minter, or the protocol slashing native coin. *)
Theorem debit_needs_holder c s u s' a d :
  call_ok c → address_ok a → denom_ok d → bank_exec c s = (Ok u, s') →
  ledger_balance s' a d < ledger_balance s a d →
  (∃ to x, c = Transfer a to d x) ∨ (∃ x, c = Burn a d x)
  ∨ (∃ x, c = SlashNative a x ∧ d = Denom_native).
Proof.
  intros Hc Ha Hd Hr Hlt. destruct (bank_exec_ledger _ _ _ _ Hc Hr a d Ha Hd) as (E & _ & _).
  destruct c; simpl in E, Hc; unfold amount_ok in *; repeat case_decide; destruct_and?; subst; try lia; eauto.
Qed.

(** ** Issuance *)

(** The remaining allowance of a minter, as the store records it. *)
Definition stored_allowance s (d : Denom) (mt : Address) : Z :=
  match view_issuer s d with Ok (Some i) => allowance_of i mt | _ => 0 end.

(** Over a consistent ledger a mint succeeds exactly when the denomination is not the
    native coin and has an unpaused issuer, the minter's remaining allowance
    covers the amount, the recipient is not frozen, and neither the issuer's
    cap nor the width of the supply counter is exceeded. *)
Theorem mint_succeeds_iff mt to d x s :
  bank_ok s → call_ok (Mint mt to d x) →
  (∃ s', mint mt to d x s = (Ok tt, s'))
  ↔ x ≠ 0 ∧ d ≠ Denom_native ∧ is_frozen s to d = false
    ∧ ledger_supply s d + x ≤ u128_max
    ∧ ∃ i, view_issuer s d = Ok (Some i) ∧ paused i = false ∧ x ≤ allowance_of i mt
        ∧ option_all (λ cap, ledger_supply s d + x ≤ cap) (max_supply i).
Proof.
  intros Hok (Hm & Ht & Hd & Hx). unfold amount_ok in Hx. split.
  { intros [s' (i & i' & Hi & ? & ? & ? & ? & Hsp & Hcap & ? & _ & _)%mint_Ok]. split_and!; try done.
    exists i. pose proof Hi as [Hiok _]%view_issuer_Some.
    pose proof (spend_allowance_spec i mt x Hiok) as Hspec. rewrite Hsp in Hspec.
    split_and!; [done..| |destruct (max_supply i); naive_solver]. apply Hspec; lia. }
  intros (Hz & Hnat & Hfr & Hsup & i & Hi & Hp & Hal & Hcap).
  pose proof Hi as [Hiok _]%view_issuer_Some.
  pose proof (spend_allowance_spec i mt x Hiok ltac:(lia)) as Hspec.
  destruct (spend_allowance i mt x) as [[] i'] eqn:Hsp; [|lia].
  assert (ledger_balance s to d + x ≤ u128_max) as Hbal.
  { destruct Hok as [_ Hc]. specialize (Hc d Hd). unfold circulating, circulating_in in Hc.
    pose proof (entry_weight_le_sum (holding d) (kv_map s) (key_balance to d) (λ k v _, holding_nonneg d k v)) as Hle.
    rewrite entry_weight_balance, decide_True in Hle by done. lia. }
  unfold mint, require_issuer, issuer, frozen, balance, total_supply, bind, reads, fail_if, lift,
    write_balance, write_supply, write_issuer, writes, Amount_is_zero.
  apply Z.eqb_neq in Hz. unfold Denom_is_native. rewrite Hz, bool_decide_eq_false_2, Hi by done. simpl.
  rewrite bool_decide_eq_true_2, Hp, Hfr by apply Hspec. simpl.
  rewrite bank_ok_view_balance, bank_ok_view_supply by done.
  rewrite (proj2 (Amount_checked_add_Ok _ _ _) (conj eq_refl Hsup)). simpl.
  rewrite (proj2 (Amount_checked_add_Ok _ _ _) (conj eq_refl Hbal)).
  destruct (max_supply i) as [cap|]; simpl in *.
  - rewrite (proj2 (Z.ltb_ge _ _) Hcap), Hsp. simpl. eauto.
  - rewrite Hsp. simpl. eauto.
Qed.

(** What [mt] minted of [d] in a run: the amounts of its successful mints. *)
Definition minted (c : bank_call) (r : result BankError unit) (mt : Address) (d : Denom) : Z :=
  match c, r with
  | Mint mt' _ d' x, Ok _ => if decide (mt' = mt ∧ d' = d) then x else 0
  | _, _ => 0
  end.

Fixpoint minted_in (cs : list bank_call) s (mt : Address) (d : Denom) : Z :=
  match cs with
  | [] => 0
  | c :: cs => minted c (bank_exec c s).1 mt d + minted_in cs (bank_exec c s).2 mt d
  end.

(** A call by which the authority (or genesis) hands out allowance to [mt]. *)
Definition grants (mt : Address) (d : Denom) (c : bank_call) : bool :=
  match c with
  | SetMinterAllowance _ d' mt' _ => bool_decide (mt' = mt ∧ d' = d)
  | RegisterIssuer d' _ => bool_decide (d' = d)
  | _ => false
  end.

Lemma reconfigured_allowance c i i' mt d :
  call_ok c → issuer_ok i → config_denom c = Some d → grants mt d c = false → reconfigured c i i' →
  allowance_of i' mt = allowance_of i mt.
Proof.
  intros Hc Hi Hd Hg Hr. destruct c; simpl in *; try done; simplify_eq.
  - destruct Hc as (_ & _ & ? & ?%amount_ok_wf), Hr as [_ Hr]. bool_simpl.
    apply set_minter_spec in Hr as (_ & Hm & _); [|done..]. unfold allowance_of. rewrite Hm, decide_False; [done|].
    naive_solver.
  - destruct Hr as [_ Hr]. unfold offer_authority in Hr. case_match; [done|]. by injection Hr as <-.
  - unfold accept_authority in Hr. case_match; [done|]. by injection Hr as <-.
  - by destruct Hr as [_ ->].
  - by destruct Hr as [_ ->].
  - destruct Hr as [_ Hr]. unfold tighten_cap in Hr.
    destruct (match max_supply i with Some c => _ | None => _ end); [done|]. by injection Hr as <-.
Qed.

Lemma allowance_step c s r s' mt d :
  call_ok c → denom_ok d → grants mt d c = false → bank_exec c s = (r, s') →
  minted c r mt d + stored_allowance s' d mt = stored_allowance s d mt.
Proof.
  intros Hc Hd Hg Hr. destruct r as [u|e].
  2: { apply bank_exec_atomic in Hr as ->. by destruct c. }
  unfold stored_allowance.
  destruct (bank_exec_issuer _ _ _ _ _ Hc Hd Hr) as [E Hn|i i' Hcd Hi Hrc Hi'|mt' to x i i' -> Hi Hsp Hi'|i -> Hi'|au -> Hn Hi'].
  - rewrite E. destruct c; try done. simpl. rewrite decide_False; [done|]. intros [-> ->]. by eapply Hn.
  - rewrite Hi, Hi'. pose proof Hi as [Hok _]%view_issuer_Some.
    rewrite (reconfigured_allowance _ _ _ mt d Hc Hok Hcd Hg Hrc). by destruct c.
  - rewrite Hi, Hi'. pose proof Hi as [Hok _]%view_issuer_Some.
    destruct Hc as (_ & _ & _ & Hx). unfold amount_ok in Hx. simpl in Hr. apply mint_Ok in Hr as (_&_&_&_&Hz&_).
    pose proof (spend_allowance_spec i mt' x Hok ltac:(lia)) as Hspec. rewrite Hsp in Hspec.
    destruct Hspec as (_ & _ & _ & _ & ->). simpl. repeat case_decide; naive_solver lia.
  - simpl in Hg. bool_simpl. done.
  - by rewrite Hn, Hi'.
Qed.

(** An allowance is a lifetime total.  Over any run of calls, in any order and
    whoever sends them, in which the authority does not set this minter's
    allowance again, what the minter issued plus what it has left is what it
    started with: however the mints are split up, they never exceed the grant. *)
Theorem mint_allowance_is_total cs s mt d :
  Forall call_ok cs → denom_ok d → Forall (λ c, grants mt d c = false) cs →
  minted_in cs s mt d + stored_allowance (bank_run cs s) d mt = stored_allowance s d mt.
Proof.
  intros Hcs Hd. revert s. induction Hcs as [|c cs Hc Hcs IH]; intros s Hg; [done|].
  apply Forall_cons in Hg as [Hg1 Hg]. simpl. destruct (bank_exec c s) as [r s1] eqn:E. simpl.
  rewrite <- (allowance_step c s r s1 mt d) by done. rewrite <- (IH s1) by done. unfold bank_run. lia.
Qed.

(** ** Authority *)

(** An issuer's authority changes only by its own two-step handover.  Short of the
    genesis registration, if a call leaves a denomination that had an issuer
    with a different authority, it is the acceptance of the role by the account
    the previous authority had offered it to. *)
Theorem authority_changes_by_handover c s u s' d i i' :
  call_ok c → denom_ok d → bank_exec c s = (Ok u, s') → (∀ j, c ≠ RegisterIssuer d j) →
  view_issuer s d = Ok (Some i) → view_issuer s' d = Ok (Some i') → authority i' ≠ authority i →
  c = AcceptIssuerAuthority (authority i') d ∧ pending_authority i = Some (authority i').
Proof.
  intros Hc Hd Hr Hreg Hi Hi' Hne.
  destruct (bank_exec_issuer _ _ _ _ _ Hc Hd Hr) as [E _|j j' Hcd Hj Hrc Hj'|mt to x j j' -> Hj Hsp Hj'|j -> _|au -> Hn _];
    [congruence| | |naive_solver|congruence].
  - assert (j = i) as -> by congruence. assert (j' = i') as -> by congruence.
    pose proof Hi as [Hok _]%view_issuer_Some. destruct c; simpl in Hrc, Hcd; try done; simplify_eq.
    + destruct Hrc as [_ Hrc], Hc as (_ & _ & ? & ?%amount_ok_wf).
      apply set_minter_spec in Hrc as (_ & _ & Hms); [|done..]. by rewrite Hms in Hne.
    + destruct Hrc as [_ Hrc]. unfold offer_authority in Hrc. case_match; [done|]. by injection Hrc as <-.
    + apply accept_authority_spec in Hrc as (? & <- & _); [|done]. done.
    + by destruct Hrc as [_ ->].
    + by destruct Hrc as [_ ->].
    + destruct Hrc as [_ Hrc]. unfold tighten_cap in Hrc.
      destruct (match max_supply i with Some c => _ | None => _ end); [done|]. by injection Hrc as <-.
  - assert (j = i) as -> by congruence. assert (j' = i') as -> by congruence.
    pose proof Hi as [Hok _]%view_issuer_Some. simpl in Hr.
    apply mint_Ok in Hr as (_ & _ & _ & _ & Hz & _). destruct Hc as (_ & _ & _ & [? _]).
    pose proof (spend_allowance_spec i mt x Hok ltac:(lia)) as Hspec. rewrite Hsp in Hspec.
    destruct Hspec as (_ & _ & _ & Hms & _). by rewrite Hms in Hne.
Qed.

(** ** Freezing *)

Lemma freeze_not_native c s u s' a d :
  call_ok c → bank_exec c s = (Ok u, s') → is_frozen s a d = false → frozen_after c a d false = true →
  d ≠ Denom_native.
Proof.
  intros Hc Hr _ Hf. destruct c; simpl in Hf; try done.
  - rewrite orb_false_r in Hf. bool_simpl. destruct_and?; subst. simpl in Hr.
    by apply freeze_Ok in Hr as (_ & _ & ? & _).
  - by rewrite andb_false_r in Hf.
Qed.

(** The native coin can never be frozen: from an empty ledger, after any sequence of
    bank calls, no account is frozen for it. *)
Theorem native_never_frozen cs s a :
  kv_map s = ∅ → Forall call_ok cs → address_ok a → is_frozen (bank_run cs s) a Denom_native = false.
Proof.
  intros He Hcs Ha.
  assert (is_frozen s a Denom_native = false) as Hf.
  { unfold is_frozen. by rewrite kv_get_map, He. }
  clear He. revert s Hf. induction Hcs as [|c cs Hc Hcs IH]; intros s Hf; [done|].
  simpl. apply IH. destruct (bank_exec c s) as [[u|e] s1] eqn:E; simpl.
  - rewrite (bank_exec_frozen c a Denom_native s u s1), Hf by done.
    destruct (frozen_after c a Denom_native false) eqn:Hfa; [|done].
    by destruct (freeze_not_native c s u s1 a Denom_native Hc E Hf Hfa).
  - by apply bank_exec_atomic in E as ->.
Qed.

(** Module isolation: no bank call, successful or not, touches a record outside the
    balance, supply, issuer and freeze namespaces, whatever the other modules
    keep in the same store. *)
Theorem bank_isolated c s r s' ns parts :
  ns ∉ [NsBalance; NsSupply; NsIssuer; NsFrozen] → bank_exec c s = (r, s') →
  kv_get s' (StoreKey_new ns parts) = kv_get s (StoreKey_new ns parts).
Proof.
  intros Hns Hr. rewrite !kv_get_map. apply (bank_exec_footprint c s r s'); [|done].
  destruct ns; try (by destruct c); exfalso; apply Hns; set_solver.
Qed.
End theorems.

Lemma bank_supply_conserved_witness :
  view_total_supply sample_bank kes = Ok (circulating sample_bank kes) ∧ ledger_supply sample_bank kes = 700.
Proof.
  split; [|by vm_compute]. apply (bank_supply_conserved sample_calls (∅ : gmap bytes bytes) kes);
    [done|repeat constructor; by vm_compute|by vm_compute].
Defined.

Lemma sample_bank_ok : bank_ok sample_bank.
Proof.
  apply bank_run_ok; [repeat constructor; by vm_compute|]. by apply bank_ok_empty.
Qed.

Definition sample_transfer : bank_call := Transfer (sample_address 1) (sample_address 2) kes 5.

Lemma bank_call_refines_witness :
  ledger_balance (bank_exec sample_transfer sample_bank).2 (sample_address 2) kes = 205.
Proof.
  refine (eq_trans (proj1 (bank_call_refines sample_transfer sample_bank (Ok tt)
    (bank_exec sample_transfer sample_bank).2 _ _ (sample_address 2) kes _ _)) _);
    [by vm_compute|by apply run_outcome; vm_compute|by vm_compute..].
Defined.

Lemma transfer_succeeds_iff_witness :
  ∃ s', transfer (sample_address 1) (sample_address 2) kes 500 sample_bank = (Ok tt, s').
Proof.
  apply (transfer_succeeds_iff (sample_address 1) (sample_address 2) kes 500 sample_bank);
    [apply sample_bank_ok|by vm_compute|by vm_compute].
Defined.

Lemma debit_needs_holder_witness :
  (∃ to x, sample_transfer = Transfer (sample_address 1) to kes x)
  ∨ (∃ x, sample_transfer = Burn (sample_address 1) kes x)
  ∨ (∃ x, sample_transfer = SlashNative (sample_address 1) x
          ∧ kes = Denom_native).
Proof.
  apply (debit_needs_holder sample_transfer sample_bank tt
    (bank_exec sample_transfer sample_bank).2 (sample_address 1) kes);
    [by vm_compute..|by apply run_outcome; vm_compute|by vm_compute].
Defined.

Lemma mint_succeeds_iff_witness :
  ∃ s', mint (sample_address 101) (sample_address 2) kes 300 sample_bank = (Ok tt, s').
Proof.
  apply (mint_succeeds_iff (sample_address 101) (sample_address 2) kes 300 sample_bank);
    [apply sample_bank_ok|by vm_compute|].
  split_and!; [done|done|by vm_compute|by vm_compute|].
  eexists. split; [by vm_compute|]. by vm_compute.
Defined.

(** Two mints of 200 against a remaining allowance of 300: the second is refused. *)
Definition sample_mints : list bank_call :=
  [Mint (sample_address 101) (sample_address 1) kes 200; Mint (sample_address 101) (sample_address 1) kes 200].

Lemma mint_allowance_is_total_witness :
  minted_in sample_mints sample_bank (sample_address 101) kes = 200
  ∧ minted_in sample_mints sample_bank (sample_address 101) kes
    + stored_allowance (bank_run sample_mints sample_bank) kes (sample_address 101)
    = stored_allowance sample_bank kes (sample_address 101).
Proof.
  split; [by vm_compute|].
  apply (mint_allowance_is_total sample_mints sample_bank (sample_address 101) kes);
    [repeat constructor; by vm_compute|by vm_compute|repeat constructor].
Defined.

Definition sample_offered : gmap bytes bytes :=
  (bank_exec (TransferIssuerAuthority (sample_address 100) kes (Some (sample_address 7))) sample_bank).2.

Lemma authority_changes_by_handover_witness :
  ∃ i i', authority i' ≠ authority i
    ∧ AcceptIssuerAuthority (sample_address 7) kes = AcceptIssuerAuthority (authority i') kes
    ∧ pending_authority i = Some (authority i').
Proof.
  pose (i := {| authority := sample_address 100; minters := [Minter_new (sample_address 101) 300];
                freezer := None; max_supply := None; pending_authority := Some (sample_address 7);
                paused := false |}).
  pose (i' := {| authority := sample_address 7; minters := [Minter_new (sample_address 101) 300];
                freezer := None; max_supply := None; pending_authority := None; paused := false |}).
  exists i, i'. split; [done|].
  apply (authority_changes_by_handover (AcceptIssuerAuthority (sample_address 7) kes) sample_offered tt
    (bank_exec (AcceptIssuerAuthority (sample_address 7) kes) sample_offered).2 kes i i');
    [by vm_compute|by vm_compute|by apply run_outcome; vm_compute|done|by vm_compute..].
Defined.

Lemma native_never_frozen_witness :
  is_frozen sample_bank (sample_address 1) Denom_native = false.
Proof.
  apply (native_never_frozen sample_calls (∅ : gmap bytes bytes) (sample_address 1));
    [done|repeat constructor; by vm_compute|done].
Defined.

Lemma bank_isolated_witness :
  kv_get (bank_exec (Burn (sample_address 1) kes 5) sample_bank).2 (key_bond (sample_address 1))
  = kv_get sample_bank (key_bond (sample_address 1)).
Proof.
  apply (bank_isolated (Burn (sample_address 1) kes 5) sample_bank
    (bank_exec (Burn (sample_address 1) kes 5) sample_bank).1
    (bank_exec (Burn (sample_address 1) kes 5) sample_bank).2 NsValidator); [set_solver|by apply run_outcome].
Defined.
