(* ===== verification/Validators.v ===== *)
(** Validator sets, the quorum rule and proposer selection
    ([crates/consensus/src/validator.rs]). *)

From S2P Require Import Prelude SortedVec Sorting Codec Primitives Crypto.

(** * Data *)

Inductive ValidatorError := VEmpty | VDuplicate | VZeroPower | VPowerOverflow | VInvalidCountry.

#[export] Instance ValidatorError_eq_dec : EqDecision ValidatorError.
Proof. solve_decision. Defined.

Record Validator := {
  v_address : Address;
  v_public_key : PublicKey;
  voting_power : Z;
  v_country : CountryCode;
}.

#[export] Instance Validator_eq_dec : EqDecision Validator.
Proof. solve_decision. Defined.

Record ValidatorSet := {
  validators : list Validator;
  total_power : Z;
}.

#[export] Instance ValidatorSet_eq_dec : EqDecision ValidatorSet.
Proof. solve_decision. Defined.

Definition Validator_new `{Hasher} (pk : PublicKey) (power : Z) (country : CountryCode) : Validator :=
  {| v_address := Address_from_public_key pk; v_public_key := pk; voting_power := power;
     v_country := country |}.

(** The running [checked_add] over the members. *)
Fixpoint sum_power (acc : Z) (l : list Validator) : result ValidatorError Z :=
  match l with
  | [] => Ok acc
  | v :: l =>
      acc ← ok_or VPowerOverflow (checked_add u64_max acc (voting_power v));
      sum_power acc l
  end.

Definition ValidatorSet_new (vs : list Validator) : result ValidatorError ValidatorSet :=
  if bool_decide (vs = []) then Err VEmpty
  else if existsb (λ v, voting_power v =? 0) vs then Err VZeroPower
  else
    let vs := sort_by_key v_address vs in
    if adjacent_dup v_address vs then Err VDuplicate
    else
      total ← sum_power 0 vs;
      Ok {| validators := vs; total_power := total |}.

Definition quorum_threshold (s : ValidatorSet) : Z :=
  let threshold := saturating_mul u128_max (total_power s) 2 / 3 + 1 in
  if threshold <=? u64_max then threshold else u64_max.

Definition has_quorum (s : ValidatorSet) (power : Z) : bool := quorum_threshold s <=? power.

Definition max_byzantine_power (s : ValidatorSet) : Z :=
  let f := saturating_sub (total_power s) 1 / 3 in
  if f <=? u64_max then f else u64_max.

Definition vs_get (s : ValidatorSet) (address : Address) : option Validator :=
  vec_get v_address address (validators s).

Definition vs_power_of (s : ValidatorSet) (address : Address) : Z :=
  match vs_get s address with Some v => voting_power v | None => 0 end.

Definition countries_represented (s : ValidatorSet) : nat :=
  length (dedup (sort_by_key (λ c, c) (v_country <$> validators s))).

Definition meets_distribution_requirement (s : ValidatorSet) (min_countries : nat) : bool :=
  (min_countries <=? countries_represented s)%nat.

Definition max_power (l : list Z) : Z := foldr Z.max 0 l.
Definition max_single_share_bps (s : ValidatorSet) : Z :=
  if total_power s =? 0 then 0
  else
    let bps := saturating_mul u128_max (max_power (voting_power <$> validators s)) 10000 / total_power s in
    if bps <=? u32_max then bps else u32_max.

Section hashed.
Context `{Hasher, Signer}.

(** [ValidatorSet::hash]. *)
Definition validator_hash_part (v : Validator) : bytes :=
  v_address v ++ v_public_key v ++ encode u64_codec (voting_power v) ++ v_country v.
Definition vs_hash (s : ValidatorSet) : Hash32 :=
  hash DValidatorSetHash (concat (validator_hash_part <$> validators s)).

(** The member whose cumulative power range holds [draw]. *)
Fixpoint pick (draw cumulative : Z) (l : list Validator) : option Validator :=
  match l with
  | [] => None
  | v :: l =>
      let cumulative := saturating_add u128_max cumulative (voting_power v) in
      if draw <? cumulative then Some v else pick draw cumulative l
  end.

(** [u64::from_be_bytes] of the first eight bytes of a digest. *)
Definition be_u64 (h : Hash32) : Z := LittleEndianList.le_combine (rev (take 8 h)).

Definition proposer (s : ValidatorSet) (height : Height) (round : Round) : option Validator :=
  if bool_decide (validators s = []) || (total_power s =? 0) then None
  else
    let seed := hash_parts DValidatorId [encode u64_codec height; encode u32_codec round] in
    let draw := be_u64 seed mod total_power s in
    match pick draw 0 (validators s) with
    | Some v => Some v
    | None => last (validators s)
    end.

(** * Wire form *)

Definition Validator_codec : codec Validator := {|
  encode := λ v,
    encode PublicKey_codec (v_public_key v) ++ encode u64_codec (voting_power v)
    ++ encode CountryCode_codec (v_country v);
  decode := λ r,
    '(pk, r) ← decode PublicKey_codec r;
    '(power, r) ← decode u64_codec r;
    '(country, r) ← decode CountryCode_codec r;
    Ok (Validator_new pk power country, r);
  wf := λ v,
    wf PublicKey_codec (v_public_key v) ∧ wf u64_codec (voting_power v)
    ∧ wf CountryCode_codec (v_country v) ∧ v_address v = Address_from_public_key (v_public_key v);
|}.

(** [e.to_string()]. *)
Definition ValidatorError_to_string (e : ValidatorError) : string :=
  match e with
  | VEmpty => "validator set must not be empty"
  | VDuplicate => "duplicate validator in set"
  | VZeroPower => "validator has zero voting power"
  | VPowerOverflow => "total voting power overflows"
  | VInvalidCountry => "country code must be two lowercase ASCII letters"
  end.

Definition ValidatorSet_check (vs : list Validator) : result CodecError ValidatorSet :=
  set ← map_err (λ e, CodecInvalid (ValidatorError_to_string e)) (ValidatorSet_new vs);
  if bool_decide ((v_address <$> validators set) = (v_address <$> vs)) then Ok set
  else Err (CodecInvalid "validator set is not in canonical order").

Definition ValidatorSet_codec : codec ValidatorSet := {|
  encode := λ s, encode (vec_codec Validator_codec) (validators s);
  decode := λ r,
    '(vs, r) ← decode (vec_codec Validator_codec) r;
    set ← ValidatorSet_check vs;
    Ok (set, r);
  wf := λ s, wf (vec_codec Validator_codec) (validators s) ∧ ValidatorSet_check (validators s) = Ok s;
|}.
End hashed.
Arguments Validator_codec {_ _} : simpl never.
Arguments ValidatorSet_codec {_ _} : simpl never.

(** * Well-formed sets *)

Record vs_ok (s : ValidatorSet) : Prop := {
  vs_sorted : StronglySorted (key_lt v_address) (validators s);
  vs_positive : Forall (λ v, 0 < voting_power v) (validators s);
  vs_total : total_power s = list_sum voting_power (validators s);
  vs_bounded : total_power s ≤ u64_max;
  vs_nonempty : validators s ≠ [];
}.

(** The powers handed in are values of [u64]. *)
Definition powers_ok (vs : list Validator) : Prop := Forall (λ v, 0 ≤ voting_power v ≤ u64_max) vs.

Lemma sum_power_spec l acc :
  Forall (λ v, 0 ≤ voting_power v) l →
  sum_power acc l =
    if bool_decide (l = []) || (acc + list_sum voting_power l <=? u64_max)
    then Ok (acc + list_sum voting_power l) else Err VPowerOverflow.
Proof.
  intros Hl. revert acc. induction Hl as [|v l Hv Hl IH]; intros acc; [simpl; by rewrite Z.add_0_r|].
  rewrite bool_decide_eq_false_2 by done. simpl.
  pose proof (list_sum_nonneg voting_power l Hl) as Hs. unfold checked_add.
  destruct (Z.leb_spec (acc + voting_power v) u64_max) as [Hle|Hgt]; simpl.
  - rewrite IH, Z.add_assoc. case_bool_decide as E; [|done]. subst l. simpl.
    rewrite Z.add_0_r. by destruct (Z.leb_spec (acc + voting_power v) u64_max); [|lia].
  - destruct (Z.leb_spec (acc + (voting_power v + list_sum voting_power l)) u64_max); [lia|done].
Qed.

Lemma ValidatorSet_new_Ok vs s :
  powers_ok vs → ValidatorSet_new vs = Ok s → vs_ok s ∧ validators s = sort_by_key v_address vs.
Proof.
  intros Hp. unfold ValidatorSet_new. case_bool_decide as Hne; [done|].
  destruct (existsb _ vs) eqn:Hz; [done|]. destruct (adjacent_dup _ _) eqn:Hd; [done|].
  pose proof (sort_by_key_perm v_address vs) as Hperm.
  assert (sort_by_key v_address vs ≠ []) as Hne'.
  { intros E. rewrite E in Hperm. by apply Permutation_nil in Hperm. }
  assert (Forall (λ v, 0 < voting_power v) (sort_by_key v_address vs)) as Hpos.
  { rewrite Hperm. apply Forall_forall. intros v Hv. unfold powers_ok in Hp. rewrite Forall_forall in Hp.
    specialize (Hp v Hv). apply not_true_iff_false in Hz.
    destruct (decide (voting_power v = 0)) as [E|]; [|lia].
    destruct Hz. apply existsb_exists. exists v. rewrite <- list_elem_of_In, E. done. }
  rewrite sum_power_spec by (eapply Forall_impl; [done|]; simpl; lia).
  rewrite bool_decide_eq_false_2 by done. rewrite Z.add_0_l, orb_false_l.
  destruct (Z.leb_spec (list_sum voting_power (sort_by_key v_address vs)) u64_max); simpl; [|done].
  intros [= <-]. split; [|done]. split; simpl; try done.
  apply adjacent_dup_sorted; [apply sort_by_key_sorted|done].
Qed.

Lemma existsb_perm {A} (f : A → bool) l1 l2 : l1 ≡ₚ l2 → existsb f l1 = existsb f l2.
Proof. induction 1; simpl; try congruence. by rewrite !orb_assoc, (orb_comm (f y)). Qed.

Lemma sorted_dup_perm {A} (key : A → bytes) l1 l2 :
  l1 ≡ₚ l2 → adjacent_dup key (sort_by_key key l1) = adjacent_dup key (sort_by_key key l2).
Proof.
  intros Hp. apply eq_true_iff_eq. rewrite <- !not_false_iff_true, !sorted_dup_iff. by rewrite Hp.
Qed.

(** Every node derives the same set: the outcome of building a validator set,
    success or error, does not depend on the order the members are supplied in. *)
Theorem validator_set_order_independent vs1 vs2 :
  powers_ok vs1 → vs1 ≡ₚ vs2 → ValidatorSet_new vs1 = ValidatorSet_new vs2.
Proof.
  intros Hp Hperm. unfold ValidatorSet_new.
  rewrite (bool_decide_ext (vs1 = []) (vs2 = [])).
  2: { split; intros ->; [by apply Permutation_nil in Hperm|by symmetry in Hperm; apply Permutation_nil in Hperm]. }
  case_bool_decide; [done|]. rewrite (existsb_perm _ vs1 vs2) by done. destruct (existsb _ vs2); [done|].
  rewrite (sorted_dup_perm v_address vs1 vs2) by done. destruct (adjacent_dup _ _) eqn:Hd; [done|].
  enough (sort_by_key v_address vs1 = sort_by_key v_address vs2) as -> by done.
  apply (strictly_sorted_unique v_address).
  - apply adjacent_dup_sorted; [apply sort_by_key_sorted|]. by rewrite (sorted_dup_perm v_address vs1 vs2).
  - by apply adjacent_dup_sorted; [apply sort_by_key_sorted|].
  - by rewrite !sort_by_key_perm.
Qed.

(** * Membership and power *)

Lemma vs_get_Some s a v : vs_ok s → vs_get s a = Some v ↔ v ∈ validators s ∧ v_address v = a.
Proof. intros [Hs _ _ _ _]. by apply vec_get_Some. Qed.

Lemma vs_power_nonneg s a : vs_ok s → 0 ≤ vs_power_of s a.
Proof.
  intros Hok. unfold vs_power_of. destruct (vs_get s a) as [v|] eqn:E; [|done].
  apply vs_get_Some in E as [Hv _]; [|done]. destruct Hok as [_ Hp _ _ _].
  rewrite Forall_forall in Hp. specialize (Hp v Hv). lia.
Qed.

Lemma vs_addresses_NoDup s : vs_ok s → NoDup (v_address <$> validators s).
Proof. intros [Hs _ _ _ _]. apply sorted_dup_iff. rewrite sort_by_key_id by done. by apply strictly_sorted_no_dup. Qed.

(** Summing the power of a list of addresses is summing over the members it names. *)
Lemma power_of_members s : vs_ok s → Forall (λ v, vs_power_of s (v_address v) = voting_power v) (validators s).
Proof.
  intros Hok. apply Forall_forall. intros v Hv. unfold vs_power_of.
  by rewrite (proj2 (vs_get_Some s (v_address v) v Hok) (conj Hv eq_refl)).
Qed.

Lemma total_power_addresses s :
  vs_ok s → list_sum (vs_power_of s) (v_address <$> validators s) = total_power s.
Proof.
  intros Hok. rewrite (vs_total s Hok). pose proof (power_of_members s Hok) as Hm. revert Hm.
  generalize (validators s). intros l Hm. induction Hm as [|v l Hv Hl IH]; [done|].
  cbn [fmap list_fmap list_sum foldr]. rewrite Hv. f_equal. exact IH.
Qed.

Definition is_member s (a : Address) : bool := bool_decide (a ∈ v_address <$> validators s).

Lemma vs_power_nonmember s a : vs_ok s → a ∉ v_address <$> validators s → vs_power_of s a = 0.
Proof.
  intros Hok Ha. unfold vs_power_of. destruct (vs_get s a) as [v|] eqn:E; [|done].
  apply vs_get_Some in E as [Hv <-]; [|done]. destruct Ha. by apply list_elem_of_fmap_2.
Qed.

(** Distinct addresses never carry more than the total. *)
Lemma power_le_total s (l : list Address) :
  vs_ok s → NoDup l → list_sum (vs_power_of s) l ≤ total_power s.
Proof.
  intros Hok Hl. rewrite <- (total_power_addresses s Hok).
  set (f := λ a, bool_decide (a ∈ v_address <$> validators s)).
  assert (list_sum (vs_power_of s) l = list_sum (vs_power_of s) (List.filter f l)) as ->.
  { rewrite list_sum_filter. apply list_sum_ext, Forall_forall. intros a _. unfold f.
    case_bool_decide; [done|]. by apply vs_power_nonmember. }
  apply list_sum_submseteq.
  - apply Forall_forall. intros a _. by apply vs_power_nonneg.
  - apply NoDup_submseteq.
    + apply NoDup_ListNoDup, List.NoDup_filter. by apply NoDup_ListNoDup.
    + intros a Ha. apply list_elem_of_In, List.filter_In in Ha as [_ Ha]. unfold f in Ha. by bool_simpl.
Qed.

(** * Quorums *)

Lemma quorum_threshold_eq s :
  0 ≤ total_power s ≤ u64_max → quorum_threshold s = 2 * total_power s / 3 + 1.
Proof.
  intros Ht. unfold quorum_threshold, saturating_mul, u64_max, u128_max in *.
  rewrite Z.min_r by lia. replace (total_power s * 2) with (2 * total_power s) by lia.
  destruct (Z.leb_spec (2 * total_power s / 3 + 1) (2 ^ 64 - 1)); [done|].
  assert (2 * total_power s / 3 ≤ 2 * (2 ^ 64 - 1) / 3) by (apply Z.div_le_mono; lia).
  assert (2 * (2 ^ 64 - 1) / 3 = 12297829382473034410) by (by vm_compute). lia.
Qed.

Lemma max_byzantine_power_eq s :
  0 < total_power s ≤ u64_max → max_byzantine_power s = (total_power s - 1) / 3.
Proof.
  intros Ht. unfold max_byzantine_power, saturating_sub. rewrite Z.max_r by lia.
  assert ((total_power s - 1) / 3 ≤ total_power s - 1) by (apply Z.div_le_upper_bound; lia).
  destruct (Z.leb_spec ((total_power s - 1) / 3) u64_max); [done|lia].
Qed.

Lemma vs_total_pos s : vs_ok s → 0 < total_power s.
Proof.
  intros [_ Hp -> _ Hne]. destruct Hp as [|v l Hv Hl]; [done|]. simpl.
  enough (0 ≤ list_sum voting_power l) by lia. apply list_sum_nonneg.
  eapply Forall_impl; [done|]. simpl. lia.
Qed.

Lemma quorum_overlap_arith T a b o :
  0 < T → 2 * T / 3 + 1 ≤ a → 2 * T / 3 + 1 ≤ b → a + b ≤ T + o → (T - 1) / 3 < o.
Proof. intros. Z.to_euclidean_division_equations. lia. Qed.

(** Two quorums of distinct addresses share members carrying more power than any
    tolerated Byzantine coalition. *)
Lemma quorum_intersection s (l1 l2 : list Address) :
  vs_ok s → NoDup l1 → NoDup l2 →
  has_quorum s (list_sum (vs_power_of s) l1) = true →
  has_quorum s (list_sum (vs_power_of s) l2) = true →
  max_byzantine_power s
  < list_sum (vs_power_of s) (List.filter (λ a, bool_decide (a ∈ l2)) l1).
Proof.
  intros Hok H1 H2 Hq1 Hq2. pose proof (vs_total_pos s Hok) as HT.
  pose proof (vs_bounded s Hok) as Hb.
  unfold has_quorum in *. rewrite quorum_threshold_eq in * by lia. bool_simpl.
  rewrite max_byzantine_power_eq by lia.
  eapply quorum_overlap_arith; [done|exact Hq1|exact Hq2|].
  set (f := λ a, bool_decide (a ∈ l2)).
  assert (list_sum (vs_power_of s) l1
          = list_sum (vs_power_of s) (List.filter f l1)
            + list_sum (vs_power_of s) (List.filter (λ a, negb (f a)) l1)) as ->.
  { rewrite !list_sum_filter, <- list_sum_add. apply list_sum_ext, Forall_forall. intros a _.
    destruct (f a); simpl; lia. }
  assert (list_sum (vs_power_of s) (List.filter (λ a, negb (f a)) l1) + list_sum (vs_power_of s) l2
          ≤ total_power s) as Hle; [|lia].
  rewrite <- list_sum_app. apply power_le_total; [done|]. apply NoDup_app. split_and!; [| |done].
  - apply NoDup_ListNoDup, List.NoDup_filter. by apply NoDup_ListNoDup.
  - intros a Ha Ha2. apply list_elem_of_In, List.filter_In in Ha as [_ Ha]. unfold f in Ha. bool_simpl. done.
Qed.

(** * Proposer selection *)

Definition cumulative (l : list Validator) (i : nat) : Z := list_sum voting_power (take i l).

Lemma pick_spec l base draw :
  Forall (λ v, 0 < voting_power v) l → 0 ≤ base → base + list_sum voting_power l ≤ u128_max →
  base ≤ draw < base + list_sum voting_power l →
  ∃ i v, l !! i = Some v ∧ pick draw base l = Some v
    ∧ base + cumulative l i ≤ draw < base + cumulative l i + voting_power v.
Proof.
  intros Hl. revert base. induction Hl as [|v l Hv Hl IH]; intros base Hb Hmax Hd; simpl in *; [lia|].
  assert (0 ≤ list_sum voting_power l) as Hs.
  { apply list_sum_nonneg. eapply Forall_impl; [done|]. simpl. lia. }
  unfold saturating_add. rewrite Z.min_r by lia.
  destruct (Z.ltb_spec draw (base + voting_power v)).
  - exists 0%nat, v. split_and!; try done; unfold cumulative; simpl; lia.
  - destruct (IH (base + voting_power v)) as (i & w & Hi & Hp & Hc); [lia..|].
    exists (S i), w. split_and!; [done..| |]; unfold cumulative in *; simpl; lia.
Qed.

Lemma cumulative_range_unique l i j v w d :
  Forall (λ v, 0 < voting_power v) l → l !! i = Some v → l !! j = Some w →
  cumulative l i ≤ d < cumulative l i + voting_power v →
  cumulative l j ≤ d < cumulative l j + voting_power w → i = j.
Proof.
  intros Hl. revert i j d. induction Hl as [|x l Hx Hl IH]; intros i j d; [done|].
  assert (∀ k, 0 ≤ cumulative l k) as Hnn.
  { intros k. apply list_sum_nonneg, Forall_take. eapply Forall_impl; [done|]. simpl; lia. }
  destruct i as [|i], j as [|j]; simpl; unfold cumulative; simpl; intros; simplify_eq.
  - done.
  - specialize (Hnn j). unfold cumulative in Hnn. lia.
  - specialize (Hnn i). unfold cumulative in Hnn. lia.
  - f_equal. eapply (IH i j (d - voting_power x)); [done..| |]; unfold cumulative; lia.
Qed.

(** Proposer selection is total and exactly stake-weighted.  In a well-formed set
    every (height, round) has a proposer, a member of the set; and the draws in
    [0, total) that select the i-th member are exactly the half-open interval
    of length equal to its voting power that starts at its cumulative power. *)
Theorem proposer_stake_weighted `{Hasher} s height round :
  vs_ok s →
  (∃ i v, validators s !! i = Some v ∧ proposer s height round = Some v)
  ∧ ∀ i v draw, validators s !! i = Some v → 0 ≤ draw < total_power s →
      pick draw 0 (validators s) = Some v
      ↔ cumulative (validators s) i ≤ draw < cumulative (validators s) i + voting_power v.
Proof.
  intros Hok. pose proof (vs_total_pos s Hok) as HT. pose proof Hok as [Hs Hp Ht Hb Hne].
  assert (∀ draw, 0 ≤ draw < total_power s → ∃ i v, validators s !! i = Some v
    ∧ pick draw 0 (validators s) = Some v
    ∧ cumulative (validators s) i ≤ draw < cumulative (validators s) i + voting_power v) as Hpick.
  { intros draw Hd. destruct (pick_spec (validators s) 0 draw) as (i & v & Hi & Hv & Hc);
      [done|lia|unfold u64_max, u128_max in *; lia|lia|]. exists i, v. split_and!; [done..|lia|lia]. }
  split.
  - unfold proposer. rewrite bool_decide_eq_false_2 by done. simpl.
    destruct (Z.eqb_spec (total_power s) 0); [lia|].
    edestruct Hpick as (i & v & Hi & Hv & _); [|exists i, v; split; [done|by rewrite Hv]].
    apply Z.mod_pos_bound. lia.
  - intros i v draw Hi Hd. destruct (Hpick draw Hd) as (j & w & Hj & -> & Hc). split.
    + intros [= ->]. enough (i = j) as -> by done.
      pose proof (vs_addresses_NoDup s Hok) as Hnd. eapply (NoDup_lookup _ i j (v_address v) Hnd);
        rewrite list_lookup_fmap, ?Hi, ?Hj; done.
    + intros Hci. assert (i = j) as -> by (by eapply cumulative_range_unique). congruence.
Qed.

(** * The wire form is canonical *)

Section wire.
Context `{Hasher, Signer}.

#[export] Instance Validator_lawful : Lawful Validator_codec.
Proof.
  split; unfold Validator_codec; cbn [encode decode wf].
  - intros v rest (Hpk & Hp & Hc & Ha). codec_complete. destruct v. simpl in *. unfold Validator_new. by rewrite Ha.
  - intros b v rest Hd. codec_sound. cbn [Validator_new v_public_key voting_power v_country v_address].
    by rewrite <- !app_assoc.
Qed.

Lemma ValidatorSet_check_Ok vs s :
  ValidatorSet_check vs = Ok s → Forall (wf Validator_codec) vs → validators s = vs.
Proof.
  unfold ValidatorSet_check. intros (s' & Hn & Hs)%result_bind_Ok_inv Hwf.
  case_bool_decide as E; [|done]. injection Hs as <-. apply map_err_Ok_inv in Hn.
  assert (powers_ok vs) as Hp.
  { eapply Forall_impl; [done|]. intros v (_ & Hv & _). unfold u64_codec, uint_codec, u64_max in *. simpl in Hv. lia. }
  destruct (ValidatorSet_new_Ok vs s' Hp Hn) as [Hok Hvs].
  apply (strictly_sorted_unique v_address); [apply Hok| |by rewrite Hvs, sort_by_key_perm].
  pose proof (vs_sorted s' Hok) as Hsort. clear -E Hsort.
  revert E. generalize vs. induction Hsort as [|v l Hl IH Hv]; intros [|w vs'] E; try done; [constructor|].
  injection E as E1 E2. change (v_address <$> l = v_address <$> vs') in E2. constructor; [by apply IH|]. apply Forall_forall. intros x Hx.
  assert (v_address x ∈ v_address <$> l) as Hin by (rewrite E2; by apply list_elem_of_fmap_2).
  apply list_elem_of_fmap in Hin as (y & Ey & Hy). rewrite Forall_forall in Hv. specialize (Hv y Hy).
  unfold key_lt in *. by rewrite Ey, <- E1.
Qed.

#[export] Instance ValidatorSet_lawful : Lawful ValidatorSet_codec.
Proof.
  split; unfold ValidatorSet_codec; cbn [encode decode wf].
  - intros s rest [Hwf Hc]. codec_complete. by rewrite Hc.
  - intros b s rest Hd. apply result_bind_Ok_inv in Hd as [[vs r] [Hv Hd]]. cbn beta iota in Hd.
    apply result_bind_Ok_inv in Hd as (s' & Hc & Hd). injection Hd as -> ->.
    apply (decode_sound (c := vec_codec Validator_codec)) in Hv as [Hwf ->].
    pose proof (ValidatorSet_check_Ok vs s Hc (proj2 Hwf)) as Hvs. by rewrite Hvs.
Qed.
End wire.
