(* ===== verification/Votes.v ===== *)
(** Votes, vote accounting and commit certificates
    ([crates/consensus/src/vote.rs], [crates/consensus/src/commit.rs]). *)

From S2P Require Import Prelude SortedVec Codec Primitives Crypto Validators.

(** * [vote.rs] *)

Inductive VoteType := Prevote | Precommit.

#[export] Instance VoteType_eq_dec : EqDecision VoteType.
Proof. solve_decision. Defined.

Record Vote := {
  chain_id : ChainId;
  height : Height;
  round : Round;
  vote_type : VoteType;
  block_id : option Hash32;
  validator : Address;
}.

#[export] Instance Vote_eq_dec : EqDecision Vote.
Proof. solve_decision. Defined.

Record SignedVote := { vote : Vote; signature : Signature }.

#[export] Instance SignedVote_eq_dec : EqDecision SignedVote.
Proof. solve_decision. Defined.

Record Equivocation := {
  eq_validator : Address;
  eq_first : SignedVote;
  eq_second : SignedVote;
}.

#[export] Instance Equivocation_eq_dec : EqDecision Equivocation.
Proof. solve_decision. Defined.

Inductive VoteError := WrongSet | WrongChain (chain : bytes) | NotAValidator | InvalidSignature.

#[export] Instance VoteError_eq_dec : EqDecision VoteError.
Proof. solve_decision. Defined.

Inductive VoteOutcome := Added | Duplicate | Equivocated (e : Equivocation).

#[export] Instance VoteOutcome_eq_dec : EqDecision VoteOutcome.
Proof. solve_decision. Defined.

(** ** Wire form *)

Definition VoteType_codec : codec VoteType := {|
  encode := λ t, encode u8_codec (match t with Prevote => 0 | Precommit => 1 end);
  decode := λ r,
    '(tag, r) ← decode u8_codec r;
    if tag =? 0 then Ok (Prevote, r)
    else if tag =? 1 then Ok (Precommit, r)
    else Err (UnknownDiscriminant tag "VoteType");
  wf := λ _, True;
|}.

Definition Vote_codec : codec Vote := {|
  encode := λ v,
    encode ChainId_codec (chain_id v) ++ encode Height_codec (height v) ++ encode Round_codec (round v)
    ++ encode VoteType_codec (vote_type v) ++ encode (option_codec Hash32_codec) (block_id v)
    ++ encode Address_codec (validator v);
  decode := λ r,
    '(c, r) ← decode ChainId_codec r;
    '(h, r) ← decode Height_codec r;
    '(rd, r) ← decode Round_codec r;
    '(t, r) ← decode VoteType_codec r;
    '(b, r) ← decode (option_codec Hash32_codec) r;
    '(a, r) ← decode Address_codec r;
    Ok ({| chain_id := c; height := h; round := rd; vote_type := t; block_id := b; validator := a |}, r);
  wf := λ v,
    wf ChainId_codec (chain_id v) ∧ wf Height_codec (height v) ∧ wf Round_codec (round v)
    ∧ wf (option_codec Hash32_codec) (block_id v) ∧ wf Address_codec (validator v);
|}.

Definition SignedVote_codec : codec SignedVote := {|
  encode := λ s, encode Vote_codec (vote s) ++ encode Signature_codec (signature s);
  decode := λ r,
    '(v, r) ← decode Vote_codec r;
    '(s, r) ← decode Signature_codec r;
    Ok ({| vote := v; signature := s |}, r);
  wf := λ s, wf Vote_codec (vote s) ∧ wf Signature_codec (signature s);
|}.

Definition Equivocation_codec : codec Equivocation := {|
  encode := λ e,
    encode Address_codec (eq_validator e) ++ encode SignedVote_codec (eq_first e)
    ++ encode SignedVote_codec (eq_second e);
  decode := λ r,
    '(a, r) ← decode Address_codec r;
    '(f, r) ← decode SignedVote_codec r;
    '(s, r) ← decode SignedVote_codec r;
    Ok ({| eq_validator := a; eq_first := f; eq_second := s |}, r);
  wf := λ e,
    wf Address_codec (eq_validator e) ∧ wf SignedVote_codec (eq_first e)
    ∧ wf SignedVote_codec (eq_second e);
|}.
Arguments VoteType_codec : simpl never.
Arguments Vote_codec : simpl never.
Arguments SignedVote_codec : simpl never.
Arguments Equivocation_codec : simpl never.

#[export] Instance VoteType_lawful : Lawful VoteType_codec.
Proof.
  split; unfold VoteType_codec; cbn [encode decode wf].
  - intros [] rest _; codec_complete; done.
  - intros b x rest Hd. codec_sound; bool_simpl; subst; done.
Qed.

#[export] Instance Vote_lawful : Lawful Vote_codec.
Proof.
  split; unfold Vote_codec; cbn [encode decode wf].
  - intros [c h rd t b a] rest (?&?&?&?&?). cbn [chain_id height round vote_type block_id validator] in *.
    codec_complete. done.
  - intros b x rest Hd. codec_sound. cbn [chain_id height round vote_type block_id validator].
    by rewrite <- !app_assoc.
Qed.

#[export] Instance SignedVote_lawful : Lawful SignedVote_codec.
Proof.
  split; unfold SignedVote_codec; cbn [encode decode wf].
  - intros [v s] rest [? ?]. cbn [vote signature] in *. codec_complete. done.
  - intros b x rest Hd. codec_sound. cbn [vote signature]. by rewrite <- !app_assoc.
Qed.

#[export] Instance Equivocation_lawful : Lawful Equivocation_codec.
Proof.
  split; unfold Equivocation_codec; cbn [encode decode wf].
  - intros [a f s] rest (?&?&?). cbn [eq_validator eq_first eq_second] in *. codec_complete. done.
  - intros b x rest Hd. codec_sound. cbn [eq_validator eq_first eq_second]. by rewrite <- !app_assoc.
Qed.

(** [Vote::sign_doc]. *)
Definition sign_doc (v : Vote) : bytes := encode Vote_codec v.

(** ** Vote sets *)

(** [Ord] of [Option<Hash32>]: nil first, then by bytes. *)
Definition value_key (o : option Hash32) : bytes :=
  match o with None => [] | Some h => byte_of 1 :: h end.

Record VoteSet := {
  vs_chain_id : ChainId;
  vs_height : Height;
  vs_round : Round;
  vs_vote_type : VoteType;
  votes : list (Address * SignedVote);
  equivocators : list (Address * Equivocation);
  power_by_value : list (option Hash32 * Z);
  total_voted : Z;
}.

Definition VoteSet_new (c : ChainId) (h : Height) (r : Round) (t : VoteType) : VoteSet :=
  {| vs_chain_id := c; vs_height := h; vs_round := r; vs_vote_type := t;
     votes := []; equivocators := []; power_by_value := []; total_voted := 0 |}.

Abbreviation addr_key := (λ a : Address, a : bytes).

Section voting.
Context `{Hasher, Signer}.

(** [Vote::sign], with the secret key's signing function. *)
Definition Vote_sign (sign : Domain → bytes → Signature) (v : Vote) : SignedVote :=
  {| vote := v; signature := sign DVoteSignDoc (sign_doc v) |}.

Definition signature_ok (pk : PublicKey) (s : SignedVote) : bool :=
  PublicKey_verify pk DVoteSignDoc (sign_doc (vote s)) (signature s).

(** [VoteSet::add]. *)
Definition VoteSet_add (vset : ValidatorSet) (signed : SignedVote) : M VoteSet VoteError VoteOutcome := λ vs,
  let v := vote signed in
  if negb (height v =? vs_height vs) || negb (round v =? vs_round vs)
     || negb (bool_decide (vote_type v = vs_vote_type vs)) then (Err WrongSet, vs)
  else if negb (bool_decide (chain_id v = vs_chain_id vs)) then (Err (WrongChain (chain_id v)), vs)
  else
    match vs_get vset (validator v) with
    | None => (Err NotAValidator, vs)
    | Some member =>
        if negb (signature_ok (v_public_key member) signed) then (Err InvalidSignature, vs)
        else if bt_contains addr_key (validator v) (equivocators vs) then (Ok Duplicate, vs)
        else
          let power := voting_power member in
          match bt_get addr_key (validator v) (votes vs) with
          | Some existing =>
              if bool_decide (block_id (vote existing) = block_id v) then (Ok Duplicate, vs)
              else
                let evidence :=
                  {| eq_validator := validator v; eq_first := existing; eq_second := signed |} in
                let previous_value := block_id (vote existing) in
                (Ok (Equivocated evidence),
                 {| vs_chain_id := vs_chain_id vs; vs_height := vs_height vs; vs_round := vs_round vs;
                    vs_vote_type := vs_vote_type vs;
                    votes := bt_remove addr_key (validator v) (votes vs);
                    equivocators := bt_insert addr_key (validator v) evidence (equivocators vs);
                    power_by_value :=
                      match bt_get value_key previous_value (power_by_value vs) with
                      | Some slot => bt_insert value_key previous_value (saturating_sub slot power) (power_by_value vs)
                      | None => power_by_value vs
                      end;
                    total_voted := saturating_sub (total_voted vs) power |})
          | None =>
              (Ok Added,
               {| vs_chain_id := vs_chain_id vs; vs_height := vs_height vs; vs_round := vs_round vs;
                  vs_vote_type := vs_vote_type vs;
                  votes := bt_insert addr_key (validator v) signed (votes vs);
                  equivocators := equivocators vs;
                  power_by_value :=
                    bt_insert value_key (block_id v)
                      (saturating_add u64_max (default 0 (bt_get value_key (block_id v) (power_by_value vs))) power)
                      (power_by_value vs);
                  total_voted := saturating_add u64_max (total_voted vs) power |})
          end
    end.

Definition power_for (vs : VoteSet) (b : option Hash32) : Z :=
  default 0 (bt_get value_key b (power_by_value vs)).

Definition votes_len (vs : VoteSet) : nat := length (votes vs).

Definition equivocations (vs : VoteSet) : list Equivocation := snd <$> equivocators vs.

Definition votes_for (vs : VoteSet) (b : option Hash32) : list SignedVote :=
  List.filter (λ s, bool_decide (block_id (vote s) = b)) (snd <$> votes vs).

Definition quorum_value (vs : VoteSet) (vset : ValidatorSet) : option (option Hash32) :=
  fst <$> List.find (λ e, has_quorum vset e.2) (power_by_value vs).

Definition has_quorum_any (vs : VoteSet) (vset : ValidatorSet) : bool := has_quorum vset (total_voted vs).

(** * [commit.rs] *)

Inductive CommitError :=
| CEmpty
| CMismatchedVote
| CDuplicateSigner
| CUnknownSigner
| CInvalidSignature
| CInsufficientPower (got needed : Z).

Record Commit := {
  c_height : Height;
  c_round : Round;
  c_block_id : Hash32;
  signatures : list SignedVote;
}.

Definition Commit_new (h : Height) (r : Round) (b : Hash32) (sigs : list SignedVote) : Commit :=
  {| c_height := h; c_round := r; c_block_id := b; signatures := sigs |}.

Definition vote_matches (c : Commit) (chain : ChainId) (v : Vote) : bool :=
  (height v =? c_height c) && (round v =? c_round c) && bool_decide (vote_type v = Precommit)
  && bool_decide (block_id v = Some (c_block_id c)) && bool_decide (chain_id v = chain).

(** The loop of [Commit::verify]: signers seen so far, and their power. *)
Fixpoint verify_loop (c : Commit) (chain : ChainId) (vset : ValidatorSet) (sigs : list SignedVote)
    (seen : list Address) (power : Z) : result CommitError Z :=
  match sigs with
  | [] => Ok power
  | signed :: sigs =>
      let v := vote signed in
      if negb (vote_matches c chain v) then Err CMismatchedVote
      else if bool_decide (validator v ∈ seen) then Err CDuplicateSigner
      else
        match vs_get vset (validator v) with
        | None => Err CUnknownSigner
        | Some member =>
            if negb (signature_ok (v_public_key member) signed) then Err CInvalidSignature
            else verify_loop c chain vset sigs (validator v :: seen)
                   (saturating_add u64_max power (voting_power member))
        end
  end.

Definition Commit_verify (c : Commit) (chain : ChainId) (vset : ValidatorSet) : result CommitError unit :=
  if bool_decide (signatures c = []) then Err CEmpty
  else
    power ← verify_loop c chain vset (signatures c) [] 0;
    if negb (has_quorum vset power) then Err (CInsufficientPower power (quorum_threshold vset))
    else Ok tt.

Definition claimed_power (c : Commit) (vset : ValidatorSet) : Z :=
  fold_left (λ acc s, saturating_add u64_max acc (vs_power_of vset (validator (vote s)))) (signatures c) 0.
End voting.

Definition Commit_codec : codec Commit := {|
  encode := λ c,
    encode Height_codec (c_height c) ++ encode Round_codec (c_round c) ++ encode Hash32_codec (c_block_id c)
    ++ encode (vec_codec SignedVote_codec) (signatures c);
  decode := λ r,
    '(h, r) ← decode Height_codec r;
    '(rd, r) ← decode Round_codec r;
    '(b, r) ← decode Hash32_codec r;
    '(s, r) ← decode (vec_codec SignedVote_codec) r;
    Ok ({| c_height := h; c_round := rd; c_block_id := b; signatures := s |}, r);
  wf := λ c,
    wf Height_codec (c_height c) ∧ wf Round_codec (c_round c) ∧ wf Hash32_codec (c_block_id c)
    ∧ wf (vec_codec SignedVote_codec) (signatures c);
|}.
Arguments Commit_codec : simpl never.

#[export] Instance Commit_lawful : Lawful Commit_codec.
Proof.
  split; unfold Commit_codec; cbn [encode decode wf].
  - intros [h r b s] rest (?&?&?&?). cbn [c_height c_round c_block_id signatures] in *. codec_complete. done.
  - intros b x rest Hd. codec_sound. cbn [c_height c_round c_block_id signatures]. by rewrite <- !app_assoc.
Qed.
