(* ===== verification/VoteProofs.v ===== *)
(** Vote accounting is exact, quorums are unique, and commit certificates mean what
    they say ([crates/consensus/src/vote.rs], [crates/consensus/src/commit.rs]). *)

From S2P Require Import Prelude SortedVec Codec Primitives Crypto Validators Votes.

Lemma value_key_inj a b : value_key a = value_key b → a = b.
Proof. destruct a, b; simpl; congruence. Qed.
Lemma addr_key_inj (a b : Address) : addr_key a = addr_key b → a = b.
Proof. done. Qed.

Section accounting.
Context `{Hasher, Signer} (vset : ValidatorSet).
Implicit Types (vs : VoteSet) (a : Address) (b : option Hash32) (s : SignedVote).

(** ** The invariant *)

(** [s] is a vote of [vs]'s chain, height, round and phase, properly signed by the
    member [a]. *)
Definition valid_vote vs a s : Prop :=
  validator (vote s) = a ∧ height (vote s) = vs_height vs ∧ round (vote s) = vs_round vs
  ∧ vote_type (vote s) = vs_vote_type vs ∧ chain_id (vote s) = vs_chain_id vs
  ∧ ∃ m, vs_get vset a = Some m ∧ signature_ok (v_public_key m) s = true.

Definition valid_evidence vs a (e : Equivocation) : Prop :=
  eq_validator e = a ∧ valid_vote vs a (eq_first e) ∧ valid_vote vs a (eq_second e)
  ∧ block_id (vote (eq_first e)) ≠ block_id (vote (eq_second e)).

Definition entry_power (e : Address * SignedVote) : Z := vs_power_of vset e.1.
Definition value_power b (e : Address * SignedVote) : Z :=
  if bool_decide (block_id (vote e.2) = b) then vs_power_of vset e.1 else 0.

Record vote_set_ok vs : Prop := {
  vso_votes_sorted : StronglySorted (key_lt (bt_key addr_key)) (votes vs);
  vso_equiv_sorted : StronglySorted (key_lt (bt_key addr_key)) (equivocators vs);
  vso_power_sorted : StronglySorted (key_lt (bt_key value_key)) (power_by_value vs);
  vso_votes a s : (a, s) ∈ votes vs → valid_vote vs a s;
  vso_evidence a e : (a, e) ∈ equivocators vs → valid_evidence vs a e;
  vso_disjoint a s e : (a, s) ∈ votes vs → (a, e) ∈ equivocators vs → False;
  vso_power b : power_for vs b = list_sum (value_power b) (votes vs);
  vso_total : total_voted vs = list_sum entry_power (votes vs);
}.

Lemma vote_set_new_ok c h r t : vote_set_ok (VoteSet_new c h r t).
Proof. split; simpl; try (by constructor); try (intros ? ? ?%elem_of_nil; done); try done. by intros ? ? ? ?%elem_of_nil. Qed.

Context (Hvset : vs_ok vset).

Lemma entry_power_sum l : list_sum entry_power l = list_sum (vs_power_of vset) (fst <$> l).
Proof. induction l as [|[a s] l IH]; [done|]. cbn. by f_equal. Qed.

Lemma votes_power_bounded l : NoDup (fst <$> l) → list_sum entry_power l ≤ total_power vset.
Proof. intros Hl. rewrite entry_power_sum. by apply power_le_total. Qed.

Lemma value_power_bounds b e : 0 ≤ value_power b e ≤ entry_power e.
Proof.
  unfold value_power, entry_power. pose proof (vs_power_nonneg vset e.1 Hvset). case_bool_decide; lia.
Qed.

Lemma value_power_le b l : 0 ≤ list_sum (value_power b) l ≤ list_sum entry_power l.
Proof.
  split; [apply list_sum_nonneg|apply list_sum_le]; apply Forall_forall; intros e _; apply value_power_bounds.
Qed.

Lemma power_for_insert vs vs' k x b :
  StronglySorted (key_lt (bt_key value_key)) (power_by_value vs) →
  power_by_value vs' = bt_insert value_key k x (power_by_value vs) →
  power_for vs' b = if decide (b = k) then x else power_for vs b.
Proof.
  intros Hs E. unfold power_for. rewrite E, bt_get_insert by (exact value_key_inj || done).
  case_decide as D; [subst; by rewrite bool_decide_eq_true_2|].
  rewrite bool_decide_eq_false_2; [done|]. by intros ?%value_key_inj.
Qed.

(** Recording a first vote. *)
Lemma add_new_ok vs s m vs' :
  vote_set_ok vs → valid_vote vs (validator (vote s)) s →
  vs_get vset (validator (vote s)) = Some m →
  bt_get addr_key (validator (vote s)) (votes vs) = None →
  bt_contains addr_key (validator (vote s)) (equivocators vs) = false →
  vs_chain_id vs' = vs_chain_id vs → vs_height vs' = vs_height vs → vs_round vs' = vs_round vs →
  vs_vote_type vs' = vs_vote_type vs →
  votes vs' = bt_insert addr_key (validator (vote s)) s (votes vs) →
  equivocators vs' = equivocators vs →
  power_by_value vs' =
    bt_insert value_key (block_id (vote s))
      (saturating_add u64_max (power_for vs (block_id (vote s))) (voting_power m)) (power_by_value vs) →
  total_voted vs' = saturating_add u64_max (total_voted vs) (voting_power m) →
  vote_set_ok vs'.
Proof.
  intros [Hsv Hse Hsp Hv He Hd Hp Ht] Hval Hm Hnone Hne E1 E2 E3 E4 E5 E6 E7 E8.
  set (a := validator (vote s)) in *.
  assert (vs_power_of vset a = voting_power m) as Hpow by (unfold vs_power_of; by rewrite Hm).
  pose proof (bt_insert_sorted addr_key addr_key_inj a s (votes vs) Hsv) as Hsorted.
  assert (∀ w, list_sum w (votes vs') = list_sum w (votes vs) + w (a, s)) as Hsum.
  { intros w. rewrite E5, (list_sum_bt_insert addr_key addr_key_inj w a s (votes vs) Hsv), Hnone. simpl. lia. }
  assert (list_sum entry_power (votes vs') ≤ u64_max) as Hbound.
  { etrans; [|apply (vs_bounded vset Hvset)]. apply votes_power_bounded. rewrite E5. by apply (bt_keys_NoDup addr_key). }
  assert (entry_power (a, s) = voting_power m) as Hep by done.
  assert (∀ x t, valid_vote vs x t → valid_vote vs' x t) as Hvv.
  { intros x t. unfold valid_vote. by rewrite E1, E2, E3, E4. }
  rewrite Hsum, Hep in Hbound.
  split.
  - by rewrite E5.
  - by rewrite E6.
  - rewrite E7. by apply bt_insert_sorted; [exact value_key_inj|].
  - intros x t. rewrite E5, (elem_of_bt_insert addr_key addr_key_inj) by done.
    intros [[= -> ->]|[Hin _]]; [by apply Hvv|by apply Hvv, Hv].
  - intros x e. rewrite E6. intros Hin. destruct (He x e Hin) as (?&?&?&?). split_and!; auto.
  - intros x t e. rewrite E5, E6, (elem_of_bt_insert addr_key addr_key_inj) by done.
    intros [[= -> ->]|[Hin _]] Hin'; [|by eapply Hd].
    unfold bt_contains in Hne. bool_simpl. apply Hne. exists e. by apply (bt_get_Some addr_key addr_key_inj).
  - intros b. rewrite (power_for_insert vs vs' _ _ b Hsp E7), Hsum, <- Hp. unfold value_power at 1. simpl.
    case_decide as D.
    + subst b. rewrite bool_decide_eq_true_2, Hpow by done. unfold saturating_add. apply Z.min_r.
      rewrite Hp. pose proof (value_power_le (block_id (vote s)) (votes vs)). lia.
    + rewrite bool_decide_eq_false_2 by done. lia.
  - rewrite E8, Hsum, Ht, Hep. unfold saturating_add. apply Z.min_r. lia.
Qed.

(** Withdrawing an equivocator. *)
Lemma add_equivocation_ok vs s existing m vs' :
  let a := validator (vote s) in
  let e := {| eq_validator := a; eq_first := existing; eq_second := s |} in
  vote_set_ok vs → valid_vote vs a s → vs_get vset a = Some m →
  bt_get addr_key a (votes vs) = Some existing →
  block_id (vote existing) ≠ block_id (vote s) →
  vs_chain_id vs' = vs_chain_id vs → vs_height vs' = vs_height vs → vs_round vs' = vs_round vs →
  vs_vote_type vs' = vs_vote_type vs →
  votes vs' = bt_remove addr_key a (votes vs) →
  equivocators vs' = bt_insert addr_key a e (equivocators vs) →
  power_by_value vs' =
    match bt_get value_key (block_id (vote existing)) (power_by_value vs) with
    | Some slot => bt_insert value_key (block_id (vote existing)) (saturating_sub slot (voting_power m)) (power_by_value vs)
    | None => power_by_value vs
    end →
  total_voted vs' = saturating_sub (total_voted vs) (voting_power m) →
  vote_set_ok vs' ∧ valid_evidence vs a e.
Proof.
  intros a e [Hsv Hse Hsp Hv He Hd Hp Ht] Hval Hm Hex Hne E1 E2 E3 E4 E5 E6 E7 E8.
  assert (vs_power_of vset a = voting_power m) as Hpow by (unfold vs_power_of; by rewrite Hm).
  pose proof Hex as Hin%(bt_get_Some addr_key addr_key_inj); [|done].
  assert (valid_evidence vs a e) as Hev by (split_and!; [done|by apply Hv|done|done]).
  split; [|done].
  assert (∀ w, list_sum w (votes vs') = list_sum w (votes vs) - w (a, existing)) as Hsum.
  { intros w. by rewrite E5, (list_sum_bt_remove addr_key addr_key_inj w a (votes vs) Hsv), Hex. }
  assert (∀ x t, valid_vote vs x t → valid_vote vs' x t) as Hvv.
  { intros x t. unfold valid_vote. by rewrite E1, E2, E3, E4. }
  assert (∀ x t, valid_evidence vs x t → valid_evidence vs' x t) as Hve.
  { intros x t (?&?&?&?). split_and!; auto. }
  set (prev := block_id (vote existing)) in *.
  assert (0 ≤ power_for vs prev - voting_power m) as Hge.
  { rewrite Hp, <- Hpow. pose proof (value_power_le prev (votes vs')) as Hle. rewrite Hsum in Hle.
    unfold value_power at 2 in Hle. simpl in Hle. rewrite bool_decide_eq_true_2 in Hle by done. lia. }
  split.
  - rewrite E5. by apply bt_remove_sorted.
  - rewrite E6. by apply bt_insert_sorted; [exact addr_key_inj|].
  - rewrite E7. case_match; [|done]. by apply bt_insert_sorted; [exact value_key_inj|].
  - intros x t. rewrite E5, (elem_of_bt_remove addr_key addr_key_inj) by done. intros [Hx _]. by apply Hvv, Hv.
  - intros x t. rewrite E6, (elem_of_bt_insert addr_key addr_key_inj) by done.
    intros [[= -> ->]|[Hx _]]; apply Hve; [done|by apply He].
  - intros x t e'. rewrite E5, E6, (elem_of_bt_remove addr_key addr_key_inj), (elem_of_bt_insert addr_key addr_key_inj) by done.
    simpl. intros [Hx Hxa] [[= -> _]|[Hx' _]]; [done|by eapply Hd].
  - intros b. rewrite Hsum, <- Hp. unfold value_power. simpl. fold prev.
    destruct (bt_get value_key prev (power_by_value vs)) as [slot|] eqn:Hslot.
    + rewrite (power_for_insert vs vs' _ _ b Hsp E7). unfold saturating_sub.
      assert (power_for vs prev = slot) as Hps by (unfold power_for; by rewrite Hslot).
      case_decide as D; [subst b; rewrite bool_decide_eq_true_2 by done; lia|].
      rewrite bool_decide_eq_false_2 by done. lia.
    + assert (power_for vs' b = power_for vs b) as -> by (unfold power_for; by rewrite E7).
      assert (power_for vs prev = 0) as Hz by (unfold power_for; by rewrite Hslot).
      pose proof (vs_power_nonneg vset a Hvset). case_bool_decide; [subst b|]; lia.
  - rewrite E8, Hsum, Ht. unfold entry_power at 3. simpl. rewrite Hpow. unfold saturating_sub.
    apply Z.max_r. rewrite <- Ht. pose proof (value_power_le prev (votes vs')) as Hle.
    rewrite !Hsum, <- Ht in Hle. unfold entry_power, value_power in Hle. simpl in Hle.
    rewrite bool_decide_eq_true_2 in Hle by done. lia.
Qed.

Lemma VoteSet_add_ok vs s r vs' :
  vote_set_ok vs → VoteSet_add vset s vs = (r, vs') →
  vote_set_ok vs'
  ∧ (vs_chain_id vs', vs_height vs', vs_round vs', vs_vote_type vs')
    = (vs_chain_id vs, vs_height vs, vs_round vs, vs_vote_type vs)
  ∧ match r with
    | Err _ => vs' = vs
    | Ok Duplicate => vs' = vs
    | Ok Added => valid_vote vs (validator (vote s)) s
    | Ok (Equivocated e) => valid_evidence vs (validator (vote s)) e ∧ eq_second e = s
    end.
Proof.
  intros Hok. unfold VoteSet_add.
  destruct (negb (height (vote s) =? vs_height vs) || _ || _) eqn:Eset; [by intros [= <- <-]|].
  destruct (negb (bool_decide (chain_id (vote s) = vs_chain_id vs))) eqn:Echain; [by intros [= <- <-]|].
  destruct (vs_get vset (validator (vote s))) as [m|] eqn:Hm; [|by intros [= <- <-]].
  destruct (signature_ok (v_public_key m) s) eqn:Hsig; simpl; [|by intros [= <- <-]].
  destruct (bt_contains addr_key (validator (vote s)) (equivocators vs)) eqn:Heq; [by intros [= <- <-]|].
  bool_simpl.
  assert (valid_vote vs (validator (vote s)) s) as Hval by (split_and!; eauto).
  destruct (bt_get addr_key (validator (vote s)) (votes vs)) as [existing|] eqn:Hex.
  - case_bool_decide as Hb; [by intros [= <- <-]|]. intros [= <- <-].
    match goal with |- vote_set_ok ?vs' ∧ _ =>
      destruct (add_equivocation_ok vs s existing m vs' Hok Hval Hm Hex Hb) as [Hok' Hev]; [done..|] end.
    done.
  - intros [= <- <-]. split; [|done].
    match goal with |- vote_set_ok ?vs' => by apply (add_new_ok vs s m vs' Hok Hval Hm Hex Heq) end.
Qed.

(** Feeding a vote set whatever arrives. *)
Definition add_all vs (l : list SignedVote) : VoteSet := foldl (λ vs s, (VoteSet_add vset s vs).2) vs l.

Lemma add_all_ok vs l :
  vote_set_ok vs →
  vote_set_ok (add_all vs l)
  ∧ (vs_chain_id (add_all vs l), vs_height (add_all vs l), vs_round (add_all vs l), vs_vote_type (add_all vs l))
    = (vs_chain_id vs, vs_height vs, vs_round vs, vs_vote_type vs).
Proof.
  revert vs. induction l as [|s l IH]; intros vs Hok; [done|]. simpl.
  destruct (VoteSet_add vset s vs) as [r vs1] eqn:E.
  destruct (VoteSet_add_ok _ _ _ _ Hok E) as (Hok1 & E1 & _).
  destruct (IH vs1 Hok1) as [Hok2 E2]. simpl. by rewrite E2, E1.
Qed.

(** Recording the only vote of a member. *)
Lemma VoteSet_add_fresh vs s :
  vote_set_ok vs → equivocators vs = [] → valid_vote vs (validator (vote s)) s → validator (vote s) ∉ fst <$> votes vs →
  votes (VoteSet_add vset s vs).2 = bt_insert addr_key (validator (vote s)) s (votes vs)
  ∧ bt_get addr_key (validator (vote s)) (votes vs) = None ∧ equivocators (VoteSet_add vset s vs).2 = [].
Proof.
  intros Hok He (_ & Hh & Hr & Ht & Hc & m & Hm & Hsig) Hnew.
  assert (bt_get addr_key (validator (vote s)) (votes vs) = None) as Hg.
  { destruct (bt_get addr_key _ _) as [s'|] eqn:E; [|done]. apply (bt_get_Some addr_key addr_key_inj) in E; [|apply Hok].
    destruct Hnew. apply list_elem_of_fmap. by exists (validator (vote s), s'). }
  unfold VoteSet_add. rewrite Hh, Hr, Ht, Hc, !Z.eqb_refl, !bool_decide_eq_true_2 by done. cbn [negb orb].
  rewrite Hm, Hsig, He. cbn [negb]. change (bt_contains addr_key (validator (vote s)) []) with false. by rewrite Hg.
Qed.

(** When each member votes at most once, a value's tally is the power of those who named it. *)
Lemma add_all_fresh vs l b :
  vote_set_ok vs → equivocators vs = [] → NoDup (((λ s, validator (vote s)) <$> l) ++ (fst <$> votes vs)) →
  Forall (λ s, valid_vote vs (validator (vote s)) s) l →
  power_for (add_all vs l) b = power_for vs b + list_sum (λ s, value_power b (validator (vote s), s)) l.
Proof.
  revert vs. induction l as [|s l IH]; intros vs Hok He Hnd Hl; [cbn; lia|].
  cbn [fmap list_fmap app] in Hnd. apply NoDup_cons in Hnd as [Hs Hnd]. apply Forall_cons in Hl as [Hv Hl].
  destruct (VoteSet_add_fresh vs s Hok He Hv) as (Ev & Hg & He'); [intros Hin; apply Hs, elem_of_app; by right|].
  change (add_all vs (s :: l)) with (add_all (VoteSet_add vset s vs).2 l).
  destruct (VoteSet_add vset s vs) as [r vs1] eqn:E. cbn [snd] in *.
  destruct (VoteSet_add_ok _ _ _ _ Hok E) as (Hok1 & E1 & _). injection E1 as E1 E2 E3 E4.
  rewrite IH; [|done..| |].
  - rewrite list_sum_cons, !vso_power, Ev by done.
    rewrite (list_sum_bt_insert addr_key addr_key_inj) by apply Hok. rewrite Hg. cbn [from_option]. lia.
  - rewrite Ev. rewrite NoDup_app in Hnd |- *. destruct Hnd as (Hn1 & Hn2 & Hn3). split_and!; [done| |].
    + intros x Hx (e & -> & Hin)%list_elem_of_fmap.
      apply (elem_of_bt_insert addr_key addr_key_inj) in Hin as [->|[Hin _]]; [|by eapply (Hn2 e.1); [|apply list_elem_of_fmap_2]|apply Hok].
      apply Hs, elem_of_app. by left.
    + rewrite <- Ev. apply (bt_keys_NoDup addr_key), Hok1.
  - eapply Forall_impl; [exact Hl|]. intros x. unfold valid_vote. by rewrite E1, E2, E3, E4.
Qed.

(** ** Quorums are unique *)

Lemma two_values_bounded vs b1 b2 :
  vote_set_ok vs → b1 ≠ b2 → power_for vs b1 + power_for vs b2 ≤ total_power vset.
Proof.
  intros Hok Hne. rewrite !(vso_power vs Hok). rewrite <- list_sum_add.
  etrans; [|apply (votes_power_bounded (votes vs))].
  - apply list_sum_le, Forall_forall. intros e _. unfold value_power, entry_power.
    pose proof (vs_power_nonneg vset e.1 Hvset). repeat case_bool_decide; try lia. congruence.
  - apply (bt_keys_NoDup addr_key), Hok.
Qed.

Lemma quorum_unique vs b1 b2 :
  vote_set_ok vs → has_quorum vset (power_for vs b1) = true → has_quorum vset (power_for vs b2) = true → b1 = b2.
Proof.
  intros Hok H1 H2. destruct (decide (b1 = b2)) as [|Hne]; [done|].
  pose proof (two_values_bounded vs b1 b2 Hok Hne). pose proof (vs_total_pos vset Hvset).
  pose proof (vs_bounded vset Hvset). unfold has_quorum in *. rewrite quorum_threshold_eq in * by lia.
  bool_simpl. Z.to_euclidean_division_equations. lia.
Qed.

Lemma quorum_value_Some vs b :
  vote_set_ok vs → quorum_value vs vset = Some b ↔ has_quorum vset (power_for vs b) = true.
Proof.
  intros Hok. unfold quorum_value.
  assert (∀ b' x, (b', x) ∈ power_by_value vs → power_for vs b' = x) as Hin.
  { intros b' x Hx. unfold power_for.
    by rewrite (proj2 (bt_get_Some value_key value_key_inj b' x _ (vso_power_sorted vs Hok)) Hx). }
  destruct (List.find _ _) as [[b' x]|] eqn:E; simpl.
  - apply List.find_some in E as [Hx Hq]. apply list_elem_of_In in Hx. simpl in Hq.
    rewrite <- (Hin _ _ Hx) in Hq. split; [by intros [= <-]|]. intros Hb. f_equal. by apply (quorum_unique vs).
  - split; [done|]. intros Hb. exfalso. unfold power_for in Hb.
    destruct (bt_get value_key b (power_by_value vs)) as [x|] eqn:Hg; simpl in Hb.
    + apply (bt_get_Some value_key value_key_inj) in Hg; [|apply Hok].
      apply list_elem_of_In, (List.find_none _ _ E) in Hg. simpl in Hg. congruence.
    + unfold has_quorum in Hb. bool_simpl. pose proof (vs_total_pos vset Hvset).
      pose proof (vs_bounded vset Hvset). rewrite quorum_threshold_eq in Hb by lia.
      Z.to_euclidean_division_equations. lia.
Qed.

(** * Commit certificates *)

Definition signers (l : list SignedVote) : list Address := (λ s, validator (vote s)) <$> l.

(** A signature a verifier counts. *)
Definition counted (c : Commit) (chain : ChainId) s : Prop :=
  vote_matches c chain (vote s) = true
  ∧ ∃ m, vs_get vset (validator (vote s)) = Some m ∧ signature_ok (v_public_key m) s = true.

Lemma verify_loop_iff c chain sigs seen p :
  NoDup seen →
  verify_loop c chain vset sigs seen (list_sum (vs_power_of vset) seen) = Ok p
  ↔ Forall (counted c chain) sigs ∧ NoDup (signers sigs ++ seen)
    ∧ p = list_sum (vs_power_of vset) (signers sigs ++ seen).
Proof.
  revert seen. induction sigs as [|s sigs IH]; intros seen Hseen.
  { simpl. split; [intros [= <-]; by split_and!|by intros (_ & _ & ->)]. }
  assert (signers (s :: sigs) ++ seen ≡ₚ signers sigs ++ validator (vote s) :: seen) as Hp.
  { cbn [signers fmap list_fmap app]. by rewrite Permutation_middle. }
  rewrite (list_sum_perm _ _ _ Hp), Hp. cbn [verify_loop].
  destruct (vote_matches c chain (vote s)) eqn:Hm; simpl.
  2: { split; [done|]. intros ([[? _] _]%Forall_cons & _). congruence. }
  case_bool_decide as Hin.
  { split; [done|]. intros (_ & (_ & _ & [Hn _]%NoDup_cons)%NoDup_app & _). done. }
  destruct (vs_get vset (validator (vote s))) as [m|] eqn:Hg.
  2: { split; [done|]. intros ([[_ (m & Hm' & _)] _]%Forall_cons & _). congruence. }
  destruct (signature_ok (v_public_key m) s) eqn:Hsig; simpl.
  2: { split; [done|]. intros ([[_ (m' & Hm' & Hs)] _]%Forall_cons & _). congruence. }
  assert (NoDup (validator (vote s) :: seen)) as Hnd by by constructor.
  assert (saturating_add u64_max (list_sum (vs_power_of vset) seen) (voting_power m)
          = list_sum (vs_power_of vset) (validator (vote s) :: seen)) as ->.
  { assert (vs_power_of vset (validator (vote s)) = voting_power m) as Hpow by (unfold vs_power_of; by rewrite Hg).
    pose proof (power_le_total vset _ Hvset Hnd) as Hle. simpl in *. rewrite Hpow in *.
    pose proof (vs_bounded vset Hvset). unfold saturating_add. lia. }
  rewrite IH by done. rewrite Forall_cons.
  assert (counted c chain s) by (split; eauto). naive_solver.
Qed.

Lemma Commit_verify_Ok c chain :
  Commit_verify c chain vset = Ok tt
  ↔ Forall (counted c chain) (signatures c) ∧ NoDup (signers (signatures c))
    ∧ has_quorum vset (list_sum (vs_power_of vset) (signers (signatures c))) = true.
Proof.
  unfold Commit_verify. case_bool_decide as He.
  - rewrite He. simpl. split; [done|]. intros (_ & _ & Hq). unfold has_quorum in Hq. bool_simpl.
    pose proof (vs_total_pos vset Hvset). pose proof (vs_bounded vset Hvset).
    rewrite quorum_threshold_eq in Hq by lia. Z.to_euclidean_division_equations. lia.
  - pose proof (verify_loop_iff c chain (signatures c) []) as Hl. rewrite app_nil_r in Hl. simpl in Hl.
    destruct (verify_loop c chain vset (signatures c) [] 0) as [p|e] eqn:E; simpl.
    + destruct (Hl p (NoDup_nil_2)) as [Hl1 _]. destruct (Hl1 eq_refl) as (? & ? & ->).
      destruct (has_quorum _ _); naive_solver.
    + split; [done|]. intros (Hf & Hn & _). destruct (Hl (list_sum (vs_power_of vset) (signers (signatures c))) NoDup_nil_2) as [_ Hl2].
      by specialize (Hl2 (conj Hf (conj Hn eq_refl))).
Qed.

(** The precommits held for a value, with the power they carry. *)
Lemma votes_for_signers vs b :
  vote_set_ok vs →
  NoDup (signers (votes_for vs b)) ∧ list_sum (vs_power_of vset) (signers (votes_for vs b)) = power_for vs b.
Proof.
  intros Hok. rewrite (vso_power vs Hok). unfold votes_for.
  assert (Forall (λ e, validator (vote e.2) = e.1) (votes vs)) as Hv.
  { apply Forall_forall. intros [a s] Hin. by destruct (vso_votes vs Hok a s Hin). }
  pose proof (bt_keys_NoDup addr_key _ (vso_votes_sorted vs Hok)) as Hnd. revert Hnd.
  induction Hv as [|[a s] l Ha Hl IH]; [by split; [constructor|]|]. simpl in Ha. subst a.
  cbn [fmap list_fmap fst snd List.filter list_sum foldr]. intros [Hn Hnd]%NoDup_cons.
  destruct (IH Hnd) as [IH1 IH2]. unfold value_power at 1. simpl. case_bool_decide as Hb.
  - cbn [signers fmap list_fmap list_sum foldr]. split; [|by f_equal]. constructor; [|done]. intros Hin. apply Hn.
    apply list_elem_of_fmap in Hin as (s' & Es & Hs'). apply list_elem_of_In, List.filter_In in Hs' as [Hs' _].
    apply list_elem_of_In, list_elem_of_fmap in Hs' as ([a' s''] & -> & Hin). simpl in *.
    apply list_elem_of_fmap. exists (a', s''). split; [|done]. rewrite Forall_forall in Hl.
    specialize (Hl _ Hin). simpl in *. congruence.
  - split; [done|]. rewrite Z.add_0_l. exact IH2.
Qed.

(** The certificate assembled from the precommits held for a value over the quorum line. *)
Lemma held_commit_verifies vs (blk : Hash32) :
  vote_set_ok vs → vs_vote_type vs = Precommit → quorum_value vs vset = Some (Some blk) →
  Commit_verify (Commit_new (vs_height vs) (vs_round vs) blk (votes_for vs (Some blk))) (vs_chain_id vs) vset = Ok tt.
Proof.
  intros Hok Ety Hq. destruct (votes_for_signers vs (Some blk) Hok) as [Hnd Hsum].
  apply Commit_verify_Ok. simpl. split_and!; [|done|rewrite Hsum; by apply quorum_value_Some].
  apply Forall_forall. intros s Hs. apply list_elem_of_In, List.filter_In in Hs as [Hs Hb].
  apply list_elem_of_In, list_elem_of_fmap in Hs as ([a s'] & -> & Hin). bool_simpl. simpl in *.
  destruct (vso_votes vs Hok _ _ Hin) as (Hv & Hh & Hr & Ht & Hc & m & Hm & Hsig).
  split; [|exists m; by rewrite Hv]. unfold vote_matches. simpl.
  rewrite Hh, Hr, Ht, Hc, Hb, Ety, !Z.eqb_refl. by rewrite !bool_decide_eq_true_2.
Qed.

(** * The claims *)

(** Vote accounting is exact.  However votes arrive, duplicated, reordered, forged or
    conflicting, the tally of every value is the total power of the distinct
    members whose single held vote is a correctly signed vote for it, the overall
    tally is their sum over all values, and a validator caught equivocating
    counts for nothing. *)
Theorem vote_accounting_exact c h r t (l : list SignedVote) b :
  let vs := add_all (VoteSet_new c h r t) l in
  power_for vs b = list_sum (vs_power_of vset) (signers (votes_for vs b))
  ∧ NoDup (signers (votes_for vs b))
  ∧ Forall (λ s, valid_vote vs (validator (vote s)) s ∧ block_id (vote s) = b) (votes_for vs b)
  ∧ total_voted vs = list_sum (vs_power_of vset) (fst <$> votes vs)
  ∧ total_voted vs ≤ total_power vset
  ∧ ∀ a e, (a, e) ∈ equivocators vs → a ∉ fst <$> votes vs.
Proof.
  intros vs. destruct (add_all_ok (VoteSet_new c h r t) l (vote_set_new_ok c h r t)) as [Hok _]. fold vs in Hok.
  destruct (votes_for_signers vs b Hok) as [Hnd Hsum].
  split_and!; [done|done| | | |].
  - apply Forall_forall. intros s Hs. apply list_elem_of_In, List.filter_In in Hs as [Hs Hb].
    apply list_elem_of_In, list_elem_of_fmap in Hs as ([a s'] & -> & Hin). bool_simpl. simpl in *.
    pose proof (vso_votes vs Hok _ _ Hin) as Hv. split; [|done]. by rewrite (proj1 Hv).
  - by rewrite (vso_total vs Hok), entry_power_sum.
  - rewrite (vso_total vs Hok). apply votes_power_bounded, (bt_keys_NoDup addr_key), Hok.
  - intros a e He Ha. apply list_elem_of_fmap in Ha as ([a' s] & -> & Hin). by eapply (vso_disjoint vs Hok).
Qed.

(** At most one value can reach a quorum in a vote set, and [quorum_value] reports it:
    whatever arrives, the reported value is the only one whose tally exceeds two
    thirds of the power. *)
Theorem quorum_value_unique c h r t (l : list SignedVote) b :
  let vs := add_all (VoteSet_new c h r t) l in
  quorum_value vs vset = Some b
  ↔ 2 * total_power vset < 3 * power_for vs b ∧ ∀ b', b' ≠ b → 3 * power_for vs b' ≤ 2 * total_power vset.
Proof.
  intros vs. destruct (add_all_ok (VoteSet_new c h r t) l (vote_set_new_ok c h r t)) as [Hok _]. fold vs in Hok.
  pose proof (vs_total_pos vset Hvset). pose proof (vs_bounded vset Hvset).
  assert (∀ x, has_quorum vset x = true ↔ 2 * total_power vset < 3 * x) as Hq.
  { intros x. unfold has_quorum. rewrite quorum_threshold_eq, Z.leb_le by lia.
    Z.to_euclidean_division_equations. lia. }
  rewrite quorum_value_Some, Hq by done. split; [|by intros [? _]]. intros Hb. split; [done|].
  intros b' Hne. pose proof (two_values_bounded vs b' b Hok Hne). lia.
Qed.

(** Equivocation evidence is never fabricated.  When adding a vote reports an
    equivocation, the evidence holds two votes of the same member for the same
    chain, height, round and phase, both with valid signatures, naming
    different values. *)
Theorem equivocation_evidence_sound c h r t (l : list SignedVote) s e vs' :
  VoteSet_add vset s (add_all (VoteSet_new c h r t) l) = (Ok (Equivocated e), vs') →
  ∃ m, vs_get vset (eq_validator e) = Some m
  ∧ signature_ok (v_public_key m) (eq_first e) = true ∧ signature_ok (v_public_key m) (eq_second e) = true
  ∧ validator (vote (eq_first e)) = eq_validator e ∧ validator (vote (eq_second e)) = eq_validator e
  ∧ (chain_id (vote (eq_first e)), height (vote (eq_first e)), round (vote (eq_first e)), vote_type (vote (eq_first e)))
    = (c, h, r, t)
  ∧ (chain_id (vote (eq_second e)), height (vote (eq_second e)), round (vote (eq_second e)), vote_type (vote (eq_second e)))
    = (c, h, r, t)
  ∧ block_id (vote (eq_first e)) ≠ block_id (vote (eq_second e)).
Proof.
  intros Hadd. destruct (add_all_ok (VoteSet_new c h r t) l (vote_set_new_ok c h r t)) as [Hok E]. simpl in E.
  destruct (VoteSet_add_ok _ _ _ _ Hok Hadd) as (_ & _ & (Hv & Hf & Hs & Hne) & _).
  rewrite <- Hv in Hf, Hs. destruct Hf as (Hf1 & Hf2 & Hf3 & Hf4 & Hf5 & m & Hm & Hfs).
  destruct Hs as (Hs1 & Hs2 & Hs3 & Hs4 & Hs5 & m' & Hm' & Hss). assert (m' = m) as -> by congruence.
  exists m. injection E as E1 E2 E3 E4. rewrite Hf2, Hf3, Hf4, Hf5, Hs2, Hs3, Hs4, Hs5, E1, E2, E3, E4. done.
Qed.

(** Finality is portable.  When the precommits a node holds carry a block over the
    quorum line, the certificate assembled from them verifies for every client
    that knows the validator set. *)
Theorem assembled_commit_verifies chain h r (l : list SignedVote) (blk : Hash32) :
  let vs := add_all (VoteSet_new chain h r Precommit) l in
  quorum_value vs vset = Some (Some blk) →
  Commit_verify (Commit_new h r blk (votes_for vs (Some blk))) chain vset = Ok tt.
Proof.
  intros vs Hq. destruct (add_all_ok (VoteSet_new chain h r Precommit) l (vote_set_new_ok _ _ _ _)) as [Hok E].
  fold vs in Hok, E. simpl in E. injection E as E1 E2 E3 E4.
  rewrite <- E1, <- E2, <- E3. by apply held_commit_verifies.
Qed.

(** C6: accountable safety.  If two certificates for the same height and round verify for
    different blocks, then validators holding more power than any tolerated
    Byzantine coalition each signed both precommits, and every one of them is
    convicted by the two signatures the certificates carry. *)
Theorem conflicting_commits_accountable chain c1 c2 :
  Commit_verify c1 chain vset = Ok tt → Commit_verify c2 chain vset = Ok tt →
  c_height c1 = c_height c2 → c_round c1 = c_round c2 → c_block_id c1 ≠ c_block_id c2 →
  ∃ culprits : list Address,
    NoDup culprits ∧ max_byzantine_power vset < list_sum (vs_power_of vset) culprits
    ∧ Forall (λ a, ∃ s1 s2 m, s1 ∈ signatures c1 ∧ s2 ∈ signatures c2
        ∧ validator (vote s1) = a ∧ validator (vote s2) = a
        ∧ vs_get vset a = Some m
        ∧ signature_ok (v_public_key m) s1 = true ∧ signature_ok (v_public_key m) s2 = true
        ∧ (chain_id (vote s1), height (vote s1), round (vote s1), vote_type (vote s1))
          = (chain_id (vote s2), height (vote s2), round (vote s2), vote_type (vote s2))
        ∧ block_id (vote s1) ≠ block_id (vote s2)) culprits.
Proof.
  intros (Hc1 & Hn1 & Hq1)%Commit_verify_Ok (Hc2 & Hn2 & Hq2)%Commit_verify_Ok Hh Hr Hne.
  exists (List.filter (λ a, bool_decide (a ∈ signers (signatures c2))) (signers (signatures c1))).
  split_and!; [|by apply quorum_intersection|].
  { apply NoDup_ListNoDup, List.NoDup_filter. by apply NoDup_ListNoDup. }
  apply Forall_forall. intros a Ha. apply list_elem_of_In, List.filter_In in Ha as [Ha1 Ha2]. bool_simpl.
  apply list_elem_of_In, list_elem_of_fmap in Ha1 as (s1 & -> & Hs1).
  apply list_elem_of_fmap in Ha2 as (s2 & E & Hs2).
  rewrite Forall_forall in Hc1, Hc2. destruct (Hc1 s1 Hs1) as [Hm1 (m & Hm & Hsig1)].
  destruct (Hc2 s2 Hs2) as [Hm2 (m' & Hm' & Hsig2)]. assert (m' = m) as -> by congruence.
  exists s1, s2, m. unfold vote_matches in Hm1, Hm2. bool_simpl. split_and!; congruence.
Qed.
End accounting.
