(* ===== verification/Round.v ===== *)
(** The round state machine and its locking rules ([crates/consensus/src/round.rs]).

    The rules are first shown to do locally what they say: the state stays
    coherent, a lock is only ever left through the two doors the code opens, and a
    validator keeps refusing other values while it holds one.  The last part runs
    any set of honest validators through the rules over a network that only delays
    messages, and shows two of them can decide different blocks. *)

From S2P Require Import Prelude SortedVec Codec Primitives Crypto Validators Votes VoteProofs.

Inductive Step := SPropose | SPrevote | SPrecommit.

#[export] Instance Step_eq_dec : EqDecision Step.
Proof. solve_decision. Defined.

Inductive Decision :=
| DPrevote (v : option Hash32)
| DPrecommit (v : option Hash32)
| DCommit (v : Hash32)
| DNextRound (r : Round)
| DWait.

#[export] Instance Decision_eq_dec : EqDecision Decision.
Proof. solve_decision. Defined.

Record RoundState := {
  rs_height : Height;
  rs_round : Round;
  rs_step : Step;
  locked_value : option Hash32;
  locked_round : option Round;
  valid_value : option Hash32;
  valid_round : option Round;
}.

#[export] Instance RoundState_eq_dec : EqDecision RoundState.
Proof. solve_decision. Defined.

Definition RoundState_new (h : Height) : RoundState :=
  {| rs_height := h; rs_round := 0; rs_step := SPropose; locked_value := None; locked_round := None;
     valid_value := None; valid_round := None |}.

Definition is_locked (st : RoundState) : bool := bool_decide (is_Some (locked_value st)).

Definition decide_prevote (st : RoundState) (proposal : option Hash32)
    (proposal_valid_round : option Round) (proposal_is_valid : bool) : Decision :=
  match proposal with
  | None => DPrevote None
  | Some value =>
      if negb proposal_is_valid then DPrevote None
      else
        match locked_value st, locked_round st with
        | None, _ => DPrevote (Some value)
        | Some locked, lr =>
            if bool_decide (locked = value) then DPrevote (Some value)
            else
              match lr with
              | Some locked_round =>
                  match proposal_valid_round with
                  | Some pvr => if locked_round <? pvr then DPrevote (Some value) else DPrevote None
                  | None => DPrevote None
                  end
              | None => DPrevote None
              end
        end
  end.

Definition decide_precommit (st : RoundState) (prevote_quorum : option (option Hash32))
  : Decision * RoundState :=
  match prevote_quorum with
  | Some (Some value) =>
      (DPrecommit (Some value),
       {| rs_height := rs_height st; rs_round := rs_round st; rs_step := SPrecommit;
          locked_value := Some value; locked_round := Some (rs_round st);
          valid_value := Some value; valid_round := Some (rs_round st) |})
  | Some None =>
      (DPrecommit None,
       {| rs_height := rs_height st; rs_round := rs_round st; rs_step := SPrecommit;
          locked_value := None; locked_round := None;
          valid_value := valid_value st; valid_round := valid_round st |})
  | None =>
      (DPrecommit None,
       {| rs_height := rs_height st; rs_round := rs_round st; rs_step := SPrecommit;
          locked_value := locked_value st; locked_round := locked_round st;
          valid_value := valid_value st; valid_round := valid_round st |})
  end.

Definition advance_to (st : RoundState) (r : Round) : RoundState :=
  {| rs_height := rs_height st; rs_round := r; rs_step := SPropose;
     locked_value := locked_value st; locked_round := locked_round st;
     valid_value := valid_value st; valid_round := valid_round st |}.

Definition decide_commit (st : RoundState) (precommit_quorum : option (option Hash32))
  : Decision * RoundState :=
  match precommit_quorum with
  | Some (Some value) => (DCommit value, st)
  | _ => let next := Round_next (rs_round st) in (DNextRound next, advance_to st next)
  end.

Definition value_to_propose (st : RoundState) (fresh : Hash32) : Hash32 * option Round :=
  match valid_value st with
  | Some v => (v, valid_round st)
  | None => (fresh, None)
  end.

(** * Steps *)

(** What moves a validator within a height; [advance_to] is only ever called with the
    next round. *)
Inductive round_step : RoundState → RoundState → Prop :=
| step_precommit st q : round_step st (decide_precommit st q).2
| step_commit st q : round_step st (decide_commit st q).2
| step_next st : round_step st (advance_to st (Round_next (rs_round st))).

Definition reachable (h : Height) : RoundState → Prop := rtc round_step (RoundState_new h).

(** A lock and a valid value always carry their rounds, no later than the current one,
    and a lock is never fresher than the valid value. *)
Definition round_ok (st : RoundState) : Prop :=
  0 ≤ rs_round st ≤ u32_max
  ∧ match locked_value st, locked_round st with
    | None, None => True
    | Some _, Some lr => 0 ≤ lr ≤ rs_round st ∧ ∃ vr, valid_round st = Some vr ∧ lr ≤ vr
    | _, _ => False
    end
  ∧ match valid_value st, valid_round st with
    | None, None => True
    | Some _, Some vr => 0 ≤ vr ≤ rs_round st
    | _, _ => False
    end.

Lemma Round_next_bounds r : 0 ≤ r ≤ u32_max → r ≤ Round_next r ≤ u32_max.
Proof. unfold Round_next, saturating_add. lia. Qed.

Lemma round_step_ok st st' : round_step st st' → round_ok st → round_ok st'.
Proof.
  intros Hst (Hr & Hl & Hv). pose proof (Round_next_bounds (rs_round st) Hr) as Hn.
  assert (∀ r, rs_round st ≤ r ≤ u32_max → round_ok (advance_to st r)) as Hadv.
  { intros r Hrr. split_and!; simpl; [lia..| |].
    - destruct (locked_value st), (locked_round st); try done. destruct Hl as [? ?]. split; [lia|done].
    - destruct (valid_value st), (valid_round st); try done. lia. }
  inversion Hst as [st0 q E1 E2|st0 q E1 E2|st0 E1 E2]; subst; simpl.
  - destruct q as [[v|]|]; simpl; (split; [done|]); split; simpl; try done; [|lia].
    split; [lia|]. exists (rs_round st). split; [done|lia].
  - destruct q as [[v|]|]; simpl; [by repeat (split; [done|])|by apply Hadv|by apply Hadv].
  - by apply Hadv.
Qed.

Lemma reachable_ok h st : reachable h st → round_ok st.
Proof.
  intros Hr. assert (round_ok (RoundState_new h)) as H0 by done. revert H0.
  induction Hr as [|st st1 st2 Hs _ IH]; [done|]. intros H0. apply IH. by eapply round_step_ok.
Qed.

(** When a validator prevotes a value.  In every reachable state, a validator prevotes
    a block exactly when the block was proposed and is valid, and it is unlocked,
    locked on that very block, or shown a prevote-quorum round strictly later than
    its lock; the "locked without a round" branch is unreachable. *)
Theorem prevote_rule h st proposal pvr ok v :
  reachable h st →
  decide_prevote st proposal pvr ok = DPrevote (Some v)
  ↔ proposal = Some v ∧ ok = true
    ∧ (locked_value st = None ∨ locked_value st = Some v
       ∨ ∃ lr r, locked_round st = Some lr ∧ pvr = Some r ∧ lr < r).
Proof.
  intros (_ & Hl & _)%reachable_ok. unfold decide_prevote.
  destruct proposal as [p|]; [|naive_solver]. destruct ok; simpl; [|naive_solver].
  destruct (locked_value st) as [lv|], (locked_round st) as [lr|]; try done; [|naive_solver].
  case_bool_decide; [naive_solver|].
  destruct pvr as [r|]; [|naive_solver]. destruct (Z.ltb_spec lr r); naive_solver lia.
Qed.

(** The quorums a sequence of steps reported are none, or for [v]. *)
Inductive quiet_step (v : Hash32) : RoundState → RoundState → Prop :=
| quiet_precommit st q : (q = None ∨ q = Some (Some v)) → quiet_step v st (decide_precommit st q).2
| quiet_commit st q : quiet_step v st (decide_commit st q).2
| quiet_next st : quiet_step v st (advance_to st (Round_next (rs_round st))).

(** A lock survives round changes.  Whatever rounds fail and however long it takes, a
    validator locked on a value stays locked on it as long as no prevote quorum
    for nil or for another value is reported to it; so without later proof it goes
    on refusing every other proposal. *)
Theorem lock_survives_rounds h v st st' p pvr ok :
  reachable h st → locked_value st = Some v → rtc (quiet_step v) st st' →
  locked_value st' = Some v
  ∧ (p ≠ v → pvr = None → decide_prevote st' (Some p) pvr ok = DPrevote None).
Proof.
  intros Hr Hl Hs. assert (locked_value st' = Some v) as Hl'.
  { clear Hr. induction Hs as [|st st1 st2 Hq _ IH]; [done|]. apply IH.
    inversion Hq as [st0 q [Hn|Hn] E1 E2|st0 q E1 E2|st0 E1 E2]; subst; simpl; try done.
    by destruct q as [[?|]|]. }
  split; [done|]. intros Hne ->. unfold decide_prevote. destruct ok; [|done]. simpl. rewrite Hl'.
  rewrite bool_decide_eq_false_2 by congruence. by destruct (locked_round st').
Qed.

(** Support is re-proposed.  In every reachable state a proposer that has seen a value
    with a prevote quorum proposes that value and names the round of that quorum,
    which is no earlier than its own lock. *)
Theorem proposer_keeps_valid_value h st fresh :
  reachable h st → is_locked st = true →
  ∃ v vr lr, value_to_propose st fresh = (v, Some vr) ∧ valid_value st = Some v
    ∧ locked_round st = Some lr ∧ lr ≤ vr ≤ rs_round st.
Proof.
  intros (_ & Hl & Hv)%reachable_ok Hk. unfold is_locked in Hk. bool_simpl. destruct Hk as [lv Hlv].
  rewrite Hlv in Hl. destruct (locked_round st) as [lr|]; [|done]. destruct Hl as [? (vr & Hvr & ?)].
  rewrite Hvr in Hv. destruct (valid_value st) as [v|] eqn:Ev; [|done].
  exists v, vr, lr. unfold value_to_propose. rewrite Ev, Hvr. split_and!; try done; lia.
Qed.

(** * Honest validators over a lossy network

    Every validator below follows the rules above and nothing else; the only freedom
    is which messages reach whom before a timeout.  A validator that decided stops
    taking part in the height, as [Node::advance_past] makes it. *)

Section honest.
Context `{Hasher, Signer} (sign : PublicKey → Domain → bytes → Signature).
Context (chain : ChainId) (h : Height) (vset : ValidatorSet).

Inductive participant := Running (st : RoundState) | Decided (v : Hash32).

(** What reaches one validator in one round: the proposal with the round it claims,
    and the members (by position) whose prevotes and precommits arrive in time. *)
Record delivery := {
  d_proposal : option (Hash32 * option Round);
  d_prevotes : list nat;
  d_precommits : list nat;
}.

Definition cast (r : Round) (t : VoteType) (m : Validator) (b : option Hash32) : SignedVote :=
  Vote_sign (sign (v_public_key m))
    {| chain_id := chain; height := h; round := r; vote_type := t; block_id := b; validator := v_address m |}.

(** The votes of one phase, by position; [None] where nothing was cast. *)
Definition ballot := list (option SignedVote).

Definition received (b : ballot) (from : list nat) : list SignedVote :=
  from ≫= λ i, match b !! i with Some (Some s) => [s] | _ => [] end.

Definition tally (r : Round) (t : VoteType) (b : ballot) (from : list nat) : option (option Hash32) :=
  quorum_value (add_all vset (VoteSet_new chain h r t) (received b from)) vset.

Definition prevote_of (r : Round) (m : Validator) (p : participant) (d : delivery) : option SignedVote :=
  match p with
  | Decided _ => None
  | Running st =>
      match decide_prevote st (fst <$> d_proposal d) (d_proposal d ≫= snd) true with
      | DPrevote b => Some (cast r Prevote m b)
      | _ => None
      end
  end.

Definition precommit_of (r : Round) (prevotes : ballot) (m : Validator) (p : participant) (d : delivery)
  : option SignedVote * participant :=
  match p with
  | Decided v => (None, p)
  | Running st =>
      match decide_precommit st (tally r Prevote prevotes (d_prevotes d)) with
      | (DPrecommit b, st') => (Some (cast r Precommit m b), Running st')
      | (_, st') => (None, Running st')
      end
  end.

Definition conclude (r : Round) (precommits : ballot) (p : participant) (d : delivery) : participant :=
  match p with
  | Decided v => p
  | Running st =>
      match decide_commit st (tally r Precommit precommits (d_precommits d)) with
      | (DCommit v, _) => Decided v
      | (_, st') => Running st'
      end
  end.

Definition run_round (r : Round) (ps : list participant) (ds : list delivery) : list participant :=
  let prevotes := zip_with (λ m pd, prevote_of r m pd.1 pd.2) (validators vset) (zip ps ds) in
  let mid := zip_with (λ m pd, precommit_of r prevotes m pd.1 pd.2) (validators vset) (zip ps ds) in
  zip_with (conclude r (fst <$> mid)) (snd <$> mid) ds.

Fixpoint run_rounds (r : Round) (ps : list participant) (rounds : list (list delivery)) : list participant :=
  match rounds with
  | [] => ps
  | ds :: rounds => run_rounds (Round_next r) (run_round r ps ds) rounds
  end.

Definition fresh_height : list participant := (λ _, Running (RoundState_new h)) <$> validators vset.
(** ** Ballots of a whole set *)

Lemma zip_with_imap {A B C D} (g : B → C → D) (f1 : nat → A → B) (f2 : nat → A → C) l :
  zip_with g (imap f1 l) (imap f2 l) = imap (λ i x, g (f1 i x) (f2 i x)) l.
Proof. revert f1 f2. induction l as [|x l IH]; intros f1 f2; [done|]. simpl. by rewrite IH. Qed.

Lemma zip_with_imap_l {A C D} (g : A → C → D) (f : nat → A → C) l :
  zip_with g l (imap f l) = imap (λ i x, g x (f i x)) l.
Proof. revert f. induction l as [|x l IH]; intros f; [done|]. simpl. by rewrite IH. Qed.

(** What each member sends, as a function of its position. *)
Abbreviation ballot_of r t c := (imap (λ i m, cast r t m <$> c i) (validators vset)).

Lemma received_all (b : ballot) : received b (seq 0 (length b)) = omap id b.
Proof.
  unfold received. induction b as [|o b IH]; [done|]. cbn [length seq omap list_omap].
  rewrite <- fmap_S_seq, bind_cons, list_fmap_bind. unfold compose. simpl. destruct o; simpl; [f_equal|]; exact IH.
Qed.

Context (Hvset : vs_ok vset).
Context (Hsign : ∀ m r t b, m ∈ validators vset → signature_ok (v_public_key m) (cast r t m b) = true).

(** The members naming a value carry its tally. *)
Lemma tally_power r t c v :
  power_for (add_all vset (VoteSet_new chain h r t) (received (ballot_of r t c) (seq 0 (length (validators vset))))) v
  = list_sum id (imap (λ i m, if bool_decide (c i = Some v) then voting_power m else 0) (validators vset)).
Proof.
  assert (length (ballot_of r t c) = length (validators vset)) as <- by apply length_imap. rewrite received_all.
  assert (∀ m, m ∈ validators vset → vs_get vset (v_address m) = Some m) as Hget by (intros m Hm; by apply vs_get_Some).
  pose proof (vs_addresses_NoDup vset Hvset) as Hnd.
  rewrite add_all_fresh; [|done|apply vote_set_new_ok|done|..].
  - change (power_for (VoteSet_new chain h r t) v) with 0. rewrite Z.add_0_l. clear Hnd.
    assert (validators vset ⊆ validators vset) as Hsub by done. revert c Hsub.
    generalize (validators vset) at 1 3 4 as l. induction l as [|m l IH]; intros c Hsub; [done|].
    rewrite !imap_cons, list_sum_cons. cbn [omap list_omap id]. unfold compose.
    specialize (IH (c ∘ S) ltac:(set_solver)). unfold compose in IH.
    destruct (c 0%nat) as [b|]; cbn [fmap option_fmap option_map]; [|exact IH].
    rewrite list_sum_cons. cbn [omap list_omap]. rewrite IH. f_equal. unfold value_power, vs_power_of. cbn [cast Vote_sign vote block_id validator fst snd].
    rewrite Hget by set_solver. by repeat case_bool_decide; simplify_eq.
  - cbn [votes VoteSet_new fmap list_fmap]. rewrite app_nil_r. clear -Hnd. revert c Hnd.
    generalize (validators vset) as l. induction l as [|m l IH]; intros c Hnd; [constructor|].
    cbn [fmap list_fmap] in Hnd. apply NoDup_cons in Hnd as [Hm Hnd]. rewrite imap_cons.
    cbn [omap list_omap id]. specialize (IH (c ∘ S) Hnd). unfold compose in *.
    destruct (c 0%nat) as [b|]; cbn [fmap option_fmap option_map]; [|exact IH].
    cbn [fmap list_fmap]. constructor; [|exact IH]. cbn. intros (s & E & Hs)%list_elem_of_fmap. apply Hm.
    apply list_elem_of_omap in Hs as (o & Ho & Es). apply elem_of_lookup_imap in Ho as (i & m' & -> & Hm').
    destruct (c (S i)); [|done]. injection Es as <-. rewrite E. cbn. apply list_elem_of_fmap_2. by eapply list_elem_of_lookup_2.
  - apply Forall_forall. intros s (o & Ho & Es)%list_elem_of_omap. apply elem_of_lookup_imap in Ho as (i & m & -> & Hm).
    destruct (c i) as [b|]; [|done]. injection Es as <-. apply list_elem_of_lookup_2 in Hm. split_and!; [done..|].
    exists m. split; [by apply Hget|by apply Hsign].
Qed.
Lemma list_sum_imap_le {A} (f g : nat → A → Z) l :
  (∀ k x, l !! k = Some x → f k x ≤ g k x) → list_sum id (imap f l) ≤ list_sum id (imap g l).
Proof.
  revert f g. induction l as [|x l IH]; intros f g Hfg; [done|]. rewrite !imap_cons, !list_sum_cons.
  specialize (IH (f ∘ S) (g ∘ S) (λ k, Hfg (S k))). specialize (Hfg 0%nat x eq_refl). cbn [id]. lia.
Qed.

Lemma power_without i mi :
  validators vset !! i = Some mi →
  list_sum id (imap (λ k m, if bool_decide (k = i) then 0 else voting_power m) (validators vset)) = total_power vset - voting_power mi.
Proof.
  rewrite (vs_total vset Hvset). generalize (validators vset) as l. intros l. revert i.
  induction l as [|m l IH]; intros i Hi; [done|]. rewrite imap_cons, !list_sum_cons. unfold compose.
  destruct i as [|i]; cbn in Hi.
  - injection Hi as ->. rewrite (imap_ext _ (λ _ m, voting_power m)) by done.
    assert (list_sum id (imap (λ _ m, voting_power m) l) = list_sum voting_power l) as ->; [|by rewrite bool_decide_eq_true_2 by done; cbn; lia].
    clear. induction l as [|m l IH]; [done|]. rewrite imap_cons, !list_sum_cons. by f_equal.
  - rewrite (imap_ext _ (λ k m, if bool_decide (k = i) then 0 else voting_power m)), (IH i Hi).
    + rewrite bool_decide_eq_false_2 by done. cbn. lia.
    + intros k m' _. by rewrite (bool_decide_ext (S k = S i) (k = i)) by lia.
Qed.

(** A value everyone but one member names has a quorum where the others carry one. *)
Lemma tally_all i mi r t c v :
  validators vset !! i = Some mi → has_quorum vset (total_power vset - voting_power mi) = true → (∀ k, k ≠ i → c k = Some v) →
  tally r t (ballot_of r t c) (seq 0 (length (validators vset))) = Some v.
Proof.
  intros Hi Hq Hc. unfold tally. apply quorum_value_Some; [done|by apply add_all_ok, vote_set_new_ok|].
  rewrite tally_power. rewrite <- (power_without i mi Hi) in Hq. unfold has_quorum in *. apply Z.leb_le in Hq. apply Z.leb_le.
  etrans; [exact Hq|]. apply list_sum_imap_le. intros k m Hm%list_elem_of_lookup_2.
  pose proof (vs_positive vset Hvset) as Hp. rewrite Forall_forall in Hp. specialize (Hp m Hm).
  repeat case_bool_decide; [lia..|]. naive_solver.
Qed.

Lemma tally_nothing r t b : tally r t b [] = None.
Proof. done. Qed.

(** ** Two decisions for any set

    What each member gets, by position. *)
Definition each {X} (d : nat → X) : list X := imap (λ k _, d k) (validators vset).
Definition everyone : list nat := seq 0 (length (validators vset)).

(** Everything cast arrives. *)
Definition on_time (proposal : option (Hash32 * option Round)) : delivery :=
  {| d_proposal := proposal; d_prevotes := everyone; d_precommits := everyone |}.

(** [A] is proposed in round 0; its prevotes miss [j] and its precommits reach only [i] before
    the timeout. *)
Definition late_round (i j : nat) (A : Hash32) (k : nat) : delivery :=
  {| d_proposal := Some (A, None); d_prevotes := if decide (k = j) then [] else everyone;
     d_precommits := if decide (k = i) then everyone else [] |}.

(** The late round and then rounds whose proposer is not heard. *)
Definition delays (i j : nat) (A : Hash32) (silent : nat) : list (list delivery) :=
  each (late_round i j A) :: replicate (S silent) (each (λ _, on_time None)).

Definition all_but (i : nat) (A : Hash32) (g : nat → RoundState) : list participant :=
  each (λ k, if decide (k = i) then Decided A else Running (g k)).

Lemma run_round_each r f d pv pc :
  pv = imap (λ k m, prevote_of r m (f k) (d k)) (validators vset) →
  pc = imap (λ k m, (precommit_of r pv m (f k) (d k)).1) (validators vset) →
  run_round r (each f) (each d) = imap (λ k m, conclude r pc (precommit_of r pv m (f k) (d k)).2 (d k)) (validators vset).
Proof.
  intros -> ->. unfold run_round, each. rewrite zip_with_imap, !zip_with_imap_l. cbv zeta. cbn [fst snd].
  by rewrite !fmap_imap, zip_with_imap.
Qed.

Lemma run_rounds_app r ps l1 l2 :
  run_rounds r ps (l1 ++ l2) = run_rounds (Nat.iter (length l1) Round_next r) (run_rounds r ps l1) l2.
Proof.
  revert r ps. induction l1 as [|ds l1 IH]; intros r ps; [done|]. cbn [app run_rounds length]. by rewrite IH, Nat.iter_succ_r.
Qed.

Lemma fresh_each : fresh_height = each (λ _, Running (RoundState_new h)).
Proof. unfold fresh_height, each. generalize (validators vset) as l. induction l as [|m l IH]; [done|]. cbn. f_equal. exact IH. Qed.
Section network.
Context (i : nat) (mi : Validator) (Hi : validators vset !! i = Some mi).
Context (Hqi : has_quorum vset (total_power vset - voting_power mi) = true).

(** What the running members prevote and precommit in a round with everything on time. *)
Lemma round_on_time r A g p v :
  (∀ k, decide_prevote (g k) (fst <$> p) (p ≫= snd) true = DPrevote v) →
  run_round r (all_but i A g) (each (λ _, on_time p))
  = each (λ k, if decide (k = i) then Decided A else
      let st := (decide_precommit (g k) (Some v)).2 in
      match decide_commit st (Some v) with (DCommit b, _) => Decided b | (_, st') => Running st' end).
Proof.
  intros Hv. set (c := λ k, if decide (k = i) then None else Some v).
  assert (∀ ty, tally r ty (ballot_of r ty c) everyone = Some v) as Ht.
  { intros ty. eapply tally_all; [done..|]. intros k Hk. unfold c. by rewrite decide_False. }
  unfold all_but. rewrite (run_round_each r _ _ (ballot_of r Prevote c) (ballot_of r Precommit c)).
  - apply imap_ext. intros k m _. destruct (decide (k = i)); [done|]. unfold precommit_of. cbn [on_time d_prevotes]. rewrite Ht.
    destruct v as [b|]; cbn [decide_precommit fst snd conclude on_time d_precommits]; by rewrite Ht.
  - apply imap_ext. intros k m _. unfold c. destruct (decide (k = i)); [done|]. unfold prevote_of. cbn [on_time d_proposal]. by rewrite Hv.
  - apply imap_ext. intros k m _. unfold precommit_of. cbn [on_time d_prevotes]. rewrite Ht. unfold c.
    destruct (decide (k = i)); [done|]. by destruct v.
Qed.

(** A silent round releases every lock and teaches nobody a value. *)
Lemma silent_rounds n r A g :
  ∃ g', run_rounds r (all_but i A g) (replicate (S n) (each (λ _, on_time None))) = all_but i A g'
    ∧ ∀ k, locked_value (g' k) = None ∧ valid_value (g' k) = valid_value (g k).
Proof.
  revert r g. induction n as [|n IH]; intros r g; cbn [replicate run_rounds]; rewrite (round_on_time r A g None None) by done.
  - eexists. by split; [reflexivity|].
  - cbn [decide_precommit decide_commit snd]. cbv zeta.
    destruct (IH (Round_next r) (λ k, advance_to (decide_precommit (g k) (Some None)).2 (Round_next (rs_round (g k))))) as (g' & Hg & Hk).
    exists g'. split; [exact Hg|]. intros k. by destruct (Hk k) as [? ->].
Qed.

(** Members without locks decide what is proposed to them in time. *)
Lemma unlocked_round r A B g :
  (∀ k, locked_value (g k) = None) →
  run_round r (all_but i A g) (each (λ _, on_time (Some (B, None)))) = each (λ k, Decided (if decide (k = i) then A else B)).
Proof.
  intros Hg. rewrite (round_on_time r A g (Some (B, None)) (Some B)).
  - apply imap_ext. intros k m _. by destruct (decide (k = i)).
  - intros k. unfold decide_prevote. cbn. by rewrite Hg.
Qed.

(** After the late round only [i] has decided, and [j] has seen no support. *)
Lemma late_round_spec j mj A :
  i ≠ j → validators vset !! j = Some mj → has_quorum vset (total_power vset - voting_power mj) = true →
  ∃ g, run_round 0 fresh_height (each (late_round i j A)) = all_but i A g ∧ valid_value (g j) = None.
Proof.
  intros Hne Hj Hqj. rewrite fresh_each. set (c := λ k, Some (if decide (k = j) then None else Some A)).
  assert (tally 0 Prevote (ballot_of 0 Prevote (λ _, Some (Some A))) everyone = Some (Some A)) as Ht by (by eapply (tally_all i)).
  assert (tally 0 Precommit (ballot_of 0 Precommit c) everyone = Some (Some A)) as Ht'.
  { eapply (tally_all j); [done..|]. intros k Hk. unfold c. by rewrite decide_False. }
  rewrite (run_round_each 0 _ _ (ballot_of 0 Prevote (λ _, Some (Some A))) (ballot_of 0 Precommit c)); [|done|].
  - exists (λ k, advance_to (decide_precommit (RoundState_new h) (if decide (k = j) then None else Some (Some A))).2 (Round_next 0)).
    split; [|by rewrite decide_True].
    apply imap_ext. intros k m _. unfold precommit_of. cbn [late_round d_prevotes]. destruct (decide (k = i)) as [->|].
    + rewrite decide_False, Ht by done. cbn [conclude decide_precommit fst snd late_round d_precommits]. rewrite decide_True by done. by rewrite Ht'.
    + assert (d_precommits (late_round i j A k) = []) as Hd by (cbn; by rewrite decide_False).
      destruct (decide (k = j)); [rewrite tally_nothing|rewrite Ht]; cbn [decide_precommit fst snd]; unfold conclude; by rewrite Hd, tally_nothing.
  - apply imap_ext. intros k m _. unfold precommit_of, c. cbn [late_round d_prevotes]. destruct (decide (k = j)); [done|]. by rewrite Ht.
Qed.
End network.
End honest.

(** ** A sample set *)

#[local] Existing Instance sample_hasher.
#[local] Existing Instance sample_signer.

Definition sample_key (n : Z) : PublicKey := replicate 32 (byte_of n).
Definition sample_signing (pk : PublicKey) (d : Domain) (msg : bytes) : Signature := sample_sign pk (hash d msg).
Definition four_validators : ValidatorSet :=
  match ValidatorSet_new ((λ n, Validator_new (sample_key n) 1 (bs "ke")) <$> [1; 2; 3; 4]) with
  | Ok s => s
  | Err _ => {| validators := []; total_power := 0 |}
  end.
Definition sample_chain : ChainId := bs "afrolink-1".
Definition block_A : Hash32 := replicate 32 (byte_of 65).
Definition block_B : Hash32 := replicate 32 (byte_of 66).
