(* ===== verification/Decentralization.v ===== *)
(** Decentralisation, measured ([crates/consensus/src/decentralization.rs]): how few
    validators, and how few countries, can stall or control the chain. *)

From S2P Require Import Prelude SortedVec Codec Primitives Crypto Validators.

Definition BPS : Z := 10000.

Record Decentralization := {
  d_validators : Z;
  d_total_power : Z;
  nakamoto_halt : nat;
  nakamoto_control : nat;
  max_validator_share_bps : Z;
  stake_hhi : Z;
  d_countries : Z;
  max_country_share_bps : Z;
  country_nakamoto_halt : nat;
  country_nakamoto_control : nat;
}.

(** One turn of [power_by_country]'s loop: the first pair of the country gains, or a
    new one is pushed. *)
Fixpoint add_country (pairs : list (CountryCode * Z)) (c : CountryCode) (power : Z) : list (CountryCode * Z) :=
  match pairs with
  | [] => [(c, power)]
  | (c', p) :: pairs =>
      if bool_decide (c' = c) then (c', saturating_add u64_max p power) :: pairs
      else (c', p) :: add_country pairs c power
  end.
Definition country_pairs (s : ValidatorSet) : list (CountryCode * Z) :=
  foldl (λ pairs v, add_country pairs (v_country v) (voting_power v)) [] (validators s).
Definition power_by_country (s : ValidatorSet) : list Z := snd <$> country_pairs s.

(** The walk of [min_coalition] over the sorted powers. *)
Fixpoint coalition_walk (reached : Z → bool) (l : list Z) (index : nat) (sum : Z) : nat :=
  match l with
  | [] => 0
  | p :: l =>
      let sum := saturating_add u128_max sum p in
      if reached sum then S index else coalition_walk reached l (S index) sum
  end.
Definition min_coalition (powers : list Z) (reached : Z → bool) : nat :=
  coalition_walk reached (merge_sort Z.ge powers) 0 0.
Definition min_coalition_above (powers : list Z) (ceiling : Z) : nat := min_coalition powers (λ sum, ceiling <? sum).
Definition min_coalition_at_least (powers : list Z) (target : Z) : nat := min_coalition powers (λ sum, target <=? sum).

Definition max_share_bps (powers : list Z) (total : Z) : Z :=
  if total =? 0 then 0
  else
    let bps := saturating_mul u128_max (max_power powers) BPS / total in
    if bps <=? u32_max then bps else u32_max.

Definition hhi (powers : list Z) (total : Z) : Z :=
  if total =? 0 then 0
  else
    let acc := foldl (λ acc p,
      let share := saturating_mul u128_max p BPS / total in
      saturating_add u128_max acc (saturating_mul u128_max share share)) 0 powers in
    if acc / BPS <=? u32_max then acc / BPS else u32_max.

Definition measure (s : ValidatorSet) : Decentralization :=
  let total := total_power s in
  let byzantine_ceiling := max_byzantine_power s in
  let quorum := quorum_threshold s in
  let validator_powers := voting_power <$> validators s in
  let country_powers := power_by_country s in {|
    d_validators := Z.of_nat (length (validators s));
    d_total_power := total;
    nakamoto_halt := min_coalition_above validator_powers byzantine_ceiling;
    nakamoto_control := min_coalition_at_least validator_powers quorum;
    max_validator_share_bps := max_single_share_bps s;
    stake_hhi := hhi validator_powers total;
    d_countries := Z.of_nat (length country_powers);
    max_country_share_bps := max_share_bps country_powers total;
    country_nakamoto_halt := min_coalition_above country_powers byzantine_ceiling;
    country_nakamoto_control := min_coalition_at_least country_powers quorum |}.

Definition single_validator_can_halt (d : Decentralization) : bool := (nakamoto_halt d <=? 1)%nat.
Definition single_country_can_halt (d : Decentralization) : bool := (country_nakamoto_halt d <=? 1)%nat.

(** * The greedy walk is exact *)

#[export] Instance Zge_total : Total Z.ge.
Proof. intros x y. lia. Qed.
#[export] Instance Zge_trans : Transitive Z.ge.
Proof. intros x y z. lia. Qed.

Abbreviation sumZ := (list_sum (λ p : Z, p)).

Lemma take_bounded x l k :
  0 ≤ x → Forall (λ p, 0 ≤ p ≤ x) l → sumZ (take (S k) l) ≤ x + sumZ (take k l).
Proof.
  intros Hx Hl. revert k. induction Hl as [|y l Hy Hl IH]; intros k; [destruct k; simpl; lia|].
  destruct k as [|k]; [simpl; lia|]. specialize (IH k). simpl in *. lia.
Qed.

(** Of a descending list no [k] members carry more than the first [k]. *)
Lemma take_heaviest l c :
  StronglySorted Z.ge l → Forall (λ p, 0 ≤ p) l → c ⊆+ l → sumZ c ≤ sumZ (take (length c) l).
Proof.
  intros Hs. revert c. induction Hs as [|x l Hl IH Hx]; intros c Hn Hc.
  { apply submseteq_nil_r in Hc as ->. simpl. lia. }
  apply Forall_cons in Hn as [Hx0 Hn]. apply submseteq_cons_r in Hc as [Hc|(c' & Hp & Hc)].
  - specialize (IH c Hn Hc). destruct c as [|y c]; [simpl; lia|]. etrans; [exact IH|]. cbn [length].
    etrans; [apply (take_bounded x)|simpl; lia]; [done|].
    rewrite Forall_forall in Hn, Hx |- *. intros z Hz. specialize (Hn z Hz). specialize (Hx z Hz). lia.
  - rewrite (list_sum_perm _ _ _ Hp), Hp. specialize (IH c' Hn Hc). simpl. lia.
Qed.

(** The walk stops at the first prefix that reaches the threshold. *)
Lemma coalition_walk_spec (t : Z) l index sum :
  0 ≤ sum → Forall (λ p, 0 ≤ p) l → sum + sumZ l ≤ u128_max → sum < t → t ≤ sum + sumZ l →
  ∃ k, coalition_walk (λ s, t <=? s) l index sum = (index + S k)%nat ∧ (S k ≤ length l)%nat
    ∧ t ≤ sum + sumZ (take (S k) l) ∧ ∀ j, (j ≤ k)%nat → sum + sumZ (take j l) < t.
Proof.
  intros Hs Hl. revert index sum Hs. induction Hl as [|p l Hp Hl IH]; intros index sum Hs Hb Hlt Ht; simpl in *; [lia|].
  assert (0 ≤ sumZ l) by (by apply list_sum_nonneg).
  unfold saturating_add. rewrite Z.min_r by lia. destruct (Z.leb_spec t (sum + p)) as [Hr|Hr].
  - exists 0%nat. simpl. split_and!; [lia|lia|lia|]. intros j Hj. replace j with 0%nat by lia. simpl. lia.
  - destruct (IH (S index) (sum + p)) as (k & E & Hk & Hge & Hmin); [lia..|]. exists (S k).
    split_and!; [rewrite E; lia|lia|simpl in *; lia|]. intros [|j] Hj; [simpl; lia|].
    specialize (Hmin j ltac:(lia)). simpl. lia.
Qed.

(** The fewest holders reaching a threshold: some coalition of that size does, no smaller
    one does. *)
Definition fewest {A} (w : A → Z) (holders : list A) (t : Z) (n : nat) : Prop :=
  (∃ c, c ⊆+ holders ∧ length c = n ∧ t ≤ list_sum w c)
  ∧ ∀ c, c ⊆+ holders → (length c < n)%nat → list_sum w c < t.

Lemma min_coalition_exact {A} (w : A → Z) (holders : list A) (t : Z) :
  Forall (λ h, 0 ≤ w h) holders → 0 < t ≤ list_sum w holders → list_sum w holders ≤ u128_max →
  fewest w holders t (min_coalition (w <$> holders) (λ s, t <=? s)).
Proof.
  intros Hw Ht Hb. unfold min_coalition. set (l := merge_sort Z.ge (w <$> holders)).
  assert (l ≡ₚ w <$> holders) as Hp by apply merge_sort_Permutation.
  assert (StronglySorted Z.ge l) as Hs by (apply StronglySorted_merge_sort; apply _).
  assert (Forall (λ p, 0 ≤ p) l) as Hn by (rewrite Hp; by apply Forall_fmap).
  assert (∀ c : list A, list_sum w c = sumZ (w <$> c)) as Hsum.
  { intros c. induction c as [|x c IH]; [done|]. cbn [fmap list_fmap]. by rewrite !list_sum_cons, IH. }
  assert (sumZ l = list_sum w holders) as Hl by (rewrite Hsum; by apply list_sum_perm).
  destruct (coalition_walk_spec t l 0 0) as (k & E & Hk & Hge & Hmin); [lia|done|lia|lia|lia|]. simpl in *. rewrite E. split.
  - destruct (Permutation_map_inv w holders Hp) as (hs & El & Hhs). change (l = w <$> hs) in El.
    exists (take (S k) hs). rewrite El in Hge, Hk. rewrite length_fmap in Hk. split_and!.
    + rewrite Hhs. apply sublist_submseteq, sublist_take.
    + rewrite length_take. lia.
    + rewrite Hsum, fmap_take. lia.
  - intros c Hc Hlen. rewrite Hsum. eapply Z.le_lt_trans; [apply (take_heaviest l); [done..|]|].
    + rewrite Hp. by apply fmap_submseteq.
    + rewrite length_fmap. specialize (Hmin (length c) ltac:(lia)). lia.
Qed.

Lemma coalition_walk_ext f g l index sum : (∀ s, f s = g s) → coalition_walk f l index sum = coalition_walk g l index sum.
Proof. intros H. revert index sum. induction l as [|p l IH]; intros index sum; simpl; [done|]. by rewrite H, IH. Qed.

Lemma min_coalition_above_eq powers c : min_coalition_above powers c = min_coalition powers (λ s, c + 1 <=? s).
Proof.
  apply coalition_walk_ext. intros s. apply eq_true_iff_eq. rewrite Z.ltb_lt, Z.leb_le. lia.
Qed.

(** * Power by country *)

Definition country_power (vs : list Validator) (c : CountryCode) : Z :=
  list_sum voting_power (List.filter (λ v, bool_decide (v_country v = c)) vs).

Lemma country_power_snoc vs v c :
  country_power (vs ++ [v]) c = country_power vs c + (if bool_decide (v_country v = c) then voting_power v else 0).
Proof. unfold country_power. rewrite List.filter_app, list_sum_app. simpl. case_bool_decide; simpl; lia. Qed.

Lemma country_power_absent vs c : (¬ ∃ v, v ∈ vs ∧ v_country v = c) → country_power vs c = 0.
Proof.
  intros Hno. unfold country_power. replace (List.filter _ vs) with (@nil Validator); [done|]. symmetry.
  induction vs as [|v vs IH]; simpl; [done|]. rewrite bool_decide_eq_false_2; [apply IH|]; set_solver.
Qed.

Lemma add_country_spec pairs c power :
  0 ≤ power → Forall (λ e, 0 ≤ e.2) pairs → list_sum snd pairs + power ≤ u64_max → NoDup (fst <$> pairs) →
  let pairs' := add_country pairs c power in
  NoDup (fst <$> pairs') ∧ Forall (λ e, 0 ≤ e.2) pairs' ∧ list_sum snd pairs' = list_sum snd pairs + power
  ∧ ∀ c' p', (c', p') ∈ pairs' ↔
      (c' ≠ c ∧ (c', p') ∈ pairs)
      ∨ (c' = c ∧ ((c, p' - power) ∈ pairs ∨ c ∉ fst <$> pairs ∧ p' = power)).
Proof.
  intros Hp. induction pairs as [|[d p] pairs IH]; intros Hn Hb Hnd; cbn [add_country].
  { simpl. split_and!; [apply NoDup_singleton|by repeat constructor|lia|]. intros c' p'.
    rewrite list_elem_of_singleton, elem_of_nil. set_solver. }
  apply Forall_cons in Hn as [Hp0 Hn]. simpl in *. apply NoDup_cons in Hnd as [Hd Hnd].
  assert (0 ≤ list_sum snd pairs) by (by apply list_sum_nonneg).
  case_bool_decide as E.
  - subst d. unfold saturating_add. rewrite Z.min_r by lia. simpl. split_and!; [by constructor|constructor; [simpl; lia|done]|lia|].
    intros c' p'. rewrite !elem_of_cons. split.
    + intros [[= -> ->]|Hin]; [right; split; [done|]; left; left; f_equal; lia|].
      left. split; [|by right]. intros ->. destruct Hd. by apply (list_elem_of_fmap_2 fst) in Hin.
    + intros [[Hne [[= -> ->]|Hin]]|[-> [[[= E]|Hin]|[Hno _]]]]; [done|by right|left; f_equal; lia| |].
      * destruct Hd. by apply (list_elem_of_fmap_2 fst) in Hin.
      * destruct Hno. by left.
  - destruct (IH Hn ltac:(lia) Hnd) as (H1 & H2 & H3 & H4). simpl. split_and!; [|by constructor|lia|].
    + constructor; [|done]. intros ([d' q] & -> & [[_ Hin]|[-> _]]%H4)%list_elem_of_fmap; [|done].
      simpl in Hd. destruct Hd. by apply (list_elem_of_fmap_2 fst) in Hin.
    + intros c' p'. rewrite !elem_of_cons, H4. split.
      * intros [[= -> ->]|[[? ?]|[-> [?|[Hno ->]]]]]; [left; split; [done|by left]|left; split; [done|by right]| |].
        -- right. split; [done|]. left. by right.
        -- right. split; [done|]. right. split; [|done]. intros [E'|?]; [by apply E|done].
      * intros [[Hne [[= -> ->]|?]]|[-> [[[= <- _]|?]|[Hno ->]]]]; [by left|by right; left|done|by right; right; split; [|left]|].
        right. right. split; [done|]. right. split; [|done]. set_solver.
Qed.

(** What the pairs say of the validators counted so far. *)
Definition pairs_ok (counted : list Validator) (pairs : list (CountryCode * Z)) : Prop :=
  NoDup (fst <$> pairs) ∧ Forall (λ e, 0 ≤ e.2) pairs ∧ list_sum snd pairs = list_sum voting_power counted
  ∧ ∀ c p, (c, p) ∈ pairs ↔ (∃ v, v ∈ counted ∧ v_country v = c) ∧ p = country_power counted c.

Lemma pairs_ok_step counted pairs v :
  pairs_ok counted pairs → 0 ≤ voting_power v → list_sum voting_power counted + voting_power v ≤ u64_max →
  pairs_ok (counted ++ [v]) (add_country pairs (v_country v) (voting_power v)).
Proof.
  intros (H1 & H2 & H3 & H4) Hv Hb.
  destruct (add_country_spec pairs (v_country v) (voting_power v) Hv H2 ltac:(lia) H1) as (N1 & N2 & N3 & N4).
  split_and!; [done..|rewrite list_sum_app; simpl; lia|]. intros c p. rewrite N4, country_power_snoc.
  destruct (decide (c = v_country v)) as [->|Hne].
  - rewrite bool_decide_eq_true_2 by done. split.
    + intros [[? _]|[_ [[_ Hp]%H4|[Hno ->]]]]; [done| |]; (split; [exists v; set_solver|]); [lia|].
      rewrite country_power_absent; [lia|]. intros Hex. destruct Hno.
      apply (list_elem_of_fmap_2' fst _ (v_country v, country_power counted (v_country v))); [by apply H4|done].
    + intros [_ ->]. right. split; [done|]. destruct (decide (v_country v ∈ fst <$> pairs)) as [Hin|Hno].
      * left. apply list_elem_of_fmap in Hin as ([c' p'] & E & Hin). simpl in E. subst c'. apply H4 in Hin as [Hex _].
        apply H4. split; [done|lia].
      * right. split; [done|]. rewrite country_power_absent; [lia|]. intros Hex. destruct Hno.
        apply (list_elem_of_fmap_2' fst _ (v_country v, country_power counted (v_country v))); [by apply H4|done].
  - rewrite bool_decide_eq_false_2, Z.add_0_r, H4 by congruence. set_solver.
Qed.

Lemma country_pairs_ok s : vs_ok s → pairs_ok (validators s) (country_pairs s).
Proof.
  intros Hok. pose proof (vs_bounded s Hok) as Hb. rewrite (vs_total s Hok) in Hb.
  pose proof (vs_positive s Hok) as Hpos. unfold country_pairs. revert Hb Hpos. generalize (validators s). intros vs.
  enough (∀ counted pairs, pairs_ok counted pairs → list_sum voting_power (counted ++ vs) ≤ u64_max →
    Forall (λ v, 0 < voting_power v) vs →
    pairs_ok (counted ++ vs) (foldl (λ pairs v, add_country pairs (v_country v) (voting_power v)) pairs vs)) as H.
  { intros Hb Hpos. apply (H [] []); [|done|done]. split_and!; [constructor|constructor|done|].
    intros c p. rewrite elem_of_nil. split; [done|]. by intros [(v & ?%elem_of_nil & _) _]. }
  induction vs as [|v vs IH]; intros counted pairs Hp Hb Hpos; simpl; [by rewrite app_nil_r|].
  apply Forall_cons in Hpos as [Hv Hpos]. rewrite list_sum_app in Hb. simpl in Hb.
  assert (0 ≤ list_sum voting_power vs) by (apply list_sum_nonneg; eapply Forall_impl; [done|]; simpl; lia).
  replace (counted ++ v :: vs) with ((counted ++ [v]) ++ vs) by (by rewrite <- app_assoc).
  apply IH; [apply pairs_ok_step; [done|lia|lia]| |done]. rewrite !list_sum_app. simpl. lia.
Qed.

(** The published coefficients are exact.  The number of validators said to be able to
    stall the chain, and to control it, is the size of the smallest coalition
    holding more than the tolerated Byzantine power, and a quorum: some coalition of
    that size does and no smaller one does; and the same for countries, each holding the
    power of its validators. *)
Theorem nakamoto_exact s :
  vs_ok s →
  let d := measure s in
  let countries := fst <$> country_pairs s in
  fewest voting_power (validators s) (max_byzantine_power s + 1) (nakamoto_halt d)
  ∧ fewest voting_power (validators s) (quorum_threshold s) (nakamoto_control d)
  ∧ fewest (country_power (validators s)) countries (max_byzantine_power s + 1) (country_nakamoto_halt d)
  ∧ fewest (country_power (validators s)) countries (quorum_threshold s) (country_nakamoto_control d)
  ∧ NoDup countries ∧ (∀ c, c ∈ countries ↔ ∃ v, v ∈ validators s ∧ v_country v = c)
  ∧ d_countries d = Z.of_nat (length countries).
Proof.
  intros Hok d countries. destruct (country_pairs_ok s Hok) as (N1 & N2 & N3 & N4).
  pose proof (vs_total_pos s Hok) as HT. pose proof (vs_bounded s Hok) as HB.
  assert (total_power s = list_sum voting_power (validators s)) as Ht by apply Hok.
  assert (0 < max_byzantine_power s + 1 ≤ total_power s) as Hbz.
  { rewrite max_byzantine_power_eq by lia. Z.to_euclidean_division_equations. lia. }
  assert (0 < quorum_threshold s ≤ total_power s) as Hq.
  { rewrite quorum_threshold_eq by lia. Z.to_euclidean_division_equations. lia. }
  assert (power_by_country s = country_power (validators s) <$> countries) as Epow.
  { unfold power_by_country, countries. rewrite <- list_fmap_compose. apply list_fmap_ext. intros i [c p] Hi.
    apply list_elem_of_lookup_2, N4 in Hi as [_ ->]. done. }
  assert (list_sum (country_power (validators s)) countries = total_power s) as Ec.
  { rewrite Ht, <- N3. unfold countries. clear -N4. revert N4. generalize (country_pairs s). intros l Hl.
    assert (∀ e, e ∈ l → e.2 = country_power (validators s) e.1) as He by (intros [c p] H; by apply Hl in H as [_ ->]).
    clear Hl. induction l as [|e l IH]; [done|]. simpl. rewrite (He e) by (by left). f_equal. apply IH. set_solver. }
  assert (Forall (λ v, 0 ≤ voting_power v) (validators s)) as Hn.
  { eapply Forall_impl; [apply (vs_positive s Hok)|]. simpl. lia. }
  assert (Forall (λ c, 0 ≤ country_power (validators s) c) countries) as Hcn.
  { apply Forall_forall. intros c _. unfold country_power. apply list_sum_nonneg. rewrite Forall_forall in Hn |- *.
    intros v Hv. apply list_elem_of_In, List.filter_In in Hv as [Hv%list_elem_of_In _]. by apply Hn. }
  assert (u64_max ≤ u128_max) by (unfold u64_max, u128_max; lia).
  unfold d, measure. cbn [nakamoto_halt nakamoto_control country_nakamoto_halt country_nakamoto_control d_countries].
  rewrite !min_coalition_above_eq, Epow, length_fmap.
  split_and!; try (apply min_coalition_exact; [done|lia|lia]); [done| |done].
  intros c. unfold countries. rewrite list_elem_of_fmap. split.
  - intros ([c' p] & -> & [Hex _]%N4). done.
  - intros Hex. exists (c, country_power (validators s) c). split; [done|]. by apply N4.
Qed.
