(* ===== verification/Params.v ===== *)
(** The parameters governance may change, and the floors it may not go under
    ([crates/gov/src/params.rs]). *)

From S2P Require Import Prelude Codec Primitives.

(** [afrolink_alias::REBIND_DELAY_BLOCKS]. *)
Definition REBIND_DELAY_BLOCKS : Z := 259200.
Definition MIN_REBIND_DELAY_BLOCKS : Z := 86400.
Definition MIN_VOTING_PERIOD_BLOCKS : Z := 3600.
Definition MIN_TIMELOCK_BLOCKS : Z := 3600.
Definition MAX_COUNCIL_COUNTRY_SHARE_BPS : Z := 3333.
Definition MIN_VALIDATORS : Z := 4.

Record StakingParams := {
  min_bond : Amount;
  max_validators : Z;
  p_max_single_share_bps : Z;
  max_candidates : Z;
  max_unbonding_entries : Z;
  unbonding_ms : Z;
}.

Definition StakingParams_default : StakingParams := {|
  min_bond := Amount_from_afri 10000;
  max_validators := 100;
  p_max_single_share_bps := 1000;
  max_candidates := 1000;
  max_unbonding_entries := 16;
  unbonding_ms := UNBONDING_MS;
|}.

Inductive ParamError :=
| UnbondingTooShort (got : Z)
| RebindDelayTooShort (got : Z)
| VotingPeriodTooShort (got : Z)
| TimelockTooShort (got : Z)
| CouncilCapOutOfRange (got : Z)
| CouncilCapWouldLoosen (got current : Z)
| ValidatorSetTooSmall (got : Z)
| CandidatesBelowValidators (candidates validators : Z)
| ParamZero (what : string)
| ValidatorCapOutOfRange (got : Z).

Record ChainParams := {
  staking : StakingParams;
  rebind_delay_blocks : Z;
  voting_period_blocks : Z;
  timelock_blocks : Z;
  max_council_country_share_bps : Z;
}.

Definition ChainParams_default : ChainParams := {|
  staking := StakingParams_default;
  rebind_delay_blocks := REBIND_DELAY_BLOCKS;
  voting_period_blocks := 259200;
  timelock_blocks := 172800;
  max_council_country_share_bps := MAX_COUNCIL_COUNTRY_SHARE_BPS;
|}.

Definition ChainParams_devnet : ChainParams := {|
  staking := {|
    min_bond := Amount_from_afri 1;
    max_validators := MIN_VALIDATORS;
    p_max_single_share_bps := 10000;
    max_candidates := MIN_VALIDATORS;
    max_unbonding_entries := max_unbonding_entries StakingParams_default;
    unbonding_ms := unbonding_ms StakingParams_default;
  |};
  rebind_delay_blocks := rebind_delay_blocks ChainParams_default;
  voting_period_blocks := voting_period_blocks ChainParams_default;
  timelock_blocks := timelock_blocks ChainParams_default;
  max_council_country_share_bps := 10000;
|}.

(** [(1..=10_000).contains(&bps)]. *)
Definition bps_in_range (bps : Z) : bool := (1 <=? bps) && (bps <=? 10000).

Definition validate (p : ChainParams) : result ParamError unit :=
  if unbonding_ms (staking p) <? UNBONDING_MS then Err (UnbondingTooShort (unbonding_ms (staking p)))
  else if rebind_delay_blocks p <? MIN_REBIND_DELAY_BLOCKS then Err (RebindDelayTooShort (rebind_delay_blocks p))
  else if voting_period_blocks p <? MIN_VOTING_PERIOD_BLOCKS then Err (VotingPeriodTooShort (voting_period_blocks p))
  else if timelock_blocks p <? MIN_TIMELOCK_BLOCKS then Err (TimelockTooShort (timelock_blocks p))
  else if negb (bps_in_range (max_council_country_share_bps p))
  then Err (CouncilCapOutOfRange (max_council_country_share_bps p))
  else if Amount_is_zero (min_bond (staking p)) then Err (ParamZero "the minimum bond")
  else if max_unbonding_entries (staking p) =? 0 then Err (ParamZero "the unbonding entry limit")
  else if max_validators (staking p) <? MIN_VALIDATORS then Err (ValidatorSetTooSmall (max_validators (staking p)))
  else if max_candidates (staking p) <? max_validators (staking p)
  then Err (CandidatesBelowValidators (max_candidates (staking p)) (max_validators (staking p)))
  else if negb (bps_in_range (p_max_single_share_bps (staking p)))
  then Err (ValidatorCapOutOfRange (p_max_single_share_bps (staking p)))
  else Ok tt.

Definition validate_change_from (p current : ChainParams) : result ParamError unit :=
  _ ← validate p;
  if max_council_country_share_bps current <? max_council_country_share_bps p
  then Err (CouncilCapWouldLoosen (max_council_country_share_bps p) (max_council_country_share_bps current))
  else Ok tt.

(** * Wire form *)

(** [encode_count], [decode_count]: a [usize] as a [u32]. *)
Definition count_codec : codec Z := {|
  encode := λ n, encode u32_codec (if n <=? u32_max then n else u32_max);
  decode := decode u32_codec;
  wf := wf u32_codec;
|}.
Arguments count_codec : simpl never.

Definition StakingParams_codec : codec StakingParams := {|
  encode := λ p,
    encode Amount_codec (min_bond p) ++ encode count_codec (max_validators p)
    ++ encode u32_codec (p_max_single_share_bps p) ++ encode count_codec (max_candidates p)
    ++ encode count_codec (max_unbonding_entries p) ++ encode u64_codec (unbonding_ms p);
  decode := λ r,
    '(b, r) ← decode Amount_codec r;
    '(v, r) ← decode count_codec r;
    '(s, r) ← decode u32_codec r;
    '(c, r) ← decode count_codec r;
    '(e, r) ← decode count_codec r;
    '(u, r) ← decode u64_codec r;
    Ok ({| min_bond := b; max_validators := v; p_max_single_share_bps := s; max_candidates := c;
           max_unbonding_entries := e; unbonding_ms := u |}, r);
  wf := λ p,
    wf Amount_codec (min_bond p) ∧ wf count_codec (max_validators p) ∧ wf u32_codec (p_max_single_share_bps p)
    ∧ wf count_codec (max_candidates p) ∧ wf count_codec (max_unbonding_entries p)
    ∧ wf u64_codec (unbonding_ms p);
|}.
Arguments StakingParams_codec : simpl never.

Definition ChainParams_codec : codec ChainParams := {|
  encode := λ p,
    encode StakingParams_codec (staking p) ++ encode u64_codec (rebind_delay_blocks p)
    ++ encode u64_codec (voting_period_blocks p) ++ encode u64_codec (timelock_blocks p)
    ++ encode u32_codec (max_council_country_share_bps p);
  decode := λ r,
    '(s, r) ← decode StakingParams_codec r;
    '(rb, r) ← decode u64_codec r;
    '(v, r) ← decode u64_codec r;
    '(t, r) ← decode u64_codec r;
    '(c, r) ← decode u32_codec r;
    Ok ({| staking := s; rebind_delay_blocks := rb; voting_period_blocks := v; timelock_blocks := t;
           max_council_country_share_bps := c |}, r);
  wf := λ p,
    wf StakingParams_codec (staking p) ∧ wf u64_codec (rebind_delay_blocks p)
    ∧ wf u64_codec (voting_period_blocks p) ∧ wf u64_codec (timelock_blocks p)
    ∧ wf u32_codec (max_council_country_share_bps p);
|}.
Arguments ChainParams_codec : simpl never.

#[export] Instance count_lawful : Lawful count_codec.
Proof.
  split; unfold count_codec; cbn [encode decode wf].
  - intros n rest Hn. assert (n ≤ u32_max) as Hle.
    { unfold u32_codec, uint_codec, u32_max in *. simpl in Hn. lia. }
    apply Z.leb_le in Hle. rewrite Hle. by apply decode_encode.
  - intros b n rest [Hn ->]%decode_sound. split; [done|].
    assert (n ≤ u32_max) as Hle.
    { unfold u32_codec, uint_codec, u32_max in *. simpl in Hn. lia. }
    apply Z.leb_le in Hle. by rewrite Hle.
Qed.

#[export] Instance StakingParams_lawful : Lawful StakingParams_codec.
Proof.
  split; unfold StakingParams_codec; cbn [encode decode wf].
  - intros [b v s c e u] rest (?&?&?&?&?&?).
    cbn [min_bond max_validators p_max_single_share_bps max_candidates max_unbonding_entries unbonding_ms] in *.
    codec_complete. done.
  - intros b x rest Hd. codec_sound.
    cbn [min_bond max_validators p_max_single_share_bps max_candidates max_unbonding_entries unbonding_ms].
    by rewrite <- !app_assoc.
Qed.

#[export] Instance ChainParams_lawful : Lawful ChainParams_codec.
Proof.
  split; unfold ChainParams_codec; cbn [encode decode wf].
  - intros [s rb v t c] rest (?&?&?&?&?).
    cbn [staking rebind_delay_blocks voting_period_blocks timelock_blocks max_council_country_share_bps] in *.
    codec_complete. done.
  - intros b x rest Hd. codec_sound.
    cbn [staking rebind_delay_blocks voting_period_blocks timelock_blocks max_council_country_share_bps].
    by rewrite <- !app_assoc.
Qed.

(** * Floors and the ratchet *)

(** What every accepted set of parameters guarantees. *)
Record params_ok (p : ChainParams) : Prop := {
  po_unbonding : UNBONDING_MS ≤ unbonding_ms (staking p);
  po_rebind : MIN_REBIND_DELAY_BLOCKS ≤ rebind_delay_blocks p;
  po_voting : MIN_VOTING_PERIOD_BLOCKS ≤ voting_period_blocks p;
  po_timelock : MIN_TIMELOCK_BLOCKS ≤ timelock_blocks p;
  po_council : 1 ≤ max_council_country_share_bps p ≤ 10000;
  po_min_bond : min_bond (staking p) ≠ 0;
  po_entries : max_unbonding_entries (staking p) ≠ 0;
  po_validators : MIN_VALIDATORS ≤ max_validators (staking p) ≤ max_candidates (staking p);
  po_share : 1 ≤ p_max_single_share_bps (staking p) ≤ 10000;
}.

Lemma validate_Ok p : validate p = Ok tt ↔ params_ok p.
Proof.
  unfold validate, bps_in_range, Amount_is_zero. split.
  - intros Hv. repeat (case_match; [done|]). bool_simpl. by split.
  - intros [? ? ? ? ? ? ? ? ?].
    repeat match goal with
    | |- (if ?b then _ else _) = _ => destruct b eqn:?
    end; try done; exfalso; bool_simpl; try lia.
Qed.

(** The parameter sets a chain passes through: each accepted as a change from the last. *)
Inductive params_history : ChainParams → ChainParams → Prop :=
| history_refl p : params_history p p
| history_change p q r : params_history p q → validate_change_from r q = Ok tt → params_history p r.

(** Governance can move inside the floors and nowhere else.  However many times the
    parameters are changed, every version in force still respects the unbonding
    period compiled into light clients and the other floors, and the council's
    concentration cap has never been loosened. *)
Theorem params_never_disarmed p q :
  params_ok p → params_history p q →
  params_ok q ∧ max_council_country_share_bps q ≤ max_council_country_share_bps p.
Proof.
  intros Hp Hh. induction Hh as [|p q r Hh IH Hv]; [done|]. destruct (IH Hp) as [_ Hle].
  unfold validate_change_from in Hv. apply result_bind_Ok_inv in Hv as ([] & Hok & Hv).
  apply validate_Ok in Hok. split; [done|]. case_match; [done|]. bool_simpl. lia.
Qed.
