(* ===== verification/Alias.v ===== *)
(** Human-readable addressing ([crates/alias/src]): usernames and the skeletons
    that catch lookalikes ([name.rs]), the name registry ([registry.rs]), contact
    records and attestors ([contact.rs]), and contact bindings with their delayed,
    vetoable rebinding ([rebind.rs]).

    A string is its UTF-8 bytes.  [str::to_lowercase] follows the Unicode tables:
    it is the parameter [Unicode], of which only what the standard library
    documents for ASCII strings is assumed. *)

From S2P Require Import Prelude Codec Primitives Crypto Store Records Params.

(** * [name.rs] *)

Definition is_ascii (s : bytes) : bool := forallb (λ b, byte_val b <? 128) s.
Definition ascii_lower (b : byte) : byte := if in_range 65 90 b then byte_of (byte_val b + 32) else b.

Class Unicode := {
  to_lowercase : bytes → bytes;
  to_lowercase_ascii s : is_ascii s = true → to_lowercase s = ascii_lower <$> s;
}.

(** [str::chars], each character as its bytes: the lead byte tells its length. *)
Definition char_len (b : byte) : nat :=
  if byte_val b <? 0x80 then 1 else if byte_val b <? 0xE0 then 2 else if byte_val b <? 0xF0 then 3 else 4.
Fixpoint chars_from (fuel : nat) (s : bytes) : list bytes :=
  match fuel, s with
  | S fuel, b :: _ => take (char_len b) s :: chars_from fuel (drop (char_len b) s)
  | _, _ => []
  end.
Definition chars (s : bytes) : list bytes := chars_from (length s) s.

Definition MIN_NAME_LEN : Z := 3.
Definition MAX_NAME_LEN : Z := 32.

Inductive NameError :=
| NameLength (n : Z)
| NameCharset (c : bytes)
| NameNotAscii (c : bytes)
| EdgeSeparator
| DoubleSeparator
| NameReserved (name : bytes).

#[export] Instance NameError_eq_dec : EqDecision NameError.
Proof. solve_decision. Defined.

Definition RESERVED : list bytes :=
  [bs "afri"; bs "afrolink"; bs "sov"; bs "admin"; bs "root"; bs "support"; bs "official"; bs "treasury";
   bs "validator"; bs "genesis"].

Definition is_separator (c : bytes) : bool := bool_decide (c = bs "-") || bool_decide (c = bs "_").
Definition name_char (c : bytes) : bool :=
  match c with
  | [b] => is_ascii_lowercase b || is_ascii_digit b || byte_eqb 45 b || byte_eqb 95 b
  | _ => false
  end.

(** The first loop of [Username::new]. *)
Fixpoint check_chars (cs : list bytes) : result NameError unit :=
  match cs with
  | [] => Ok tt
  | c :: cs => if negb (is_ascii c) then Err (NameNotAscii c)
               else if negb (name_char c) then Err (NameCharset c)
               else check_chars cs
  end.

(** The second loop: no two separators in a row. *)
Fixpoint double_separator (previous : bool) (cs : list bytes) : bool :=
  match cs with
  | [] => false
  | c :: cs => (is_separator c && previous) || double_separator (is_separator c) cs
  end.

Definition is_country_code (s : bytes) : bool := (length s =? 2)%nat && forallb is_ascii_lowercase s.

Abbreviation Username := bytes (only parsing).
Abbreviation Skeleton := bytes (only parsing).

Definition Username_new `{Unicode} (input : bytes) : result NameError Username :=
  let lowered := to_lowercase input in
  let cs := chars lowered in
  let n := Z.of_nat (length cs) in
  if negb ((MIN_NAME_LEN <=? n) && (n <=? MAX_NAME_LEN)) then Err (NameLength n)
  else
    _ ← check_chars cs;
    first ← ok_or (NameLength 0) (head cs);
    last_ ← ok_or (NameLength 0) (last cs);
    if is_separator first || is_separator last_ then Err EdgeSeparator
    else if double_separator false cs then Err DoubleSeparator
    else if bool_decide (lowered ∈ RESERVED) || is_country_code lowered then Err (NameReserved lowered)
    else Ok lowered.

(** [str::replace] of a two-byte pattern by one byte: leftmost, not overlapping. *)
Fixpoint replace_pair (a b c : byte) (s : bytes) : bytes :=
  match s with
  | x :: ((y :: t) as s') => if bool_decide (x = a) && bool_decide (y = b) then c :: replace_pair a b c t
                             else x :: replace_pair a b c s'
  | _ => s
  end.

Definition ch (s : string) : byte := default (byte_of 0) (head (bs s)).

(** [DIGRAPHS]. *)
Definition DIGRAPHS : list (byte * byte * byte) :=
  [(ch "r", ch "n", ch "m"); (ch "v", ch "v", ch "w"); (ch "c", ch "l", ch "d"); (ch "n", ch "n", ch "m")].

Definition fold_char (b : byte) : byte :=
  if bool_decide (b = ch "0") then ch "o"
  else if bool_decide (b ∈ [ch "1"; ch "i"; ch "!"; ch "|"]) then ch "l"
  else if bool_decide (b = ch "5") then ch "s"
  else if bool_decide (b = ch "2") then ch "z"
  else if bool_decide (b = ch "8") then ch "b"
  else b.

(** A valid name is ASCII, so its characters are its bytes. *)
Definition skeleton (name : Username) : Skeleton :=
  let s := fold_left (λ s '(a, b, c), replace_pair a b c s) DIGRAPHS name in
  fold_char <$> List.filter (λ b, negb (bool_decide (b = ch "-")) && negb (bool_decide (b = ch "_"))) s.

Definition username_ok `{Unicode} (n : Username) : Prop := Username_new n = Ok n.

Definition Username_codec `{Unicode} : codec Username := {|
  encode := encode string_codec;
  decode := λ r,
    '(raw, r) ← decode string_codec r;
    match Username_new raw with
    | Err _ => Err (CodecInvalid "username")
    | Ok name => if bool_decide (name = raw) then Ok (name, r)
                 else Err (CodecInvalid "username is not in canonical form")
    end;
  wf := username_ok;
|}.
Arguments Username_codec {_} : simpl never.

(** * [registry.rs] *)

Definition REGISTRATION_BLOCKS : Z := 31536000.
Definition GRACE_BLOCKS : Z := 2592000.

Inductive RegistryError :=
| RegName (e : NameError)
| Taken (name : bytes)
| Confusable (requested existing : bytes)
| NameNotFound (name : bytes)
| NotOwner (name : bytes)
| RegCorrupt (e : StateError).

#[export] Instance RegistryError_eq_dec : EqDecision RegistryError.
Proof. solve_decision. Defined.

Record NameRecord := { owner : Address; registered_at : Height; expires_at : Height }.

#[export] Instance NameRecord_eq_dec : EqDecision NameRecord.
Proof. solve_decision. Defined.

Definition is_expired (r : NameRecord) (now : Height) : bool := expires_at r <=? now.
Definition is_claimable (r : NameRecord) (now : Height) : bool :=
  saturating_add u64_max (expires_at r) GRACE_BLOCKS <=? now.

Definition NameRecord_codec : codec NameRecord :=
  iso_codec (λ '(o, (r, e)), {| owner := o; registered_at := r; expires_at := e |})
    (λ r, (owner r, (registered_at r, expires_at r)))
    (Address_codec ⊗ Height_codec ⊗ Height_codec).

#[export] Instance NameRecord_lawful : Lawful NameRecord_codec.
Proof. unfold NameRecord_codec. struct_lawful. Qed.
Arguments NameRecord_codec : simpl never.

Section registry.
Context `{Unicode, KeyValueStore St}.
Abbreviation R := (M St RegistryError).

Definition name_get (name : Username) (s : St) : result RegistryError (option NameRecord) :=
  map_err RegCorrupt (get_decoded NameRecord_codec s (key_alias name)).
Definition primary_name (address : Address) (s : St) : result RegistryError (option bytes) :=
  map_err RegCorrupt (get_decoded string_codec s (key_alias_reverse address)).
Definition skeleton_holder (sk : Skeleton) (s : St) : result RegistryError (option bytes) :=
  map_err RegCorrupt (get_decoded string_codec s (key_alias_skeleton sk)).

Definition put_name (name : Username) (r : NameRecord) : R unit :=
  writes (λ s, set_encoded NameRecord_codec s (key_alias name) r).

Definition register (name : Username) (who : Address) (now : Height) : R unit :=
  let! existing := reads (name_get name) in
  do! match existing with
      | Some e => fail_if (negb (is_claimable e now)) (Taken name)
      | None => ret tt
      end in
  let sk := skeleton name in
  let! holder := reads (skeleton_holder sk) in
  do! match holder with
      | Some h =>
          if bool_decide (h = name) then ret tt
          else
            let! holder_name := lift (map_err RegName (Username_new h)) in
            let! r := reads (name_get holder_name) in
            fail_if (match r with Some r => negb (is_claimable r now) | None => false end) (Confusable name h)
      | None => ret tt
      end in
  do! put_name name {| owner := who; registered_at := now;
                       expires_at := saturating_add u64_max now REGISTRATION_BLOCKS |} in
  writes (λ s, set_encoded string_codec s (key_alias_skeleton sk) name).

Definition owned_by (name : Username) (caller : Address) (now : Height) : R NameRecord :=
  let! o := reads (name_get name) in
  let! r := lift (ok_or (NameNotFound name) o) in
  do! fail_if (negb (bool_decide (owner r = caller))) (NotOwner name) in
  do! fail_if (is_claimable r now) (NameNotFound name) in
  ret r.

Definition renew (name : Username) (caller : Address) (now : Height) : R unit :=
  let! r := owned_by name caller now in
  let base := Z.max (expires_at r) now in
  put_name name {| owner := owner r; registered_at := registered_at r;
                   expires_at := saturating_add u64_max base REGISTRATION_BLOCKS |}.

(** [if self.primary_name(&caller)?.as_deref() == Some(name) { delete }]. *)
Definition drop_display_name (name : Username) (caller : Address) : R unit :=
  let! p := reads (primary_name caller) in
  if bool_decide (p = Some name) then writes (λ s, (kv_delete s (key_alias_reverse caller)).1) else ret tt.

(** [Registry::transfer]. *)
Definition name_transfer (name : Username) (caller to : Address) (now : Height) : R unit :=
  let! r := owned_by name caller now in
  do! put_name name {| owner := to; registered_at := registered_at r; expires_at := expires_at r |} in
  drop_display_name name caller.

Definition set_primary (name : Username) (caller : Address) (now : Height) : R unit :=
  do! owned_by name caller now in
  writes (λ s, set_encoded string_codec s (key_alias_reverse caller) name).

Definition clear_primary (caller : Address) : R unit :=
  writes (λ s, (kv_delete s (key_alias_reverse caller)).1).

(** [Registry::release]. *)
Definition name_release (name : Username) (caller : Address) (now : Height) : R unit :=
  do! owned_by name caller now in
  do! writes (λ s, (kv_delete s (key_alias name)).1) in
  do! writes (λ s, (kv_delete s (key_alias_skeleton (skeleton name))).1) in
  drop_display_name name caller.
End registry.

(** * [contact.rs] *)

Abbreviation ContactCommitment := Hash32 (only parsing).
Definition ContactCommitment_codec : codec ContactCommitment := Hash32_codec.
#[export] Instance ContactCommitment_lawful : Lawful ContactCommitment_codec := Hash32_lawful.
Arguments ContactCommitment_codec : simpl never.

Record PendingRebind := { new_address : Address; pr_issuer : Address; effective_at : Height }.

Record ContactRecord := {
  ct_address : Address;
  ct_issuer : Address;
  attested_at : Height;
  rebind : option PendingRebind;
}.

Record Attestor := { at_country : CountryCode; at_name : bytes; active : bool }.

#[export] Instance PendingRebind_eq_dec : EqDecision PendingRebind.
Proof. solve_decision. Defined.
#[export] Instance ContactRecord_eq_dec : EqDecision ContactRecord.
Proof. solve_decision. Defined.
#[export] Instance Attestor_eq_dec : EqDecision Attestor.
Proof. solve_decision. Defined.

Definition ContactRecord_new (address issuer : Address) (at_ : Height) : ContactRecord :=
  {| ct_address := address; ct_issuer := issuer; attested_at := at_; rebind := None |}.

Definition PendingRebind_codec : codec PendingRebind :=
  iso_codec (λ '(n, (i, e)), {| new_address := n; pr_issuer := i; effective_at := e |})
    (λ p, (new_address p, (pr_issuer p, effective_at p)))
    (Address_codec ⊗ Address_codec ⊗ Height_codec).
#[export] Instance PendingRebind_lawful : Lawful PendingRebind_codec.
Proof. unfold PendingRebind_codec. struct_lawful. Qed.

Definition ContactRecord_codec : codec ContactRecord :=
  iso_codec (λ '(a, (i, (t, r))), {| ct_address := a; ct_issuer := i; attested_at := t; rebind := r |})
    (λ c, (ct_address c, (ct_issuer c, (attested_at c, rebind c))))
    (Address_codec ⊗ Address_codec ⊗ Height_codec ⊗ option_codec PendingRebind_codec).
#[export] Instance ContactRecord_lawful : Lawful ContactRecord_codec.
Proof. unfold ContactRecord_codec. struct_lawful. Qed.

Definition MAX_ATTESTOR_NAME : Z := 64.
Definition Attestor_check (a : Attestor) : result CodecError unit :=
  if bool_decide (at_name a = []) || (MAX_ATTESTOR_NAME <? Z.of_nat (length (at_name a)))
  then Err (CodecInvalid "an attestor name must be 1..=64 bytes") else Ok tt.
Definition Attestor_codec : codec Attestor :=
  guard_codec Attestor_check
    (iso_codec (λ '(c, (n, a)), {| at_country := c; at_name := n; active := a |})
       (λ a, (at_country a, (at_name a, active a)))
       (CountryCode_codec ⊗ string_codec ⊗ bool_codec)).
#[export] Instance Attestor_lawful : Lawful Attestor_codec.
Proof. apply guard_lawful. struct_lawful. Qed.

Arguments PendingRebind_codec : simpl never.
Arguments ContactRecord_codec : simpl never.
Arguments Attestor_codec : simpl never.

(** * [rebind.rs] *)

Inductive BindError :=
| NotAnAttestor (a : Address)
| AttestorSuspended (a : Address)
| NotBound
| AlreadyBound
| NoPendingRebind
| RebindPending
| TooEarly (effective_at now : Z)
| NotBoundAccount
| BindCorrupt (e : StateError).

#[export] Instance BindError_eq_dec : EqDecision BindError.
Proof. solve_decision. Defined.

Section bindings.
Context `{KeyValueStore St}.
Abbreviation B := (M St BindError).

Definition resolve (c : ContactCommitment) (s : St) : result BindError (option ContactRecord) :=
  map_err BindCorrupt (get_decoded ContactRecord_codec s (key_contact c)).
Definition attestor (a : Address) (s : St) : result BindError (option Attestor) :=
  map_err BindCorrupt (get_decoded Attestor_codec s (key_attestor a)).

Definition put_contact (c : ContactCommitment) (r : ContactRecord) : B unit :=
  writes (λ s, set_encoded ContactRecord_codec s (key_contact c) r).

Definition register_attestor (a : Address) (r : Attestor) : B unit :=
  writes (λ s, set_encoded Attestor_codec s (key_attestor a) r).

Definition set_attestor_active (a : Address) (on : bool) : B unit :=
  let! o := reads (attestor a) in
  let! r := lift (ok_or (NotAnAttestor a) o) in
  register_attestor a {| at_country := at_country r; at_name := at_name r; active := on |}.

Definition require_active_attestor (a : Address) : B unit :=
  let! o := reads (attestor a) in
  let! r := lift (ok_or (NotAnAttestor a) o) in
  fail_if (negb (active r)) (AttestorSuspended a).

Definition attest (c : ContactCommitment) (address issuer : Address) (now : Height) : B unit :=
  do! require_active_attestor issuer in
  let! o := reads (resolve c) in
  do! fail_if (bool_decide (is_Some o)) AlreadyBound in
  put_contact c (ContactRecord_new address issuer now).

(** [self.resolve(commitment)?.ok_or(BindError::NotBound)?]. *)
Definition require_binding (c : ContactCommitment) : B ContactRecord :=
  let! o := reads (resolve c) in
  lift (ok_or NotBound o).

Definition request_rebind (delay_blocks : Z) (c : ContactCommitment) (to issuer : Address) (now : Height) : B Height :=
  do! require_active_attestor issuer in
  let! r := require_binding c in
  do! fail_if (bool_decide (is_Some (rebind r))) RebindPending in
  let at_ := saturating_add u64_max now delay_blocks in
  do! put_contact c {| ct_address := ct_address r; ct_issuer := ct_issuer r; attested_at := attested_at r;
                       rebind := Some {| new_address := to; pr_issuer := issuer; effective_at := at_ |} |} in
  ret at_.

Definition veto_rebind (c : ContactCommitment) (caller : Address) : B unit :=
  let! r := require_binding c in
  do! fail_if (bool_decide (rebind r = None)) NoPendingRebind in
  do! fail_if (negb (bool_decide (ct_address r = caller))) NotBoundAccount in
  put_contact c {| ct_address := ct_address r; ct_issuer := ct_issuer r; attested_at := attested_at r;
                   rebind := None |}.

Definition apply_rebind (c : ContactCommitment) (now : Height) : B Address :=
  let! r := require_binding c in
  let! p := lift (ok_or NoPendingRebind (rebind r)) in
  do! fail_if (now <? effective_at p) (TooEarly (effective_at p) now) in
  do! put_contact c {| ct_address := new_address p; ct_issuer := pr_issuer p; attested_at := now;
                       rebind := None |} in
  ret (new_address p).

(** [Bindings::revoke]. *)
Definition revoke (c : ContactCommitment) (caller : Address) : B unit :=
  let! r := require_binding c in
  do! fail_if (negb (bool_decide (ct_address r = caller))) NotBoundAccount in
  writes (λ s, (kv_delete s (key_contact c)).1).
End bindings.
