(* ===== verification/AliasProofs.v ===== *)
(** What the alias registry promises: canonical names, no two live names that look
    alike, and notice before a contact is redirected ([crates/alias/src]). *)

From S2P Require Import Prelude Codec Primitives Crypto Store Records Params Alias.

(** * Names *)

Lemma char_len_pos b : (1 ≤ char_len b)%nat.
Proof. unfold char_len. repeat case_match; lia. Qed.

Lemma concat_chars_from fuel s : (length s ≤ fuel)%nat → concat (chars_from fuel s) = s.
Proof.
  revert s. induction fuel as [|fuel IH]; intros [|b s] Hl; simpl in *; try done; [lia|].
  pose proof (char_len_pos b). rewrite IH; [by rewrite take_drop|].
  destruct (char_len b) as [|n]; [lia|]. rewrite length_drop. simpl. lia.
Qed.

Lemma concat_chars s : concat (chars s) = s.
Proof. by apply concat_chars_from. Qed.

(** A byte a username may hold. *)
Definition name_byte (b : byte) : bool :=
  is_ascii_lowercase b || is_ascii_digit b || byte_eqb 45 b || byte_eqb 95 b.

Lemma check_chars_Ok cs :
  check_chars cs = Ok tt → forallb name_byte (concat cs) = true ∧ length (concat cs) = length cs.
Proof.
  induction cs as [|c cs IH]; simpl; [done|]. destruct (negb (is_ascii c)); [done|].
  destruct (negb (name_char c)) eqn:E; [done|]. intros H. destruct (IH H) as [H1 H2]. bool_simpl.
  destruct c as [|b [|]]; [done| |done]. simpl in *. unfold name_byte in *. by rewrite E, H1, H2.
Qed.

Lemma name_byte_facts b : name_byte b = true → byte_val b < 128 ∧ ascii_lower b = b.
Proof.
  unfold name_byte, ascii_lower, is_ascii_lowercase, is_ascii_digit, byte_eqb, in_range. intros H.
  destruct (_ && _) eqn:E in |- *; [lia|]. split; [lia|done].
Qed.

Section names.
Context {U : Unicode}.

Lemma Username_new_Ok s n :
  Username_new s = Ok n → n = to_lowercase s ∧ forallb name_byte n = true ∧ 3 ≤ Z.of_nat (length n) ≤ 32.
Proof.
  unfold Username_new. set (lowered := to_lowercase s). intros Hn.
  destruct (negb _) eqn:El; [done|]. apply result_bind_Ok_inv in Hn as ([] & Hc & Hn).
  apply check_chars_Ok in Hc as [Hb Hl]. rewrite concat_chars in *.
  apply result_bind_Ok_inv in Hn as (? & _ & Hn). apply result_bind_Ok_inv in Hn as (? & _ & Hn).
  repeat match type of Hn with (if ?b then _ else _) = _ => destruct b; [discriminate Hn|] end.
  injection Hn as <-. bool_simpl. unfold MIN_NAME_LEN, MAX_NAME_LEN in *. rewrite Hl. done.
Qed.

(** A name's lower-case form is itself, so validating it again changes nothing. *)
Lemma name_lowercase n : forallb name_byte n = true → to_lowercase n = n.
Proof.
  intros Hn. rewrite to_lowercase_ascii.
  - rewrite <- (list_fmap_id n) at 2. apply list_fmap_ext. intros i b Hb.
    rewrite forallb_forall in Hn. apply name_byte_facts, Hn, list_elem_of_In. by eapply list_elem_of_lookup_2.
  - unfold is_ascii. apply forallb_forall. intros b Hb. rewrite forallb_forall in Hn.
    apply Z.ltb_lt. by apply name_byte_facts, Hn.
Qed.

Lemma Username_new_idem s n : Username_new s = Ok n → username_ok n.
Proof.
  intros Hn. pose proof Hn as (Hlow & Hb & _)%Username_new_Ok. unfold username_ok, Username_new in *.
  rewrite (name_lowercase n Hb). rewrite <- Hlow in Hn. exact Hn.
Qed.

Lemma username_string n : username_ok n → wf string_codec n.
Proof.
  intros (_ & Hb & Hl)%Username_new_Ok. split; [unfold MAX_FIELD_LEN; lia|].
  apply utf8_ascii. eapply forallb_impl; [|exact Hb]. intros b Hx. apply Z.ltb_lt. by apply name_byte_facts.
Qed.

#[export] Instance Username_lawful : Lawful Username_codec.
Proof.
  split; unfold Username_codec; cbn [encode decode wf].
  - intros n rest Hn. rewrite decode_encode by (by apply username_string). run_decoder.
    unfold username_ok in Hn. rewrite Hn. by rewrite bool_decide_eq_true_2.
  - intros b n rest Hd. decode_inv.
    match goal with H : decode string_codec _ = _ |- _ => apply decode_sound in H as [_ ->] end.
    match goal with H : match Username_new ?r with _ => _ end = _ |- _ =>
      destruct (Username_new r) as [n'|] eqn:En; [|done] end.
    case_bool_decide as E; [|done]. simplify_eq. done.
Qed.

Lemma username_key n : username_ok n → wf bytes_codec n.
Proof. intros [? _]%username_string. done. Qed.

Lemma replace_pair_len a b c s : (length (replace_pair a b c s) ≤ length s)%nat.
Proof.
  remember (length s) as n eqn:Hn. revert s Hn. induction (lt_wf n) as [n _ IH]. intros s ->.
  destruct s as [|x [|y t]]; [done|done|]. cbn [replace_pair]. case_match; cbn [length].
  - pose proof (IH (length t) ltac:(simpl; lia) t eq_refl). lia.
  - pose proof (IH (length (y :: t)) ltac:(simpl; lia) (y :: t) eq_refl). simpl in *. lia.
Qed.

Lemma skeleton_len n : (length (skeleton n) ≤ length n)%nat.
Proof.
  unfold skeleton. rewrite length_fmap. etrans; [apply filter_length_le|]. unfold DIGRAPHS. simpl.
  repeat (etrans; [apply replace_pair_len|]). done.
Qed.

Lemma skeleton_key n : username_ok n → wf bytes_codec (skeleton n).
Proof.
  intros (_ & _ & Hl)%Username_new_Ok. pose proof (skeleton_len n). unfold bytes_codec, MAX_FIELD_LEN. cbn [wf]. lia.
Qed.
End names.

(** * The registry *)

Section registry.
Context {U : Unicode} {St : Type} {KV : KeyValueStore St} {KM : KVMap St}.
Implicit Types (m : gmap bytes bytes) (s : St) (n : Username).

Definition name_at m n : option NameRecord := record_at NameRecord_codec m (key_alias n).
Definition holder_at m (sk : Skeleton) : option bytes := record_at string_codec m (key_alias_skeleton sk).
Definition display_at m (a : Address) : option bytes := record_at string_codec m (key_alias_reverse a).

(** A name somebody may still use or renew: registered, and not past its grace period. *)
Definition live m n (now : Height) : Prop := ∃ r, name_at m n = Some r ∧ is_claimable r now = false.

Record registry_ok (now : Height) m : Prop := {
  ro_names n : username_ok n → readable NameRecord_codec m (key_alias n);
  ro_readable n : username_ok n → readable string_codec m (key_alias_skeleton (skeleton n));
  ro_holders n h : username_ok n → holder_at m (skeleton n) = Some h → username_ok h ∧ skeleton h = skeleton n;
  ro_reverse a : address_ok a → readable string_codec m (key_alias_reverse a);
  ro_live n : username_ok n → live m n now → holder_at m (skeleton n) = Some n;
}.

Lemma live_earlier m n now now' : now ≤ now' → live m n now' → live m n now.
Proof.
  intros Hle (r & Hr & Hc). exists r. split; [done|]. unfold is_claimable in *. bool_simpl. apply Z.leb_gt. lia.
Qed.

Lemma registry_ok_later m now now' : now ≤ now' → registry_ok now m → registry_ok now' m.
Proof. intros Hle [?????]. split; eauto using live_earlier. Qed.

Lemma registry_ok_empty now : registry_ok now ∅.
Proof. split; try done. by intros n _ (r & Hr & _). Qed.

Lemma key_alias_inj n n' : username_ok n → username_ok n' → key_alias n = key_alias n' → n = n'.
Proof.
  intros H1 H2 [_ E]%StoreKey_new_inj; [by simplify_eq|repeat constructor; by apply username_key..].
Qed.
Lemma key_skeleton_inj n n' :
  username_ok n → username_ok n' →
  key_alias_skeleton (skeleton n) = key_alias_skeleton (skeleton n') → skeleton n = skeleton n'.
Proof.
  intros H1 H2 [_ E]%StoreKey_new_inj; [by simplify_eq|repeat constructor; by apply skeleton_key..].
Qed.

(** Writes elsewhere leave the registry alone. *)
Lemma registry_frame now m m' :
  (∀ n, username_ok n → m' !! key_alias n = m !! key_alias n) →
  (∀ n, username_ok n → m' !! key_alias_skeleton (skeleton n) = m !! key_alias_skeleton (skeleton n)) →
  (∀ a, address_ok a → readable string_codec m' (key_alias_reverse a)) →
  registry_ok now m → registry_ok now m'.
Proof.
  intros Hn Hs Hr [H1 H2 H3 H4 H5]. split.
  - intros n Hn'. eapply readable_ext; [by apply Hn|by apply H1].
  - intros n Hn'. eapply readable_ext; [by apply Hs|by apply H2].
  - intros n h Hn'. unfold holder_at. rewrite (record_at_ext _ m) by (by apply Hs). by apply H3.
  - done.
  - intros n Hn' (r & Hr' & Hc). unfold holder_at. rewrite (record_at_ext _ m) by (by apply Hs).
    apply H5; [done|]. exists r. split; [|done]. unfold name_at in *. by rewrite (record_at_ext _ m) in Hr' by (by apply Hn).
Qed.

(** Rewriting a name's record keeps the registry sound when its holder is its own. *)
Lemma registry_put_name now m n r :
  username_ok n → wf NameRecord_codec r → holder_at m (skeleton n) = Some n → registry_ok now m →
  registry_ok now (<[key_alias n := encode NameRecord_codec r]> m).
Proof.
  intros Hn Hr Hh [H1 H2 H3 H4 H5]. split.
  - intros n' Hn'. apply readable_insert; [apply _|done|by apply H1].
  - intros n' Hn'. apply readable_insert_ne; [ns_ne|by apply H2].
  - intros n' h Hn'. unfold holder_at. rewrite (record_at_ext _ m) by (rewrite lookup_insert_ne; [done|ns_ne]).
    by apply H3.
  - intros a Ha. apply readable_insert_ne; [ns_ne|by apply H4].
  - intros n' Hn' (r' & Hr' & Hc). unfold holder_at.
    rewrite (record_at_ext _ m) by (rewrite lookup_insert_ne; [done|ns_ne]).
    destruct (decide (n = n')) as [->|Hne]; [done|]. apply H5; [done|]. exists r'. split; [|done].
    unfold name_at in *. rewrite (record_at_ext _ m) in Hr'; [done|]. rewrite lookup_insert_ne; [done|].
    intros E. by apply Hne, key_alias_inj.
Qed.

(** Registering over a skeleton nobody live holds. *)
Lemma registry_put_holder now m n :
  username_ok n → (∀ n', username_ok n' → skeleton n' = skeleton n → n' ≠ n → ¬ live m n' now) →
  registry_ok now m → registry_ok now (<[key_alias_skeleton (skeleton n) := encode string_codec n]> m).
Proof.
  intros Hn Hfree [H1 H2 H3 H4 H5]. pose proof (username_string n Hn) as Hw. split.
  - intros n' Hn'. apply readable_insert_ne; [ns_ne|by apply H1].
  - intros n' Hn'. apply readable_insert; [apply _|done|by apply H2].
  - intros n' h Hn' Hh. destruct (decide (skeleton n' = skeleton n)) as [E|E].
    + unfold holder_at in Hh. rewrite E, record_at_insert in Hh by (apply _ || done). by simplify_eq.
    + unfold holder_at in Hh. rewrite (record_at_ext _ m) in Hh; [by apply H3|].
      rewrite lookup_insert_ne; [done|]. intros Ek. apply E. symmetry. by apply key_skeleton_inj.
  - intros a Ha. apply readable_insert_ne; [ns_ne|by apply H4].
  - intros n' Hn' (r & Hr & Hc). unfold holder_at.
    assert (live m n' now) as Hl.
    { exists r. split; [|done]. unfold name_at in *. rewrite (record_at_ext _ m) in Hr; [done|].
      rewrite lookup_insert_ne; [done|ns_ne]. }
    destruct (decide (skeleton n' = skeleton n)) as [E|E].
    + destruct (decide (n' = n)) as [->|Hne]; [|by destruct (Hfree n' Hn' E Hne)].
      by rewrite record_at_insert by (apply _ || done).
    + rewrite (record_at_ext _ m); [by apply H5|].
      rewrite lookup_insert_ne; [done|]. intros Ek. apply E. symmetry. by apply key_skeleton_inj.
Qed.

Lemma name_get_at n s o : name_get n s = Ok o → o = name_at (kv_map s) n.
Proof. intros Hx%map_err_Ok_inv. exact (get_decoded_record _ _ _ _ Hx). Qed.
Lemma holder_get_at sk s o : skeleton_holder sk s = Ok o → o = holder_at (kv_map s) sk.
Proof. intros Hx%map_err_Ok_inv. exact (get_decoded_record _ _ _ _ Hx). Qed.

Lemma owned_by_Ok n a now s r s' :
  owned_by n a now s = (Ok r, s') →
  s' = s ∧ name_at (kv_map s) n = Some r ∧ owner r = a ∧ is_claimable r now = false.
Proof.
  unfold owned_by. intros Hx. repeat inv_M_step. bool_simpl.
  match goal with H : name_get _ _ = Ok _ |- _ => apply name_get_at in H end. by subst.
Qed.

Lemma NameRecord_heights r : wf NameRecord_codec r →
  address_ok (owner r) ∧ wf Height_codec (registered_at r) ∧ wf Height_codec (expires_at r).
Proof. intros (?&?&?). done. Qed.

Lemma height_sat_add x y : wf Height_codec x → 0 ≤ y → wf Height_codec (saturating_add u64_max x y).
Proof. unfold Height_codec, u64_codec, uint_codec, saturating_add, u64_max. cbn [wf]. lia. Qed.

Lemma name_at_wf m n r : name_at m n = Some r → wf NameRecord_codec r.
Proof. intros [? _]%record_at_Some; [done|apply _]. Qed.
End registry.

Section registry_ops.
Context {U : Unicode} {St : Type} {KV : KeyValueStore St} {KM : KVMap St}.
Implicit Types (m : gmap bytes bytes) (s : St) (n : Username).

Lemma register_Ok n who now s u s' :
  registry_ok now (kv_map s) → username_ok n → register n who now s = (Ok u, s') →
  ¬ live (kv_map s) n now
  ∧ (∀ n', username_ok n' → skeleton n' = skeleton n → n' ≠ n → ¬ live (kv_map s) n' now)
  ∧ kv_map s' =
      <[key_alias_skeleton (skeleton n) := encode string_codec n]>
      (<[key_alias n := encode NameRecord_codec {| owner := who; registered_at := now;
           expires_at := saturating_add u64_max now REGISTRATION_BLOCKS |}]> (kv_map s)).
Proof.
  intros Hok Hn Hx. unfold register, put_name in Hx. repeat inv_M_step.
  match goal with H : name_get n s = Ok ?o |- _ => apply name_get_at in H; rename o into existing; rename H into He end.
  match goal with H : match existing with _ => _ end _ = (Ok _, ?s0) |- _ => rename s0 into s1; rename H into Hex end.
  assert (s1 = s ∧ ¬ live (kv_map s) n now) as [-> Hnl].
  { destruct existing as [e|]; repeat inv_M_step; (split; [done|]); intros (r & Hr & Hc); bool_simpl; congruence. }
  match goal with H : skeleton_holder _ s = Ok ?o |- _ => apply holder_get_at in H; rename o into holder; rename H into Hh end.
  match goal with H : match holder with _ => _ end _ = (Ok _, ?s0) |- _ => rename s0 into s1; rename H into Hho end.
  assert (s1 = s ∧ ∀ h, holder = Some h → h ≠ n → ¬ live (kv_map s) h now) as [-> Hhl].
  { destruct holder as [h|]; [|by repeat inv_M_step]. case_bool_decide as E; repeat inv_M_step; [naive_solver|].
    destruct (ro_holders _ _ Hok n h Hn) as [Hu _]; [done|].
    match goal with H : Username_new h = Ok _ |- _ => unfold username_ok in Hu; rewrite Hu in H; injection H as <- end.
    match goal with H : name_get h s = Ok _ |- _ => apply name_get_at in H; subst end.
    split; [done|]. intros h' [= <-] _ (r & Hr & Hc).
    match goal with H : match name_at _ _ with _ => _ end = false |- _ => rewrite Hr, Hc in H; done end. }
  split_and!; [done| |].
  - intros n' Hn' Hsk Hne Hl. pose proof (ro_live _ _ Hok n' Hn' Hl) as Hhn'. rewrite Hsk in Hhn'.
    by apply (Hhl n'); [congruence|done|].
  - unfold set_encoded. by rewrite !kv_set_map.
Qed.

Lemma registry_release now m n :
  username_ok n → live m n now → registry_ok now m →
  registry_ok now (delete (key_alias_skeleton (skeleton n)) (delete (key_alias n) m)).
Proof.
  intros Hn Hl Hok. pose proof (ro_live _ _ Hok n Hn Hl) as Hhn. destruct Hok as [H1 H2 H3 H4 H5]. split.
  - intros n' Hn'. by do 2 apply readable_delete; apply H1.
  - intros n' Hn'. by do 2 apply readable_delete; apply H2.
  - intros n' h Hn' Hh. apply (H3 n' h Hn'). unfold holder_at in *. apply record_at_Some in Hh as [Hw Hk]; [|apply _].
    apply record_at_Some; [apply _|]. split; [done|].
    apply lookup_delete_Some in Hk as [_ Hk]. by apply lookup_delete_Some in Hk as [_ Hk].
  - intros a Ha. by do 2 apply readable_delete; apply H4.
  - intros n' Hn' (r & Hr & Hc). unfold name_at in Hr. apply record_at_Some in Hr as [Hw Hk]; [|apply _].
    apply lookup_delete_Some in Hk as [_ Hk]. apply lookup_delete_Some in Hk as [Hne Hk].
    assert (live m n' now) as Hl' by (exists r; split; [by apply record_at_Some; [apply _|]|done]).
    pose proof (H5 n' Hn' Hl') as Hh. unfold holder_at in *.
    rewrite (record_at_ext _ m); [done|]. rewrite !lookup_delete_ne; [done|ns_ne|].
    intros E%key_skeleton_inj; [|done..]. rewrite <- E, Hhn in Hh. by simplify_eq.
Qed.

Lemma drop_display_name_Ok n a s u s' :
  drop_display_name n a s = (Ok u, s') → kv_map s' = kv_map s ∨ kv_map s' = delete (key_alias_reverse a) (kv_map s).
Proof.
  unfold drop_display_name. intros Hx. repeat inv_M_step. case_bool_decide; repeat inv_M_step; [right|by left].
  by rewrite kv_delete_map.
Qed.

Lemma registry_reverse_delete now m a : registry_ok now m → registry_ok now (delete (key_alias_reverse a) m).
Proof.
  intros Hok. apply (registry_frame now m); [| | |done].
  - intros n _. rewrite lookup_delete_ne; [done|ns_ne].
  - intros n _. rewrite lookup_delete_ne; [done|ns_ne].
  - intros a' Ha'. by apply readable_delete, Hok.
Qed.

(** ** Histories *)

Inductive registry_op :=
| RegRegister n (who : Address)
| RegRenew n (caller : Address)
| RegTransfer n (caller to : Address)
| RegSetPrimary n (caller : Address)
| RegClearPrimary (caller : Address)
| RegRelease n (caller : Address).

Definition registry_exec (op : registry_op) (now : Height) : M St RegistryError unit :=
  match op with
  | RegRegister n who => register n who now
  | RegRenew n a => renew n a now
  | RegTransfer n a to => name_transfer n a to now
  | RegSetPrimary n a => set_primary n a now
  | RegClearPrimary a => clear_primary a
  | RegRelease n a => name_release n a now
  end.

(** Names and addresses are decoded ones. *)
Definition registry_op_ok (op : registry_op) : Prop :=
  match op with
  | RegRegister n a | RegRenew n a | RegSetPrimary n a | RegRelease n a => username_ok n ∧ address_ok a
  | RegTransfer n a to => username_ok n ∧ address_ok a ∧ address_ok to
  | RegClearPrimary a => address_ok a
  end.

(** A refused operation is rolled back with its transaction. *)
Definition registry_step s (e : Height * registry_op) : St :=
  match registry_exec e.2 e.1 s with (Ok _, s') => s' | (Err _, _) => s end.
Definition registry_run (es : list (Height * registry_op)) s : St := foldl registry_step s es.

Lemma registry_exec_ok op now s u s' :
  registry_op_ok op → wf Height_codec now → registry_ok now (kv_map s) →
  registry_exec op now s = (Ok u, s') → registry_ok now (kv_map s').
Proof.
  intros Hop Hnow Hok Hx. destruct op as [n a|n a|n a to|n a|a|n a]; cbn [registry_exec registry_op_ok] in *.
  - destruct Hop as [Hn Ha]. apply register_Ok in Hx as (_ & Hfree & ->); [|done..].
    rewrite insert_insert_ne by ns_ne. apply registry_put_name; [done| | |by apply registry_put_holder].
    + split; [done|]. split; [done|]. apply height_sat_add; [done|]. unfold REGISTRATION_BLOCKS. lia.
    + unfold holder_at. rewrite record_at_insert; [done|apply _|by apply username_string].
  - destruct Hop as [Hn Ha]. unfold renew, put_name in Hx. repeat inv_M_step.
    match goal with H : owned_by _ _ _ _ = _ |- _ => apply owned_by_Ok in H as (-> & Hr & _ & Hc) end.
    unfold set_encoded. rewrite kv_set_map. pose proof (NameRecord_heights _ (name_at_wf _ _ _ Hr)) as (Ho & Hrg & He).
    apply registry_put_name; [done| |by apply (ro_live _ _ Hok); [|eexists]|done].
    split; [done|]. split; [done|]. apply height_sat_add; [|unfold REGISTRATION_BLOCKS; lia].
    by destruct (Z.max_dec (expires_at x) now) as [->| ->].
  - destruct Hop as (Hn & Ha & Hto). unfold name_transfer, put_name in Hx. repeat inv_M_step.
    match goal with H : owned_by _ _ _ _ = _ |- _ => apply owned_by_Ok in H as (-> & Hr & _ & Hc) end.
    pose proof (NameRecord_heights _ (name_at_wf _ _ _ Hr)) as (Ho & Hrg & He).
    match goal with H : drop_display_name _ _ ?s1 = _ |- _ => assert (registry_ok now (kv_map s1)) as Hok1;
      [|apply drop_display_name_Ok in H as [->| ->]; [done|by apply registry_reverse_delete]] end.
    unfold set_encoded. rewrite kv_set_map.
    by apply registry_put_name; [done| |apply (ro_live _ _ Hok); [|eexists]|].
  - destruct Hop as [Hn Ha]. unfold set_primary in Hx. repeat inv_M_step.
    match goal with H : owned_by _ _ _ _ = _ |- _ => apply owned_by_Ok in H as (-> & _) end.
    unfold set_encoded. rewrite kv_set_map. apply (registry_frame now (kv_map s)); [| | |done].
    + intros n' _. rewrite lookup_insert_ne; [done|ns_ne].
    + intros n' _. rewrite lookup_insert_ne; [done|ns_ne].
    + intros a' Ha'. apply readable_insert; [apply _|by apply username_string|by apply Hok].
  - unfold clear_primary in Hx. repeat inv_M_step. rewrite kv_delete_map. by apply registry_reverse_delete.
  - destruct Hop as [Hn Ha]. unfold name_release in Hx. repeat inv_M_step.
    match goal with H : owned_by _ _ _ _ = _ |- _ => apply owned_by_Ok in H as (-> & Hr & _ & Hc) end.
    match goal with H : drop_display_name _ _ ?s1 = _ |- _ => assert (registry_ok now (kv_map s1)) as Hok1;
      [|apply drop_display_name_Ok in H as [->| ->]; [done|by apply registry_reverse_delete]] end.
    rewrite !kv_delete_map. by apply registry_release; [|eexists|].
Qed.

Lemma registry_run_ok es s now :
  registry_ok now (kv_map s) → Forall (λ e, registry_op_ok e.2 ∧ wf Height_codec e.1) es →
  Forall (λ e, now ≤ e.1) es → StronglySorted (λ e e', e.1 ≤ e'.1) es →
  ∀ last_, Forall (λ e, e.1 ≤ last_) es → now ≤ last_ → registry_ok last_ (kv_map (registry_run es s)).
Proof.
  intros Hok Hes Hge Hs last_ Hl Hnl. revert s now Hok Hge Hnl.
  induction es as [|[h op] es IH]; intros s now Hok Hge Hnl; [by eapply registry_ok_later|].
  apply Forall_cons in Hes as [[Hop Hh] Hes]. apply Forall_cons in Hge as [Hge0 Hge].
  apply Forall_cons in Hl as [Hl0 Hl]. apply StronglySorted_cons in Hs as [Hs0 Hs]. simpl in *.
  apply (IH Hes Hs Hl _ h); [|done|done].
  apply (registry_ok_later _ now h) in Hok; [|done]. unfold registry_step. simpl.
  destruct (registry_exec op h s) as [[u|e] s'] eqn:E; [|done]. by eapply registry_exec_ok.
Qed.

(** C35: No two live names look alike.  Whatever sequence of registrations, renewals,
    transfers, releases and lapses the chain executes, at heights that never go
    back, two names that are both in force and fold to the same skeleton are the
    same name, so a lookalike can never be registered beside the name it imitates. *)
Theorem no_confusable_names s es now n n' :
  kv_map s = ∅ → Forall (λ e, registry_op_ok e.2 ∧ wf Height_codec e.1) es →
  StronglySorted (λ e e', e.1 ≤ e'.1) es → Forall (λ e, e.1 ≤ now) es → 0 ≤ now →
  let m := kv_map (registry_run es s) in
  username_ok n → username_ok n' → live m n now → live m n' now → skeleton n = skeleton n' → n = n'.
Proof.
  intros Hs Hes Hso Hle H0 m Hn Hn' Hl Hl' Hsk.
  assert (registry_ok now m) as Hok.
  { eapply (registry_run_ok es s 0); try done; [rewrite Hs; apply registry_ok_empty|].
    eapply Forall_impl; [exact Hes|]. intros [h op] [_ Hh]. apply Hh. }
  pose proof (ro_live _ _ Hok n Hn Hl) as E1. pose proof (ro_live _ _ Hok n' Hn' Hl') as E2.
  rewrite Hsk in E1. congruence.
Qed.
End registry_ops.

(** * Contact bindings *)

Section bindings.
Context {St : Type} {KV : KeyValueStore St} {KM : KVMap St}.
Implicit Types (m : gmap bytes bytes) (s : St) (c : ContactCommitment).

Definition contact_at m c : option ContactRecord := record_at ContactRecord_codec m (key_contact c).
Definition attestor_at m (a : Address) : option Attestor := record_at Attestor_codec m (key_attestor a).

Lemma resolve_at c s o : resolve c s = Ok o → o = contact_at (kv_map s) c.
Proof. intros Hx%map_err_Ok_inv. exact (get_decoded_record _ _ _ _ Hx). Qed.
Lemma attestor_get_at a s o : attestor a s = Ok o → o = attestor_at (kv_map s) a.
Proof. intros Hx%map_err_Ok_inv. exact (get_decoded_record _ _ _ _ Hx). Qed.

Lemma require_binding_Ok c s r s' :
  require_binding c s = (Ok r, s') → s' = s ∧ contact_at (kv_map s) c = Some r.
Proof.
  unfold require_binding. intros Hx. repeat inv_M_step.
  match goal with H : resolve _ _ = Ok _ |- _ => apply resolve_at in H end. by subst.
Qed.

Lemma require_attestor_Ok a s u s' :
  require_active_attestor a s = (Ok u, s') →
  s' = s ∧ ∃ r, attestor_at (kv_map s) a = Some r ∧ active r = true.
Proof.
  unfold require_active_attestor. intros Hx. repeat inv_M_step. bool_simpl.
  match goal with H : attestor _ _ = Ok _ |- _ => apply attestor_get_at in H end. naive_solver.
Qed.

Lemma key_contact_inj c c' :
  length c = 32%nat → length c' = 32%nat → key_contact c = key_contact c' → c = c'.
Proof.
  intros Hc Hc' [_ E]%StoreKey_new_inj; [by simplify_eq|..]; repeat constructor;
    unfold bytes_codec, MAX_FIELD_LEN; cbn [wf]; lia.
Qed.

Lemma contact_at_wf m c r : contact_at m c = Some r → wf ContactRecord_codec r.
Proof. intros [? _]%record_at_Some; [done|apply _]. Qed.

(** The requests, vetoes and attestations of the chain's messages; a rebinding
    request runs under the delay governance has in force. *)
Inductive binding_op :=
| BAttest c (address issuer : Address)
| BRequest (delay : Z) c (to issuer : Address)
| BVeto c (caller : Address)
| BApply c
| BRevoke c (caller : Address)
| BLicense (a : Address) (r : Attestor)
| BSetActive (a : Address) (on : bool).

Definition binding_exec (op : binding_op) (now : Height) : M St BindError unit :=
  match op with
  | BAttest c a i => attest c a i now
  | BRequest d c to i => do! request_rebind d c to i now in ret tt
  | BVeto c a => veto_rebind c a
  | BApply c => do! apply_rebind c now in ret tt
  | BRevoke c a => revoke c a
  | BLicense a r => register_attestor a r
  | BSetActive a on => set_attestor_active a on
  end.

Definition binding_op_ok (notice : Z) (op : binding_op) : Prop :=
  match op with
  | BAttest c a i => length c = 32%nat
  | BRequest d c to i => length c = 32%nat ∧ address_ok to ∧ address_ok i ∧ notice ≤ d
  | BVeto c a | BRevoke c a => length c = 32%nat
  | BApply c => length c = 32%nat
  | BLicense _ _ | BSetActive _ _ => True
  end.

Definition binding_step s (e : Height * binding_op) : St :=
  match binding_exec e.2 e.1 s with (Ok _, s') => s' | (Err _, _) => s end.
Definition binding_run (es : list (Height * binding_op)) s : St := foldl binding_step s es.

(** Bound to [a], and no redirection takes effect before [deadline]. *)
Definition bound_until m c (a : Address) (deadline : Z) : Prop :=
  ∃ r, contact_at m c = Some r ∧ ct_address r = a ∧ ∀ p, rebind r = Some p → deadline ≤ effective_at p.

Lemma bound_put_other m c c' a d r :
  length c = 32%nat → length c' = 32%nat → c' ≠ c → bound_until m c a d →
  bound_until (<[key_contact c' := encode ContactRecord_codec r]> m) c a d.
Proof.
  intros Hc Hc' Hne (r0 & Hr & Ha & Hp). exists r0. split; [|done]. unfold contact_at in *.
  rewrite (record_at_ext _ m); [done|]. rewrite lookup_insert_ne; [done|]. by intros ?%key_contact_inj.
Qed.

Lemma bound_put_same m c a d r :
  wf ContactRecord_codec r → ct_address r = a → (∀ p, rebind r = Some p → d ≤ effective_at p) →
  bound_until (<[key_contact c := encode ContactRecord_codec r]> m) c a d.
Proof.
  intros Hw Ha Hp. exists r. split; [|done]. unfold contact_at. by rewrite record_at_insert by (apply _ || done).
Qed.

Lemma bound_attestor m c a d a' r :
  bound_until m c a d → bound_until (<[key_attestor a' := encode Attestor_codec r]> m) c a d.
Proof.
  intros (r0 & Hr & Ha). exists r0. split; [|done]. unfold contact_at in *.
  rewrite (record_at_ext _ m); [done|]. rewrite lookup_insert_ne; [done|ns_ne].
Qed.

Lemma binding_exec_bound notice op now s u s' c a deadline :
  binding_op_ok notice op → length c = 32%nat → wf Height_codec now → 0 ≤ notice → deadline ≤ u64_max →
  now < deadline → deadline ≤ now + notice → op ≠ BRevoke c a →
  bound_until (kv_map s) c a deadline → binding_exec op now s = (Ok u, s') →
  bound_until (kv_map s') c a deadline.
Proof.
  intros Hop Hc Hnow Hn Hmx Hlt Hge Hrev Hb Hx. pose proof Hb as (r & Hr & Ha & Hp).
  destruct op as [c' x i|dl c' to i|c' x|c'|c' x|x r'|x on]; cbn [binding_exec binding_op_ok] in *.
  - unfold attest, put_contact in Hx. repeat inv_M_step. bool_simpl.
    match goal with H : require_active_attestor _ _ = _ |- _ => apply require_attestor_Ok in H as [-> _] end.
    match goal with H : resolve _ _ = Ok _ |- _ => apply resolve_at in H as -> end.
    unfold set_encoded. rewrite kv_set_map. destruct (decide (c' = c)) as [->|Hne]; [|by apply bound_put_other].
    match goal with H : ¬ is_Some _ |- _ => destruct H; by eexists end.
  - destruct Hop as (Hc' & Hto & Hi & Hdl). unfold request_rebind, put_contact in Hx. repeat inv_M_step. bool_simpl.
    match goal with H : require_active_attestor _ _ = _ |- _ => apply require_attestor_Ok in H as [-> _] end.
    match goal with H : require_binding _ _ = _ |- _ => apply require_binding_Ok in H as [-> Hb'] end.
    unfold set_encoded. rewrite kv_set_map. destruct (decide (c' = c)) as [->|Hne]; [|by apply bound_put_other].
    rewrite Hr in Hb'. injection Hb' as <-. destruct (contact_at_wf _ _ _ Hr) as (Hw1 & Hw2 & Hw3 & _).
    assert (wf Height_codec (saturating_add u64_max now dl)) by (apply height_sat_add; [done|lia]).
    apply bound_put_same; [|done|].
    + refine (conj Hw1 (conj Hw2 (conj Hw3 _))). by refine (conj Hto (conj Hi _)).
    + intros p [= <-]. simpl. unfold saturating_add. lia.
  - unfold veto_rebind, put_contact in Hx. repeat inv_M_step. bool_simpl.
    match goal with H : require_binding _ _ = _ |- _ => apply require_binding_Ok in H as [-> Hb'] end.
    unfold set_encoded. rewrite kv_set_map. destruct (decide (c' = c)) as [->|Hne]; [|by apply bound_put_other].
    rewrite Hr in Hb'. injection Hb' as <-. destruct (contact_at_wf _ _ _ Hr) as (Hw1 & Hw2 & Hw3 & _).
    by apply bound_put_same; [refine (conj Hw1 (conj Hw2 (conj Hw3 _)))| |].
  - unfold apply_rebind, put_contact in Hx. repeat inv_M_step. bool_simpl.
    match goal with H : require_binding _ _ = _ |- _ => apply require_binding_Ok in H as [-> Hb'] end.
    unfold set_encoded. rewrite kv_set_map. destruct (decide (c' = c)) as [->|Hne]; [|by apply bound_put_other].
    rewrite Hr in Hb'. injection Hb' as <-.
    match goal with H : rebind r = Some ?p |- _ => specialize (Hp p H) end. lia.
  - unfold revoke in Hx. repeat inv_M_step. bool_simpl.
    match goal with H : require_binding _ _ = _ |- _ => apply require_binding_Ok in H as [-> Hb'] end.
    rewrite kv_delete_map. destruct (decide (c' = c)) as [->|Hne].
    { rewrite Hr in Hb'. injection Hb' as <-. destruct Hrev. congruence. }
    exists r. split; [|done]. unfold contact_at in *. rewrite (record_at_ext _ (kv_map s)); [done|].
    rewrite lookup_delete_ne; [done|]. by intros ?%key_contact_inj.
  - unfold register_attestor in Hx. repeat inv_M_step. unfold set_encoded. rewrite kv_set_map. by apply bound_attestor.
  - unfold set_attestor_active, register_attestor in Hx. repeat inv_M_step. unfold set_encoded. rewrite kv_set_map.
    by apply bound_attestor.
Qed.

(** C34: A contact is never redirected without notice.  While a phone number or email
    is bound to an account with no rebinding under way, nothing anyone does in the
    next [notice] blocks, attestors included, makes it resolve to another account
    unless the account itself gives the binding up; and whenever a rebinding is
    pending the bound account can veto it. *)
Theorem rebind_needs_notice notice s es c r now :
  0 ≤ notice → length c = 32%nat → contact_at (kv_map s) c = Some r → rebind r = None →
  now + notice ≤ u64_max →
  Forall (λ e, binding_op_ok notice e.2 ∧ wf Height_codec e.1 ∧ now ≤ e.1 < now + notice
               ∧ e.2 ≠ BRevoke c (ct_address r)) es →
  let s' := binding_run es s in
  ∃ r', contact_at (kv_map s') c = Some r' ∧ ct_address r' = ct_address r
    ∧ (rebind r' ≠ None →
       ∃ s'', veto_rebind c (ct_address r) s' = (Ok tt, s'')
         ∧ contact_at (kv_map s'') c = Some {| ct_address := ct_address r'; ct_issuer := ct_issuer r';
                                               attested_at := attested_at r'; rebind := None |}).
Proof.
  intros Hn Hc Hr Hrb Hmx Hes s'.
  assert (bound_until (kv_map s') c (ct_address r) (now + notice)) as (r' & Hr' & Ha & _).
  { unfold s'. assert (bound_until (kv_map s) c (ct_address r) (now + notice)) as Hb.
    { exists r. split_and!; [done..|]. rewrite Hrb. done. }
    clear Hr Hrb s'. revert s Hb. induction es as [|[h op] es IH]; intros s Hb; [done|].
    apply Forall_cons in Hes as [(Hop & Hh & Hlt & Hrev) Hes]. simpl in *. apply IH; [done|].
    unfold binding_step. simpl. destruct (binding_exec op h s) as [[u|e] s1] eqn:E; [|done].
    eapply (binding_exec_bound notice op h); try done; lia. }
  exists r'. split_and!; [done..|]. intros Hne.
  assert (resolve c s' = Ok (Some r')) as Hres.
  { unfold resolve. rewrite (proj2 (get_decoded_Some ContactRecord_codec s' (key_contact c) r')); [done|].
    by apply record_at_Some in Hr'; [|apply _]. }
  eexists. split.
  - unfold veto_rebind, require_binding, bind, reads, lift, fail_if, put_contact, writes. rewrite Hres. simpl.
    rewrite bool_decide_eq_false_2 by done. rewrite bool_decide_eq_true_2 by done. done.
  - unfold set_encoded. rewrite kv_set_map. unfold contact_at. apply record_at_insert; [apply _|].
    destruct (contact_at_wf _ _ _ Hr') as (Hw1 & Hw2 & Hw3 & _). by refine (conj Hw1 (conj Hw2 (conj Hw3 _))).
Qed.
End bindings.
