(* ===== verification/Bech32.v ===== *)
(** Bech32m text and the text form of addresses ([crates/crypto/src/bech32.rs],
    [crates/crypto/src/address.rs]).  Strings are their bytes; values of [u32] are
    kept below [2^32] by the masks the code applies. *)

From S2P Require Import Prelude SortedVec Codec Primitives Crypto Alias.

Definition CHARSET : bytes := bs "qpzry9x8gf2tvdw0s3jn54khce6mua7l".
Definition BECH32M_CONST : Z := 0x2bc830a3.
Definition GENERATOR : list Z := [0x3b6a57b2; 0x26508e6d; 0x1ea119fa; 0x3d4233dd; 0x2a1462b3].
Definition MAX_LEN : nat := 90.

Inductive CryptoError := Bech32Error (why : string) | InvalidAddress (why : string).

(** The inner loop of [polymod]: the generators of the set bits of [top]. *)
Fixpoint gen_xor (gs : list Z) (top : Z) (i : Z) (chk : Z) : Z :=
  match gs with
  | [] => chk
  | g :: gs => gen_xor gs top (i + 1) (if Z.land (Z.shiftr top i) 1 =? 1 then Z.lxor chk g else chk)
  end.
Definition poly_step (chk v : Z) : Z :=
  let top := Z.shiftr chk 25 in
  gen_xor GENERATOR top 0 (Z.lxor (Z.shiftl (Z.land chk 0x1ffffff) 5) v).
Definition polymod (values : list Z) : Z := foldl poly_step 1 values.

Definition hrp_expand (hrp : bytes) : list Z :=
  ((λ b, Z.shiftr (byte_val b) 5) <$> hrp) ++ [0] ++ ((λ b, Z.land (byte_val b) 31) <$> hrp).

(** [while bits >= to]: one group of [to] bits per turn. *)
Fixpoint take_groups (fuel : nat) (acc bits to : Z) : list Z * Z :=
  match fuel with
  | O => ([], bits)
  | S fuel =>
      if to <=? bits then
        let bits := bits - to in
        let '(out, bits') := take_groups fuel acc bits to in
        (Z.land (Z.shiftr acc bits) (2 ^ to - 1) :: out, bits')
      else ([], bits)
  end.

Definition out_of_range : CryptoError := Bech32Error "input value out of range".

(** The loop of [convert_bits], with the accumulator and the bits pending in it. *)
Fixpoint convert_loop (data : list Z) (from to acc bits : Z) : result CryptoError (list Z * Z * Z) :=
  match data with
  | [] => Ok ([], acc, bits)
  | v :: data =>
      if negb (Z.shiftr v from =? 0) then Err out_of_range
      else
        let acc := Z.lor (Z.land (Z.shiftl acc from) (2 ^ 32 - 1)) v in
        let '(out, bits) := take_groups 32 acc (bits + from) to in
        '(rest, acc, bits) ← convert_loop data from to acc bits;
        Ok (out ++ rest, acc, bits)
  end.

Definition convert_bits (data : list Z) (from to : Z) (pad : bool) : result CryptoError (list Z) :=
  '(out, acc, bits) ← convert_loop data from to 0 0;
  let rest := Z.land (Z.land (Z.shiftl acc (to - bits)) (2 ^ 32 - 1)) (2 ^ to - 1) in
  if pad then Ok (if 0 <? bits then out ++ [rest] else out)
  else if (from <=? bits) || negb (rest =? 0) then Err (Bech32Error "invalid padding")
  else Ok out.

Definition charset_at (v : Z) : byte := default x71 (CHARSET !! Z.to_nat v).
Definition charset_index (c : byte) : option Z :=
  Z.of_nat ∘ fst <$> list_find (λ x, x = c) CHARSET.

Definition is_ascii_uppercase (b : byte) : bool := in_range 65 90 b.

(** The six checksum symbols. *)
Definition checksum_symbols (checksum : Z) : list Z :=
  (λ i, Z.land (Z.shiftr checksum (5 * (5 - i))) 31) <$> [0; 1; 2; 3; 4; 5].

Definition bech32_encode (hrp data : bytes) : result CryptoError bytes :=
  if bool_decide (hrp = []) then Err (Bech32Error "empty hrp")
  else if negb (forallb (in_range 33 126) hrp) then Err (Bech32Error "hrp character out of range")
  else if existsb is_ascii_uppercase hrp then Err (Bech32Error "hrp must be lowercase")
  else
    payload ← convert_bits (byte_val <$> data) 8 5 true;
    let values := hrp_expand hrp ++ payload ++ [0; 0; 0; 0; 0; 0] in
    let checksum := Z.lxor (polymod values) BECH32M_CONST in
    let out := hrp ++ [x31] ++ (charset_at <$> payload) ++ (charset_at <$> checksum_symbols checksum) in
    if (MAX_LEN <? length out)%nat then Err (Bech32Error "encoded string exceeds 90 characters") else Ok out.

(** [str::rfind('1')] and the two sides of the separator. *)
Fixpoint rsplit_one (s : bytes) : option (bytes * bytes) :=
  match s with
  | [] => None
  | c :: s =>
      match rsplit_one s with
      | Some (l, r) => Some (c :: l, r)
      | None => if bool_decide (c = x31) then Some ([], s) else None
      end
  end.

Fixpoint char_values (s : bytes) : result CryptoError (list Z) :=
  match s with
  | [] => Ok []
  | c :: s =>
      match charset_index c with
      | None => Err (Bech32Error "invalid character")
      | Some v => vs ← char_values s; Ok (v :: vs)
      end
  end.

Definition bech32_decode (s : bytes) : result CryptoError (bytes * bytes) :=
  if (MAX_LEN <? length s)%nat then Err (Bech32Error "string exceeds 90 characters")
  else if existsb is_ascii_lowercase s && existsb is_ascii_uppercase s then Err (Bech32Error "mixed case")
  else
    let lowered : bytes := ascii_lower <$> s in
    '(hrp, data_part) ← ok_or (Bech32Error "missing separator") (rsplit_one lowered);
    if bool_decide (hrp = []) then Err (Bech32Error "empty hrp")
    else if (length data_part <? 6)%nat then Err (Bech32Error "data part shorter than checksum")
    else
      values ← char_values data_part;
      if negb (polymod (hrp_expand hrp ++ values) =? BECH32M_CONST) then Err (Bech32Error "checksum mismatch")
      else
        data ← convert_bits (take (length values - 6) values) 5 8 false;
        Ok (hrp, byte_of <$> (data : list Z)).

(** * Addresses as text *)

Definition HRP : bytes := bs "afri".

Definition Address_to_bech32 (a : Address) : result CryptoError bytes := bech32_encode HRP a.
Definition Address_from_bech32 (s : bytes) : result CryptoError Address :=
  '(hrp, data) ← map_err (λ _, InvalidAddress "bech32") (bech32_decode s);
  if negb (bool_decide (hrp = HRP)) then Err (InvalidAddress "wrong prefix")
  else if negb (length data =? ADDRESS_LEN)%nat then Err (InvalidAddress "payload length")
  else Ok data.

(** * Regrouping bits *)

(** The number a list of digits spells, most significant first. *)
Definition be_val (w : Z) (l : list Z) : Z := foldl (λ a x, a * 2 ^ w + x) 0 l.
Definition groups (w : Z) (l : list Z) : Prop := Forall (λ x, 0 ≤ x < 2 ^ w) l.
Abbreviation zlen l := (Z.of_nat (length l)).

Lemma be_val_acc w l a :
  0 ≤ w → foldl (λ a x, a * 2 ^ w + x) a l = a * 2 ^ (w * zlen l) + be_val w l.
Proof.
  intros Hw. unfold be_val. revert a. induction l as [|x l IH]; intros a; cbn [foldl length].
  - replace (w * Z.of_nat 0) with 0 by lia. lia.
  - rewrite IH, (IH (0 * 2 ^ w + x)). replace (w * Z.of_nat (S (length l))) with (w + w * zlen l) by lia.
    rewrite Z.pow_add_r by lia. lia.
Qed.

Lemma be_val_cons w x l : 0 ≤ w → be_val w (x :: l) = x * 2 ^ (w * zlen l) + be_val w l.
Proof. intros Hw. unfold be_val at 1. cbn [foldl]. rewrite be_val_acc by done. lia. Qed.

Lemma be_val_app w l1 l2 : 0 ≤ w → be_val w (l1 ++ l2) = be_val w l1 * 2 ^ (w * zlen l2) + be_val w l2.
Proof. intros Hw. unfold be_val at 1. rewrite foldl_app, be_val_acc by done. done. Qed.

Lemma be_val_bound w l : 0 ≤ w → groups w l → 0 ≤ be_val w l < 2 ^ (w * zlen l).
Proof.
  intros Hw Hl. induction Hl as [|x l Hx Hl IH]; [cbn; rewrite Z.mul_0_r; cbn; lia|].
  rewrite be_val_cons by done. cbn [length]. replace (w * Z.of_nat (S (length l))) with (w + w * zlen l) by lia.
  rewrite Z.pow_add_r by lia. nia.
Qed.

(** A list of digits is its length and its number. *)
Lemma be_val_inj w l1 l2 :
  0 ≤ w → groups w l1 → groups w l2 → length l1 = length l2 → be_val w l1 = be_val w l2 → l1 = l2.
Proof.
  intros Hw H1. revert l2. induction H1 as [|x l1 Hx H1 IH]; intros l2 H2 El Ev; destruct H2 as [|y l2 Hy H2]; try done.
  injection El as El. rewrite !be_val_cons, El in Ev by done.
  pose proof (be_val_bound w l1 Hw H1) as B1. pose proof (be_val_bound w l2 Hw H2) as B2. rewrite El in B1.
  destruct (Z.div_mod_unique (2 ^ (w * zlen l2)) x y (be_val w l1) (be_val w l2)) as [-> E]; [lia|lia|lia|]. f_equal. by apply IH.
Qed.

Lemma land_mask x w : 0 ≤ w → Z.land x (2 ^ w - 1) = x mod 2 ^ w.
Proof. intros Hw. rewrite <- Z.land_ones by done. f_equal. rewrite Z.ones_equiv. lia. Qed.

Lemma mod_split x a b : 0 ≤ a → 0 ≤ b → x mod 2 ^ (a + b) = (x / 2 ^ a) mod 2 ^ b * 2 ^ a + x mod 2 ^ a.
Proof. intros Ha Hb. rewrite Z.pow_add_r by done. rewrite Z.rem_mul_r by lia. lia. Qed.

Lemma take_groups_spec fuel acc bits to :
  0 < to → 0 ≤ bits < Z.of_nat fuel →
  let '(out, bits') := take_groups fuel acc bits to in
  0 ≤ bits' < to ∧ zlen out * to + bits' = bits ∧ groups to out
  ∧ be_val to out * 2 ^ bits' + acc mod 2 ^ bits' = acc mod 2 ^ bits.
Proof.
  intros Hto. revert bits. induction fuel as [|fuel IH]; intros bits Hb; [lia|]. cbn [take_groups].
  destruct (Z.leb_spec to bits).
  2: { simpl. unfold be_val. simpl. split_and!; [lia..|constructor|lia]. }
  specialize (IH (bits - to) ltac:(lia)). destruct (take_groups fuel acc (bits - to) to) as [out bits'].
  destruct IH as (H1 & H2 & H3 & H4). cbn [length]. rewrite land_mask, Z.shiftr_div_pow2 by lia.
  pose proof (Z.mod_pos_bound (acc / 2 ^ (bits - to)) (2 ^ to) ltac:(lia)).
  split_and!; [lia..|by constructor|]. rewrite be_val_cons by lia.
  pose proof (mod_split acc (bits - to) to ltac:(lia) ltac:(lia)) as Hm. replace (bits - to + to) with bits in Hm by lia.
  rewrite Hm, <- H4, Z.mul_add_distr_r, <- Z.mul_assoc, <- Z.pow_add_r by lia.
  replace (to * zlen out + bits') with (bits - to) by lia. lia.
Qed.

Lemma land_low x v w : 0 ≤ w → 0 ≤ v < 2 ^ w → Z.land (x * 2 ^ w) v = 0.
Proof.
  intros Hw Hv. rewrite <- (Z.mod_small v (2 ^ w)), <- Z.land_ones, (Z.land_comm v), Z.land_assoc, Z.land_ones by lia.
  by rewrite Z.mod_mul, Z.land_0_l by lia.
Qed.

Lemma lor_low x v w : 0 ≤ w → 0 ≤ v < 2 ^ w → Z.lor (x * 2 ^ w) v = x * 2 ^ w + v.
Proof. intros Hw Hv. by rewrite Z.add_nocarry_lxor, Z.lxor_lor by by apply land_low. Qed.

Lemma shift_in acc from v bits :
  0 ≤ acc → 0 ≤ v < 2 ^ from → 0 ≤ from → 0 ≤ bits → bits + from ≤ 32 →
  Z.lor (Z.land (Z.shiftl acc from) (2 ^ 32 - 1)) v mod 2 ^ (bits + from) = acc mod 2 ^ bits * 2 ^ from + v
  ∧ 0 ≤ Z.lor (Z.land (Z.shiftl acc from) (2 ^ 32 - 1)) v.
Proof.
  intros Ha Hv Hf Hb Hs. rewrite land_mask, Z.shiftl_mul_pow2 by lia.
  assert ((acc * 2 ^ from) mod 2 ^ 32 = acc mod 2 ^ (32 - from) * 2 ^ from) as ->.
  { replace 32 with ((32 - from) + from) at 1 by lia. rewrite Z.pow_add_r, Z.mul_mod_distr_r by lia. done. }
  rewrite lor_low by done.
  pose proof (Z.mod_pos_bound acc (2 ^ (32 - from)) ltac:(lia)). split; [|nia].
  rewrite Z.pow_add_r by lia. rewrite (Z.mul_comm (2 ^ bits)), Z.rem_mul_r by lia.
  rewrite (Z.add_comm _ v), Z.mod_add, Z.div_add by lia. rewrite (Z.mod_small v) by lia.
  rewrite (Z.div_small v), Z.add_0_l by lia.
  assert (acc mod 2 ^ (32 - from) mod 2 ^ bits = acc mod 2 ^ bits) as ->; [|lia].
  symmetry. apply Znumtheory.Zmod_div_mod; [lia..|]. exists (2 ^ (32 - from - bits)).
  rewrite <- Z.pow_add_r by lia. f_equal. lia.
Qed.

Lemma convert_loop_spec data from to acc bits :
  0 < to → 0 < from → from + to ≤ 32 → groups from data → 0 ≤ acc → 0 ≤ bits < to →
  ∃ out acc' bits', convert_loop data from to acc bits = Ok (out, acc', bits')
  ∧ 0 ≤ acc' ∧ 0 ≤ bits' < to ∧ zlen out * to + bits' = bits + from * zlen data ∧ groups to out
  ∧ be_val to out * 2 ^ bits' + acc' mod 2 ^ bits' = acc mod 2 ^ bits * 2 ^ (from * zlen data) + be_val from data.
Proof.
  intros Hto Hfrom Hs Hd. revert acc bits. induction Hd as [|v data Hv Hd IH]; intros acc bits Ha Hb; cbn [convert_loop].
  { exists [], acc, bits. cbn [length]. rewrite Z.mul_0_r, Z.pow_0_r. unfold be_val. cbn [foldl].
    split_and!; [done|lia..|constructor|lia]. }
  assert (Z.shiftr v from = 0) as -> by (rewrite Z.shiftr_div_pow2 by lia; by apply Z.div_small).
  cbn [Z.eqb negb]. destruct (shift_in acc from v bits Ha Hv ltac:(lia) ltac:(lia) ltac:(lia)) as [Hm Hp].
  set (acc1 := Z.lor _ v) in *. pose proof (take_groups_spec 32 acc1 (bits + from) to Hto ltac:(lia)) as Hg.
  destruct (take_groups 32 acc1 (bits + from) to) as [out1 bits1]. destruct Hg as (G1 & G2 & G3 & G4).
  destruct (IH acc1 bits1 Hp G1) as (out & acc' & bits' & E & I1 & I2 & I3 & I4 & I5). rewrite E. cbn [mbind result_bind].
  exists (out1 ++ out), acc', bits'. split_and!; [done|done|lia|lia| |by apply Forall_app|].
  - rewrite length_app. cbn [length]. lia.
  - rewrite be_val_app, be_val_cons, Z.mul_add_distr_r by lia. cbn [length].
    replace (from * Z.of_nat (S (length data))) with (from + from * zlen data) by lia. rewrite Z.pow_add_r by lia.
    rewrite <- Z.mul_assoc, <- Z.pow_add_r by lia.
    replace (to * zlen out + bits') with (bits1 + from * zlen data) by lia. rewrite Z.pow_add_r by lia. nia.
Qed.

Lemma pending acc bits to :
  0 ≤ acc → 0 ≤ bits ≤ to → to ≤ 32 →
  Z.land (Z.land (Z.shiftl acc (to - bits)) (2 ^ 32 - 1)) (2 ^ to - 1) = acc mod 2 ^ bits * 2 ^ (to - bits).
Proof.
  intros Ha Hb Ht. rewrite !land_mask, Z.shiftl_mul_pow2 by lia.
  rewrite <- (Znumtheory.Zmod_div_mod (2 ^ to) (2 ^ 32)); [|lia..|exists (2 ^ (32 - to)); rewrite <- Z.pow_add_r by lia; f_equal; lia].
  replace to with (bits + (to - bits)) at 2 by lia. rewrite Z.pow_add_r, Z.mul_mod_distr_r by lia. done.
Qed.

(** Padding: as many groups as needed, filled with zeros on the right. *)
Lemma convert_pad data :
  groups 8 data →
  ∃ out, convert_bits data 8 5 true = Ok out ∧ groups 5 out
  ∧ 0 ≤ 5 * zlen out - 8 * zlen data < 5 ∧ be_val 5 out = be_val 8 data * 2 ^ (5 * zlen out - 8 * zlen data).
Proof.
  intros Hd. destruct (convert_loop_spec data 8 5 0 0 ltac:(lia) ltac:(lia) ltac:(lia) Hd ltac:(lia) ltac:(lia))
    as (out & acc & bits & E & Ha & Hb & Hl & Ho & Hv).
  unfold convert_bits. rewrite E. cbn [mbind result_bind]. rewrite Z.mod_0_l, Z.mul_0_l, Z.add_0_l in Hv by lia.
  rewrite pending by lia. destruct (Z.ltb_spec 0 bits).
  - pose proof (Z.mod_pos_bound acc (2 ^ bits) ltac:(lia)).
    assert (2 ^ 5 = 2 ^ bits * 2 ^ (5 - bits)) as H5 by (rewrite <- Z.pow_add_r by lia; f_equal; lia).
    exists (out ++ [acc mod 2 ^ bits * 2 ^ (5 - bits)]). rewrite length_app. cbn [length].
    split_and!; [done| |lia|lia|].
    + apply Forall_app. split; [done|]. constructor; [|done]. split; [nia|]. rewrite H5. nia.
    + rewrite be_val_app by lia. cbn [length]. rewrite be_val_cons by lia. unfold be_val at 2. cbn [foldl length].
      rewrite Z.mul_0_r, Z.mul_1_r, Z.pow_0_r, H5, <- Hv.
      replace (5 * Z.of_nat (length out + 1) - 8 * zlen data) with (5 - bits) by lia. lia.
  - assert (bits = 0) as -> by lia. exists out. rewrite Z.pow_0_r, Z.mod_1_r in Hv.
    replace (5 * zlen out - 8 * zlen data) with 0 by lia. split_and!; [done|done|lia|lia|lia].
Qed.

(** Unpadding succeeds exactly on such groups. *)
Lemma convert_unpad data out :
  groups 5 data →
  convert_bits data 5 8 false = Ok out
  ↔ groups 8 out ∧ 0 ≤ 5 * zlen data - 8 * zlen out < 5 ∧ be_val 5 data = be_val 8 out * 2 ^ (5 * zlen data - 8 * zlen out).
Proof.
  intros Hd. destruct (convert_loop_spec data 5 8 0 0 ltac:(lia) ltac:(lia) ltac:(lia) Hd ltac:(lia) ltac:(lia))
    as (o & acc & bits & E & Ha & Hb & Hl & Ho & Hv).
  unfold convert_bits. rewrite E. cbn [mbind result_bind]. rewrite Z.mod_0_l, Z.mul_0_l, Z.add_0_l in Hv by lia.
  rewrite pending by lia. pose proof (Z.mod_pos_bound acc (2 ^ bits) ltac:(lia)).
  assert (0 < 2 ^ (8 - bits)) by lia. split.
  - destruct (Z.leb_spec 5 bits); [done|]. destruct (Z.eqb_spec (acc mod 2 ^ bits * 2 ^ (8 - bits)) 0); [|done].
    intros [= <-]. replace (5 * zlen data - 8 * zlen o) with bits by lia. split_and!; [done|lia|lia|nia].
  - intros (Hg & Hp & Hval). assert (length out = length o) as Elen by lia.
    assert (5 * zlen data - 8 * zlen out = bits) as Eb by lia. rewrite Eb in *. rewrite Hval in Hv.
    assert (be_val 8 o = be_val 8 out ∧ acc mod 2 ^ bits = 0) as [Ev Ez].
    { destruct (Z.div_mod_unique (2 ^ bits) (be_val 8 o) (be_val 8 out) (acc mod 2 ^ bits) 0); [lia|lia|lia|done]. }
    rewrite Ez. destruct (Z.leb_spec 5 bits); [lia|]. cbn. f_equal. apply (be_val_inj 8); [lia|done..].
Qed.

Lemma convert_roundtrip data : groups 8 data →
  ∃ out, convert_bits data 8 5 true = Ok out ∧ groups 5 out ∧ convert_bits out 5 8 false = Ok data.
Proof.
  intros Hd. destruct (convert_pad data Hd) as (out & E & Hg & Hp & Hv). exists out. split_and!; [done..|].
  by apply convert_unpad.
Qed.

Lemma convert_canonical p data : groups 5 p → convert_bits p 5 8 false = Ok data → groups 8 data ∧ convert_bits data 8 5 true = Ok p.
Proof.
  intros Hg E. apply convert_unpad in E as (Hd & Hp & Hv); [|done]. split; [done|].
  destruct (convert_pad data Hd) as (out & -> & Ho & Hp' & Hv'). f_equal.
  assert (length out = length p) as El by lia. apply (be_val_inj 5); [lia|done..|]. by rewrite Hv', Hv, El.
Qed.

(** * The checksum *)

Definition sel (b : bool) (g : Z) : Z := if b then g else 0.
Definition gen_of (chk : Z) : Z :=
  foldr Z.lxor 0 (zip_with (λ i g, sel (Z.testbit chk (25 + i)) g) [0; 1; 2; 3; 4] GENERATOR).

Lemma bit_test top i : 0 ≤ i → (Z.land (Z.shiftr top i) 1 =? 1) = Z.testbit top i.
Proof.
  intros Hi. change 1 with (2 ^ 1 - 1) at 1. rewrite land_mask by lia. rewrite Z.testbit_odd, Zodd_mod.
  change (2 ^ 1) with 2. by destruct (Z.eqb_spec (Z.shiftr top i mod 2) 1).
Qed.

Lemma gen_step chk top i g : 0 ≤ i →
  (if Z.land (Z.shiftr top i) 1 =? 1 then Z.lxor chk g else chk) = Z.lxor chk (sel (Z.testbit top i) g).
Proof. intros Hi. rewrite bit_test by done. unfold sel. destruct (Z.testbit top i); [done|by rewrite Z.lxor_0_r]. Qed.

Lemma poly_step_eq chk v :
  poly_step chk v = Z.lxor (Z.lxor (Z.shiftl (Z.land chk 0x1ffffff) 5) v) (gen_of chk).
Proof.
  unfold poly_step, gen_of, GENERATOR. cbn [gen_xor zip_with foldr].
  rewrite !gen_step by lia. rewrite !Z.shiftr_spec by lia. rewrite !Z.lxor_assoc, Z.lxor_0_r.
  rewrite !(Z.add_comm _ 25). done.
Qed.

Lemma lxor_swap a b c d : Z.lxor (Z.lxor a b) (Z.lxor c d) = Z.lxor (Z.lxor a c) (Z.lxor b d).
Proof. rewrite !Z.lxor_assoc. f_equal. rewrite <- !Z.lxor_assoc. by rewrite (Z.lxor_comm b c). Qed.

Lemma sel_xor b c g : sel (xorb b c) g = Z.lxor (sel b g) (sel c g).
Proof. destruct b, c; simpl; by rewrite ?Z.lxor_nilpotent, ?Z.lxor_0_r, ?Z.lxor_0_l. Qed.

Lemma gen_of_xor a b : gen_of (Z.lxor a b) = Z.lxor (gen_of a) (gen_of b).
Proof.
  unfold gen_of. generalize GENERATOR. generalize [0; 1; 2; 3; 4]. intros is_. induction is_ as [|i is_ IH]; intros gs.
  - by rewrite Z.lxor_0_r.
  - destruct gs as [|g gs]; cbn [zip_with foldr]; [by rewrite Z.lxor_0_r|].
    by rewrite IH, Z.lxor_spec, sel_xor, lxor_swap.
Qed.

Lemma land_lxor a b m : Z.land (Z.lxor a b) m = Z.lxor (Z.land a m) (Z.land b m).
Proof.
  apply Z.bits_inj'. intros n Hn. rewrite Z.land_spec, !Z.lxor_spec, !Z.land_spec.
  by destruct (Z.testbit a n), (Z.testbit b n), (Z.testbit m n).
Qed.

(** The step is linear over exclusive or. *)
Lemma poly_step_xor a b u w : poly_step (Z.lxor a b) (Z.lxor u w) = Z.lxor (poly_step a u) (poly_step b w).
Proof.
  rewrite !poly_step_eq, gen_of_xor, land_lxor, Z.shiftl_lxor, (lxor_swap (Z.shiftl _ _) (Z.shiftl _ _)).
  apply lxor_swap.
Qed.

Lemma lxor_bound a b n : 0 < n → 0 ≤ a < 2 ^ n → 0 ≤ b < 2 ^ n → 0 ≤ Z.lxor a b < 2 ^ n.
Proof.
  intros Hn Ha Hb. pose proof (proj2 (Z.lxor_nonneg a b) ltac:(lia)). split; [done|].
  destruct (decide (Z.lxor a b = 0)) as [->|Hne]; [lia|]. apply Z.log2_lt_pow2; [lia|].
  assert (∀ x, 0 ≤ x < 2 ^ n → Z.log2 x < n) as Hlog.
  { intros x Hx. destruct (decide (x = 0)) as [->|]; [simpl; lia|]. apply Z.log2_lt_pow2; lia. }
  eapply Z.le_lt_trans; [apply Z.log2_lxor; lia|]. apply Z.max_lub_lt; by apply Hlog.
Qed.

Abbreviation word30 x := (0 ≤ x < 2 ^ 30).

Lemma gen_of_bound chk : word30 (gen_of chk).
Proof.
  unfold gen_of, GENERATOR. cbn [zip_with foldr].
  repeat (apply lxor_bound; [lia|unfold sel; case_match; lia|]). lia.
Qed.

Lemma poly_step_bound chk v : 0 ≤ v < 2 ^ 30 → word30 (poly_step chk v).
Proof.
  intros Hv. rewrite poly_step_eq. apply lxor_bound; [lia| |apply gen_of_bound]. apply lxor_bound; [lia| |lia].
  change 0x1ffffff with (2 ^ 25 - 1). rewrite land_mask, Z.shiftl_mul_pow2 by lia.
  pose proof (Z.mod_pos_bound chk (2 ^ 25) ltac:(lia)). lia.
Qed.

Lemma feed_bound chk l : word30 chk → groups 5 l → word30 (foldl poly_step chk l).
Proof.
  intros Hc Hl. revert chk Hc. induction Hl as [|v l Hv Hl IH]; intros chk Hc; simpl; [done|].
  apply IH, poly_step_bound. lia.
Qed.

(** Different words stay different under the same input, and different inputs keep them apart. *)
Lemma gen_of_low top : 0 ≤ top < 32 → gen_of (top * 2 ^ 25) mod 32 = 0 → top = 0.
Proof.
  intros Ht. assert (top ∈ seqZ 0 32) as Hin by (apply elem_of_seqZ; lia). revert Hin. clear Ht.
  assert (forallb (λ t, implb (gen_of (t * 2 ^ 25) mod 32 =? 0) (t =? 0)) (seqZ 0 32) = true) as Hall by (by vm_compute).
  rewrite forallb_forall in Hall. intros Hin%list_elem_of_In E. specialize (Hall _ Hin). rewrite E in Hall. by apply Z.eqb_eq.
Qed.

Lemma gen_of_top chk : word30 chk → gen_of chk = gen_of (chk / 2 ^ 25 * 2 ^ 25).
Proof.
  intros Hc. assert (∀ i, 0 ≤ i → Z.testbit (chk / 2 ^ 25 * 2 ^ 25) (25 + i) = Z.testbit chk (25 + i)) as Hbit.
  { intros i Hi. rewrite <- Z.shiftr_div_pow2, <- Z.shiftl_mul_pow2, Z.shiftl_spec, Z.shiftr_spec by lia. f_equal. lia. }
  unfold gen_of, GENERATOR. cbn [zip_with]. by rewrite !Hbit by lia.
Qed.

Lemma poly_step_kernel d : word30 d → poly_step d 0 = 0 → d = 0.
Proof.
  intros Hd. rewrite poly_step_eq, Z.lxor_0_r. change 0x1ffffff with (2 ^ 25 - 1).
  rewrite land_mask, Z.shiftl_mul_pow2 by lia. intros E. apply Z.lxor_eq in E.
  pose proof (Z.div_mod d (2 ^ 25) ltac:(lia)) as Hdm.
  assert (d / 2 ^ 25 = 0) as Ht.
  { apply gen_of_low; [split; [apply Z.div_pos; lia|apply Z.div_lt_upper_bound; lia]|].
    rewrite <- gen_of_top, <- E by done. change 32 with (2 ^ 5). by rewrite Z.mod_mul by lia. }
  rewrite gen_of_top, Ht in E by done. change (gen_of (0 * 2 ^ 25)) with 0 in E. lia.
Qed.

Lemma poly_step_inj a b v : word30 a → word30 b → poly_step a v = poly_step b v → a = b.
Proof.
  intros Ha Hb E. apply Z.lxor_eq, poly_step_kernel; [apply lxor_bound; lia|].
  rewrite <- (Z.lxor_nilpotent v), poly_step_xor, E. by rewrite !Z.lxor_nilpotent.
Qed.

Lemma poly_step_inj_r a v w : poly_step a v = poly_step a w → v = w.
Proof.
  rewrite !poly_step_eq. intros E. apply (f_equal (λ x, Z.lxor x (gen_of a))) in E.
  rewrite !Z.lxor_assoc, !Z.lxor_nilpotent, !Z.lxor_0_r in E.
  apply (f_equal (Z.lxor (Z.shiftl (Z.land a 0x1ffffff) 5))) in E. by rewrite <- !Z.lxor_assoc, !Z.lxor_nilpotent, !Z.lxor_0_l in E.
Qed.

Lemma feed_inj a b l : word30 a → word30 b → groups 5 l → foldl poly_step a l = foldl poly_step b l → a = b.
Proof.
  intros Ha Hb Hl. revert a b Ha Hb. induction Hl as [|v l Hv Hl IH]; intros a b Ha Hb; simpl; [done|]. intros E.
  apply IH in E; [|apply poly_step_bound; lia..]. by apply poly_step_inj in E.
Qed.

(** One wrong symbol always changes the checksum. *)
Lemma polymod_one_symbol l v w r :
  groups 5 l → groups 5 r → 0 ≤ v < 32 → 0 ≤ w < 32 →
  polymod (l ++ v :: r) = polymod (l ++ w :: r) → v = w.
Proof.
  intros Hl Hr Hv Hw. unfold polymod. rewrite !foldl_app. cbn [foldl]. intros E.
  apply feed_inj in E; [|apply poly_step_bound; lia..|done]. by apply poly_step_inj_r in E.
Qed.

(** ** The symbols that complete a word *)

Lemma feed_xor a b l m :
  length l = length m → foldl poly_step (Z.lxor a b) (zip_with Z.lxor l m) = Z.lxor (foldl poly_step a l) (foldl poly_step b m).
Proof.
  revert a b m. induction l as [|u l IH]; intros a b [|w m] El; simpl; try done. rewrite poly_step_xor. apply IH. by injection El.
Qed.

Lemma poly_step_small chk v : 0 ≤ chk < 2 ^ 25 → 0 ≤ v < 32 → poly_step chk v = chk * 2 ^ 5 + v.
Proof.
  intros Hc Hv. rewrite poly_step_eq, gen_of_top by lia. rewrite (Z.div_small chk) by lia.
  change (gen_of (0 * 2 ^ 25)) with 0. rewrite Z.lxor_0_r. change 0x1ffffff with (2 ^ 25 - 1).
  rewrite land_mask, Z.mod_small, Z.shiftl_mul_pow2 by lia. symmetry. apply Z.add_nocarry_lxor, land_low; lia.
Qed.

Lemma feed_small l : groups 5 l → (length l ≤ 6)%nat → foldl poly_step 0 l = be_val 5 l.
Proof.
  intros Hl. induction l as [|v l IH] using rev_ind; intros Hlen; [done|]. apply Forall_app in Hl as [Hl Hv].
  apply Forall_cons in Hv as [Hv _]. rewrite length_app in Hlen. simpl in Hlen.
  unfold be_val. rewrite !foldl_app. cbn [foldl]. rewrite IH by (done || lia). fold (be_val 5 l).
  pose proof (be_val_bound 5 l ltac:(lia) Hl) as Hb. apply poly_step_small; [|lia]. split; [lia|].
  eapply Z.lt_le_trans; [apply Hb|]. apply Z.pow_le_mono_r; lia.
Qed.

Definition zeros6 : list Z := [0; 0; 0; 0; 0; 0].

Lemma polymod_complete l c :
  groups 5 c → length c = 6%nat → polymod (l ++ c) = Z.lxor (polymod (l ++ zeros6)) (be_val 5 c).
Proof.
  intros Hc Hl. unfold polymod. rewrite !foldl_app, <- (feed_small c) by (done || lia).
  rewrite <- feed_xor by done. rewrite Z.lxor_0_r. f_equal.
  do 6 (destruct c as [|? c]; [done|]). destruct c; [|done]. cbn [zip_with zeros6]. by rewrite !Z.lxor_0_l.
Qed.

Lemma checksum_symbols_ok x : word30 x →
  groups 5 (checksum_symbols x) ∧ length (checksum_symbols x) = 6%nat ∧ be_val 5 (checksum_symbols x) = x.
Proof.
  intros Hx. unfold checksum_symbols. change 31 with (2 ^ 5 - 1). cbn [fmap list_fmap length].
  rewrite !land_mask, !Z.shiftr_div_pow2 by lia. split_and!; [|done|].
  - repeat (constructor; [apply Z.mod_pos_bound; lia|]). constructor.
  - unfold be_val. cbn [foldl]. Z.to_euclidean_division_equations. lia.
Qed.

Lemma checksum_unique l c :
  word30 (polymod (l ++ zeros6)) → groups 5 c → length c = 6%nat →
  polymod (l ++ c) = BECH32M_CONST ↔ c = checksum_symbols (Z.lxor (polymod (l ++ zeros6)) BECH32M_CONST).
Proof.
  intros Hw Hc Hl. rewrite polymod_complete by done.
  destruct (checksum_symbols_ok (Z.lxor (polymod (l ++ zeros6)) BECH32M_CONST)) as (Hg & Hlen & Hv).
  { apply lxor_bound; [lia|done|unfold BECH32M_CONST; lia]. }
  split.
  - intros E. apply (be_val_inj 5); [lia|done..|congruence|]. rewrite Hv, <- E, <- Z.lxor_assoc, Z.lxor_nilpotent. by rewrite Z.lxor_0_l.
  - intros ->. rewrite Hv, <- Z.lxor_assoc, Z.lxor_nilpotent. apply Z.lxor_0_l.
Qed.

(** * Text *)

Lemma byte_val_range b : 0 ≤ byte_val b < 256.
Proof. apply coqutil.Byte.byte.unsigned_range. Qed.
Lemma byte_val_of x : 0 ≤ x < 256 → byte_val (byte_of x) = x.
Proof. intros Hx. rewrite coqutil.Byte.byte.unsigned_of_Z. by apply Z.mod_small. Qed.

Lemma charset_at_ok v : 0 ≤ v < 32 →
  charset_index (charset_at v) = Some v ∧ charset_at v ≠ x31 ∧ is_ascii_uppercase (charset_at v) = false.
Proof.
  intros Hv. assert (v ∈ seqZ 0 32) as Hin by (apply elem_of_seqZ; lia). revert Hin. clear Hv.
  assert (forallb (λ v, bool_decide (charset_index (charset_at v) = Some v ∧ charset_at v ≠ x31
    ∧ is_ascii_uppercase (charset_at v) = false)) (seqZ 0 32) = true) as Hall by (by vm_compute).
  rewrite forallb_forall in Hall. intros Hin%list_elem_of_In. by apply (bool_decide_eq_true_1 _), Hall.
Qed.

Lemma charset_index_ok c v : charset_index c = Some v → 0 ≤ v < 32 ∧ charset_at v = c.
Proof.
  destruct c; vm_compute; try discriminate; intros [= <-]; split_and!; try done.
Qed.

Lemma char_values_ok s vs : char_values s = Ok vs ↔ groups 5 vs ∧ charset_at <$> vs = s.
Proof.
  revert vs. induction s as [|c s IH]; intros vs; cbn [char_values].
  - split; [intros [= <-]; split; [constructor|done]|]. intros [_ E]. by apply fmap_nil_inv in E as ->.
  - destruct (charset_index c) as [v|] eqn:Ec.
    + apply charset_index_ok in Ec as [Hv Ec]. split.
      * intros (ws & Hws & [= <-])%result_bind_Ok_inv. apply IH in Hws as [Hg <-]. split; [constructor; [lia|done]|]. cbn. by rewrite Ec.
      * intros [Hg E]. destruct Hg as [|w ws Hw Hg]; [done|]. cbn in E. injection E as E1 E2.
        assert (w = v) as ->.
        { destruct (charset_at_ok w ltac:(lia)) as [Hi _]. destruct (charset_at_ok v Hv) as [Hi' _]. congruence. }
        rewrite (proj2 (IH ws)) by done. done.
    + split; [done|]. intros [Hg E]. destruct Hg as [|w ws Hw Hg]; [done|]. cbn in E. injection E as E1 _.
      destruct (charset_at_ok w ltac:(lia)) as [Hi _]. congruence.
Qed.

Lemma rsplit_one_spec s :
  match rsplit_one s with Some (l, r) => s = l ++ x31 :: r ∧ x31 ∉ r | None => x31 ∉ s end.
Proof.
  induction s as [|c s IH]; cbn [rsplit_one]; [apply not_elem_of_nil|].
  destruct (rsplit_one s) as [[l r]|]; [by destruct IH as [-> ?]|]. case_bool_decide; [by subst|]. set_solver.
Qed.

Lemma rsplit_one_app l r : x31 ∉ r → rsplit_one (l ++ x31 :: r) = Some (l, r).
Proof.
  intros Hr. induction l as [|c l IH]; cbn [app rsplit_one]; [|by rewrite IH].
  pose proof (rsplit_one_spec r) as Hs. destruct (rsplit_one r) as [[l' r']|]; [|done].
  destruct Hs as [-> _]. set_solver.
Qed.

Lemma ascii_lower_id b : is_ascii_uppercase b = false → ascii_lower b = b.
Proof. unfold is_ascii_uppercase, ascii_lower. by intros ->. Qed.

Lemma lower_id s : existsb is_ascii_uppercase s = false → ascii_lower <$> s = s.
Proof.
  induction s as [|b s IH]; cbn [existsb fmap list_fmap]; [done|]. intros [Hb Hs]%orb_false_iff.
  rewrite ascii_lower_id by done. f_equal. by apply IH.
Qed.

Lemma hrp_expand_groups hrp : groups 5 (hrp_expand hrp).
Proof.
  unfold hrp_expand. apply Forall_app. split; [|constructor; [lia|]]; apply Forall_fmap, Forall_forall; intros b _; simpl.
  - rewrite Z.shiftr_div_pow2 by lia. pose proof (byte_val_range b). Z.to_euclidean_division_equations. lia.
  - change 31 with (2 ^ 5 - 1). rewrite land_mask by lia. apply Z.mod_pos_bound. lia.
Qed.

Lemma polymod_word l : groups 5 l → word30 (polymod l).
Proof. intros Hl. apply feed_bound; [lia|done]. Qed.

Lemma zeros6_groups : groups 5 zeros6.
Proof. repeat (constructor; [lia|]). constructor. Qed.

Lemma bytes_groups (data : bytes) : groups 8 (byte_val <$> data).
Proof. apply Forall_fmap, Forall_forall. intros b _. pose proof (byte_val_range b). simpl. lia. Qed.

Lemma bytes_of_groups data : groups 8 data → byte_val <$> (byte_of <$> data) = data.
Proof.
  induction 1 as [|x l Hx Hl IH]; [done|]. cbn [fmap list_fmap]. f_equal; [apply byte_val_of; lia|exact IH].
Qed.

(** The text of a payload: what both directions agree on. *)
Definition text_of (hrp : bytes) (payload : list Z) : bytes :=
  hrp ++ x31 :: (charset_at <$> payload ++ checksum_symbols (Z.lxor (polymod (hrp_expand hrp ++ payload ++ zeros6)) BECH32M_CONST)).

Lemma text_checksum hrp payload :
  groups 5 payload →
  let c := checksum_symbols (Z.lxor (polymod (hrp_expand hrp ++ payload ++ zeros6)) BECH32M_CONST) in
  groups 5 c ∧ length c = 6%nat ∧ polymod (hrp_expand hrp ++ payload ++ c) = BECH32M_CONST
  ∧ ∀ c', groups 5 c' → length c' = 6%nat → polymod (hrp_expand hrp ++ payload ++ c') = BECH32M_CONST → c' = c.
Proof.
  intros Hp c. assert (groups 5 (hrp_expand hrp ++ payload)) as Hg by (apply Forall_app; split; [apply hrp_expand_groups|done]).
  assert (word30 (polymod ((hrp_expand hrp ++ payload) ++ zeros6))) as Hw
    by (apply polymod_word, Forall_app; split; [done|apply zeros6_groups]).
  unfold c. rewrite app_assoc. destruct (checksum_symbols_ok (Z.lxor (polymod ((hrp_expand hrp ++ payload) ++ zeros6)) BECH32M_CONST))
    as (H1 & H2 & _); [apply lxor_bound; [lia|done|unfold BECH32M_CONST; lia]|].
  split_and!; [done|done|rewrite app_assoc; by apply checksum_unique|].
  intros c' Hc' Hl Hpm. rewrite app_assoc in Hpm. by apply checksum_unique.
Qed.

Lemma text_of_parts hrp payload :
  groups 5 payload → existsb is_ascii_uppercase hrp = false →
  existsb is_ascii_uppercase (text_of hrp payload) = false
  ∧ x31 ∉ charset_at <$> payload ++ checksum_symbols (Z.lxor (polymod (hrp_expand hrp ++ payload ++ zeros6)) BECH32M_CONST).
Proof.
  intros Hp Hh. destruct (text_checksum hrp payload Hp) as (Hc & _). set (c := checksum_symbols _) in *.
  assert (groups 5 (payload ++ c)) as Hg by (by apply Forall_app). unfold groups in Hg. rewrite Forall_forall in Hg. split.
  - unfold text_of. fold c. rewrite existsb_app, Hh. cbn [orb existsb]. change (is_ascii_uppercase x31) with false. cbn [orb].
    apply not_true_is_false. rewrite existsb_exists. intros (b & Hb & Hu). apply list_elem_of_In, list_elem_of_fmap in Hb as (v & -> & Hv).
    destruct (charset_at_ok v) as (_ & _ & ?); [by apply Hg|congruence].
  - intros (v & E & Hv)%list_elem_of_fmap. destruct (charset_at_ok v) as (_ & ? & _); [by apply Hg|congruence].
Qed.

(** Encoding: the payload's text, when it is short enough. *)
Lemma bech32_encode_Ok hrp data s :
  bech32_encode hrp data = Ok s
  ↔ hrp ≠ [] ∧ forallb (in_range 33 126) hrp = true ∧ existsb is_ascii_uppercase hrp = false
    ∧ ∃ payload, convert_bits (byte_val <$> data) 8 5 true = Ok payload ∧ s = text_of hrp payload ∧ (length s ≤ MAX_LEN)%nat.
Proof.
  unfold bech32_encode. destruct (convert_pad (byte_val <$> data) (bytes_groups data)) as (payload & -> & _). cbn [mbind result_bind].
  replace (hrp ++ [x31] ++ (charset_at <$> payload)
    ++ (charset_at <$> checksum_symbols (Z.lxor (polymod (hrp_expand hrp ++ payload ++ [0; 0; 0; 0; 0; 0])) BECH32M_CONST)))
    with (text_of hrp payload) by (unfold text_of, zeros6; by rewrite fmap_app).
  case_bool_decide; [naive_solver|]. destruct (forallb _ _); cbn [negb]; [|naive_solver].
  destruct (existsb _ _); [naive_solver|]. destruct (Nat.ltb_spec MAX_LEN (length (text_of hrp payload))) as [Hl|Hl].
  - split; [done|]. intros (_ & _ & _ & p & [= <-] & -> & ?). lia.
  - split; [|by intros (_ & _ & _ & p & [= <-] & -> & _)]. intros [= <-]. split_and!; try done. by exists payload.
Qed.

Definition mixed_case (s : bytes) : bool := existsb is_ascii_lowercase s && existsb is_ascii_uppercase s.

(** Decoding: the lowered string is the text of the data's payload. *)
Lemma bech32_decode_Ok s hrp data :
  bech32_decode s = Ok (hrp, data)
  ↔ (length s ≤ MAX_LEN)%nat ∧ mixed_case s = false ∧ hrp ≠ []
    ∧ ∃ payload, groups 5 payload ∧ ascii_lower <$> s = text_of hrp payload
      ∧ convert_bits payload 5 8 false = Ok (byte_val <$> data).
Proof.
  unfold bech32_decode. fold (mixed_case s). destruct (Nat.ltb_spec MAX_LEN (length s)); [split; [done|lia]|].
  destruct (mixed_case s); [naive_solver|]. split.
  - intros ([l r] & Hs & H1)%result_bind_Ok_inv. apply ok_or_Ok_inv in Hs. pose proof (rsplit_one_spec (ascii_lower <$> s)) as Hsp.
    rewrite Hs in Hsp. destruct Hsp as [El _]. case_bool_decide; [done|].
    destruct (Nat.ltb_spec (length r) 6); [done|]. apply result_bind_Ok_inv in H1 as (values & Hv & H1).
    apply char_values_ok in Hv as [Hg Er]. destruct (Z.eqb_spec (polymod (hrp_expand l ++ values)) BECH32M_CONST) as [Hpm|]; [|done].
    cbn [negb] in H1. apply result_bind_Ok_inv in H1 as (d & Hd & [= <- <-]).
    assert (length values = length r) as Elen by (rewrite <- Er; by rewrite length_fmap).
    set (n := (length values - 6)%nat) in *. assert (groups 5 (take n values)) as Hgp by by apply Forall_take.
    destruct (text_checksum l (take n values) Hgp) as (_ & _ & _ & Huniq).
    split_and!; [done..|]. exists (take n values). split_and!; [done| |].
    + rewrite El. unfold text_of. rewrite <- (Huniq (drop n values)).
      * by rewrite take_drop, Er.
      * by apply Forall_drop.
      * rewrite length_drop. lia.
      * by rewrite take_drop.
    + destruct (convert_canonical _ _ Hgp Hd) as [Hg8 _]. by rewrite bytes_of_groups.
  - intros (_ & _ & Hne & payload & Hg & El & Hd). destruct (text_checksum hrp payload Hg) as (Hc & Hcl & Hpm & _).
    set (c := checksum_symbols _) in *. assert (groups 5 (payload ++ c)) as Hgc by by apply Forall_app.
    assert (x31 ∉ charset_at <$> payload ++ c) as Hno.
    { intros (v & E & Hv)%list_elem_of_fmap. unfold groups in Hgc. rewrite Forall_forall in Hgc.
      destruct (charset_at_ok v) as (_ & ? & _); [by apply Hgc|congruence]. }
    rewrite El. unfold text_of. fold c. rewrite rsplit_one_app by done. cbn [ok_or mbind result_bind].
    rewrite bool_decide_eq_false_2 by done. rewrite length_fmap, length_app, Hcl.
    destruct (Nat.ltb_spec (length payload + 6) 6); [lia|].
    rewrite (proj2 (char_values_ok _ (payload ++ c))) by done. cbn [mbind result_bind]. rewrite Hpm, Z.eqb_refl. cbn [negb].
    rewrite length_app, Hcl. replace (length payload + 6 - 6)%nat with (length payload) by lia. rewrite take_app_length, Hd.
    cbn [mbind result_bind]. f_equal. f_equal. clear. induction data as [|b data IH]; [done|]. cbn [fmap list_fmap]. f_equal; [|exact IH].
    apply byte_val_inj, byte_val_of, byte_val_range.
Qed.

Lemma text_of_length hrp payload : groups 5 payload → length (text_of hrp payload) = (length hrp + length payload + 7)%nat.
Proof.
  intros Hp. destruct (text_checksum hrp payload Hp) as (_ & Hl & _). unfold text_of.
  rewrite length_app. cbn [length]. rewrite length_fmap, length_app, Hl. lia.
Qed.

(** * Addresses *)

Lemma Address_from_bech32_Ok t a :
  Address_from_bech32 t = Ok a ↔ bech32_decode t = Ok (HRP, a) ∧ address_ok a.
Proof.
  unfold Address_from_bech32. destruct (bech32_decode t) as [[hrp data]|e]; cbn [map_err mbind result_bind]; [|naive_solver].
  destruct (decide (hrp = HRP)) as [->|Hne].
  - rewrite bool_decide_eq_true_2 by done. cbn [negb]. unfold address_ok.
    destruct (Nat.eqb_spec (length data) ADDRESS_LEN); cbn [negb]; naive_solver.
  - rewrite bool_decide_eq_false_2 by done. cbn [negb]. naive_solver.
Qed.

(** An address has one spelling.  Every address prints as a text of 43 characters, and the
    texts that parse to it are exactly that one and its change to capitals as a
    whole: no other string, however it was mistyped or crafted, names it. *)
Theorem address_text_unique a :
  address_ok a →
  ∃ s, Address_to_bech32 a = Ok s ∧ length s = 43%nat
  ∧ ∀ t, Address_from_bech32 t = Ok a ↔ ascii_lower <$> t = s ∧ mixed_case t = false.
Proof.
  intros Ha. destruct (convert_pad (byte_val <$> a) (bytes_groups a)) as (payload & Ep & Hg & Hp & Hv).
  rewrite length_fmap, Ha in Hp. assert (length payload = 32%nat) as El by (unfold ADDRESS_LEN in Hp; lia).
  assert (length (text_of HRP payload) = 43%nat) as Hlen by (rewrite text_of_length, El by done; done).
  exists (text_of HRP payload). split_and!; [|done|].
  { apply bech32_encode_Ok. split_and!; [done..|]. exists payload. split_and!; [done|done|]. rewrite Hlen. unfold MAX_LEN. lia. }
  intros t. rewrite Address_from_bech32_Ok, bech32_decode_Ok. split.
  - intros [(_ & Hm & _ & p & Hgp & E & Hd) _]. split; [|done]. rewrite E.
    apply convert_canonical in Hd as [_ Hd]; [|done]. rewrite Ep in Hd. by injection Hd as ->.
  - intros [E Hm]. split; [|done]. assert (length t = 43%nat) as Ht by (by rewrite <- Hlen, <- E, length_fmap).
    split_and!; [rewrite Ht; unfold MAX_LEN; lia|done|done|]. exists payload. split_and!; [done..|].
    destruct (convert_roundtrip _ (bytes_groups a)) as (p & Ep' & _ & Hd). rewrite Ep in Ep'. by injection Ep' as <-.
Qed.

(** The symbols of a text that parses complete its checksum. *)
Lemma address_symbols t a :
  Address_from_bech32 t = Ok a →
  ∃ vs, groups 5 vs ∧ ascii_lower <$> t = (HRP ++ [x31]) ++ (charset_at <$> vs) ∧ polymod (hrp_expand HRP ++ vs) = BECH32M_CONST.
Proof.
  intros [(_ & _ & _ & p & Hg & E & _)%bech32_decode_Ok _]%Address_from_bech32_Ok.
  destruct (text_checksum HRP p Hg) as (Hc & _ & Hpm & _). eexists. split_and!; [|rewrite E; reflexivity|exact Hpm]. by apply Forall_app.
Qed.

Lemma charset_map_inj u w : groups 5 u → groups 5 w → charset_at <$> u = charset_at <$> w → u = w.
Proof.
  intros Hu. revert w. induction Hu as [|x u Hx Hu IH]; intros w Hw E; destruct Hw as [|y w Hy Hw]; try done.
  cbn in E. injection E as E1 E2. destruct (charset_at_ok x ltac:(lia)) as [Hx1 _], (charset_at_ok y ltac:(lia)) as [Hy1 _].
  f_equal; [congruence|by apply IH].
Qed.

(** Two texts that differ in one character and both parse differ in its case only. *)
Lemma one_character (l r : bytes) (c c' : byte) a a' :
  Address_from_bech32 (l ++ c :: r) = Ok a → Address_from_bech32 (l ++ c' :: r) = Ok a' → ascii_lower c = ascii_lower c'.
Proof.
  intros (v1 & G1 & E1 & P1)%address_symbols (v2 & G2 & E2 & P2)%address_symbols.
  rewrite fmap_app, fmap_cons in E1, E2.
  set (L := ascii_lower <$> l) in *. set (Rt := ascii_lower <$> r) in *.
  destruct (decide (length L < 5)%nat) as [Hs|Hge].
  - assert ((L ++ ascii_lower c :: Rt) !! length L = (L ++ ascii_lower c' :: Rt) !! length L) as E.
    { rewrite E1, E2. by rewrite !(lookup_app_l (HRP ++ [x31])) by (cbn; lia). }
    rewrite !list_lookup_middle in E by done. by injection E.
  - assert (L = (HRP ++ [x31]) ++ drop 5 L) as EL.
    { rewrite <- (take_drop 5 L) at 1. f_equal. apply (f_equal (take 5)) in E1. rewrite take_app_le in E1 by lia. rewrite E1.
      by rewrite take_app_length' by done. }
    rewrite EL, <- app_assoc in E1, E2. apply (inj ((HRP ++ [x31]) ++.)) in E1, E2. symmetry in E1, E2.
    apply fmap_app_inv in E1 as (u1 & w1 & F1 & F2 & ->), E2 as (u2 & w2 & F3 & F4 & ->).
    destruct w1 as [|x w1]; [done|]. destruct w2 as [|y w2]; [done|]. cbn in F2, F4. injection F2 as F2 F2'. injection F4 as F4 F4'.
    apply Forall_app in G1 as [Gu1 [Gx Gw1]%Forall_cons], G2 as [Gu2 [Gy Gw2]%Forall_cons].
    assert (u1 = u2) as -> by (apply charset_map_inj; congruence || done).
    assert (w1 = w2) as -> by (apply charset_map_inj; [done..|]; by etrans).
    rewrite F2, F4. f_equal. apply (polymod_one_symbol (hrp_expand HRP ++ u2) x y w2); [|done|lia|lia|].
    + apply Forall_app. split; [apply hrp_expand_groups|done].
    + rewrite <- !app_assoc. congruence.
Qed.

(** A mistyped character never sends a payment elsewhere.  Change any one character of a
    text that parses as an address, anywhere in it, into a different one (a letter's
    case apart), and the result is refused: the checksum catches every single wrong
    character. *)
Theorem address_typo_detected (l r : bytes) (c c' : byte) a :
  Address_from_bech32 (l ++ c :: r) = Ok a → ascii_lower c' ≠ ascii_lower c →
  ∃ e, Address_from_bech32 (l ++ c' :: r) = Err e.
Proof.
  intros H Hne. destruct (Address_from_bech32 (l ++ c' :: r)) as [a'|e] eqn:H'; [|by eexists].
  destruct Hne. symmetry. by eapply one_character.
Qed.
