(* ===== verification/Request.v ===== *)
(** Payment requests and their [afri:] text ([crates/pay/src/request.rs]): printing,
    percent-encoding and the parser of untrusted text.  Strings are their UTF-8 bytes;
    the characters the code splits at are ASCII, so splitting bytes is splitting
    characters. *)

From S2P Require Import Prelude SortedVec Codec Primitives Crypto Store Account Alias AliasProofs Bech32.

Definition SCHEME : bytes := bs "afri".
Definition MAX_TEXT_LEN : Z := 128.

Inductive RequestError :=
| WrongScheme
| BadRecipient
| BadParameter (what : bytes)
| BadDenom
| BadAmount
| TextTooLong
| DuplicateParameter (key : bytes).

Inductive Payee := PayeeAddress (a : Address) | PayeeName (n : Username).

Record PaymentRequest := {
  payee : Payee;
  rq_denom : Denom;
  rq_amount : option Amount;
  rq_reference : option PaymentReference;
  rq_label : option bytes;
  rq_note : option bytes;
}.

Definition PaymentRequest_new (p : Payee) (d : Denom) : PaymentRequest :=
  {| payee := p; rq_denom := d; rq_amount := None; rq_reference := None; rq_label := None; rq_note := None |}.
Definition with_amount (a : Amount) (r : PaymentRequest) : PaymentRequest :=
  {| payee := payee r; rq_denom := rq_denom r; rq_amount := Some a; rq_reference := rq_reference r; rq_label := rq_label r; rq_note := rq_note r |}.
Definition with_reference (x : PaymentReference) (r : PaymentRequest) : PaymentRequest :=
  {| payee := payee r; rq_denom := rq_denom r; rq_amount := rq_amount r; rq_reference := Some x; rq_label := rq_label r; rq_note := rq_note r |}.
Definition with_label (t : bytes) (r : PaymentRequest) : PaymentRequest :=
  {| payee := payee r; rq_denom := rq_denom r; rq_amount := rq_amount r; rq_reference := rq_reference r; rq_label := Some t; rq_note := rq_note r |}.
Definition with_note (t : bytes) (r : PaymentRequest) : PaymentRequest :=
  {| payee := payee r; rq_denom := rq_denom r; rq_amount := rq_amount r; rq_reference := rq_reference r; rq_label := rq_label r; rq_note := Some t |}.

(** * Printing *)

Definition is_ascii_alphanumeric (b : byte) : bool := in_range 48 57 b || in_range 65 90 b || in_range 97 122 b.
Definition unreserved (b : byte) : bool :=
  is_ascii_alphanumeric b || byte_eqb 45 b || byte_eqb 95 b || byte_eqb 46 b || byte_eqb 126 b.

(** A digit of [{:02X}]. *)
Definition hex_upper (v : Z) : byte := if v <? 10 then byte_of (48 + v) else byte_of (55 + v).
Definition escape (b : byte) : bytes := [byte_of 37; hex_upper (byte_val b / 16); hex_upper (byte_val b mod 16)].
Definition encode_component (s : bytes) : bytes := concat ((λ b, if unreserved b then [b] else escape b) <$> s).

(** [Display for Address]. *)
Definition Address_display (a : Address) : bytes :=
  match Address_to_bech32 a with
  | Ok s => s
  | Err _ => HRP ++ bs "!invalid:" ++ hex_of a
  end.
Definition Payee_display (p : Payee) : bytes :=
  match p with PayeeAddress a => Address_display a | PayeeName n => bs "@" ++ n end.

Definition param (key value : bytes) : bytes := key ++ bs "=" ++ value.
Definition param_opt {A} (key : bytes) (print : A → bytes) (x : option A) : list bytes :=
  match x with Some x => [param key (print x)] | None => [] end.

(** [params.join("&")]. *)
Fixpoint join (l : list bytes) : bytes :=
  match l with
  | [] => []
  | [p] => p
  | p :: l => p ++ bs "&" ++ join l
  end.

Definition to_params (r : PaymentRequest) : list bytes :=
  [param (bs "denom") (encode_component (rq_denom r))]
  ++ param_opt (bs "amount") Amount_to_decimal (rq_amount r)
  ++ param_opt (bs "ref") PaymentReference_to_decimal (rq_reference r)
  ++ param_opt (bs "label") encode_component (rq_label r)
  ++ param_opt (bs "note") encode_component (rq_note r).
Definition to_uri (r : PaymentRequest) : bytes := SCHEME ++ bs ":" ++ Payee_display (payee r) ++ bs "?" ++ join (to_params r).

(** * Parsing *)

Definition strip_prefix (p s : bytes) : option bytes := if starts_with p s then Some (drop (length p) s) else None.

(** [str::split]. *)
Fixpoint split_on (c : Z) (s : bytes) : list bytes :=
  match s with
  | [] => [[]]
  | b :: s =>
      if byte_eqb c b then [] :: split_on c s
      else match split_on c s with w :: ws => (b :: w) :: ws | [] => [[b]] end
  end.

(** [char::to_digit(16)] of the character a byte stands for. *)
Definition to_digit16 (b : byte) : option Z :=
  let x := byte_val b in
  if in_range 48 57 b then Some (x - 48)
  else if in_range 65 70 b then Some (x - 55)
  else if in_range 97 102 b then Some (x - 87)
  else None.

(** The loop of [decode_component]. *)
Fixpoint unescape (s : bytes) : option bytes :=
  match s with
  | [] => Some []
  | b :: s =>
      if byte_eqb 37 b then
        match s with
        | hi :: lo :: s =>
            hi ← to_digit16 hi;
            lo ← to_digit16 lo;
            rest ← unescape s;
            Some (byte_of (hi * 16 + lo) :: rest)
        | _ => None
        end
      else rest ← unescape s; Some (b :: rest)
  end.
Definition decode_component (s : bytes) : option bytes :=
  out ← unescape s;
  if utf8_valid out then Some out else None.

Definition bounded (value : bytes) : result RequestError bytes :=
  if MAX_TEXT_LEN <? Z.of_nat (length value) then Err TextTooLong else Ok value.

Section parser.
Context {Un : Unicode}.

Definition parse_payee (part : bytes) : result RequestError Payee :=
  match strip_prefix (bs "@") part with
  | Some name => map_err (λ _, BadRecipient) (n ← Username_new name; Ok (PayeeName n))
  | None => map_err (λ _, BadRecipient) (a ← Address_from_bech32 part; Ok (PayeeAddress a))
  end.

(** The fields the loop of [parse] fills. *)
Record Fields := {
  f_denom : option Denom;
  f_amount : option Amount;
  f_reference : option PaymentReference;
  f_label : option bytes;
  f_note : option bytes;
}.
Definition no_fields : Fields := {| f_denom := None; f_amount := None; f_reference := None; f_label := None; f_note := None |}.

Definition assign (key value : bytes) (f : Fields) : result RequestError Fields :=
  if bool_decide (key = bs "denom") then
    d ← map_err (λ _, BadDenom) (Denom_new value);
    Ok {| f_denom := Some d; f_amount := f_amount f; f_reference := f_reference f; f_label := f_label f; f_note := f_note f |}
  else if bool_decide (key = bs "amount") then
    a ← map_err (λ _, BadAmount) (Amount_from_decimal value);
    Ok {| f_denom := f_denom f; f_amount := Some a; f_reference := f_reference f; f_label := f_label f; f_note := f_note f |}
  else if bool_decide (key = bs "ref") then
    x ← ok_or (BadParameter (bs "ref")) (PaymentReference_parse value);
    Ok {| f_denom := f_denom f; f_amount := f_amount f; f_reference := Some x; f_label := f_label f; f_note := f_note f |}
  else if bool_decide (key = bs "label") then
    t ← bounded value;
    Ok {| f_denom := f_denom f; f_amount := f_amount f; f_reference := f_reference f; f_label := Some t; f_note := f_note f |}
  else if bool_decide (key = bs "note") then
    t ← bounded value;
    Ok {| f_denom := f_denom f; f_amount := f_amount f; f_reference := f_reference f; f_label := f_label f; f_note := Some t |}
  else Ok f.

Fixpoint parse_params (pairs : list bytes) (seen : list bytes) (f : Fields) : result RequestError Fields :=
  match pairs with
  | [] => Ok f
  | p :: pairs =>
      '(key, raw) ← ok_or (BadParameter p) (split_once 61 p);
      if bool_decide (key ∈ seen) then Err (DuplicateParameter key) else
      value ← ok_or (BadParameter key) (decode_component raw);
      f ← assign key value f;
      parse_params pairs (seen ++ [key]) f
  end.

Definition request_parse (uri : bytes) : result RequestError PaymentRequest :=
  rest ← ok_or WrongScheme (r ← strip_prefix SCHEME uri; strip_prefix (bs ":") r);
  let '(payee_part, query) := default (rest, []) (split_once 63 rest) in
  p ← parse_payee payee_part;
  f ← parse_params (List.filter (λ p, negb (bool_decide (p = []))) (split_on 38 query)) [] no_fields;
  d ← ok_or BadDenom (f_denom f);
  Ok {| payee := p; rq_denom := d; rq_amount := f_amount f; rq_reference := f_reference f; rq_label := f_label f; rq_note := f_note f |}.
End parser.

(** * Text that splits where it was joined *)

Definition free_of (c : Z) (s : bytes) : bool := forallb (λ b, negb (byte_eqb c b)) s.

Lemma free_of_app c s t : free_of c (s ++ t) = free_of c s && free_of c t.
Proof. apply forallb_app. Qed.

Lemma split_once_at c b s t : byte_val b = c → free_of c s = true → split_once c (s ++ b :: t) = Some (s, t).
Proof.
  intros Hb. induction s as [|x s IH]; simpl.
  - intros _. unfold byte_eqb. by rewrite Hb, Z.eqb_refl.
  - intros [Hx Hs]%andb_true_iff. apply negb_true_iff in Hx. by rewrite Hx, IH.
Qed.

Lemma split_on_free c s : free_of c s = true → split_on c s = [s].
Proof. induction s as [|b s IH]; simpl; [done|]. intros [Hb Hs]%andb_true_iff. apply negb_true_iff in Hb. by rewrite Hb, IH. Qed.

Lemma split_on_app c b s t : byte_val b = c → free_of c s = true → split_on c (s ++ b :: t) = s :: split_on c t.
Proof.
  intros Hb. induction s as [|x s IH]; simpl.
  - intros _. unfold byte_eqb. by rewrite Hb, Z.eqb_refl.
  - intros [Hx Hs]%andb_true_iff. apply negb_true_iff in Hx. by rewrite Hx, IH.
Qed.

Lemma split_join l : l ≠ [] → forallb (free_of 38) l = true → split_on 38 (join l) = l.
Proof.
  induction l as [|p l IH]; [done|]. intros _ [Hp Hl]%andb_true_iff. destruct l as [|q l]; [by apply split_on_free|].
  change (join (p :: q :: l)) with (p ++ byte_of 38 :: join (q :: l)). rewrite split_on_app by done. by rewrite IH.
Qed.

(** ** Percent-encoding *)

Lemma escape_digits b :
  to_digit16 (hex_upper (byte_val b / 16)) = Some (byte_val b / 16) ∧ to_digit16 (hex_upper (byte_val b mod 16)) = Some (byte_val b mod 16)
  ∧ byte_of (byte_val b / 16 * 16 + byte_val b mod 16) = b ∧ (unreserved b = true → byte_eqb 37 b = false)
  ∧ free_of 38 (if unreserved b then [b] else escape b) = true.
Proof. destruct b; vm_compute; repeat split; congruence. Qed.

Lemma encode_component_cons b s : encode_component (b :: s) = (if unreserved b then [b] else escape b) ++ encode_component s.
Proof. done. Qed.

Lemma unescape_encode s : unescape (encode_component s) = Some s.
Proof.
  induction s as [|b s IH]; [done|]. rewrite encode_component_cons.
  destruct (escape_digits b) as (H1 & H2 & H3 & H4 & _). destruct (unreserved b).
  - cbn [app unescape]. rewrite H4 by done. by rewrite IH.
  - change (unescape (escape b ++ ?t)) with
      (hi ← to_digit16 (hex_upper (byte_val b / 16)); lo ← to_digit16 (hex_upper (byte_val b mod 16)); rest ← unescape t;
       Some (byte_of (hi * 16 + lo) :: rest)).
    rewrite H1, H2, IH. cbn [mbind option_bind]. by rewrite H3.
Qed.

Lemma encode_free s : free_of 38 (encode_component s) = true.
Proof.
  induction s as [|b s IH]; [done|]. rewrite encode_component_cons.
  destruct (escape_digits b) as (_ & _ & _ & _ & H). by rewrite free_of_app, H.
Qed.

Lemma decode_encode_component s : utf8_valid s = true → decode_component (encode_component s) = Some s.
Proof. intros Hs. unfold decode_component. rewrite unescape_encode. cbn. by rewrite Hs. Qed.

(** Numbers are printed without escapes. *)
Definition number_byte (b : byte) : bool := is_ascii_digit b || byte_eqb 46 b.

Lemma number_byte_facts b : number_byte b = true → byte_eqb 37 b = false ∧ byte_eqb 38 b = false ∧ (byte_val b <? 128) = true.
Proof. unfold number_byte, is_ascii_digit, byte_eqb, in_range. intros. split_and!; lia. Qed.

Lemma decode_number s : forallb number_byte s = true → decode_component s = Some s ∧ free_of 38 s = true.
Proof.
  intros Hs. assert (unescape s = Some s ∧ free_of 38 s = true ∧ forallb (λ b, byte_val b <? 128) s = true) as (H1 & H2 & H3).
  { induction s as [|b s IH]; [done|]. cbn [forallb] in Hs. apply andb_true_iff in Hs as [Hb Hs]. destruct (IH Hs) as (I1 & I2 & I3).
    destruct (number_byte_facts b Hb) as (F1 & F2 & F3). cbn [unescape free_of forallb]. rewrite F1, I1, F2, F3, I3. done. }
  split; [|done]. unfold decode_component. rewrite H1. cbn. by rewrite (utf8_ascii s H3).
Qed.

Lemma digits_number s : digits s → forallb number_byte s = true.
Proof. rewrite !forallb_forall. intros Hs b Hb. unfold number_byte. by rewrite Hs. Qed.

Lemma amount_number a : amount_ok a → forallb number_byte (Amount_to_decimal a) = true.
Proof.
  intros Ha. unfold amount_ok in Ha. unfold Amount_to_decimal. change (Z.to_nat AFRI_DECIMALS) with 9%nat.
  assert (0 ≤ a mod SENTE_PER_AFRI < SENTE_PER_AFRI) as Hf by (by apply Z.mod_pos_bound).
  destruct (frac_field _ Hf) as (_ & _ & _ & _ & Hd & _).
  pose proof (Z.div_mod a SENTE_PER_AFRI ltac:(done)) as Hdm.
  assert (0 ≤ a / SENTE_PER_AFRI ≤ u128_max) as Hw by (split; [by apply Z.div_pos; lia|unfold SENTE_PER_AFRI in *; lia]).
  destruct (u128_to_string_spec 39 (a / SENTE_PER_AFRI)) as (_ & _ & Hwd & _); [lia| |].
  { unfold u128_max in Hw. simpl. lia. }
  rewrite !forallb_app, (digits_number _ Hwd), (digits_number _ Hd). done.
Qed.

Lemma reference_text x : 0 ≤ x ≤ u64_max → digits (u64_to_string x) ∧ PaymentReference_parse (u64_to_string x) = Some x.
Proof.
  intros Hx. destruct (dec_digits_spec 20 20 x []) as (ds & E & Hne & _ & Hd & Hv); [lia|unfold u64_max in Hx; simpl; lia|].
  unfold u64_to_string. rewrite E, app_nil_r. split; [done|]. unfold PaymentReference_parse, parse_u64.
  rewrite bool_decide_eq_false_2, Hd by done. cbn [orb negb]. rewrite parse_u128_spec, Hv by done.
  unfold u64_max, u128_max in *. destruct (Z.leb_spec x (2 ^ 128 - 1)); [|lia]. cbn. by destruct (Z.leb_spec x (2 ^ 64 - 1)); [|lia].
Qed.

(** ** The payee *)

Definition payee_ok `{Unicode} (p : Payee) : Prop :=
  match p with PayeeAddress a => address_ok a | PayeeName n => username_ok n end.

Lemma charset_free v : byte_eqb 63 (charset_at v) = false ∧ byte_eqb 64 (charset_at v) = false.
Proof.
  assert (charset_at v ∈ CHARSET) as Hin.
  { unfold charset_at. destruct (CHARSET !! _) eqn:E; simpl; [by eapply list_elem_of_lookup_2|]. by left. }
  apply list_elem_of_In in Hin. revert Hin. generalize (charset_at v). intros b Hb. split; apply negb_true_iff; revert b Hb; apply forallb_forall; by vm_compute.
Qed.

Lemma address_text a :
  address_ok a → ∃ s, Address_display a = s ∧ free_of 63 s = true ∧ starts_with (bs "@") s = false ∧ Address_from_bech32 s = Ok a.
Proof.
  intros Ha. destruct (address_text_unique a Ha) as (s & Es & _ & Hu). exists s. unfold Address_display. rewrite Es.
  pose proof Es as Hs. unfold Address_to_bech32 in Hs. apply bech32_encode_Ok in Hs as (_ & _ & _ & payload & Hd & -> & _).
  split; [done|]. assert (existsb is_ascii_uppercase (text_of HRP payload) = false) as Hlow.
  { apply text_of_parts; [|done]. destruct (convert_pad (byte_val <$> a) (bytes_groups a)) as (p & Ep & Hg & _). rewrite Ep in Hd. by injection Hd as <-. }
  split_and!.
  - unfold text_of. change (free_of 63 (HRP ++ ?t)) with (free_of 63 t). cbn [free_of forallb].
    apply forallb_forall. intros b Hb. apply list_elem_of_In, list_elem_of_fmap in Hb as (v & -> & _). by rewrite (proj1 (charset_free v)).
  - done.
  - apply Hu. split; [by apply lower_id|]. unfold mixed_case. by rewrite Hlow, andb_false_r.
Qed.

(** * Round trip *)

Section roundtrip.
Context {Un : Unicode}.

Definition text_ok (t : bytes) : Prop := Z.of_nat (length t) ≤ MAX_TEXT_LEN ∧ utf8_valid t = true.
Definition opt_ok {A} (P : A → Prop) (x : option A) : Prop := match x with Some x => P x | None => True end.

(** A request every field of which is one its type allows and a wallet may show. *)
Record request_ok (r : PaymentRequest) : Prop := {
  ro_payee : payee_ok (payee r);
  ro_denom : denom_ok (rq_denom r);
  ro_amount : opt_ok amount_ok (rq_amount r);
  ro_reference : opt_ok (λ x, 0 ≤ x ≤ u64_max) (rq_reference r);
  ro_label : opt_ok text_ok (rq_label r);
  ro_note : opt_ok text_ok (rq_note r);
}.

Lemma payee_text p : payee_ok p → free_of 63 (Payee_display p) = true ∧ parse_payee (Payee_display p) = Ok p.
Proof.
  destruct p as [a|n]; cbn [payee_ok Payee_display]; intros Hp; unfold parse_payee, strip_prefix.
  - destruct (address_text a Hp) as (s & -> & Hf & Hat & Hd). by rewrite Hat, Hd.
  - assert (starts_with (bs "@") (bs "@" ++ n) = true) as -> by (apply bool_decide_eq_true; by exists n).
    change (drop (length (bs "@")) (bs "@" ++ n)) with n. unfold username_ok in Hp. split; [|by rewrite Hp].
    apply Username_new_Ok in Hp as (_ & Hb & _). change (free_of 63 n = true). apply forallb_forall. rewrite forallb_forall in Hb.
    intros b Hin%Hb. unfold name_byte, is_ascii_lowercase, is_ascii_digit, byte_eqb, in_range in *. lia.
Qed.

Lemma denom_text d : denom_ok d → utf8_valid d = true.
Proof. by intros (_ & _ & [_ ?])%Denom_new_Ok. Qed.

Lemma parse_param key v ps seen f value f' :
  free_of 61 key = true → key ∉ seen → decode_component v = Some value → assign key value f = Ok f' →
  parse_params (param key v :: ps) seen f = parse_params ps (seen ++ [key]) f'.
Proof.
  intros Hk Hs Hd Ha. cbn [parse_params]. unfold param. change (bs "=" ++ v) with (byte_of 61 :: v).
  rewrite split_once_at by done. cbn [ok_or mbind result_bind]. rewrite bool_decide_eq_false_2 by done.
  rewrite Hd. cbn [ok_or mbind result_bind]. by rewrite Ha.
Qed.

Lemma bounded_ok t : text_ok t → bounded t = Ok t.
Proof. intros [Hl _]. unfold bounded. by rewrite (proj2 (Z.ltb_ge _ _) Hl). Qed.

(** What [parse_params] makes of each printed field. *)
Section fields.
Context (ps seen : list bytes) (f : Fields).

Lemma parse_denom d : denom_ok d → bs "denom" ∉ seen →
  parse_params (param (bs "denom") (encode_component d) :: ps) seen f
  = parse_params ps (seen ++ [bs "denom"])
      {| f_denom := Some d; f_amount := f_amount f; f_reference := f_reference f; f_label := f_label f; f_note := f_note f |}.
Proof.
  intros Hd Hs. apply (parse_param _ _ _ _ _ d); [done|done|by apply decode_encode_component, denom_text|]. unfold assign. simpl. by rewrite Hd.
Qed.

Lemma parse_amount a : amount_ok a → bs "amount" ∉ seen →
  parse_params (param (bs "amount") (Amount_to_decimal a) :: ps) seen f
  = parse_params ps (seen ++ [bs "amount"])
      {| f_denom := f_denom f; f_amount := Some a; f_reference := f_reference f; f_label := f_label f; f_note := f_note f |}.
Proof.
  intros Ha Hs. apply (parse_param _ _ _ _ _ (Amount_to_decimal a)); [done|done|by apply decode_number, amount_number|].
  unfold assign. simpl. by rewrite amount_decimal_roundtrip.
Qed.

Lemma parse_ref x : 0 ≤ x ≤ u64_max → bs "ref" ∉ seen →
  parse_params (param (bs "ref") (PaymentReference_to_decimal x) :: ps) seen f
  = parse_params ps (seen ++ [bs "ref"])
      {| f_denom := f_denom f; f_amount := f_amount f; f_reference := Some x; f_label := f_label f; f_note := f_note f |}.
Proof.
  intros Hx Hs. destruct (reference_text x Hx) as [Hd Hp].
  apply (parse_param _ _ _ _ _ (PaymentReference_to_decimal x)); [done|done|by apply decode_number, digits_number|].
  unfold assign, PaymentReference_to_decimal. simpl. by rewrite Hp.
Qed.

Lemma parse_label t : text_ok t → bs "label" ∉ seen →
  parse_params (param (bs "label") (encode_component t) :: ps) seen f
  = parse_params ps (seen ++ [bs "label"])
      {| f_denom := f_denom f; f_amount := f_amount f; f_reference := f_reference f; f_label := Some t; f_note := f_note f |}.
Proof.
  intros Ht Hs. apply (parse_param _ _ _ _ _ t); [done|done|by apply decode_encode_component, Ht|]. unfold assign. simpl. by rewrite bounded_ok.
Qed.

Lemma parse_note t : text_ok t → bs "note" ∉ seen →
  parse_params (param (bs "note") (encode_component t) :: ps) seen f
  = parse_params ps (seen ++ [bs "note"])
      {| f_denom := f_denom f; f_amount := f_amount f; f_reference := f_reference f; f_label := f_label f; f_note := Some t |}.
Proof.
  intros Ht Hs. apply (parse_param _ _ _ _ _ t); [done|done|by apply decode_encode_component, Ht|]. unfold assign. simpl. by rewrite bounded_ok.
Qed.
End fields.

Lemma to_params_free r : request_ok r → forallb (free_of 38) (to_params r) = true.
Proof.
  intros [_ _ Ha Hx _ _]. unfold to_params. rewrite !forallb_app, !andb_true_iff. split_and!.
  - cbn [forallb]. unfold param. by rewrite !free_of_app, encode_free.
  - destruct (rq_amount r) as [a|]; [|done]. cbn [param_opt forallb]. unfold param. rewrite !free_of_app.
    by rewrite (proj2 (decode_number _ (amount_number a Ha))).
  - destruct (rq_reference r) as [x|]; [|done]. cbn [param_opt forallb]. unfold param. rewrite !free_of_app.
    change (PaymentReference_to_decimal x) with (u64_to_string x).
    by rewrite (proj2 (decode_number _ (digits_number _ (proj1 (reference_text x Hx))))).
  - destruct (rq_label r) as [t|]; [|done]. cbn [param_opt forallb]. unfold param. by rewrite !free_of_app, encode_free.
  - destruct (rq_note r) as [t|]; [|done]. cbn [param_opt forallb]. unfold param. by rewrite !free_of_app, encode_free.
Qed.

Lemma parse_to_params r :
  request_ok r →
  parse_params (to_params r) [] no_fields
  = Ok {| f_denom := Some (rq_denom r); f_amount := rq_amount r; f_reference := rq_reference r; f_label := rq_label r; f_note := rq_note r |}.
Proof.
  intros [_ Hd Ha Hx Hl Hn]. unfold to_params. cbn [app].
  destruct (rq_amount r), (rq_reference r), (rq_label r), (rq_note r); cbn [param_opt app opt_ok] in *;
    rewrite parse_denom by (done || by apply not_elem_of_nil); cbn [app];
    rewrite ?parse_amount, ?parse_ref, ?parse_label, ?parse_note
      by (assumption || (apply (bool_decide_eq_false (_ ∈ _)); reflexivity)); reflexivity.
Qed.

Lemma param_nonempty key v : param key v ≠ [].
Proof. unfold param. by destruct key. Qed.

Lemma to_params_nonempty r : List.filter (λ p, negb (bool_decide (p = []))) (to_params r) = to_params r.
Proof.
  apply forallb_filter_id. unfold to_params. rewrite !forallb_app.
  destruct (rq_amount r), (rq_reference r), (rq_label r), (rq_note r); cbn [param_opt forallb];
    by rewrite !bool_decide_eq_false_2 by apply param_nonempty.
Qed.

(** ** What parses is safe to show *)

Definition fields_ok (f : Fields) : Prop :=
  opt_ok denom_ok (f_denom f) ∧ opt_ok amount_ok (f_amount f) ∧ opt_ok (λ x, 0 ≤ x ≤ u64_max) (f_reference f)
  ∧ opt_ok text_ok (f_label f) ∧ opt_ok text_ok (f_note f).

Lemma checked_add_nonneg m a b c : 0 ≤ a → 0 ≤ b → checked_add m a b = Some c → 0 ≤ c ≤ m.
Proof. unfold checked_add. intros. repeat case_match; simplify_eq. lia. Qed.
Lemma checked_mul_nonneg m a b c : 0 ≤ a → 0 ≤ b → checked_mul m a b = Some c → 0 ≤ c ≤ m.
Proof. unfold checked_mul. intros. repeat case_match; simplify_eq. nia. Qed.

Lemma parse_digits_nonneg a s x : 0 ≤ a → parse_digits a s = Some x → 0 ≤ x.
Proof.
  revert a. induction s as [|b s IH]; intros a Ha H; simpl in H; [by injection H as <-|].
  destruct (is_ascii_digit b) eqn:Hb; [|done]. apply bind_Some in H as (m & Hm & H). apply bind_Some in H as (n & Hn & H).
  unfold is_ascii_digit, in_range in Hb. apply checked_mul_nonneg in Hm; [|lia..]. apply checked_add_nonneg in Hn; [|lia..]. eapply IH; [|exact H]. lia.
Qed.

Lemma parse_u128_nonneg s x : parse_u128 s = Some x → 0 ≤ x.
Proof. unfold parse_u128. destruct s; [done|]. by apply parse_digits_nonneg. Qed.

Lemma from_decimal_ok s a : Amount_from_decimal s = Ok a → amount_ok a.
Proof.
  unfold Amount_from_decimal. destruct (_ || _); [done|]. intros ([w fr] & _ & H)%result_bind_Ok_inv. destruct (_ || _); [done|].
  destruct (_ <? _)%nat; [done|]. apply result_bind_Ok_inv in H as (whole & Hw%ok_or_Ok_inv%parse_u128_nonneg & H).
  apply result_bind_Ok_inv in H as (frac & Hf & H).
  assert (0 ≤ frac). { case_bool_decide; [by injection Hf as <-|]. by apply ok_or_Ok_inv, parse_u128_nonneg in Hf. }
  apply ok_or_Ok_inv, bind_Some in H as (u & Hu & H). apply checked_mul_nonneg in Hu; [|done..]. unfold amount_ok.
  apply checked_add_nonneg in H; lia.
Qed.

Lemma reference_parse_ok s x : PaymentReference_parse s = Some x → 0 ≤ x ≤ u64_max.
Proof.
  unfold PaymentReference_parse, parse_u64. destruct (_ || _); [done|]. intros (y & Hy%parse_u128_nonneg & H)%bind_Some.
  destruct (Z.leb_spec y u64_max); simplify_eq. lia.
Qed.

Lemma bounded_text v t : utf8_valid v = true → bounded v = Ok t → text_ok t.
Proof. unfold bounded. intros Hv. destruct (Z.ltb_spec MAX_TEXT_LEN (Z.of_nat (length v))); [done|]. by intros [= <-]. Qed.

Lemma assign_ok key value f f' : utf8_valid value = true → fields_ok f → assign key value f = Ok f' → fields_ok f'.
Proof.
  intros Hv (H1 & H2 & H3 & H4 & H5). unfold assign, fields_ok.
  repeat case_bool_decide; intros E; repeat inv_M_step; cbn [f_denom f_amount f_reference f_label f_note opt_ok]; split_and!;
    eauto using from_decimal_ok, reference_parse_ok, bounded_text.
  all: match goal with
       | H : Denom_new _ = Ok _ |- _ => by apply Denom_new_Ok in H as (-> & ? & _)
       | H : PaymentReference_parse _ = Some _ |- _ => apply reference_parse_ok in H; lia
       end.
Qed.

Lemma parse_params_ok ps seen f f' : fields_ok f → parse_params ps seen f = Ok f' → fields_ok f'.
Proof.
  revert seen f. induction ps as [|p ps IH]; intros seen f Hf H; cbn [parse_params] in H; [by injection H as <-|].
  apply result_bind_Ok_inv in H as ([key raw] & _ & H). case_bool_decide; [done|].
  apply result_bind_Ok_inv in H as (value & Hd%ok_or_Ok_inv & H). apply result_bind_Ok_inv in H as (f1 & Ha & H).
  eapply IH; [|exact H]. eapply assign_ok; [|exact Hf|exact Ha]. unfold decode_component in Hd.
  apply bind_Some in Hd as (out & _ & Hd). destruct (utf8_valid out) eqn:E; simplify_eq. done.
Qed.

Lemma parse_payee_ok part p : parse_payee part = Ok p → payee_ok p.
Proof.
  unfold parse_payee. destruct (strip_prefix _ _); intros H%map_err_Ok_inv; repeat inv_M_step; cbn [payee_ok].
  - by eapply Username_new_idem.
  - match goal with H : Address_from_bech32 _ = Ok _ |- _ => by apply Address_from_bech32_Ok in H as [_ ?] end.
Qed.

(** C38: A payment request survives its text, and no text makes an unsafe one.  Every request
    whose fields are valid prints as a link that parses back to that very request, whatever
    its label and note contain; and whatever a poster or a web page offers, if it
    parses, it names a valid recipient, a valid denomination, an amount and reference in
    range, and texts of at most 128 bytes of UTF-8: so it prints and parses again to
    the same request. *)
Theorem request_uri_roundtrip :
  (∀ r, request_ok r → request_parse (to_uri r) = Ok r) ∧ (∀ uri r, request_parse uri = Ok r → request_ok r).
Proof.
  split.
  - intros r Hr. destruct (payee_text _ (ro_payee _ Hr)) as [Hf Hp]. unfold request_parse, to_uri.
    change (strip_prefix SCHEME (SCHEME ++ ?t)) with (Some t). cbn [mbind option_bind].
    change (strip_prefix (bs ":") (bs ":" ++ ?t)) with (Some t). cbn [ok_or mbind result_bind].
    change (bs "?" ++ ?t) with (byte_of 63 :: t). rewrite split_once_at by done. cbn [from_option id]. rewrite Hp. cbn [mbind result_bind].
    rewrite split_join, to_params_nonempty, parse_to_params by (done || by apply to_params_free). by destruct r.
  - intros uri r H. unfold request_parse in H. apply result_bind_Ok_inv in H as (rest & _ & H).
    destruct (default _ _) as [part query]. apply result_bind_Ok_inv in H as (p & Hp%parse_payee_ok & H).
    apply result_bind_Ok_inv in H as (f & Hf & H). apply result_bind_Ok_inv in H as (d & Hd%ok_or_Ok_inv & H). injection H as <-.
    apply parse_params_ok in Hf as (H1 & H2 & H3 & H4 & H5); [|done]. rewrite Hd in H1. by split.
Qed.
End roundtrip.
