(* ===== verification/Gov.v ===== *)
(** Governance ([crates/gov/src]): the council ([council.rs]), what it can decide and
    the proposals before it ([proposal.rs]), and the module that opens, tallies,
    schedules and hands over decisions ([lib.rs]). *)

From S2P Require Import Prelude SortedVec Sorting Codec Primitives Crypto Store Records Params Alias Group.

(** * [council.rs] *)

Definition MAX_SEATS : Z := 32.
Definition MIN_COUNCIL_THRESHOLD_BPS : Z := 6667.

Record Seat := { holder : Address; seat_weight : Z; seat_country : CountryCode }.
Record Council := { seats : list Seat; threshold_bps : Z }.

#[export] Instance Seat_eq_dec : EqDecision Seat.
Proof. solve_decision. Defined.
#[export] Instance Council_eq_dec : EqDecision Council.
Proof. solve_decision. Defined.

Inductive CouncilError :=
| CouncilEmpty
| TooManySeats (n : Z)
| UnsortedSeats
| CouncilZeroWeight
| CouncilThreshold (bps : Z)
| CountryConcentration (country : CountryCode) (found cap : Z).

#[export] Instance CouncilError_eq_dec : EqDecision CouncilError.
Proof. solve_decision. Defined.

Definition Council_new (ss : list Seat) (bps : Z) : result CouncilError Council :=
  if bool_decide (ss = []) then Err CouncilEmpty
  else if MAX_SEATS <? Z.of_nat (length ss) then Err (TooManySeats (Z.of_nat (length ss)))
  else if negb (is_sorted_by (λ a b, bytes_ltb (holder a) (holder b)) ss) then Err UnsortedSeats
  else if existsb (λ s, seat_weight s =? 0) ss then Err CouncilZeroWeight
  else if negb ((MIN_COUNCIL_THRESHOLD_BPS <=? bps) && (bps <=? 10000)) then Err (CouncilThreshold bps)
  else Ok {| seats := ss; threshold_bps := bps |}.

Definition Council_devnet (who : Address) : Council :=
  {| seats := [{| holder := who; seat_weight := 1; seat_country := CountryCode_UNSPECIFIED |}];
     threshold_bps := 10000 |}.

(** A [u64] sum of at most 32 [u32]s: it cannot wrap. *)
Definition total_weight (c : Council) : Z := list_sum seat_weight (seats c).

(** [Council::weight_of]. *)
Definition council_weight (c : Council) (a : Address) : Z :=
  match vec_get holder a (seats c) with Some s => seat_weight s | None => 0 end.

Definition is_seated (c : Council) (a : Address) : bool := 0 <? council_weight c a.

Definition reached (c : Council) (w : Z) : bool :=
  saturating_mul u128_max (total_weight c) (threshold_bps c) <=? saturating_mul u128_max w 10000.

Definition country_weight (c : Council) (country : CountryCode) : Z :=
  list_sum seat_weight (List.filter (λ s, bool_decide (seat_country s = country)) (seats c)).

(** One turn of [heaviest_country]'s loop. *)
Definition heavier (c : Council) (worst : option (CountryCode * Z)) (country : CountryCode) : option (CountryCode * Z) :=
  let bps := div_ceil (saturating_mul u128_max (country_weight c country) 10000) (total_weight c) in
  let bps := if bps <=? u32_max then bps else u32_max in
  match worst with
  | Some (_, w) => if w <? bps then Some (country, bps) else worst
  | None => Some (country, bps)
  end.

Definition heaviest_country (c : Council) : option (CountryCode * Z) :=
  if total_weight c =? 0 then None
  else fold_left (heavier c) (sort_dedup (seat_country <$> seats c)) None.

Definition max_country_share_bps (c : Council) : Z :=
  match heaviest_country c with Some (_, bps) => bps | None => 0 end.

Definition check_concentration (c : Council) (cap : Z) : result CouncilError unit :=
  match heaviest_country c with
  | Some (country, found) => if cap <? found then Err (CountryConcentration country found cap) else Ok tt
  | None => Ok tt
  end.

Definition Seat_codec : codec Seat :=
  iso_codec (λ '(h, (w, c)), {| holder := h; seat_weight := w; seat_country := c |})
    (λ s, (holder s, (seat_weight s, seat_country s)))
    (Address_codec ⊗ u32_codec ⊗ CountryCode_codec).

(** The text of a [CouncilError] is diagnostic only. *)
Definition Council_check (c : Council) : result CodecError unit :=
  match Council_new (seats c) (threshold_bps c) with Ok _ => Ok tt | Err _ => Err (CodecInvalid "council") end.
Definition Council_codec : codec Council :=
  guard_codec Council_check
    (iso_codec (λ '(s, t), {| seats := s; threshold_bps := t |}) (λ c, (seats c, threshold_bps c))
       (vec_codec Seat_codec ⊗ u32_codec)).

#[export] Instance Seat_lawful : Lawful Seat_codec.
Proof. unfold Seat_codec. struct_lawful. Qed.
#[export] Instance Council_lawful : Lawful Council_codec.
Proof. apply guard_lawful. struct_lawful. Qed.
Arguments Seat_codec : simpl never.
Arguments Council_codec : simpl never.

(** * [proposal.rs] *)

Inductive Action :=
| SetCouncil (c : Council)
| SetParams (p : ChainParams)
| LicenseAttestor (address : Address) (a : Attestor)
| SetAttestorActive (address : Address) (active : bool)
| AdmitDenom (denom : Denom) (authority : Address)
| Cancel (proposal : Z).

#[export] Instance StakingParams_eq_dec : EqDecision StakingParams.
Proof. solve_decision. Defined.
#[export] Instance ChainParams_eq_dec : EqDecision ChainParams.
Proof. solve_decision. Defined.
#[export] Instance ParamError_eq_dec : EqDecision ParamError.
Proof. solve_decision. Defined.
#[export] Instance Action_eq_dec : EqDecision Action.
Proof. solve_decision. Defined.

Inductive ProposalError :=
| LicensedSuspended
| NotSovereign (denom : bytes)
| NotCancellable (id : Z)
| SelfCancelling.

#[export] Instance ProposalError_eq_dec : EqDecision ProposalError.
Proof. solve_decision. Defined.

Definition bypasses_timelock (a : Action) : bool := match a with Cancel _ => true | _ => false end.

Definition Action_validate (a : Action) : result ProposalError unit :=
  match a with
  | LicenseAttestor _ att => if active att then Ok tt else Err LicensedSuspended
  | AdmitDenom d _ => if Denom_is_sovereign d then Ok tt else Err (NotSovereign d)
  | SetCouncil _ | SetParams _ | SetAttestorActive _ _ => Ok tt
  | Cancel _ => Ok tt
  end.

Record GovProposal := {
  prop_id : Z;
  proposer : Address;
  action : Action;
  opened : Height;
  voting_ends : Height;
  gov_votes : list Address;
  scheduled_for : option Height;
}.

#[export] Instance GovProposal_eq_dec : EqDecision GovProposal.
Proof. solve_decision. Defined.

Definition with_votes (l : list Address) (p : GovProposal) : GovProposal :=
  {| prop_id := prop_id p; proposer := proposer p; action := action p; opened := opened p;
     voting_ends := voting_ends p; gov_votes := l; scheduled_for := scheduled_for p |}.
Definition with_schedule (o : option Height) (p : GovProposal) : GovProposal :=
  {| prop_id := prop_id p; proposer := proposer p; action := action p; opened := opened p;
     voting_ends := voting_ends p; gov_votes := gov_votes p; scheduled_for := o |}.

Definition has_voted (p : GovProposal) (seat : Address) : bool :=
  match search (λ a, a) seat (gov_votes p) with inl _ => true | inr _ => false end.

(** [Proposal::record_vote]: [None] when the seat had voted. *)
Definition record_vote (p : GovProposal) (seat : Address) : option GovProposal :=
  match search (λ a, a) seat (gov_votes p) with
  | inl _ => None
  | inr at_ => Some (with_votes (vec_insert at_ seat (gov_votes p)) p)
  end.

Definition Action_codec : codec Action :=
  tag_codec "Action"
    (λ a, match a with
          | SetCouncil _ => 1 | SetParams _ => 2 | LicenseAttestor _ _ => 3 | SetAttestorActive _ _ => 4
          | AdmitDenom _ _ => 5 | Cancel _ => 6
          end)
    (λ t, match t with
          | 1 => Some (variant_codec SetCouncil (λ a, match a with SetCouncil c => Some c | _ => None end) Council_codec)
          | 2 => Some (variant_codec SetParams (λ a, match a with SetParams p => Some p | _ => None end) ChainParams_codec)
          | 3 => Some (variant_codec (λ '(x, r), LicenseAttestor x r)
                         (λ a, match a with LicenseAttestor x r => Some (x, r) | _ => None end)
                         (Address_codec ⊗ Attestor_codec))
          | 4 => Some (variant_codec (λ '(x, b), SetAttestorActive x b)
                         (λ a, match a with SetAttestorActive x b => Some (x, b) | _ => None end)
                         (Address_codec ⊗ bool_codec))
          | 5 => Some (variant_codec (λ '(d, x), AdmitDenom d x)
                         (λ a, match a with AdmitDenom d x => Some (d, x) | _ => None end)
                         (Denom_codec ⊗ Address_codec))
          | 6 => Some (variant_codec Cancel (λ a, match a with Cancel i => Some i | _ => None end) u64_codec)
          | _ => None
          end).
#[export] Instance Action_lawful : Lawful Action_codec.
Proof. apply tag_lawful; [intros []; lia|tag_cases]. Qed.
Arguments Action_codec : simpl never.

Definition GovProposal_check (p : GovProposal) : result CodecError unit :=
  if negb (is_sorted_by bytes_ltb (gov_votes p)) then Err (CodecInvalid "proposal votes must be sorted and unique")
  else Ok tt.
Definition GovProposal_codec : codec GovProposal :=
  guard_codec GovProposal_check
    (iso_codec
       (λ '(i, (p, (a, (o, (e, (v, s)))))),
          {| prop_id := i; proposer := p; action := a; opened := o; voting_ends := e; gov_votes := v; scheduled_for := s |})
       (λ p, (prop_id p, (proposer p, (action p, (opened p, (voting_ends p, (gov_votes p, scheduled_for p)))))))
       (u64_codec ⊗ Address_codec ⊗ Action_codec ⊗ Height_codec ⊗ Height_codec ⊗ vec_codec Address_codec
        ⊗ option_codec Height_codec)).
#[export] Instance GovProposal_lawful : Lawful GovProposal_codec.
Proof. apply guard_lawful. struct_lawful. Qed.
Arguments GovProposal_codec : simpl never.

(** * [lib.rs] *)

Definition MAX_OPEN_PROPOSALS : Z := 64.

Inductive GovError :=
| NoCouncil
| NotSeated (a : Address)
| NoSuchProposal (id : Z)
| AlreadyVoted (id : Z)
| VotingClosed (id ended now : Z)
| AlreadyPassed (id : Z)
| NotScheduled (id : Z)
| Timelocked (id executable_at now : Z)
| TooManyProposals
| GovProposalErr (e : ProposalError)
| GovCouncilErr (e : CouncilError)
| GovParamErr (e : ParamError)
| GovCorrupt (e : StateError).

#[export] Instance GovError_eq_dec : EqDecision GovError.
Proof. solve_decision. Defined.

Record ProposalQueue := { next_id : Z; open : list Z }.
#[export] Instance ProposalQueue_eq_dec : EqDecision ProposalQueue.
Proof. solve_decision. Defined.
Definition ProposalQueue_default : ProposalQueue := {| next_id := 0; open := [] |}.

Definition ProposalQueue_codec : codec ProposalQueue :=
  iso_codec (λ '(n, o), {| next_id := n; open := o |}) (λ q, (next_id q, open q)) (u64_codec ⊗ vec_codec u64_codec).
#[export] Instance ProposalQueue_lawful : Lawful ProposalQueue_codec.
Proof. unfold ProposalQueue_codec. struct_lawful. Qed.
Arguments ProposalQueue_codec : simpl never.

Inductive GovVoteOutcome := VoteRecorded | VoteScheduled (h : Height) | VoteWithdrew (id : Z).

Section governance.
Context {St : Type} {KV : KeyValueStore St}.
Abbreviation Gv := (M St GovError).

Definition gov_get {A} (c : codec A) (key : StoreKey) (s : St) : result GovError (option A) :=
  map_err GovCorrupt (get_decoded c s key).

Definition gov_params (s : St) : result GovError ChainParams :=
  o ← gov_get ChainParams_codec key_params s; Ok (default ChainParams_default o).
Definition gov_council (s : St) : result GovError (option Council) := gov_get Council_codec key_council s.
Definition gov_proposal (id : Z) (s : St) : result GovError (option GovProposal) :=
  gov_get GovProposal_codec (key_proposal id) s.
Definition gov_queue (s : St) : result GovError ProposalQueue :=
  o ← gov_get ProposalQueue_codec key_proposal_index s; Ok (default ProposalQueue_default o).

Definition put_params (p : ChainParams) : Gv unit := writes (λ s, set_encoded ChainParams_codec s key_params p).
Definition put_council (c : Council) : Gv unit := writes (λ s, set_encoded Council_codec s key_council c).
Definition put_proposal (id : Z) (p : GovProposal) : Gv unit :=
  writes (λ s, set_encoded GovProposal_codec s (key_proposal id) p).
Definition put_queue_index (q : ProposalQueue) : Gv unit :=
  writes (λ s, set_encoded ProposalQueue_codec s key_proposal_index q).

Definition install (c : Council) (p : ChainParams) : Gv unit :=
  do! lift (map_err GovParamErr (validate p)) in
  do! lift (map_err GovCouncilErr (check_concentration c (max_council_country_share_bps p))) in
  do! put_params p in
  put_council c.

Definition set_council (c : Council) : Gv unit :=
  let! p := reads gov_params in
  do! lift (map_err GovCouncilErr (check_concentration c (max_council_country_share_bps p))) in
  put_council c.

Definition set_params (p : ChainParams) : Gv unit :=
  let! current := reads gov_params in
  do! lift (map_err GovParamErr (validate_change_from p current)) in
  let! o := reads gov_council in
  do! match o with
      | Some c => lift (map_err GovCouncilErr (check_concentration c (max_council_country_share_bps p)))
      | None => ret tt
      end in
  put_params p.

Definition require_council : Gv Council :=
  let! o := reads gov_council in lift (ok_or NoCouncil o).
Definition require_proposal (id : Z) : Gv GovProposal :=
  let! o := reads (gov_proposal id) in lift (ok_or (NoSuchProposal id) o).

Definition remove (id : Z) : Gv unit :=
  do! writes (λ s, (kv_delete s (key_proposal id)).1) in
  let! q := reads gov_queue in
  put_queue_index {| next_id := next_id q; open := List.filter (λ i, negb (i =? id)) (open q) |}.

(** The loop of [sweep_lapsed]: the ids kept. *)
Fixpoint sweep_ids (now : Height) (ids : list Z) : Gv (list Z) :=
  match ids with
  | [] => ret []
  | id :: ids =>
      let! o := reads (gov_proposal id) in
      match o with
      | Some p =>
          if bool_decide (is_Some (scheduled_for p)) || (now <=? voting_ends p)
          then let! kept := sweep_ids now ids in ret (id :: kept)
          else do! writes (λ s, (kv_delete s (key_proposal id)).1) in sweep_ids now ids
      | None => sweep_ids now ids
      end
  end.

Definition sweep_lapsed (now : Height) : Gv ProposalQueue :=
  let! q := reads gov_queue in
  let! kept := sweep_ids now (open q) in
  let q := {| next_id := next_id q; open := kept |} in
  do! put_queue_index q in
  ret q.

(** What can be checked of an action when it is proposed. *)
Definition precheck (a : Action) : Gv unit :=
  match a with
  | SetCouncil c =>
      let! p := reads gov_params in
      lift (map_err GovCouncilErr (check_concentration c (max_council_country_share_bps p)))
  | SetParams p =>
      let! current := reads gov_params in
      lift (map_err GovParamErr (validate_change_from p current))
  | Cancel id =>
      let! target := require_proposal id in
      fail_if (bool_decide (scheduled_for target = None)) (GovProposalErr (NotCancellable id))
  | LicenseAttestor _ _ | SetAttestorActive _ _ | AdmitDenom _ _ => ret tt
  end.

(** [Governance::propose]. *)
Definition gov_propose (sender : Address) (a : Action) (now : Height) : Gv Z :=
  let! c := require_council in
  do! fail_if (negb (is_seated c sender)) (NotSeated sender) in
  do! lift (map_err GovProposalErr (Action_validate a)) in
  do! precheck a in
  let! q := sweep_lapsed now in
  do! fail_if (MAX_OPEN_PROPOSALS <=? Z.of_nat (length (open q))) TooManyProposals in
  let! p := reads gov_params in
  let id := next_id q in
  do! put_queue_index {| next_id := saturating_add u64_max id 1; open := open q ++ [id] |} in
  do! put_proposal id {| prop_id := id; proposer := sender; action := a; opened := now;
                         voting_ends := saturating_add u64_max now (voting_period_blocks p);
                         gov_votes := []; scheduled_for := None |} in
  ret id.

(** The weight behind a proposal, in the council as it stands. *)
Definition tally (c : Council) (voters : list Address) : Z := list_sum (council_weight c) voters.

(** [Governance::vote]. *)
Definition gov_vote (sender : Address) (id : Z) (now : Height) : Gv GovVoteOutcome :=
  let! c := require_council in
  do! fail_if (negb (is_seated c sender)) (NotSeated sender) in
  let! p := require_proposal id in
  do! fail_if (bool_decide (is_Some (scheduled_for p))) (AlreadyPassed id) in
  do! fail_if (voting_ends p <? now) (VotingClosed id (voting_ends p) now) in
  let! p := lift (ok_or (AlreadyVoted id) (record_vote p sender)) in
  if negb (reached c (tally c (gov_votes p))) then
    do! put_proposal id p in
    ret VoteRecorded
  else
    match action p with
    | Cancel target =>
        do! remove target in
        do! remove id in
        ret (VoteWithdrew target)
    | _ =>
        let! params := reads gov_params in
        let at_ := saturating_add u64_max now (timelock_blocks params) in
        do! put_proposal id (with_schedule (Some at_) p) in
        ret (VoteScheduled at_)
    end.

(** [Governance::execute]. *)
Definition gov_execute (id : Z) (now : Height) : Gv Action :=
  let! p := require_proposal id in
  let! at_ := lift (ok_or (NotScheduled id) (scheduled_for p)) in
  do! fail_if (now <? at_) (Timelocked id at_ now) in
  do! remove id in
  ret (action p).
End governance.
