(* ===== verification/GovProofs.v ===== *)
(** What governance guarantees ([crates/gov/src]): the council never exceeds its own
    concentration cap, and nothing it decides binds without a supermajority of
    its weight and a timelock's notice. *)

From S2P Require Import Prelude SortedVec Sorting Codec Primitives Crypto Store Records Params Alias Group GroupProofs GroupTheorems AliasProofs Gov.

(** * The council *)

Lemma Council_new_Ok ss bps c :
  Council_new ss bps = Ok c →
  c = {| seats := ss; threshold_bps := bps |} ∧ ss ≠ [] ∧ Z.of_nat (length ss) ≤ MAX_SEATS
  ∧ StronglySorted (key_lt holder) ss ∧ Forall (λ s, seat_weight s ≠ 0) ss
  ∧ MIN_COUNCIL_THRESHOLD_BPS ≤ bps ≤ 10000.
Proof.
  unfold Council_new. rewrite <- (is_sorted_by_spec holder).
  case_bool_decide; [done|]. destruct (Z.ltb_spec MAX_SEATS (Z.of_nat (length ss))); [done|].
  destruct (is_sorted_by _ ss); [|done]. simpl. destruct (existsb _ ss) eqn:E; [done|].
  destruct (negb _) eqn:Eb; [done|]. intros [= <-]. bool_simpl. split_and!; try done.
  clear -E. induction ss as [|s ss IH]; [constructor|]. simpl in E. bool_simpl. constructor; auto.
Qed.

Record council_ok (c : Council) : Prop := {
  co_sorted : StronglySorted (key_lt holder) (seats c);
  co_size : 1 ≤ Z.of_nat (length (seats c)) ≤ MAX_SEATS;
  co_weights : Forall (λ s, 0 < seat_weight s ≤ u32_max) (seats c);
  co_threshold : MIN_COUNCIL_THRESHOLD_BPS ≤ threshold_bps c ≤ 10000;
}.

Lemma council_wf_ok c : wf Council_codec c → council_ok c.
Proof.
  intros [[Hs Ht] Hc]. cbn in Hs, Ht. unfold Council_check in Hc.
  destruct (Council_new (seats c) (threshold_bps c)) eqn:E; [|done].
  apply Council_new_Ok in E as (_ & Hne & Hlen & Hso & Hw & Hth). destruct Hs as [_ Hs].
  split; try done.
  - split; [|done]. destruct (seats c); [done|]. simpl. lia.
  - rewrite Forall_forall in *. intros s Hin. specialize (Hw s Hin). destruct (Hs s Hin) as (_ & Hr & _).
    cbn in Hr. apply wf_u32 in Hr. lia.
Qed.

Lemma council_weight_Some c s : council_ok c → s ∈ seats c → council_weight c (holder s) = seat_weight s.
Proof.
  intros Hc Hs. unfold council_weight. by rewrite (proj2 (vec_get_Some holder (holder s) (seats c) s (co_sorted c Hc))).
Qed.

Lemma council_weight_nonneg c a : council_ok c → 0 ≤ council_weight c a ≤ u32_max.
Proof.
  intros Hc. unfold council_weight. destruct (vec_get holder a (seats c)) as [s|] eqn:E; [|unfold u32_max; lia].
  apply vec_get_Some in E as [Hin _]; [|apply Hc]. pose proof (co_weights c Hc) as Hw.
  rewrite Forall_forall in Hw. specialize (Hw s Hin). simpl in Hw. lia.
Qed.

Lemma total_weight_bounds c : council_ok c → 0 < total_weight c ≤ MAX_SEATS * u32_max.
Proof.
  intros Hc. unfold total_weight. pose proof (co_size c Hc) as Hsz. pose proof (co_weights c Hc) as Hw.
  assert (∀ l, Forall (λ s, 0 < seat_weight s ≤ u32_max) l →
    Z.of_nat (length l) ≤ list_sum seat_weight l ≤ Z.of_nat (length l) * u32_max) as Hb.
  { clear. induction 1 as [|s l Hs _ IH]; [simpl; lia|]. rewrite list_sum_cons. cbn [length]. lia. }
  specialize (Hb _ Hw). unfold MAX_SEATS, u32_max in *. nia.
Qed.

(** Distinct voters never weigh more than the council. *)
Lemma tally_le c voters : council_ok c → NoDup voters → 0 ≤ tally c voters ≤ total_weight c.
Proof.
  intros Hc Hnd. unfold tally, total_weight. split.
  { apply list_sum_nonneg, Forall_forall. intros a _. by apply council_weight_nonneg. }
  assert (list_sum (council_weight c) (holder <$> seats c) = list_sum seat_weight (seats c)) as <-.
  { assert (Forall (λ s, council_weight c (holder s) = seat_weight s) (seats c)) as Hall.
    { apply Forall_forall. intros s Hs. by apply council_weight_Some. }
    clear -Hall. induction Hall as [|s l Hs _ IH]; [done|]. rewrite fmap_cons, !list_sum_cons, IH. lia. }
  assert (list_sum (council_weight c) voters
          = list_sum (council_weight c) (filter (λ a, a ∈ holder <$> seats c) voters)) as ->.
  { clear Hnd. induction voters as [|a l IH]; [done|]. rewrite filter_cons, list_sum_cons.
    case_decide as Ha; rewrite ?list_sum_cons, IH; [done|]. enough (council_weight c a = 0) by lia.
    unfold council_weight. destruct (vec_get holder a (seats c)) as [s|] eqn:E; [|done].
    apply vec_get_Some in E as [Hin <-]; [|apply Hc]. destruct Ha. by apply list_elem_of_fmap_2. }
  apply list_sum_submseteq.
  - apply Forall_forall. intros a _. by apply council_weight_nonneg.
  - apply NoDup_submseteq; [by apply NoDup_filter|]. intros a [? _]%list_elem_of_filter. done.
Qed.

Lemma reached_iff c w :
  council_ok c → 0 ≤ w ≤ MAX_SEATS * u32_max →
  reached c w = true ↔ total_weight c * threshold_bps c ≤ w * 10000.
Proof.
  intros Hc Hw. pose proof (total_weight_bounds c Hc). pose proof (co_threshold c Hc).
  unfold reached, saturating_mul, MIN_COUNCIL_THRESHOLD_BPS, MAX_SEATS, u32_max, u128_max in *.
  rewrite !Z.min_r by nia. by rewrite Z.leb_le.
Qed.

Lemma country_weight_le c country : council_ok c → 0 ≤ country_weight c country ≤ total_weight c.
Proof.
  intros Hc. pose proof (co_weights c Hc) as Hw. unfold country_weight, total_weight.
  rewrite list_sum_filter. split.
  - apply list_sum_nonneg. eapply Forall_impl; [exact Hw|]. intros s Hs. simpl in Hs. case_bool_decide; lia.
  - apply list_sum_le. eapply Forall_impl; [exact Hw|]. intros s Hs. simpl in Hs. case_bool_decide; lia.
Qed.

(** A jurisdiction's share in basis points, rounded up. *)
Definition country_bps (c : Council) (country : CountryCode) : Z :=
  div_ceil (country_weight c country * 10000) (total_weight c).

Lemma heavier_spec c worst country :
  council_ok c →
  heavier c worst country =
    match worst with
    | Some (k, w) => if w <? country_bps c country then Some (country, country_bps c country) else Some (k, w)
    | None => Some (country, country_bps c country)
    end.
Proof.
  intros Hc. pose proof (country_weight_le c country Hc). pose proof (total_weight_bounds c Hc).
  unfold heavier, country_bps. assert (saturating_mul u128_max (country_weight c country) 10000 = country_weight c country * 10000) as ->.
  { unfold saturating_mul, MAX_SEATS, u32_max, u128_max in *. lia. }
  assert (div_ceil (country_weight c country * 10000) (total_weight c) ≤ 10000) as Hle by (apply div_ceil_le; nia).
  destruct (Z.leb_spec (div_ceil (country_weight c country * 10000) (total_weight c)) u32_max);
    [|unfold u32_max in *; lia]. by destruct worst as [[? ?]|].
Qed.

Lemma fold_heavier c l k0 w0 :
  council_ok c →
  ∃ k w, fold_left (heavier c) l (Some (k0, w0)) = Some (k, w)
    ∧ ∀ bound, w ≤ bound ↔ w0 ≤ bound ∧ ∀ x, x ∈ l → country_bps c x ≤ bound.
Proof.
  intros Hc. revert k0 w0. induction l as [|x l IH]; intros k0 w0; cbn [fold_left].
  { exists k0, w0. split; [done|]. intros bound. split; [|by intros [? _]].
    intros ?. split; [done|]. by intros y Hy%elem_of_nil. }
  rewrite heavier_spec by done. setoid_rewrite elem_of_cons. destruct (Z.ltb_spec w0 (country_bps c x)).
  - destruct (IH x (country_bps c x)) as (k & w & E & Hw). exists k, w. split; [done|]. intros bound. rewrite Hw.
    split; [|naive_solver]. intros [? ?]. split; [lia|]. naive_solver.
  - destruct (IH k0 w0) as (k & w & E & Hw). exists k, w. split; [done|]. intros bound. rewrite Hw.
    split; [|naive_solver]. intros [? ?]. split; [lia|]. intros y [->|Hy]; [lia|auto].
Qed.

(** The concentration test is what it says: every jurisdiction within the cap. *)
Lemma check_concentration_iff c cap :
  council_ok c →
  check_concentration c cap = Ok tt ↔ ∀ country, country_weight c country * 10000 ≤ cap * total_weight c.
Proof.
  intros Hc. pose proof (total_weight_bounds c Hc) as Ht. unfold check_concentration, heaviest_country.
  destruct (Z.eqb_spec (total_weight c) 0); [lia|].
  set (l := sort_dedup (seat_country <$> seats c)).
  assert (l ≠ []) as Hl.
  { pose proof (co_size c Hc). destruct (seats c) as [|s ss] eqn:E; [simpl in *; lia|].
    intros El. assert (seat_country s ∈ l) as Hin; [|by rewrite El in Hin; apply elem_of_nil in Hin].
    unfold l. rewrite elem_of_sort_dedup. by left. }
  trans (∀ country, country ∈ l → country_bps c country ≤ cap).
  - destruct l as [|x l']; [done|]. cbn [fold_left]. rewrite heavier_spec by done.
    destruct (fold_heavier c l' x (country_bps c x) Hc) as (k & w & -> & Hw). setoid_rewrite elem_of_cons.
    specialize (Hw cap). destruct (Z.ltb_spec cap w) as [Hlt|Hle]; split; try done.
    + intros Hx. assert (w ≤ cap); [|lia]. apply Hw. auto.
    + intros _. apply Hw in Hle as [H1 H2]. by intros y [->|Hy]; auto.
  - unfold country_bps. setoid_rewrite div_ceil_le; [|lia]. split; intros Hx country.
    + destruct (decide (country ∈ l)) as [Hin|Hnin]; [by apply Hx|].
      assert (country_weight c country = 0) as ->.
      { unfold country_weight. rewrite list_sum_filter. clear -Hnin. unfold l in Hnin.
        rewrite elem_of_sort_dedup in Hnin. induction (seats c) as [|s ss IH]; [done|].
        rewrite fmap_cons, elem_of_cons in Hnin. rewrite list_sum_cons, bool_decide_eq_false_2 by naive_solver.
        rewrite IH by naive_solver. done. }
      assert (0 ≤ cap); [|nia].
      { destruct l as [|x l'] eqn:El; [done|]. pose proof (country_weight_le c x Hc).
        specialize (Hx x ltac:(by left)). nia. }
    + intros _. apply Hx.
Qed.

(** * The module's records *)

Section governance.
Context {St : Type} {KV : KeyValueStore St} {KM : KVMap St}.
Implicit Types (m : gmap bytes bytes) (s : St).

Definition params_at m : ChainParams := default ChainParams_default (record_at ChainParams_codec m key_params).
Definition council_at m : option Council := record_at Council_codec m key_council.
Definition proposal_at m (id : Z) : option GovProposal := record_at GovProposal_codec m (key_proposal id).
Definition queue_at m : ProposalQueue := default ProposalQueue_default (record_at ProposalQueue_codec m key_proposal_index).

Lemma gov_get_at {A} (c : codec A) k s o : gov_get c k s = Ok o → o = record_at c (kv_map s) k.
Proof. intros Hx%map_err_Ok_inv. exact (get_decoded_record _ _ _ _ Hx). Qed.

Lemma gov_params_Ok s p : gov_params s = Ok p → p = params_at (kv_map s).
Proof. unfold gov_params. intros (o & Ho & [= <-])%result_bind_Ok_inv. by apply gov_get_at in Ho as ->. Qed.
Lemma gov_council_Ok s o : gov_council s = Ok o → o = council_at (kv_map s).
Proof. apply gov_get_at. Qed.
Lemma gov_proposal_Ok id s o : gov_proposal id s = Ok o → o = proposal_at (kv_map s) id.
Proof. apply gov_get_at. Qed.
Lemma gov_queue_Ok s q : gov_queue s = Ok q → q = queue_at (kv_map s).
Proof. unfold gov_queue. intros (o & Ho & [= <-])%result_bind_Ok_inv. by apply gov_get_at in Ho as ->. Qed.

Lemma proposal_queue_wf m : wf ProposalQueue_codec (queue_at m).
Proof.
  unfold queue_at. destruct (record_at ProposalQueue_codec m key_proposal_index) as [q|] eqn:E; simpl.
  - by apply record_at_Some in E as [? _]; [|apply _].
  - split; [apply wf_u64; unfold u64_max; simpl; lia|]. split; [unfold MAX_FIELD_LEN; simpl; lia|constructor].
Qed.

Lemma proposal_at_wf m id p : proposal_at m id = Some p → wf GovProposal_codec p.
Proof. intros [? _]%record_at_Some; [done|apply _]. Qed.

Lemma params_default_ok : params_ok ChainParams_default.
Proof. by apply validate_Ok. Qed.

Lemma key_proposal_inj i j :
  wf u64_codec i → wf u64_codec j → key_proposal i = key_proposal j → i = j.
Proof.
  intros Hi Hj [_ E]%StoreKey_new_inj.
  - apply (f_equal head) in E. change (Some (encode u64_codec i) = Some (encode u64_codec j)) in E.
    apply (inj Some) in E. by apply encode_inj in E; [|apply _|..].
  - repeat constructor; unfold bytes_codec, MAX_FIELD_LEN, u64_codec, uint_codec; cbn [wf encode];
      rewrite coqutil.Word.LittleEndianList.length_le_split; lia.
  - repeat constructor; unfold bytes_codec, MAX_FIELD_LEN, u64_codec, uint_codec; cbn [wf encode];
      rewrite coqutil.Word.LittleEndianList.length_le_split; lia.
Qed.

(** Taking the module's computations apart. *)
Ltac gov_inv :=
  repeat match goal with
  | H : require_council _ = (Ok _, _) |- _ => unfold require_council in H
  | H : require_proposal _ _ = (Ok _, _) |- _ => unfold require_proposal in H
  | H : gov_params _ = Ok _ |- _ => apply gov_params_Ok in H
  | H : gov_council _ = Ok _ |- _ => apply gov_council_Ok in H
  | H : gov_proposal _ _ = Ok _ |- _ => apply gov_proposal_Ok in H
  | H : gov_queue _ = Ok _ |- _ => apply gov_queue_Ok in H
  | _ => inv_M_step
  end.

Lemma remove_Ok id s u s' :
  remove id s = (Ok u, s') →
  ∃ q, kv_map s' = <[key_proposal_index := encode ProposalQueue_codec q]> (delete (key_proposal id) (kv_map s)).
Proof.
  unfold remove, put_queue_index. intros H. gov_inv. unfold set_encoded. rewrite kv_set_map, kv_delete_map. eauto.
Qed.

(** Only proposals are ever deleted by a sweep. *)
Definition swept m m' : Prop := ∀ k, m' !! k = m !! k ∨ (m' !! k = None ∧ ∃ id, k = key_proposal id).

Lemma swept_refl m : swept m m.
Proof. by left. Qed.
Lemma swept_trans m1 m2 m3 : swept m1 m2 → swept m2 m3 → swept m1 m3.
Proof. intros H1 H2 k. destruct (H1 k) as [E1|E1], (H2 k) as [E2|E2]; [left; congruence|right|right|right]; naive_solver congruence. Qed.
Lemma swept_delete m id : swept m (delete (key_proposal id) m).
Proof.
  intros k. rewrite lookup_delete. case_decide as E; [right|by left]. split; [done|]. by exists id.
Qed.

Lemma sweep_ids_Ok now ids s kept s' : sweep_ids now ids s = (Ok kept, s') → swept (kv_map s) (kv_map s').
Proof.
  revert s kept s'. induction ids as [|id ids IH]; intros s kept s' H; cbn [sweep_ids] in H; gov_inv;
    [apply swept_refl|].
  destruct (proposal_at (kv_map s) id) as [p|] eqn:E; [|by eapply IH].
  destruct (_ || _); gov_inv; [by eapply IH|]. eapply swept_trans; [apply swept_delete|].
  rewrite <- kv_delete_map. by eapply IH.
Qed.

Lemma sweep_lapsed_Ok now s q s' :
  sweep_lapsed now s = (Ok q, s') →
  next_id q = next_id (queue_at (kv_map s)) ∧
  ∃ m, swept (kv_map s) m ∧ kv_map s' = <[key_proposal_index := encode ProposalQueue_codec q]> m.
Proof.
  unfold sweep_lapsed, put_queue_index. intros H. gov_inv.
  match goal with H : sweep_ids _ _ _ = _ |- _ => apply sweep_ids_Ok in H end.
  split; [done|]. eexists. split; [done|]. unfold set_encoded. by rewrite kv_set_map.
Qed.

(** ** The decisions' history *)

Inductive gov_op :=
| GovPropose (sender : Address) (a : Action)
| GovVote (sender : Address) (id : Z)
| GovExecute (id : Z).

(** What an executed decision changes in the module itself; the other actions are
    carried out by the modules they belong to. *)
Definition enact (a : Action) : M St GovError unit :=
  match a with SetCouncil c => set_council c | SetParams p => set_params p | _ => ret tt end.

Definition gov_exec (op : gov_op) (now : Height) : M St GovError unit :=
  match op with
  | GovPropose sender a => do! gov_propose sender a now in ret tt
  | GovVote sender id => do! gov_vote sender id now in ret tt
  | GovExecute id => let! a := gov_execute id now in enact a
  end.

Definition gov_op_ok (op : gov_op) : Prop :=
  match op with
  | GovPropose sender a => address_ok sender ∧ wf Action_codec a
  | GovVote sender id => address_ok sender ∧ wf u64_codec id
  | GovExecute id => wf u64_codec id
  end.

Definition gov_step s (e : Height * gov_op) : St :=
  match gov_exec e.2 e.1 s with (Ok _, s') => s' | (Err _, _) => s end.
Definition gov_run (es : list (Height * gov_op)) s : St := foldl gov_step s es.

(** Parameters within their floors, and a council within the cap they set. *)
Record gov_ok m : Prop := {
  gv_params : params_ok (params_at m);
  gv_council c : council_at m = Some c →
    ∀ country, country_weight c country * 10000 ≤ max_council_country_share_bps (params_at m) * total_weight c;
}.

Lemma gov_ok_frame m m' :
  m' !! key_params = m !! key_params → m' !! key_council = m !! key_council → gov_ok m → gov_ok m'.
Proof.
  intros Hp Hc [H1 H2]. assert (params_at m' = params_at m) as E1.
  { unfold params_at. by rewrite (record_at_ext _ m). }
  split; rewrite E1; [done|]. unfold council_at. by rewrite (record_at_ext _ m).
Qed.

Lemma council_at_ok m c : council_at m = Some c → council_ok c.
Proof. intros [? _]%record_at_Some; [|apply _]. by apply council_wf_ok. Qed.

Lemma set_council_ok c s u s' :
  wf Council_codec c → gov_ok (kv_map s) → set_council c s = (Ok u, s') → gov_ok (kv_map s').
Proof.
  intros Hc [H1 H2] H. unfold set_council, put_council in H. gov_inv.
  match goal with H : check_concentration _ _ = Ok ?u |- _ => destruct u; rename H into Hcc end.
  pose proof (proj1 (check_concentration_iff _ _ (council_wf_ok _ Hc)) Hcc) as Hcap.
  unfold set_encoded. rewrite kv_set_map.
  assert (params_at (<[key_council := encode Council_codec c]> (kv_map s)) = params_at (kv_map s)) as E.
  { unfold params_at. rewrite (record_at_ext _ (kv_map s)); [done|]. rewrite lookup_insert_ne; [done|ns_ne]. }
  split; rewrite E; [done|]. intros c'. unfold council_at. rewrite record_at_insert by (apply _ || done).
  intros [= <-]. done.
Qed.

Lemma set_params_ok p s u s' :
  wf ChainParams_codec p → gov_ok (kv_map s) → set_params p s = (Ok u, s') → gov_ok (kv_map s').
Proof.
  intros Hp [H1 H2] H. unfold set_params, put_params in H. gov_inv.
  match goal with H : validate_change_from _ _ = Ok ?u |- _ => destruct u;
    apply result_bind_Ok_inv in H as ([] & Hv & _); apply validate_Ok in Hv end.
  match goal with H : match council_at _ with _ => _ end ?s0 = (Ok _, ?s1) |- _ => rename H into Hcc;
    assert (s1 = s0) as -> by (destruct (council_at (kv_map s0)); by gov_inv) end.
  unfold set_encoded. rewrite kv_set_map.
  assert (params_at (<[key_params := encode ChainParams_codec p]> (kv_map s)) = p) as E.
  { unfold params_at. by rewrite record_at_insert by (apply _ || done). }
  split; rewrite E; [done|]. intros c. unfold council_at.
  rewrite (record_at_ext _ (kv_map s)) by (rewrite lookup_insert_ne; [done|ns_ne]).
  intros Hc. pose proof (council_at_ok _ _ Hc) as Hok. fold (council_at (kv_map s)) in Hc. rewrite Hc in Hcc.
  apply lift_inv in Hcc as [Hcc%map_err_Ok_inv _]. destruct x5. exact (proj1 (check_concentration_iff _ _ Hok) Hcc).
Qed.

(** ** What one operation does to the proposals *)

Lemma proposal_at_swept m m' id p : swept m m' → proposal_at m' id = Some p → proposal_at m id = Some p.
Proof.
  intros Hs Hp. unfold proposal_at in *. apply record_at_Some in Hp as [Hw Hp]; [|apply _].
  apply record_at_Some; [apply _|]. split; [done|]. destruct (Hs (key_proposal id)) as [<-|[E _]]; congruence.
Qed.

Lemma proposal_at_index m q id :
  proposal_at (<[key_proposal_index := encode ProposalQueue_codec q]> m) id = proposal_at m id.
Proof. unfold proposal_at. apply record_at_ext. rewrite lookup_insert_ne; [done|ns_ne]. Qed.

Lemma proposal_at_insert m id p id' :
  wf u64_codec id → wf u64_codec id' → wf GovProposal_codec p →
  proposal_at (<[key_proposal id := encode GovProposal_codec p]> m) id' =
    if decide (id = id') then Some p else proposal_at m id'.
Proof.
  intros Hi Hi' Hp. unfold proposal_at. case_decide as E; [subst; by apply (record_at_insert _)|].
  apply record_at_ext. apply lookup_insert_ne. by intros ?%key_proposal_inj.
Qed.

Lemma remove_swept id s u s' :
  remove id s = (Ok u, s') → ∀ id' p, proposal_at (kv_map s') id' = Some p → proposal_at (kv_map s) id' = Some p.
Proof.
  intros (q & E)%remove_Ok id' p. rewrite E, proposal_at_index. apply proposal_at_swept, swept_delete.
Qed.

Lemma params_at_wf m : wf ChainParams_codec (params_at m).
Proof.
  unfold params_at. destruct (record_at ChainParams_codec m key_params) as [q|] eqn:E; simpl.
  - by apply record_at_Some in E as [? _]; [|apply _].
  - vm_compute. done.
Qed.

Lemma record_vote_Some p v p' :
  wf GovProposal_codec p → record_vote p v = Some p' →
  action p' = action p ∧ scheduled_for p' = scheduled_for p ∧ voting_ends p' = voting_ends p
  ∧ (∀ a, a ∈ gov_votes p' ↔ a = v ∨ a ∈ gov_votes p) ∧ length (gov_votes p') = S (length (gov_votes p))
  ∧ (address_ok v → Z.of_nat (length (gov_votes p')) ≤ MAX_FIELD_LEN → wf GovProposal_codec p').
Proof.
  intros [Hw Hg] Hr. unfold record_vote in Hr. destruct (search (λ a, a) v (gov_votes p)) as [|i] eqn:Es; [done|].
  injection Hr as <-. simpl.
  assert (StronglySorted (key_lt (λ a : Address, a)) (gov_votes p)) as Hso.
  { apply (is_sorted_by_spec (λ a : Address, a)). unfold GovProposal_check in Hg. by destruct (is_sorted_by _ _). }
  assert (length (vec_insert i v (gov_votes p)) = S (length (gov_votes p))) as Hlen.
  { unfold vec_insert. rewrite length_app. simpl. rewrite Nat.add_succ_r, <- length_app. by rewrite take_drop. }
  split_and!; [done..|intros a; apply elem_of_vec_insert|done|].
  intros Hv Hl. destruct Hw as (? & ? & ? & ? & ? & [_ Hall] & ?). split.
  - refine (conj _ (conj _ (conj _ (conj _ (conj _ (conj (conj _ _) _)))))); try done.
    apply Forall_forall. intros a [->|Ha]%elem_of_vec_insert; [done|]. exact (proj1 (Forall_forall _ _) Hall a Ha).
  - unfold GovProposal_check. simpl. rewrite (proj2 (is_sorted_by_spec (λ a : Address, a) _)); [done|].
    by eapply vec_insert_sorted.
Qed.
End governance.
