(* ===== verification/GovTheorems.v ===== *)
(** What governance guarantees over any history of proposals, votes and executions:
    the parameters and the council stay within their limits, and nothing is carried
    out that was not proposed, approved and announced. *)

From S2P Require Import Prelude SortedVec Sorting Codec Primitives Crypto Store Records Params Alias Group GroupProofs Gov GovProofs.

Section governance.
Context {St : Type} {KV : KeyValueStore St} {KM : KVMap St}.
Implicit Types (m : gmap bytes bytes) (s : St).

(** * The limits *)

Lemma proposal_keys_frame m m' :
  (∀ id, key_proposal id ≠ key_params ∧ key_proposal id ≠ key_council) →
  swept m m' → m' !! key_params = m !! key_params ∧ m' !! key_council = m !! key_council.
Proof.
  intros Hne Hs. split; [destruct (Hs key_params) as [|[_ [id E]]]|destruct (Hs key_council) as [|[_ [id E]]]];
    try done; destruct (Hne id) as [H1 H2]; by symmetry in E.
Qed.

Lemma swept_limits m m' : swept m m' → gov_ok m → gov_ok m'.
Proof.
  intros Hs. apply gov_ok_frame; apply (proposal_keys_frame m m'); try done; intros id; split; ns_ne.
Qed.

Lemma index_limits m q : gov_ok m → gov_ok (<[key_proposal_index := encode ProposalQueue_codec q]> m).
Proof. apply gov_ok_frame; rewrite lookup_insert_ne; [done|ns_ne|done|ns_ne]. Qed.
Lemma proposal_limits m id p : gov_ok m → gov_ok (<[key_proposal id := encode GovProposal_codec p]> m).
Proof. apply gov_ok_frame; rewrite lookup_insert_ne; [done|ns_ne|done|ns_ne]. Qed.

Lemma remove_limits id s u s' : remove id s = (Ok u, s') → gov_ok (kv_map s) → gov_ok (kv_map s').
Proof. intros (q & E)%remove_Ok Hs. rewrite E. eapply index_limits, swept_limits; [apply swept_delete|done]. Qed.

(** * The operations *)

Ltac gov_inv :=
  repeat match goal with
  | H : require_council _ = (Ok _, _) |- _ => unfold require_council in H
  | H : require_proposal _ _ = (Ok _, _) |- _ => unfold require_proposal in H
  | H : gov_params _ = Ok _ |- _ => apply gov_params_Ok in H
  | H : gov_council _ = Ok _ |- _ => apply gov_council_Ok in H
  | H : gov_proposal _ _ = Ok _ |- _ => apply gov_proposal_Ok in H
  | H : gov_queue _ = Ok _ |- _ => apply gov_queue_Ok in H
  | _ => inv_M_step
  end.

Lemma precheck_state a s u s' : precheck a s = (Ok u, s') → s' = s.
Proof. destruct a; unfold precheck; intros H; by gov_inv. Qed.

Lemma gov_propose_Ok sender a now s id s' :
  gov_propose sender a now s = (Ok id, s') →
  ∃ m p,
    swept (kv_map s) m ∧ id = next_id (queue_at (kv_map s))
    ∧ (∃ q, kv_map s' = <[key_proposal id := encode GovProposal_codec p]>
                          (<[key_proposal_index := encode ProposalQueue_codec q]> m))
    ∧ prop_id p = id ∧ proposer p = sender ∧ action p = a ∧ opened p = now ∧ gov_votes p = [] ∧ scheduled_for p = None
    ∧ ∃ period, (0 ≤ period)%Z ∧ voting_ends p = saturating_add u64_max now period.
Proof.
  unfold gov_propose, put_queue_index, put_proposal. intros H. gov_inv.
  match goal with H : precheck _ _ = _ |- _ => apply precheck_state in H as -> end.
  match goal with H : sweep_lapsed _ _ = _ |- _ => apply sweep_lapsed_Ok in H as (Hn & m & Hm & E) end.
  exists m. eexists. split; [exact Hm|]. split; [done|]. unfold set_encoded. rewrite !kv_set_map, E. split.
  { eexists. rewrite insert_insert_eq. reflexivity. }
  repeat (split; [done|]). eexists. split; [|done].
  match goal with |- 0 ≤ voting_period_blocks (params_at ?m) => destruct (params_at_wf m) as (_ & _ & Hp & _) end.
  apply wf_u64 in Hp. lia.
Qed.

Lemma gov_vote_Ok sender id now s o s' :
  gov_vote sender id now s = (Ok o, s') →
  ∃ c p p',
    council_at (kv_map s) = Some c ∧ is_seated c sender = true ∧ proposal_at (kv_map s) id = Some p
    ∧ scheduled_for p = None ∧ now ≤ voting_ends p ∧ record_vote p sender = Some p' ∧
    ( (kv_map s' = <[key_proposal id := encode GovProposal_codec p']> (kv_map s))
    ∨ (∃ s1 target, remove target s = (Ok tt, s1) ∧ remove id s1 = (Ok tt, s'))
    ∨ (reached c (tally c (gov_votes p')) = true ∧ ∃ at_,
         at_ = saturating_add u64_max now (timelock_blocks (params_at (kv_map s)))
         ∧ kv_map s' = <[key_proposal id := encode GovProposal_codec (with_schedule (Some at_) p')]> (kv_map s))).
Proof.
  unfold gov_vote, put_proposal. intros H. gov_inv. bool_simpl.
  match goal with H : record_vote ?p _ = Some ?q |- _ => exists x, p, q end. rewrite <- eq_None_not_Some in *.
  repeat (split; [done|]).
  destruct (reached _ _) eqn:Hr; cbn [negb] in *.
  - destruct (action _) eqn:Ha; gov_inv; [right; right; split; [done|]; eexists; split; [done|];
      unfold set_encoded; by rewrite kv_set_map ..|].
    right. left. match goal with H : remove _ _ = (Ok ?u, _), H' : remove _ _ = (Ok ?v, _) |- _ => destruct u, v end.
    by do 2 eexists.
  - gov_inv. left. unfold set_encoded. by rewrite kv_set_map.
Qed.

Lemma gov_execute_Ok id now s a s' :
  gov_execute id now s = (Ok a, s') →
  ∃ p at_, proposal_at (kv_map s) id = Some p ∧ scheduled_for p = Some at_ ∧ at_ ≤ now ∧ a = action p
    ∧ remove id s = (Ok tt, s').
Proof.
  unfold gov_execute. intros H. gov_inv. bool_simpl.
  match goal with H : remove _ _ = (Ok ?u, _) |- _ => destruct u end. by do 2 eexists.
Qed.

(** * Histories *)

Definition event_ok (e : Height * gov_op) : Prop := wf u64_codec e.1 ∧ gov_op_ok e.2.

Lemma gov_run_snoc es e s : gov_run (es ++ [e]) s = gov_step (gov_run es s) e.
Proof. unfold gov_run. by rewrite foldl_app. Qed.

(** Whoever holds it, an action a proposal carries is one that can be stored. *)
Lemma proposal_action_wf m id p : proposal_at m id = Some p → wf Action_codec (action p).
Proof. intros [(_ & _ & ? & _) _]%proposal_at_wf. done. Qed.

Lemma enact_limits a s u s' :
  wf Action_codec a → enact a s = (Ok u, s') → gov_ok (kv_map s) → gov_ok (kv_map s').
Proof.
  intros Ha. destruct a; unfold enact; intros H Hs.
  - eapply set_council_ok; [|done..]. exact Ha.
  - eapply set_params_ok; [|done..]. exact Ha.
  - by inv_M_step. - by inv_M_step. - by inv_M_step. - by inv_M_step.
Qed.

Lemma gov_step_limits s e : gov_ok (kv_map s) → gov_ok (kv_map (gov_step s e)).
Proof.
  intros Hs. unfold gov_step. destruct e as [now op]. simpl. destruct (gov_exec op now s) as [[u|] s'] eqn:E; [|done].
  destruct op as [sender a|sender id|id]; unfold gov_exec in E; repeat inv_M_step.
  - match goal with H : gov_propose _ _ _ _ = _ |- _ =>
      apply gov_propose_Ok in H as (m & p & Hm & _ & (q & ->) & _) end.
    by eapply proposal_limits, index_limits, swept_limits.
  - match goal with H : gov_vote _ _ _ _ = _ |- _ =>
      apply gov_vote_Ok in H as (c & p & p' & _ & _ & _ & _ & _ & _ & Hc) end.
    destruct Hc as [->|[(s1 & t & H1 & H2)|(_ & at_ & _ & ->)]]; [by apply proposal_limits| |by apply proposal_limits].
    by eapply remove_limits, remove_limits.
  - match goal with H : gov_execute _ _ _ = _ |- _ => apply gov_execute_Ok in H as (p & at_ & Hp & _ & _ & -> & Hr) end.
    eapply enact_limits; [by eapply proposal_action_wf|done|]. by eapply remove_limits.
Qed.

Lemma gov_run_limits s es : gov_ok (kv_map s) → gov_ok (kv_map (gov_run es s)).
Proof.
  intros Hs. induction es as [|e es IH] using rev_ind; [done|]. rewrite gov_run_snoc. by apply gov_step_limits.
Qed.

(** What [install] puts in force. *)
Lemma install_Ok c p s u s' :
  wf Council_codec c → wf ChainParams_codec p → install c p s = (Ok u, s') →
  kv_map s' = <[key_council := encode Council_codec c]> (<[key_params := encode ChainParams_codec p]> (kv_map s))
  ∧ gov_ok (kv_map s') ∧ record_at ChainParams_codec (kv_map s') key_params = Some p ∧ council_at (kv_map s') = Some c.
Proof.
  intros Hc Hp H. unfold install, put_params, put_council in H. gov_inv.
  match goal with H : validate p = Ok ?u |- _ => destruct u; apply validate_Ok in H; rename H into Hpo end.
  match goal with H : check_concentration _ _ = Ok ?u |- _ => destruct u; rename H into Hcc end.
  pose proof (proj1 (check_concentration_iff _ _ (council_wf_ok _ Hc)) Hcc) as Hcap.
  unfold set_encoded. rewrite !kv_set_map. set (m := <[key_council := _]> _).
  assert (record_at ChainParams_codec m key_params = Some p) as Er.
  { subst m. erewrite record_at_ext; [by rewrite (record_at_insert ChainParams_codec (kv_map s)) by (apply _ || done)|].
    rewrite lookup_insert_ne; [done|ns_ne]. }
  assert (council_at m = Some c) as Ec by (subst m; unfold council_at; by rewrite record_at_insert by (apply _ || done)).
  split_and!; [done| |done|done]. assert (params_at m = p) as Ep by (unfold params_at; by rewrite Er).
  split; rewrite Ep; [done|]. intros c' Hc'. rewrite Ec in Hc'. by injection Hc' as <-.
Qed.

(** From the council and parameters a chain is launched with, whatever is proposed,
    voted and executed, and in whatever order, the parameters in force respect every
    compiled-in floor and no country ever holds more of the council than the cap
    those same parameters set, also when the cap and the council are changed
    independently of each other. *)
Theorem gov_limits c0 p0 s0 s es p :
  wf Council_codec c0 → wf ChainParams_codec p0 → install c0 p0 s0 = (Ok tt, s) →
  gov_params (gov_run es s) = Ok p →
  params_ok p
  ∧ ∀ c country, gov_council (gov_run es s) = Ok (Some c) →
      country_weight c country * 10000 ≤ max_council_country_share_bps p * total_weight c.
Proof.
  intros Hc Hp (_ & Hok & _)%install_Ok ->%gov_params_Ok; [|done..]. destruct (gov_run_limits s es Hok) as [H1 H2].
  split; [done|]. intros c country Hcc%gov_council_Ok. by apply H2.
Qed.

Section notice.
Variable s0 : St.

(** The vote that scheduled decision [id] for height [at_]: at that point the seats
    then in the council who had voted for it carried its threshold, and its execution
    was put off by the timelock then in force. *)
Definition decided (es : list (Height * gov_op)) (id : Z) (voters : list Address) (at_ : Height) : Prop :=
  ∃ es1 h v es2 c delay,
    es = es1 ++ (h, GovVote v id) :: es2
    ∧ council_at (kv_map (gov_run es1 s0)) = Some c
    ∧ total_weight c * threshold_bps c ≤ tally c voters * 10000
    ∧ MIN_TIMELOCK_BLOCKS ≤ delay ∧ at_ = saturating_add u64_max h delay.

(** What the history says of a proposal on the books. *)
Record backed (es : list (Height * gov_op)) (id : Z) (p : GovProposal) : Prop := {
  bk_proposed : ∃ h who, (h, GovPropose who (action p)) ∈ es;
  bk_votes v : v ∈ gov_votes p → ∃ h, (h, GovVote v id) ∈ es;
  bk_length : (length (gov_votes p) ≤ length es)%nat;
  bk_decided at_ : scheduled_for p = Some at_ → decided es id (gov_votes p) at_;
}.

Lemma backed_snoc es e id p : backed es id p → backed (es ++ [e]) id p.
Proof.
  intros [(h & who & H1) H2 H3 H4]. split.
  - exists h, who. apply elem_of_app. by left.
  - intros v (h' & Hv)%H2. exists h'. apply elem_of_app. by left.
  - rewrite length_app. lia.
  - intros at_ (es1 & h' & v & es2 & c & d & -> & ?)%H4. exists es1, h', v, (es2 ++ [e]), c, d.
    rewrite <- app_assoc. done.
Qed.

Definition all_backed es : Prop :=
  ∀ id p, wf u64_codec id → proposal_at (kv_map (gov_run es s0)) id = Some p → backed es id p.

Lemma new_proposal_wf p sender now period :
  wf u64_codec (prop_id p) → address_ok (proposer p) → wf Action_codec (action p) → wf u64_codec (opened p) →
  now = opened p → voting_ends p = saturating_add u64_max now period → 0 ≤ period →
  gov_votes p = [] → scheduled_for p = None → proposer p = sender → wf GovProposal_codec p.
Proof.
  intros Hi Hs Ha Ho -> He Hd Hv Hsc <-. split; [|unfold GovProposal_check; by rewrite Hv].
  refine (conj Hi (conj Hs (conj Ha (conj Ho (conj _ (conj _ _)))))).
  - cbn. rewrite He. apply wf_u64. apply wf_u64 in Ho. unfold saturating_add, u64_max in *. lia.
  - cbn. rewrite Hv. split; [unfold MAX_FIELD_LEN; simpl; lia|constructor].
  - cbn. by rewrite Hsc.
Qed.

Lemma propose_backed es sender a now s' id :
  all_backed es → event_ok (now, GovPropose sender a) →
  gov_propose sender a now (gov_run es s0) = (Ok id, s') →
  ∀ id' p, wf u64_codec id' → proposal_at (kv_map s') id' = Some p → backed (es ++ [(now, GovPropose sender a)]) id' p.
Proof.
  intros Hes (Hnow & Hsend & Ha) (m & p & Hm & Hid & (q & E) & Hpid & Hpr & Hact & Hop & Hv & Hsc & d & Hd & He)%gov_propose_Ok
    id' p' Hid' Hp'.
  rewrite E in Hp'. assert (wf u64_codec id) as Hidw by (rewrite Hid; apply (proposal_queue_wf _)).
  rewrite proposal_at_insert in Hp'; [|done|done|].
  2:{ simpl in Hnow. by apply (new_proposal_wf p sender now d); rewrite ?Hpid, ?Hpr, ?Hact, ?Hop. }
  case_decide as Eid.
  - injection Hp' as <-. split.
    + exists now, sender. rewrite Hact. apply elem_of_app. right. by left.
    + rewrite Hv. intros v []%not_elem_of_nil.
    + rewrite Hv. simpl. lia.
    + by rewrite Hsc.
  - rewrite proposal_at_index in Hp'. apply backed_snoc, Hes; [done|]. by eapply proposal_at_swept.
Qed.

Lemma votes_sorted p : wf GovProposal_codec p → NoDup (gov_votes p).
Proof.
  intros [_ Hg]. unfold GovProposal_check in Hg. destruct (is_sorted_by _ _) eqn:Es; [|done].
  apply (is_sorted_by_spec (λ a : Address, a)) in Es. by apply (strictly_sorted_NoDup (λ a : Address, a)).
Qed.

Lemma with_schedule_wf p at_ :
  wf GovProposal_codec p → wf u64_codec at_ → wf GovProposal_codec (with_schedule (Some at_) p).
Proof.
  intros [(? & ? & ? & ? & ? & ? & ?) ?] Ha. split; [|done].
  by refine (conj _ (conj _ (conj _ (conj _ (conj _ (conj _ _)))))).
Qed.

Lemma vote_backed es sender id now o s' :
  all_backed es → gov_ok (kv_map (gov_run es s0)) → event_ok (now, GovVote sender id) →
  Z.of_nat (S (length es)) ≤ MAX_FIELD_LEN →
  gov_vote sender id now (gov_run es s0) = (Ok o, s') →
  ∀ id' p, wf u64_codec id' → proposal_at (kv_map s') id' = Some p → backed (es ++ [(now, GovVote sender id)]) id' p.
Proof.
  intros Hes Hlim (Hnow & Hsend & Hid) Hlen (c & p & p' & Hc & _ & Hp & Hsc & _ & Hrv & Hcase)%gov_vote_Ok
    id' r Hid' Hr.
  destruct (record_vote_Some _ _ _ (proposal_at_wf _ _ _ Hp) Hrv) as (Ha & Hsc' & _ & Hin & Hl & Hwf).
  destruct (Hes _ _ Hid Hp) as [B1 B2 B3 _]. specialize (Hwf Hsend ltac:(lia)).
  assert (∀ r0, action r0 = action p' → gov_votes r0 = gov_votes p' →
    (∀ at_, scheduled_for r0 = Some at_ → decided (es ++ [(now, GovVote sender id)]) id (gov_votes r0) at_) →
    backed (es ++ [(now, GovVote sender id)]) id r0) as Hmk.
  { intros r0 Ea Ev Hd. split; [| | |done].
    - rewrite Ea, Ha. destruct B1 as (h & who & B1). exists h, who. apply elem_of_app. by left.
    - intros v. rewrite Ev, Hin. intros [->|(h & Hh)%B2]; [exists now|exists h]; apply elem_of_app; [right|by left].
      by left.
    - rewrite Ev, Hl, length_app. simpl. lia. }
  destruct Hcase as [E|[(s1 & t & H1 & H2)|(Hrea & at_ & Hat & E)]].
  - rewrite E, proposal_at_insert in Hr by done. case_decide; [|by apply backed_snoc, Hes].
    simplify_eq. apply Hmk; [done..|]. intros at_. congruence.
  - apply backed_snoc, Hes; [done|]. eapply remove_swept; [exact H1|]. by eapply remove_swept.
  - assert (MIN_TIMELOCK_BLOCKS ≤ timelock_blocks (params_at (kv_map (gov_run es s0)))) as Htl by apply Hlim.
    rewrite E, proposal_at_insert in Hr; [|done..|].
    2:{ apply with_schedule_wf; [done|]. rewrite Hat. apply wf_u64. apply wf_u64 in Hnow. simpl in Hnow.
        unfold saturating_add, u64_max, MIN_TIMELOCK_BLOCKS in *. lia. }
    case_decide; [|by apply backed_snoc, Hes]. simplify_eq. apply Hmk; [done..|]. simpl. intros ? [= <-].
    pose proof (council_at_ok _ _ Hc) as Hok.
    exists es, now, sender, [], c, (timelock_blocks (params_at (kv_map (gov_run es s0)))). repeat (split; [done|]).
    split; [|done]. apply reached_iff; [done| |done].
    pose proof (tally_le c _ Hok (votes_sorted _ Hwf)). pose proof (total_weight_bounds c Hok). lia.
Qed.

Lemma enact_proposals a s u s' id :
  enact a s = (Ok u, s') → proposal_at (kv_map s') id = proposal_at (kv_map s) id.
Proof.
  destruct a; unfold enact, set_council, set_params, put_council, put_params; intros H; gov_inv; try done.
  - unfold set_encoded, proposal_at. rewrite kv_set_map. apply record_at_ext. rewrite lookup_insert_ne; [done|ns_ne].
  - match goal with H : match council_at _ with _ => _ end ?s0 = (Ok _, ?s1) |- _ =>
      assert (s1 = s0) as -> by (destruct (council_at (kv_map s0)); by gov_inv) end.
    unfold set_encoded, proposal_at. rewrite kv_set_map. apply record_at_ext. rewrite lookup_insert_ne; [done|ns_ne].
Qed.

Lemma all_backed_step es e :
  gov_ok (kv_map (gov_run es s0)) → event_ok e → Z.of_nat (S (length es)) ≤ MAX_FIELD_LEN →
  all_backed es → all_backed (es ++ [e]).
Proof.
  intros Hlim He Hlen Hes id p Hid Hp. rewrite gov_run_snoc in Hp. unfold gov_step in Hp. destruct e as [now op]. simpl in Hp.
  destruct (gov_exec op now (gov_run es s0)) as [[u|] s'] eqn:E; [|by apply backed_snoc, Hes].
  destruct op as [sender a|sender i|i]; unfold gov_exec in E; repeat inv_M_step.
  - by eapply propose_backed.
  - by eapply vote_backed.
  - match goal with H : gov_execute _ _ _ = _ |- _ => apply gov_execute_Ok in H as (p' & at_ & _ & _ & _ & -> & Hr) end.
    match goal with H : enact _ _ = _ |- _ => erewrite enact_proposals in Hp by exact H end.
    apply backed_snoc, Hes; [done|]. by eapply remove_swept.
Qed.

Lemma history_backed es :
  gov_ok (kv_map s0) → (∀ id, proposal_at (kv_map s0) id = None) →
  Forall event_ok es → Z.of_nat (length es) ≤ MAX_FIELD_LEN → all_backed es.
Proof.
  intros Hs Hnone. induction es as [|e es IH] using rev_ind; intros Hok Hlen.
  { intros id p _. change (gov_run [] s0) with s0. by rewrite Hnone. }
  rewrite length_app in Hlen. simpl in Hlen. apply Forall_app in Hok as [Hok [He _]%Forall_cons].
  apply all_backed_step; [|done|lia|apply IH; [done|lia]].
  by apply gov_run_limits.
Qed.

(** C23: Nothing is carried out by surprise.  If a decision is executed after some
    history of a chain that began with none on the books, then its action was
    proposed, and at some earlier height [h] a set of distinct voters, each of whom
    had voted for it, carried the threshold of the council as it then stood; and the
    execution comes at least the compiled-in timelock after that height. *)
Theorem executed_was_announced es id now a s' :
  gov_ok (kv_map s0) → (∀ i, proposal_at (kv_map s0) i = None) →
  Forall event_ok es → Z.of_nat (length es) ≤ MAX_FIELD_LEN → wf u64_codec id → now < u64_max →
  gov_execute id now (gov_run es s0) = (Ok a, s') →
  (∃ h who, (h, GovPropose who a) ∈ es)
  ∧ ∃ es1 h v es2 c voters,
      es = es1 ++ (h, GovVote v id) :: es2
      ∧ council_at (kv_map (gov_run es1 s0)) = Some c
      ∧ NoDup voters ∧ (∀ w, w ∈ voters → ∃ h', (h', GovVote w id) ∈ es)
      ∧ total_weight c * threshold_bps c ≤ tally c voters * 10000
      ∧ h + MIN_TIMELOCK_BLOCKS ≤ now.
Proof.
  intros Hs Hnone Hok Hlen Hid Hnow (p & at_ & Hp & Hsc & Hat & -> & _)%gov_execute_Ok.
  destruct (history_backed es Hs Hnone Hok Hlen id p Hid Hp) as [B1 B2 _ B4]. split; [done|].
  destruct (B4 _ Hsc) as (es1 & h & v & es2 & c & d & E & Hc & Ht & Hd & Ha).
  exists es1, h, v, es2, c, (gov_votes p). repeat (split; [done|]). split; [eapply votes_sorted, proposal_at_wf; done|].
  repeat (split; [done|]). unfold saturating_add in Ha. lia.
Qed.
End notice.
End governance.
