(* ===== verification/Tx.v ===== *)
(** Transactions ([crates/types/src/tx.rs]): messages, the signed body, signatures
    and their canonical form, the stateless checks and the wire format.

    Signing keys belong to [ed25519_dalek]: they are the parameter [Signing], of
    which only the documented behaviour of [SigningKey] is assumed. *)

From S2P Require Import Prelude SortedVec Sorting Codec Primitives Crypto Params Group GroupProofs GroupTheorems Account Votes Alias AliasProofs Gov.

Definition MAX_MEMO_LEN : Z := 256.
Definition MAX_MESSAGES : Z := 64.
Definition MAX_SIGNATURES : Z := MAX_SIGNERS.

(** [TxError::Crypto] is never built by the code modelled here. *)
Inductive TxError :=
| TxInvalidSignature
| SignatureCount (n : Z)
| UnsortedSignatures
| SponsorSignatureMismatch
| SelfSponsored
| TxWrongChain (signed expected : ChainId)
| TxExpired (valid_until current : Z)
| MessageCount (n : Z)
| MemoTooLong
| TxZeroAmount
| ZeroFee.

#[export] Instance TxError_eq_dec : EqDecision TxError.
Proof. solve_decision. Defined.

(** * Fees *)

Record Fee := { fee_amount : Amount; fee_denom : Denom; payer : option Address }.

Definition Fee_new (amount : Amount) (denom : Denom) : Fee :=
  {| fee_amount := amount; fee_denom := denom; payer := None |}.
Definition Fee_sponsored_by (amount : Amount) (denom : Denom) (p : Address) : Fee :=
  {| fee_amount := amount; fee_denom := denom; payer := Some p |}.
Definition payer_or (f : Fee) (sender : Address) : Address := default sender (payer f).
Definition is_sponsored (f : Fee) : bool := bool_decide (is_Some (payer f)).

(** * Messages *)

Inductive Message :=
| MsgTransfer (to : Address) (denom : Denom) (amount : Amount) (reference : option PaymentReference)
| MsgCreateGroup (name : bytes) (members : list FoundingMember) (contribution : Contribution) (policy : PayoutPolicy) (quorum : Quorum)
| MsgContributeToGroup (group : Address) (amount : Amount)
| MsgGroupPayout (group : Address)
| MsgRegisterName (name : Username)
| MsgRenewName (name : Username)
| MsgTransferName (name : Username) (to : Address)
| MsgSetPrimaryAlias (name : Username)
| MsgAttestContact (commitment : ContactCommitment) (address : Address)
| MsgRequestRebind (commitment : ContactCommitment) (new_address : Address)
| MsgVetoRebind (commitment : ContactCommitment)
| MsgRevokeContact (commitment : ContactCommitment)
| MsgClearPrimaryAlias
| MsgReleaseName (name : Username)
| MsgBond (public_key : PublicKey) (country : CountryCode) (amount : Amount)
| MsgAddStake (amount : Amount)
| MsgUnbond (amount : Amount)
| MsgWithdrawUnbonded
| MsgReportEquivocation (evidence : Equivocation)
| MsgSetAccountFlag (flag : AccountFlag) (enabled : bool)
| MsgSetRegularKey (key : option PublicKey)
| MsgSetSignerList (list_ : option SignerList)
| MsgApplyRebind (commitment : ContactCommitment)
| MsgBuyShares (group : Address) (shares : Z)
| MsgPaySocialFund (group : Address)
| MsgProposeGroupAction (group : Address) (beneficiary : Address) (kind : ProposalKind)
| MsgApproveGroupAction (group : Address)
| MsgRepayLoan (group : Address) (amount : Amount)
| MsgCloseCycle (group : Address)
| MsgShareOut (group : Address)
| MsgMint (denom : Denom) (to : Address) (amount : Amount)
| MsgBurn (denom : Denom) (amount : Amount)
| MsgSetMinterAllowance (denom : Denom) (minter : Address) (allowance : Amount)
| MsgSetIssuerPaused (denom : Denom) (paused : bool)
| MsgSetSupplyCap (denom : Denom) (cap : Amount)
| MsgSetFreezer (denom : Denom) (freezer : option Address)
| MsgSetFrozen (denom : Denom) (account : Address) (frozen : bool)
| MsgTransferIssuerAuthority (denom : Denom) (to : option Address)
| MsgAcceptIssuerAuthority (denom : Denom)
| MsgProposeGovAction (action : Action)
| MsgVoteGovAction (proposal : Z)
| MsgExecuteGovAction (proposal : Z).

(** * Bodies *)

Record TxBody := {
  tx_chain_id : ChainId;
  tx_sender : Address;
  tx_nonce : Z;
  valid_until : Height;
  fee : Fee;
  messages : list Message;
  memo : bytes;
}.

(** One turn of [validate_basic]'s loop. *)
Definition validate_message (msg : Message) : result TxError unit :=
  let nonzero (a : Amount) := if Amount_is_zero a then Err TxZeroAmount else Ok tt in
  match msg with
  | MsgTransfer _ _ amount _ | MsgContributeToGroup _ amount | MsgRepayLoan _ amount
  | MsgMint _ _ amount | MsgBurn _ amount | MsgBond _ _ amount | MsgAddStake amount | MsgUnbond amount =>
      nonzero amount
  | MsgBuyShares _ shares => if shares =? 0 then Err TxZeroAmount else Ok tt
  | MsgProposeGroupAction _ _ kind =>
      match kind with
      | KLoan principal _ => nonzero principal
      | KSocialGrant amount => nonzero amount
      end
  | _ => Ok tt
  end.

Fixpoint validate_messages (l : list Message) : result TxError unit :=
  match l with
  | [] => Ok tt
  | msg :: l => _ ← validate_message msg; validate_messages l
  end.

Definition validate_basic (b : TxBody) : result TxError unit :=
  if bool_decide (messages b = []) || (MAX_MESSAGES <? Z.of_nat (length (messages b)))
  then Err (MessageCount (Z.of_nat (length (messages b))))
  else if MAX_MEMO_LEN <? Z.of_nat (length (memo b)) then Err MemoTooLong
  else if bool_decide (payer (fee b) = Some (tx_sender b)) then Err SelfSponsored
  else if Amount_is_zero (fee_amount (fee b)) then Err ZeroFee
  else validate_messages (messages b).

(** * Transactions *)

Record TxSignature := { ts_public_key : PublicKey; ts_signature : Signature }.
Record Transaction := {
  body : TxBody;
  signatures : list TxSignature;
  sponsor_signatures : list TxSignature;
}.

(** The addresses one message names. *)
Definition message_addresses (msg : Message) : list Address :=
  match msg with
  | MsgTransfer to _ _ _ => [to]
  | MsgContributeToGroup group _ | MsgGroupPayout group | MsgBuyShares group _ | MsgPaySocialFund group
  | MsgRepayLoan group _ | MsgCloseCycle group | MsgShareOut group => [group]
  | MsgProposeGroupAction group beneficiary kind =>
      [group; beneficiary] ++ match kind with KLoan _ guarantors => guarantors | KSocialGrant _ => [] end
  | MsgApproveGroupAction group => [group]
  | MsgCreateGroup _ members _ _ _ => fm_address <$> members
  | MsgTransferName _ to => [to]
  | MsgMint _ to _ => [to]
  | MsgSetFrozen _ account _ => [account]
  | MsgSetMinterAllowance _ minter _ => [minter]
  | MsgSetFreezer _ freezer => option_list freezer
  | MsgAttestContact _ address => [address]
  | MsgRequestRebind _ new_address => [new_address]
  | MsgApplyRebind _ => []
  | MsgReportEquivocation evidence => [eq_validator evidence]
  | MsgTransferIssuerAuthority _ to => option_list to
  | MsgProposeGovAction action =>
      match action with
      | LicenseAttestor address _ | SetAttestorActive address _ => [address]
      | AdmitDenom _ authority => [authority]
      | SetCouncil council => holder <$> seats council
      | SetParams _ | Cancel _ => []
      end
  | MsgRegisterName _ | MsgRenewName _ | MsgSetPrimaryAlias _ | MsgClearPrimaryAlias | MsgReleaseName _
  | MsgVetoRebind _ | MsgRevokeContact _ | MsgSetAccountFlag _ _ | MsgSetRegularKey _ | MsgSetSignerList _
  | MsgBurn _ _ | MsgSetIssuerPaused _ _ | MsgSetSupplyCap _ _ | MsgBond _ _ _ | MsgAddStake _ | MsgUnbond _
  | MsgAcceptIssuerAuthority _ | MsgVoteGovAction _ | MsgExecuteGovAction _ | MsgWithdrawUnbonded => []
  end.

Definition touched_addresses (tx : Transaction) : list Address :=
  sort_dedup (tx_sender (body tx) :: concat (message_addresses <$> messages (body tx))).

Definition signing_keys (tx : Transaction) : list PublicKey := ts_public_key <$> signatures tx.
Definition sponsor_keys (tx : Transaction) : list PublicKey := ts_public_key <$> sponsor_signatures tx.

(** [windows(2).all(..)] over the keys' bytes. *)
Definition signatures_sorted (l : list TxSignature) : bool :=
  is_sorted_by (λ x y, bytes_ltb (ts_public_key x) (ts_public_key y)) l.

(** * Wire format *)

Definition Fee_codec : codec Fee :=
  iso_codec (λ '(a, (d, p)), {| fee_amount := a; fee_denom := d; payer := p |})
    (λ f, (fee_amount f, (fee_denom f, payer f)))
    (Amount_codec ⊗ Denom_codec ⊗ option_codec Address_codec).
#[export] Instance Fee_lawful : Lawful Fee_codec.
Proof. unfold Fee_codec. struct_lawful. Qed.
Arguments Fee_codec : simpl never.

Definition Message_tag (msg : Message) : Z :=
  match msg with
   | MsgTransfer _ _ _ _ => 0 | MsgCreateGroup _ _ _ _ _ => 1 | MsgContributeToGroup _ _ => 2
   | MsgGroupPayout _ => 3 | MsgRegisterName _ => 4 | MsgRenewName _ => 5 | MsgTransferName _ _ => 6
   | MsgSetPrimaryAlias _ => 7 | MsgAttestContact _ _ => 8 | MsgRequestRebind _ _ => 9 | MsgVetoRebind _ => 10
   | MsgRevokeContact _ => 11 | MsgClearPrimaryAlias => 12 | MsgReleaseName _ => 13 | MsgBond _ _ _ => 14
   | MsgAddStake _ => 15 | MsgUnbond _ => 16 | MsgWithdrawUnbonded => 17 | MsgReportEquivocation _ => 18
   | MsgSetAccountFlag _ _ => 19 | MsgSetRegularKey _ => 20 | MsgSetSignerList _ => 21
   | MsgApplyRebind _ => 22 | MsgBuyShares _ _ => 23 | MsgPaySocialFund _ => 24
   | MsgProposeGroupAction _ _ _ => 25 | MsgApproveGroupAction _ => 26 | MsgRepayLoan _ _ => 27
   | MsgCloseCycle _ => 28 | MsgShareOut _ => 29 | MsgMint _ _ _ => 30 | MsgBurn _ _ => 31
   | MsgSetMinterAllowance _ _ _ => 32 | MsgSetIssuerPaused _ _ => 33 | MsgSetSupplyCap _ _ => 34
   | MsgSetFreezer _ _ => 35 | MsgSetFrozen _ _ _ => 36 | MsgTransferIssuerAuthority _ _ => 37
   | MsgAcceptIssuerAuthority _ => 38 | MsgProposeGovAction _ => 39 | MsgVoteGovAction _ => 40
   | MsgExecuteGovAction _ => 41
  end.

Section transactions.
Context {Hs : Hasher} {Sg : Signer} {Un : Unicode}.

Definition Message_payload (t : Z) : option (codec Message) :=
  match t with
  | 0 => Some (variant_codec (λ '(x, (y, (z, u))), MsgTransfer x y z u)
              (λ m, match m with MsgTransfer x y z u => Some (x, (y, (z, u))) | _ => None end) (Address_codec ⊗ Denom_codec ⊗ Amount_codec ⊗ option_codec PaymentReference_codec))
  | 1 => Some (variant_codec (λ '(x, (y, (z, (u, v)))), MsgCreateGroup x y z u v)
              (λ m, match m with MsgCreateGroup x y z u v => Some (x, (y, (z, (u, v)))) | _ => None end) (string_codec ⊗ vec_codec FoundingMember_codec ⊗ Contribution_codec ⊗ PayoutPolicy_codec ⊗ Quorum_codec))
  | 2 => Some (variant_codec (λ '(x, y), MsgContributeToGroup x y)
              (λ m, match m with MsgContributeToGroup x y => Some (x, y) | _ => None end) (Address_codec ⊗ Amount_codec))
  | 3 => Some (variant_codec MsgGroupPayout
              (λ m, match m with MsgGroupPayout x => Some x | _ => None end) Address_codec)
  | 4 => Some (variant_codec MsgRegisterName
              (λ m, match m with MsgRegisterName x => Some x | _ => None end) Username_codec)
  | 5 => Some (variant_codec MsgRenewName
              (λ m, match m with MsgRenewName x => Some x | _ => None end) Username_codec)
  | 6 => Some (variant_codec (λ '(x, y), MsgTransferName x y)
              (λ m, match m with MsgTransferName x y => Some (x, y) | _ => None end) (Username_codec ⊗ Address_codec))
  | 7 => Some (variant_codec MsgSetPrimaryAlias
              (λ m, match m with MsgSetPrimaryAlias x => Some x | _ => None end) Username_codec)
  | 8 => Some (variant_codec (λ '(x, y), MsgAttestContact x y)
              (λ m, match m with MsgAttestContact x y => Some (x, y) | _ => None end) (ContactCommitment_codec ⊗ Address_codec))
  | 9 => Some (variant_codec (λ '(x, y), MsgRequestRebind x y)
              (λ m, match m with MsgRequestRebind x y => Some (x, y) | _ => None end) (ContactCommitment_codec ⊗ Address_codec))
  | 10 => Some (variant_codec MsgVetoRebind
              (λ m, match m with MsgVetoRebind x => Some x | _ => None end) ContactCommitment_codec)
  | 11 => Some (variant_codec MsgRevokeContact
              (λ m, match m with MsgRevokeContact x => Some x | _ => None end) ContactCommitment_codec)
  | 12 => Some (unit_codec MsgClearPrimaryAlias)
  | 13 => Some (variant_codec MsgReleaseName
              (λ m, match m with MsgReleaseName x => Some x | _ => None end) Username_codec)
  | 14 => Some (variant_codec (λ '(x, (y, z)), MsgBond x y z)
              (λ m, match m with MsgBond x y z => Some (x, (y, z)) | _ => None end) (PublicKey_codec ⊗ CountryCode_codec ⊗ Amount_codec))
  | 15 => Some (variant_codec MsgAddStake
              (λ m, match m with MsgAddStake x => Some x | _ => None end) Amount_codec)
  | 16 => Some (variant_codec MsgUnbond
              (λ m, match m with MsgUnbond x => Some x | _ => None end) Amount_codec)
  | 17 => Some (unit_codec MsgWithdrawUnbonded)
  | 18 => Some (variant_codec MsgReportEquivocation
              (λ m, match m with MsgReportEquivocation x => Some x | _ => None end) Equivocation_codec)
  | 19 => Some (variant_codec (λ '(x, y), MsgSetAccountFlag x y)
              (λ m, match m with MsgSetAccountFlag x y => Some (x, y) | _ => None end) (AccountFlag_codec ⊗ bool_codec))
  | 20 => Some (variant_codec MsgSetRegularKey
              (λ m, match m with MsgSetRegularKey x => Some x | _ => None end) (option_codec PublicKey_codec))
  | 21 => Some (variant_codec MsgSetSignerList
              (λ m, match m with MsgSetSignerList x => Some x | _ => None end) (option_codec SignerList_codec))
  | 22 => Some (variant_codec MsgApplyRebind
              (λ m, match m with MsgApplyRebind x => Some x | _ => None end) ContactCommitment_codec)
  | 23 => Some (variant_codec (λ '(x, y), MsgBuyShares x y)
              (λ m, match m with MsgBuyShares x y => Some (x, y) | _ => None end) (Address_codec ⊗ u32_codec))
  | 24 => Some (variant_codec MsgPaySocialFund
              (λ m, match m with MsgPaySocialFund x => Some x | _ => None end) Address_codec)
  | 25 => Some (variant_codec (λ '(x, (y, z)), MsgProposeGroupAction x y z)
              (λ m, match m with MsgProposeGroupAction x y z => Some (x, (y, z)) | _ => None end) (Address_codec ⊗ Address_codec ⊗ ProposalKind_codec))
  | 26 => Some (variant_codec MsgApproveGroupAction
              (λ m, match m with MsgApproveGroupAction x => Some x | _ => None end) Address_codec)
  | 27 => Some (variant_codec (λ '(x, y), MsgRepayLoan x y)
              (λ m, match m with MsgRepayLoan x y => Some (x, y) | _ => None end) (Address_codec ⊗ Amount_codec))
  | 28 => Some (variant_codec MsgCloseCycle
              (λ m, match m with MsgCloseCycle x => Some x | _ => None end) Address_codec)
  | 29 => Some (variant_codec MsgShareOut
              (λ m, match m with MsgShareOut x => Some x | _ => None end) Address_codec)
  | 30 => Some (variant_codec (λ '(x, (y, z)), MsgMint x y z)
              (λ m, match m with MsgMint x y z => Some (x, (y, z)) | _ => None end) (Denom_codec ⊗ Address_codec ⊗ Amount_codec))
  | 31 => Some (variant_codec (λ '(x, y), MsgBurn x y)
              (λ m, match m with MsgBurn x y => Some (x, y) | _ => None end) (Denom_codec ⊗ Amount_codec))
  | 32 => Some (variant_codec (λ '(x, (y, z)), MsgSetMinterAllowance x y z)
              (λ m, match m with MsgSetMinterAllowance x y z => Some (x, (y, z)) | _ => None end) (Denom_codec ⊗ Address_codec ⊗ Amount_codec))
  | 33 => Some (variant_codec (λ '(x, y), MsgSetIssuerPaused x y)
              (λ m, match m with MsgSetIssuerPaused x y => Some (x, y) | _ => None end) (Denom_codec ⊗ bool_codec))
  | 34 => Some (variant_codec (λ '(x, y), MsgSetSupplyCap x y)
              (λ m, match m with MsgSetSupplyCap x y => Some (x, y) | _ => None end) (Denom_codec ⊗ Amount_codec))
  | 35 => Some (variant_codec (λ '(x, y), MsgSetFreezer x y)
              (λ m, match m with MsgSetFreezer x y => Some (x, y) | _ => None end) (Denom_codec ⊗ option_codec Address_codec))
  | 36 => Some (variant_codec (λ '(x, (y, z)), MsgSetFrozen x y z)
              (λ m, match m with MsgSetFrozen x y z => Some (x, (y, z)) | _ => None end) (Denom_codec ⊗ Address_codec ⊗ bool_codec))
  | 37 => Some (variant_codec (λ '(x, y), MsgTransferIssuerAuthority x y)
              (λ m, match m with MsgTransferIssuerAuthority x y => Some (x, y) | _ => None end) (Denom_codec ⊗ option_codec Address_codec))
  | 38 => Some (variant_codec MsgAcceptIssuerAuthority
              (λ m, match m with MsgAcceptIssuerAuthority x => Some x | _ => None end) Denom_codec)
  | 39 => Some (variant_codec MsgProposeGovAction
              (λ m, match m with MsgProposeGovAction x => Some x | _ => None end) Action_codec)
  | 40 => Some (variant_codec MsgVoteGovAction
              (λ m, match m with MsgVoteGovAction x => Some x | _ => None end) u64_codec)
  | 41 => Some (variant_codec MsgExecuteGovAction
              (λ m, match m with MsgExecuteGovAction x => Some x | _ => None end) u64_codec)
  | _ => None
  end.
Definition Message_codec : codec Message := tag_codec "Message" Message_tag Message_payload.

Definition TxBody_codec : codec TxBody :=
  iso_codec
    (λ '(c, (s, (n, (v, (f, (ms, me)))))),
       {| tx_chain_id := c; tx_sender := s; tx_nonce := n; valid_until := v; fee := f; messages := ms; memo := me |})
    (λ b, (tx_chain_id b, (tx_sender b, (tx_nonce b, (valid_until b, (fee b, (messages b, memo b)))))))
    (ChainId_codec ⊗ Address_codec ⊗ u64_codec ⊗ Height_codec ⊗ Fee_codec ⊗ vec_codec Message_codec ⊗ string_codec).

Definition TxSignature_codec : codec TxSignature :=
  iso_codec (λ '(k, s), {| ts_public_key := k; ts_signature := s |}) (λ t, (ts_public_key t, ts_signature t))
    (PublicKey_codec ⊗ Signature_codec).

(** The text of the two count errors is diagnostic only. *)
Definition Transaction_check (tx : Transaction) : result CodecError unit :=
  if bool_decide (signatures tx = []) || (MAX_SIGNATURES <? Z.of_nat (length (signatures tx)))
  then Err (CodecInvalid "a transaction must carry 1..=32 signatures")
  else if MAX_SIGNATURES <? Z.of_nat (length (sponsor_signatures tx))
  then Err (CodecInvalid "a transaction may carry at most 32 sponsor signatures")
  else if negb (signatures_sorted (signatures tx)) || negb (signatures_sorted (sponsor_signatures tx))
  then Err (CodecInvalid "transaction signatures must be sorted by public key and unique")
  else Ok tt.
Definition Transaction_codec : codec Transaction :=
  guard_codec Transaction_check
    (iso_codec (λ '(b, (s, p)), {| body := b; signatures := s; sponsor_signatures := p |})
       (λ t, (body t, (signatures t, sponsor_signatures t)))
       (TxBody_codec ⊗ vec_codec TxSignature_codec ⊗ vec_codec TxSignature_codec)).

#[export] Instance Message_lawful : Lawful Message_codec.
Proof. apply tag_lawful; [intros []; simpl; lia|unfold Message_payload; tag_cases]. Qed.
#[export] Instance TxBody_lawful : Lawful TxBody_codec.
Proof. unfold TxBody_codec. struct_lawful. Qed.
#[export] Instance TxSignature_lawful : Lawful TxSignature_codec.
Proof. unfold TxSignature_codec. struct_lawful. Qed.
#[export] Instance Transaction_lawful : Lawful Transaction_codec.
Proof. apply guard_lawful. struct_lawful. Qed.

(** * Identity and stateless checks *)

Definition sign_doc (b : TxBody) : bytes := encode TxBody_codec b.
Definition tx_id (tx : Transaction) : Hash32 := hash DTxId (encode Transaction_codec tx).
Definition Transaction_from_bytes (b : bytes) : result CodecError Transaction := decode_exact Transaction_codec b.

(** The inner loop of [check_signatures] over one list. *)
Fixpoint verify_entries (doc : bytes) (l : list TxSignature) : result TxError unit :=
  match l with
  | [] => Ok tt
  | e :: l =>
      if PublicKey_verify (ts_public_key e) DTxSignDoc doc (ts_signature e)
      then verify_entries doc l else Err TxInvalidSignature
  end.

Definition check_list (doc : bytes) (l : list TxSignature) : result TxError unit :=
  if negb (signatures_sorted l) then Err UnsortedSignatures else verify_entries doc l.

Definition check_signatures (tx : Transaction) : result TxError unit :=
  if bool_decide (signatures tx = []) || (MAX_SIGNATURES <? Z.of_nat (length (signatures tx)))
  then Err (SignatureCount (Z.of_nat (length (signatures tx))))
  else if MAX_SIGNATURES <? Z.of_nat (length (sponsor_signatures tx))
  then Err (SignatureCount (Z.of_nat (length (sponsor_signatures tx))))
  else if Bool.eqb (is_sponsored (fee (body tx))) (bool_decide (sponsor_signatures tx = []))
  then Err SponsorSignatureMismatch
  else
    let doc := sign_doc (body tx) in
    _ ← check_list doc (signatures tx);
    check_list doc (sponsor_signatures tx).

Definition verify_stateless (tx : Transaction) (chain : ChainId) (current_height : Height) : result TxError unit :=
  _ ← validate_basic (body tx);
  if negb (bool_decide (tx_chain_id (body tx) = chain)) then Err (TxWrongChain (tx_chain_id (body tx)) chain)
  else if valid_until (body tx) <? current_height then Err (TxExpired (valid_until (body tx)) current_height)
  else check_signatures tx.
End transactions.

Arguments Message_codec : simpl never.
Arguments TxBody_codec : simpl never.
Arguments TxSignature_codec : simpl never.
Arguments Transaction_codec : simpl never.

(** * Signing *)

(** [ed25519_dalek::SigningKey]: the key it verifies under, and its signatures, which
    are 64 bytes and verify strictly under that key. *)
Class Signing `{Signer} := {
  SecretKey : Type;
  verifying_key : SecretKey → bytes;
  raw_sign : SecretKey → bytes → bytes;
  verifying_key_ok sk : length (verifying_key sk) = 32%nat ∧ is_point (verifying_key sk) = true;
  raw_sign_len sk m : length (raw_sign sk m) = 64%nat;
  raw_sign_verifies sk m : verify_strict (verifying_key sk) m (raw_sign sk m) = true;
}.

(** [Vec::dedup_by] on a key: of neighbours with one key the first stays. *)
Fixpoint dedup_by_key {A} (key : A → bytes) (l : list A) : list A :=
  match l with
  | [] => []
  | x :: l' =>
      match dedup_by_key key l' with
      | y :: l'' => if bool_decide (key x = key y) then x :: l'' else x :: y :: l''
      | [] => [x]
      end
  end.

Section signing.
Context {Hs : Hasher} {Sg : Signer} {Un : Unicode} {Sk : Signing}.

(** [SecretKey::sign]. *)
Definition SecretKey_sign (sk : SecretKey) (d : Domain) (message : bytes) : Signature :=
  raw_sign sk (hash d message).

Definition canonical_signatures (doc : bytes) (keys : list SecretKey) : list TxSignature :=
  let entry sk := {| ts_public_key := verifying_key sk; ts_signature := SecretKey_sign sk DTxSignDoc doc |} in
  dedup_by_key ts_public_key (sort_by_key ts_public_key (entry <$> keys)).

Definition sign_with (b : TxBody) (keys : list SecretKey) : Transaction :=
  {| body := b; signatures := canonical_signatures (sign_doc b) keys; sponsor_signatures := [] |}.
Definition sign (b : TxBody) (key : SecretKey) : Transaction := sign_with b [key].
Definition sign_sponsored (b : TxBody) (sender sponsor : list SecretKey) : Transaction :=
  let tx := sign_with b sender in
  {| body := body tx; signatures := signatures tx; sponsor_signatures := canonical_signatures (sign_doc b) sponsor |}.
End signing.
