(* ===== verification/TxProofs.v ===== *)
(** Signing and checking transactions: what a wallet signs is what the chain accepts. *)

From S2P Require Import Prelude SortedVec Sorting Codec Primitives Crypto Store Group Account Validators Votes.
From S2P Require Import Params Alias Gov Tx.

(** * [dedup_by_key] of a sorted list *)

Section dedup.
Context {A : Type} (key : A → bytes).
Implicit Types (l : list A).

Lemma dedup_by_key_subset x l : x ∈ dedup_by_key key l → x ∈ l.
Proof.
  induction l as [|y l IH]; cbn [dedup_by_key]; [done|]. revert IH. destruct (dedup_by_key key l) as [|z l'].
  - set_solver.
  - case_bool_decide; set_solver.
Qed.

(** The first of a run stays, and its key stands for them all. *)
Lemma dedup_by_key_head x l : ∃ l', dedup_by_key key (x :: l) = x :: l'.
Proof. cbn [dedup_by_key]. destruct (dedup_by_key key l); [by eexists|]. case_bool_decide; by eexists. Qed.

Lemma dedup_by_key_keys k l : k ∈ key <$> dedup_by_key key l ↔ k ∈ key <$> l.
Proof.
  induction l as [|y l IH]; [done|]. rewrite fmap_cons, elem_of_cons, <- IH. cbn [dedup_by_key].
  destruct (dedup_by_key key l) as [|z l']; [set_solver|]. case_bool_decide as E; rewrite !fmap_cons, ?elem_of_cons; [rewrite E|]; naive_solver.
Qed.

Lemma dedup_by_key_sorted l : StronglySorted (key_le key) l → StronglySorted (key_lt key) (dedup_by_key key l).
Proof.
  induction 1 as [|x l Hl IH Hx]; [constructor|]. cbn [dedup_by_key].
  assert (∀ y, y ∈ dedup_by_key key l → key_le key x y) as Hle.
  { intros y Hy%dedup_by_key_subset. rewrite Forall_forall in Hx. by apply Hx. }
  destruct (dedup_by_key key l) as [|z l']; [by repeat constructor|]. pose proof IH as [Hz Hl']%StronglySorted_cons.
  case_bool_decide as E.
  - constructor; [done|]. eapply Forall_impl; [exact Hz|]. intros y. unfold key_lt. by rewrite E.
  - assert (key_lt key x z) as Hxz.
    { destruct (bytes_lt_total (key x) (key z)) as [|[|Hlt]]; [done..|]. exfalso. by apply (Hle z); [left|]. }
    constructor; [done|]. constructor; [done|]. eapply Forall_impl; [exact Hz|]. intros y. by apply key_lt_trans.
Qed.

Lemma dedup_by_key_length l : (length (dedup_by_key key l) ≤ length l)%nat.
Proof.
  induction l as [|x l IH]; cbn [dedup_by_key]; [done|]. destruct (dedup_by_key key l); simpl in *; [lia|].
  case_bool_decide; simpl; lia.
Qed.
End dedup.

(** * Signatures *)

Section signing.
Context {Hs : Hasher} {Sg : Signer} {Un : Unicode} {Sk : Signing}.

Lemma verify_entries_all doc l :
  Forall (λ e, PublicKey_verify (ts_public_key e) DTxSignDoc doc (ts_signature e) = true) l → verify_entries doc l = Ok tt.
Proof. induction 1 as [|e l He _ IH]; [done|]. cbn [verify_entries]. by rewrite He. Qed.

(** What [canonical_signatures] returns: one verifying entry per distinct key, in order. *)
Lemma canonical_signatures_ok doc keys :
  let l := canonical_signatures doc keys in
  signatures_sorted l = true ∧ check_list doc l = Ok tt ∧ Forall (wf TxSignature_codec) l
  ∧ (length l ≤ length keys)%nat ∧ (l = [] ↔ keys = [])
  ∧ ∀ k, k ∈ ts_public_key <$> l ↔ ∃ sk, sk ∈ keys ∧ k = verifying_key sk.
Proof.
  intros l. set (entry sk := {| ts_public_key := verifying_key sk; ts_signature := SecretKey_sign sk DTxSignDoc doc |}).
  assert (∀ e, e ∈ l → ∃ sk, sk ∈ keys ∧ e = entry sk) as Hin.
  { intros e He%dedup_by_key_subset. rewrite sort_by_key_perm in He. apply list_elem_of_fmap in He as (sk & -> & ?). eauto. }
  assert (signatures_sorted l = true) as Hsorted by (apply is_sorted_by_spec, dedup_by_key_sorted, sort_by_key_sorted).
  assert (∀ k, k ∈ ts_public_key <$> l ↔ ∃ sk, sk ∈ keys ∧ k = verifying_key sk) as Hk.
  { intros k. unfold l, canonical_signatures. rewrite dedup_by_key_keys, sort_by_key_perm, <- list_fmap_compose.
    rewrite list_elem_of_fmap. simpl. naive_solver. }
  split_and!; [done| | | | |done].
  - unfold check_list. rewrite Hsorted. apply verify_entries_all, Forall_forall. intros e (sk & _ & ->)%Hin. apply raw_sign_verifies.
  - apply Forall_forall. intros e (sk & _ & ->)%Hin. split; [apply verifying_key_ok|apply raw_sign_len].
  - unfold l, canonical_signatures. etrans; [apply dedup_by_key_length|]. by rewrite (Permutation_length (sort_by_key_perm _ _)), length_fmap.
  - split; [|by intros ->]. intros E. rewrite E in Hk. destruct keys as [|sk keys]; [done|].
    exfalso. assert (verifying_key sk ∈ ts_public_key <$> []) as Hx by (apply Hk; exists sk; split; [by left|done]). set_solver.
Qed.

(** C36: Signing and checking agree.  A body that passes the basic checks, signed by one to
    32 sender keys and, exactly when it names another fee payer, by one to 32 sponsor
    keys, whatever their order and repeats, is a transaction every node accepts on its
    chain until it expires, that survives the wire unchanged, and that carries the
    sender's and the sponsor's keys and no others. *)
Theorem signed_is_accepted b sender sponsor h :
  wf TxBody_codec b → validate_basic b = Ok tt → h ≤ valid_until b →
  sender ≠ [] → Z.of_nat (length sender) ≤ MAX_SIGNATURES → Z.of_nat (length sponsor) ≤ MAX_SIGNATURES →
  (payer (fee b) = None ↔ sponsor = []) →
  let tx := sign_sponsored b sender sponsor in
  verify_stateless tx (tx_chain_id b) h = Ok tt
  ∧ Transaction_from_bytes (encode Transaction_codec tx) = Ok tx
  ∧ (∀ k, k ∈ signing_keys tx ↔ ∃ sk, sk ∈ sender ∧ k = verifying_key sk)
  ∧ (∀ k, k ∈ sponsor_keys tx ↔ ∃ sk, sk ∈ sponsor ∧ k = verifying_key sk).
Proof.
  intros Hw Hv Hh Hne Hl1 Hl2 Hsp tx.
  destruct (canonical_signatures_ok (sign_doc b) sender) as (S1 & C1 & W1 & L1 & N1 & K1).
  destruct (canonical_signatures_ok (sign_doc b) sponsor) as (S2 & C2 & W2 & L2 & N2 & K2).
  assert (canonical_signatures (sign_doc b) sender ≠ []) as Hne' by (by rewrite N1).
  assert (Bool.eqb (is_sponsored (fee b)) (bool_decide (canonical_signatures (sign_doc b) sponsor = [])) = false) as Hm.
  { unfold is_sponsored. destruct (payer (fee b)) as [p|] eqn:E.
    - rewrite (bool_decide_eq_false_2 (_ = [])); [done|]. rewrite N2. intros Hx%Hsp. congruence.
    - rewrite (bool_decide_eq_true_2 (_ = [])); [done|]. by apply N2, Hsp. }
  assert (MAX_SIGNATURES <? Z.of_nat (length (canonical_signatures (sign_doc b) sender)) = false) as M1 by (apply Z.ltb_ge; lia).
  assert (MAX_SIGNATURES <? Z.of_nat (length (canonical_signatures (sign_doc b) sponsor)) = false) as M2 by (apply Z.ltb_ge; lia).
  split_and!; [| |exact K1|exact K2].
  - unfold verify_stateless. change (body tx) with b. rewrite Hv. cbn [mbind result_bind].
    rewrite bool_decide_eq_true_2 by done. rewrite (proj2 (Z.ltb_ge _ _) Hh). cbn [negb].
    unfold check_signatures, tx. cbn [signatures sponsor_signatures body sign_sponsored sign_with].
    rewrite bool_decide_eq_false_2, M1, M2, Hm by done. cbn [orb]. by rewrite C1.
  - apply (decode_exact_encode Transaction_codec). split.
    + unfold MAX_SIGNATURES, MAX_SIGNERS in *. split; [exact Hw|]. split; (split; [|done]); cbn; unfold MAX_FIELD_LEN; lia.
    + unfold Transaction_check. cbn [fst snd]. unfold tx. cbn [signatures sponsor_signatures sign_sponsored sign_with].
      rewrite bool_decide_eq_false_2, M1, M2, S1, S2 by done. done.
Qed.
End signing.
