(* ===== verification/Staking.v ===== *)
(** Staking: bonds, the unbonding queue, slashing and the active set
    ([crates/staking/src/bond.rs], [set.rs], [lib.rs]), and the executor's
    handling of reported equivocations ([crates/executor/src/lib.rs]). *)

From S2P Require Import Prelude SortedVec Sorting Codec Primitives Crypto Store Issuer Bank Validators Votes Params.

(** * [bond.rs] *)

Record Bond := {
  operator : Address;
  b_public_key : PublicKey;
  b_country : CountryCode;
  bonded : Amount;
  jailed : bool;
  jailed_at : option Height;
}.

#[export] Instance Bond_eq_dec : EqDecision Bond.
Proof. solve_decision. Defined.

Definition Bond_new (op : Address) (pk : PublicKey) (c : CountryCode) (x : Amount) : Bond :=
  {| operator := op; b_public_key := pk; b_country := c; bonded := x; jailed := false; jailed_at := None |}.

Record Unbonding := {
  u_amount : Amount;
  started_at : Height;
  completes_at : Timestamp;
}.

Definition covers (u : Unbonding) (h : Height) : bool := h <? started_at u.
Definition matured (u : Unbonding) (now : Timestamp) : bool := completes_at u <=? now.

Definition set_bonded (b : Bond) (x : Amount) : Bond :=
  {| operator := operator b; b_public_key := b_public_key b; b_country := b_country b; bonded := x;
     jailed := jailed b; jailed_at := jailed_at b |}.
Definition set_jailed (b : Bond) (j : bool) (at_ : option Height) : Bond :=
  {| operator := operator b; b_public_key := b_public_key b; b_country := b_country b; bonded := bonded b;
     jailed := j; jailed_at := at_ |}.
Definition set_amount (u : Unbonding) (x : Amount) : Unbonding :=
  {| u_amount := x; started_at := started_at u; completes_at := completes_at u |}.

Section wire.
Context `{Signer}.

Definition Bond_codec : codec Bond := {|
  encode := λ b,
    encode Address_codec (operator b) ++ encode PublicKey_codec (b_public_key b)
    ++ encode CountryCode_codec (b_country b) ++ encode Amount_codec (bonded b)
    ++ encode bool_codec (jailed b) ++ encode (option_codec Height_codec) (jailed_at b);
  decode := λ r,
    '(op, r) ← decode Address_codec r;
    '(pk, r) ← decode PublicKey_codec r;
    '(c, r) ← decode CountryCode_codec r;
    '(x, r) ← decode Amount_codec r;
    '(j, r) ← decode bool_codec r;
    '(ja, r) ← decode (option_codec Height_codec) r;
    Ok ({| operator := op; b_public_key := pk; b_country := c; bonded := x; jailed := j; jailed_at := ja |}, r);
  wf := λ b,
    wf Address_codec (operator b) ∧ wf PublicKey_codec (b_public_key b) ∧ wf CountryCode_codec (b_country b)
    ∧ wf Amount_codec (bonded b) ∧ wf (option_codec Height_codec) (jailed_at b);
|}.

#[export] Instance Bond_lawful : Lawful Bond_codec.
Proof.
  split; unfold Bond_codec; cbn [encode decode wf].
  - intros [op pk c x j ja] rest (?&?&?&?&?).
    cbn [operator b_public_key b_country bonded jailed jailed_at] in *. codec_complete. done.
  - intros b x rest Hd. codec_sound. cbn [operator b_public_key b_country bonded jailed jailed_at].
    by rewrite <- !app_assoc.
Qed.
End wire.
Arguments Bond_codec {_} : simpl never.

Definition Unbonding_codec : codec Unbonding := {|
  encode := λ u,
    encode Amount_codec (u_amount u) ++ encode Height_codec (started_at u)
    ++ encode Timestamp_codec (completes_at u);
  decode := λ r,
    '(x, r) ← decode Amount_codec r;
    '(h, r) ← decode Height_codec r;
    '(t, r) ← decode Timestamp_codec r;
    Ok ({| u_amount := x; started_at := h; completes_at := t |}, r);
  wf := λ u, wf Amount_codec (u_amount u) ∧ wf Height_codec (started_at u) ∧ wf Timestamp_codec (completes_at u);
|}.
Arguments Unbonding_codec : simpl never.

#[export] Instance Unbonding_lawful : Lawful Unbonding_codec.
Proof.
  split; unfold Unbonding_codec; cbn [encode decode wf].
  - intros [x h t] rest (?&?&?). cbn [u_amount started_at completes_at] in *. codec_complete. done.
  - intros b x rest Hd. codec_sound. cbn [u_amount started_at completes_at]. by rewrite <- !app_assoc.
Qed.

(** * [set.rs] *)

Inductive StakingError :=
| BelowMinimumBond (got min : bytes)
| NoSuchBond
| AlreadyBonded
| InsufficientBond (requested bonded : bytes)
| TooManyUnbondingEntries
| CandidateSetFull
| NothingMatured
| NoEligibleValidators
| NotEquivocation
| AlreadyJailed
| SZeroAmount
| SBank (e : BankError)
| SState (e : StateError).

#[export] Instance StakingError_eq_dec : EqDecision StakingError.
Proof. solve_decision. Defined.

Definition power_of (x : Amount) : Z :=
  let whole := x / SENTE_PER_AFRI in if whole <=? u64_max then whole else u64_max.

(** [sort_by]: a stable sort by a strict order. *)
Fixpoint insert_by {A} (lt : A → A → bool) (x : A) (l : list A) : list A :=
  match l with
  | [] => [x]
  | y :: l' => if lt y x then y :: insert_by lt x l' else x :: l
  end.
Definition sort_by {A} (lt : A → A → bool) (l : list A) : list A := foldr (insert_by lt) [] l.

(** Larger power first, then smaller operator address. *)
Definition bond_before (a b : Bond) : bool :=
  (power_of (bonded b) <? power_of (bonded a))
  || ((power_of (bonded a) =? power_of (bonded b)) && bytes_ltb (operator a) (operator b)).

(** One pass of [cap_concentration]: the capped powers, and whether anything changed. *)
Definition cap_pass (max_bps : Z) (powers : list Z) : option (list Z) :=
  let total := list_sum (λ p, p) powers in
  if total =? 0 then None
  else
    let ceiling := saturating_mul u128_max total max_bps / 10000 in
    let ceiling := Z.max (if ceiling <=? u64_max then ceiling else u64_max) 1 in
    if existsb (λ p, ceiling <? p) powers
    then Some ((λ p, if ceiling <? p then ceiling else p) <$> powers)
    else None.

Fixpoint cap_loop (passes : nat) (max_bps : Z) (powers : list Z) : list Z :=
  match passes with
  | O => powers
  | S passes =>
      match cap_pass max_bps powers with
      | None => powers
      | Some powers' => cap_loop passes max_bps powers'
      end
  end.

Definition cap_concentration (powers : list Z) (max_bps : Z) : list Z :=
  if (max_bps =? 0) || (10000 <=? max_bps) then powers else cap_loop (length powers) max_bps powers.

(** The bonds that may sign, strongest first. *)
Definition eligible (bonds : list Bond) (params : StakingParams) : list Bond :=
  take (Z.to_nat (max_validators params))
    (sort_by bond_before (List.filter (λ b, negb (jailed b) && (min_bond params <=? bonded b)) bonds)).

Section staking.
Context `{Hasher, Signer}.

Definition active_set_of (bonds : list Bond) (params : StakingParams) : result StakingError ValidatorSet :=
  let el := eligible bonds params in
  let powers := (λ b, Z.max (power_of (bonded b)) 1) <$> el in
  if bool_decide (powers = []) then Err NoEligibleValidators
  else
    let powers := cap_concentration powers (p_max_single_share_bps params) in
    let vs := zip_with (λ b p, Validator_new (b_public_key b) p (b_country b)) el powers in
    map_err (λ _, NoEligibleValidators) (ValidatorSet_new vs).

(** * [lib.rs] *)

Definition SLASH_EQUIVOCATION_BPS : Z := 500.

Definition staking_account : Address := Address_derived DModuleAddress (bs "staking").

Definition fraction (x : Amount) (bps : Z) : Amount := saturating_mul u128_max x bps / 10000.

Definition proves_equivocation (e : Equivocation) (set : ValidatorSet) : bool :=
  let a := vote (eq_first e) in
  let b := vote (eq_second e) in
  if negb (bool_decide (validator a = eq_validator e)) || negb (bool_decide (validator b = eq_validator e))
  then false
  else
    match vs_get set (eq_validator e) with
    | None => false
    | Some v =>
        if negb (height a =? height b) || negb (round a =? round b)
           || negb (bool_decide (vote_type a = vote_type b)) then false
        else if bool_decide (block_id a = block_id b) then false
        else signature_ok (v_public_key v) (eq_first e) && signature_ok (v_public_key v) (eq_second e)
    end.

(** ** Over a store *)

Context `{KeyValueStore St} (params : StakingParams).

(** [get] and [decode_exact] with the module's own error. *)
Definition read_record {A} (c : codec A) (key : StoreKey) (s : St) : result StakingError (option A) :=
  match kv_get s key with
  | None => Ok None
  | Some b => Some <$> map_err (λ e, SState (Corrupt (bs "bond") e)) (decode_exact c b)
  end.

Definition bond_of (op : Address) (s : St) : result StakingError (option Bond) :=
  read_record Bond_codec (key_bond op) s.
Definition unbonding_of (op : Address) (s : St) : result StakingError (list Unbonding) :=
  o ← read_record (vec_codec Unbonding_codec) (key_unbonding op) s; Ok (default [] o).
Definition candidates (s : St) : result StakingError (list Address) :=
  o ← read_record (vec_codec Address_codec) key_bond_index s; Ok (default [] o).

Fixpoint collect_bonds (ops : list Address) (s : St) : result StakingError (list Bond) :=
  match ops with
  | [] => Ok []
  | op :: ops =>
      o ← bond_of op s;
      rest ← collect_bonds ops s;
      Ok (match o with Some b => b :: rest | None => rest end)
  end.
Definition bonds (s : St) : result StakingError (list Bond) := ops ← candidates s; collect_bonds ops s.

Definition active_set (s : St) : result StakingError ValidatorSet := bs ← bonds s; active_set_of bs params.

Definition write_bond (b : Bond) : M St StakingError unit :=
  writes (λ s, kv_set s (key_bond (operator b)) (encode Bond_codec b)).
Definition write_queue (op : Address) (q : list Unbonding) : M St StakingError unit :=
  writes (λ s, match q with
               | [] => (kv_delete s (key_unbonding op)).1
               | _ => kv_set s (key_unbonding op) (encode (vec_codec Unbonding_codec) q)
               end).
Definition write_index (ix : list Address) : M St StakingError unit :=
  writes (λ s, kv_set s key_bond_index (encode (vec_codec Address_codec) ix)).

(** [self.bond_of(operator)?.ok_or(StakingError::NoSuchBond)?]. *)
Definition require_bond (op : Address) : M St StakingError Bond :=
  let! o := reads (bond_of op) in
  lift (ok_or NoSuchBond o).

(** [sort_unstable] on addresses. *)
Definition sort_addresses (l : list Address) : list Address := sort_by_key (λ a, a) l.

Definition bond (op : Address) (pk : PublicKey) (country : CountryCode) (amount : Amount)
  : M St StakingError unit :=
  do! fail_if (Amount_is_zero amount) SZeroAmount in
  do! fail_if (amount <? min_bond params)
        (BelowMinimumBond (Amount_to_decimal amount) (Amount_to_decimal (min_bond params))) in
  let! existing := reads (bond_of op) in
  do! fail_if (bool_decide (is_Some existing)) AlreadyBonded in
  let! index := reads candidates in
  do! fail_if (max_candidates params <=? Z.of_nat (length index)) CandidateSetFull in
  do! wrap_err SBank (transfer op staking_account Denom_native amount) in
  do! write_bond (Bond_new op pk country amount) in
  write_index (sort_addresses (index ++ [op])).

Definition add_stake (op : Address) (amount : Amount) : M St StakingError unit :=
  do! fail_if (Amount_is_zero amount) SZeroAmount in
  let! b := require_bond op in
  do! wrap_err SBank (transfer op staking_account Denom_native amount) in
  let! total := lift (map_err (λ _, SZeroAmount) (Amount_checked_add (bonded b) amount)) in
  write_bond (set_bonded b total).

Definition unbond (op : Address) (amount : Amount) (h : Height) (now : Timestamp) : M St StakingError unit :=
  do! fail_if (Amount_is_zero amount) SZeroAmount in
  let! b := require_bond op in
  do! fail_if (bonded b <? amount)
        (InsufficientBond (Amount_to_decimal amount) (Amount_to_decimal (bonded b))) in
  let! queue := reads (unbonding_of op) in
  do! fail_if (max_unbonding_entries params <=? Z.of_nat (length queue)) TooManyUnbondingEntries in
  let! left_ := lift (map_err (λ _, SZeroAmount) (Amount_checked_sub (bonded b) amount)) in
  do! write_bond (set_bonded b left_) in
  write_queue op
    (queue ++ [{| u_amount := amount; started_at := h;
                  completes_at := saturating_add u64_max now (unbonding_ms params) |}]).

(** The running [checked_add] of the matured entries. *)
Fixpoint sum_entries (acc : Amount) (l : list Unbonding) : result StakingError Amount :=
  match l with
  | [] => Ok acc
  | e :: l =>
      acc ← map_err (λ _, SZeroAmount) (Amount_checked_add acc (u_amount e));
      sum_entries acc l
  end.

Definition withdraw (op : Address) (now : Timestamp) : M St StakingError Amount :=
  let! queue := reads (unbonding_of op) in
  let mature := List.filter (λ e, matured e now) queue in
  let pending := List.filter (λ e, negb (matured e now)) queue in
  do! fail_if (bool_decide (mature = [])) NothingMatured in
  let! total := lift (sum_entries 0 mature) in
  do! write_queue op pending in
  do! (if negb (Amount_is_zero total)
       then wrap_err SBank (transfer staking_account op Denom_native total)
       else ret tt) in
  ret total.

(** The loop over the queue: the reduced entries and what was taken from them. *)
Fixpoint slash_entries (infraction : Height) (taken : Amount) (l : list Unbonding)
  : result StakingError (list Unbonding * Amount) :=
  match l with
  | [] => Ok ([], taken)
  | e :: l =>
      if negb (covers e infraction) then
        '(l', t) ← slash_entries infraction taken l;
        Ok (e :: l', t)
      else
        let take := fraction (u_amount e) SLASH_EQUIVOCATION_BPS in
        rest ← map_err (λ _, SZeroAmount) (Amount_checked_sub (u_amount e) take);
        taken ← map_err (λ _, SZeroAmount) (Amount_checked_add taken take);
        '(l', t) ← slash_entries infraction taken l;
        Ok (set_amount e rest :: l', t)
  end.

Definition slash (op : Address) (infraction_height now_height : Height) : M St StakingError Amount :=
  let! b := require_bond op in
  do! fail_if (jailed b) AlreadyJailed in
  let from_bond := fraction (bonded b) SLASH_EQUIVOCATION_BPS in
  let! queue := reads (unbonding_of op) in
  let! qt := lift (slash_entries infraction_height 0 queue) in
  let! total := lift (map_err (λ _, SZeroAmount) (Amount_checked_add from_bond qt.2)) in
  let! left_ := lift (map_err (λ _, SZeroAmount) (Amount_checked_sub (bonded b) from_bond)) in
  do! write_bond (set_jailed (set_bonded b left_) true (Some now_height)) in
  do! write_queue op qt.1 in
  do! (if negb (Amount_is_zero total)
       then wrap_err SBank (slash_native staking_account total)
       else ret tt) in
  ret total.

Definition slash_equivocation (e : Equivocation) (set : ValidatorSet) (h : Height) : M St StakingError Amount :=
  do! fail_if (negb (proves_equivocation e set)) NotEquivocation in
  slash (eq_validator e) (height (vote (eq_first e))) h.

Definition unjail (op : Address) : M St StakingError unit :=
  let! b := require_bond op in
  write_bond (set_jailed b false None).

(** The executor's [Message::ReportEquivocation]: the evidence is judged against the
    set derived from the bonds as they stand now, [params] being those governance
    has in force. *)
Definition report_equivocation (e : Equivocation) (h : Height) : M St StakingError Amount :=
  let! set := reads active_set in
  slash_equivocation e set h.
End staking.
