(* ===== verification/StakingProofs.v ===== *)
(** The staking invariant and each operation against it: the module account covers every
    bond and every queued withdrawal, what each call makes of its operator's
    records, and that a refused call has written nothing ([crates/staking/src/lib.rs]). *)

From S2P Require Import Prelude SortedVec Sorting Codec Primitives Crypto Store Records Issuer Bank BankProofs BankTheorems Validators Votes Params Staking.

Implicit Types (m : gmap bytes bytes) (k : bytes).

(** * Reading the module's records *)

Section read_record.
Context {A : Type} (c : codec A) `{!Lawful c} `{KVMap St}.
Implicit Types (s : St).

Lemma read_record_Ok k s o : read_record c k s = Ok o → o = record_at c (kv_map s) k.
Proof.
  unfold read_record, record_at. rewrite kv_get_map. destruct (kv_map s !! k) as [b|]; [|by intros [= <-]].
  destruct (decode_exact c b); simpl; by intros [= <-].
Qed.

Lemma read_record_readable k s :
  readable c (kv_map s) k → read_record c k s = Ok (record_at c (kv_map s) k).
Proof.
  unfold read_record, record_at. rewrite kv_get_map. intros Hr.
  destruct (kv_map s !! k) as [b|] eqn:E; [|done]. specialize (Hr b E).
  by destruct (decode_exact c b).
Qed.
End read_record.

(** Sums over maps that writes outside the weight's support leave alone. *)
Section weights.
Context (w : bytes → bytes → Z) (ns : Namespace) (parts : list bytes).
Context (Hw : ∀ v, w (StoreKey_new ns parts) v = 0).

Lemma entry_weight_zero m : entry_weight w m (StoreKey_new ns parts) = 0.
Proof using Hw. unfold entry_weight. destruct (m !! _); simpl; [apply Hw|done]. Qed.
Lemma map_sum_insert_zero m v : map_sum w (<[StoreKey_new ns parts := v]> m) = map_sum w m.
Proof using Hw. rewrite map_sum_insert, entry_weight_zero, Hw. lia. Qed.
Lemma map_sum_delete_zero m : map_sum w (delete (StoreKey_new ns parts) m) = map_sum w m.
Proof using Hw. rewrite map_sum_delete, entry_weight_zero. lia. Qed.
Lemma map_sum_put_zero m x : map_sum w (put_amount (StoreKey_new ns parts) x m) = map_sum w m.
Proof using Hw. unfold put_amount. case_match; [apply map_sum_delete_zero|apply map_sum_insert_zero]. Qed.
End weights.

(** * Everything staked *)

Section staked.
Context `{Signer}.

Definition bond_at m (op : Address) : option Bond := record_at Bond_codec m (key_bond op).
Definition queue_at m (op : Address) : list Unbonding :=
  default [] (record_at (vec_codec Unbonding_codec) m (key_unbonding op)).
Definition queue_sum (q : list Unbonding) : Z := list_sum u_amount q.

(** What one store entry commits the module account to: a bond, or a queue of
    withdrawals. *)
Definition stake_weight k (v : bytes) : Z :=
  match k with
  | [] => 0
  | b :: _ =>
      if bool_decide (b = byte_of (Namespace_byte NsValidator)) then
        match decode_exact Bond_codec v with Ok x => bonded x | Err _ => 0 end
      else if bool_decide (b = byte_of (Namespace_byte NsUnbonding)) then
        match decode_exact (vec_codec Unbonding_codec) v with Ok q => queue_sum q | Err _ => 0 end
      else 0
  end.

(** The sum of every bond and every queued withdrawal. *)
Definition staked m : Z := map_sum stake_weight m.

Definition put_queue (op : Address) (q : list Unbonding) m : gmap bytes bytes :=
  match q with
  | [] => delete (key_unbonding op) m
  | _ => <[key_unbonding op := encode (vec_codec Unbonding_codec) q]> m
  end.

Lemma stake_weight_other ns parts v :
  ns ≠ NsValidator → ns ≠ NsUnbonding → stake_weight (StoreKey_new ns parts) v = 0.
Proof.
  intros H1 H2. unfold stake_weight, StoreKey_new.
  rewrite !bool_decide_eq_false_2; [done|by intros ?%Namespace_byte_of_inj..].
Qed.

Lemma bond_wf_amount b : wf Bond_codec b → amount_ok (bonded b).
Proof. intros (_ & _ & _ & Hx & _). by apply amount_ok_wf. Qed.

Lemma queue_wf_amounts q : wf (vec_codec Unbonding_codec) q → Forall (λ e, amount_ok (u_amount e)) q.
Proof. intros [_ Hq]. eapply Forall_impl; [done|]. intros e (Hx & _). by apply amount_ok_wf. Qed.

Lemma queue_sum_nonneg q : Forall (λ e, amount_ok (u_amount e)) q → 0 ≤ queue_sum q.
Proof. intros Hq. apply list_sum_nonneg. eapply Forall_impl; [done|]. by intros e [? _]. Qed.

Lemma stake_weight_nonneg k v : 0 ≤ stake_weight k v.
Proof.
  unfold stake_weight. destruct k as [|b k]; [done|]. case_bool_decide.
  - destruct (decode_exact Bond_codec v) eqn:E; [|done].
    apply decode_exact_sound in E as [Hw%bond_wf_amount _]; [|apply _]. by destruct Hw.
  - case_bool_decide; [|done]. destruct (decode_exact _ v) eqn:E; [|done].
    apply decode_exact_sound in E as [Hw%queue_wf_amounts _]; [|apply _]. by apply queue_sum_nonneg.
Qed.

Lemma entry_weight_bond m op : entry_weight stake_weight m (key_bond op) = from_option bonded 0 (bond_at m op).
Proof.
  unfold entry_weight, bond_at, record_at. destruct (m !! key_bond op) as [v|]; [|done]. simpl.
  by destruct (decode_exact Bond_codec v).
Qed.

Lemma entry_weight_queue m op : entry_weight stake_weight m (key_unbonding op) = queue_sum (queue_at m op).
Proof.
  unfold entry_weight, queue_at, record_at. destruct (m !! key_unbonding op) as [v|]; [|done].
  cbn [from_option]. unfold stake_weight, key_unbonding, StoreKey_new. rewrite bool_decide_eq_false_2 by done.
  rewrite bool_decide_eq_true_2 by done. by destruct (decode_exact (vec_codec Unbonding_codec) v).
Qed.

Lemma staked_insert_bond m op b :
  wf Bond_codec b →
  staked (<[key_bond op := encode Bond_codec b]> m) = staked m - from_option bonded 0 (bond_at m op) + bonded b.
Proof.
  intros Hb. unfold staked. rewrite map_sum_insert, entry_weight_bond. f_equal.
  unfold stake_weight, key_bond, StoreKey_new. rewrite bool_decide_eq_true_2 by done.
  by rewrite decode_exact_encode by (done || apply _).
Qed.

Lemma staked_put_queue m op q :
  wf (vec_codec Unbonding_codec) q →
  staked (put_queue op q m) = staked m - queue_sum (queue_at m op) + queue_sum q.
Proof.
  intros Hq. unfold staked, put_queue. destruct q as [|e q].
  - rewrite map_sum_delete, entry_weight_queue. simpl. lia.
  - rewrite map_sum_insert, entry_weight_queue. f_equal.
    unfold stake_weight, key_unbonding, StoreKey_new. rewrite bool_decide_eq_false_2 by done.
    rewrite bool_decide_eq_true_2 by done. by rewrite decode_exact_encode by (done || apply _).
Qed.

(** One operator's bond and queue are part of the total. *)
Lemma bond_queue_le_staked m op :
  from_option bonded 0 (bond_at m op) + queue_sum (queue_at m op) ≤ staked m.
Proof.
  rewrite <- entry_weight_bond, <- entry_weight_queue. apply entry_weight_pair_le_sum; [ns_ne|].
  intros. apply stake_weight_nonneg.
Qed.

Lemma key_bond_inj a b : address_ok a → address_ok b → key_bond a = key_bond b → a = b.
Proof.
  intros Ha%address_ok_part Hb%address_ok_part E. apply StoreKey_new_inj in E as [_ [= E]];
    [done|by repeat constructor..].
Qed.
Lemma key_unbonding_inj a b : address_ok a → address_ok b → key_unbonding a = key_unbonding b → a = b.
Proof.
  intros Ha%address_ok_part Hb%address_ok_part E. apply StoreKey_new_inj in E as [_ [= E]];
    [done|by repeat constructor..].
Qed.

Lemma lookup_put_queue_ne op q m k : k ≠ key_unbonding op → put_queue op q m !! k = m !! k.
Proof. intros Hk. unfold put_queue. destruct q; [by rewrite lookup_delete_ne|by rewrite lookup_insert_ne]. Qed.

Lemma queue_at_put m op q op' :
  wf (vec_codec Unbonding_codec) q → address_ok op → address_ok op' →
  queue_at (put_queue op q m) op' = if decide (op = op') then q else queue_at m op'.
Proof.
  intros Hq Ha Hb. unfold queue_at. case_decide as E.
  - subst. unfold put_queue. destruct q as [|e q].
    + unfold record_at. by rewrite lookup_delete_eq.
    + by rewrite record_at_insert by (done || apply _).
  - f_equal. apply record_at_ext. apply lookup_put_queue_ne. intros E'. apply E. symmetry. by apply key_unbonding_inj.
Qed.

Lemma bond_at_insert m op b op' :
  wf Bond_codec b → address_ok op → address_ok op' →
  bond_at (<[key_bond op := encode Bond_codec b]> m) op' = if decide (op = op') then Some b else bond_at m op'.
Proof.
  intros Hq Ha Hb. unfold bond_at. case_decide as E.
  - subst. by rewrite record_at_insert by (done || apply _).
  - apply record_at_ext. rewrite lookup_insert_ne; [done|]. intros E'. apply E. by apply key_bond_inj.
Qed.

Lemma bond_at_ext m m' op : m' !! key_bond op = m !! key_bond op → bond_at m' op = bond_at m op.
Proof. apply record_at_ext. Qed.
Lemma queue_at_ext m m' op : m' !! key_unbonding op = m !! key_unbonding op → queue_at m' op = queue_at m op.
Proof. intros E. unfold queue_at. f_equal. by apply record_at_ext. Qed.
End staked.

(** * The invariant *)

Section invariant.
Context `{Hasher, Signer, KVMap St}.
Implicit Types (s : St).

Record staking_ok s : Prop := {
  so_bank : bank_ok s;
  so_native a : address_ok a → is_frozen s a Denom_native = false;
  so_bonds op : address_ok op → readable Bond_codec (kv_map s) (key_bond op);
  so_operator op b : address_ok op → bond_at (kv_map s) op = Some b → operator b = op;
  so_queues op : address_ok op → readable (vec_codec Unbonding_codec) (kv_map s) (key_unbonding op);
  so_index : readable (vec_codec Address_codec) (kv_map s) key_bond_index;
  so_solvent : staked (kv_map s) ≤ ledger_balance s staking_account Denom_native;
}.

Lemma staking_account_ok : address_ok staking_account.
Proof. apply Address_derived_ok. Qed.

Lemma staking_ok_empty s : kv_map s = ∅ → staking_ok s.
Proof.
  intros E. split.
  - by apply bank_ok_empty.
  - intros a Ha. unfold is_frozen. by rewrite kv_get_map, E.
  - intros op _ b. by rewrite E.
  - intros op b _. unfold bond_at, record_at. by rewrite E.
  - intros op _ b. by rewrite E.
  - intros b. by rewrite E.
  - rewrite E. unfold staked. by rewrite map_sum_empty.
Qed.

Lemma is_frozen_ext s s' a d :
  kv_map s' !! key_frozen d a = kv_map s !! key_frozen d a → is_frozen s' a d = is_frozen s a d.
Proof. intros E. unfold is_frozen. by rewrite !kv_get_map, E. Qed.

(** ** Reading under the invariant *)

Lemma bond_of_ok s op : staking_ok s → address_ok op → bond_of op s = Ok (bond_at (kv_map s) op).
Proof. intros Hok Ha. apply read_record_readable. by apply so_bonds. Qed.

Lemma unbonding_of_ok s op : staking_ok s → address_ok op → unbonding_of op s = Ok (queue_at (kv_map s) op).
Proof.
  intros Hok Ha. unfold unbonding_of. by rewrite (read_record_readable _ _ s (so_queues s Hok op Ha)).
Qed.

Lemma bond_at_wf s op b : bond_at (kv_map s) op = Some b → wf Bond_codec b.
Proof. intros Hb. by apply record_at_Some in Hb as [? _]; [|apply _]. Qed.

Lemma queue_at_wf s op : wf (vec_codec Unbonding_codec) (queue_at (kv_map s) op).
Proof.
  unfold queue_at. destruct (record_at _ _ _) as [q|] eqn:E; simpl.
  - by apply record_at_Some in E as [? _]; [|apply _].
  - split; [done|constructor].
Qed.

Lemma bond_of_Ok s op o : bond_of op s = Ok o → o = bond_at (kv_map s) op.
Proof. apply read_record_Ok. Qed.
Lemma unbonding_of_Ok s op q : unbonding_of op s = Ok q → q = queue_at (kv_map s) op.
Proof.
  unfold unbonding_of. intros Hq. inv_M. unfold queue_at. f_equal. by apply read_record_Ok.
Qed.
Lemma require_bond_Ok s op b s' :
  require_bond op s = (Ok b, s') → s' = s ∧ bond_at (kv_map s) op = Some b.
Proof. unfold require_bond. intros Hr. inv_M. split; [done|]. symmetry. by apply bond_of_Ok. Qed.

Lemma kv_write_queue op q s u s' :
  write_queue op q s = (Ok u, s') → kv_map s' = put_queue op q (kv_map s).
Proof.
  unfold write_queue, writes. intros [= _ <-]. unfold put_queue. destruct q; [apply kv_delete_map|apply kv_set_map].
Qed.
Lemma kv_write_bond b s u s' :
  write_bond b s = (Ok u, s') → kv_map s' = <[key_bond (operator b) := encode Bond_codec b]> (kv_map s).
Proof. unfold write_bond, writes. intros [= _ <-]. apply kv_set_map. Qed.
Lemma kv_write_index l s u s' :
  write_index l s = (Ok u, s') → kv_map s' = <[key_bond_index := encode (vec_codec Address_codec) l]> (kv_map s).
Proof. unfold write_index, writes. intros [= _ <-]. apply kv_set_map. Qed.
End invariant.

(** Read a staking call's steps off the store. *)
Ltac staking_facts :=
  repeat match goal with
  | Hb : bond_of _ _ = Ok _ |- _ => apply bond_of_Ok in Hb; subst
  | Hb : unbonding_of _ _ = Ok _ |- _ => apply unbonding_of_Ok in Hb; subst
  | Hb : require_bond _ _ = (Ok _, _) |- _ => apply require_bond_Ok in Hb as [-> Hb]
  | Hb : write_bond _ _ = (Ok _, _) |- _ => apply kv_write_bond in Hb
  | Hb : write_queue _ _ _ = (Ok _, _) |- _ => apply kv_write_queue in Hb
  | Hb : write_index _ _ = (Ok _, _) |- _ => apply kv_write_index in Hb
  | Hb : write_bond _ _ = (Err _, _) |- _ => discriminate Hb
  | Hb : write_queue _ _ _ = (Err _, _) |- _ => discriminate Hb
  | Hb : write_index _ _ = (Err _, _) |- _ => discriminate Hb
  | Hb : ¬ is_Some _ |- _ => apply eq_None_not_Some in Hb
  | Hi : Amount_checked_add _ _ = Ok _ |- _ => apply Amount_checked_add_Ok in Hi as [? ?]; subst
  | Hi : Amount_checked_sub _ _ = Ok _ |- _ => apply Amount_checked_sub_Ok in Hi as [? ?]; subst
  end.

(** * What a call changes *)

Section changes.
Context `{Hasher, Signer, KVMap St}.
Implicit Types (s : St).

(** The bank writes none of the records a weight over other namespaces counts. *)
Lemma bank_exec_map_sum w c s r s' :
  (∀ ns parts v, ns ∈ [NsBalance; NsSupply; NsIssuer; NsFrozen] → w (StoreKey_new ns parts) v = 0) →
  bank_exec c s = (r, s') → map_sum w (kv_map s') = map_sum w (kv_map s).
Proof.
  intros Hw Hr. destruct r as [u|e]; [|by apply bank_exec_atomic in Hr as ->].
  assert (∀ ns parts v m, ns ∈ [NsBalance; NsSupply; NsIssuer; NsFrozen] →
            map_sum w (<[StoreKey_new ns parts := v]> m) = map_sum w m) as Hins
    by (intros; apply map_sum_insert_zero; auto).
  assert (∀ a d x m, map_sum w (put_amount (key_balance a d) x m) = map_sum w m) as Hb
    by (intros; apply map_sum_put_zero; intros; apply Hw; set_solver).
  assert (∀ d x m, map_sum w (put_amount (key_supply d) x m) = map_sum w m) as Hs
    by (intros; apply map_sum_put_zero; intros; apply Hw; set_solver).
  destruct (config_denom c) as [d'|] eqn:E.
  { destruct (config_Ok _ _ _ _ _ E Hr) as (i & i' & _ & _ & _ & ->). rewrite kv_set_encoded.
    apply Hins. set_solver. }
  destruct c; simpl in E; simplify_eq; simpl in Hr.
  - apply transfer_Ok in Hr as (Hz & _ & _ & Hle & Heq & Hne).
    destruct (decide (from = to)) as [->|Hft]; [by rewrite Heq|]. destruct (Hne Hft) as [_ ->]. by rewrite !Hb.
  - apply mint_Ok in Hr as (i & i' & _ & _ & _ & _ & _ & _ & _ & _ & _ & ->).
    unfold key_issuer. by rewrite Hins, Hs, Hb by set_solver.
  - apply burn_Ok in Hr as (i & _ & _ & _ & _ & _ & _ & _ & ->). by rewrite Hs, Hb.
  - apply credit_Ok in Hr as (_ & _ & _ & ->). by rewrite Hs, Hb.
  - apply slash_native_Ok in Hr as (_ & _ & _ & ->). by rewrite Hs, Hb.
  - apply credit_Ok in Hr as (_ & _ & _ & ->). by rewrite Hs, Hb.
  - apply register_issuer_Ok in Hr as [_ ->]. rewrite kv_set_encoded. apply Hins. set_solver.
  - apply admit_issuer_Ok in Hr as (_ & _ & ->). rewrite kv_set_encoded. apply Hins. set_solver.
  - apply freeze_Ok in Hr as (i & _ & _ & _ & ->). rewrite kv_set_encoded. apply Hins. set_solver.
  - apply unfreeze_Ok in Hr as (i & _ & _ & _ & ->). rewrite kv_delete_map. apply map_sum_delete_zero.
    intros v. apply Hw. set_solver.
Qed.

Lemma bank_exec_staked c s r s' : bank_exec c s = (r, s') → staked (kv_map s') = staked (kv_map s).
Proof. apply bank_exec_map_sum. intros ns parts v Hns. apply stake_weight_other; set_solver. Qed.

Lemma bank_exec_other c s r s' ns parts :
  ns ∈ [NsValidator; NsUnbonding; NsBondIndex] → bank_exec c s = (r, s') →
  kv_map s' !! StoreKey_new ns parts = kv_map s !! StoreKey_new ns parts.
Proof. intros Hns. apply bank_exec_footprint. destruct ns, c; try done; set_solver. Qed.

Lemma ledger_change_trans m1 m2 m3 db ds db' ds' :
  ledger_change m1 db ds m2 → ledger_change m2 db' ds' m3 →
  ledger_change m1 (λ a d, db a d + db' a d) (λ d, ds d + ds' d) m3.
Proof.
  intros Hl1 Hl2 a d Ha Hd. destruct (Hl1 a d Ha Hd) as (? & ? & ?), (Hl2 a d Ha Hd) as (? & ? & ?). lia.
Qed.

(** From [m] to [m'], operator [op]'s bond becomes [b'] and queue [q'], balances and
    supplies move by [db] and [ds], and every record stays readable. *)
Record step_change (op : Address) (b' : option Bond) (q' : list Unbonding)
    (db : Address → Denom → Z) (ds : Denom → Z) m m' : Prop := {
  sc_bond op' : address_ok op' → bond_at m' op' = if decide (op = op') then b' else bond_at m op';
  sc_queue op' : address_ok op' → queue_at m' op' = if decide (op = op') then q' else queue_at m op';
  sc_staked : staked m' = staked m + from_option bonded 0 b' + queue_sum q'
                          - from_option bonded 0 (bond_at m op) - queue_sum (queue_at m op);
  sc_bonds_readable op' : readable Bond_codec m (key_bond op') → readable Bond_codec m' (key_bond op');
  sc_queues_readable op' :
    readable (vec_codec Unbonding_codec) m (key_unbonding op') →
    readable (vec_codec Unbonding_codec) m' (key_unbonding op');
  sc_index_readable :
    readable (vec_codec Address_codec) m key_bond_index → readable (vec_codec Address_codec) m' key_bond_index;
  sc_bank_readable : bank_readable m → bank_readable m';
  sc_ledger : ledger_change m db ds m';
  sc_frozen a d : m' !! key_frozen d a = m !! key_frozen d a;
}.

Lemma sc_refl op m : step_change op (bond_at m op) (queue_at m op) no_move no_supply m m.
Proof.
  split; try done; try lia; [by intros; case_decide; subst..|apply ledger_change_refl].
Qed.

Lemma sc_write_bond op b q db ds m m' b' :
  address_ok op → wf Bond_codec b' →
  step_change op b q db ds m m' →
  step_change op (Some b') q db ds m (<[key_bond op := encode Bond_codec b']> m').
Proof.
  intros Hop Hwf [Hb Hq Hs Hbr Hqr Hir Hbk Hl Hf]. split.
  - intros op' Hop'. rewrite bond_at_insert by done. rewrite Hb by done. by case_decide.
  - intros op' Hop'. rewrite <- Hq by done. apply queue_at_ext, lookup_insert_ne. ns_ne.
  - rewrite staked_insert_bond, Hs, Hb by done. rewrite decide_True by done. simpl. lia.
  - intros op' Hr. apply readable_insert; [apply _|done|by apply Hbr].
  - intros op' Hr. apply readable_insert_ne; [ns_ne|by apply Hqr].
  - intros Hr. apply readable_insert_ne; [ns_ne|by apply Hir].
  - intros Hr. eapply bank_readable_frame; [|by apply Hbk]. intros ns parts Hns.
    apply lookup_insert_ne, StoreKey_new_ns_ne. set_solver.
  - by apply ledger_change_insert.
  - intros a d. rewrite <- Hf. apply lookup_insert_ne. ns_ne.
Qed.

Lemma sc_write_queue op b q db ds m m' q' :
  address_ok op → wf (vec_codec Unbonding_codec) q' →
  step_change op b q db ds m m' → step_change op b q' db ds m (put_queue op q' m').
Proof.
  intros Hop Hwf [Hb Hq Hs Hbr Hqr Hir Hbk Hl Hf]. split.
  - intros op' Hop'. rewrite <- Hb by done. apply bond_at_ext, lookup_put_queue_ne. ns_ne.
  - intros op' Hop'. rewrite queue_at_put by done. rewrite Hq by done. by case_decide.
  - rewrite staked_put_queue, Hs, Hq by done. rewrite decide_True by done. lia.
  - intros op' Hr. eapply readable_ext; [|by apply Hbr]. apply lookup_put_queue_ne. ns_ne.
  - intros op' Hr%Hqr. unfold put_queue. destruct q'; [by apply readable_delete|].
    by apply readable_insert; [apply _|..].
  - intros Hr. eapply readable_ext; [|by apply Hir]. apply lookup_put_queue_ne. ns_ne.
  - intros Hr. eapply bank_readable_frame; [|by apply Hbk]. intros ns parts Hns.
    apply lookup_put_queue_ne, StoreKey_new_ns_ne. set_solver.
  - unfold put_queue. destruct q'; [by apply ledger_change_delete|by apply ledger_change_insert].
  - intros a d. rewrite <- Hf. apply lookup_put_queue_ne. ns_ne.
Qed.

Lemma sc_write_index op b q db ds m m' l :
  wf (vec_codec Address_codec) l →
  step_change op b q db ds m m' →
  step_change op b q db ds m (<[key_bond_index := encode (vec_codec Address_codec) l]> m').
Proof.
  intros Hwf [Hb Hq Hs Hbr Hqr Hir Hbk Hl Hf]. split.
  - intros op' Hop'. rewrite <- Hb by done. apply bond_at_ext, lookup_insert_ne. ns_ne.
  - intros op' Hop'. rewrite <- Hq by done. apply queue_at_ext, lookup_insert_ne. ns_ne.
  - rewrite <- Hs. apply map_sum_insert_zero. intros v. by apply stake_weight_other.
  - intros op' Hr. apply readable_insert_ne; [ns_ne|by apply Hbr].
  - intros op' Hr. apply readable_insert_ne; [ns_ne|by apply Hqr].
  - intros Hr. apply readable_insert; [apply _|done|by apply Hir].
  - intros Hr. eapply bank_readable_frame; [|by apply Hbk]. intros ns parts Hns.
    apply lookup_insert_ne, StoreKey_new_ns_ne. set_solver.
  - by apply ledger_change_insert.
  - intros a d. rewrite <- Hf. apply lookup_insert_ne. ns_ne.
Qed.

Lemma sc_bank op b q db ds m s1 c u s2 :
  call_ok c → writes_ns c NsFrozen = false → bank_exec c s1 = (Ok u, s2) →
  step_change op b q db ds m (kv_map s1) →
  step_change op b q (λ a d, db a d + balance_delta c a d) (λ d, ds d + supply_delta c d) m (kv_map s2).
Proof.
  intros Hc Hns Hr [Hb Hq Hs Hbr Hqr Hir Hbk Hl Hf]. split.
  - intros op' Hop'. rewrite <- Hb by done. apply bond_at_ext. eapply bank_exec_other; [set_solver|done].
  - intros op' Hop'. rewrite <- Hq by done. apply queue_at_ext. eapply bank_exec_other; [set_solver|done].
  - rewrite <- Hs. by eapply bank_exec_staked.
  - intros op' Hrd. eapply readable_ext; [|by apply Hbr]. eapply bank_exec_other; [set_solver|done].
  - intros op' Hrd. eapply readable_ext; [|by apply Hqr]. eapply bank_exec_other; [set_solver|done].
  - intros Hrd. eapply readable_ext; [|by apply Hir]. eapply bank_exec_other; [set_solver|done].
  - intros Hrd. eapply bank_exec_readable; [done..|by apply Hbk].
  - eapply ledger_change_trans; [done|]. by eapply bank_exec_ledger.
  - intros a d. rewrite <- Hf. by eapply bank_exec_footprint.
Qed.

Lemma sc_ext op b q db ds db' ds' m m' :
  (∀ a d, db a d = db' a d) → (∀ d, ds d = ds' d) →
  step_change op b q db ds m m' → step_change op b q db' ds' m m'.
Proof.
  intros Edb Eds [Hb Hq Hs Hbr Hqr Hir Hbk Hl Hf]. split; try done. eapply ledger_change_ext; done.
Qed.

(** What a step must still show to keep the invariant. *)
Lemma step_change_ok op b' q' db ds s s' :
  step_change op b' q' db ds (kv_map s) (kv_map s') →
  (∀ b, b' = Some b → operator b = op) →
  from_option bonded 0 b' + queue_sum q'
  ≤ from_option bonded 0 (bond_at (kv_map s) op) + queue_sum (queue_at (kv_map s) op)
    + db staking_account Denom_native →
  staking_ok s → staking_ok s'.
Proof.
  intros [Hb Hq Hs Hbr Hqr Hir Hbk Hl Hf] Hop Hle Hok.
  destruct Hok as [[Hrd Hsup] Hnat Hbonds Hops Hqueues Hidx Hsolv]. split; try done.
  - split; [by apply Hbk|]. intros d Hd. specialize (Hsup d Hd).
    destruct (Hl Address_ZERO d eq_refl Hd) as (_ & -> & Hc). unfold circulating in *. lia.
  - intros a Ha. erewrite is_frozen_ext; [by apply Hnat|]. apply Hf.
  - intros op' Ha. apply Hbr, Hbonds, Ha.
  - intros op' b Ha. rewrite Hb by done. case_decide; [subst; apply Hop|by apply Hops].
  - intros op' Ha. apply Hqr, Hqueues, Ha.
  - by apply Hir.
  - destruct (Hl staking_account _ staking_account_ok native_ok) as (-> & _). lia.
Qed.
End changes.

(** * Each call *)

(** The public mutating methods of [Staking], with their arguments. *)
Inductive staking_call :=
| SBond (op : Address) (pk : PublicKey) (country : CountryCode) (amount : Amount)
| SAddStake (op : Address) (amount : Amount)
| SUnbond (op : Address) (amount : Amount) (h : Height) (now : Timestamp)
| SWithdraw (op : Address) (now : Timestamp)
| SSlash (e : Equivocation) (set : ValidatorSet) (h : Height)
| SUnjail (op : Address).

(** The operator whose records the call is about. *)
Definition subject (c : staking_call) : Address :=
  match c with
  | SBond op _ _ _ | SAddStake op _ | SUnbond op _ _ _ | SWithdraw op _ | SUnjail op => op
  | SSlash e _ _ => eq_validator e
  end.

Definition staking_exec `{Hasher, Signer, KeyValueStore St} (params : StakingParams) (c : staking_call)
  : M St StakingError unit :=
  match c with
  | SBond op pk country x => bond params op pk country x
  | SAddStake op x => add_stake op x
  | SUnbond op x h now => unbond params op x h now
  | SWithdraw op now => let! _ := withdraw op now in ret tt
  | SSlash e set h => let! _ := slash_equivocation e set h in ret tt
  | SUnjail op => unjail op
  end.

(** The arguments are values of their Rust types, and no operator is the module
    account itself, which no key signs for. *)
Definition scall_ok `{Hasher, Signer} (c : staking_call) : Prop :=
  address_ok (subject c) ∧ subject c ≠ staking_account
  ∧ match c with
    | SBond _ pk country x => wf PublicKey_codec pk ∧ wf CountryCode_codec country ∧ amount_ok x
    | SAddStake _ x => amount_ok x
    | SUnbond _ x h now => amount_ok x ∧ wf Height_codec h ∧ wf Timestamp_codec now
    | SSlash _ _ h => wf Height_codec h
    | SWithdraw _ _ | SUnjail _ => True
    end.

(** The limits keep the records within what the codec reads back. *)
Definition limits_ok (params : StakingParams) : Prop :=
  max_unbonding_entries params ≤ MAX_FIELD_LEN ∧ max_candidates params ≤ MAX_FIELD_LEN
  ∧ 0 ≤ unbonding_ms params.

(** ** The specification: what a successful call makes of the subject's records *)

(** One queued withdrawal after a slash for an infraction at height [h], and what the
    slash takes from it. *)
Definition loss (h : Height) (e : Unbonding) : Z :=
  if covers e h then fraction (u_amount e) SLASH_EQUIVOCATION_BPS else 0.
Definition cut (h : Height) (e : Unbonding) : Unbonding := set_amount e (u_amount e - loss h e).

Definition infraction (e : Equivocation) : Height := height (vote (eq_first e)).

Definition next_bond (c : staking_call) (b : option Bond) : option Bond :=
  match c with
  | SBond op pk country x => Some (Bond_new op pk country x)
  | SAddStake _ x => (λ b, set_bonded b (bonded b + x)) <$> b
  | SUnbond _ x _ _ => (λ b, set_bonded b (bonded b - x)) <$> b
  | SWithdraw _ _ => b
  | SSlash _ _ h =>
      (λ b, set_jailed (set_bonded b (bonded b - fraction (bonded b) SLASH_EQUIVOCATION_BPS)) true (Some h)) <$> b
  | SUnjail _ => (λ b, set_jailed b false None) <$> b
  end.

Definition next_queue (params : StakingParams) (c : staking_call) (q : list Unbonding) : list Unbonding :=
  match c with
  | SUnbond _ x h now =>
      q ++ [{| u_amount := x; started_at := h; completes_at := Z.min u64_max (now + unbonding_ms params) |}]
  | SWithdraw _ now => List.filter (λ e, negb (matured e now)) q
  | SSlash e _ _ => cut (infraction e) <$> q
  | _ => q
  end.

(** What the operator pays into the module account (negative: is paid out of it). *)
Definition deposited (c : staking_call) (q : list Unbonding) : Z :=
  match c with
  | SBond _ _ _ x | SAddStake _ x => x
  | SWithdraw _ now => - queue_sum (List.filter (λ e, matured e now) q)
  | _ => 0
  end.

(** What is destroyed. *)
Definition burned (c : staking_call) (b : option Bond) (q : list Unbonding) : Z :=
  match c with
  | SSlash e _ _ =>
      from_option (λ b, fraction (bonded b) SLASH_EQUIVOCATION_BPS) 0 b + list_sum (loss (infraction e)) q
  | _ => 0
  end.

Lemma fraction_bounds x : amount_ok x → 0 ≤ fraction x SLASH_EQUIVOCATION_BPS ≤ x.
Proof.
  intros [H0 H1]. unfold fraction, saturating_mul, SLASH_EQUIVOCATION_BPS, u128_max in *.
  split; [apply Z.div_pos; lia|]. apply Z.div_le_upper_bound; lia.
Qed.

Lemma loss_bounds h e : amount_ok (u_amount e) → 0 ≤ loss h e ≤ u_amount e.
Proof.
  intros He. unfold loss. destruct (covers e h); [by apply fraction_bounds|]. destruct He. lia.
Qed.

Lemma queue_sum_cut h q : queue_sum (cut h <$> q) = queue_sum q - list_sum (loss h) q.
Proof.
  unfold queue_sum. induction q as [|e q IH]; [done|]. rewrite fmap_cons, !list_sum_cons, IH.
  unfold cut at 1. simpl. lia.
Qed.

Lemma list_sum_loss_bounds h q :
  Forall (λ e, amount_ok (u_amount e)) q → 0 ≤ list_sum (loss h) q ≤ queue_sum q.
Proof.
  intros Hq. split.
  - apply list_sum_nonneg. eapply Forall_impl; [done|]. intros e He. by destruct (loss_bounds h e He).
  - apply list_sum_le. eapply Forall_impl; [done|]. intros e He. by destruct (loss_bounds h e He).
Qed.

Lemma queue_sum_split now q :
  queue_sum (List.filter (λ e, matured e now) q) + queue_sum (List.filter (λ e, negb (matured e now)) q) = queue_sum q.
Proof.
  unfold queue_sum. induction q as [|e q IH]; [done|]. cbn [List.filter].
  destruct (matured e now); cbn [negb]; rewrite !list_sum_cons; lia.
Qed.

Lemma sum_entries_Ok acc l t : sum_entries acc l = Ok t → t = acc + queue_sum l.
Proof.
  revert acc. induction l as [|e l IH]; intros acc Hs; simpl in Hs.
  - inv_M. unfold queue_sum. simpl. lia.
  - unfold queue_sum in *. rewrite list_sum_cons. inv_M. bank_facts.
    match goal with Hl : sum_entries _ _ = _ |- _ => apply IH in Hl end. lia.
Qed.

Lemma sum_entries_total acc l :
  Forall (λ e, amount_ok (u_amount e)) l → acc + queue_sum l ≤ u128_max → is_ok (sum_entries acc l) = true.
Proof.
  intros Hl. revert acc. induction Hl as [|e l [He _] Hl IH]; intros acc Hle; [done|].
  pose proof (queue_sum_nonneg l Hl) as Hn. unfold queue_sum in *. rewrite list_sum_cons in Hle. cbn [sum_entries].
  assert (acc + u_amount e ≤ u128_max) as Hmax by lia.
  rewrite (proj2 (Amount_checked_add_Ok _ _ _) (conj eq_refl Hmax)). simpl. apply IH. lia.
Qed.

Lemma slash_entries_Ok h acc l l' t :
  slash_entries h acc l = Ok (l', t) → l' = cut h <$> l ∧ t = acc + list_sum (loss h) l.
Proof.
  revert acc l' t. induction l as [|e l IH]; intros acc l' t Hs; simpl in Hs; [inv_M; simpl; split; [done|lia]|].
  rewrite fmap_cons, list_sum_cons. unfold cut at 1, loss at 1 2. destruct (covers e h); simpl in Hs.
  - inv_M. bank_facts. case_match. inv_M.
    match goal with Hl : slash_entries _ _ _ = _ |- _ => apply IH in Hl as [-> ->] end. split; [done|lia].
  - inv_M. case_match. inv_M.
    match goal with Hl : slash_entries _ _ _ = _ |- _ => apply IH in Hl as [-> ->] end. split; [|lia].
    f_equal. destruct e; unfold set_amount; simpl. f_equal. lia.
Qed.

Lemma slash_entries_total h acc l :
  Forall (λ e, amount_ok (u_amount e)) l → 0 ≤ acc → acc + queue_sum l ≤ u128_max →
  is_ok (slash_entries h acc l) = true.
Proof.
  intros Hl. revert acc. induction Hl as [|e l He Hl IH]; intros acc H0 Hle; [done|].
  pose proof (queue_sum_nonneg l Hl) as Hn. pose proof (fraction_bounds _ He) as Hf. destruct He as [He _].
  unfold queue_sum in *. rewrite list_sum_cons in Hle. cbn [slash_entries]. destruct (covers e h); simpl.
  - rewrite (proj2 (Amount_checked_sub_Ok _ _ _) (conj eq_refl (proj2 Hf))). simpl.
    assert (acc + fraction (u_amount e) SLASH_EQUIVOCATION_BPS ≤ u128_max) as Hmax by lia.
    rewrite (proj2 (Amount_checked_add_Ok _ _ _) (conj eq_refl Hmax)). simpl.
    specialize (IH (acc + fraction (u_amount e) SLASH_EQUIVOCATION_BPS) ltac:(lia) ltac:(lia)).
    by destruct (slash_entries h _ l) as [[]|].
  - specialize (IH acc H0 ltac:(lia)). by destruct (slash_entries h acc l) as [[]|].
Qed.

(** ** Successful calls *)

Section calls.
Context `{Hasher, Signer, KVMap St} (params : StakingParams).
Implicit Types (s : St).

(** How a call moves balances and supply. *)
Definition stake_moves (c : staking_call) (b : option Bond) (q : list Unbonding) (a : Address) (d : Denom) : Z :=
  if decide (d = Denom_native)
  then (if decide (a = staking_account) then deposited c q - burned c b q else 0)
       - (if decide (a = subject c) then deposited c q else 0)
  else 0.
Definition stake_burns (c : staking_call) (b : option Bond) (q : list Unbonding) (d : Denom) : Z :=
  if decide (d = Denom_native) then - burned c b q else 0.

(** The guards a call checks against its subject's records. *)
Definition permitted (c : staking_call) (b : option Bond) (q : list Unbonding) : Prop :=
  match c with
  | SBond _ _ _ x => x ≠ 0 ∧ min_bond params ≤ x ∧ b = None
  | SAddStake _ x => x ≠ 0 ∧ is_Some b
  | SUnbond _ x _ _ =>
      x ≠ 0 ∧ (∃ b0, b = Some b0 ∧ x ≤ bonded b0) ∧ Z.of_nat (length q) < max_unbonding_entries params
  | SWithdraw _ now => List.filter (λ e, matured e now) q ≠ []
  | SSlash e set _ => proves_equivocation e set = true ∧ ∃ b0, b = Some b0 ∧ jailed b0 = false
  | SUnjail _ => is_Some b
  end.

Definition index_at m : list Address := default [] (record_at (vec_codec Address_codec) m key_bond_index).

(** The guards against the rest of the chain: the operator can pay, and there is
    room for another candidate. *)
Definition fundable (c : staking_call) s : Prop :=
  match c with
  | SBond op _ _ x =>
      x ≤ ledger_balance s op Denom_native ∧ Z.of_nat (length (index_at (kv_map s))) < max_candidates params
  | SAddStake op x => x ≤ ledger_balance s op Denom_native
  | _ => True
  end.

Definition becomes (c : staking_call) s s' : Prop :=
  let b := bond_at (kv_map s) (subject c) in
  let q := queue_at (kv_map s) (subject c) in
  step_change (subject c) (next_bond c b) (next_queue params c q) (stake_moves c b q) (stake_burns c b q)
    (kv_map s) (kv_map s').

Lemma candidates_Ok s l : candidates s = Ok l → l = index_at (kv_map s).
Proof. unfold candidates. intros Hq. inv_M. unfold index_at. f_equal. by apply read_record_Ok. Qed.
Lemma candidates_ok s : staking_ok s → candidates s = Ok (index_at (kv_map s)).
Proof. intros Hok. unfold candidates. by rewrite (read_record_readable _ _ s (so_index s Hok)). Qed.
Lemma index_at_wf s : wf (vec_codec Address_codec) (index_at (kv_map s)).
Proof.
  unfold index_at. destruct (record_at _ _ _) as [q|] eqn:E; simpl.
  - by apply record_at_Some in E as [? _]; [|apply _].
  - split; [done|constructor].
Qed.

Lemma wf_set_bonded b x : wf Bond_codec b → amount_ok x → wf Bond_codec (set_bonded b x).
Proof. intros (?&?&?&?&?) Hx%amount_ok_wf. done. Qed.
Lemma wf_set_jailed b j h : wf Bond_codec b → wf (option_codec Height_codec) h → wf Bond_codec (set_jailed b j h).
Proof. by intros (?&?&?&?&?) Hx. Qed.

Lemma wf_Bond_new op pk co x :
  address_ok op → wf PublicKey_codec pk → wf CountryCode_codec co → amount_ok x → wf Bond_codec (Bond_new op pk co x).
Proof. intros Ha Hpk Hco Hx%amount_ok_wf. unfold Bond_codec. by cbn [wf Bond_new operator b_public_key b_country bonded jailed_at]. Qed.

Lemma native_transfer_ok a b x :
  address_ok a → address_ok b → amount_ok x → call_ok (Transfer a b Denom_native x).
Proof. intros. split_and!; try done. Qed.

Definition native_move (from to : Address) (x : Z) (a : Address) (d : Denom) : Z :=
  if decide (d = Denom_native) then (if decide (a = to) then x else 0) - (if decide (a = from) then x else 0) else 0.

Lemma sc_transfer op b q m s1 from to x u s2 :
  address_ok from → address_ok to → amount_ok x →
  transfer from to Denom_native x s1 = (Ok u, s2) →
  step_change op b q no_move no_supply m (kv_map s1) →
  step_change op b q (native_move from to x) no_supply m (kv_map s2).
Proof.
  intros Hf Ht Hx Hr Hs. eapply sc_ext;
    [| |eapply (sc_bank op b q _ _ _ _ (Transfer from to Denom_native x)); [by apply native_transfer_ok|done|exact Hr|exact Hs]].
  - intros a d. unfold native_move, no_move. simpl. rewrite (decide_ext (Denom_native = d) (d = Denom_native)) by done.
    repeat case_decide; lia.
  - done.
Qed.

Lemma sc_slash_native op b q m s1 from x u s2 :
  address_ok from → amount_ok x → slash_native from x s1 = (Ok u, s2) →
  step_change op b q no_move no_supply m (kv_map s1) →
  step_change op b q (λ a d, if decide (d = Denom_native) then if decide (a = from) then - x else 0 else 0)
    (λ d, if decide (d = Denom_native) then - x else 0) m (kv_map s2).
Proof.
  intros Hf Hx Hr Hs. eapply sc_ext;
    [| |eapply (sc_bank op b q _ _ _ _ (SlashNative from x)); [done|done|exact Hr|exact Hs]].
  - intros a d. unfold no_move. simpl. repeat case_decide; naive_solver lia.
  - intros d. unfold no_supply. simpl. repeat case_decide; naive_solver lia.
Qed.

Lemma bond_Ok op pk co x s u s' :
  limits_ok params → scall_ok (SBond op pk co x) → staking_ok s →
  bond params op pk co x s = (Ok u, s') →
  permitted (SBond op pk co x) (bond_at (kv_map s) op) (queue_at (kv_map s) op)
  ∧ fundable (SBond op pk co x) s ∧ becomes (SBond op pk co x) s s'.
Proof.
  intros (_ & Hlim & _) (Ha & Hne & Hpk & Hco & Hx) Hok. simpl in Ha, Hne. unfold bond. intros Hr. inv_M. bool_simpl.
  staking_facts. match goal with Hc : candidates _ = Ok _ |- _ => apply candidates_Ok in Hc; subst end.
  match goal with Ht : transfer _ _ _ _ _ = _ |- _ => rename Ht into Htr end.
  pose proof (transfer_Ok _ _ _ _ _ _ _ Htr) as (Hz & _ & _ & Hle & _).
  split; [by split_and!|]. split; [by split|]. unfold becomes. cbn [subject next_bond next_queue].
  match goal with Hm : kv_map s' = _ |- _ => rewrite Hm end. apply sc_write_index.
  { pose proof (index_at_wf s) as [_ Hwf]. unfold sort_addresses. split.
    - rewrite (Permutation_length (sort_by_key_perm _ _)), length_app. simpl. lia.
    - rewrite sort_by_key_perm, Forall_app. by repeat constructor. }
  match goal with Hm : kv_map _ = <[_ := _]> _ |- _ => rewrite Hm end.
  eapply sc_write_bond; [done| |].
  { by apply wf_Bond_new. }
  eapply sc_ext; [| |eapply (sc_transfer op _ _ _ _ op staking_account x); [done|apply staking_account_ok|done|exact Htr|apply sc_refl]].
  - intros a d. unfold stake_moves, native_move. simpl. repeat case_decide; lia.
  - intros d. unfold stake_burns. simpl. by case_decide.
Qed.

Lemma add_stake_Ok op x s u s' :
  scall_ok (SAddStake op x) → staking_ok s → add_stake op x s = (Ok u, s') →
  permitted (SAddStake op x) (bond_at (kv_map s) op) (queue_at (kv_map s) op)
  ∧ fundable (SAddStake op x) s ∧ becomes (SAddStake op x) s s'.
Proof.
  intros (Ha & Hne & Hx) Hok. simpl in Ha, Hne. unfold add_stake. intros Hr. inv_M. bool_simpl. staking_facts.
  match goal with Ht : transfer _ _ _ _ _ = _ |- _ => rename Ht into Htr end.
  match goal with Ht : bond_at _ _ = Some ?b0 |- _ => rename Ht into Hb; rename b0 into b end.
  pose proof (transfer_Ok _ _ _ _ _ _ _ Htr) as (Hz & _ & _ & Hle & _).
  split; [by rewrite Hb; split_and!|]. split; [done|]. unfold becomes. cbn [subject next_bond next_queue].
  rewrite Hb. cbn [fmap option_fmap option_map].
  match goal with Hm : kv_map s' = _ |- _ => rewrite Hm end.
  cbn [set_bonded operator]. rewrite (so_operator s Hok op b Ha Hb).
  pose proof (bond_at_wf _ _ _ Hb) as Hwf. pose proof (bond_wf_amount _ Hwf) as [? ?]. destruct Hx as [? ?].
  eapply sc_write_bond; [done|by apply wf_set_bonded; [|split; lia]|].
  eapply sc_ext; [| |eapply (sc_transfer op _ _ _ _ op staking_account x); [done|apply staking_account_ok|done|exact Htr|apply sc_refl]].
  - intros a d. unfold stake_moves, native_move. simpl. repeat case_decide; lia.
  - intros d. unfold stake_burns. simpl. by case_decide.
Qed.

Lemma no_moves c b q op b' q' m m' :
  deposited c q = 0 → burned c b q = 0 →
  step_change op b' q' no_move no_supply m m' →
  step_change op b' q' (stake_moves c b q) (stake_burns c b q) m m'.
Proof.
  intros Hd Hb. apply sc_ext.
  - intros a d. unfold stake_moves, no_move. rewrite Hd, Hb. repeat case_decide; lia.
  - intros d. unfold stake_burns, no_supply. rewrite Hb. by case_decide.
Qed.

Lemma unbond_Ok op x h now s u s' :
  limits_ok params → scall_ok (SUnbond op x h now) → staking_ok s → unbond params op x h now s = (Ok u, s') →
  permitted (SUnbond op x h now) (bond_at (kv_map s) op) (queue_at (kv_map s) op)
  ∧ becomes (SUnbond op x h now) s s'.
Proof.
  intros (Hlim & _ & Hms) (Ha & Hne & Hx & Hh & Hnow) Hok. simpl in Ha, Hne. unfold unbond. intros Hr. inv_M.
  bool_simpl. staking_facts. unfold Amount_is_zero in *. bool_simpl.
  match goal with Ht : bond_at _ _ = Some ?b0 |- _ => rename Ht into Hb; rename b0 into b end.
  split; [rewrite Hb; split_and!; eauto|]. unfold becomes. cbn [subject next_bond next_queue].
  rewrite Hb. cbn [fmap option_fmap option_map].
  match goal with Hm : kv_map s' = _ |- _ => rewrite Hm end.
  match goal with Hm : kv_map _ = <[_ := _]> _ |- _ => rewrite Hm end.
  cbn [set_bonded operator]. rewrite (so_operator s Hok op b Ha Hb).
  pose proof (bond_at_wf _ _ _ Hb) as Hwf. pose proof (bond_wf_amount _ Hwf) as [? ?].
  apply no_moves; [done..|]. eapply sc_write_queue; [done| |].
  { pose proof (queue_at_wf s op) as [? Hq]. split; [rewrite length_app; simpl; lia|].
    apply Forall_app. split; [done|]. constructor; [|constructor]. apply amount_ok_wf in Hx. split_and!; [done..|].
    change (0 ≤ saturating_add u64_max now (unbonding_ms params) < 2 ^ 64).
    change (0 ≤ now < 2 ^ 64) in Hnow. unfold saturating_add, u64_max. lia. }
  destruct Hx. eapply sc_write_bond; [done|by apply wf_set_bonded; [|split; lia]|apply sc_refl].
Qed.

Lemma unjail_Ok op s u s' :
  scall_ok (SUnjail op) → staking_ok s → unjail op s = (Ok u, s') →
  permitted (SUnjail op) (bond_at (kv_map s) op) (queue_at (kv_map s) op) ∧ becomes (SUnjail op) s s'.
Proof.
  intros (Ha & Hne & _) Hok. simpl in Ha, Hne. unfold unjail. intros Hr. inv_M. staking_facts.
  match goal with Ht : bond_at _ _ = Some ?b0 |- _ => rename Ht into Hb; rename b0 into b end.
  split; [by rewrite Hb|]. unfold becomes. cbn [subject next_bond next_queue]. rewrite Hb.
  cbn [fmap option_fmap option_map]. match goal with Hm : kv_map s' = _ |- _ => rewrite Hm end.
  cbn [set_jailed operator]. rewrite (so_operator s Hok op b Ha Hb). pose proof (bond_at_wf _ _ _ Hb) as Hwf.
  apply no_moves; [done..|]. eapply sc_write_bond; [done|by apply wf_set_jailed|apply sc_refl].
Qed.

Lemma wf_queue_filter f q :
  wf (vec_codec Unbonding_codec) q → wf (vec_codec Unbonding_codec) (List.filter f q).
Proof.
  intros [Hl Hq]. split.
  - pose proof (List.filter_length_le f q). lia.
  - rewrite Forall_forall in *. intros e He. apply Hq. apply list_elem_of_In, List.filter_In in He as [He _].
    by apply list_elem_of_In.
Qed.

Lemma wf_queue_cut h q : wf (vec_codec Unbonding_codec) q → wf (vec_codec Unbonding_codec) (cut h <$> q).
Proof.
  intros [Hl Hq]. split; [by rewrite length_fmap|]. apply Forall_fmap. eapply Forall_impl; [done|].
  intros e (Hx & Hh & Ht). apply amount_ok_wf in Hx. pose proof (loss_bounds h e Hx) as Hb. destruct Hx.
  split_and!; [|done..]. apply amount_ok_wf. unfold cut, set_amount. simpl. split; lia.
Qed.

Lemma queue_amounts s op : Forall (λ e, amount_ok (u_amount e)) (queue_at (kv_map s) op).
Proof. apply queue_wf_amounts, queue_at_wf. Qed.

(** Everything staked fits the type. *)
Lemma staked_bounded s op :
  staking_ok s →
  from_option bonded 0 (bond_at (kv_map s) op) + queue_sum (queue_at (kv_map s) op)
  ≤ ledger_balance s staking_account Denom_native ≤ u128_max.
Proof.
  intros Hok. pose proof (bond_queue_le_staked (kv_map s) op). pose proof (so_solvent s Hok).
  pose proof (amount_at_ok (kv_map s) (key_balance staking_account Denom_native)) as [_ ?]. lia.
Qed.

Lemma bond_at_nonneg s op : 0 ≤ from_option bonded 0 (bond_at (kv_map s) op).
Proof.
  destruct (bond_at (kv_map s) op) as [b|] eqn:E; simpl; [|done].
  by apply bond_at_wf, bond_wf_amount in E as [? _].
Qed.

(** Lowering one operator's records costs the module nothing. *)
Lemma lowered_ok op b q s s1 :
  staking_ok s → address_ok op →
  step_change op b q no_move no_supply (kv_map s) (kv_map s1) →
  (∀ b0, b = Some b0 → operator b0 = op) →
  from_option bonded 0 b + queue_sum q
  ≤ from_option bonded 0 (bond_at (kv_map s) op) + queue_sum (queue_at (kv_map s) op) →
  staking_ok s1 ∧ ledger_balance s1 staking_account Denom_native = ledger_balance s staking_account Denom_native.
Proof.
  intros Hok Ha Hs Hop Hle. split.
  - eapply step_change_ok; [done..| |done]. unfold no_move. lia.
  - destruct (sc_ledger _ _ _ _ _ _ _ Hs staking_account _ staking_account_ok native_ok) as (-> & _).
    unfold no_move. lia.
Qed.

(** ** Withdrawals *)

Section withdrawing.
Context (op : Address) (now : Timestamp) (s : St) (Hok : staking_ok s) (Ha : address_ok op) (Hne : op ≠ staking_account).
Abbreviation q := (queue_at (kv_map s) op).
Abbreviation mature := (List.filter (λ e, matured e now) q).
Abbreviation pending := (List.filter (λ e, negb (matured e now)) q).

Lemma mature_bounds : 0 ≤ queue_sum mature ∧ 0 ≤ queue_sum pending ∧ queue_sum mature + queue_sum pending = queue_sum q.
Proof using.
  pose proof (queue_at_wf s op) as Hw. split_and!.
  - by apply queue_sum_nonneg, queue_wf_amounts, wf_queue_filter.
  - by apply queue_sum_nonneg, queue_wf_amounts, wf_queue_filter.
  - apply queue_sum_split.
Qed.

Lemma after_dequeue s1 :
  kv_map s1 = put_queue op pending (kv_map s) →
  step_change op (bond_at (kv_map s) op) pending no_move no_supply (kv_map s) (kv_map s1)
  ∧ staking_ok s1 ∧ ledger_balance s1 staking_account Denom_native = ledger_balance s staking_account Denom_native.
Proof using Ha Hok.
  intros E. assert (step_change op (bond_at (kv_map s) op) pending no_move no_supply (kv_map s) (kv_map s1)) as Hs.
  { rewrite E. eapply sc_write_queue; [done|apply wf_queue_filter, queue_at_wf|apply sc_refl]. }
  split; [done|]. eapply lowered_ok; [done..| |].
  - intros b Hb. by apply (so_operator s Hok).
  - pose proof mature_bounds. lia.
Qed.

Lemma withdraw_Ok t s' :
  withdraw op now s = (Ok t, s') →
  t = queue_sum mature ∧ mature ≠ [] ∧ becomes (SWithdraw op now) s s'.
Proof using Ha Hok Hne.
  unfold withdraw. intros Hr. inv_M. staking_facts. bool_simpl.
  match goal with Hs : sum_entries _ _ = _ |- _ => apply sum_entries_Ok in Hs; rewrite Z.add_0_l in Hs; subst end.
  match goal with Hm : kv_map _ = put_queue _ _ _ |- _ => destruct (after_dequeue _ Hm) as (Hsc & _ & _) end.
  split_and!; [done..|]. unfold becomes. cbn [subject next_bond next_queue].
  unfold Amount_is_zero in *. destruct (Z.eqb_spec (queue_sum mature) 0) as [E|E]; simpl in *; inv_M.
  - apply no_moves; [|done..]. simpl. lia.
  - pose proof (staked_bounded s op Hok) as Hb. pose proof mature_bounds.
    pose proof (bond_at_nonneg s op).
    eapply sc_ext; [| |eapply (sc_transfer op _ _ _ _ staking_account op (queue_sum mature));
      [apply staking_account_ok|done|split; lia|done|done]].
    + intros a d. unfold stake_moves, native_move. simpl. repeat case_decide; lia.
    + intros d. unfold stake_burns. simpl. by case_decide.
Qed.

Lemma mature_sum : sum_entries 0 mature = Ok (queue_sum mature).
Proof using Hok.
  pose proof (staked_bounded s op Hok) as Hb. pose proof mature_bounds. pose proof (bond_at_nonneg s op).
  assert (Forall (λ e, amount_ok (u_amount e)) mature) as Hm
    by apply queue_wf_amounts, wf_queue_filter, queue_at_wf.
  pose proof (sum_entries_total 0 mature Hm ltac:(lia)) as Ht.
  destruct (sum_entries 0 mature) as [t|] eqn:E; [|done]. by apply sum_entries_Ok in E as ->.
Qed.

Lemma withdraw_Err e s' : withdraw op now s = (Err e, s') → s' = s ∧ mature = [].
Proof using Ha Hok Hne.
  pose proof mature_sum as Hsum. unfold withdraw. intros Hr. apply bind_Err_inv in Hr as [Hr|(q0 & s0 & Hq & Hr)].
  { apply reads_inv in Hr as [Hr _]. by rewrite unbonding_of_ok in Hr. }
  apply reads_inv in Hq as [Hq ->]. rewrite unbonding_of_ok in Hq by done. injection Hq as <-.
  apply bind_Err_inv in Hr as [Hr|(u & s0 & Hm & Hr)].
  { apply fail_if_Err_inv in Hr as (Hm & _ & ->). by bool_simpl. }
  exfalso. apply fail_if_Ok_inv in Hm as [Hm ->]. rewrite Hsum in Hr.
  inv_M; staking_facts. unfold Amount_is_zero in *.
  destruct (Z.eqb_spec (queue_sum mature) 0) as [E|E]; simpl in *; inv_M.
  match goal with Hm : kv_map _ = put_queue _ _ _ |- _ => destruct (after_dequeue _ Hm) as (_ & Hok1 & Hbal) end.
  pose proof (staked_bounded s op Hok) as Hb. pose proof mature_bounds. pose proof (bond_at_nonneg s op).
  match goal with Ht : transfer _ _ _ _ ?s1 = _ |- _ =>
    destruct (transfer_progress staking_account op Denom_native (queue_sum mature) s1) as [s2 Hs2];
    [by apply so_bank| |done|by apply so_native, staking_account_ok|by apply so_native|lia|congruence] end.
  apply native_transfer_ok; [apply staking_account_ok|done|split; lia].
Qed.
End withdrawing.

(** ** Slashing *)

Section slashing.
Context (e : Equivocation) (set : ValidatorSet) (h : Height) (s : St).
Context (Hok : staking_ok s) (Hc : scall_ok (SSlash e set h)).
Abbreviation op := (eq_validator e).
Abbreviation q := (queue_at (kv_map s) op).
Abbreviation inf := (infraction e).

Section bonded.
Context (b : Bond) (Hb : bond_at (kv_map s) op = Some b).
Abbreviation from_bond := (fraction (bonded b) SLASH_EQUIVOCATION_BPS).
Abbreviation b' := (set_jailed (set_bonded b (bonded b - from_bond)) true (Some h)).

Lemma slash_bounds :
  0 ≤ from_bond ≤ bonded b ∧ 0 ≤ list_sum (loss inf) q ≤ queue_sum q
  ∧ bonded b + queue_sum q ≤ ledger_balance s staking_account Denom_native ≤ u128_max.
Proof using Hb Hok.
  pose proof (staked_bounded s op Hok) as Hs. rewrite Hb in Hs. simpl in Hs. split_and!; try lia.
  - by apply fraction_bounds, bond_wf_amount, (bond_at_wf s op).
  - by apply fraction_bounds, bond_wf_amount, (bond_at_wf s op).
  - apply list_sum_loss_bounds, queue_amounts.
  - apply list_sum_loss_bounds, queue_amounts.
Qed.

Lemma slash_queue : slash_entries inf 0 q = Ok (cut inf <$> q, list_sum (loss inf) q).
Proof using Hb Hok.
  pose proof slash_bounds. pose proof (slash_entries_total inf 0 q (queue_amounts s op) ltac:(lia) ltac:(lia)) as Ht.
  destruct (slash_entries inf 0 q) as [[l t]|] eqn:E; [|done]. by apply slash_entries_Ok in E as [-> ->].
Qed.

Lemma after_slash_writes s1 s2 :
  kv_map s1 = <[key_bond (operator b') := encode Bond_codec b']> (kv_map s) →
  kv_map s2 = put_queue op (cut inf <$> q) (kv_map s1) →
  step_change op (Some b') (cut inf <$> q) no_move no_supply (kv_map s) (kv_map s2)
  ∧ staking_ok s2 ∧ ledger_balance s2 staking_account Denom_native = ledger_balance s staking_account Denom_native.
Proof using Hb Hok Hc.
  destruct Hc as (Ha & _ & Hh). simpl in Ha. intros E1 E2. pose proof slash_bounds as (Hf & Hl & Hs).
  assert (operator b' = op) as Hop by by apply (so_operator s Hok op b).
  assert (step_change op (Some b') (cut inf <$> q) no_move no_supply (kv_map s) (kv_map s2)) as Hsc.
  { rewrite E2, E1, Hop. eapply sc_write_queue; [done|apply wf_queue_cut, queue_at_wf|].
    eapply sc_write_bond; [done| |apply sc_refl]. apply wf_set_jailed; [|done].
    apply wf_set_bonded; [by apply (bond_at_wf s op)|split; lia]. }
  split; [done|]. eapply lowered_ok; [done..| |].
  - by intros b0 [= <-].
  - rewrite Hb, queue_sum_cut. simpl. lia.
Qed.
End bonded.

Lemma slash_Ok t s' :
  slash_equivocation e set h s = (Ok t, s') →
  t = burned (SSlash e set h) (bond_at (kv_map s) op) q
  ∧ permitted (SSlash e set h) (bond_at (kv_map s) op) q ∧ becomes (SSlash e set h) s s'.
Proof using Hok Hc.
  unfold slash_equivocation, slash. intros Hr. inv_M. staking_facts. bool_simpl.
  match goal with Ht : bond_at _ _ = Some ?b0 |- _ => rename Ht into Hb; rename b0 into b end.
  match goal with Hs : slash_entries _ _ _ = Ok ?x |- _ =>
    change (slash_entries inf 0 q = Ok x) in Hs; rewrite (slash_queue b Hb) in Hs; injection Hs as <- end.
  match goal with H1 : kv_map ?s1 = <[_ := _]> _, H2 : kv_map ?s2 = put_queue _ _ _ |- _ =>
    destruct (after_slash_writes b Hb _ _ H1 H2) as (Hsc & _ & _) end.
  pose proof (slash_bounds b Hb) as (Hf & Hl & Hs). unfold becomes. cbn [subject next_bond next_queue].
  rewrite Hb. cbn [fmap option_fmap option_map]. split_and!; [done|done|eauto|].
  cbn [snd] in *. unfold Amount_is_zero in *.
  match goal with Hx : context [?x =? 0] |- _ => destruct (Z.eqb_spec x 0) as [E|E] end; simpl in *; inv_M.
  - apply no_moves; [done| |done]. simpl. lia.
  - eapply sc_ext; [| |eapply (sc_slash_native op _ _ _ _ staking_account
      (fraction (bonded b) SLASH_EQUIVOCATION_BPS + list_sum (loss inf) q));
      [apply staking_account_ok|split; lia|done|done]].
    + intros a d. unfold stake_moves. simpl. repeat case_decide; lia.
    + intros d. unfold stake_burns. simpl. by case_decide.
Qed.

Lemma slash_Err x s' :
  slash_equivocation e set h s = (Err x, s') →
  s' = s ∧ ¬ permitted (SSlash e set h) (bond_at (kv_map s) op) q.
Proof using Hok Hc.
  intros Hr. unfold slash_equivocation in Hr. apply bind_Err_inv in Hr as [Hr|(u & s0 & Hp & Hr)].
  { apply fail_if_Err_inv in Hr as (Hp & _ & ->). bool_simpl. split; [done|]. simpl. rewrite Hp. naive_solver. }
  apply fail_if_Ok_inv in Hp as [Hp ->]. destruct Hc as (Ha & _). simpl in Ha. unfold slash in Hr.
  apply bind_Err_inv in Hr as [Hr|(b & s0 & Hb & Hr)].
  { unfold require_bond in Hr. inv_M; [by rewrite bond_of_ok in *|]. rewrite bond_of_ok in * by done. inv_M.
    split; [done|]. destruct (bond_at (kv_map s) op); [done|]. by intros (_ & b & ? & _). }
  apply require_bond_Ok in Hb as [-> Hb]. apply bind_Err_inv in Hr as [Hr|(u0 & s0 & Hj & Hr)].
  { apply fail_if_Err_inv in Hr as (Hj & _ & ->). split; [done|]. rewrite Hb. intros (_ & b0 & [= <-] & Hj'). congruence. }
  exfalso. apply fail_if_Ok_inv in Hj as [Hj ->]. pose proof (slash_bounds b Hb) as (Hf & Hl & Hs).
  apply bind_Err_inv in Hr as [Hr|(q0 & s0 & Hq & Hr)].
  { apply reads_inv in Hr as [Hr _]. by rewrite unbonding_of_ok in Hr. }
  apply reads_inv in Hq as [Hq ->]. rewrite unbonding_of_ok in Hq by done. injection Hq as <-.
  change (height (vote (eq_first e))) with inf in Hr. rewrite (slash_queue b Hb) in Hr.
  assert (fraction (bonded b) SLASH_EQUIVOCATION_BPS + list_sum (loss inf) q ≤ u128_max) as Hmax by lia.
  inv_M; try (rewrite (proj2 (Amount_checked_add_Ok _ _ _) (conj eq_refl Hmax)) in *; done).
  all: try (rewrite (proj2 (Amount_checked_sub_Ok _ _ _) (conj eq_refl (proj2 Hf))) in *; done).
  all: staking_facts. cbn [snd fst] in *. unfold Amount_is_zero in *.
  match goal with Hx : context [?x =? 0] |- _ => destruct (Z.eqb_spec x 0) as [E|E] end; simpl in *; inv_M.
  match goal with H1 : kv_map ?s1 = <[_ := _]> _, H2 : kv_map ?s2 = put_queue _ _ _, H3 : slash_native _ ?x _ = _ |- _ =>
    destruct (after_slash_writes b Hb _ _ H1 H2) as (_ & Hok1 & Hbal);
    destruct (slash_native_progress staking_account x s2) as [s3 Hs3];
    [by apply so_bank|apply staking_account_ok|done|lia|congruence] end.
Qed.
End slashing.

(** ** Refused calls *)

(** A native payment to the module account fails only for want of funds. *)
Lemma deposit_Err op x s e s' :
  staking_ok s → address_ok op → amount_ok x → x ≠ 0 →
  transfer op staking_account Denom_native x s = (Err e, s') →
  s' = s ∧ ¬ x ≤ ledger_balance s op Denom_native.
Proof.
  intros Hok Ha Hx Hz Ht. split; [by apply (bank_exec_atomic (Transfer op staking_account Denom_native x) s e)|].
  intros Hle. destruct (transfer_progress op staking_account Denom_native x s) as [s2 Hs2]; try done.
  - by apply so_bank.
  - apply native_transfer_ok; [done|apply staking_account_ok|done].
  - by apply so_native.
  - by apply so_native, staking_account_ok.
  - congruence.
Qed.

Lemma bond_Err op pk co x s e s' :
  scall_ok (SBond op pk co x) → staking_ok s → bond params op pk co x s = (Err e, s') →
  s' = s ∧ ¬ (permitted (SBond op pk co x) (bond_at (kv_map s) op) (queue_at (kv_map s) op)
              ∧ fundable (SBond op pk co x) s).
Proof.
  intros (Ha & Hne & _ & _ & Hx) Hok. simpl in Ha. unfold bond. intros Hr.
  inv_M; try (rewrite bond_of_ok in * by done; done); try (rewrite candidates_ok in * by done; done).
  all: staking_facts; try match goal with Hc : candidates _ = Ok _ |- _ => apply candidates_Ok in Hc; subst end.
  all: unfold Amount_is_zero in *; bool_simpl.
  - split; [done|]. simpl. naive_solver.
  - split; [done|]. simpl. naive_solver lia.
  - split; [done|]. simpl. destruct (bond_at (kv_map s) op); naive_solver.
  - split; [done|]. simpl. naive_solver lia.
  - match goal with Ht : transfer _ _ _ _ _ = _ |- _ => apply deposit_Err in Ht as [-> Hle]; [|done..] end.
    split; [done|]. simpl. naive_solver.
Qed.

Lemma require_bond_Err op s e s' :
  staking_ok s → address_ok op → require_bond op s = (Err e, s') → s' = s ∧ bond_at (kv_map s) op = None.
Proof.
  intros Hok Ha. unfold require_bond. intros Hr. inv_M; rewrite bond_of_ok in * by done; inv_M.
  split; [done|]. by destruct (bond_at (kv_map s) op).
Qed.

Lemma add_stake_Err op x s e s' :
  scall_ok (SAddStake op x) → staking_ok s → add_stake op x s = (Err e, s') →
  s' = s ∧ ¬ (permitted (SAddStake op x) (bond_at (kv_map s) op) (queue_at (kv_map s) op)
              ∧ fundable (SAddStake op x) s).
Proof.
  intros (Ha & Hne & Hx) Hok. simpl in Ha, Hne. unfold add_stake. intros Hr. inv_M.
  all: staking_facts; unfold Amount_is_zero in *; bool_simpl.
  - split; [done|]. simpl. naive_solver.
  - match goal with Hb : require_bond _ _ = _ |- _ => apply require_bond_Err in Hb as [-> HN]; [|done..] end.
    split; [done|]. simpl. rewrite HN. intros [[_ [? ?]] _]. done.
  - match goal with Ht : transfer _ _ _ _ _ = _ |- _ => apply deposit_Err in Ht as [-> Hle]; [|done..] end.
    split; [done|]. simpl. naive_solver.
  - exfalso. match goal with Hb : bond_at _ _ = Some _ |- _ => rename Hb into Hbond end.
    match goal with Ht : transfer _ _ _ _ _ = _ |- _ => apply transfer_Ok in Ht as (_ & _ & _ & _ & _ & Hmv) end.
    destruct (Hmv Hne) as [Hmax _]. pose proof (staked_bounded s op Hok) as Hs. rewrite Hbond in Hs. simpl in Hs.
    pose proof (queue_sum_nonneg _ (queue_amounts s op)).
    match goal with Hc : map_err _ (Amount_checked_add (bonded ?b) x) = _ |- _ =>
      assert (bonded b + x ≤ u128_max) as Hmax' by lia;
      rewrite (proj2 (Amount_checked_add_Ok _ _ _) (conj eq_refl Hmax')) in Hc; done end.
Qed.

Lemma unbond_Err op x h now s e s' :
  scall_ok (SUnbond op x h now) → staking_ok s → unbond params op x h now s = (Err e, s') →
  s' = s ∧ ¬ permitted (SUnbond op x h now) (bond_at (kv_map s) op) (queue_at (kv_map s) op).
Proof.
  intros (Ha & Hne & Hx & _) Hok. simpl in Ha. unfold unbond. intros Hr. inv_M.
  all: staking_facts; unfold Amount_is_zero in *; bool_simpl.
  - split; [done|]. simpl. naive_solver.
  - match goal with Hb : require_bond _ _ = _ |- _ => apply require_bond_Err in Hb as [-> HN]; [|done..] end.
    split; [done|]. simpl. rewrite HN. naive_solver.
  - match goal with Hb : bond_at _ _ = Some _ |- _ => rename Hb into Hbond end.
    split; [done|]. simpl. rewrite Hbond. intros (_ & (b0 & [= <-] & ?) & _). lia.
  - rewrite unbonding_of_ok in *; done.
  - split; [done|]. simpl. intros (_ & _ & ?). lia.
  - exfalso. match goal with Hc : map_err _ (Amount_checked_sub (bonded ?b) x) = _, Hle : x ≤ bonded ?b |- _ =>
      rewrite (proj2 (Amount_checked_sub_Ok _ _ _) (conj eq_refl Hle)) in Hc; done end.
Qed.

Lemma unjail_Err op s e s' :
  scall_ok (SUnjail op) → staking_ok s → unjail op s = (Err e, s') →
  s' = s ∧ ¬ permitted (SUnjail op) (bond_at (kv_map s) op) (queue_at (kv_map s) op).
Proof.
  intros (Ha & _) Hok. simpl in Ha. unfold unjail. intros Hr. inv_M; staking_facts.
  match goal with Hb : require_bond _ _ = _ |- _ => apply require_bond_Err in Hb as [-> HN]; [|done..] end.
  split; [done|]. simpl. rewrite HN. by intros [? ?].
Qed.

(** ** Every call *)

Lemma staking_exec_Ok c s u s' :
  limits_ok params → scall_ok c → staking_ok s → staking_exec params c s = (Ok u, s') →
  permitted c (bond_at (kv_map s) (subject c)) (queue_at (kv_map s) (subject c))
  ∧ fundable c s ∧ becomes c s s'.
Proof.
  intros Hlim Hc Hok Hr. destruct c; cbn [staking_exec subject] in *.
  - by apply bond_Ok in Hr.
  - by apply add_stake_Ok in Hr.
  - by apply unbond_Ok in Hr as [? ?].
  - inv_M. pose proof Hc as (Ha & Hne & _).
    match goal with Hw : withdraw _ _ _ = _ |- _ => apply withdraw_Ok in Hw as (_ & ? & ?) end; done.
  - inv_M. match goal with Hw : slash_equivocation _ _ _ _ = _ |- _ => apply slash_Ok in Hw as (_ & ? & ?) end; done.
  - by apply unjail_Ok in Hr as [? ?].
Qed.

Lemma staking_exec_Err c s e s' :
  scall_ok c → staking_ok s → staking_exec params c s = (Err e, s') →
  s' = s ∧ ¬ (permitted c (bond_at (kv_map s) (subject c)) (queue_at (kv_map s) (subject c)) ∧ fundable c s).
Proof.
  intros Hc Hok Hr. destruct c; cbn [staking_exec subject] in *.
  - by apply bond_Err in Hr.
  - by apply add_stake_Err in Hr.
  - apply unbond_Err in Hr as [? ?]; [|done..]. split; [done|]. tauto.
  - inv_M. pose proof Hc as (Ha & Hne & _).
    match goal with Hw : withdraw _ _ _ = _ |- _ => apply withdraw_Err in Hw as [? Hm]; [|done..] end.
    split; [done|]. simpl. by intros [? _].
  - inv_M. match goal with Hw : slash_equivocation _ _ _ _ = _ |- _ => apply slash_Err in Hw as [? ?]; [|done..] end.
    split; [done|]. by intros [? _].
  - apply unjail_Err in Hr as [? ?]; [|done..]. split; [done|]. tauto.
Qed.

(** A permitted call moves the subject's stake by exactly what is paid in or destroyed. *)
Lemma next_balance c b q :
  (∀ b0, b = Some b0 → amount_ok (bonded b0)) → permitted c b q →
  from_option bonded 0 (next_bond c b) + queue_sum (next_queue params c q)
  = from_option bonded 0 b + queue_sum q + deposited c q - burned c b q.
Proof.
  intros Hb Hp. destruct c; cbn [permitted] in Hp; destruct_and?; simplify_eq/=;
    repeat match goal with
    | Hs : is_Some _ |- _ => destruct Hs as [? ->]
    | Hs : ∃ _, _ |- _ => destruct Hs as (? & -> & ?)
    end; simpl; try lia.
  - unfold queue_sum. rewrite list_sum_app, list_sum_cons. simpl. lia.
  - pose proof (queue_sum_split now q). lia.
  - rewrite queue_sum_cut. lia.
Qed.

Lemma next_bond_operator c b b' :
  (∀ b0, b = Some b0 → operator b0 = subject c) → next_bond c b = Some b' → operator b' = subject c.
Proof.
  intros Hb Hn. destruct c; simpl in Hn; [by injection Hn as <-|..];
    (destruct b as [b|]; simpl in Hn; [|done]); specialize (Hb b eq_refl); by injection Hn as <-.
Qed.

Lemma becomes_ok c s s' :
  scall_ok c → staking_ok s →
  permitted c (bond_at (kv_map s) (subject c)) (queue_at (kv_map s) (subject c)) → becomes c s s' → staking_ok s'.
Proof.
  intros (Ha & Hne & _) Hok Hp Hs. eapply step_change_ok; [done| | |done].
  - intros b Hb. eapply next_bond_operator; [|done]. intros b0 Hb0. by apply (so_operator s Hok).
  - rewrite next_balance; [|intros b0 Hb0; by apply bond_wf_amount, (bond_at_wf s (subject c))|done].
    unfold stake_moves. rewrite decide_True, decide_True, decide_False by done. lia.
Qed.

Lemma staking_exec_ok c s r s' :
  limits_ok params → scall_ok c → staking_exec params c s = (r, s') → staking_ok s → staking_ok s'.
Proof.
  intros Hlim Hc Hr Hok. destruct r as [u|e]; [|by apply staking_exec_Err in Hr as [-> _]].
  destruct (staking_exec_Ok _ _ _ _ Hlim Hc Hok Hr) as (Hp & _ & Hs). by eapply becomes_ok.
Qed.
End calls.
