(* ===== verification/StakingTheorems.v ===== *)
(** Staking's promises: solvency over whole runs, the refinement of each call,
    exactly when calls succeed, and the unbonding period
    ([crates/staking/src/], [crates/executor/src/lib.rs]). *)

From S2P Require Import Prelude SortedVec Codec Primitives Crypto Store Records Issuer Bank BankProofs BankTheorems Validators Votes VoteProofs Params Staking StakingProofs.

(** * Runs *)

(** What happens to the store between blocks, as far as stake is concerned: staking
    calls, reported evidence, and every bank call. *)
Inductive chain_step :=
| StakeStep (c : staking_call)
| ReportStep (e : Equivocation) (h : Height)
| BankStep (c : bank_call).

Section runs.
Context `{Hasher, Signer, KVMap St} (params : StakingParams).
Implicit Types (s : St).

Definition chain_apply s (st : chain_step) : St :=
  match st with
  | StakeStep c => (staking_exec params c s).2
  | ReportStep e h => (report_equivocation params e h s).2
  | BankStep c => (bank_exec c s).2
  end.
Definition chain_run (l : list chain_step) s : St := foldl chain_apply s l.

(** The bank debits the module account only when staking itself asks it to. *)
Definition spares_staking (c : bank_call) : Prop :=
  match c with
  | Transfer a _ _ _ | Burn a _ _ | SlashNative a _ => a ≠ staking_account
  | _ => True
  end.

Definition step_ok (st : chain_step) : Prop :=
  match st with
  | StakeStep c => scall_ok c
  | ReportStep e h => address_ok (eq_validator e) ∧ eq_validator e ≠ staking_account ∧ wf Height_codec h
  | BankStep c => call_ok c ∧ spares_staking c
  end.

Lemma report_equivocation_cases e h s :
  match active_set params s with
  | Ok set => report_equivocation params e h s = slash_equivocation e set h s
  | Err x => report_equivocation params e h s = (Err x, s)
  end.
Proof. unfold report_equivocation, bind, reads. by destruct (active_set params s). Qed.

Lemma spared_balance c s u s' :
  call_ok c → spares_staking c → bank_exec c s = (Ok u, s') →
  ledger_balance s staking_account Denom_native ≤ ledger_balance s' staking_account Denom_native.
Proof.
  intros Hc Hs Hr.
  destruct (bank_exec_ledger _ _ _ _ Hc Hr staking_account Denom_native staking_account_ok native_ok) as (-> & _).
  destruct c; simpl in *; unfold amount_ok in *; repeat case_decide; destruct_and?; subst; try lia; done.
Qed.

Lemma bank_step_ok c s r s' :
  call_ok c → spares_staking c → bank_exec c s = (r, s') → staking_ok s → staking_ok s'.
Proof.
  intros Hc Hsp Hr Hok. destruct r as [u|x]; [|by apply bank_exec_atomic in Hr as ->].
  destruct Hok as [Hbank Hnat Hbonds Hops Hqueues Hidx Hsolv]. split.
  - by eapply bank_exec_ok.
  - intros a Ha. rewrite (bank_exec_frozen c a Denom_native s u s'), Hnat by (done || apply native_ok).
    destruct (frozen_after c a Denom_native false) eqn:Hfa; [|done].
    by destruct (freeze_not_native c s u s' a Denom_native Hc Hr (Hnat a Ha) Hfa).
  - intros op Ha. eapply readable_ext; [|by apply Hbonds]. eapply bank_exec_other; [set_solver|done].
  - intros op b Ha Hb. apply Hops; [done|]. rewrite <- Hb. symmetry. apply bond_at_ext.
    eapply bank_exec_other; [set_solver|done].
  - intros op Ha. eapply readable_ext; [|by apply Hqueues]. eapply bank_exec_other; [set_solver|done].
  - eapply readable_ext; [|done]. eapply bank_exec_other; [set_solver|done].
  - rewrite (bank_exec_staked c s (Ok u) s' Hr). pose proof (spared_balance c s u s' Hc Hsp Hr). lia.
Qed.

Lemma chain_apply_ok st s : limits_ok params → step_ok st → staking_ok s → staking_ok (chain_apply s st).
Proof.
  intros Hlim Hst Hok. destruct st as [c|e h|c]; cbn [chain_apply].
  - destruct (staking_exec params c s) as [r s'] eqn:E. by eapply staking_exec_ok.
  - pose proof (report_equivocation_cases e h s) as Hr. destruct (active_set params s) as [set|x]; rewrite Hr; [|done].
    destruct (slash_equivocation e set h s) as [r s'] eqn:E. simpl.
    apply (staking_exec_ok params (SSlash e set h) s (match r with Ok _ => Ok tt | Err x => Err x end) s'); [done| |..].
    + by destruct Hst as (? & ? & ?).
    + cbn [staking_exec]. unfold bind. rewrite E. by destruct r.
    + done.
  - destruct (bank_exec c s) as [r s'] eqn:E. destruct Hst. by eapply bank_step_ok.
Qed.

Lemma chain_run_ok l s : limits_ok params → Forall step_ok l → staking_ok s → staking_ok (chain_run l s).
Proof.
  intros Hlim Hl. revert s. induction Hl as [|st l Hst Hl IH]; intros s Hok; [done|].
  simpl. apply IH. by apply chain_apply_ok.
Qed.

(** Solvency.  From an empty store, after any sequence of staking calls, evidence
    reports and bank calls, failures included, the module account holds at least
    the sum of every bond and every queued withdrawal, and every operator's
    records still read back. *)
Theorem stake_solvent l s :
  limits_ok params → Forall step_ok l → kv_map s = ∅ →
  let s' := chain_run l s in
  (∃ held, view_balance s' staking_account Denom_native = Ok held ∧ staked (kv_map s') ≤ held)
  ∧ ∀ op, address_ok op → ∃ o q, bond_of op s' = Ok o ∧ unbonding_of op s' = Ok q
      ∧ from_option bonded 0 o + queue_sum q ≤ staked (kv_map s').
Proof.
  intros Hlim Hl He s'. pose proof (chain_run_ok l s Hlim Hl (staking_ok_empty s He)) as Hok. fold s' in Hok. split.
  - exists (ledger_balance s' staking_account Denom_native). split; [|by apply so_solvent].
    apply bank_ok_view_balance; [by apply so_bank|apply staking_account_ok|apply native_ok].
  - intros op Ha. exists (bond_at (kv_map s') op), (queue_at (kv_map s') op).
    split_and!; [by apply bond_of_ok|by apply unbonding_of_ok|apply bond_queue_le_staked].
Qed.

(** C13: each staking call refines its specification.  A call that succeeds leaves its
    operator's bond and queue as [next_bond] and [next_queue] say, every other
    operator's untouched, and moves exactly [deposited] between the operator and
    the module account and [burned] out of existence; a call that fails, at any
    point, leaves the store exactly as it was. *)
Theorem staking_call_refines c s r s' :
  limits_ok params → scall_ok c → staking_ok s → staking_exec params c s = (r, s') →
  let b := bond_at (kv_map s) (subject c) in
  let q := queue_at (kv_map s) (subject c) in
  match r with
  | Ok _ =>
      (∀ op, address_ok op →
         bond_of op s' = Ok (if decide (subject c = op) then next_bond c b else bond_at (kv_map s) op)
         ∧ unbonding_of op s' = Ok (if decide (subject c = op) then next_queue params c q else queue_at (kv_map s) op))
      ∧ (∀ a d, address_ok a → denom_ok d →
           ledger_balance s' a d = ledger_balance s a d + stake_moves c b q a d
           ∧ ledger_supply s' d = ledger_supply s d + stake_burns c b q d)
  | Err _ => s' = s
  end.
Proof.
  intros Hlim Hc Hok Hr b q. destruct r as [u|x]; [|by apply staking_exec_Err in Hr as [-> _]].
  pose proof (staking_exec_ok params c s _ s' Hlim Hc Hr Hok) as Hok'.
  destruct (staking_exec_Ok params _ _ _ _ Hlim Hc Hok Hr) as (_ & _ & Hs). split.
  - intros op Ha. rewrite bond_of_ok, unbonding_of_ok by done.
    by rewrite (sc_bond _ _ _ _ _ _ _ Hs op Ha), (sc_queue _ _ _ _ _ _ _ Hs op Ha).
  - intros a d Ha Hd. destruct (sc_ledger _ _ _ _ _ _ _ Hs a d Ha Hd) as (? & ? & _). done.
Qed.

(** A staking call succeeds exactly when its guards hold: nothing else, and in
    particular no arithmetic overflow and no shortage in the module account, can
    make it fail. *)
Theorem staking_call_succeeds_iff c s :
  limits_ok params → scall_ok c → staking_ok s →
  (∃ s', staking_exec params c s = (Ok tt, s'))
  ↔ permitted params c (bond_at (kv_map s) (subject c)) (queue_at (kv_map s) (subject c)) ∧ fundable params c s.
Proof.
  intros Hlim Hc Hok. split.
  - intros [s' Hr]. by apply staking_exec_Ok in Hr as (? & ? & _).
  - intros Hp. destruct (staking_exec params c s) as [[[]|x] s'] eqn:Hr; [eauto|].
    by apply staking_exec_Err in Hr as [_ Hn].
Qed.

(** Unbonding stake cannot leave early.  Whatever call is made, an entry of an
    operator's queue stays there, at most reduced by a slash for an infraction
    that precedes it, unless the call is that operator's withdrawal at or after
    the entry's completion time. *)
Theorem unbonding_period_enforced c s u s' op e :
  limits_ok params → scall_ok c → staking_ok s → staking_exec params c s = (Ok u, s') →
  address_ok op → e ∈ queue_at (kv_map s) op →
  e ∈ queue_at (kv_map s') op
  ∨ (∃ ev set h, c = SSlash ev set h ∧ eq_validator ev = op ∧ infraction ev < started_at e
      ∧ cut (infraction ev) e ∈ queue_at (kv_map s') op)
  ∨ (∃ now, c = SWithdraw op now ∧ completes_at e ≤ now).
Proof.
  intros Hlim Hc Hok Hr Ha He. destruct (staking_exec_Ok params _ _ _ _ Hlim Hc Hok Hr) as (_ & _ & Hs).
  rewrite (sc_queue _ _ _ _ _ _ _ Hs op Ha). case_decide as E; [|by left]. subst op.
  destruct c; cbn [subject next_queue] in *; try (by left).
  - left. apply elem_of_app. by left.
  - destruct (matured e now) eqn:Em; [right; right; exists now; split; [done|]; unfold matured in Em; by bool_simpl|].
    left. apply list_elem_of_In, List.filter_In. rewrite Em. split; [by apply list_elem_of_In|done].
  - destruct (covers e (infraction e0)) eqn:Ec.
    + right; left. exists e0, set, h. unfold covers in Ec. bool_simpl. split_and!; [done..|].
      by apply list_elem_of_fmap_2.
    + left. apply list_elem_of_fmap. exists e. split; [|done]. unfold cut, loss. rewrite Ec.
      destruct e; unfold set_amount; simpl. f_equal. lia.
Qed.
End runs.
