(* ===== verification/ActiveSet.v ===== *)
(** The active validator set derived from the bonds ([crates/staking/src/set.rs]): who is
    in it, that it does not depend on the order bonds are listed in, and what capping
    concentration does. *)

From S2P Require Import Prelude SortedVec Sorting Codec Primitives Crypto Store Records Issuer Bank BankProofs BankTheorems Validators Votes VoteProofs Params Staking StakingProofs.

(** * Sorting by a strict order *)

Section sort_by.
Context {A : Type} (lt : A → A → bool).

Lemma insert_by_perm x l : insert_by lt x l ≡ₚ x :: l.
Proof.
  induction l as [|y l IH]; simpl; [done|]. destruct (lt y x); [|done]. rewrite IH. constructor.
Qed.
Lemma sort_by_perm l : sort_by lt l ≡ₚ l.
Proof. induction l; simpl; [done|]. rewrite insert_by_perm. by f_equiv. Qed.

Context (Htrans : ∀ x y z, lt x y = true → lt y z = true → lt x z = true).

(** On a list whose elements are pairwise comparable the sort is strict. *)
Definition comparable (l : list A) : Prop :=
  ∀ i j x y, i ≠ j → l !! i = Some x → l !! j = Some y → lt x y = true ∨ lt y x = true.

Lemma comparable_cons x l :
  comparable (x :: l) ↔ Forall (λ y, lt x y = true ∨ lt y x = true) l ∧ comparable l.
Proof.
  split.
  - intros Hc. split.
    + apply Forall_lookup. intros i y Hy. by apply (Hc 0%nat (S i) x y).
    + intros i j a b Hij Ha Hb. apply (Hc (S i) (S j) a b); [lia|done..].
  - intros [Hx Hc] i j a b Hij Ha Hb. rewrite Forall_lookup in Hx. destruct i as [|i], j as [|j]; simplify_eq/=.
    + by eapply Hx.
    + destruct (Hx _ _ Ha); auto.
    + apply (Hc i j); [lia|done..].
Qed.

Lemma insert_by_sorted x l :
  StronglySorted (λ a b, lt a b = true) l → Forall (λ y, lt x y = true ∨ lt y x = true) l →
  StronglySorted (λ a b, lt a b = true) (insert_by lt x l).
Proof using Htrans.
  induction 1 as [|y l Hl IH Hy]; intros Hx; simpl; [by repeat constructor|].
  apply Forall_cons in Hx as [Hxy Hx]. destruct (lt y x) eqn:E.
  - constructor; [by apply IH|]. rewrite insert_by_perm. by apply Forall_cons.
  - destruct Hxy as [Hxy|]; [|congruence]. constructor; [by constructor|]. constructor; [done|].
    eapply Forall_impl; [exact Hy|]. simpl. intros z Hz. exact (Htrans x y z Hxy Hz).
Qed.

Lemma sort_by_sorted l : comparable l → StronglySorted (λ a b, lt a b = true) (sort_by lt l).
Proof using Htrans.
  induction l as [|x l IH]; intros Hc; [constructor|]. apply comparable_cons in Hc as [Hx Hc]. simpl.
  apply insert_by_sorted; [by apply IH|]. by rewrite sort_by_perm.
Qed.

Lemma comparable_perm l1 l2 : l1 ≡ₚ l2 → comparable l1 → comparable l2.
Proof.
  induction 1 as [|x l1 l2 Hp IH|x y l|l1 l2 l3 _ IH1 _ IH2]; [done| | |by auto].
  - rewrite !comparable_cons. intros [Hx Hc]. split; [by rewrite <- Hp|by apply IH].
  - rewrite !comparable_cons, !Forall_cons. tauto.
Qed.

Lemma sort_by_unique l1 l2 :
  (∀ x, lt x x = false) → l1 ≡ₚ l2 → comparable l1 → sort_by lt l1 = sort_by lt l2.
Proof using Htrans.
  intros Hirr Hp Hc. apply (StronglySorted_unique_strong (λ a b, lt a b = true)).
  - intros x y _ _ Hxy Hyx. specialize (Hirr x). rewrite (Htrans x y x) in Hirr; done.
  - by apply sort_by_sorted.
  - apply sort_by_sorted. by eapply comparable_perm.
  - by rewrite !sort_by_perm.
Qed.
End sort_by.

Lemma bond_before_irrefl b : bond_before b b = false.
Proof.
  unfold bond_before. rewrite Z.ltb_irrefl. simpl. apply andb_false_intro2.
  destruct (bytes_ltb (operator b) (operator b)) eqn:E; [|done].
  apply bytes_ltb_lt in E. by apply bytes_lt_irrefl in E.
Qed.

Lemma bond_before_iff a b :
  bond_before a b = true
  ↔ power_of (bonded b) < power_of (bonded a)
    ∨ power_of (bonded a) = power_of (bonded b) ∧ bytes_lt (operator a) (operator b).
Proof. unfold bond_before. by rewrite orb_true_iff, andb_true_iff, Z.ltb_lt, Z.eqb_eq, bytes_ltb_lt. Qed.

Lemma bond_before_trans a b c : bond_before a b = true → bond_before b c = true → bond_before a c = true.
Proof.
  rewrite !bond_before_iff. intros [?|[? ?]] [?|[? ?]]; [left; lia..|]. right. split; [congruence|by etrans].
Qed.

(** Bonds of distinct operators are always comparable. *)
Lemma bonds_comparable l : NoDup (operator <$> l) → comparable bond_before l.
Proof.
  intros Hn i j x y Hij Hx Hy. rewrite !bond_before_iff.
  assert (operator x ≠ operator y) as Hne.
  { intros E. apply Hij. eapply NoDup_lookup; [done|by rewrite list_lookup_fmap, Hx|].
    by rewrite list_lookup_fmap, Hy, E. }
  destruct (Z.lt_trichotomy (power_of (bonded x)) (power_of (bonded y))) as [|[E|]]; [by auto| |by auto].
  destruct (bytes_lt_total (operator x) (operator y)) as [|[|]]; [by auto|done|by auto].
Qed.

(** * Who is eligible *)

Lemma Forall2_elem_r {A B} (R : A → B → Prop) l k y : Forall2 R l k → y ∈ k → ∃ x, x ∈ l ∧ R x y.
Proof.
  intros Hf [i Hi]%list_elem_of_lookup. destruct (Forall2_lookup_r _ _ _ _ _ Hf Hi) as (x & Hx & ?).
  exists x. split; [by apply list_elem_of_lookup_2 in Hx|done].
Qed.
Lemma Forall2_elem_l {A B} (R : A → B → Prop) l k x : Forall2 R l k → x ∈ l → ∃ y, y ∈ k ∧ R x y.
Proof.
  intros Hf [i Hi]%list_elem_of_lookup. destruct (Forall2_lookup_l _ _ _ _ _ Hf Hi) as (y & Hy & ?).
  exists y. split; [by apply list_elem_of_lookup_2 in Hy|done].
Qed.

Definition qualifies (params : StakingParams) (b : Bond) : bool := negb (jailed b) && (min_bond params <=? bonded b).

Lemma filter_sublist {A} (f : A → bool) l : List.filter f l `sublist_of` l.
Proof. induction l as [|x l IH]; simpl; [constructor|]. case_match; by constructor. Qed.
Lemma filter_perm {A} (f : A → bool) l1 l2 : l1 ≡ₚ l2 → List.filter f l1 ≡ₚ List.filter f l2.
Proof. induction 1; simpl; repeat case_match; try done; [by constructor|by constructor|by etrans]. Qed.

Lemma eligible_elem bonds params b :
  b ∈ eligible bonds params → b ∈ bonds ∧ qualifies params b = true.
Proof.
  unfold eligible. intros (i & Hi & _)%elem_of_take. apply list_elem_of_lookup_2 in Hi.
  rewrite sort_by_perm in Hi. apply list_elem_of_In, List.filter_In in Hi as [Hi Hq]. by rewrite list_elem_of_In.
Qed.

Lemma eligible_length bonds params : (length (eligible bonds params) ≤ Z.to_nat (max_validators params))%nat.
Proof. unfold eligible. rewrite length_take. lia. Qed.

(** A bond that qualifies and is left out ranks behind every one of a full set. *)
Lemma eligible_outranked bonds params b :
  NoDup (operator <$> bonds) → b ∈ bonds → qualifies params b = true → b ∉ eligible bonds params →
  length (eligible bonds params) = Z.to_nat (max_validators params)
  ∧ Forall (λ b', bond_before b' b = true) (eligible bonds params).
Proof.
  intros Hnd Hb Hq Hn. unfold eligible in *. set (l := List.filter _ bonds) in *.
  assert (b ∈ sort_by bond_before l) as Hin.
  { rewrite sort_by_perm. apply list_elem_of_In, List.filter_In. by rewrite <- list_elem_of_In. }
  assert (comparable bond_before l) as Hc.
  { apply bonds_comparable. eapply sublist_NoDup; [exact Hnd|]. apply fmap_sublist, filter_sublist. }
  pose proof (sort_by_sorted bond_before bond_before_trans l Hc) as Hs.
  rewrite <- (take_drop (Z.to_nat (max_validators params)) (sort_by bond_before l)) in Hin, Hs.
  apply elem_of_app in Hin as [?|Hin]; [done|]. split.
  - rewrite length_take. apply list_elem_of_lookup_1 in Hin as [i Hi]. rewrite lookup_drop in Hi.
    apply lookup_lt_Some in Hi. lia.
  - apply Forall_forall. intros b' Hb'. apply StronglySorted_app in Hs as (Hs & _ & _). by apply Hs.
Qed.

Lemma eligible_perm l1 l2 params :
  NoDup (operator <$> l1) → l1 ≡ₚ l2 → eligible l1 params = eligible l2 params.
Proof.
  intros Hnd Hp. unfold eligible. f_equal. apply sort_by_unique.
  - apply bond_before_trans.
  - apply bond_before_irrefl.
  - by apply filter_perm.
  - apply bonds_comparable. eapply sublist_NoDup; [exact Hnd|]. apply fmap_sublist, filter_sublist.
Qed.

(** * The concentration cap *)

(** Capping never raises a power and never takes the last unit of one. *)
Definition capped (p' p : Z) : Prop := p' ≤ p ∧ (1 ≤ p → 1 ≤ p').

#[export] Instance capped_preorder : PreOrder capped.
Proof. split; unfold capped; [intros ?; lia|intros ? ? ?; lia]. Qed.

Lemma cap_pass_capped bps powers powers' : cap_pass bps powers = Some powers' → Forall2 capped powers' powers.
Proof.
  unfold cap_pass. case_match; [done|]. case_match; [|done]. intros [= <-].
  apply Forall2_fmap_l. apply Forall_Forall2_diag, Forall_forall. intros p _. unfold capped.
  match goal with |- context [Z.max ?a 1] => generalize (Z.le_max_r a 1); generalize (Z.max a 1) end.
  intros c Hc. simpl. destruct (Z.ltb_spec c p); lia.
Qed.

Lemma cap_loop_capped n bps powers : Forall2 capped (cap_loop n bps powers) powers.
Proof.
  revert powers. induction n as [|n IH]; intros powers; simpl; [done|].
  destruct (cap_pass bps powers) as [powers'|] eqn:E; [|done].
  etrans; [apply IH|]. by eapply cap_pass_capped.
Qed.

Lemma cap_concentration_capped powers bps : Forall2 capped (cap_concentration powers bps) powers.
Proof. unfold cap_concentration. case_match; [done|]. apply cap_loop_capped. Qed.

(** The share the largest power holds, in basis points of the total. *)
Definition top_share_bps (powers : list Z) : Z := max_power powers * 10000 / list_sum (λ p, p) powers.

(** The concentration cap does not hold.  One large bond among five small ones is left
    with 99.99% of the voting power under a cap of 20%, which six validators
    could meet; two equal bonds end at half each. *)
Theorem cap_not_enforced :
  top_share_bps (cap_concentration [1000000000; 1; 1; 1; 1; 1] 2000) = 9999
  ∧ top_share_bps (cap_concentration [100; 100] 2000) = 5000.
Proof. by vm_compute. Qed.

(** * The set *)

Section active.
Context `{Hasher, Signer} (params : StakingParams).

Definition member_of (b : Bond) (v : Validator) : Prop :=
  v_public_key v = b_public_key b ∧ v_country v = b_country b
  ∧ v_address v = Address_from_public_key (b_public_key b)
  ∧ 1 ≤ voting_power v ≤ Z.max (power_of (bonded b)) 1.

Lemma zip_validators el powers :
  Forall2 capped powers ((λ b, Z.max (power_of (bonded b)) 1) <$> el) →
  Forall2 member_of el (zip_with (λ b p, Validator_new (b_public_key b) p (b_country b)) el powers).
Proof.
  revert powers. induction el as [|b el IH]; intros powers Hp; inversion Hp as [|p ? powers' ? [Hle Hge] Hp']; subst;
    simpl; constructor; [|by apply IH]. unfold member_of, Validator_new. simpl. split_and!; [done..|lia|done].
Qed.

Lemma power_of_bounds x : 0 ≤ x → 0 ≤ power_of x ≤ u64_max.
Proof.
  intros Hx. unfold power_of. pose proof (Z.div_pos x SENTE_PER_AFRI Hx eq_refl).
  destruct (Z.leb_spec (x / SENTE_PER_AFRI) u64_max); [done|]. unfold u64_max in *. lia.
Qed.

Lemma active_set_of_Ok bonds set :
  Forall (λ b, 0 ≤ bonded b) bonds → active_set_of bonds params = Ok set →
  ∃ vs, vs_ok set ∧ validators set ≡ₚ vs ∧ Forall2 member_of (eligible bonds params) vs.
Proof.
  intros Hb. unfold active_set_of. case_bool_decide; [done|]. intros Hn%map_err_Ok_inv.
  set (powers := cap_concentration _ _) in Hn.
  pose proof (zip_validators (eligible bonds params) powers (cap_concentration_capped _ _)) as Hm.
  eexists. apply ValidatorSet_new_Ok in Hn as [Hok Hvs].
  - split_and!; [done| |exact Hm]. rewrite Hvs. apply sort_by_key_perm.
  - apply Forall_forall. intros v Hv. destruct (Forall2_elem_r _ _ _ _ Hm Hv) as (b & Hbin & (_ & _ & _ & Hp)).
    apply eligible_elem in Hbin as [Hbin _]. rewrite Forall_forall in Hb.
    pose proof (power_of_bounds _ (Hb b Hbin)). unfold u64_max in *. lia.
Qed.

(** Membership.  Every validator of the derived set stands for an unjailed bond at or
    above the minimum, with that bond's key and country and at most its stake in
    voting power; the set is no larger than [max_validators]; and a qualifying
    bond is left out only when the set is full of bonds that rank before it. *)
Theorem active_set_members bonds set :
  Forall (λ b, 0 ≤ bonded b) bonds → NoDup (operator <$> bonds) →
  active_set_of bonds params = Ok set →
  vs_ok set
  ∧ (length (validators set) ≤ Z.to_nat (max_validators params))%nat
  ∧ (∀ v, v ∈ validators set → ∃ b, b ∈ bonds ∧ qualifies params b = true ∧ member_of b v)
  ∧ (∀ b, b ∈ bonds → qualifies params b = true →
       (∃ v, v ∈ validators set ∧ member_of b v)
       ∨ length (validators set) = Z.to_nat (max_validators params)
         ∧ ∀ v, v ∈ validators set → ∃ b', b' ∈ bonds ∧ member_of b' v ∧ bond_before b' b = true).
Proof.
  intros Hb Hnd Hset. destruct (active_set_of_Ok bonds set Hb Hset) as (vs & Hok & Hperm & Hm).
  assert (length (validators set) = length (eligible bonds params)) as Hlen.
  { by rewrite Hperm, (Forall2_length _ _ _ Hm). }
  split_and!; [done|rewrite Hlen; apply eligible_length| |].
  - intros v Hv. rewrite Hperm in Hv. destruct (Forall2_elem_r _ _ _ _ Hm Hv) as (b & Hbin & Hmem).
    apply eligible_elem in Hbin as [? ?]. eauto.
  - intros b Hbin Hq. destruct (decide (b ∈ eligible bonds params)) as [He|He].
    + left. destruct (Forall2_elem_l _ _ _ _ Hm He) as (v & Hv & ?). exists v. by rewrite Hperm.
    + right. destruct (eligible_outranked bonds params b Hnd Hbin Hq He) as [Hfull Hrank]. split; [lia|].
      intros v Hv. rewrite Hperm in Hv. destruct (Forall2_elem_r _ _ _ _ Hm Hv) as (b' & Hb' & Hmem).
      rewrite Forall_forall in Hrank. specialize (Hrank b' Hb'). apply eligible_elem in Hb' as [? _]. eauto.
Qed.

(** The derived set does not depend on the order bonds are listed in. *)
Theorem active_set_order_independent l1 l2 :
  NoDup (operator <$> l1) → l1 ≡ₚ l2 → active_set_of l1 params = active_set_of l2 params.
Proof. intros Hnd Hp. unfold active_set_of. by rewrite (eligible_perm l1 l2 params Hnd Hp). Qed.
End active.
