(* ===== verification/Accountability.v ===== *)
(** From a double vote to a slash: evidence collected by a vote set, reported through the
    executor and judged against the active set ([crates/consensus/src/vote.rs],
    [crates/executor/src/lib.rs], [crates/staking/src/lib.rs]), and the evidence
    that escapes it. *)

From S2P Require Import Prelude SortedVec Codec Primitives Crypto Store Records Issuer Bank BankProofs BankTheorems Validators Votes VoteProofs Round Params Staking StakingProofs StakingTheorems ActiveSet.

Section accountability.
Context `{Hasher, Signer, KVMap St} (params : StakingParams).
Implicit Types (s : St).

Lemma collect_bonds_amounts ops s l : collect_bonds ops s = Ok l → Forall (λ b, 0 ≤ bonded b) l.
Proof.
  revert l. induction ops as [|op ops IH]; intros l Hl; simpl in Hl; [injection Hl as <-; constructor|].
  apply result_bind_Ok_inv in Hl as (o & Ho & Hl). apply result_bind_Ok_inv in Hl as (rest & Hrest & Hl).
  injection Hl as <-. apply bond_of_Ok in Ho. symmetry in Ho. destruct o as [b|]; [|by apply IH].
  constructor; [|by apply IH]. by apply bond_at_wf, bond_wf_amount in Ho as [? _].
Qed.

Lemma active_set_ok s set : active_set params s = Ok set → vs_ok set.
Proof.
  unfold active_set, bonds. intros (l & Hl & Hs)%result_bind_Ok_inv. apply result_bind_Ok_inv in Hl as (ops & _ & Hl).
  by destruct (active_set_of_Ok params l set (collect_bonds_amounts _ _ _ Hl) Hs) as (_ & ? & _).
Qed.

(** Two valid votes of one member for one slot and different values prove themselves. *)
Lemma valid_evidence_proves set vs e :
  valid_evidence set vs (eq_validator e) e → proves_equivocation e set = true.
Proof.
  intros (_ & (Hv1 & Hh1 & Hr1 & Ht1 & Hc1 & m & Hm & Hs1) & (Hv2 & Hh2 & Hr2 & Ht2 & Hc2 & m' & Hm' & Hs2) & Hne).
  assert (m' = m) as -> by congruence. unfold proves_equivocation.
  rewrite Hv1, Hv2, Hm, Hh1, Hh2, Hr1, Hr2, Ht1, Ht2, Hs1, Hs2, !Z.eqb_refl.
  rewrite (bool_decide_eq_false_2 (block_id _ = block_id _)) by done. by rewrite !bool_decide_eq_true_2 by done.
Qed.

(** The members of an active set go by the addresses of their consensus keys. *)
Lemma active_member_address s set a m : active_set params s = Ok set → vs_get set a = Some m → address_ok a.
Proof.
  intros Hset Hm. pose proof (active_set_ok s set Hset) as Hvs. apply vs_get_Some in Hm as [Hin <-]; [|done].
  unfold active_set, bonds in Hset. apply result_bind_Ok_inv in Hset as (l & Hl & Hs). apply result_bind_Ok_inv in Hl as (ops & _ & Hl).
  destruct (active_set_of_Ok params l set (collect_bonds_amounts _ _ _ Hl) Hs) as (vs & _ & Hperm & Hm). rewrite Hperm in Hin.
  destruct (Forall2_elem_r _ _ _ _ Hm Hin) as (b & _ & (_ & _ & -> & _)). exact (Address_derived_ok DAddress _).
Qed.

(** What a slash refuses, and with which error. *)
Lemma slash_refused e set now s :
  staking_ok s → scall_ok (SSlash e set now) → proves_equivocation e set = true →
  match bond_at (kv_map s) (eq_validator e) with
  | None => slash_equivocation e set now s = (Err NoSuchBond, s)
  | Some b => jailed b = true → slash_equivocation e set now s = (Err AlreadyJailed, s)
  end.
Proof.
  intros Hok (Ha & _) Hp. simpl in Ha. pose proof (bond_of_ok s (eq_validator e) Hok Ha) as Hb.
  unfold slash_equivocation, slash, require_bond, bind, reads, lift, fail_if, ok_or. rewrite Hp, Hb. cbn.
  destruct (bond_at _ _) as [b|]; [|done]. intros Hj. cbn. by rewrite Hj.
Qed.

(** C16: what reporting a double vote does.  Take a double vote that the votes collected for a
    slot expose against the current active set, by a member that is not the staking
    module's own account.  The evidence is always accepted, and the outcome depends only
    on the bond stored under the address of the member's consensus key.  Without such a
    bond the report fails with [NoSuchBond], and with one already jailed it fails with
    [AlreadyJailed], both leaving the store as it was.  Otherwise it succeeds: the fixed
    fraction of the bond and of every withdrawal begun after the infraction is
    destroyed, the supply falls by exactly that, and the bond is jailed. *)
Theorem double_vote_report_exact s set c h r t (l : list SignedVote) sv e vs' now :
  staking_ok s → active_set params s = Ok set →
  VoteSet_add set sv (add_all set (VoteSet_new c h r t) l) = (Ok (Equivocated e), vs') →
  eq_validator e ≠ staking_account → wf Height_codec now →
  let q := queue_at (kv_map s) (eq_validator e) in
  ∃ o, bond_of (eq_validator e) s = Ok o
  ∧ match o with
    | None => report_equivocation params e now s = (Err NoSuchBond, s)
    | Some b =>
        let taken := fraction (bonded b) SLASH_EQUIVOCATION_BPS + list_sum (loss h) q in
        if jailed b then report_equivocation params e now s = (Err AlreadyJailed, s)
        else ∃ s', report_equivocation params e now s = (Ok taken, s')
          ∧ bond_of (eq_validator e) s'
            = Ok (Some (set_jailed (set_bonded b (bonded b - fraction (bonded b) SLASH_EQUIVOCATION_BPS)) true (Some now)))
          ∧ unbonding_of (eq_validator e) s' = Ok (cut h <$> q)
          ∧ ledger_supply s' Denom_native = ledger_supply s Denom_native - taken
    end.
Proof.
  intros Hok Hset Hadd Hne Hnow q. pose proof (active_set_ok s set Hset) as Hvs.
  destruct (add_all_ok set Hvs (VoteSet_new c h r t) l (vote_set_new_ok set c h r t)) as [Hvok E]. simpl in E.
  destruct (VoteSet_add_ok set Hvs _ _ _ _ Hvok Hadd) as (_ & _ & (Hv & Hev) & _). rewrite <- Hv in Hev.
  assert (valid_evidence set _ (eq_validator e) e) as Hval by exact (conj eq_refl Hev).
  assert (infraction e = h) as Hinf.
  { destruct Hev as ((_ & Hh & _) & _). unfold infraction. rewrite Hh. by injection E. }
  assert (proves_equivocation e set = true) as Hp by (by eapply valid_evidence_proves).
  assert (address_ok (eq_validator e)) as Ha.
  { destruct Hev as ((_ & _ & _ & _ & _ & m & Hm & _) & _). by eapply active_member_address. }
  exists (bond_at (kv_map s) (eq_validator e)). split; [by apply bond_of_ok|].
  assert (scall_ok (SSlash e set now)) as Hc by done.
  pose proof (report_equivocation_cases params e now s) as Hr. rewrite Hset in Hr. rewrite Hr.
  pose proof (slash_refused e set now s Hok Hc Hp) as Href.
  destruct (bond_at (kv_map s) (eq_validator e)) as [b|] eqn:Hb; [|done]. cbv zeta. destruct (jailed b) eqn:Hj; [by apply Href|]. clear Href.
  destruct (slash_equivocation e set now s) as [[x|x] s'] eqn:Hs.
  - pose proof Hs as (-> & Hperm & Hsc)%(slash_Ok params); [|done..]. exists s'. rewrite Hb. simpl. rewrite Hinf.
    pose proof (becomes_ok params _ _ _ Hc Hok Hperm Hsc) as Hok'.
    split; [done|]. rewrite bond_of_ok, unbonding_of_ok by done.
    rewrite (sc_bond _ _ _ _ _ _ _ Hsc _ Ha), (sc_queue _ _ _ _ _ _ _ Hsc _ Ha), !decide_True by done.
    cbn [subject next_bond next_queue]. rewrite Hb, Hinf. split_and!; [done..|].
    destruct (sc_ledger _ _ _ _ _ _ _ Hsc _ _ Ha native_ok) as (_ & -> & _). unfold stake_burns.
    rewrite decide_True by done. simpl. rewrite Hb, Hinf. simpl. subst q. lia.
  - exfalso. apply (slash_Err params) in Hs as [_ Hn]; [|done..]. apply Hn. simpl. rewrite Hb. eauto.
Qed.
End accountability.

(** * A small chain *)

#[local] Existing Instance sample_hasher.
#[local] Existing Instance sample_signer.

Definition sample_staking : StakingParams := {|
  min_bond := Amount_from_afri 5;
  max_validators := 10;
  p_max_single_share_bps := 10000;
  max_candidates := 10;
  max_unbonding_entries := 7;
  unbonding_ms := UNBONDING_MS;
|}.

(** The account of a validator's own consensus key. *)
Definition key_account (n : Z) : Address := Address_from_public_key (sample_key n).

Definition join (op : Address) (n : Z) : list chain_step :=
  [ BankStep (GenesisAllocate op Denom_native (Amount_from_afri 100));
    StakeStep (SBond op (sample_key n) (bs "ke") (Amount_from_afri 10)) ].

(** Four validators, each bonded by the account of its own key. *)
Definition sample_joined : list chain_step := [1; 2; 3; 4] ≫= λ n, join (key_account n) n.
Definition sample_stake : gmap bytes bytes := chain_run sample_staking sample_joined ∅.

Definition vote_by (chain : ChainId) (n : Z) (b : Hash32) : SignedVote :=
  cast sample_signing chain 10 0 Prevote (Validator_new (sample_key n) 10 (bs "ke")) (Some b).

(** Validator 1 prevotes two blocks in one round of height 10. *)
Definition sample_double_vote : Equivocation :=
  {| eq_validator := key_account 1; eq_first := vote_by sample_chain 1 block_A;
     eq_second := vote_by sample_chain 1 block_B |}.

Definition report_outcome (s : gmap bytes bytes) (e : Equivocation) : result StakingError Amount :=
  (report_equivocation sample_staking e 12 s).1.
Definition judged_by (s : gmap bytes bytes) (e : Equivocation) : bool :=
  match active_set sample_staking s with Ok set => proves_equivocation e set | Err _ => false end.

(** An equivocator escapes by unbonding.  Reported at once, validator 1's double vote at
    height 10 destroys 5% of its stake.  If it unbonds everything at height 11
    first, it has left the active set the evidence is judged against, and the same
    report is refused although the stake is still in the unbonding queue. *)
Theorem unbonding_escapes_slash :
  judged_by sample_stake sample_double_vote = true
  ∧ report_outcome sample_stake sample_double_vote = Ok (Amount_from_afri 10 / 20)
  ∧ let fled := chain_apply sample_staking sample_stake
                  (StakeStep (SUnbond (key_account 1) (Amount_from_afri 10) 11 1000)) in
    queue_at fled (key_account 1)
      = [{| u_amount := Amount_from_afri 10; started_at := 11; completes_at := 1000 + UNBONDING_MS |}]
    ∧ report_outcome fled sample_double_vote = Err NotEquivocation.
Proof. by vm_compute. Qed.

(** A validator whose bond is held by an account other than its consensus key's cannot
    be slashed: the slash looks for a bond under the key's address. *)
Theorem separate_operator_escapes_slash :
  let s := chain_run sample_staking (join (sample_address 9) 1) ∅ in
  judged_by s sample_double_vote = true ∧ report_outcome s sample_double_vote = Err NoSuchBond.
Proof. by vm_compute. Qed.

(** Votes for two different chains count as a double vote: evidence does not compare
    chain identifiers. *)
Theorem cross_chain_votes_slashed :
  report_outcome sample_stake
    {| eq_validator := key_account 1; eq_first := vote_by sample_chain 1 block_A;
       eq_second := vote_by (bs "afrolink-test") 1 block_B |}
  = Ok (Amount_from_afri 10 / 20).
Proof. by vm_compute. Qed.

(** One more bond naming a key that is already bonded leaves the whole chain without
    a validator set. *)
Theorem duplicate_key_halts_set :
  is_ok (active_set sample_staking sample_stake) = true
  ∧ active_set sample_staking (chain_run sample_staking (join (sample_address 9) 1) sample_stake)
    = Err NoEligibleValidators.
Proof. by vm_compute. Qed.
