(* ===== verification/StakingWitnesses.v ===== *)
(** Concrete runs at which the governance and staking theorems apply. *)

From S2P Require Import Prelude SortedVec Codec Primitives Crypto Store Records Issuer Bank BankProofs BankTheorems Validators Votes VoteProofs Round Params Staking StakingProofs StakingTheorems ActiveSet Accountability.

#[local] Existing Instance sample_hasher.
#[local] Existing Instance sample_signer.

(** ** Parameters *)

Definition tightened : ChainParams := {|
  staking := staking ChainParams_default;
  rebind_delay_blocks := rebind_delay_blocks ChainParams_default;
  voting_period_blocks := voting_period_blocks ChainParams_default;
  timelock_blocks := timelock_blocks ChainParams_default;
  max_council_country_share_bps := 2000;
|}.

Lemma params_never_disarmed_witness : params_ok tightened ∧ 2000 ≤ max_council_country_share_bps ChainParams_default.
Proof.
  apply (params_never_disarmed ChainParams_default tightened).
  - apply validate_Ok. by vm_compute.
  - eapply history_change; [apply history_refl|by vm_compute].
Defined.

(** ** Runs *)

Ltac side := vm_compute; first [reflexivity | discriminate | split; discriminate | repeat split; discriminate].

Lemma sample_joined_ok : Forall step_ok sample_joined.
Proof. repeat constructor; side. Qed.
Lemma sample_limits_ok : limits_ok sample_staking.
Proof. by vm_compute. Qed.

Lemma sample_stake_ok : staking_ok sample_stake.
Proof. apply chain_run_ok; [apply sample_limits_ok|apply sample_joined_ok|by apply staking_ok_empty]. Qed.

Lemma stake_solvent_witness :
  ∃ held, view_balance sample_stake staking_account Denom_native = Ok held ∧ staked sample_stake ≤ held.
Proof.
  exact (proj1 (stake_solvent sample_staking sample_joined (∅ : gmap bytes bytes)
    sample_limits_ok sample_joined_ok eq_refl)).
Defined.

Definition sample_entry : Unbonding :=
  {| u_amount := Amount_from_afri 3; started_at := 11; completes_at := 1000 + UNBONDING_MS |}.
Definition sample_unbond : staking_call := SUnbond (key_account 1) (Amount_from_afri 3) 11 1000.
Abbreviation sample_unbonded := ((staking_exec sample_staking sample_unbond sample_stake).2).

Lemma sample_unbond_ok : scall_ok sample_unbond.
Proof. repeat constructor; side. Qed.
Lemma sample_unbond_runs : staking_exec sample_staking sample_unbond sample_stake = (Ok tt, sample_unbonded).
Proof. apply run_outcome. by vm_compute. Qed.

Lemma staking_call_refines_witness : unbonding_of (key_account 1) sample_unbonded = Ok [sample_entry].
Proof.
  refine (eq_trans (proj2 (proj1 (staking_call_refines sample_staking sample_unbond sample_stake (Ok tt) sample_unbonded
    sample_limits_ok sample_unbond_ok sample_stake_ok sample_unbond_runs) (key_account 1) _)) _); by vm_compute.
Defined.

Lemma staking_call_succeeds_iff_witness :
  ∃ s', staking_exec sample_staking sample_unbond sample_stake = (Ok tt, s').
Proof.
  refine (proj2 (staking_call_succeeds_iff sample_staking sample_unbond sample_stake
    sample_limits_ok sample_unbond_ok sample_stake_ok) _).
  split; [|exact I]. split; [side|]. split; [|side].
  exists (Bond_new (key_account 1) (sample_key 1) (bs "ke") (Amount_from_afri 10)). split; side.
Defined.

Definition sample_add : staking_call := SAddStake (key_account 1) (Amount_from_afri 1).

Abbreviation sample_added := ((staking_exec sample_staking sample_add sample_unbonded).2).

Lemma sample_unbonded_ok : staking_ok sample_unbonded.
Proof.
  exact (staking_exec_ok sample_staking sample_unbond sample_stake (Ok tt) sample_unbonded
    sample_limits_ok sample_unbond_ok sample_unbond_runs sample_stake_ok).
Qed.
Lemma sample_add_ok : scall_ok sample_add.
Proof. repeat constructor; side. Qed.
Lemma sample_add_runs : staking_exec sample_staking sample_add sample_unbonded = (Ok tt, sample_added).
Proof. apply run_outcome. by vm_compute. Qed.
Lemma sample_entry_queued : sample_entry ∈ queue_at (kv_map sample_unbonded) (key_account 1).
Proof. apply (list_elem_of_lookup_2 _ 0). by vm_compute. Qed.

Lemma unbonding_period_enforced_witness :
  sample_entry ∈ queue_at (kv_map sample_added) (key_account 1)
  ∨ (∃ ev set h, sample_add = SSlash ev set h ∧ eq_validator ev = key_account 1
      ∧ infraction ev < started_at sample_entry ∧ cut (infraction ev) sample_entry ∈ queue_at (kv_map sample_added) (key_account 1))
  ∨ (∃ now, sample_add = SWithdraw (key_account 1) now ∧ completes_at sample_entry ≤ now).
Proof.
  exact (unbonding_period_enforced sample_staking sample_add sample_unbonded tt sample_added (key_account 1) sample_entry
    sample_limits_ok sample_add_ok sample_unbonded_ok sample_add_runs eq_refl sample_entry_queued).
Defined.

(** ** The active set *)

Definition sample_bonds : list Bond :=
  (λ n, Bond_new (key_account n) (sample_key n) (bs "ke") (Amount_from_afri 10)) <$> [1; 2; 3; 4].
Definition sample_active : ValidatorSet :=
  match active_set_of sample_bonds sample_staking with
  | Ok set => set
  | Err _ => {| validators := []; total_power := 0 |}
  end.

Lemma active_set_members_witness : vs_ok sample_active ∧ (length (validators sample_active) ≤ 10)%nat.
Proof.
  refine (let H := active_set_members sample_staking sample_bonds sample_active _ _ _ in conj (proj1 H) (proj1 (proj2 H))).
  - repeat constructor; side.
  - apply (bool_decide_unpack _). by vm_compute.
  - by vm_compute.
Defined.

(** ** Slashing *)

(** Validator 1's key bonded by an account other than the key's own. *)
Definition sample_split : gmap bytes bytes := chain_run sample_staking (join (sample_address 9) 1) ∅.
Definition split_active : ValidatorSet :=
  match active_set sample_staking sample_split with Ok set => set | Err _ => {| validators := []; total_power := 0 |} end.

Lemma sample_split_ok : staking_ok sample_split.
Proof. apply chain_run_ok; [apply sample_limits_ok| |by apply staking_ok_empty]. repeat constructor; side. Qed.

Lemma double_vote_report_exact_witness :
  (∃ s', report_equivocation sample_staking sample_double_vote 12 sample_stake = (Ok (Amount_from_afri 10 / 20), s'))
  ∧ report_equivocation sample_staking sample_double_vote 12 sample_split = (Err NoSuchBond, sample_split).
Proof.
  split.
  - destruct (double_vote_report_exact sample_staking sample_stake sample_active sample_chain 10 0 Prevote
      [vote_by sample_chain 1 block_A] (vote_by sample_chain 1 block_B) sample_double_vote
      (VoteSet_add sample_active (vote_by sample_chain 1 block_B)
        (add_all sample_active (VoteSet_new sample_chain 10 0 Prevote) [vote_by sample_chain 1 block_A])).2 12) as (o & Ho & Hr).
    + apply sample_stake_ok.
    + by vm_compute.
    + apply run_outcome. by vm_compute.
    + side.
    + side.
    + assert (bond_of (eq_validator sample_double_vote) sample_stake
        = Ok (Some (Bond_new (key_account 1) (sample_key 1) (bs "ke") (Amount_from_afri 10)))) as Hb by (by vm_compute).
      rewrite Hb in Ho. injection Ho as <-. destruct Hr as (s' & Hr & _). exists s'. rewrite Hr. f_equal.
  - destruct (double_vote_report_exact sample_staking sample_split split_active sample_chain 10 0 Prevote
      [vote_by sample_chain 1 block_A] (vote_by sample_chain 1 block_B) sample_double_vote
      (VoteSet_add split_active (vote_by sample_chain 1 block_B)
        (add_all split_active (VoteSet_new sample_chain 10 0 Prevote) [vote_by sample_chain 1 block_A])).2 12) as (o & Ho & Hr).
    + apply sample_split_ok.
    + by vm_compute.
    + apply run_outcome. by vm_compute.
    + side.
    + side.
    + assert (bond_of (eq_validator sample_double_vote) sample_split = Ok None) as Hb by (by vm_compute).
      rewrite Hb in Ho. injection Ho as <-. exact Hr.
Defined.
