(* ===== verification/GroupWitnesses.v ===== *)
(** Concrete groups, accounts, names, bindings and decisions at which the theorems about
    them apply. *)

From S2P Require Import Prelude SortedVec Sorting Codec Primitives Crypto Store Records Group GroupProofs.
From S2P Require Import GroupTheorems Account Bank BankTheorems Params Alias AliasProofs Gov GovProofs GovTheorems.

#[local] Existing Instance sample_hasher.
#[local] Existing Instance sample_signer.

(** A computation is its result and the state it leaves. *)
Lemma ran {A B} (p : A * B) x : p.1 = x → p = (x, p.2).
Proof. destruct p. by intros <-. Qed.

Ltac side := vm_compute; first [reflexivity | discriminate | repeat split; first [reflexivity | discriminate]].

(** ** Groups *)

Definition founders : list FoundingMember :=
  {| fm_address := sample_address 1; fm_role := Treasurer |}
  :: ((λ n, {| fm_address := sample_address n; fm_role := OrdinaryMember |}) <$> [2; 3; 4]).
Definition dues : Contribution := {| c_amount := 100; c_denom := kes; period_blocks := 10 |}.
Definition sample_charter (pol : PayoutPolicy) : result GroupError GroupAccount :=
  GroupAccount_new (bs "upendo") ((λ f, into_member f 0) <$> founders) dues pol Quorum_TWO_THIRDS 5.
Definition opened (r : result GroupError GroupAccount) : option GroupAccount :=
  match r with Ok g => Some g | Err _ => None end.

Definition fund_policy : PayoutPolicy := Accumulate (ShareRules_vicoba 10).
Definition pot_policy : PayoutPolicy := Rotation (sample_address <$> [3; 1; 4; 2]) 0.

Lemma charter_wf_fund : charter_wf (bs "upendo") founders dues fund_policy Quorum_TWO_THIRDS 5.
Proof. split_and!; try side. repeat constructor; side. Qed.

(** Operations in a row, each of which must succeed. *)
Definition run_ops (ops : list group_op) (g : option GroupAccount) : option GroupAccount :=
  foldl (λ o op, g ← o; match run_op op g with (Ok _, g') => Some g' | (Err _, _) => None end) g ops.

Lemma run_ops_None ops : run_ops ops None = None.
Proof. by induction ops. Qed.

Lemma run_ops_history ops g g' : Forall op_wf ops → run_ops ops (Some g) = Some g' → group_history g g'.
Proof.
  assert (∀ g0, group_history g0 g → Forall op_wf ops → run_ops ops (Some g) = Some g' → group_history g0 g') as H.
  { revert g. induction ops as [|op ops IH]; intros g g0 Hh Hw Hr; [by injection Hr as <-|].
    apply Forall_cons in Hw as [Hop Hw]. cbn [run_ops foldl] in Hr. fold (run_ops ops) in Hr. simpl in Hr.
    destruct (run_op op g) as [[[]|e] g1] eqn:E; [|by fold (run_ops ops None) in Hr; rewrite run_ops_None in Hr].
    eapply (IH g1); [by eapply history_step|done|exact Hr]. }
  intros Hw. apply H; [constructor|done].
Qed.

Definition savings : list group_op :=
  (λ n, OpBuyShares (sample_address n) 5) <$> [1; 2; 3; 4].
Definition borrowing : list group_op :=
  OpPropose (sample_address 2) (KLoan 600 [sample_address 1; sample_address 3]) 2000
  :: (OpApprove <$> (sample_address <$> [1; 3])).
Definition lending : list group_op := [OpApprove (sample_address 4); OpIssueLoan 2000].
Definition turns (n : nat) : list group_op := replicate n (OpAdvance 5).

Definition group_after (pol : PayoutPolicy) (ops : list group_op) : GroupAccount :=
  default {| g_name := []; members := []; contribution := dues; policy := pol; quorum := Quorum_TWO_THIRDS; cycle := 0;
             cycle_started := 0; g_round := 0; round_start_cycle := 0; social_fund := 0; pending := None |}
    (run_ops ops (opened (sample_charter pol))).

Lemma ops_ok : Forall op_wf (savings ++ borrowing ++ lending ++ [OpRepay (sample_address 2) 60] ++ turns 12).
Proof. repeat constructor; try side. Qed.

Lemma group_invariant_witness :
  group_ok (group_after fund_policy (savings ++ borrowing ++ lending)) ∧
  decode_exact GroupAccount_codec (encode GroupAccount_codec (group_after fund_policy (savings ++ borrowing ++ lending)))
    = Ok (group_after fund_policy (savings ++ borrowing ++ lending)).
Proof.
  apply (group_invariant (bs "upendo") founders dues fund_policy Quorum_TWO_THIRDS 5 (group_after fund_policy [])).
  - apply charter_wf_fund.
  - by vm_compute.
  - apply (run_ops_history (savings ++ borrowing ++ lending)); [|by vm_compute].
    pose proof ops_ok as H. rewrite !Forall_app in *. naive_solver.
Defined.

(** Groups reached from their charter are sound. *)
Lemma group_after_ok pol ops :
  charter_wf (bs "upendo") founders dues pol Quorum_TWO_THIRDS 5 → Forall op_wf ops →
  bool_decide (is_Some (run_ops ops (opened (sample_charter pol)))) = true → group_ok (group_after pol ops).
Proof.
  intros Hc Hw Hr. apply bool_decide_eq_true in Hr as [g' Hr]. unfold group_after. rewrite Hr. simpl.
  unfold sample_charter in Hr. destruct (GroupAccount_new _ _ _ _ _ _) as [g|] eqn:E; [|by simpl in Hr; rewrite run_ops_None in Hr].
  eapply history_ok; [by eapply run_ops_history|]. by eapply GroupAccount_new_ok.
Qed.

Lemma forallb_le {A} (f : A → Z) c l : forallb (λ x, f x <=? c) l = true → Forall (λ x, f x ≤ c) l.
Proof. rewrite forallb_forall, Forall_forall. intros H x Hx%list_elem_of_In. by apply Z.leb_le, H. Qed.

Lemma saved_ok n : n ∈ [0; 12]%nat → group_ok (group_after fund_policy (savings ++ turns n)).
Proof.
  intros Hn. apply group_after_ok; [apply charter_wf_fund| |].
  - apply Forall_app. split; [repeat constructor; side|]. apply Forall_replicate. side.
  - repeat (apply elem_of_cons in Hn as [->|Hn]; [by vm_compute|]). by apply not_elem_of_nil in Hn.
Qed.

Lemma share_out_exact_witness :
  ∃ payments g', share_out 2000 (group_after fund_policy (savings ++ turns 12)) = (Ok payments, g') ∧ list_sum snd payments ≤ 2000.
Proof.
  destruct (share_out_exact (group_after fund_policy (savings ++ turns 12)) (ShareRules_vicoba 10) 2000)
    as (ps & g' & H1 & _ & H2 & _).
  - apply saved_ok. set_solver.
  - by vm_compute.
  - by vm_compute.
  - by vm_compute.
  - apply forallb_le. by vm_compute.
  - by vm_compute.
  - done.
  - by vm_compute.
  - exists ps, g'. exact (conj H1 H2).
Defined.

Lemma share_out_live_witness :
  ∃ payments g', share_out 2000 (close_cycles (replicate 12 5) (group_after fund_policy (savings ++ turns 0))) = (Ok payments, g')
    ∧ list_sum snd payments ≤ 2000.
Proof.
  apply (share_out_live (group_after fund_policy (savings ++ turns 0)) (ShareRules_vicoba 10) (replicate 12 5) 2000).
  - apply saved_ok. set_solver.
  - by vm_compute.
  - repeat constructor; side.
  - by vm_compute.
  - by vm_compute.
  - by vm_compute.
  - apply forallb_le. by vm_compute.
  - by vm_compute.
  - done.
Defined.

Lemma charter_wf_pot : charter_wf (bs "upendo") founders dues pot_policy Quorum_TWO_THIRDS 5.
Proof. split_and!; try side; repeat constructor; side. Qed.

Lemma rotation_pays_everyone_once_witness :
  recipients [10; 20; 30; 40] (group_after pot_policy []) ≡ₚ Some <$> addresses (group_after pot_policy []).
Proof.
  apply (rotation_pays_everyone_once (group_after pot_policy []) (sample_address <$> [3; 1; 4; 2]) 0 [10; 20; 30; 40]).
  - apply group_after_ok; [apply charter_wf_pot|constructor|by vm_compute].
  - by vm_compute.
  - by vm_compute.
Defined.

Lemma borrowing_ok : group_ok (group_after fund_policy (savings ++ borrowing)).
Proof.
  apply group_after_ok; [apply charter_wf_fund| |by vm_compute].
  pose proof ops_ok as H. rewrite !Forall_app in *. naive_solver.
Qed.

(** The state and result of an operation at a sample group. *)
Definition approved : result GroupError bool * GroupAccount :=
  approve (sample_address 4) (group_after fund_policy (savings ++ borrowing)).
Lemma approve_quorum_witness :
  approved.1 = Ok true ∧ ∃ p, pending approved.2 = Some p ∧ 2 * 4 ≤ Z.of_nat (length (approvals p)) * 3.
Proof.
  split; [by vm_compute|].
  destruct (approve_quorum (group_after fund_policy (savings ++ borrowing)) (sample_address 4) true approved.2 borrowing_ok)
    as (p & p' & _ & Hp & _ & _ & _ & _ & _ & _ & Hq).
  - assert (approved.1 = Ok true) as H1 by (by vm_compute). revert H1. unfold approved. apply ran.
  - exists p'. split; [done|]. pose proof (proj1 Hq eq_refl) as Hle. revert Hle.
    change (q_numerator _) with 2. change (q_denominator _) with 3. change (length (members _)) with 4%nat. lia.
Defined.

Definition loaned : GroupAccount := group_after fund_policy (savings ++ borrowing ++ lending).
Lemma loaned_ok : group_ok loaned.
Proof.
  apply group_after_ok; [apply charter_wf_fund| |by vm_compute].
  pose proof ops_ok as H. rewrite !Forall_app in *. naive_solver.
Qed.

Lemma repay_exact_witness :
  ∃ i m m', members (repay (sample_address 2) 660 loaned).2 = <[i := m']> (members loaned)
    ∧ members loaned !! i = Some m ∧ debt m' = debt m - 660.
Proof.
  destruct (repay_exact loaned (sample_address 2) 660 (repay (sample_address 2) 660 loaned).2 loaned_ok)
    as (i & m & m' & l & Hi & _ & _ & _ & Hms & Hd & _).
  - by vm_compute.
  - assert ((repay (sample_address 2) 660 loaned).1 = Ok tt) as H1 by (by vm_compute). revert H1. apply ran.
  - exists i, m, m'. exact (conj Hms (conj Hi Hd)).
Defined.

Lemma reliability_exact_witness :
  ∃ m, members (group_after fund_policy (savings ++ turns 0)) !! 0%nat = Some m ∧ reliability_bps m = Some 10000.
Proof.
  destruct (members (group_after fund_policy (savings ++ turns 0)) !! 0%nat) as [m|] eqn:E; [|done].
  exists m. split; [done|].
  destruct (reliability_exact (group_after fund_policy (savings ++ turns 0)) m) as [_ ->].
  - apply saved_ok. set_solver.
  - by eapply list_elem_of_lookup_2.
  - by vm_compute.
  - revert E. vm_compute. by intros [= <-].
Defined.

(** ** Accounts *)

Definition sample_pk (n : Z) : PublicKey := replicate 32 (byte_of n).
Definition sample_account : Account := Account_with_key (sample_pk 7).

Lemma authorises_iff_witness : authorises sample_account [sample_pk 7] = true.
Proof.
  apply (authorises_iff sample_account [sample_pk 7]); [by vm_compute|apply NoDup_singleton|by vm_compute|].
  split; [by vm_compute|]. left. exists (sample_pk 7). split; [done|]. left. by vm_compute.
Defined.

(** ** Names *)

Definition sample_unicode : Unicode := {| to_lowercase s := ascii_lower <$> s; to_lowercase_ascii s _ := eq_refl |}.
#[local] Existing Instance sample_unicode.

Definition amina : Username := bs "amina".
Definition sample_registrations : list (Height * registry_op) :=
  [(1, RegRegister amina (sample_address 1)); (2, RegRegister (bs "arnina") (sample_address 2))].

Lemma no_confusable_names_witness :
  live (kv_map (registry_run sample_registrations (∅ : gmap bytes bytes))) amina 3 ∧ amina = amina.
Proof.
  assert (live (kv_map (registry_run sample_registrations (∅ : gmap bytes bytes))) amina 3) as Hl.
  { eexists. split; [by vm_compute|by vm_compute]. }
  split; [exact Hl|].
  apply (no_confusable_names (∅ : gmap bytes bytes) sample_registrations 3 amina amina).
  - done.
  - repeat constructor; side.
  - repeat constructor; side.
  - repeat constructor; side.
  - done.
  - by vm_compute.
  - by vm_compute.
  - exact Hl.
  - exact Hl.
  - done.
Defined.

(** ** Contacts *)

Definition sample_contact : bytes := replicate 32 (byte_of 9).
Definition sample_bound : gmap bytes bytes :=
  binding_run [(1, BLicense (sample_address 5) {| at_country := bs "ke"; at_name := bs "telco"; active := true |});
               (2, BAttest sample_contact (sample_address 1) (sample_address 5))] ∅.

Definition bound_record : ContactRecord :=
  {| ct_address := sample_address 1; ct_issuer := sample_address 5; attested_at := 2; rebind := None |}.
Definition hijack : list (Height * binding_op) :=
  [(10, BRequest 100 sample_contact (sample_address 2) (sample_address 5)); (60, BApply sample_contact)].

Lemma rebind_needs_notice_witness :
  ∃ r, contact_at (kv_map (binding_run hijack sample_bound)) sample_contact = Some r ∧ ct_address r = sample_address 1.
Proof.
  destruct (rebind_needs_notice 100 sample_bound hijack sample_contact bound_record 5) as (r' & H1 & H2 & _).
  - done.
  - done.
  - by vm_compute.
  - done.
  - by vm_compute.
  - repeat constructor; side.
  - exists r'. exact (conj H1 H2).
Defined.

(** ** Decisions *)

Definition sample_seat (n : Z) (c : bytes) : Seat := {| holder := sample_address n; seat_weight := 1; seat_country := c |}.
Definition sample_council : Council :=
  {| seats := [sample_seat 1 (bs "ke"); sample_seat 2 (bs "tz"); sample_seat 3 (bs "ug"); sample_seat 4 (bs "rw")];
     threshold_bps := 6667 |}.
Definition governed : gmap bytes bytes := (install sample_council ChainParams_default (∅ : gmap bytes bytes)).2.
Definition admit_kes : Action := AdmitDenom kes (sample_address 6).
Definition debated : list (Height * gov_op) :=
  (10, GovPropose (sample_address 1) admit_kes) :: ((λ n, (20, GovVote (sample_address n) 0)) <$> [1; 2; 3]).
Definition executed : result GovError Action * gmap bytes bytes := gov_execute 0 200000 (gov_run debated governed).

Lemma sample_council_wf : wf Council_codec sample_council.
Proof. split; [split; [split; [side|repeat constructor; side]|side]|side]. Qed.

Lemma governed_installed : install sample_council ChainParams_default (∅ : gmap bytes bytes) = (Ok tt, governed).
Proof.
  assert ((install sample_council ChainParams_default (∅ : gmap bytes bytes)).1 = Ok tt) as H1 by (by vm_compute).
  revert H1. unfold governed. apply ran.
Qed.

Lemma default_params_wf : wf ChainParams_codec ChainParams_default.
Proof. side. Qed.
Lemma governed_ok : gov_ok (kv_map governed).
Proof. exact (proj1 (proj2 (install_Ok _ _ _ _ _ sample_council_wf default_params_wf governed_installed))). Qed.
Lemma governed_fresh i : proposal_at (kv_map governed) i = None.
Proof.
  destruct (install_Ok _ _ _ _ _ sample_council_wf default_params_wf governed_installed) as (E & _).
  unfold proposal_at, record_at. rewrite E, !lookup_insert_ne by ns_ne. reflexivity.
Qed.

Lemma gov_limits_witness : params_ok (params_at (kv_map (gov_run debated governed))).
Proof.
  destruct (gov_limits sample_council ChainParams_default ∅ governed debated ChainParams_default) as [H _].
  - apply sample_council_wf.
  - apply default_params_wf.
  - exact governed_installed.
  - by vm_compute.
  - exact H.
Defined.

Lemma executed_was_announced_witness :
  executed.1 = Ok admit_kes ∧ ∃ h who, (h, GovPropose who admit_kes) ∈ debated.
Proof.
  split; [by vm_compute|].
  apply (executed_was_announced governed debated 0 200000 admit_kes executed.2).
  - exact governed_ok.
  - exact governed_fresh.
  - repeat constructor; side.
  - by vm_compute.
  - side.
  - by vm_compute.
  - assert (executed.1 = Ok admit_kes) as H1 by (by vm_compute). revert H1. unfold executed. apply ran.
Defined.
