(* ===== verification/Footprint.v ===== *)
(** What an operation may write: a small logic of footprints.  [footprint nss m m']
    says that two stores agree on every key outside the namespaces [nss];
    [touches nss op] that an operation, whether it succeeds or fails, keeps to them.
    The rules follow the combinators operations are written with, so that
    [solve_touches] reads a module's footprint off its code. *)

From S2P Require Import Prelude SortedVec Codec Primitives Crypto Smt Store Records Issuer Bank Validators Votes.
From S2P Require Import Params Alias Group Gov Staking.

Implicit Types (m : gmap bytes bytes) (k : bytes) (nss : list Namespace).

Definition in_ns (ns : Namespace) k : Prop := head k = Some (byte_of (Namespace_byte ns)).
#[export] Instance in_ns_dec ns k : Decision (in_ns ns k).
Proof. unfold in_ns. apply _. Defined.
Definition footprint nss m m' : Prop := ∀ k, (∀ ns, ns ∈ nss → ¬ in_ns ns k) → m' !! k = m !! k.

Lemma in_ns_key ns parts : in_ns ns (StoreKey_new ns parts).
Proof. done. Qed.
Lemma in_ns_key_iff ns ns' parts : in_ns ns (StoreKey_new ns' parts) ↔ ns = ns'.
Proof.
  split; [|by intros ->]. unfold in_ns, StoreKey_new. intros [= E]. by apply Namespace_byte_of_inj in E.
Qed.

#[export] Instance footprint_refl nss : Reflexive (footprint nss).
Proof. by intros m k. Qed.
#[export] Instance footprint_trans nss : Transitive (footprint nss).
Proof. intros m1 m2 m3 H1 H2 k Hk. by rewrite H2, H1. Qed.

Lemma footprint_weaken nss nss' m m' : nss ⊆ nss' → footprint nss m m' → footprint nss' m m'.
Proof. intros Hs Hf k Hk. apply Hf. intros ns Hns. by apply Hk, Hs. Qed.

Lemma footprint_key nss m m' ns parts :
  footprint nss m m' → ns ∉ nss → m' !! StoreKey_new ns parts = m !! StoreKey_new ns parts.
Proof. intros Hf Hns. apply Hf. intros ns' Hin ->%in_ns_key_iff. done. Qed.

Lemma footprint_insert nss m ns parts v : ns ∈ nss → footprint nss m (<[StoreKey_new ns parts := v]> m).
Proof. intros Hns k Hk. rewrite lookup_insert_ne; [done|]. intros <-. by apply (Hk ns Hns), in_ns_key. Qed.
Lemma footprint_delete nss m ns parts : ns ∈ nss → footprint nss m (delete (StoreKey_new ns parts) m).
Proof. intros Hns k Hk. rewrite lookup_delete_ne; [done|]. intros <-. by apply (Hk ns Hns), in_ns_key. Qed.

(** A sum over the store does not move when nothing that weighs in it is written. *)
Lemma map_sum_agree {V} (w : bytes → V → Z) (m m' : gmap bytes V) :
  (∀ k, m' !! k = m !! k ∨ ∀ v, w k v = 0) → map_sum w m' = map_sum w m.
Proof.
  assert (∀ l : gmap bytes V, map_sum w l = map_sum w (filter (λ p, w p.1 p.2 ≠ 0) l)) as Hf.
  { intros l. induction l as [|k v l Hk IH] using map_ind; [done|]. rewrite map_sum_insert_fresh, IH by done.
    destruct (decide (w k v = 0)) as [E|E].
    - rewrite map_filter_insert_not'; [by rewrite E|simpl; lia|naive_solver].
    - rewrite map_filter_insert_True by done. rewrite map_sum_insert_fresh; [done|].
      apply map_lookup_filter_None. by left. }
  intros Hk. rewrite (Hf m), (Hf m'). f_equal. apply map_eq. intros k. apply option_eq. intros v.
  rewrite !map_lookup_filter_Some. simpl. destruct (Hk k) as [->|Hz]; [done|]. rewrite Hz. naive_solver.
Qed.

Lemma footprint_sum {w : bytes → bytes → Z} nss m m' :
  (∀ ns k v, ns ∈ nss → in_ns ns k → w k v = 0) → footprint nss m m' → map_sum w m' = map_sum w m.
Proof.
  intros Hw Hf. apply map_sum_agree. intros k.
  destruct (decide (Exists (λ ns, in_ns ns k) nss)) as [He|He].
  - right. intros v. apply Exists_exists in He as (ns & Hns & Hk). by eapply Hw.
  - left. apply Hf. intros ns Hns Hk. apply He, Exists_exists. eauto.
Qed.

(** * Operations *)

Section touches.
Context {St : Type} {KV : KeyValueStore St} {KM : KVMap St}.
Implicit Types (s : St).

Definition touches nss {E A} (op : M St E A) : Prop :=
  ∀ s r s', op s = (r, s') → footprint nss (kv_map s) (kv_map s').

Definition writes_in nss (f : St → St) : Prop := ∀ s, footprint nss (kv_map s) (kv_map (f s)).

Context {E : Type}.

Lemma touches_ret nss {A} (a : A) : touches nss (ret (E:=E) a).
Proof. by intros s r s' [= _ <-]. Qed.
Lemma touches_throw nss {A} (e : E) : touches nss (throw (A:=A) e).
Proof. by intros s r s' [= _ <-]. Qed.
Lemma touches_reads nss {A} (f : St → result E A) : touches nss (reads f).
Proof. by intros s r s' [= _ <-]. Qed.
Lemma touches_lift nss {A} (x : result E A) : touches nss (lift x).
Proof. by intros s r s' [= _ <-]. Qed.
Lemma touches_fail_if nss b (e : E) : touches nss (fail_if b e).
Proof. by intros s r s' [= _ <-]. Qed.
Lemma touches_bind nss {A B} (op : M St E A) (f : A → M St E B) :
  touches nss op → (∀ a, touches nss (f a)) → touches nss (bind op f).
Proof.
  intros H1 H2 s r s' H. unfold bind in H. destruct (op s) as [[a|e] s1] eqn:E1.
  - etrans; [by eapply H1|by eapply H2].
  - injection H as <- <-. by eapply H1.
Qed.
Lemma touches_wrap_err nss {F A} (g : F → E) (op : M St F A) : touches nss op → touches nss (wrap_err g op).
Proof. intros H s r s' Hr. unfold wrap_err in Hr. destruct (op s) as [r1 s1] eqn:E1. injection Hr as <- <-. by eapply H. Qed.
Lemma touches_writes nss (f : St → St) : writes_in nss f → touches nss (writes (E:=E) f).
Proof. by intros H s r s' [= _ <-]. Qed.

Lemma writes_in_set nss ns parts (f : St → bytes) :
  ns ∈ nss → writes_in nss (λ s, kv_set s (StoreKey_new ns parts) (f s)).
Proof. intros Hns s. rewrite kv_set_map. by apply footprint_insert. Qed.
Lemma writes_in_set_encoded nss {A} (c : codec A) ns parts (f : St → A) :
  ns ∈ nss → writes_in nss (λ s, set_encoded c s (StoreKey_new ns parts) (f s)).
Proof. intros Hns s. unfold set_encoded. rewrite kv_set_map. by apply footprint_insert. Qed.
Lemma writes_in_delete nss ns parts :
  ns ∈ nss → writes_in nss (λ s, (kv_delete s (StoreKey_new ns parts)).1).
Proof. intros Hns s. rewrite kv_delete_map. by apply footprint_delete. Qed.

Lemma touches_weaken nss nss' {A} (op : M St E A) : nss ⊆ nss' → touches nss op → touches nss' op.
Proof. intros Hs H s r s' Hr. eapply footprint_weaken; [done|by eapply H]. Qed.
End touches.
Arguments touches {_ _ _} _ {_ _} _.
Arguments writes_in {_ _ _} _ _.

Create HintDb footprint.
#[export] Hint Resolve touches_ret touches_throw touches_reads touches_lift touches_fail_if : footprint.

Ltac in_list := repeat first [by left | right].
Ltac solve_touches :=
  repeat match goal with
  | |- touches _ (bind _ _) => apply touches_bind; [|intros ?]
  | |- touches _ (wrap_err _ _) => apply touches_wrap_err
  | |- touches _ (writes _) =>
      apply touches_writes; first [apply writes_in_set | apply writes_in_set_encoded | apply writes_in_delete]; in_list
  | |- touches _ (match ?x with _ => _ end) => destruct x
  | |- touches _ _ => solve [auto with footprint nocore]
  end.

(** * The modules *)

Definition bank_ns : list Namespace := [NsBalance; NsSupply; NsIssuer; NsFrozen].
Definition staking_ns : list Namespace := NsValidator :: NsUnbonding :: NsBondIndex :: bank_ns.
Definition gov_ns : list Namespace := [NsParams; NsCouncil; NsProposal; NsProposalIndex].
Definition alias_ns : list Namespace := [NsAlias; NsAliasSkeleton; NsAliasReverse; NsContact; NsAttestor].

Section bank.
Context {St : Type} {KV : KeyValueStore St} {KM : KVMap St}.

Lemma write_amount_in ns parts x : ns ∈ [NsBalance; NsSupply] → writes_in bank_ns (write_amount (StoreKey_new ns parts) x).
Proof.
  intros Hns s. assert (ns ∈ bank_ns) by set_solver. unfold write_amount. destruct (Amount_is_zero x).
  - by apply writes_in_delete.
  - by apply (writes_in_set_encoded _ Amount_codec ns parts (λ _, x)).
Qed.
Lemma write_balance_touches a d x : touches bank_ns (write_balance a d x).
Proof. apply touches_writes, write_amount_in. in_list. Qed.
Lemma write_supply_touches d x : touches bank_ns (write_supply d x).
Proof. apply touches_writes, write_amount_in. in_list. Qed.
End bank.
#[export] Hint Resolve write_balance_touches write_supply_touches : footprint.

Section modules.
Context {Hs : Hasher} {Sg : Signer} {Un : Unicode} {St : Type} {KV : KeyValueStore St} {KM : KVMap St}.

Lemma bank_touches c : touches bank_ns (bank_exec c).
Proof.
  destruct c; cbn [bank_exec];
    unfold transfer, mint, burn, set_minter_allowance, transfer_issuer_authority, accept_issuer_authority, set_freezer,
      set_paused, tighten_supply_cap, emit_native, slash_native, genesis_allocate, admit_issuer, register_issuer, freeze,
      unfreeze, credit, require_authority, require_issuer, balance, total_supply, frozen, issuer, write_issuer;
    unfold key_issuer, key_frozen.
  all: solve_touches.
Qed.
Lemma transfer_touches from to d x : touches bank_ns (transfer from to d x).
Proof. apply (bank_touches (Transfer from to d x)). Qed.

(** ** Staking *)

Lemma bank_in_staking {E A} (op : M St E A) : touches bank_ns op → touches staking_ns op.
Proof. apply touches_weaken. by do 3 apply list_subseteq_cons. Qed.

Lemma write_queue_touches op q : touches staking_ns (write_queue op q).
Proof. unfold write_queue, key_unbonding. apply touches_writes. destruct q; [apply writes_in_delete|apply writes_in_set]; in_list. Qed.

Lemma slash_touches op i h : touches staking_ns (slash op i h).
Proof.
  unfold slash, require_bond, write_bond, key_bond. solve_touches; try apply write_queue_touches.
  apply bank_in_staking, (bank_touches (SlashNative _ _)).
Qed.

Ltac staking_op :=
  unfold bond, add_stake, unbond, withdraw, unjail, report_equivocation, slash_equivocation, require_bond, write_bond,
    write_index, key_bond, key_bond_index;
  solve_touches; solve [apply write_queue_touches | apply slash_touches | apply bank_in_staking, transfer_touches].

Lemma bond_touches params op pk country x : touches staking_ns (bond params op pk country x).
Proof. staking_op. Qed.
Lemma add_stake_touches op x : touches staking_ns (add_stake op x).
Proof. staking_op. Qed.
Lemma unbond_touches params op x h now : touches staking_ns (unbond params op x h now).
Proof. staking_op. Qed.
Lemma withdraw_touches op now : touches staking_ns (withdraw op now).
Proof. staking_op. Qed.
Lemma unjail_touches op : touches staking_ns (unjail op).
Proof. staking_op. Qed.
Lemma slash_equivocation_touches e set h : touches staking_ns (slash_equivocation e set h).
Proof. staking_op. Qed.
Lemma report_touches params e h : touches staking_ns (report_equivocation params e h).
Proof. staking_op. Qed.

(** ** Governance and addressing *)

Lemma sweep_ids_touches now ids : touches gov_ns (sweep_ids now ids).
Proof. induction ids as [|id ids IH]; cbn [sweep_ids]; unfold key_proposal; solve_touches; done. Qed.

Lemma remove_touches id : touches gov_ns (remove id).
Proof. unfold remove, put_queue_index, key_proposal, key_proposal_index. solve_touches. Qed.

Lemma gov_touches sender a id now :
  touches gov_ns (gov_propose sender a now) ∧ touches gov_ns (gov_vote sender id now)
  ∧ touches gov_ns (gov_execute id now).
Proof.
  unfold gov_propose, gov_vote, gov_execute, sweep_lapsed, precheck, require_council, require_proposal, put_queue_index,
    put_proposal, key_proposal_index, key_proposal.
  split_and!; solve_touches; solve [apply sweep_ids_touches | apply remove_touches].
Qed.

Lemma enactment_touches c p : touches gov_ns (set_council c) ∧ touches gov_ns (set_params p).
Proof. unfold set_council, set_params, put_council, put_params, key_council, key_params. split; solve_touches. Qed.

Lemma registry_touches name a b now :
  touches alias_ns (register name a now) ∧ touches alias_ns (renew name a now)
  ∧ touches alias_ns (name_transfer name a b now) ∧ touches alias_ns (set_primary name a now)
  ∧ touches alias_ns (clear_primary a) ∧ touches alias_ns (name_release name a now).
Proof.
  unfold register, renew, name_transfer, set_primary, clear_primary, name_release, owned_by, drop_display_name, put_name.
  unfold key_alias, key_alias_skeleton, key_alias_reverse. split_and!; solve_touches.
Qed.

Lemma binding_touches c a b now delay att on :
  touches alias_ns (attest c a b now) ∧ touches alias_ns (request_rebind delay c a b now)
  ∧ touches alias_ns (veto_rebind c a) ∧ touches alias_ns (apply_rebind c now) ∧ touches alias_ns (revoke c a)
  ∧ touches alias_ns (register_attestor a att) ∧ touches alias_ns (set_attestor_active a on).
Proof.
  unfold attest, request_rebind, veto_rebind, apply_rebind, revoke, set_attestor_active, register_attestor,
    require_active_attestor, require_binding, put_contact.
  unfold key_contact, key_attestor. split_and!; solve_touches.
Qed.
End modules.
#[export] Hint Resolve bond_touches add_stake_touches unbond_touches withdraw_touches unjail_touches
  slash_equivocation_touches report_touches : footprint.
