(* ===== verification/Executor.v ===== *)
(** Block execution ([crates/executor/src/lib.rs]): result codes and receipts, the
    message handlers, one transaction and one block.

    The store is any [KeyValueStore].  [store.clone()] is the store value itself, so
    the sandbox of a transaction is the state threaded through its messages, kept or
    dropped as the code does. *)

From S2P Require Import Prelude SortedVec Sorting Codec Primitives Crypto Merkle Store Params Group Account Issuer.
From S2P Require Import Validators Votes Bank Staking Alias Gov Tx.

Definition FEE_COLLECTOR : bytes := bs "fee_collector".

(** * Errors and result codes *)

Inductive ExecError :=
| XTx (e : TxError)
| WrongNonce (expected got : Z)
| XBank (e : BankError)
| XGroup (e : GroupError)
| XStaking (e : StakingError)
| NoSuchAccount
| NotAGroup
| AccountExists
| FeeDenomNotAccepted (denom : bytes)
| NotAGroupMember
| NoRotationRecipient
| Unauthorised
| SponsorUnauthorised
| WouldLockOut
| RegularKeyIsMasterKey
| ReferenceRequired
| XRegistry (e : RegistryError)
| XBind (e : BindError)
| XGov (e : GovError)
| XState (e : StateError).

Inductive ResultCode :=
| RSuccess | RTransaction | RNonce | RBank | RGroup | RStaking | RAccount | RRegistry | RBinding | RGovernance
| RState | RReference | RAuthorisation.

#[export] Instance ResultCode_eq_dec : EqDecision ResultCode.
Proof. solve_decision. Defined.

Definition as_u16 (c : ResultCode) : Z :=
  match c with
  | RSuccess => 0 | RTransaction => 1 | RNonce => 2 | RBank => 3 | RGroup => 4 | RStaking => 5 | RAccount => 6
  | RRegistry => 7 | RBinding => 8 | RState => 9 | RReference => 10 | RAuthorisation => 11 | RGovernance => 12
  end.

Definition from_u16 (value : Z) : option ResultCode :=
  match value with
  | 0 => Some RSuccess | 1 => Some RTransaction | 2 => Some RNonce | 3 => Some RBank | 4 => Some RGroup
  | 5 => Some RStaking | 6 => Some RAccount | 7 => Some RRegistry | 8 => Some RBinding | 9 => Some RState
  | 10 => Some RReference | 11 => Some RAuthorisation | 12 => Some RGovernance
  | _ => None
  end.

Definition ResultCode_succeeded (c : ResultCode) : bool := match c with RSuccess => true | _ => false end.

(** [ResultCode::from(&ExecError)]. *)
Definition code_of (e : ExecError) : ResultCode :=
  match e with
  | XTx _ => RTransaction
  | WrongNonce _ _ => RNonce
  | XBank _ => RBank
  | XGroup _ => RGroup
  | XStaking _ => RStaking
  | NoSuchAccount | AccountExists | NotAGroup | NotAGroupMember | NoRotationRecipient => RAccount
  | ReferenceRequired => RReference
  | FeeDenomNotAccepted _ => RBank
  | Unauthorised | SponsorUnauthorised | WouldLockOut | RegularKeyIsMasterKey => RAuthorisation
  | XRegistry _ => RRegistry
  | XBind _ => RBinding
  | XGov _ => RGovernance
  | XState _ => RState
  end.

(** * Receipts *)

Record TouchedAccount := { ta_address : Address; previous : option TxPointer }.
Record TxReceipt := { r_tx_id : Hash32; code : ResultCode; fee_charged : Amount; touched : list TouchedAccount }.
Record TxOutcome := { receipt : TxReceipt; outcome : result ExecError unit }.
Record BlockOutcome := { o_app_hash : Hash32; outcomes : list TxOutcome }.

(** [previous_for]: an error when the receipt does not name the account. *)
Definition previous_for (r : TxReceipt) (address : Address) : option (option TxPointer) :=
  previous ∘ snd <$> list_find (λ e, ta_address e = address) (touched r).

Definition TxOutcome_succeeded (o : TxOutcome) : bool := is_ok (outcome o).
Definition rejected (id : Hash32) (e : ExecError) : TxOutcome :=
  {| receipt := {| r_tx_id := id; code := code_of e; fee_charged := 0; touched := [] |}; outcome := Err e |}.
Definition BlockOutcome_succeeded (b : BlockOutcome) : nat := length (List.filter TxOutcome_succeeded (outcomes b)).

Definition ResultCode_codec : codec ResultCode := {|
  encode := λ c, encode u16_codec (as_u16 c);
  decode := λ r,
    '(raw, r) ← decode u16_codec r;
    match from_u16 raw with
    | Some c => Ok (c, r)
    | None => Err (UnknownDiscriminant (if raw <=? u8_max then raw else u8_max) "ResultCode")
    end;
  wf := λ _, True;
|}.

Definition TouchedAccount_codec : codec TouchedAccount :=
  iso_codec (λ '(a, p), {| ta_address := a; previous := p |}) (λ t, (ta_address t, previous t))
    (Address_codec ⊗ option_codec TxPointer_codec).

Definition TxReceipt_check (r : TxReceipt) : result CodecError unit :=
  if negb (is_sorted_by (λ x y, bytes_ltb (ta_address x) (ta_address y)) (touched r))
  then Err (CodecInvalid "receipt touched-list must be sorted and unique") else Ok tt.
Definition TxReceipt_codec : codec TxReceipt :=
  guard_codec TxReceipt_check
    (iso_codec (λ '(i, (c, (f, t))), {| r_tx_id := i; code := c; fee_charged := f; touched := t |})
       (λ r, (r_tx_id r, (code r, (fee_charged r, touched r))))
       (Hash32_codec ⊗ ResultCode_codec ⊗ Amount_codec ⊗ vec_codec TouchedAccount_codec)).

Lemma from_as_u16 c : from_u16 (as_u16 c) = Some c.
Proof. by destruct c. Qed.
Lemma as_from_u16 x c : from_u16 x = Some c → as_u16 c = x.
Proof. unfold from_u16. intros H. repeat case_match; simplify_eq; done. Qed.

#[export] Instance ResultCode_lawful : Lawful ResultCode_codec.
Proof.
  split; unfold ResultCode_codec; cbn [encode decode wf].
  - intros c rest _. rewrite decode_encode by (destruct c; vm_compute; intuition congruence).
    cbn [mbind result_bind]. by rewrite from_as_u16.
  - intros b c rest Hd. decode_inv. destruct (from_u16 _) eqn:E; [|done]. simplify_eq.
    match goal with H : decode u16_codec _ = _ |- _ => apply decode_sound in H as [_ ->] end.
    by rewrite (as_from_u16 _ _ E).
Qed.
#[export] Instance TouchedAccount_lawful : Lawful TouchedAccount_codec.
Proof. unfold TouchedAccount_codec. struct_lawful. Qed.
#[export] Instance TxReceipt_lawful : Lawful TxReceipt_codec.
Proof. apply guard_lawful. struct_lawful. Qed.
Arguments ResultCode_codec : simpl never.
Arguments TouchedAccount_codec : simpl never.
Arguments TxReceipt_codec : simpl never.

(** * Operations *)

Record BlockContext := { ctx_height : Height; ctx_time : Timestamp }.

(** [KeyValueStore::root]. *)
Class Rooted (St : Type) := { kv_root : St → Hash32 }.

Section executor.
Context {Hs : Hasher} {Sg : Signer} {Un : Unicode} {St : Type} {KV : KeyValueStore St}.
Abbreviation X := (M St ExecError).

Definition fee_collector_address : Address := Address_derived DModuleAddress FEE_COLLECTOR.

(** ** Helpers *)

Definition params_of (s : St) : result ExecError ChainParams := map_err XGov (gov_params s).

(** [staking(store)?]: the module, opened with the parameters in force. *)
Definition with_staking {A} (op : StakingParams → M St StakingError A) : X A :=
  let! p := reads params_of in
  wrap_err XStaking (op (Params.staking p)).

Definition load_account (address : Address) (s : St) : result ExecError Account :=
  o ← map_err XState (get_decoded Account_codec s (key_account address));
  Ok (default (Account_individual address) o).
Definition load_existing_account (address : Address) (s : St) : result ExecError Account :=
  o ← map_err XState (get_decoded Account_codec s (key_account address));
  ok_or NoSuchAccount o.

Definition store_account (address : Address) (a : Account) (s : St) : St :=
  set_encoded Account_codec s (key_account address) a.

Definition accepts_as_fee (denom : Denom) (s : St) : result ExecError bool :=
  if Denom_is_native denom then Ok true
  else o ← map_err XBank (view_issuer s denom); Ok (bool_decide (is_Some o)).

Definition change_account (sender : Address) (change : Account → result ExecError Account) : X unit :=
  let! account := reads (load_account sender) in
  let! account := lift (change account) in
  do! fail_if (negb (has_a_usable_authority account)) WouldLockOut in
  writes (store_account sender account).

Definition ensure_account (address : Address) (s : St) : St :=
  match kv_get s (key_account address) with
  | None => store_account address (Account_individual address) s
  | Some _ => s
  end.

(** [get_decoded(..).ok().flatten().unwrap_or_else(..)]. *)
Definition account_or_new (address : Address) (s : St) : Account :=
  match get_decoded Account_codec s (key_account address) with
  | Ok (Some a) => a
  | _ => Account_individual address
  end.

Definition move_history_pointer (address : Address) (pointer : TxPointer) (s : St) : option TxPointer * St :=
  let account := account_or_new address s in
  (last_txn account, store_account address (with_last_txn (Some pointer) account) s).

Definition bump_nonce (address : Address) (s : St) : St :=
  store_account address (increment_nonce (account_or_new address s)) s.

Definition apply_gov_action (a : Action) : X unit :=
  match a with
  | SetCouncil c => wrap_err XGov (set_council c)
  | SetParams p => wrap_err XGov (set_params p)
  | LicenseAttestor address att =>
      do! wrap_err XBind (register_attestor address att) in
      writes (ensure_account address)
  | SetAttestorActive address on => wrap_err XBind (set_attestor_active address on)
  | AdmitDenom denom authority =>
      do! wrap_err XBank (admit_issuer denom authority) in
      writes (ensure_account authority)
  | Cancel proposal => throw (XGov (NotScheduled proposal))
  end.

(** ** Group messages *)

(** The opening of every group arm: the record, its group, and the sender's
    membership. *)
Definition open_group (group sender : Address) : X (Account * GroupAccount) :=
  let! account := reads (load_existing_account group) in
  let! g := lift (ok_or NotAGroup (as_group account)) in
  do! fail_if (negb (Group.is_member g sender)) NotAGroupMember in
  ret (account, g).

(** A [&mut self] method of the group held in the account. *)
Definition on_group {A} (op : M GroupAccount GroupError A) (g : GroupAccount) : X (A * GroupAccount) :=
  match op g with
  | (Ok x, g') => ret (x, g')
  | (Err e, _) => throw (XGroup e)
  end.

Definition save_group (group : Address) (account : Account) (g : GroupAccount) : X unit :=
  writes (store_account group (with_kind (GroupKind g) account)).

Definition denom_of (g : GroupAccount) : Denom := c_denom (contribution g).

Definition pay (from to : Address) (denom : Denom) (amount : Amount) : X unit :=
  wrap_err XBank (Bank.transfer from to denom amount).
Definition ledger (a : Address) (denom : Denom) : X Amount := wrap_err XBank (Bank.balance a denom).

Definition create_group (ctx : BlockContext) (sender : Address) (name : bytes) (members : list FoundingMember)
    (contribution : Contribution) (policy : PayoutPolicy) (quorum : Quorum) : X unit :=
  let! account := reads (load_account sender) in
  let group_address := Address_derived DGroupAddress (sender ++ encode u64_codec (nonce account)) in
  let member_records := (λ m, into_member m 0) <$> members in
  let! group :=
    lift (map_err XGroup (GroupAccount_new name member_records contribution policy quorum (ctx_height ctx))) in
  let! account := reads (load_account group_address) in
  do! match a_kind account with Individual _ => ret tt | _ => throw AccountExists end in
  writes (store_account group_address (with_kind (GroupKind group) account)).

Definition contribute_to_group (sender group : Address) (amount : Amount) : X unit :=
  let! '(account, g) := open_group group sender in
  do! fail_if (negb (amount =? c_amount (contribution g)))
        (XGroup (WrongContributionAmount (u128_to_string (c_amount (contribution g))) (u128_to_string amount))) in
  let! '(_, g') := on_group (record_contribution sender) g in
  do! pay sender group (denom_of g) amount in
  save_group group account g'.

Definition group_payout (ctx : BlockContext) (sender group : Address) : X unit :=
  let! '(account, g) := open_group group sender in
  let! recipient := lift (ok_or NoRotationRecipient (next_recipient g)) in
  do! fail_if (negb (payout_due g (ctx_height ctx))) (XGroup CycleNotDue) in
  let! pot := ledger group (denom_of g) in
  do! fail_if (Amount_is_zero pot) (XGroup EmptyPot) in
  do! pay group recipient (denom_of g) pot in
  save_group group account (advance_cycle (ctx_height ctx) g).

Definition buy_group_shares (sender group : Address) (n : Z) : X unit :=
  let! '(account, g) := open_group group sender in
  let! '(cost, g') := on_group (buy_shares sender n) g in
  do! pay sender group (denom_of g) cost in
  save_group group account g'.

Definition pay_social_fund (sender group : Address) : X unit :=
  let! '(account, g) := open_group group sender in
  let! '(amount, g') := on_group (pay_social sender) g in
  do! pay sender group (denom_of g) amount in
  save_group group account g'.

Definition propose_group_action (sender group beneficiary : Address) (kind : ProposalKind) : X unit :=
  let! '(account, g) := open_group group sender in
  let! balance := ledger group (denom_of g) in
  let! '(_, g') := on_group (open_proposal beneficiary kind balance) g in
  save_group group account g'.

(** Approval, and the payment it carries out when it reaches the quorum. *)
Definition approve_and_issue (sender : Address) (balance : Amount) : M GroupAccount GroupError (option (Address * Amount)) :=
  let! done := approve sender in
  if negb done then ret None
  else
    let! pending := reads (λ g, ok_or NoProposal (pending g)) in
    let! payment := match gp_kind pending with KLoan _ _ => issue_loan balance | KSocialGrant _ => issue_grant end in
    ret (Some payment).

Definition approve_group_action (sender group : Address) : X unit :=
  let! '(account, g) := open_group group sender in
  let! balance := ledger group (denom_of g) in
  let! '(payment, g') := on_group (approve_and_issue sender balance) g in
  do! match payment with
      | Some (beneficiary, amount) => pay group beneficiary (denom_of g) amount
      | None => ret tt
      end in
  save_group group account g'.

Definition repay_loan (sender group : Address) (amount : Amount) : X unit :=
  let! '(account, g) := open_group group sender in
  let! '(_, g') := on_group (repay sender amount) g in
  do! pay sender group (denom_of g) amount in
  save_group group account g'.

Definition close_group_cycle (ctx : BlockContext) (sender group : Address) : X unit :=
  let! '(account, g) := open_group group sender in
  do! lift (map_err XGroup (require_share_rules g)) in
  do! fail_if (negb (payout_due g (ctx_height ctx))) (XGroup CycleNotDue) in
  save_group group account (advance_cycle (ctx_height ctx) g).

Fixpoint pay_all (group : Address) (denom : Denom) (payments : list (Address * Amount)) : X unit :=
  match payments with
  | [] => ret tt
  | (member, amount) :: payments => do! pay group member denom amount in pay_all group denom payments
  end.

Definition group_share_out (sender group : Address) : X unit :=
  let! '(account, g) := open_group group sender in
  let! balance := ledger group (denom_of g) in
  let! fund := lift (map_err XGroup (lendable g balance)) in
  let! '(payments, g') := on_group (share_out fund) g in
  do! pay_all group (denom_of g) payments in
  save_group group account g'.

(** ** Messages *)

Definition discard {A} (m : X A) : X unit := do! m in ret tt.

Definition apply_message (ctx : BlockContext) (sender : Address) (msg : Message) : X unit :=
  match msg with
  | MsgTransfer to denom amount reference =>
      let! recipient := reads (load_account to) in
      do! fail_if (negb (accepts (requires_reference recipient) reference)) ReferenceRequired in
      do! pay sender to denom amount in
      writes (ensure_account to)
  | MsgSetAccountFlag flag enabled =>
      change_account sender (λ a, Ok (with_flags (flags_with (flags a) flag enabled) a))
  | MsgSetRegularKey key =>
      change_account sender (λ a,
        if match key with Some new => bool_decide (Address_from_public_key new = a_address a) | None => false end
        then Err RegularKeyIsMasterKey
        else Ok (with_regular_key key a))
  | MsgSetSignerList l => change_account sender (λ a, Ok (with_signers l a))
  | MsgCreateGroup name members contribution policy quorum =>
      create_group ctx sender name members contribution policy quorum
  | MsgContributeToGroup group amount => contribute_to_group sender group amount
  | MsgGroupPayout group => group_payout ctx sender group
  | MsgBuyShares group n => buy_group_shares sender group n
  | MsgPaySocialFund group => pay_social_fund sender group
  | MsgProposeGroupAction group beneficiary kind => propose_group_action sender group beneficiary kind
  | MsgApproveGroupAction group => approve_group_action sender group
  | MsgRepayLoan group amount => repay_loan sender group amount
  | MsgCloseCycle group => close_group_cycle ctx sender group
  | MsgShareOut group => group_share_out sender group
  | MsgMint denom to amount => wrap_err XBank (mint sender to denom amount)
  | MsgBurn denom amount => wrap_err XBank (burn sender denom amount)
  | MsgSetMinterAllowance denom minter allowance => wrap_err XBank (set_minter_allowance sender denom minter allowance)
  | MsgSetIssuerPaused denom paused => wrap_err XBank (set_paused sender denom paused)
  | MsgSetSupplyCap denom cap => wrap_err XBank (tighten_supply_cap sender denom cap)
  | MsgSetFreezer denom freezer => wrap_err XBank (set_freezer sender denom freezer)
  | MsgSetFrozen denom account frozen =>
      if frozen then wrap_err XBank (freeze sender account denom) else wrap_err XBank (unfreeze sender account denom)
  | MsgTransferIssuerAuthority denom to =>
      do! wrap_err XBank (transfer_issuer_authority sender denom to) in
      match to with Some to => writes (ensure_account to) | None => ret tt end
  | MsgAcceptIssuerAuthority denom => wrap_err XBank (accept_issuer_authority sender denom)
  | MsgProposeGovAction action => discard (wrap_err XGov (gov_propose sender action (ctx_height ctx)))
  | MsgVoteGovAction proposal => discard (wrap_err XGov (gov_vote sender proposal (ctx_height ctx)))
  | MsgExecuteGovAction proposal =>
      let! action := wrap_err XGov (gov_execute proposal (ctx_height ctx)) in
      apply_gov_action action
  | MsgRegisterName name => wrap_err XRegistry (register name sender (ctx_height ctx))
  | MsgRenewName name => wrap_err XRegistry (renew name sender (ctx_height ctx))
  | MsgTransferName name to =>
      do! wrap_err XRegistry (name_transfer name sender to (ctx_height ctx)) in
      writes (ensure_account to)
  | MsgSetPrimaryAlias name => wrap_err XRegistry (set_primary name sender (ctx_height ctx))
  | MsgAttestContact commitment address =>
      do! wrap_err XBind (attest commitment address sender (ctx_height ctx)) in
      writes (ensure_account address)
  | MsgRequestRebind commitment new_address =>
      let! p := reads params_of in
      discard (wrap_err XBind
        (request_rebind (rebind_delay_blocks p) commitment new_address sender (ctx_height ctx)))
  | MsgVetoRebind commitment => wrap_err XBind (veto_rebind commitment sender)
  | MsgApplyRebind commitment =>
      let! address := wrap_err XBind (apply_rebind commitment (ctx_height ctx)) in
      writes (ensure_account address)
  | MsgRevokeContact commitment => wrap_err XBind (revoke commitment sender)
  | MsgClearPrimaryAlias => wrap_err XRegistry (clear_primary sender)
  | MsgReleaseName name => wrap_err XRegistry (name_release name sender (ctx_height ctx))
  | MsgBond public_key country amount => with_staking (λ p, bond p sender public_key country amount)
  | MsgAddStake amount => with_staking (λ p, add_stake sender amount)
  | MsgUnbond amount => with_staking (λ p, unbond p sender amount (ctx_height ctx) (ctx_time ctx))
  | MsgWithdrawUnbonded => discard (with_staking (λ p, withdraw sender (ctx_time ctx)))
  | MsgReportEquivocation evidence =>
      discard (with_staking (λ p, report_equivocation p evidence (ctx_height ctx)))
  end.

(** The loop over a transaction's messages, which stops at the first failure. *)
Fixpoint apply_messages (ctx : BlockContext) (sender : Address) (msgs : list Message) : X unit :=
  match msgs with
  | [] => ret tt
  | msg :: msgs => do! apply_message ctx sender msg in apply_messages ctx sender msgs
  end.

(** ** Transactions *)

(** What must hold before anything is charged: the account is read, the keys may act
    for it, the nonce is next, the sponsor (if any) agreed, the fee's denomination is
    accepted. *)
Definition admission (chain : ChainId) (ctx : BlockContext) (tx : Transaction) (s : St) : result ExecError unit :=
  _ ← map_err XTx (verify_stateless tx chain (ctx_height ctx));
  account ← load_account (tx_sender (body tx)) s;
  if negb (authorises account (signing_keys tx)) then Err Unauthorised
  else if negb (nonce account =? tx_nonce (body tx)) then Err (WrongNonce (nonce account) (tx_nonce (body tx)))
  else
    _ ← (if is_sponsored (fee (body tx)) then
           p ← load_account (payer_or (fee (body tx)) (tx_sender (body tx))) s;
           if negb (authorises p (sponsor_keys tx)) then Err SponsorUnauthorised else Ok tt
         else Ok tt);
    ok ← accepts_as_fee (fee_denom (fee (body tx))) s;
    if (ok : bool) then Ok tt else Err (FeeDenomNotAccepted (fee_denom (fee (body tx)))).

(** The final loop: every pointer moved, and what each account pointed at before. *)
Fixpoint move_pointers (pointer : TxPointer) (l : list Address) (s : St) : list TouchedAccount * St :=
  match l with
  | [] => ([], s)
  | a :: l =>
      let '(prev, s) := move_history_pointer a pointer s in
      let '(rest, s) := move_pointers pointer l s in
      ({| ta_address := a; previous := prev |} :: rest, s)
  end.

Definition execute_tx (chain : ChainId) (ctx : BlockContext) (tx : Transaction) (s : St) : TxOutcome * St :=
  let id := tx_id tx in
  match admission chain ctx tx s with
  | Err e => (rejected id e, s)
  | Ok _ =>
      let sender := tx_sender (body tx) in
      let fee_payer := payer_or (fee (body tx)) sender in
      let amount := fee_amount (fee (body tx)) in
      let '(paid, s) := Bank.transfer fee_payer fee_collector_address (fee_denom (fee (body tx))) amount s in
      match paid, Amount_is_zero amount with
      | Err e, false => (rejected id (XBank e), s)
      | _, _ =>
          let '(res, sandbox) := apply_messages ctx sender (messages (body tx)) s in
          let s := match res with Ok _ => sandbox | Err _ => s end in
          let c := match res with Ok _ => RSuccess | Err e => code_of e end in
          let s := bump_nonce sender s in
          let moved := match res with Ok _ => touched_addresses tx | Err _ => sort_dedup [sender; fee_payer] end in
          let '(t, s) := move_pointers {| tp_tx_id := id; tp_height := ctx_height ctx |} moved s in
          ({| receipt := {| r_tx_id := id; code := c; fee_charged := amount; touched := t |}; outcome := res |}, s)
      end
  end.

(** ** Blocks *)

Fixpoint execute_txs (chain : ChainId) (ctx : BlockContext) (txs : list Transaction) (s : St) : list TxOutcome * St :=
  match txs with
  | [] => ([], s)
  | tx :: txs =>
      let '(o, s) := execute_tx chain ctx tx s in
      let '(os, s) := execute_txs chain ctx txs s in
      (o :: os, s)
  end.

Definition execute_block {Ro : Rooted St} (chain : ChainId) (ctx : BlockContext) (txs : list Transaction) (s : St)
  : BlockOutcome * St :=
  let '(os, s) := execute_txs chain ctx txs s in
  ({| o_app_hash := kv_root s; outcomes := os |}, s).

Definition outcome_root (b : BlockOutcome) : Hash32 :=
  root_of (MerkleTree_from_items ((λ o, encode TxReceipt_codec (receipt o)) <$> outcomes b)).
End executor.
