(* ===== verification/ExecProofs.v ===== *)
(** The invariant of the chain's store, and the pieces its preservation is put
    together from: the money the modules move, the council's decisions, and the
    account records with the groups inside them. *)

From S2P Require Import Prelude SortedVec Sorting Codec Primitives Crypto Smt Merkle Store Records Group.
From S2P Require Import GroupProofs GroupTheorems Account Issuer Bank BankProofs BankTheorems Validators Votes.
From S2P Require Import VoteProofs Params Alias AliasProofs Gov GovProofs GovTheorems Tx Staking StakingProofs.
From S2P Require Import StakingTheorems Footprint Executor.

Implicit Types (m : gmap bytes bytes).

(** * The council's decisions *)

(** The limits a parameter change may set: those under which the staking records
    stay within what the codec reads back. *)
Definition action_limits (a : Action) : Prop :=
  match a with SetParams p => limits_ok (Params.staking p) | _ => True end.

Record gov_good m : Prop := {
  gg_ok : gov_ok m;
  gg_params : limits_ok (Params.staking (params_at m));
  gg_queue id p : proposal_at m id = Some p → action_limits (action p);
}.

(** Two encodings of proposals that agree carry the same action, even if the rest
    cannot be read back. *)
Lemma encode_action p q :
  wf u64_codec (prop_id p) → address_ok (proposer p) → wf Action_codec (action p) → wf GovProposal_codec q →
  encode GovProposal_codec p = encode GovProposal_codec q → action p = action q.
Proof.
  intros Hi Hp Ha [(Hi' & Hp' & Ha' & _) _] E.
  apply encode_prefix_inj in E as [_ E]; [|apply _|done|done].
  apply encode_prefix_inj in E as [_ E]; [|apply _|done|done].
  by apply encode_prefix_inj in E as [E _]; [|apply _|done|done].
Qed.

Lemma gov_good_frame m m' :
  m' !! key_params = m !! key_params → m' !! key_council = m !! key_council →
  (∀ id p, proposal_at m' id = Some p → proposal_at m id = Some p ∨ action_limits (action p)) →
  gov_good m → gov_good m'.
Proof.
  intros Hp Hc Hq [H1 H2 H3]. split.
  - by eapply gov_ok_frame.
  - unfold params_at. by rewrite (record_at_ext _ m).
  - intros id p [Hid|Hid]%Hq; [by eapply H3|done].
Qed.

Lemma gov_good_footprint nss m m' :
  footprint nss m m' → NsParams ∉ nss → NsCouncil ∉ nss → NsProposal ∉ nss → gov_good m → gov_good m'.
Proof.
  intros Hf H1 H2 H3. apply gov_good_frame; [by apply (footprint_key nss)..|].
  intros id p. unfold proposal_at. rewrite (record_at_ext _ m); [by left|by apply (footprint_key nss)].
Qed.

Lemma gov_good_proposal m id p :
  wf u64_codec (prop_id p) → address_ok (proposer p) → wf Action_codec (action p) → action_limits (action p) →
  gov_good m → gov_good (<[key_proposal id := encode GovProposal_codec p]> m).
Proof.
  intros Hi Hp Ha Hl. apply gov_good_frame; [rewrite lookup_insert_ne; [done|ns_ne]..|].
  intros id' q Hq. apply record_at_Some in Hq as [Hw Hq]; [|apply _]. rewrite lookup_insert in Hq.
  case_decide; [|left; by apply record_at_Some; [apply _|]]. apply (inj Some) in Hq. right.
  rewrite <- (encode_action p q); done.
Qed.

Lemma gov_good_index m q : gov_good m → gov_good (<[key_proposal_index := encode ProposalQueue_codec q]> m).
Proof.
  apply gov_good_frame; [rewrite lookup_insert_ne; [done|ns_ne]..|]. intros id p. rewrite proposal_at_index. by left.
Qed.

Lemma gov_good_swept m m' : swept m m' → gov_good m → gov_good m'.
Proof.
  intros Hs. apply gov_good_frame; [apply (proposal_keys_frame m m'); [intros id; split; ns_ne|done]..|].
  intros id p Hp. left. by eapply proposal_at_swept.
Qed.

Section governance.
Context {St : Type} {KV : KeyValueStore St} {KM : KVMap St}.
Implicit Types (s : St).

Lemma remove_good id s u s' : remove id s = (Ok u, s') → gov_good (kv_map s) → gov_good (kv_map s').
Proof. intros (q & E)%remove_Ok Hg. rewrite E. eapply gov_good_index, gov_good_swept; [apply swept_delete|done]. Qed.

Lemma propose_good sender a now s id s' :
  address_ok sender → wf Action_codec a → action_limits a →
  gov_propose sender a now s = (Ok id, s') → gov_good (kv_map s) → gov_good (kv_map s').
Proof.
  intros Hs Ha Hl (m & p & Hm & Hid & (q & E) & Hpid & Hpr & Hact & _)%gov_propose_Ok Hg. rewrite E.
  apply gov_good_proposal; [|by rewrite Hpr|by rewrite Hact..|by eapply gov_good_index, gov_good_swept].
  rewrite Hpid, Hid. apply (proposal_queue_wf _).
Qed.

Lemma vote_good sender id now s o s' :
  gov_vote sender id now s = (Ok o, s') → gov_good (kv_map s) → gov_good (kv_map s').
Proof.
  intros (c & p & p' & _ & _ & Hp & _ & _ & Hrv & Hcase)%gov_vote_Ok Hg.
  pose proof (proposal_at_wf _ _ _ Hp) as [(Hi & Hpr & Ha & _) _].
  pose proof (gg_queue _ Hg _ _ Hp) as Hl.
  unfold record_vote in Hrv. destruct (search _ _ _); [done|]. injection Hrv as <-.
  destruct Hcase as [->|[(s1 & t & H1 & H2)|(_ & at_ & _ & ->)]].
  - by apply gov_good_proposal.
  - by eapply remove_good, remove_good.
  - by apply gov_good_proposal.
Qed.

Lemma set_council_good c s u s' :
  wf Council_codec c → set_council c s = (Ok u, s') → gov_good (kv_map s) → gov_good (kv_map s').
Proof.
  intros Hc H [H1 H2 H3]. pose proof (set_council_ok _ _ _ _ Hc H1 H) as Hok. split; [done|..].
  - unfold set_council, put_council in H. repeat inv_M_step. unfold set_encoded. rewrite kv_set_map.
    unfold params_at in *. rewrite (record_at_ext _ (kv_map s)); [done|]. rewrite lookup_insert_ne; [done|ns_ne].
  - intros id p. erewrite (enact_proposals (SetCouncil c)) by exact H. apply H3.
Qed.

Lemma set_params_good p s u s' :
  wf ChainParams_codec p → limits_ok (Params.staking p) →
  set_params p s = (Ok u, s') → gov_good (kv_map s) → gov_good (kv_map s').
Proof.
  intros Hp Hl H [H1 H2 H3]. pose proof (set_params_ok _ _ _ _ Hp H1 H) as Hok. split; [done|..].
  - unfold set_params in H. apply bind_Ok_inv in H as (? & ? & _ & H). apply bind_Ok_inv in H as (? & ? & _ & H).
    apply bind_Ok_inv in H as (? & ? & _ & H). apply bind_Ok_inv in H as (? & ? & _ & H).
    unfold put_params in H. repeat inv_M_step. unfold set_encoded, params_at. rewrite kv_set_map.
    by rewrite record_at_insert by (apply _ || done).
  - intros id q. erewrite (enact_proposals (SetParams p)) by exact H. apply H3.
Qed.
End governance.

(** * Money *)

Section money.
Context {Hs : Hasher} {Sg : Signer} {St : Type} {KV : KeyValueStore St} {KM : KVMap St}.
Implicit Types (s : St).
Abbreviation bal s a d := (amount_at (kv_map s) (key_balance a d)).
Abbreviation supply s d := (amount_at (kv_map s) (key_supply d)).

(** The ledgers agree, stake is covered, and the module account is nobody's operator. *)
Definition money s : Prop := staking_ok s ∧ bond_at (kv_map s) staking_account = None.

Lemma amount_at_footprint nss m m' ns parts :
  footprint nss m m' → ns ∉ nss → amount_at m' (StoreKey_new ns parts) = amount_at m (StoreKey_new ns parts).
Proof. intros Hf Hn. unfold amount_at. by rewrite (footprint_key nss m m'). Qed.

Lemma readable_footprint {A} (c : codec A) nss m m' ns parts :
  footprint nss m m' → ns ∉ nss → readable c m (StoreKey_new ns parts) → readable c m' (StoreKey_new ns parts).
Proof. intros Hf Hn. apply readable_ext. by apply (footprint_key nss). Qed.

Lemma holding_in_ns ns d k v : in_ns ns k → ns ≠ NsBalance → holding d k v = 0.
Proof.
  intros Hk Hne. unfold holding, balance_key_parts. destruct k as [|b k]; [done|]. injection Hk as ->.
  rewrite bool_decide_eq_false_2; [done|]. by intros ?%Namespace_byte_of_inj.
Qed.
Lemma stake_weight_in_ns ns k v : in_ns ns k → ns ≠ NsValidator → ns ≠ NsUnbonding → stake_weight k v = 0.
Proof.
  intros Hk H1 H2. unfold stake_weight. destruct k as [|b k]; [done|]. injection Hk as ->.
  rewrite !bool_decide_eq_false_2; [done|by intros ?%Namespace_byte_of_inj..].
Qed.

Lemma money_footprint nss s s' :
  footprint nss (kv_map s) (kv_map s') → (∀ ns, ns ∈ staking_ns → ns ∉ nss) → money s → money s'.
Proof.
  intros Hf Hn [[[[Rb Rs Ri] Hc] Hnat Hbonds Hops Hq Hi Hsolv] Hb].
  assert (∀ ns, ns ∈ nss → ns ∉ staking_ns) as Hn' by (intros ns H1 H2; by apply (Hn ns)).
  split; [split|].
  - split; [split; intros; (eapply readable_footprint; [done|apply Hn; set_solver|by first [apply Rb|apply Rs|apply Ri]])|].
    intros d Hd. unfold circulating, circulating_in, key_supply.
    rewrite (amount_at_footprint nss (kv_map s)) by (done || (apply Hn; set_solver)).
    rewrite (footprint_sum nss (kv_map s)); [by apply Hc| |done].
    intros ns k v Hns Hk. apply (holding_in_ns ns); [done|]. intros ->. by apply (Hn' _ Hns); set_solver.
  - intros a Ha. rewrite <- (Hnat a Ha). apply is_frozen_ext. apply (footprint_key nss); [done|apply Hn; set_solver].
  - intros op Ha. eapply readable_footprint; [done|apply Hn; set_solver|by apply Hbonds].
  - intros op b Ha Hbo. apply Hops; [done|]. rewrite <- Hbo. symmetry. apply bond_at_ext, (footprint_key nss); [done|apply Hn; set_solver].
  - intros op Ha. eapply readable_footprint; [done|apply Hn; set_solver|by apply Hq].
  - eapply readable_footprint; [done|apply Hn; set_solver|done].
  - unfold key_balance. rewrite (amount_at_footprint nss (kv_map s)) by (done || (apply Hn; set_solver)).
    unfold staked. rewrite (footprint_sum nss (kv_map s)); [done| |done].
    intros ns k v Hns Hk. apply (stake_weight_in_ns ns); [done|..]; intros ->; by apply (Hn' _ Hns); set_solver.
  - rewrite <- Hb. apply bond_at_ext, (footprint_key nss); [done|apply Hn; set_solver].
Qed.

(** ** Moves one account pays for *)

(** From [s] to [s'] money moved soundly, nobody but [payer] and staking's own account
    lost any of it, at most [b] of each denomination was created, and only the bank's
    and staking's records changed. *)
Record safe_move (payer : Address) (b : Denom → Z) s s' : Prop := {
  sm_money : money s → money s';
  sm_kept a d : address_ok a → denom_ok d → a ≠ payer → a ≠ staking_account → bal s a d ≤ bal s' a d;
  sm_supply d : denom_ok d → supply s' d ≤ supply s d + b d;
  sm_footprint : footprint staking_ns (kv_map s) (kv_map s');
}.

(** The account a bank call takes from. *)
Definition debtor (c : bank_call) : option Address :=
  match c with Transfer a _ _ _ | Burn a _ _ | SlashNative a _ => Some a | _ => None end.

Lemma bank_safe payer c s u s' :
  call_ok c → payer ≠ staking_account → (∀ a, debtor c = Some a → a = payer) → bank_exec c s = (Ok u, s') →
  safe_move payer (λ d, Z.max 0 (supply_delta c d)) s s'.
Proof.
  intros Hc Hp Hd Hr. assert (spares_staking c) as Hsp by (destruct c; simpl; try done; by rewrite (Hd _ eq_refl)).
  split.
  - intros [Hok Hb]. split; [by eapply bank_step_ok|]. rewrite <- Hb. apply bond_at_ext.
    eapply bank_exec_other; [set_solver|done].
  - intros a d Ha Hdn Hin Hne. destruct (bank_exec_ledger _ _ _ _ Hc Hr a d Ha Hdn) as (-> & _).
    enough (0 ≤ balance_delta c a d) by lia.
    destruct c; simpl in *; unfold amount_ok in *; repeat case_decide; destruct_and?; subst; try lia;
      by specialize (Hd _ eq_refl).
  - intros d Hdn. destruct (bank_exec_ledger _ _ _ _ Hc Hr Address_ZERO d eq_refl Hdn) as (_ & -> & _). lia.
  - eapply bank_in_staking; [apply bank_touches|done].
Qed.

Lemma money_bounds s a d :
  money s → address_ok a → denom_ok d → 0 ≤ bal s a d ≤ supply s d.
Proof.
  intros [Hok _] Ha Hd. split; [apply amount_at_ok|]. apply balance_le_supply; [apply Hok|done..].
Qed.

Lemma staking_exec_touches params c : touches staking_ns (staking_exec params c).
Proof.
  destruct c; cbn [staking_exec]; solve_touches.
Qed.

Lemma stake_safe payer params c s u s' :
  limits_ok params → scall_ok c → ((∀ e set h, c ≠ SSlash e set h) → subject c = payer) → money s →
  staking_exec params c s = (Ok u, s') → safe_move payer (λ _, 0) s s'.
Proof.
  intros Hlim Hc Hsub [Hok Hb] Hr. pose proof (staking_exec_Ok params _ _ _ _ Hlim Hc Hok Hr) as (_ & _ & Hch).
  destruct Hc as (Ha & Hne & Hcw). assert (0 ≤ burned c (bond_at (kv_map s) (subject c)) (queue_at (kv_map s) (subject c))) as Hbn.
  { destruct c; simpl; try lia. pose proof (list_sum_loss_bounds (infraction e) _ (queue_amounts s (eq_validator e))).
    destruct (bond_at (kv_map s) (eq_validator e)) as [b|] eqn:E; simpl; [|lia].
    pose proof (fraction_bounds (bonded b) (bond_wf_amount _ (bond_at_wf _ _ _ E))). lia. }
  split.
  - intros _. split; [by eapply staking_exec_ok|]. rewrite (sc_bond _ _ _ _ _ _ _ Hch) by apply staking_account_ok.
    by rewrite decide_False.
  - intros a d Had Hd Hin Hna. destruct (sc_ledger _ _ _ _ _ _ _ Hch a d Had Hd) as (-> & _). unfold stake_moves.
    repeat case_decide; subst; try lia; try done.
    destruct c; simpl in *; try lia; exfalso; by apply Hin, Hsub.
  - intros d Hd. destruct (sc_ledger _ _ _ _ _ _ _ Hch Address_ZERO d eq_refl Hd) as (_ & -> & _). unfold stake_burns.
    case_decide; lia.
  - by eapply staking_exec_touches.
Qed.

Lemma report_safe payer params e h s x s' :
  limits_ok params → address_ok (eq_validator e) → wf Height_codec h → money s →
  report_equivocation params e h s = (Ok x, s') → safe_move payer (λ _, 0) s s'.
Proof.
  intros Hlim Ha Hh Hm Hr. pose proof (report_equivocation_cases params e h s) as Hc.
  destruct (active_set params s) as [set|]; rewrite Hr in Hc; [|done].
  assert (eq_validator e ≠ staking_account) as Hne.
  { intros E. unfold slash_equivocation, slash in Hc. symmetry in Hc. apply bind_Ok_inv in Hc as (? & ? & [_ ->]%fail_if_Ok_inv & Hc).
    apply bind_Ok_inv in Hc as (? & ? & [-> Hb]%require_bond_Ok & _). destruct Hm as [_ Hm]. congruence. }
  apply (stake_safe payer params (SSlash e set h) s tt s'); [done|done| |done|].
  - intros Hx. by destruct (Hx e set h).
  - cbn [staking_exec]. unfold bind. by rewrite <- Hc.
Qed.
End money.
