(* ===== verification/ChainProofs.v ===== *)
(** The invariant of the chain's store and its preservation by every message, every
    transaction and every block.

    [reserved] lists the addresses that no key may speak for: the staking module's
    account and the addresses savings groups are created at. *)

From S2P Require Import Prelude SortedVec Sorting Codec Primitives Crypto Smt Merkle Store Records Group.
From S2P Require Import GroupProofs GroupTheorems Account Issuer Bank BankProofs BankTheorems Validators Votes.
From S2P Require Import VoteProofs Params Alias AliasProofs Gov GovProofs GovTheorems Tx Staking StakingProofs.
From S2P Require Import StakingTheorems Footprint Executor ExecProofs.

Implicit Types (m : gmap bytes bytes).

(** * Account records *)

Section accounts.
Context {Sg : Signer}.

Definition acc_at m (a : Address) : Account :=
  default (Account_individual a) (record_at Account_codec m (key_account a)).

Lemma Account_wf acc :
  wf Account_codec acc ↔
  (address_ok (a_address acc) ∧ wf u64_codec (nonce acc) ∧ wf AccountKind_codec (a_kind acc)
   ∧ wf (option_codec TxPointer_codec) (last_txn acc) ∧ wf AccountFlags_codec (flags acc)
   ∧ wf (option_codec PublicKey_codec) (regular_key acc) ∧ wf (option_codec SignerList_codec) (a_signers acc))
  ∧ has_a_usable_authority acc = true.
Proof.
  split.
  - intros [Hw Hc]. split; [done|]. unfold Account_check in Hc. by destruct (has_a_usable_authority acc).
  - intros [Hw Hu]. split; [done|]. unfold Account_check. by rewrite Hu.
Qed.

Lemma individual_wf a : address_ok a → wf Account_codec (Account_individual a).
Proof.
  intros Ha. apply (proj2 (Account_wf _)). split; [|done].
  refine (conj Ha (conj _ (conj _ (conj _ (conj _ (conj _ _)))))); done.
Qed.

Lemma acc_at_wf m a : address_ok a → wf Account_codec (acc_at m a).
Proof.
  intros Ha. unfold acc_at. destruct (record_at Account_codec m (key_account a)) as [acc|] eqn:E; simpl.
  - by apply record_at_Some in E as [? _]; [|apply _].
  - by apply individual_wf.
Qed.

Lemma key_account_inj a a' : address_ok a → address_ok a' → key_account a = key_account a' → a = a'.
Proof.
  intros Ha%address_ok_part Hb%address_ok_part E. apply StoreKey_new_inj in E as [_ [= E]]; [done|by repeat constructor..].
Qed.

Lemma acc_at_ext m m' a : m' !! key_account a = m !! key_account a → acc_at m' a = acc_at m a.
Proof. intros E. unfold acc_at. by rewrite (record_at_ext _ m). Qed.

Lemma acc_at_insert m a acc a' :
  address_ok a → address_ok a' → wf Account_codec acc →
  acc_at (<[key_account a := encode Account_codec acc]> m) a' = if decide (a = a') then acc else acc_at m a'.
Proof.
  intros Ha Ha' Hw. case_decide as E.
  - subst. unfold acc_at. by rewrite record_at_insert by (done || apply _).
  - apply acc_at_ext. rewrite lookup_insert_ne; [done|]. by intros ?%key_account_inj.
Qed.

(** Changing one field of a sound record. *)
Lemma with_kind_wf k acc : wf Account_codec acc → wf AccountKind_codec k → wf Account_codec (with_kind k acc).
Proof.
  intros [(? & ? & ? & ? & ? & ? & ?) Hu]%(proj1 (Account_wf _)) Hk. apply (proj2 (Account_wf _)). by split_and!.
Qed.
Lemma with_last_txn_wf p acc :
  wf Account_codec acc → wf TxPointer_codec p → wf Account_codec (with_last_txn (Some p) acc).
Proof.
  intros [(? & ? & ? & ? & ? & ? & ?) Hu]%(proj1 (Account_wf _)) Hk. apply (proj2 (Account_wf _)). by split_and!.
Qed.
Lemma increment_nonce_wf acc : wf Account_codec acc → wf Account_codec (increment_nonce acc).
Proof.
  intros [(? & Hn & ? & ? & ? & ? & ?) Hu]%(proj1 (Account_wf _)). apply (proj2 (Account_wf _)). split_and!; try done.
  apply wf_u64 in Hn. apply u64_sat_add; lia.
Qed.
Lemma with_flags_wf fs acc :
  wf Account_codec acc → wf AccountFlags_codec fs → has_a_usable_authority (with_flags fs acc) = true →
  wf Account_codec (with_flags fs acc).
Proof.
  intros [(? & ? & ? & ? & ? & ? & ?) _]%(proj1 (Account_wf _)) Hk Hu. apply (proj2 (Account_wf _)). by split_and!.
Qed.
Lemma with_regular_key_wf k acc :
  wf Account_codec acc → wf (option_codec PublicKey_codec) k → has_a_usable_authority (with_regular_key k acc) = true →
  wf Account_codec (with_regular_key k acc).
Proof.
  intros [(? & ? & ? & ? & ? & ? & ?) _]%(proj1 (Account_wf _)) Hk Hu. apply (proj2 (Account_wf _)). by split_and!.
Qed.
Lemma with_signers_wf l acc :
  wf Account_codec acc → wf (option_codec SignerList_codec) l → has_a_usable_authority (with_signers l acc) = true →
  wf Account_codec (with_signers l acc).
Proof.
  intros [(? & ? & ? & ? & ? & ? & ?) _]%(proj1 (Account_wf _)) Hk Hu. apply (proj2 (Account_wf _)). by split_and!.
Qed.
End accounts.

(** * The invariant *)

Section chain.
Context {Hs : Hasher} {Sg : Signer} {Un : Unicode} {St : Type} {KV : KeyValueStore St} {KM : KVMap St}.
Implicit Types (s : St) (sender : Address).
Context (reserved : list Address).
Abbreviation bal s a d := (amount_at (kv_map s) (key_balance a d)).
Abbreviation supply s d := (amount_at (kv_map s) (key_supply d)).
Abbreviation acc s a := (acc_at (kv_map s) a).

(** A record says whose it is; a reserved address carries no key but its (unknown)
    master key; a group is sound, at a reserved address, and its social fund is
    really there. [n] bounds how many cycles any group has closed. *)
Record account_ok (n : Z) s (a : Address) (r : Account) : Prop := {
  ao_address : a_address r = a;
  ao_unowned : a ∈ reserved → regular_key r = None ∧ a_signers r = None;
  ao_group g : as_group r = Some g →
    a ∈ reserved ∧ a ≠ staking_account ∧ group_ok g ∧ cycle g ≤ n ∧ social_fund g ≤ bal s a (denom_of g);
}.

Record chain_ok (n : Z) s : Prop := {
  ck_money : money s;
  ck_gov : gov_good (kv_map s);
  ck_readable a : address_ok a → readable Account_codec (kv_map s) (key_account a);
  ck_accounts a : address_ok a → account_ok n s a (acc s a);
}.

(** What a message leaves alone in everyone's record, and in everyone else's. *)
Definition keeps sender m m' : Prop :=
  ∀ a, address_ok a →
    nonce (acc_at m' a) = nonce (acc_at m a) ∧ last_txn (acc_at m' a) = last_txn (acc_at m a)
    ∧ (a ≠ sender → regular_key (acc_at m' a) = regular_key (acc_at m a) ∧ a_signers (acc_at m' a) = a_signers (acc_at m a)
                     ∧ flags (acc_at m' a) = flags (acc_at m a)).

(** What it leaves alone in everyone else's balances, and what it may create. *)
Record spares sender (b : Denom → Z) s s' : Prop := {
  sp_balance a d : address_ok a → denom_ok d → a ≠ sender → a ∉ reserved → bal s a d ≤ bal s' a d;
  sp_supply d : denom_ok d → supply s' d ≤ supply s d + b d;
}.

(** A step of a message sent by [sender]: the invariant holds on, nobody else pays for
    it, at most [b] of each denomination is created, and the records are kept as
    above. *)
Definition effect sender (b : Denom → Z) (n n' : Z) s s' : Prop :=
  chain_ok n s → chain_ok n' s' ∧ keeps sender (kv_map s) (kv_map s') ∧ spares sender b s s'.

Lemma spares_trans sender b1 b2 s1 s2 s3 :
  spares sender b1 s1 s2 → spares sender b2 s2 s3 → spares sender (λ d, b1 d + b2 d) s1 s3.
Proof.
  intros [O1 B1] [O2 B2]. split.
  - intros a d Ha Hd Hne Hr. specialize (O1 a d Ha Hd Hne Hr). specialize (O2 a d Ha Hd Hne Hr). lia.
  - intros d Hd. specialize (B1 d Hd). specialize (B2 d Hd). lia.
Qed.
Lemma spares_le sender b b' s s' : (∀ d, b d ≤ b' d) → spares sender b s s' → spares sender b' s s'.
Proof. intros Hb [O B]. split; [done|]. intros d Hd. specialize (B d Hd). specialize (Hb d). lia. Qed.
Lemma spares_footprint sender nss s s' :
  footprint nss (kv_map s) (kv_map s') → NsBalance ∉ nss → NsSupply ∉ nss → spares sender (λ _, 0) s s'.
Proof.
  intros Hf H1 H2. split; intros; unfold key_balance, key_supply; rewrite (amount_at_footprint nss (kv_map s) (kv_map s')) by done; lia.
Qed.

Lemma keeps_refl sender m : keeps sender m m.
Proof. by intros a _. Qed.
Lemma keeps_trans sender m1 m2 m3 : keeps sender m1 m2 → keeps sender m2 m3 → keeps sender m1 m3.
Proof.
  intros H1 H2 a Ha. destruct (H1 a Ha) as (E1 & E2 & E3), (H2 a Ha) as (F1 & F2 & F3).
  split; [congruence|split; [congruence|]]. intros Hne. destruct (E3 Hne) as (?&?&?), (F3 Hne) as (?&?&?). split_and!; congruence.
Qed.
Lemma keeps_ext sender m m' : (∀ a, address_ok a → acc_at m' a = acc_at m a) → keeps sender m m'.
Proof. intros E a Ha. by rewrite E. Qed.

Lemma effect_trans sender b1 b2 n1 n2 n3 s1 s2 s3 :
  effect sender b1 n1 n2 s1 s2 → effect sender b2 n2 n3 s2 s3 → effect sender (λ d, b1 d + b2 d) n1 n3 s1 s3.
Proof.
  intros H1 H2 Hok. destruct (H1 Hok) as (Hok2 & K1 & B1), (H2 Hok2) as (Hok3 & K2 & B2).
  split; [done|]. split; [by eapply keeps_trans|by eapply spares_trans].
Qed.

Lemma effect_le sender b b' n n' s s' : (∀ d, b d ≤ b' d) → effect sender b n n' s s' → effect sender b' n n' s s'.
Proof.
  intros Hb H Hok. destruct (H Hok) as (? & ? & Hs'). split_and!; [done..|]. by eapply spares_le.
Qed.

Lemma account_ok_mono n n' s s' a r :
  n ≤ n' → (∀ d, denom_ok d → a ∈ reserved → a ≠ staking_account → bal s a d ≤ bal s' a d) →
  account_ok n s a r → account_ok n' s' a r.
Proof.
  intros Hn Hb [H1 H2 H3]. split; [done..|]. intros g Hg. destruct (H3 g Hg) as (? & ? & Hgo & ? & ?).
  split_and!; try done; [lia|]. etrans; [done|]. apply Hb; try done. by destruct (go_contribution g Hgo) as [(_ & ? & _) _].
Qed.

Lemma chain_ok_mono n n' s : n ≤ n' → chain_ok n s → chain_ok n' s.
Proof. intros Hn []. split; try done. intros a Ha. eapply account_ok_mono; [done| |by eauto]. done. Qed.

Lemma effect_grow sender b n n' s s' : n ≤ n' → effect sender b n n s s' → effect sender b n n' s s'.
Proof. intros Hn H Hok. destruct (H Hok) as (? & ? & ?). split_and!; [by eapply chain_ok_mono|done..]. Qed.

(** ** Steps outside the account records *)

Lemma acc_at_footprint nss m m' a : footprint nss m m' → NsAccount ∉ nss → acc_at m' a = acc_at m a.
Proof. intros Hf Hn. apply acc_at_ext. by apply (footprint_key nss). Qed.

Lemma safe_move_effect sender b n s s' :
  staking_account ∈ reserved → (address_ok sender → sender ∉ reserved) → safe_move sender b s s' → effect sender b n n s s'.
Proof.
  intros Hst Hsr [Hm Hk Hb Hf] [Hmo Hg Hr Ha].
  assert (NsAccount ∉ staking_ns) as Hn by (unfold staking_ns, bank_ns; set_solver).
  split; [split|split].
  - by apply Hm.
  - eapply gov_good_footprint; [exact Hf| | | |done]; unfold staking_ns, bank_ns; set_solver.
  - intros a Hao. eapply readable_footprint; [exact Hf|done|by apply Hr].
  - intros a Hao. rewrite (acc_at_footprint staking_ns (kv_map s)) by done.
    eapply account_ok_mono; [done| |by apply Ha]. intros d Hd Hin Hne. apply Hk; [done..| |done]. intros ->. by apply Hsr.
  - apply keeps_ext. intros a _. by apply (acc_at_footprint staking_ns).
  - split; [|done]. intros a d Hao Hd Hne Hnr. apply Hk; [done..|]. by intros ->.
Qed.

(** Writes to governance and addressing move no money. *)
Lemma records_effect sender n nss s s' :
  footprint nss (kv_map s) (kv_map s') → (∀ ns, ns ∈ nss → ns ∈ gov_ns ++ alias_ns) →
  (gov_good (kv_map s) → gov_good (kv_map s')) → effect sender (λ _, 0) n n s s'.
Proof.
  intros Hf Hn Hgov [Hmo Hg Hr Ha].
  assert (∀ ns, ns ∈ NsAccount :: staking_ns → ns ∉ nss) as Hd.
  { intros ns H1 H2%Hn. unfold gov_ns, alias_ns, staking_ns, bank_ns in *. set_solver. }
  assert (NsAccount ∉ nss) as Hna by (apply Hd; by left).
  assert (∀ a d, bal s' a d = bal s a d) as Eb.
  { intros a d. apply (amount_at_footprint nss); [done|]. apply Hd. unfold staking_ns, bank_ns. set_solver. }
  split; [split|split].
  - eapply money_footprint; [done| |done]. intros ns Hns. apply Hd. by right.
  - by apply Hgov.
  - intros a Hao. eapply readable_footprint; [exact Hf|done|by apply Hr].
  - intros a Hao. rewrite (acc_at_footprint nss (kv_map s)) by done.
    eapply account_ok_mono; [done| |by apply Ha]. intros d Hd' _ _. by rewrite Eb.
  - apply keeps_ext. intros a _. by apply (acc_at_footprint nss).
  - eapply spares_footprint; [done|..]; apply Hd; unfold staking_ns, bank_ns; set_solver.
Qed.

(** ** Writing one account record *)

Lemma store_account_map a r s : kv_map (store_account a r s) = <[key_account a := encode Account_codec r]> (kv_map s).
Proof. apply kv_set_map. Qed.

Lemma store_account_footprint a r s : footprint [NsAccount] (kv_map s) (kv_map (store_account a r s)).
Proof. rewrite store_account_map. apply footprint_insert. by left. Qed.

Lemma store_account_acc a r s a' :
  address_ok a → address_ok a' → wf Account_codec r → acc (store_account a r s) a' = if decide (a = a') then r else acc s a'.
Proof. intros. rewrite store_account_map. by apply acc_at_insert. Qed.

Lemma store_account_bal a r s a' d : bal (store_account a r s) a' d = bal s a' d.
Proof. apply (amount_at_footprint [NsAccount]); [apply store_account_footprint|set_solver]. Qed.

(** The invariant after a write, given it everywhere but at the record written. *)
Lemma store_account_restores n a r s :
  address_ok a → wf Account_codec r → money s → gov_good (kv_map s) →
  (∀ a', address_ok a' → readable Account_codec (kv_map s) (key_account a')) →
  (∀ a', address_ok a' → a' ≠ a → account_ok n s a' (acc s a')) →
  account_ok n s a r → chain_ok n (store_account a r s).
Proof.
  intros Ha Hw Hm Hg Hr Hacc Hok. pose proof (store_account_footprint a r s) as Hf. split.
  - eapply money_footprint; [done| |done]. unfold staking_ns, bank_ns. set_solver.
  - eapply gov_good_footprint; [done|..|done]; set_solver.
  - intros a' Ha'. rewrite store_account_map. by apply (readable_insert Account_codec); [|apply Hr].
  - intros a' Ha'. rewrite store_account_acc by done. case_decide; [subst a'|].
    + eapply account_ok_mono; [done| |exact Hok]. intros. by rewrite store_account_bal.
    + eapply account_ok_mono; [done| |by apply Hacc; [|apply not_eq_sym]]. intros. by rewrite store_account_bal.
Qed.

Lemma store_account_ok n a r s :
  address_ok a → wf Account_codec r → account_ok n s a r → chain_ok n s → chain_ok n (store_account a r s).
Proof. intros Ha Hw Hok [Hm Hg Hr Hacc]. apply store_account_restores; auto. Qed.

Lemma store_account_keeps sender a r s :
  address_ok a → wf Account_codec r → nonce r = nonce (acc s a) → last_txn r = last_txn (acc s a) →
  (a ≠ sender → regular_key r = regular_key (acc s a) ∧ a_signers r = a_signers (acc s a) ∧ flags r = flags (acc s a)) →
  keeps sender (kv_map s) (kv_map (store_account a r s)).
Proof.
  intros Ha Hw Hn Hl Hk a' Ha'. rewrite !store_account_acc by done. case_decide; [by subst|done].
Qed.

Lemma store_account_effect sender n a r s :
  address_ok a → wf Account_codec r → (chain_ok n s → account_ok n s a r) →
  nonce r = nonce (acc s a) → last_txn r = last_txn (acc s a) →
  (a ≠ sender → regular_key r = regular_key (acc s a) ∧ a_signers r = a_signers (acc s a) ∧ flags r = flags (acc s a)) →
  effect sender (λ _, 0) n n s (store_account a r s).
Proof.
  intros Ha Hw Hok Hn Hl Hk Hc. split; [by apply store_account_ok; auto|]. split; [by apply store_account_keeps|].
  eapply spares_footprint; [apply store_account_footprint|set_solver..].
Qed.

Lemma load_account_Ok a s r : load_account a s = Ok r → r = acc s a.
Proof.
  unfold load_account. intros (o & Ho%map_err_Ok_inv & [= <-])%result_bind_Ok_inv.
  by rewrite (get_decoded_record _ _ _ _ Ho).
Qed.
Lemma load_account_ok n a s : chain_ok n s → address_ok a → load_account a s = Ok (acc s a).
Proof.
  intros Hc Ha. unfold load_account. by rewrite (get_decoded_readable Account_codec) by (by eapply ck_readable).
Qed.
Lemma load_existing_Ok a s r :
  load_existing_account a s = Ok r → r = acc s a ∧ is_Some (record_at Account_codec (kv_map s) (key_account a)).
Proof.
  unfold load_existing_account. intros (o & Ho%map_err_Ok_inv & Hr%ok_or_Ok_inv)%result_bind_Ok_inv.
  rewrite (get_decoded_record _ _ _ _ Ho) in Hr. unfold acc_at. rewrite Hr. by split; [|eexists].
Qed.
Lemma account_or_new_acc a s : account_or_new a s = acc s a.
Proof.
  unfold account_or_new, acc_at, get_decoded, record_at. rewrite kv_get_map. destruct (kv_map s !! _) as [b|]; [|done].
  by destruct (decode_exact Account_codec b).
Qed.

Lemma ensure_account_effect sender n a s : address_ok a → effect sender (λ _, 0) n n s (ensure_account a s).
Proof.
  intros Ha. unfold ensure_account. rewrite kv_get_map. destruct (kv_map s !! key_account a) as [b|] eqn:E.
  - intros Hc. split_and!; [done|apply keeps_refl|by eapply (spares_footprint _ []); [|set_solver..]].
  - assert (acc s a = Account_individual a) as Ea by (unfold acc_at, record_at; by rewrite E).
    apply store_account_effect; [done|by apply individual_wf| |by rewrite Ea..]. done.
Qed.
End chain.
