(* ===== verification/ChainGroups.v ===== *)
(** Savings groups on the chain: every group message keeps the store's invariant, and
    with it the money behind each group's social fund. *)

From S2P Require Import Prelude SortedVec Sorting Codec Primitives Crypto Smt Merkle Store Records Group.
From S2P Require Import GroupProofs GroupTheorems Account Issuer Bank BankProofs BankTheorems Validators Votes.
From S2P Require Import VoteProofs Params Alias AliasProofs Gov GovProofs GovTheorems Tx Staking StakingProofs.
From S2P Require Import StakingTheorems Footprint Executor ExecProofs ChainProofs.

(** * What the group's methods leave alone *)

Definition terms_kept (g g' : GroupAccount) : Prop :=
  contribution g' = contribution g ∧ cycle g' = cycle g ∧ social_fund g' = social_fund g.

Lemma record_contribution_terms a g u g' : record_contribution a g = (Ok u, g') → terms_kept g g'.
Proof. intros H. unfold record_contribution in H. by group_inv. Qed.

Lemma buy_shares_terms a k g c g' :
  buy_shares a k g = (Ok c, g') → c = c_amount (contribution g) * k ∧ terms_kept g g'.
Proof.
  intros H. unfold buy_shares in H. group_inv. split; [|done].
  match goal with H : Amount_checked_mul _ _ = Ok _ |- _ => by apply Amount_checked_mul_Ok in H as [-> _] end.
Qed.

Lemma pay_social_terms a g x g' :
  group_ok g → pay_social a g = (Ok x, g') →
  0 ≤ x ∧ contribution g' = contribution g ∧ cycle g' = cycle g ∧ social_fund g' = social_fund g + x.
Proof.
  intros Hg H. unfold pay_social in H. group_inv. use_rules Hg.
  match goal with H : Amount_checked_add _ _ = Ok _ |- _ => apply Amount_checked_add_Ok in H as [-> Hle] end.
  pose proof (ShareRules_ranges _ Hrw). simpl. split_and!; try done. unfold amount_ok in *. lia.
Qed.

Lemma open_proposal_terms who k b g u g' : open_proposal who k b g = (Ok u, g') → terms_kept g g'.
Proof.
  intros H. unfold open_proposal in H. group_inv.
  match goal with H : match k with _ => _ end _ = (Ok _, ?s) |- _ => assert (s = g) as -> by (destruct k; by group_inv) end.
  done.
Qed.

Lemma approve_terms who g b g' : approve who g = (Ok b, g') → terms_kept g g'.
Proof. intros H. unfold approve in H. by group_inv. Qed.

Lemma issue_loan_terms b g r g' :
  group_ok g → amount_ok b → issue_loan b g = (Ok r, g') →
  terms_kept g g' ∧ 0 < r.2 ≤ b - social_fund g ∧ r.1 ∈ addresses g.
Proof.
  intros Hg Hb (rules & p & gs & i & m & due & _ & _ & _ & _ & Hi & <- & _ & Hr & _ & _ & _ & _ & ->)%issue_loan_Ok; [|done..].
  split_and!; try done; [lia..|]. apply list_elem_of_fmap. exists m. split; [done|]. by eapply list_elem_of_lookup_2.
Qed.

Lemma issue_grant_terms g r g' :
  group_ok g → issue_grant g = (Ok r, g') →
  contribution g' = contribution g ∧ cycle g' = cycle g ∧ social_fund g' = social_fund g - r.2 ∧ 0 < r.2
  ∧ r.1 ∈ addresses g.
Proof.
  intros Hg (p & Hp & Hk & Hb & Hle & ->)%issue_grant_Ok.
  destruct (go_policy g Hg) as [_ Hpol]. destruct (policy g) as [|rules]; [naive_solver|].
  destruct Hpol as [_ Hpo]. destruct (Hpo p Hp) as [_ Hw _ _ _ Hkd]. rewrite Hk in Hkd. rewrite <- Hb.
  split_and!; try done; simpl; lia.
Qed.

Lemma repay_terms a x g u g' : repay a x g = (Ok u, g') → terms_kept g g'.
Proof.
  intros H. unfold repay in H. group_inv. done.
Qed.

(** A share-out that succeeds pays out what its specification says. *)
Lemma share_out_payments fund g rules ps g' :
  group_ok g → policy g = Accumulate rules → cycle g < 2 ^ 54 → amount_ok fund →
  share_out fund g = (Ok ps, g') → ps = payments_of fund (total_shares g) (members g).
Proof.
  intros Hg Hpol Hc Hf H. destruct (total_shares_exact g rules Hg Hpol Hc) as (Hs & Hmx & Hb).
  pose proof (share_out_Ok _ _ _ _ H) as (_ & Hr & Hfz & Htz & _).
  assert (0 < total_shares g) as Htp.
  { assert (0 ≤ total_shares g); [|lia]. rewrite Hs. apply list_sum_nonneg. eapply Forall_impl; [exact Hb|]. simpl. lia. }
  assert (Forall (λ m, debt m ≤ u128_max) (members g)) as Hd.
  { unfold share_out in H. group_inv. destruct (share_out_loop fund (total_shares g) (members g)) as [r ms] eqn:El. group_inv.
    assert (Forall (λ m, wf Member_codec m ∧ shares m ≤ total_shares g) (members g)) as Hw.
    { pose proof (go_members g Hg) as Hms. rewrite Forall_forall in *. intros m Hm. split; [by apply mo_wf with g, Hms|by apply Hb]. }
    clear -El Hw Hf Htp Hmx. match type of El with _ = (Ok ?p, _) => revert p ms El end.
    induction Hw as [|m l [Hw Hle] _ IH]; intros p ms El; [done|].
    cbn [share_out_loop] in El. rewrite share_out_member_spec in El by (done || lia).
    destruct (Z.leb_spec (debt m) u128_max) as [Hdb|Hdb]; [|done].
    destruct (share_out_loop fund (total_shares g) l) as [[ps'|e] ms'] eqn:El'; [|done].
    constructor; [lia|by eapply IH]. }
  by rewrite (share_out_spec fund g rules) in H by done; injection H as <- _.
Qed.

Section groups.
Context {Hs : Hasher} {Sg : Signer} {Un : Unicode} {St : Type} {KV : KeyValueStore St} {KM : KVMap St}.
Implicit Types (s : St) (sender group : Address).
Context (reserved : list Address) (staking_reserved : staking_account ∈ reserved).
Abbreviation bal s a d := (amount_at (kv_map s) (key_balance a d)).
Abbreviation supply s d := (amount_at (kv_map s) (key_supply d)).
Abbreviation acc s a := (acc_at (kv_map s) a).
Abbreviation effect := (effect reserved).
Abbreviation chain_ok := (chain_ok reserved).

(** * Opening and saving *)

Lemma open_group_Ok group sender s r g s' :
  open_group group sender s = (Ok (r, g), s') →
  s' = s ∧ r = acc s group ∧ as_group (acc s group) = Some g ∧ sender ∈ addresses g.
Proof.
  unfold open_group. intros H. repeat inv_M_step.
  match goal with H : load_existing_account _ _ = _ |- _ => apply load_existing_Ok in H as [-> _] end.
  bool_simpl. rewrite is_member_iff in *. simplify_eq. done.
Qed.

Lemma on_group_Ok {A} (op : M GroupAccount GroupError A) g s x g' s' :
  on_group op g s = (Ok (x, g'), s') → s' = s ∧ op g = (Ok x, g').
Proof. unfold on_group. destruct (op g) as [[y|e] g1]; intros H; repeat inv_M_step; by simplify_eq. Qed.

Lemma ledger_Ok a d s x s' : ledger a d s = (Ok x, s') → s' = s ∧ x = bal s a d.
Proof. unfold ledger, Bank.balance. intros H. repeat inv_M_step. split; [done|]. by apply view_balance_Ok. Qed.

Lemma pay_Ok from to d x s u s' :
  pay from to d x s = (Ok u, s') → bank_exec (Transfer from to d x) s = (Ok u, s') ∧ x ≤ bal s from d ∧ x ≤ u128_max.
Proof.
  unfold pay. intros H%wrap_err_Ok_inv. split; [done|]. apply transfer_Ok in H as (_ & _ & _ & Hle & _).
  split; [done|]. pose proof (amount_at_ok (kv_map s) (key_balance from d)) as [_ ?]. lia.
Qed.

Lemma as_group_kind r g : as_group r = Some g → a_kind r = GroupKind g.
Proof. unfold as_group. destruct (a_kind r); naive_solver. Qed.

Lemma as_group_denom n s group g :
  chain_ok n s → address_ok group → as_group (acc s group) = Some g →
  denom_ok (denom_of g) ∧ group ∈ reserved ∧ group ≠ staking_account ∧ group_ok g ∧ cycle g ≤ n
  ∧ social_fund g ≤ bal s group (denom_of g).
Proof.
  intros Hc Ha Hg. destruct (ao_group _ _ _ _ _ (ck_accounts _ _ _ Hc group Ha) g Hg) as (? & ? & Hok & ? & ?).
  split_and!; try done. by destruct (go_contribution g Hok) as [(_ & ? & _) _].
Qed.

(** A group's record, saved after money has moved. *)
Lemma save_group_effect sender n n' s s1 group g g' :
  n ≤ n' → sender ∉ reserved → address_ok group → as_group (acc s group) = Some g →
  (chain_ok n s → money s1 ∧ footprint staking_ns (kv_map s) (kv_map s1)
    ∧ (∀ a d, address_ok a → denom_ok d → a ≠ sender → a ≠ staking_account → a ≠ group → bal s a d ≤ bal s1 a d)
    ∧ (∀ d, denom_ok d → supply s1 d ≤ supply s d)
    ∧ group_ok g' ∧ cycle g' ≤ n' ∧ social_fund g' ≤ bal s1 group (denom_of g')) →
  effect sender (λ _, 0) n n' s (store_account group (with_kind (GroupKind g') (acc s group)) s1).
Proof.
  intros Hn Hsr Ha Hg Hpre Hc. destruct (Hpre Hc) as (Hm & Hf & Hb & Hsu & Hgo & Hcy & Hso).
  destruct (as_group_denom _ _ _ _ Hc Ha Hg) as (_ & Hres & Hstk & _).
  assert (NsAccount ∉ staking_ns) as Hns by (unfold staking_ns, bank_ns; set_solver).
  assert (∀ a, acc s1 a = acc s a) as Ea by (intros a; by apply (acc_at_footprint staking_ns)).
  assert (wf Account_codec (with_kind (GroupKind g') (acc s group))) as Hw
    by (apply with_kind_wf; [by apply acc_at_wf|by apply group_ok_wf]).
  destruct (ck_accounts _ _ _ Hc group Ha) as [A1 A2 _].
  split; [apply store_account_restores|split]; try done.
  - eapply gov_good_footprint; [exact Hf| | | |by apply Hc]; unfold staking_ns, bank_ns; set_solver.
  - intros a Hao. eapply readable_footprint; [exact Hf|done|by apply Hc].
  - intros a Hao Hne. rewrite Ea. eapply account_ok_mono; [exact Hn| |by apply Hc]. intros d Hd Hin ?.
    apply Hb; [done..| |done|done]. by intros ->.
  - split; [done|done|]. intros g0 [= <-]. done.
  - eapply keeps_trans; [by apply keeps_ext; intros a _; apply Ea|]. apply store_account_keeps; try done; by rewrite Ea.
  - eapply (spares_le _ _ (λ d, 0 + 0)); [done|]. eapply spares_trans;
      [|eapply spares_footprint; [apply store_account_footprint|set_solver..]].
    split; [|intros d Hd; specialize (Hsu d Hd); lia]. intros a d Hao Hd Hne Hnr. apply Hb; try done; by intros ->.
Qed.

(** * Paying in *)

Lemma transfer_in_group n s sender group d x u s1 :
  chain_ok n s → address_ok sender → address_ok group → denom_ok d → sender ∉ reserved → 0 ≤ x →
  pay sender group d x s = (Ok u, s1) →
  safe_move sender (λ _, 0) s s1 ∧ (group ∈ reserved → bal s1 group d = bal s group d + x).
Proof.
  intros Hc Hs' Hg Hd Hr Hx (Hp & _ & Hm)%pay_Ok. assert (call_ok (Transfer sender group d x)) as Hok by done.
  split.
  - apply (bank_safe sender (Transfer sender group d x) s u s1); [done|by intros ->|by intros a [= <-]|done].
  - intros Hin. destruct (bank_exec_ledger _ _ _ _ Hok Hp group d Hg Hd) as (-> & _). simpl.
    rewrite decide_True, decide_True, decide_False; [lia|by intros ->|done..].
Qed.

Lemma pay_in_effect sender n s group g g' x u s1 :
  address_ok sender → address_ok group → sender ∉ reserved → as_group (acc s group) = Some g →
  pay sender group (denom_of g) x s = (Ok u, s1) →
  (chain_ok n s → group_ok g' ∧ contribution g' = contribution g ∧ cycle g' = cycle g ∧ 0 ≤ x
    ∧ social_fund g' ≤ social_fund g + x) →
  effect sender (λ _, 0) n n s (store_account group (with_kind (GroupKind g') (acc s group)) s1).
Proof.
  intros Hsa Ha Hr Hg Hp Hpre. eapply save_group_effect; [done|done|done|done|]. intros Hc.
  destruct (Hpre Hc) as (Hgo & Hco & Hcy & Hx & Hso).
  destruct (as_group_denom _ _ _ _ Hc Ha Hg) as (Hd & Hres & Hstk & _ & Hn & Hback).
  destruct (transfer_in_group _ _ _ _ _ _ _ _ Hc Hsa Ha Hd Hr Hx Hp) as [[Hm Hk Hsu Hf] Hb].
  split_and!; [by apply Hm; apply Hc|done|by intros; apply Hk| |done|lia|].
  - intros d' Hd'. specialize (Hsu d' Hd'). lia.
  - unfold denom_of. rewrite Hco. fold (denom_of g). rewrite Hb by done. lia.
Qed.

(** Take a handler apart down to the calls it made. *)
Ltac handler_inv :=
  repeat match goal with
  | H : (let '(_, _) := ?p in _) _ = (Ok _, _) |- _ => destruct p
  | H : open_group _ _ _ = (Ok (_, _), _) |- _ => apply open_group_Ok in H; destruct H as (-> & -> & ? & ?)
  | H : on_group _ _ _ = (Ok (_, _), _) |- _ => apply on_group_Ok in H; destruct H as [-> H]
  | H : ledger _ _ _ = (Ok _, _) |- _ => apply ledger_Ok in H; destruct H as [-> ->]
  | _ => inv_M_step
  end.

(** The group a handler opened, under the invariant. *)
Ltac opened Hc Ha :=
  match goal with H : as_group (acc_at _ ?group) = Some ?g |- _ =>
    destruct (as_group_denom _ _ _ _ Hc Ha H) as (Hd & Hres & Hstk & Hok & Hn & Hback) end.

Lemma contribute_effect sender group x n s u s' :
  address_ok sender → address_ok group → sender ∉ reserved → amount_ok x →
  contribute_to_group sender group x s = (Ok u, s') → effect sender (λ _, 0) n n s s'.
Proof.
  intros Hsa Ha Hr [Hx _] H. unfold contribute_to_group, save_group in H. handler_inv.
  eapply pay_in_effect; try done. intros Hc. opened Hc Ha.
  match goal with H : record_contribution _ _ = (Ok ?u, _) |- _ => destruct u; rename H into Hop end.
  pose proof (record_contribution_terms _ _ _ _ Hop) as (? & ? & ->).
  split_and!; [by eapply record_contribution_ok|done..|lia].
Qed.

Lemma buy_shares_effect sender group k n s u s' :
  address_ok sender → address_ok group → sender ∉ reserved → 0 ≤ k →
  buy_group_shares sender group k s = (Ok u, s') → effect sender (λ _, 0) n n s s'.
Proof.
  intros Hsa Ha Hr Hk H. unfold buy_group_shares, save_group in H. handler_inv.
  eapply pay_in_effect; try done. intros Hc. opened Hc Ha.
  match goal with H : buy_shares _ _ _ = (Ok _, _) |- _ => rename H into Hop end.
  destruct (buy_shares_terms _ _ _ _ _ Hop) as (-> & ? & ? & ->). pose proof (go_contribution _ Hok) as [_ Hpos].
  split_and!; [by eapply buy_shares_ok|done|done|nia|nia].
Qed.

Lemma pay_social_effect sender group n s u s' :
  address_ok sender → address_ok group → sender ∉ reserved →
  pay_social_fund sender group s = (Ok u, s') → effect sender (λ _, 0) n n s s'.
Proof.
  intros Hsa Ha Hr H. unfold pay_social_fund, save_group in H. handler_inv.
  eapply pay_in_effect; try done. intros Hc. opened Hc Ha.
  match goal with H : pay_social _ _ = (Ok _, _) |- _ => rename H into Hop end.
  destruct (pay_social_terms _ _ _ _ Hok Hop) as (? & ? & ? & ->). split_and!; [by eapply pay_social_ok|done..|lia].
Qed.

Lemma repay_effect sender group x n s u s' :
  address_ok sender → address_ok group → sender ∉ reserved → amount_ok x →
  repay_loan sender group x s = (Ok u, s') → effect sender (λ _, 0) n n s s'.
Proof.
  intros Hsa Ha Hr Hx H. unfold repay_loan, save_group in H. handler_inv.
  eapply pay_in_effect; try done. intros Hc. opened Hc Ha.
  match goal with H : repay _ _ _ = (Ok ?u, _) |- _ => destruct u; rename H into Hop end.
  pose proof (repay_terms _ _ _ _ _ Hop) as (? & ? & ->). destruct Hx as [Hx ?].
  split_and!; [by eapply repay_ok|done..|lia].
Qed.

(** * Paying out *)

(** [group] paid out at most [x] of [d], and nobody else paid anything. *)
Record paid_out (group : Address) (d : Denom) (x : Z) s s1 : Prop := {
  po_money : money s1;
  po_footprint : footprint staking_ns (kv_map s) (kv_map s1);
  po_others a d' : address_ok a → denom_ok d' → a ≠ group → bal s a d' ≤ bal s1 a d';
  po_supply d' : denom_ok d' → supply s1 d' ≤ supply s d';
  po_left : bal s group d - x ≤ bal s1 group d;
}.

Lemma pay_out_ok group to d x s u s1 :
  money s → address_ok group → address_ok to → denom_ok d → group ≠ staking_account → 0 ≤ x →
  pay group to d x s = (Ok u, s1) → paid_out group d x s s1.
Proof.
  intros Hm Ha Ht Hd Hne Hx (Hp & _ & Hmx)%pay_Ok. assert (call_ok (Transfer group to d x)) as Hok by done. split.
  - destruct Hm as [Hm Hb]. split; [by apply (bank_step_ok (Transfer group to d x) s (Ok u) s1)|].
    rewrite <- Hb. apply bond_at_ext. eapply bank_exec_other; [set_solver|exact Hp].
  - eapply bank_in_staking; [apply bank_touches|exact Hp].
  - intros a d' Had Hd' Hn. destruct (bank_exec_ledger _ _ _ _ Hok Hp a d' Had Hd') as (-> & _). simpl.
    repeat case_decide; subst; try done; lia.
  - intros d' Hd'. destruct (bank_exec_ledger _ _ _ _ Hok Hp group d' Ha Hd') as (_ & -> & _). simpl. lia.
  - destruct (bank_exec_ledger _ _ _ _ Hok Hp group d Ha Hd) as (-> & _). simpl. repeat case_decide; subst; try done; lia.
Qed.

Lemma paid_out_trans group d x y s1 s2 s3 :
  paid_out group d x s1 s2 → paid_out group d y s2 s3 → paid_out group d (x + y) s1 s3.
Proof.
  intros [M1 F1 O1 S1 L1] [M2 F2 O2 S2 L2]. split; try done; [by etrans|..|lia].
  - intros a d' Ha Hd' Hn. specialize (O1 a d' Ha Hd' Hn). specialize (O2 a d' Ha Hd' Hn). lia.
  - intros d' Hd'. specialize (S1 d' Hd'). specialize (S2 d' Hd'). lia.
Qed.

Lemma pay_all_out group d ps s u s1 :
  money s → address_ok group → Forall (λ p, address_ok p.1 ∧ 0 ≤ p.2) ps → denom_ok d → group ≠ staking_account →
  pay_all group d ps s = (Ok u, s1) → paid_out group d (list_sum snd ps) s s1.
Proof.
  intros Hm Ha Hps Hd Hne. revert s Hm. induction Hps as [|[to x] ps [Ht Hx] _ IH]; intros s Hm H; cbn [pay_all] in H.
  - repeat inv_M_step. split; try done. simpl. lia.
  - apply bind_Ok_inv in H as (v & s2 & Hp & H). rewrite list_sum_cons.
    pose proof (pay_out_ok _ _ _ _ _ _ _ Hm Ha Ht Hd Hne Hx Hp) as Hp1.
    eapply paid_out_trans; [exact Hp1|]. apply IH; [apply Hp1|done].
Qed.

Lemma pay_out_effect sender n n' s group g g' x s1 :
  n ≤ n' → sender ∉ reserved → address_ok group → as_group (acc s group) = Some g →
  (chain_ok n s → paid_out group (denom_of g) x s s1 ∧ group_ok g' ∧ contribution g' = contribution g
    ∧ cycle g' ≤ n' ∧ social_fund g' ≤ bal s group (denom_of g) - x) →
  effect sender (λ _, 0) n n' s (store_account group (with_kind (GroupKind g') (acc s group)) s1).
Proof.
  intros Hn Hsr Ha Hg Hpre. eapply save_group_effect; [done..|]. intros Hc.
  destruct (Hpre Hc) as ([Hm Hf Ho Hsu Hl] & Hgo & Hco & Hcy & Hso). split_and!; try done.
  - intros. by apply Ho.
  - unfold denom_of. rewrite Hco. fold (denom_of g). lia.
Qed.

Lemma no_payment n s group d : chain_ok n s → paid_out group d 0 s s.
Proof. intros Hc. split; try done; [by apply Hc|lia]. Qed.

Lemma propose_group_effect sender group who k n s u s' :
  sender ∉ reserved → address_ok group → wf ProposalKind_codec k →
  propose_group_action sender group who k s = (Ok u, s') → effect sender (λ _, 0) n n s s'.
Proof.
  intros Hsr Ha Hk H. unfold propose_group_action, save_group in H. handler_inv.
  eapply (pay_out_effect _ _ _ _ _ _ _ 0); [done..|]. intros Hc. opened Hc Ha.
  match goal with H : open_proposal _ _ _ _ = (Ok ?u, _) |- _ => destruct u; rename H into Hop end.
  pose proof (open_proposal_terms _ _ _ _ _ _ Hop) as (? & -> & ->).
  split_and!; [by eapply no_payment|by eapply open_proposal_ok|done|done|lia].
Qed.

Lemma advance_cycle_terms h g :
  contribution (advance_cycle h g) = contribution g ∧ social_fund (advance_cycle h g) = social_fund g
  ∧ cycle (advance_cycle h g) ≤ cycle g + 1.
Proof. simpl. unfold saturating_add. split_and!; [done..|lia]. Qed.

Lemma close_cycle_effect ctx sender group n s u s' :
  sender ∉ reserved → address_ok group → wf Height_codec (ctx_height ctx) →
  close_group_cycle ctx sender group s = (Ok u, s') → effect sender (λ _, 0) n (n + 1) s s'.
Proof.
  intros Hsr Ha Hh H. unfold close_group_cycle, save_group in H. handler_inv.
  eapply (pay_out_effect _ _ _ _ _ _ _ 0); [lia|done..|]. intros Hc. opened Hc Ha.
  match goal with H : as_group _ = Some ?g |- _ => destruct (advance_cycle_terms (ctx_height ctx) g) as (? & -> & ?) end.
  split_and!; [by eapply no_payment|by apply advance_cycle_ok|done|lia|lia].
Qed.

Lemma next_recipient_member g a : group_ok g → next_recipient g = Some a → social_fund g = 0 ∧ a ∈ addresses g.
Proof.
  intros Hg H. unfold next_recipient in H. destruct (go_policy g Hg) as [_ Hp]. destruct (policy g) as [order next|]; [|done].
  destruct Hp as (Hperm & _ & -> & _). split; [done|]. rewrite <- Hperm. by eapply list_elem_of_lookup_2.
Qed.

Lemma payout_effect ctx sender group n s u s' :
  sender ∉ reserved → address_ok group → wf Height_codec (ctx_height ctx) →
  group_payout ctx sender group s = (Ok u, s') → effect sender (λ _, 0) n (n + 1) s s'.
Proof.
  intros Hsr Ha Hh H. unfold group_payout, save_group in H. handler_inv.
  match goal with H : pay _ _ _ _ _ = _ |- _ => rename H into Hp end.
  eapply pay_out_effect; [lia|done..|]. intros Hc. opened Hc Ha.
  match goal with H : next_recipient ?g = Some ?a |- _ => destruct (next_recipient_member _ _ Hok H) as [Hz Hin] end.
  match goal with H : as_group _ = Some ?g |- _ => destruct (advance_cycle_terms (ctx_height ctx) g) as (? & -> & ?) end.
  pose proof (amount_at_ok (kv_map s) (key_balance group (denom_of g))) as [Hb _].
  split; [eapply pay_out_ok; [by apply Hc|done|by eapply member_address_ok|done..]|].
  split_and!; [by apply advance_cycle_ok|done|lia|lia].
Qed.

Lemma share_out_effect sender group n s u s' :
  n < 2 ^ 54 → sender ∉ reserved → address_ok group →
  group_share_out sender group s = (Ok u, s') → effect sender (λ _, 0) n n s s'.
Proof.
  intros Hn54 Hsr Ha H. unfold group_share_out, save_group in H. handler_inv.
  match goal with H : pay_all _ _ _ _ = _ |- _ => rename H into Hp end.
  match goal with H : lendable _ _ = Ok _ |- _ => apply lendable_Ok in H as [-> Hle] end.
  match goal with H : share_out _ _ = (Ok _, _) |- _ => rename H into Hop end.
  pose proof (share_out_Ok _ _ _ _ Hop) as (Eg & _ & Hfz & Htz & rules & Hpol).
  eapply pay_out_effect; [done..|]. intros Hc. opened Hc Ha. pose proof (go_fund _ Hok) as Hf. apply amount_ok_wf in Hf.
  pose proof (amount_at_ok (kv_map s) (key_balance group (denom_of g))) as Hb.
  match type of Hop with share_out ?f _ = _ => assert (amount_ok f) as Hfund by (unfold amount_ok in *; lia) end.
  pose proof (share_out_payments _ _ _ _ _ Hok Hpol ltac:(lia) Hfund Hop) as ->.
  destruct (total_shares_exact g rules Hok Hpol ltac:(lia)) as (Hts & _ & Hsh).
  assert (0 < total_shares g) as Htp.
  { assert (0 ≤ total_shares g); [|lia]. rewrite Hts. apply list_sum_nonneg. eapply Forall_impl; [exact Hsh|]. simpl. lia. }
  pose proof (payments_le_fund g rules _ Hok Hpol ltac:(lia) (proj1 Hfund) Htp) as Hsum.
  split; [eapply pay_all_out; [by apply Hc|done| |done..]|].
  - apply Forall_forall. intros [a x] Hin. unfold payments_of in Hin. apply list_elem_of_In, filter_In in Hin as [Hin _].
    apply list_elem_of_In, list_elem_of_fmap in Hin as (mb & [= -> ->] & Hmb). simpl. unfold payment. split; [|lia].
    eapply member_address_ok; [exact Hok|]. by apply list_elem_of_fmap_2.
  - pose proof (share_out_ok _ _ _ _ Hok Hop) as Hok'. subst. split_and!; [done..|simpl; lia].
Qed.

(** No supply so large that a loan and its charge could outgrow 128 bits. *)
Definition bounded s : Prop := ∀ d, denom_ok d → 2 * supply s d ≤ u128_max.

Lemma approve_and_issue_Ok sender b g o g' :
  group_ok g → 0 ≤ b → 2 * b ≤ u128_max → approve_and_issue sender b g = (Ok o, g') →
  group_ok g' ∧ contribution g' = contribution g ∧ cycle g' = cycle g
  ∧ match o with
    | None => social_fund g' = social_fund g
    | Some (who, x) => who ∈ addresses g ∧ 0 ≤ x ∧ (social_fund g' ≤ b - x ∨ social_fund g' = social_fund g - x)
    end.
Proof.
  intros Hg Hb1 Hb2 H. unfold approve_and_issue in H. apply bind_Ok_inv in H as (done_ & g1 & Hap & H).
  pose proof (approve_ok _ _ _ _ Hg Hap) as Hg1. pose proof (approve_terms _ _ _ _ Hap) as (Hc & Hcy & Hso).
  assert (addresses g1 = addresses g) as Had by (unfold approve in Hap; by group_inv).
  destruct done_; simpl in H; [|repeat inv_M_step; by rewrite Hcy].
  apply bind_Ok_inv in H as (p & g2 & Hp & H). apply reads_inv in Hp as [Hp ->].
  apply bind_Ok_inv in H as ([who x] & g3 & Hi & H). repeat inv_M_step. rewrite <- Had, <- Hc, <- Hcy, <- Hso.
  destruct (gp_kind p).
  - destruct (issue_loan_terms b _ _ _ Hg1 ltac:(unfold amount_ok; lia) Hi) as ((? & ? & ->) & Hx & ?). simpl in Hx.
    split_and!; try done; [by eapply issue_loan_ok|lia|left; lia].
  - destruct (issue_grant_terms _ _ _ Hg1 Hi) as (? & ? & -> & Hx & ?). simpl in Hx.
    split_and!; try done; [by eapply issue_grant_ok|lia|by right].
Qed.

Lemma approve_effect sender group n s u s' :
  bounded s → sender ∉ reserved → address_ok group →
  approve_group_action sender group s = (Ok u, s') → effect sender (λ _, 0) n n s s'.
Proof.
  intros Hbd Hsr Ha H. unfold approve_group_action, save_group in H. handler_inv.
  match goal with H : approve_and_issue _ _ _ = (Ok ?o, _) |- _ => rename H into Hop; rename o into payment end.
  match goal with H : match payment with _ => _ end _ = (Ok _, _) |- _ => rename H into Hp end.
  eapply (pay_out_effect _ _ _ _ _ _ _ (from_option snd 0 payment)); [done..|]. intros Hc. opened Hc Ha.
  pose proof (money_bounds s group (denom_of g) (ck_money _ _ _ Hc) Ha Hd) as Hmb. specialize (Hbd _ Hd).
  destruct (approve_and_issue_Ok _ _ _ _ _ Hok (proj1 Hmb) ltac:(lia) Hop) as (Hok' & Hco & Hcy & Hpay).
  destruct payment as [[who amt]|]; simpl in *.
  - destruct Hpay as (Hw & Hx & Hso). split_and!; [|done|done|lia|lia].
    eapply pay_out_ok; [by apply Hc|done|by eapply member_address_ok; [exact Hok|]|done..].
  - repeat inv_M_step. split_and!; [by eapply no_payment|done|done|lia|lia].
Qed.

(** * Creation *)

Lemma create_group_effect ctx sender name ms c pol q n s u s' :
  0 ≤ n → address_ok sender →
  charter_wf name ms c pol q (ctx_height ctx) →
  (chain_ok n s → let a := Address_derived DGroupAddress (sender ++ encode u64_codec (nonce (acc s sender))) in
    a ∈ reserved ∧ a ≠ staking_account) →
  create_group ctx sender name ms c pol q s = (Ok u, s') → effect sender (λ _, 0) n n s s'.
Proof.
  intros Hn Hsa Hcw Hres H. unfold create_group in H. repeat inv_M_step.
  repeat match goal with H : load_account _ _ = Ok _ |- _ => apply load_account_Ok in H as -> end.
  match type of Hres with _ → let a := ?x in _ => set (ga := x) in * end.
  assert (address_ok ga) as Hga by apply Address_derived_ok.
  match goal with H : GroupAccount_new _ _ _ _ _ _ = Ok ?g |- _ => rename g into g0; rename H into Hnew end.
  match goal with H : match a_kind _ with _ => _ end ?s0 = (Ok _, ?s1) |- _ =>
    assert (s1 = s0) as -> by (destruct (a_kind _); by repeat inv_M_step) end.
  pose proof (GroupAccount_new_ok _ _ _ _ _ _ _ Hcw Hnew) as Hok.
  apply store_account_effect; [done|apply with_kind_wf; [by apply acc_at_wf|by apply group_ok_wf]| |done..].
  intros Hc. destruct (Hres Hc) as [Hin Hne]. destruct (ck_accounts _ _ _ Hc ga Hga) as [A1 A2 _].
  split; [done|done|]. intros g' [= <-]. apply GroupAccount_new_Ok in Hnew as (-> & _).
  split_and!; try done. apply amount_at_ok.
Qed.
End groups.
