(* ===== verification/ChainMessages.v ===== *)
(** Every message keeps the store's invariant, whatever module it reaches. *)

From S2P Require Import Prelude SortedVec Sorting Codec Primitives Crypto Smt Merkle Store Records Group.
From S2P Require Import GroupProofs GroupTheorems Account Issuer Bank BankProofs BankTheorems Validators Votes.
From S2P Require Import VoteProofs Params Alias AliasProofs Gov GovProofs GovTheorems Tx Staking StakingProofs.
From S2P Require Import StakingTheorems Footprint Executor ExecProofs ChainProofs ChainGroups.

Section chain.
Context {Hs : Hasher} {Sg : Signer} {Un : Unicode} {St : Type} {KV : KeyValueStore St} {KM : KVMap St}.
Implicit Types (s : St) (sender : Address).
Context (reserved : list Address) (staking_reserved : staking_account ∈ reserved).
Abbreviation bal s a d := (amount_at (kv_map s) (key_balance a d)).
Abbreviation supply s d := (amount_at (kv_map s) (key_supply d)).
Abbreviation acc s a := (acc_at (kv_map s) a).
Abbreviation effect := (effect reserved).
Abbreviation chain_ok := (chain_ok reserved).

(** * Messages *)

(** A decoded message, whose parameter change (if it proposes one) keeps the staking
    records within what the codec reads back. *)
Definition message_ok (msg : Message) : Prop :=
  wf Message_codec msg ∧ match msg with MsgProposeGovAction a => action_limits a | _ => True end.

(** What a message may create of a denomination. *)
Definition mint_of (msg : Message) (d : Denom) : Z :=
  match msg with MsgMint d' _ x => if decide (d' = d) then x else 0 | _ => 0 end.

Lemma bank_effect sender c n s u s' :
  call_ok c → sender ∉ reserved → (∀ a, debtor c = Some a → a = sender) →
  wrap_err XBank (bank_exec c) s = (Ok u, s') →
  effect sender (λ d, Z.max 0 (supply_delta c d)) n n s s'.
Proof.
  intros Hc Hr Hd H%wrap_err_Ok_inv. apply safe_move_effect; [done..|]. eapply bank_safe; [done| |done|done]. by intros ->.
Qed.

Lemma ensure_after sender b n s s1 a u s' :
  address_ok a → effect sender b n n s s1 → writes (E:=ExecError) (ensure_account a) s1 = (Ok u, s') →
  effect sender b n n s s'.
Proof.
  intros Ha H1 [_ ->]%writes_inv. eapply effect_le; [|eapply effect_trans; [exact H1|by apply ensure_account_effect]].
  intros d. simpl. lia.
Qed.

Lemma alias_effect sender n {E A} (op : M St E A) s x s' :
  touches alias_ns op → op s = (Ok x, s') → effect sender (λ _, 0) n n s s'.
Proof.
  intros Ht H. eapply records_effect; [by eapply Ht|set_solver|]. intros Hg. eapply gov_good_footprint; [by eapply Ht| | | |done];
    unfold alias_ns; set_solver.
Qed.

Lemma gov_effect sender n {E A} (op : M St E A) s x s' :
  touches gov_ns op → op s = (Ok x, s') → (gov_good (kv_map s) → gov_good (kv_map s')) → effect sender (λ _, 0) n n s s'.
Proof. intros Ht H Hg. eapply records_effect; [by eapply Ht|set_solver|done]. Qed.

Lemma params_of_Ok s p : params_of s = Ok p → p = params_at (kv_map s).
Proof. intros H%map_err_Ok_inv. by apply gov_params_Ok. Qed.

Lemma stake_effect {A} sender n (op : StakingParams → M St StakingError A) c s x s' :
  (∀ p s1, op p s = (Ok x, s1) → staking_exec p c s = (Ok tt, s1)) →
  scall_ok c → sender ∉ reserved → subject c = sender →
  with_staking op s = (Ok x, s') → effect sender (λ _, 0) n n s s'.
Proof.
  intros Hop Hc Hr <- H Hck. unfold with_staking in H. repeat inv_M_step.
  match goal with H : params_of _ = Ok _ |- _ => apply params_of_Ok in H as -> end.
  match goal with H : _ = (Ok x, ?s') |- _ => enough (effect (subject c) (λ _, 0) n n s s') as He by exact (He Hck) end.
  apply safe_move_effect; [done..|]. eapply stake_safe; [apply Hck|done|done|apply Hck|by apply Hop].
Qed.

Lemma report_effect sender n e h s x s' :
  sender ∉ reserved → address_ok (eq_validator e) → wf Height_codec h →
  with_staking (λ p, report_equivocation p e h) s = (Ok x, s') → effect sender (λ _, 0) n n s s'.
Proof.
  intros Hr Ha Hh H Hck. unfold with_staking in H. repeat inv_M_step.
  match goal with H : params_of _ = Ok _ |- _ => apply params_of_Ok in H as -> end.
  match goal with H : _ = (Ok x, ?s') |- _ => enough (effect sender (λ _, 0) n n s s') as He by exact (He Hck) end.
  apply safe_move_effect; [done..|]. eapply report_safe; [apply Hck|done|done|apply Hck|done].
Qed.

(** ** Decisions carried out *)

Lemma apply_gov_action_effect sender a n s u s' :
  sender ∉ reserved → wf Action_codec a → action_limits a → apply_gov_action a s = (Ok u, s') → effect sender (λ _, 0) n n s s'.
Proof.
  intros Hsr Hw Hl H. destruct a as [c|p|x att|x on|d au|id]; cbn [apply_gov_action] in H.
  - apply wrap_err_Ok_inv in H. eapply gov_effect; [apply (proj1 (enactment_touches c ChainParams_default))|done|].
    eapply set_council_good; [exact Hw|exact H].
  - apply wrap_err_Ok_inv in H. eapply gov_effect; [apply (proj2 (enactment_touches (Council_devnet []) p))|done|].
    eapply set_params_good; [exact Hw|exact Hl|exact H].
  - destruct Hw as [Hx Ha]. apply bind_Ok_inv in H as (? & ? & H1%wrap_err_Ok_inv & H). eapply ensure_after; [exact Hx| |exact H].
    eapply alias_effect; [|exact H1]. by eapply (binding_touches [] x [] 0 0 att true).
  - apply wrap_err_Ok_inv in H. eapply alias_effect; [|exact H]. by eapply (binding_touches [] x [] 0 0 {| at_country := []; at_name := []; active := on |} on).
  - destruct Hw as [Hd Hx]. apply bind_Ok_inv in H as (? & ? & H1 & H). eapply ensure_after; [exact Hx| |exact H].
    eapply effect_le; [|eapply (bank_effect _ (AdmitIssuer d au)); [done|done|done|exact H1]]. done.
  - repeat inv_M_step.
Qed.

Lemma execute_gov_effect ctx sender id n s u s' :
  sender ∉ reserved → apply_message ctx sender (MsgExecuteGovAction id) s = (Ok u, s') → effect sender (λ _, 0) n n s s'.
Proof.
  cbn [apply_message]. intros Hsr (a & s1 & H1%wrap_err_Ok_inv & H)%bind_Ok_inv Hck.
  pose proof (gov_execute_Ok _ _ _ _ _ H1) as (p & at_ & Hp & _ & _ & -> & Hr).
  assert (effect sender (λ _, 0) n n s s1) as E1.
  { eapply gov_effect; [apply (gov_touches sender (action p) id (ctx_height ctx))|exact H1|]. by eapply remove_good. }
  enough (effect sender (λ _, 0) n n s s') as He by exact (He Hck). eapply effect_le; [|eapply effect_trans; [exact E1|]].
  2:{ eapply apply_gov_action_effect; [done|by eapply proposal_action_wf|by eapply gg_queue; [apply Hck|]|exact H]. }
  done.
Qed.

Lemma apply_rebind_address c now s a s' : apply_rebind c now s = (Ok a, s') → address_ok a.
Proof.
  unfold apply_rebind, put_contact. intros H. repeat inv_M_step.
  match goal with H : require_binding _ _ = _ |- _ => apply require_binding_Ok in H as [_ Hb] end.
  destruct (contact_at_wf _ _ _ Hb) as (_ & _ & _ & Hw). cbn in Hw.
  match goal with H : rebind _ = Some _ |- _ => rewrite H in Hw end. by destruct Hw.
Qed.

(** ** The sender's own record *)

Lemma change_account_effect sender change n s u s' :
  address_ok sender → sender ∉ reserved →
  (∀ r r', wf Account_codec r → change r = Ok r' → has_a_usable_authority r' = true →
     wf Account_codec r' ∧ a_address r' = a_address r ∧ nonce r' = nonce r ∧ last_txn r' = last_txn r ∧ a_kind r' = a_kind r) →
  change_account sender change s = (Ok u, s') → effect sender (λ _, 0) n n s s'.
Proof.
  intros Ha Hr Hch H. unfold change_account in H. repeat inv_M_step. bool_simpl.
  match goal with H : load_account _ _ = Ok _ |- _ => apply load_account_Ok in H as -> end.
  match goal with H : change _ = Ok ?r' |- _ => destruct (Hch _ _ (acc_at_wf (kv_map s) sender Ha) H) as (Hw & Had & Hn & Hl & Hk); [done|] end.
  apply store_account_effect; try done. intros Hc. destruct (ck_accounts _ _ _ Hc sender Ha) as [A1 A2 A3].
  split; [congruence|done|]. unfold as_group in *. by rewrite Hk.
Qed.

Lemma flag_effect ctx sender flag enabled n s u s' :
  address_ok sender → sender ∉ reserved →
  apply_message ctx sender (MsgSetAccountFlag flag enabled) s = (Ok u, s') → effect sender (λ _, 0) n n s s'.
Proof.
  intros Ha Hr. apply change_account_effect; [done..|]. intros r r' Hw [= <-] Hu. split; [|done]. apply with_flags_wf; [done| |done].
  apply (proj1 (Account_wf _)) in Hw as [(_ & _ & _ & _ & Hf & _) _]. by apply flags_with_spec.
Qed.

Lemma regular_key_effect ctx sender key n s u s' :
  address_ok sender → sender ∉ reserved → wf (option_codec PublicKey_codec) key →
  apply_message ctx sender (MsgSetRegularKey key) s = (Ok u, s') → effect sender (λ _, 0) n n s s'.
Proof.
  intros Ha Hr Hk. apply change_account_effect; [done..|]. intros r r' Hw H Hu.
  match type of H with (if ?b then _ else _) = _ => destruct b; [done|] end. injection H as <-.
  split; [by apply with_regular_key_wf|done].
Qed.

Lemma signer_list_effect ctx sender l n s u s' :
  address_ok sender → sender ∉ reserved → wf (option_codec SignerList_codec) l →
  apply_message ctx sender (MsgSetSignerList l) s = (Ok u, s') → effect sender (λ _, 0) n n s s'.
Proof.
  intros Ha Hr Hk. apply change_account_effect; [done..|]. intros r r' Hw [= <-] Hu. split; [by apply with_signers_wf|done].
Qed.

(** ** Every message *)

Definition context_ok (ctx : BlockContext) : Prop := wf Height_codec (ctx_height ctx) ∧ wf Timestamp_codec (ctx_time ctx).

(** Where a group created by this transaction would live. *)
Definition group_address_of (sender : Address) (nonce : Z) : Address :=
  Address_derived DGroupAddress (sender ++ encode u64_codec nonce).

(** Messages that only the bank acts on. *)
Lemma bank_message_effect ctx sender msg c n s u s' :
  apply_message ctx sender msg s = wrap_err XBank (bank_exec c) s → call_ok c → sender ∉ reserved →
  (∀ a, debtor c = Some a → a = sender) → (∀ d, supply_delta c d ≤ mint_of msg d) → (∀ d, 0 ≤ mint_of msg d) →
  apply_message ctx sender msg s = (Ok u, s') → effect sender (mint_of msg) n n s s'.
Proof.
  intros E Hc Hr Hd Hs0 Hm H. rewrite E in H. eapply effect_le; [|by eapply bank_effect]. intros d. specialize (Hs0 d).
  specialize (Hm d). simpl. lia.
Qed.

Lemma apply_message_effect ctx sender msg n s u s' :
  0 ≤ n < 2 ^ 54 → bounded s → context_ok ctx → address_ok sender → sender ∉ reserved → message_ok msg →
  group_address_of sender (nonce (acc s sender)) ∈ reserved →
  group_address_of sender (nonce (acc s sender)) ≠ staking_account →
  apply_message ctx sender msg s = (Ok u, s') → effect sender (mint_of msg) n (n + 1) s s'.
Proof.
  intros Hn Hbd [Hh Ht] Hsa Hsr [Hw Hlim] Hga Hgs H.
  assert (sender ≠ staking_account) as Hne by (intros ->; done).
  destruct msg.
  all: try (lazymatch type of H with apply_message _ _ (MsgGroupPayout _) _ = _ => fail | apply_message _ _ (MsgCloseCycle _) _ = _ => fail
            | _ => apply effect_grow; [lia|] end).
  - destruct Hw as (Hto & Hd & Hx & _). cbn [apply_message] in H. apply bind_Ok_inv in H as (? & ? & [_ ->]%reads_inv & H).
    apply bind_Ok_inv in H as (? & ? & [_ ->]%fail_if_Ok_inv & H). apply bind_Ok_inv in H as (? & ? & Hp & H).
    eapply ensure_after; [exact Hto| |exact H]. eapply effect_le; [|eapply (bank_effect _ (Transfer sender to denom amount)); [|done| |exact Hp]].
    + done.
    + apply amount_ok_wf in Hx. done.
    + by intros a [= <-].
  - destruct Hw as (? & (? & ?) & ? & ? & ?). eapply create_group_effect; [lia|done|done|done|exact H].
  - destruct Hw as (Hg & Hx). eapply contribute_effect; [done|done|exact Hg|done|by apply amount_ok_wf|exact H].
  - eapply payout_effect; [done|done|exact Hw|done|exact H].
  - eapply alias_effect; [|exact H]. apply touches_wrap_err. by eapply (registry_touches name sender [] (ctx_height ctx)).
  - eapply alias_effect; [|exact H]. apply touches_wrap_err. by eapply (registry_touches name sender [] (ctx_height ctx)).
  - destruct Hw as [_ Hto]. cbn [apply_message] in H. apply bind_Ok_inv in H as (? & ? & H1 & H).
    eapply ensure_after; [exact Hto| |exact H]. eapply alias_effect; [|exact H1]. apply touches_wrap_err.
    by eapply (registry_touches name sender to (ctx_height ctx)).
  - eapply alias_effect; [|exact H]. apply touches_wrap_err. by eapply (registry_touches name sender [] (ctx_height ctx)).
  - destruct Hw as [_ Hto]. cbn [apply_message] in H. apply bind_Ok_inv in H as (? & ? & H1 & H).
    eapply ensure_after; [exact Hto| |exact H]. eapply alias_effect; [|exact H1]. apply touches_wrap_err.
    by eapply (binding_touches commitment address sender (ctx_height ctx) 0 {| at_country := []; at_name := []; active := true |} true).
  - eapply alias_effect; [|exact H]. cbn [apply_message]. unfold discard. apply touches_bind; [apply touches_reads|intros p].
    apply touches_bind; [|intros ?; apply touches_ret]. apply touches_wrap_err.
    by eapply (binding_touches commitment new_address sender (ctx_height ctx) _ {| at_country := []; at_name := []; active := true |} true).
  - eapply alias_effect; [|exact H]. apply touches_wrap_err.
    by eapply (binding_touches commitment sender [] 0 0 {| at_country := []; at_name := []; active := true |} true).
  - eapply alias_effect; [|exact H]. apply touches_wrap_err.
    by eapply (binding_touches commitment sender [] 0 0 {| at_country := []; at_name := []; active := true |} true).
  - eapply alias_effect; [|exact H]. apply touches_wrap_err. by eapply (registry_touches [] sender [] (ctx_height ctx)).
  - eapply alias_effect; [|exact H]. apply touches_wrap_err. by eapply (registry_touches name sender [] (ctx_height ctx)).
  - destruct Hw as (Hpk & Hco & Hx). eapply (stake_effect _ _ _ (SBond sender public_key country amount)); [| |done|done|exact H].
    + by intros p s1 ?; destruct u.
    + split_and!; [done..|by apply amount_ok_wf].
  - eapply (stake_effect _ _ _ (SAddStake sender amount)); [| |done|done|exact H].
    + by intros p s1 ?; destruct u.
    + split_and!; [done..|by apply amount_ok_wf].
  - eapply (stake_effect _ _ _ (SUnbond sender amount (ctx_height ctx) (ctx_time ctx))); [| |done|done|exact H].
    + by intros p s1 ?; destruct u.
    + split_and!; [done|done|by apply amount_ok_wf|done|done].
  - cbn [apply_message] in H. unfold discard in H. apply bind_Ok_inv in H as (? & ? & H1 & [_ ->]%ret_inv).
    eapply (stake_effect _ _ _ (SWithdraw sender (ctx_time ctx))); [| |done|done|exact H1]; [|done].
    intros p s1 Hw1. cbn [staking_exec]. unfold bind. by rewrite Hw1.
  - cbn [apply_message] in H. unfold discard in H. apply bind_Ok_inv in H as (? & ? & H1 & [_ ->]%ret_inv).
    destruct Hw as (Hv & _). eapply report_effect; [done|exact Hv|exact Hh|exact H1].
  - by eapply flag_effect.
  - eapply regular_key_effect; [done|done|exact Hw|exact H].
  - eapply signer_list_effect; [done|done|exact Hw|exact H].
  - cbn [apply_message] in H. apply bind_Ok_inv in H as (? & ? & H1%wrap_err_Ok_inv & H).
    eapply ensure_after; [| |exact H]; [by eapply apply_rebind_address|]. eapply alias_effect; [|exact H1].
    by eapply (binding_touches commitment sender [] (ctx_height ctx) 0 {| at_country := []; at_name := []; active := true |} true).
  - destruct Hw as (Hg & Hk). apply wf_u32 in Hk as [Hk _]. eapply buy_shares_effect; [done|done|exact Hg|done|exact Hk|exact H].
  - eapply pay_social_effect; [done|done|exact Hw|done|exact H].
  - destruct Hw as (Hg & Hb & Hk). eapply propose_group_effect; [done|done|exact Hg|exact Hk|exact H].
  - eapply approve_effect; [done|done|done|exact Hw|exact H].
  - destruct Hw as (Hg & Hx). eapply repay_effect; [done|done|exact Hg|done|by apply amount_ok_wf|exact H].
  - eapply close_cycle_effect; [done|done|exact Hw|done|exact H].
  - eapply share_out_effect; [done|lia|done|exact Hw|exact H].
  - destruct Hw as (Hd & Hto & Hx). apply amount_ok_wf in Hx. destruct Hx as [Hx0 Hx1]. simpl in Hx0.
    eapply (bank_message_effect _ _ _ (Mint sender to denom amount)); [reflexivity|done|done|done| | |exact H];
      intros d; simpl; repeat case_decide; lia.
  - destruct Hw as (Hd & Hx). apply amount_ok_wf in Hx. pose proof Hx as [Hx0 Hx1]. simpl in Hx0.
    eapply (bank_message_effect _ _ _ (Burn sender denom amount)); [reflexivity|done|done|by intros a [= <-]| |done|exact H].
    intros d; simpl; repeat case_decide; lia.
  - destruct Hw as (Hd & Hm & Hx). apply amount_ok_wf in Hx.
    by eapply (bank_message_effect _ _ _ (SetMinterAllowance sender denom minter allowance)); [reflexivity|done..|exact H].
  - destruct Hw as (Hd & _). by eapply (bank_message_effect _ _ _ (SetPaused sender denom paused)); [reflexivity|done..|exact H].
  - destruct Hw as (Hd & Hx). apply amount_ok_wf in Hx.
    by eapply (bank_message_effect _ _ _ (TightenSupplyCap sender denom cap)); [reflexivity|done..|exact H].
  - destruct Hw as (Hd & Hf). eapply (bank_message_effect _ _ _ (SetFreezer sender denom freezer)); [reflexivity| |done..|exact H].
    split_and!; [done..|]. by destruct freezer.
  - destruct Hw as (Hd & Ha & _). destruct frozen.
    + by eapply (bank_message_effect _ _ _ (Freeze sender account denom)); [reflexivity|done..|exact H].
    + by eapply (bank_message_effect _ _ _ (Unfreeze sender account denom)); [reflexivity|done..|exact H].
  - destruct Hw as (Hd & Ht'). cbn [apply_message] in H. apply bind_Ok_inv in H as (? & ? & H1 & H).
    assert (effect sender (mint_of (MsgTransferIssuerAuthority denom to)) n n s x0) as E1.
    { eapply effect_le; [|eapply (bank_effect _ (TransferIssuerAuthority sender denom to)); [|done|done|exact H1]]; [done|].
      split_and!; [done..|]. by destruct to. }
    destruct to as [to|]; [|by apply ret_inv in H as [_ ->]]. eapply ensure_after; [exact Ht'|exact E1|exact H].
  - by eapply (bank_message_effect _ _ _ (AcceptIssuerAuthority sender denom)); [reflexivity|done..|exact H].
  - cbn [apply_message] in H. unfold discard in H. apply bind_Ok_inv in H as (? & ? & H1%wrap_err_Ok_inv & [_ ->]%ret_inv).
    eapply gov_effect; [apply (proj1 (gov_touches sender action 0 (ctx_height ctx)))|exact H1|]. eapply propose_good; [done|exact Hw|done|exact H1].
  - cbn [apply_message] in H. unfold discard in H. apply bind_Ok_inv in H as (? & ? & H1%wrap_err_Ok_inv & [_ ->]%ret_inv).
    eapply gov_effect; [apply (proj1 (proj2 (gov_touches sender (Cancel 0) proposal (ctx_height ctx))))|exact H1|]. by eapply vote_good.
  - by eapply execute_gov_effect.
Qed.
End chain.
