(* ===== verification/Block.v ===== *)
(** Blocks and headers ([crates/executor/src/block.rs]) and how the executor builds
    them ([build_block] in [lib.rs]). *)

From S2P Require Import Prelude Codec Primitives Crypto Merkle Store Params Account Validators Alias Gov Tx Executor.

Record BlockHeader := {
  h_chain_id : ChainId;
  h_height : Height;
  h_time : Timestamp;
  parent : Hash32;
  h_tx_root : Hash32;
  h_app_hash : Hash32;
  h_outcome_root : Hash32;
  validators_hash : Hash32;
  next_validators_hash : Hash32;
}.

Record ValidatorSets := { vs_current : ValidatorSet; vs_next : ValidatorSet }.
Definition ValidatorSets_unchanged (set : ValidatorSet) : ValidatorSets := {| vs_current := set; vs_next := set |}.

Definition MAX_BLOCK_TRANSACTIONS : Z := 10000.
Definition MAX_BLOCK_BYTES : Z := 4 * 1024 * 1024.

Record Block := { b_header : BlockHeader; transactions : list Transaction }.

Definition BlockHeader_codec : codec BlockHeader :=
  iso_codec
    (λ '(c, (h, (t, (p, (x, (a, (o, (v, n)))))))),
       {| h_chain_id := c; h_height := h; h_time := t; parent := p; h_tx_root := x; h_app_hash := a;
          h_outcome_root := o; validators_hash := v; next_validators_hash := n |})
    (λ b, (h_chain_id b, (h_height b, (h_time b, (parent b, (h_tx_root b, (h_app_hash b, (h_outcome_root b,
           (validators_hash b, next_validators_hash b)))))))))
    (ChainId_codec ⊗ Height_codec ⊗ Timestamp_codec ⊗ Hash32_codec ⊗ Hash32_codec ⊗ Hash32_codec ⊗ Hash32_codec
     ⊗ Hash32_codec ⊗ Hash32_codec).
#[export] Instance BlockHeader_lawful : Lawful BlockHeader_codec.
Proof. unfold BlockHeader_codec. struct_lawful. Qed.
Arguments BlockHeader_codec : simpl never.

Section blocks.
Context {Hs : Hasher} {Sg : Signer} {Un : Unicode}.

Definition BlockHeader_id (h : BlockHeader) : Hash32 := hash DBlockId (encode BlockHeader_codec h).

Definition Block_codec : codec Block :=
  iso_codec (λ '(h, t), {| b_header := h; transactions := t |}) (λ b, (b_header b, transactions b))
    (BlockHeader_codec ⊗ vec_codec Transaction_codec).
#[export] Instance Block_lawful : Lawful Block_codec.
Proof. unfold Block_codec. struct_lawful. Qed.

(** The loop of [within_size_limits], with the bytes counted so far. *)
Fixpoint within_bytes (acc : Z) (txs : list Transaction) : bool :=
  match txs with
  | [] => true
  | tx :: txs =>
      let acc := saturating_add u64_max acc (Z.of_nat (length (encode Transaction_codec tx))) in
      if MAX_BLOCK_BYTES <? acc then false else within_bytes acc txs
  end.
Definition within_size_limits (b : Block) : bool :=
  if MAX_BLOCK_TRANSACTIONS <? Z.of_nat (length (transactions b)) then false
  else within_bytes 0 (transactions b).

Definition tx_root (txs : list Transaction) : Hash32 := root_of (MerkleTree_from_items (tx_id <$> txs)).
Definition tx_root_matches (b : Block) : bool := bool_decide (h_tx_root (b_header b) = tx_root (transactions b)).

Context {St : Type} {KV : KeyValueStore St} {Ro : Rooted St}.

Definition build_block (chain : ChainId) (height : Height) (time : Timestamp) (parent_ : Hash32)
    (txs : list Transaction) (sets : ValidatorSets) (s : St) : Block * BlockOutcome * St :=
  let root := tx_root txs in
  let '(o, s) := execute_block chain {| ctx_height := height; ctx_time := time |} txs s in
  let header := {|
    h_chain_id := chain; h_height := height; h_time := time; parent := parent_; h_tx_root := root;
    h_app_hash := o_app_hash o; h_outcome_root := outcome_root o;
    validators_hash := vs_hash (vs_current sets);
    next_validators_hash := vs_hash (vs_next sets) |} in
  ({| b_header := header; transactions := txs |}, o, s).
End blocks.
Arguments Block_codec : simpl never.
