(* ===== verification/Genesis.v ===== *)
(** Genesis ([crates/executor/src/genesis.rs]): the agreed starting state, how a genesis
    file is checked and applied, and that the store it leaves satisfies the invariant
    every block keeps. *)

From S2P Require Import Prelude SortedVec Sorting Codec Primitives Crypto Smt Merkle Store Records Group.
From S2P Require Import GroupProofs GroupTheorems Account Issuer Bank BankProofs BankTheorems Validators Votes.
From S2P Require Import VoteProofs Params Alias AliasProofs Gov GovProofs GovTheorems Tx Staking StakingProofs.
From S2P Require Import StakingTheorems Footprint Executor ExecProofs ChainProofs ChainGroups ChainMessages Block.

(** * Data *)

(** [Governance(..)] carries the text of one of four errors; the four are kept apart
    here. *)
Inductive GenesisError :=
| NoAllocations
| DuplicateAllocation
| UnregisteredDenom (d : Denom)
| InsufficientDistribution (found required : nat)
| ExcessiveConcentration (found cap : Z)
| DuplicateAttestor
| SuspendedAttestor (a : Address)
| GnParams (e : ParamError)
| GnCapTooLoose (cap limit : Z)
| GnCouncil (e : CouncilError)
| GnGov (e : GovError)
| GnBank (e : BankError).

Record Allocation := { al_address : Address; al_denom : Denom; al_amount : Amount }.

Record Genesis := {
  g_chain_id : ChainId;
  genesis_time : Timestamp;
  g_validators : ValidatorSet;
  issuers : list (Denom * Issuer);
  attestors : list (Address * Attestor);
  g_council : Council;
  g_params : ChainParams;
  allocations : list Allocation;
}.

Record GenesisLimits := {
  min_countries : nat;
  gl_max_single_share_bps : Z;
  gl_max_council_country_share_bps : Z;
}.
Definition GenesisLimits_default : GenesisLimits := {|
  min_countries := 15; gl_max_single_share_bps := 1000; gl_max_council_country_share_bps := MAX_COUNCIL_COUNTRY_SHARE_BPS |}.
Definition GenesisLimits_devnet : GenesisLimits := {|
  min_countries := 1; gl_max_single_share_bps := 10000; gl_max_council_country_share_bps := 10000 |}.

(** * The wire format *)

Section codecs.
Context {Hs : Hasher} {Sg : Signer}.

Definition Allocation_codec : codec Allocation :=
  iso_codec (λ '(a, (d, x)), {| al_address := a; al_denom := d; al_amount := x |})
    (λ l, (al_address l, (al_denom l, al_amount l))) (Address_codec ⊗ Denom_codec ⊗ Amount_codec).
#[export] Instance Allocation_lawful : Lawful Allocation_codec.
Proof. unfold Allocation_codec. struct_lawful. Qed.

Definition Genesis_codec : codec Genesis :=
  iso_codec
    (λ '(c, (t, (v, (i, (a, (k, (p, l))))))),
       {| g_chain_id := c; genesis_time := t; g_validators := v; issuers := i; attestors := a; g_council := k;
          g_params := p; allocations := l |})
    (λ g, (g_chain_id g, (genesis_time g, (g_validators g, (issuers g, (attestors g, (g_council g, (g_params g,
           allocations g))))))))
    (ChainId_codec ⊗ Timestamp_codec ⊗ ValidatorSet_codec ⊗ vec_codec (Denom_codec ⊗ Issuer_codec)
     ⊗ vec_codec (Address_codec ⊗ Attestor_codec) ⊗ Council_codec ⊗ ChainParams_codec ⊗ vec_codec Allocation_codec).
#[export] Instance Genesis_lawful : Lawful Genesis_codec.
Proof. unfold Genesis_codec. struct_lawful. Qed.
End codecs.
Arguments Allocation_codec : simpl never.
Arguments Genesis_codec : simpl never.

(** * Validation *)

Section genesis.
Context {Hs : Hasher} {Sg : Signer} {Un : Unicode}.

(** Addresses have one width, so a pair of an address and a denomination orders and
    compares as the two strings end to end. *)
Definition allocation_key (a : Allocation) : bytes := al_address a ++ al_denom a.

Definition unregistered (g : Genesis) (a : Allocation) : bool :=
  Denom_is_sovereign (al_denom a) && negb (existsb (λ i, bool_decide (i.1 = al_denom a)) (issuers g)).

Definition genesis_validate (g : Genesis) (limits : GenesisLimits) : result GenesisError unit :=
  if bool_decide (allocations g = []) then Err NoAllocations
  else if negb (length (sort_dedup (allocation_key <$> allocations g)) =? length (allocations g))%nat
  then Err DuplicateAllocation
  else match List.find (unregistered g) (allocations g) with
  | Some a => Err (UnregisteredDenom (al_denom a))
  | None =>
      if negb (length (sort_dedup (fst <$> attestors g)) =? length (attestors g))%nat then Err DuplicateAttestor
      else match List.find (λ a, negb (active a.2)) (attestors g) with
      | Some a => Err (SuspendedAttestor a.1)
      | None =>
          let countries := countries_represented (g_validators g) in
          if (countries <? min_countries limits)%nat then Err (InsufficientDistribution countries (min_countries limits))
          else
            let share := max_single_share_bps (g_validators g) in
            if gl_max_single_share_bps limits <? share then Err (ExcessiveConcentration share (gl_max_single_share_bps limits))
            else
              _ ← map_err GnParams (validate (g_params g));
              let cap := max_council_country_share_bps (g_params g) in
              if gl_max_council_country_share_bps limits <? cap
              then Err (GnCapTooLoose cap (gl_max_council_country_share_bps limits))
              else map_err GnCouncil (check_concentration (g_council g) cap)
      end
  end.

(** The loop of [total_allocated]. *)
Fixpoint total_allocated_from (acc : Amount) (denom : Denom) (l : list Allocation) : result GenesisError Amount :=
  match l with
  | [] => Ok acc
  | a :: l =>
      if bool_decide (al_denom a = denom) then
        match Amount_checked_add acc (al_amount a) with
        | Ok acc => total_allocated_from acc denom l
        | Err _ => Err (GnBank (Bank.Overflow "genesis/total"))
        end
      else total_allocated_from acc denom l
  end.
Definition total_allocated (g : Genesis) (denom : Denom) : result GenesisError Amount :=
  total_allocated_from 0 denom (allocations g).

(** * Application *)

Context {St : Type} {KV : KeyValueStore St}.
Abbreviation G := (M St GenesisError).

Fixpoint register_issuers (l : list (Denom * Issuer)) : G unit :=
  match l with
  | [] => ret tt
  | (d, i) :: l => do! wrap_err GnBank (register_issuer d i) in register_issuers l
  end.

Fixpoint allocate (l : list Allocation) : G unit :=
  match l with
  | [] => ret tt
  | a :: l => do! wrap_err GnBank (genesis_allocate (al_address a) (al_denom a) (al_amount a)) in allocate l
  end.

Fixpoint register_attestors (l : list (Address * Attestor)) (s : St) : St :=
  match l with
  | [] => s
  | (a, r) :: l => register_attestors l (set_encoded Attestor_codec s (key_attestor a) r)
  end.

Fixpoint open_accounts (l : list Address) (s : St) : St :=
  match l with
  | [] => s
  | a :: l => open_accounts l (store_account a (Account_individual a) s)
  end.

Definition genesis_block {Ro : Rooted St} (g : Genesis) (s : St) : Block := {|
  b_header := {|
    h_chain_id := g_chain_id g; h_height := 0; h_time := genesis_time g; parent := Hash32_ZERO;
    h_tx_root := tx_root []; h_app_hash := kv_root s; h_outcome_root := empty_root;
    validators_hash := vs_hash (g_validators g); next_validators_hash := vs_hash (g_validators g) |};
  transactions := [];
|}.

Definition genesis_apply {Ro : Rooted St} (g : Genesis) (limits : GenesisLimits) : G Block :=
  do! lift (genesis_validate g limits) in
  do! register_issuers (issuers g) in
  do! allocate (allocations g) in
  do! wrap_err GnGov (install (g_council g) (g_params g)) in
  do! writes (register_attestors (attestors g)) in
  do! writes (open_accounts (sort_dedup (al_address <$> allocations g))) in
  reads (λ s, Ok (genesis_block g s)).
End genesis.

(** * What genesis leaves behind *)

Section opening.
Context {Hs : Hasher} {Sg : Signer} {Un : Unicode} {St : Type} {KV : KeyValueStore St} {KM : KVMap St} {Ro : Rooted St}.
Implicit Types (s : St).
Context (reserved : list Address) (staking_reserved : staking_account ∈ reserved).
Abbreviation bal s a d := (amount_at (kv_map s) (key_balance a d)).
Abbreviation supply s d := (amount_at (kv_map s) (key_supply d)).
Abbreviation acc s a := (acc_at (kv_map s) a).
Abbreviation chain_ok := (chain_ok reserved).

(** What the file allocates to an account, and of a denomination in all. *)
Definition allocated (g : Genesis) (a : Address) (d : Denom) : Z :=
  list_sum (λ l, if decide (al_address l = a ∧ al_denom l = d) then al_amount l else 0) (allocations g).
Definition allocated_total (g : Genesis) (d : Denom) : Z :=
  list_sum (λ l, if decide (al_denom l = d) then al_amount l else 0) (allocations g).

Lemma chain_ok_empty s : kv_map s = ∅ → chain_ok 0 s.
Proof.
  intros E. split.
  - split; [by apply staking_ok_empty|]. unfold bond_at, record_at. by rewrite E.
  - rewrite E. split; [split|..].
    + apply params_default_ok.
    + done.
    + by vm_compute.
    + done.
  - intros a _ b. by rewrite E.
  - intros a _. unfold acc_at, record_at. by rewrite E.
Qed.

(** A step of genesis: the invariant holds on, no account record changes, and balances
    and supplies move as said. *)
Record opening (db : Address → Denom → Z) (ds : Denom → Z) s s' : Prop := {
  op_chain : chain_ok 0 s → chain_ok 0 s';
  op_balance a d : address_ok a → denom_ok d → bal s' a d = bal s a d + db a d;
  op_supply d : denom_ok d → supply s' d = supply s d + ds d;
  op_acc a : acc s' a = acc s a;
}.

Lemma opening_trans db1 ds1 db2 ds2 s1 s2 s3 :
  opening db1 ds1 s1 s2 → opening db2 ds2 s2 s3 → opening (λ a d, db1 a d + db2 a d) (λ d, ds1 d + ds2 d) s1 s3.
Proof.
  intros [C1 B1 S1 A1] [C2 B2 S2 A2]. split; [auto|..].
  - intros a d Ha Hd. rewrite B2, B1 by done. lia.
  - intros d Hd. rewrite S2, S1 by done. lia.
  - intros a. congruence.
Qed.

Lemma opening_bank c s u s' :
  call_ok c → debtor c = None → bank_exec c s = (Ok u, s') → opening (balance_delta c) (supply_delta c) s s'.
Proof.
  intros Hc Hd Hr. pose proof (bank_exec_ledger _ _ _ _ Hc Hr) as Hl.
  assert (safe_move [] (λ d, Z.max 0 (supply_delta c d)) s s') as Hsm.
  { eapply bank_safe; [done| |by rewrite Hd|done]. intros E. by pose proof staking_account_ok as Hk; rewrite <- E in Hk. }
  split.
  - intros Hck. by apply (safe_move_effect reserved [] _ 0 _ _ staking_reserved ltac:(done) Hsm Hck).
  - intros a d Ha Hdn. by apply (Hl a d Ha Hdn).
  - intros d Hdn. by apply (Hl Address_ZERO d eq_refl Hdn).
  - intros a. apply (acc_at_footprint staking_ns); [apply Hsm|]. unfold staking_ns, bank_ns. set_solver.
Qed.

Lemma register_issuers_opening l s u s' :
  Forall (wf (Denom_codec ⊗ Issuer_codec)) l → register_issuers l s = (Ok u, s') → opening no_move no_supply s s'.
Proof.
  intros Hl. revert s. induction Hl as [|[d i] l [Hd Hi] Hl IH]; intros s H; cbn [register_issuers] in H.
  - repeat inv_M_step. split; intros; unfold no_move, no_supply; try lia; done.
  - apply bind_Ok_inv in H as (v & s1 & H1%wrap_err_Ok_inv & H).
    apply (opening_trans no_move no_supply no_move no_supply _ s1 _); [|by apply IH].
    by apply (opening_bank (RegisterIssuer d i) s v s1).
Qed.

Lemma allocate_opening l s u s' :
  Forall (wf Allocation_codec) l → allocate l s = (Ok u, s') →
  opening (λ a d, list_sum (λ x, if decide (al_address x = a ∧ al_denom x = d) then al_amount x else 0) l)
          (λ d, list_sum (λ x, if decide (al_denom x = d) then al_amount x else 0) l) s s'.
Proof.
  intros Hl. revert s. induction Hl as [|x l (Ha & Hd & Hx) Hl IH]; intros s H; cbn [allocate] in H.
  - repeat inv_M_step. split; intros; simpl; try lia; done.
  - apply bind_Ok_inv in H as (v & s1 & H1%wrap_err_Ok_inv & H).
    eapply (opening_trans _ _ _ _ _ s1 _); [|by apply IH].
    apply (opening_bank (GenesisAllocate (al_address x) (al_denom x) (al_amount x)) s v s1); [|done|done].
    split_and!; [done|done|by apply amount_ok_wf].
Qed.

Lemma install_opening c p s u s' :
  wf Council_codec c → wf ChainParams_codec p → limits_ok (Params.staking p) →
  install c p s = (Ok u, s') →
  opening no_move no_supply s s' ∧ record_at ChainParams_codec (kv_map s') key_params = Some p ∧ council_at (kv_map s') = Some c.
Proof.
  intros Hc Hp Hlim H. destruct (install_Ok _ _ _ _ _ Hc Hp H) as (Em & Hok & Er & Ec).
  assert (footprint gov_ns (kv_map s) (kv_map s')) as Hf.
  { rewrite Em. unfold key_council, key_params. etrans; [apply (footprint_insert gov_ns)|apply (footprint_insert gov_ns)]; in_list. }
  split; [|done]. split.
  - intros Hck. eapply (records_effect reserved [] 0 gov_ns); [exact Hf|set_solver| |exact Hck].
    intros [_ _ Hg3]. split; [done| |].
    + unfold params_at. by rewrite Er.
    + intros id q. unfold proposal_at. rewrite (record_at_ext _ (kv_map s)); [apply Hg3|].
      rewrite Em. rewrite !lookup_insert_ne; [done|ns_ne..].
  - intros a d _ _. unfold key_balance, no_move. rewrite (amount_at_footprint gov_ns (kv_map s)); [lia|done|unfold gov_ns; set_solver].
  - intros d _. unfold key_supply, no_supply. rewrite (amount_at_footprint gov_ns (kv_map s)); [lia|done|unfold gov_ns; set_solver].
  - intros a. apply (acc_at_footprint gov_ns); [done|unfold gov_ns; set_solver].
Qed.

Lemma register_attestors_footprint l s : footprint [NsAttestor] (kv_map s) (kv_map (register_attestors l s)).
Proof.
  revert s. induction l as [|[a r] l IH]; intros s; cbn [register_attestors]; [done|].
  etrans; [|apply IH]. unfold set_encoded, key_attestor. rewrite kv_set_map. apply footprint_insert. in_list.
Qed.

Lemma open_accounts_ok l s :
  Forall address_ok l → (∀ a, address_ok a → acc s a = Account_individual a) → chain_ok 0 s →
  chain_ok 0 (open_accounts l s) ∧ (∀ a, address_ok a → acc (open_accounts l s) a = Account_individual a)
  ∧ footprint [NsAccount] (kv_map s) (kv_map (open_accounts l s)).
Proof.
  intros Hl. revert s. induction Hl as [|a l Ha Hl IH]; intros s Hacc Hck; cbn [open_accounts]; [done|].
  pose proof (individual_wf a Ha) as Hw.
  destruct (IH (store_account a (Account_individual a) s)) as (? & ? & ?).
  - intros a' Ha'. rewrite store_account_acc by done. case_decide; [by subst|by apply Hacc].
  - apply store_account_ok; [done..| |done]. rewrite <- (Hacc a Ha). by apply Hck.
  - split_and!; [done..|]. etrans; [apply store_account_footprint|done].
Qed.

(** Everything genesis does to an empty store. *)
Lemma genesis_apply_spec g limits s0 b s :
  kv_map s0 = ∅ → wf Genesis_codec g → limits_ok (Params.staking (g_params g)) →
  genesis_apply g limits s0 = (Ok b, s) →
  chain_ok 0 s
  ∧ (∀ a d, address_ok a → denom_ok d → bal s a d = allocated g a d)
  ∧ (∀ d, denom_ok d → supply s d = allocated_total g d)
  ∧ (∀ a, address_ok a → acc s a = Account_individual a)
  ∧ record_at ChainParams_codec (kv_map s) key_params = Some (g_params g) ∧ council_at (kv_map s) = Some (g_council g).
Proof.
  intros E0 (_ & _ & _ & (_ & Hi) & (_ & Hat) & Hc & Hp & (_ & Hal)) Hlim H. unfold genesis_apply in H.
  apply bind_Ok_inv in H as (u0 & s0' & Hv & H). apply lift_inv in Hv as [_ ->].
  apply bind_Ok_inv in H as (u1 & s1 & H1 & H). apply bind_Ok_inv in H as (u2 & s2 & H2 & H).
  apply bind_Ok_inv in H as (u3 & s3 & H3%wrap_err_Ok_inv & H). apply bind_Ok_inv in H as (u4 & s4 & H4 & H).
  apply writes_inv in H4 as [_ ->]. apply bind_Ok_inv in H as (u5 & s5 & H5 & H). apply writes_inv in H5 as [_ ->].
  apply reads_inv in H as [_ ->].
  pose proof (register_issuers_opening _ _ _ _ Hi H1) as O1. pose proof (allocate_opening _ _ _ _ Hal H2) as O2.
  destruct (install_opening _ _ _ _ _ Hc Hp Hlim H3) as (O3 & Ep & Ec).
  pose proof (opening_trans _ _ _ _ _ _ _ O1 (opening_trans _ _ _ _ _ _ _ O2 O3)) as [C B S A].
  pose proof (register_attestors_footprint (attestors g) s3) as F4. set (s4 := register_attestors (attestors g) s3) in *.
  assert (∀ a, address_ok a → acc s4 a = Account_individual a) as Hacc.
  { intros a Ha. rewrite (acc_at_footprint [NsAttestor] (kv_map s3)), A by (done || set_solver).
    unfold acc_at, record_at. by rewrite E0. }
  assert (chain_ok 0 s4) as C4.
  { eapply (records_effect reserved [] 0 [NsAttestor]); [exact F4|unfold gov_ns, alias_ns; set_solver| |by apply C, chain_ok_empty].
    intros Hg. eapply gov_good_footprint; [exact F4| | | |exact Hg]; set_solver. }
  destruct (open_accounts_ok (sort_dedup (al_address <$> allocations g)) s4) as (C5 & A5 & F5); [|done|done|].
  { apply Forall_forall. intros a. rewrite elem_of_sort_dedup, list_elem_of_fmap. intros (x & -> & Hx).
    rewrite Forall_forall in Hal. by destruct (Hal x Hx). }
  assert (footprint [NsAccount; NsAttestor] (kv_map s3) (kv_map (open_accounts (sort_dedup (al_address <$> allocations g)) s4))) as F.
  { etrans; (eapply footprint_weaken; [|first [exact F4|exact F5]]); set_solver. }
  split_and!; [done|..|done| |].
  - intros a d Ha Hd. unfold key_balance. rewrite (amount_at_footprint [NsAccount] (kv_map s4)),
      (amount_at_footprint [NsAttestor] (kv_map s3)) by (done || set_solver). fold (key_balance a d). rewrite B by done.
    unfold no_move, allocated, amount_at. rewrite E0, lookup_empty. simpl. lia.
  - intros d Hd. unfold key_supply. rewrite (amount_at_footprint [NsAccount] (kv_map s4)),
      (amount_at_footprint [NsAttestor] (kv_map s3)) by (done || set_solver). fold (key_supply d). rewrite S by done.
    unfold no_supply, allocated_total, amount_at. rewrite E0, lookup_empty. simpl. lia.
  - cbn [fst snd] in Ep. rewrite <- Ep. apply record_at_ext. eapply footprint_key; [exact F|set_solver].
  - cbn [fst snd] in Ec. rewrite <- Ec. unfold council_at. apply record_at_ext. eapply footprint_key; [exact F|set_solver].
Qed.

Lemma total_allocated_from_exact acc_ d l :
  Forall (wf Allocation_codec) l → 0 ≤ acc_ →
  acc_ + list_sum (λ x, if decide (al_denom x = d) then al_amount x else 0) l ≤ u128_max →
  total_allocated_from acc_ d l = Ok (acc_ + list_sum (λ x, if decide (al_denom x = d) then al_amount x else 0) l).
Proof.
  intros Hl. revert acc_. induction Hl as [|x l (_ & _ & Hx%amount_ok_wf) Hl IH]; intros acc_ H0 Hle; cbn [total_allocated_from].
  { simpl. f_equal. lia. }
  rewrite list_sum_cons in *. cbv beta in *. destruct Hx as [Hx _]. simpl in Hx.
  assert (0 ≤ list_sum (λ x, if decide (al_denom x = d) then al_amount x else 0) l) as Hs'.
  { apply list_sum_nonneg. eapply Forall_impl; [exact Hl|]. intros y (_ & _ & Hy%amount_ok_wf). destruct Hy as [Hy _].
    destruct (decide (al_denom y = d)); [exact Hy|done]. }
  destruct (decide (al_denom x = d)) as [E|E].
  - rewrite bool_decide_eq_true_2 by done. unfold Amount_checked_add, checked_add. rewrite (proj2 (Z.leb_le _ _)) by lia.
    simpl. rewrite IH by lia. f_equal. lia.
  - rewrite bool_decide_eq_false_2 by done. rewrite IH by lia. f_equal.
Qed.

(** C37: Genesis does exactly what its file says.  Applied to an empty store, a decoded file
    that is accepted leaves every balance at the file's allocation (nothing for
    everyone else), every supply at the total allocated (which [total_allocated]
    reports without overflow), every account individual with nonce 0 and no
    history, and the file's parameters and council in force. *)
Theorem genesis_exact g limits s0 b s :
  kv_map s0 = ∅ → wf Genesis_codec g → limits_ok (Params.staking (g_params g)) →
  genesis_apply g limits s0 = (Ok b, s) →
  (∀ a d, address_ok a → denom_ok d → view_balance s a d = Ok (allocated g a d))
  ∧ (∀ d, denom_ok d → view_total_supply s d = Ok (allocated_total g d) ∧ total_allocated g d = Ok (allocated_total g d))
  ∧ (∀ a, address_ok a → load_account a s = Ok (Account_individual a))
  ∧ gov_params s = Ok (g_params g) ∧ gov_council s = Ok (Some (g_council g)).
Proof.
  intros E0 Hg Hlim H. destruct (genesis_apply_spec g limits s0 b s E0 Hg Hlim H) as (Hck & Hb & Hsu & Ha & Hp & Hc).
  destruct (ck_money _ _ _ Hck) as [[Hbank _] _]. split_and!.
  - intros a d Hao Hd. rewrite bank_ok_view_balance by done. f_equal. by apply Hb.
  - intros d Hd. rewrite bank_ok_view_supply by done. split; [f_equal; by apply Hsu|].
    pose proof (amount_at_ok (kv_map s) (key_supply d)) as [_ Hm]. rewrite Hsu in Hm by done.
    destruct Hg as (_ & _ & _ & _ & _ & _ & _ & (_ & Hal)). apply (total_allocated_from_exact 0 d _ Hal); [done|exact Hm].
  - intros a Hao. rewrite (load_account_ok reserved 0) by done. by rewrite Ha.
  - unfold gov_params, gov_get. by rewrite (get_decoded_some _ _ _ _ Hp).
  - unfold gov_council, gov_get. by rewrite (get_decoded_some _ _ _ _ Hc).
Qed.
End opening.
