(* ===== verification/Light.v ===== *)
(** The light client ([crates/light/src/lib.rs]): the trusted header and the two
    validator sets a wallet holds, the sequential and the skipping update, and the
    checks of values served with a proof.

    [LightProofs] shows that, whatever a server offers, a rejected offer leaves the client as it
    was, an accepted one is endorsed by the sets the client already believed, so
    that the client never leaves the chain the honest validators sign; a block
    identifier pins the whole client; and a balance the client accepts is the
    balance of the state the block's header commits to. *)

From S2P Require Import Prelude SortedVec Codec Primitives Crypto Smt Store Bank.
From S2P Require Import Validators Block Votes VoteProofs.

(** * Errors and constants *)

Inductive LightError :=
| LCommit (e : CommitError)
| HeaderMismatch
| LWrongChain (got expected : ChainId)
| NonSequential (got trusted_ : Height)
| BrokenChain
| BadProof
| MalformedValue
| TrustExpired (age_ms period_ms : Z)
| NonMonotonicTime (got trusted_ : Timestamp)
| ValidatorSetMismatch
| InsufficientOverlap (got needed : Z)
| FromTheFuture (got now : Timestamp) (drift_ms : Z)
| WrongBlock.

Definition TRUSTING_PERIOD_MS : Z := UNBONDING_MS / 3 * 2.
Definition MAX_CLOCK_DRIFT_MS : Z := 5000.

(** * The client *)

Record LightClient := {
  lc_chain_id : ChainId;
  lc_validators : ValidatorSet;
  lc_next_validators : ValidatorSet;
  trusted : BlockHeader;
  trusting_period_ms : Z;
}.

Section light.
Context {Hs : Hasher} {Sg : Signer}.
Implicit Types (lc : LightClient) (header : BlockHeader) (commit : Commit) (vals nexts : ValidatorSet) (now : Timestamp).

Definition LightClient_new (chain : ChainId) vals header : LightClient := {|
  lc_chain_id := chain; lc_validators := vals; lc_next_validators := vals; trusted := header;
  trusting_period_ms := TRUSTING_PERIOD_MS |}.

Definition from_checkpoint (chain : ChainId) header vals nexts : result LightError LightClient :=
  if negb (bool_decide (vs_hash vals = validators_hash header))
     || negb (bool_decide (vs_hash nexts = next_validators_hash header))
  then Err ValidatorSetMismatch
  else Ok {| lc_chain_id := chain; lc_validators := vals; lc_next_validators := nexts; trusted := header;
             trusting_period_ms := TRUSTING_PERIOD_MS |}.

Definition from_block_id (chain : ChainId) (block : Hash32) header vals nexts : result LightError LightClient :=
  if negb (bool_decide (h_chain_id header = chain)) then Err (LWrongChain (h_chain_id header) chain)
  else if negb (bool_decide (BlockHeader_id header = block)) then Err WrongBlock
  else from_checkpoint chain header vals nexts.

Definition with_trusting_period lc (period_ms : Z) : LightClient := {|
  lc_chain_id := lc_chain_id lc; lc_validators := lc_validators lc; lc_next_validators := lc_next_validators lc;
  trusted := trusted lc; trusting_period_ms := period_ms |}.

Definition is_trusted_at lc now : bool := saturating_sub now (h_time (trusted lc)) <=? trusting_period_ms lc.

Definition lc_height lc : Height := h_height (trusted lc).
Definition lc_app_hash lc : Hash32 := h_app_hash (trusted lc).

(** ** The checks shared by both updates *)

Definition check_freshness lc now : result LightError unit :=
  let age := saturating_sub now (h_time (trusted lc)) in
  if trusting_period_ms lc <? age then Err (TrustExpired age (trusting_period_ms lc)) else Ok tt.

Definition check_chain_and_time lc header now : result LightError unit :=
  if negb (bool_decide (h_chain_id header = lc_chain_id lc))
  then Err (LWrongChain (h_chain_id header) (lc_chain_id lc))
  else if h_time header <=? h_time (trusted lc)
  then Err (NonMonotonicTime (h_time header) (h_time (trusted lc)))
  else if saturating_add u64_max now MAX_CLOCK_DRIFT_MS <? h_time header
  then Err (FromTheFuture (h_time header) now MAX_CLOCK_DRIFT_MS)
  else Ok tt.

Definition check_commit_and_sets header commit vals nexts : result LightError unit :=
  if negb (bool_decide (c_block_id commit = BlockHeader_id header)) || negb (c_height commit =? h_height header)
  then Err HeaderMismatch
  else if negb (bool_decide (vs_hash vals = validators_hash header))
          || negb (bool_decide (vs_hash nexts = next_validators_hash header))
  then Err ValidatorSetMismatch
  else Ok tt.

Definition adopt header vals nexts lc : LightClient := {|
  lc_chain_id := lc_chain_id lc; lc_validators := vals; lc_next_validators := nexts; trusted := header;
  trusting_period_ms := trusting_period_ms lc |}.

(** The loop of [trusted_power_in]: the addresses counted so far, and their power. *)
Fixpoint trusted_loop (vset : ValidatorSet) (sigs : list SignedVote) (seen : list Address) (power : Z) : Z :=
  match sigs with
  | [] => power
  | signed :: sigs =>
      let address := validator (vote signed) in
      if bool_decide (address ∈ seen) then trusted_loop vset sigs seen power
      else
        match vs_get vset address with
        | None => trusted_loop vset sigs seen power
        | Some member =>
            if negb (signature_ok (v_public_key member) signed) then trusted_loop vset sigs seen power
            else trusted_loop vset sigs (address :: seen) (saturating_add u64_max power (voting_power member))
        end
  end.
Definition trusted_power_in lc commit : Z := trusted_loop (lc_validators lc) (signatures commit) [] 0.

(** ** The updates *)

Abbreviation L := (M LightClient LightError).

Definition update header commit vals nexts now : L unit :=
  do! reads (λ lc, check_freshness lc now) in
  do! reads (λ lc, check_chain_and_time lc header now) in
  let! lc := reads Ok in
  do! fail_if (negb (h_height header =? Height_next (lc_height lc)))
        (NonSequential (h_height header) (lc_height lc)) in
  do! fail_if (negb (bool_decide (parent header = BlockHeader_id (trusted lc)))) BrokenChain in
  do! lift (check_commit_and_sets header commit vals nexts) in
  do! fail_if (negb (bool_decide (validators_hash header = next_validators_hash (trusted lc)))) ValidatorSetMismatch in
  do! lift (map_err LCommit (Commit_verify commit (lc_chain_id lc) vals)) in
  writes (adopt header vals nexts).

Definition verify_skipping header commit vals nexts now : L unit :=
  do! reads (λ lc, check_freshness lc now) in
  do! reads (λ lc, check_chain_and_time lc header now) in
  let! lc := reads Ok in
  do! fail_if (h_height header <=? lc_height lc) (NonSequential (h_height header) (lc_height lc)) in
  do! lift (check_commit_and_sets header commit vals nexts) in
  do! lift (map_err LCommit (Commit_verify commit (lc_chain_id lc) vals)) in
  if (h_height header =? Height_next (lc_height lc))
     && bool_decide (validators_hash header = next_validators_hash (trusted lc))
  then writes (adopt header vals nexts)
  else
    let overlap := trusted_power_in lc commit in
    let needed := saturating_add u64_max (max_byzantine_power (lc_validators lc)) 1 in
    do! fail_if (overlap <? needed) (InsufficientOverlap overlap needed) in
    writes (adopt header vals nexts).

(** ** Proved reads *)

Definition verify_value lc (key : StoreKey) (value : option bytes) (proof : SmtProof) : result LightError unit :=
  if Proof_verify proof (lc_app_hash lc) key value then Ok tt else Err BadProof.

Definition verify_balance lc (address : Address) (denom : Denom) (claimed : option bytes) (proof : SmtProof)
  : result LightError Amount :=
  let key := key_balance address denom in
  _ ← verify_value lc key claimed proof;
  match claimed with
  | None => Ok 0
  | Some b => map_err (λ _, MalformedValue) (decode_exact Amount_codec b)
  end.
End light.
