(* ===== verification/LightProofs.v ===== *)
(** What the light client's checks buy ([crates/light/src/lib.rs]): an accepted header
    is signed by honest members of a set the client already believed, a client
    that starts on the honest chain stays on it whatever it is offered, a block
    identifier pins the client, and an accepted balance is the executor's. *)

From S2P Require Import Prelude SortedVec Codec Primitives Crypto Smt Store Bank.
From S2P Require Import Validators Alias Executor Block Votes VoteProofs Light.

Section overlap.
Context {Hs : Hasher} {Sg : Signer} (vset : ValidatorSet) (Hvset : vs_ok vset).

(** The signatures [trusted_power_in] counts: one per member, each verifying under
    the member's key. *)
Definition backed (sigs : list SignedVote) (a : Address) : Prop :=
  ∃ s m, s ∈ sigs ∧ validator (vote s) = a ∧ vs_get vset a = Some m ∧ signature_ok (v_public_key m) s = true.

Lemma backed_cons s sigs a : backed sigs a → backed (s :: sigs) a.
Proof. intros (t & m & ? & ?). exists t, m. split; [by right|done]. Qed.

Lemma trusted_loop_spec sigs seen :
  NoDup seen →
  ∃ l, trusted_loop vset sigs seen (list_sum (vs_power_of vset) seen) = list_sum (vs_power_of vset) (l ++ seen)
       ∧ NoDup (l ++ seen) ∧ Forall (backed sigs) l.
Proof.
  revert seen. induction sigs as [|s sigs IH]; intros seen Hnd; cbn [trusted_loop]; [by exists []|].
  assert (∃ l, trusted_loop vset sigs seen (list_sum (vs_power_of vset) seen) = list_sum (vs_power_of vset) (l ++ seen)
            ∧ NoDup (l ++ seen) ∧ Forall (backed (s :: sigs)) l) as Hskip.
  { destruct (IH seen Hnd) as (l & ? & ? & Hl). exists l. split_and!; [done..|].
    eapply Forall_impl; [done|]. intros a. apply backed_cons. }
  case_bool_decide as Hin; [done|].
  destruct (vs_get vset (validator (vote s))) as [m|] eqn:Hg; [|done].
  destruct (signature_ok (v_public_key m) s) eqn:Hsig; simpl; [|done].
  assert (NoDup (validator (vote s) :: seen)) as Hnd' by by constructor.
  assert (saturating_add u64_max (list_sum (vs_power_of vset) seen) (voting_power m)
          = list_sum (vs_power_of vset) (validator (vote s) :: seen)) as ->.
  { assert (vs_power_of vset (validator (vote s)) = voting_power m) as Hpow by (unfold vs_power_of; by rewrite Hg).
    pose proof (power_le_total vset _ Hvset Hnd') as Hle. simpl in *. rewrite Hpow in *.
    pose proof (vs_bounded vset Hvset). unfold saturating_add. lia. }
  destruct (IH _ Hnd') as (l & E & Hn & Hl). exists (l ++ [validator (vote s)]). rewrite <- app_assoc. simpl.
  split_and!; [done..|]. apply Forall_app. split.
  - eapply Forall_impl; [done|]. intros a. apply backed_cons.
  - constructor; [|done]. exists s, m. split; [by left|done].
Qed.

(** A list of distinct addresses heavier than every tolerated coalition has a
    member outside the coalition. *)
Lemma outside_coalition (byz l : list Address) :
  NoDup l → NoDup byz → list_sum (vs_power_of vset) byz ≤ max_byzantine_power vset →
  max_byzantine_power vset < list_sum (vs_power_of vset) l → ∃ a, a ∈ l ∧ a ∉ byz.
Proof.
  intros Hl Hb Hbyz Hover. destruct (decide (Forall (λ a, a ∈ byz) l)) as [Hall|Hno].
  - rewrite Forall_forall in Hall.
    enough (list_sum (vs_power_of vset) l ≤ list_sum (vs_power_of vset) byz) by lia.
    apply list_sum_submseteq; [|by apply NoDup_submseteq].
    apply Forall_forall. intros a _. by apply vs_power_nonneg.
  - apply not_Forall_Exists in Hno; [|apply _]. by apply Exists_exists in Hno.
Qed.

Lemma quorum_over_third x : has_quorum vset x = true → max_byzantine_power vset < x.
Proof.
  pose proof (vs_total_pos vset Hvset). pose proof (vs_bounded vset Hvset).
  unfold has_quorum. rewrite quorum_threshold_eq, max_byzantine_power_eq by lia. intros ?. bool_simpl.
  Z.to_euclidean_division_equations. lia.
Qed.
End overlap.

Section updates.
Context {Hs : Hasher} {Sg : Signer}.
Implicit Types (lc : LightClient).

(** The sets a client holds are the ones its trusted header commits to. *)
Record lc_ok lc : Prop := {
  lo_vals : vs_ok (lc_validators lc);
  lo_nexts : vs_ok (lc_next_validators lc);
  lo_hash : vs_hash (lc_validators lc) = validators_hash (trusted lc);
  lo_next_hash : vs_hash (lc_next_validators lc) = next_validators_hash (trusted lc);
}.

(** What a client has established when it adopts [header]. *)
Record endorsed lc header commit vals nexts now : Prop := {
  en_chain : h_chain_id header = lc_chain_id lc;
  en_fresh : now - h_time (trusted lc) ≤ trusting_period_ms lc;
  en_time : h_time (trusted lc) < h_time header ≤ now + MAX_CLOCK_DRIFT_MS;
  en_height : lc_height lc < h_height header;
  en_block : c_block_id commit = BlockHeader_id header ∧ c_height commit = h_height header;
  en_sets : vs_hash vals = validators_hash header ∧ vs_hash nexts = next_validators_hash header;
  en_commit : Commit_verify commit (lc_chain_id lc) vals = Ok tt;
  en_link : (h_height header = lc_height lc + 1 ∧ validators_hash header = next_validators_hash (trusted lc))
    ∨ max_byzantine_power (lc_validators lc) < trusted_power_in lc commit;
}.

Lemma check_freshness_Ok lc now : check_freshness lc now = Ok tt → now - h_time (trusted lc) ≤ trusting_period_ms lc.
Proof. unfold check_freshness. case_match; [done|]. intros _. bool_simpl. unfold saturating_sub in *. lia. Qed.

Lemma check_chain_and_time_Ok lc header now :
  check_chain_and_time lc header now = Ok tt →
  h_chain_id header = lc_chain_id lc ∧ h_time (trusted lc) < h_time header ≤ now + MAX_CLOCK_DRIFT_MS.
Proof.
  unfold check_chain_and_time. repeat (case_match; [done|]). intros _. bool_simpl.
  unfold saturating_add in *. split; [done|lia].
Qed.

Lemma check_commit_and_sets_Ok header commit vals nexts :
  check_commit_and_sets header commit vals nexts = Ok tt →
  (c_block_id commit = BlockHeader_id header ∧ c_height commit = h_height header)
  ∧ vs_hash vals = validators_hash header ∧ vs_hash nexts = next_validators_hash header.
Proof. unfold check_commit_and_sets. repeat (case_match; [done|]). intros _. by bool_simpl. Qed.

(** Heights are values of [u64]: the successor is exact below the last one. *)
Lemma Height_next_exact h h' : h < u64_max → h' = Height_next h → h' = h + 1.
Proof. unfold Height_next, saturating_add. lia. Qed.

(** The checks both updates ran, as facts. *)
Ltac light_checks :=
  repeat inv_M_step; repeat match goal with u : unit |- _ => destruct u end; bool_simpl;
  repeat match goal with
  | F : check_freshness _ _ = _ |- _ => apply check_freshness_Ok in F
  | F : check_chain_and_time _ _ _ = _ |- _ => apply check_chain_and_time_Ok in F as [? ?]
  | F : check_commit_and_sets _ _ _ _ = _ |- _ => apply check_commit_and_sets_Ok in F as [? ?]
  | F : h_height ?h = Height_next (lc_height ?l) |- _ =>
      assert (h_height h = lc_height l + 1) by (by apply Height_next_exact); clear F
  end.

Lemma update_Ok header commit vals nexts now lc lc' :
  lc_height lc < u64_max → update header commit vals nexts now lc = (Ok tt, lc') →
  endorsed lc header commit vals nexts now ∧ parent header = BlockHeader_id (trusted lc) ∧ lc' = adopt header vals nexts lc.
Proof.
  unfold update. intros Hh H. light_checks. split_and!; [|done..]. split; try done; [lia|by left].
Qed.

Lemma needed_power vset o :
  vs_ok vset → saturating_add u64_max (max_byzantine_power vset) 1 ≤ o → max_byzantine_power vset < o.
Proof.
  intros Hvs Ho. pose proof (vs_total_pos _ Hvs). pose proof (vs_bounded _ Hvs).
  rewrite max_byzantine_power_eq in * by lia. unfold saturating_add, u64_max in *.
  Z.to_euclidean_division_equations. lia.
Qed.

Lemma verify_skipping_Ok header commit vals nexts now lc lc' :
  lc_height lc < u64_max → vs_ok (lc_validators lc) →
  verify_skipping header commit vals nexts now lc = (Ok tt, lc') →
  endorsed lc header commit vals nexts now ∧ lc' = adopt header vals nexts lc.
Proof.
  unfold verify_skipping. intros Hh Hvs H. repeat inv_M_step.
  match goal with F : (if ?b then _ else _) _ = _ |- _ => destruct b eqn:Hseq end; light_checks;
    (split; [|done]); split; try done; [by left|right; by apply needed_power].
Qed.

(** A rejected offer costs the client nothing. *)
Lemma update_Err header commit vals nexts now lc lc' e :
  update header commit vals nexts now lc = (Err e, lc') → lc' = lc.
Proof. unfold update. intros H. by repeat inv_M_step. Qed.

Lemma verify_skipping_Err header commit vals nexts now lc lc' e :
  verify_skipping header commit vals nexts now lc = (Err e, lc') → lc' = lc.
Proof.
  unfold verify_skipping. intros H. repeat inv_M_step; try done.
  match goal with F : (if ?b then _ else _) _ = _ |- _ => destruct b end; by repeat inv_M_step.
Qed.
End updates.

(** * Following a server *)

(** What a server hands over, with the clock at which the client looks at it. *)
Record offer := {
  o_skip : bool;
  o_header : BlockHeader;
  o_commit : Commit;
  o_validators : ValidatorSet;
  o_next_validators : ValidatorSet;
  o_now : Timestamp;
}.

Section following.
Context {Hs : Hasher} {Sg : Signer}.
Implicit Types (lc : LightClient) (o : offer).

Definition receive o : M LightClient LightError unit :=
  (if o_skip o then verify_skipping else update)
    (o_header o) (o_commit o) (o_validators o) (o_next_validators o) (o_now o).
Definition follow lc (os : list offer) : LightClient := foldl (λ lc o, (receive o lc).2) lc os.

Lemma follow_cons lc o os : follow lc (o :: os) = follow (receive o lc).2 os.
Proof. done. Qed.

Lemma receive_Ok o lc lc' :
  lc_height lc < u64_max → vs_ok (lc_validators lc) → receive o lc = (Ok tt, lc') →
  endorsed lc (o_header o) (o_commit o) (o_validators o) (o_next_validators o) (o_now o)
  ∧ lc' = adopt (o_header o) (o_validators o) (o_next_validators o) lc.
Proof.
  unfold receive. intros ? ? H. destruct (o_skip o); [by apply verify_skipping_Ok|].
  by apply update_Ok in H as (? & _ & ?).
Qed.

Lemma receive_Err o lc lc' e : receive o lc = (Err e, lc') → lc' = lc.
Proof. unfold receive. intros H. destruct (o_skip o); [by eapply verify_skipping_Err|by eapply update_Err]. Qed.

(** [good] are the headers of the honest chain, [byz] the validators that may sign
    anything, [known] the sets the client is shown. *)
Section honest_chain.
Context (good : BlockHeader → Prop) (byz : list Address) (known : list ValidatorSet).

(** A set the honest chain names. *)
Definition real_set (set : ValidatorSet) : Prop :=
  ∃ h, good h ∧ (vs_hash set = validators_hash h ∨ vs_hash set = next_validators_hash h).

(** The consensus assumption: the coalition is within the tolerated power in every
    set the honest chain names. *)
Definition coalition_bounded : Prop :=
  Forall (λ set, real_set set → list_sum (vs_power_of set) byz ≤ max_byzantine_power set) known.

(** An honest validator precommits to the offered header only when it is on the chain. *)
Definition honest_signers o : Prop :=
  Forall (λ s, ∀ set m, set ∈ known → real_set set → vs_get set (validator (vote s)) = Some m →
      signature_ok (v_public_key m) s = true → validator (vote s) ∉ byz →
      vote_type (vote s) = Precommit → block_id (vote s) = Some (BlockHeader_id (o_header o)) →
      good (o_header o))
    (signatures (o_commit o)).

Definition offer_ok o : Prop :=
  h_height (o_header o) < u64_max ∧ vs_ok (o_validators o) ∧ vs_ok (o_next_validators o)
  ∧ o_validators o ∈ known ∧ o_next_validators o ∈ known.

Context (Hbyz : NoDup byz) (Hbound : coalition_bounded).

(** More than a tolerated coalition of a named set signing a certificate puts its
    header on the chain. *)
Lemma honest_among o set l commit_chain :
  honest_signers o → vs_ok set → set ∈ known → real_set set →
  c_block_id (o_commit o) = BlockHeader_id (o_header o) →
  Forall (λ s, vote_matches (o_commit o) commit_chain (vote s) = true) (signatures (o_commit o)) →
  NoDup l → Forall (backed set (signatures (o_commit o))) l →
  max_byzantine_power set < list_sum (vs_power_of set) l → good (o_header o).
Proof.
  intros Hh Hvs Hk Hreal Hb Hmatch Hnd Hl Hover.
  unfold coalition_bounded in Hbound. rewrite Forall_forall in Hbound.
  destruct (outside_coalition set Hvs byz l Hnd Hbyz (Hbound _ Hk Hreal) Hover) as (a & Ha & Hna).
  rewrite Forall_forall in Hl. destruct (Hl a Ha) as (s & m & Hin & Hv & Hg & Hsig). subst a.
  unfold honest_signers in Hh. rewrite Forall_forall in Hh, Hmatch.
  specialize (Hmatch s Hin). unfold vote_matches in Hmatch. bool_simpl.
  apply (Hh s Hin set m); congruence || done.
Qed.

Lemma endorsed_good lc o :
  lc_ok lc → good (trusted lc) → lc_validators lc ∈ known → offer_ok o → honest_signers o →
  endorsed lc (o_header o) (o_commit o) (o_validators o) (o_next_validators o) (o_now o) → good (o_header o).
Proof.
  intros Hlc Hgood Hk (_ & Hv & _ & Hvk & _) Hh [_ _ _ _ [Hb _] [Hvh _] Hc Hlink].
  pose proof Hc as (Hcount & Hnd & Hq)%Commit_verify_Ok; [|done].
  assert (Forall (λ s, vote_matches (o_commit o) (lc_chain_id lc) (vote s) = true) (signatures (o_commit o))) as Hm.
  { eapply Forall_impl; [done|]. by intros s [? _]. }
  destruct Hlink as [[_ Hnext]|Hover].
  - apply (honest_among o (o_validators o) (signers (signatures (o_commit o))) (lc_chain_id lc)); try done.
    + exists (trusted lc). split; [done|]. right. congruence.
    + apply Forall_forall. intros a (s & -> & Hin)%list_elem_of_fmap. rewrite Forall_forall in Hcount.
      destruct (Hcount s Hin) as [_ (m & ? & ?)]. by exists s, m.
    + by apply quorum_over_third.
  - destruct (trusted_loop_spec (lc_validators lc) (lo_vals _ Hlc) (signatures (o_commit o)) [] NoDup_nil_2)
      as (l & E & Hn & Hl). rewrite app_nil_r in *.
    apply (honest_among o (lc_validators lc) l (lc_chain_id lc)); try done.
    + apply Hlc.
    + exists (trusted lc). split; [done|]. left. apply Hlc.
    + unfold trusted_power_in in Hover. simpl in E. lia.
Qed.
End honest_chain.

(** C11: a light client never leaves the chain the honest validators sign.  It starts on a
    header of that chain, with the sets the header commits to; a server offers it
    anything, any number of times, for either kind of update, forged headers,
    commits and validator sets included.  If Byzantine validators hold no more than
    the tolerated power in the sets the honest chain names, and honest ones precommit
    only to headers of the chain, then the header the client ends up trusting is one
    of the chain, never lower nor older than the one before, with the sets it commits to. *)
Theorem light_never_leaves_chain good byz known lc os :
  NoDup byz → coalition_bounded good byz known → lc_ok lc → good (trusted lc) → lc_height lc < u64_max →
  lc_validators lc ∈ known → lc_next_validators lc ∈ known →
  Forall (offer_ok known) os → Forall (honest_signers good byz known) os →
  let lc' := follow lc os in
  good (trusted lc') ∧ lc_ok lc' ∧ lc_chain_id lc' = lc_chain_id lc
  ∧ lc_height lc ≤ lc_height lc' ∧ h_time (trusted lc) ≤ h_time (trusted lc').
Proof.
  intros Hbyz Hbound Hlc Hgood Hh Hk1 Hk2 Hos Hhon. revert lc Hlc Hgood Hh Hk1 Hk2 Hhon.
  induction Hos as [|o os Ho Hos IH]; intros lc Hlc Hgood Hh Hk1 Hk2 Hhon.
  { split_and!; done || lia. }
  apply Forall_cons in Hhon as [Hon Hhon]. cbv zeta. rewrite follow_cons.
  destruct (receive o lc) as [[[]|e] lc'] eqn:E; cbn [snd].
  - apply receive_Ok in E as [En ->]; [|done|apply Hlc].
    pose proof (endorsed_good good byz known Hbyz Hbound lc o Hlc Hgood Hk1 Ho Hon En) as Hg.
    destruct Ho as (? & ? & ? & ? & ?). destruct (en_sets _ _ _ _ _ _ En).
    destruct (IH (adopt (o_header o) (o_validators o) (o_next_validators o) lc)) as (? & ? & ? & Hle & Ht); try done.
    pose proof (en_height _ _ _ _ _ _ En). pose proof (en_time _ _ _ _ _ _ En).
    unfold lc_height in *. cbn [adopt trusted] in *. split_and!; done || lia.
  - apply receive_Err in E as ->. by apply IH.
Qed.
End following.

(** * Bootstrapping from 32 bytes *)

Section bootstrap.
Context {Hs : Hasher} {Sg : Signer}.

Lemma validator_hash_part_eq v : validator_hash_part v = v_address v ++ encode Validator_codec v.
Proof. reflexivity. Qed.

Lemma validator_address_len v : wf Validator_codec v → length (v_address v) = 20%nat.
Proof. intros (_ & _ & _ & ->). apply Address_derived_ok. Qed.

Lemma hash_parts_inj l1 l2 :
  Forall (wf Validator_codec) l1 → Forall (wf Validator_codec) l2 →
  concat (validator_hash_part <$> l1) = concat (validator_hash_part <$> l2) → l1 = l2.
Proof.
  assert (∀ v l, wf Validator_codec v → [] ≠ validator_hash_part v ++ l) as Hne.
  { intros v l Hv E. apply (f_equal length) in E. rewrite validator_hash_part_eq, !length_app in E.
    rewrite (validator_address_len v Hv) in E. simpl in E. lia. }
  intros H1. revert l2. induction H1 as [|v l1 Hv H1 IH]; intros l2 H2 E; destruct H2 as [|w l2 Hw H2];
    cbn [fmap list_fmap concat] in E; [done|by destruct (Hne w _ Hw E)|by destruct (Hne v _ Hv (eq_sym E))|].
  rewrite !validator_hash_part_eq, <- !app_assoc in E.
  apply app_inj_1 in E as [_ E]; [|by rewrite !validator_address_len].
  apply encode_prefix_inj in E as [-> E]; [|apply _|done..]. f_equal. by apply IH.
Qed.

(** The bytes hashed for a set and for a header. *)
Definition set_input (s : ValidatorSet) : bytes :=
  hash_input DValidatorSetHash (concat (validator_hash_part <$> validators s)).
Definition header_input (h : BlockHeader) : bytes := hash_input DBlockId (encode BlockHeader_codec h).

(** A set is pinned by its hash. *)
Lemma vs_hash_inj inputs s1 s2 :
  collision_free inputs → set_input s1 ∈ inputs → set_input s2 ∈ inputs →
  wf ValidatorSet_codec s1 → wf ValidatorSet_codec s2 → vs_hash s1 = vs_hash s2 → s1 = s2.
Proof.
  intros Hcf H1 H2 [[_ Hw1] Hc1] [[_ Hw2] Hc2] E.
  apply (hash_inj inputs) in E as [_ E]; [|done..]. apply hash_parts_inj in E; [|done..]. congruence.
Qed.

Lemma BlockHeader_id_inj inputs h1 h2 :
  collision_free inputs → header_input h1 ∈ inputs → header_input h2 ∈ inputs →
  wf BlockHeader_codec h1 → wf BlockHeader_codec h2 → BlockHeader_id h1 = BlockHeader_id h2 → h1 = h2.
Proof.
  intros Hcf H1 H2 Hw1 Hw2 E. apply (hash_inj inputs) in E as [_ E]; [|done..]. by apply encode_inj in E; [|apply _|..].
Qed.

(** Thirty-two bytes are enough to start from.  With the identifier of a block obtained
    honestly, the header and both validator sets may come from anybody: the client is
    built exactly when they are the block's own, and is then the same client,
    unless two of the hashed inputs collide. *)
Theorem light_bootstrap_pinned chain h vals nexts h' vals' nexts' lc :
  h_chain_id h = chain → vs_hash vals = validators_hash h → vs_hash nexts = next_validators_hash h →
  wf BlockHeader_codec h → wf ValidatorSet_codec vals → wf ValidatorSet_codec nexts →
  wf BlockHeader_codec h' → wf ValidatorSet_codec vals' → wf ValidatorSet_codec nexts' →
  collision_free [header_input h; header_input h'; set_input vals; set_input vals'; set_input nexts; set_input nexts'] →
  from_block_id chain (BlockHeader_id h) h' vals' nexts' = Ok lc
  ↔ (h', vals', nexts') = (h, vals, nexts)
    ∧ lc = {| lc_chain_id := chain; lc_validators := vals; lc_next_validators := nexts; trusted := h;
              trusting_period_ms := TRUSTING_PERIOD_MS |}.
Proof.
  intros Hc Hv Hn Hwh Hwv Hwn Hwh' Hwv' Hwn' Hcf. unfold from_block_id, from_checkpoint. split.
  - repeat (case_match; [done|]). intros [= <-]. bool_simpl.
    assert (h' = h) as -> by (eapply BlockHeader_id_inj; eauto; set_solver).
    assert (vals' = vals) as -> by (eapply vs_hash_inj; eauto; [set_solver..|congruence]).
    assert (nexts' = nexts) as -> by (eapply vs_hash_inj; eauto; [set_solver..|congruence]). done.
  - intros [[= -> -> ->] ->]. by rewrite !bool_decide_eq_true_2.
Qed.
End bootstrap.

(** * Proved balances *)

(** The tree-backed store, with the tree's invariant carried by its type: every write
    goes through the tree's own operations, which keep it. *)
Section tree_store.
Context {Hs : Hasher}.

Definition TreeStore : Type := { t : SparseMerkleTree | smt_ok t }.
Definition tree_of (s : TreeStore) : SparseMerkleTree := proj1_sig s.

Lemma smt_insert_keeps t k v : smt_ok t → smt_ok (smt_insert t k v).
Proof. intros Ht. apply (smt_insert_hashed_spec t (key_hash k) v Ht (hash_len _ _)). Qed.

Lemma smt_remove_keeps t k : smt_ok t → smt_ok (smt_remove t k).1.
Proof.
  intros Ht. destruct (remove_at_spec 0 (smt_root t) (key_hash k) Ht) as (Hok & _). unfold smt_remove.
  by destruct (remove_at (smt_root t) (key_hash k) 0).
Qed.

Definition tree_store : KeyValueStore TreeStore := {|
  kv_get t k := smt_get (tree_of t) k;
  kv_set t k v := smt_insert (tree_of t) k v ↾ smt_insert_keeps _ k v (proj2_sig t);
  kv_delete t k := ((smt_remove (tree_of t) k).1 ↾ smt_remove_keeps _ k (proj2_sig t), (smt_remove (tree_of t) k).2);
|}.
Definition tree_rooted : Rooted TreeStore := {| kv_root t := smt_root_hash (tree_of t) |}.
End tree_store.

Section balances.
Context {Hs : Hasher} {Sg : Signer} {Un : Unicode}.

(** Everything hashed to build the tree and to check the proof. *)
Definition read_inputs (t : SparseMerkleTree) (p : SmtProof) (key : bytes) : list bytes :=
  link_inputs (smt_root t) ++ proof_inputs (key_hash key) (leaf p)
  ++ path_inputs (key_hash key) 0 (siblings p) (leaf_digest (key_hash key) (leaf p)).

(** C17: a balance a wallet accepts is the executor's.  The wallet trusts the header of a
    block; a server it does not trust hands it a value, or its absence, with a proof.
    If the check returns an amount, that amount is what the bank holds for the account
    in the state the block's execution produced, unless two hashed inputs collide or
    one hashes to the empty marker; and for every balance the bank can report, the
    server's own proof is accepted and yields it. *)
Theorem light_balance_exact chain height time parent_ txs sets (s : TreeStore) lc address denom :
  let '(block, _, s') := build_block (KV := tree_store) (Ro := tree_rooted) chain height time parent_ txs sets s in
  trusted lc = b_header block →
  (∀ claimed p amount,
      wf Proof_codec p → collision_free (read_inputs (tree_of s') p (key_balance address denom)) →
      empty_free (read_inputs (tree_of s') p (key_balance address denom)) →
      verify_balance lc address denom claimed p = Ok amount →
      @view_balance _ tree_store s' address denom = Ok amount)
  ∧ (∀ amount, @view_balance _ tree_store s' address denom = Ok amount →
      verify_balance lc address denom (smt_get (tree_of s') (key_balance address denom))
        (smt_prove (tree_of s') (key_balance address denom)) = Ok amount).
Proof.
  unfold build_block, execute_block. destruct (execute_txs _ _ _ _) as [os s']. intros Hlc.
  assert (lc_app_hash lc = smt_root_hash (tree_of s')) as Hroot by (unfold lc_app_hash; by rewrite Hlc).
  unfold verify_balance, verify_value, view_balance, get_decoded. rewrite Hroot.
  generalize (key_balance address denom) as key. intros key. split.
  - intros claimed p amount Hp Hcf Hef H. destruct (Proof_verify _ _ _ _) eqn:Hv; [|done].
    apply smt_proof_sound in Hv; [|apply (proj2_sig s')|done|done].   simpl. rewrite Hv.
    destruct claimed as [b|]; simpl in *; [|by injection H as <-]. destruct (decode_exact Amount_codec b); [by injection H as <-|discriminate H].
  - intros amount H. rewrite smt_prove_verifies by apply (proj2_sig s'). simpl in H.
    destruct (smt_get (tree_of s') key) as [b|]; simpl in *; [|by injection H as <-].
    destruct (decode_exact Amount_codec b); [by injection H as <-|discriminate H].
Qed.
End balances.
