(* ===== verification/Witness.v ===== *)
(** Witness logs ([crates/witness]): an append-only log of what an operator saw, its
    signed heads, the wallet's checks of what a witness shows it, and the corroboration
    of several witnesses into a checkpoint. *)

From S2P Require Import Prelude SortedVec Codec Primitives Crypto Merkle Alias Tx.

(** * Data ([head.rs], [log.rs], [audit.rs], [policy.rs], [lib.rs]) *)

Abbreviation LogId := Hash32 (only parsing).

Inductive WitnessError :=
| UnknownWitness | BadSignature | LogMismatch
| WWrongChain (got expected : ChainId)
| NonMonotonic (got last : Height)
| IndexOutOfRange
| SizeMismatch (got expected : Z)
| BadInclusionProof | BadConsistencyProof
| SplitView (height : Height)
| NotCorroborated (witnesses countries need_witnesses need_countries : nat)
| EmptyWitnessSet | DuplicateWitness | NotEquivocation.

Record TreeHead := {
  th_log : LogId;
  th_chain_id : ChainId;
  th_size : Z;
  th_root : Hash32;
  th_signed_at : Timestamp;
}.
Record SignedTreeHead := { sth_head : TreeHead; sth_signature : Signature }.
Record HeadConflict := { hc_a : SignedTreeHead; hc_b : SignedTreeHead }.

Record LogEntry := {
  le_height : Height;
  le_block_id : Hash32;
  le_observed_at : Timestamp;
}.
Record WitnessLog := {
  wl_chain_id : ChainId;
  wl_log : LogId;
  wl_entries : list LogEntry;
}.

Record Witness := {
  w_log : LogId;
  w_key : PublicKey;
  w_country : bytes;
  w_name : bytes;
}.
Record Remembered := { rm_log : LogId; rm_size : Z; rm_root : Hash32 }.
Record Observation := {
  ob_log : LogId;
  ob_country : bytes;
  ob_height : Height;
  ob_block_id : Hash32;
  ob_head_size : Z;
  ob_head_root : Hash32;
  ob_signed_at : Timestamp;
}.
Record Checkpoint := {
  ck_chain_id : ChainId;
  ck_height : Height;
  ck_block_id : Hash32;
}.
Record Policy := { min_witnesses : nat; min_countries : nat }.

Definition LogEntry_codec : codec LogEntry :=
  iso_codec (λ '(h, (b, t)), {| le_height := h; le_block_id := b; le_observed_at := t |})
    (λ e, (le_height e, (le_block_id e, le_observed_at e)))
    (Height_codec ⊗ Hash32_codec ⊗ Timestamp_codec).
#[export] Instance LogEntry_lawful : Lawful LogEntry_codec.
Proof. unfold LogEntry_codec. struct_lawful. Qed.

Definition TreeHead_codec : codec TreeHead :=
  iso_codec (λ '(l, (c, (s, (r, t)))), {| th_log := l; th_chain_id := c; th_size := s; th_root := r; th_signed_at := t |})
    (λ h, (th_log h, (th_chain_id h, (th_size h, (th_root h, th_signed_at h)))))
    (Hash32_codec ⊗ ChainId_codec ⊗ u64_codec ⊗ Hash32_codec ⊗ Timestamp_codec).
#[export] Instance TreeHead_lawful : Lawful TreeHead_codec.
Proof. unfold TreeHead_codec. struct_lawful. Qed.

Definition SignedTreeHead_codec : codec SignedTreeHead :=
  iso_codec (λ '(h, s), {| sth_head := h; sth_signature := s |}) (λ h, (sth_head h, sth_signature h))
    (TreeHead_codec ⊗ Signature_codec).
#[export] Instance SignedTreeHead_lawful : Lawful SignedTreeHead_codec.
Proof. unfold SignedTreeHead_codec. struct_lawful. Qed.

Definition Checkpoint_codec : codec Checkpoint :=
  iso_codec (λ '(c, (h, b)), {| ck_chain_id := c; ck_height := h; ck_block_id := b |})
    (λ k, (ck_chain_id k, (ck_height k, ck_block_id k)))
    (ChainId_codec ⊗ Height_codec ⊗ Hash32_codec).
#[export] Instance Checkpoint_lawful : Lawful Checkpoint_codec.
Proof. unfold Checkpoint_codec. struct_lawful. Qed.

Arguments LogEntry_codec : simpl never.
Arguments TreeHead_codec : simpl never.
Arguments SignedTreeHead_codec : simpl never.
Arguments Checkpoint_codec : simpl never.

(** [u64::try_from] of a [usize], with its [unwrap_or(u64::MAX)]. *)
Definition u64_of_usize (n : nat) : Z := if Z.of_nat n <=? u64_max then Z.of_nat n else u64_max.

(** * The log *)

Section log.
Context {Hs : Hasher} {Sg : Signer} {Un : Unicode} {Sk : Signing}.

Definition LogId_from_public_key (pk : PublicKey) : LogId := hash DWitnessLogId pk.

Definition LogEntry_leaf (e : LogEntry) : Hash32 := hash DWitnessEntry (encode LogEntry_codec e).

Definition TreeHead_sign_doc (h : TreeHead) : bytes := encode TreeHead_codec h.
Definition TreeHead_sign (h : TreeHead) (sk : SecretKey) : SignedTreeHead :=
  {| sth_head := h; sth_signature := SecretKey_sign sk DTreeHeadSignDoc (TreeHead_sign_doc h) |}.

Definition SignedTreeHead_verify (sth : SignedTreeHead) (pk : PublicKey) : result WitnessError unit :=
  if negb (bool_decide (LogId_from_public_key pk = th_log (sth_head sth))) then Err LogMismatch else
  if PublicKey_verify pk DTreeHeadSignDoc (TreeHead_sign_doc (sth_head sth)) (sth_signature sth) then Ok tt else Err BadSignature.

(** [Equivocation::check]. *)
Definition HeadConflict_check (c : HeadConflict) (pk : PublicKey) : result WitnessError unit :=
  _ ← SignedTreeHead_verify (hc_a c) pk;
  _ ← SignedTreeHead_verify (hc_b c) pk;
  let a := sth_head (hc_a c) in
  let b := sth_head (hc_b c) in
  if negb (bool_decide (th_log a = th_log b)) then Err LogMismatch else
  if negb (th_size a =? th_size b) || bool_decide (th_root a = th_root b) then Err NotEquivocation else Ok tt.

Definition WitnessLog_new (chain : ChainId) (log : LogId) : WitnessLog :=
  {| wl_chain_id := chain; wl_log := log; wl_entries := [] |}.

Definition wl_size (l : WitnessLog) : Z := u64_of_usize (length (wl_entries l)).

Definition append (e : LogEntry) : M WitnessLog WitnessError Z :=
  let! l := reads Ok in
  do! lift (match last (wl_entries l) with
            | Some last =>
                if (le_height e <=? le_height last) || (le_observed_at e <=? le_observed_at last)
                then Err (NonMonotonic (le_height e) (le_height last)) else Ok tt
            | None => Ok tt
            end) in
  do! writes (λ l, {| wl_chain_id := wl_chain_id l; wl_log := wl_log l; wl_entries := wl_entries l ++ [e] |}) in
  reads (λ l, Ok (saturating_sub (wl_size l) 1)).

Definition wl_entry (l : WitnessLog) (index : Z) : option LogEntry := wl_entries l !! Z.to_nat index.
Definition latest (l : WitnessLog) : option LogEntry := last (wl_entries l).

(** [tree], given by its leaves. *)
Definition wl_tree (l : WitnessLog) : list Hash32 := LogEntry_leaf <$> wl_entries l.
Definition wl_root (l : WitnessLog) : Hash32 := root_of (wl_tree l).

Definition wl_head (l : WitnessLog) (signed_at : Timestamp) : TreeHead := {|
  th_log := wl_log l; th_chain_id := wl_chain_id l; th_size := wl_size l; th_root := wl_root l; th_signed_at := signed_at |}.

Definition sign_head (l : WitnessLog) (sk : SecretKey) (signed_at : Timestamp) : result WitnessError SignedTreeHead :=
  if negb (bool_decide (LogId_from_public_key (verifying_key sk) = wl_log l)) then Err LogMismatch else
  Ok (TreeHead_sign (wl_head l signed_at) sk).

Definition prove_inclusion (l : WitnessLog) (index : Z) : result WitnessError MerkleProof :=
  map_err (λ _, IndexOutOfRange) (MerkleTree_prove (wl_tree l) (Z.to_nat index)).
Definition prove_consistency (l : WitnessLog) (old_size : Z) : result WitnessError ConsistencyProof :=
  map_err (λ _, SizeMismatch old_size (wl_size l)) (MerkleTree_prove_consistency (wl_tree l) (Z.to_nat old_size)).

(** * The wallet's side *)

Definition Witness_new (pk : PublicKey) (country name : bytes) : Witness :=
  {| w_log := LogId_from_public_key pk; w_key := pk; w_country := country; w_name := name |}.

(** The scan for a log named twice. *)
Fixpoint duplicate_log (ws : list Witness) : bool :=
  match ws with
  | [] => false
  | w :: ws => existsb (λ o, bool_decide (w_log o = w_log w)) ws || duplicate_log ws
  end.
Definition WitnessSet_new (ws : list Witness) : result WitnessError (list Witness) :=
  if bool_decide (ws = []) then Err EmptyWitnessSet else
  if duplicate_log ws then Err DuplicateWitness else Ok ws.

Definition ws_get (ws : list Witness) (log : LogId) : option Witness := List.find (λ w, bool_decide (w_log w = log)) ws.

(** A [Vec] kept free of repetitions by [contains] before [push]. *)
Definition push_new {A} `{EqDecision A} (seen : list A) (x : A) : list A := if bool_decide (x ∈ seen) then seen else seen ++ [x].
Definition ws_countries (ws : list Witness) : nat := length (foldl (λ seen w, push_new seen (w_country w)) [] ws).

Definition observe (ws : list Witness) (chain : ChainId) (sth : SignedTreeHead) (index : Z) (e : LogEntry) (p : MerkleProof)
  : result WitnessError Observation :=
  let h := sth_head sth in
  w ← ok_or UnknownWitness (ws_get ws (th_log h));
  _ ← SignedTreeHead_verify sth (w_key w);
  if negb (bool_decide (th_chain_id h = chain)) then Err (WWrongChain (th_chain_id h) chain) else
  let total := u64_of_usize (mp_total p) in
  let at_ := u64_of_usize (mp_index p) in
  if negb (total =? th_size h) || negb (at_ =? index) then Err (SizeMismatch total (th_size h)) else
  _ ← map_err (λ _, BadInclusionProof)
        (MerkleProof_verify p (th_root h) (LogEntry_leaf e) (Z.to_nat index) (Z.to_nat (th_size h)));
  Ok {| ob_log := w_log w; ob_country := w_country w; ob_height := le_height e; ob_block_id := le_block_id e;
        ob_head_size := th_size h; ob_head_root := th_root h; ob_signed_at := th_signed_at h |}.

Definition check_continuity (ws : list Witness) (r : Remembered) (sth : SignedTreeHead) (p : ConsistencyProof)
  : result WitnessError unit :=
  let h := sth_head sth in
  w ← ok_or UnknownWitness (ws_get ws (th_log h));
  _ ← SignedTreeHead_verify sth (w_key w);
  if negb (bool_decide (th_log h = rm_log r)) then Err LogMismatch else
  if th_size h <? rm_size r then Err (SizeMismatch (th_size h) (rm_size r)) else
  let declared_old := u64_of_usize (cp_old_size p) in
  let declared_new := u64_of_usize (cp_new_size p) in
  if negb (declared_old =? rm_size r) || negb (declared_new =? th_size h)
  then Err (SizeMismatch declared_old (rm_size r)) else
  map_err (λ _, BadConsistencyProof)
    (ConsistencyProof_verify p (rm_root r) (th_root h) (Z.to_nat (rm_size r)) (Z.to_nat (th_size h))).

Definition Remembered_from_head (sth : SignedTreeHead) : Remembered :=
  {| rm_log := th_log (sth_head sth); rm_size := th_size (sth_head sth); rm_root := th_root (sth_head sth) |}.
Definition ob_remembered (o : Observation) : Remembered :=
  {| rm_log := ob_log o; rm_size := ob_head_size o; rm_root := ob_head_root o |}.
End log.

(** * Corroboration *)

Definition MAX_CORROBORATION : nat := 4.
Definition Policy_BASELINE : Policy := {| min_witnesses := 2; min_countries := 2 |}.

Definition Policy_for_age (age_ms trusting_period_ms : Z) : Policy :=
  let periods := if trusting_period_ms =? 0 then 0 else age_ms / trusting_period_ms in
  let extra := (Z.to_nat periods `min` (MAX_CORROBORATION - min_witnesses Policy_BASELINE))%nat in
  {| min_witnesses := (min_witnesses Policy_BASELINE + extra)%nat; min_countries := (min_countries Policy_BASELINE + extra)%nat |}.

Definition satisfiable_by (p : Policy) (witnesses countries : nat) : bool :=
  ((min_witnesses p <=? witnesses) && (min_countries p <=? countries))%nat.

(** The double loop that looks for two answers about one height. *)
Definition conflicts (a b : Observation) : bool :=
  (ob_height a =? ob_height b) && negb (bool_decide (ob_block_id a = ob_block_id b)).
Fixpoint split_view (obs : list Observation) : option Height :=
  match obs with
  | [] => None
  | a :: obs => if existsb (conflicts a) obs then Some (ob_height a) else split_view obs
  end.

(** The logs and countries that answered about a height. *)
Definition tally (obs : list Observation) (h : Height) : list LogId * list bytes :=
  foldl (λ '(logs, countries) o, (push_new logs (ob_log o), push_new countries (ob_country o))) ([], [])
    (List.filter (λ o, ob_height o =? h) obs).

(** One turn of the loop over candidates: the best so far, whether there is one, and the
    most witnesses and countries seen to agree. *)
Definition consider (chain : ChainId) (obs : list Observation) (policy : Policy)
    (st : Checkpoint * bool * nat * nat) (candidate : Observation) : Checkpoint * bool * nat * nat :=
  let '(best, found, best_witnesses, best_countries) := st in
  let '(logs, countries) := tally obs (ob_height candidate) in
  let best_witnesses := (best_witnesses `max` length logs)%nat in
  let best_countries := (best_countries `max` length countries)%nat in
  if satisfiable_by policy (length logs) (length countries) && (negb found || (ck_height best <? ob_height candidate))
  then ({| ck_chain_id := chain; ck_height := ob_height candidate; ck_block_id := ob_block_id candidate |},
        true, best_witnesses, best_countries)
  else (best, found, best_witnesses, best_countries).

Definition corroborate (chain : ChainId) (obs : list Observation) (policy : Policy) : result WitnessError Checkpoint :=
  match split_view obs with
  | Some h => Err (SplitView h)
  | None =>
      let start := {| ck_chain_id := chain; ck_height := GENESIS; ck_block_id := Hash32_ZERO |} in
      let '(best, found, bw, bc) := foldl (consider chain obs policy) (start, false, 0%nat, 0%nat) obs in
      if (found : bool) then Ok best else Err (NotCorroborated bw bc (min_witnesses policy) (min_countries policy))
  end.
