(* ===== verification/WitnessProofs.v ===== *)
(** What the witness checks buy ([crates/witness]): an honest log always satisfies the
    wallets that ask it, no log can change what a wallet has seen, and a checkpoint
    that enough witnesses corroborate is the chain's own block. *)

From S2P Require Import Prelude SortedVec Codec Primitives Crypto Merkle Alias Tx Validators Block Light Witness.

(** * Checks, inverted *)

Section checks.
Context {Hs : Hasher} {Sg : Signer}.
Implicit Types (ws : list Witness) (sth : SignedTreeHead) (e : LogEntry) (i : Z).

Lemma ws_get_Some ws log w : ws_get ws log = Some w → w ∈ ws ∧ w_log w = log.
Proof. intros [Hin Hl]%List.find_some. by apply list_elem_of_In in Hin; apply bool_decide_eq_true in Hl. Qed.

Lemma observe_Ok ws chain sth i e p o :
  observe ws chain sth i e p = Ok o →
  ∃ w, ws_get ws (th_log (sth_head sth)) = Some w ∧ SignedTreeHead_verify sth (w_key w) = Ok tt
  ∧ th_chain_id (sth_head sth) = chain
  ∧ MerkleProof_verify p (th_root (sth_head sth)) (LogEntry_leaf e) (Z.to_nat i) (Z.to_nat (th_size (sth_head sth))) = Ok tt
  ∧ o = {| ob_log := w_log w; ob_country := w_country w; ob_height := le_height e; ob_block_id := le_block_id e;
           ob_head_size := th_size (sth_head sth); ob_head_root := th_root (sth_head sth);
           ob_signed_at := th_signed_at (sth_head sth) |}.
Proof.
  unfold observe. cbv zeta. intros (w & Hw%ok_or_Ok_inv & H)%result_bind_Ok_inv.
  apply result_bind_Ok_inv in H as ([] & Hv & H). case_bool_decide as Hc; [cbn [negb] in H|done].
  destruct (_ || _); [done|]. apply result_bind_Ok_inv in H as ([] & Hm%map_err_Ok_inv & [= <-]).
  exists w. by split_and!.
Qed.

Lemma check_continuity_Ok ws r sth p :
  check_continuity ws r sth p = Ok tt →
  th_log (sth_head sth) = rm_log r ∧ rm_size r ≤ th_size (sth_head sth)
  ∧ ConsistencyProof_verify p (rm_root r) (th_root (sth_head sth)) (Z.to_nat (rm_size r)) (Z.to_nat (th_size (sth_head sth))) = Ok tt.
Proof.
  unfold check_continuity. cbv zeta. intros (w & _ & H)%result_bind_Ok_inv.
  apply result_bind_Ok_inv in H as ([] & _ & H). case_bool_decide as Hl; [cbn [negb] in H|done].
  destruct (Z.ltb_spec (th_size (sth_head sth)) (rm_size r)); [done|]. destruct (_ || _); [done|].
  by apply map_err_Ok_inv in H.
Qed.

(** Entries with one leaf hash are one entry. *)
Definition entry_input e : bytes := hash_input DWitnessEntry (encode LogEntry_codec e).

Lemma LogEntry_leaf_inj inputs e1 e2 :
  collision_free inputs → entry_input e1 ∈ inputs → entry_input e2 ∈ inputs → wf LogEntry_codec e1 → wf LogEntry_codec e2 →
  LogEntry_leaf e1 = LogEntry_leaf e2 → e1 = e2.
Proof. intros Hc H1 H2 W1 W2 [_ E]%(hash_inj inputs); [|done..]. by apply encode_inj in E; [|apply _|..]. Qed.

Lemma leaves_ok (es : list LogEntry) : Forall hash32_ok (LogEntry_leaf <$> es).
Proof. apply Forall_fmap, Forall_true. intros e. apply hash_len. Qed.

(** What the verifier of an inclusion proof, and the tree it checks against, hash. *)
Definition shown_inputs (es : list LogEntry) i e (p : MerkleProof) : list bytes :=
  tree_inputs (LogEntry_leaf <$> es)
  ++ climb_inputs (frames_of (Z.to_nat i) (length es)) (mp_siblings p) (LogEntry_leaf e)
  ++ entry_input e :: (entry_input <$> es).

(** An entry proved under the root of a list of entries is in the list. *)
Lemma shown_entry (es : list LogEntry) i e p :
  Forall (wf LogEntry_codec) es → wf LogEntry_codec e → Forall hash32_ok (mp_siblings p) →
  collision_free (shown_inputs es i e p) →
  MerkleProof_verify p (root_of (LogEntry_leaf <$> es)) (LogEntry_leaf e) (Z.to_nat i) (length es) = Ok tt →
  es !! Z.to_nat i = Some e.
Proof.
  intros Hes He Hp Hcf Hv.
  assert ((LogEntry_leaf <$> es) !! Z.to_nat i = Some (LogEntry_leaf e)) as Hl.
  { apply (inclusion_proof_sound _ p); [apply leaves_ok|done|apply hash_len|rewrite length_fmap..]; [|done].
    eapply collision_free_mono; [|exact Hcf]. unfold shown_inputs. set_solver. }
  rewrite list_lookup_fmap in Hl. destruct (es !! Z.to_nat i) as [e'|] eqn:Hi; [|done]. injection Hl as E. f_equal.
  apply (LogEntry_leaf_inj _ e' e Hcf); unfold shown_inputs; [|set_solver| |done|done].
  - apply elem_of_app. right. apply elem_of_app. right. right. apply list_elem_of_fmap_2. by eapply list_elem_of_lookup_2.
  - by eapply Forall_lookup_1.
Qed.

(** A remembered root that a log's consistency proof reconciles is the root of the
    log's first entries. *)
Lemma continued_root (es : list LogEntry) r sth p ws :
  hash32_ok (rm_root r) → Forall hash32_ok (cp_nodes p) →
  th_size (sth_head sth) = Z.of_nat (length es) → th_root (sth_head sth) = root_of (LogEntry_leaf <$> es) →
  collision_free (tree_inputs (LogEntry_leaf <$> es)
    ++ replay_inputs (Z.to_nat (rm_size r)) (length es) true (rm_root r) (cp_nodes p)) →
  check_continuity ws r sth p = Ok tt →
  (Z.to_nat (rm_size r) <= length es)%nat ∧ rm_root r = root_of (LogEntry_leaf <$> take (Z.to_nat (rm_size r)) es).
Proof.
  intros Hr Hp Hsize Hroot Hcf (_ & _ & Hv)%check_continuity_Ok. rewrite Hsize, Hroot, Nat2Z.id in Hv.
  destruct (consistency_proof_sound (LogEntry_leaf <$> es) p (Z.to_nat (rm_size r)) (rm_root r)) as [Hm E];
    [apply leaves_ok|done|done|by rewrite length_fmap|by rewrite length_fmap|].
  rewrite length_fmap in Hm. by rewrite fmap_take.
Qed.

(** Everything hashed in the exchange below. *)
Definition history_inputs (es : list LogEntry) (m : nat) i e1 p1 e2 p2 (old_root : Hash32) (pc : ConsistencyProof) : list bytes :=
  shown_inputs (take m es) i e1 p1 ++ shown_inputs es i e2 p2
  ++ replay_inputs m (length es) true old_root (cp_nodes pc).

(** A witness cannot change what a wallet has seen.  The wallet once accepted an entry at
    an index and kept the head; later it accepts a continuity proof to a newer
    head, whatever log that head commits to.  Then the log still holds that very
    entry there, and no other entry can be shown at that index, unless two
    of the hashed inputs collide. *)
Theorem witness_history_immutable ws chain (es : list LogEntry) sth1 i e1 p1 o1 sth2 pc :
  th_size (sth_head sth2) = Z.of_nat (length es) → th_root (sth_head sth2) = root_of (LogEntry_leaf <$> es) →
  Forall (wf LogEntry_codec) es → wf LogEntry_codec e1 → hash32_ok (th_root (sth_head sth1)) →
  Forall hash32_ok (mp_siblings p1) → Forall hash32_ok (cp_nodes pc) →
  observe ws chain sth1 i e1 p1 = Ok o1 → check_continuity ws (ob_remembered o1) sth2 pc = Ok tt →
  ∀ e2 p2, wf LogEntry_codec e2 → Forall hash32_ok (mp_siblings p2) →
    collision_free (history_inputs es (Z.to_nat (th_size (sth_head sth1))) i e1 p1 e2 p2 (th_root (sth_head sth1)) pc) →
    es !! Z.to_nat i = Some e1 ∧ ∀ o2, observe ws chain sth2 i e2 p2 = Ok o2 → e2 = e1.
Proof.
  intros Hsize Hroot Hes He1 Hr Hp1 Hpc Ho1 Hcont e2 p2 He2 Hp2 Hcf.
  apply observe_Ok in Ho1 as (w1 & _ & _ & _ & Hv1 & ->). unfold history_inputs in Hcf.
  set (m := Z.to_nat (th_size (sth_head sth1))) in *. set (r := ob_remembered _) in Hcont.
  destruct (continued_root es r sth2 pc ws Hr Hpc Hsize Hroot) as [Hm E]; [|exact Hcont|].
  { eapply collision_free_mono; [|exact Hcf]. unfold shown_inputs. simpl. fold m. set_solver. }
  simpl in Hm, E. fold m in Hm, E.
  assert (take m es !! Z.to_nat i = Some e1) as Hi1.
  { apply (shown_entry _ i e1 p1); [by apply Forall_take|done..| |].
    - eapply collision_free_mono; [|exact Hcf]. set_solver.
    - by rewrite <- E, firstn_length_le. }
  apply lookup_take_Some in Hi1 as [Hi1 _]. split; [done|].
  intros o2 (w2 & _ & _ & _ & Hv2 & _)%observe_Ok. rewrite Hsize, Hroot, Nat2Z.id in Hv2.
  apply shown_entry in Hv2; [congruence|done..|]. eapply collision_free_mono; [|exact Hcf]. set_solver.
Qed.
End checks.

(** * An honest log *)

Section honest_log.
Context {Hs : Hasher} {Sg : Signer} {Sk : Signing}.
Implicit Types (l : WitnessLog) (ws : list Witness) (sth : SignedTreeHead).

Definition append_all (es : list LogEntry) l : WitnessLog := foldl (λ l e, (append e l).2) l es.

(** Appending extends the log or leaves it alone. *)
Lemma append_grows e l : wl_entries l `prefix_of` wl_entries (append e l).2
  ∧ wl_log (append e l).2 = wl_log l ∧ wl_chain_id (append e l).2 = wl_chain_id l.
Proof.
  destruct (append e l) as [r l'] eqn:H. simpl. unfold append in H. destruct r as [n|err].
  - repeat inv_M_step. simpl. split_and!; [by apply prefix_app_r|done|done].
  - repeat inv_M_step; done.
Qed.

Lemma append_all_grows es l : wl_entries l `prefix_of` wl_entries (append_all es l)
  ∧ wl_log (append_all es l) = wl_log l ∧ wl_chain_id (append_all es l) = wl_chain_id l.
Proof.
  revert l. induction es as [|e es IH]; intros l; [done|]. cbn [append_all foldl].
  destruct (append_grows e l) as (H1 & H2 & H3), (IH (append e l).2) as (H1' & H2' & H3').
  unfold append_all in *. split_and!; [by etrans|by rewrite H2'|by rewrite H3'].
Qed.

Lemma u64_of_usize_id n : Z.of_nat n ≤ u64_max → u64_of_usize n = Z.of_nat n.
Proof. unfold u64_of_usize. intros. by destruct (Z.leb_spec (Z.of_nat n) u64_max); [|lia]. Qed.

Lemma signed_head_verifies l sk t sth :
  sign_head l sk t = Ok sth → sth_head sth = wl_head l t ∧ SignedTreeHead_verify sth (verifying_key sk) = Ok tt.
Proof.
  unfold sign_head. case_bool_decide as Hl; simpl; [|done]. intros [= <-]. split; [done|].
  unfold SignedTreeHead_verify, TreeHead_sign. cbn [sth_head sth_signature wl_head th_log].
  rewrite bool_decide_eq_true_2 by done. simpl. unfold PublicKey_verify, SecretKey_sign. by rewrite raw_sign_verifies.
Qed.

Context (ws : list Witness) (w : Witness) (sk : SecretKey).
Context (Hget : ws_get ws (LogId_from_public_key (verifying_key sk)) = Some w) (Hkey : w_key w = verifying_key sk).
Context (l : WitnessLog) (Hlog : wl_log l = LogId_from_public_key (verifying_key sk)).
Context (Hsize : Z.of_nat (length (wl_entries l)) ≤ u64_max).

Lemma honest_inclusion t sth i e :
  sign_head l sk t = Ok sth → 0 ≤ i → wl_entry l i = Some e →
  ∃ p o, prove_inclusion l i = Ok p ∧ observe ws (wl_chain_id l) sth i e p = Ok o
    ∧ (ob_height o, ob_block_id o, ob_country o) = (le_height e, le_block_id e, w_country w).
Proof.
  intros [Eh Hv]%signed_head_verifies Hi He. unfold wl_entry in He.
  pose proof (lookup_lt_Some _ _ _ He) as Hlt.
  destruct (inclusion_proof_verifies (wl_tree l) (Z.to_nat i) (LogEntry_leaf e)) as (p & Hp & Hpv).
  { unfold wl_tree. by rewrite list_lookup_fmap, He. }
  assert (mp_total p = length (wl_entries l) ∧ mp_index p = Z.to_nat i) as [Et Ei].
  { unfold MerkleTree_prove in Hp. destruct (_ <=? _)%nat; [done|]. injection Hp as <-. unfold wl_tree. simpl. by rewrite length_fmap. }
  unfold wl_tree in Hpv. rewrite length_fmap in Hpv.
  exists p. eexists. split_and!; [unfold prove_inclusion; by rewrite Hp| |].
  - unfold observe. rewrite Eh. cbn [wl_head th_log th_chain_id th_size th_root th_signed_at]. rewrite Hlog, Hget. cbn [ok_or mbind result_bind].
    rewrite Hkey, Hv. cbn [mbind result_bind]. rewrite bool_decide_eq_true_2 by done. unfold wl_size.
    rewrite Et, Ei, !u64_of_usize_id by lia. rewrite Z2Nat.id, !Z.eqb_refl, Nat2Z.id by lia. cbn [negb orb].
    unfold wl_root, wl_tree. rewrite Hpv. reflexivity.
  - done.
Qed.

Lemma honest_continuity l0 t0 t sth0 sth :
  wl_log l0 = wl_log l → wl_entries l0 `prefix_of` wl_entries l → sign_head l0 sk t0 = Ok sth0 → sign_head l sk t = Ok sth →
  ∃ p, prove_consistency l (wl_size l0) = Ok p ∧ check_continuity ws (Remembered_from_head sth0) sth p = Ok tt.
Proof.
  intros Hl0 Hpre [E0 _]%signed_head_verifies [Eh Hv]%signed_head_verifies.
  pose proof (prefix_length _ _ Hpre) as Hle.
  destruct (consistency_proof_verifies (wl_tree l) (length (wl_entries l0))) as (p & Hp & Hpv).
  { unfold wl_tree. by rewrite length_fmap. }
  assert (cp_old_size p = length (wl_entries l0) ∧ cp_new_size p = length (wl_entries l)) as [Eo En].
  { unfold MerkleTree_prove_consistency in Hp. cbv zeta in Hp. destruct (_ <? _)%nat; [done|]. injection Hp as <-.
    unfold wl_tree. simpl. by rewrite length_fmap. }
  assert (take (length (wl_entries l0)) (wl_tree l) = wl_tree l0) as Et.
  { unfold wl_tree. rewrite <- fmap_take. f_equal. destruct Hpre as [k ->]. by rewrite take_app_length. }
  rewrite Et in Hpv. assert (length (wl_tree l) = length (wl_entries l)) as El by (unfold wl_tree; by rewrite length_fmap). rewrite El in Hpv.
  exists p. unfold prove_consistency, wl_size. rewrite !u64_of_usize_id, Nat2Z.id, Hp by lia. split; [done|].
  unfold check_continuity, Remembered_from_head. rewrite Eh, E0. cbn [wl_head th_log th_size th_root rm_log rm_size rm_root].
  rewrite Hlog, Hget. cbn [ok_or mbind result_bind]. rewrite Hkey, Hv. cbn [mbind result_bind].
  rewrite bool_decide_eq_true_2 by congruence. unfold wl_size. rewrite Eo, En, !u64_of_usize_id by lia. cbn [negb].
  destruct (Z.ltb_spec (Z.of_nat (length (wl_entries l))) (Z.of_nat (length (wl_entries l0)))); [lia|].
  rewrite !Z.eqb_refl, !Nat2Z.id. cbn [negb orb]. unfold wl_root. by rewrite Hpv.
Qed.

Lemma honest_no_conflict l0 t0 t sth0 sth :
  wl_entries l0 `prefix_of` wl_entries l → sign_head l0 sk t0 = Ok sth0 → sign_head l sk t = Ok sth →
  HeadConflict_check {| hc_a := sth0; hc_b := sth |} (verifying_key sk) ≠ Ok tt.
Proof.
  intros Hpre [E0 _]%signed_head_verifies [Eh _]%signed_head_verifies H. unfold HeadConflict_check in H. cbn [hc_a hc_b] in H.
  apply result_bind_Ok_inv in H as ([] & _ & H). apply result_bind_Ok_inv in H as ([] & _ & H). cbv zeta in H.
  case_bool_decide; [cbn [negb] in H|done]. pose proof (prefix_length _ _ Hpre) as Hle. rewrite E0, Eh in H. simpl in H.
  unfold wl_size in H. rewrite !u64_of_usize_id in H by lia.
  destruct (Z.eqb_spec (Z.of_nat (length (wl_entries l0))) (Z.of_nat (length (wl_entries l)))) as [E|]; [|done].
  assert (wl_entries l0 = wl_entries l) as El by (apply prefix_length_eq; [done|lia]).
  unfold wl_root, wl_tree in H. rewrite El in H. by rewrite bool_decide_eq_true_2 in H.
Qed.
End honest_log.

(** An honest witness can always answer, and can never be framed.  A log is filled by any
    sequence of attempted appends and later by more; its operator signs its heads.  Any
    wallet that knows the operator is then shown every entry with a proof it
    accepts, a wallet that remembers the earlier head is given a continuity proof it
    accepts, and the two heads never pass as evidence of equivocation. *)
Theorem witness_log_answers {Hs : Hasher} {Sg : Signer} {Sk : Signing} ws w sk chain es1 es2 t1 t2 :
  let id := LogId_from_public_key (verifying_key sk) in
  let l1 := append_all es1 (WitnessLog_new chain id) in
  let l2 := append_all es2 l1 in
  ws_get ws id = Some w → w_key w = verifying_key sk → Z.of_nat (length (wl_entries l2)) ≤ u64_max →
  ∃ sth1 sth2, sign_head l1 sk t1 = Ok sth1 ∧ sign_head l2 sk t2 = Ok sth2
  ∧ (∀ i e, 0 ≤ i → wl_entry l2 i = Some e →
       ∃ p o, prove_inclusion l2 i = Ok p ∧ observe ws chain sth2 i e p = Ok o
         ∧ (ob_height o, ob_block_id o, ob_country o) = (le_height e, le_block_id e, w_country w))
  ∧ (∃ p, prove_consistency l2 (wl_size l1) = Ok p ∧ check_continuity ws (Remembered_from_head sth1) sth2 p = Ok tt)
  ∧ HeadConflict_check {| hc_a := sth1; hc_b := sth2 |} (verifying_key sk) ≠ Ok tt.
Proof.
  intros id l1 l2 Hget Hkey Hsize.
  destruct (append_all_grows es1 (WitnessLog_new chain id)) as (_ & Hl1 & Hc1), (append_all_grows es2 l1) as (Hpre & Hl2 & Hc2).
  fold l1 in Hl1, Hc1. fold l2 in Hpre, Hl2, Hc2. cbn [WitnessLog_new wl_log wl_chain_id] in Hl1, Hc1.
  assert (wl_log l2 = id) as El2 by congruence. assert (wl_chain_id l2 = chain) as Ec2 by congruence.
  assert (∀ l t, wl_log l = id → ∃ sth, sign_head l sk t = Ok sth) as Hsign.
  { intros l t El. unfold sign_head. rewrite bool_decide_eq_true_2 by done. simpl. by eexists. }
  destruct (Hsign l1 t1 Hl1) as [sth1 H1], (Hsign l2 t2 El2) as [sth2 H2]. exists sth1, sth2.
  split_and!; [done|done|..].
  - intros i e Hi He. rewrite <- Ec2. by apply (honest_inclusion ws w sk Hget Hkey l2 El2 Hsize t2).
  - by eapply (honest_continuity ws w sk Hget Hkey l2 El2 Hsize).
  - by eapply honest_no_conflict.
Qed.

(** * Corroboration *)

Section corroboration.
Implicit Types (obs : list Observation) (policy : Policy).

Lemma push_new_spec {A} `{EqDecision A} (seen l : list A) :
  NoDup seen → NoDup (foldl push_new seen l) ∧ ∀ x, x ∈ foldl push_new seen l ↔ x ∈ seen ∨ x ∈ l.
Proof.
  revert seen. induction l as [|y l IH]; intros seen Hn; cbn [foldl]; [set_solver|].
  assert (NoDup (push_new seen y) ∧ ∀ x, x ∈ push_new seen y ↔ x ∈ seen ∨ x = y) as [Hn' Hin].
  { unfold push_new. case_bool_decide; [set_solver|]. split; [|set_solver].
    apply NoDup_app. split_and!; [done|set_solver|apply NoDup_singleton]. }
  destruct (IH _ Hn') as [? Hx]. split; [done|]. intros x. rewrite Hx, Hin, elem_of_cons. tauto.
Qed.

Lemma push_new_size {A} `{Countable A} (l : list A) : length (foldl push_new [] l) = size (list_to_set l : gset A).
Proof.
  destruct (push_new_spec [] l) as [Hn Hin]; [apply NoDup_nil_2|].
  rewrite <- (size_list_to_set (C := gset A) (foldl push_new [] l)) by done. f_equal. set_solver.
Qed.

(** The operators, and the countries, that answered about a height. *)
Definition answers obs (h : Height) : list Observation := filter (λ o, ob_height o = h) obs.
Definition logs_at obs (h : Height) : gset bytes := list_to_set (ob_log <$> answers obs h).
Definition countries_at obs (h : Height) : gset bytes := list_to_set (ob_country <$> answers obs h).
Definition meets obs policy (h : Height) : Prop :=
  (min_witnesses policy <= size (logs_at obs h))%nat ∧ (min_countries policy <= size (countries_at obs h))%nat.

Lemma tally_exact obs (h : Height) :
  length (tally obs h).1 = size (logs_at obs h) ∧ length (tally obs h).2 = size (countries_at obs h).
Proof.
  assert (List.filter (λ o, ob_height o =? h) obs = answers obs h) as E.
  { unfold answers. induction obs as [|o obs IH]; [done|]. cbn. rewrite IH.
    destruct (Z.eqb_spec (ob_height o) h); by case_decide. }
  unfold logs_at, countries_at. rewrite <- !push_new_size. unfold tally. rewrite E.
  assert (∀ l logs cs, foldl (λ '(logs, countries) o, (push_new logs (ob_log o), push_new countries (ob_country o))) (logs, cs) l
            = (foldl push_new logs (ob_log <$> l), foldl push_new cs (ob_country <$> l))) as ->; [|done].
  induction l as [|o l IH]; intros logs cs; [done|]. apply IH.
Qed.

Lemma split_view_None obs :
  split_view obs = None ↔ ∀ o1 o2, o1 ∈ obs → o2 ∈ obs → ob_height o1 = ob_height o2 → ob_block_id o1 = ob_block_id o2.
Proof.
  induction obs as [|a obs IH]; cbn [split_view]; [set_solver|]. destruct (existsb (conflicts a) obs) eqn:E.
  - split; [done|]. intros H. apply existsb_exists in E as (b & Hb%list_elem_of_In & Hc). unfold conflicts in Hc. bool_simpl.
    destruct (H a b ltac:(set_solver) ltac:(set_solver)); [done|tauto].
  - rewrite IH. assert (∀ b, b ∈ obs → ob_height a = ob_height b → ob_block_id a = ob_block_id b) as Ha.
    { intros b Hb Eh. destruct (decide (ob_block_id a = ob_block_id b)) as [|Hne]; [done|].
      rewrite <- not_true_iff_false, existsb_exists in E. destruct E. exists b. split; [by apply list_elem_of_In|].
      unfold conflicts. rewrite bool_decide_eq_false_2 by done. by apply Z.eqb_eq in Eh as ->. }
    split; [|intros H o1 o2 H1 H2; apply H; set_solver].
    intros H o1 o2 [->|H1]%elem_of_cons [->|H2]%elem_of_cons Eh; [done|by apply Ha| |by apply H].
    symmetry. by apply Ha.
Qed.

Lemma split_view_Some obs h :
  split_view obs = Some h → ∃ o1 o2, o1 ∈ obs ∧ o2 ∈ obs ∧ ob_height o1 = h ∧ ob_height o2 = h ∧ ob_block_id o1 ≠ ob_block_id o2.
Proof.
  induction obs as [|a obs IH]; cbn [split_view]; [done|]. destruct (existsb (conflicts a) obs) eqn:E.
  - intros [= <-]. apply existsb_exists in E as (b & Hb%list_elem_of_In & Hc). unfold conflicts in Hc. bool_simpl.
    exists a, b. set_solver.
  - intros (o1 & o2 & H1 & H2 & H)%IH. exists o1, o2. set_solver.
Qed.

Definition checkpoint_of (chain : ChainId) (o : Observation) : Checkpoint :=
  {| ck_chain_id := chain; ck_height := ob_height o; ck_block_id := ob_block_id o |}.
Definition most (f : Height → nat) (l : list Observation) : nat := foldr (λ o n, (f (ob_height o) `max` n)%nat) 0%nat l.

Lemma most_snoc f l o : most f (l ++ [o]) = (most f l `max` f (ob_height o))%nat.
Proof. unfold most. induction l as [|x l IH]; simpl; [lia|]. rewrite IH. lia. Qed.

Lemma consider_loop chain obs policy start pre :
  let '(best, found, bw, bc) := foldl (consider chain obs policy) (start, false, 0%nat, 0%nat) pre in
  bw = most (λ h, size (logs_at obs h)) pre ∧ bc = most (λ h, size (countries_at obs h)) pre
  ∧ (∀ o, o ∈ pre → meets obs policy (ob_height o) → found = true ∧ ob_height o ≤ ck_height best)
  ∧ (found = true → ∃ o, o ∈ pre ∧ meets obs policy (ob_height o) ∧ best = checkpoint_of chain o).
Proof.
  induction pre as [|o pre IH] using rev_ind; [cbn; set_solver|].
  rewrite foldl_app. cbn [foldl]. destruct (foldl _ _ pre) as [[[best found] bw] bc].
  destruct IH as (-> & -> & IH1 & IH2). unfold consider. destruct (tally_exact obs (ob_height o)) as [E1 E2].
  destruct (tally obs (ob_height o)) as [logs cs]. cbn [fst snd] in E1, E2. rewrite !most_snoc, E1, E2.
  assert (satisfiable_by policy (size (logs_at obs (ob_height o))) (size (countries_at obs (ob_height o))) = true
          ↔ meets obs policy (ob_height o)) as Hsat.
  { unfold satisfiable_by, meets. rewrite andb_true_iff, !Nat.leb_le. done. }
  destruct (satisfiable_by policy _ _); cbn [andb].
  - destruct (negb found || (ck_height best <? ob_height o)) eqn:Eb.
    + split_and!; [done|done| |intros _; exists o; split_and!; [set_solver|by apply Hsat|done]].
      intros o' [Ho|Ho]%elem_of_app Hm; [|set_solver by lia]. destruct (IH1 o' Ho Hm) as [-> ?]. bool_simpl.
      split; [done|]. simpl in *. lia.
    + bool_simpl. destruct found; [|done]. split_and!; [done|done| |].
      * intros o' [Ho| ->%list_elem_of_singleton]%elem_of_app Hm; [by apply IH1|]. split; [done|]. lia.
      * intros _. destruct (IH2 eq_refl) as (o' & ? & ?). exists o'. set_solver.
  - split_and!; [done|done| |].
    + intros o' [Ho| ->%list_elem_of_singleton]%elem_of_app Hm; [by apply IH1|]. by apply Hsat in Hm.
    + intros Hf. destruct (IH2 Hf) as (o' & ? & ?). exists o'. set_solver.
Qed.

Lemma corroborate_cases chain obs policy :
  match corroborate chain obs policy with
  | Ok ck => split_view obs = None
      ∧ (∃ o, o ∈ obs ∧ meets obs policy (ob_height o) ∧ ck = checkpoint_of chain o)
      ∧ ∀ o, o ∈ obs → meets obs policy (ob_height o) → ob_height o ≤ ck_height ck
  | Err (SplitView h) => split_view obs = Some h
  | Err (NotCorroborated w c nw nc) =>
      split_view obs = None ∧ (∀ o, o ∈ obs → ¬ meets obs policy (ob_height o))
      ∧ (nw, nc) = (min_witnesses policy, min_countries policy)
      ∧ (w, c) = (most (λ h, size (logs_at obs h)) obs, most (λ h, size (countries_at obs h)) obs)
  | Err _ => False
  end.
Proof.
  unfold corroborate. destruct (split_view obs); [done|]. cbv zeta.
  pose proof (consider_loop chain obs policy {| ck_chain_id := chain; ck_height := GENESIS; ck_block_id := Hash32_ZERO |} obs) as H.
  destruct (foldl _ _ obs) as [[[best found] bw] bc]. destruct H as (-> & -> & H1 & H2). destruct found.
  - split_and!; [done|by apply H2|]. intros o Ho Hm. by apply H1.
  - split_and!; [done| |done|done]. intros o Ho Hm. by destruct (H1 o Ho Hm).
Qed.

(** The checkpoint adopted is the highest one corroborated, and nothing is adopted from
    witnesses that contradict each other.  A checkpoint is returned exactly when no two
    observations name different blocks at one height and some height has the policy's
    number of distinct operators and of distinct countries; it is then the
    highest such height, with the block everybody reported there.  A refusal says why,
    with the disputed height, or the best agreement reached. *)
Theorem corroborate_exact chain obs policy :
  match corroborate chain obs policy with
  | Ok ck =>
      ck_chain_id ck = chain ∧ meets obs policy (ck_height ck)
      ∧ (∃ o, o ∈ obs ∧ ob_height o = ck_height ck)
      ∧ (∀ o, o ∈ obs → ob_height o = ck_height ck → ob_block_id o = ck_block_id ck)
      ∧ (∀ o1 o2, o1 ∈ obs → o2 ∈ obs → ob_height o1 = ob_height o2 → ob_block_id o1 = ob_block_id o2)
      ∧ (∀ o, o ∈ obs → meets obs policy (ob_height o) → ob_height o ≤ ck_height ck)
  | Err (SplitView h) =>
      ∃ o1 o2, o1 ∈ obs ∧ o2 ∈ obs ∧ ob_height o1 = h ∧ ob_height o2 = h ∧ ob_block_id o1 ≠ ob_block_id o2
  | Err (NotCorroborated w c nw nc) =>
      (∀ o1 o2, o1 ∈ obs → o2 ∈ obs → ob_height o1 = ob_height o2 → ob_block_id o1 = ob_block_id o2)
      ∧ (∀ o, o ∈ obs → ¬ meets obs policy (ob_height o))
      ∧ (nw, nc) = (min_witnesses policy, min_countries policy)
      ∧ (w, c) = (most (λ h, size (logs_at obs h)) obs, most (λ h, size (countries_at obs h)) obs)
  | Err _ => False
  end.
Proof.
  pose proof (corroborate_cases chain obs policy) as H. destruct (corroborate chain obs policy) as [ck|[]]; try done.
  - destruct H as (Hs & (o & Ho & Hm & ->) & Hmax). rewrite split_view_None in Hs. simpl in *. split_and!; try done; [by exists o|].
    intros o' Ho' E. by apply Hs.
  - by apply split_view_Some.
  - by rewrite split_view_None in H.
Qed.

(** Operators that lie are too few, or sit in too few countries, for the policy. *)
Definition outnumbered (liars : list bytes) (known : list (bytes * bytes)) policy : Prop :=
  (length liars < min_witnesses policy)%nat
  ∨ ∃ cs : list bytes, (length cs < min_countries policy)%nat ∧ ∀ log c, (log, c) ∈ known → log ∈ liars → c ∈ cs.

Lemma too_few_members {A} `{Countable A} (l : list A) (X : gset A) :
  (length l < size X)%nat → ∃ x, x ∈ X ∧ x ∉ l.
Proof.
  intros Hlt. destruct (decide (Forall (.∈ l) (elements X))) as [Hall|Hno].
  - rewrite Forall_forall in Hall. apply NoDup_submseteq, submseteq_length in Hall; [|apply NoDup_elements].
    unfold size, set_size in Hlt. simpl in Hlt. lia.
  - apply not_Forall_Exists in Hno; [|apply _]. apply Exists_exists in Hno as (x & Hx & Hn). exists x. set_solver.
Qed.

Lemma honest_answer liars known obs policy h :
  (∀ o, o ∈ obs → (ob_log o, ob_country o) ∈ known) → outnumbered liars known policy → meets obs policy h →
  ∃ o, o ∈ obs ∧ ob_height o = h ∧ ob_log o ∉ liars.
Proof.
  intros Hk Hout [Hw Hc]. destruct Hout as [Hlt|(cs & Hlt & Hcs)].
  - destruct (too_few_members liars (logs_at obs h)) as (x & Hx & Hn); [lia|]. unfold logs_at, answers in Hx.
    apply elem_of_list_to_set, list_elem_of_fmap in Hx as (o & -> & [? ?]%list_elem_of_filter). by exists o.
  - destruct (too_few_members cs (countries_at obs h)) as (x & Hx & Hn); [lia|]. unfold countries_at, answers in Hx.
    apply elem_of_list_to_set, list_elem_of_fmap in Hx as (o & -> & [? Ho]%list_elem_of_filter). exists o. split_and!; [done..|].
    intros Hl. apply Hn. by eapply Hcs; [apply Hk|].
Qed.
End corroboration.

(** * From witnesses to a wallet's first header *)

Section bootstrap.
Context {Hs : Hasher} {Sg : Signer}.
Context (ws : list Witness) (chain : ChainId) (truth : Height → Hash32) (liars : list bytes).

(** What a server passes on from witnesses: a signed head, and an entry proved in it. *)
Record claim := { cl_head : SignedTreeHead; cl_index : Z; cl_entry : LogEntry; cl_proof : MerkleProof }.
Implicit Types (c : claim).

Definition gathered (cs : list claim) : list Observation :=
  omap (λ c, match observe ws chain (cl_head c) (cl_index c) (cl_entry c) (cl_proof c) with Ok o => Some o | Err _ => None end) cs.

(** A head that verifies under an honest operator's key commits to a log of blocks of the
    chain. *)
Definition honest_heads c : Prop :=
  wf LogEntry_codec (cl_entry c) ∧ Forall hash32_ok (mp_siblings (cl_proof c))
  ∧ ∀ w, ws_get ws (th_log (sth_head (cl_head c))) = Some w → w_log w ∉ liars →
      SignedTreeHead_verify (cl_head c) (w_key w) = Ok tt →
      ∃ es, th_size (sth_head (cl_head c)) = Z.of_nat (length es)
        ∧ th_root (sth_head (cl_head c)) = root_of (LogEntry_leaf <$> es)
        ∧ Forall (wf LogEntry_codec) es ∧ Forall (λ e, le_block_id e = truth (le_height e)) es
        ∧ collision_free (shown_inputs es (cl_index c) (cl_entry c) (cl_proof c)).

Lemma gathered_elem cs o :
  o ∈ gathered cs → ∃ c, c ∈ cs ∧ observe ws chain (cl_head c) (cl_index c) (cl_entry c) (cl_proof c) = Ok o.
Proof.
  intros (c & Hc & H)%list_elem_of_omap. exists c. split; [done|]. destruct (observe _ _ _ _ _ _); congruence.
Qed.

Lemma honest_observation cs o :
  Forall honest_heads cs → o ∈ gathered cs → ob_log o ∉ liars → ob_block_id o = truth (ob_height o).
Proof.
  intros Hcs (c & Hc & H)%gathered_elem Hl. rewrite Forall_forall in Hcs. destruct (Hcs c Hc) as (He & Hp & Hh).
  apply observe_Ok in H as (w & Hw & Hv & _ & Hm & ->). simpl in *. destruct (Hh w Hw Hl Hv) as (es & Hn & Hr & Hes & Ht & Hcf).
  rewrite Hn, Hr, Nat2Z.id in Hm. apply shown_entry in Hm; [|done..]. by eapply Forall_lookup_1 in Ht.
Qed.

Lemma known_witnesses cs o : o ∈ gathered cs → (ob_log o, ob_country o) ∈ (λ w, (w_log w, w_country w)) <$> ws.
Proof.
  intros (c & _ & (w & [Hw _]%ws_get_Some & _ & _ & _ & ->)%observe_Ok)%gathered_elem. by apply (list_elem_of_fmap_2 (λ w, (w_log w, w_country w))).
Qed.
End bootstrap.

(** C21: A wallet with no memory starts on the real chain.  It knows a set of witnesses; a
    server it does not trust hands it signed heads, entries and proofs, and then a header
    and validator sets.  If the operators that lie are fewer than the policy's
    witnesses, or all sit in fewer countries than it asks for, and the honest ones'
    signed heads commit to logs of the chain's blocks, then a checkpoint the wallet
    adopts is the chain's block at that height, and so is the header of the
    light client it builds from it. *)
Theorem wallet_bootstrap_sound {Hs : Hasher} {Sg : Signer} ws chain truth liars policy cs ck header vals nexts lc :
  Forall (honest_heads ws truth liars) cs → outnumbered liars ((λ w, (w_log w, w_country w)) <$> ws) policy →
  corroborate chain (gathered ws chain cs) policy = Ok ck →
  from_block_id chain (ck_block_id ck) header vals nexts = Ok lc →
  ck_block_id ck = truth (ck_height ck) ∧ BlockHeader_id (trusted lc) = truth (ck_height ck).
Proof.
  intros Hcs Hout Hck Hlc. pose proof (corroborate_cases chain (gathered ws chain cs) policy) as H. rewrite Hck in H.
  destruct H as (Hsv & (o & Ho & Hm & ->) & _). rewrite split_view_None in Hsv. simpl in *.
  destruct (honest_answer liars _ _ policy (ob_height o) (known_witnesses ws chain cs) Hout Hm) as (o' & Ho' & Eh & Hl).
  assert (ob_block_id o = truth (ob_height o)) as Et.
  { rewrite (Hsv o o' Ho Ho') by done. rewrite <- Eh. by eapply honest_observation. }
  split; [done|]. rewrite <- Et. unfold from_block_id in Hlc. case_bool_decide as Eb; [|done]. simpl in Hlc.
  unfold from_checkpoint in Hlc. by repeat (case_bool_decide; simpl in Hlc; try done); injection Hlc as <-.
Qed.
