(* ===== verification/StateNodes.v ===== *)
(** Content-addressed storage of the state tree ([crates/state/src/nodes.rs]): every node
    is kept under its own hash, a commit writes what is missing, and a tree is loaded
    from its root. *)

From S2P Require Import Prelude SortedVec Sorting Codec Primitives Crypto Smt.

Inductive StoredNode :=
| NLeaf (key_hash : Hash32) (value : bytes)
| NInternal (left right : Hash32).

Definition StoredNode_codec : codec StoredNode :=
  tag_codec "Node" (λ n, match n with NLeaf _ _ => 0 | NInternal _ _ => 1 end)
    (λ t, match t with
          | 0 => Some (variant_codec (λ '(k, v), NLeaf k v)
                         (λ n, match n with NLeaf k v => Some (k, v) | _ => None end)
                         (Hash32_codec ⊗ bytes_codec))
          | 1 => Some (variant_codec (λ '(l, r), NInternal l r)
                         (λ n, match n with NInternal l r => Some (l, r) | _ => None end)
                         (Hash32_codec ⊗ Hash32_codec))
          | _ => None
          end).
#[export] Instance StoredNode_lawful : Lawful StoredNode_codec.
Proof. apply tag_lawful; [intros []; lia|tag_cases]. Qed.
Arguments StoredNode_codec : simpl never.

(** [NodeSource] and [NodeSink]. *)
Class NodeSource (S : Type) := get_node : S → Hash32 → option StoredNode.
Class NodeSink (S : Type) := {
  has_node : S → Hash32 → bool;
  put_node : S → Hash32 → StoredNode → S;
}.

(** A map from hashes to encoded nodes: [MemoryNodes], or a table of the database. *)
Abbreviation NodeTable := (gmap bytes bytes) (only parsing).
#[export] Instance table_source : NodeSource NodeTable := λ N h,
  match N !! h with
  | Some b => match decode_exact StoredNode_codec b with Ok n => Some n | Err _ => None end
  | None => None
  end.
#[export] Instance table_sink : NodeSink NodeTable := {|
  has_node N h := bool_decide (is_Some (N !! h));
  put_node N h n := <[h := encode StoredNode_codec n]> N;
|}.

Record WriteStats := { visited : Z; written : Z }.
Definition count_visit (s : WriteStats) : WriteStats := {| visited := saturating_add u64_max (visited s) 1; written := written s |}.
Definition count_write (s : WriteStats) : WriteStats := {| visited := visited s; written := saturating_add u64_max (written s) 1 |}.

Section nodes.
Context {Hs : Hasher}.

Definition StoredNode_hash (n : StoredNode) : Hash32 :=
  match n with NLeaf k v => smt_leaf_hash k v | NInternal l r => smt_node_hash l r end.

(** [write_node]; an absent child is [EMPTY]. *)
Fixpoint write_node {S} `{NodeSink S} (t : Link) (sink : S) (stats : WriteStats) : Hash32 * S * WriteStats :=
  match t with
  | Empty => (EMPTY, sink, stats)
  | Leaf k v h =>
      let stats := count_visit stats in
      if has_node sink h then (h, sink, stats) else (h, put_node sink h (NLeaf k v), count_write stats)
  | Internal l r h _ =>
      let stats := count_visit stats in
      if has_node sink h then (h, sink, stats) else
      let '(lh, sink, stats) := write_node l sink stats in
      let '(rh, sink, stats) := write_node r sink stats in
      (h, put_node sink h (NInternal lh rh), count_write stats)
  end.

Definition commit_tree {S} `{NodeSink S} (t : SparseMerkleTree) (sink : S) : Hash32 * S * WriteStats :=
  write_node (smt_root t) sink {| visited := 0; written := 0 |}.

(** [collect]: the outer [None] is a recursion that has not ended within the fuel. *)
Fixpoint collect {S} `{NodeSource S} (fuel : nat) (h : Hash32) (source : S) (out : gmap bytes bytes)
  : option (option (gmap bytes bytes)) :=
  match fuel with
  | O => None
  | Datatypes.S fuel =>
      if bool_decide (h = EMPTY) then Some (Some out) else
      match get_node source h with
      | None => Some None
      | Some (NLeaf k v) => Some (Some (<[k := v]> out))
      | Some (NInternal l r) =>
          match collect fuel l source out with
          | Some (Some out) => collect fuel r source out
          | other => other
          end
      end
  end.

(** [SparseMerkleTree::from_entries], which walks the map in key order. *)
Definition smt_from_entries (entries : gmap bytes bytes) : SparseMerkleTree :=
  foldl (λ t e, smt_insert_hashed t e.1 e.2) smt_new (sort_by_key fst (map_to_list entries)).

(** A tree is at most 256 nodes deep, and its last level holds leaves. *)
Definition LOAD_FUEL : nat := 257.
Definition load_tree {S} `{NodeSource S} (fuel : nat) (root : Hash32) (source : S) : option (option SparseMerkleTree) :=
  option_map (option_map smt_from_entries) (collect fuel root source ∅).
End nodes.

(** * What a table holds *)

Section holding.
Context {Hs : Hasher}.
Implicit Types (t : Link) (N : NodeTable).

Definition materialised t : StoredNode :=
  match t with
  | Empty => NInternal EMPTY EMPTY
  | Leaf k v _ => NLeaf k v
  | Internal l r _ _ => NInternal (link_hash l) (link_hash r)
  end.

(** Every node of the tree is in the table. *)
Fixpoint holds N t : Prop :=
  match t with
  | Empty => True
  | Leaf _ _ h => N !! h = Some (encode StoredNode_codec (materialised t))
  | Internal l r h _ => N !! h = Some (encode StoredNode_codec (materialised t)) ∧ holds N l ∧ holds N r
  end.

Lemma holds_mono N N' t : N ⊆ N' → holds N t → holds N' t.
Proof.
  intros Hsub. induction t as [|k v h|l IHl r IHr h n]; cbn [holds]; [done|intros H; by eapply lookup_weaken|].
  intros (H & Hl & Hr). split_and!; [by eapply lookup_weaken|auto..].
Qed.

(** The nodes in play hash no two inputs alike and none to the empty marker. *)
Context (inputs : list bytes) (Hcf : collision_free inputs) (Hef : empty_free inputs).

Definition known t : Prop := link_inputs t ⊆ inputs ∧ ∃ d, wf_tree d t.

Lemma known_internal l r : known (mk_internal l r) → known l ∧ known r ∧ hash_input DStateNode (link_hash l ++ link_hash r) ∈ inputs.
Proof.
  intros [Hi [d Hwf]]. inversion Hwf as [| |? ? ? ? Hl Hr]; subst. cbn [mk_internal link_inputs] in Hi.
  split_and!; [split; [set_solver|by eexists]|split; [set_solver|by eexists]|set_solver].
Qed.

Lemma link_hash_EMPTY t : known t → link_hash t = EMPTY → t = Empty.
Proof.
  intros [Hi [d Hwf]] E. destruct Hwf as [| |d l r]; [done|exfalso..].
  - by apply (leaf_ne_EMPTY inputs Hcf Hef k v).
  - apply (node_ne_EMPTY inputs Hef (link_hash l) (link_hash r)); [|done]. cbn [mk_internal link_inputs] in Hi. set_solver.
Qed.

(** A hash names one tree. *)
Lemma link_hash_inj t1 t2 : known t1 → known t2 → link_hash t1 = link_hash t2 → t1 = t2.
Proof.
  intros K1. revert t2. pose proof K1 as [Hi1 [d1 Hwf1]].
  induction Hwf1 as [d|d k v Hk|d l r Hd Hl IHl Hr IHr _ _ _]; intros t2 K2 E.
  - symmetry. by apply link_hash_EMPTY.
  - pose proof K2 as [Hi2 [d2 Hwf2]]. destruct Hwf2 as [|d2 k2 v2 Hk2|d2 l2 r2].
    + by apply link_hash_EMPTY.
    + apply (leaf_inj inputs Hcf Hef) in E as [-> ->]; done.
    + exfalso. apply (leaf_ne_node inputs Hcf Hef k v (link_hash l2) (link_hash r2)); [done| |done].
      cbn [mk_internal link_inputs] in Hi2. set_solver.
  - destruct (known_internal _ _ K1) as (Kl & Kr & Hin). pose proof K2 as [Hi2 [d2 Hwf2]]. destruct Hwf2 as [|d2 k2 v2 Hk2|d2 l2 r2 ? Hl2 Hr2].
    + by apply link_hash_EMPTY.
    + exfalso. symmetry in E. by apply (leaf_ne_node inputs Hcf Hef k2 v2 (link_hash l) (link_hash r)) in E.
    + destruct (known_internal _ _ K2) as (Kl2 & Kr2 & Hin2).
      apply (node_inj inputs Hcf) in E as [El Er]; [|done|done|by eapply link_hash_len|by eapply link_hash_len].
      rewrite (IHl Kl (proj1 Kl) l2), (IHr Kr (proj1 Kr) r2); done.
Qed.

(** ** Writing *)

(** Whatever the table has under a hash is a known node, and all that lies below it is
    there too. *)
Definition table_closed N : Prop :=
  ∀ h, is_Some (N !! h) → ∃ t, known t ∧ t ≠ Empty ∧ link_hash t = h ∧ holds N t.

Lemma table_closed_has N t : table_closed N → known t → is_Some (N !! link_hash t) → holds N t.
Proof. intros HN Ht Hin. destruct (HN _ Hin) as (t' & Ht' & _ & E & Hh). by apply link_hash_inj in E as ->. Qed.

Lemma holds_here N t : t ≠ Empty → holds N t → N !! link_hash t = Some (encode StoredNode_codec (materialised t)).
Proof. destruct t; [done|done|]. by intros _ [? _]. Qed.

(** Adding a node whose children are there; a hash already present names that very node. *)
Lemma table_put N t :
  table_closed N → known t → t ≠ Empty →
  (∀ N', N ⊆ N' → N' !! link_hash t = Some (encode StoredNode_codec (materialised t)) → holds N' t) →
  let N' := put_node N (link_hash t) (materialised t) in holds N' t ∧ N ⊆ N' ∧ table_closed N'.
Proof.
  intros HN Ht Hne Hh N'. assert (N' !! link_hash t = Some (encode StoredNode_codec (materialised t))) as Hl by apply lookup_insert_eq.
  destruct (decide (is_Some (N !! link_hash t))) as [Hin|Hno].
  - pose proof (table_closed_has N t HN Ht Hin) as Hhold. assert (N' = N) as ->; [|done].
    by apply insert_id, holds_here.
  - assert (N ⊆ N') as Hsub by (apply insert_subseteq, eq_None_not_Some; done).
    assert (holds N' t) as Ht' by (by apply Hh). split_and!; [done|done|].
    intros h Hin. destruct (decide (h = link_hash t)) as [->|Hd]; [by exists t|].
    unfold N', put_node, table_sink in Hin. rewrite lookup_insert_ne in Hin by done.
    destruct (HN h Hin) as (u & Hu & Hue & E & Hhu). exists u. split_and!; [done..|]. by eapply holds_mono.
Qed.

Lemma write_node_spec t N stats :
  known t → table_closed N →
  let '(h, N', _) := write_node t N stats in h = link_hash t ∧ holds N' t ∧ N ⊆ N' ∧ table_closed N'.
Proof.
  intros Ht. pose proof Ht as [_ [d Hwf]]. revert N stats. induction Hwf as [d|d k v Hk|d l r Hd Hl IHl Hr IHr _ _ _]; intros N stats HN.
  - done.
  - unfold mk_leaf. cbn [write_node]. unfold has_node at 1, table_sink at 1. case_bool_decide as Hin.
    + split_and!; [done| |done|done]. by apply (table_closed_has N (mk_leaf k v)).
    + split; [done|]. by apply (table_put N (mk_leaf k v)).
  - unfold mk_internal at 1. cbn [write_node]. unfold has_node at 1, table_sink at 1. case_bool_decide as Hin.
    + split_and!; [done| |done|done]. by apply (table_closed_has N (mk_internal l r)).
    + destruct (known_internal _ _ Ht) as (Kl & Kr & _).
      specialize (IHl Kl N (count_visit stats) HN). destruct (write_node l N _) as [[lh N1] st1]. destruct IHl as (-> & Hhl & S1 & C1).
      specialize (IHr Kr N1 st1 C1). destruct (write_node r N1 _) as [[rh N2] st2]. destruct IHr as (-> & Hhr & S2 & C2).
      split; [done|]. apply (holds_mono _ _ _ S2) in Hhl.
      destruct (table_put N2 (mk_internal l r) C2 Ht ltac:(done)) as (H1 & H2 & H3).
      { intros N' Hs' Hl'. cbn [holds mk_internal]. split_and!; [done|by eapply holds_mono..]. }
      split_and!; [exact H1| |exact H3]. by do 2 (etrans; [eassumption|]).
Qed.

Lemma commit_tree_spec (t : SparseMerkleTree) N :
  link_inputs (smt_root t) ⊆ inputs → smt_ok t → table_closed N →
  let '(h, N', _) := commit_tree t N in h = smt_root_hash t ∧ holds N' (smt_root t) ∧ N ⊆ N' ∧ table_closed N'.
Proof. intros Hi Hok HN. apply write_node_spec; [|done]. split; [done|by exists 0%nat]. Qed.

(** ** Loading *)

(** Whatever the table has under a hash is the node of that hash; nodes may be missing. *)
Definition table_sound N : Prop :=
  ∀ h b, N !! h = Some b → ∃ t, known t ∧ t ≠ Empty ∧ link_hash t = h ∧ b = encode StoredNode_codec (materialised t).

Lemma table_closed_sound N N' : table_closed N → N' ⊆ N → table_sound N'.
Proof.
  intros HN Hsub h b Hb. apply (lookup_weaken _ _ _ _ Hb) in Hsub as Hb'. destruct (HN h) as (t & Ht & Hne & <- & Hh); [by eexists|].
  exists t. split_and!; [done..|]. apply holds_here in Hh; [|done]. congruence.
Qed.

(** A value too long to decode would not be read back. *)
Definition values_fit t : Prop := Forall (λ e, wf bytes_codec e.2) (entries_of t).

Lemma encode_bytes_inj a b : encode_bytes a = encode_bytes b → a = b.
Proof. unfold encode_bytes. intros E. by apply app_inj_1 in E as [_ E]. Qed.

(** A node's bytes never decode to another node, even when they are too long to decode. *)
Lemma stored_node_unique t n :
  known t → t ≠ Empty → wf StoredNode_codec n → encode StoredNode_codec (materialised t) = encode StoredNode_codec n → n = materialised t.
Proof.
  intros [_ [d Hwf]] Hne Hn E. destruct Hwf as [d|d k v Hk|d l r ? Hl Hr]; [done|..].
  - destruct n as [k' v'|l' r'].
    + destruct Hn as [Hk' _]. injection E as E. apply app_inj_1 in E as [-> E]; [|change (length k = length k'); by rewrite Hk, Hk'].
      by apply encode_bytes_inj in E as ->.
    + by injection E.
  - symmetry. apply encode_inj in E; [done|apply _| |done]. split; by eapply link_hash_len.
Qed.

Lemma get_node_sound N t : table_sound N → known t → t ≠ Empty →
  get_node N (link_hash t) = None ∨ get_node N (link_hash t) = Some (materialised t).
Proof.
  intros HN Ht Hne. unfold get_node, table_source. destruct (N !! link_hash t) as [b|] eqn:E; [|by left].
  destruct (HN _ _ E) as (t' & Ht' & _ & Eh & ->). apply link_hash_inj in Eh; [subst t'|done..].
  destruct (decode_exact StoredNode_codec _) as [n|] eqn:Ed; [|by left]. right.
  apply decode_exact_sound in Ed as [Hw E']; [|apply _]. f_equal. by apply stored_node_unique.
Qed.

Lemma get_node_held N t : known t → t ≠ Empty → holds N t → values_fit t → get_node N (link_hash t) = Some (materialised t).
Proof.
  intros [_ [d Hwf]] Hne Hh Hv. unfold get_node, table_source. rewrite (holds_here N t) by done.
  rewrite decode_exact_encode; [done|apply _|]. destruct Hwf as [d|d k v Hk|d l r ? Hl Hr]; [done|..].
  - split; [done|]. by apply Forall_cons in Hv as [Hv _].
  - split; by eapply link_hash_len.
Qed.

(** What [collect] leaves in the map: the tree's entries over what was there. *)
Definition overlaid t (out out' : gmap bytes bytes) : Prop :=
  ∀ k v, out' !! k = Some v ↔ (k, v) ∈ entries_of t ∨ k ∉ keys_of t ∧ out !! k = Some v.

Lemma overlaid_internal d l r out out1 out2 :
  wf_tree d (mk_internal l r) → overlaid l out out1 → overlaid r out1 out2 → overlaid (mk_internal l r) out out2.
Proof.
  intros Hwf H1 H2 k v. rewrite (H2 k v), (H1 k v), elem_of_entries_internal, keys_of_internal.
  inversion Hwf as [| |? ? ? ? _ _ Bl Br]; subst. rewrite (keys_of_entries l), (keys_of_entries r) in *.
  assert (∀ w, (k, v) ∈ entries_of l → (k, w) ∈ entries_of r → False) as Hdisj; [|naive_solver].
  intros w Hl Hr. assert (k ∈ keys_of l) as Kl by (apply keys_of_entries; eauto).
  assert (k ∈ keys_of r) as Kr by (apply keys_of_entries; eauto). apply Bl in Kl. apply Br in Kr. congruence.
Qed.

Lemma collect_spec N t d fuel out :
  table_sound N → known t → wf_tree d t → (MAX_PROOF_DEPTH - d < fuel)%nat →
  ∃ r, collect fuel (link_hash t) N out = Some r
  ∧ (∀ out', r = Some out' → overlaid t out out') ∧ (holds N t → values_fit t → is_Some r).
Proof.
  intros HN Ht Hwf. revert fuel out. induction Hwf as [d|d k v Hk|d l r Hd Hl IHl Hr IHr Bl Br Hsz]; intros [|fuel] out Hf; [lia| |lia| |lia|].
  - eexists. cbn [collect link_hash]. rewrite bool_decide_eq_true_2 by done. split_and!; [done| |by eexists].
    intros out' [= <-] a b. cbn [entries_of keys_of]. set_solver.
  - cbn [collect]. rewrite bool_decide_eq_false_2 by (by intros E%link_hash_EMPTY).
    destruct (get_node_sound N (mk_leaf k v) HN Ht ltac:(done)) as [E|E]; rewrite E; cbn [materialised mk_leaf].
    + exists None. split_and!; [done..|]. intros Hh Hv. rewrite (get_node_held N (mk_leaf k v) Ht) in E; done.
    + eexists. split_and!; [done| |by eexists]. intros out' [= <-] a b. rewrite lookup_insert_Some.
      change (entries_of (mk_leaf k v)) with [(k, v)]. change (keys_of (mk_leaf k v)) with [k]. rewrite !list_elem_of_singleton. naive_solver.
  - pose proof (wf_internal d l r Hd Hl Hr Bl Br Hsz) as Hwf. destruct (known_internal _ _ Ht) as (Kl & Kr & _).
    cbn [collect]. rewrite bool_decide_eq_false_2 by (by intros E%link_hash_EMPTY).
    destruct (get_node_sound N (mk_internal l r) HN Ht ltac:(done)) as [E|E]; rewrite E; cbn [materialised mk_internal].
    { exists None. split_and!; [done..|]. intros Hh Hv. rewrite (get_node_held N (mk_internal l r) Ht) in E; done. }
    destruct (IHl Kl fuel out ltac:(lia)) as (rl & -> & Hol & Hhl). destruct rl as [out1|].
    + destruct (IHr Kr fuel out1 ltac:(lia)) as (rr & -> & Hor & Hhr). exists rr. split_and!; [done| |].
      * intros out2 ->. eapply overlaid_internal; [done|by apply Hol|by apply Hor].
      * intros (_ & _ & Hh) [_ Hv]%Forall_app. auto.
    + exists None. split_and!; [done..|]. intros (_ & Hh & _) [Hv _]%Forall_app. by destruct (Hhl Hh Hv).
Qed.
End holding.

Section loading.
Context {Hs : Hasher}.

Lemma smt_from_entries_spec m :
  map_Forall (λ k _, length k = 32%nat) m →
  smt_ok (smt_from_entries m) ∧ ∀ k, get_at (smt_root (smt_from_entries m)) k 0 = m !! k.
Proof.
  intros Hm. unfold smt_from_entries.
  pose proof (sort_by_key_perm fst (map_to_list m)) as Hp. set (l := sort_by_key fst (map_to_list m)) in *.
  assert (NoDup (l.*1)) as Hnd by (rewrite Hp; apply NoDup_fst_map_to_list).
  assert (∀ k v, (k, v) ∈ l ↔ m !! k = Some v) as Hl by (intros k v; rewrite Hp; apply elem_of_map_to_list).
  assert (∀ l t, smt_ok t → NoDup l.*1 → (∀ e, e ∈ l → length e.1 = 32%nat) →
    let t' := foldl (λ t e, smt_insert_hashed t e.1 e.2) t l in
    smt_ok t' ∧ ∀ k v, get_at (smt_root t') k 0 = Some v ↔ (k, v) ∈ l ∨ k ∉ l.*1 ∧ get_at (smt_root t) k 0 = Some v) as Hfold.
  { clear. induction l as [|[k0 v0] l IH]; intros t Ht Hnd H32; cbn [foldl]; [set_solver|].
    apply NoDup_cons in Hnd as [Hk0 Hnd].
    destruct (smt_insert_hashed_spec t k0 v0 Ht (H32 (k0, v0) ltac:(by left))) as (Hok & Hget & _).
    destruct (IH _ Hok Hnd) as [Hok' Hget']; [intros e He; apply H32; by right|]. split; [done|]. intros k v.
    rewrite Hget', Hget. cbn [fmap list_fmap fst]. rewrite !elem_of_cons. case_decide as E; [subst|naive_solver].
    assert (∀ v, (k0, v) ∉ l) as Hno by (intros w Hw; apply Hk0, (list_elem_of_fmap_2 fst _ (k0, w)), Hw). naive_solver. }
  destruct (Hfold l smt_new smt_new_ok Hnd) as [Hok Hget].
  { intros [k v] He. apply Hl in He. exact (Hm k v He). }
  split; [done|]. intros k. apply option_eq. intros v. rewrite Hget, Hl. simpl. split; [by intros [?|[_ ?]]|by left].
Qed.

(** Keys that come out of a table have the length of a hash. *)
Lemma collect_keys fuel h N out r :
  map_Forall (λ k _, length k = 32%nat) out → collect fuel h N out = Some (Some r) → map_Forall (λ k _, length k = 32%nat) r.
Proof.
  revert h out r. induction fuel as [|fuel IH]; intros h out r Hout; cbn [collect]; [done|].
  case_bool_decide; [by intros [= <-]|]. destruct (get_node N h) as [[k v|l rt]|] eqn:E; [| |done].
  - intros [= <-]. apply map_Forall_insert_2; [|done]. unfold get_node, table_source in E.
    destruct (N !! h) as [b|]; [|done]. destruct (decode_exact _ b) as [n|] eqn:Ed; [|done]. injection E as ->.
    by apply decode_exact_sound in Ed as [[Hk _] _]; [|apply _].
  - destruct (collect fuel l N out) as [[out1|]|] eqn:E1; [|done|done]. intros E2. eapply IH; [|exact E2]. by eapply IH.
Qed.

Lemma load_tree_ok fuel root N t : load_tree fuel root N = Some (Some t) → smt_ok t.
Proof.
  unfold load_tree. destruct (collect fuel root N ∅) as [[m|]|] eqn:E; [|done|done]. intros [= <-].
  apply smt_from_entries_spec. eapply collect_keys; [|exact E]. apply map_Forall_empty.
Qed.

Context (inputs : list bytes) (Hcf : collision_free inputs) (Hef : empty_free inputs).

(** Loading ends; if it yields a tree, it is the tree of that root; and it does when
    every node is there and decodes. *)
Lemma load_tree_spec N (t : SparseMerkleTree) fuel :
  table_sound inputs N → link_inputs (smt_root t) ⊆ inputs → smt_ok t → (LOAD_FUEL ≤ fuel)%nat →
  ∃ r, load_tree fuel (smt_root_hash t) N = Some r
  ∧ (∀ t', r = Some t' → smt_root t' = smt_root t) ∧ (holds N (smt_root t) → values_fit (smt_root t) → is_Some r).
Proof.
  intros HN Hi Hok Hf. destruct (collect_spec inputs Hcf Hef N (smt_root t) 0 fuel ∅ HN) as (r & E & Hr & Hh); [|done| |].
  { split; [done|by exists 0%nat]. }
  { rewrite MAX_PROOF_DEPTH_eq. unfold LOAD_FUEL in Hf. lia. }
  exists (option_map smt_from_entries r). unfold load_tree, smt_root_hash. rewrite E. split_and!; [done| |].
  - intros t' Et'. destruct r as [m|]; [|done]. injection Et' as <-.
    destruct (smt_from_entries_spec m) as [Hok' Hget]; [eapply collect_keys; [apply map_Forall_empty|exact E]|].
    eapply wf_tree_unique; [exact Hok'|exact Hok|]. intros [k v]. rewrite <- (get_at_Some 0 _ k v Hok'), Hget, (Hr m eq_refl k v).
    split; [|by left]. by intros [|[_ H%lookup_empty_Some]].
  - intros H1 H2. destruct (Hh H1 H2) as [m ->]. by eexists.
Qed.
End loading.

(** * Versions *)

Section versions.
Context {Hs : Hasher}.

(** Trees committed one after another into an empty table. *)
Definition commit_all (ts : list SparseMerkleTree) : NodeTable := foldl (λ N t, (commit_tree t N).1.2) ∅ ts.
Definition trees_inputs (ts : list SparseMerkleTree) : list bytes := ts ≫= λ t, link_inputs (smt_root t).

Lemma commit_all_spec inputs ts :
  collision_free inputs → empty_free inputs → trees_inputs ts ⊆ inputs → Forall smt_ok ts →
  table_closed inputs (commit_all ts) ∧ Forall (λ t, holds (commit_all ts) (smt_root t)) ts.
Proof.
  intros Hcf Hef. unfold commit_all. induction ts as [|t ts IH] using rev_ind; intros Hi Hok.
  - split; [|constructor]. intros h Hh. cbn [foldl] in Hh. rewrite lookup_empty in Hh. by destruct Hh.
  - unfold trees_inputs in Hi. rewrite bind_app in Hi. apply Forall_app in Hok as [Hok Ht]. apply Forall_cons in Ht as [Ht _].
    destruct IH as [HN Hh]; [unfold trees_inputs; set_solver|done|]. rewrite foldl_app. cbn [foldl].
    pose proof (commit_tree_spec inputs Hcf Hef t (foldl (λ N t, (commit_tree t N).1.2) ∅ ts)) as H.
    cbn [mbind list_bind] in Hi. rewrite app_nil_r in Hi.
    destruct (commit_tree t _) as [[h N'] st]. cbn [fst snd]. destruct H as (_ & Hht & Hsub & HN'); [set_solver|exact Ht|exact HN|].
    split; [done|]. apply Forall_app. split; [|by apply Forall_singleton]. eapply Forall_impl; [exact Hh|]. intros u. by apply holds_mono.
Qed.

(** C31: Every committed version of the state can be read back.  Trees are committed one after
    another into one table, each writing only the nodes not there yet; from the root of
    any of them, newest or oldest, loading ends and gives back that very tree.  If nodes
    have since been lost, loading still ends, and gives that tree or
    reports failure, never another tree; all unless hashed inputs collide. *)
Theorem state_versions_survive ts t fuel :
  Forall smt_ok ts → Forall (λ t, values_fit (smt_root t)) ts →
  collision_free (trees_inputs ts) → empty_free (trees_inputs ts) → t ∈ ts → (LOAD_FUEL ≤ fuel)%nat →
  (∃ t', load_tree fuel (smt_root_hash t) (commit_all ts) = Some (Some t') ∧ smt_root t' = smt_root t)
  ∧ ∀ N : NodeTable, N ⊆ commit_all ts →
      ∃ r, load_tree fuel (smt_root_hash t) N = Some r ∧ ∀ t', r = Some t' → smt_root t' = smt_root t.
Proof.
  intros Hok Hfit Hcf Hef Ht Hf. destruct (commit_all_spec _ ts Hcf Hef ltac:(done) Hok) as [HN Hh].
  rewrite Forall_forall in Hok, Hfit, Hh.
  assert (link_inputs (smt_root t) ⊆ trees_inputs ts) as Hi by (intros x Hx; apply list_elem_of_bind; eauto).
  split.
  - destruct (load_tree_spec _ Hcf Hef (commit_all ts) t fuel) as (r & E & Hr & Hs'); [by eapply table_closed_sound|done|auto|done|].
    destruct (Hs' (Hh t Ht) (Hfit t Ht)) as [t' ->]. exists t'. auto.
  - intros N HNs. destruct (load_tree_spec _ Hcf Hef N t fuel) as (r & E & Hr & _); [by eapply table_closed_sound|done|auto|done|]. eauto.
Qed.

(** A table that was tampered with can keep the walk from ever ending: bytes are read
    without being hashed, so a node may name itself. *)
Theorem load_may_not_end h (r : Hash32) fuel :
  length h = 32%nat → length r = 32%nat → h ≠ EMPTY →
  load_tree fuel h ({[h := encode StoredNode_codec (NInternal h r)]} : NodeTable) = None.
Proof.
  intros Hh Hr Hne. unfold load_tree. enough (∀ out, collect fuel h ({[h := encode StoredNode_codec (NInternal h r)]} : NodeTable) out = None) as E by (by rewrite E).
  induction fuel as [|fuel IH]; intros out; [done|]. cbn [collect]. rewrite bool_decide_eq_false_2 by done.
  unfold get_node, table_source. rewrite lookup_singleton_eq, decode_exact_encode; [|apply _|by split]. by rewrite IH.
Qed.
End versions.
