(* ===== verification/ChainStore.v ===== *)
(** The durable chain store ([crates/store/src/lib.rs]) and the sink that fills it
    ([crates/daemon/src/chain.rs], [Published] and [Persist]).

    The database is redb, a library: a write transaction either commits whole or leaves
    the tables as they were.  Each writing operation takes what the database reports for
    its transaction ([io], [None] when it succeeds); reads are modelled on a database
    that answers, a failure to read being passed on as [SDatabase] by the code.  The
    state is a tree-backed store whose type carries the tree's invariant. *)

From S2P Require Import Prelude SortedVec Sorting Codec Primitives Crypto Smt Store Alias Validators Votes.
From S2P Require Import Tx Executor Block Genesis LightProofs StateNodes.

(** Which record, and what is wrong with it. *)
Inductive StoreRecord :=
| RecGenesis | RecHeight | RecBlock (h : Height) | RecCommit (h : Height) | RecReceipts (h : Height)
| RecTxIndex (id : Hash32) | RecTxLocation (id : Hash32) | RecHistory (a : Address).
Inductive CorruptReason :=
| NotDecoded (e : CodecError)
| ReceiptCount (txs receipts : nat)
| TooManyToIndex
| PointsAtMissing (h : Height)
| PointsPastEnd (index : Z) (h : Height)
| WrongLength (found : nat)
| WrongShape.

Inductive StoreError :=
| SDatabase (e : string)
| SCorrupt (what : StoreRecord) (reason : CorruptReason)
| NoGenesis
| MissingBlock (h : Height)
| SGenesis (e : GenesisError)
| StateDivergence (height : Height) (computed expected : Hash32).

(** The tables. *)
Record Database := {
  t_blocks : gmap Z bytes;
  t_commits : gmap Z bytes;
  t_receipts : gmap Z bytes;
  t_meta : gmap bytes bytes;
  t_nodes : gmap bytes bytes;
  t_location : gmap bytes bytes;
  t_by_address : gmap bytes bytes;
}.
Definition Database_new : Database := {|
  t_blocks := ∅; t_commits := ∅; t_receipts := ∅; t_meta := ∅; t_nodes := ∅; t_location := ∅; t_by_address := ∅ |}.

Definition KEY_GENESIS : bytes := bs "genesis".
Definition KEY_HEIGHT : bytes := bs "height".

(** [to_be_bytes] and [from_be_bytes]. *)
Definition to_be (n : nat) (x : Z) : bytes := rev (encode (uint_codec n) x).
Definition from_be (b : bytes) : Z := match decode (uint_codec (length b)) (rev b) with Ok (x, _) => x | Err _ => 0 end.

Definition tx_location (h : Height) (index : Z) : bytes := to_be 8 h ++ to_be 4 index.
Definition HISTORY_KEY_LEN : nat := ADDRESS_LEN + 8 + 4.
Definition history_key (a : Address) (h : Height) (index : Z) : bytes := a ++ to_be 8 h ++ to_be 4 index.

(** [slice::get] of a range. *)
Definition slice (b : bytes) (from to : nat) : option bytes :=
  if (to <=? length b)%nat then Some (take (to - from) (drop from b)) else None.

Section store.
Context {Hs : Hasher} {Sg : Signer} {Un : Unicode}.
#[local] Existing Instance tree_store.
#[local] Existing Instance tree_rooted.
Implicit Types (db : Database) (b : Block) (c : Commit) (rs : list TxReceipt) (io : option string).

Abbreviation D := (M Database StoreError).

(** A write transaction that computed its tables: it commits or it fails. *)
Definition transact io (f : Database → result StoreError Database) : D unit := λ db,
  match io with
  | Some e => (Err (SDatabase e), db)
  | None => match f db with Ok db' => (Ok tt, db') | Err e => (Err e, db) end
  end.

Definition put_genesis io (g : Genesis) : D unit :=
  transact io (λ db, Ok {|
    t_blocks := t_blocks db; t_commits := t_commits db; t_receipts := t_receipts db;
    t_meta := <[KEY_GENESIS := encode Genesis_codec g]> (t_meta db);
    t_nodes := t_nodes db; t_location := t_location db; t_by_address := t_by_address db |}).

(** A stored value, decoded. *)
Definition read_value {A} (cd : codec A) (what : StoreRecord) (raw : option bytes) : result StoreError (option A) :=
  match raw with
  | None => Ok None
  | Some v => match decode_exact cd v with Ok x => Ok (Some x) | Err e => Err (SCorrupt what (NotDecoded e)) end
  end.

Definition db_genesis db : result StoreError (option Genesis) := read_value Genesis_codec RecGenesis (t_meta db !! KEY_GENESIS).
Definition db_block db (h : Height) : result StoreError (option Block) := read_value Block_codec (RecBlock h) (t_blocks db !! h).
Definition db_commit db (h : Height) : result StoreError (option Commit) := read_value Commit_codec (RecCommit h) (t_commits db !! h).
Definition db_receipts db (h : Height) : result StoreError (option (list TxReceipt)) :=
  read_value (vec_codec TxReceipt_codec) (RecReceipts h) (t_receipts db !! h).
Definition db_height db : result StoreError Height :=
  match t_meta db !! KEY_HEIGHT with
  | None => Ok GENESIS
  | Some raw => map_err (λ e, SCorrupt RecHeight (NotDecoded e)) (decode_exact Height_codec raw)
  end.

(** The index loop of [put_block]: where each transaction is, and whom it touches. *)
Fixpoint index_txs (h : Height) (index : nat) (txs : list Transaction) (tables : gmap bytes bytes * gmap bytes bytes)
  : result StoreError (gmap bytes bytes * gmap bytes bytes) :=
  match txs with
  | [] => Ok tables
  | tx :: txs =>
      if u32_max <? Z.of_nat index then Err (SCorrupt (RecBlock h) TooManyToIndex) else
      let id := tx_id tx in
      let '(location, by_address) := tables in
      let location := <[id := tx_location h (Z.of_nat index)]> location in
      let by_address := foldl (λ m a, <[history_key a h (Z.of_nat index) := id]> m) by_address (touched_addresses tx) in
      index_txs h (S index) txs (location, by_address)
  end.

Definition put_block io b c rs : D unit := λ db,
  let h := h_height (b_header b) in
  if negb (length rs =? length (transactions b))%nat
  then (Err (SCorrupt (RecBlock h) (ReceiptCount (length (transactions b)) (length rs))), db)
  else transact io (λ db,
    '(location, by_address) ← index_txs h 0 (transactions b) (t_location db, t_by_address db);
    let current := match t_meta db !! KEY_HEIGHT with
                   | Some v => match decode_exact Height_codec v with Ok x => x | Err _ => GENESIS end
                   | None => GENESIS
                   end in
    Ok {| t_blocks := <[h := encode Block_codec b]> (t_blocks db);
          t_commits := <[h := encode Commit_codec c]> (t_commits db);
          t_receipts := <[h := encode (vec_codec TxReceipt_codec) rs]> (t_receipts db);
          t_meta := if current <=? h then <[KEY_HEIGHT := encode Height_codec h]> (t_meta db) else t_meta db;
          t_nodes := t_nodes db; t_location := location; t_by_address := by_address |}) db.

(** ** Lookups *)

Definition locate db (id : Hash32) : result StoreError (option (Height * Z)) :=
  match t_location db !! id with
  | None => Ok None
  | Some value =>
      match slice value 0 8, slice value 8 12 with
      | Some h, Some i => Ok (Some (from_be h, from_be i))
      | _, _ => Err (SCorrupt (RecTxLocation id) (WrongLength (length value)))
      end
  end.

Definition transaction db (id : Hash32) : result StoreError (option (Height * Z * Transaction)) :=
  loc ← locate db id;
  match loc with
  | None => Ok None
  | Some (h, index) =>
      blk ← db_block db h;
      match blk with
      | None => Err (SCorrupt (RecTxIndex id) (PointsAtMissing h))
      | Some b =>
          match transactions b !! Z.to_nat index with
          | None => Err (SCorrupt (RecTxIndex id) (PointsPastEnd index h))
          | Some tx => Ok (Some (h, index, tx))
          end
      end
  end.

(** [Table::range]: the entries of a key range, in key order. *)
Definition range (m : gmap bytes bytes) (start stop : bytes) : list (bytes * bytes) :=
  sort_by_key fst (filter (λ e, bytes_cmp start e.1 ≠ Gt ∧ bytes_cmp e.1 stop ≠ Gt) (map_to_list m)).

Definition history_row (a : Address) (e : bytes * bytes) : result StoreError (Height * Z * Hash32) :=
  match slice e.1 ADDRESS_LEN (ADDRESS_LEN + 8), slice e.1 (ADDRESS_LEN + 8) HISTORY_KEY_LEN with
  | Some h, Some i =>
      if (length e.2 =? 32)%nat then Ok (from_be h, from_be i, e.2) else Err (SCorrupt (RecHistory a) WrongShape)
  | _, _ => Err (SCorrupt (RecHistory a) WrongShape)
  end.

Fixpoint history_loop (a : Address) (limit : nat) (entries : list (bytes * bytes)) (out : list (Height * Z * Hash32))
  : result StoreError (list (Height * Z * Hash32) * bool) :=
  match entries with
  | [] => Ok (out, false)
  | e :: entries =>
      if (limit <=? length out)%nat then Ok (out, true) else
      row ← history_row a e;
      history_loop a limit entries (out ++ [row])
  end.
Definition db_history db (a : Address) (from : Height) (limit : nat) : result StoreError (list (Height * Z * Hash32) * bool) :=
  history_loop a limit (range (t_by_address db) (history_key a from 0) (history_key a u64_max u32_max)) [].

(** ** State *)

(** The sink over the [NODES] table: it keeps the first error a write reports. *)
Record TableSink := { ts_table : gmap bytes bytes; ts_failed : option string }.
Definition table_txn_sink (insert_error : bytes → bytes → option string) : NodeSink TableSink := {|
  has_node s h := has_node (ts_table s) h;
  put_node s h n :=
    match insert_error h (encode StoredNode_codec n) with
    | Some e => {| ts_table := ts_table s; ts_failed := match ts_failed s with None => Some e | Some e' => Some e' end |}
    | None => {| ts_table := put_node (ts_table s) h n; ts_failed := ts_failed s |}
    end |}.

Definition persist_state io (insert_error : bytes → bytes → option string) (s : TreeStore) : M Database StoreError (Hash32 * WriteStats) := λ db,
  let '(root, sink, stats) := commit_tree (H := table_txn_sink insert_error) (tree_of s) {| ts_table := t_nodes db; ts_failed := None |} in
  match ts_failed sink with
  | Some e => (Err (SDatabase e), db)
  | None =>
      match io with
      | Some e => (Err (SDatabase e), db)
      | None =>
          (Ok (root, stats),
           {| t_blocks := t_blocks db; t_commits := t_commits db; t_receipts := t_receipts db; t_meta := t_meta db;
              t_nodes := ts_table sink; t_location := t_location db; t_by_address := t_by_address db |})
      end
  end.

(** [MemoryStore::from_tree] of a loaded tree. *)
Definition from_tree (r : option (option SparseMerkleTree)) (ok : ∀ t, r = Some (Some t) → smt_ok t) : option (option TreeStore) :=
  match r return (∀ t, r = Some (Some t) → smt_ok t) → _ with
  | None => λ _, None
  | Some None => λ _, Some None
  | Some (Some t) => λ ok, Some (Some (t ↾ ok t eq_refl))
  end ok.
Definition load_state (fuel : nat) db (root : Hash32) : option (option TreeStore) :=
  from_tree (load_tree fuel root (t_nodes db)) (load_tree_ok fuel root (t_nodes db)).

Definition empty_state : TreeStore := smt_new ↾ smt_new_ok.

Fixpoint replay_loop (chain : ChainId) db (hs : list Z) (s : TreeStore) (tip : Block) : result StoreError (TreeStore * Block) :=
  match hs with
  | [] => Ok (s, tip)
  | h :: hs =>
      blk ← db_block db h;
      b ← ok_or (MissingBlock h) blk;
      let '(o, s) := execute_block chain {| ctx_height := h; ctx_time := h_time (b_header b) |} (transactions b) s in
      if negb (bool_decide (o_app_hash o = h_app_hash (b_header b)))
      then Err (StateDivergence h (o_app_hash o) (h_app_hash (b_header b)))
      else replay_loop chain db hs s b
  end.

Definition replay_chain db (limits : GenesisLimits) : result StoreError (TreeStore * Block) :=
  og ← db_genesis db;
  g ← ok_or NoGenesis og;
  match genesis_apply g limits empty_state with
  | (Err e, _) => Err (SGenesis e)
  | (Ok genesis_block, s) =>
      tip_height ← db_height db;
      replay_loop (g_chain_id g) db (seqZ 1 tip_height) s genesis_block
  end.

(** The outer [None] is a load that never ends. *)
Definition open_state (fuel : nat) db (limits : GenesisLimits) : option (result StoreError (TreeStore * Block * bool)) :=
  let repair := Some ('(s, tip) ← replay_chain db limits; Ok (s, tip, true)) in
  match db_height db with
  | Err e => Some (Err e)
  | Ok h =>
      if h =? GENESIS then repair else
      match db_block db h with
      | Err e => Some (Err e)
      | Ok None => repair
      | Ok (Some tip) =>
          match load_state fuel db (h_app_hash (b_header tip)) with
          | None => None
          | Some None => repair
          | Some (Some s) => if bool_decide (kv_root s = h_app_hash (b_header tip)) then Some (Ok (s, tip, false)) else repair
          end
      end
  end.

Definition tip_app_hash db : result StoreError (option Hash32) :=
  h ← db_height db;
  if h =? GENESIS then Ok None else
  blk ← db_block db h;
  Ok (option_map (λ b, h_app_hash (b_header b)) blk).

(** ** The daemon's sink *)

Record Published := { pub_state : TreeStore; pub_at : Height }.
Definition advance (h : Height) (s : TreeStore) (p : Published) : bool * Published :=
  if h <? pub_at p then (false, p) else (true, {| pub_state := s; pub_at := h |}).

Record Persist := { ps_store : Database; ps_state : Published; ps_failed : option StoreError }.

(** [Persist::committed]: the state, then the block, then the view; the first failure is
    kept and ends it. *)
Definition note_failure (e : StoreError) (p : Persist) : Persist :=
  {| ps_store := ps_store p; ps_state := ps_state p; ps_failed := match ps_failed p with None => Some e | Some e' => Some e' end |}.
Definition committed_sink io_state insert_error io_block b c rs (s : TreeStore) (p : Persist) : Persist :=
  match persist_state io_state insert_error s (ps_store p) with
  | (Err e, _) => note_failure e p
  | (Ok _, db) =>
      let p := {| ps_store := db; ps_state := ps_state p; ps_failed := ps_failed p |} in
      match put_block io_block b c rs db with
      | (Err e, _) => note_failure e p
      | (Ok _, db) => {| ps_store := db; ps_state := (advance (h_height (b_header b)) s (ps_state p)).2; ps_failed := ps_failed p |}
      end
  end.
End store.
