(* ===== verification/ChainStoreProofs.v ===== *)
(** What the durable store promises ([crates/store/src/lib.rs]): a block is stored whole
    or not at all, an account's history is listed in order and completely, and a restart
    finds the state the chain's execution left, whatever part of the state tree is on
    disk. *)

From S2P Require Import Prelude SortedVec Sorting Codec Primitives Crypto Smt Store Alias Validators Votes.
From S2P Require Import Tx Executor Block Genesis LightProofs StateNodes ChainStore.
From coqutil Require Import Word.LittleEndianList.

(** * Big-endian keys *)

Lemma to_be_S n x : to_be (S n) x = to_be n (x / 256) ++ [byte_of x].
Proof.
  unfold to_be, uint_codec. cbn [encode]. change (le_split (S n) x) with (byte_of x :: le_split n (Z.shiftr x 8)).
  by rewrite Z.shiftr_div_pow2 by lia.
Qed.

Lemma to_be_length n x : length (to_be n x) = n.
Proof. revert x. induction n as [|n IH]; intros x; [done|]. rewrite to_be_S, length_app, IH. simpl. lia. Qed.

Lemma from_to_be n x : 0 ≤ x < 2 ^ (8 * Z.of_nat n) → from_be (to_be n x) = x.
Proof.
  intros Hx. unfold from_be. rewrite to_be_length. unfold to_be. rewrite rev_involutive.
  pose proof (decode_encode (c := uint_codec n) x [] Hx) as E. rewrite app_nil_r in E. by rewrite E.
Qed.

Lemma bytes_cmp_app a b c d :
  length a = length c → bytes_cmp (a ++ b) (c ++ d) = match bytes_cmp a c with Eq => bytes_cmp b d | o => o end.
Proof.
  revert c. induction a as [|x a IH]; intros [|y c] Hl; try done. simpl. injection Hl as Hl.
  destruct (byte_val x ?= byte_val y); [by apply IH|done|done].
Qed.

(** Byte order on big-endian numbers is numeric order. *)
Lemma to_be_cmp n x y : 0 ≤ x < 2 ^ (8 * Z.of_nat n) → 0 ≤ y < 2 ^ (8 * Z.of_nat n) → bytes_cmp (to_be n x) (to_be n y) = (x ?= y).
Proof.
  revert x y. induction n as [|n IH]; intros x y Hx Hy; [symmetry; apply Z.compare_eq_iff; simpl in *; lia|].
  replace (8 * Z.of_nat (S n)) with (8 + 8 * Z.of_nat n) in Hx, Hy by lia. rewrite Z.pow_add_r in Hx, Hy by lia.
  rewrite !to_be_S, bytes_cmp_app by (by rewrite !to_be_length). change (2 ^ 8) with 256 in *.
  rewrite IH by (split; [apply Z.div_pos; lia|apply Z.div_lt_upper_bound; lia]).
  assert (∀ z, byte_val (byte_of z) = z mod 256) as Hb by (intros z; apply coqutil.Byte.byte.unsigned_of_Z).
  destruct (Z.compare_spec (x / 256) (y / 256)) as [E|E|E]; cbn [bytes_cmp]; rewrite ?Hb.
  - pose proof (Z.div_mod x 256 ltac:(lia)). pose proof (Z.div_mod y 256 ltac:(lia)).
    destruct (Z.compare_spec (x mod 256) (y mod 256)), (Z.compare_spec x y); try done; lia.
  - symmetry. apply Z.compare_lt_iff. Z.to_euclidean_division_equations. lia.
  - symmetry. apply Z.compare_gt_iff. Z.to_euclidean_division_equations. lia.
Qed.

(** * Tables filled by insertion *)

Definition ins_all {K V} `{Countable K} (l : list (K * V)) (m : gmap K V) : gmap K V := foldl (λ m p, <[p.1 := p.2]> m) m l.

Lemma ins_all_app {K V} `{Countable K} (l1 l2 : list (K * V)) m : ins_all (l1 ++ l2) m = ins_all l2 (ins_all l1 m).
Proof. apply foldl_app. Qed.

Lemma ins_all_last {K V} `{Countable K} (l : list (K * V)) k :
  ins_all l ∅ !! k = snd <$> last (filter (λ p, p.1 = k) l).
Proof.
  induction l as [|[k' v] l IH] using rev_ind; [done|]. rewrite ins_all_app, filter_app.
  change (ins_all [(k', v)] (ins_all l ∅)) with (<[k' := v]> (ins_all l ∅)). rewrite filter_cons, filter_nil. cbn [fst].
  destruct (decide (k' = k)) as [->|E].
  - by rewrite lookup_insert_eq, last_snoc.
  - by rewrite lookup_insert_ne, app_nil_r.
Qed.

(** When no key carries two values, the table is the list. *)
Lemma ins_all_functional {K V} `{Countable K} (l : list (K * V)) k v :
  (∀ k v v', (k, v) ∈ l → (k, v') ∈ l → v = v') → ins_all l ∅ !! k = Some v ↔ (k, v) ∈ l.
Proof.
  intros Hf. rewrite ins_all_last. split.
  - intros (p & Hp & ->)%fmap_Some. apply last_Some_elem_of, list_elem_of_filter in Hp as [<- Hp]. by destruct p.
  - intros Hin. destruct (last (filter (λ p, p.1 = k) l)) as [[k' v']|] eqn:E.
    + pose proof (last_Some_elem_of _ _ E) as [Hk Hin']%list_elem_of_filter. cbn in Hk. subst. cbn. f_equal. by eapply Hf.
    + apply last_None in E. assert ((k, v) ∈ filter (λ p, p.1 = k) l) as Hx by (by apply list_elem_of_filter). rewrite E in Hx. by apply not_elem_of_nil in Hx.
Qed.

Lemma StronglySorted_sublist {A} (R : A → A → Prop) (P : A → Prop) `{!∀ x, Decision (P x)} l :
  StronglySorted R l → StronglySorted R (filter P l).
Proof.
  induction 1 as [|x l Hl IH Hx]; [constructor|]. rewrite filter_cons. destruct (decide (P x)); [|done]. constructor; [done|].
  rewrite Forall_forall in Hx |- *. intros y [_ Hy]%list_elem_of_filter. auto.
Qed.

Lemma sort_by_key_unique {A} (key : A → bytes) l e :
  l ≡ₚ e → StronglySorted (key_lt key) e → sort_by_key key l = e.
Proof.
  intros Hp He. apply (strictly_sorted_unique key); [|done|by rewrite sort_by_key_perm].
  apply adjacent_dup_sorted; [apply sort_by_key_sorted|]. apply sorted_dup_iff. rewrite Hp.
  apply sorted_dup_iff. rewrite (sort_by_key_id key e He). by apply strictly_sorted_no_dup.
Qed.

(** * What a block adds to the indexes *)

Section indexing.
Context {Hs : Hasher} {Sg : Signer} {Un : Unicode}.
Implicit Types (txs : list Transaction) (h : Height) (n : nat) (a : Address).

(** Where each transaction of a block is, as [TX_LOCATION] keeps it. *)
Fixpoint placements h n txs : list (Hash32 * (Height * Z)) :=
  match txs with [] => [] | tx :: txs => (tx_id tx, (h, Z.of_nat n)) :: placements h (S n) txs end.

(** Whom each transaction touches, as [TX_BY_ADDRESS] keeps it. *)
Fixpoint touchings h n txs : list (bytes * Hash32) :=
  match txs with
  | [] => []
  | tx :: txs => ((λ a, (history_key a h (Z.of_nat n), tx_id tx)) <$> touched_addresses tx) ++ touchings h (S n) txs
  end.

(** An account's rows in a block. *)
Fixpoint tx_rows a h n txs : list (Height * Z * Hash32) :=
  match txs with
  | [] => []
  | tx :: txs => (if bool_decide (a ∈ touched_addresses tx) then [(h, Z.of_nat n, tx_id tx)] else []) ++ tx_rows a h (S n) txs
  end.

Lemma index_txs_Ok h n txs loc by_a :
  Z.of_nat (n + length txs) ≤ u32_max + 1 →
  index_txs h n txs (loc, by_a)
  = Ok (ins_all ((λ p, (p.1, tx_location p.2.1 p.2.2)) <$> placements h n txs) loc, ins_all (touchings h n txs) by_a).
Proof.
  revert n loc by_a. induction txs as [|tx txs IH]; intros n loc by_a Hn; [done|]. cbn [index_txs length] in *.
  destruct (Z.ltb_spec u32_max (Z.of_nat n)); [lia|]. rewrite IH by lia. cbn [placements touchings fmap list_fmap fst snd].
  rewrite ins_all_app. do 2 f_equal. f_equal. generalize (touched_addresses tx) as l. intros l. revert by_a. clear.
  induction l as [|a l IH]; intros by_a; [done|]. apply IH.
Qed.

Lemma elem_of_touchings h n txs k v :
  (k, v) ∈ touchings h n txs ↔ ∃ i tx a, txs !! i = Some tx ∧ a ∈ touched_addresses tx ∧ k = history_key a h (Z.of_nat (n + i)) ∧ v = tx_id tx.
Proof.
  revert n. induction txs as [|tx txs IH]; intros n; cbn [touchings].
  - rewrite elem_of_nil. split; [done|]. by intros (? & ? & ? & ? & _).
  - rewrite elem_of_app, IH, list_elem_of_fmap. split.
    + intros [(a & [= -> ->] & Ha)|(i & tx' & a & Hi & Ha & -> & ->)].
      * exists 0%nat, tx, a. by rewrite Nat.add_0_r.
      * exists (S i), tx', a. by rewrite Nat.add_succ_r.
    + intros ([|i] & tx' & a & Hi & Ha & -> & ->); simpl in Hi.
      * injection Hi as ->. left. exists a. by rewrite Nat.add_0_r.
      * right. exists i, tx', a. by rewrite Nat.add_succ_r.
Qed.

Lemma elem_of_tx_rows a h n txs h' j id :
  (h', j, id) ∈ tx_rows a h n txs ↔ ∃ i tx, txs !! i = Some tx ∧ a ∈ touched_addresses tx ∧ h' = h ∧ j = Z.of_nat (n + i) ∧ id = tx_id tx.
Proof.
  revert n. induction txs as [|tx txs IH]; intros n; cbn [tx_rows].
  - rewrite elem_of_nil. split; [done|]. by intros (? & ? & ? & _).
  - rewrite elem_of_app, IH. split.
    + intros [Hin|(i & tx' & Hi & Ha & -> & -> & ->)].
      * case_bool_decide; [|by apply elem_of_nil in Hin]. apply list_elem_of_singleton in Hin as [= -> -> ->].
        exists 0%nat, tx. by rewrite Nat.add_0_r.
      * exists (S i), tx'. by rewrite Nat.add_succ_r.
    + intros ([|i] & tx' & Hi & Ha & -> & -> & ->); simpl in Hi.
      * injection Hi as ->. left. rewrite bool_decide_eq_true_2 by done. rewrite Nat.add_0_r. by apply list_elem_of_singleton.
      * right. exists i, tx'. by rewrite Nat.add_succ_r.
Qed.

(** ** Order of rows and of keys *)

Definition row_lt (r1 r2 : Height * Z * Hash32) : Prop := r1.1.1 < r2.1.1 ∨ r1.1.1 = r2.1.1 ∧ r1.1.2 < r2.1.2.

Lemma tx_rows_sorted a h n txs : StronglySorted row_lt (tx_rows a h n txs).
Proof.
  revert n. induction txs as [|tx txs IH]; intros n; cbn [tx_rows]; [constructor|]. case_bool_decide; [|apply IH].
  cbn [app]. constructor; [apply IH|]. apply Forall_forall. intros [[h' j] id] (i & tx' & _ & _ & -> & -> & _)%elem_of_tx_rows.
  right. simpl. lia.
Qed.

Definition height_ok (h : Height) : Prop := 0 ≤ h ≤ u64_max.
Definition index_ok (i : Z) : Prop := 0 ≤ i ≤ u32_max.

Lemma history_key_cmp a1 h1 i1 a2 h2 i2 :
  length a1 = length a2 → height_ok h1 → height_ok h2 → index_ok i1 → index_ok i2 →
  bytes_cmp (history_key a1 h1 i1) (history_key a2 h2 i2)
  = match bytes_cmp a1 a2 with Eq => match h1 ?= h2 with Eq => i1 ?= i2 | o => o end | o => o end.
Proof.
  intros Ha H1 H2 I1 I2. unfold history_key, height_ok, index_ok, u64_max, u32_max in *.
  rewrite !bytes_cmp_app by (done || by rewrite !to_be_length).
  rewrite !to_be_cmp by (simpl; lia). done.
Qed.

Lemma history_key_inj a1 h1 i1 a2 h2 i2 :
  length a1 = length a2 → height_ok h1 → height_ok h2 → index_ok i1 → index_ok i2 →
  history_key a1 h1 i1 = history_key a2 h2 i2 → a1 = a2 ∧ h1 = h2 ∧ i1 = i2.
Proof.
  intros Ha H1 H2 I1 I2 E. apply bytes_cmp_eq in E. rewrite history_key_cmp in E by done.
  destruct (bytes_cmp a1 a2) eqn:Ea; try done. apply bytes_cmp_eq in Ea.
  destruct (Z.compare_spec h1 h2); try done. by apply Z.compare_eq in E.
Qed.

(** The key range of an account from a height on. *)
Lemma history_range a from a' h i :
  length a = length a' → height_ok from → height_ok h → index_ok i →
  bytes_cmp (history_key a from 0) (history_key a' h i) ≠ Gt ∧ bytes_cmp (history_key a' h i) (history_key a u64_max u32_max) ≠ Gt
  ↔ a' = a ∧ from ≤ h.
Proof.
  intros Ha Hf Hh Hi. assert (height_ok u64_max) by (unfold height_ok, u64_max; lia). assert (index_ok u32_max) by (unfold index_ok, u32_max; lia).
  assert (index_ok 0) by (unfold index_ok, u32_max; lia). rewrite !history_key_cmp by done.
  split.
  - rewrite (bytes_cmp_antisym a' a). destruct (bytes_cmp a' a) eqn:E; cbn [CompOpp]; [|by intros [? _]|by intros [_ ?]].
    apply bytes_cmp_eq in E. intros [Hlo _]. split; [done|]. destruct (Z.compare_spec from h); [lia|lia|done].
  - intros [-> Hle]. rewrite bytes_cmp_refl. unfold height_ok, index_ok in *.
    destruct (Z.compare_spec from h), (Z.compare_spec h u64_max), (Z.compare_spec i u32_max), (Z.compare_spec 0 i); split; (done || lia).
Qed.
End indexing.

(** * Blocks put one after another *)

Section stored.
Context {Hs : Hasher} {Sg : Signer} {Un : Unicode}.
Implicit Types (db : Database) (a : Address).

(** A block with its certificate and receipts, and what the database reports for the
    attempt to store it. *)
Abbreviation entry := (Block * Commit * list TxReceipt)%type.
Abbreviation attempt := (option string * entry)%type.
Definition e_block (e : entry) : Block := e.1.1.
Definition e_height (e : entry) : Height := h_height (b_header (e_block e)).

(** The database after the attempts, and the entries whose attempt succeeded. *)
Definition put_all (attempts : list attempt) (db : Database) : Database * list entry :=
  foldl (λ st at_,
    match put_block at_.1 at_.2.1.1 at_.2.1.2 at_.2.2 st.1 with
    | (Ok _, db) => (db, st.2 ++ [at_.2])
    | (Err _, db) => (db, st.2)
    end) (db, []) attempts.

Definition done_placements (es : list entry) : list (Hash32 * (Height * Z)) :=
  es ≫= λ e, placements (e_height e) 0 (transactions (e_block e)).
Definition done_touchings (es : list entry) : list (bytes * Hash32) :=
  es ≫= λ e, touchings (e_height e) 0 (transactions (e_block e)).
Definition account_rows a (es : list entry) : list (Height * Z * Hash32) :=
  es ≫= λ e, tx_rows a (e_height e) 0 (transactions (e_block e)).

(** Heights only grow. *)
Definition rising (es : list entry) : Prop := StronglySorted Z.lt (e_height <$> es).

(** What the tables hold when the entries have been stored. *)
Record tables_of (es : list entry) db0 db : Prop := {
  to_blocks : t_blocks db = ins_all ((λ e, (e_height e, encode Block_codec (e_block e))) <$> es) ∅;
  to_commits : t_commits db = ins_all ((λ e, (e_height e, encode Commit_codec e.1.2)) <$> es) ∅;
  to_receipts : t_receipts db = ins_all ((λ e, (e_height e, encode (vec_codec TxReceipt_codec) e.2)) <$> es) ∅;
  to_location : t_location db = ins_all ((λ p, (p.1, tx_location p.2.1 p.2.2)) <$> done_placements es) ∅;
  to_by_address : t_by_address db = ins_all (done_touchings es) ∅;
  to_genesis : t_meta db !! KEY_GENESIS = t_meta db0 !! KEY_GENESIS;
  to_height : rising es → Forall (λ e, height_ok (e_height e)) es → db_height db = Ok (default GENESIS (last (e_height <$> es)));
}.

(** A block that was indexed has no more transactions than its index can count. *)
Lemma index_txs_bound h n txs t r : Z.of_nat n ≤ u32_max + 1 → index_txs h n txs t = Ok r → Z.of_nat (n + length txs) ≤ u32_max + 1.
Proof.
  revert n t. induction txs as [|tx txs IH]; intros n [loc by_a] Hn; cbn [index_txs length]; [intros _; lia|].
  destruct (Z.ltb_spec u32_max (Z.of_nat n)); [done|]. intros Hi%IH; lia.
Qed.

(** The [META] table after a block. *)
Definition meta_after (h : Height) (m : gmap bytes bytes) : gmap bytes bytes :=
  let current := match m !! KEY_HEIGHT with
                 | Some v => match decode_exact Height_codec v with Ok x => x | Err _ => GENESIS end
                 | None => GENESIS
                 end in
  if current <=? h then <[KEY_HEIGHT := encode Height_codec h]> m else m.

Lemma put_block_Ok io b c rs db db' :
  put_block io b c rs db = (Ok tt, db') →
  io = None ∧ length rs = length (transactions b) ∧ Z.of_nat (length (transactions b)) ≤ u32_max + 1
  ∧ db' = {| t_blocks := <[h_height (b_header b) := encode Block_codec b]> (t_blocks db);
          t_commits := <[h_height (b_header b) := encode Commit_codec c]> (t_commits db);
          t_receipts := <[h_height (b_header b) := encode (vec_codec TxReceipt_codec) rs]> (t_receipts db);
          t_meta := meta_after (h_height (b_header b)) (t_meta db); t_nodes := t_nodes db;
          t_location := ins_all ((λ p, (p.1, tx_location p.2.1 p.2.2)) <$> placements (h_height (b_header b)) 0 (transactions b)) (t_location db);
          t_by_address := ins_all (touchings (h_height (b_header b)) 0 (transactions b)) (t_by_address db) |}.
Proof.
  unfold put_block. destruct (Nat.eqb_spec (length rs) (length (transactions b))) as [El|]; [|done]. cbn [negb]. unfold transact.
  destruct io; [done|]. intros H.
  assert (Z.of_nat (length (transactions b)) ≤ u32_max + 1) as Hn.
  { destruct (index_txs _ _ _ _) as [r|] eqn:E; [|done]. by apply index_txs_bound in E; [|unfold u32_max; lia]. }
  rewrite index_txs_Ok in H by (by rewrite Nat.add_0_l). cbn [mbind result_bind] in H. injection H as <-. done.
Qed.

Lemma put_block_Err io b c rs db e db' : put_block io b c rs db = (Err e, db') → db' = db.
Proof.
  unfold put_block, transact. destruct (negb _); [by intros [= _ <-]|]. destruct io; [by intros [= _ <-]|].
  destruct (index_txs _ _ _ _) as [[loc by_a]|]; cbn [mbind result_bind]; [done|by intros [= _ <-]].
Qed.

Lemma meta_after_genesis h m : meta_after h m !! KEY_GENESIS = m !! KEY_GENESIS.
Proof. unfold meta_after. cbv zeta. destruct (_ <=? h); [|done]. by rewrite lookup_insert_ne. Qed.

Lemma db_height_rise h db db' :
  t_meta db' = meta_after h (t_meta db) → (∃ cur, db_height db = Ok cur ∧ cur ≤ h) → height_ok h → db_height db' = Ok h.
Proof.
  intros Em (cur & Hc & Hle) Hh. unfold db_height in *. rewrite Em. unfold meta_after. cbv zeta.
  assert ((match t_meta db !! KEY_HEIGHT with
           | Some v => match decode_exact Height_codec v with Ok x => x | Err _ => GENESIS end | None => GENESIS end) = cur) as ->.
  { destruct (t_meta db !! KEY_HEIGHT) as [v|]; [|by injection Hc]. by destruct (decode_exact Height_codec v); [injection Hc|]. }
  destruct (Z.leb_spec cur h); [|lia]. rewrite lookup_insert_eq, decode_exact_encode; [done|apply _|].
  unfold height_ok, u64_max in Hh. split; simpl; lia.
Qed.

Lemma rising_snoc es e : rising (es ++ [e]) → rising es ∧ default GENESIS (last (e_height <$> es)) ≤ e_height e ∨ e_height e < 0.
Proof.
  unfold rising. rewrite fmap_app. intros H%StronglySorted_app. destruct H as (Hx & Hs1 & _).
  destruct (last (e_height <$> es)) as [x|] eqn:E.
  - left. split; [done|]. simpl. apply last_Some_elem_of in E. specialize (Hx x (e_height e) E ltac:(by left)). lia.
  - destruct (decide (e_height e < 0)); [by right|left]. split; [done|]. unfold GENESIS. simpl. lia.
Qed.

Lemma bind_singleton {A B} (f : A → list B) x : [x] ≫= f = f x.
Proof. apply app_nil_r. Qed.

Lemma put_block_tables es io e db0 db db' :
  tables_of es db0 db → put_block io (e_block e) e.1.2 e.2 db = (Ok tt, db') → tables_of (es ++ [e]) db0 db'.
Proof.
  intros [Eb Ec Er El Ea Eg Eh] (_ & _ & _ & ->)%put_block_Ok.
  split; cbn [t_blocks t_commits t_receipts t_location t_by_address t_nodes t_meta];
    unfold done_placements, done_touchings; rewrite ?fmap_app, ?bind_app, ?bind_singleton, ?fmap_app, ?ins_all_app.
  - by rewrite Eb.
  - by rewrite Ec.
  - by rewrite Er.
  - by rewrite El.
  - by rewrite Ea.
  - by rewrite meta_after_genesis.
  - intros Hr [Hok [He _]%Forall_cons]%Forall_app. cbn [fmap list_fmap]. rewrite last_snoc. cbn [default].
    destruct (rising_snoc es e Hr) as [[Hr' Hle]|]; [|unfold height_ok in He; lia].
    eapply db_height_rise; [reflexivity| |done]. eexists. split; [by apply Eh|done].
Qed.

Lemma put_all_spec attempts db0 :
  t_blocks db0 = ∅ → t_commits db0 = ∅ → t_receipts db0 = ∅ → t_location db0 = ∅ → t_by_address db0 = ∅ →
  t_meta db0 !! KEY_HEIGHT = None →
  let '(db, es) := put_all attempts db0 in
  tables_of es db0 db ∧ Forall (λ e, Z.of_nat (length (transactions (e_block e))) ≤ u32_max + 1) es.
Proof.
  intros E1 E2 E3 E4 E5 E6. unfold put_all. induction attempts as [|[io e] ats IH] using rev_ind.
  - cbn [foldl]. split; [|constructor]. split; try done. intros _ _. unfold db_height. by rewrite E6.
  - rewrite foldl_app. destruct (foldl _ (db0, []) ats) as [db es]. destruct IH as [IH Hn]. cbn [foldl fst snd].
    destruct (put_block io e.1.1 e.1.2 e.2 db) as [[[]|err] db'] eqn:E.
    + pose proof (put_block_Ok _ _ _ _ _ _ E) as (_ & _ & Hlen & _). split; [by eapply put_block_tables|].
      apply Forall_app. split; [done|by apply Forall_singleton].
    + apply put_block_Err in E as ->. done.
Qed.

(** ** Reading the history back *)

Definition to_entry a (r : Height * Z * Hash32) : bytes * bytes := (history_key a r.1.1 r.1.2, r.2).
Definition row_ok (r : Height * Z * Hash32) : Prop := height_ok r.1.1 ∧ index_ok r.1.2 ∧ length r.2 = 32%nat.

Lemma slice_middle (l m r : bytes) : slice (l ++ m ++ r) (length l) (length l + length m) = Some m.
Proof.
  unfold slice. rewrite !length_app. destruct (Nat.leb_spec (length l + length m) (length l + (length m + length r))); [|lia].
  rewrite drop_app_length. replace (length l + length m - length l)%nat with (length m) by lia. by rewrite take_app_length.
Qed.

Lemma history_row_entry a r : length a = ADDRESS_LEN → row_ok r → history_row a (to_entry a r) = Ok r.
Proof.
  destruct r as [[h i] id]. intros Ha (Hh & Hi & Hid). cbn [fst snd] in *. unfold history_row, to_entry, history_key. cbn [fst snd].
  pose proof (slice_middle a (to_be 8 h) (to_be 4 i)) as S1. pose proof (slice_middle (a ++ to_be 8 h) (to_be 4 i) []) as S2.
  rewrite app_nil_r, <- app_assoc in S2. rewrite length_app in S2. rewrite to_be_length, Ha in S1. rewrite !to_be_length, Ha in S2. rewrite S1.
  change HISTORY_KEY_LEN with (ADDRESS_LEN + 8 + 4)%nat. rewrite S2, Hid. cbn [Nat.eqb].
  unfold height_ok, index_ok, u64_max, u32_max in *. rewrite !from_to_be by (simpl; lia). done.
Qed.

Lemma history_loop_rows a limit rows out :
  length a = ADDRESS_LEN → Forall row_ok rows → (length out ≤ limit)%nat →
  history_loop a limit (to_entry a <$> rows) out = Ok (take limit (out ++ rows), (limit <? length (out ++ rows))%nat).
Proof.
  intros Ha Hrows. revert out. induction Hrows as [|r rows Hr Hrows IH]; intros out Hout; cbn [fmap list_fmap history_loop].
  - rewrite app_nil_r, take_ge by lia. by destruct (Nat.ltb_spec limit (length out)); [lia|].
  - destruct (Nat.leb_spec limit (length out)).
    + rewrite take_app_le, take_ge by lia. rewrite length_app. simpl. by destruct (Nat.ltb_spec limit (length out + S (length rows))); [|lia].
    + rewrite history_row_entry by done. cbn [mbind result_bind]. rewrite IH by (rewrite length_app; simpl; lia). by rewrite <- app_assoc.
Qed.

Definition entry_ok (e : entry) : Prop :=
  height_ok (e_height e)
  ∧ ∀ tx a, tx ∈ transactions (e_block e) → a ∈ touched_addresses tx → length a = ADDRESS_LEN.

Lemma account_rows_sorted a es : rising es → StronglySorted row_lt (account_rows a es).
Proof.
  unfold rising, account_rows. induction es as [|e es IH]; intros H; [constructor|]. apply StronglySorted_inv in H as [H Hlt].
  change ((e :: es) ≫= ?f) with (f e ++ (es ≫= f)). apply StronglySorted_app. split_and!; [|apply tx_rows_sorted|by apply IH].
  intros [[h1 i1] d1] [[h2 i2] d2] (i & tx & _ & _ & -> & _)%elem_of_tx_rows (e' & Hr & He')%list_elem_of_bind.
  apply elem_of_tx_rows in Hr as (j & tx' & _ & _ & -> & _). left. simpl. rewrite Forall_forall in Hlt.
  by apply Hlt, list_elem_of_fmap_2.
Qed.

Lemma elem_of_account_rows a es h j id :
  (h, j, id) ∈ account_rows a es ↔ ∃ e i tx, e ∈ es ∧ transactions (e_block e) !! i = Some tx ∧ a ∈ touched_addresses tx
    ∧ h = e_height e ∧ j = Z.of_nat i ∧ id = tx_id tx.
Proof.
  unfold account_rows. rewrite list_elem_of_bind. setoid_rewrite elem_of_tx_rows. naive_solver.
Qed.

Lemma elem_of_done_touchings es k v :
  (k, v) ∈ done_touchings es ↔ ∃ a r, r ∈ account_rows a es ∧ (k, v) = to_entry a r.
Proof.
  unfold done_touchings. rewrite list_elem_of_bind. setoid_rewrite elem_of_touchings. split.
  - intros (e & (i & tx & a & Hi & Ha & -> & ->) & He). exists a, (e_height e, Z.of_nat i, tx_id tx). split; [|done].
    apply elem_of_account_rows. by exists e, i, tx.
  - intros (a & [[h j] id] & (e & i & tx & He & Hi & Ha & -> & -> & ->)%elem_of_account_rows & [= -> ->]). exists e. split; [|done]. by exists i, tx, a.
Qed.

Lemma account_row_ok a es r :
  Forall entry_ok es → Forall (λ e, Z.of_nat (length (transactions (e_block e))) ≤ u32_max + 1) es → r ∈ account_rows a es →
  row_ok r ∧ length a = ADDRESS_LEN.
Proof.
  intros Hok Hn. destruct r as [[h j] id]. intros (e & i & tx & He & Hi & Ha & -> & -> & ->)%elem_of_account_rows.
  rewrite Forall_forall in Hok, Hn. destruct (Hok e He) as [Hh Haddr]. specialize (Hn e He). apply lookup_lt_Some in Hi as Hlt.
  split; [|by eapply Haddr; [eapply list_elem_of_lookup_2|]]. split_and!; [done| |apply hash_len]. unfold index_ok. simpl. lia.
Qed.

Lemma row_unique es r1 r2 : rising es →
  ∀ a1 a2, r1 ∈ account_rows a1 es → r2 ∈ account_rows a2 es → r1.1 = r2.1 → r1.2 = r2.2.
Proof.
  intros Hr a1 a2. destruct r1 as [[h1 j1] d1], r2 as [[h2 j2] d2].
  intros (e1 & i1 & t1 & He1 & Hi1 & _ & -> & -> & ->)%elem_of_account_rows (e2 & i2 & t2 & He2 & Hi2 & _ & -> & -> & ->)%elem_of_account_rows.
  simpl. intros [= Eh Ei%Nat2Z.inj]. subst i2. enough (e1 = e2) as -> by congruence.
  apply list_elem_of_lookup in He1 as [k1 H1], He2 as [k2 H2]. enough (k1 = k2) by congruence.
  assert (NoDup (e_height <$> es)) as Hnd.
  { unfold rising in Hr. clear - Hr. induction Hr as [|x l Hl IH Hx]; constructor; [|done]. intros Hin. rewrite Forall_forall in Hx. specialize (Hx x Hin). lia. }
  eapply NoDup_lookup; [exact Hnd|rewrite list_lookup_fmap, H1; reflexivity|rewrite list_lookup_fmap, H2; simpl; congruence].
Qed.

(** The key range read for an account from a height is its rows, in order. *)
Lemma range_rows es a from :
  rising es → Forall entry_ok es → Forall (λ e, Z.of_nat (length (transactions (e_block e))) ≤ u32_max + 1) es →
  length a = ADDRESS_LEN → height_ok from →
  range (ins_all (done_touchings es) ∅) (history_key a from 0) (history_key a u64_max u32_max)
  = to_entry a <$> filter (λ r, from ≤ r.1.1) (account_rows a es).
Proof.
  intros Hr Hok Hn Ha Hfrom. set (rows := filter _ _).
  assert (∀ a' r, r ∈ account_rows a' es → row_ok r ∧ length a' = ADDRESS_LEN) as Hrow by (intros a' r; by apply account_row_ok).
  assert (∀ r, r ∈ rows ↔ r ∈ account_rows a es ∧ from ≤ r.1.1) as Hin by (intros r; unfold rows; rewrite list_elem_of_filter; tauto).
  assert (∀ k v v', (k, v) ∈ done_touchings es → (k, v') ∈ done_touchings es → v = v') as Hfun.
  { intros k v v' (a1 & r1 & H1 & [= -> ->])%elem_of_done_touchings (a2 & r2 & H2 & [= E ->])%elem_of_done_touchings.
    destruct (Hrow _ _ H1) as [(? & ? & _) L1], (Hrow _ _ H2) as [(? & ? & _) L2].
    apply history_key_inj in E as (-> & Eh & Ei); [|congruence|done..]. eapply (row_unique es r1 r2 Hr); [done|done|].
    destruct r1 as [[] ?], r2 as [[] ?]. simpl in *. congruence. }
  assert (StronglySorted (key_lt fst) (to_entry a <$> rows)) as Hsorted.
  { assert (StronglySorted row_lt rows) as Hs' by (by apply StronglySorted_sublist, account_rows_sorted).
    assert (Forall row_ok rows) as Hrok by (apply Forall_forall; intros r [Hx _]%Hin; by apply (Hrow a)).
    clear -Hs' Hrok. induction Hs' as [|r rows Hl IH Hx]; [constructor|]. apply Forall_cons in Hrok as [Hr Hrok].
    cbn [fmap list_fmap]. constructor; [by apply IH|]. apply Forall_fmap. rewrite Forall_forall in Hx, Hrok |- *. intros r' Hr'. specialize (Hx r' Hr').
    destruct Hr as (? & ? & _), (Hrok r' Hr') as (? & ? & _). unfold key_lt, bytes_lt. simpl. rewrite history_key_cmp, bytes_cmp_refl by done.
    destruct Hx as [Hx|[Ex Hx]].
    - by apply Z.compare_lt_iff in Hx as ->.
    - apply Z.compare_eq_iff in Ex as ->. by apply Z.compare_lt_iff in Hx as ->. }
  apply sort_by_key_unique; [|done]. apply NoDup_Permutation.
  - apply NoDup_filter, NoDup_map_to_list.
  - by eapply strictly_sorted_NoDup.
  - intros [k v]. rewrite list_elem_of_filter, elem_of_map_to_list, ins_all_functional by done. cbn [fst].
    rewrite elem_of_done_touchings, list_elem_of_fmap. split.
    + intros [Hrange (a' & r & Hra & [= -> ->])]. destruct (Hrow _ _ Hra) as [(? & ? & _) L].
      apply history_range in Hrange as [-> Hle]; [|congruence|done..]. exists r. split; [done|]. by apply Hin.
    + intros (r & [= -> ->] & [Hra Hle]%Hin). destruct (Hrow _ _ Hra) as [(? & ? & _) _]. split; [|by exists a, r].
      by apply history_range.
Qed.

(** C24: An account's history is complete and in order.  Blocks are put one after another, any
    attempt failing at the database's whim; then, from any height and with any limit,
    the page returned is the first rows, as many as the limit allows, of the list of all
    stored transactions that touch the account, oldest first, and it is marked as
    cut short exactly when rows are left. *)
Theorem history_exact attempts a from limit :
  let '(db, es) := put_all attempts Database_new in
  rising es → Forall entry_ok es → length a = ADDRESS_LEN → height_ok from →
  let rows := filter (λ r, from ≤ r.1.1) (account_rows a es) in
  db_history db a from limit = Ok (take limit rows, (limit <? length rows)%nat).
Proof.
  pose proof (put_all_spec attempts Database_new ltac:(done) ltac:(done) ltac:(done) ltac:(done) ltac:(done) ltac:(done)) as H.
  destruct (put_all attempts Database_new) as [db es]. destruct H as [Ht Hn]. intros Hr Hok Ha Hfrom rows.
  unfold db_history. rewrite (to_by_address _ _ _ Ht), range_rows by done. fold rows.
  assert (Forall row_ok rows) by (apply Forall_forall; intros r [_ Hra]%list_elem_of_filter; by eapply account_row_ok).
  rewrite history_loop_rows by (done || simpl; lia). done.
Qed.

(** ** Reading blocks and transactions back *)

Lemma rising_heights es e1 e2 : rising es → e1 ∈ es → e2 ∈ es → e_height e1 = e_height e2 → e1 = e2.
Proof.
  unfold rising. intros Hr. induction es as [|e es IH]; [by intros ?%elem_of_nil|]. apply StronglySorted_inv in Hr as [Hr Hlt].
  rewrite Forall_forall in Hlt. intros [->|H1]%elem_of_cons [->|H2]%elem_of_cons E; [done| | |by apply IH].
  - specialize (Hlt (e_height e2) ltac:(by apply list_elem_of_fmap_2)). lia.
  - specialize (Hlt (e_height e1) ltac:(by apply list_elem_of_fmap_2)). lia.
Qed.

(** A table keyed by height gives back what each stored entry put there. *)
Lemma by_height_lookup {V} (f : entry → V) es h :
  rising es →
  (∀ e, e ∈ es → e_height e = h → ins_all ((λ e, (e_height e, f e)) <$> es) ∅ !! h = Some (f e))
  ∧ (h ∉ e_height <$> es → ins_all ((λ e, (e_height e, f e)) <$> es) ∅ !! h = None).
Proof.
  intros Hr. assert (∀ k v v', (k, v) ∈ (λ e, (e_height e, f e)) <$> es → (k, v') ∈ (λ e, (e_height e, f e)) <$> es → v = v') as Hfun.
  { intros k v v' (e1 & [= -> ->] & H1)%list_elem_of_fmap (e2 & [= E ->] & H2)%list_elem_of_fmap. by rewrite (rising_heights es e1 e2). }
  split.
  - intros e He <-. apply ins_all_functional; [done|]. by apply (list_elem_of_fmap_2 (λ e, (e_height e, f e))).
  - intros Hn. apply eq_None_not_Some. intros [v Hv%ins_all_functional]; [|done].
    apply list_elem_of_fmap in Hv as (e & [= -> _] & He). by apply Hn, list_elem_of_fmap_2.
Qed.

Lemma elem_of_placements h n txs p :
  p ∈ placements h n txs ↔ ∃ i tx, txs !! i = Some tx ∧ p = (tx_id tx, (h, Z.of_nat (n + i))).
Proof.
  revert n. induction txs as [|tx txs IH]; intros n; cbn [placements].
  - rewrite elem_of_nil. split; [done|]. by intros (? & ? & ? & _).
  - rewrite elem_of_cons, IH. split.
    + intros [->|(i & tx' & Hi & ->)]; [exists 0%nat, tx; by rewrite Nat.add_0_r|exists (S i), tx'; by rewrite Nat.add_succ_r].
    + intros ([|i] & tx' & Hi & ->); simpl in Hi; [injection Hi as ->; left; by rewrite Nat.add_0_r|].
      right. exists i, tx'. by rewrite Nat.add_succ_r.
Qed.

Lemma last_fmap {A B} (f : A → B) l : last (f <$> l) = f <$> last l.
Proof. induction l as [|x [|y l] IH]; [done|done|]. exact IH. Qed.

(** Where the newest inclusion of a transaction is. *)
Definition newest (id : Hash32) es : option (Height * Z) := snd <$> last (filter (λ p, p.1 = id) (done_placements es)).

Lemma newest_Some id es h i :
  newest id es = Some (h, i) →
  ∃ e n tx, e ∈ es ∧ h = e_height e ∧ i = Z.of_nat n ∧ transactions (e_block e) !! n = Some tx ∧ tx_id tx = id.
Proof.
  unfold newest. intros ([id' [h' i']] & Hl & [= -> ->])%fmap_Some.
  apply last_Some_elem_of, list_elem_of_filter in Hl as [<- Hl].
  unfold done_placements in Hl. apply list_elem_of_bind in Hl as (e & (n & tx & Hn & [= -> -> ->])%elem_of_placements & He).
  by exists e, n, tx.
Qed.

Lemma location_lookup (l : list (Hash32 * (Height * Z))) id :
  ins_all ((λ p, (p.1, tx_location p.2.1 p.2.2)) <$> l) ∅ !! id = (λ q, tx_location q.1 q.2) <$> (snd <$> last (filter (λ p, p.1 = id) l)).
Proof.
  rewrite ins_all_last.
  assert (filter (λ p, p.1 = id) ((λ p, (p.1, tx_location p.2.1 p.2.2)) <$> l)
          = (λ p, (p.1, tx_location p.2.1 p.2.2)) <$> filter (λ p, p.1 = id) l) as ->.
  { induction l as [|p l IH]; [done|]. rewrite fmap_cons, !filter_cons, IH. cbn [fst]. by case_decide. }
  rewrite last_fmap. by destruct (last _).
Qed.

Lemma tx_location_slices h i : slice (tx_location h i) 0 8 = Some (to_be 8 h) ∧ slice (tx_location h i) 8 12 = Some (to_be 4 i).
Proof.
  unfold tx_location. pose proof (slice_middle [] (to_be 8 h) (to_be 4 i)) as S1. pose proof (slice_middle (to_be 8 h) (to_be 4 i) []) as S2.
  rewrite app_nil_r in S2. rewrite !to_be_length in S2. cbn [app length Nat.add] in S1. rewrite to_be_length in S1. done.
Qed.

Lemma locate_newest es db0 db id :
  tables_of es db0 db → Forall entry_ok es → Forall (λ e, Z.of_nat (length (transactions (e_block e))) ≤ u32_max + 1) es →
  locate db id = Ok (newest id es).
Proof.
  intros Ht Hok Hn. unfold locate. rewrite (to_location _ _ _ Ht), location_lookup.
  change (snd <$> last (filter (λ p, p.1 = id) (done_placements es))) with (newest id es).
  destruct (newest id es) as [[h i]|] eqn:E; [|done]. cbn [fmap option_fmap option_map fst snd].
  destruct (tx_location_slices h i) as [-> ->]. apply newest_Some in E as (e & n & tx & He & -> & -> & Hi & _).
  rewrite Forall_forall in Hok, Hn. destruct (Hok e He) as [Hh _]. specialize (Hn e He). apply lookup_lt_Some in Hi.
  unfold height_ok, u64_max, u32_max in *. rewrite !from_to_be by (simpl; lia). done.
Qed.

Definition entry_wf (e : entry) : Prop :=
  entry_ok e ∧ wf Block_codec (e_block e) ∧ wf Commit_codec e.1.2 ∧ wf (vec_codec TxReceipt_codec) e.2.

Lemma stored_reads es db0 db e :
  tables_of es db0 db → rising es → Forall entry_wf es → e ∈ es →
  db_block db (e_height e) = Ok (Some (e_block e)) ∧ db_commit db (e_height e) = Ok (Some e.1.2)
  ∧ db_receipts db (e_height e) = Ok (Some e.2).
Proof.
  intros Ht Hr Hwf He. rewrite Forall_forall in Hwf. destruct (Hwf e He) as (_ & Hb & Hc & Hrs).
  unfold db_block, db_commit, db_receipts. rewrite (to_blocks _ _ _ Ht), (to_commits _ _ _ Ht), (to_receipts _ _ _ Ht).
  rewrite !(proj1 (by_height_lookup _ es (e_height e) Hr) e He eq_refl). cbn [read_value].
  by rewrite !decode_exact_encode by (done || apply _).
Qed.

(** What was stored is what is read.  Blocks are put one after another, any attempt failing
    at the database's whim; then every height stored gives back its block,
    its certificate and its receipts together, every other height gives none of the
    three, the height is the last one stored, and a transaction is found by its
    identifier exactly when a stored block holds it, at its newest place, with the
    transaction that is there. *)
Theorem stored_blocks_exact attempts :
  let '(db, es) := put_all attempts Database_new in
  rising es → Forall entry_wf es →
  db_height db = Ok (default GENESIS (last (e_height <$> es)))
  ∧ (∀ e, e ∈ es → db_block db (e_height e) = Ok (Some (e_block e)) ∧ db_commit db (e_height e) = Ok (Some e.1.2)
       ∧ db_receipts db (e_height e) = Ok (Some e.2))
  ∧ (∀ h, h ∉ e_height <$> es → db_block db h = Ok None ∧ db_commit db h = Ok None ∧ db_receipts db h = Ok None)
  ∧ ∀ id, match newest id es with
          | None => transaction db id = Ok None
          | Some (h, i) => ∃ e tx, e ∈ es ∧ e_height e = h ∧ transactions (e_block e) !! Z.to_nat i = Some tx ∧ tx_id tx = id
              ∧ transaction db id = Ok (Some (h, i, tx))
          end.
Proof.
  pose proof (put_all_spec attempts Database_new ltac:(done) ltac:(done) ltac:(done) ltac:(done) ltac:(done) ltac:(done)) as H.
  destruct (put_all attempts Database_new) as [db es]. destruct H as [Ht Hn]. intros Hr Hwf.
  assert (Forall entry_ok es) as Hok by (eapply Forall_impl; [exact Hwf|]; by intros e [? _]).
  pose proof (λ e, stored_reads _ _ _ e Ht Hr Hwf) as Hreads.
  split_and!.
  - apply (to_height _ _ _ Ht); [done|]. eapply Forall_impl; [exact Hok|]. by intros e [? _].
  - exact Hreads.
  - intros h Hh. unfold db_block, db_commit, db_receipts. rewrite (to_blocks _ _ _ Ht), (to_commits _ _ _ Ht), (to_receipts _ _ _ Ht).
    by rewrite !(proj2 (by_height_lookup _ es h Hr) Hh).
  - intros id. unfold transaction. rewrite (locate_newest es _ _ id Ht) by done. cbn [mbind result_bind].
    destruct (newest id es) as [[h i]|] eqn:E; [|done]. apply newest_Some in E as (e & n & tx & He & -> & -> & Hi & Hid).
    exists e, tx. destruct (Hreads e He) as [-> _]. cbn [mbind result_bind]. rewrite Nat2Z.id, Hi. done.
Qed.
End stored.

(** * Restarting *)

Section restart.
Context {Hs : Hasher} {Sg : Signer} {Un : Unicode}.
#[local] Existing Instance tree_store.
#[local] Existing Instance tree_rooted.
Implicit Types (db : Database) (s : TreeStore) (chain : ChainId).

(** A sink whose writes all succeeded has written what the plain table would hold. *)
Lemma put_node_sink err sk h n :
  let sk' := put_node (NodeSink := table_txn_sink err) sk h n in
  (is_Some (ts_failed sk) → is_Some (ts_failed sk')) ∧ (ts_failed sk' = None → ts_failed sk = None ∧ ts_table sk' = put_node (ts_table sk) h n).
Proof.
  cbn [put_node table_txn_sink]. destruct (err h _); cbn [ts_failed ts_table]; [|done].
  split; [by destruct (ts_failed sk)|by destruct (ts_failed sk)].
Qed.

Lemma write_node_sink err t sink stats :
  let '(h, sink', stats') := write_node (H := table_txn_sink err) t sink stats in
  ts_failed sink' = None → ts_failed sink = None ∧ write_node t (ts_table sink) stats = (h, ts_table sink', stats').
Proof.
  revert sink stats. induction t as [|k v h|l IHl r IHr h n]; intros sink stats; [done|..].
  - cbn [write_node]. change (has_node (NodeSink := table_txn_sink err) sink h) with (has_node (ts_table sink) h).
    destruct (has_node (ts_table sink) h); [done|]. intros [Hn ->]%put_node_sink. done.
  - cbn [write_node]. change (has_node (NodeSink := table_txn_sink err) sink h) with (has_node (ts_table sink) h).
    destruct (has_node (ts_table sink) h); [done|].
    specialize (IHl sink (count_visit stats)). destruct (write_node (H := table_txn_sink err) l sink _) as [[lh sk1] st1].
    specialize (IHr sk1 st1). destruct (write_node (H := table_txn_sink err) r sk1 _) as [[rh sk2] st2].
    intros [Hn ->]%put_node_sink. destruct (IHr Hn) as [Hn1 E1]. destruct (IHl Hn1) as [Hn0 E0]. split; [done|]. by rewrite E0, E1.
Qed.

Lemma persist_state_Ok io err s db r db' :
  persist_state io err s db = (Ok r, db') →
  t_nodes db' = (commit_tree (tree_of s) (t_nodes db)).1.2
  ∧ (t_blocks db', t_commits db', t_receipts db', t_meta db', t_location db', t_by_address db')
    = (t_blocks db, t_commits db, t_receipts db, t_meta db, t_location db, t_by_address db).
Proof.
  unfold persist_state, commit_tree.
  pose proof (write_node_sink err (smt_root (tree_of s)) {| ts_table := t_nodes db; ts_failed := None |} {| visited := 0; written := 0 |}) as H.
  destruct (write_node _ _ _) as [[h sk] st]. destruct (ts_failed sk) eqn:E; [done|]. destruct io; [done|]. intros [= <- <-].
  destruct (H eq_refl) as [_ Ew]. cbn [ts_table] in Ew. by rewrite Ew.
Qed.

Lemma persist_state_Err io err s db e db' : persist_state io err s db = (Err e, db') → db' = db.
Proof.
  unfold persist_state. destruct (commit_tree _ _) as [[h sk] st]. destruct (ts_failed sk); [by intros [= _ <-]|]. destruct io; [by intros [= _ <-]|done].
Qed.

(** ** A chain and its states *)

Definition next_state chain (h : Height) (b : Block) s : TreeStore :=
  (execute_block chain {| ctx_height := h; ctx_time := h_time (b_header b) |} (transactions b) s).2.
Fixpoint chain_states chain (h : Height) s (bs : list Block) : list TreeStore :=
  match bs with [] => [] | b :: bs => let s := next_state chain h b s in s :: chain_states chain (h + 1) s bs end.

(** Each header has its height and the root its execution gives. *)
Fixpoint headers_ok chain (h : Height) s (bs : list Block) : Prop :=
  match bs with
  | [] => True
  | b :: bs =>
      let s := next_state chain h b s in
      h_height (b_header b) = h ∧ h_app_hash (b_header b) = kv_root s ∧ headers_ok chain (h + 1) s bs
  end.

Lemma load_state_spec fuel db root : option_map (option_map tree_of) (load_state fuel db root) = load_tree fuel root (t_nodes db).
Proof. unfold load_state. generalize (load_tree_ok fuel root (t_nodes db)). by destruct (load_tree fuel root (t_nodes db)) as [[t|]|]. Qed.

(** Replaying the stored blocks reaches the state after them. *)
Lemma replay_loop_chain chain db h s tip bs :
  headers_ok chain h s bs → (∀ i b, bs !! i = Some b → db_block db (h + Z.of_nat i) = Ok (Some b)) →
  replay_loop chain db (seqZ h (Z.of_nat (length bs))) s tip
  = Ok (default s (last (chain_states chain h s bs)), default tip (last bs)).
Proof.
  revert h s tip. induction bs as [|b bs IH]; intros h s tip Hok Hdb; [done|]. destruct Hok as (Hh & Hroot & Hok).
  replace (seqZ h (Z.of_nat (length (b :: bs)))) with (h :: seqZ (h + 1) (Z.of_nat (length bs)))
    by (rewrite (seqZ_cons h) by (simpl; lia); f_equal; f_equal; simpl; lia).
  cbn [replay_loop]. pose proof (Hdb 0%nat b eq_refl) as Hb. rewrite Z.add_0_r in Hb. rewrite Hb. cbn [mbind result_bind ok_or].
  unfold next_state in *. unfold execute_block in *. destruct (execute_txs _ _ _ _) as [os s1] eqn:Ex. cbn [fst snd o_app_hash] in *.
  rewrite bool_decide_eq_true_2 by done. cbn [negb]. rewrite IH; [|done|].
  - cbn [chain_states]. unfold next_state, execute_block. rewrite Ex. cbn [snd]. rewrite !last_cons.
    by destruct (last (chain_states chain (h + 1) s1 bs)), (last bs).
  - intros i b' Hi. replace (h + 1 + Z.of_nat i) with (h + Z.of_nat (S i)) by lia. by apply Hdb.
Qed.

Lemma chain_heights chain h s es : headers_ok chain h s (e_block <$> es) → e_height <$> es = seqZ h (Z.of_nat (length es)).
Proof.
  revert h s. induction es as [|e es IH]; intros h s; [done|]. cbn [fmap list_fmap headers_ok]. intros (Hh & _ & Hok).
  rewrite (IH _ _ Hok), (seqZ_cons h) by (simpl; lia). f_equal; [exact Hh|]. f_equal; simpl; lia.
Qed.

Lemma seqZ_sorted h n : StronglySorted Z.lt (seqZ h n).
Proof.
  destruct (decide (n ≤ 0)); [rewrite seqZ_nil by lia; constructor|]. rewrite <- (Z2Nat.id n) by lia. generalize (Z.to_nat n) as k. clear. intros k. revert h.
  induction k as [|k IH]; intros h; [constructor|]. rewrite seqZ_cons by lia. replace (Z.pred (Z.of_nat (S k))) with (Z.of_nat k) by lia.
  constructor; [apply IH|]. apply Forall_forall. intros x Hx%elem_of_seqZ. lia.
Qed.

Lemma last_seqZ h n : (0 < n)%nat → last (seqZ h (Z.of_nat n)) = Some (h + Z.of_nat n - 1).
Proof.
  intros Hn. rewrite last_lookup, length_seqZ, Nat2Z.id. apply lookup_seqZ. lia.
Qed.

Lemma last_state_root chain h s bs s' b :
  headers_ok chain h s bs → last (chain_states chain h s bs) = Some s' → last bs = Some b → h_app_hash (b_header b) = kv_root s'.
Proof.
  revert h s. induction bs as [|b0 bs IH]; intros h s Hok; [done|]. destruct Hok as (_ & Hroot & Hok). cbn [chain_states]. rewrite !last_cons.
  destruct bs as [|b1 bs]; [by intros [= <-] [= <-]|]. intros Hst Hb. eapply IH; [exact Hok|..].
  - destruct (last (chain_states _ _ _ _)) eqn:E; [done|]. apply last_None in E. done.
  - destruct (last (b1 :: bs)) eqn:E; [done|]. apply last_None in E. done.
Qed.

Section recovery.
Context (g : Genesis) (limits : GenesisLimits) (gb : Block) (s0 : TreeStore).
Context (Happly : genesis_apply g limits empty_state = (Ok gb, s0)) (Hg : wf Genesis_codec g).
Context (inputs : list bytes) (Hcf : collision_free inputs) (Hef : empty_free inputs).

(** A database holding the genesis and a chain's blocks, and any sound part of the state
    tree's nodes, opens on the state after the last block. *)
Lemma open_state_recovers es db0 db fuel :
  tables_of es db0 db → t_meta db0 !! KEY_GENESIS = Some (encode Genesis_codec g) →
  headers_ok (g_chain_id g) 1 s0 (e_block <$> es) → Forall entry_wf es → table_sound inputs (t_nodes db) →
  Forall (λ s, link_inputs (smt_root (tree_of s)) ⊆ inputs) (chain_states (g_chain_id g) 1 s0 (e_block <$> es)) → (LOAD_FUEL ≤ fuel)%nat →
  db_height db = Ok (Z.of_nat (length es))
  ∧ ∃ s replayed, open_state fuel db limits = Some (Ok (s, default gb (last (e_block <$> es)), replayed))
    ∧ smt_root (tree_of s) = smt_root (tree_of (default s0 (last (chain_states (g_chain_id g) 1 s0 (e_block <$> es))))).
Proof.
  intros Ht Hgen Hok Hwf HN Hin Hfuel. set (bs := e_block <$> es) in *. set (sts := chain_states (g_chain_id g) 1 s0 bs) in *.
  pose proof (chain_heights _ _ _ _ Hok) as Hhs. assert (rising es) as Hr by (unfold rising; rewrite Hhs; apply seqZ_sorted).
  assert (db_height db = Ok (Z.of_nat (length es))) as Hheight.
  { rewrite (to_height _ _ _ Ht Hr) by (eapply Forall_impl; [exact Hwf|]; by intros e [[? _] _]). rewrite Hhs.
    destruct es as [|e es']; [done|]. rewrite last_seqZ by (simpl; lia). cbn [default from_option]. f_equal. unfold id. lia. }
  split; [done|].
  assert (∀ i b, bs !! i = Some b → db_block db (1 + Z.of_nat i) = Ok (Some b)) as Hblocks.
  { intros i b Hi. unfold bs in Hi. rewrite list_lookup_fmap in Hi. destruct (es !! i) as [e|] eqn:Ei; [|done]. injection Hi as <-.
    assert (e_height e = 1 + Z.of_nat i) as <-.
    { assert ((e_height <$> es) !! i = Some (e_height e)) as Hx by (by rewrite list_lookup_fmap, Ei).
      rewrite Hhs in Hx. apply lookup_seqZ in Hx. lia. }
    assert (e ∈ es) as He by (by eapply list_elem_of_lookup_2). rewrite Forall_forall in Hwf. destruct (Hwf e He) as (_ & Hb & _).
    unfold db_block. rewrite (to_blocks _ _ _ Ht), (proj1 (by_height_lookup _ es (e_height e) Hr) e He eq_refl). cbn [read_value].
    by rewrite decode_exact_encode by (done || apply _). }
  assert (replay_chain db limits = Ok (default s0 (last sts), default gb (last bs))) as Hreplay.
  { unfold replay_chain, db_genesis. rewrite (to_genesis _ _ _ Ht), Hgen. cbn [read_value]. rewrite decode_exact_encode by (done || apply _).
    cbn [mbind result_bind ok_or]. rewrite Happly, Hheight. cbn [mbind result_bind].
    replace (length es) with (length bs) by (unfold bs; by rewrite length_fmap). by apply replay_loop_chain. }
  unfold open_state. rewrite Hheight, Hreplay. cbn [mbind result_bind].
  destruct (Z.eqb_spec (Z.of_nat (length es)) GENESIS) as [E|E]; [by eexists _, _|].
  destruct (last bs) as [tip|] eqn:Etip.
  2:{ apply last_None in Etip. destruct es; [done|]. by unfold bs in Etip. }
  assert (db_block db (Z.of_nat (length es)) = Ok (Some tip)) as ->.
  { rewrite last_lookup in Etip. apply Hblocks in Etip. rewrite <- Etip. f_equal. unfold bs. rewrite length_fmap. unfold GENESIS in E. lia. }
  destruct (last sts) as [sn|] eqn:Esn.
  2:{ apply last_None in Esn. unfold sts in Esn. by destruct bs. }
  pose proof (last_state_root _ _ _ _ _ _ Hok Esn Etip) as Hroot. rewrite Hroot.
  pose proof (load_state_spec fuel db (kv_root sn)) as Hl.
  destruct (load_tree_spec inputs Hcf Hef (t_nodes db) (tree_of sn) fuel HN) as (r & El & Heq & _); [|by destruct sn|done|].
  { rewrite Forall_forall in Hin. apply Hin. by apply last_Some_elem_of. }
  change (kv_root sn) with (smt_root_hash (tree_of sn)) in *. rewrite El in Hl.
  destruct (load_state _ _ _) as [[s|]|]; [|by eexists _, _|by destruct r].
  injection Hl as <-. cbn [option_map] in *. specialize (Heq _ eq_refl). rewrite bool_decide_eq_true_2; [by eexists _, _|].
  change (kv_root s) with (smt_root_hash (tree_of s)). unfold smt_root_hash. by rewrite Heq.
Qed.

(** ** The daemon's run *)

(** What the database reports for a block's two transactions and for each node insert. *)
Record faults := { f_state : option string; f_insert : bytes → bytes → option string; f_block : option string }.

(** Blocks handed to the sink in order, with the states their execution leaves; the daemon
    stops at the first failure. *)
Fixpoint sink_run chain (h : Height) s (l : list (faults * (Block * Commit * list TxReceipt))) (p : Persist) : Persist :=
  match l with
  | [] => p
  | (f, e) :: l =>
      let s := next_state chain h (e_block e) s in
      let p := committed_sink (f_state f) (f_insert f) (f_block f) (e_block e) e.1.2 e.2 s p in
      match ps_failed p with Some _ => p | None => sink_run chain (h + 1) s l p end
  end.

Lemma tables_of_meta es db0 db db' :
  (t_blocks db', t_commits db', t_receipts db', t_meta db', t_location db', t_by_address db')
  = (t_blocks db, t_commits db, t_receipts db, t_meta db, t_location db, t_by_address db) →
  tables_of es db0 db → tables_of es db0 db'.
Proof.
  intros E [H1 H2 H3 H4 H5 H6 H7]. injection E as E1 E2 E3 E4 E5 E6.
  split; rewrite ?E1, ?E2, ?E3, ?E4, ?E5, ?E6; [done..|]. unfold db_height in *. by rewrite E4.
Qed.

Lemma persist_closed io err s db r db' :
  link_inputs (smt_root (tree_of s)) ⊆ inputs → table_closed inputs (t_nodes db) → persist_state io err s db = (Ok r, db') →
  table_closed inputs (t_nodes db').
Proof.
  intros Hi HN [-> _]%persist_state_Ok. pose proof (commit_tree_spec inputs Hcf Hef (tree_of s) (t_nodes db) Hi (proj2_sig s) HN) as H.
  destruct (commit_tree _ _) as [[h N'] st]. by destruct H as (_ & _ & _ & ?).
Qed.

(** One block through the sink: it is stored, or the failure is kept. *)
Lemma committed_sink_spec f e s p es db0 :
  ps_failed p = None → tables_of es db0 (ps_store p) → table_closed inputs (t_nodes (ps_store p)) → link_inputs (smt_root (tree_of s)) ⊆ inputs →
  let p' := committed_sink (f_state f) (f_insert f) (f_block f) (e_block e) e.1.2 e.2 s p in
  table_closed inputs (t_nodes (ps_store p'))
  ∧ (ps_failed p' = None ∧ tables_of (es ++ [e]) db0 (ps_store p') ∨ is_Some (ps_failed p') ∧ tables_of es db0 (ps_store p')).
Proof.
  intros Hf Ht HN Hi. cbv zeta. unfold committed_sink, note_failure.
  destruct (persist_state (f_state f) (f_insert f) s (ps_store p)) as [[r|err] db1] eqn:E1.
  - pose proof (persist_closed _ _ _ _ _ _ Hi HN E1) as HN1. apply persist_state_Ok in E1 as [_ E1]. apply (tables_of_meta es db0) in E1; [|done].
    destruct (put_block (f_block f) (e_block e) e.1.2 e.2 db1) as [[[]|err] db2] eqn:E2; cbn [ps_failed ps_store ps_state]; rewrite Hf.
    + assert (t_nodes db2 = t_nodes db1) as En by (by apply put_block_Ok in E2 as (_ & _ & _ & ->)).
      apply (put_block_tables es _ e db0) in E2; [|done]. rewrite En. split; [done|]. by left.
    + split; [done|]. right. split; [by eexists|done].
  - cbn [ps_failed ps_store]. rewrite Hf. split; [done|]. right. split; [by eexists|done].
Qed.

Lemma sink_run_spec chain h s l p es db0 :
  ps_failed p = None → tables_of es db0 (ps_store p) → table_closed inputs (t_nodes (ps_store p)) →
  Forall (λ s, link_inputs (smt_root (tree_of s)) ⊆ inputs) (chain_states chain h s (e_block <$> l.*2)) →
  ∃ k, (k ≤ length l)%nat ∧ (ps_failed (sink_run chain h s l p) = None → k = length l)
  ∧ tables_of (es ++ take k l.*2) db0 (ps_store (sink_run chain h s l p)) ∧ table_closed inputs (t_nodes (ps_store (sink_run chain h s l p))).
Proof.
  revert h s p es. induction l as [|[f e] l IH]; intros h s p es Hf Ht HN Hin.
  { exists 0%nat. rewrite take_0, app_nil_r. done. }
  cbn [fmap list_fmap snd chain_states] in Hin. apply Forall_cons in Hin as [Hi Hin]. cbn [sink_run].
  set (s1 := next_state chain h (e_block e) s) in *.
  pose proof (committed_sink_spec f e s1 p es db0 Hf Ht HN Hi) as H. cbv zeta in H.
  destruct (committed_sink _ _ _ _ _ _ s1 p) as [db1 pub1 failed1]. cbn [ps_failed ps_store] in *.
  destruct H as [HN1 [[-> Ht1]|[[err ->] Ht1]]].
  - destruct (IH (h + 1) s1 {| ps_store := db1; ps_state := pub1; ps_failed := None |} (es ++ [e])) as (k & Hk & Hk' & Ht' & HN'); [done..|].
    exists (S k). cbn [fmap list_fmap snd length take]. rewrite cons_middle, app_assoc. split_and!; [lia|intros; f_equal; by apply Hk'|exact Ht'|exact HN'].
  - exists 0%nat. rewrite take_0, app_nil_r. cbn [ps_failed ps_store]. split_and!; [lia|done|done|done].
Qed.
End recovery.

Lemma chain_ok_take chain h s bs k : headers_ok chain h s bs → headers_ok chain h s (take k bs).
Proof.
  revert h s k. induction bs as [|b bs IH]; intros h s [|k]; [done..|]. intros (? & ? & ?). cbn [take headers_ok]. split_and!; [done|done|by apply IH].
Qed.

Lemma chain_states_take chain h s bs k : chain_states chain h s (take k bs) = take k (chain_states chain h s bs).
Proof. revert h s k. induction bs as [|b bs IH]; intros h s [|k]; [done..|]. cbn [take chain_states]. by rewrite IH. Qed.

(** The database with the node table replaced. *)
Definition with_nodes (N : gmap bytes bytes) db : Database := {|
  t_blocks := t_blocks db; t_commits := t_commits db; t_receipts := t_receipts db; t_meta := t_meta db; t_nodes := N;
  t_location := t_location db; t_by_address := t_by_address db |}.

(** C9: A restart never forgets a block nor invents a state.  The daemon stores its genesis and
    then the blocks of a chain, each with the state its execution left, stopping at the
    first write the database refuses, wherever that is.  Whatever nodes of the state tree
    are lost before the restart, all of them included, opening the store ends, on the
    last block stored and on exactly the state of the chain's execution
    up to it; unless hashed inputs collide. *)
Theorem restart_recovers g limits gb s0 l pub fuel N :
  genesis_apply g limits empty_state = (Ok gb, s0) → wf Genesis_codec g →
  let chain := g_chain_id g in
  let blocks := e_block <$> l.*2 in
  let states := chain_states chain 1 s0 blocks in
  headers_ok chain 1 s0 blocks → Forall entry_wf l.*2 →
  collision_free (trees_inputs (tree_of <$> states)) → empty_free (trees_inputs (tree_of <$> states)) →
  let p := sink_run chain 1 s0 l {| ps_store := (put_genesis None g Database_new).2; ps_state := pub; ps_failed := None |} in
  N ⊆ t_nodes (ps_store p) → (LOAD_FUEL ≤ fuel)%nat →
  ∃ k s replayed, (k ≤ length l)%nat ∧ (ps_failed p = None → k = length l)
  ∧ db_height (ps_store p) = Ok (Z.of_nat k)
  ∧ open_state fuel (with_nodes N (ps_store p)) limits = Some (Ok (s, default gb (last (take k blocks)), replayed))
  ∧ smt_root (tree_of s) = smt_root (tree_of (default s0 (last (take k states)))).
Proof.
  intros Happly Hg chain blocks states Hok Hwf Hcf Hef p HN Hfuel. set (inputs := trees_inputs (tree_of <$> states)) in *.
  assert (Forall (λ s, link_inputs (smt_root (tree_of s)) ⊆ inputs) states) as Hin.
  { apply Forall_forall. intros s Hst x Hx. unfold inputs, trees_inputs. apply list_elem_of_bind. exists (tree_of s). split; [done|]. by apply list_elem_of_fmap_2. }
  set (db0 := (put_genesis None g Database_new).2) in *.
  destruct (sink_run_spec inputs Hcf Hef chain 1 s0 l {| ps_store := db0; ps_state := pub; ps_failed := None |} [] db0)
    as (k & Hk & Hk' & Ht & Hclosed); [done| | |done|].
  { split; try done. }
  { intros h Hh. cbn in Hh. rewrite lookup_empty in Hh. by destruct Hh. }
  fold p in Hk', Ht, Hclosed. cbn [app] in Ht.
  destruct (open_state_recovers g limits gb s0 Happly Hg inputs Hcf Hef (take k l.*2) db0 (with_nodes N (ps_store p)) fuel)
    as (Hh & s & rp & Ho & Es).
  - by eapply tables_of_meta; [|exact Ht].
  - unfold db0, put_genesis, transact. cbn [snd t_meta]. apply lookup_insert_eq.
  - rewrite fmap_take. by apply chain_ok_take.
  - by apply Forall_take.
  - by eapply table_closed_sound.
  - rewrite fmap_take, chain_states_take. by apply Forall_take.
  - done.
  - rewrite fmap_take, chain_states_take in *. exists k, s, rp. split_and!; [done|done| |done|done].
    etrans; [exact Hh|]. do 2 f_equal. rewrite length_take, length_fmap. lia.
Qed.
End restart.
