(* ===== verification/Rpc.v ===== *)
(** Proof-carrying queries ([crates/rpc]): what a wallet may ask, what a node answers with,
    the wallet's checks, and the walk of an account's history.  [ChainView] is the
    interface the answers are computed from; [served_chain] is the durable store's
    implementation of it ([crates/store/src/serve.rs]) and [live_chain] the running
    daemon's ([crates/daemon/src/chain.rs]). *)

From S2P Require Import Prelude SortedVec Codec Primitives Crypto Merkle Smt Store Account Bank Alias AliasProofs Validators Votes.
From S2P Require Import Tx Executor Block Light LightProofs Genesis StateNodes ChainStore.

(** * Questions and answers ([query.rs]) *)

(** The detail of a backend failure is text for a log. *)
Inductive QueryError :=
| NoSuchHeight (h : Height)
| NoCommit (h : Height)
| NoSuchTransaction (id : Hash32)
| NotIndexed (what : string)
| Backend (detail : string).

Inductive Query :=
| QStatus
| QHeader (height : Height)
| QBalance (address : Address) (denom : Denom)
| QAccount (address : Address)
| QSupply (denom : Denom)
| QIssuer (denom : Denom)
| QFrozen (denom : Denom) (address : Address)
| QResolveName (name : Username)
| QResolveContact (commitment : ContactCommitment)
| QPrimaryAlias (address : Address)
| QBlock (height : Height)
| QTransaction (id : Hash32)
| QHistory (address : Address) (from : Height) (limit : Z).

Definition MAX_HISTORY : Z := 200.

Definition store_key (q : Query) : option StoreKey :=
  match q with
  | QStatus | QHeader _ | QBlock _ | QTransaction _ | QHistory _ _ _ => None
  | QBalance address denom => Some (key_balance address denom)
  | QAccount address => Some (Store.key_account address)
  | QSupply denom => Some (key_supply denom)
  | QIssuer denom => Some (key_issuer denom)
  | QFrozen denom address => Some (key_frozen denom address)
  | QResolveName name => Some (key_alias name)
  | QResolveContact commitment => Some (key_contact commitment)
  | QPrimaryAlias address => Some (key_alias_reverse address)
  end.

Record SignedHeader := { sh_header : BlockHeader; sh_commit : Commit }.
Record NodeStatus := { st_chain_id : ChainId; st_tip : SignedHeader }.
Record ProvedValue := { pv_height : Height; pv_value : option bytes; pv_proof : SmtProof }.
Record ProvedTransaction := {
  pt_height : Height;
  pt_index : Z;
  pt_total : Z;
  pt_transaction : Transaction;
  pt_siblings : list Hash32;
  pt_receipt : TxReceipt;
  pt_receipt_siblings : list Hash32;
}.
Record HistoryEntry := { he_height : Height; he_index : Z; he_tx_id : Hash32 }.
Record HistoryAnswer := { ha_address : Address; ha_entries : list HistoryEntry; ha_truncated : bool }.

Inductive Response :=
| RStatus (s : NodeStatus)
| RHeader (h : SignedHeader)
| RValue (v : ProvedValue)
| RBlock (b : Block)
| RTransaction (p : ProvedTransaction)
| RHistory (h : HistoryAnswer).

(** ** Wire forms *)

Section wire.
Context {Hs : Hasher} {Sg : Signer} {Un : Unicode}.

Definition Query_codec : codec Query :=
  tag_codec "Query"
    (λ q, match q with
          | QStatus => 0 | QHeader _ => 1 | QBalance _ _ => 2 | QAccount _ => 3 | QSupply _ => 4 | QIssuer _ => 5
          | QFrozen _ _ => 6 | QResolveName _ => 7 | QResolveContact _ => 8 | QPrimaryAlias _ => 9 | QBlock _ => 10
          | QTransaction _ => 11 | QHistory _ _ _ => 12
          end)
    (λ t, match t with
          | 0 => Some (unit_codec QStatus)
          | 1 => Some (variant_codec QHeader (λ q, match q with QHeader h => Some h | _ => None end) Height_codec)
          | 2 => Some (variant_codec (λ '(a, d), QBalance a d)
                         (λ q, match q with QBalance a d => Some (a, d) | _ => None end) (Address_codec ⊗ Denom_codec))
          | 3 => Some (variant_codec QAccount (λ q, match q with QAccount a => Some a | _ => None end) Address_codec)
          | 4 => Some (variant_codec QSupply (λ q, match q with QSupply d => Some d | _ => None end) Denom_codec)
          | 5 => Some (variant_codec QIssuer (λ q, match q with QIssuer d => Some d | _ => None end) Denom_codec)
          | 6 => Some (variant_codec (λ '(d, a), QFrozen d a)
                         (λ q, match q with QFrozen d a => Some (d, a) | _ => None end) (Denom_codec ⊗ Address_codec))
          | 7 => Some (variant_codec QResolveName (λ q, match q with QResolveName n => Some n | _ => None end) Username_codec)
          | 8 => Some (variant_codec QResolveContact (λ q, match q with QResolveContact c => Some c | _ => None end)
                         ContactCommitment_codec)
          | 9 => Some (variant_codec QPrimaryAlias (λ q, match q with QPrimaryAlias a => Some a | _ => None end) Address_codec)
          | 10 => Some (variant_codec QBlock (λ q, match q with QBlock h => Some h | _ => None end) Height_codec)
          | 11 => Some (variant_codec QTransaction (λ q, match q with QTransaction i => Some i | _ => None end) Hash32_codec)
          | 12 => Some (variant_codec (λ '(a, (f, l)), QHistory a f l)
                          (λ q, match q with QHistory a f l => Some (a, (f, l)) | _ => None end)
                          (Address_codec ⊗ Height_codec ⊗ u32_codec))
          | _ => None
          end).
#[export] Instance Query_lawful : Lawful Query_codec.
Proof. apply tag_lawful; [intros []; lia|tag_cases]. Qed.

Definition SignedHeader_codec : codec SignedHeader :=
  iso_codec (λ '(h, c), {| sh_header := h; sh_commit := c |}) (λ h, (sh_header h, sh_commit h)) (BlockHeader_codec ⊗ Commit_codec).
#[export] Instance SignedHeader_lawful : Lawful SignedHeader_codec.
Proof. unfold SignedHeader_codec. struct_lawful. Qed.

Definition NodeStatus_codec : codec NodeStatus :=
  iso_codec (λ '(c, t), {| st_chain_id := c; st_tip := t |}) (λ s, (st_chain_id s, st_tip s)) (ChainId_codec ⊗ SignedHeader_codec).
#[export] Instance NodeStatus_lawful : Lawful NodeStatus_codec.
Proof. unfold NodeStatus_codec. struct_lawful. Qed.

Definition ProvedValue_codec : codec ProvedValue :=
  iso_codec (λ '(h, (v, p)), {| pv_height := h; pv_value := v; pv_proof := p |}) (λ v, (pv_height v, (pv_value v, pv_proof v)))
    (Height_codec ⊗ option_codec bytes_codec ⊗ Proof_codec).
#[export] Instance ProvedValue_lawful : Lawful ProvedValue_codec.
Proof. unfold ProvedValue_codec. struct_lawful. Qed.

Definition ProvedTransaction_codec : codec ProvedTransaction :=
  iso_codec
    (λ '(h, (i, (n, (t, (s, (r, rs)))))),
       {| pt_height := h; pt_index := i; pt_total := n; pt_transaction := t; pt_siblings := s; pt_receipt := r;
          pt_receipt_siblings := rs |})
    (λ p, (pt_height p, (pt_index p, (pt_total p, (pt_transaction p, (pt_siblings p, (pt_receipt p, pt_receipt_siblings p)))))))
    (Height_codec ⊗ u32_codec ⊗ u32_codec ⊗ Transaction_codec ⊗ vec_codec Hash32_codec ⊗ TxReceipt_codec ⊗ vec_codec Hash32_codec).
#[export] Instance ProvedTransaction_lawful : Lawful ProvedTransaction_codec.
Proof. unfold ProvedTransaction_codec. struct_lawful. Qed.

Definition HistoryEntry_codec : codec HistoryEntry :=
  iso_codec (λ '(h, (i, t)), {| he_height := h; he_index := i; he_tx_id := t |}) (λ e, (he_height e, (he_index e, he_tx_id e)))
    (Height_codec ⊗ u32_codec ⊗ Hash32_codec).
#[export] Instance HistoryEntry_lawful : Lawful HistoryEntry_codec.
Proof. unfold HistoryEntry_codec. struct_lawful. Qed.

Definition HistoryAnswer_codec : codec HistoryAnswer :=
  iso_codec (λ '(a, (e, t)), {| ha_address := a; ha_entries := e; ha_truncated := t |}) (λ h, (ha_address h, (ha_entries h, ha_truncated h)))
    (Address_codec ⊗ vec_codec HistoryEntry_codec ⊗ bool_codec).
#[export] Instance HistoryAnswer_lawful : Lawful HistoryAnswer_codec.
Proof. unfold HistoryAnswer_codec. struct_lawful. Qed.

Definition Response_codec : codec Response :=
  tag_codec "Response"
    (λ r, match r with RStatus _ => 0 | RHeader _ => 1 | RValue _ => 2 | RBlock _ => 3 | RTransaction _ => 4 | RHistory _ => 5 end)
    (λ t, match t with
          | 0 => Some (variant_codec RStatus (λ r, match r with RStatus x => Some x | _ => None end) NodeStatus_codec)
          | 1 => Some (variant_codec RHeader (λ r, match r with RHeader x => Some x | _ => None end) SignedHeader_codec)
          | 2 => Some (variant_codec RValue (λ r, match r with RValue x => Some x | _ => None end) ProvedValue_codec)
          | 3 => Some (variant_codec RBlock (λ r, match r with RBlock x => Some x | _ => None end) Block_codec)
          | 4 => Some (variant_codec RTransaction (λ r, match r with RTransaction x => Some x | _ => None end) ProvedTransaction_codec)
          | 5 => Some (variant_codec RHistory (λ r, match r with RHistory x => Some x | _ => None end) HistoryAnswer_codec)
          | _ => None
          end).
#[export] Instance Response_lawful : Lawful Response_codec.
Proof. apply tag_lawful; [intros []; lia|tag_cases]. Qed.
End wire.
Arguments Query_codec {_} : simpl never.
Arguments Response_codec {_ _} : simpl never.

(** * The wallet's checks *)

Section checks.
Context {Hs : Hasher} {Sg : Signer} {Un : Unicode}.

Definition SignedHeader_verify (h : SignedHeader) (chain : ChainId) (vals : ValidatorSet) : result LightError unit :=
  if negb (bool_decide (c_block_id (sh_commit h) = BlockHeader_id (sh_header h)))
     || negb (c_height (sh_commit h) =? h_height (sh_header h))
  then Err HeaderMismatch
  else map_err LCommit (Commit_verify (sh_commit h) chain vals).

Definition ProvedValue_verify (v : ProvedValue) (lc : LightClient) (key : StoreKey) : result LightError (option bytes) :=
  _ ← verify_value lc key (pv_value v) (pv_proof v);
  Ok (pv_value v).

Definition ProvedValue_verify_amount (v : ProvedValue) (lc : LightClient) (key : StoreKey) : result LightError Amount :=
  x ← ProvedValue_verify v lc key;
  match x with
  | None => Ok 0
  | Some b => map_err (λ _, MalformedValue) (decode_exact Amount_codec b)
  end.

(** [ProvedTransaction::check]. *)
Definition check_inclusion (siblings : list Hash32) (root leaf : Hash32) (index total : nat) : result LightError unit :=
  map_err (λ _, BadProof)
    (MerkleProof_verify {| mp_index := index; mp_total := total; mp_siblings := siblings |} root leaf index total).

Definition ProvedTransaction_verify (p : ProvedTransaction) (header : BlockHeader) : result LightError (Transaction * TxReceipt) :=
  if negb (h_height header =? pt_height p) then Err HeaderMismatch else
  let index := Z.to_nat (pt_index p) in
  let total := Z.to_nat (pt_total p) in
  _ ← check_inclusion (pt_siblings p) (h_tx_root header) (merkle_leaf_hash (tx_id (pt_transaction p))) index total;
  _ ← check_inclusion (pt_receipt_siblings p) (h_outcome_root header)
        (merkle_leaf_hash (encode TxReceipt_codec (pt_receipt p))) index total;
  if negb (bool_decide (r_tx_id (pt_receipt p) = tx_id (pt_transaction p))) then Err BadProof
  else Ok (pt_transaction p, pt_receipt p).

(** ** Walking a history ([history.rs]) *)

Inductive HistoryError :=
| Finished
| WrongTransaction (expected got : Hash32)
| WrongHeight (expected got : Height)
| HBrokenChain
| Verification (e : LightError).

Record HistoryCursor := { hc_address : Address; hc_next : option TxPointer; hc_seen : Z }.

Definition HistoryCursor_new (address : Address) (account : Account) : HistoryCursor :=
  {| hc_address := address; hc_next := last_txn account; hc_seen := 0 |}.
Definition HistoryCursor_empty (address : Address) : HistoryCursor := {| hc_address := address; hc_next := None; hc_seen := 0 |}.
Definition complete (c : HistoryCursor) : bool := match hc_next c with None => true | Some _ => false end.

Definition cursor_step (p : ProvedTransaction) (header : BlockHeader) : M HistoryCursor HistoryError Transaction :=
  let! c := reads Ok in
  let! pointer := lift (ok_or Finished (hc_next c)) in
  do! fail_if (negb (h_height header =? tp_height pointer)) (WrongHeight (tp_height pointer) (h_height header)) in
  let! effects := lift (map_err Verification (ProvedTransaction_verify p header)) in
  do! fail_if (negb (bool_decide (tx_id effects.1 = tp_tx_id pointer))) (WrongTransaction (tp_tx_id pointer) (tx_id effects.1)) in
  let! previous := lift (ok_or HBrokenChain (previous_for effects.2 (hc_address c))) in
  do! writes (λ c, {| hc_address := hc_address c; hc_next := previous; hc_seen := saturating_add u64_max (hc_seen c) 1 |}) in
  ret effects.1.
End checks.

(** * Answering ([server.rs]) *)

(** [ChainView]: what a node shows of itself to the query server. *)
Class ChainView (V : Type) := {
  cv_chain_id : V → ChainId;
  cv_tip_height : V → result QueryError Height;
  cv_signed_header : V → Height → result QueryError (option SignedHeader);
  cv_prove : V → StoreKey → result QueryError (Height * option bytes * SmtProof);
  cv_block : V → Height → result QueryError (option Block);
  cv_receipts : V → Height → result QueryError (option (list TxReceipt));
  cv_locate : V → Hash32 → result QueryError (option (Height * Z));
  cv_history : V → Address → Height → nat → result QueryError (option (list HistoryEntry * bool));
}.

Inductive SubmitError := SubmitRejected (why : string) | NotAccepting | SubmitBackend (why : string).
(** [ReadOnly]. *)
Definition read_only_submit (_ : Transaction) : result SubmitError Hash32 := Err NotAccepting.

Section server.
Context {Hs : Hasher} {Sg : Signer} {Un : Unicode} {V : Type} {CV : ChainView V}.

Definition answer_transaction (view : V) (id : Hash32) : result QueryError Response :=
  loc ← cv_locate view id;
  '(height, index) ← ok_or (NoSuchTransaction id) loc;
  blk ← cv_block view height;
  b ← ok_or (Backend "index points at missing block") blk;
  let txs := transactions b in
  tx ← ok_or (Backend "index points past the end of block") (txs !! Z.to_nat index);
  if u32_max <? Z.of_nat (length txs) then Err (Backend "block is longer than a u32") else
  proof ← map_err (λ _, Backend "leaf index out of range") (MerkleTree_prove (MerkleTree_from_items (tx_id <$> txs)) (Z.to_nat index));
  rs ← cv_receipts view height;
  receipts ← ok_or (NotIndexed "execution receipts") rs;
  if negb (length receipts =? length txs)%nat then Err (Backend "block and receipts differ in number") else
  receipt ← ok_or (Backend "receipt index out of range") (receipts !! Z.to_nat index);
  receipt_proof ← map_err (λ _, Backend "leaf index out of range")
                    (MerkleTree_prove (MerkleTree_from_items (encode TxReceipt_codec <$> receipts)) (Z.to_nat index));
  Ok (RTransaction {| pt_height := height; pt_index := index; pt_total := Z.of_nat (length txs); pt_transaction := tx;
        pt_siblings := mp_siblings proof; pt_receipt := receipt; pt_receipt_siblings := mp_siblings receipt_proof |}).

Definition answer (view : V) (q : Query) : result QueryError Response :=
  match q with
  | QStatus =>
      h ← cv_tip_height view;
      sh ← cv_signed_header view h;
      tip ← ok_or (NoSuchHeight h) sh;
      Ok (RStatus {| st_chain_id := cv_chain_id view; st_tip := tip |})
  | QHeader h =>
      sh ← cv_signed_header view h;
      header ← ok_or (NoSuchHeight h) sh;
      Ok (RHeader header)
  | QBlock h =>
      blk ← cv_block view h;
      b ← ok_or (NoSuchHeight h) blk;
      Ok (RBlock b)
  | QTransaction id => answer_transaction view id
  | QHistory a from limit =>
      let limit := Z.to_nat (Z.min limit MAX_HISTORY) in
      page ← cv_history view a from limit;
      '(entries, truncated) ← ok_or (NotIndexed "a transaction history index") page;
      Ok (RHistory {| ha_address := a; ha_entries := entries; ha_truncated := truncated |})
  | _ =>
      key ← ok_or (Backend "query has no state key") (store_key q);
      '(height, value, proof) ← cv_prove view key;
      Ok (RValue {| pv_height := height; pv_value := value; pv_proof := proof |})
  end.
End server.

(** * The durable store's view ([store/src/serve.rs]) *)

Section served.
Context {Hs : Hasher} {Sg : Signer} {Un : Unicode}.

Record ServedChain := { sc_chain_id : ChainId; sc_store : Database; sc_state : TreeStore }.

(** Storage failures become [Backend], never a missing value. *)
Definition backend {A} (r : result StoreError A) : result QueryError A := map_err (λ _, Backend "storage") r.

Definition served_signed_header (v : ServedChain) (h : Height) : result QueryError (option SignedHeader) :=
  blk ← backend (db_block (sc_store v) h);
  match blk with
  | None => Ok None
  | Some b =>
      oc ← backend (db_commit (sc_store v) h);
      c ← ok_or (NoCommit h) oc;
      Ok (Some {| sh_header := b_header b; sh_commit := c |})
  end.

Definition served_prove (v : ServedChain) (key : StoreKey) : result QueryError (Height * option bytes * SmtProof) :=
  h ← backend (db_height (sc_store v));
  Ok (h, smt_get (tree_of (sc_state v)) key, smt_prove (tree_of (sc_state v)) key).

Definition served_history (v : ServedChain) (a : Address) (from : Height) (limit : nat)
  : result QueryError (option (list HistoryEntry * bool)) :=
  page ← backend (db_history (sc_store v) a from limit);
  Ok (Some (List.map (λ '(h, i, id), {| he_height := h; he_index := i; he_tx_id := id |}) page.1, page.2)).

#[export] Instance served_chain : ChainView ServedChain := {|
  cv_chain_id := sc_chain_id;
  cv_tip_height v := backend (db_height (sc_store v));
  cv_signed_header := served_signed_header;
  cv_prove := served_prove;
  cv_block v h := backend (db_block (sc_store v) h);
  cv_receipts v h := backend (db_receipts (sc_store v) h);
  cv_locate v id := backend (locate (sc_store v) id);
  cv_history := served_history;
|}.

(** [LiveChain]: the view a running daemon serves, the store as it is and the state last
    published; a proof is labelled with the height that state was published at. *)
Record LiveChain := { lv_chain_id : ChainId; lv_store : Database; lv_state : Published }.

Definition live_served (v : LiveChain) : ServedChain :=
  {| sc_chain_id := lv_chain_id v; sc_store := lv_store v; sc_state := pub_state (lv_state v) |}.
Definition live_prove (v : LiveChain) (key : StoreKey) : result QueryError (Height * option bytes * SmtProof) :=
  let s := tree_of (pub_state (lv_state v)) in
  Ok (pub_at (lv_state v), smt_get s key, smt_prove s key).

#[export] Instance live_chain : ChainView LiveChain := {|
  cv_chain_id := lv_chain_id;
  cv_tip_height v := cv_tip_height (live_served v);
  cv_signed_header v := cv_signed_header (live_served v);
  cv_prove := live_prove;
  cv_block v := cv_block (live_served v);
  cv_receipts v := cv_receipts (live_served v);
  cv_locate v := cv_locate (live_served v);
  cv_history v := cv_history (live_served v);
|}.
End served.
