(* ===== verification/Mempool.v ===== *)
(** The queue a proposer draws from ([crates/node/src/mempool.rs]).

    The pool's [BTreeMap]s are finite maps; [pool_entries] lists [by_key] in the order of
    its keys, which is the order [select] and [evict_expired] walk it in.  Sizes are
    values of a 64-bit [usize]. *)

From S2P Require Import Prelude SortedVec Codec Primitives Crypto Account Alias Tx Executor Block.

Record MempoolLimits := {
  max_transactions : Z;
  max_bytes : Z;
  max_per_sender : Z;
}.

Definition MempoolLimits_default : MempoolLimits := {|
  max_transactions := 20000;
  max_bytes := 32 * 1024 * 1024;
  max_per_sender := 64;
|}.

Inductive Rejected :=
| RDuplicate
| NonceClaimed (n : Z)
| NonceTooLow (got expected : Z)
| Full
| SenderFull (held : Z)
| TooLarge
| RInvalid (e : TxError)
| Unauthorised
| SponsorUnauthorised.

Abbreviation PoolKey := (Address * Z)%type (only parsing).

Record Mempool := {
  by_key : gmap (bytes * Z) Transaction;
  by_id : gmap bytes (bytes * Z);
  per_sender : gmap bytes Z;
  mp_bytes : Z;
  mp_limits : MempoolLimits;
}.

(** The order of the keys: by sender, then by nonce. *)
Definition key_cmp (k1 k2 : bytes * Z) : comparison :=
  match bytes_cmp k1.1 k2.1 with Eq => Z.compare k1.2 k2.2 | c => c end.
Definition entry_le (e1 e2 : (bytes * Z) * Transaction) : Prop := key_cmp e1.1 e2.1 ≠ Gt.
#[export] Instance entry_le_dec : RelDecision entry_le.
Proof. intros e1 e2. unfold entry_le. apply _. Defined.

Section mempool.
Context {Hs : Hasher} {Sg : Signer} {Un : Unicode}.
Implicit Types (mp : Mempool) (tx : Transaction).

Definition tx_size tx : Z := Z.of_nat (length (encode Transaction_codec tx)).

Definition Mempool_new (l : MempoolLimits) : Mempool := {|
  by_key := ∅; by_id := ∅; per_sender := ∅; mp_bytes := 0; mp_limits := l |}.

Definition mp_len mp : Z := Z.of_nat (size (by_key mp)).
Definition mp_is_empty mp : bool := mp_len mp =? 0.
Definition mp_contains mp (id : Hash32) : bool := bool_decide (is_Some (by_id mp !! id)).

(** [BTreeMap::iter]. *)
Definition pool_entries (m : gmap (bytes * Z) Transaction) : list ((bytes * Z) * Transaction) :=
  merge_sort entry_le (map_to_list m).

Definition mempool_insert (transaction : Transaction) (chain : ChainId) (height : Height) (sender_account : Account)
    (fee_payer_account : option Account) : M Mempool Rejected Hash32 :=
  let sender := tx_sender (body transaction) in
  let n := tx_nonce (body transaction) in
  let next_nonce := nonce sender_account in
  do! fail_if (n <? next_nonce) (NonceTooLow n next_nonce) in
  let! mp := reads Ok in
  do! fail_if (bool_decide (is_Some (by_key mp !! (sender, n)))) (NonceClaimed n) in
  do! fail_if (max_transactions (mp_limits mp) <=? mp_len mp) Full in
  let held := default 0 (per_sender mp !! sender) in
  do! fail_if (max_per_sender (mp_limits mp) <=? held) (SenderFull held) in
  let encoded := tx_size transaction in
  do! fail_if (MAX_BLOCK_BYTES <? encoded) TooLarge in
  let total := saturating_add u64_max (mp_bytes mp) encoded in
  do! fail_if (max_bytes (mp_limits mp) <? total) Full in
  do! lift (map_err RInvalid (verify_stateless transaction chain height)) in
  do! fail_if (negb (authorises sender_account (signing_keys transaction))) Unauthorised in
  do! fail_if (is_sponsored (fee (body transaction))
               && negb (match fee_payer_account with
                        | Some p => authorises p (sponsor_keys transaction)
                        | None => false
                        end)) SponsorUnauthorised in
  let id := tx_id transaction in
  do! fail_if (bool_decide (is_Some (by_id mp !! id))) RDuplicate in
  do! writes (λ mp, {|
    by_key := <[(sender, n) := transaction]> (by_key mp);
    by_id := <[id := (sender, n)]> (by_id mp);
    per_sender := <[sender := saturating_add u64_max held 1]> (per_sender mp);
    mp_bytes := total;
    mp_limits := mp_limits mp |}) in
  ret id.

(** The loop of [select]: what is wanted of the sender being walked, the number and
    the bytes chosen so far. *)
Fixpoint select_loop (next_nonce : Address → Z) (l : list ((bytes * Z) * Transaction))
    (wanted : option (Address * option Z)) (count bytes_ : Z) : list Transaction :=
  match l with
  | [] => []
  | ((sender, n), transaction) :: l =>
      let want :=
        match wanted with
        | Some (current, want) => if bool_decide (current = sender) then want else Some (next_nonce sender)
        | None => Some (next_nonce sender)
        end in
      match want with
      | None => select_loop next_nonce l wanted count bytes_
      | Some want =>
          if negb (n =? want) then select_loop next_nonce l (Some (sender, None)) count bytes_
          else
            let sz := tx_size transaction in
            if (MAX_BLOCK_TRANSACTIONS <=? count) || (MAX_BLOCK_BYTES <? saturating_add u64_max bytes_ sz)
            then []
            else transaction :: select_loop next_nonce l (Some (sender, Some (saturating_add u64_max want 1)))
                                  (count + 1) (saturating_add u64_max bytes_ sz)
      end
  end.
Definition select (next_nonce : Address → Z) mp : list Transaction :=
  select_loop next_nonce (pool_entries (by_key mp)) None 0 0.

Definition remove_key (k : bytes * Z) mp : Mempool :=
  match by_key mp !! k with
  | None => mp
  | Some transaction =>
      {| by_key := delete k (by_key mp);
         by_id := delete (tx_id transaction) (by_id mp);
         per_sender :=
           match per_sender mp !! k.1 with
           | Some count =>
               let count := saturating_sub count 1 in
               if count =? 0 then delete k.1 (per_sender mp) else <[k.1 := count]> (per_sender mp)
           | None => per_sender mp
           end;
         mp_bytes := saturating_sub (mp_bytes mp) (tx_size transaction);
         mp_limits := mp_limits mp |}
  end.

Definition remove_committed (txs : list Transaction) mp : Mempool :=
  foldl (λ mp tx, remove_key (tx_sender (body tx), tx_nonce (body tx)) mp) mp txs.

Definition evict_expired (height : Height) mp : Mempool :=
  foldl (λ mp k, remove_key k mp) mp
    (fst <$> List.filter (λ e, valid_until (body e.2) <? height) (pool_entries (by_key mp))).
End mempool.
