(* ===== verification/MempoolProofs.v ===== *)
(** The mempool keeps its books straight and proposes only what can be included
    ([crates/node/src/mempool.rs]). *)

From S2P Require Import Prelude SortedVec Sorting Codec Primitives Crypto Account Alias Tx Executor Block Mempool.

Implicit Types (m : gmap (bytes * Z) Transaction) (tx : Transaction).

(** * Sorted lists *)

Lemma StronglySorted_filter_bool {A} (R : A → A → Prop) (f : A → bool) l :
  StronglySorted R l → StronglySorted R (List.filter f l).
Proof.
  induction 1 as [|x l Hl IH Hx]; simpl; [constructor|]. case_match; [|done]. constructor; [done|].
  rewrite Forall_forall in Hx |- *. intros y Hy. apply Hx. by apply list_elem_of_In, List.filter_In in Hy as [?%list_elem_of_In _].
Qed.

Lemma StronglySorted_lookup_lt {A} (R : A → A → Prop) l i j x y :
  StronglySorted R l → (i < j)%nat → l !! i = Some x → l !! j = Some y → R x y.
Proof.
  intros Hl. revert i j. induction Hl as [|z l Hl IH Hz]; intros i j Hij Hi Hj; [done|].
  destruct j as [|j]; [lia|]. simpl in Hj. destruct i as [|i]; simpl in Hi.
  - injection Hi as ->. rewrite Forall_forall in Hz. by apply Hz, list_elem_of_lookup_2 with j.
  - by apply (IH i j); [lia|..].
Qed.

(** * The order of the pool *)

Lemma key_cmp_eq k1 k2 : key_cmp k1 k2 = Eq ↔ k1 = k2.
Proof.
  destruct k1 as [a n], k2 as [b p]. unfold key_cmp. simpl. destruct (bytes_cmp a b) eqn:E.
  - apply bytes_cmp_eq in E as ->. rewrite Z.compare_eq_iff. split; [by intros ->|by intros [= ->]].
  - split; [done|]. intros [= -> ->]. by rewrite bytes_cmp_refl in E.
  - split; [done|]. intros [= -> ->]. by rewrite bytes_cmp_refl in E.
Qed.

Lemma key_cmp_lt k1 k2 : key_cmp k1 k2 = Lt ↔ bytes_lt k1.1 k2.1 ∨ (k1.1 = k2.1 ∧ k1.2 < k2.2).
Proof.
  unfold key_cmp, bytes_lt. destruct (bytes_cmp k1.1 k2.1) eqn:E.
  - apply bytes_cmp_eq in E. rewrite Z.compare_lt_iff. naive_solver.
  - naive_solver.
  - split; [done|]. intros [?|[E' _]]; [done|]. rewrite E', bytes_cmp_refl in E. done.
Qed.

Lemma key_cmp_antisym k1 k2 : key_cmp k2 k1 = CompOpp (key_cmp k1 k2).
Proof.
  unfold key_cmp. rewrite (bytes_cmp_antisym k1.1 k2.1). destruct (bytes_cmp k1.1 k2.1); [|done..].
  simpl. by rewrite Z.compare_antisym.
Qed.

Lemma entry_le_iff e1 e2 : entry_le e1 e2 ↔ e1.1 = e2.1 ∨ key_cmp e1.1 e2.1 = Lt.
Proof.
  unfold entry_le. rewrite <- key_cmp_eq. destruct (key_cmp e1.1 e2.1); naive_solver.
Qed.

#[export] Instance entry_le_total : Total entry_le.
Proof.
  intros e1 e2. unfold entry_le. rewrite (key_cmp_antisym e1.1 e2.1).
  destruct (key_cmp e1.1 e2.1); [left|left|right]; done.
Qed.

#[export] Instance entry_le_trans : Transitive entry_le.
Proof.
  intros [k1 v1] [k2 v2] [k3 v3]. rewrite !entry_le_iff. simpl. intros [->|H1] [->|H2]; try naive_solver.
  right. apply key_cmp_lt in H1, H2. apply key_cmp_lt. destruct H1 as [H1|[E1 H1]], H2 as [H2|[E2 H2]].
  - left. by eapply bytes_lt_trans.
  - left. congruence.
  - left. congruence.
  - right. split; [congruence|lia].
Qed.

Lemma elem_of_pool_entries m k tx : (k, tx) ∈ pool_entries m ↔ m !! k = Some tx.
Proof. unfold pool_entries. rewrite merge_sort_Permutation. apply elem_of_map_to_list. Qed.

Lemma pool_entries_NoDup m : NoDup (fst <$> pool_entries m).
Proof. unfold pool_entries. rewrite merge_sort_Permutation. apply NoDup_fst_map_to_list. Qed.

Lemma pool_entries_sorted m : StronglySorted entry_le (pool_entries m).
Proof. unfold pool_entries. apply StronglySorted_merge_sort; apply _. Qed.

(** Around an entry: what comes before it in the walk is exactly what is smaller. *)
Lemma pool_entries_split m pre k tx post :
  pool_entries m = pre ++ (k, tx) :: post →
  m !! k = Some tx
  ∧ (∀ k', k' ∈ fst <$> pre ↔ is_Some (m !! k') ∧ key_cmp k' k = Lt).
Proof.
  intros E. pose proof (pool_entries_NoDup m) as Hnd. pose proof (pool_entries_sorted m) as Hs. rewrite E in Hnd, Hs.
  rewrite fmap_app in Hnd. apply NoDup_app in Hnd as (_ & Hdis & _).
  assert (m !! k = Some tx) as Hm by (apply elem_of_pool_entries; rewrite E; set_solver). split; [done|].
  intros k'. split.
  - intros Hin. pose proof (Hdis _ Hin) as Hne. apply list_elem_of_fmap in Hin as ([k1 t1] & -> & Hin). simpl in *.
    split; [exists t1; apply elem_of_pool_entries; rewrite E; set_solver|].
    pose proof (StronglySorted_app_1_elem_of _ _ _ (k1, t1) (k, tx) Hs Hin ltac:(by left)) as Hle.
    apply entry_le_iff in Hle as [Heq|?]; [|done]. simpl in Heq. subst. destruct Hne. by left.
  - intros [[t' Ht'] Hlt]. apply elem_of_pool_entries in Ht'. rewrite E in Ht'.
    apply elem_of_app in Ht' as [Ht'|[[= -> ->]|Ht']%elem_of_cons].
    + by apply (list_elem_of_fmap_2 fst) in Ht'.
    + by rewrite (proj2 (key_cmp_eq k k) eq_refl) in Hlt.
    + apply StronglySorted_app_1_r, StronglySorted_inv in Hs as [_ Hs]. rewrite Forall_forall in Hs.
      specialize (Hs _ Ht'). unfold entry_le in Hs. simpl in Hs. by rewrite (key_cmp_antisym k' k), Hlt in Hs.
Qed.

(** * What a proposer may include *)

(** The queue of a sender can be served up to nonce [n]: nothing older than the
    account's next nonce is waiting, and no nonce up to [n] is missing. *)
Definition served m (next : Address → Z) (k : bytes * Z) : Prop :=
  (∀ i, is_Some (m !! (k.1, i)) → next k.1 ≤ i) ∧ next k.1 ≤ k.2 ∧ ∀ i, next k.1 ≤ i < k.2 → is_Some (m !! (k.1, i)).

Definition servedb m (next : Address → Z) (k : bytes * Z) : bool :=
  forallb (λ k' : bytes * Z, implb (bool_decide (k'.1 = k.1)) (next k.1 <=? k'.2)) (fst <$> pool_entries m)
  && (next k.1 <=? k.2)
  && forallb (λ i, bool_decide (is_Some (m !! (k.1, i)))) (seqZ (next k.1) (k.2 - next k.1)).

Lemma servedb_spec m next k : servedb m next k = true ↔ served m next k.
Proof.
  unfold servedb, served. rewrite !andb_true_iff, !forallb_forall, Z.leb_le. split.
  - intros [[H1 H2] H3]. split_and!; [|done|].
    + intros i [t Hi]. apply elem_of_pool_entries, (list_elem_of_fmap_2 fst), list_elem_of_In in Hi.
      specialize (H1 _ Hi). simpl in H1. rewrite bool_decide_eq_true_2 in H1 by done. by apply Z.leb_le.
    + intros i Hi. apply (bool_decide_eq_true_1 _), H3, list_elem_of_In, elem_of_seqZ. lia.
  - intros (H1 & H2 & H3). split_and!; [|done|].
    + intros [a i] Hin%list_elem_of_In. simpl. case_bool_decide; [|done]. subst. simpl. apply Z.leb_le, H1.
      apply list_elem_of_fmap in Hin as ([k' t] & E & Hin). simpl in E. subst k'. exists t. by apply elem_of_pool_entries.
    + intros i Hi%list_elem_of_In%elem_of_seqZ. apply bool_decide_eq_true, H3. lia.
Qed.

(** Transactions as long as the block they go into has room. *)
Fixpoint fit `{Hasher, Signer, Unicode} (count total : Z) (txs : list Transaction) : list Transaction :=
  match txs with
  | [] => []
  | tx :: txs =>
      if (count <? MAX_BLOCK_TRANSACTIONS) && (total + tx_size tx <=? MAX_BLOCK_BYTES)
      then tx :: fit (count + 1) (total + tx_size tx) txs else []
  end.

Section select.
Context {Hs : Hasher} {Sg : Signer} {Un : Unicode}.

(** The nonces in use are values of [u64]. *)
Definition nonces_ok m : Prop := ∀ k, is_Some (m !! k) → k.2 ≤ u64_max.

(** What [wanted] says of the entries walked so far. *)
Definition wanted_ok m next (pre : list ((bytes * Z) * Transaction)) (wanted : option (Address * option Z)) : Prop :=
  match wanted with
  | None => pre = []
  | Some (a, w) => ∃ n, (a, n) ∈ fst <$> pre ∧ (∀ k, k ∈ fst <$> pre → key_cmp k (a, n) ≠ Gt)
      ∧ match w with
        | Some w => served m next (a, n) ∧ w = saturating_add u64_max n 1
        | None => ¬ served m next (a, n)
        end
  end.

Lemma served_below m next a n n' : served m next (a, n') → n ≤ n' → is_Some (m !! (a, n)) → served m next (a, n).
Proof.
  intros (H1 & H2 & H3) Hle Hn. split_and!; [done|by apply H1|]. simpl in *. intros i Hi. apply H3. lia.
Qed.

Definition want_of (next : Address → Z) (wanted : option (Address * option Z)) (a : Address) : option Z :=
  match wanted with
  | Some (current, want) => if bool_decide (current = a) then want else Some (next a)
  | None => Some (next a)
  end.

(** The first entry of a sender is served exactly when it carries the next nonce. *)
Lemma served_first m next a n :
  is_Some (m !! (a, n)) → (∀ i, i < n → m !! (a, i) = None) → served m next (a, n) ↔ n = next a.
Proof.
  intros Hn Hfirst. split.
  - intros (_ & H2 & H3). simpl in *. destruct (decide (n = next a)); [done|].
    destruct (H3 (next a) ltac:(lia)) as [t Ht]. rewrite Hfirst in Ht by lia. done.
  - intros ->. split_and!; simpl; [|lia|lia]. intros i [t Hi]. destruct (decide (i < next a)); [|lia].
    by rewrite Hfirst in Hi by lia.
Qed.

(** After a served entry, exactly the next nonce is served. *)
Lemma served_step m next a n' n :
  served m next (a, n') → is_Some (m !! (a, n')) → n' < n → (∀ i, n' < i < n → m !! (a, i) = None) →
  served m next (a, n) ↔ n = n' + 1.
Proof.
  intros (H1 & H2 & H3) Hn' Hlt Hgap. simpl in *. split.
  - intros (_ & _ & H6). simpl in *. destruct (decide (n = n' + 1)); [done|].
    destruct (H6 (n' + 1) ltac:(lia)) as [t Ht]. by rewrite Hgap in Ht by lia.
  - intros ->. split_and!; simpl; [done|lia|]. intros i Hi. destruct (decide (i = n')) as [->|]; [done|]. apply H3. lia.
Qed.

Lemma want_of_spec m next pre a n tx post wanted :
  nonces_ok m → pool_entries m = pre ++ ((a, n), tx) :: post → wanted_ok m next pre wanted →
  match want_of next wanted a with
  | None => ¬ served m next (a, n)
  | Some w => n = w ↔ served m next (a, n)
  end.
Proof.
  intros Hno E Hw. apply pool_entries_split in E as [Hm Hpre].
  assert (∀ i, i < n → is_Some (m !! (a, i)) → (a, i) ∈ fst <$> pre) as Hbelow.
  { intros i Hi Hs'. apply Hpre. split; [done|]. apply key_cmp_lt. right. split; [done|]. simpl. lia. }
  assert ((∀ i, (a, i) ∉ fst <$> pre) → n = next a ↔ served m next (a, n)) as Hfresh.
  { intros Hnone. rewrite served_first; [done|by eexists|]. intros i Hi. apply eq_None_not_Some. intros Hs'.
    by destruct (Hnone i); apply Hbelow. }
  destruct wanted as [[c w]|]; simpl in *; [|apply Hfresh; subst; set_solver].
  destruct Hw as (n' & Hin & Hmax & Hw). pose proof (proj1 (Hpre _) Hin) as [Hs' Hlt].
  apply key_cmp_lt in Hlt. simpl in Hlt. case_bool_decide as Hc; simpl.
  - subst c. destruct Hlt as [?%bytes_lt_irrefl|[_ Hlt]]; [done|].
    assert (∀ i, n' < i < n → m !! (a, i) = None) as Hgap.
    { intros i Hi. apply eq_None_not_Some. intros Hsi. pose proof (Hmax _ (Hbelow i ltac:(lia) Hsi)) as Hk.
      apply Hk. unfold key_cmp. simpl. rewrite bytes_cmp_refl. apply Z.compare_gt_iff. lia. }
    destruct w as [w|].
    + destruct Hw as [Hserved ->]. rewrite served_step by (done || by eexists).
      pose proof (Hno (a, n) ltac:(by eexists)) as Hn. simpl in Hn. unfold saturating_add. lia.
    + intros Hserved. apply Hw. eapply served_below; [done|lia|done].
  - apply Hfresh. intros i Hi. pose proof (Hmax _ Hi) as Hk. apply Hk.
    unfold key_cmp. simpl. destruct Hlt as [Hlt|[? _]]; [|done]. by rewrite (proj2 (bytes_lt_gt a c) Hlt).
Qed.

Lemma wanted_ok_step m next pre a n tx post w :
  pool_entries m = pre ++ ((a, n), tx) :: post →
  match w with Some w => served m next (a, n) ∧ w = saturating_add u64_max n 1 | None => ¬ served m next (a, n) end →
  wanted_ok m next (pre ++ [((a, n), tx)]) (Some (a, w)).
Proof.
  intros E Hw. apply pool_entries_split in E as [_ Hpre]. exists n. rewrite fmap_app. split_and!; [set_solver| |done].
  intros k [Hk|Hk]%elem_of_app; [apply Hpre in Hk as [_ Hk]; by rewrite Hk|].
  apply list_elem_of_singleton in Hk as ->. simpl. by rewrite (proj2 (key_cmp_eq _ _) eq_refl).
Qed.

Lemma tx_size_nonneg tx : 0 ≤ tx_size tx.
Proof. unfold tx_size. lia. Qed.

(** A block is far smaller than the byte counter's range. *)
Lemma block_room total n :
  (MAX_BLOCK_BYTES <? saturating_add u64_max total n) = negb (total + n <=? MAX_BLOCK_BYTES).
Proof.
  unfold saturating_add, MAX_BLOCK_BYTES, u64_max.
  destruct (Z.ltb_spec (4 * 1024 * 1024) (Z.min (2 ^ 64 - 1) (total + n))), (Z.leb_spec (total + n) (4 * 1024 * 1024)); simpl; lia || done.
Qed.

Lemma block_room_exact total n : total + n ≤ MAX_BLOCK_BYTES → saturating_add u64_max total n = total + n.
Proof. unfold saturating_add, MAX_BLOCK_BYTES, u64_max. lia. Qed.

Lemma select_loop_spec m next post pre wanted count total :
  nonces_ok m → pool_entries m = pre ++ post → wanted_ok m next pre wanted → 0 ≤ total ≤ MAX_BLOCK_BYTES →
  select_loop next post wanted count total = fit count total (snd <$> List.filter (λ e, servedb m next e.1) post).
Proof.
  intros Hno. revert pre wanted count total. induction post as [|[[a n] tx] post IH]; intros pre wanted count total E Hw Ht; [done|].
  assert (pool_entries m = (pre ++ [((a, n), tx)]) ++ post) as E' by (by rewrite <- app_assoc).
  pose proof (want_of_spec m next pre a n tx post wanted Hno E Hw) as Hwant.
  cbn [select_loop List.filter fst]. fold (want_of next wanted a). destruct (want_of next wanted a) as [w|] eqn:Ew.
  - destruct (Z.eqb_spec n w) as [->|Hne]; simpl.
    + assert (served m next (a, w)) as Hserved by tauto. rewrite (proj2 (servedb_spec m next (a, w)) Hserved). simpl.
      rewrite block_room. destruct (Z.leb_spec MAX_BLOCK_TRANSACTIONS count), (Z.ltb_spec count MAX_BLOCK_TRANSACTIONS);
        try lia; simpl; [done|].
      destruct (Z.leb_spec (total + tx_size tx) MAX_BLOCK_BYTES) as [Hfit|]; simpl; [|done].
      pose proof (tx_size_nonneg tx). rewrite (block_room_exact total) by done.
      f_equal. eapply (IH (pre ++ [((a, w), tx)])); [done| |lia].
      by eapply wanted_ok_step.
    + assert (¬ served m next (a, n)) as Hns by tauto.
      destruct (servedb m next (a, n)) eqn:Hb; [by apply servedb_spec in Hb|].
      eapply (IH (pre ++ [((a, n), tx)])); [done| |done]. by eapply wanted_ok_step.
  - destruct (servedb m next (a, n)) eqn:Hb; [by apply servedb_spec in Hb|].
    eapply (IH (pre ++ [((a, n), tx)])); [done| |done]. unfold want_of in Ew. destruct wanted as [[c w]|]; [|done].
    case_bool_decide; [|done]. subst c w. by eapply wanted_ok_step.
Qed.
End select.

(** * The books of the pool *)

Section books.
Context {Hs : Hasher} {Sg : Signer} {Un : Unicode}.
Implicit Types (mp : Mempool).

Definition pool_key tx : bytes * Z := (tx_sender (body tx), tx_nonce (body tx)).
Definition pool_total m : Z := map_sum (λ _ tx, tx_size tx) m.
Definition sender_count (a : Address) m : Z := map_sum (λ k _, if bool_decide (k.1 = a) then 1 else 0) m.

(** The byte limit is below the point where the counter saturates. *)
Definition limits_ok (l : MempoolLimits) : Prop :=
  0 ≤ max_transactions l ≤ u64_max ∧ 0 ≤ max_bytes l < u64_max ∧ 0 ≤ max_per_sender l ≤ u64_max.

(** The indexes and counters say what [by_key] holds, and it is within the limits. *)
Record mp_ok mp : Prop := {
  mk_key k tx : by_key mp !! k = Some tx → pool_key tx = k ∧ tx_nonce (body tx) ≤ u64_max;
  mk_id id k : by_id mp !! id = Some k ↔ ∃ tx, by_key mp !! k = Some tx ∧ tx_id tx = id;
  mk_sender a : per_sender mp !! a = if sender_count a (by_key mp) =? 0 then None else Some (sender_count a (by_key mp));
  mk_bytes : mp_bytes mp = pool_total (by_key mp);
  mk_limits : limits_ok (mp_limits mp);
  mk_size : Z.of_nat (size (by_key mp)) ≤ max_transactions (mp_limits mp);
  mk_total : pool_total (by_key mp) ≤ max_bytes (mp_limits mp);
  mk_per_sender a : sender_count a (by_key mp) ≤ max_per_sender (mp_limits mp);
}.

Lemma sender_count_nonneg a m : 0 ≤ sender_count a m.
Proof. apply map_sum_nonneg. intros. case_bool_decide; lia. Qed.
Lemma pool_total_nonneg m : 0 ≤ pool_total m.
Proof. apply map_sum_nonneg. intros. apply tx_size_nonneg. Qed.

Lemma sender_count_insert a m k tx :
  m !! k = None → sender_count a (<[k := tx]> m) = sender_count a m + (if bool_decide (k.1 = a) then 1 else 0).
Proof. intros Hk. unfold sender_count. rewrite map_sum_insert_fresh by done. lia. Qed.
Lemma sender_count_delete a m k tx :
  m !! k = Some tx → sender_count a (delete k m) = sender_count a m - (if bool_decide (k.1 = a) then 1 else 0).
Proof. intros Hk. unfold sender_count. rewrite map_sum_delete. unfold entry_weight. by rewrite Hk. Qed.
Lemma pool_total_insert m k tx : m !! k = None → pool_total (<[k := tx]> m) = pool_total m + tx_size tx.
Proof. intros Hk. unfold pool_total. rewrite map_sum_insert_fresh by done. lia. Qed.
Lemma pool_total_delete m k tx : m !! k = Some tx → pool_total (delete k m) = pool_total m - tx_size tx.
Proof. intros Hk. unfold pool_total. rewrite map_sum_delete. unfold entry_weight. by rewrite Hk. Qed.

Lemma Mempool_new_ok l : limits_ok l → mp_ok (Mempool_new l).
Proof.
  intros Hl. pose proof Hl as (? & ? & ?). split; simpl; try done.
  - intros id k. rewrite lookup_empty. split; [done|]. intros (tx & Htx & _). by rewrite lookup_empty in Htx.
  - rewrite map_size_empty. simpl. lia.
  - unfold pool_total. rewrite map_sum_empty. lia.
  - intros a. unfold sender_count. rewrite map_sum_empty. lia.
Qed.

Lemma remove_key_by_key k mp : by_key (remove_key k mp) = delete k (by_key mp).
Proof. unfold remove_key. destruct (by_key mp !! k) eqn:E; [done|]. by rewrite delete_id. Qed.
Lemma remove_key_limits k mp : mp_limits (remove_key k mp) = mp_limits mp.
Proof. unfold remove_key. by destruct (by_key mp !! k). Qed.

Lemma remove_key_ok k mp : mp_ok mp → mp_ok (remove_key k mp).
Proof.
  intros Hok. destruct (by_key mp !! k) as [tx|] eqn:Hk; [|unfold remove_key; by rewrite Hk].
  pose proof (remove_key_by_key k mp) as Hbk. pose proof (remove_key_limits k mp) as Hlim.
  pose proof (sender_count_delete (k.1) (by_key mp) k tx Hk) as Hc. rewrite bool_decide_eq_true_2 in Hc by done.
  pose proof (sender_count_nonneg k.1 (delete k (by_key mp))).
  pose proof (pool_total_delete _ _ _ Hk) as Ht. pose proof (tx_size_nonneg tx).
  pose proof (pool_total_nonneg (delete k (by_key mp))).
  split; rewrite ?Hbk, ?Hlim.
  - intros k' tx'. rewrite lookup_delete_Some. intros [_ ?]. by apply (mk_key _ Hok).
  - intros id k'. unfold remove_key. rewrite Hk. simpl. rewrite lookup_delete_Some, (mk_id _ Hok). split.
    + intros (Hne & tx' & Hk' & <-). exists tx'. split; [|done]. apply lookup_delete_Some. split; [|done].
      intros ->. congruence.
    + intros (tx' & [Hne Hk']%lookup_delete_Some & <-). split; [|eauto]. intros E. apply Hne.
      assert (by_id mp !! tx_id tx = Some k) by (apply (mk_id _ Hok); eauto).
      assert (by_id mp !! tx_id tx' = Some k') by (apply (mk_id _ Hok); eauto). congruence.
  - intros a. unfold remove_key. rewrite Hk. simpl. pose proof (mk_sender _ Hok k.1) as Hps.
    destruct (Z.eqb_spec (sender_count k.1 (by_key mp)) 0); [lia|]. rewrite Hps.
    assert (saturating_sub (sender_count k.1 (by_key mp)) 1 = sender_count k.1 (delete k (by_key mp))) as ->
      by (unfold saturating_sub; lia).
    destruct (decide (k.1 = a)) as [<-|Hne].
    + destruct (sender_count k.1 (delete k (by_key mp)) =? 0); [by rewrite lookup_delete_eq|by rewrite lookup_insert_eq].
    + rewrite (sender_count_delete a _ _ _ Hk), bool_decide_eq_false_2, Z.sub_0_r by done.
      destruct (_ =? 0); [rewrite lookup_delete_ne by done|rewrite lookup_insert_ne by done]; apply (mk_sender _ Hok).
  - unfold remove_key. rewrite Hk. simpl. rewrite (mk_bytes _ Hok). unfold saturating_sub. lia.
  - apply Hok.
  - pose proof (mk_size _ Hok). rewrite map_size_delete_Some by (by eexists). lia.
  - pose proof (mk_total _ Hok). lia.
  - intros a. rewrite (sender_count_delete a _ _ _ Hk). pose proof (mk_per_sender _ Hok a). case_bool_decide; lia.
Qed.

(** The decision of [insert] on the transactions held alone, without any index. *)
Definition consents (payer_ : option Account) tx : bool :=
  negb (is_sponsored (fee (body tx)))
  || match payer_ with Some p => authorises p (sponsor_keys tx) | None => false end.
Definition holds_id m (id : Hash32) : bool := existsb (λ e, bool_decide (tx_id e.2 = id)) (map_to_list m).
Definition admits (l : MempoolLimits) m tx (chain : ChainId) (height : Height) (account : Account)
    (payer_ : option Account) : bool :=
  (nonce account <=? tx_nonce (body tx)) && negb (bool_decide (is_Some (m !! pool_key tx)))
  && (Z.of_nat (size m) <? max_transactions l) && (sender_count (tx_sender (body tx)) m <? max_per_sender l)
  && (tx_size tx <=? MAX_BLOCK_BYTES) && (pool_total m + tx_size tx <=? max_bytes l)
  && is_ok (verify_stateless tx chain height) && authorises account (signing_keys tx) && consents payer_ tx
  && negb (holds_id m (tx_id tx)).

Lemma holds_id_spec mp id : mp_ok mp → holds_id (by_key mp) id = bool_decide (is_Some (by_id mp !! id)).
Proof.
  intros Hok. apply eq_true_iff_eq. unfold holds_id. rewrite existsb_exists, bool_decide_eq_true. split.
  - intros ([k tx] & Hin%list_elem_of_In%elem_of_map_to_list & Hid). bool_simpl. exists k. apply (mk_id _ Hok). eauto.
  - intros [k Hk]. apply (mk_id _ Hok) in Hk as (tx & Hk & Hid). exists (k, tx).
    split; [by apply list_elem_of_In, elem_of_map_to_list|]. by apply bool_decide_eq_true.
Qed.

Lemma held_count mp a : mp_ok mp → default 0 (per_sender mp !! a) = sender_count a (by_key mp).
Proof. intros Hok. rewrite (mk_sender _ Hok). destruct (Z.eqb_spec (sender_count a (by_key mp)) 0); simpl; lia. Qed.

Definition inserted_pool tx mp : Mempool := {|
  by_key := <[pool_key tx := tx]> (by_key mp);
  by_id := <[tx_id tx := pool_key tx]> (by_id mp);
  per_sender := <[tx_sender (body tx) := sender_count (tx_sender (body tx)) (by_key mp) + 1]> (per_sender mp);
  mp_bytes := pool_total (by_key mp) + tx_size tx;
  mp_limits := mp_limits mp |}.

Lemma inserted_pool_ok tx mp chain height account payer_ :
  mp_ok mp → tx_nonce (body tx) ≤ u64_max → admits (mp_limits mp) (by_key mp) tx chain height account payer_ = true →
  mp_ok (inserted_pool tx mp).
Proof.
  intros Hok Hn Had. unfold admits in Had. bool_simpl. rewrite holds_id_spec in * by done. bool_simpl.
  assert (by_key mp !! pool_key tx = None) as Hfresh by (by apply eq_None_not_Some).
  assert (by_id mp !! tx_id tx = None) as Hid by (by apply eq_None_not_Some).
  pose proof (sender_count_nonneg (tx_sender (body tx)) (by_key mp)).
  split; cbn [inserted_pool by_key by_id per_sender mp_bytes mp_limits].
  - intros k tx'. rewrite lookup_insert_Some. intros [[<- <-]|[_ ?]]; [done|by apply (mk_key _ Hok)].
  - intros id k. rewrite lookup_insert_Some, (mk_id _ Hok). split.
    + intros [[<- <-]|(Hne & tx' & Hk & <-)]; [exists tx; by rewrite lookup_insert_eq|].
      exists tx'. rewrite lookup_insert_ne by congruence. done.
    + intros (tx' & [[<- <-]|[Hne Hk]]%lookup_insert_Some & <-); [by left|]. right. split; [|eauto].
      intros E. assert (by_id mp !! tx_id tx' = Some k) by (apply (mk_id _ Hok); eauto). congruence.
  - intros a. rewrite sender_count_insert, lookup_insert by done. cbn [pool_key fst]. case_decide as Ha.
    + subst a. rewrite bool_decide_eq_true_2 by done. destruct (Z.eqb_spec (sender_count (tx_sender (body tx)) (by_key mp) + 1) 0); [lia|done].
    + rewrite bool_decide_eq_false_2, Z.add_0_r by done. apply (mk_sender _ Hok).
  - by rewrite pool_total_insert.
  - apply Hok.
  - rewrite map_size_insert_None by done. lia.
  - by rewrite pool_total_insert.
  - intros a. rewrite sender_count_insert by done. pose proof (mk_per_sender _ Hok a). cbn [pool_key fst].
    case_bool_decide; subst; lia.
Qed.

Lemma mempool_insert_spec tx chain height account payer_ mp :
  mp_ok mp →
  if admits (mp_limits mp) (by_key mp) tx chain height account payer_
  then mempool_insert tx chain height account payer_ mp = (Ok (tx_id tx), inserted_pool tx mp)
  else ∃ e, mempool_insert tx chain height account payer_ mp = (Err e, mp).
Proof.
  intros Hok. unfold admits, mempool_insert, bind, fail_if, reads, lift, writes, ret, throw.
  rewrite held_count, holds_id_spec by done. unfold mp_len. rewrite (mk_bytes _ Hok).
  pose proof (mk_limits _ Hok) as (_ & Hmb & Hmp). pose proof (sender_count_nonneg (tx_sender (body tx)) (by_key mp)).
  assert ((max_bytes (mp_limits mp) <? saturating_add u64_max (pool_total (by_key mp)) (tx_size tx))
          = negb (pool_total (by_key mp) + tx_size tx <=? max_bytes (mp_limits mp))) as ->.
  { rewrite Z.leb_antisym, negb_involutive. unfold saturating_add. apply eq_true_iff_eq. rewrite !Z.ltb_lt. lia. }
  rewrite (Z.ltb_antisym (nonce account)), (Z.ltb_antisym (tx_size tx)), (Z.leb_antisym (Z.of_nat _)),
    (Z.leb_antisym (sender_count _ _)). fold (pool_key tx).
  destruct (nonce account <=? _); cbn [negb andb]; [|by eexists].
  destruct (bool_decide (is_Some (by_key mp !! pool_key tx))); cbn [negb andb]; [by eexists|].
  destruct (Z.of_nat _ <? _); cbn [negb andb]; [|by eexists].
  destruct (Z.ltb_spec (sender_count (tx_sender (body tx)) (by_key mp)) (max_per_sender (mp_limits mp)));
    cbn [negb andb]; [|by eexists].
  destruct (tx_size tx <=? _); cbn [negb andb]; [|by eexists].
  destruct (Z.leb_spec (pool_total (by_key mp) + tx_size tx) (max_bytes (mp_limits mp))); cbn [negb andb]; [|by eexists].
  destruct (verify_stateless tx chain height); cbn [is_ok map_err negb andb]; [|by eexists].
  destruct (authorises account _); cbn [negb andb]; [|by eexists]. unfold consents.
  destruct (is_sponsored _), (match payer_ with Some _ => _ | None => _ end); cbn [negb andb orb];
    try (by eexists); (destruct (bool_decide (is_Some (by_id mp !! tx_id tx))); cbn [negb andb]; [by eexists|]);
    unfold inserted_pool, saturating_add; by rewrite !Z.min_r by lia.
Qed.

(** * Any history of the pool *)

Inductive pool_op :=
| Submit (tx : Transaction) (chain : ChainId) (height : Height) (account : Account) (payer_ : option Account)
| Committed (txs : list Transaction)
| Expire (height : Height).

Definition pool_step mp (op : pool_op) : Mempool :=
  match op with
  | Submit tx chain height account payer_ => (mempool_insert tx chain height account payer_ mp).2
  | Committed txs => remove_committed txs mp
  | Expire height => evict_expired height mp
  end.

(** The same history on the transactions held alone. *)
Definition spec_step (l : MempoolLimits) m (op : pool_op) : gmap (bytes * Z) Transaction :=
  match op with
  | Submit tx chain height account payer_ =>
      if admits l m tx chain height account payer_ then <[pool_key tx := tx]> m else m
  | Committed txs => filter (λ e, e.1 ∉ pool_key <$> txs) m
  | Expire height => filter (λ e, height ≤ valid_until (body e.2)) m
  end.

(** Nonces are values of [u64]. *)
Definition op_ok (op : pool_op) : Prop :=
  match op with Submit tx _ _ _ _ => tx_nonce (body tx) ≤ u64_max | _ => True end.

Lemma remove_keys ks mp :
  let mp' := foldl (λ mp k, remove_key k mp) mp ks in
  by_key mp' = filter (λ e, e.1 ∉ ks) (by_key mp) ∧ mp_limits mp' = mp_limits mp ∧ (mp_ok mp → mp_ok mp').
Proof.
  revert mp. induction ks as [|k ks IH]; intros mp; simpl.
  - split_and!; [|done..]. symmetry. apply map_filter_id. set_solver.
  - destruct (IH (remove_key k mp)) as (E & El & Hok). split_and!.
    + rewrite E, remove_key_by_key. apply map_eq. intros k'. apply option_eq. intros tx.
      rewrite !map_lookup_filter_Some, lookup_delete_Some. simpl. set_solver.
    + by rewrite El, remove_key_limits.
    + intros H. by apply Hok, remove_key_ok.
Qed.

Lemma pool_step_refines mp op :
  mp_ok mp → op_ok op →
  mp_ok (pool_step mp op) ∧ mp_limits (pool_step mp op) = mp_limits mp
  ∧ by_key (pool_step mp op) = spec_step (mp_limits mp) (by_key mp) op.
Proof.
  intros Hok Hop. destruct op as [tx chain height account payer_|txs|height]; cbn [pool_step spec_step].
  - pose proof (mempool_insert_spec tx chain height account payer_ mp Hok) as Hs'.
    destruct (admits _ _ _ _ _ _ _) eqn:Had; [|by destruct Hs' as [e ->]]. rewrite Hs'. split_and!; [|done..].
    by eapply inserted_pool_ok.
  - unfold remove_committed. rewrite <- (foldl_fmap (λ mp k, remove_key k mp) mp txs pool_key).
    destruct (remove_keys (pool_key <$> txs) mp) as (? & ? & ?). auto.
  - unfold evict_expired. destruct (remove_keys (fst <$> List.filter (λ e, valid_until (body e.2) <? height)
      (pool_entries (by_key mp))) mp) as (E & ? & ?). split_and!; [auto|done|]. rewrite E.
    apply map_filter_ext. intros k tx Hk. simpl. rewrite list_elem_of_fmap. split.
    + intros Hn. destruct (Z.leb_spec height (valid_until (body tx))); [done|]. destruct Hn. exists (k, tx).
      split; [done|]. apply list_elem_of_In, List.filter_In. split; [by apply list_elem_of_In, elem_of_pool_entries|].
      by apply Z.ltb_lt.
    + intros Hle ([k' tx'] & -> & [Hin%list_elem_of_In%elem_of_pool_entries Hv]%list_elem_of_In%List.filter_In).
      simpl in *. bool_simpl. assert (tx' = tx) by congruence. subst. lia.
Qed.

Lemma pool_run l ops :
  limits_ok l → Forall op_ok ops →
  let mp := foldl pool_step (Mempool_new l) ops in
  by_key mp = foldl (spec_step l) ∅ ops ∧ mp_ok mp ∧ mp_limits mp = l.
Proof.
  intros Hl Hops.
  enough (∀ mp, mp_ok mp → mp_limits mp = l →
    by_key (foldl pool_step mp ops) = foldl (spec_step l) (by_key mp) ops
    ∧ mp_ok (foldl pool_step mp ops) ∧ mp_limits (foldl pool_step mp ops) = l) as H
    by (apply (H (Mempool_new l)); [by apply Mempool_new_ok|done]).
  induction Hops as [|op ops Hop Hops IH]; intros mp Hok El; [done|]. simpl.
  destruct (pool_step_refines mp op Hok Hop) as (Hok' & El' & E). rewrite <- El, <- E, El. apply IH; [done|congruence].
Qed.

(** C32: The pool's indexes and counters never lie.  Whatever is submitted, committed and
    expired, in whatever order, the transactions held are those of a pool that keeps
    nothing but the transactions and decides from them alone; every index and counter
    agrees with them, no nonce is claimed twice, and the transaction, byte and
    per-sender limits hold. *)
Theorem mempool_refines l ops :
  limits_ok l → Forall op_ok ops →
  let mp := foldl pool_step (Mempool_new l) ops in
  by_key mp = foldl (spec_step l) ∅ ops ∧ mp_limits mp = l
  ∧ (∀ id k, by_id mp !! id = Some k ↔ ∃ tx, by_key mp !! k = Some tx ∧ tx_id tx = id)
  ∧ (∀ a, default 0 (per_sender mp !! a) = sender_count a (by_key mp) ∧ sender_count a (by_key mp) ≤ max_per_sender l)
  ∧ mp_bytes mp = pool_total (by_key mp) ∧ pool_total (by_key mp) ≤ max_bytes l
  ∧ mp_len mp ≤ max_transactions l.
Proof.
  intros Hl Hops mp. destruct (pool_run l ops Hl Hops) as (E & Hok & El). fold mp in E, Hok, El.
  split_and!; [done..|apply Hok| |apply Hok|rewrite <- El; apply Hok|rewrite <- El; apply Hok].
  intros a. rewrite held_count by done. split; [done|]. rewrite <- El. apply Hok.
Qed.

(** ** What is proposed *)

Lemma fit_prefix count total txs : fit count total txs `prefix_of` txs.
Proof.
  revert count total. induction txs as [|tx txs IH]; intros count total; simpl; [done|].
  case_match; [by apply prefix_cons|apply prefix_nil].
Qed.

Lemma fit_limits count total txs :
  0 ≤ total ≤ MAX_BLOCK_BYTES →
  Z.of_nat (length (fit count total txs)) ≤ Z.max 0 (MAX_BLOCK_TRANSACTIONS - count)
  ∧ within_bytes total (fit count total txs) = true.
Proof.
  revert count total. induction txs as [|tx txs IH]; intros count total Ht; cbn [fit]; [split; [simpl; lia|done]|].
  destruct (_ && _) eqn:E; [|split; [simpl; lia|done]]. bool_simpl. pose proof (tx_size_nonneg tx).
  assert (0 ≤ total + tx_size tx) as Hnn by lia.
  destruct (IH (count + 1) (total + tx_size tx) (conj Hnn H0)) as [Hlen Hw]. cbn [length within_bytes]. split; [lia|].
  fold (tx_size tx). rewrite block_room, (block_room_exact total) by done. by destruct (Z.leb_spec (total + tx_size tx) MAX_BLOCK_BYTES); [|lia].
Qed.

(** Served entries, in the order of the walk: every predecessor of an entry comes first. *)
Lemma served_predecessors mp next i tx n :
  mp_ok mp →
  (snd <$> List.filter (λ e, servedb (by_key mp) next e.1) (pool_entries (by_key mp))) !! i = Some tx →
  next (tx_sender (body tx)) ≤ n < tx_nonce (body tx) →
  ∃ j tx', (j < i)%nat
    ∧ (snd <$> List.filter (λ e, servedb (by_key mp) next e.1) (pool_entries (by_key mp))) !! j = Some tx'
    ∧ pool_key tx' = (tx_sender (body tx), n).
Proof.
  intros Hok Hi Hn. set (F := List.filter _ _) in *.
  rewrite list_lookup_fmap in Hi. destruct (F !! i) as [[k t]|] eqn:Ei; [|done]. injection Hi as ->.
  pose proof Ei as HF%list_elem_of_lookup_2. apply list_elem_of_In, List.filter_In in HF as [Hin Hsv].
  apply list_elem_of_In, elem_of_pool_entries in Hin. simpl in Hsv.
  destruct (mk_key _ Hok _ _ Hin) as [<- _]. apply servedb_spec in Hsv. pose proof Hsv as (_ & _ & H3).
  destruct (H3 n Hn) as [t' Ht']. cbn [pool_key fst] in Ht'.
  destruct (mk_key _ Hok _ _ Ht') as [Hk' _].
  assert (((tx_sender (body tx), n), t') ∈ F) as HF.
  { apply list_elem_of_In, List.filter_In. split; [by apply list_elem_of_In, elem_of_pool_entries|].
    apply servedb_spec. eapply served_below; [exact Hsv|simpl; lia|by eexists]. }
  apply list_elem_of_lookup in HF as [j Ej]. exists j, t'. rewrite list_lookup_fmap, Ej. split_and!; [|done..].
  destruct (decide (j < i)%nat) as [|Hge]; [done|]. exfalso.
  assert (StronglySorted entry_le F) as Hsrt.
  { apply StronglySorted_filter_bool, pool_entries_sorted. }
  assert (pool_key tx ≠ (tx_sender (body tx), n)) as Hpk by (unfold pool_key; intros [= ?]; lia).
  destruct (decide (i = j)) as [->|Hne]; [congruence|].
  pose proof (StronglySorted_lookup_lt entry_le F i j _ _ Hsrt ltac:(lia) Ei Ej) as Hle.
  apply entry_le_iff in Hle. simpl in Hle. destruct Hle as [E|Hlt].
  - done.
  - apply key_cmp_lt in Hlt as [?%bytes_lt_irrefl|[_ ?]]; simpl in *; [done|lia].
Qed.

(** A proposal is exactly what can be included.  In any pool the operations can
    produce, [select] walks senders in order and returns, as long as the block has
    room, the transactions whose whole run of nonces from the account's next one is
    held; so the block it makes is within the block limits, every transaction in it is
    a held one, and each comes after all its predecessors from the same sender. *)
Theorem select_exact l ops next header :
  limits_ok l → Forall op_ok ops →
  let mp := foldl pool_step (Mempool_new l) ops in
  select next mp = fit 0 0 (snd <$> List.filter (λ e, servedb (by_key mp) next e.1) (pool_entries (by_key mp)))
  ∧ within_size_limits {| b_header := header; transactions := select next mp |} = true
  ∧ ∀ i tx, select next mp !! i = Some tx →
      by_key mp !! pool_key tx = Some tx ∧ next (tx_sender (body tx)) ≤ tx_nonce (body tx)
      ∧ ∀ n, next (tx_sender (body tx)) ≤ n < tx_nonce (body tx) →
          ∃ j tx', (j < i)%nat ∧ select next mp !! j = Some tx' ∧ pool_key tx' = (tx_sender (body tx), n).
Proof.
  intros Hl Hops mp. destruct (pool_run l ops Hl Hops) as (_ & Hok & _). fold mp in Hok.
  assert (nonces_ok (by_key mp)) as Hno by (intros k [tx Hk]; destruct (mk_key _ Hok _ _ Hk) as [<- ?]; done).
  pose proof (select_loop_spec (by_key mp) next (pool_entries (by_key mp)) [] None 0 0 Hno eq_refl eq_refl ltac:(done)) as E.
  fold (select next mp) in E. split; [done|].
  set (F := snd <$> _) in E. pose proof (fit_prefix 0 0 F) as Hpre. rewrite <- E in Hpre.
  destruct (fit_limits 0 0 F ltac:(done)) as [Hlen Hw]. rewrite <- E in Hlen, Hw. split.
  { unfold within_size_limits. cbn [transactions]. destruct (Z.ltb_spec MAX_BLOCK_TRANSACTIONS (Z.of_nat (length (select next mp))));
      [unfold MAX_BLOCK_TRANSACTIONS in *; lia|done]. }
  intros i tx Hi. pose proof (prefix_lookup_Some _ _ _ _ Hi Hpre) as HF.
  assert (by_key mp !! pool_key tx = Some tx ∧ served (by_key mp) next (pool_key tx)) as [Hk Hsv].
  { unfold F in HF. rewrite list_lookup_fmap in HF. apply fmap_Some in HF as ([k t] & Hin & ->).
    apply list_elem_of_lookup_2, list_elem_of_In, List.filter_In in Hin as [Hin%list_elem_of_In%elem_of_pool_entries Hs'].
    cbn [fst snd] in *. destruct (mk_key _ Hok _ _ Hin) as [<- _]. split; [done|by apply servedb_spec]. }
  split_and!; [done|apply Hsv|]. intros n Hn.
  destruct (served_predecessors mp next i tx n Hok HF Hn) as (j & tx' & Hj & HFj & Hk'). exists j, tx'. split_and!; [done| |done].
  destruct Hpre as [rest Erest]. unfold F in *. rewrite Erest, lookup_app_l in HFj; [done|]. apply lookup_lt_Some in Hi. lia.
Qed.
End books.
