(* ===== verification/Signing.v ===== *)
(** What a validator has signed, and its refusal to sign it again
    ([crates/node/src/signing.rs], [crates/daemon/src/signing.rs]).

    [SignRecord] is the interface the consensus driver is proved against; the
    in-memory record and the one kept in a file implement it.  The file system is a
    parameter: a write reaches stable storage or reports an error. *)

From S2P Require Import Prelude Codec Primitives Alias Validators Votes Round.

(** * The rule *)

Definition sign_point : Type := Height * Z * Step.

(** [Step]'s derived order. *)
Definition Step_code (s : Step) : Z := match s with SPropose => 0 | SPrevote => 1 | SPrecommit => 2 end.

(** The order of [(Height, Round, Step)]. *)
Definition point_cmp (p q : sign_point) : comparison :=
  let '(h1, r1, s1) := p in let '(h2, r2, s2) := q in
  match Z.compare h1 h2 with
  | Eq => match Z.compare r1 r2 with Eq => Z.compare (Step_code s1) (Step_code s2) | c => c end
  | c => c
  end.
Definition point_lt (p q : sign_point) : Prop := point_cmp p q = Lt.

Inductive SignRefusal :=
| AlreadySigned (asked last : sign_point)
| NotDurable (why : string).

Definition check_after (last : option sign_point) (next : sign_point) : result SignRefusal unit :=
  match last with
  | None => Ok tt
  | Some last => match point_cmp next last with Gt => Ok tt | _ => Err (AlreadySigned next last) end
  end.

(** What a record promises: a claim is granted only strictly after the last one and is
    then the last one; a refused claim changes nothing. *)
Class SignRecord (R : Type) := {
  claim : Height → Z → Step → M R SignRefusal unit;
  last_claim : R → option sign_point;
  claim_Ok h r s rec rec' :
    claim h r s rec = (Ok tt, rec') → check_after (last_claim rec) (h, r, s) = Ok tt ∧ last_claim rec' = Some (h, r, s);
  claim_Err h r s rec rec' e : claim h r s rec = (Err e, rec') → last_claim rec' = last_claim rec;
}.

(** * [MemorySignRecord] *)

Definition memory_claim (h : Height) (r : Z) (s : Step) : M (option sign_point) SignRefusal unit :=
  do! reads (λ held, check_after held (h, r, s)) in
  writes (λ _, Some (h, r, s)).

#[export] Instance memory_record : SignRecord (option sign_point).
Proof.
  refine {| claim := memory_claim; last_claim := id |}; unfold memory_claim, id.
  - intros h r s rec rec' H. repeat inv_M_step. by repeat match goal with u : unit |- _ => destruct u end.
  - intros h r s rec rec' e H. by repeat inv_M_step.
Defined.

(** * [FileSignRecord] *)

(** The file as it stands on stable storage, and the cached claim. *)
Record FileSignRecord := {
  fr_file : option bytes;
  fr_last : option sign_point;
}.

Definition step_of (code : Z) : option Step :=
  if code =? 0 then Some SPropose else if code =? 1 then Some SPrevote else if code =? 2 then Some SPrecommit else None.

(** [char::is_whitespace], each character as its bytes. *)
Definition whitespace : list bytes :=
  ((λ c, [byte_of c]) <$> [9; 10; 11; 12; 13; 32])
  ++ [[xc2; x85]; [xc2; xa0]; [xe1; x9a; x80]]
  ++ ((λ c, [xe2; x80; byte_of c]) <$> [0x80; 0x81; 0x82; 0x83; 0x84; 0x85; 0x86; 0x87; 0x88; 0x89; 0x8a; 0xa8; 0xa9; 0xaf])
  ++ [[xe2; x81; x9f]; [xe3; x80; x80]].
Definition is_whitespace (c : bytes) : bool := bool_decide (c ∈ whitespace).

(** [str::split_whitespace]: [cur] is the word being read, in reverse. *)
Fixpoint words_from (cur : list bytes) (cs : list bytes) : list bytes :=
  match cs with
  | [] => match cur with [] => [] | _ => [concat (rev cur)] end
  | c :: cs =>
      if is_whitespace c
      then match cur with [] => words_from [] cs | _ => concat (rev cur) :: words_from [] cs end
      else words_from (c :: cur) cs
  end.
Definition split_whitespace (text : bytes) : list bytes := words_from [] (chars text).

(** [str::parse::<u64>]: an optional plus sign, then digits. *)
Definition parse_u64 (s : bytes) : option Z :=
  let s := match s with x2b :: rest => rest | _ => s end in
  match parse_u128 s with
  | Some n => if n <=? u64_max then Some n else None
  | None => None
  end.

Definition next_number (what : string) (parts : list bytes) : result string (Z * list bytes) :=
  match parts with
  | [] => Err (String.append "missing " what)
  | p :: parts => match parse_u64 p with Some n => Ok (n, parts) | None => Err (String.append what " is not a number") end
  end.

Definition parse_record (text : bytes) : result string (option sign_point) :=
  match split_whitespace text with
  | [] => Ok None
  | parts =>
      '(height, parts) ← next_number "height" parts;
      '(round, parts) ← next_number "round" parts;
      _ ← (if round <=? u32_max then Ok tt else Err "round is out of range"%string);
      '(code, parts) ← next_number "step" parts;
      _ ← (if code <=? u8_max then Ok tt else Err "step is out of range"%string);
      match step_of code with
      | None => Err (String.append "step " (String.append (String.string_of_list_byte (u128_to_string code)) " is not a step"))
      | Some step =>
          match parts with
          | [] => Ok (Some (height, round, step))
          | _ => Err "trailing junk"%string
          end
      end
  end.

Definition fr_open (file : option bytes) : result string FileSignRecord :=
  match file with
  | None => Ok {| fr_file := None; fr_last := None |}
  | Some text => last ← parse_record text; Ok {| fr_file := file; fr_last := last |}
  end.

(** The text [persist] writes. *)
Definition record_text (p : sign_point) : bytes :=
  let '(h, r, s) := p in
  u128_to_string h ++ [x20] ++ u128_to_string r ++ [x20] ++ u128_to_string (Step_code s) ++ [x0a].

Section file.
(** Writing the temporary file, flushing it and renaming it over the record either
    all succeeds, and the record is the new text, or an error is reported and the
    record is the old one. *)
Context (disk : bytes → option string).

Definition persist (p : sign_point) : M FileSignRecord string unit :=
  let text := record_text p in
  match disk text with
  | Some why => throw why
  | None => writes (λ fr, {| fr_file := Some text; fr_last := fr_last fr |})
  end.

Definition file_claim (h : Height) (r : Z) (s : Step) : M FileSignRecord SignRefusal unit :=
  do! reads (λ fr, check_after (fr_last fr) (h, r, s)) in
  do! wrap_err NotDurable (persist (h, r, s)) in
  writes (λ fr, {| fr_file := fr_file fr; fr_last := Some (h, r, s) |}).

#[export] Instance file_record : SignRecord FileSignRecord.
Proof.
  refine {| claim := file_claim; last_claim := fr_last |}; unfold file_claim, persist.
  - intros h r s rec rec' H. repeat inv_M_step. repeat match goal with u : unit |- _ => destruct u end.
    case_match; repeat inv_M_step; done.
  - intros h r s rec rec' e H. repeat inv_M_step; try done; case_match; by repeat inv_M_step.
Defined.
End file.

(** * The order *)

Lemma point_cmp_antisym p q : point_cmp q p = CompOpp (point_cmp p q).
Proof.
  destruct p as [[h1 r1] s1], q as [[h2 r2] s2]. unfold point_cmp.
  rewrite (Z.compare_antisym h1 h2). destruct (h1 ?= h2); try done. simpl.
  rewrite (Z.compare_antisym r1 r2). destruct (r1 ?= r2); try done. simpl. apply Z.compare_antisym.
Qed.

Lemma point_lt_iff h1 r1 s1 h2 r2 s2 :
  point_lt (h1, r1, s1) (h2, r2, s2)
  ↔ h1 < h2 ∨ h1 = h2 ∧ (r1 < r2 ∨ r1 = r2 ∧ Step_code s1 < Step_code s2).
Proof.
  unfold point_lt, point_cmp. destruct (Z.compare_spec h1 h2), (Z.compare_spec r1 r2);
    try rewrite Z.compare_lt_iff; naive_solver lia.
Qed.

#[export] Instance point_lt_trans : Transitive point_lt.
Proof. intros [[h1 r1] s1] [[h2 r2] s2] [[h3 r3] s3]. rewrite !point_lt_iff. lia. Qed.

Lemma point_lt_irrefl p : ¬ point_lt p p.
Proof. destruct p as [[h r] s]. rewrite point_lt_iff. lia. Qed.

Lemma check_after_Ok last next :
  check_after last next = Ok tt ↔ match last with Some p => point_lt p next | None => True end.
Proof.
  destruct last as [p|]; [|done]. unfold check_after, point_lt. rewrite (point_cmp_antisym next p).
  by destruct (point_cmp next p).
Qed.

(** * A record survives a restart *)

Lemma digit_ascii b : is_ascii_digit b = true → char_len b = 1%nat ∧ is_whitespace [b] = false.
Proof. destruct b; try discriminate; intros _; vm_compute; done. Qed.

(** A word of digits up to a one-byte separator. *)
Lemma words_from_digits ds cur fuel c rest :
  digits ds → (length ds < fuel)%nat → char_len c = 1%nat → is_whitespace [c] = true →
  words_from cur (chars_from fuel (ds ++ c :: rest))
  = match rev ((λ b, [b]) <$> ds) ++ cur with
    | [] => words_from [] (chars_from (fuel - length ds - 1) rest)
    | w => concat (rev w) :: words_from [] (chars_from (fuel - length ds - 1) rest)
    end.
Proof.
  intros Hd Hf Hc Hw. revert cur fuel Hf. induction ds as [|d ds IH]; intros cur [|fuel] Hf; simpl in Hf; try lia.
  - cbn [app chars_from]. rewrite Hc. cbn [firstn skipn words_from].
    rewrite take_0, drop_0, Hw. cbn [length rev fmap list_fmap app].
    replace (S fuel - 0 - 1)%nat with fuel by lia. by destruct cur.
  - cbn [forallb] in Hd. apply andb_true_iff in Hd as [Hd1 Hd2]. destruct (digit_ascii d Hd1) as [Hl Hn].
    cbn [app chars_from]. rewrite Hl. cbn [firstn skipn words_from]. rewrite take_0, drop_0, Hn, IH by (done || lia).
    cbn [length fmap list_fmap rev]. rewrite <- app_assoc. cbn [app].
    replace (S fuel - S (length ds) - 1)%nat with (fuel - length ds - 1)%nat by lia. done.
Qed.

Lemma concat_singletons (l : bytes) : concat ((λ b, [b]) <$> l) = l.
Proof. induction l as [|b l IH]; [done|]. cbn [fmap list_fmap concat app]. by rewrite IH. Qed.

Lemma word_of_digits ds fuel c rest :
  digits ds → ds ≠ [] → (length ds < fuel)%nat → char_len c = 1%nat → is_whitespace [c] = true →
  words_from [] (chars_from fuel (ds ++ c :: rest)) = ds :: words_from [] (chars_from (fuel - length ds - 1) rest).
Proof.
  intros Hd Hne Hf Hc Hw. rewrite words_from_digits by done. rewrite app_nil_r.
  destruct (rev ((λ b, [b]) <$> ds)) as [|w ws] eqn:E.
  - apply (f_equal length) in E. rewrite length_rev, length_fmap in E. by destruct ds.
  - rewrite <- E, rev_involutive. by rewrite concat_singletons.
Qed.

Definition point_ok (p : sign_point) : Prop := let '(h, r, _) := p in 0 ≤ h ≤ u64_max ∧ 0 ≤ r ≤ u32_max.

Lemma number_text n : 0 ≤ n ≤ u64_max →
  digits (u128_to_string n) ∧ u128_to_string n ≠ [] ∧ parse_u64 (u128_to_string n) = Some n.
Proof.
  intros Hn. unfold u64_max in Hn. destruct (u128_to_string_spec 39 n ltac:(lia) ltac:(simpl; lia)) as (Hne & _ & Hd & _).
  split_and!; [done..|]. pose proof (parse_u128_to_string n ltac:(unfold u128_max; lia)) as Hp.
  unfold parse_u64. destruct (u128_to_string n) as [|b s] eqn:E; [done|].
  assert (b ≠ x2b) as Hb by (intros ->; done).
  assert (match b :: s with x2b :: rest => rest | _ => b :: s end = b :: s) as -> by (by destruct b).
  rewrite Hp. unfold u64_max. by destruct (Z.leb_spec n (2 ^ 64 - 1)); [|lia].
Qed.

Lemma split_record_text h r s :
  point_ok (h, r, s) →
  split_whitespace (record_text (h, r, s)) = [u128_to_string h; u128_to_string r; u128_to_string (Step_code s)].
Proof.
  intros [Hh Hr]. assert (0 ≤ Step_code s ≤ u64_max) as Hs by (unfold u64_max; destruct s; simpl; lia).
  assert (0 ≤ r ≤ u64_max) as Hr' by (unfold u32_max, u64_max in *; lia).
  destruct (number_text h Hh) as (? & ? & _), (number_text r Hr') as (? & ? & _), (number_text _ Hs) as (? & ? & _).
  unfold split_whitespace, chars, record_text. rewrite !length_app. cbn [app].
  rewrite word_of_digits by (done || simpl; lia). rewrite word_of_digits by (done || simpl; lia).
  rewrite word_of_digits by (done || simpl; lia). assert (∀ n, chars_from n [] = []) as -> by (by intros []). done.
Qed.

Lemma parse_record_text p : point_ok p → parse_record (record_text p) = Ok (Some p).
Proof.
  destruct p as [[h r] s]. intros Hp. unfold parse_record. rewrite split_record_text by done. destruct Hp as [Hh Hr].
  assert (0 ≤ Step_code s ≤ u64_max) as Hs by (unfold u64_max; destruct s; simpl; lia).
  assert (0 ≤ r ≤ u64_max) as Hr' by (unfold u32_max, u64_max in *; lia).
  destruct (number_text h Hh) as (_ & _ & E1), (number_text r Hr') as (_ & _ & E2), (number_text _ Hs) as (_ & _ & E3).
  assert (∀ what t n parts, parse_u64 t = Some n → next_number what (t :: parts) = Ok (n, parts)) as Hn
    by (intros what t n parts E; unfold next_number; by rewrite E).
  rewrite (Hn _ _ h) by done. cbn [mbind result_bind]. rewrite (Hn _ _ r) by done. cbn [mbind result_bind].
  destruct (Z.leb_spec r u32_max); [|lia]. cbn [mbind result_bind]. rewrite (Hn _ _ (Step_code s)) by done. by destruct s.
Qed.

(** Claims made one after another, whatever the disk does. *)
Definition claim_all (disk : bytes → option string) (rec : FileSignRecord) (ps : list sign_point) : FileSignRecord :=
  foldl (λ rec p, (file_claim disk p.1.1 p.1.2 p.2 rec).2) rec ps.

Lemma file_claim_keeps disk p rec :
  point_ok p → fr_open (fr_file rec) = Ok rec → fr_open (fr_file (file_claim disk p.1.1 p.1.2 p.2 rec).2)
    = Ok (file_claim disk p.1.1 p.1.2 p.2 rec).2.
Proof.
  destruct p as [[h r] s]. intros Hp Ho. unfold file_claim, persist, bind, reads, wrap_err, throw, writes. cbn [fst snd].
  destruct (check_after _ _) as [[]|e]; [|done]. destruct (disk _) as [why|]; [done|].
  cbn [map_err snd fr_file fr_last]. unfold fr_open. rewrite parse_record_text by done. done.
Qed.

(** A restart forgets nothing.  A record starts from a missing file; whatever claims are
    made and whichever writes fail, reopening the file gives back the very
    record the process held: the last claim granted, so that nothing signed before
    the restart can be signed again after it. *)
Theorem sign_record_survives_restart disk ps :
  Forall point_ok ps →
  let rec := claim_all disk {| fr_file := None; fr_last := None |} ps in
  fr_open (fr_file rec) = Ok rec
  ∧ ∀ h r s rec', file_claim disk h r s rec = (Ok tt, rec') →
      match fr_last rec with Some p => point_lt p (h, r, s) | None => True end ∧ fr_last rec' = Some (h, r, s).
Proof.
  intros Hps rec. split.
  - enough (∀ rec0, fr_open (fr_file rec0) = Ok rec0 → fr_open (fr_file (claim_all disk rec0 ps)) = Ok (claim_all disk rec0 ps))
      as H by (by apply H).
    unfold claim_all. induction Hps as [|p ps Hp Hps IH]; intros rec0 H0; [done|]. simpl. apply IH. by apply file_claim_keeps.
  - intros h r s rec' Hc. pose proof (@claim_Ok _ (file_record disk) h r s rec rec' Hc) as [Ha Hl].
    split; [|exact Hl]. by apply check_after_Ok in Ha.
Qed.
