(* ===== verification/Contact.v ===== *)
(** What a contact binding is made of ([crates/alias/src/contact.rs]): the canonical form of
    a phone number or email address, and the commitment that stands for it on chain.

    This runs off chain, at the attestor and in the wallet that looks a contact up; both must
    come to the same commitment.  Characters are the byte strings of [chars]. *)

From S2P Require Import Prelude SortedVec Codec Primitives Crypto Alias AliasProofs Request Signing.

Definition MIN_PEPPER_LEN : nat := 16.

Inductive ContactError := NotE164 | MalformedEmail | WeakPepper (len : nat).
Inductive ContactKind := Phone | Email.
Definition kind_tag (k : ContactKind) : Z := match k with Phone => 1 | Email => 2 end.

(** [str::trim], on characters. *)
Fixpoint skip_spaces (cs : list bytes) : list bytes :=
  match cs with c :: cs' => if is_whitespace c then skip_spaces cs' else cs | [] => [] end.
Definition str_trim (s : bytes) : bytes := concat (rev (skip_spaces (rev (skip_spaces (chars s))))).

(** The characters a written phone number may be spaced with. *)
Definition is_spacing (c : bytes) : bool := is_whitespace c || bool_decide (c ∈ [bs "-"; bs "("; bs ")"]).
Definition unspaced (s : bytes) : bytes := concat (List.filter (λ c, negb (is_spacing c)) (chars s)).

Section contact.
Context {Un : Unicode} {Hs : Hasher}.

Definition normalise (k : ContactKind) (identifier : bytes) : result ContactError bytes :=
  match k with
  | Phone =>
      let digits := unspaced (str_trim identifier) in
      rest ← ok_or NotE164 (strip_prefix (bs "+") digits);
      let n := length rest in
      if negb ((8 <=? n)%nat && (n <=? 15)%nat) || negb (forallb is_ascii_digit rest) then Err NotE164
      else Ok (bs "+" ++ rest)
  | Email =>
      let lowered := to_lowercase (str_trim identifier) in
      '(local, domain) ← ok_or MalformedEmail (split_once 64 lowered);
      if bool_decide (local = []) || bool_decide (domain = []) || negb (contains 46 domain) || starts_with (bs ".") domain
         || bool_decide (last domain = Some dot) || existsb is_whitespace (chars lowered)
      then Err MalformedEmail
      else Ok lowered
  end.

Definition commitment_parts (pepper : bytes) (k : ContactKind) (normalised : bytes) : list bytes := [pepper; [byte_of (kind_tag k)]; normalised].
Definition ContactCommitment_new (k : ContactKind) (identifier pepper : bytes) : result ContactError ContactCommitment :=
  if (length pepper <? MIN_PEPPER_LEN)%nat then Err (WeakPepper (length pepper))
  else
    normalised ← normalise k identifier;
    Ok (hash_parts DContactCommitment (commitment_parts pepper k normalised)).

(** ** One number, one form *)

Definition e164 (s : bytes) : Prop := ∃ rest, s = bs "+" ++ rest ∧ digits rest ∧ (8 ≤ length rest ≤ 15)%nat.

Lemma normalise_phone_exact s n :
  normalise Phone s = Ok n ↔ unspaced (str_trim s) = n ∧ e164 n.
Proof.
  unfold normalise, e164, strip_prefix, starts_with. split.
  - intros H. case_bool_decide as Hp; [|done]. destruct Hp as [t Hp]. rewrite Hp in *. cbn [length bs String.list_byte_of_string] in H.
    change (bs "+" ++ t) with (byte_of 43 :: t) in *. cbn -[Nat.leb forallb] in H. rewrite drop_0 in H. destruct (Nat.leb_spec 8 (length t)); [|done]. destruct (Nat.leb_spec (length t) 15); [|done].
    destruct (forallb is_ascii_digit t) eqn:Hd; [|done]. simpl in H. injection H as <-. split; [done|]. exists t. auto.
  - intros (-> & rest & -> & Hd & Hl). rewrite bool_decide_eq_true_2 by (by exists rest). change (bs "+" ++ rest) with (byte_of 43 :: rest). cbn -[Nat.leb forallb]. rewrite drop_0.
    destruct (Nat.leb_spec 8 (length rest)); [|lia]. destruct (Nat.leb_spec (length rest) 15); [|lia]. by rewrite Hd.
Qed.

Lemma ascii_chars s fuel : forallb (λ b, byte_val b <? 128) s = true → (length s ≤ fuel)%nat → chars_from fuel s = (λ b, [b]) <$> s.
Proof.
  revert fuel. induction s as [|b s IH]; intros [|fuel] Ha Hf; simpl in *; try done; try lia.
  apply andb_true_iff in Ha as [Hb Ha].
  assert (char_len b = 1%nat) as ->.
  { pose proof (byte_cases (λ b, implb (byte_val b <? 128) (Nat.eqb (char_len b) 1)) ltac:(by vm_compute) b) as H. cbv beta in H. rewrite Hb in H. by apply Nat.eqb_eq. }
  cbn [take drop firstn skipn]. rewrite take_0, drop_0. f_equal. apply IH; [done|lia].
Qed.
Lemma e164_plain n : e164 n → forallb (λ b, (byte_val b <? 128) && negb (is_spacing [b])) n = true.
Proof.
  intros (rest & -> & Hd & _). change (bs "+" ++ rest) with (byte_of 43 :: rest). cbn [forallb]. rewrite andb_true_iff. split; [by vm_compute|].
  rewrite forallb_forall in *. intros b Hb. specialize (Hd b Hb).
  pose proof (byte_cases (λ b, implb (is_ascii_digit b) ((byte_val b <? 128) && negb (is_spacing [b]))) ltac:(by vm_compute) b) as H. cbv beta in H. rewrite Hd in H. exact H.
Qed.

Lemma skip_plain cs : Forall (λ c, is_whitespace c = false) cs → skip_spaces cs = cs.
Proof. intros H. destruct H as [|c cs Hc _]; [done|]. simpl. by rewrite Hc. Qed.

(** The canonical form is its own canonical form. *)
Theorem normalise_phone_idem s n : normalise Phone s = Ok n → normalise Phone n = Ok n.
Proof.
  rewrite !normalise_phone_exact. intros [_ He]. split; [|done]. pose proof (e164_plain n He) as Hp.
  assert (forallb (λ b, byte_val b <? 128) n = true ∧ Forall (λ c, is_spacing c = false) ((λ b, [b]) <$> n)) as [Ha Hn].
  { clear He. induction n as [|b n IH]; [by repeat constructor|]. simpl in *. rewrite !andb_true_iff in Hp. destruct Hp as [[H1 H2] H3]. apply negb_true_iff in H2.
    destruct (IH H3). rewrite H1. split; [done|]. by constructor. }
  assert (chars n = (λ b, [b]) <$> n) as Hc by (apply ascii_chars; done).
  assert (Forall (λ c, is_whitespace c = false) (chars n)) as Hw by (rewrite Hc; eapply Forall_impl; [exact Hn|]; intros c [? _]%orb_false_iff; done).
  assert (str_trim n = n) as ->.
  { unfold str_trim. rewrite (skip_plain (chars n)) by done. rewrite skip_plain by (by apply Forall_rev). rewrite rev_involutive, Hc. apply concat_singletons. }
  unfold unspaced. rewrite Hc. rewrite <-(concat_singletons n) at 2. f_equal. clear -Hn. induction Hn as [|c cs H _ IH]; [done|]. simpl. rewrite H. simpl. by f_equal.
Qed.

(** Spacing is not part of a number: what is between its digits, and around it, changes
    neither the number nor the commitment. *)
Theorem spacing_is_free s s' pepper : unspaced (str_trim s) = unspaced (str_trim s') →
  normalise Phone s = normalise Phone s' ∧ ContactCommitment_new Phone s pepper = ContactCommitment_new Phone s' pepper.
Proof. intros E. assert (normalise Phone s = normalise Phone s') as H by (unfold normalise; by rewrite E). split; [done|]. unfold ContactCommitment_new. by rewrite H. Qed.

(** A commitment is to one contact.  Made with peppers of one length, equal commitments are to
    the same kind and the same canonical identifier under the same pepper, unless the two
    inputs collide. *)
Theorem commitment_binds k i p k' i' p' c :
  ContactCommitment_new k i p = Ok c → ContactCommitment_new k' i' p' = Ok c → length p = length p' →
  (∀ n n', normalise k i = Ok n → normalise k' i' = Ok n' →
     collision_free [hash_input DContactCommitment (concat (commitment_parts p k n)); hash_input DContactCommitment (concat (commitment_parts p' k' n'))]) →
  k = k' ∧ p = p' ∧ normalise k i = normalise k' i'.
Proof.
  unfold ContactCommitment_new. intros H1 H2 Hl Hcf. destruct (_ <? _)%nat; [done|]. destruct (length p' <? _)%nat; [done|].
  destruct (normalise k i) as [n|] eqn:E1; [|done]. destruct (normalise k' i') as [n'|] eqn:E2; [|done]. injection H1 as H1. injection H2 as H2. rewrite <-H1 in H2.
  specialize (Hcf n n' eq_refl eq_refl). unfold hash_parts in H2. apply Hcf in H2; [|by right; left|by left].
  apply hash_input_inj in H2 as [_ H2]. unfold commitment_parts in H2. cbn [concat] in H2. rewrite !app_nil_r in H2. apply app_inj_1 in H2 as [-> H2]; [|done].
  injection H2 as Ht ->. split_and!; [|done..]. by destruct k, k'.
Qed.

(** The commitments of one pepper to every written form of one number are one commitment. *)
Theorem phone_found s n pepper : normalise Phone s = Ok n → (MIN_PEPPER_LEN ≤ length pepper)%nat →
  ∃ c, ContactCommitment_new Phone s pepper = Ok c ∧ ContactCommitment_new Phone n pepper = Ok c.
Proof.
  intros H Hp. pose proof (normalise_phone_idem _ _ H) as Hn. unfold ContactCommitment_new. rewrite H, Hn.
  destruct (Nat.ltb_spec (length pepper) MIN_PEPPER_LEN); [lia|]. simpl. eauto.
Qed.
End contact.
