(* ===== verification/Node.v ===== *)
(** The consensus driver ([crates/node/src/lib.rs], [crates/node/src/proposal.rs]).

    A node is a function of its state and an event: it returns the actions to carry
    out and its new state.  Counting its own vote can complete a quorum, which emits
    the next vote; the mutual recursion of [on_vote] and [emit_vote] takes fuel, and
    [NODE_FUEL] is shown to be enough.  The signing record is any implementation of
    [SignRecord], the store any implementation of [KeyValueStore]. *)

From S2P Require Import Prelude SortedVec Codec Primitives Crypto Store Account Alias Validators.
From S2P Require Import Tx Executor Block Mempool Votes VoteProofs Round Signing.

(** * Proposals *)

Record Proposal := {
  p_chain_id : ChainId;
  p_height : Height;
  p_round : Z;
  p_block : Block;
  p_valid_round : option Z;
  p_proposer : Address;
}.
Record SignedProposal := { proposal : Proposal; p_signature : Signature }.

Section proposals.
Context {Hs : Hasher} {Sg : Signer} {Un : Unicode}.

Definition Proposal_codec : codec Proposal :=
  iso_codec
    (λ '(c, (h, (r, (b, (v, p))))),
       {| p_chain_id := c; p_height := h; p_round := r; p_block := b; p_valid_round := v; p_proposer := p |})
    (λ p, (p_chain_id p, (p_height p, (p_round p, (p_block p, (p_valid_round p, p_proposer p))))))
    (ChainId_codec ⊗ Height_codec ⊗ Round_codec ⊗ Block_codec ⊗ option_codec Round_codec ⊗ Address_codec).
#[export] Instance Proposal_lawful : Lawful Proposal_codec.
Proof. unfold Proposal_codec. struct_lawful. Qed.

Definition SignedProposal_codec : codec SignedProposal :=
  iso_codec (λ '(p, s), {| proposal := p; p_signature := s |}) (λ p, (proposal p, p_signature p))
    (Proposal_codec ⊗ Signature_codec).
#[export] Instance SignedProposal_lawful : Lawful SignedProposal_codec.
Proof. unfold SignedProposal_codec. struct_lawful. Qed.

Definition Proposal_block_id (p : Proposal) : Hash32 := BlockHeader_id (b_header (p_block p)).
Definition Proposal_sign_doc (p : Proposal) : bytes := encode Proposal_codec p.
Definition Proposal_sign {Sk : Signing} (sk : SecretKey) (p : Proposal) : SignedProposal :=
  {| proposal := p; p_signature := SecretKey_sign sk DBlockId (Proposal_sign_doc p) |}.
End proposals.
Arguments Proposal_codec : simpl never.
Arguments SignedProposal_codec : simpl never.

(** * Events and actions *)

Inductive Event :=
| EvProposal (p : SignedProposal)
| EvVote (v : SignedVote)
| EvTransaction (tx : Transaction)
| EvTimeout (s : Step).

Inductive Action :=
| BroadcastProposal (p : SignedProposal)
| BroadcastVote (v : SignedVote)
| BroadcastTransaction (tx : Transaction)
| ACommitted (b : Block) (c : Commit)
| ScheduleTimeout (s : Step) (r : Z)
| StartRound (r : Z).

Inductive SyncError :=
| SyncWrongChain (expected got : ChainId)
| SyncWrongHeight (expected got : Height)
| WrongParent
| CommitIsForAnotherBlock
| TxRootMismatch
| Oversized
| BadCommit (e : CommitError)
| AppHashMismatch.

Definition EVIDENCE_FEE : Amount := 1000.
Definition EVIDENCE_VALIDITY_BLOCKS : Z := 10000.

(** [BTreeMap::values] of a map keyed by rounds. *)
Definition round_le {A} (x y : Z * A) : Prop := x.1 ≤ y.1.
#[export] Instance round_le_dec {A} : RelDecision (@round_le A).
Proof. intros x y. unfold round_le. apply _. Defined.
Definition by_round {A} (m : gmap Z A) : list A := snd <$> merge_sort round_le (map_to_list m).

Section node.
Context {Hs : Hasher} {Sg : Signer} {Un : Unicode} {Sk : Signing}.
Context {St : Type} {KV : KeyValueStore St} {Ro : Rooted St} {R : Type} {SR : SignRecord R}.

(** ** The node *)

Record Node := {
  n_chain_id : ChainId;
  n_key : SecretKey;
  n_address : Address;
  n_validators : ValidatorSet;
  n_store : St;
  n_height : Height;
  last_block_id : Hash32;
  round_state : RoundState;
  proposals : gmap Z SignedProposal;
  prevotes : gmap Z VoteSet;
  precommits : gmap Z VoteSet;
  waits : list (Z * Step);
  signing : R;
  reported : gset bytes;
  refusals : list SignRefusal;
  begun : option (Height * Z);
  mempool : Mempool;
  committed : list Block;
  last_commit : option Commit;
  last_receipts : list TxReceipt;
  decided : bool;
}.

Implicit Types (nd : Node).

Definition set_n_store (x : St) nd : Node := {|
  n_chain_id := n_chain_id nd; n_key := n_key nd; n_address := n_address nd; n_validators := n_validators nd;
    n_store := x; n_height := n_height nd; last_block_id := last_block_id nd; round_state := round_state nd;
    proposals := proposals nd; prevotes := prevotes nd; precommits := precommits nd; waits := waits nd;
    signing := signing nd; reported := reported nd; refusals := refusals nd; begun := begun nd;
    mempool := mempool nd; committed := committed nd; last_commit := last_commit nd;
    last_receipts := last_receipts nd; decided := decided nd |}.
Definition set_n_height (x : Height) nd : Node := {|
  n_chain_id := n_chain_id nd; n_key := n_key nd; n_address := n_address nd; n_validators := n_validators nd;
    n_store := n_store nd; n_height := x; last_block_id := last_block_id nd; round_state := round_state nd;
    proposals := proposals nd; prevotes := prevotes nd; precommits := precommits nd; waits := waits nd;
    signing := signing nd; reported := reported nd; refusals := refusals nd; begun := begun nd;
    mempool := mempool nd; committed := committed nd; last_commit := last_commit nd;
    last_receipts := last_receipts nd; decided := decided nd |}.
Definition set_last_block_id (x : Hash32) nd : Node := {|
  n_chain_id := n_chain_id nd; n_key := n_key nd; n_address := n_address nd; n_validators := n_validators nd;
    n_store := n_store nd; n_height := n_height nd; last_block_id := x; round_state := round_state nd;
    proposals := proposals nd; prevotes := prevotes nd; precommits := precommits nd; waits := waits nd;
    signing := signing nd; reported := reported nd; refusals := refusals nd; begun := begun nd;
    mempool := mempool nd; committed := committed nd; last_commit := last_commit nd;
    last_receipts := last_receipts nd; decided := decided nd |}.
Definition set_round_state (x : RoundState) nd : Node := {|
  n_chain_id := n_chain_id nd; n_key := n_key nd; n_address := n_address nd; n_validators := n_validators nd;
    n_store := n_store nd; n_height := n_height nd; last_block_id := last_block_id nd; round_state := x;
    proposals := proposals nd; prevotes := prevotes nd; precommits := precommits nd; waits := waits nd;
    signing := signing nd; reported := reported nd; refusals := refusals nd; begun := begun nd;
    mempool := mempool nd; committed := committed nd; last_commit := last_commit nd;
    last_receipts := last_receipts nd; decided := decided nd |}.
Definition set_proposals (x : gmap Z SignedProposal) nd : Node := {|
  n_chain_id := n_chain_id nd; n_key := n_key nd; n_address := n_address nd; n_validators := n_validators nd;
    n_store := n_store nd; n_height := n_height nd; last_block_id := last_block_id nd;
    round_state := round_state nd; proposals := x; prevotes := prevotes nd; precommits := precommits nd;
    waits := waits nd; signing := signing nd; reported := reported nd; refusals := refusals nd; begun := begun nd;
    mempool := mempool nd; committed := committed nd; last_commit := last_commit nd;
    last_receipts := last_receipts nd; decided := decided nd |}.
Definition set_prevotes (x : gmap Z VoteSet) nd : Node := {|
  n_chain_id := n_chain_id nd; n_key := n_key nd; n_address := n_address nd; n_validators := n_validators nd;
    n_store := n_store nd; n_height := n_height nd; last_block_id := last_block_id nd;
    round_state := round_state nd; proposals := proposals nd; prevotes := x; precommits := precommits nd;
    waits := waits nd; signing := signing nd; reported := reported nd; refusals := refusals nd; begun := begun nd;
    mempool := mempool nd; committed := committed nd; last_commit := last_commit nd;
    last_receipts := last_receipts nd; decided := decided nd |}.
Definition set_precommits (x : gmap Z VoteSet) nd : Node := {|
  n_chain_id := n_chain_id nd; n_key := n_key nd; n_address := n_address nd; n_validators := n_validators nd;
    n_store := n_store nd; n_height := n_height nd; last_block_id := last_block_id nd;
    round_state := round_state nd; proposals := proposals nd; prevotes := prevotes nd; precommits := x;
    waits := waits nd; signing := signing nd; reported := reported nd; refusals := refusals nd; begun := begun nd;
    mempool := mempool nd; committed := committed nd; last_commit := last_commit nd;
    last_receipts := last_receipts nd; decided := decided nd |}.
Definition set_waits (x : list (Z * Step)) nd : Node := {|
  n_chain_id := n_chain_id nd; n_key := n_key nd; n_address := n_address nd; n_validators := n_validators nd;
    n_store := n_store nd; n_height := n_height nd; last_block_id := last_block_id nd;
    round_state := round_state nd; proposals := proposals nd; prevotes := prevotes nd; precommits := precommits nd;
    waits := x; signing := signing nd; reported := reported nd; refusals := refusals nd; begun := begun nd;
    mempool := mempool nd; committed := committed nd; last_commit := last_commit nd;
    last_receipts := last_receipts nd; decided := decided nd |}.
Definition set_signing (x : R) nd : Node := {|
  n_chain_id := n_chain_id nd; n_key := n_key nd; n_address := n_address nd; n_validators := n_validators nd;
    n_store := n_store nd; n_height := n_height nd; last_block_id := last_block_id nd;
    round_state := round_state nd; proposals := proposals nd; prevotes := prevotes nd; precommits := precommits nd;
    waits := waits nd; signing := x; reported := reported nd; refusals := refusals nd; begun := begun nd;
    mempool := mempool nd; committed := committed nd; last_commit := last_commit nd;
    last_receipts := last_receipts nd; decided := decided nd |}.
Definition set_reported (x : gset bytes) nd : Node := {|
  n_chain_id := n_chain_id nd; n_key := n_key nd; n_address := n_address nd; n_validators := n_validators nd;
    n_store := n_store nd; n_height := n_height nd; last_block_id := last_block_id nd;
    round_state := round_state nd; proposals := proposals nd; prevotes := prevotes nd; precommits := precommits nd;
    waits := waits nd; signing := signing nd; reported := x; refusals := refusals nd; begun := begun nd;
    mempool := mempool nd; committed := committed nd; last_commit := last_commit nd;
    last_receipts := last_receipts nd; decided := decided nd |}.
Definition set_refusals (x : list SignRefusal) nd : Node := {|
  n_chain_id := n_chain_id nd; n_key := n_key nd; n_address := n_address nd; n_validators := n_validators nd;
    n_store := n_store nd; n_height := n_height nd; last_block_id := last_block_id nd;
    round_state := round_state nd; proposals := proposals nd; prevotes := prevotes nd; precommits := precommits nd;
    waits := waits nd; signing := signing nd; reported := reported nd; refusals := x; begun := begun nd;
    mempool := mempool nd; committed := committed nd; last_commit := last_commit nd;
    last_receipts := last_receipts nd; decided := decided nd |}.
Definition set_begun (x : option (Height * Z)) nd : Node := {|
  n_chain_id := n_chain_id nd; n_key := n_key nd; n_address := n_address nd; n_validators := n_validators nd;
    n_store := n_store nd; n_height := n_height nd; last_block_id := last_block_id nd;
    round_state := round_state nd; proposals := proposals nd; prevotes := prevotes nd; precommits := precommits nd;
    waits := waits nd; signing := signing nd; reported := reported nd; refusals := refusals nd; begun := x;
    mempool := mempool nd; committed := committed nd; last_commit := last_commit nd;
    last_receipts := last_receipts nd; decided := decided nd |}.
Definition set_mempool (x : Mempool) nd : Node := {|
  n_chain_id := n_chain_id nd; n_key := n_key nd; n_address := n_address nd; n_validators := n_validators nd;
    n_store := n_store nd; n_height := n_height nd; last_block_id := last_block_id nd;
    round_state := round_state nd; proposals := proposals nd; prevotes := prevotes nd; precommits := precommits nd;
    waits := waits nd; signing := signing nd; reported := reported nd; refusals := refusals nd; begun := begun nd;
    mempool := x; committed := committed nd; last_commit := last_commit nd; last_receipts := last_receipts nd;
    decided := decided nd |}.
Definition set_committed (x : list Block) nd : Node := {|
  n_chain_id := n_chain_id nd; n_key := n_key nd; n_address := n_address nd; n_validators := n_validators nd;
    n_store := n_store nd; n_height := n_height nd; last_block_id := last_block_id nd;
    round_state := round_state nd; proposals := proposals nd; prevotes := prevotes nd; precommits := precommits nd;
    waits := waits nd; signing := signing nd; reported := reported nd; refusals := refusals nd; begun := begun nd;
    mempool := mempool nd; committed := x; last_commit := last_commit nd; last_receipts := last_receipts nd;
    decided := decided nd |}.
Definition set_last_commit (x : option Commit) nd : Node := {|
  n_chain_id := n_chain_id nd; n_key := n_key nd; n_address := n_address nd; n_validators := n_validators nd;
    n_store := n_store nd; n_height := n_height nd; last_block_id := last_block_id nd;
    round_state := round_state nd; proposals := proposals nd; prevotes := prevotes nd; precommits := precommits nd;
    waits := waits nd; signing := signing nd; reported := reported nd; refusals := refusals nd; begun := begun nd;
    mempool := mempool nd; committed := committed nd; last_commit := x; last_receipts := last_receipts nd;
    decided := decided nd |}.
Definition set_last_receipts (x : list TxReceipt) nd : Node := {|
  n_chain_id := n_chain_id nd; n_key := n_key nd; n_address := n_address nd; n_validators := n_validators nd;
    n_store := n_store nd; n_height := n_height nd; last_block_id := last_block_id nd;
    round_state := round_state nd; proposals := proposals nd; prevotes := prevotes nd; precommits := precommits nd;
    waits := waits nd; signing := signing nd; reported := reported nd; refusals := refusals nd; begun := begun nd;
    mempool := mempool nd; committed := committed nd; last_commit := last_commit nd; last_receipts := x;
    decided := decided nd |}.
Definition set_decided (x : bool) nd : Node := {|
  n_chain_id := n_chain_id nd; n_key := n_key nd; n_address := n_address nd; n_validators := n_validators nd;
    n_store := n_store nd; n_height := n_height nd; last_block_id := last_block_id nd;
    round_state := round_state nd; proposals := proposals nd; prevotes := prevotes nd; precommits := precommits nd;
    waits := waits nd; signing := signing nd; reported := reported nd; refusals := refusals nd; begun := begun nd;
    mempool := mempool nd; committed := committed nd; last_commit := last_commit nd;
    last_receipts := last_receipts nd; decided := x |}.

(** ** Reading the store *)

Definition account_record (s : St) (address : Address) : Account :=
  match get_decoded Account_codec s (key_account address) with
  | Ok (Some a) => a
  | _ => Account_individual address
  end.
Definition next_nonce (s : St) (address : Address) : Z := nonce (account_record s address).

Definition Node_new (chain : ChainId) (key : SecretKey) (vals : ValidatorSet) (s : St) (genesis_block : Block)
    (record : R) : Node :=
  let h := Height_next (h_height (b_header genesis_block)) in {|
    n_chain_id := chain; n_key := key; n_address := Address_from_public_key (verifying_key key);
    n_validators := vals; n_store := s; n_height := h;
    last_block_id := BlockHeader_id (b_header genesis_block); round_state := RoundState_new h;
    proposals := ∅; prevotes := ∅; precommits := ∅; waits := []; signing := record; reported := ∅;
    refusals := []; begun := None; mempool := Mempool_new MempoolLimits_default; committed := [];
    last_commit := None; last_receipts := []; decided := false |}.

Definition is_proposer (r : Z) nd : bool :=
  match proposer (n_validators nd) (n_height nd) r with
  | Some v => bool_decide (v_address v = n_address nd)
  | None => false
  end.

(** ** Operations that do not vote *)

Definition submit (transaction : Transaction) nd : result Rejected Transaction * Node :=
  let sender := account_record (n_store nd) (tx_sender (body transaction)) in
  let sponsor := account_record (n_store nd) <$> payer (fee (body transaction)) in
  match mempool_insert transaction (n_chain_id nd) (n_height nd) sender sponsor (mempool nd) with
  | (Ok _, mp) => (Ok transaction, set_mempool mp nd)
  | (Err e, mp) => (Err e, set_mempool mp nd)
  end.

Definition node_build_block (time : Timestamp) (txs : list Transaction) nd : Block :=
  (build_block (n_chain_id nd) (n_height nd) time (last_block_id nd) txs
     (ValidatorSets_unchanged (n_validators nd)) (n_store nd)).1.1.

Definition validate_block (block : Block) nd : bool :=
  if negb (h_height (b_header block) =? n_height nd)
     || negb (bool_decide (parent (b_header block) = last_block_id nd))
     || negb (bool_decide (h_chain_id (b_header block) = n_chain_id nd))
     || negb (tx_root_matches block)
  then false
  else if negb (within_size_limits block) then false
  else
    let o := (execute_block (n_chain_id nd) {| ctx_height := n_height nd; ctx_time := h_time (b_header block) |}
                (transactions block) (n_store nd)).1 in
    bool_decide (o_app_hash o = h_app_hash (b_header block)).

Definition report_equivocation (evidence : Equivocation) nd : list Action * Node :=
  if bool_decide (eq_validator evidence ∈ reported nd) then ([], nd)
  else
    let nd := set_reported ({[eq_validator evidence]} ∪ reported nd) nd in
    let filed := saturating_sub (Z.of_nat (size (reported nd))) 1 in
    let n := saturating_add u64_max (nonce (account_record (n_store nd) (n_address nd))) filed in
    let report := sign {|
      tx_chain_id := n_chain_id nd; tx_sender := n_address nd; tx_nonce := n;
      valid_until := saturating_add u64_max (n_height nd) EVIDENCE_VALIDITY_BLOCKS;
      fee := Fee_new EVIDENCE_FEE Denom_native;
      messages := [MsgReportEquivocation evidence];
      memo := [] |} (n_key nd) in
    match submit report nd with
    | (Ok accepted, nd) => ([BroadcastTransaction accepted], nd)
    | (Err _, nd) => ([], nd)
    end.

(** [Node::arm], with the condition already evaluated. *)
Definition arm (r : Z) (s : Step) (when : bool) nd : list Action * Node :=
  if bool_decide ((r, s) ∈ waits nd) || negb when then ([], nd)
  else ([ScheduleTimeout s r], set_waits ((r, s) :: waits nd) nd).

Definition advance_past (block : Block) (commit : Commit) nd : list Action * Node :=
  let mp := evict_expired (Height_next (n_height nd)) (remove_committed (transactions block) (mempool nd)) in
  let h := Height_next (n_height nd) in
  ([ACommitted block commit],
   {| n_chain_id := n_chain_id nd; n_key := n_key nd; n_address := n_address nd; n_validators := n_validators nd;
      n_store := n_store nd; n_height := h; last_block_id := BlockHeader_id (b_header block);
      round_state := RoundState_new h; proposals := ∅; prevotes := ∅; precommits := ∅; waits := [];
      signing := signing nd; reported := ∅; refusals := refusals nd; begun := begun nd; mempool := mp;
      committed := committed nd ++ [block]; last_commit := Some commit; last_receipts := last_receipts nd;
      decided := false |}).

Definition commit_block (block_id_ : Hash32) nd : list Action * Node :=
  match List.find (λ p, bool_decide (Proposal_block_id (proposal p) = block_id_)) (by_round (proposals nd)) with
  | None => ([], nd)
  | Some signed =>
      let block := p_block (proposal signed) in
      let r := rs_round (round_state nd) in
      let sigs := from_option (λ s, votes_for s (Some block_id_)) [] (precommits nd !! r) in
      let commit := Commit_new (n_height nd) r block_id_ sigs in
      let '(o, s) := execute_block (n_chain_id nd)
                       {| ctx_height := n_height nd; ctx_time := h_time (b_header block) |}
                       (transactions block) (n_store nd) in
      let nd := set_last_receipts (receipt <$> outcomes o) (set_n_store s nd) in
      advance_past block commit (set_decided true nd)
  end.

Definition check_precommit_quorum nd : list Action * Node :=
  let r := rs_round (round_state nd) in
  match precommits nd !! r ≫= λ s, quorum_value s (n_validators nd) with
  | None =>
      arm r SPrecommit
        (from_option (λ s, has_quorum_any s (n_validators nd)) false (precommits nd !! r)) nd
  | Some quorum =>
      match decide_commit (round_state nd) (Some quorum) with
      | (DCommit block, rs) => commit_block block (set_round_state rs nd)
      | (DNextRound next, rs) => ([StartRound next], set_round_state rs nd)
      | (_, rs) => ([], set_round_state rs nd)
      end
  end.

(** ** Voting *)

(** A function of the node that may run out of fuel. *)
Definition N (A : Type) : Type := Node → option (A * Node).
Definition nret {A} (a : A) : N A := λ nd, Some (a, nd).
Definition nbind {A B} (m : N A) (f : A → N B) : N B :=
  λ nd, match m nd with Some (a, nd) => f a nd | None => None end.
Definition pure {A} (f : Node → A * Node) : N A := λ nd, Some (f nd).

Definition prevote_quorum nd : option (option Hash32) :=
  prevotes nd !! rs_round (round_state nd) ≫= λ s, quorum_value s (n_validators nd).

(** [check_prevote_quorum], given [emit_vote]. *)
Definition check_prevote_quorum (emit : VoteType → option Hash32 → N (list Action)) : N (list Action) := λ nd,
  if bool_decide (rs_step (round_state nd) = SPrecommit) then Some ([], nd)
  else
    let r := rs_round (round_state nd) in
    match prevote_quorum nd with
    | None =>
        Some (arm r SPrevote (from_option (λ s, has_quorum_any s (n_validators nd)) false (prevotes nd !! r)) nd)
    | Some quorum =>
        match decide_precommit (round_state nd) (Some quorum) with
        | (DPrecommit value, rs) => emit Precommit value (set_round_state rs nd)
        | (_, rs) => Some ([], set_round_state rs nd)
        end
    end.

(** The vote set a vote belongs to, opened if there is none yet. *)
Definition vote_set_for (t : VoteType) (r : Z) nd : VoteSet :=
  default (VoteSet_new (n_chain_id nd) (n_height nd) r t)
    ((match t with Prevote => prevotes nd | Precommit => precommits nd end) !! r).
Definition put_vote_set (t : VoteType) (r : Z) (vs : VoteSet) nd : Node :=
  match t with
  | Prevote => set_prevotes (<[r := vs]> (prevotes nd)) nd
  | Precommit => set_precommits (<[r := vs]> (precommits nd)) nd
  end.

(** [emit_vote], given [on_vote]. *)
Definition emit_with (on : SignedVote → N (list Action)) (t : VoteType) (value : option Hash32) : N (list Action) :=
  λ nd,
  let s := match t with Prevote => SPrevote | Precommit => SPrecommit end in
  match claim (n_height nd) (rs_round (round_state nd)) s (signing nd) with
  | (Err refused, rec) => Some ([], set_refusals (refusals nd ++ [refused]) (set_signing rec nd))
  | (Ok _, rec) =>
      let nd := set_signing rec nd in
      let signed := Vote_sign (SecretKey_sign (n_key nd)) {|
        chain_id := n_chain_id nd; height := n_height nd; round := rs_round (round_state nd);
        vote_type := t; block_id := value; validator := n_address nd |} in
      nbind (on signed) (λ actions, nret (BroadcastVote signed :: actions)) nd
  end.

Fixpoint on_vote (fuel : nat) (signed : SignedVote) : N (list Action) := λ nd,
  match fuel with
  | O => None
  | S fuel =>
      if decided nd || negb (height (vote signed) =? n_height nd) then Some ([], nd)
      else
        let r := round (vote signed) in
        let t := vote_type (vote signed) in
        let '(o, vs) := VoteSet_add (n_validators nd) signed (vote_set_for t r nd) in
        let nd := put_vote_set t r vs nd in
        match o with
        | Err _ => Some ([], nd)
        | Ok o =>
            let '(reports, nd) :=
              match o with Equivocated evidence => report_equivocation evidence nd | _ => ([], nd) end in
            if negb (r =? rs_round (round_state nd)) then Some ([], nd)
            else
              nbind (match t with
                     | Prevote => check_prevote_quorum (emit_with (on_vote fuel))
                     | Precommit => pure check_precommit_quorum
                     end)
                (λ actions, nret (reports ++ actions)) nd
        end
  end.

(** A prevote can emit a precommit, a precommit emits nothing. *)
Definition NODE_FUEL : nat := 2.
Definition emit_vote : VoteType → option Hash32 → N (list Action) := emit_with (on_vote NODE_FUEL).

(** ** Handling events *)

Definition with_step (s : Step) (st : RoundState) : RoundState := {|
  rs_height := rs_height st; rs_round := rs_round st; rs_step := s;
  locked_value := locked_value st; locked_round := locked_round st;
  valid_value := valid_value st; valid_round := valid_round st |}.

Definition on_proposal (signed : SignedProposal) : N (list Action) := λ nd,
  let p := proposal signed in
  if decided nd || negb (p_height p =? n_height nd) || negb (p_round p =? rs_round (round_state nd))
  then Some ([], nd)
  else if match proposer (n_validators nd) (n_height nd) (p_round p) with
          | Some v => negb (bool_decide (v_address v = p_proposer p))
          | None => true
          end
  then Some ([], nd)
  else if negb (bool_decide (p_chain_id p = n_chain_id nd)) then Some ([], nd)
  else
    let valid := validate_block (p_block p) nd in
    let nd := set_proposals (<[p_round p := signed]> (proposals nd)) nd in
    match decide_prevote (round_state nd) (Some (Proposal_block_id p)) (p_valid_round p) valid with
    | DPrevote value =>
        emit_vote Prevote value (set_round_state (with_step SPrevote (round_state nd)) nd)
    | _ => Some ([], nd)
    end.

Definition on_timeout (s : Step) : N (list Action) := λ nd,
  if negb (bool_decide (rs_step (round_state nd) = s)) then Some ([], nd)
  else
    match s with
    | SPropose => emit_vote Prevote None (set_round_state (with_step SPrevote (round_state nd)) nd)
    | SPrevote => emit_vote Precommit None (set_round_state (with_step SPrecommit (round_state nd)) nd)
    | SPrecommit =>
        let next := Round_next (rs_round (round_state nd)) in
        Some ([StartRound next], set_round_state (advance_to (round_state nd) next) nd)
    end.

Definition handle (e : Event) : N (list Action) := λ nd,
  match e with
  | EvProposal p => on_proposal p nd
  | EvVote v => on_vote NODE_FUEL v nd
  | EvTransaction tx =>
      match submit tx nd with
      | (Ok accepted, nd) => Some ([BroadcastTransaction accepted], nd)
      | (Err _, nd) => Some ([], nd)
      end
  | EvTimeout s => on_timeout s nd
  end.

(** The block a proposer signs: with a valid value, the newest proposal held. *)
Definition block_to_propose (time : Timestamp) nd : Block * option Z :=
  let txs := select (next_nonce (n_store nd)) (mempool nd) in
  match valid_value (round_state nd) with
  | Some _ =>
      match last (by_round (proposals nd)) with
      | Some prev => (p_block (proposal prev), valid_round (round_state nd))
      | None => (node_build_block time txs nd, None)
      end
  | None => (node_build_block time txs nd, None)
  end.

Definition start_round (time : Timestamp) : N (list Action) := λ nd,
  let r := rs_round (round_state nd) in
  if bool_decide (begun nd = Some (n_height nd, r)) then Some ([], nd)
  else
    let nd := set_begun (Some (n_height nd, r)) nd in
    if is_proposer r nd then
      match claim (n_height nd) r SPropose (signing nd) with
      | (Err refused, rec) =>
          Some ([ScheduleTimeout SPropose r], set_refusals (refusals nd ++ [refused]) (set_signing rec nd))
      | (Ok _, rec) =>
          let nd := set_signing rec nd in
          let '(block, vr) := block_to_propose time nd in
          let signed := Proposal_sign (n_key nd) {|
            p_chain_id := n_chain_id nd; p_height := n_height nd; p_round := r; p_block := block;
            p_valid_round := vr; p_proposer := n_address nd |} in
          nbind (on_proposal signed) (λ actions, nret (BroadcastProposal signed :: actions)) nd
      end
    else Some ([ScheduleTimeout SPropose r], nd).

Definition apply_synced (block : Block) (commit : Commit) nd : result SyncError (list Action) * Node :=
  let header := b_header block in
  if negb (bool_decide (h_chain_id header = n_chain_id nd))
  then (Err (SyncWrongChain (n_chain_id nd) (h_chain_id header)), nd)
  else if negb (h_height header =? n_height nd) then (Err (SyncWrongHeight (n_height nd) (h_height header)), nd)
  else if negb (bool_decide (parent header = last_block_id nd)) then (Err WrongParent, nd)
  else if negb (bool_decide (c_block_id commit = BlockHeader_id header)) || negb (c_height commit =? h_height header)
  then (Err CommitIsForAnotherBlock, nd)
  else if negb (tx_root_matches block) then (Err TxRootMismatch, nd)
  else if negb (within_size_limits block) then (Err Oversized, nd)
  else
    match Commit_verify commit (n_chain_id nd) (n_validators nd) with
    | Err e => (Err (BadCommit e), nd)
    | Ok _ =>
        let '(o, s) := execute_block (n_chain_id nd) {| ctx_height := h_height header; ctx_time := h_time header |}
                         (transactions block) (n_store nd) in
        if negb (bool_decide (o_app_hash o = h_app_hash header)) then (Err AppHashMismatch, nd)
        else
          let '(actions, nd) :=
            advance_past block commit (set_last_receipts (receipt <$> outcomes o) (set_n_store s nd)) in
          (Ok actions, nd)
    end.
End node.
