(* ===== verification/NodeProofs.v ===== *)
(** What the consensus driver guarantees ([crates/node/src/lib.rs]): counting its own
    votes always ends, it never signs two values for one height, round and step,
    whatever it is sent and however often it restarts, and every block it commits
    carries a certificate that verifies. *)

From S2P Require Import Prelude SortedVec Codec Primitives Crypto Store Account Alias Validators.
From S2P Require Import Tx Executor Block Mempool Votes VoteProofs Round Signing Node.

Section node_proofs.
Context {Hs : Hasher} {Sg : Signer} {Un : Unicode} {Sk : Signing}.
Context {St : Type} {KV : KeyValueStore St} {Ro : Rooted St} {R : Type} {SR : SignRecord R}.
Abbreviation Node := (@Node Sg Sk St R).
Implicit Types (nd : Node) (v : SignedVote).

(** * Counting one's own vote ends *)

(** Two ways to count agree on votes of one kind. *)
Lemma emit_with_ext (on1 on2 : SignedVote → N (list Action)) t value nd :
  (∀ v nd, vote_type (vote v) = t → on1 v nd = on2 v nd) → emit_with on1 t value nd = emit_with on2 t value nd.
Proof. intros H. unfold emit_with, nbind. destruct (claim _ _ _ _) as [[]?]; [|done]. by rewrite H. Qed.

Lemma check_prevote_quorum_ext emit1 emit2 nd :
  (∀ value nd, emit1 Precommit value nd = emit2 Precommit value nd) →
  check_prevote_quorum emit1 nd = check_prevote_quorum emit2 nd.
Proof.
  intros H. unfold check_prevote_quorum. case_bool_decide; [done|]. destruct (prevote_quorum nd); [|done].
  destruct (decide_precommit _ _) as [[]?]; try done.
Qed.

(** A precommit is counted without any recursion. *)
Lemma on_vote_precommit f f' v nd :
  vote_type (vote v) = Precommit → on_vote (S f) v nd = on_vote (S f') v nd.
Proof. intros Ht. cbn [on_vote]. by rewrite Ht. Qed.

Lemma on_vote_fuel f f' v nd : on_vote (S (S f)) v nd = on_vote (S (S f')) v nd.
Proof.
  destruct (vote_type (vote v)) eqn:Ht; [|by apply on_vote_precommit].
  set (g := S f). set (g' := S f'). cbn [on_vote]. rewrite Ht.
  destruct (_ || _); [done|]. destruct (VoteSet_add _ _ _) as [[o|e] vs]; [|done].
  destruct (match o with Equivocated _ => _ | _ => _ end) as [reports nd']. destruct (negb _); [done|].
  unfold nbind. rewrite (check_prevote_quorum_ext _ (emit_with (on_vote g'))); [done|].
  intros value nd0. apply emit_with_ext. intros v' nd1 Ht'. by apply on_vote_precommit.
Qed.

Lemma emit_with_total (on : SignedVote → N (list Action)) t value nd :
  (∀ v nd, vote_type (vote v) = t → is_Some (on v nd)) → is_Some (emit_with on t value nd).
Proof.
  intros H. unfold emit_with, nbind, nret. destruct (claim _ _ _ _) as [[]?]; [|done].
  match goal with |- is_Some (match ?x with _ => _ end) => destruct x as [[? ?]|] eqn:E end; [done|].
  by rewrite <- E; apply H.
Qed.

Lemma on_vote_precommit_total f v nd : vote_type (vote v) = Precommit → is_Some (on_vote (S f) v nd).
Proof.
  intros Ht. cbn [on_vote]. rewrite Ht. destruct (_ || _); [done|].
  destruct (VoteSet_add _ _ _) as [[o|e] vs]; [|done].
  destruct (match o with Equivocated _ => _ | _ => _ end) as [reports nd']. destruct (negb _); [done|].
  unfold nbind, pure, nret. by destruct (check_precommit_quorum nd').
Qed.

Lemma on_vote_total f v nd : is_Some (on_vote (S (S f)) v nd).
Proof.
  destruct (vote_type (vote v)) eqn:Ht; [|by apply on_vote_precommit_total].
  set (g := S f). cbn [on_vote]. rewrite Ht. destruct (_ || _); [done|].
  destruct (VoteSet_add _ _ _) as [[o|e] vs]; [|done].
  destruct (match o with Equivocated _ => _ | _ => _ end) as [reports nd']. destruct (negb _); [done|].
  unfold nbind, nret. enough (is_Some (check_prevote_quorum (emit_with (on_vote g)) nd')) as [[? ?] ->] by done.
  unfold check_prevote_quorum. case_bool_decide; [done|]. destruct (prevote_quorum nd'); [|done].
  destruct (decide_precommit _ _) as [[]?]; try done. apply emit_with_total. intros. by apply on_vote_precommit_total.
Qed.

Lemma emit_vote_total t value nd : is_Some (emit_vote t value nd).
Proof. apply emit_with_total. intros. apply (on_vote_total 0). Qed.

Lemma on_proposal_total p nd : is_Some (on_proposal p nd).
Proof.
  unfold on_proposal. destruct (_ || _); [done|]. case_match; [done|]. destruct (negb _); [done|].
  destruct (decide_prevote _ _ _ _); try done. apply emit_vote_total.
Qed.

Lemma handle_total e nd : is_Some (handle e nd).
Proof.
  destruct e as [p|v|tx|s]; cbn [handle]; [apply on_proposal_total|apply (on_vote_total 0)| |].
  - by destruct (submit tx nd) as [[]?].
  - unfold on_timeout. destruct (negb _); [done|]. destruct s; [apply emit_vote_total..|done].
Qed.

Lemma start_round_total time nd : is_Some (start_round time nd).
Proof.
  unfold start_round. case_bool_decide; [done|]. destruct (is_proposer _ _); [|done].
  destruct (claim _ _ _ _) as [[]?]; [|done]. destruct (block_to_propose _ _) as [block vr].
  unfold nbind, nret. match goal with |- is_Some (match on_proposal ?p ?n with _ => _ end) => destruct (on_proposal_total p n) as [[? ?] ->] end.
  done.
Qed.

(** * Signing only ever moves forward *)

Definition vote_step (t : VoteType) : Step := match t with Prevote => SPrevote | Precommit => SPrecommit end.
Definition vote_point v : sign_point := (height (vote v), round (vote v), vote_step (vote_type (vote v))).
Definition action_points (a : Action) : list sign_point :=
  match a with
  | BroadcastVote v => [vote_point v]
  | BroadcastProposal p => [(p_height (proposal p), p_round (proposal p), SPropose)]
  | _ => []
  end.
Definition signed_points (acts : list Action) : list sign_point := acts ≫= action_points.

(** From one claim to another through the points signed in between. *)
Fixpoint climbs (from : option sign_point) (ps : list sign_point) (to : option sign_point) : Prop :=
  match ps with
  | [] => to = from
  | p :: ps => match from with Some q => point_lt q p | None => True end ∧ climbs (Some p) ps to
  end.

Lemma climbs_app a ps b qs c : climbs a ps b → climbs b qs c → climbs a (ps ++ qs) c.
Proof. revert a. induction ps as [|p ps IH]; intros a; simpl; [by intros ->|]. intros [? ?] ?. split; [done|by apply IH]. Qed.

Lemma climbs_sorted a ps b :
  climbs a ps b → StronglySorted point_lt ps ∧ match a with Some q => Forall (point_lt q) ps | None => True end.
Proof.
  revert a. induction ps as [|p ps IH]; intros a; simpl.
  - intros _. split; [constructor|by destruct a].
  - intros [Ha Hps]. destruct (IH _ Hps) as [Hsrt Hp]. split; [by constructor|]. destruct a as [q|]; [|done].
    constructor; [done|]. eapply Forall_impl; [done|]. intros p' Hp'. by etrans.
Qed.

Definition climb nd (acts : list Action) nd' : Prop :=
  climbs (last_claim (signing nd)) (signed_points acts) (last_claim (signing nd')).

Lemma signed_points_app a b : signed_points (a ++ b) = signed_points a ++ signed_points b.
Proof. apply bind_app. Qed.

(** Operations that sign nothing. *)
Definition silent (f : Node → list Action * Node) : Prop :=
  ∀ nd acts nd', f nd = (acts, nd') → signed_points acts = [] ∧ signing nd' = signing nd.

Lemma silent_climb f nd acts nd' : silent f → f nd = (acts, nd') → climb nd acts nd'.
Proof. intros Hf E. destruct (Hf _ _ _ E) as [Hp Hsg]. unfold climb. by rewrite Hp, Hsg. Qed.

Lemma submit_signing tx nd o nd' : submit tx nd = (o, nd') → signing nd' = signing nd.
Proof. unfold submit. destruct (mempool_insert _ _ _ _ _ _) as [[]?]; by intros [= <- <-]. Qed.

Lemma report_silent e : silent (report_equivocation e).
Proof.
  intros nd acts nd'. unfold report_equivocation. case_bool_decide; [by intros [= <- <-]|].
  destruct (submit _ _) as [[tx|r] nd1] eqn:E; apply submit_signing in E; by intros [= <- <-].
Qed.

Lemma arm_silent r s when : silent (arm r s when).
Proof. intros nd acts nd'. unfold arm. destruct (_ || _); by intros [= <- <-]. Qed.

Lemma commit_block_silent b : silent (commit_block b).
Proof.
  intros nd acts nd'. unfold commit_block. destruct (List.find _ _); [|by intros [= <- <-]].
  destruct (execute_block _ _ _ _). unfold advance_past. by intros [= <- <-].
Qed.

Lemma check_precommit_silent : silent check_precommit_quorum.
Proof.
  intros nd acts nd'. unfold check_precommit_quorum. destruct (_ ≫= _) as [q|]; [|apply arm_silent].
  destruct (decide_commit _ _) as [[]?]; try (by intros [= <- <-]).
  intros E. by apply commit_block_silent in E.
Qed.

Lemma emit_with_climb (on : SignedVote → N (list Action)) t value nd acts nd' :
  (∀ v nd acts nd', on v nd = Some (acts, nd') → climb nd acts nd') →
  emit_with on t value nd = Some (acts, nd') → climb nd acts nd'.
Proof.
  intros Hon. unfold emit_with, nbind, nret. destruct (claim _ _ _ _) as [[[]|e] rec] eqn:Ec.
  - match goal with |- match ?x with _ => _ end = _ → _ => destruct x as [[as_ nd1]|] eqn:E end; [|done].
    intros [= <- <-]. apply Hon in E. apply claim_Ok in Ec as [Ha Hl]. unfold climb in *.
    change (signed_points (?x :: as_)) with (action_points x ++ signed_points as_). simpl in *. rewrite Hl in E.
    split; [by apply check_after_Ok in Ha; destruct t|by destruct t].
  - intros [= <- <-]. unfold climb. simpl. by apply claim_Err in Ec.
Qed.

Lemma put_vote_set_signing t r vs nd : signing (put_vote_set t r vs nd) = signing nd.
Proof. by destruct t. Qed.

Lemma on_vote_climb f v nd acts nd' : on_vote f v nd = Some (acts, nd') → climb nd acts nd'.
Proof.
  revert v nd acts nd'. induction f as [|f IH]; intros v nd acts nd'; [done|]. cbn [on_vote].
  destruct (_ || _); [by intros [= <- <-]|]. destruct (VoteSet_add _ _ _) as [[o|e] vs].
  2: { intros [= <- <-]. unfold climb. simpl. by rewrite put_vote_set_signing. }
  destruct (match o with Equivocated _ => _ | _ => _ end) as [reports nd1] eqn:Er.
  assert (signed_points reports = [] ∧ signing nd1 = signing nd) as [Hr Hsg].
  { destruct o; [injection Er as <- <-; by rewrite put_vote_set_signing..|].
    apply report_silent in Er as [? ?]. by rewrite put_vote_set_signing in *. }
  destruct (negb _); [intros [= <- <-]; unfold climb; simpl; by rewrite Hsg|].
  unfold nbind, nret, pure. destruct (match vote_type (vote v) with Prevote => _ | Precommit => _ end) as [[as_ nd2]|] eqn:E; [|done].
  intros [= <- <-]. unfold climb. rewrite signed_points_app, Hr, <- Hsg. simpl. change (climb nd1 as_ nd2).
  destruct (vote_type (vote v)); [|injection E as E; by eapply silent_climb; [apply check_precommit_silent|]].
  unfold check_prevote_quorum in E. case_bool_decide; [by injection E as <- <-|].
  destruct (prevote_quorum nd1); [|injection E as E; by eapply silent_climb; [apply arm_silent|]].
  destruct (decide_precommit _ _) as [[] rs]; try (by injection E as <- <-). by eapply emit_with_climb in E.
Qed.

Lemma emit_vote_climb t value nd acts nd' : emit_vote t value nd = Some (acts, nd') → climb nd acts nd'.
Proof. apply emit_with_climb, on_vote_climb. Qed.

Lemma on_proposal_climb p nd acts nd' : on_proposal p nd = Some (acts, nd') → climb nd acts nd'.
Proof.
  unfold on_proposal. destruct (_ || _); [by intros [= <- <-]|]. case_match; [by intros [= <- <-]|].
  destruct (negb _); [by intros [= <- <-]|]. destruct (decide_prevote _ _ _ _); try (by intros [= <- <-]).
  intros E. by apply emit_vote_climb in E.
Qed.

Lemma handle_climb e nd acts nd' : handle e nd = Some (acts, nd') → climb nd acts nd'.
Proof.
  destruct e as [p|v|tx|s]; cbn [handle]; [apply on_proposal_climb|apply on_vote_climb| |].
  - destruct (submit tx nd) as [[tx'|r] nd1] eqn:E; apply submit_signing in E; intros [= <- <-]; unfold climb; simpl; by rewrite E.
  - unfold on_timeout. destruct (negb _); [by intros [= <- <-]|].
    destruct s; [intros E; by apply emit_vote_climb in E..|by intros [= <- <-]].
Qed.

Lemma start_round_climb time nd acts nd' : start_round time nd = Some (acts, nd') → climb nd acts nd'.
Proof.
  unfold start_round. case_bool_decide; [by intros [= <- <-]|]. destruct (is_proposer _ _); [|by intros [= <- <-]].
  destruct (claim _ _ _ _) as [[[]|e] rec] eqn:Ec.
  - destruct (block_to_propose _ _) as [block vr]. unfold nbind, nret.
    match goal with |- match ?x with _ => _ end = _ → _ => destruct x as [[as_ nd1]|] eqn:E end; [|done].
    intros [= <- <-]. apply on_proposal_climb in E. apply claim_Ok in Ec as [Ha Hl]. unfold climb in *.
    change (signed_points (?x :: as_)) with (action_points x ++ signed_points as_). simpl in *. rewrite Hl in E.
    split; [by apply check_after_Ok in Ha|done].
  - intros [= <- <-]. unfold climb. simpl. by apply claim_Err in Ec.
Qed.

(** * Histories of a node *)

(** A restart keeps the key and the signing record; everything else is rebuilt. *)
Inductive node_op :=
| NHandle (e : Event)
| NStart (time : Timestamp)
| NSync (b : Block) (c : Commit)
| NRestart (vals : ValidatorSet) (s : St) (genesis_block : Block).

Definition run_op (op : node_op) : N (list Action) := λ nd,
  match op with
  | NHandle e => handle e nd
  | NStart time => start_round time nd
  | NSync b c => match apply_synced b c nd with (Ok acts, nd) => Some (acts, nd) | (Err _, nd) => Some ([], nd) end
  | NRestart vals s g => Some ([], Node_new (n_chain_id nd) (n_key nd) vals s g (signing nd))
  end.

Fixpoint run (ops : list node_op) : N (list Action) := λ nd,
  match ops with
  | [] => Some ([], nd)
  | op :: ops => nbind (run_op op) (λ acts, nbind (run ops) (λ rest, nret (acts ++ rest))) nd
  end.

Lemma apply_synced_Ok b c nd acts nd' :
  apply_synced b c nd = (Ok acts, nd') →
  (h_chain_id (b_header b), h_height (b_header b), parent (b_header b)) = (n_chain_id nd, n_height nd, last_block_id nd)
  ∧ (c_block_id c, c_height c) = (BlockHeader_id (b_header b), n_height nd)
  ∧ tx_root_matches b = true ∧ within_size_limits b = true
  ∧ Commit_verify c (n_chain_id nd) (n_validators nd) = Ok tt
  ∧ ∃ o s, execute_block (n_chain_id nd) {| ctx_height := n_height nd; ctx_time := h_time (b_header b) |}
             (transactions b) (n_store nd) = (o, s)
    ∧ o_app_hash o = h_app_hash (b_header b)
    ∧ advance_past b c (set_last_receipts (receipt <$> outcomes o) (set_n_store s nd)) = (acts, nd').
Proof.
  unfold apply_synced. repeat (case_match; [done|]). bool_simpl.
  destruct (Commit_verify _ _ _) as [[]|]; [|done].
  destruct (execute_block _ _ _ _) as [o s] eqn:Ee. destruct (negb _) eqn:Er; [done|]. bool_simpl.
  destruct (advance_past _ _ _) as [as_ nd1] eqn:Ea. intros [= <- <-].
  match goal with Eh : h_height _ = n_height _ |- _ => rewrite Eh in * end.
  split_and!; try congruence; try done. by exists o, s.
Qed.

Lemma apply_synced_Err b c nd e nd' : apply_synced b c nd = (Err e, nd') → nd' = nd.
Proof.
  unfold apply_synced. repeat (case_match; [by intros [= _ <-]|]).
  destruct (Commit_verify _ _ _); [|by intros [= _ <-]]. destruct (execute_block _ _ _ _).
  destruct (advance_past _ _ _). case_match; by intros [=].
Qed.

Lemma run_op_total op nd : is_Some (run_op op nd).
Proof.
  destruct op; cbn [run_op]; [apply handle_total|apply start_round_total| |done].
  by destruct (apply_synced _ _ _) as [[]?].
Qed.

Lemma run_op_climb op nd acts nd' : run_op op nd = Some (acts, nd') → climb nd acts nd'.
Proof.
  destruct op as [e|time|b c|vals s g]; cbn [run_op]; [apply handle_climb|apply start_round_climb| |by intros [= <- <-]].
  destruct (apply_synced b c nd) as [[as_|e] nd1] eqn:E; intros [= <- <-].
  - apply apply_synced_Ok in E as (_ & _ & _ & _ & _ & o & s & _ & _ & E). unfold advance_past in E. by injection E as <- <-.
  - by apply apply_synced_Err in E as ->.
Qed.

Lemma run_total ops nd : is_Some (run ops nd).
Proof.
  revert nd. induction ops as [|op ops IH]; intros nd; [done|]. cbn [run]. unfold nbind, nret.
  destruct (run_op_total op nd) as [[as_ nd1] ->]. by destruct (IH nd1) as [[rest nd2] ->].
Qed.

Lemma run_climb ops nd acts nd' : run ops nd = Some (acts, nd') → climb nd acts nd'.
Proof.
  revert nd acts. induction ops as [|op ops IH]; intros nd acts; cbn [run]; [by intros [= <- <-]|]. unfold nbind, nret.
  destruct (run_op op nd) as [[as_ nd1]|] eqn:E1; [|done]. destruct (run ops nd1) as [[rest nd2]|] eqn:E2; [|done].
  intros [= <- <-]. unfold climb. rewrite signed_points_app. eapply climbs_app; [by eapply run_op_climb|by apply IH].
Qed.

(** Points signed in increasing order belong to one action each. *)
Lemma points_unique acts a1 a2 p :
  StronglySorted point_lt (signed_points acts) → a1 ∈ acts → a2 ∈ acts →
  p ∈ action_points a1 → p ∈ action_points a2 → a1 = a2.
Proof.
  induction acts as [|a acts IH]; [by intros _ ?%elem_of_nil|].
  change (signed_points (a :: acts)) with (action_points a ++ signed_points acts).
  intros Hsrt H1 H2 Hp1 Hp2. pose proof (StronglySorted_app_1_elem_of _ _ _ p p Hsrt) as Hdis.
  assert (∀ a', a' ∈ acts → p ∈ action_points a' → p ∈ signed_points acts) as Hin.
  { intros a' Ha' Hp. apply list_elem_of_bind. eauto. }
  apply elem_of_cons in H1 as [->|H1], H2 as [->|H2]; [done| | |by apply StronglySorted_app_1_r in Hsrt; eauto].
  - destruct (point_lt_irrefl p). eauto.
  - destruct (point_lt_irrefl p). eauto.
Qed.

(** * Every commit is certified *)

Definition commits (acts : list Action) : list (Block * Commit) :=
  omap (λ a, match a with ACommitted b c => Some (b, c) | _ => None end) acts.

(** Certificates for consecutive heights, each for the block it comes with. *)
Fixpoint finalised (chain : ChainId) (vals : ValidatorSet) (h : Height) (cs : list (Block * Commit)) (h' : Height) : Prop :=
  match cs with
  | [] => h' = h
  | (b, c) :: cs =>
      c_height c = h ∧ c_block_id c = BlockHeader_id (b_header b) ∧ Commit_verify c chain vals = Ok tt
      ∧ finalised chain vals (Height_next h) cs h'
  end.

Lemma finalised_app chain vals h cs h1 cs' h2 :
  finalised chain vals h cs h1 → finalised chain vals h1 cs' h2 → finalised chain vals h (cs ++ cs') h2.
Proof.
  revert h. induction cs as [|[b c] cs IH]; intros h; simpl; [by intros ->|].
  intros (? & ? & ? & ?) ?. split_and!; [done..|by apply IH].
Qed.

Section certified.
Context (chain : ChainId) (vals : ValidatorSet) (Hvals : vs_ok vals).

(** The precommits held are counted in vote sets of this height. *)
Definition node_ok nd : Prop :=
  n_chain_id nd = chain ∧ n_validators nd = vals
  ∧ ∀ r vs, precommits nd !! r = Some vs →
      vote_set_ok vals vs
      ∧ (vs_chain_id vs, vs_height vs, vs_round vs, vs_vote_type vs) = (chain, n_height nd, r, Precommit).

Definition progress nd (acts : list Action) nd' : Prop :=
  node_ok nd → node_ok nd' ∧ finalised chain vals (n_height nd) (commits acts) (n_height nd')
  ∧ committed nd' = committed nd ++ (fst <$> commits acts).

Lemma progress_trans nd acts nd1 acts' nd2 :
  progress nd acts nd1 → progress nd1 acts' nd2 → progress nd (acts ++ acts') nd2.
Proof.
  intros H1 H2 Hok. destruct (H1 Hok) as (Hok1 & F1 & E1), (H2 Hok1) as (Hok2 & F2 & E2).
  unfold commits. rewrite omap_app. split_and!; [done|by eapply finalised_app|]. by rewrite E2, E1, fmap_app, app_assoc.
Qed.

(** Nothing committed, and only the parts of the node that finality does not look at moved. *)
Lemma progress_same nd acts nd' :
  commits acts = [] → n_chain_id nd' = n_chain_id nd → n_validators nd' = n_validators nd → n_height nd' = n_height nd →
  precommits nd' = precommits nd → committed nd' = committed nd → progress nd acts nd'.
Proof.
  intros Hc E1 E2 E3 E4 E5 Hok. unfold node_ok in *. rewrite Hc, E1, E2, E3, E4, E5. simpl. by rewrite app_nil_r.
Qed.

Lemma progress_refl nd : progress nd [] nd.
Proof. by apply progress_same. Qed.

(** An action that commits nothing may come first. *)
Lemma progress_cons a nd acts nd' : commits [a] = [] → progress nd acts nd' → progress nd (a :: acts) nd'.
Proof. intros Ha H Hok. change (a :: acts) with ([a] ++ acts). unfold commits in *. rewrite omap_app, Ha. by apply H. Qed.

Lemma submit_same tx nd o nd' :
  submit tx nd = (o, nd') → nd' = set_mempool (mempool nd') nd.
Proof. unfold submit. destruct (mempool_insert _ _ _ _ _ _) as [[]?]; by intros [= <- <-]. Qed.

Lemma report_progress e nd acts nd' : report_equivocation e nd = (acts, nd') → progress nd acts nd'.
Proof.
  unfold report_equivocation. case_bool_decide; [by intros [= <- <-]; apply progress_refl|].
  destruct (submit _ _) as [[tx|r] nd1] eqn:E; apply submit_same in E; intros [= <- <-]; rewrite E; by apply progress_same.
Qed.

Lemma arm_progress r s when nd acts nd' : arm r s when nd = (acts, nd') → progress nd acts nd'.
Proof. unfold arm. destruct (_ || _); intros [= <- <-]; by apply progress_same. Qed.

Lemma advance_past_progress b c nd acts nd' :
  c_height c = n_height nd → c_block_id c = BlockHeader_id (b_header b) → Commit_verify c chain vals = Ok tt →
  advance_past b c nd = (acts, nd') → progress nd acts nd'.
Proof.
  intros Hh Hb Hc. unfold advance_past. intros [= <- <-] (E1 & E2 & _). split_and!; [|done|done].
  split_and!; [done..|]. intros r vs. cbn [precommits]. by rewrite lookup_empty.
Qed.

Lemma check_precommit_progress nd acts nd' : check_precommit_quorum nd = (acts, nd') → progress nd acts nd'.
Proof.
  unfold check_precommit_quorum. destruct (precommits nd !! rs_round (round_state nd)) as [vs|] eqn:Hvs; simpl; [|by apply arm_progress].
  destruct (quorum_value vs (n_validators nd)) as [[b|]|] eqn:Hq; simpl; [| |by apply arm_progress].
  2: { intros [= <- <-]. by apply progress_same. }
  unfold commit_block. destruct (List.find _ _) as [p|] eqn:Hf; [|intros [= <- <-]; by apply progress_same].
  apply List.find_some in Hf as [_ Hid]. bool_simpl. cbn [precommits round_state set_round_state]. rewrite Hvs.
  cbn [from_option]. destruct (execute_block _ _ _ _) as [o s]. intros E Hok. pose proof Hok as (E1 & E2 & Hset).
  destruct (Hset _ _ Hvs) as [Hvok Ek]. injection Ek as Ek1 Ek2 Ek3 Ek4. rewrite E2 in Hq.
  pose proof (held_commit_verifies vals Hvals vs b Hvok Ek4 Hq) as Hv. rewrite Ek1, Ek2, Ek3 in Hv.
  by eapply advance_past_progress in E; [apply E| | |exact Hv].
Qed.

Lemma emit_with_progress (on : SignedVote → N (list Action)) t value nd acts nd' :
  (∀ v nd acts nd', on v nd = Some (acts, nd') → progress nd acts nd') →
  emit_with on t value nd = Some (acts, nd') → progress nd acts nd'.
Proof.
  intros Hon. unfold emit_with, nbind, nret. destruct (claim _ _ _ _) as [[[]|e] rec]; [|intros [= <- <-]; by apply progress_same].
  match goal with |- match ?x with _ => _ end = _ → _ => destruct x as [[as_ nd1]|] eqn:E end; [|done].
  intros [= <- <-]. apply Hon in E. by apply progress_cons.
Qed.

Lemma put_vote_set_progress v o vs nd :
  VoteSet_add (n_validators nd) v (vote_set_for (vote_type (vote v)) (round (vote v)) nd) = (o, vs) →
  progress nd [] (put_vote_set (vote_type (vote v)) (round (vote v)) vs nd).
Proof.
  intros E Hok. pose proof Hok as (E1 & E2 & Hset). destruct (vote_type (vote v)) eqn:Ht; [by apply progress_same|].
  rewrite E2 in E.
  assert (vote_set_ok vals (vote_set_for Precommit (round (vote v)) nd)
    ∧ (let s := vote_set_for Precommit (round (vote v)) nd in (vs_chain_id s, vs_height s, vs_round s, vs_vote_type s))
      = (chain, n_height nd, round (vote v), Precommit)) as [Hvs Ek].
  { unfold vote_set_for. destruct (precommits nd !! round (vote v)) as [s|] eqn:Hs'; simpl; [by apply Hset|].
    rewrite E1. split; [apply vote_set_new_ok|done]. }
  apply (VoteSet_add_ok vals Hvals) in E as (Hvs' & Ek' & _); [|done]. cbv zeta in Ek. rewrite Ek in Ek'.
  split_and!; simpl; [|done|by rewrite app_nil_r]. split_and!; [done..|]. intros r s. simpl.
  rewrite lookup_insert_Some. intros [[<- <-]|[_ ?]]; [done|by apply Hset].
Qed.

Lemma on_vote_progress f v nd acts nd' : on_vote f v nd = Some (acts, nd') → progress nd acts nd'.
Proof.
  revert v nd acts nd'. induction f as [|f IH]; intros v nd acts nd'; [done|]. cbn [on_vote].
  destruct (_ || _); [intros [= <- <-]; apply progress_refl|]. destruct (VoteSet_add _ _ _) as [[o|e] vs] eqn:Ea;
    apply put_vote_set_progress in Ea; [|by intros [= <- <-]].
  destruct (match o with Equivocated _ => _ | _ => _ end) as [reports nd1] eqn:Er.
  assert (progress nd reports nd1) as Hr.
  { destruct o; [by injection Er as <- <-..|]. apply report_progress in Er. by apply (progress_trans _ _ _ _ _ Ea Er). }
  destruct (negb _).
  { intros [= <- <-] Hok. pose proof (Hr Hok) as (? & ? & ?). assert (commits reports = []) as Hc; [|by rewrite Hc in *].
    destruct o; [by injection Er as <- <-..|]. unfold report_equivocation in Er. case_bool_decide; [by injection Er as <- <-|].
    destruct (submit _ _) as [[]?]; by injection Er as <- <-. }
  unfold nbind, nret, pure. destruct (match vote_type (vote v) with Prevote => _ | Precommit => _ end) as [[as_ nd2]|] eqn:E; [|done].
  intros [= <- <-]. eapply progress_trans; [exact Hr|].
  destruct (vote_type (vote v)); [|injection E as E; by apply check_precommit_progress].
  unfold check_prevote_quorum in E. case_bool_decide; [injection E as <- <-; apply progress_refl|].
  destruct (prevote_quorum nd1); [|injection E as E; by apply arm_progress in E].
  destruct (decide_precommit _ _) as [[] rs]; try (injection E as <- <-; by apply progress_same).
  eapply emit_with_progress in E; [|exact IH]. eapply (progress_trans _ [] _ as_); [|exact E]. by apply progress_same.
Qed.

(** The node was prepared for voting without touching what finality looks at. *)
Lemma emit_vote_progress t value nd0 nd acts nd' :
  n_chain_id nd = n_chain_id nd0 → n_validators nd = n_validators nd0 → n_height nd = n_height nd0 →
  precommits nd = precommits nd0 → committed nd = committed nd0 →
  emit_vote t value nd = Some (acts, nd') → progress nd0 acts nd'.
Proof.
  intros ? ? ? ? ? E. apply emit_with_progress in E; [|apply on_vote_progress].
  eapply (progress_trans _ [] _ acts); [|exact E]. by apply progress_same.
Qed.

Lemma on_proposal_progress p nd acts nd' : on_proposal p nd = Some (acts, nd') → progress nd acts nd'.
Proof.
  unfold on_proposal. destruct (_ || _); [intros [= <- <-]; apply progress_refl|].
  case_match; [intros [= <- <-]; apply progress_refl|].
  destruct (negb _); [intros [= <- <-]; apply progress_refl|].
  destruct (decide_prevote _ _ _ _); try (intros [= <- <-]; by apply progress_same). by apply emit_vote_progress.
Qed.

Lemma handle_progress e nd acts nd' : handle e nd = Some (acts, nd') → progress nd acts nd'.
Proof.
  destruct e as [p|v|tx|s]; cbn [handle]; [apply on_proposal_progress|apply on_vote_progress| |].
  - destruct (submit tx nd) as [[tx'|r] nd1] eqn:E; apply submit_same in E; intros [= <- <-]; rewrite E; by apply progress_same.
  - unfold on_timeout. destruct (negb _); [intros [= <- <-]; apply progress_refl|].
    destruct s; [by apply emit_vote_progress..|intros [= <- <-]; by apply progress_same].
Qed.

Lemma start_round_progress time nd acts nd' : start_round time nd = Some (acts, nd') → progress nd acts nd'.
Proof.
  unfold start_round. case_bool_decide; [intros [= <- <-]; apply progress_refl|].
  destruct (is_proposer _ _); [|intros [= <- <-]; by apply progress_same].
  destruct (claim _ _ _ _) as [[[]|e] rec]; [|intros [= <- <-]; by apply progress_same].
  destruct (block_to_propose _ _) as [block vr]. unfold nbind, nret.
  match goal with |- match ?x with _ => _ end = _ → _ => destruct x as [[as_ nd1]|] eqn:E end; [|done].
  intros [= <- <-]. apply on_proposal_progress in E. apply progress_cons; [done|].
  eapply (progress_trans _ [] _ as_); [|exact E]. by apply progress_same.
Qed.

Lemma apply_synced_progress b c nd acts nd' : apply_synced b c nd = (Ok acts, nd') → progress nd acts nd'.
Proof.
  intros (_ & [= Hb Hh] & _ & _ & Hv & o & s & _ & _ & E)%apply_synced_Ok Hok. pose proof Hok as (E1 & E2 & _).
  rewrite E1, E2 in Hv. by eapply advance_past_progress in E; [apply E| | |].
Qed.

Definition no_restart (op : node_op) : Prop := match op with NRestart _ _ _ => False | _ => True end.

Lemma run_progress ops nd acts nd' : Forall no_restart ops → run ops nd = Some (acts, nd') → progress nd acts nd'.
Proof.
  intros Hops. revert nd acts. induction Hops as [|op ops Hop Hops IH]; intros nd acts; cbn [run].
  { intros [= <- <-]. apply progress_refl. }
  unfold nbind, nret. destruct (run_op op nd) as [[as_ nd1]|] eqn:E1; [|done].
  destruct (run ops nd1) as [[rest nd2]|] eqn:E2; [|done]. intros [= <- <-]. eapply progress_trans; [|by apply IH].
  destruct op as [e|time|b c|? ? ?]; cbn [run_op] in E1; [by apply handle_progress in E1|by apply start_round_progress in E1| |done].
  destruct (apply_synced b c nd) as [[?|e] nd3] eqn:E; injection E1 as <- <-; [by apply apply_synced_progress in E|].
  apply apply_synced_Err in E as ->. apply progress_refl.
Qed.

Lemma Node_new_ok key s g rec : node_ok (Node_new chain key vals s g rec).
Proof. split_and!; [done..|]. intros r vs. cbn [precommits Node_new]. by rewrite lookup_empty. Qed.
End certified.

(** C10: A validator cannot be made to equivocate.  Whatever proposals, votes, transactions,
    timeouts and synced blocks reach a node, in whatever order, however often it
    begins a round and however often it is restarted on any chain state with its
    signing record, the run ends, everything it signs comes strictly later in
    height, round and step than everything it signed before, and so it never signs two
    votes for one height, round and phase, nor two proposals for one height and round. *)
Theorem node_never_equivocates ops nd :
  ∃ acts nd', run ops nd = Some (acts, nd')
  ∧ StronglySorted point_lt (signed_points acts)
  ∧ (∀ q, last_claim (signing nd) = Some q → Forall (point_lt q) (signed_points acts))
  ∧ (∀ v1 v2, BroadcastVote v1 ∈ acts → BroadcastVote v2 ∈ acts →
       (height (vote v1), round (vote v1), vote_type (vote v1)) = (height (vote v2), round (vote v2), vote_type (vote v2)) →
       v1 = v2)
  ∧ (∀ p1 p2, BroadcastProposal p1 ∈ acts → BroadcastProposal p2 ∈ acts →
       (p_height (proposal p1), p_round (proposal p1)) = (p_height (proposal p2), p_round (proposal p2)) → p1 = p2).
Proof.
  destruct (run_total ops nd) as [[acts nd'] E]. exists acts, nd'. split; [done|].
  apply run_climb, climbs_sorted in E as [Hsrt Hlast]. split_and!; [done|by intros q Hq; rewrite Hq in Hlast|..].
  - intros v1 v2 H1 H2 Ev. injection Ev as E1 E2 E3.
    assert (BroadcastVote v1 = BroadcastVote v2) as Ea; [|by injection Ea].
    apply (points_unique acts _ _ (vote_point v1) Hsrt H1 H2); [by left|]. unfold vote_point. rewrite E1, E2, E3. by left.
  - intros p1 p2 H1 H2 Ev. injection Ev as E1 E2.
    assert (BroadcastProposal p1 = BroadcastProposal p2) as Ea; [|by injection Ea].
    apply (points_unique acts _ _ (p_height (proposal p1), p_round (proposal p1), SPropose) Hsrt H1 H2); [by left|].
    rewrite E1, E2. by left.
Qed.

(** C14: Every block a node reports as final is certified.  From a fresh node, after any
    sequence of events, rounds and synced blocks, the blocks it committed are the ones it
    reported, each with a certificate for that very block, of consecutive heights
    from the node's first, and every certificate passes the check a light client
    makes against the validator set. *)
Theorem node_commits_certified chain key vals s g rec ops :
  vs_ok vals → Forall no_restart ops →
  let nd := Node_new chain key vals s g rec in
  ∃ acts nd', run ops nd = Some (acts, nd')
  ∧ finalised chain vals (n_height nd) (commits acts) (n_height nd')
  ∧ committed nd' = fst <$> commits acts.
Proof.
  intros Hvals Hops nd. destruct (run_total ops nd) as [[acts nd'] E]. exists acts, nd'. split; [done|].
  by destruct (run_progress chain vals Hvals ops nd acts nd' Hops E (Node_new_ok chain vals key s g rec)) as (_ & F & C).
Qed.

(** Catching up takes nothing on trust.  A block offered by a peer is applied exactly
    when it is the next block of this chain on top of the node's tip, its
    transactions match its root and its size limits, its certificate verifies against the
    node's own validators and re-execution gives the root its header claims; the node
    then holds exactly the re-executed state and stands one height further.
    Otherwise it is left exactly as it was. *)
Theorem apply_synced_exact b c nd :
  match apply_synced b c nd with
  | (Ok acts, nd') =>
      (h_chain_id (b_header b), h_height (b_header b), parent (b_header b)) = (n_chain_id nd, n_height nd, last_block_id nd)
      ∧ (c_block_id c, c_height c) = (BlockHeader_id (b_header b), n_height nd)
      ∧ tx_root_matches b = true ∧ within_size_limits b = true
      ∧ Commit_verify c (n_chain_id nd) (n_validators nd) = Ok tt
      ∧ n_store nd' = (execute_block (n_chain_id nd) {| ctx_height := n_height nd; ctx_time := h_time (b_header b) |}
                         (transactions b) (n_store nd)).2
      ∧ kv_root (n_store nd') = h_app_hash (b_header b)
      ∧ acts = [ACommitted b c] ∧ last_block_id nd' = BlockHeader_id (b_header b)
      ∧ n_height nd' = Height_next (n_height nd) ∧ committed nd' = committed nd ++ [b]
  | (Err _, nd') => nd' = nd
  end.
Proof.
  destruct (apply_synced b c nd) as [[acts|e] nd'] eqn:E; [|by apply apply_synced_Err in E].
  apply apply_synced_Ok in E as (H1 & H2 & H3 & H4 & H5 & o & s & He & Hroot & E).
  unfold advance_past in E. injection E as <- <-. rewrite He. split_and!; try done.
  unfold execute_block in He. destruct (execute_txs _ _ _ _) as [os s1]. by injection He as <- <-.
Qed.

(** C33: Counting one's own vote ends.  A vote that completes a quorum makes the node vote
    again, and that vote is counted the same way; the recursion is never deeper than
    the two phases of a round, so two levels are enough for every event, every start
    of a round and every state, and more levels change nothing. *)
Theorem node_voting_terminates nd :
  (∀ fuel v, (NODE_FUEL ≤ fuel)%nat → is_Some (on_vote fuel v nd) ∧ on_vote fuel v nd = on_vote NODE_FUEL v nd)
  ∧ (∀ e, is_Some (handle e nd)) ∧ (∀ time, is_Some (start_round time nd)).
Proof.
  split_and!; [|intros e; apply handle_total|intros time; apply start_round_total].
  intros fuel v Hf. destruct fuel as [|[|fuel]]; unfold NODE_FUEL in Hf; try lia.
  split; [apply on_vote_total|apply (on_vote_fuel fuel 0)].
Qed.

(** * What a proposal is believed for *)

(** The proposal path reads neither the signature nor any proof of the round a proposal
    claims support from: whoever sends it, a proposal that names the round's
    proposer, carries a block the node can execute and claims a round later than the
    node's lock is prevoted, whatever the signature bytes are and whatever else the
    node is locked on. *)
Theorem unsigned_proposal_unlocks p sig nd (lv : Hash32) lr r rec :
  decided nd = false → p_height p = n_height nd → p_round p = rs_round (round_state nd) → p_chain_id p = n_chain_id nd →
  v_address <$> proposer (n_validators nd) (n_height nd) (p_round p) = Some (p_proposer p) →
  validate_block (p_block p) nd = true →
  locked_value (round_state nd) = Some lv → locked_round (round_state nd) = Some lr →
  p_valid_round p = Some r → lr < r →
  claim (n_height nd) (rs_round (round_state nd)) SPrevote (signing nd) = (Ok tt, rec) →
  ∃ acts nd' prevote, on_proposal {| proposal := p; p_signature := sig |} nd = Some (BroadcastVote prevote :: acts, nd')
    ∧ vote_type (vote prevote) = Prevote ∧ block_id (vote prevote) = Some (Proposal_block_id p).
Proof.
  intros Hd Hh Hr Hc Hp Hv Hl Hlr Hvr Hlt Hcl. unfold on_proposal. cbn [proposal].
  rewrite Hd, Hh, Hr, Hc, Hv, !Z.eqb_refl, (bool_decide_eq_true_2 (n_chain_id nd = _)) by done. cbn [orb negb].
  rewrite Hr in Hp. destruct (proposer _ _ _) as [w|]; [|done]. injection Hp as Hp.
  rewrite (bool_decide_eq_true_2 (v_address w = _)) by done. cbn [negb].
  unfold decide_prevote. cbn [round_state set_proposals negb]. rewrite Hl, Hlr, Hvr.
  assert (lr <? r = true) as -> by (by apply Z.ltb_lt).
  match goal with |- context [if ?b then DPrevote ?x else DPrevote ?x] => destruct b end.
  all: unfold emit_vote, emit_with; cbn [n_height round_state set_round_state set_proposals rs_round with_step signing];
    rewrite Hcl; unfold nbind, nret;
    match goal with |- context [on_vote NODE_FUEL ?s ?n] => destruct (on_vote_total 0 s n) as [[as_ nd1] E]; exists as_, nd1, s end;
    unfold NODE_FUEL; rewrite E; done.
Qed.

(** With a value that has support, a proposer signs the newest proposal it holds and
    vouches for it with the round of the value's support, whether or not the proposal
    is that value. *)
Theorem reproposal_ignores_valid_value time nd (v : Hash32) prev :
  valid_value (round_state nd) = Some v → last (by_round (proposals nd)) = Some prev →
  Proposal_block_id (proposal prev) ≠ v →
  let '(block, vr) := block_to_propose time nd in
  vr = valid_round (round_state nd) ∧ block = p_block (proposal prev) ∧ BlockHeader_id (b_header block) ≠ v.
Proof. intros Hv Hl Hne. unfold block_to_propose. by rewrite Hv, Hl. Qed.

(** A block with another root written over its receipts. *)
Definition with_outcome_root (x : Hash32) (b : Block) : Block :=
  let h := b_header b in
  {| b_header := {| h_chain_id := h_chain_id h; h_height := h_height h; h_time := h_time h; parent := parent h;
       h_tx_root := h_tx_root h; h_app_hash := h_app_hash h; h_outcome_root := x; validators_hash := validators_hash h;
       next_validators_hash := next_validators_hash h |}; transactions := transactions b |}.

(** Nobody checks the root of the receipts: a block is valid to a voting node whatever
    root its header gives its receipts. *)
Theorem outcome_root_unchecked x b nd : validate_block (with_outcome_root x b) nd = validate_block b nd.
Proof. done. Qed.
End node_proofs.
