(* ===== verification/Peer.v ===== *)
(** Who a peer is and which peers a node knows ([crates/p2p/src/peer.rs], [addrbook.rs]).

    A peer is its Ed25519 key; where it is reached is an IP address and a port (the flow
    label and scope of an IPv6 socket address are never sent and are not modelled).  The
    [BTreeMap]s of the book are finite maps; where the source walks one, the walk is over
    its entries sorted by key.  A [u64], [u32] or [i32] is an integer in its range with
    the source's wrapping or saturation written out. *)

From S2P Require Import Prelude SortedVec Sorting Codec Primitives Crypto.

(** * Peers ([peer.rs]) *)

Abbreviation PeerId := PublicKey (only parsing).

Inductive IpAddr := V4 (octets : bytes) | V6 (octets : bytes).
Record SocketAddr := { ip : IpAddr; port : Z }.

#[export] Instance IpAddr_eq_dec : EqDecision IpAddr.
Proof. solve_decision. Defined.
#[export] Instance SocketAddr_eq_dec : EqDecision SocketAddr.
Proof. solve_decision. Defined.

Definition octet (o : bytes) (i : nat) : byte := nth i o (byte_of 0).

(** [Ipv4Addr::is_loopback], [Ipv6Addr::is_loopback]. *)
Definition is_loopback (a : IpAddr) : bool :=
  match a with
  | V4 o => byte_eqb 127 (octet o 0)
  | V6 o => bool_decide (o = replicate 15 (byte_of 0) ++ [byte_of 1])
  end.

(** [u16::to_be_bytes]. *)
Definition port_be (p : Z) : byte * byte := (byte_of (p / 256), byte_of (p mod 256)).

(** [AddrGroup]: eight bytes. *)
Abbreviation AddrGroup := bytes (only parsing).
Definition AddrGroup_of (a : SocketAddr) : AddrGroup :=
  let '(p0, p1) := port_be (port a) in
  let z := byte_of 0 in
  match ip a with
  | V4 o =>
      if is_loopback (V4 o) then [byte_of 1; octet o 2; octet o 3; p0; p1; z; z; z]
      else [z; octet o 0; octet o 1; z; z; z; z; z]
  | V6 o =>
      if is_loopback (V6 o) then [byte_of 1; z; z; p0; p1; z; z; z]
      else [byte_of 2; octet o 0; octet o 1; octet o 2; octet o 3; z; z; z]
  end.

Record PeerAddr := { pa_id : PeerId; pa_addr : SocketAddr }.
Definition group (a : PeerAddr) : AddrGroup := AddrGroup_of (pa_addr a).

#[export] Instance PeerAddr_eq_dec : EqDecision PeerAddr.
Proof. solve_decision. Defined.

(** The address family and its octets, then the port; port zero is refused. *)
Definition Octets_codec (n : nat) : codec bytes := {|
  encode := λ b, b;
  decode := λ r, take_array n r;
  wf := λ b, length b = n;
|}.

Definition IpAddr_codec : codec IpAddr :=
  tag_codec "PeerAddr/family" (λ a, match a with V4 _ => 4 | V6 _ => 6 end)
    (λ t, match t with
          | 4 => Some (variant_codec V4 (λ a, match a with V4 o => Some o | _ => None end) (Octets_codec 4))
          | 6 => Some (variant_codec V6 (λ a, match a with V6 o => Some o | _ => None end) (Octets_codec 16))
          | _ => None
          end).

Definition port_check (p : Z) : result CodecError unit := if p =? 0 then Err (CodecInvalid "peer port must not be zero") else Ok tt.

Definition PeerAddr_codec `{Signer} : codec PeerAddr :=
  iso_codec (λ '(i, (a, p)), {| pa_id := i; pa_addr := {| ip := a; port := p |} |})
    (λ a, (pa_id a, (ip (pa_addr a), port (pa_addr a))))
    (pair_codec PublicKey_codec (pair_codec IpAddr_codec (guard_codec port_check u16_codec))).

Inductive Misbehaviour := Oversized | Undecodable | PBadSignature | TooFast | BadAddrs | BadBlock | Unforgivable.

Definition BAN_THRESHOLD : Z := 100.
Definition penalty (m : Misbehaviour) : Z :=
  match m with
  | TooFast | BadAddrs => 5
  | Undecodable | Oversized | BadBlock => 20
  | PBadSignature => 50
  | Unforgivable => BAN_THRESHOLD
  end.

Definition i32_max : Z := 2 ^ 31 - 1.
(** [Reputation]: the score, a saturating [i32]; [Reputation::penalise] gives the new one. *)
Definition Reputation_new : Z := 0.
Definition Reputation_is_banned (score : Z) : bool := BAN_THRESHOLD <=? score.
Definition Reputation_penalise (m : Misbehaviour) (score : Z) : Z := saturating_add i32_max score (penalty m).

(** * The address book ([addrbook.rs]) *)

Definition NEW_BUCKETS : Z := 256.
Definition TRIED_BUCKETS : Z := 64.
Definition BUCKET_SIZE : nat := 8.
Definition NEW_BUCKETS_PER_SOURCE : Z := 32.
Definition TRIED_BUCKETS_PER_GROUP : Z := 4.

Record Entry := { e_addr : PeerAddr; failures : Z; tried : bool }.

Record AddrBook := {
  entries : gmap bytes Entry;
  new_table : gmap Z (list PeerId);
  tried_table : gmap Z (list PeerId);
  salt : Hash32;
}.

(** [BTreeMap::iter]: in the order of the keys. *)
Definition sorted_entries {A} (m : gmap bytes A) : list (bytes * A) := sort_by_key fst (map_to_list m).

(** [Iterator::max_by_key]: the last of the greatest. *)
Fixpoint max_from {A} (le : A → A → bool) (best : A) (l : list A) : A :=
  match l with
  | [] => best
  | x :: l => max_from le (if le best x then x else best) l
  end.
Definition max_by {A} (le : A → A → bool) (l : list A) : option A :=
  match l with [] => None | x :: l => Some (max_from le x l) end.

Section book.
Context `{Hs : Hasher}.
Implicit Types (b : AddrBook) (a : PeerAddr) (id : PeerId) (source : AddrGroup).

Definition AddrBook_new (key : bytes) : AddrBook := {|
  entries := ∅; new_table := ∅; tried_table := ∅;
  salt := hash_parts DP2pAddrBucket [bs "salt"; key] |}.

Definition book_len b : nat := size (entries b).
Definition book_get b id : option Entry := entries b !! id.

Definition tried_addresses b : list PeerAddr :=
  e_addr <$> List.filter tried (snd <$> sorted_entries (entries b)).

Definition book_hash (slt : Hash32) (parts : list bytes) : Z :=
  LittleEndianList.le_combine (take 8 (hash_parts DP2pAddrBucket (slt :: parts))).

Definition new_bucket (slt : Hash32) a source : Z :=
  let first := book_hash slt [bs "new1"; group a; source] in
  let index := first mod NEW_BUCKETS_PER_SOURCE in
  book_hash slt [bs "new2"; source; LittleEndianList.le_split 8 index] mod NEW_BUCKETS.

Definition tried_bucket (slt : Hash32) a : Z :=
  let first := book_hash slt [bs "tried1"; pa_id a] in
  let index := first mod TRIED_BUCKETS_PER_GROUP in
  book_hash slt [bs "tried2"; group a; LittleEndianList.le_split 8 index] mod TRIED_BUCKETS.

(** [slot.retain(|held| held != id)]. *)
Definition retain_not id (slot : list PeerId) : list PeerId := List.filter (λ held, negb (bool_decide (held = id))) slot.

Definition failures_of (es : gmap bytes Entry) id : Z := from_option failures 0 (es !! id).
Definition worst (es : gmap bytes Entry) (slot : list PeerId) : option PeerId :=
  max_by (λ x y, failures_of es x <=? failures_of es y) slot.

(** [AddrBook::add]: the book afterwards and whether the address was new to it. *)
Definition book_add a source b : AddrBook * bool :=
  if bool_decide (is_Some (entries b !! pa_id a)) then (b, false)
  else
    let bucket := new_bucket (salt b) a source in
    let slot := default [] (new_table b !! bucket) in
    let put es slot := ({|
      entries := <[pa_id a := {| e_addr := a; failures := 0; tried := false |}]> es;
      new_table := <[bucket := slot ++ [pa_id a]]> (new_table b);
      tried_table := tried_table b; salt := salt b |}, true) in
    if (BUCKET_SIZE <=? length slot)%nat then
      match worst (entries b) slot with
      | None => (b, false)
      | Some w =>
          match entries b !! w with
          | None => (b, false)
          | Some we => if failures we =? 0 then (b, false) else put (delete w (entries b)) (retain_not w slot)
          end
      end
    else put (entries b) slot.

Definition set_failures (n : Z) (e : Entry) : Entry := {| e_addr := e_addr e; failures := n; tried := tried e |}.
Definition set_tried (t : bool) (e : Entry) : Entry := {| e_addr := e_addr e; failures := failures e; tried := t |}.

Definition mark_good id b : AddrBook :=
  match entries b !! id with
  | None => b
  | Some e =>
      if tried e then {|
        entries := <[id := set_failures 0 e]> (entries b);
        new_table := new_table b; tried_table := tried_table b; salt := salt b |}
      else
        let es := <[id := set_tried true (set_failures 0 e)]> (entries b) in
        let new' := retain_not id <$> new_table b in
        let bucket := tried_bucket (salt b) (e_addr e) in
        let slot := default [] (tried_table b !! bucket) in
        let '(es, slot) :=
          if (BUCKET_SIZE <=? length slot)%nat then
            match worst es slot with
            | Some w => (alter (set_tried false) w es, retain_not w slot)
            | None => (es, slot)
            end
          else (es, slot) in
        {| entries := es; new_table := new';
           tried_table := <[bucket := slot ++ [id]]> (tried_table b); salt := salt b |}
  end.

Definition mark_failed id b : AddrBook := {|
  entries := alter (λ e, set_failures (saturating_add u32_max (failures e) 1) e) id (entries b);
  new_table := new_table b; tried_table := tried_table b; salt := salt b |}.

(** ** Choosing whom to dial *)

(** The first element of [l] for which [f] has an answer: the body of a loop that
    returns from inside. *)
Fixpoint find_map {A B} (f : A → option B) (l : list A) : option B :=
  match l with
  | [] => None
  | x :: l => match f x with Some y => Some y | None => find_map f l end
  end.

Definition select_entry b (avoid : list AddrGroup) id : option PeerAddr :=
  match entries b !! id with
  | None => None
  | Some e => if bool_decide (group (e_addr e) ∈ avoid) then None else Some (e_addr e)
  end.

Definition select_slot b avoid (cursor : Z) (slot : list PeerId) : option PeerAddr :=
  let offset := cursor mod Z.of_nat BUCKET_SIZE in
  find_map (λ '(i, id),
    let at_ := Z.to_nat ((Z.of_nat i + offset) mod Z.of_nat (length slot)) in
    select_entry b avoid (default id (slot !! at_)))
    (zip (seq 0 (length slot)) slot).

Definition select_table b avoid (cursor : Z) (table : gmap Z (list PeerId)) (count : Z) : option PeerAddr :=
  find_map (λ step,
    let bucket := ((cursor + Z.of_nat step) mod 2 ^ 64) mod count in
    match table !! bucket with Some slot => select_slot b avoid cursor slot | None => None end)
    (seq 0 (Z.to_nat count)).

Definition book_select b (avoid : list AddrGroup) (cursor : Z) : option PeerAddr :=
  let prefer_tried := negb (cursor mod 3 =? 0) in
  find_map (λ from_tried : bool,
    if from_tried then select_table b avoid cursor (tried_table b) TRIED_BUCKETS
    else select_table b avoid cursor (new_table b) NEW_BUCKETS)
    (if prefer_tried then [true; false] else [false; true]).

(** [AddrBook::sample]: [cycle().skip(start).take(n)] over the tried addresses. *)
Definition sample b (limit : nat) (cursor : Z) : list PeerAddr :=
  let t := tried_addresses b in
  if bool_decide (t = []) then [] else
  let start := Z.to_nat (cursor mod Z.of_nat (length t)) in
  take (limit `min` length t) (drop start t ++ take start t).
End book.
