(* ===== verification/PeerProofs.v ===== *)
(** What the address book guarantees: an eclipse is bounded by groups, and a choice of
    whom to dial misses nobody it could have taken ([crates/p2p/src/addrbook.rs]); and the
    anchors a node keeps over a stop. *)

From S2P Require Import Prelude SortedVec Sorting Codec Primitives Crypto Peer.

(** * Wire form *)

#[export] Instance Octets_lawful n : Lawful (Octets_codec n).
Proof.
  split; unfold Octets_codec; cbn [encode decode wf].
  - intros x rest Hx. by apply take_array_app.
  - intros b x rest H. by apply take_array_Ok in H.
Qed.
#[export] Instance IpAddr_lawful : Lawful IpAddr_codec.
Proof. apply tag_lawful; [intros []; lia|tag_cases]. Qed.
#[export] Instance port_lawful : Lawful (guard_codec port_check u16_codec).
Proof. apply guard_lawful, _. Qed.
#[export] Instance PeerAddr_lawful `{Sg : Signer} : Lawful PeerAddr_codec.
Proof. unfold PeerAddr_codec. apply iso_lawful; [by intros [? []]|by intros (? & ? & ?)|apply _]. Qed.

(** * Walking *)

Lemma find_map_Some {A B} (f : A → option B) l y : find_map f l = Some y → ∃ x, x ∈ l ∧ f x = Some y.
Proof.
  induction l as [|x l IH]; simpl; [done|]. destruct (f x) eqn:E; intros H.
  - simplify_eq. exists x. split; [constructor|done].
  - destruct (IH H) as (z & ? & ?). exists z. split; [by constructor|done].
Qed.

Lemma find_map_None {A B} (f : A → option B) l : find_map f l = None ↔ ∀ x, x ∈ l → f x = None.
Proof.
  induction l as [|x l IH]; simpl; [split; [intros _ ? []%not_elem_of_nil|done]|].
  destruct (f x) eqn:E.
  - split; [done|]. intros H. rewrite (H x) in E by constructor. done.
  - rewrite IH. split; [intros H z [->|?]%elem_of_cons; auto|]. intros H z ?. apply H. by constructor.
Qed.

Lemma elem_of_sorted_entries {A} (m : gmap bytes A) k x : (k, x) ∈ sorted_entries m ↔ m !! k = Some x.
Proof. unfold sorted_entries. rewrite sort_by_key_perm. apply elem_of_map_to_list. Qed.

Lemma sorted_entries_NoDup {A} (m : gmap bytes A) : NoDup (sorted_entries m).*1.
Proof. unfold sorted_entries. rewrite sort_by_key_perm. apply NoDup_fst_map_to_list. Qed.

Lemma max_from_in {A} (le : A → A → bool) l x : max_from le x l ∈ x :: l.
Proof.
  revert x. induction l as [|y l IH]; intros x; simpl; [constructor|].
  destruct (le x y); [apply elem_of_cons; right; apply IH|].
  specialize (IH x). rewrite !elem_of_cons in *. naive_solver.
Qed.

Lemma max_by_in {A} (le : A → A → bool) l x : max_by le l = Some x → x ∈ l.
Proof. destruct l; simpl; [done|]. intros [= <-]. apply max_from_in. Qed.

Lemma max_by_None {A} (le : A → A → bool) l : max_by le l = None ↔ l = [].
Proof. by destruct l. Qed.

Lemma elem_of_retain_not id slot x : x ∈ retain_not id slot ↔ x ∈ slot ∧ x ≠ id.
Proof.
  unfold retain_not. rewrite list_elem_of_In, filter_In, <-list_elem_of_In, negb_true_iff, bool_decide_eq_false. done.
Qed.

Lemma retain_not_NoDup id slot : NoDup slot → NoDup (retain_not id slot).
Proof. rewrite !NoDup_ListNoDup. apply List.NoDup_filter. Qed.

Lemma retain_not_le id slot : (length (retain_not id slot) ≤ length slot)%nat.
Proof. apply List.filter_length_le. Qed.

Lemma retain_not_lt id slot : id ∈ slot → (length (retain_not id slot) < length slot)%nat.
Proof.
  induction slot as [|x slot IH]; [by intros ?%not_elem_of_nil|].
  unfold retain_not in *. simpl. case_bool_decide as E; simpl.
  - intros _. pose proof (retain_not_le id slot). unfold retain_not in *. lia.
  - intros [?|H]%elem_of_cons; [congruence|]. apply IH in H. lia.
Qed.

(** Distinct members of the slots at a few places of a table are few. *)
Lemma slots_bound {K} `{Countable K} (t : gmap K (list bytes)) (L : list K) (l : list bytes) n :
  NoDup l → (∀ k slot, t !! k = Some slot → length slot ≤ n)%nat →
  (∀ x, x ∈ l → ∃ k slot, k ∈ L ∧ t !! k = Some slot ∧ x ∈ slot) →
  (length l ≤ n * length L)%nat.
Proof.
  intros Hnd Hn Hl. set (all := concat ((λ k, default [] (t !! k)) <$> L)).
  assert (length l ≤ length all)%nat.
  { apply submseteq_length, NoDup_submseteq; [done|]. intros x Hx.
    destruct (Hl x Hx) as (k & slot & HkL & Hk & Hx'). unfold all.
    apply list_elem_of_In, in_concat. exists slot. split; [|by apply list_elem_of_In].
    apply list_elem_of_In, list_elem_of_fmap. exists k. by rewrite Hk. }
  assert (length all ≤ n * length L)%nat; [|lia]. unfold all. clear -Hn.
  induction L as [|k L IH]; [simpl; lia|]. rewrite fmap_cons. cbn [concat length]. rewrite length_app.
  assert (length (default [] (t !! k)) ≤ n)%nat by (destruct (t !! k) eqn:E; simpl; [eauto|lia]).
  lia.
Qed.

(** * Runs of the book *)

Section runs.
Context `{Hs : Hasher}.
Implicit Types (b : AddrBook) (a : PeerAddr) (id : PeerId) (source g : AddrGroup).

(** What can be done to a book. *)
Inductive BookOp := OpAdd a source | OpGood id | OpFailed id.
Definition book_step b (op : BookOp) : AddrBook :=
  match op with
  | OpAdd a source => (book_add a source b).1
  | OpGood id => mark_good id b
  | OpFailed id => mark_failed id b
  end.
Definition book_run (ops : list BookOp) b : AddrBook := foldl book_step b ops.

(** An entry sits where the hashes of its address, and of the group that offered it, say. *)
Definition in_new_slot (ops : list BookOp) b (k : Z) id : Prop :=
  ∃ e source, entries b !! id = Some e ∧ tried e = false ∧ OpAdd (e_addr e) source ∈ ops ∧ new_bucket (salt b) (e_addr e) source = k.
Definition in_tried_slot (ops : list BookOp) b (k : Z) id : Prop :=
  ∃ e, entries b !! id = Some e ∧ tried e = true ∧ OpGood id ∈ ops ∧ tried_bucket (salt b) (e_addr e) = k.

Definition table_ok (t : gmap Z (list PeerId)) (count : Z) (P : Z → PeerId → Prop) : Prop :=
  ∀ k slot, t !! k = Some slot →
    0 ≤ k < count ∧ (length slot ≤ BUCKET_SIZE)%nat ∧ NoDup slot ∧ ∀ id, id ∈ slot → P k id.

Record book_ok (ops : list BookOp) b : Prop := {
  bo_ids : ∀ id e, entries b !! id = Some e →
    pa_id (e_addr e) = id ∧ 0 ≤ failures e ≤ u32_max ∧ ∃ source, OpAdd (e_addr e) source ∈ ops;
  bo_new : table_ok (new_table b) NEW_BUCKETS (in_new_slot ops b);
  bo_once : ∀ k k' slot slot' id,
    new_table b !! k = Some slot → new_table b !! k' = Some slot' → id ∈ slot → id ∈ slot' → k = k';
  bo_tried : table_ok (tried_table b) TRIED_BUCKETS (in_tried_slot ops b);
  bo_held : ∀ id e, entries b !! id = Some e → tried e = true →
    ∃ slot, tried_table b !! tried_bucket (salt b) (e_addr e) = Some slot ∧ id ∈ slot;
}.

Lemma book_new_ok key : book_ok [] (AddrBook_new key).
Proof. split; unfold AddrBook_new; simpl; intros *; try intros k slot; rewrite lookup_empty; done. Qed.

Lemma table_ok_mono t count (P Q : Z → PeerId → Prop) :
  (∀ k id, P k id → Q k id) → table_ok t count P → table_ok t count Q.
Proof. intros HPQ Ht k slot Hk. destruct (Ht k slot Hk) as (? & ? & ? & ?). eauto 10. Qed.

Lemma in_new_slot_mono ops op b k id : in_new_slot ops b k id → in_new_slot (ops ++ [op]) b k id.
Proof. intros (e & s & ? & ? & ? & ?). exists e, s. rewrite elem_of_app. eauto. Qed.
Lemma in_tried_slot_mono ops op b k id : in_tried_slot ops b k id → in_tried_slot (ops ++ [op]) b k id.
Proof. intros (e & ? & ? & ? & ?). exists e. rewrite elem_of_app. eauto. Qed.

Lemma book_ok_mono ops op b : book_ok ops b → book_ok (ops ++ [op]) b.
Proof.
  intros []. split; eauto using table_ok_mono, in_new_slot_mono, in_tried_slot_mono.
  intros id e He. destruct (bo_ids0 id e He) as (? & ? & s & ?). split_and!; [done|lia..|]. exists s. set_solver.
Qed.

Lemma new_bucket_range slt a source : 0 ≤ new_bucket slt a source < NEW_BUCKETS.
Proof. apply Z.mod_pos_bound. unfold NEW_BUCKETS. lia. Qed.
Lemma tried_bucket_range slt a : 0 ≤ tried_bucket slt a < TRIED_BUCKETS.
Proof. apply Z.mod_pos_bound. unfold TRIED_BUCKETS. lia. Qed.

(** A slot replaced by a smaller one and a newcomer. *)
Lemma table_ok_put t count (P : Z → PeerId → Prop) k slot0 slot id :
  table_ok t count P → 0 ≤ k < count → default [] (t !! k) = slot0 →
  slot ⊆ slot0 → (length slot < BUCKET_SIZE)%nat → NoDup slot → id ∉ slot0 → P k id →
  table_ok (<[k := slot ++ [id]]> t) count P.
Proof.
  intros Ht Hk <- Hsub Hlen Hnd Hid HP k' slot' Hk'.
  rewrite lookup_insert_Some in Hk'. destruct Hk' as [[-> <-]|[? Hk']]; [|by apply Ht].
  rewrite length_app. simpl. split_and!; [lia..| |].
  - apply NoDup_app. split; [done|]. split; [|apply NoDup_singleton]. set_solver.
  - intros x [Hx|Hx]%elem_of_app; [|set_solver]. apply Hsub in Hx.
    destruct (t !! k') eqn:E; simpl in Hx; [|by apply not_elem_of_nil in Hx]. by apply (Ht _ _ E).
Qed.

Lemma table_slot_NoDup t count (P : Z → PeerId → Prop) k : table_ok t count P → NoDup (default [] (t !! k)).
Proof. intros Ht. destruct (t !! k) eqn:E; simpl; [by apply (Ht _ _ E)|constructor]. Qed.

(** ** Elementary changes *)

Definition set_entries es b : AddrBook := {| entries := es; new_table := new_table b; tried_table := tried_table b; salt := salt b |}.
Definition set_new t b : AddrBook := {| entries := entries b; new_table := t; tried_table := tried_table b; salt := salt b |}.
Definition set_tried_table t b : AddrBook := {| entries := entries b; new_table := new_table b; tried_table := t; salt := salt b |}.

(** Counting failures moves nothing. *)
Lemma book_ok_failures ops b id n e :
  book_ok ops b → entries b !! id = Some e → 0 ≤ n ≤ u32_max →
  book_ok ops (set_entries (<[id := set_failures n e]> (entries b)) b).
Proof.
  intros [Hids Hnew Honce Htried Hheld] He Hn.
  assert (∀ x e', <[id := set_failures n e]> (entries b) !! x = Some e' →
    ∃ e0, entries b !! x = Some e0 ∧ e_addr e' = e_addr e0 ∧ tried e' = tried e0 ∧ (failures e' = n ∨ failures e' = failures e0)) as Hback.
  { intros x e' Hx. rewrite lookup_insert_Some in Hx. destruct Hx as [[<- <-]|[_ Hx]]; [exists e|exists e']; auto. }
  assert (∀ x e0, entries b !! x = Some e0 →
    ∃ e', <[id := set_failures n e]> (entries b) !! x = Some e' ∧ e_addr e' = e_addr e0 ∧ tried e' = tried e0) as Hforth.
  { intros x e0 Hx. destruct (decide (x = id)) as [->|]; [|rewrite lookup_insert_ne; eauto].
    rewrite lookup_insert_eq. simplify_eq. eauto. }
  split; cbn [set_entries entries new_table tried_table salt]; [| |done| |].
  - intros x e' (e0 & Hx & -> & _ & Hf)%Hback. destruct (Hids _ _ Hx) as (? & ? & ?). split_and!; [done|destruct Hf; lia..|done].
  - eapply table_ok_mono; [|exact Hnew]. intros k x (e0 & src & Hx & Ht & ? & ?).
    destruct (Hforth _ _ Hx) as (e' & ? & Ha & Ht'). exists e', src. rewrite Ha, Ht'. done.
  - eapply table_ok_mono; [|exact Htried]. intros k x (e0 & Hx & Ht & ? & ?).
    destruct (Hforth _ _ Hx) as (e' & ? & Ha & Ht'). exists e'. cbn [entries set_entries salt]. rewrite Ha, Ht'. done.
  - intros x e' (e0 & Hx & -> & -> & _)%Hback Ht. eauto.
Qed.

(** A listed untried entry is forgotten. *)
Lemma book_ok_forget ops b k slot w :
  book_ok ops b → new_table b !! k = Some slot → w ∈ slot →
  book_ok ops (set_entries (delete w (entries b)) (set_new (<[k := retain_not w slot]> (new_table b)) b)).
Proof.
  intros [Hids Hnew Honce Htried Hheld] Hk Hw.
  assert (∀ k' slot' x, <[k := retain_not w slot]> (new_table b) !! k' = Some slot' → x ∈ slot' →
    x ≠ w ∧ ∃ slot0, new_table b !! k' = Some slot0 ∧ x ∈ slot0) as Hin.
  { intros k' slot' x Hk' Hx. rewrite lookup_insert_Some in Hk'. destruct Hk' as [[-> <-]|[Hne Hk']].
    - apply elem_of_retain_not in Hx as [??]. eauto.
    - split; [|eauto]. intros ->. by apply Hne, (Honce _ _ slot slot' w). }
  destruct (Hnew _ _ Hk) as (_ & _ & _ & Hwe). destruct (Hwe _ Hw) as (we & _ & Hwe' & Hwt & _).
  split; cbn [set_entries set_new entries new_table tried_table salt].
  - intros x e [_ Hx]%lookup_delete_Some. eauto.
  - intros k' slot' Hk'. pose proof (λ x, Hin k' slot' x Hk') as Hx. rewrite lookup_insert_Some in Hk'.
    assert (∀ x, x ∈ slot' → in_new_slot ops (set_entries (delete w (entries b)) (set_new (<[k := retain_not w slot]> (new_table b)) b)) k' x).
    { intros x [Hne (slot0 & H0 & Hx0)]%Hx. apply (Hnew _ _ H0) in Hx0 as (e & src & ? & ? & ? & ?).
      exists e, src. cbn [entries set_entries]. by rewrite lookup_delete_ne. }
    destruct Hk' as [[<- <-]|[_ Hk']].
    + destruct (Hnew _ _ Hk) as (? & ? & ? & _). pose proof (retain_not_le w slot).
      split_and!; [lia..|by apply retain_not_NoDup|done].
    + by destruct (Hnew _ _ Hk') as (? & ? & ? & _).
  - intros k1 k2 s1 s2 x H1 H2 Hx1 Hx2.
    destruct (Hin _ _ _ H1 Hx1) as (_ & ? & ? & ?), (Hin _ _ _ H2 Hx2) as (_ & ? & ? & ?). eauto.
  - eapply table_ok_mono; [|exact Htried]. intros k' x (e & Hx & Ht & ? & ?). exists e. cbn [entries set_entries].
    rewrite lookup_delete_ne by congruence. done.
  - intros x e [_ Hx]%lookup_delete_Some. eauto.
Qed.

(** A new address is listed. *)
Lemma book_ok_learn ops b a source slot :
  let k := new_bucket (salt b) a source in
  book_ok ops b → OpAdd a source ∈ ops → entries b !! pa_id a = None →
  default [] (new_table b !! k) = slot → (length slot < BUCKET_SIZE)%nat →
  book_ok ops (set_entries (<[pa_id a := {| e_addr := a; failures := 0; tried := false |}]> (entries b))
    (set_new (<[k := slot ++ [pa_id a]]> (new_table b)) b)).
Proof.
  intros k [Hids Hnew Honce Htried Hheld] Hop Hnone Hslot Hlen.
  assert (∀ k' slot', new_table b !! k' = Some slot' → pa_id a ∉ slot') as Hfresh.
  { intros k' slot' Hk' Hin. apply (Hnew _ _ Hk') in Hin as (? & ? & ? & _). congruence. }
  assert (pa_id a ∉ slot) as Hnin.
  { subst slot. destruct (new_table b !! k) eqn:E; simpl; [eauto|apply not_elem_of_nil]. }
  assert (∀ k' slot' x, <[k := slot ++ [pa_id a]]> (new_table b) !! k' = Some slot' → x ∈ slot' →
    (x = pa_id a ∧ k' = k) ∨ (∃ slot0, new_table b !! k' = Some slot0 ∧ x ∈ slot0)) as Hin.
  { intros k' slot' x Hk' Hx. rewrite lookup_insert_Some in Hk'. destruct Hk' as [[<- <-]|[_ ?]]; [|eauto].
    apply elem_of_app in Hx as [Hx|Hx%list_elem_of_singleton]; [right|by left]. subst slot.
    destruct (new_table b !! k) eqn:E; simpl in Hx; [eauto|by apply not_elem_of_nil in Hx]. }
  split; cbn [set_entries set_new entries new_table tried_table salt].
  - intros x e [[<- <-]|[_ Hx]]%lookup_insert_Some; [|eauto]. simpl. split_and!; [done|unfold u32_max; lia..|eauto].
  - eapply (table_ok_put _ _ _ _ slot); [|apply new_bucket_range|done|done|done| |done|].
    + eapply table_ok_mono; [|exact Hnew]. intros k' x (e & src & Hx & ? & ? & ?). exists e, src.
      cbn [entries set_entries salt]. rewrite lookup_insert_ne by congruence. done.
    + rewrite <-Hslot. by eapply table_slot_NoDup.
    + eexists _, source. cbn [entries set_entries salt set_new]. rewrite lookup_insert_eq. done.
  - intros k1 k2 s1 s2 x H1 H2 Hx1 Hx2.
    destruct (Hin _ _ _ H1 Hx1) as [[-> ->]|(? & ? & ?)], (Hin _ _ _ H2 Hx2) as [[Hx ->]|(? & ? & ?)]; subst; eauto;
      exfalso; eapply Hfresh; eauto.
  - eapply table_ok_mono; [|exact Htried]. intros k' x (e & Hx & Ht & ? & ?). exists e. cbn [entries set_entries].
    rewrite lookup_insert_ne by congruence. done.
  - intros x e [[<- <-]|[_ Hx]]%lookup_insert_Some; [done|eauto].
Qed.

(** A peer is struck off the new table. *)
Definition unlisted b id : Prop := ∀ k slot, new_table b !! k = Some slot → id ∉ slot.

Lemma book_ok_unlist ops b id :
  book_ok ops b → book_ok ops (set_new (retain_not id <$> new_table b) b)
  ∧ unlisted (set_new (retain_not id <$> new_table b) b) id.
Proof.
  intros [Hids Hnew Honce Htried Hheld].
  assert (∀ k slot, (retain_not id <$> new_table b) !! k = Some slot →
    ∃ slot0, new_table b !! k = Some slot0 ∧ slot = retain_not id slot0) as Hback.
  { intros k slot. rewrite lookup_fmap, fmap_Some. naive_solver. }
  split; [split|]; cbn [set_new entries new_table tried_table salt]; [done| | |done..|].
  - intros k slot (slot0 & Hk & ->)%Hback. destruct (Hnew _ _ Hk) as (? & ? & ? & Hin).
    pose proof (retain_not_le id slot0). split_and!; [lia..|by apply retain_not_NoDup|].
    intros x [Hx _]%elem_of_retain_not. by apply Hin.
  - intros k k' s s' x (s0 & H1 & ->)%Hback (s0' & H2 & ->)%Hback [? _]%elem_of_retain_not [? _]%elem_of_retain_not. eauto.
  - intros k slot (slot0 & Hk & ->)%Hback [_ Hx]%elem_of_retain_not. done.
Qed.

(** A tried entry is demoted: it leaves its slot and is listed nowhere. *)
Lemma book_ok_demote ops b k slot w :
  book_ok ops b → tried_table b !! k = Some slot → w ∈ slot →
  book_ok ops (set_entries (alter (set_tried false) w (entries b)) (set_tried_table (<[k := retain_not w slot]> (tried_table b)) b)).
Proof.
  intros [Hids Hnew Honce Htried Hheld] Hk Hw.
  destruct (Htried _ _ Hk) as (Hkr & Hlen & Hnd & Hin). destruct (Hin _ Hw) as (we & Hwe & Hwt & _ & Hwk).
  assert (∀ k' slot' x, tried_table b !! k' = Some slot' → x ∈ slot' → x = w → k' = k) as Honly.
  { intros k' slot' x Hk' Hx ->. apply (Htried _ _ Hk') in Hx as (? & ? & _ & _ & <-). simplify_eq. done. }
  assert (∀ x, x ≠ w → alter (set_tried false) w (entries b) !! x = entries b !! x) as Hsame.
  { intros x ?. by rewrite lookup_alter_ne. }
  split; cbn [set_entries set_tried_table entries new_table tried_table salt].
  - intros x e. destruct (decide (x = w)) as [->|]; [|rewrite Hsame by done; eauto].
    rewrite lookup_alter_eq, Hwe. intros [= <-]. apply (Hids _ _ Hwe).
  - eapply table_ok_mono; [|exact Hnew]. intros k' x (e & src & Hx & Ht & ? & ?). exists e, src.
    cbn [entries set_entries]. rewrite Hsame by congruence. done.
  - done.
  - intros k' slot' [[<- <-]|[Hne Hk']]%lookup_insert_Some.
    + pose proof (retain_not_le w slot). split_and!; [lia..|by apply retain_not_NoDup|].
      intros x [(e & ? & ? & ? & ?)%Hin ?]%elem_of_retain_not. exists e. cbn [entries set_entries]. by rewrite Hsame.
    + destruct (Htried _ _ Hk') as (? & ? & ? & Hin'). split_and!; [lia..|done|]. intros x Hx.
      assert (x ≠ w) by (intros ->; by apply Hne; symmetry; eapply Honly).
      destruct (Hin' x Hx) as (e & ? & ? & ? & ?). exists e. cbn [entries set_entries]. by rewrite Hsame.
  - intros x e Hx Ht. destruct (decide (x = w)) as [->|].
    { rewrite lookup_alter_eq, Hwe in Hx. injection Hx as <-. done. }
    rewrite Hsame in Hx by done. destruct (Hheld _ _ Hx Ht) as (s' & Hs' & Hxs).
    destruct (decide (tried_bucket (salt b) (e_addr e) = k)) as [Hk'|?]; [|rewrite lookup_insert_ne by done; eauto].
    rewrite Hk' in Hs' |- *. rewrite lookup_insert_eq. rewrite Hk in Hs'. injection Hs' as <-.
    eexists. split; [done|]. by apply elem_of_retain_not.
Qed.

(** An unlisted entry enters the tried table. *)
Lemma book_ok_promote ops b id e slot :
  let k := tried_bucket (salt b) (e_addr e) in
  book_ok ops b → OpGood id ∈ ops → entries b !! id = Some e → tried e = false → unlisted b id →
  default [] (tried_table b !! k) = slot → (length slot < BUCKET_SIZE)%nat →
  book_ok ops (set_entries (<[id := set_tried true (set_failures 0 e)]> (entries b))
    (set_tried_table (<[k := slot ++ [id]]> (tried_table b)) b)).
Proof.
  intros k [Hids Hnew Honce Htried Hheld] Hop He Ht Hun Hslot Hlen.
  assert (∀ k' slot', tried_table b !! k' = Some slot' → id ∉ slot') as Hfresh.
  { intros k' slot' Hk' Hin. apply (Htried _ _ Hk') in Hin as (? & ? & ? & _). congruence. }
  assert (id ∉ slot) as Hnin.
  { subst slot. destruct (tried_table b !! k) eqn:E; simpl; [eauto|apply not_elem_of_nil]. }
  split; cbn [set_entries set_tried_table entries new_table tried_table salt]; [| |done| |].
  - intros x e' [[<- <-]|[_ Hx]]%lookup_insert_Some; [|eauto]. simpl. destruct (Hids _ _ He) as (? & ? & ?).
    split_and!; [done|unfold u32_max; lia..|done].
  - intros k' slot' Hk'. destruct (Hnew _ _ Hk') as (? & ? & ? & Hin). split_and!; [lia..|done|]. intros x Hx.
    assert (x ≠ id) by (intros ->; by eapply Hun). destruct (Hin x Hx) as (e' & src & ? & ? & ? & ?).
    exists e', src. cbn [entries set_entries]. by rewrite lookup_insert_ne.
  - eapply (table_ok_put _ _ _ _ slot); [|apply tried_bucket_range|done|done|done| |done|].
    + intros k' slot' Hk'. destruct (Htried _ _ Hk') as (? & ? & ? & Hin). split_and!; [lia..|done|]. intros x Hx.
      destruct (Hin x Hx) as (e' & ? & ? & ? & ?). exists e'. cbn [entries set_entries].
      rewrite lookup_insert_ne by (intros ->; by eapply Hfresh). done.
    + rewrite <-Hslot. by eapply table_slot_NoDup.
    + eexists. cbn [entries set_entries]. rewrite lookup_insert_eq. done.
  - intros x e' [[<- <-]|[Hne Hx]]%lookup_insert_Some Ht'.
    + simpl. rewrite lookup_insert_eq. eexists. split; [done|]. set_solver.
    + destruct (Hheld _ _ Hx Ht') as (s' & Hs' & Hxs).
      destruct (decide (tried_bucket (salt b) (e_addr e') = k)) as [Hk|?]; [|rewrite lookup_insert_ne by done; eauto].
      rewrite Hk, lookup_insert_eq. eexists. split; [done|]. rewrite Hk in Hs'. rewrite Hs' in Hslot. set_solver.
Qed.

(** ** The operations *)

Lemma book_ok_add ops b a source : book_ok ops b → book_ok (ops ++ [OpAdd a source]) (book_add a source b).1.
Proof.
  intros Hb%(book_ok_mono _ (OpAdd a source)). unfold book_add.
  assert (OpAdd a source ∈ ops ++ [OpAdd a source]) as Hop by set_solver. set (ops' := ops ++ _) in *. clearbody ops'.
  case_bool_decide as Hk; [done|]. apply eq_None_not_Some in Hk.
  set (k := new_bucket (salt b) a source). set (slot := default [] (new_table b !! k)).
  destruct (_ <=? length slot)%nat eqn:Hlen; apply Nat.leb_nle in Hlen || apply Nat.leb_le in Hlen.
  2:{ apply (book_ok_learn ops' b a source slot); [done..|lia]. }
  destruct (worst (entries b) slot) as [w|] eqn:Hw; [|done].
  destruct (entries b !! w) as [we|] eqn:Hwe; [|done]. destruct (failures we =? 0); [done|]. simpl.
  apply max_by_in in Hw. destruct (new_table b !! k) as [slot'|] eqn:Hsl; [|by apply not_elem_of_nil in Hw].
  simpl in slot. pose proof (bo_new _ _ Hb _ _ Hsl) as (_ & Hle & _). pose proof (retain_not_lt w slot Hw).
  eapply book_ok_forget in Hb; [|exact Hsl|exact Hw].
  eapply (book_ok_learn _ _ a source (retain_not w slot)) in Hb; [|done|..].
  - cbn [set_entries set_new entries new_table tried_table salt] in Hb. fold k in Hb. by rewrite insert_insert_eq in Hb.
  - cbn [set_entries entries]. by rewrite lookup_delete_ne by congruence.
  - cbn [set_entries set_new new_table salt]. fold k. by rewrite lookup_insert_eq.
  - fold slot in Hle. lia.
Qed.

Lemma book_ok_good ops b id : book_ok ops b → book_ok (ops ++ [OpGood id]) (mark_good id b).
Proof.
  intros Hb%(book_ok_mono _ (OpGood id)). unfold mark_good.
  assert (OpGood id ∈ ops ++ [OpGood id]) as Hop by set_solver. set (ops' := ops ++ _) in *. clearbody ops'.
  destruct (entries b !! id) as [e|] eqn:He; [|done]. destruct (tried e) eqn:Ht.
  { apply book_ok_failures; [done..|unfold u32_max; lia]. }
  set (k := tried_bucket (salt b) (e_addr e)). set (slot := default [] (tried_table b !! k)).
  destruct (book_ok_unlist _ _ id Hb) as [Hb1 Hun]. set (b1 := set_new _ b) in *.
  destruct (_ <=? length slot)%nat eqn:Hlen; apply Nat.leb_nle in Hlen || apply Nat.leb_le in Hlen.
  2:{ apply (book_ok_promote ops' b1 id e slot); [done..|lia]. }
  destruct (worst _ slot) as [w|] eqn:Hw; [apply max_by_in in Hw|apply max_by_None in Hw; rewrite Hw in Hlen; simpl in Hlen; unfold BUCKET_SIZE in Hlen; lia].
  destruct (tried_table b !! k) as [slot'|] eqn:Hsl; [|by apply not_elem_of_nil in Hw]. simpl in slot.
  pose proof (bo_tried _ _ Hb _ _ Hsl) as (_ & Hle & _ & Hin). pose proof (retain_not_lt w slot Hw).
  assert (w ≠ id) as Hne by (intros ->; apply Hin in Hw as (? & ? & ? & _); congruence).
  eapply (book_ok_demote _ b1) in Hb1; [|exact Hsl|exact Hw].
  eapply (book_ok_promote _ _ id e (retain_not w slot)) in Hb1; [|done|..].
  - cbn [set_entries set_tried_table b1 set_new entries new_table tried_table salt] in Hb1. fold k in Hb1.
    rewrite insert_insert_eq in Hb1. by rewrite alter_insert_ne by done.
  - cbn [set_entries entries]. by rewrite lookup_alter_ne.
  - done.
  - exact Hun.
  - cbn [set_entries set_tried_table tried_table salt b1 set_new]. fold k. by rewrite lookup_insert_eq.
  - fold slot in Hle. lia.
Qed.

Lemma book_ok_failed ops b id : book_ok ops b → book_ok (ops ++ [OpFailed id]) (mark_failed id b).
Proof.
  intros Hb%(book_ok_mono _ (OpFailed id)). unfold mark_failed. rewrite alter_alt.
  destruct (entries b !! id) as [e|] eqn:He; [|by destruct b].
  apply book_ok_failures; [done..|].
  pose proof (bo_ids _ _ Hb _ _ He) as (_ & ? & _). unfold saturating_add, u32_max in *. lia.
Qed.

(** Whatever is done to a book keeps it in order. *)
Lemma book_run_ok ops key : book_ok ops (book_run ops (AddrBook_new key)).
Proof.
  induction ops as [|op ops IH] using rev_ind; [apply book_new_ok|].
  unfold book_run. rewrite foldl_app. simpl. fold (book_run ops (AddrBook_new key)).
  destruct op; simpl; [by apply book_ok_add|by apply book_ok_good|by apply book_ok_failed].
Qed.

(** ** What the tables hold *)

Definition listed_new b id : Prop := ∃ k slot, new_table b !! k = Some slot ∧ id ∈ slot.
(** Every offer of this peer came from [source]. *)
Definition only_from source (ops : list BookOp) id : Prop := ∀ a s, OpAdd a s ∈ ops → pa_id a = id → s = source.

(** The buckets an address group may occupy in the tried table, and a source in the new one. *)
Definition group_buckets (slt : Hash32) g : list Z :=
  (λ i, book_hash slt [bs "tried2"; g; LittleEndianList.le_split 8 (Z.of_nat i)] mod TRIED_BUCKETS) <$> seq 0 (Z.to_nat TRIED_BUCKETS_PER_GROUP).
Definition source_buckets (slt : Hash32) source : list Z :=
  (λ i, book_hash slt [bs "new2"; source; LittleEndianList.le_split 8 (Z.of_nat i)] mod NEW_BUCKETS) <$> seq 0 (Z.to_nat NEW_BUCKETS_PER_SOURCE).

Lemma elem_of_indexed (f : Z → Z) n i : 0 ≤ i < n → f i ∈ (λ i, f (Z.of_nat i)) <$> seq 0 (Z.to_nat n).
Proof. intros ?. apply list_elem_of_fmap. exists (Z.to_nat i). rewrite elem_of_seq, Z2Nat.id by lia. split; [done|lia]. Qed.

Lemma tried_bucket_of_group slt a : tried_bucket slt a ∈ group_buckets slt (group a).
Proof. apply (elem_of_indexed (λ i, book_hash slt [_; _; LittleEndianList.le_split 8 i] mod TRIED_BUCKETS)), Z.mod_pos_bound. done. Qed.
Lemma new_bucket_of_source slt a source : new_bucket slt a source ∈ source_buckets slt source.
Proof. apply (elem_of_indexed (λ i, book_hash slt [_; _; LittleEndianList.le_split 8 i] mod NEW_BUCKETS)), Z.mod_pos_bound. done. Qed.

Lemma elem_of_tried_addresses b a :
  a ∈ tried_addresses b ↔ ∃ id e, entries b !! id = Some e ∧ tried e = true ∧ e_addr e = a.
Proof.
  unfold tried_addresses. rewrite list_elem_of_fmap. setoid_rewrite list_elem_of_In. setoid_rewrite filter_In.
  setoid_rewrite <-list_elem_of_In. setoid_rewrite list_elem_of_fmap. split.
  - intros (e & -> & ([id e'] & -> & Hin%elem_of_sorted_entries) & Ht). eauto.
  - intros (id & e & He%elem_of_sorted_entries & Ht & <-). exists e. split_and!; [done| |done]. by exists (id, e).
Qed.

Lemma tried_ids_NoDup ops b : book_ok ops b → NoDup (pa_id <$> tried_addresses b).
Proof.
  intros Hb. unfold tried_addresses. rewrite <-list_fmap_compose.
  assert (∀ l : list (bytes * Entry), NoDup l.*1 → (∀ id e, (id, e) ∈ l → pa_id (e_addr e) = id) →
    NoDup ((pa_id ∘ e_addr) <$> List.filter tried l.*2)) as Hl.
  { induction l as [|[id e] l IH]; intros Hnd Hid; [constructor|]. rewrite fmap_cons in Hnd. apply NoDup_cons in Hnd as [Hnin Hnd].
    assert (NoDup ((pa_id ∘ e_addr) <$> List.filter tried l.*2)) as IH' by (apply IH; [done|]; intros; apply Hid; by right).
    simpl. destruct (tried e); [|done]. rewrite fmap_cons. apply NoDup_cons. split; [|done].
    intros (e' & Heq & Hin)%list_elem_of_fmap. apply list_elem_of_In, filter_In in Hin as [Hin%list_elem_of_In _].
    apply list_elem_of_fmap in Hin as ([id' e''] & -> & Hin). simpl in *. apply Hnin, list_elem_of_fmap. exists (id', e'').
    split; [|done]. simpl. rewrite <-(Hid id e) by constructor. rewrite Heq. apply Hid. by right. }
  apply Hl; [apply sorted_entries_NoDup|]. intros id e He%elem_of_sorted_entries. by apply (bo_ids _ _ Hb).
Qed.

Lemma tried_in_slots ops b a (L : list Z) :
  book_ok ops b → a ∈ tried_addresses b → tried_bucket (salt b) a ∈ L →
  ∃ k slot, k ∈ L ∧ tried_table b !! k = Some slot ∧ pa_id a ∈ slot.
Proof.
  intros Hb (id & e & He & Ht & <-)%elem_of_tried_addresses HL.
  destruct (bo_ids _ _ Hb _ _ He) as (-> & _). destruct (bo_held _ _ Hb _ _ He Ht) as (slot & ? & ?). eauto.
Qed.

Lemma slots_len t count (P : Z → PeerId → Prop) k slot :
  table_ok t count P → t !! k = Some slot → (length slot ≤ BUCKET_SIZE)%nat.
Proof. intros Ht Hk. by apply (Ht _ _ Hk). Qed.

Lemma sample_tried b limit cursor a : a ∈ sample b limit cursor → a ∈ tried_addresses b.
Proof.
  unfold sample. case_bool_decide; [by intros ?%not_elem_of_nil|].
  intros Ha. eapply elem_of_sublist in Ha; [|apply sublist_take].
  apply elem_of_app in Ha as [Ha|Ha]; (eapply elem_of_sublist; [exact Ha|]); [apply sublist_drop|apply sublist_take].
Qed.

(** C25: an eclipse costs groups, not addresses.  Whatever peers are offered to a book, by
    whomever, and whichever of them answer or fail, at most 32 of the tried peers lie in
    any one group and at most 512 peers are tried at all; at most 2048 are listed as new,
    and of those that only one source group ever offered at most 256; a peer becomes tried
    only by a completed handshake; and a sample given to others holds tried addresses
    only, no more than asked for, none twice. *)
Theorem eclipse_bounds key ops :
  let b := book_run ops (AddrBook_new key) in
  (∀ g, (length (filter (λ a, group a = g) (tried_addresses b)) ≤ 32)%nat)
  ∧ (length (tried_addresses b) ≤ 512)%nat
  ∧ (∀ l, NoDup l → (∀ id, id ∈ l → listed_new b id) → (length l ≤ 2048)%nat)
  ∧ (∀ source l, NoDup l → (∀ id, id ∈ l → listed_new b id ∧ only_from source ops id) → (length l ≤ 256)%nat)
  ∧ (∀ a, a ∈ tried_addresses b → OpGood (pa_id a) ∈ ops ∧ ∃ source, OpAdd a source ∈ ops)
  ∧ (∀ limit cursor, sample b limit cursor ⊆ tried_addresses b ∧ NoDup (pa_id <$> sample b limit cursor)
       ∧ (length (sample b limit cursor) ≤ limit)%nat).
Proof.
  pose proof (book_run_ok ops key) as Hb. cbv zeta. set (b := book_run _ _) in *. clearbody b.
  split_and!.
  - intros g. rewrite <-(length_fmap pa_id). apply (slots_bound (tried_table b) (group_buckets (salt b) g) _ BUCKET_SIZE).
    + eapply sublist_NoDup; [by eapply tried_ids_NoDup|apply fmap_sublist, sublist_filter].
    + eauto using slots_len, bo_tried.
    + intros id (a & -> & [<- Ha]%list_elem_of_filter)%list_elem_of_fmap. eauto using tried_in_slots, tried_bucket_of_group.
  - assert (512 = BUCKET_SIZE * length (Z.of_nat <$> seq 0 64))%nat as -> by reflexivity.
    rewrite <-(length_fmap pa_id). apply (slots_bound (tried_table b)).
    + by eapply tried_ids_NoDup.
    + eauto using slots_len, bo_tried.
    + intros id (a & -> & Ha)%list_elem_of_fmap. eapply tried_in_slots; [done..|].
      apply (elem_of_indexed (λ i, i) 64), tried_bucket_range.
  - intros l Hnd Hl. assert (2048 = BUCKET_SIZE * length (Z.of_nat <$> seq 0 256))%nat as -> by reflexivity.
    apply (slots_bound (new_table b)); [done|eauto using slots_len, bo_new|].
    intros id (k & slot & Hk & Hin)%Hl. exists k, slot. split_and!; [|done..].
    apply (elem_of_indexed (λ i, i) 256). by apply (bo_new _ _ Hb _ _ Hk).
  - intros source l Hnd Hl. assert (256 = BUCKET_SIZE * length (source_buckets (salt b) source))%nat as -> by reflexivity.
    apply (slots_bound (new_table b)); [done|eauto using slots_len, bo_new|].
    intros id [(k & slot & Hk & Hin) Honly]%Hl. exists k, slot. split_and!; [|done..].
    destruct (bo_new _ _ Hb _ _ Hk) as (_ & _ & _ & Hslot). destruct (Hslot id Hin) as (e & src & He & _ & Hop & <-).
    rewrite <-(Honly _ _ Hop) by apply (bo_ids _ _ Hb _ _ He). apply new_bucket_of_source.
  - intros a Ha. destruct (tried_in_slots _ _ _ [_] Hb Ha ltac:(by apply list_elem_of_singleton)) as (k & slot & _ & Hk & Hin).
    apply (bo_tried _ _ Hb _ _ Hk) in Hin as (e & He & _ & Hop & _). split; [done|].
    apply elem_of_tried_addresses in Ha as (id & e' & He' & _ & <-). by apply (bo_ids _ _ Hb _ _ He').
  - intros limit cursor. split; [intros a; apply sample_tried|]. unfold sample. case_bool_decide; [simpl; split; [constructor|lia]|].
    rewrite length_take. split; [|lia]. eapply sublist_NoDup; [|apply fmap_sublist, sublist_take].
    rewrite fmap_app, (Permutation_app_comm (pa_id <$> drop _ _)), <-fmap_app, take_drop. by eapply tried_ids_NoDup.
Qed.

(** ** Whom to dial *)

(** A peer of the table that may be dialled. *)
Definition candidate b (table : gmap Z (list PeerId)) (avoid : list AddrGroup) a : Prop :=
  ∃ k slot id e, table !! k = Some slot ∧ id ∈ slot ∧ entries b !! id = Some e ∧ e_addr e = a ∧ group a ∉ avoid.

Lemma select_entry_Some b avoid id a :
  select_entry b avoid id = Some a ↔ ∃ e, entries b !! id = Some e ∧ e_addr e = a ∧ group a ∉ avoid.
Proof. unfold select_entry. destruct (entries b !! id); [|naive_solver]. case_bool_decide; naive_solver. Qed.

(** Rotating the start of a walk misses nothing. *)
Lemma rotated_index (offset : Z) (n j : nat) :
  (j < n)%nat → ∃ i, (i < n)%nat ∧ Z.to_nat ((Z.of_nat i + offset) mod Z.of_nat n) = j.
Proof.
  intros Hj. exists (Z.to_nat ((Z.of_nat j - offset) mod Z.of_nat n)).
  pose proof (Z.mod_pos_bound (Z.of_nat j - offset) (Z.of_nat n)) as ?. split; [lia|].
  rewrite Z2Nat.id, Zplus_mod_idemp_l by lia. replace (Z.of_nat j - offset + offset) with (Z.of_nat j) by lia.
  rewrite Z.mod_small by lia. lia.
Qed.

Lemma select_slot_spec b avoid cursor slot :
  match select_slot b avoid cursor slot with
  | Some a => ∃ id, id ∈ slot ∧ select_entry b avoid id = Some a
  | None => ∀ id, id ∈ slot → select_entry b avoid id = None
  end.
Proof.
  unfold select_slot. set (offset := cursor mod _). destruct (find_map _ _) as [a|] eqn:E.
  - apply find_map_Some in E as ([i id] & Hin & Ha). destruct (slot !! _) as [x|] eqn:Hx; simpl in Ha.
    + exists x. split; [by eapply list_elem_of_lookup_2|done].
    + exists id. split; [by eapply elem_of_zip_r|done].
  - rewrite find_map_None in E. intros id (j & Hj)%list_elem_of_lookup_1.
    destruct (rotated_index offset (length slot) j) as (i & Hi & Hij); [by eapply lookup_lt_Some|].
    destruct (lookup_lt_is_Some_2 slot i Hi) as (x & Hx).
    specialize (E (i, x)). simpl in E. rewrite Hij, Hj in E. apply E.
    apply (list_elem_of_lookup_2 _ i), lookup_zip_with_Some. exists i, x. split_and!; [done| |done]. by apply lookup_seq_lt.
Qed.

Lemma select_table_spec b avoid cursor table count :
  (∀ k slot, table !! k = Some slot → 0 ≤ k < count) → (count | 2 ^ 64) → 0 < count →
  match select_table b avoid cursor table count with
  | Some a => candidate b table avoid a
  | None => ∀ a, ¬ candidate b table avoid a
  end.
Proof.
  intros Hk Hdiv Hpos. unfold select_table. destruct (find_map _ _) as [a|] eqn:E.
  - apply find_map_Some in E as (i & _ & Ha). set (k := _ mod count) in *. destruct (table !! k) as [slot|] eqn:Hs'; [|done].
    pose proof (select_slot_spec b avoid cursor slot) as Hsl. rewrite Ha in Hsl. destruct Hsl as (id & Hin & (e & ? & ? & ?)%select_entry_Some).
    exists k, slot, id, e. done.
  - rewrite find_map_None in E. intros a (k & slot & id & e & Hsl & Hin & He & Ha & Hav).
    destruct (rotated_index cursor (Z.to_nat count) (Z.to_nat k)) as (i & Hi & Hik); [specialize (Hk _ _ Hsl); lia|].
    rewrite Z2Nat.id in Hik by lia. specialize (Hk _ _ Hsl).
    assert ((cursor + Z.of_nat i) mod 2 ^ 64 mod count = k) as Hb.
    { rewrite Z.mod_mod_divide by done.
      pose proof (Z.mod_pos_bound (cursor + Z.of_nat i) count Hpos). rewrite (Z.add_comm cursor) in *. lia. }
    specialize (E i ltac:(apply elem_of_seq; lia)). cbv zeta beta in E. rewrite Hb, Hsl in E.
    pose proof (select_slot_spec b avoid cursor slot) as Hs0. rewrite E in Hs0. specialize (Hs0 id Hin).
    assert (select_entry b avoid id = Some a) by (apply select_entry_Some; eauto). congruence.
Qed.

(** A choice of whom to dial is never in a group to avoid, and none is made only if no
    peer of either table could be: two times in three a tried peer is taken whenever one
    can be, and otherwise a new one. *)
Theorem dial_choice_exact key ops avoid cursor :
  let b := book_run ops (AddrBook_new key) in
  let '(first, second) := if cursor mod 3 =? 0 then (new_table b, tried_table b) else (tried_table b, new_table b) in
  match book_select b avoid cursor with
  | Some a => candidate b first avoid a ∨ ((∀ a', ¬ candidate b first avoid a') ∧ candidate b second avoid a)
  | None => ∀ a, ¬ candidate b first avoid a ∧ ¬ candidate b second avoid a
  end.
Proof.
  pose proof (book_run_ok ops key) as Hb. cbv zeta. set (b := book_run _ _) in *. clearbody b.
  assert (match select_table b avoid cursor (tried_table b) TRIED_BUCKETS with Some a => candidate b (tried_table b) avoid a | None => ∀ a, ¬ candidate b (tried_table b) avoid a end) as Ht.
  { apply select_table_spec; [intros k slot Hk; by apply (bo_tried _ _ Hb _ _ Hk)|by exists (2 ^ 58)|done]. }
  assert (match select_table b avoid cursor (new_table b) NEW_BUCKETS with Some a => candidate b (new_table b) avoid a | None => ∀ a, ¬ candidate b (new_table b) avoid a end) as Hn.
  { apply select_table_spec; [intros k slot Hk; by apply (bo_new _ _ Hb _ _ Hk)|by exists (2 ^ 56)|done]. }
  unfold book_select. destruct (cursor mod 3 =? 0); simpl;
    destruct (select_table _ _ _ (tried_table b) _), (select_table _ _ _ (new_table b) _); naive_solver.
Qed.

(** ** A demoted peer is lost *)

(** Known, not tried, and in no table. *)
Definition lost b id : Prop :=
  (∃ e, entries b !! id = Some e ∧ tried e = false) ∧ unlisted b id
  ∧ ∀ k slot, tried_table b !! k = Some slot → id ∉ slot.

Lemma lost_never_selected key ops id e avoid cursor a :
  let b := book_run ops (AddrBook_new key) in
  lost b id → entries b !! id = Some e → book_select b avoid cursor = Some a → pa_id a ≠ id.
Proof.
  intros b (_ & Hun & Htr) He Hsel Hid. pose proof (dial_choice_exact key ops avoid cursor) as H. cbv zeta in H. fold b in H.
  rewrite Hsel in H. pose proof (book_run_ok ops key) as Hb. fold b in Hb.
  assert (∀ t, candidate b t avoid a → t = new_table b ∨ t = tried_table b → False) as Hno.
  { intros t (k & slot & x & e' & Hk & Hx & He' & Ha & _) Ht. destruct (bo_ids _ _ Hb _ _ He') as (Hx' & _).
    rewrite Ha, Hid in Hx'. subst x. destruct Ht; subst t; [by eapply Hun|by eapply Htr]. }
  destruct (cursor mod 3 =? 0); destruct H as [H|[_ H]]; eauto.
Qed.

Lemma lost_not_relearned b id a source : lost b id → pa_id a = id → book_add a source b = (b, false).
Proof. intros ((e & He & _) & _) <-. unfold book_add. rewrite bool_decide_eq_true_2; eauto. Qed.

(** A handshake that finds its tried bucket full loses one of the eight peers in it. *)
Theorem demoted_is_lost ops b id e :
  book_ok ops b → entries b !! id = Some e → tried e = false →
  length (default [] (tried_table b !! tried_bucket (salt b) (e_addr e))) = BUCKET_SIZE →
  ∃ w, w ∈ default [] (tried_table b !! tried_bucket (salt b) (e_addr e)) ∧ lost (mark_good id b) w.
Proof.
  intros Hb He Ht. unfold mark_good. rewrite He, Ht. set (k := tried_bucket _ _). set (slot := default [] _). intros Hlen.
  rewrite (proj2 (Nat.leb_le _ _)) by lia.
  destruct (worst _ slot) as [w|] eqn:Hw; [|apply max_by_None in Hw; by rewrite Hw in Hlen].
  apply max_by_in in Hw. exists w. split; [done|].
  destruct (tried_table b !! k) as [slot'|] eqn:Hsl; [|by apply not_elem_of_nil in Hw]. simpl in slot.
  destruct (bo_tried _ _ Hb _ _ Hsl) as (_ & _ & _ & Hin). destruct (Hin w Hw) as (we & Hwe & Hwt & _ & Hwk).
  assert (w ≠ id) by congruence. unfold lost, unlisted. cbn [entries new_table tried_table]. split_and!.
  - rewrite lookup_alter_eq, lookup_insert_ne, Hwe by done. eexists. done.
  - intros k' s'. rewrite lookup_fmap, fmap_Some. intros (s0 & Hs0 & ->) [Hx _]%elem_of_retain_not.
    apply (bo_new _ _ Hb _ _ Hs0) in Hx as (? & _ & ? & ? & _). congruence.
  - intros k' s' [[<- <-]|[Hne Hk']]%lookup_insert_Some.
    + rewrite elem_of_app, elem_of_retain_not, list_elem_of_singleton. naive_solver.
    + intros Hx. apply (bo_tried _ _ Hb _ _ Hk') in Hx as (e' & ? & _ & _ & <-). congruence.
Qed.
End runs.

(** * The anchors file ([daemon/src/anchors.rs])

    The peers a node was connected to when it stopped, read once when it starts. *)

Section anchors.
Context {Sg : Signer}.

(** The loop of [take]: whole addresses are kept, the first that is not ends it.  An address
    takes at least one byte, so a turn per byte is enough. *)
Fixpoint read_anchors (fuel : nat) (b : bytes) : list PeerAddr :=
  match fuel, b with
  | S fuel, _ :: _ => match decode PeerAddr_codec b with Ok (a, rest) => a :: read_anchors fuel rest | Err _ => [] end
  | _, _ => []
  end.
(** [take]: the anchors, and the file, removed whatever it held, unless it cannot be; [file]
    is [None] where there is none or it cannot be read. *)
Definition anchors_take (removed : bool) (file : option bytes) : list PeerAddr * option bytes :=
  let b := default [] file in (read_anchors (length b) b, if removed then None else file).

(** [put]: no anchors remove the file; otherwise the new file is written aside, which may
    fail, and renamed over the old one. *)
Definition anchors_put (removed written : bool) (addrs : list PeerAddr) (file : option bytes) : bool * option bytes :=
  match addrs with
  | [] => (true, if removed then None else file)
  | _ => if written then (true, Some (concat (encode PeerAddr_codec <$> addrs))) else (false, file)
  end.

Lemma addr_nonempty a : encode PeerAddr_codec a ≠ [].
Proof.
  unfold PeerAddr_codec. cbn [encode iso_codec pair_codec IpAddr_codec tag_codec]. intros H.
  apply app_nil in H as [_ [H _]%app_nil]. by destruct (ip (pa_addr a)).
Qed.

Lemma read_anchors_all addrs cut fuel : Forall (wf PeerAddr_codec) addrs → (length (concat (encode PeerAddr_codec <$> addrs) ++ cut) ≤ fuel)%nat →
  (∀ a r, decode PeerAddr_codec cut ≠ Ok (a, r)) →
  read_anchors fuel (concat (encode PeerAddr_codec <$> addrs) ++ cut) = addrs.
Proof.
  intros Hw. revert fuel. induction Hw as [|a addrs Ha Hw IH]; intros fuel Hf Hc; cbn [fmap list_fmap concat] in *.
  - destruct fuel as [|fuel]; [done|]. cbn [app read_anchors]. destruct cut as [|b cut]; [done|]. destruct (decode PeerAddr_codec (b :: cut)) as [[x r]|] eqn:E; [|done]. by destruct (Hc x r).
  - rewrite <-(assoc_L (++)) in *. rewrite length_app in Hf. pose proof (addr_nonempty a) as Hne. destruct fuel as [|fuel].
    { destruct (encode PeerAddr_codec a); [done|simpl in Hf; lia]. }
    destruct (encode PeerAddr_codec a ++ concat (encode PeerAddr_codec <$> addrs) ++ cut) as [|b l] eqn:E; [by apply app_nil in E as [? _]|].
    cbn [read_anchors]. rewrite <-E, decode_encode by done. f_equal. assert (0 < length (encode PeerAddr_codec a))%nat by (destruct (encode PeerAddr_codec a); [done|simpl; lia]). apply IH; [lia|done].
Qed.

(** Anchors survive a stop: what was put is what the next start takes, in order; a write that
    fails leaves the anchors of before; a file cut short in an address gives the whole
    ones before it; and what was taken and removed is never taken again. *)
Theorem anchors_survive addrs file written :
  Forall (wf PeerAddr_codec) addrs →
  let '(ok, file') := anchors_put true written addrs file in
  (ok = true → (anchors_take true file').1 = addrs) ∧ (ok = false → file' = file)
  ∧ (∀ cut, (∀ a r, decode PeerAddr_codec cut ≠ Ok (a, r)) → (anchors_take true (Some (concat (encode PeerAddr_codec <$> addrs) ++ cut))).1 = addrs)
  ∧ (∀ removed, (anchors_take removed (anchors_take true file').2).1 = []).
Proof.
  intros Hw. assert (∀ cut, (∀ a r, decode PeerAddr_codec cut ≠ Ok (a, r)) → (anchors_take true (Some (concat (encode PeerAddr_codec <$> addrs) ++ cut))).1 = addrs) as Hcut.
  { intros cut Hc. unfold anchors_take. cbn [default fst]. apply read_anchors_all; done. }
  assert ((anchors_take true (Some (concat (encode PeerAddr_codec <$> addrs)))).1 = addrs) as Hall.
  { specialize (Hcut []). rewrite app_nil_r in Hcut. apply Hcut. by intros [? ?] ?. }
  unfold anchors_put. destruct addrs as [|a addrs]; [by split_and!|]. destruct written; by split_and!.
Qed.
End anchors.
