(* ===== verification/Wire.v ===== *)
(** What peers say and how it travels ([crates/p2p/src/sync.rs], [secret.rs], [wire.rs]).

    ChaCha20-Poly1305 is a parameter, [Aead]: encryption with a detached check, whose laws
    are the ones the cipher's specification gives (a sealed text is 16 bytes longer and
    opens under the same key, nonce and associated data; opening is the inverse of sealing,
    both being deterministic).  A socket that is written is the bytes sent so far; one that
    is read is what its [read] calls will return, in whatever pieces and with whatever
    errors, and is closed where the list ends. *)

From S2P Require Import Prelude SortedVec Codec Primitives Crypto Alias Votes Tx Executor Block Node Peer PeerProofs.

(** * Blocks in transit ([sync.rs]) *)

Definition MAX_BLOCKS_IN_FLIGHT : nat := 8.
Definition MAX_STAGED_BLOCKS : nat := 16.
Definition REQUEST_TIMEOUT_TICKS : Z := 8.

Record SyncBlock := { sb_block : Block; sb_commit : Commit }.
Definition sb_height (s : SyncBlock) : Height := h_height (b_header (sb_block s)).

Definition FRAME_HEADROOM : Z := 1024 * 1024.
Definition MAX_FRAME_LEN : Z := saturating_add u64_max MAX_BLOCK_BYTES FRAME_HEADROOM.
Definition READ_CHUNK : nat := 16 * 1024.
Definition MAX_ADDRS : nat := 64.

(** * Messages ([wire.rs]) *)

Inductive PeerMessage :=
| PMProposal (p : SignedProposal)
| PMVote (v : SignedVote)
| PMTransaction (t : Transaction)
| GetAddrs
| Addrs (l : list PeerAddr)
| Ping (nonce : Z)
| Pong (nonce : Z)
| PMStatus (h : Height)
| GetBlock (h : Height)
| PMBlock (s : SyncBlock)
| NoBlock (h : Height).

Section messages.
Context {Hs : Hasher} {Sg : Signer} {Un : Unicode}.

Definition commit_matches (s : SyncBlock) : result CodecError unit :=
  if c_height (sb_commit s) =? sb_height s then Ok tt
  else Err (CodecInvalid "a commit for another height cannot finalise a block").
Definition SyncBlock_codec : codec SyncBlock :=
  guard_codec commit_matches
    (iso_codec (λ '(b, c), {| sb_block := b; sb_commit := c |}) (λ s, (sb_block s, sb_commit s)) (Block_codec ⊗ Commit_codec)).

Definition addrs_bounded (l : list PeerAddr) : result CodecError unit :=
  if (length l =? 0)%nat || (MAX_ADDRS <? length l)%nat then Err (CodecInvalid "an address list must carry 1..=64 entries")
  else Ok tt.
Definition Addrs_codec : codec (list PeerAddr) := guard_codec addrs_bounded (vec_codec PeerAddr_codec).

Definition PeerMessage_codec : codec PeerMessage :=
  tag_codec "PeerMessage"
    (λ m, match m with
          | PMProposal _ => 1 | PMVote _ => 2 | PMTransaction _ => 3 | GetAddrs => 4 | Addrs _ => 5 | Ping _ => 6
          | Pong _ => 7 | PMStatus _ => 8 | GetBlock _ => 9 | PMBlock _ => 10 | NoBlock _ => 11
          end)
    (λ t, match t with
          | 1 => Some (variant_codec PMProposal (λ m, match m with PMProposal x => Some x | _ => None end) SignedProposal_codec)
          | 2 => Some (variant_codec PMVote (λ m, match m with PMVote x => Some x | _ => None end) SignedVote_codec)
          | 3 => Some (variant_codec PMTransaction (λ m, match m with PMTransaction x => Some x | _ => None end) Transaction_codec)
          | 4 => Some (unit_codec GetAddrs)
          | 5 => Some (variant_codec Addrs (λ m, match m with Addrs x => Some x | _ => None end) Addrs_codec)
          | 6 => Some (variant_codec Ping (λ m, match m with Ping x => Some x | _ => None end) u64_codec)
          | 7 => Some (variant_codec Pong (λ m, match m with Pong x => Some x | _ => None end) u64_codec)
          | 8 => Some (variant_codec PMStatus (λ m, match m with PMStatus x => Some x | _ => None end) Height_codec)
          | 9 => Some (variant_codec GetBlock (λ m, match m with GetBlock x => Some x | _ => None end) Height_codec)
          | 10 => Some (variant_codec PMBlock (λ m, match m with PMBlock x => Some x | _ => None end) SyncBlock_codec)
          | 11 => Some (variant_codec NoBlock (λ m, match m with NoBlock x => Some x | _ => None end) Height_codec)
          | _ => None
          end).

#[export] Instance SyncBlock_lawful : Lawful SyncBlock_codec.
Proof. apply guard_lawful. struct_lawful. Qed.
#[export] Instance Addrs_lawful : Lawful Addrs_codec.
Proof. apply guard_lawful, _. Qed.
#[export] Instance PeerMessage_lawful : Lawful PeerMessage_codec.
Proof. apply tag_lawful; [intros []; lia|tag_cases]. Qed.

(** [PeerMessage::gossip_id]: what deduplication is keyed on. *)
Definition gossip_id (m : PeerMessage) : option Hash32 :=
  match m with
  | PMProposal p => Some (hash DP2pTranscript (encode SignedProposal_codec p))
  | PMVote v => Some (hash DP2pTranscript (encode SignedVote_codec v))
  | PMTransaction t => Some (hash DP2pTranscript (encode Transaction_codec t))
  | _ => None
  end.
End messages.
Arguments PeerMessage_codec : simpl never.
Arguments SyncBlock_codec : simpl never.
Arguments Addrs_codec : simpl never.

(** * The channel ([secret.rs]) *)

Definition TAG_LEN : Z := 16.
Inductive SessionError := NotAuthentic | Exhausted.

Class Aead := {
  aead_seal : bytes → bytes → bytes → bytes → bytes;           (* key, nonce, associated data, text *)
  aead_open : bytes → bytes → bytes → bytes → option bytes;
  aead_len : ∀ k n a m, Z.of_nat (length (aead_seal k n a m)) = Z.of_nat (length m) + TAG_LEN;
  aead_opens : ∀ k n a m, aead_open k n a (aead_seal k n a m) = Some m;
  aead_only : ∀ k n a c m, aead_open k n a c = Some m → c = aead_seal k n a m;
}.

Record Direction := { d_key : bytes; counter : Z }.
Definition Direction_new (key : bytes) : Direction := {| d_key := key; counter := 0 |}.

(** [next_nonce] builds the nonce before it advances the counter, and fails if it cannot. *)
Definition nonce_of (c : Z) : bytes := replicate 4 (byte_of 0) ++ encode u64_codec c.
Definition next_nonce_of : M Direction SessionError bytes :=
  let! d := reads Ok in
  do! fail_if (counter d =? u64_max) Exhausted in
  do! writes (λ d, {| d_key := d_key d; counter := counter d + 1 |}) in
  ret (nonce_of (counter d)).

Section channel.
Context {Ae : Aead}.

(** [Sealer::seal] and [Session::seal]. *)
Definition seal (plaintext associated : bytes) : M Direction SessionError bytes :=
  let! n := next_nonce_of in
  let! d := reads Ok in
  ret (aead_seal (d_key d) n associated plaintext).

(** [Opener::open] and [Session::open]. *)
Definition open (ciphertext associated : bytes) : M Direction SessionError bytes :=
  let! n := next_nonce_of in
  let! d := reads Ok in
  lift (ok_or NotAuthentic (aead_open (d_key d) n associated ciphertext)).

Record Session := { s_send : Direction; s_recv : Direction }.
Definition Session_new (send_key recv_key : bytes) : Session :=
  {| s_send := Direction_new send_key; s_recv := Direction_new recv_key |}.
Definition split (s : Session) : Direction * Direction := (s_send s, s_recv s).

(** * Frames ([wire.rs]) *)

Inductive FrameError :=
| FClosed
| FIo (e : string)
| FTimedOut
| FTooLarge (len : Z)
| FTooShort (len : Z)
| FSession (e : SessionError)
| FMalformed (e : CodecError).

(** What one [read] call finds. *)
Inductive Arrival :=
| Got (b : bytes)
| NoData                     (* [WouldBlock] or [TimedOut] *)
| Failed (e : string).       (* any other error *)
Definition Reader := list Arrival.

(** [Read::read] with room for [n] bytes, errors classified by [from_io]. *)
Definition read (n : nat) : M Reader FrameError bytes :=
  λ rs,
  match rs with
  | [] => (Ok [], [])
  | Got b :: rs => (Ok (take n b), match drop n b with [] => rs | rest => Got rest :: rs end)
  | NoData :: rs => (Err FTimedOut, rs)
  | Failed e :: rs => (Err (FIo e), rs)
  end.

(** A loop that reads until [n] bytes are there; every round adds a byte or fails, so the
    fuel bounds nothing else. *)
Fixpoint fill (get : nat → M Reader FrameError bytes) (fuel n : nat) (buf : bytes) : M Reader FrameError bytes :=
  match fuel with
  | O => ret buf
  | S fuel =>
      if (n <=? length buf)%nat then ret buf
      else
        let! b := get (n - length buf)%nat in
        do! fail_if (length b =? 0)%nat FClosed in
        fill get fuel n (buf ++ b)
  end.

(** [Read::read_exact]. *)
Definition read_exact (n : nat) : M Reader FrameError bytes := fill read (S n) n [].

(** The loop of [read_frame]: a chunk at a time; a timeout here is a stall. *)
Definition read_chunk (want : nat) : M Reader FrameError bytes := λ rs,
  match read (READ_CHUNK `min` want) rs with
  | (Err FTimedOut, rs) => (Err (FIo "stalled mid-frame"), rs)
  | r => r
  end.
Definition read_body (len : nat) : M Reader FrameError bytes := fill read_chunk (S len) len [].

Context {Hs : Hasher} {Sg : Signer} {Un : Unicode}.

(** [write_frame]: the socket may fail after part of the frame went out. *)
Definition write_frame (io : option (string * nat)) (m : PeerMessage) : M (Direction * bytes) FrameError unit :=
  λ '(d, out),
  let plaintext := encode PeerMessage_codec m in
  let sealed_len := saturating_add u64_max (Z.of_nat (length plaintext)) TAG_LEN in
  if MAX_FRAME_LEN <? sealed_len then (Err (FTooLarge sealed_len), (d, out))
  else
    let header := encode u32_codec sealed_len in
    match seal plaintext header d with
    | (Err e, d) => (Err (FSession e), (d, out))
    | (Ok sealed, d) =>
        match io with
        | None => (Ok tt, (d, out ++ header ++ sealed))
        | Some (e, n) => (Err (FIo e), (d, out ++ take n (header ++ sealed)))
        end
    end.

(** The length an arrived header announces, within the limits. *)
Definition announced (header : bytes) : result FrameError Z :=
  let len := LittleEndianList.le_combine header in
  if MAX_FRAME_LEN <? len then Err (FTooLarge len)
  else if len <? TAG_LEN then Err (FTooShort len)
  else Ok len.

(** [read_frame]: the message and what it cost on the wire. *)
Definition read_frame : M (Reader * Direction) FrameError (PeerMessage * Z) :=
  λ '(rs, d),
  let body : M Reader FrameError (bytes * bytes * Z) :=
    let! header := read_exact 4 in
    let! len := lift (announced header) in
    let! sealed := read_body (Z.to_nat len) in
    ret (header, sealed, len) in
  match body rs with
  | (Err e, rs) => (Err e, (rs, d))
  | (Ok (header, sealed, len), rs) =>
      match open sealed header d with
      | (Err e, d) => (Err (FSession e), (rs, d))
      | (Ok plaintext, d) =>
          match decode_exact PeerMessage_codec plaintext with
          | Err e => (Err (FMalformed e), (rs, d))
          | Ok m => (Ok (m, saturating_add u64_max len 4), (rs, d))
          end
      end
  end.

(** ** Reading is independent of the pieces *)

(** The bytes still to come. *)
Definition flow (rs : Reader) : bytes := concat ((λ a, match a with Got b => b | _ => [] end) <$> rs).
(** Data only, in pieces. *)
Definition pieces (rs : Reader) : Prop := Forall (λ a, match a with Got b => b ≠ [] | _ => False end) rs.

Lemma read_flow n rs b rs' : read n rs = (Ok b, rs') → flow rs = b ++ flow rs' ∧ (length b ≤ n)%nat.
Proof.
  destruct rs as [|[x| |] rs]; simpl; intros H; simplify_eq; [split; [done|simpl; lia]|].
  split; [|rewrite length_take; lia]. unfold flow. simpl.
  destruct (drop n x) eqn:E; simpl; rewrite <-(take_drop n x) at 1; rewrite E; [by rewrite app_nil_r|by rewrite <-app_assoc].
Qed.

Lemma read_pieces n rs : pieces rs → flow rs ≠ [] → (0 < n)%nat →
  ∃ b rs', read n rs = (Ok b, rs') ∧ b ≠ [] ∧ pieces rs'.
Proof.
  intros Hp Hf Hn. destruct Hp as [|[x| |] rs Hx Hp]; [done| |done..]. simpl. eexists _, _. split; [done|]. split.
  - destruct x, n; simpl; [done|done|lia|done].
  - destruct (drop n x) eqn:E; [done|]. constructor; [done|done].
Qed.

(** A way of reading that returns what comes next, and some of it if there is any. *)
Definition reads_next (get : nat → M Reader FrameError bytes) : Prop :=
  ∀ n rs, (∀ b rs', get n rs = (Ok b, rs') → flow rs = b ++ flow rs' ∧ (length b ≤ n)%nat)
    ∧ (pieces rs → flow rs ≠ [] → (0 < n)%nat → ∃ b rs', get n rs = (Ok b, rs') ∧ b ≠ [] ∧ pieces rs').

Lemma read_reads_next : reads_next read.
Proof. intros n rs. split; [apply read_flow|apply read_pieces]. Qed.

Lemma read_chunk_reads_next : reads_next read_chunk.
Proof.
  intros n rs. unfold read_chunk. split.
  - intros b rs' H. destruct (read _ rs) as [[x|[]] s'] eqn:E; simplify_eq. apply read_flow in E as [? ?]. split; [done|lia].
  - intros Hp Hf Hn. destruct (read_pieces (READ_CHUNK `min` n) rs Hp Hf) as (b & rs' & -> & ? & ?); [unfold READ_CHUNK; lia|]. eauto.
Qed.

Lemma fill_flow get : reads_next get → ∀ fuel n buf rs b rs',
  fill get fuel n buf rs = (Ok b, rs') → buf ++ flow rs = b ++ flow rs'.
Proof.
  intros Hg. induction fuel as [|fuel IH]; intros n buf rs b rs'; simpl; [intros [= <- <-]; done|].
  destruct (_ <=? _)%nat; [intros [= <- <-]; done|]. intros (x & s1 & H1 & H)%bind_Ok_inv.
  apply (Hg _ _) in H1 as [-> _]. apply bind_Ok_inv in H as ([] & s2 & [_ ->]%fail_if_Ok_inv & H). apply IH in H. by rewrite app_assoc.
Qed.

(** The fuel is enough: what the loop returns is as long as was asked. *)
Lemma fill_len get : reads_next get → ∀ fuel n buf rs b rs',
  (length buf ≤ n < length buf + fuel)%nat → fill get fuel n buf rs = (Ok b, rs') → length b = n.
Proof.
  intros Hg. induction fuel as [|fuel IH]; intros n buf rs b rs' Hn; simpl; [lia|].
  destruct (_ <=? _)%nat eqn:E; [intros [= <- <-]; apply Nat.leb_le in E; lia|]. apply Nat.leb_nle in E.
  intros (x & s1 & H1 & H)%bind_Ok_inv. apply (Hg _ _) in H1 as [_ Hx].
  apply bind_Ok_inv in H as ([] & s2 & [Hz%Nat.eqb_neq ->]%fail_if_Ok_inv & H). apply IH in H; [done|]. rewrite length_app. lia.
Qed.

Lemma fill_pieces get : reads_next get → ∀ fuel n buf rs,
  pieces rs → (length buf ≤ n < length buf + fuel)%nat → (n ≤ length (buf ++ flow rs))%nat →
  ∃ b rs', fill get fuel n buf rs = (Ok b, rs') ∧ pieces rs'.
Proof.
  intros Hg. induction fuel as [|fuel IH]; intros n buf rs Hp Hn Hf; simpl; [lia|].
  destruct (_ <=? _)%nat eqn:E; [unfold ret; eauto|]. apply Nat.leb_nle in E. rewrite length_app in Hf.
  destruct (proj2 (Hg (n - length buf)%nat rs) Hp) as (x & s1 & H1 & Hx & Hp1); [intros Hnil; rewrite Hnil in Hf; simpl in Hf; lia|lia|].
  unfold bind. rewrite H1. destruct (proj1 (Hg _ _) _ _ H1) as [Hfl Hle]. unfold fail_if.
  destruct (length x =? 0)%nat eqn:Hz; [apply Nat.eqb_eq, length_zero_iff_nil in Hz; done|]. apply Nat.eqb_neq in Hz.
  apply IH; [done| |]; rewrite ?length_app; [lia|]. rewrite Hfl, length_app in Hf. lia.
Qed.

(** Exactly the next bytes, however they arrive. *)
Lemma fill_exact get n rs x rest :
  reads_next get → pieces rs → flow rs = x ++ rest → length x = n →
  ∃ rs', fill get (S n) n [] rs = (Ok x, rs') ∧ pieces rs' ∧ flow rs' = rest.
Proof.
  intros Hg Hp Hf Hx. destruct (fill_pieces get Hg (S n) n [] rs Hp) as (b & rs' & Hr & Hp'); [simpl; lia| |].
  { simpl. rewrite Hf, length_app. lia. }
  exists rs'. pose proof (fill_flow get Hg _ _ _ _ _ _ Hr) as Hfl.
  pose proof (fill_len get Hg (S n) n [] rs b rs' ltac:(simpl; lia) Hr) as Hl.
  simpl in Hfl. rewrite Hf in Hfl. apply app_inj_1 in Hfl as [<- <-]; [done|lia].
Qed.

(** ** Frames *)

(** The bytes of a frame. *)
Definition frame (d : Direction) (m : PeerMessage) : bytes :=
  let plaintext := encode PeerMessage_codec m in
  let header := encode u32_codec (Z.of_nat (length plaintext) + TAG_LEN) in
  header ++ aead_seal (d_key d) (nonce_of (counter d)) header plaintext.
Definition advanced (d : Direction) : Direction := {| d_key := d_key d; counter := counter d + 1 |}.

(** A message a frame can carry. *)
Definition sendable (m : PeerMessage) : Prop :=
  wf PeerMessage_codec m ∧ Z.of_nat (length (encode PeerMessage_codec m)) + TAG_LEN ≤ MAX_FRAME_LEN.

Lemma seal_eq p a d : counter d ≠ u64_max →
  seal p a d = (Ok (aead_seal (d_key d) (nonce_of (counter d)) a p), advanced d).
Proof. intros Hc. unfold seal, next_nonce_of, bind, reads, fail_if, writes, ret. by rewrite (proj2 (Z.eqb_neq _ _) Hc). Qed.

Lemma open_Ok c a d p d' : open c a d = (Ok p, d') →
  counter d ≠ u64_max ∧ d' = advanced d ∧ aead_open (d_key d) (nonce_of (counter d)) a c = Some p.
Proof.
  unfold open, next_nonce_of, bind, reads, fail_if, writes, ret, lift. destruct (counter d =? u64_max) eqn:E; [done|]. cbn.
  destruct (aead_open _ _ _ _) eqn:Ho; simpl; intros; simplify_eq. apply Z.eqb_neq in E. done.
Qed.

Lemma write_frame_eq m d out : counter d ≠ u64_max → sendable m →
  write_frame None m (d, out) = (Ok tt, (advanced d, out ++ frame d m)).
Proof.
  intros Hc [_ Hl]. unfold write_frame. unfold saturating_add at 1.
  assert (MAX_FRAME_LEN = 5242880) as HM by reflexivity.
  rewrite Z.min_r by (unfold u64_max; lia). rewrite (proj2 (Z.ltb_ge _ _)) by lia.
  rewrite seal_eq by done. unfold saturating_add. rewrite Z.min_r by (unfold u64_max; lia). done.
Qed.

Lemma announced_Ok header len : announced header = Ok len → length header = 4%nat →
  header = encode u32_codec len ∧ TAG_LEN ≤ len ≤ MAX_FRAME_LEN.
Proof.
  unfold announced. intros H Hl. destruct (_ <? _) eqn:E1; [done|]. destruct (_ <? TAG_LEN) eqn:E2; [done|]. simplify_eq.
  split; [|lia]. change (header = LittleEndianList.le_split 4 (LittleEndianList.le_combine header)).
  rewrite <-Hl at 1. symmetry. apply LittleEndianList.split_le_combine.
Qed.

(** Opening one frame that arrived whole. *)
Lemma read_frame_whole d m rs rest :
  counter d ≠ u64_max → sendable m → pieces rs → flow rs = frame d m ++ rest →
  ∃ rs', read_frame (rs, d) = (Ok (m, Z.of_nat (length (frame d m))), (rs', advanced d)) ∧ pieces rs' ∧ flow rs' = rest.
Proof.
  intros Hc [Hwf Hl] Hp Hf. unfold frame in *. set (p := encode PeerMessage_codec m) in *.
  set (len := Z.of_nat (length p) + TAG_LEN) in *. set (header := encode u32_codec len) in *. set (sealed := aead_seal _ _ _ _) in *.
  assert (length header = 4%nat) as Hh by apply LittleEndianList.length_le_split.
  assert (Z.of_nat (length sealed) = len) as Hsl by apply aead_len.
  assert (MAX_FRAME_LEN = 5242880) as HM by reflexivity. rewrite <-app_assoc in Hf.
  destruct (fill_exact read 4 rs header _ read_reads_next Hp Hf Hh) as (rs1 & Hr1 & Hp1 & Hf1).
  assert (announced header = Ok len) as Ha.
  { unfold announced. replace (LittleEndianList.le_combine header) with len.
    2:{ change header with (LittleEndianList.le_split 4 len). rewrite LittleEndianList.le_combine_split, Z.mod_small; unfold len, TAG_LEN in *; lia. }
    rewrite (proj2 (Z.ltb_ge _ _)) by lia. by rewrite (proj2 (Z.ltb_ge _ _)) by (unfold len; lia). }
  destruct (fill_exact read_chunk (Z.to_nat len) rs1 sealed _ read_chunk_reads_next Hp1 Hf1) as (rs2 & Hr2 & Hp2 & Hf2); [lia|].
  exists rs2. split; [|done]. unfold read_frame, read_exact, read_body, bind, lift, ret. rewrite Hr1, Ha, Hr2.
  unfold open, next_nonce_of, bind, reads, fail_if, writes, ret, lift. rewrite (proj2 (Z.eqb_neq _ _) Hc). cbn [counter d_key].
  unfold sealed at 1. rewrite aead_opens. cbn [ok_or]. unfold p. rewrite (decode_exact_encode PeerMessage_codec m Hwf). unfold saturating_add, advanced.
  rewrite Z.min_r by (unfold u64_max; lia). rewrite length_app, Hh, Nat2Z.inj_add, Hsl. do 3 f_equal. lia.
Qed.

(** Sending several messages, and reading as many. *)
Fixpoint write_frames (ms : list PeerMessage) : M (Direction * bytes) FrameError unit :=
  match ms with
  | [] => ret tt
  | m :: ms => do! write_frame None m in write_frames ms
  end.
Fixpoint read_frames (n : nat) : M (Reader * Direction) FrameError (list (PeerMessage * Z)) :=
  match n with
  | O => ret []
  | S n => let! x := read_frame in let! l := read_frames n in ret (x :: l)
  end.

Definition moved (n : Z) (d : Direction) : Direction := {| d_key := d_key d; counter := counter d + n |}.

Lemma frames_stream ms : ∀ d, 0 ≤ counter d → counter d + Z.of_nat (length ms) ≤ u64_max → Forall sendable ms →
  ∃ wire,
    (∀ out, write_frames ms (d, out) = (Ok tt, (moved (Z.of_nat (length ms)) d, out ++ wire)))
    ∧ ∀ rs rest, pieces rs → flow rs = wire ++ rest →
        ∃ rs' costs, read_frames (length ms) (rs, d) = (Ok (zip ms costs), (rs', moved (Z.of_nat (length ms)) d))
          ∧ length costs = length ms ∧ foldr Z.add 0 costs = Z.of_nat (length wire) ∧ pieces rs' ∧ flow rs' = rest.
Proof.
  induction ms as [|m ms IH]; intros d H0 Hc Hms.
  { exists []. replace (moved _ d) with d by (destruct d; unfold moved; simpl; f_equal; lia).
    split; [intros; simpl; by rewrite app_nil_r|]. intros rs rest ? ?. exists rs, []. done. }
  apply Forall_cons in Hms as [Hm Hms]. cbn [length] in Hc. rewrite Nat2Z.inj_succ in Hc.
  destruct (IH (advanced d)) as (wire & Hw & Hr); [simpl; lia|simpl; lia|done|]. exists (frame d m ++ wire).
  replace (moved (Z.of_nat (length (m :: ms))) d) with (moved (Z.of_nat (length ms)) (advanced d)).
  2:{ unfold moved, advanced. simpl. f_equal. lia. }
  split.
  - intros out. cbn [write_frames]. unfold bind. rewrite write_frame_eq by (done || lia). rewrite Hw. by rewrite app_assoc.
  - intros rs rest Hp Hf. rewrite <-app_assoc in Hf. destruct (read_frame_whole d m rs _ ltac:(lia) Hm Hp Hf) as (rs1 & H1 & Hp1 & Hf1).
    destruct (Hr rs1 rest Hp1 Hf1) as (rs' & costs & H2 & Hl & Hsum & Hp' & Hf').
    exists rs', (Z.of_nat (length (frame d m)) :: costs). cbn [length read_frames]. unfold bind. rewrite H1, H2.
    cbn [zip foldr]. rewrite length_app, Hsum, Hl, Nat2Z.inj_add. done.
Qed.

(** C28: what is sent is what is read, and nothing else can be.  Messages that fit a frame,
    sealed one after another, are read back in order, in whatever pieces the network
    delivers the bytes, and the costs reported add up to the bytes sent.  And whatever
    arrives on a socket, a message that is accepted is one that the holder of the key would
    have sealed as the frame of that very number, in exactly the bytes read, within
    the limit on frames; a longer frame is refused after its four-byte header. *)
Theorem frames_roundtrip :
  (∀ key ms, Z.of_nat (length ms) ≤ u64_max → Forall sendable ms →
     ∃ wire, write_frames ms (Direction_new key, []) = (Ok tt, (moved (Z.of_nat (length ms)) (Direction_new key), wire))
     ∧ ∀ rs, pieces rs → flow rs = wire →
         ∃ rs' d' costs, read_frames (length ms) (rs, Direction_new key) = (Ok (zip ms costs), (rs', d'))
           ∧ length costs = length ms ∧ foldr Z.add 0 costs = Z.of_nat (length wire) ∧ flow rs' = [])
  ∧ (∀ rs d m cost rs' d', read_frame (rs, d) = (Ok (m, cost), (rs', d')) →
       sendable m ∧ ∃ bytes_, write_frame None m (d, []) = (Ok tt, (d', bytes_))
         ∧ flow rs = bytes_ ++ flow rs' ∧ cost = Z.of_nat (length bytes_) ∧ cost ≤ MAX_FRAME_LEN + 4)
  ∧ (∀ rs d header rest, pieces rs → flow rs = header ++ rest → length header = 4%nat →
       MAX_FRAME_LEN < LittleEndianList.le_combine header →
       ∃ rs', read_frame (rs, d) = (Err (FTooLarge (LittleEndianList.le_combine header)), (rs', d)) ∧ flow rs' = rest).
Proof.
  split_and!.
  - intros key ms Hl Hms. destruct (frames_stream ms (Direction_new key)) as (wire & Hw & Hr); [simpl; lia|simpl; lia|done|].
    exists wire. split; [apply Hw|]. intros rs Hp Hf. destruct (Hr rs [] Hp) as (rs' & costs & ? & ? & ? & _ & ?); [by rewrite app_nil_r|].
    eauto 10.
  - intros rs d m cost rs' d' H. unfold read_frame in H.
    destruct (bind _ _ rs) as [[[[header sealed] len]|?] rs1] eqn:Hb; [|done].
    destruct (open sealed header d) as [[p|?] d1] eqn:Ho; [|done]. destruct (decode_exact _ p) as [m'|] eqn:Hd; [|done]. simplify_eq.
    apply bind_Ok_inv in Hb as (h & s1 & Hr1 & Hb). apply bind_Ok_inv in Hb as (l & s2 & [= Ha ->] & Hb).
    apply bind_Ok_inv in Hb as (s & s3 & Hr2 & [= -> -> -> ->]).
    pose proof (fill_len _ read_reads_next 5 4 [] _ _ _ ltac:(simpl; lia) Hr1) as Hh.
    apply announced_Ok in Ha as [Hhe Hlen]; [|done].
    pose proof (fill_len _ read_chunk_reads_next (S (Z.to_nat len)) (Z.to_nat len) [] _ _ _ ltac:(simpl; lia) Hr2) as Hsl.
    apply (fill_flow _ read_reads_next) in Hr1. apply (fill_flow _ read_chunk_reads_next) in Hr2. simpl in Hr1, Hr2.
    apply open_Ok in Ho as (Hc & -> & Hop%aead_only). apply decode_exact_sound in Hd as [Hwf ->]; [|apply _].
    pose proof (aead_len (d_key d) (nonce_of (counter d)) header (encode PeerMessage_codec m)) as Hal. rewrite <-Hop, Hsl in Hal.
    assert (MAX_FRAME_LEN = 5242880) as HM by reflexivity. unfold TAG_LEN in Hlen.
    assert (sendable m) as Hm by (split; [done|lia]). split; [done|]. exists (frame d m). rewrite write_frame_eq by done.
    assert (frame d m = header ++ sealed) as Hfr.
    { unfold frame. replace (Z.of_nat (length (encode PeerMessage_codec m)) + TAG_LEN) with len by (unfold TAG_LEN in *; lia).
      rewrite <-Hhe. f_equal. symmetry. exact Hop. }
    rewrite Hfr, app_nil_l, Hr1, Hr2, app_assoc, length_app, Hh, Hsl. unfold saturating_add. rewrite Z.min_r by (unfold u64_max; lia). split_and!; [done..|lia|lia].
  - intros rs d header rest Hp Hf Hh Hlt. destruct (fill_exact read 4 rs header _ read_reads_next Hp Hf Hh) as (rs1 & Hr1 & Hp1 & Hf1).
    exists rs1. unfold read_frame, read_exact, bind, lift. rewrite Hr1. unfold announced. by rewrite (proj2 (Z.ltb_lt _ _) Hlt).
Qed.

(** A read timeout after one to three bytes of a header is reported as an idle connection,
    and those bytes are gone: the next frame is read from the middle of this one. *)
Lemma timeout_drops_header b rs d :
  (0 < length b < 4)%nat → read_frame (Got b :: NoData :: rs, d) = (Err FTimedOut, (rs, d)).
Proof. intros Hb. destruct b as [|b1 [|b2 [|b3 [|]]]]; simpl in Hb; [lia|reflexivity..|lia]. Qed.
End channel.
