(* ===== verification/Handshake.v ===== *)
(** How two peers come to trust a channel ([crates/p2p/src/handshake.rs]).

    X25519 is a parameter, [KeyExchange], of which only its agreement and the length of its
    keys are assumed; the entropy a handshake starts from is an argument, absent where the
    system has none.  The handshake is shown to end with both sides holding the two ends of
    one session, and to end with a peer only if that peer's key answered it. *)

From S2P Require Import Prelude SortedVec Sorting Codec Primitives Crypto Alias Votes Tx Executor Block Node Peer PeerProofs Wire.

Class KeyExchange := {
  x_public : bytes → bytes;
  x_shared : bytes → bytes → bytes;                 (* our secret, their public key *)
  x_contributory : bytes → bool;                    (* [was_contributory] of a shared secret *)
  x_public_len : ∀ s, length (x_public s) = 32%nat;
  x_agree : ∀ a b, x_shared a (x_public b) = x_shared b (x_public a);
}.

Definition PROTOCOL_VERSION : Z := 2.
Definition HELLO_LEN : nat := 2 + 32.

Inductive HandshakeError :=
| HVersion (theirs : Z)
| MalformedHello (len : Z)
| NonContributory
| MalformedAuth (e : CodecError)
| HNotAuthentic
| HBadSignature
| WrongPeer (expected found : PeerId)
| HSelfConnection
| EntropyUnavailable.

(** [<=] on key bytes. *)
Definition bytes_leb (a b : bytes) : bool := negb (bytes_ltb b a).

(** ** What an authentication frame says *)

(** The claim of where a peer listens: nothing, or a family, its octets and a port. *)
Definition some_addr (f : bytes → IpAddr) (x : bytes * Z) : option SocketAddr := Some {| ip := f x.1; port := x.2 |}.
Definition Claim_codec : codec (option SocketAddr) :=
  tag_codec "Auth/listen family"
    (λ l, match l with None => 0 | Some a => match ip a with V4 _ => 4 | V6 _ => 6 end end)
    (λ t, match t with
          | 0 => Some (unit_codec None)
          | 4 => Some (variant_codec (some_addr V4) (λ l, match l with Some {| ip := V4 o; port := p |} => Some (o, p) | _ => None end)
                         (pair_codec (Octets_codec 4) u16_codec))
          | 6 => Some (variant_codec (some_addr V6) (λ l, match l with Some {| ip := V6 o; port := p |} => Some (o, p) | _ => None end)
                         (pair_codec (Octets_codec 16) u16_codec))
          | _ => None
          end).

#[export] Instance Claim_lawful : Lawful Claim_codec.
Proof.
  apply tag_lawful; [intros [[[] ?]|]; simpl; lia|]. intros t c Ht Hc.
  repeat case_match; try discriminate Hc; injection Hc as <-; split.
  - apply _.
  - intros [[[] ?]|]; unfold unit_codec; cbn [wf]; done.
  - apply variant_lawful; [by intros [? ?]|by intros [[[] ?]|] [? ?] ?; simplify_eq|apply _].
  - intros [[[] ?]|]; unfold variant_codec; cbn [wf]; done.
  - apply variant_lawful; [by intros [? ?]|by intros [[[] ?]|] [? ?] ?; simplify_eq|apply _].
  - intros [[[] ?]|]; unfold variant_codec; cbn [wf]; done.
Qed.

Record Auth := { au_key : PublicKey; au_listen : option SocketAddr; au_signature : Signature }.

(** [Ipv4Addr::is_unspecified], [Ipv6Addr::is_unspecified]. *)
Definition is_unspecified (a : IpAddr) : bool := match a with V4 o | V6 o => forallb (byte_eqb 0) o end.
Definition is_dialable (a : SocketAddr) : bool := negb (is_unspecified (ip a)) && negb (port a =? 0).
(** [listen.filter(|addr| is_dialable( *addr))]. *)
Definition dialable (l : option SocketAddr) : option SocketAddr :=
  match l with Some a => if is_dialable a then Some a else None | None => None end.

Section handshake.
Context {Hs : Hasher} {Sg : Signer} {Un : Unicode} {Sk : Signing} {Kx : KeyExchange} {Ae : Aead}.

Definition Auth_codec : codec Auth :=
  iso_codec (λ '(k, (l, s)), {| au_key := k; au_listen := l; au_signature := s |}) (λ a, (au_key a, (au_listen a, au_signature a)))
    (pair_codec PublicKey_codec (pair_codec Claim_codec Signature_codec)).
#[export] Instance Auth_lawful : Lawful Auth_codec.
Proof. unfold Auth_codec. struct_lawful. Qed.

Definition transcript_parts (chain : ChainId) (ours theirs : bytes) : list bytes :=
  let '(lower, upper) := if bytes_leb ours theirs then (ours, theirs) else (theirs, ours) in
  [encode u16_codec PROTOCOL_VERSION; encode ChainId_codec chain; lower; upper].
Definition transcript (chain : ChainId) (ours theirs : bytes) : Hash32 := hash_parts DP2pTranscript (transcript_parts chain ours theirs).
Definition direction_key (label shared : bytes) (t : Hash32) : bytes := hash_parts DP2pSessionKey [label; shared; t].
Definition handshake_doc (t : Hash32) (listen : option SocketAddr) : bytes := t ++ encode Claim_codec listen.

(** ** The two rounds *)

Record Handshake := { hs_chain : ChainId; ephemeral : bytes; hs_ours : bytes }.
Record Pending := { pe_session : Session; pe_transcript : Hash32; auth_frame : bytes }.
Record Established := { es_session : Session; es_peer : PeerId; es_listen : option SocketAddr }.

Definition start (chain : ChainId) (entropy : option bytes) : result HandshakeError (Handshake * bytes) :=
  match entropy with
  | None => Err EntropyUnavailable
  | Some seed =>
      let ours := x_public seed in
      Ok ({| hs_chain := chain; ephemeral := seed; hs_ours := ours |}, encode u16_codec PROTOCOL_VERSION ++ ours)
  end.

Definition respond (h : Handshake) (hello : bytes) (key : SecretKey) (listen : option SocketAddr) : result HandshakeError Pending :=
  if negb (length hello =? HELLO_LEN)%nat then Err (MalformedHello (Z.of_nat (length hello)))
  else
    let version := LittleEndianList.le_combine (take 2 hello) in
    if negb (version =? PROTOCOL_VERSION) then Err (HVersion version)
    else
      let theirs := drop 2 hello in
      let shared := x_shared (ephemeral h) theirs in
      if negb (x_contributory shared) then Err NonContributory
      else
        let t := transcript (hs_chain h) (hs_ours h) theirs in
        let '(send_label, recv_label) :=
          if bytes_leb (hs_ours h) theirs then (bs "lower-to-upper", bs "upper-to-lower") else (bs "upper-to-lower", bs "lower-to-upper") in
        let session := Session_new (direction_key send_label shared t) (direction_key recv_label shared t) in
        let listen := dialable listen in
        let auth := {| au_key := verifying_key key; au_listen := listen;
                       au_signature := SecretKey_sign key DP2pHandshakeSignDoc (handshake_doc t listen) |} in
        match seal (encode Auth_codec auth) [] (s_send session) with
        | (Err _, _) => Err HNotAuthentic
        | (Ok frame, d) => Ok {| pe_session := {| s_send := d; s_recv := s_recv session |}; pe_transcript := t; auth_frame := frame |}
        end.

Definition finish (p : Pending) (frame : bytes) (us : PeerId) (expected : option PeerId) : result HandshakeError Established :=
  match open frame [] (s_recv (pe_session p)) with
  | (Err _, _) => Err HNotAuthentic
  | (Ok plaintext, d) =>
      auth ← map_err MalformedAuth (decode_exact Auth_codec plaintext);
      if negb (PublicKey_verify (au_key auth) DP2pHandshakeSignDoc (handshake_doc (pe_transcript p) (au_listen auth)) (au_signature auth))
      then Err HBadSignature
      else if bool_decide (au_key auth = us) then Err HSelfConnection
      else
        let done_ := Ok {| es_session := {| s_send := s_send (pe_session p); s_recv := d |}; es_peer := au_key auth; es_listen := dialable (au_listen auth) |} in
        match expected with
        | Some x => if negb (bool_decide (x = au_key auth)) then Err (WrongPeer x (au_key auth)) else done_
        | None => done_
        end
  end.

(** ** Both sides see one transcript *)

Lemma transcript_sym chain a b : transcript chain a b = transcript chain b a.
Proof.
  unfold transcript, transcript_parts, bytes_leb. destruct (bytes_ltb b a) eqn:E1, (bytes_ltb a b) eqn:E2; simpl; try done.
  - apply bytes_ltb_lt in E1, E2. exfalso. apply (bytes_lt_irrefl a). by etrans.
  - assert (a = b) as ->; [|done]. destruct (bytes_lt_total a b) as [H|[H|H]]; [|done|]; apply bytes_ltb_lt in H; congruence.
Qed.

Lemma dialable_idem l : dialable (dialable l) = dialable l.
Proof. destruct l as [a|]; [|done]. simpl. destruct (is_dialable a) eqn:E; [|done]. simpl. by rewrite E. Qed.

(** Ends of one session: what one seals the other opens. *)
Definition mirrored (s1 s2 : Session) : Prop := s_send s1 = s_recv s2 ∧ s_recv s1 = s_send s2.

Lemma respond_eq h theirs key listen :
  length theirs = 32%nat → x_contributory (x_shared (ephemeral h) theirs) = true →
  let t := transcript (hs_chain h) (hs_ours h) theirs in
  let shared := x_shared (ephemeral h) theirs in
  let low := direction_key (bs "lower-to-upper") shared t in
  let up := direction_key (bs "upper-to-lower") shared t in
  let '(ks, kr) := if bytes_leb (hs_ours h) theirs then (low, up) else (up, low) in
  respond h (encode u16_codec PROTOCOL_VERSION ++ theirs) key listen =
    Ok {| pe_session := {| s_send := advanced (Direction_new ks); s_recv := Direction_new kr |}; pe_transcript := t;
          auth_frame := aead_seal ks (nonce_of 0) [] (encode Auth_codec
            {| au_key := verifying_key key; au_listen := dialable listen;
               au_signature := SecretKey_sign key DP2pHandshakeSignDoc (handshake_doc t (dialable listen)) |}) |}.
Proof.
  intros Hl Hc. cbv zeta. unfold respond.
  assert (take 2 (encode u16_codec PROTOCOL_VERSION ++ theirs) = encode u16_codec PROTOCOL_VERSION) as -> by (by apply (take_app_length' _ _ 2)).
  assert (drop 2 (encode u16_codec PROTOCOL_VERSION ++ theirs) = theirs) as -> by (by apply (drop_app_length' _ _ 2)).
  rewrite length_app, Hl. cbn [Nat.eqb negb]. rewrite Hc.
  change (LittleEndianList.le_combine (encode u16_codec PROTOCOL_VERSION) =? PROTOCOL_VERSION) with true. cbn [negb].
  by destruct (bytes_leb _ _).
Qed.

Lemma finish_eq p us expected k listen sig d key_ :
  s_recv (pe_session p) = Direction_new key_ →
  wf Auth_codec {| au_key := k; au_listen := listen; au_signature := sig |} →
  PublicKey_verify k DP2pHandshakeSignDoc (handshake_doc (pe_transcript p) listen) sig = true →
  k ≠ us → (expected = None ∨ expected = Some k) → d = advanced (Direction_new key_) →
  finish p (aead_seal key_ (nonce_of 0) [] (encode Auth_codec {| au_key := k; au_listen := listen; au_signature := sig |})) us expected =
    Ok {| es_session := {| s_send := s_send (pe_session p); s_recv := d |}; es_peer := k; es_listen := dialable listen |}.
Proof.
  intros Hr Hwf Hv Hus Hex ->. unfold finish. rewrite Hr. unfold open, next_nonce_of, bind, reads, fail_if, writes, ret, lift.
  cbn [counter Direction_new d_key]. change (0 =? u64_max) with false. cbn [fst snd]. rewrite aead_opens. cbn [ok_or].
  rewrite (decode_exact_encode Auth_codec _ Hwf). cbn [map_err mbind result_bind au_key au_listen au_signature]. rewrite Hv. cbn [negb].
  rewrite bool_decide_eq_false_2 by done. destruct Hex as [->| ->]; [done|]. by rewrite bool_decide_eq_true_2.
Qed.

Lemma verify_own key d m : PublicKey_verify (verifying_key key) d m (SecretKey_sign key d m) = true.
Proof. unfold PublicKey_verify, SecretKey_sign. apply raw_sign_verifies. Qed.

(** ** The two ends agree *)

(** What an honest node is: its keys of 32 bytes, its exchange key made from its secret. *)
Definition started (h : Handshake) : Prop := hs_ours h = x_public (ephemeral h).
Definition hello_of (h : Handshake) : bytes := encode u16_codec PROTOCOL_VERSION ++ hs_ours h.
Definition claim_ok (l : option SocketAddr) : Prop := wf Claim_codec l.

Lemma dialable_ok l : claim_ok l → claim_ok (dialable l).
Proof. destruct l as [a|]; [|done]. simpl. destruct (is_dialable a); [done|]. intros _. unfold claim_ok, Claim_codec, tag_codec. cbn. done. Qed.

Lemma auth_wf key l t : claim_ok l →
  wf Auth_codec {| au_key := verifying_key key; au_listen := dialable l; au_signature := SecretKey_sign key DP2pHandshakeSignDoc (handshake_doc t (dialable l)) |}.
Proof.
  intros Hl. cbn [wf Auth_codec iso_codec pair_codec au_key au_listen au_signature fst snd].
  split; [apply verifying_key_ok|split; [by apply dialable_ok|]]. unfold SecretKey_sign. apply raw_sign_len.
Qed.

(** C29: two honest nodes end up with the two ends of one channel.  Each answers the other's
    hello on the same chain, with its own identity and where it listens; then both finish,
    each with the other's identity and its claim if that can be dialled, the sessions
    mirror each other, and whatever either then sends the other reads, in order. *)
Theorem handshake_agrees h1 h2 k1 k2 l1 l2 (dialled : bool) :
  started h1 → started h2 → hs_chain h1 = hs_chain h2 → hs_ours h1 ≠ hs_ours h2 →
  x_contributory (x_shared (ephemeral h1) (hs_ours h2)) = true → verifying_key k1 ≠ verifying_key k2 → claim_ok l1 → claim_ok l2 →
  ∃ p1 p2 e1 e2,
    respond h1 (hello_of h2) k1 l1 = Ok p1 ∧ respond h2 (hello_of h1) k2 l2 = Ok p2
    ∧ finish p1 (auth_frame p2) (verifying_key k1) (if dialled then Some (verifying_key k2) else None) = Ok e1
    ∧ finish p2 (auth_frame p1) (verifying_key k2) None = Ok e2
    ∧ es_peer e1 = verifying_key k2 ∧ es_peer e2 = verifying_key k1 ∧ es_listen e1 = dialable l2 ∧ es_listen e2 = dialable l1
    ∧ mirrored (es_session e1) (es_session e2)
    ∧ ∀ ms, Forall sendable ms → Z.of_nat (length ms) < u64_max →
        ∃ wire d, write_frames ms (s_send (es_session e1), []) = (Ok tt, (d, wire))
          ∧ ∀ rs, pieces rs → flow rs = wire → ∃ rs' d' costs,
              read_frames (length ms) (rs, s_recv (es_session e2)) = (Ok (zip ms costs), (rs', d')).
Proof.
  intros Hs1 Hs2 Hch Hne Hc Hk Hl1 Hl2.
  assert (length (hs_ours h1) = 32%nat ∧ length (hs_ours h2) = 32%nat) as [Hn1 Hn2] by (rewrite Hs1, Hs2; auto using x_public_len).
  assert (x_shared (ephemeral h2) (hs_ours h1) = x_shared (ephemeral h1) (hs_ours h2)) as Hsh by (rewrite Hs1, Hs2; apply x_agree).
  pose proof (respond_eq h1 (hs_ours h2) k1 l1 Hn2 Hc) as H1. cbv zeta in H1.
  assert (x_contributory (x_shared (ephemeral h2) (hs_ours h1)) = true) as Hc2 by by rewrite Hsh.
  pose proof (respond_eq h2 (hs_ours h1) k2 l2 Hn1 Hc2) as H2. cbv zeta in H2.
  rewrite <-Hch, (transcript_sym _ (hs_ours h2)), Hsh in H2.
  set (t := transcript _ _ _) in *. set (sh := x_shared _ _) in *.
  set (low := direction_key (bs "lower-to-upper") sh t) in *. set (up := direction_key (bs "upper-to-lower") sh t) in *.
  assert (bytes_leb (hs_ours h2) (hs_ours h1) = negb (bytes_leb (hs_ours h1) (hs_ours h2))) as Hle.
  { unfold bytes_leb. destruct (bytes_ltb (hs_ours h2) (hs_ours h1)) eqn:E1, (bytes_ltb (hs_ours h1) (hs_ours h2)) eqn:E2; simpl; try done.
    - apply bytes_ltb_lt in E1, E2. exfalso. apply (bytes_lt_irrefl (hs_ours h1)). by etrans.
    - destruct (bytes_lt_total (hs_ours h1) (hs_ours h2)) as [H|[H|H]]; [|done|]; apply bytes_ltb_lt in H; congruence. }
  rewrite Hle in H2. unfold hello_of.
  assert (∃ ka kb : bytes, (if bytes_leb (hs_ours h1) (hs_ours h2) then (low, up) else (up, low)) = (ka, kb)
    ∧ (if negb (bytes_leb (hs_ours h1) (hs_ours h2)) then (low, up) else (up, low)) = (kb, ka)) as (ka & kb & Hab & Hba).
  { destruct (bytes_leb _ _); eauto. }
  rewrite Hab in H1. rewrite Hba in H2.
  eexists _, _, _, _. split; [exact H1|]. split; [exact H2|].
  split. { apply finish_eq; [done|by apply auth_wf|apply verify_own|done|destruct dialled; auto|done]. }
  split. { apply finish_eq; [done|by apply auth_wf|apply verify_own|done|auto|done]. }
  cbn [es_peer es_listen es_session pe_session s_send s_recv]. rewrite !dialable_idem. split_and!; [done..|].
  intros ms Hms Hlen. destruct (frames_stream ms (advanced (Direction_new ka))) as (wire & Hw & Hr); [simpl; lia|simpl; lia|done|].
  exists wire. eexists. split; [apply Hw|]. intros rs Hp Hf.
  destruct (Hr rs [] Hp) as (rs' & costs & Hread & _); [by rewrite app_nil_r|]. eauto.
Qed.

(** ** Nobody else can finish *)

(** The bytes hashed into a transcript. *)
Definition transcript_input (h : Handshake) (theirs : bytes) : bytes :=
  hash_input DP2pTranscript (concat (transcript_parts (hs_chain h) (hs_ours h) theirs)).
(** A handshake answered: who started it, the key in the hello and what was claimed. *)
Definition answered_ok (x : Handshake * bytes * option SocketAddr) : Prop :=
  wf ChainId_codec (hs_chain x.1.1) ∧ length (hs_ours x.1.1) = 32%nat ∧ length x.1.2 = 32%nat ∧ claim_ok x.2.
Definition answer_doc (x : Handshake * bytes * option SocketAddr) : bytes :=
  handshake_doc (transcript (hs_chain x.1.1) (hs_ours x.1.1) x.1.2) (dialable x.2).

Lemma transcript_inj c1 a1 b1 c2 a2 b2 :
  wf ChainId_codec c1 → wf ChainId_codec c2 → length a1 = 32%nat → length b1 = 32%nat → length a2 = 32%nat → length b2 = 32%nat →
  concat (transcript_parts c1 a1 b1) = concat (transcript_parts c2 a2 b2) →
  c1 = c2 ∧ ((a1 = a2 ∧ b1 = b2) ∨ (a1 = b2 ∧ b1 = a2)).
Proof.
  intros Hc1 Hc2 Ha1 Hb1 Ha2 Hb2.
  assert (∀ lo1 up1 lo2 up2 : bytes, length lo1 = 32%nat → length lo2 = 32%nat →
    concat [encode u16_codec PROTOCOL_VERSION; encode ChainId_codec c1; lo1; up1] = concat [encode u16_codec PROTOCOL_VERSION; encode ChainId_codec c2; lo2; up2] →
    c1 = c2 ∧ lo1 = lo2 ∧ up1 = up2) as Hinj.
  { intros lo1 up1 lo2 up2 Hl1 Hl2 H. cbn [concat] in H. rewrite !app_nil_r in H. apply app_inv_head in H.
    apply (encode_prefix_inj ChainId_codec) in H as [-> H]; [|done..]. apply app_inj_1 in H as [-> ->]; [done|congruence]. }
  unfold transcript_parts. destruct (bytes_leb a1 b1), (bytes_leb a2 b2); intros H; apply Hinj in H as (-> & -> & ->); auto.
Qed.

(** C20: a peer is who it says, on this chain, now.  If a handshake ends with a peer, and the
    holder of the key in its frame signs only for handshakes it answered itself, then that
    holder answered one on this very chain between these very two exchange keys, claiming
    the address this node was told; the peer is not this node, and is the one that was
    dialled, if one was; all unless two transcripts collide. *)
Theorem handshake_authentic h theirs key listen p frame us expected e (answered : list (Handshake * bytes * option SocketAddr)) :
  respond h (encode u16_codec PROTOCOL_VERSION ++ theirs) key listen = Ok p → finish p frame us expected = Ok e →
  (∀ auth d, wf Auth_codec auth → open frame [] (s_recv (pe_session p)) = (Ok (encode Auth_codec auth), d) →
     let doc := handshake_doc (pe_transcript p) (au_listen auth) in
     PublicKey_verify (au_key auth) DP2pHandshakeSignDoc doc (au_signature auth) = true → ∃ x, x ∈ answered ∧ doc = answer_doc x) →
  wf ChainId_codec (hs_chain h) → length (hs_ours h) = 32%nat → length theirs = 32%nat → Forall answered_ok answered →
  collision_free (transcript_input h theirs :: ((λ x, transcript_input x.1.1 x.1.2) <$> answered)) →
  es_peer e ≠ us ∧ (∀ x, expected = Some x → es_peer e = x)
  ∧ ∃ h' hello' l', (h', hello', l') ∈ answered ∧ hs_chain h' = hs_chain h ∧ es_listen e = dialable l'
    ∧ ((hs_ours h' = theirs ∧ hello' = hs_ours h) ∨ (hs_ours h' = hs_ours h ∧ hello' = theirs)).
Proof.
  intros Hr Hf Hsig Hwf Ho Ht Hans Hcf.
  assert (pe_transcript p = transcript (hs_chain h) (hs_ours h) theirs) as Htr.
  { destruct (x_contributory (x_shared (ephemeral h) theirs)) eqn:Hc.
    - pose proof (respond_eq h theirs key listen Ht Hc) as H. cbv zeta in H. destruct (if bytes_leb _ _ then _ else _) as [ks kr].
      rewrite Hr in H. by injection H as ->.
    - exfalso. unfold respond in Hr. rewrite (drop_app_length' _ _ 2) in Hr by done. rewrite Hc in Hr. by repeat (case_match; try done). }
  unfold finish in Hf. destruct (open frame [] _) as [[pt|] d] eqn:Hop; [|done]. destruct (decode_exact Auth_codec pt) as [auth|] eqn:Hd; [|done].
  apply decode_exact_sound in Hd as [Hwa ->]; [|apply _]. cbn [map_err mbind result_bind] in Hf.
  destruct (PublicKey_verify _ _ _ _) eqn:Hv; [|done]. cbn [negb] in Hf. case_bool_decide as Hus; [done|].
  assert (e = {| es_session := {| s_send := s_send (pe_session p); s_recv := d |}; es_peer := au_key auth; es_listen := dialable (au_listen auth) |}
    ∧ ∀ x, expected = Some x → au_key auth = x) as [-> Hex].
  { destruct expected as [x|]; [|by injection Hf as <-]. case_bool_decide; [|done]. injection Hf as <-. split; [done|]. intros y [= <-]. done. }
  cbn [es_peer es_listen] in *. split; [done|]. split; [done|].
  destruct (Hsig _ _ Hwa eq_refl Hv) as ([[h' hello'] l'] & Hin & Hdoc). rewrite Forall_forall in Hans. destruct (Hans _ Hin) as (Hw' & Ho' & Hh' & Hl'). cbn [fst snd] in *.
  unfold answer_doc, handshake_doc in Hdoc. cbn [fst snd] in Hdoc. rewrite Htr in Hdoc.
  apply app_inj_1 in Hdoc as [Hts Hcl]; [|by unfold transcript; rewrite !hash_parts_len].
  apply encode_inj in Hcl; [|apply _|apply Hwa|by apply dialable_ok].
  exists h', hello', l'. split; [done|]. rewrite Hcl, dialable_idem.
  assert (transcript_input h theirs = transcript_input h' hello') as Hti.
  { apply Hcf; [left| |exact Hts]. right. apply list_elem_of_fmap. by exists (h', hello', l'). }
  apply hash_input_inj in Hti as [_ Hti]. apply transcript_inj in Hti as (-> & Hpair); [|done..]. split_and!; [done..|]. naive_solver.
Qed.
End handshake.
