(* ===== verification/Manager.v ===== *)
(** Who to connect to, what to believe and what to pass on ([crates/p2p/src/manager.rs]).

    A [Duration] is a number of nanoseconds, saturating where the source does; sizes and
    rates are values of 64-bit integers.  The [BTreeMap]s are finite maps, walked in the
    order of their keys where the walk's order matters.  Every operation takes the manager
    and gives the manager afterwards with what it tells the transport to do. *)

From S2P Require Import Prelude SortedVec Sorting Codec Primitives Crypto Alias Votes Tx Executor Block Node Peer PeerProofs Wire.

(** * Limits and budgets *)

Abbreviation Duration := Z (only parsing).
Definition DURATION_MAX : Z := u64_max * 1000000000 + 999999999.
Definition from_secs (s : Z) : Duration := s * 1000000000.
(** [u64::try_from(d.as_millis()).unwrap_or(u64::MAX)]. *)
Definition as_millis (d : Duration) : Z := Z.min u64_max (d / 1000000).
Definition saturating_mul (mx a b : Z) : Z := Z.min mx (a * b).

Record Limits := {
  max_outbound : nat;
  max_inbound : nat;
  seen_capacity : nat;
  messages_per_second : Z;
  bytes_per_second : Z;
  burst : Duration;
}.
Definition Limits_default : Limits := {|
  max_outbound := 8; max_inbound := 40; seen_capacity := Z.to_nat 8192; messages_per_second := 1024;
  bytes_per_second := 5 * 1024 * 1024; burst := from_secs 2 |}.

Definition BAN_DURATION : Duration := from_secs 3600.
Definition ANCHOR_COUNT : nat := 2.

Record Bucket := { tokens : Z; capacity : Z; per_second : Z }.
Definition Bucket_new (per_second : Z) (burst : Duration) (floor : Z) : Bucket :=
  let banked := saturating_mul u64_max per_second (as_millis burst) / 1000 in
  let capacity := Z.max (Z.max banked floor) 1 in
  {| tokens := capacity; capacity := capacity; per_second := per_second |}.
Definition refill (elapsed : Duration) (b : Bucket) : Bucket :=
  let gained := saturating_mul u64_max (per_second b) (as_millis elapsed) / 1000 in
  {| tokens := Z.min (saturating_add u64_max (tokens b) gained) (capacity b); capacity := capacity b; per_second := per_second b |}.
Definition take_tokens (n : Z) (b : Bucket) : bool * Bucket :=
  if tokens b <? n then (false, b)
  else (true, {| tokens := tokens b - n; capacity := capacity b; per_second := per_second b |}).

Inductive Refusal := NoRoom | Banned | DuplicatePeer | SelfConnection | GroupInUse.

Inductive Directive :=
| Deliver (e : Event)
| DSend (to : PeerId) (m : PeerMessage)
| Relay (m : PeerMessage) (except : PeerId)
| Broadcast (m : PeerMessage)
| ServeBlock (to : PeerId) (h : Height)
| ApplyBlock (from : PeerId) (s : SyncBlock)
| Disconnect (peer : PeerId) (reason : string).

(** * Connections *)

Record Connected := {
  cn_addr : PeerAddr;
  outbound : bool;
  reputation : Z;
  cn_messages : Bucket;
  cn_bytes : Bucket;
  awaiting_addrs : bool;
  tip : option Height;
  awaiting_block : option Height;
  request_age : Z;
  abandoned : option Height;
  since : Duration;
  served : bool;
}.

Definition with_budgets (ms bs_ : Bucket) c : Connected := {|
  cn_addr := cn_addr c; outbound := outbound c; reputation := reputation c; cn_messages := ms; cn_bytes := bs_;
  awaiting_addrs := awaiting_addrs c; tip := tip c; awaiting_block := awaiting_block c; request_age := request_age c;
  abandoned := abandoned c; since := since c; served := served c |}.
Definition with_reputation (r : Z) c : Connected := {|
  cn_addr := cn_addr c; outbound := outbound c; reputation := r; cn_messages := cn_messages c; cn_bytes := cn_bytes c;
  awaiting_addrs := awaiting_addrs c; tip := tip c; awaiting_block := awaiting_block c; request_age := request_age c;
  abandoned := abandoned c; since := since c; served := served c |}.
Definition with_awaiting_addrs (w : bool) c : Connected := {|
  cn_addr := cn_addr c; outbound := outbound c; reputation := reputation c; cn_messages := cn_messages c; cn_bytes := cn_bytes c;
  awaiting_addrs := w; tip := tip c; awaiting_block := awaiting_block c; request_age := request_age c;
  abandoned := abandoned c; since := since c; served := served c |}.
Definition with_tip (t : option Height) c : Connected := {|
  cn_addr := cn_addr c; outbound := outbound c; reputation := reputation c; cn_messages := cn_messages c; cn_bytes := cn_bytes c;
  awaiting_addrs := awaiting_addrs c; tip := t; awaiting_block := awaiting_block c; request_age := request_age c;
  abandoned := abandoned c; since := since c; served := served c |}.
(** The request outstanding, its age, and the one given up. *)
Definition with_request (w : option Height) (age : Z) (gone : option Height) c : Connected := {|
  cn_addr := cn_addr c; outbound := outbound c; reputation := reputation c; cn_messages := cn_messages c; cn_bytes := cn_bytes c;
  awaiting_addrs := awaiting_addrs c; tip := tip c; awaiting_block := w; request_age := age;
  abandoned := gone; since := since c; served := served c |}.
Definition with_served c : Connected := {|
  cn_addr := cn_addr c; outbound := outbound c; reputation := reputation c; cn_messages := cn_messages c; cn_bytes := cn_bytes c;
  awaiting_addrs := awaiting_addrs c; tip := tip c; awaiting_block := awaiting_block c; request_age := request_age c;
  abandoned := abandoned c; since := since c; served := true |}.

(** * The seen-set *)

Record Seen := { seen_ids : gset bytes; order : list Hash32; cap : nat }.
Definition Seen_new (capacity : nat) : Seen := {| seen_ids := ∅; order := []; cap := capacity `max` 1 |}.
(** The loop that forgets the oldest while there are too many. *)
Fixpoint trim (cap : nat) (order : list Hash32) (ids : gset bytes) : list Hash32 * gset bytes :=
  match order with
  | [] => ([], ids)
  | oldest :: rest => if (cap <? length order)%nat then trim cap rest (ids ∖ {[oldest]}) else (order, ids)
  end.
Definition seen_insert (id : Hash32) (s : Seen) : bool * Seen :=
  if bool_decide (id ∈ seen_ids s) then (false, s)
  else
    let '(o, ids) := trim (cap s) (order s ++ [id]) ({[id]} ∪ seen_ids s) in
    (true, {| seen_ids := ids; order := o; cap := cap s |}).

(** * The manager *)

Record Manager := {
  ours : PeerId;
  book : AddrBook;
  peers : gmap bytes Connected;
  banned : gmap bytes Duration;
  anchors : list PeerAddr;
  seen : Seen;
  limits : Limits;
  cursor : Z;
  uptime : Duration;
  m_height : Height;
  staged : gmap Z (PeerId * SyncBlock);
}.

Definition set_book x m : Manager := {| ours := ours m; book := x; peers := peers m; banned := banned m; anchors := anchors m;
  seen := seen m; limits := limits m; cursor := cursor m; uptime := uptime m; m_height := m_height m; staged := staged m |}.
Definition set_peers x m : Manager := {| ours := ours m; book := book m; peers := x; banned := banned m; anchors := anchors m;
  seen := seen m; limits := limits m; cursor := cursor m; uptime := uptime m; m_height := m_height m; staged := staged m |}.
Definition set_banned x m : Manager := {| ours := ours m; book := book m; peers := peers m; banned := x; anchors := anchors m;
  seen := seen m; limits := limits m; cursor := cursor m; uptime := uptime m; m_height := m_height m; staged := staged m |}.
Definition set_anchors x m : Manager := {| ours := ours m; book := book m; peers := peers m; banned := banned m; anchors := x;
  seen := seen m; limits := limits m; cursor := cursor m; uptime := uptime m; m_height := m_height m; staged := staged m |}.
Definition set_seen x m : Manager := {| ours := ours m; book := book m; peers := peers m; banned := banned m; anchors := anchors m;
  seen := x; limits := limits m; cursor := cursor m; uptime := uptime m; m_height := m_height m; staged := staged m |}.
Definition set_cursor x m : Manager := {| ours := ours m; book := book m; peers := peers m; banned := banned m; anchors := anchors m;
  seen := seen m; limits := limits m; cursor := x; uptime := uptime m; m_height := m_height m; staged := staged m |}.
Definition set_uptime x m : Manager := {| ours := ours m; book := book m; peers := peers m; banned := banned m; anchors := anchors m;
  seen := seen m; limits := limits m; cursor := cursor m; uptime := x; m_height := m_height m; staged := staged m |}.
Definition set_sync h x m : Manager := {| ours := ours m; book := book m; peers := peers m; banned := banned m; anchors := anchors m;
  seen := seen m; limits := limits m; cursor := cursor m; uptime := uptime m; m_height := h; staged := x |}.

Definition Manager_new (us : PeerId) (bk : AddrBook) (l : Limits) : Manager := {|
  ours := us; book := bk; peers := ∅; banned := ∅; anchors := []; seen := Seen_new (seen_capacity l); limits := l;
  cursor := 0; uptime := 0; m_height := 0; staged := ∅ |}.
Definition at_height (h : Height) m : Manager := set_sync h (staged m) m.
Definition set_height (h : Height) m : Manager := set_sync h (filter (λ '(k, _), h ≤ k) (staged m)) m.
Definition committed_tip m : Height := saturating_sub (m_height m) 1.

Definition peer_list m : list Connected := snd <$> sorted_entries (peers m).
(** [Option<Height>::max] over an iterator. *)
Definition max_height (l : list Height) : option Height :=
  match l with [] => None | h :: l => Some (foldl Z.max h l) end.
Definition best_peer_height m : option Height := max_height (omap tip (peer_list m)).
Definition is_behind m : bool := match best_peer_height m with Some best => m_height m <=? best | None => false end.

Definition outbound_count m : nat := length (List.filter outbound (peer_list m)).
Definition inbound_count m : nat := length (List.filter (λ p, negb (outbound p)) (peer_list m)).
Definition peer_reputation m (id : PeerId) : option Z := reputation <$> peers m !! id.
Definition is_banned m (id : PeerId) : bool := match banned m !! id with Some until => uptime m <? until | None => false end.

(** The longest-connected outbound peers. *)
Definition anchor_le (x y : Connected) : Prop :=
  since x < since y ∨ (since x = since y ∧ bytes_ltb (pa_id (cn_addr y)) (pa_id (cn_addr x)) = false).
#[export] Instance anchor_le_dec : RelDecision anchor_le.
Proof. intros x y. unfold anchor_le. apply _. Defined.
Definition kept_anchors m : list PeerAddr :=
  cn_addr <$> take ANCHOR_COUNT (merge_sort anchor_le (List.filter outbound (peer_list m))).
Definition seed_anchors (l : list PeerAddr) m : Manager := set_anchors (anchors m ++ take ANCHOR_COUNT l) m.

Definition outbound_groups m : list AddrGroup := (λ p, group (cn_addr p)) <$> List.filter outbound (peer_list m).

(** * Connections made, accepted and lost *)

Section manager.
Context {Hs : Hasher} {Sg : Signer} {Un : Unicode}.
Implicit Types (m : Manager) (a : PeerAddr) (id from : PeerId) (h : Height).

(** The loop over the anchors: each is taken off the queue, usable or not. *)
Fixpoint next_anchor m (avoid : list AddrGroup) (l : list PeerAddr) : option PeerAddr * list PeerAddr :=
  match l with
  | [] => (None, [])
  | a :: l =>
      if negb (bool_decide (pa_id a = ours m)) && negb (is_banned m (pa_id a))
         && negb (bool_decide (is_Some (peers m !! pa_id a))) && negb (bool_decide (group a ∈ avoid))
      then (Some a, l) else next_anchor m avoid l
  end.

Definition wants_outbound m : option PeerAddr * Manager :=
  if (max_outbound (limits m) <=? outbound_count m)%nat then (None, m)
  else
    let avoid := outbound_groups m ++ ((λ p, group (cn_addr p)) <$> peer_list m) in
    let '(found, rest) := next_anchor m avoid (anchors m) in
    let m := set_anchors rest m in
    match found with
    | Some a => (Some a, m)
    | None =>
        let m := set_cursor ((cursor m + 1) mod 2 ^ 64) m in
        match book_select (book m) avoid (cursor m) with
        | None => (None, m)
        | Some c => (if negb (bool_decide (pa_id c = ours m)) && negb (is_banned m (pa_id c)) then Some c else None, m)
        end
    end.

(** Whom a newcomer may replace. *)
Definition population (l : list Connected) : gmap bytes nat :=
  foldl (λ acc p, <[group (cn_addr p) := (default 0 (acc !! group (cn_addr p)) + 1)%nat]> acc) ∅ l.
Definition largest_of (pop : gmap bytes nat) : option nat :=
  match snd <$> map_to_list pop with [] => None | n :: l => Some (foldl Nat.max n l) end.

(** The order on [(!served, since, id)]. *)
Definition evict_le (x y : bytes * Connected) : bool :=
  let nx := negb (served x.2) in let ny := negb (served y.2) in
  if Bool.eqb nx ny then
    if since x.2 =? since y.2 then negb (bytes_ltb y.1 x.1) else since x.2 <? since y.2
  else ny.

Definition eviction_candidate m : option PeerId :=
  let pop := population (List.filter (λ p, negb (outbound p)) (peer_list m)) in
  match largest_of pop with
  | None => None
  | Some largest =>
      if (largest <? 2)%nat then None
      else
        fst <$> max_by evict_le
          (List.filter (λ '(_, p), negb (outbound p) && bool_decide (pop !! group (cn_addr p) = Some largest))
             (sorted_entries (peers m)))
  end.

Definition Connected_new m a (out : bool) : Connected := {|
  cn_addr := a; outbound := out; reputation := Reputation_new;
  cn_messages := Bucket_new (messages_per_second (limits m)) (burst (limits m)) 1;
  cn_bytes := Bucket_new (bytes_per_second (limits m)) (burst (limits m)) MAX_FRAME_LEN;
  awaiting_addrs := false; tip := None; awaiting_block := None; request_age := 0; abandoned := None;
  since := uptime m; served := false |}.

Definition Manager_admit a (out : bool) m : result Refusal (list Directive) * Manager :=
  if bool_decide (pa_id a = ours m) then (Err SelfConnection, m)
  else if is_banned m (pa_id a) then (Err Banned, m)
  else if bool_decide (is_Some (peers m !! pa_id a)) then (Err DuplicatePeer, m)
  else
    let room : result Refusal (list Directive * Manager) :=
      if out then
        if (max_outbound (limits m) <=? outbound_count m)%nat then Err NoRoom
        else if bool_decide (group a ∈ outbound_groups m) then Err GroupInUse
        else Ok ([], m)
      else if (max_inbound (limits m) <=? inbound_count m)%nat then
        victim ← ok_or NoRoom (eviction_candidate m);
        Ok ([Disconnect victim "evicted to make room"], set_peers (delete victim (peers m)) m)
      else Ok ([], m) in
    match room with
    | Err e => (Err e, m)
    | Ok (directives, m) =>
        let m := if out then set_book (mark_good (pa_id a) (book_add a (group a) (book m)).1) m else m in
        (Ok directives, set_peers (<[pa_id a := Connected_new m a out]> (peers m)) m)
    end.
Definition on_outbound a m := Manager_admit a true m.
Definition on_inbound a m := Manager_admit a false m.

Definition advertised id (claimed : SocketAddr) (source : AddrGroup) m : Manager :=
  if bool_decide (id = ours m) || is_banned m id then m
  else set_book (book_add {| pa_id := id; pa_addr := claimed |} source (book m)).1 m.
Definition learned m id : option PeerAddr := e_addr <$> book_get (book m) id.
Definition on_disconnect id m : Manager := set_peers (delete id (peers m)) m.
Definition on_dial_failed id m : Manager := set_book (mark_failed id (book m)) m.

Definition penalise from (what : Misbehaviour) m : list Directive * Manager :=
  match peers m !! from with
  | None => ([], m)
  | Some p =>
      let score := Reputation_penalise what (reputation p) in
      if Reputation_is_banned score then
        ([Disconnect from "banned"],
         set_peers (delete from (peers m))
           (set_banned (<[from := saturating_add DURATION_MAX (uptime m) BAN_DURATION]> (banned m)) m))
      else ([], set_peers (<[from := with_reputation score p]> (peers m)) m)
  end.

(** * Catching up *)

(** [drain_staged]: one round per staged block, and no block is staged twice. *)
Fixpoint drain_loop (fuel : nat) m : list Directive * Manager :=
  match fuel with
  | O => ([], m)
  | S fuel =>
      match staged m !! m_height m with
      | None => ([], m)
      | Some (from, s) =>
          let '(out, m') := drain_loop fuel (set_sync (Height_next (m_height m)) (delete (m_height m) (staged m)) m) in
          (ApplyBlock from s :: out, m')
      end
  end.
Definition drain_staged m : list Directive * Manager := drain_loop (S (size (staged m))) m.

Definition rotate m (ids : list PeerId) (offset : Z) : option PeerId :=
  match ids with
  | [] => None
  | _ => ids !! Z.to_nat (((cursor m + offset) mod 2 ^ 64) mod Z.of_nat (length ids))
  end.

Definition ceiling m : Height := saturating_add u64_max (m_height m) (Z.of_nat MAX_STAGED_BLOCKS).

(** The loop stops, with nobody, where the rotation finds nobody. *)
Fixpoint free_peer_loop m (ids : list PeerId) h (offsets : list nat) : option PeerId :=
  match offsets with
  | [] => None
  | o :: offsets =>
      match rotate m ids (Z.of_nat o) with
      | None => None
      | Some id =>
          if match peers m !! id with
             | Some p => match awaiting_block p with None => match tip p with Some t => h <=? t | None => false end | Some _ => false end
             | None => false
             end
          then Some id else free_peer_loop m ids h offsets
      end
  end.
Definition free_peer_holding m (ids : list PeerId) h : option PeerId := free_peer_loop m ids h (seq 0 (length ids)).

Definition ask h p : Connected := with_request (Some h) 0 (abandoned p) p.

Fixpoint sync_loop (fuel : nat) (ids : list PeerId) (top : Height) (in_flight : nat) (claimed : list Height) (want : Height) m
  : list Directive * Manager :=
  match fuel with
  | O => ([], m)
  | S fuel =>
      if (in_flight <? MAX_BLOCKS_IN_FLIGHT)%nat && (want <=? top) then
        if bool_decide (want ∈ claimed) then sync_loop fuel ids top in_flight claimed (Height_next want) m
        else
          match free_peer_holding m ids want with
          | None => ([], m)
          | Some target =>
              let m := set_peers (alter (ask want) target (peers m)) m in
              let '(out, m) := sync_loop fuel ids top (in_flight + 1) (want :: claimed) (Height_next want) m in
              (DSend target (GetBlock want) :: out, m)
          end
      else ([], m)
  end.

Definition claimed_heights m : list Height := omap awaiting_block (peer_list m) ++ (fst <$> map_to_list (staged m)).
Definition in_flight_count m : nat := length (omap awaiting_block (peer_list m)).
(** The heights from the one needed to the ceiling are at most [MAX_STAGED_BLOCKS + 1]. *)
Definition SYNC_FUEL : nat := S (S MAX_STAGED_BLOCKS).
Definition schedule_sync (ids : list PeerId) m : list Directive * Manager :=
  match best_peer_height m with
  | None => ([], m)
  | Some best =>
      if best <? m_height m then ([], m)
      else sync_loop SYNC_FUEL ids (Z.min (ceiling m) best) (in_flight_count m) (claimed_heights m) (m_height m) m
  end.

(** A request too old is given up and remembered. *)
Definition age_request p : Connected :=
  match awaiting_block p with
  | None => p
  | Some h =>
      let age := saturating_add u32_max (request_age p) 1 in
      if REQUEST_TIMEOUT_TICKS <=? age then with_request None 0 (Some h) p
      else with_request (Some h) age (abandoned p) p
  end.

Definition on_tick (elapsed : Duration) m : list Directive * Manager :=
  let m := set_uptime (saturating_add DURATION_MAX (uptime m) elapsed) m in
  let m := set_banned (filter (λ '(_, until), uptime m < until) (banned m)) m in
  let m := set_peers ((λ p, with_budgets (refill elapsed (cn_messages p)) (refill elapsed (cn_bytes p)) p) <$> peers m) m in
  let m := set_cursor ((cursor m + 1) mod 2 ^ 64) m in
  let ids := fst <$> sorted_entries (peers m) in
  match ids with
  | [] => ([], m)
  | _ =>
      let m := set_peers (age_request <$> peers m) m in
      let status := Broadcast (PMStatus (committed_tip m)) in
      let '(asked, m) :=
        match rotate m ids 0 with
        | Some target => ([DSend target GetAddrs], set_peers (alter (with_awaiting_addrs true) target (peers m)) m)
        | None => ([], m)
        end in
      let '(drained, m) := drain_staged m in
      let '(requests, m) := schedule_sync ids m in
      (status :: asked ++ drained ++ requests, m)
  end.

(** * Messages *)

Definition on_block from (s : SyncBlock) m : list Directive * Manager :=
  let h := sb_height s in
  match peers m !! from with
  | None => ([], m)
  | Some p =>
      let expected := bool_decide (awaiting_block p = Some h) in
      if negb expected && negb (bool_decide (abandoned p = Some h)) then penalise from BadBlock m
      else
        let gone := if expected then abandoned p else None in
        let p := with_tip (Some (match tip p with Some t => Z.max t h | None => h end)) (with_served (with_request None 0 gone p)) in
        let m := set_peers (<[from := p]> (peers m)) m in
        if h <? m_height m then ([], m)
        else if (MAX_STAGED_BLOCKS <=? size (staged m))%nat then ([], m)
        else drain_staged (set_sync (m_height m) (<[h := (from, s)]> (staged m)) m)
  end.

(** The loop over an address list. *)
Definition learn_addrs (us : PeerId) (source : AddrGroup) (l : list PeerAddr) (b : AddrBook) : AddrBook :=
  foldl (λ b a, if bool_decide (pa_id a = us) then b else (book_add a source b).1) b l.

Definition on_addrs from (l : list PeerAddr) m : list Directive * Manager :=
  match peers m !! from with
  | None => ([], m)
  | Some p =>
      if negb (awaiting_addrs p) then penalise from BadAddrs m
      else
        let m := set_peers (<[from := with_awaiting_addrs false p]> (peers m)) m in
        ([], set_book (learn_addrs (ours m) (group (cn_addr p)) l (book m)) m)
  end.

Definition on_no_block from h m : list Directive * Manager :=
  match peers m !! from with
  | Some p =>
      if bool_decide (awaiting_block p = Some h) then
        ([], set_peers (<[from := with_tip (Some (saturating_sub h 1)) (with_request None 0 (abandoned p) p)]> (peers m)) m)
      else ([], m)
  | None => ([], m)
  end.

Definition handle_message from (msg : PeerMessage) m : list Directive * Manager :=
  match msg with
  | PMProposal p => ([Deliver (EvProposal p); Relay (PMProposal p) from], m)
  | PMVote v => ([Deliver (EvVote v); Relay (PMVote v) from], m)
  | PMTransaction t => ([Deliver (EvTransaction t)], m)
  | GetAddrs =>
      let s := sample (book m) MAX_ADDRS (cursor m) in
      (if bool_decide (s = []) then [] else [DSend from (Addrs s)], m)
  | Addrs l => on_addrs from l m
  | Ping nonce => ([DSend from (Pong nonce)], m)
  | Pong _ => ([], m)
  | PMStatus h => ([], set_peers (alter (with_tip (Some h)) from (peers m)) m)
  | GetBlock h => ([ServeBlock from h], m)
  | PMBlock s => on_block from s m
  | NoBlock h => on_no_block from h m
  end.

Definition on_message_sized from (msg : PeerMessage) (size : Z) m : list Directive * Manager :=
  match peers m !! from with
  | None => ([], m)
  | Some p =>
      (* [!messages.take(1) || !bytes.take(n)]: the second is asked only if the first gave *)
      let '(ok1, ms) := take_tokens 1 (cn_messages p) in
      let '(ok2, bs_) := if ok1 then take_tokens size (cn_bytes p) else (true, cn_bytes p) in
      let m := set_peers (<[from := with_budgets ms bs_ p]> (peers m)) m in
      if negb ok1 || negb ok2 then penalise from TooFast m
      else
        match gossip_id msg with
        | None => handle_message from msg m
        | Some g =>
            let '(fresh, sn) := seen_insert g (seen m) in
            let m := set_seen sn m in
            if fresh then handle_message from msg m else ([], m)
        end
  end.
Definition on_message from (msg : PeerMessage) m : list Directive * Manager :=
  on_message_sized from msg (Z.of_nat (length (encode PeerMessage_codec msg))) m.

(** * Runs *)

Inductive ManagerEvent :=
| MSetHeight h
| MSeedAnchors (l : list PeerAddr)
| MWantsOutbound
| MOutbound a
| MInbound a
| MAdvertised id (claimed : SocketAddr) (source : AddrGroup)
| MDisconnect id
| MDialFailed id
| MTick (elapsed : Duration)
| MMessage from (msg : PeerMessage) (size : Z)
| MPenalise from (what : Misbehaviour).

Definition manager_step m (e : ManagerEvent) : list Directive * Manager :=
  match e with
  | MSetHeight h => ([], set_height h m)
  | MSeedAnchors l => ([], seed_anchors l m)
  | MWantsOutbound => ([], (wants_outbound m).2)
  | MOutbound a => let '(r, m) := on_outbound a m in (match r with Ok l => l | Err _ => [] end, m)
  | MInbound a => let '(r, m) := on_inbound a m in (match r with Ok l => l | Err _ => [] end, m)
  | MAdvertised id c s => ([], advertised id c s m)
  | MDisconnect id => ([], on_disconnect id m)
  | MDialFailed id => ([], on_dial_failed id m)
  | MTick d => on_tick d m
  | MMessage f msg n => on_message_sized f msg n m
  | MPenalise f w => penalise f w m
  end.
(** The directives given, in order, and the manager afterwards. *)
Fixpoint manager_run (es : list ManagerEvent) m : list Directive * Manager :=
  match es with
  | [] => ([], m)
  | e :: es => let '(out, m) := manager_step m e in let '(out', m) := manager_run es m in (out ++ out', m)
  end.
End manager.
