(* ===== verification/ManagerProofs.v ===== *)
(** What the peer manager guarantees, whatever its peers do ([crates/p2p/src/manager.rs]). *)

From S2P Require Import Prelude SortedVec Sorting Codec Primitives Crypto Alias Votes Tx Executor Block Node Peer PeerProofs Wire Manager.

(** * Counting connections *)

Definition count_peers (P : Connected → bool) (ps : gmap bytes Connected) : nat := length (List.filter P (snd <$> sorted_entries ps)).
Definition marked {A} (P : A → bool) (x : A) : option unit := if P x then Some tt else None.

Lemma filter_perm_length {A} (P : A → bool) (l1 l2 : list A) : l1 ≡ₚ l2 → length (List.filter P l1) = length (List.filter P l2).
Proof. induction 1; simpl; repeat case_match; simpl; lia. Qed.

Lemma count_peers_size (P : Connected → bool) ps : count_peers P ps = size (omap (marked P) ps).
Proof.
  unfold count_peers, sorted_entries. rewrite (filter_perm_length P _ (map_to_list ps).*2) by (by rewrite sort_by_key_perm).
  induction ps as [|id p ps Hid IH] using map_ind; [by rewrite map_to_list_empty, omap_empty|].
  rewrite (filter_perm_length P _ ((id, p) :: map_to_list ps).*2) by (by rewrite map_to_list_insert).
  rewrite fmap_cons. simpl. destruct (P p) eqn:E; simpl.
  - rewrite (omap_insert_Some _ _ _ _ tt) by (unfold marked; by rewrite E).
    rewrite map_size_insert_None, IH; [done|]. by rewrite lookup_omap, Hid.
  - rewrite omap_insert_None by (unfold marked; by rewrite E). rewrite delete_id; [done|]. by rewrite lookup_omap, Hid.
Qed.

Lemma count_peers_le (P : Connected → bool) (ps ps' : gmap bytes Connected) :
  (∀ id p', ps' !! id = Some p' → P p' = true → ∃ p, ps !! id = Some p ∧ P p = true) → (count_peers P ps' ≤ count_peers P ps)%nat.
Proof.
  intros H. rewrite !count_peers_size. apply map_subseteq_size, map_subseteq_spec. intros id u. rewrite !lookup_omap.
  destruct (ps' !! id) as [p'|] eqn:E; simpl; [|done]. unfold marked at 1. destruct (P p') eqn:Ep; [|done]. intros [= <-].
  destruct (H _ _ E Ep) as (p & -> & Hp). simpl. unfold marked. by rewrite Hp.
Qed.

Lemma count_peers_insert (P : Connected → bool) ps id p : ps !! id = None → count_peers P (<[id := p]> ps) = (count_peers P ps + if P p then 1 else 0)%nat.
Proof.
  intros Hid. rewrite !count_peers_size. destruct (P p) eqn:E.
  - rewrite (omap_insert_Some _ _ _ _ tt) by (unfold marked; by rewrite E). rewrite map_size_insert_None; [lia|]. by rewrite lookup_omap, Hid.
  - rewrite omap_insert_None by (unfold marked; by rewrite E). rewrite delete_id; [lia|]. by rewrite lookup_omap, Hid.
Qed.

Lemma count_peers_delete (P : Connected → bool) ps id p : ps !! id = Some p → count_peers P ps = (count_peers P (delete id ps) + if P p then 1 else 0)%nat.
Proof. intros Hid. rewrite <-(insert_delete_id _ _ _ Hid) at 1. apply count_peers_insert, lookup_delete_eq. Qed.

Lemma count_peers_update (P : Connected → bool) ps id p p' : ps !! id = Some p →
  (count_peers P (<[id := p']> ps) + (if P p then 1 else 0) = count_peers P ps + if P p' then 1 else 0)%nat.
Proof.
  intros Hid. rewrite (count_peers_delete P ps id p Hid), (count_peers_delete P (<[id := p']> ps) id p') by apply lookup_insert_eq.
  rewrite delete_insert_eq. lia.
Qed.

Lemma count_peers_in (P : Connected → bool) ps id p : ps !! id = Some p → P p = true → (0 < count_peers P ps)%nat.
Proof. intros Hid Hp. rewrite (count_peers_delete P ps id p Hid), Hp. lia. Qed.

Lemma elem_of_peer_list m p : p ∈ peer_list m ↔ ∃ id, peers m !! id = Some p.
Proof.
  unfold peer_list. rewrite list_elem_of_fmap. split.
  - intros ([id p'] & -> & H%elem_of_sorted_entries). eauto.
  - intros (id & H%elem_of_sorted_entries). by exists (id, p).
Qed.

Definition awaits (p : Connected) : bool := bool_decide (is_Some (awaiting_block p)).

Lemma in_flight_count_eq m : in_flight_count m = count_peers awaits (peers m).
Proof.
  unfold in_flight_count, count_peers. fold (peer_list m). induction (peer_list m) as [|p l IH]; [done|]. simpl.
  unfold awaits at 1. destruct (awaiting_block p).
  - rewrite bool_decide_eq_true_2 by eauto. cbn [length]. f_equal. exact IH.
  - rewrite bool_decide_eq_false_2 by (by intros []). exact IH.
Qed.

(** * Connections *)

Record peers_inv (us : PeerId) (l : Limits) (ps : gmap bytes Connected) : Prop := {
  pi_id : ∀ id p, ps !! id = Some p → pa_id (cn_addr p) = id ∧ id ≠ us ∧ Reputation_is_banned (reputation p) = false;
  pi_group : ∀ i j p q, ps !! i = Some p → ps !! j = Some q → outbound p = true → outbound q = true →
    group (cn_addr p) = group (cn_addr q) → i = j;
  pi_out : (count_peers outbound ps ≤ max_outbound l)%nat;
  pi_in : (count_peers (λ p, negb (outbound p)) ps ≤ max_inbound l)%nat;
  pi_flight : (count_peers awaits ps ≤ MAX_BLOCKS_IN_FLIGHT)%nat;
  pi_once : ∀ i j p q h, ps !! i = Some p → ps !! j = Some q → awaiting_block p = Some h → awaiting_block q = Some h → i = j;
}.

(** A record changed without a new request, a new direction or a spent reputation. *)
Definition softer (p p' : Connected) : Prop :=
  cn_addr p' = cn_addr p ∧ outbound p' = outbound p ∧ (awaiting_block p' = awaiting_block p ∨ awaiting_block p' = None)
  ∧ (Reputation_is_banned (reputation p) = false → Reputation_is_banned (reputation p') = false).

Lemma softer_refl p : softer p p.
Proof. unfold softer. auto. Qed.
Lemma softer_trans p q r : softer p q → softer q r → softer p r.
Proof. unfold softer. intros (? & ? & ? & ?) (? & ? & ? & ?). split_and!; [congruence..| |auto]. destruct H1, H5; intuition congruence. Qed.

Lemma peers_inv_softer (us : PeerId) (l : Limits) (ps ps' : gmap bytes Connected) :
  (∀ id p', ps' !! id = Some p' → ∃ p, ps !! id = Some p ∧ softer p p') → peers_inv us l ps → peers_inv us l ps'.
Proof.
  intros H [Hid Hg Ho Hi Hf Hw]. split.
  - intros id p' (p & Hp & -> & _ & _ & Hr)%H. destruct (Hid _ _ Hp) as (? & ? & ?). auto.
  - intros i j p' q' (p & Hp & Ha & Ho1 & _)%H (q & Hq & Ha' & Ho2 & _)%H. rewrite Ha, Ha', Ho1, Ho2. eauto.
  - etrans; [|exact Ho]. apply count_peers_le. intros id p' (p & Hp & _ & -> & _)%H. eauto.
  - etrans; [|exact Hi]. apply count_peers_le. intros id p' (p & Hp & _ & -> & _)%H. eauto.
  - etrans; [|exact Hf]. apply count_peers_le. intros id p' (p & Hp & _ & _ & [Ha|Ha] & _)%H; unfold awaits; rewrite Ha; [eauto|].
    by rewrite bool_decide_eq_false_2 by (by intros []).
  - intros i j p' q' h (p & Hp & _ & _ & [Ha|Ha] & _)%H (q & Hq & _ & _ & [Ha'|Ha'] & _)%H; rewrite Ha, Ha'; [eauto|done..].
Qed.

Lemma peers_inv_delete (us : PeerId) (l : Limits) (ps : gmap bytes Connected) id : peers_inv us l ps → peers_inv us l (delete id ps).
Proof. apply peers_inv_softer. intros i p [_ Hp]%lookup_delete_Some. eauto using softer_refl. Qed.

Lemma peers_inv_update (us : PeerId) (l : Limits) (ps : gmap bytes Connected) id p p' : ps !! id = Some p → softer p p' → peers_inv us l ps → peers_inv us l (<[id := p']> ps).
Proof.
  intros Hp Hs. apply peers_inv_softer. intros i q [[<- <-]|[_ Hq]]%lookup_insert_Some; eauto using softer_refl.
Qed.

Lemma peers_inv_alter (us : PeerId) (l : Limits) (ps : gmap bytes Connected) id f : (∀ p, softer p (f p)) → peers_inv us l ps → peers_inv us l (alter f id ps).
Proof.
  intros Hf. rewrite alter_alt. destruct (ps !! id) eqn:E; [|done]. by apply (peers_inv_update _ _ _ _ _ _ E).
Qed.

Lemma peers_inv_fmap (us : PeerId) (l : Limits) (ps : gmap bytes Connected) f : (∀ p, softer p (f p)) → peers_inv us l ps → peers_inv us l (f <$> ps).
Proof. intros Hf. apply peers_inv_softer. intros i q. rewrite lookup_fmap, fmap_Some. intros (p & ? & ->). eauto. Qed.

(** * Eviction *)

(** The inbound seats a group holds. *)
Definition seat_of (g : AddrGroup) (p : Connected) : bool := negb (outbound p) && bool_decide (group (cn_addr p) = g).
Definition seats (m : Manager) (g : AddrGroup) : nat := count_peers (seat_of g) (peers m).

Lemma population_acc (l : list Connected) (acc : gmap bytes nat) (g : AddrGroup) :
  foldl (λ acc p, <[group (cn_addr p) := (default 0 (acc !! group (cn_addr p)) + 1)%nat]> acc) acc l !! g
  = match List.filter (λ p, bool_decide (group (cn_addr p) = g)) l with
    | [] => acc !! g
    | l' => Some (default 0 (acc !! g) + length l')%nat
    end.
Proof.
  revert acc. induction l as [|p l IH]; intros acc; [done|]. cbn [foldl]. rewrite IH. simpl. case_bool_decide as Hg.
  - rewrite Hg, lookup_insert_eq. destruct (List.filter _ l); simpl; f_equal; lia.
  - rewrite lookup_insert_ne by done. done.
Qed.

Lemma population_spec (m : Manager) (g : AddrGroup) :
  population (List.filter (λ p, negb (outbound p)) (peer_list m)) !! g = if (seats m g =? 0)%nat then None else Some (seats m g).
Proof.
  unfold population. rewrite population_acc, lookup_empty. unfold seats, count_peers. fold (peer_list m).
  replace (List.filter (λ p, bool_decide (group (cn_addr p) = g)) (List.filter (λ p, negb (outbound p)) (peer_list m)))
    with (List.filter (seat_of g) (peer_list m)); [by destruct (List.filter _ _)|].
  induction (peer_list m) as [|p l IH]; [done|]. simpl. unfold seat_of at 1. destruct (outbound p); simpl; [done|].
  rewrite IH. by case_bool_decide.
Qed.

Lemma foldl_max_le (l : list nat) : ∀ n, (n ≤ foldl Nat.max n l)%nat ∧ (∀ x, x ∈ l → (x ≤ foldl Nat.max n l)%nat) ∧ (foldl Nat.max n l = n ∨ foldl Nat.max n l ∈ l).
Proof.
  induction l as [|y l IH]; intros n; simpl; [split; [lia|split; [by intros ? ?%not_elem_of_nil|auto]]|].
  destruct (IH (n `max` y)%nat) as (H1 & H2 & H3). split; [lia|]. split.
  - intros x [->|Hx]%elem_of_cons; [lia|auto].
  - destruct H3 as [H3|H3]; [|right; by right]. rewrite H3. destruct (Nat.max_spec n y) as [[? ->]|[? ->]]; [right; left|left; done].
Qed.

Lemma largest_of_spec (pop : gmap bytes nat) :
  match largest_of pop with
  | None => ∀ g, pop !! g = None
  | Some n => (∃ g, pop !! g = Some n) ∧ ∀ g k, pop !! g = Some k → (k ≤ n)%nat
  end.
Proof.
  unfold largest_of. assert (∀ n, n ∈ (map_to_list pop).*2 ↔ ∃ g, pop !! g = Some n) as Hin.
  { intros n. rewrite list_elem_of_fmap. split; [intros ([g k] & -> & H%elem_of_map_to_list); eauto|].
    intros (g & H%elem_of_map_to_list). by exists (g, n). }
  destruct ((map_to_list pop).*2) as [|n l].
  - intros g. apply eq_None_not_Some. intros [n Hn]. assert (n ∈ []) as []%not_elem_of_nil by (apply Hin; eauto).
  - destruct (foldl_max_le l n) as (H1 & H2 & H3). split.
    + apply Hin. destruct H3 as [->|H3]; [left|by right].
    + intros g k Hk. assert (k ∈ n :: l) as [->|Hk']%elem_of_cons by (apply Hin; eauto); [lia|auto].
Qed.

Lemma max_from_ge {A} (le : A → A → bool) :
  (∀ x, le x x = true) → (∀ x y, le x y = true ∨ le y x = true) → (∀ x y z, le x y = true → le y z = true → le x z = true) →
  ∀ l b x, x ∈ b :: l → le x (max_from le b l) = true.
Proof.
  intros Hr Htot Htr. induction l as [|y l IH]; intros b x Hx; simpl.
  { apply list_elem_of_singleton in Hx as ->. apply Hr. }
  destruct (le b y) eqn:E.
  - apply elem_of_cons in Hx as [->|Hx]; [|by apply IH]. eapply Htr; [exact E|]. apply IH. left.
  - apply elem_of_cons in Hx as [->|Hx]; [apply IH; left|]. apply elem_of_cons in Hx as [->|Hx]; [|apply IH; by right].
    destruct (Htot b y) as [?|Hyb]; [congruence|]. eapply Htr; [exact Hyb|]. apply IH. left.
Qed.

Lemma bytes_ltb_ge_trans (a b c : bytes) : bytes_ltb b a = false → bytes_ltb c b = false → bytes_ltb c a = false.
Proof.
  rewrite <-!not_true_iff_false, !bytes_ltb_lt. intros H1 H2 H3. destruct (bytes_lt_total a b) as [H|[->|H]]; [|done..].
  apply H2. by etrans.
Qed.

Lemma evict_le_iff (x y : bytes * Connected) :
  evict_le x y = true ↔ (served x.2 = true ∧ served y.2 = false)
    ∨ (served x.2 = served y.2 ∧ (since x.2 < since y.2 ∨ (since x.2 = since y.2 ∧ bytes_ltb y.1 x.1 = false))).
Proof.
  unfold evict_le. destruct (since x.2 =? since y.2) eqn:E; [apply Z.eqb_eq in E|apply Z.eqb_neq in E];
    destruct (served x.2), (served y.2); simpl; rewrite ?negb_true_iff, ?Z.ltb_lt; naive_solver lia.
Qed.
Lemma evict_le_trans (x y z : bytes * Connected) : evict_le x y = true → evict_le y z = true → evict_le x z = true.
Proof.
  rewrite !evict_le_iff. intros [[H1 H2]|[H1 H2]] [[H3 H4]|[H3 H4]]; [left; split; congruence..|right].
  split; [congruence|]. destruct H2 as [?|[? H2]], H4 as [?|[? H4]]; [left; lia..|]. right. split; [lia|]. eauto using bytes_ltb_ge_trans.
Qed.
Lemma evict_le_total (x y : bytes * Connected) : evict_le x y = true ∨ evict_le y x = true.
Proof.
  rewrite !evict_le_iff. assert (bytes_ltb y.1 x.1 = false ∨ bytes_ltb x.1 y.1 = false) as Hb.
  { rewrite <-!not_true_iff_false, !bytes_ltb_lt. destruct (bytes_lt_total x.1 y.1) as [H|[->|H]].
    - left. intros H'. apply (bytes_lt_irrefl x.1). by etrans.
    - left. apply bytes_lt_irrefl.
    - right. intros H'. apply (bytes_lt_irrefl x.1). by etrans. }
  destruct (served x.2), (served y.2); [|auto..|]; destruct (Z.lt_trichotomy (since x.2) (since y.2)) as [?|[?|?]]; naive_solver.
Qed.
Lemma evict_le_refl (x : bytes * Connected) : evict_le x x = true.
Proof. by destruct (evict_le_total x x). Qed.

Lemma eviction_candidate_spec (m : Manager) :
  match eviction_candidate m with
  | Some v => ∃ p, peers m !! v = Some p ∧ outbound p = false ∧ (2 ≤ seats m (group (cn_addr p)))%nat
      ∧ (∀ g, seats m g ≤ seats m (group (cn_addr p)))%nat
      ∧ ∀ id q, peers m !! id = Some q → outbound q = false → seats m (group (cn_addr q)) = seats m (group (cn_addr p)) →
          evict_le (id, q) (v, p) = true
  | None => ∀ g, (seats m g ≤ 1)%nat
  end.
Proof.
  unfold eviction_candidate. set (pop := population _).
  assert (∀ g, pop !! g = if (seats m g =? 0)%nat then None else Some (seats m g)) as Hpop by apply population_spec.
  clearbody pop. pose proof (largest_of_spec pop) as Hl. destruct (largest_of pop) as [n|].
  2:{ intros g. specialize (Hl g). rewrite Hpop in Hl. destruct (seats m g); [lia|done]. }
  destruct Hl as [[g0 Hg0] Hmax]. rewrite Hpop in Hg0. destruct (seats m g0 =? 0)%nat eqn:Hz; [done|]. injection Hg0 as Hg0.
  assert (∀ g, (seats m g ≤ n)%nat) as Hle.
  { intros g. destruct (seats m g =? 0)%nat eqn:E; [apply Nat.eqb_eq in E; lia|]. apply (Hmax g). by rewrite Hpop, E. }
  destruct (n <? 2)%nat eqn:Hn; [apply Nat.ltb_lt in Hn; intros g; specialize (Hle g); lia|]. apply Nat.ltb_ge in Hn.
  set (l := List.filter _ _).
  assert (∀ id p, (id, p) ∈ l ↔ peers m !! id = Some p ∧ outbound p = false ∧ seats m (group (cn_addr p)) = n) as Hin.
  { intros id p. unfold l. rewrite list_elem_of_In, filter_In, <-list_elem_of_In, elem_of_sorted_entries, andb_true_iff, negb_true_iff, bool_decide_eq_true, Hpop.
    destruct (seats m (group (cn_addr p)) =? 0)%nat eqn:E; [apply Nat.eqb_eq in E|]; split; intros (? & ? & ?); split_and!; try done; try congruence; exfalso; lia. }
  clearbody l. destruct (max_by evict_le l) as [[v p]|] eqn:Hv.
  - pose proof (max_by_in _ _ _ Hv) as Hvl. apply Hin in Hvl as (Hp & Ho & Hs). cbn [fmap option_fmap option_map fst].
    exists p. rewrite Hs. split_and!; [done..|]. intros id q Hq Hqo Hqs. destruct l as [|e l]; [done|]. injection Hv as Hv.
    pose proof (max_from_ge evict_le evict_le_refl evict_le_total evict_le_trans l e (id, q)) as H. rewrite Hv in H. apply H, Hin. done.
  - apply max_by_None in Hv. subst l. exfalso.
    assert (0 < seats m g0)%nat as Hpos by lia. unfold seats in Hpos.
    assert (∃ id p, peers m !! id = Some p ∧ seat_of g0 p = true) as (id & p & Hp & Hseat).
    { destruct (decide (count_peers (seat_of g0) (peers m) ≤ 0)%nat) as [|Hne]; [lia|]. apply dec_stable. intros Hno. apply Hne.
      etrans; [apply (count_peers_le _ ∅)|]; [|by vm_compute]. intros id p Hp Hs. exfalso. eauto. }
    apply andb_true_iff in Hseat as [Ho%negb_true_iff Hg%bool_decide_eq_true].
    assert ((id, p) ∈ []) as []%not_elem_of_nil. apply Hin. by rewrite Hg.
Qed.

(** * Admission *)

Section proofs.
Context {Hs : Hasher} {Sg : Signer} {Un : Unicode}.
Implicit Types (m : Manager) (a : PeerAddr) (id from : PeerId) (h : Height).

Lemma is_outbound_group m a : group a ∈ outbound_groups m ↔ ∃ id p, peers m !! id = Some p ∧ outbound p = true ∧ group (cn_addr p) = group a.
Proof.
  unfold outbound_groups. rewrite list_elem_of_fmap. setoid_rewrite list_elem_of_In. setoid_rewrite filter_In.
  setoid_rewrite <-list_elem_of_In. setoid_rewrite elem_of_peer_list. naive_solver.
Qed.

(** What an admission is. *)
Lemma admit_spec a out m :
  match Manager_admit a out m with
  | (Err _, m') => m' = m
  | (Ok ds, m') =>
      pa_id a ≠ ours m ∧ peers m !! pa_id a = None
      ∧ (if out then ds = [] ∧ (outbound_count m < max_outbound (limits m))%nat ∧ group a ∉ outbound_groups m
           ∧ m' = set_peers (<[pa_id a := Connected_new m a true]> (peers m)) (set_book (mark_good (pa_id a) (book_add a (group a) (book m)).1) m)
         else (ds = [] ∧ (inbound_count m < max_inbound (limits m))%nat
               ∧ m' = set_peers (<[pa_id a := Connected_new m a false]> (peers m)) m)
              ∨ (∃ v, ds = [Disconnect v "evicted to make room"] ∧ eviction_candidate m = Some v
                 ∧ m' = set_peers (<[pa_id a := Connected_new m a false]> (delete v (peers m))) m))
  end.
Proof.
  unfold Manager_admit. case_bool_decide; [done|]. destruct (is_banned m (pa_id a)); [done|]. case_bool_decide as Hd; [done|].
  apply eq_None_not_Some in Hd. destruct out.
  - destruct (_ <=? _)%nat eqn:E; [done|]. apply Nat.leb_gt in E. case_bool_decide; [done|]. done.
  - destruct (_ <=? _)%nat eqn:E.
    + destruct (eviction_candidate m) as [v|]; [|done]. simpl. split_and!; [done..|]. right. exists v. done.
    + apply Nat.leb_gt in E. split_and!; [done..|]. left. done.
Qed.

Lemma outbound_count_eq m : outbound_count m = count_peers outbound (peers m).
Proof. done. Qed.
Lemma inbound_count_eq m : inbound_count m = count_peers (λ p, negb (outbound p)) (peers m).
Proof. done. Qed.

Lemma peers_inv_connect us (l : Limits) ps id p :
  peers_inv us l ps → ps !! id = None → pa_id (cn_addr p) = id → id ≠ us → Reputation_is_banned (reputation p) = false →
  awaiting_block p = None →
  (if outbound p then (count_peers outbound ps < max_outbound l)%nat
     ∧ ∀ i q, ps !! i = Some q → outbound q = true → group (cn_addr q) ≠ group (cn_addr p)
   else (count_peers (λ p, negb (outbound p)) ps < max_inbound l)%nat) →
  peers_inv us l (<[id := p]> ps).
Proof.
  intros [Hid Hg Ho Hi Hf Hw] Hnone Hpid Hus Hrep Haw Hroom. split.
  - intros i q [[<- <-]|[_ Hq]]%lookup_insert_Some; eauto.
  - intros i j q r [[<- <-]|[? Hq]]%lookup_insert_Some [[<- <-]|[? Hr]]%lookup_insert_Some Hqo Hro Hgr; [done| | |eauto].
    + rewrite Hqo in Hroom. destruct Hroom as [_ Hroom]. by destruct (Hroom _ _ Hr Hro).
    + rewrite Hro in Hroom. destruct Hroom as [_ Hroom]. by destruct (Hroom _ _ Hq Hqo).
  - rewrite count_peers_insert by done. destruct (outbound p); lia.
  - rewrite count_peers_insert by done. destruct (outbound p); simpl; lia.
  - rewrite count_peers_insert by done. unfold awaits at 2. rewrite Haw, bool_decide_eq_false_2 by (by intros []). lia.
  - intros i j q r hh [[<- <-]|[? Hq]]%lookup_insert_Some [[<- <-]|[? Hr]]%lookup_insert_Some; [done|congruence..|eauto].
Qed.

Lemma peers_inv_admit a out m : peers_inv (ours m) (limits m) (peers m) → peers_inv (ours m) (limits m) (peers (Manager_admit a out m).2).
Proof.
  intros Hm. pose proof (admit_spec a out m) as H. destruct (Manager_admit a out m) as [[ds|e] m']; [|by subst m'].
  destruct H as (Hus & Hnone & H). destruct out.
  - destruct H as (-> & Hc & Hg & ->). apply peers_inv_connect; simpl; try done. split; [done|].
    intros i q Hq Hqo Heq. apply Hg, is_outbound_group. eauto.
  - destruct H as [(-> & Hc & ->)|(v & -> & Hv & ->)]; simpl; [by apply peers_inv_connect|].
    pose proof (eviction_candidate_spec m) as Hs'. rewrite Hv in Hs'. destruct Hs' as (p & Hp & Ho & _).
    apply peers_inv_connect; simpl; try done; [by apply peers_inv_delete|by apply lookup_delete_None; right|].
    pose proof (pi_in _ _ _ Hm) as Hi. rewrite (count_peers_delete _ _ _ _ Hp), Ho in Hi. simpl in Hi. lia.
Qed.

(** * The blocks held back *)

Definition staged_inv h (st : gmap Z (PeerId * SyncBlock)) : Prop :=
  (size st ≤ MAX_STAGED_BLOCKS)%nat ∧ ∀ k v, st !! k = Some v → h ≤ k ∧ sb_height v.2 = k.

(** Blocks of consecutive heights from [h]; [h'] is the next. *)
Fixpoint consecutive h (l : list (PeerId * SyncBlock)) (h' : Height) : Prop :=
  match l with
  | [] => h' = h
  | x :: l => sb_height x.2 = h ∧ consecutive (Height_next h) l h'
  end.
Definition apply_directive (x : PeerId * SyncBlock) : Directive := ApplyBlock x.1 x.2.

Lemma staged_inv_subseteq h st st' : st' ⊆ st → staged_inv h st → staged_inv h st'.
Proof.
  intros Hsub [Hs1 Hk]. split; [etrans; [by apply map_subseteq_size|done]|].
  intros k v Hv. apply Hk. by eapply lookup_weaken.
Qed.

Lemma drain_loop_spec fuel : ∀ m out m', drain_loop fuel m = (out, m') → staged_inv (m_height m) (staged m) →
  ∃ h' st' l, m' = set_sync h' st' m ∧ st' ⊆ staged m ∧ staged_inv h' st' ∧ out = apply_directive <$> l
    ∧ consecutive (m_height m) l h' ∧ (∀ x, x ∈ l → staged m !! sb_height x.2 = Some x)
    ∧ ((size (staged m) < fuel)%nat → st' !! h' = None).
Proof.
  induction fuel as [|fuel IH]; intros m out m' H Hinv; simpl in H.
  { injection H as <- <-. exists (m_height m), (staged m), []. split_and!; try done; [by destruct m|by intros ? ?%not_elem_of_nil|lia]. }
  destruct (staged m !! m_height m) as [[from s]|] eqn:Hst.
  - destruct (drain_loop fuel _) as [out0 m0] eqn:Hd. injection H as <- <-. destruct Hinv as [Hsz Hk]. destruct (Hk _ _ Hst) as [_ Hsh]. simpl in Hsh.
    apply IH in Hd as (h' & st' & l & -> & Hsub & Hi & -> & Hc & Hl & Hend); cbn [set_sync staged m_height ours] in *.
    + exists h', st', ((from, s) :: l). split_and!; [done|by etrans; [|apply delete_subseteq]|done|done|done| |].
      * intros x [->|Hx]%elem_of_cons; [cbn [snd]; by rewrite Hsh|]. apply Hl in Hx. by apply lookup_delete_Some in Hx as [_ ?].
      * intros Hlt. apply Hend. rewrite map_size_delete_Some by eauto. assert (size (staged m) ≠ 0%nat) by (eapply map_size_ne_0_lookup_2; eauto). lia.
    + split; [etrans; [apply map_subseteq_size, delete_subseteq|done]|]. intros k v [Hne Hv]%lookup_delete_Some.
      destruct (Hk _ _ Hv). split; [|done]. unfold Height_next, saturating_add. lia.
  - injection H as <- <-. exists (m_height m), (staged m), []. split_and!; try done; [by destruct m|by intros ? ?%not_elem_of_nil].
Qed.

(** * Requests *)

(** What a peer was asked, or still might answer. *)
Definition asked_of (p : Connected) h : Prop := awaiting_block p = Some h ∨ abandoned p = Some h.

Lemma free_peer_free m ids h target : free_peer_holding m ids h = Some target →
  ∃ p t, peers m !! target = Some p ∧ awaiting_block p = None ∧ tip p = Some t ∧ h ≤ t.
Proof.
  unfold free_peer_holding. induction (seq 0 _) as [|o l IH]; [done|]. simpl. destruct (rotate _ _ _) as [id|]; [|done].
  destruct (peers m !! id) as [p|] eqn:Hp; [|done]. destruct (awaiting_block p) eqn:Ha; [done|].
  destruct (tip p) as [t|] eqn:Ht; [|done]. destruct (h <=? t) eqn:E; [|done]. intros [= <-]. exists p, t. split_and!; [done..|lia].
Qed.

Lemma awaits_ask h p : awaits (ask h p) = true.
Proof. done. Qed.
Lemma awaits_None p : awaiting_block p = None → awaits p = false.
Proof. unfold awaits. intros ->. apply bool_decide_eq_false_2. by intros []. Qed.

Lemma peers_inv_ask us l ps id p h :
  peers_inv us l ps → ps !! id = Some p → awaiting_block p = None → (count_peers awaits ps < MAX_BLOCKS_IN_FLIGHT)%nat →
  (∀ i q, ps !! i = Some q → awaiting_block q ≠ Some h) → peers_inv us l (<[id := ask h p]> ps).
Proof.
  intros [Hid Hg Ho Hi Hf Hw] Hp Haw Hc Hfree.
  assert (count_peers awaits (<[id := ask h p]> ps) = S (count_peers awaits ps)) as Hcnt.
  { pose proof (count_peers_update awaits ps id p (ask h p) Hp) as H. rewrite awaits_ask, (awaits_None p) in H by done. lia. }
  assert (∀ P : Connected → bool, P (ask h p) = P p → count_peers P (<[id := ask h p]> ps) = count_peers P ps) as Hsame.
  { intros P HP. pose proof (count_peers_update P ps id p (ask h p) Hp) as H. rewrite HP in H. lia. }
  split; [| |rewrite Hsame by done; done|rewrite Hsame by done; done|lia|].
  - intros i q [[<- <-]|[_ Hq]]%lookup_insert_Some; [simpl; by apply Hid|eauto].
  - intros i j q r [[<- <-]|[? Hq]]%lookup_insert_Some [[<- <-]|[? Hr]]%lookup_insert_Some; simpl; eauto.
  - intros i j q r hh [[<- <-]|[? Hq]]%lookup_insert_Some [[<- <-]|[? Hr]]%lookup_insert_Some; simpl; [done| | |eauto].
    + intros [= <-] Hx. by apply Hfree in Hr.
    + intros Hx [= <-]. by apply Hfree in Hq.
Qed.

Lemma sync_loop_spec fuel ids top : ∀ n claimed want m out m',
  sync_loop fuel ids top n claimed want m = (out, m') → peers_inv (ours m) (limits m) (peers m) →
  count_peers awaits (peers m) = n → (∀ i q h, peers m !! i = Some q → awaiting_block q = Some h → h ∈ claimed) →
  ∃ ps', m' = set_peers ps' m ∧ peers_inv (ours m) (limits m) ps'
    ∧ (∀ d, d ∈ out → ∃ id h, d = DSend id (GetBlock h))
    ∧ (∀ id p', ps' !! id = Some p' → ∃ p, peers m !! id = Some p ∧ ∀ h, asked_of p' h → asked_of p h ∨ DSend id (GetBlock h) ∈ out).
Proof.
  induction fuel as [|fuel IH]; intros n claimed want m out m' H Hinv Hn Hcl; simpl in H.
  { injection H as <- <-. exists (peers m). split_and!; [by destruct m|done|by intros ? ?%not_elem_of_nil|eauto]. }
  destruct (_ && _) eqn:E.
  2:{ injection H as <- <-. exists (peers m). split_and!; [by destruct m|done|by intros ? ?%not_elem_of_nil|eauto]. }
  apply andb_true_iff in E as [Hlt%Nat.ltb_lt _]. case_bool_decide as Hc; [by eapply IH|].
  destruct (free_peer_holding m ids want) as [target|] eqn:Hfree.
  2:{ injection H as <- <-. exists (peers m). split_and!; [by destruct m|done|by intros ? ?%not_elem_of_nil|eauto]. }
  destruct (free_peer_free _ _ _ _ Hfree) as (p & t & Hp & Haw & _).
  destruct (sync_loop fuel _ _ _ _ _ _) as [out0 m0] eqn:Hl. injection H as <- <-.
  rewrite alter_alt, Hp in Hl. set (ps1 := <[target := ask want p]> (peers m)) in *.
  assert (peers_inv (ours m) (limits m) ps1) as Hinv1.
  { apply peers_inv_ask; [done|done|done|lia|]. intros i q Hq Hw. by eapply Hc, Hcl. }
  apply IH in Hl as (ps' & -> & Hinv' & Hout & Hps); cbn [set_peers ours limits peers] in *; [|done|..].
  - exists ps'. split_and!; [done..| |].
    + intros d [->|Hd]%elem_of_cons; eauto.
    + intros id p' (p1 & Hp1 & Has)%Hps. apply lookup_insert_Some in Hp1 as [[<- <-]|[_ Hp1]].
      * exists p. split; [done|]. intros h [Hh|Hh]%Has; [|right; by right]. destruct Hh as [[= ->]|Hh]; [right; left|left; by right].
      * exists p1. split; [done|]. intros h [?|?]%Has; [by left|right; by right].
  - pose proof (count_peers_update awaits (peers m) target p (ask want p) Hp) as H. rewrite awaits_ask, (awaits_None p) in H by done. fold ps1 in H. lia.
  - intros i q h [[<- <-]|[_ Hq]]%lookup_insert_Some; simpl; [intros [= ->]; left|]. intros Hw. right. eauto.
Qed.

Lemma schedule_sync_spec ids m out m' :
  schedule_sync ids m = (out, m') → peers_inv (ours m) (limits m) (peers m) →
  ∃ ps', m' = set_peers ps' m ∧ peers_inv (ours m) (limits m) ps'
    ∧ (∀ d, d ∈ out → ∃ id h, d = DSend id (GetBlock h))
    ∧ (∀ id p', ps' !! id = Some p' → ∃ p, peers m !! id = Some p ∧ ∀ h, asked_of p' h → asked_of p h ∨ DSend id (GetBlock h) ∈ out).
Proof.
  unfold schedule_sync. intros H Hinv.
  assert (([] : list Directive, m) = (out, m') → ∃ ps', m' = set_peers ps' m ∧ peers_inv (ours m) (limits m) ps'
    ∧ (∀ d, d ∈ out → ∃ id h, d = DSend id (GetBlock h))
    ∧ (∀ id p', ps' !! id = Some p' → ∃ p, peers m !! id = Some p ∧ ∀ h, asked_of p' h → asked_of p h ∨ DSend id (GetBlock h) ∈ out)) as Hno.
  { intros [= <- <-]. exists (peers m). split_and!; [by destruct m|done|by intros ? ?%not_elem_of_nil|eauto]. }
  destruct (best_peer_height m) as [best|]; [|auto]. destruct (best <? m_height m); [auto|].
  eapply sync_loop_spec; [exact H|done|by rewrite in_flight_count_eq|].
  intros i q h Hq Hw. unfold claimed_heights. apply elem_of_app. left. apply list_elem_of_omap. exists q. split; [|done]. apply elem_of_peer_list. eauto.
Qed.

(** * The seen-set *)

(** The newest [n] of a list. *)
Definition newest_of {A} (n : nat) (l : list A) : list A := drop (length l - n) l.

(** [log]: every identifier ever accepted, oldest first. *)
Record seen_inv (log : list Hash32) (s : Seen) : Prop := {
  sv_cap : (0 < cap s)%nat;
  sv_order : order s = newest_of (cap s) log;
  sv_nodup : NoDup (order s);
  sv_ids : ∀ id, id ∈ seen_ids s ↔ id ∈ order s;
}.

Lemma trim_short cap o ids : (length o ≤ cap)%nat → trim cap o ids = (o, ids).
Proof. destruct o; [done|]. intros H. simpl. rewrite (proj2 (Nat.ltb_ge _ _)); [done|]. simpl in H. lia. Qed.

(** An identifier is new exactly when it is not among the last [cap] accepted. *)
Lemma seen_insert_spec log id s : seen_inv log s →
  match seen_insert id s with
  | (true, s') => id ∉ newest_of (cap s) log ∧ seen_inv (log ++ [id]) s' ∧ cap s' = cap s
  | (false, s') => id ∈ newest_of (cap s) log ∧ s' = s
  end.
Proof.
  intros [Hc Ho Hn Hi]. unfold seen_insert. case_bool_decide as Hid.
  { split; [|done]. by rewrite <-Ho, <-Hi. }
  rewrite Hi in Hid. assert (length (order s) = length log `min` cap s)%nat as Hlen.
  { rewrite Ho. unfold newest_of. rewrite length_drop. lia. }
  assert (NoDup (order s ++ [id])) as Hnd by (apply NoDup_app; split_and!; [done|set_solver|apply NoDup_singleton]).
  destruct (decide (length (order s) < cap s)%nat) as [Hlt|Hge].
  - rewrite trim_short by (rewrite length_app; simpl; lia). rewrite <-Ho. split_and!; [done| |done].
    split; cbn [cap order seen_ids]; [done| |done|set_solver].
    rewrite Ho. unfold newest_of. rewrite length_app. simpl. rewrite !(proj2 (Nat.sub_0_le _ _)) by lia. by rewrite !drop_0.
  - destruct (order s) as [|x o] eqn:Hox; [simpl in *; lia|]. simpl app. cbn [trim].
    rewrite (proj2 (Nat.ltb_lt _ _)) by (simpl; rewrite length_app; simpl in *; lia).
    rewrite trim_short by (rewrite length_app; simpl in *; lia). rewrite <-Ho. split_and!; [done| |done].
    simpl in Hnd. apply NoDup_cons in Hnd as [Hx Hnd].
    split; cbn [cap order seen_ids]; [done| |done|].
    + unfold newest_of in *. rewrite length_app. cbn [length].
      replace (length log + 1 - cap s)%nat with (length log - cap s + 1)%nat by (simpl in *; lia).
      rewrite drop_app_le by (simpl in *; lia). f_equal. by rewrite <-drop_drop, <-Ho.
    + intros y. rewrite elem_of_difference, elem_of_union, !elem_of_singleton, Hi, elem_of_app, list_elem_of_singleton, elem_of_cons.
      split; [naive_solver|]. intros [Hy| ->]; (split; [auto|]); intros ->; apply Hx; rewrite elem_of_app; [auto|right; left].
Qed.

(** * The invariant of a run *)

(** [es] is what has happened, [out] what was told to the transport. *)
Record run_inv us key l (es : list ManagerEvent) (out : list Directive) m : Prop := {
  ri_us : ours m = us;
  ri_limits : limits m = l;
  ri_peers : peers_inv us l (peers m);
  ri_staged : staged_inv (m_height m) (staged m);
  ri_seen : ∃ log, seen_inv log (seen m);
  ri_cap : cap (seen m) = (seen_capacity l `max` 1)%nat;
  ri_book : ∃ ops, book m = book_run ops (AddrBook_new key) ∧ ∀ id, OpGood id ∈ ops → ∃ a, pa_id a = id ∧ MOutbound a ∈ es;
  ri_asked : ∀ id p h, peers m !! id = Some p → asked_of p h → DSend id (GetBlock h) ∈ out;
  ri_held : ∀ k from s, staged m !! k = Some (from, s) → DSend from (GetBlock k) ∈ out ∧ ∃ n, MMessage from (PMBlock s) n ∈ es;
}.

Lemma run_inv_new us key l : run_inv us key l [] [] (Manager_new us (AddrBook_new key) l).
Proof.
  split; simpl; try done.
  - split; simpl; intros *; rewrite ?lookup_empty, ?count_peers_size, ?omap_empty, ?map_size_empty; try done; unfold MAX_BLOCKS_IN_FLIGHT; lia.
  - split; [rewrite map_size_empty; unfold MAX_STAGED_BLOCKS; lia|]. intros k v. by rewrite lookup_empty.
  - exists []. split; simpl; [lia|done|constructor|set_solver].
  - exists []. split; [done|]. by intros id ?%not_elem_of_nil.
Qed.

Lemma run_inv_mono us key l es es' out out' m :
  run_inv us key l es out m → run_inv us key l (es ++ es') (out ++ out') m.
Proof.
  intros []. split; try done.
  - destruct ri_book0 as (ops & ? & Hg). exists ops. split; [done|]. intros id (a & ? & ?)%Hg. exists a. rewrite elem_of_app. auto.
  - intros. rewrite elem_of_app. eauto.
  - intros k from s (? & n & ?)%ri_held0. rewrite elem_of_app. split; [auto|]. exists n. rewrite elem_of_app. auto.
Qed.

(** A record that asks nothing it did not ask before. *)
Definition tame (p p' : Connected) : Prop := softer p p' ∧ ∀ h, asked_of p' h → asked_of p h.
Lemma tame_refl p : tame p p.
Proof. split; [apply softer_refl|auto]. Qed.

Lemma run_inv_peers us key l es out m ps' :
  run_inv us key l es out m → peers_inv us l ps' →
  (∀ id p' h, ps' !! id = Some p' → asked_of p' h → DSend id (GetBlock h) ∈ out) → run_inv us key l es out (set_peers ps' m).
Proof. intros []. by split. Qed.

Lemma run_inv_tame us key l es out m ps' :
  run_inv us key l es out m → (∀ id p', ps' !! id = Some p' → ∃ p, peers m !! id = Some p ∧ tame p p') → run_inv us key l es out (set_peers ps' m).
Proof.
  intros Hm Ht. apply run_inv_peers; [done| |].
  - eapply peers_inv_softer; [|apply Hm]. intros id p' (p & ? & ? & _)%Ht. eauto.
  - intros id p' h (p & Hp & _ & Ha)%Ht Hh. eapply Hm; eauto.
Qed.
Lemma run_inv_update us key l es out m id p p' :
  run_inv us key l es out m → peers m !! id = Some p → tame p p' → run_inv us key l es out (set_peers (<[id := p']> (peers m)) m).
Proof. intros Hm Hp Ht. apply run_inv_tame; [done|]. intros i q [[<- <-]|[_ Hq]]%lookup_insert_Some; eauto using tame_refl. Qed.
Lemma run_inv_alter us key l es out m id f :
  run_inv us key l es out m → (∀ p, tame p (f p)) → run_inv us key l es out (set_peers (alter f id (peers m)) m).
Proof.
  intros Hm Hf. rewrite alter_alt. destruct (peers m !! id) eqn:E; [by eapply run_inv_update|by destruct m].
Qed.
Lemma run_inv_fmap us key l es out m f :
  run_inv us key l es out m → (∀ p, tame p (f p)) → run_inv us key l es out (set_peers (f <$> peers m) m).
Proof. intros Hm Hf. apply run_inv_tame; [done|]. intros i q. rewrite lookup_fmap, fmap_Some. intros (p & ? & ->). eauto. Qed.
Lemma run_inv_delete us key l es out m id : run_inv us key l es out m → run_inv us key l es out (set_peers (delete id (peers m)) m).
Proof. intros Hm. apply run_inv_tame; [done|]. intros i p [_ ?]%lookup_delete_Some. eauto using tame_refl. Qed.

Ltac by_fields := let H := fresh in intros H; destruct H; by split.
Lemma run_inv_banned us key l es out m x : run_inv us key l es out m → run_inv us key l es out (set_banned x m).
Proof. by_fields. Qed.
Lemma run_inv_anchors us key l es out m x : run_inv us key l es out m → run_inv us key l es out (set_anchors x m).
Proof. by_fields. Qed.
Lemma run_inv_cursor us key l es out m x : run_inv us key l es out m → run_inv us key l es out (set_cursor x m).
Proof. by_fields. Qed.
Lemma run_inv_uptime us key l es out m x : run_inv us key l es out m → run_inv us key l es out (set_uptime x m).
Proof. by_fields. Qed.

(** The book after further operations, none of them a handshake that was not dialled. *)
Lemma run_inv_book us key l es out m ops :
  run_inv us key l es out m → (∀ id, OpGood id ∈ ops → ∃ a, pa_id a = id ∧ MOutbound a ∈ es) →
  run_inv us key l es out (set_book (book_run ops (book m)) m).
Proof.
  intros [] Hops. split; try done. cbn [set_book book]. destruct ri_book0 as (ops0 & Hb & Hg). exists (ops0 ++ ops). split.
  - rewrite Hb. unfold book_run. by rewrite foldl_app.
  - intros id [?|?]%elem_of_app; auto.
Qed.

(** The blocks kept change. *)
Lemma run_inv_sync us key l es out m h st :
  run_inv us key l es out m → staged_inv h st →
  (∀ k from s, st !! k = Some (from, s) → DSend from (GetBlock k) ∈ out ∧ ∃ n, MMessage from (PMBlock s) n ∈ es) →
  run_inv us key l es out (set_sync h st m).
Proof. intros [] ? ?. by split. Qed.

(** * What a step applies *)

Definition applied (out : list Directive) : list (PeerId * SyncBlock) :=
  omap (λ d, match d with ApplyBlock from s => Some (from, s) | _ => None end) out.
(** The blocks a step applies were asked for, came from the peer asked, and follow on. *)
Definition applies us key l es out (h h' : Height) (o : list Directive) m' : Prop :=
  run_inv us key l es (out ++ o) m'
  ∧ consecutive h (applied o) h'
  ∧ ∀ from s, (from, s) ∈ applied o → DSend from (GetBlock (sb_height s)) ∈ out ∧ ∃ n, MMessage from (PMBlock s) n ∈ es.

Lemma applies_none us key l es out o m' h :
  run_inv us key l es (out ++ o) m' → applied o = [] → applies us key l es out h h o m'.
Proof. intros H Ho. split; [done|]. rewrite Ho. split; [done|]. by intros ? ? ?%not_elem_of_nil. Qed.

Lemma applied_app o o' : applied (o ++ o') = applied o ++ applied o'.
Proof. apply omap_app. Qed.
Lemma applied_directives l : applied (apply_directive <$> l) = l.
Proof. unfold applied. induction l as [|[f s] l IH]; [done|]. cbn. by rewrite IH. Qed.

Lemma penalise_applies us key l es out from what m o m' :
  run_inv us key l es out m → penalise from what m = (o, m') → applies us key l es out (m_height m) (m_height m') o m'.
Proof.
  intros Hm. unfold penalise. destruct (peers m !! from) as [p|] eqn:Hp.
  2:{ intros [= <- <-]. apply applies_none; [by rewrite app_nil_r|done]. }
  destruct (Reputation_is_banned _) eqn:Hb; intros [= <- <-].
  - apply (applies_none _ _ _ _ _ _ _ (m_height m)); [|done]. rewrite <-(app_nil_r es). apply run_inv_mono.
    apply (run_inv_delete _ _ _ _ _ (set_banned _ m)), run_inv_banned, Hm.
  - apply (applies_none _ _ _ _ _ _ _ (m_height m)); [|done]. rewrite app_nil_r. eapply run_inv_update; [done..|].
    split; [|done]. unfold softer. auto.
Qed.

Lemma drain_applies us key l es out m o m' :
  run_inv us key l es out m → drain_staged m = (o, m') → applies us key l es out (m_height m) (m_height m') o m' ∧ staged m' !! m_height m' = None.
Proof.
  intros Hm Hd. apply drain_loop_spec in Hd as (h' & st' & bl & -> & Hsub & Hi & -> & Hc & Hl & Hend); [|apply Hm].
  split; [|apply Hend; lia]. split; [|split].
  - rewrite <-(app_nil_r es). apply run_inv_mono, run_inv_sync; [done..|]. intros k from s Hk. eapply Hm, lookup_weaken; eauto.
  - by rewrite applied_directives.
  - intros from s. rewrite applied_directives. intros Hx%Hl. eapply Hm; eauto.
Qed.

(** * The steps *)

Lemma tame_budgets x y p : tame p (with_budgets x y p).
Proof. split; [|done]. unfold softer. auto. Qed.
Lemma tame_awaiting_addrs w p : tame p (with_awaiting_addrs w p).
Proof. split; [|done]. unfold softer. auto. Qed.
Lemma tame_tip t p : tame p (with_tip t p).
Proof. split; [|done]. unfold softer. auto. Qed.
Lemma tame_age p : tame p (age_request p).
Proof.
  unfold age_request. destruct (awaiting_block p) as [h|] eqn:E; [|apply tame_refl]. destruct (_ <=? _).
  - split; [unfold softer; simpl; auto|]. unfold asked_of. simpl. intros k [?|[= ->]]; [done|auto].
  - split; [unfold softer; simpl; rewrite E; auto|]. unfold asked_of. simpl. rewrite E. auto.
Qed.

Lemma learn_addrs_run us src l b : ∃ ops, learn_addrs us src l b = book_run ops b ∧ ∀ id, OpGood id ∉ ops.
Proof.
  revert b. induction l as [|a l IH]; intros b; [exists []; split; [done|intros ? []%not_elem_of_nil]|].
  cbn [learn_addrs foldl]. case_bool_decide; [apply IH|]. destruct (IH (book_add a src b).1) as (ops & Heq & Hno).
  exists (OpAdd a src :: ops). split; [done|]. intros id [?|?]%elem_of_cons; [done|by eapply Hno].
Qed.

Lemma on_addrs_applies us key l es out from la m o m' :
  run_inv us key l es out m → on_addrs from la m = (o, m') → applies us key l es out (m_height m) (m_height m') o m'.
Proof.
  intros Hm. unfold on_addrs. destruct (peers m !! from) as [p|] eqn:Hp.
  2:{ intros [= <- <-]. apply applies_none; [by rewrite app_nil_r|done]. }
  destruct (negb _); [by apply penalise_applies|]. intros [= <- <-].
  apply (applies_none _ _ _ _ _ _ _ (m_height m)); [|done]. rewrite app_nil_r.
  destruct (learn_addrs_run (ours m) (group (cn_addr p)) la (book m)) as (ops & Heq & Hno).
  cbn [ours book set_peers]. rewrite Heq. apply (run_inv_book _ _ _ _ _ (set_peers _ m)); [|by intros id ?%Hno].
  eapply run_inv_update; [done..|apply tame_awaiting_addrs].
Qed.

Lemma on_block_applies us key l es out from s m o m' :
  run_inv us key l es out m → (∃ n, MMessage from (PMBlock s) n ∈ es) → on_block from s m = (o, m') →
  applies us key l es out (m_height m) (m_height m') o m'.
Proof.
  intros Hm He. unfold on_block. destruct (peers m !! from) as [p|] eqn:Hp.
  2:{ intros [= <- <-]. apply applies_none; [by rewrite app_nil_r|done]. }
  destruct (negb _ && negb _) eqn:Hex; [by apply penalise_applies|].
  assert (DSend from (GetBlock (sb_height s)) ∈ out) as Hasked.
  { apply andb_false_iff in Hex. rewrite !negb_false_iff, !bool_decide_eq_true in Hex. eapply Hm; [exact Hp|]. unfold asked_of. tauto. }
  set (p1 := with_tip _ _). set (m1 := set_peers _ m).
  assert (run_inv us key l es out m1) as Hm1.
  { eapply run_inv_update; [done..|]. split; [unfold softer; simpl; auto|]. unfold asked_of. simpl.
    intros h [?|Hab]; [done|]. right. by case_bool_decide. }
  cbn [m_height m1 set_peers staged].
  destruct (_ <? _) eqn:Hlt.
  { intros [= <- <-]. apply (applies_none _ _ _ _ _ _ _ (m_height m)); [by rewrite app_nil_r|done]. }
  destruct (_ <=? size _)%nat eqn:Hsz; [|apply Nat.leb_gt in Hsz].
  { intros [= <- <-]. apply (applies_none _ _ _ _ _ _ _ (m_height m)); [by rewrite app_nil_r|done]. }
  intros Hd. eapply (drain_applies us key l es out) in Hd as [H _]; [exact H|]. apply run_inv_sync; [done| |].
  - destruct (ri_staged _ _ _ _ _ _ Hm) as [_ Hk]. split.
    + rewrite map_size_insert. destruct (staged m !! _); simpl; lia.
    + intros k v [[<- <-]|[_ Hv]]%lookup_insert_Some; [|eauto]. apply Z.ltb_ge in Hlt. done.
  - intros k f s' [[<- [= <- <-]]|[_ Hv]]%lookup_insert_Some; [done|]. eapply Hm; eauto.
Qed.

Lemma on_no_block_applies us key l es out from h m o m' :
  run_inv us key l es out m → on_no_block from h m = (o, m') → applies us key l es out (m_height m) (m_height m') o m'.
Proof.
  intros Hm. unfold on_no_block. assert (applies us key l es out (m_height m) (m_height m) [] m) as Hno.
  { apply applies_none; [by rewrite app_nil_r|done]. }
  destruct (peers m !! from) as [p|] eqn:Hp; [|intros [= <- <-]; done]. case_bool_decide as Hw; intros [= <- <-]; [|done].
  apply (applies_none _ _ _ _ _ _ _ (m_height m)); [|done]. rewrite app_nil_r. eapply run_inv_update; [done..|].
  split; [unfold softer; simpl; auto|]. unfold asked_of. simpl. intros k [?|?]; [done|auto].
Qed.

Lemma handle_message_applies us key l es out from msg m o m' :
  run_inv us key l es out m → (∃ n, MMessage from msg n ∈ es) → handle_message from msg m = (o, m') →
  applies us key l es out (m_height m) (m_height m') o m'.
Proof.
  intros Hm He. assert (∀ o', applied o' = [] → applies us key l es out (m_height m) (m_height m) o' m) as Hno.
  { intros o' Ho'. apply applies_none; [|done]. rewrite <-(app_nil_r es). by apply run_inv_mono. }
  unfold handle_message. destruct msg.
  1-4,6-7,9: intros [= <- <-]; apply Hno; by repeat case_match.
  - by apply on_addrs_applies.
  - intros [= <- <-]. apply (applies_none _ _ _ _ _ _ _ (m_height m)); [|done]. rewrite app_nil_r. apply run_inv_alter; [done|apply tame_tip].
  - by apply on_block_applies.
  - by apply on_no_block_applies.
Qed.

Lemma on_message_applies us key l es out from msg n m o m' :
  run_inv us key l es out m → MMessage from msg n ∈ es → on_message_sized from msg n m = (o, m') →
  applies us key l es out (m_height m) (m_height m') o m'.
Proof.
  intros Hm He. unfold on_message_sized. destruct (peers m !! from) as [p|] eqn:Hp.
  2:{ intros [= <- <-]. apply applies_none; [by rewrite app_nil_r|done]. }
  destruct (take_tokens 1 _) as [ok1 ms]. destruct (if ok1 then _ else _) as [ok2 bs_].
  set (m1 := set_peers _ m). assert (run_inv us key l es out m1) as Hm1 by (eapply run_inv_update; [done..|apply tame_budgets]).
  change (m_height m) with (m_height m1). destruct (negb ok1 || negb ok2); [by apply penalise_applies|].
  destruct (gossip_id msg) as [g|]; [|by apply handle_message_applies; [|eauto]].
  destruct (seen_insert g (seen m1)) as [fresh sn] eqn:Hsi. set (m2 := set_seen sn m1).
  assert (run_inv us key l es out m2) as Hm2.
  { destruct Hm1. destruct ri_seen0 as [log Hlog]. pose proof (seen_insert_spec _ g _ Hlog) as Hsp. rewrite Hsi in Hsp.
    split; try done; cbn [m2 set_seen seen]; destruct fresh; [exists (log ++ [g]); apply Hsp|destruct Hsp as [_ ->]; eauto|by destruct Hsp as (_ & _ & ->)|by destruct Hsp as [_ ->]]. }
  change (m_height m1) with (m_height m2). destruct fresh; [by apply handle_message_applies; [|eauto]|].
  intros [= <- <-]. apply applies_none; [by rewrite app_nil_r|done].
Qed.

Lemma on_tick_applies us key l es out d m o m' :
  run_inv us key l es out m → on_tick d m = (o, m') →
  applies us key l es out (m_height m) (m_height m') o m' ∧ (peers m' ≠ ∅ → staged m' !! m_height m' = None).
Proof.
  intros Hm. unfold on_tick. set (m1 := set_uptime _ m). set (m2 := set_banned _ m1). set (m3 := set_peers _ m2). set (m4 := set_cursor _ m3).
  assert (run_inv us key l es out m4) as Hm4.
  { apply run_inv_cursor, (run_inv_fmap _ _ _ _ _ m2); [by apply run_inv_banned, run_inv_uptime|]. intros p. apply tame_budgets. }
  change (m_height m) with (m_height m4). clearbody m4. clear m1 m2 m3 Hm m.
  destruct ((sorted_entries (peers m4)).*1) as [|i0 ids'] eqn:Hids.
  { intros [= <- <-]. split; [apply applies_none; [by rewrite app_nil_r|done]|]. intros Hne. exfalso. apply Hne, map_empty. intros i.
    apply eq_None_not_Some. intros [p Hp%elem_of_sorted_entries]. apply (list_elem_of_fmap_2 fst) in Hp. rewrite Hids in Hp. by apply not_elem_of_nil in Hp. }
  set (ids := i0 :: ids') in *. clearbody ids. clear i0 ids' Hids. set (m5 := set_peers _ m4).
  assert (run_inv us key l es out m5) as Hm5 by (apply run_inv_fmap; [done|apply tame_age]).
  change (m_height m4) with (m_height m5). clearbody m5. clear Hm4 m4.
  destruct (match rotate m5 ids 0 with Some _ => _ | None => _ end) as [asked m6] eqn:Hrot.
  assert (run_inv us key l es out m6 ∧ applied asked = [] ∧ m_height m6 = m_height m5) as (Hm6 & Has & Hh6).
  { destruct (rotate m5 ids 0); injection Hrot as <- <-; [|done]. split_and!; [|done..]. apply run_inv_alter; [done|apply tame_awaiting_addrs]. }
  destruct (drain_staged m6) as [drained m7] eqn:Hd. destruct (drain_applies _ _ _ _ _ _ _ _ Hm6 Hd) as [(Hm7 & Hc & Hl) Hnone].
  destruct (schedule_sync ids m7) as [reqs m8] eqn:Hsy. intros [= <- <-].
  pose proof Hm7 as Hm7'. destruct Hm7' as [Hus Hlim Hpe _ _ _ _ _ _].
  apply schedule_sync_spec in Hsy as (ps' & -> & Hinv & Hout & Hps); [|by rewrite Hus, Hlim].
  assert (applied reqs = []) as Hreqs.
  { unfold applied. clear -Hout. induction reqs as [|x reqs IH]; [done|]. destruct (Hout x) as (id & h & ->); [left|]. cbn. apply IH. intros y Hy. apply Hout. by right. }
  assert (applied (Broadcast (PMStatus (committed_tip m5)) :: asked ++ drained ++ reqs) = applied drained) as Happ.
  { change (applied (asked ++ drained ++ reqs) = applied drained). by rewrite !applied_app, Has, Hreqs, app_nil_r. }
  split; [split; [|rewrite Happ; split]|].
  - rewrite Hus, Hlim in Hinv. apply run_inv_peers; [|done|].
    + replace (out ++ _) with ((out ++ [Broadcast (PMStatus (committed_tip m5))] ++ asked ++ drained ++ reqs)) by done.
      destruct Hm7. split; try done.
      * intros id p h Hp Hh. specialize (ri_asked0 id p h Hp Hh). set_solver.
      * intros k f s' Hk. destruct (ri_held0 k f s' Hk). split; [set_solver|done].
    + intros id p' h Hp' Hh. destruct (Hps id p' Hp') as (p & Hp & Ha). destruct (Ha h Hh) as [Hq|Hq]; [|set_solver].
      pose proof (ri_asked _ _ _ _ _ _ Hm7 id p h Hp Hq). set_solver.
  - by rewrite <-Hh6.
  - done.
  - intros _. exact Hnone.
Qed.

Lemma admit_applies us key l es out a (dialled : bool) m r m' :
  run_inv us key l es out m → (dialled = true → MOutbound a ∈ es) → Manager_admit a dialled m = (r, m') →
  let o := match r with Ok ds => ds | Err _ => [] end in applies us key l es out (m_height m) (m_height m') o m'.
Proof.
  intros Hm Hd H. pose proof (admit_spec a dialled m) as Hsp. rewrite H in Hsp.
  assert (peers_inv us l (peers m')) as Hpe.
  { pose proof (peers_inv_admit a dialled m) as Hp. rewrite H in Hp. destruct Hm. rewrite ri_us0, ri_limits0 in Hp. by apply Hp. }
  destruct r as [ds|e]; [|subst m'; apply applies_none; [by rewrite app_nil_r|done]]. cbv zeta.
  destruct Hsp as (_ & _ & Hsp). destruct dialled.
  - destruct Hsp as (-> & _ & _ & ->). apply (applies_none _ _ _ _ _ _ _ (m_height m)); [|done]. rewrite app_nil_r.
    apply (run_inv_peers _ _ _ _ _ (set_book _ m)); [|done|].
    + apply (run_inv_book _ _ _ _ _ m [OpAdd a (group a); OpGood (pa_id a)]); [done|].
      intros id [?|[[= ->]|[]%not_elem_of_nil]%elem_of_cons]%elem_of_cons; [done|]. exists a. auto.
    + intros id p h [[<- <-]|[_ Hp]]%lookup_insert_Some; [by intros [?|?]|]. eapply Hm, Hp.
  - destruct Hsp as [(-> & _ & ->)|(v & -> & _ & ->)]; apply (applies_none _ _ _ _ _ _ _ (m_height m)); try done.
    + rewrite app_nil_r. apply run_inv_peers; [done..|]. intros id p h [[<- <-]|[_ Hp]]%lookup_insert_Some; [by intros [?|?]|]. eapply Hm, Hp.
    + rewrite <-(app_nil_r es). apply run_inv_mono. apply run_inv_peers; [done..|].
      intros id p h [[<- <-]|[_ [_ Hp]%lookup_delete_Some]]%lookup_insert_Some; [by intros [?|?]|]. eapply Hm, Hp.
Qed.

Lemma wants_outbound_inv us key l es out m : run_inv us key l es out m → run_inv us key l es out (wants_outbound m).2 ∧ m_height (wants_outbound m).2 = m_height m.
Proof.
  intros Hm. unfold wants_outbound. destruct (_ <=? _)%nat; [done|]. destruct (next_anchor _ _ _) as [[c|] rest].
  - split; [by apply run_inv_anchors|done].
  - assert (run_inv us key l es out (set_cursor ((cursor (set_anchors rest m) + 1) mod 2 ^ 64) (set_anchors rest m))) as H by by apply run_inv_cursor, run_inv_anchors.
    by destruct (book_select _ _ _).
Qed.

(** The height a step starts from. *)
Definition height_from (e : ManagerEvent) (m : Manager) : Height := match e with MSetHeight h => h | _ => m_height m end.

Lemma step_applies us key l es out e m o m' :
  run_inv us key l es out m → manager_step m e = (o, m') → applies us key l (es ++ [e]) out (height_from e m) (m_height m') o m'.
Proof.
  intros Hm0 H. assert (run_inv us key l (es ++ [e]) out m) as Hm by (rewrite <-(app_nil_r out); by apply run_inv_mono). clear Hm0.
  assert (e ∈ es ++ [e]) as He by set_solver. set (es' := es ++ [e]) in *. clearbody es'. clear es.
  destruct e; simpl in H; unfold height_from.
  - injection H as <- <-. apply (applies_none _ _ _ _ _ _ _ h); [|done]. rewrite app_nil_r. apply run_inv_sync; [done| |].
    + destruct (ri_staged _ _ _ _ _ _ Hm) as [Hsz Hk]. split; [etrans; [apply map_subseteq_size, map_filter_subseteq|done]|].
      intros k v [Hv ?]%map_lookup_filter_Some. by destruct (Hk _ _ Hv).
    + intros k f s [Hv _]%map_lookup_filter_Some. eapply Hm, Hv.
  - injection H as <- <-. apply (applies_none _ _ _ _ _ _ _ (m_height m)); [|done]. rewrite app_nil_r. by apply run_inv_anchors.
  - injection H as <- <-. destruct (wants_outbound_inv _ _ _ _ _ _ Hm) as [Hw Hh]. rewrite Hh. apply applies_none; [by rewrite app_nil_r|done].
  - unfold on_outbound in H. destruct (Manager_admit a true m) as [r m0] eqn:E. injection H as <- <-. eapply admit_applies in E; [exact E|done..].
  - unfold on_inbound in H. destruct (Manager_admit a false m) as [r m0] eqn:E. injection H as <- <-. eapply admit_applies in E; [exact E|done..].
  - injection H as <- <-. unfold advertised. destruct (_ || _); [apply applies_none; [by rewrite app_nil_r|done]|].
    apply (applies_none _ _ _ _ _ _ _ (m_height m)); [|done]. rewrite app_nil_r.
    apply (run_inv_book _ _ _ _ _ _ [OpAdd _ source]); [done|]. by intros ? [?|[]%not_elem_of_nil]%elem_of_cons.
  - injection H as <- <-. apply (applies_none _ _ _ _ _ _ _ (m_height m)); [|done]. rewrite app_nil_r. by apply run_inv_delete.
  - injection H as <- <-. apply (applies_none _ _ _ _ _ _ _ (m_height m)); [|done]. rewrite app_nil_r.
    apply (run_inv_book _ _ _ _ _ _ [OpFailed id]); [done|]. by intros ? [?|[]%not_elem_of_nil]%elem_of_cons.
  - by eapply on_tick_applies in H as [H _].
  - by eapply on_message_applies in H.
  - by eapply penalise_applies in H.
Qed.

Lemma manager_run_app es es' m :
  manager_run (es ++ es') m = let '(o, m) := manager_run es m in let '(o', m) := manager_run es' m in (o ++ o', m).
Proof.
  revert m. induction es as [|e es IH]; intros m; [simpl; by destruct (manager_run es' m)|]. simpl.
  destruct (manager_step m e) as [o m1]. rewrite IH. destruct (manager_run es m1) as [o1 m2], (manager_run es' m2) as [o2 m3].
  by rewrite app_assoc.
Qed.

Lemma manager_run_inv us key l es :
  let '(out, m) := manager_run es (Manager_new us (AddrBook_new key) l) in run_inv us key l es out m.
Proof.
  induction es as [|e es IH] using rev_ind; [apply run_inv_new|]. rewrite manager_run_app.
  destruct (manager_run es _) as [out m]. simpl. destruct (manager_step m e) as [o m'] eqn:E. rewrite app_nil_r.
  by eapply step_applies in E as [? _].
Qed.

(** C18: a node's connections stay diverse and its buffers bounded, whatever its peers do.
    After any sequence of connections, messages, ticks and failures no two peers it dialled
    are in one group, it is not connected to itself or to a peer that has spent its
    reputation, its limits on connections hold; it awaits at most eight blocks and no
    height from two peers; it holds at most sixteen blocks, remembers a bounded number of
    message identifiers, and every peer in its tried table is one it dialled itself. *)
Theorem connections_stay_diverse us key l es :
  let m := (manager_run es (Manager_new us (AddrBook_new key) l)).2 in
  (∀ id p, peers m !! id = Some p → pa_id (cn_addr p) = id ∧ id ≠ us ∧ Reputation_is_banned (reputation p) = false)
  ∧ (∀ i j p q, peers m !! i = Some p → peers m !! j = Some q → outbound p = true → outbound q = true →
       group (cn_addr p) = group (cn_addr q) → i = j)
  ∧ (outbound_count m ≤ max_outbound l)%nat ∧ (inbound_count m ≤ max_inbound l)%nat
  ∧ (in_flight_count m ≤ MAX_BLOCKS_IN_FLIGHT)%nat
  ∧ (∀ i j p q h, peers m !! i = Some p → peers m !! j = Some q → awaiting_block p = Some h → awaiting_block q = Some h → i = j)
  ∧ (size (staged m) ≤ MAX_STAGED_BLOCKS)%nat
  ∧ (length (order (seen m)) ≤ seen_capacity l `max` 1)%nat ∧ seen_ids (seen m) = list_to_set (order (seen m))
  ∧ (∀ a, a ∈ tried_addresses (book m) → ∃ a', pa_id a' = pa_id a ∧ MOutbound a' ∈ es).
Proof.
  pose proof (manager_run_inv us key l es) as H. destruct (manager_run es _) as [out m]. cbv zeta. simpl.
  destruct H as [Hus Hlim [Hid Hg Ho Hi Hf Hw] [Hsz _] [log [Hc Hor Hn Hids]] Hcap (ops & Hb & Hops) _ _].
  rewrite in_flight_count_eq. split_and!; try done.
  - rewrite <-Hcap, Hor. unfold newest_of. rewrite length_drop. lia.
  - apply set_eq. intros x. by rewrite elem_of_list_to_set, Hids.
  - intros a Ha. rewrite Hb in Ha. pose proof (book_run_ok ops key) as Hbk.
    destruct (tried_in_slots _ _ _ [_] Hbk Ha ltac:(by apply list_elem_of_singleton)) as (k & slot & _ & Hk & Hin).
    apply (bo_tried _ _ Hbk _ _ Hk) in Hin as (e & _ & _ & Hop & _). by apply Hops.
Qed.

(** C19: only blocks this node asked for are applied, and only in order.  At every step of any
    run the blocks handed to the node are of consecutive heights from the one it stood
    at, each was requested from the peer named with it, and that peer sent it. *)
Theorem applied_blocks_solicited us key l es e :
  let '(out, m) := manager_run es (Manager_new us (AddrBook_new key) l) in
  let '(o, m') := manager_step m e in
  consecutive (height_from e m) (applied o) (m_height m')
  ∧ ∀ from s, (from, s) ∈ applied o →
      DSend from (GetBlock (sb_height s)) ∈ out ∧ ∃ n, MMessage from (PMBlock s) n ∈ es ++ [e].
Proof.
  pose proof (manager_run_inv us key l es) as H. destruct (manager_run es _) as [out m].
  destruct (manager_step m e) as [o m'] eqn:E. by eapply step_applies in E as [_ ?].
Qed.

(** Room is made at the expense of the group that holds most, and of nobody else.  A
    newcomer is refused for want of room only if every group holds at most one
    inbound seat; otherwise, when the seats are full, the peer evicted is an inbound one of
    a group that holds at least two seats and as many as any, one that never served a
    block if such a group has one, and among equals the youngest; everybody else stays.  So
    a group's only inbound peer, and any peer this node dialled, is never displaced. *)
Theorem eviction_fair m a :
  let '(r, m') := on_inbound a m in
  match r with
  | Err NoRoom => m' = m ∧ (max_inbound (limits m) ≤ inbound_count m)%nat ∧ ∀ g, (seats m g ≤ 1)%nat
  | Err _ => m' = m
  | Ok ds =>
      peers m' !! pa_id a = Some (Connected_new m a false)
      ∧ ((inbound_count m < max_inbound (limits m))%nat → ds = [] ∧ ∀ id p, peers m !! id = Some p → peers m' !! id = Some p)
      ∧ ((max_inbound (limits m) ≤ inbound_count m)%nat → ∃ v p, ds = [Disconnect v "evicted to make room"]
           ∧ peers m !! v = Some p ∧ outbound p = false
           ∧ (2 ≤ seats m (group (cn_addr p)))%nat ∧ (∀ g, seats m g ≤ seats m (group (cn_addr p)))%nat
           ∧ (∀ id q, peers m !! id = Some q → outbound q = false → seats m (group (cn_addr q)) = seats m (group (cn_addr p)) →
                (served p = true → served q = true) ∧ (served q = served p → since q ≤ since p))
           ∧ ∀ id q, id ≠ v → peers m !! id = Some q → peers m' !! id = Some q)
  end.
Proof.
  unfold on_inbound, Manager_admit. case_bool_decide; [done|]. destruct (is_banned m (pa_id a)); [done|]. case_bool_decide as Hd; [done|].
  apply eq_None_not_Some in Hd. destruct (_ <=? _)%nat eqn:E.
  - apply Nat.leb_le in E. pose proof (eviction_candidate_spec m) as Hsp. destruct (eviction_candidate m) as [v|]; simpl; [|done].
    destruct Hsp as (p & Hp & Ho & H2 & Hmax & Hle). rewrite lookup_insert_eq. split_and!; [done|lia|]. intros _. exists v, p. split_and!; try done.
    + intros id q Hq Hqo Hqs. specialize (Hle id q Hq Hqo Hqs). rewrite evict_le_iff in Hle. cbn [fst snd] in Hle.
      split; [intros Hps; destruct Hle as [[? ?]|[? _]]; congruence|]. intros Hps. destruct Hle as [[? ?]|[_ [?|[? _]]]]; [congruence|lia..].
    + intros id q Hne Hq. rewrite lookup_insert_ne by congruence. by rewrite lookup_delete_ne.
  - apply Nat.leb_gt in E. simpl. rewrite lookup_insert_eq. split_and!; [done| |lia]. intros _. split; [done|].
    intros id p Hp. by rewrite lookup_insert_ne by congruence.
Qed.

(** * The tick *)

(** A tick leaves nothing applicable behind, wherever the height was moved to. *)
Lemma tick_releases us key l es d :
  let '(_, m) := manager_run es (Manager_new us (AddrBook_new key) l) in
  let '(_, m') := on_tick d m in peers m' ≠ ∅ → staged m' !! m_height m' = None.
Proof.
  pose proof (manager_run_inv us key l es) as H. destruct (manager_run es _) as [out m]. destruct (on_tick d m) as [o m'] eqn:E.
  by eapply on_tick_applies in E as [_ ?].
Qed.

(** * The buffer that never drains *)

(** The height the node reports, if the event reports one, is the one it stands at. *)
Definition keeps_height h (e : ManagerEvent) : Prop := match e with MSetHeight h' => h' = h | _ => True end.
Definition stuck m : Prop :=
  (MAX_STAGED_BLOCKS ≤ size (staged m))%nat ∧ staged m !! m_height m = None ∧ ∀ k v, staged m !! k = Some v → m_height m ≤ k.
(** A step that applies nothing and moves nothing. *)
Definition same_sync m (r : list Directive * Manager) : Prop :=
  applied r.1 = [] ∧ m_height r.2 = m_height m ∧ staged r.2 = staged m.

Lemma penalise_same from what m : same_sync m (penalise from what m).
Proof. unfold penalise. by repeat case_match. Qed.
Lemma drain_stuck m : stuck m → drain_staged m = ([], m).
Proof. intros (_ & Hn & _). unfold drain_staged. simpl. by rewrite Hn. Qed.

Lemma sync_loop_same fuel ids top : ∀ n claimed want m, same_sync m (sync_loop fuel ids top n claimed want m).
Proof.
  induction fuel as [|fuel IH]; intros n claimed want m; simpl; [done|]. destruct (_ && _); [|done].
  case_bool_decide; [apply IH|]. destruct (free_peer_holding m ids want) as [t|]; [|done].
  set (m1 := set_peers _ m). specialize (IH (n + 1)%nat (want :: claimed) (Height_next want) m1).
  by destruct (sync_loop _ _ _ _ _ _ m1) as [o m2].
Qed.

Lemma on_block_same from s m : stuck m → same_sync m (on_block from s m).
Proof.
  intros (Hsz & Hn & _). unfold on_block. destruct (peers m !! from); [|done]. destruct (_ && _); [apply penalise_same|].
  cbn [m_height set_peers staged]. destruct (_ <? _); [done|]. by rewrite (proj2 (Nat.leb_le _ _) Hsz).
Qed.

Lemma on_message_same from msg n m : stuck m → same_sync m (on_message_sized from msg n m).
Proof.
  intros Hst. unfold on_message_sized. destruct (peers m !! from) as [p|]; [|done].
  destruct (take_tokens 1 _) as [ok1 ms]. destruct (if ok1 then _ else _) as [ok2 bs_]. set (m1 := set_peers _ m).
  assert (∀ m2, m_height m2 = m_height m → staged m2 = staged m → same_sync m (handle_message from msg m2)) as Hh.
  { intros m2 Hh Hs2. assert (stuck m2) by (unfold stuck; by rewrite Hh, Hs2). unfold same_sync. rewrite <-Hh, <-Hs2.
    destruct msg; simpl; try (by repeat case_match); [| |].
    - unfold on_addrs. destruct (peers m2 !! from); [|done]. destruct (negb _); [apply penalise_same|done].
    - by apply on_block_same.
    - unfold on_no_block. by repeat case_match. }
  destruct (_ || _); [apply (penalise_same from TooFast m1)|]. destruct (gossip_id msg); [|by apply Hh].
  destruct (seen_insert _ _) as [[] sn]; [by apply Hh|done].
Qed.

Lemma on_tick_same d m : stuck m → same_sync m (on_tick d m).
Proof.
  intros Hst. unfold on_tick. set (m1 := set_uptime _ m). set (m2 := set_banned _ m1). set (m3 := set_peers _ m2). set (m4 := set_cursor _ m3).
  destruct ((sorted_entries (peers m4)).*1) as [|i0 ids']; [done|]. set (ids := i0 :: ids'). set (m5 := set_peers _ m4).
  destruct (match rotate m5 ids 0 with Some _ => _ | None => _ end) as [asked m6] eqn:Hrot.
  assert (applied asked = [] ∧ m_height m6 = m_height m ∧ staged m6 = staged m) as (Has & Hh & Hs6) by (by destruct (rotate m5 ids 0); injection Hrot as <- <-).
  rewrite drain_stuck by (unfold stuck; by rewrite Hh, Hs6).
  assert (same_sync m6 (schedule_sync ids m6)) as Hsy.
  { unfold schedule_sync. destruct (best_peer_height m6); [|done]. destruct (_ <? _); [done|apply sync_loop_same]. }
  destruct (schedule_sync ids m6) as [reqs m8]. destruct Hsy as (Hr & Hh8 & Hs8). simpl in *.
  split_and!; simpl; [|congruence..]. by rewrite applied_app, Has, Hr.
Qed.

(** C39: a full staging buffer that lacks the next height is never emptied again.  Once sixteen
    later blocks are held and the next one is not, no message, tick or connection, and
    no report that the node still stands where it did, makes the manager apply anything,
    move its height or drop a block: the missing block, which it
    goes on asking for, is thrown away when it arrives. *)
Theorem full_staging_stalls m es :
  stuck m → Forall (keeps_height (m_height m)) es →
  let '(o, m') := manager_run es m in applied o = [] ∧ m_height m' = m_height m ∧ staged m' = staged m.
Proof.
  revert m. induction es as [|e es IH]; intros m Hst Hes; [done|]. apply Forall_cons in Hes as [He Hes]. simpl.
  assert (same_sync m (manager_step m e)) as H.
  { destruct e; simpl; try done.
    - simpl in He. subst h. split_and!; [done..|]. simpl. apply map_eq. intros k. apply option_eq. intros v.
      rewrite map_lookup_filter_Some. destruct Hst as (_ & _ & Hk). naive_solver.
    - unfold wants_outbound. destruct (_ <=? _)%nat; [done|]. destruct (next_anchor _ _ _) as [[]]; [done|]. by destruct (book_select _ _ _).
    - unfold on_outbound. pose proof (admit_spec a true m) as Hsp. destruct (Manager_admit a true m) as [[ds|] m']; [|by subst m'].
      by destruct Hsp as (_ & _ & -> & _ & _ & ->).
    - unfold on_inbound. pose proof (admit_spec a false m) as Hsp. destruct (Manager_admit a false m) as [[ds|] m']; [|by subst m'].
      by destruct Hsp as (_ & _ & [(-> & _ & ->)|(v & -> & _ & ->)]).
    - unfold advertised. by case_match.
    - by apply on_tick_same.
    - by apply on_message_same.
    - apply penalise_same. }
  destruct (manager_step m e) as [o m1]. destruct H as (Ho & Hh & Hs1). simpl in *.
  specialize (IH m1). destruct (manager_run es m1) as [o' m2]. destruct IH as (Ho' & Hh' & Hs'); [unfold stuck; by rewrite Hh, Hs1|by rewrite Hh|].
  rewrite applied_app, Ho, Ho'. split_and!; [done|congruence..].
Qed.
End proofs.

(** * Rates *)

Inductive BucketOp := BRefill (elapsed : Duration) | BTake (n : Z).
(** What was granted, and the bucket afterwards. *)
Fixpoint bucket_run (ops : list BucketOp) (b : Bucket) : Z * Bucket :=
  match ops with
  | [] => (0, b)
  | BRefill d :: ops => bucket_run ops (refill d b)
  | BTake n :: ops =>
      let '(ok, b) := take_tokens n b in
      let '(granted, b) := bucket_run ops b in
      ((if ok then n else 0) + granted, b)
  end.
Definition time_of (ops : list BucketOp) : Z := list_sum (λ op, match op with BRefill d => as_millis d | BTake _ => 0 end) ops.
Definition op_ok (op : BucketOp) : Prop := match op with BRefill d => 0 ≤ d | BTake n => 0 ≤ n end.

Lemma as_millis_nonneg d : 0 ≤ d → 0 ≤ as_millis d.
Proof. intros ?. unfold as_millis, u64_max. pose proof (Z.div_pos d 1000000). lia. Qed.

Lemma bucket_run_bound ops : ∀ b, 0 ≤ tokens b → 0 ≤ per_second b → Forall op_ok ops →
  (bucket_run ops b).1 * 1000 ≤ tokens b * 1000 + per_second b * time_of ops.
Proof.
  induction ops as [|op ops IH]; intros b Ht Hp Hok; [simpl; lia|]. apply Forall_cons in Hok as [Hop Hok].
  unfold time_of. rewrite list_sum_cons. fold (time_of ops). destruct op as [d|n]; cbn [op_ok bucket_run] in *.
  - pose proof (as_millis_nonneg d Hop) as Hd. set (g := saturating_mul u64_max (per_second b) (as_millis d) / 1000).
    assert (0 ≤ g ∧ g * 1000 ≤ per_second b * as_millis d) as [Hg0 Hg].
    { unfold g, saturating_mul, u64_max. split; [apply Z.div_pos; nia|]. Z.to_euclidean_division_equations. nia. }
    assert (0 ≤ Z.min (saturating_add u64_max (tokens b) g) (capacity b) ∨ capacity b < 0) as Hcap by (unfold saturating_add, u64_max; lia).
    destruct Hcap as [Hcap|Hneg].
    + specialize (IH (refill d b) Hcap Hp Hok). cbn [refill tokens per_second] in IH. fold g in IH.
      unfold saturating_add in IH. nia.
    + (* a bucket of negative capacity gives nothing away *)
      assert (∀ b', tokens b' ≤ 0 → capacity b' < 0 → (bucket_run ops b').1 ≤ 0) as Hz.
      { clear -Hok. induction Hok as [|[d|n] ops Hop Hok IH]; intros b' H1 H2; simpl; [lia| |].
        - apply IH; simpl; [lia|done].
        - unfold take_tokens. destruct (tokens b' <? n) eqn:E.
          + specialize (IH b' H1 H2). destruct (bucket_run ops b'). simpl in *. lia.
          + apply Z.ltb_ge in E. simpl in Hop. specialize (IH {| tokens := tokens b' - n; capacity := capacity b'; per_second := per_second b' |}).
            destruct (bucket_run ops _). simpl in *. assert (n = 0 ∨ 0 < n) as [->|] by lia; [rewrite Z.sub_0_r in IH|lia]. lia. }
      specialize (Hz (refill d b)). cbn [refill tokens capacity] in Hz.
      assert (0 ≤ per_second b * time_of ops).
      { apply Z.mul_nonneg_nonneg; [done|]. apply list_sum_nonneg. eapply Forall_impl; [exact Hok|]. intros [e|]; simpl; [apply as_millis_nonneg|lia]. }
      specialize (Hz ltac:(lia) Hneg). nia.
  - unfold take_tokens. destruct (tokens b <? n) eqn:E.
    + specialize (IH b Ht Hp Hok). destruct (bucket_run ops b). simpl in *. lia.
    + apply Z.ltb_ge in E. specialize (IH {| tokens := tokens b - n; capacity := capacity b; per_second := per_second b |}).
      destruct (bucket_run ops _). simpl in *. specialize (IH ltac:(lia) Hp Hok). lia.
Qed.

(** A peer is granted no more, over any time, than its burst and its sustained rate for
    that time, however it spreads what it sends and however the clock is cut into ticks. *)
Theorem rate_bounded rate (burst_ : Duration) floor_ ops :
  0 ≤ rate → Forall op_ok ops →
  (bucket_run ops (Bucket_new rate burst_ floor_)).1 ≤ capacity (Bucket_new rate burst_ floor_) + rate * time_of ops / 1000.
Proof.
  intros Hr Hok. pose proof (bucket_run_bound ops (Bucket_new rate burst_ floor_)) as H. cbn [Bucket_new tokens per_second] in H.
  specialize (H ltac:(lia) Hr Hok). cbn [Bucket_new capacity]. Z.to_euclidean_division_equations. lia.
Qed.
