(* ===== verification/Http.v ===== *)
(** The HTTP reader and writer ([crates/http/src/wire.rs]): how a query server splits the
    bytes of a connection into requests, and what it writes back.

    A connection is the bytes it still delivers and the error it then fails with, if it
    does not simply end.  Strings are their UTF-8 bytes; maps are finite maps, as nothing
    here looks at their order.  The reader is shown to read exactly the grammar of
    the module's documentation, within its limits, and the writer to write heads whose
    lines nobody else can add to. *)

From S2P Require Import Prelude SortedVec Codec Primitives Account Alias Request.

Inductive HttpError :=
| WClosed
| WIo (why : bytes)
| WMalformed (why : string)
| WRequestLineTooLong
| WHeadersTooLarge
| WBodyTooLarge
| WMethodNotAllowed
| WUnsupportedVersion
| WTransferEncoding.

Inductive HttpMethod := MGet | MPost | MOptions.
#[export] Instance HttpMethod_eq_dec : EqDecision HttpMethod.
Proof. solve_decision. Defined.

Definition HttpMethod_parse (b : bytes) : result HttpError HttpMethod :=
  if bool_decide (b = bs "GET") then Ok MGet
  else if bool_decide (b = bs "POST") then Ok MPost
  else if bool_decide (b = bs "OPTIONS") then Ok MOptions
  else Err WMethodNotAllowed.
Definition HttpMethod_as_str (m : HttpMethod) : bytes :=
  match m with MGet => bs "GET" | MPost => bs "POST" | MOptions => bs "OPTIONS" end.

Inductive HttpStatus :=
| SOk | SAccepted | SNoContent | SBadRequest | SNotFound | SMethodNotAllowed | SPayloadTooLarge | SUriTooLong
| SHeadersTooLarge | SInternalError | SNotImplemented | SUnavailable | SVersionNotSupported.

Definition status_code (s : HttpStatus) : Z :=
  match s with
  | SOk => 200 | SAccepted => 202 | SNoContent => 204 | SBadRequest => 400 | SNotFound => 404 | SMethodNotAllowed => 405
  | SPayloadTooLarge => 413 | SUriTooLong => 414 | SHeadersTooLarge => 431 | SInternalError => 500 | SNotImplemented => 501
  | SUnavailable => 503 | SVersionNotSupported => 505
  end.
Definition reason (s : HttpStatus) : bytes :=
  bs match s with
     | SOk => "OK" | SAccepted => "Accepted" | SNoContent => "No Content" | SBadRequest => "Bad Request"
     | SNotFound => "Not Found" | SMethodNotAllowed => "Method Not Allowed" | SPayloadTooLarge => "Payload Too Large"
     | SUriTooLong => "URI Too Long" | SHeadersTooLarge => "Request Header Fields Too Large"
     | SInternalError => "Internal Server Error" | SNotImplemented => "Not Implemented"
     | SUnavailable => "Service Unavailable" | SVersionNotSupported => "HTTP Version Not Supported"
     end.
Definition allows_keep_alive (s : HttpStatus) : bool :=
  match s with
  | SOk | SAccepted | SNoContent | SNotFound | SMethodNotAllowed | SInternalError | SUnavailable => true
  | _ => false
  end.
(** [WireError::status]. *)
Definition error_status (e : HttpError) : HttpStatus :=
  match e with
  | WClosed | WIo _ | WMalformed _ => SBadRequest
  | WRequestLineTooLong => SUriTooLong
  | WHeadersTooLarge => SHeadersTooLarge
  | WBodyTooLarge => SPayloadTooLarge
  | WMethodNotAllowed => SMethodNotAllowed
  | WUnsupportedVersion => SVersionNotSupported
  | WTransferEncoding => SNotImplemented
  end.

(** The limits of [Config] this file and the server look at. *)
Record HttpConfig := {
  max_request_line : Z;
  max_header_line : Z;
  max_header_bytes : Z;
  max_headers : Z;
  max_body_bytes : Z;
  max_requests_per_connection : Z;
  allow_origin : option bytes;
}.
Definition HttpConfig_default : HttpConfig := {|
  max_request_line := 8 * 1024; max_header_line := 8 * 1024; max_header_bytes := 32 * 1024; max_headers := 64;
  max_body_bytes := 64 * 1024; max_requests_per_connection := 512; allow_origin := Some (bs "*") |}.

Record HttpRequest := {
  rq_method : HttpMethod;
  segments : list bytes;
  params : gmap bytes bytes;
  headers : gmap bytes bytes;
  rq_body : bytes;
  keep_alive : bool;
}.
(** [Request::param], [Request::header], [Request::path]. *)
Definition rq_param (r : HttpRequest) (name : bytes) : option bytes := params r !! name.
Definition rq_header (r : HttpRequest) (name : bytes) : option bytes := headers r !! name.
Fixpoint slash_join (l : list bytes) : bytes :=
  match l with [] => [] | [p] => p | p :: l => p ++ bs "/" ++ slash_join l end.
Definition rq_path (r : HttpRequest) : bytes := bs "/" ++ slash_join (segments r).

(** * Reading *)

Record Source := { unread : bytes; broken : option bytes }.

Definition LF : byte := byte_of 10.
Definition CR : byte := byte_of 13.
Definition is_nil {A} (l : list A) : bool := match l with [] => true | _ => false end.

(** [take(limit).read_until(b'\n')]: what was read and what is left. *)
Fixpoint until_lf (limit : nat) (s : bytes) : bytes * bytes :=
  match limit, s with
  | S limit, b :: s' => if bool_decide (b = LF) then ([b], s') else let '(t, r) := until_lf limit s' in (b :: t, r)
  | _, _ => ([], s)
  end.

Definition read_line (max : Z) : M Source HttpError bytes := λ src,
  let limit := Z.to_nat (Z.min (max + 1) u64_max) in
  let '(buf, rest) := until_lf limit (unread src) in
  let src' := {| unread := rest; broken := broken src |} in
  let dry := (length buf <? limit)%nat && negb (bool_decide (last buf = Some LF)) in
  match (if dry then broken src else None) with
  | Some why => (Err (WIo why), src')
  | None =>
      if is_nil buf then (Err WClosed, src')
      else if negb (bool_decide (last buf = Some LF)) then (Err WHeadersTooLarge, src')
      else
        let buf := removelast buf in
        if negb (bool_decide (last buf = Some CR)) then (Err (WMalformed "line not terminated by CRLF"), src')
        else (Ok (removelast buf), src')
  end.

(** ** The request line *)

Definition parse_request_line (line : bytes) : result HttpError (HttpMethod * bytes * bytes) :=
  match split_on 32 line with
  | [method; target; version] =>
      if negb (starts_with (bs "/") target) then Err (WMalformed "request target must be origin-form")
      else m ← HttpMethod_parse method; Ok (m, target, version)
  | _ => Err (WMalformed "request line is not three fields")
  end.

Definition is_ascii_hexdigit (b : byte) : bool := in_range 48 57 b || in_range 65 70 b || in_range 97 102 b.

(** The loop of [percent_decode]; [u8::from_str_radix] of two hex digits. *)
Fixpoint percent_bytes (s : bytes) : result HttpError bytes :=
  match s with
  | [] => Ok []
  | b :: s =>
      if byte_eqb 37 b then
        match s with
        | hi :: lo :: s =>
            if negb (is_ascii_hexdigit hi) || negb (is_ascii_hexdigit lo) then Err (WMalformed "percent-escape is not hex")
            else
              hi ← ok_or (WMalformed "percent-escape is not hex") (to_digit16 hi);
              lo ← ok_or (WMalformed "percent-escape is not hex") (to_digit16 lo);
              rest ← percent_bytes s;
              Ok (byte_of (hi * 16 + lo) :: rest)
        | _ => Err (WMalformed "truncated percent-escape")
        end
      else rest ← percent_bytes s; Ok (b :: rest)
  end.

(** [chars().any(char::is_control)] of well-formed UTF-8: U+0000 to U+001F, U+007F, and
    U+0080 to U+009F, which are written C2 80 to C2 9F. *)
Fixpoint has_control (s : bytes) : bool :=
  match s with
  | [] => false
  | b :: s => in_range 0 31 b || byte_eqb 127 b || (byte_eqb 0xC2 b && match s with c :: _ => in_range 0x80 0x9F c | [] => false end) || has_control s
  end.

Definition percent_decode (s : bytes) : result HttpError bytes :=
  out ← percent_bytes s;
  if negb (utf8_valid out) then Err (WMalformed "path is not valid UTF-8")
  else if has_control out then Err (WMalformed "path contains control characters")
  else Ok out.

Fixpoint decode_segments (raws : list bytes) : result HttpError (list bytes) :=
  match raws with
  | [] => Ok []
  | raw :: raws =>
      if is_nil raw then decode_segments raws
      else
        decoded ← percent_decode raw;
        if bool_decide (decoded = bs ".") || bool_decide (decoded = bs "..") then Err (WMalformed "relative path segment")
        else rest ← decode_segments raws; Ok (decoded :: rest)
  end.

Definition decode_pair (item : bytes) : result HttpError (bytes * bytes) :=
  match split_once 61 item with
  | Some (n, v) => n ← percent_decode n; v ← percent_decode v; Ok (n, v)
  | None => n ← percent_decode item; Ok (n, [])
  end.
Fixpoint decode_params (items : list bytes) (params : gmap bytes bytes) : result HttpError (gmap bytes bytes) :=
  match items with
  | [] => Ok params
  | item :: items =>
      if is_nil item then decode_params items params
      else
        '(name, value) ← decode_pair item;
        if bool_decide (is_Some (params !! name)) then Err (WMalformed "repeated query parameter")
        else decode_params items (<[name := value]> params)
  end.

Definition parse_target (target : bytes) : result HttpError (list bytes * gmap bytes bytes) :=
  if negb (utf8_valid target) then Err (WMalformed "request target is not UTF-8")
  else
    let '(path, query) := match split_once 63 target with Some (p, q) => (p, Some q) | None => (target, None) end in
    segments ← decode_segments (split_on 47 path);
    params ← match query with Some q => decode_params (split_on 38 q) ∅ | None => Ok ∅ end;
    Ok (segments, params).

(** ** Headers *)

Definition is_token_byte (b : byte) : bool := is_ascii_alphanumeric b || bool_decide (b ∈ bs "!#$%&'*+-.^_`|~").
Definition is_field_byte (b : byte) : bool := byte_eqb 9 b || in_range 0x20 0x7e b.
Definition is_ows (b : byte) : bool := byte_eqb 32 b || byte_eqb 9 b.

Fixpoint skip_ows (s : bytes) : bytes :=
  match s with b :: s' => if is_ows b then skip_ows s' else s | [] => [] end.
Definition trim_ows (s : bytes) : bytes := rev (skip_ows (rev (skip_ows s))).

(** The body of the loop of [read_headers], after the limits: one header. *)
Definition parse_header (line : bytes) : result HttpError (bytes * bytes) :=
  if match line with b :: _ => is_ows b | [] => false end then Err (WMalformed "folded header line")
  else
    '(name, value) ← ok_or (WMalformed "header without a colon") (split_once 58 line);
    if is_nil name || negb (forallb is_token_byte name) then Err (WMalformed "header name is not a token")
    else
      let value := trim_ows value in
      if negb (forallb is_field_byte value) then Err (WMalformed "header value has control bytes")
      else if negb (utf8_valid value) then Err (WMalformed "header value is not UTF-8")
      else
        let name := ascii_lower <$> name in
        if negb (utf8_valid name) then Err (WMalformed "header name is not UTF-8") else Ok (name, value).

(** The loop of [read_headers].  A turn adds a header and refuses to pass [max_headers], so
    [max_headers + 1] turns are enough ([read_headers_fuel]). *)
Fixpoint read_headers_loop (fuel : nat) (cfg : HttpConfig) (hs : gmap bytes bytes) (total : Z) : M Source HttpError (gmap bytes bytes) :=
  match fuel with
  | O => throw WHeadersTooLarge
  | S fuel =>
      let! line := read_line (max_header_line cfg) in
      if is_nil line then ret hs
      else
        let total := total + Z.of_nat (length line) in
        do! fail_if (negb ((total <=? u64_max) && (total <=? max_header_bytes cfg))) WHeadersTooLarge in
        do! fail_if (max_headers cfg <=? Z.of_nat (size hs)) WHeadersTooLarge in
        let! nv := lift (parse_header line) in
        do! fail_if (bool_decide (is_Some (hs !! nv.1))) (WMalformed "repeated header") in
        read_headers_loop fuel cfg (<[nv.1 := nv.2]> hs) total
  end.
Definition read_headers (cfg : HttpConfig) : M Source HttpError (gmap bytes bytes) :=
  read_headers_loop (S (Z.to_nat (max_headers cfg))) cfg ∅ 0.

Definition content_length (hs : gmap bytes bytes) : result HttpError Z :=
  match hs !! bs "content-length" with
  | None => Ok 0
  | Some raw =>
      if is_nil raw || negb (forallb is_ascii_digit raw) then Err (WMalformed "Content-Length is not a plain number")
      else ok_or (WMalformed "Content-Length does not fit") (Account.parse_u64 raw)
  end.

(** [take(length).read_to_end]. *)
Definition read_request_body (len : Z) : M Source HttpError bytes := λ src,
  if len <=? 0 then (Ok [], src)
  else
    let n := Z.to_nat len in
    let body := take n (unread src) in
    let src' := {| unread := drop n (unread src); broken := broken src |} in
    if (length body <? n)%nat then
      match broken src with
      | Some why => (Err (WIo why), src')
      | None => (Err (WMalformed "body shorter than Content-Length"), src')
      end
    else (Ok body, src').

(** [eq_ignore_ascii_case]. *)
Definition same_word (a b : bytes) : bool := bool_decide (ascii_lower <$> a = ascii_lower <$> b).

Definition line_error (e : HttpError) : HttpError := match e with WHeadersTooLarge => WRequestLineTooLong | e => e end.

Definition version_11 (version : bytes) : result HttpError bool :=
  if bool_decide (version = bs "HTTP/1.1") then Ok true
  else if bool_decide (version = bs "HTTP/1.0") then Ok false
  else Err WUnsupportedVersion.
Definition stays_open (http_11 : bool) (hs : gmap bytes bytes) : bool :=
  let connection := default [] (hs !! bs "connection") in
  if http_11 then negb (same_word connection (bs "close")) else same_word connection (bs "keep-alive").

Definition read_request (cfg : HttpConfig) : M Source HttpError HttpRequest :=
  let! line := wrap_err line_error (read_line (max_request_line cfg)) in
  do! fail_if (is_nil line) (WMalformed "empty request line") in
  let! first := lift (parse_request_line line) in
  let '(method, target, version) := first in
  let! parts := lift (parse_target target) in
  let! hs := read_headers cfg in
  let! http_11 := lift (version_11 version) in
  do! fail_if (bool_decide (is_Some (hs !! bs "transfer-encoding"))) WTransferEncoding in
  let! len := lift (content_length hs) in
  do! fail_if (max_body_bytes cfg <? len) WBodyTooLarge in
  let! body := read_request_body len in
  ret {| rq_method := method; segments := parts.1; params := parts.2; headers := hs; rq_body := body; keep_alive := stays_open http_11 hs |}.

(** * Writing *)

Definition CONTENT_TYPE_BINARY : bytes := bs "application/vnd.afrolink.v1+bin".
Definition CONTENT_TYPE_JSON : bytes := bs "application/json".

Record HttpResponse := { rs_status : HttpStatus; content_type : bytes; rs_body : bytes; extra : list (bytes * bytes) }.

Definition HttpResponse_binary (s : HttpStatus) (body : bytes) : HttpResponse :=
  {| rs_status := s; content_type := CONTENT_TYPE_BINARY; rs_body := body; extra := [] |}.
Definition HttpResponse_json (s : HttpStatus) (body : bytes) : HttpResponse :=
  {| rs_status := s; content_type := CONTENT_TYPE_JSON; rs_body := body; extra := [] |}.
Definition with_header (name value : bytes) (r : HttpResponse) : HttpResponse :=
  {| rs_status := rs_status r; content_type := content_type r; rs_body := rs_body r; extra := extra r ++ [(name, value)] |}.

Definition header_line (name value : bytes) : bytes :=
  if existsb (λ b, bool_decide (b = CR) || bool_decide (b = LF)) value then [] else name ++ bs ": " ++ value ++ [CR; LF].
Definition response_headers (r : HttpResponse) (keep : bool) (cfg : HttpConfig) : list (bytes * bytes) :=
  [(bs "Content-Type", content_type r);
   (bs "Content-Length", u64_to_string (Z.of_nat (length (rs_body r))));
   (bs "Connection", bs (if keep then "keep-alive" else "close"));
   (bs "Cache-Control", bs "no-store");
   (bs "X-Content-Type-Options", bs "nosniff")]
  ++ match allow_origin cfg with Some origin => [(bs "Access-Control-Allow-Origin", origin)] | None => [] end
  ++ extra r.
(** The bytes [write_response] writes. *)
Definition write_response (r : HttpResponse) (keep : bool) (cfg : HttpConfig) : bytes :=
  bs "HTTP/1.1 " ++ u64_to_string (status_code (rs_status r)) ++ bs " " ++ reason (rs_status r) ++ [CR; LF]
  ++ concat ((λ nv, header_line nv.1 nv.2) <$> response_headers r keep cfg) ++ [CR; LF] ++ rs_body r.

(** * Lines *)

Definition crlf (l : bytes) : bytes := l ++ [CR; LF].
(** The line and its terminator fit the limit. *)
Definition fits (max : Z) (line : bytes) : Prop := Z.of_nat (length line) + 2 ≤ Z.min (max + 1) u64_max.
Definition is_line (max : Z) (line : bytes) : Prop := LF ∉ line ∧ fits max line.
(** [src] delivers [b], then is [src']. *)
Definition delivers (src : Source) (b : bytes) (src' : Source) : Prop :=
  unread src = b ++ unread src' ∧ broken src' = broken src.

Lemma delivers_nil src : delivers src [] src.
Proof. done. Qed.
Lemma delivers_app src a src1 b src2 : delivers src a src1 → delivers src1 b src2 → delivers src (a ++ b) src2.
Proof. intros [E1 B1] [E2 B2]. split; [by rewrite E1, E2, (assoc_L (++))|congruence]. Qed.
Lemma delivers_to src src1 src2 a : delivers src a src1 → delivers src a src2 → src1 = src2.
Proof. destruct src1, src2. intros [E1 B1] [E2 B2]. simpl in *. rewrite E1 in E2. apply app_inv_head in E2. by simplify_eq. Qed.

Lemma until_lf_spec limit s t r : until_lf limit s = (t, r) →
  s = t ++ r ∧ (length t ≤ limit)%nat
  ∧ ((∃ u, t = u ++ [LF] ∧ LF ∉ u) ∨ (LF ∉ t ∧ (length t = limit ∨ r = []))).
Proof.
  revert s t r. induction limit as [|limit IH]; intros s t r H.
  { destruct s; simplify_eq/=; (split_and!; [done|lia|right; split; [apply not_elem_of_nil|by left]]). }
  destruct s as [|b s]; simplify_eq/=; [split_and!; [done|simpl; lia|right; split; [apply not_elem_of_nil|by right]]|].
  case_bool_decide as Hb.
  { simplify_eq. split_and!; [done|simpl; lia|left; exists []; split; [done|apply not_elem_of_nil]]. }
  destruct (until_lf limit s) as [t' r'] eqn:E. simplify_eq. apply IH in E as (-> & Hl & Hc).
  split_and!; [done|simpl; lia|]. destruct Hc as [(u & -> & Hu)|[Hn Hc]].
  - left. exists (b :: u). split; [done|]. rewrite not_elem_of_cons. auto.
  - right. rewrite not_elem_of_cons. split; [auto|]. simpl. destruct Hc; [left; lia|by right].
Qed.

Lemma until_lf_line limit u r : LF ∉ u → (length u < limit)%nat → until_lf limit (u ++ LF :: r) = (u ++ [LF], r).
Proof.
  revert limit. induction u as [|b u IH]; intros [|limit] Hu Hl; simpl in *; try lia.
  - done.
  - apply not_elem_of_cons in Hu as [Hb Hu]. rewrite bool_decide_eq_false_2 by congruence. by rewrite IH by (done || lia).
Qed.

Lemma last_is_snoc {A} (l : list A) x : last l = Some x → l = removelast l ++ [x].
Proof. intros H. apply last_Some in H as [l' ->]. by rewrite removelast_snoc. Qed.

Lemma no_lf_last u : LF ∉ u → bool_decide (last u = Some LF) = false.
Proof. intros Hu. apply bool_decide_eq_false_2. intros H. apply Hu. rewrite (last_is_snoc _ _ H). set_solver. Qed.

(** A line is read exactly when it is there, whole, ended by CR LF and within the limit. *)
Lemma read_line_exact max src line src' :
  read_line max src = (Ok line, src') ↔ delivers src (crlf line) src' ∧ is_line max line.
Proof.
  unfold read_line, delivers, crlf, is_line, fits. split.
  - destruct (until_lf _ _) as [buf rest] eqn:E. apply until_lf_spec in E as (Hs & Hl & Hc). intros H.
    destruct (if _ && _ then broken src else None); [done|]. destruct (is_nil buf); [done|].
    case_bool_decide as Hlf; [|done]. cbn [negb] in H. case_bool_decide as Hcr; [|done]. simpl in H. simplify_eq.
    apply last_is_snoc in Hlf, Hcr. destruct Hc as [(u & Hbu & Hu)|[Hn _]].
    + rewrite Hbu, removelast_snoc in Hcr. rewrite Hcr in Hbu. rewrite Hbu, removelast_snoc, removelast_snoc.
      rewrite Hbu, !length_app in Hl. simpl in Hl.
      split_and!; [by rewrite Hs, Hbu, <-!(assoc_L (++))|done| |lia].
      intros Hin. apply Hu. rewrite Hcr. set_solver.
    + exfalso. apply Hn. rewrite Hlf. set_solver.
  - intros ([E HB] & Hu & Hf). rewrite E, <-(assoc_L (++)). cbn [app]. change (CR :: LF :: unread src') with ([CR] ++ LF :: unread src').
    rewrite (assoc_L (++)), until_lf_line; [| |rewrite length_app; simpl; lia].
    2:{ rewrite not_elem_of_app. split; [done|]. by rewrite list_elem_of_singleton. }
    cbv zeta. rewrite !removelast_snoc, !last_snoc. rewrite (bool_decide_eq_true_2 (Some LF = Some LF)), (bool_decide_eq_true_2 (Some CR = Some CR)) by done.
    rewrite andb_false_r. cbn [negb].
    destruct (is_nil _) eqn:En; [by destruct line|].
    destruct src'; simpl in *. by rewrite HB.
Qed.

(** A line the connection ends in the middle of is reported as one that is too long. *)
Lemma cut_line_is_too_large max s : LF ∉ s → s ≠ [] → Z.of_nat (length s) < Z.min (max + 1) u64_max →
  read_line max {| unread := s; broken := None |} = (Err WHeadersTooLarge, {| unread := []; broken := None |}).
Proof.
  intros Hs Hne Hl. unfold read_line. cbn [unread broken]. destruct (until_lf _ s) as [buf rest] eqn:E. apply until_lf_spec in E as (-> & Hb & Hc).
  rewrite length_app in Hl. destruct Hc as [(u & -> & _)|[Hn [Hlen|Hr]]]; [set_solver|lia|]. subst rest. rewrite app_nil_r in *.
  destruct (_ && _); rewrite (no_lf_last _ Hs); by destruct buf.
Qed.

(** Whatever is there, no more than the limit and one byte is taken. *)
Lemma read_line_takes max src r src' : 0 ≤ max → read_line max src = (r, src') →
  ∃ b, delivers src b src' ∧ Z.of_nat (length b) ≤ max + 1.
Proof.
  intros Hm. unfold read_line. destruct (until_lf _ _) as [buf rest] eqn:E. apply until_lf_spec in E as (Hs & Hl & _). intros H.
  assert (src' = {| unread := rest; broken := broken src |}) as -> by (repeat case_match; congruence).
  exists buf. split; [by split|lia].
Qed.

(** * Headers *)

(** A header as it stands on its line. *)
Definition header_text (line : bytes) (nv : bytes * bytes) : Prop :=
  ∃ raw before after, line = raw ++ bs ":" ++ before ++ nv.2 ++ after
    ∧ raw ≠ [] ∧ forallb is_token_byte raw = true ∧ nv.1 = (ascii_lower <$> raw)
    ∧ forallb is_ows before = true ∧ forallb is_ows after = true
    ∧ forallb is_field_byte nv.2 = true
    ∧ (∀ b, head nv.2 = Some b ∨ last nv.2 = Some b → is_ows b = false).

Lemma token_facts b : is_token_byte b = true → is_ows b = false ∧ byte_eqb 58 b = false ∧ byte_val (ascii_lower b) <? 128 = true ∧ b ≠ LF.
Proof.
  intros Hb. pose proof (byte_cases (λ b, implb (is_token_byte b) (negb (is_ows b) && negb (byte_eqb 58 b) && (byte_val (ascii_lower b) <? 128) && negb (bool_decide (b = LF)))) ltac:(by vm_compute) b) as H.
  cbv beta in H. rewrite Hb in H. simpl in H. repeat (apply andb_true_iff in H as [H ?]). bool_simpl. by rewrite Z.ltb_lt.
Qed.
Lemma field_facts b : is_field_byte b = true → byte_val b <? 128 = true ∧ b ≠ LF ∧ b ≠ CR.
Proof.
  intros Hb. pose proof (byte_cases (λ b, implb (is_field_byte b) ((byte_val b <? 128) && negb (bool_decide (b = LF)) && negb (bool_decide (b = CR)))) ltac:(by vm_compute) b) as H.
  cbv beta in H. rewrite Hb in H. simpl in H. repeat (apply andb_true_iff in H as [H ?]). bool_simpl. by rewrite Z.ltb_lt.
Qed.

Lemma skip_ows_spec s : ∃ before, s = before ++ skip_ows s ∧ forallb is_ows before = true ∧ ∀ b, head (skip_ows s) = Some b → is_ows b = false.
Proof.
  induction s as [|b s (before & IH1 & IH2 & IH3)]; [by exists []|]. simpl. destruct (is_ows b) eqn:E.
  - exists (b :: before). simpl. rewrite E. by rewrite <-IH1.
  - exists []. split_and!; [done..|]. by intros ? [= <-].
Qed.
Lemma skip_ows_drops before s : forallb is_ows before = true → (∀ b, head s = Some b → is_ows b = false) → skip_ows (before ++ s) = s.
Proof.
  induction before as [|b before IH]; simpl.
  - intros _ Hs. destruct s as [|c s]; [done|]. simpl. by rewrite (Hs c).
  - intros [-> H]%andb_true_iff. auto.
Qed.
Lemma forallb_rev {A} (f : A → bool) l : forallb f (rev l) = forallb f l.
Proof. induction l as [|x l IH]; [done|]. simpl. rewrite forallb_app, IH. simpl. by rewrite andb_true_r, andb_comm. Qed.
Lemma head_rev {A} (l : list A) : head (rev l) = last l.
Proof. destruct l as [|x l] using rev_ind; [done|]. by rewrite rev_app_distr, last_snoc. Qed.

Lemma trim_ows_spec s : ∃ before after, s = before ++ trim_ows s ++ after ∧ forallb is_ows before = true ∧ forallb is_ows after = true
  ∧ ∀ b, head (trim_ows s) = Some b ∨ last (trim_ows s) = Some b → is_ows b = false.
Proof.
  unfold trim_ows. destruct (skip_ows_spec s) as (before & H1 & H2 & H3). set (t := skip_ows s) in *.
  destruct (skip_ows_spec (rev t)) as (after & H4 & H5 & H6). set (u := skip_ows (rev t)) in *.
  assert (t = rev u ++ rev after) as Ht by by rewrite <-rev_app_distr, <-H4, rev_involutive.
  exists before, (rev after). split_and!; [by rewrite <-Ht|done|by rewrite forallb_rev|].
  intros b [Hb|Hb].
  - apply H3. rewrite Ht. destruct (rev u); [done|]. by rewrite <-Hb.
  - apply H6. by rewrite <-head_rev, rev_involutive in Hb.
Qed.
Lemma trim_ows_drops before v after : forallb is_ows before = true → forallb is_ows after = true →
  (∀ b, head v = Some b ∨ last v = Some b → is_ows b = false) → trim_ows (before ++ v ++ after) = v.
Proof.
  intros Hb Ha Hv. unfold trim_ows. destruct v as [|x v].
  - simpl. rewrite <-(app_nil_r (before ++ after)), skip_ows_drops; [done| |done]. by rewrite forallb_app, Hb, Ha.
  - rewrite skip_ows_drops; [|done|]. 2:{ intros b Hh. apply Hv. left. by destruct v. }
    rewrite rev_app_distr, skip_ows_drops; [apply rev_involutive|by rewrite forallb_rev|]. intros b Hh. apply Hv. right. by rewrite <-head_rev.
Qed.

Lemma split_once_inv c s w r : split_once c s = Some (w, r) → ∃ b, byte_val b = c ∧ s = w ++ b :: r ∧ free_of c w = true.
Proof.
  revert w. induction s as [|b s IH]; intros w H; [done|]. simpl in H. destruct (byte_eqb c b) eqn:E.
  - injection H as <- ->. exists b. split; [by apply Z.eqb_eq|done].
  - apply bind_Some in H as ([w' r'] & H & [= <- <-]). destruct (IH _ H) as (d & ? & -> & ?). exists d. split_and!; [done..|]. simpl. by rewrite E.
Qed.

Lemma forallb_mono {A} (f g : A → bool) l : (∀ x, f x = true → g x = true) → forallb f l = true → forallb g l = true.
Proof. intros H. induction l; simpl; [done|]. rewrite !andb_true_iff. naive_solver. Qed.

(** [parse_header] accepts exactly the lines that are a header, and one header only. *)
Lemma parse_header_exact line nv : parse_header line = Ok nv ↔ header_text line nv.
Proof.
  destruct nv as [n v]. unfold parse_header, header_text. cbn [fst snd]. split.
  - intros H. destruct (match line with b :: _ => is_ows b | [] => false end); [done|].
    destruct (split_once 58 line) as [[raw value]|] eqn:E; [|done]. cbn [ok_or mbind result_bind] in H.
    apply split_once_inv in E as (c & Hc & -> & _). destruct (is_nil raw) eqn:Hn; [done|].
    destruct (forallb is_token_byte raw) eqn:Ht; [|done]. destruct (forallb is_field_byte (trim_ows value)) eqn:Hf; [|done].
    simpl in H. destruct (utf8_valid (trim_ows value)); [|done]. destruct (utf8_valid (ascii_lower <$> raw)); [|done]. injection H as <- <-.
    destruct (trim_ows_spec value) as (before & after & Hv & H1 & H2 & H3). exists raw, before, after.
    split_and!; [|by destruct raw|done..]. rewrite <-Hv. f_equal. simpl. f_equal. by apply coqutil.Byte.byte.unsigned_inj.
  - intros (raw & before & after & -> & Hne & Ht & -> & Hb & Ha & Hf & Hv).
    assert (match raw ++ bs ":" ++ before ++ v ++ after with b :: _ => is_ows b | [] => false end = false) as ->.
    { destruct raw as [|b raw]; [done|]. simpl in *. apply andb_true_iff in Ht as [Ht _]. by apply token_facts. }
    cbn [app]. change (bs ":" ++ ?l) with (x3a :: l). rewrite (split_once_at 58 x3a) by (done || (eapply forallb_mono; [|exact Ht]; intros x Hx; by destruct (token_facts x Hx) as (_ & -> & _))).
    cbn [ok_or mbind result_bind]. rewrite Ht. destruct (is_nil raw) eqn:Hn; [by destruct raw|]. cbn [orb negb].
    rewrite trim_ows_drops by done. rewrite Hf. cbn [negb].
    rewrite (utf8_ascii v) by (eapply forallb_mono; [|exact Hf]; intros x Hx; by apply field_facts).
    rewrite (utf8_ascii (ascii_lower <$> raw)); [done|]. rewrite forallb_forall in Ht |- *. intros x (y & -> & Hy)%list_elem_of_In%list_elem_of_fmap.
    apply token_facts, Ht, list_elem_of_In, Hy.
Qed.

(** ** The block of headers *)

Definition header_bytes (lines : list bytes) : Z := Z.of_nat (length (concat lines)).
(** The lines of a header block within the limits, the blank line that ends it, and the
    map it stands for: no name twice. *)
Definition header_block (cfg : HttpConfig) (lines : list bytes) (nvs : list (bytes * bytes)) : Prop :=
  Forall2 header_text lines nvs ∧ Forall (is_line (max_header_line cfg)) lines ∧ is_line (max_header_line cfg) [] ∧ NoDup nvs.*1
  ∧ header_bytes lines ≤ Z.min u64_max (max_header_bytes cfg) ∧ Z.of_nat (length lines) ≤ max_headers cfg.
Definition block_bytes (lines : list bytes) : bytes := concat (crlf <$> lines) ++ crlf [].

Lemma bind_run {S E A B} (m : M S E A) (f : A → M S E B) s a s1 : m s = (Ok a, s1) → bind m f s = f a s1.
Proof. unfold bind. by intros ->. Qed.

Lemma header_text_nonempty line nv : header_text line nv → is_nil line = false.
Proof. intros (raw & ? & ? & -> & Hne & _). by destruct raw. Qed.

Lemma union_insert_fresh (m1 m2 : gmap bytes bytes) i x : m1 !! i = None → m1 ∪ <[i := x]> m2 = <[i := x]> m1 ∪ m2.
Proof. intros H. by rewrite <-insert_union_r, insert_union_l. Qed.

Lemma read_headers_loop_exact cfg fuel hs total src hs' src' :
  total ≤ Z.min u64_max (max_header_bytes cfg) → Z.of_nat (size hs) ≤ max_headers cfg →
  read_headers_loop fuel cfg hs total src = (Ok hs', src') ↔
  ∃ lines nvs, delivers src (block_bytes lines) src' ∧ (length lines < fuel)%nat
    ∧ Forall2 header_text lines nvs ∧ Forall (is_line (max_header_line cfg)) lines ∧ is_line (max_header_line cfg) []
    ∧ NoDup nvs.*1 ∧ (∀ n, n ∈ nvs.*1 → hs !! n = None) ∧ hs' = list_to_map nvs ∪ hs
    ∧ total + header_bytes lines ≤ Z.min u64_max (max_header_bytes cfg) ∧ Z.of_nat (size hs + length lines) ≤ max_headers cfg.
Proof.
  revert hs total src. induction fuel as [|fuel IH]; intros hs total src Ht Hs.
  { simpl. split; [done|]. intros (? & ? & ? & ? & _). lia. }
  cbn [read_headers_loop]. split.
  - intros H. apply bind_Ok_inv in H as (line & src1 & Hl & H). apply read_line_exact in Hl as [Hd Hli]. destruct (is_nil line) eqn:En.
    + destruct line; [|done]. unfold ret in H. simplify_eq. exists [], []. unfold block_bytes, header_bytes. simpl.
      split_and?; [done|lia|constructor|constructor|done|constructor|set_solver|by rewrite (left_id_L ∅ (∪))|lia|lia].
    + apply bind_Ok_inv in H as ([] & ? & [Hc1 ->]%fail_if_Ok_inv & H). apply bind_Ok_inv in H as ([] & ? & [Hc2 ->]%fail_if_Ok_inv & H).
      apply bind_Ok_inv in H as ([n v] & ? & [Hp ->]%lift_inv & H). apply bind_Ok_inv in H as ([] & ? & [Hc3 ->]%fail_if_Ok_inv & H).
      cbn [fst snd] in *. bool_simpl. apply parse_header_exact in Hp. assert (hs !! n = None) as Hn by (by apply eq_None_not_Some).
      assert (size (<[n:=v]> hs) = S (size hs)) as Hsz by by apply map_size_insert_None.
      apply IH in H; [|lia|lia]. destruct H as (lines & nvs & Hd' & Hf & H2 & H3 & H4 & H5 & H6 & -> & H7 & H8).
      assert (n ∉ nvs.*1) as Hfresh. { intros Hin. apply H6 in Hin. by rewrite lookup_insert_eq in Hin. }
      exists (line :: lines), ((n, v) :: nvs). unfold block_bytes, header_bytes in *. cbn [fmap list_fmap concat] in *. rewrite <-(assoc_L (++)).
      split_and?; [by eapply delivers_app|simpl; lia|by constructor|by constructor|done|by constructor| | |rewrite length_app; lia|simpl; lia].
      * intros m [->|Hm]%elem_of_cons; [done|]. pose proof (H6 _ Hm) as Hx. rewrite lookup_insert_ne in Hx; [done|set_solver].
      * cbn [list_to_map foldr uncurry fst snd]. simpl. apply union_insert_fresh. by apply not_elem_of_list_to_map_1.
  - intros (lines & nvs & Hd & Hf & H2 & H3 & H4 & H5 & H6 & -> & H7 & H8). destruct lines as [|line lines].
    + inversion H2; subst. rewrite (bind_run _ _ _ [] src'); [|by apply read_line_exact]. simpl. unfold ret. by rewrite (left_id_L ∅ (∪)).
    + inversion H2 as [|? [n v] ? nvs' Hx H2']; subst. inversion H3 as [|? ? Hy H3']; subst. inversion H5 as [|? ? Hfresh H5']; subst.
      unfold block_bytes, header_bytes in *. cbn [fmap list_fmap concat] in *. rewrite <-(assoc_L (++)) in Hd. rewrite length_app in H7.
      destruct Hd as [E HB]. rewrite <-(assoc_L (++)) in E.
      set (src1 := {| unread := (concat (crlf <$> lines) ++ crlf []) ++ unread src'; broken := broken src |}).
      rewrite (bind_run _ _ _ line src1); [|by apply read_line_exact]. rewrite (header_text_nonempty _ _ Hx).
      assert (hs !! n = None) as Hn by (apply H6; by left). assert (size (<[n:=v]> hs) = S (size hs)) as Hsz by by apply map_size_insert_None.
      simpl in H8, Hf. unfold bind at 1, fail_if at 1.
      assert ((total + Z.of_nat (length line) <=? u64_max) && (total + Z.of_nat (length line) <=? max_header_bytes cfg) = true) as -> by (apply andb_true_iff; rewrite !Z.leb_le; lia).
      cbn [negb]. unfold bind at 1, fail_if at 1. replace (max_headers cfg <=? Z.of_nat (size hs)) with false by (symmetry; apply Z.leb_gt; lia).
      unfold bind at 1, lift. apply parse_header_exact in Hx. rewrite Hx. unfold bind at 1, fail_if at 1. cbn [fst snd].
      rewrite bool_decide_eq_false_2 by (rewrite Hn; by apply is_Some_None). apply IH; [lia|lia|]. exists lines, nvs'.
      split_and?; [by split|lia|done|done|done|done| | |lia|lia].
      * intros m Hm. rewrite lookup_insert_ne; [apply H6; by right|]. intros ->. by apply Hfresh.
      * simpl. symmetry. apply union_insert_fresh. by apply not_elem_of_list_to_map_1.
Qed.

Lemma read_headers_exact cfg src hs src' :
  0 ≤ max_header_bytes cfg → 0 ≤ max_headers cfg →
  read_headers cfg src = (Ok hs, src') ↔
  ∃ lines nvs, delivers src (block_bytes lines) src' ∧ header_block cfg lines nvs ∧ hs = list_to_map nvs.
Proof.
  intros Hb Hn. unfold read_headers, header_block. rewrite read_headers_loop_exact by (rewrite ?map_size_empty; unfold u64_max; lia).
  rewrite map_size_empty. split.
  - intros (lines & nvs & Hd & Hf & H2 & H3 & H4 & H5 & _ & -> & H7 & H8). exists lines, nvs. rewrite (right_id_L ∅ (∪)).
    split_and?; (done || lia).
  - intros (lines & nvs & Hd & (H2 & H3 & H4 & H5 & H7 & H8) & ->). exists lines, nvs. rewrite (right_id_L ∅ (∪)).
    split_and?; (done || lia).
Qed.

(** The turns given are enough: any more read the same. *)
Lemma read_headers_fuel cfg k : ∀ n hs total src, max_headers cfg ≤ Z.of_nat (size hs + n) →
  read_headers_loop (S n + k) cfg hs total src = read_headers_loop (S n) cfg hs total src.
Proof.
  induction n as [|n IH]; intros hs total src Hn; cbn [read_headers_loop Nat.add]; unfold bind, fail_if;
    destruct (read_line (max_header_line cfg) src) as [[line|] src1]; try done; destruct (is_nil line); try done;
    destruct (negb _); try done; destruct (Z.leb_spec (max_headers cfg) (Z.of_nat (size hs))) as [|Hlt]; try done; [lia|].
  unfold lift. destruct (parse_header line) as [[m v]|]; try done. cbn [fst snd]. case_bool_decide as Hc; try done.
  apply (IH (<[m:=v]> hs)). rewrite map_size_insert_None by (by apply eq_None_not_Some). lia.
Qed.

(** * Requests *)

Lemma split_on_nonempty c s : split_on c s ≠ [].
Proof. destruct s as [|b s]; [done|]. simpl. destruct (byte_eqb c b); [done|]. by destruct (split_on c s). Qed.

(** The words a split gives are the words it was split at. *)
Lemma split_on_inv c s w ws : split_on c s = w :: ws →
  free_of c w = true ∧ match ws with [] => s = w | _ => ∃ b r, byte_val b = c ∧ s = w ++ b :: r ∧ split_on c r = ws end.
Proof.
  revert w ws. induction s as [|b s IH]; intros w ws H; simpl in H; [by simplify_eq|]. destruct (byte_eqb c b) eqn:E.
  - simplify_eq. split; [done|]. destruct (split_on c s) eqn:Es; [by destruct (split_on_nonempty c s)|]. exists b, s. split_and!; [by apply Z.eqb_eq|done|done].
  - destruct (split_on c s) as [|w' ws'] eqn:Es; [by destruct (split_on_nonempty c s)|]. simplify_eq. destruct (IH _ _ eq_refl) as [Hw Hs].
    simpl. rewrite E. split; [done|]. destruct ws as [|? ?]; [by rewrite Hs|]. destruct Hs as (d & r & ? & -> & ?). by exists d, r.
Qed.

Definition space : byte := byte_of 32.
Definition request_line (m : HttpMethod) (target version : bytes) : bytes := HttpMethod_as_str m ++ space :: target ++ space :: version.

Lemma HttpMethod_parse_exact b m : HttpMethod_parse b = Ok m ↔ b = HttpMethod_as_str m.
Proof. unfold HttpMethod_parse. repeat case_bool_decide; subst; destruct m; naive_solver. Qed.

Lemma parse_request_line_exact line m target version :
  parse_request_line line = Ok (m, target, version) ↔
  line = request_line m target version ∧ starts_with (bs "/") target = true ∧ free_of 32 target = true ∧ free_of 32 version = true.
Proof.
  unfold parse_request_line, request_line. split.
  - destruct (split_on 32 line) as [|w1 [|w2 [|w3 [|]]]] eqn:E; try done. intros H.
    destruct (starts_with (bs "/") w2) eqn:Hs; [|done]. simpl in H. destruct (HttpMethod_parse w1) eqn:Hm; [|done]. simpl in H. simplify_eq.
    apply HttpMethod_parse_exact in Hm as ->. apply split_on_inv in E as (_ & b & r & Hb & -> & E).
    apply split_on_inv in E as (Ht & b' & r' & Hb' & -> & E). apply split_on_inv in E as (Hv & ->).
    by rewrite (byte_val_inj b space), (byte_val_inj b' space).
  - intros (-> & Hs & Ht & Hv). rewrite split_on_app by (done || by destruct m). rewrite split_on_app by done. rewrite split_on_free by done.
    rewrite Hs. cbn [negb]. by rewrite (proj2 (HttpMethod_parse_exact _ m) eq_refl).
Qed.

Definition version_text (http_11 : bool) : bytes := bs (if http_11 then "HTTP/1.1" else "HTTP/1.0").
Lemma version_11_exact v b : version_11 v = Ok b ↔ v = version_text b.
Proof. unfold version_11. repeat case_bool_decide; subst; destruct b; naive_solver. Qed.

(** The length a header block announces for the body. *)
Definition announces (hs : gmap bytes bytes) (len : Z) : Prop :=
  match hs !! bs "content-length" with
  | None => len = 0
  | Some raw => raw ≠ [] ∧ digits raw ∧ digits_val 0 raw = len ∧ len ≤ u64_max
  end.

Lemma content_length_exact hs len : content_length hs = Ok len ↔ announces hs len.
Proof.
  unfold content_length, announces. destruct (hs !! bs "content-length") as [raw|]; [|naive_solver].
  destruct (is_nil raw) eqn:Hn; [destruct raw; naive_solver|]. assert (raw ≠ []) as Hne by (by intros ->).
  destruct (forallb is_ascii_digit raw) eqn:Hd; [|simpl; naive_solver]. simpl. unfold Account.parse_u64. rewrite parse_u128_spec by done.
  destruct (Z.leb_spec (digits_val 0 raw) u128_max); simpl; [|unfold u64_max, u128_max in *; naive_solver lia].
  destruct (Z.leb_spec (digits_val 0 raw) u64_max); simpl; naive_solver lia.
Qed.

Lemma announces_nonneg hs len : announces hs len → 0 ≤ len.
Proof. unfold announces. destruct (hs !! _); [|lia]. intros (_ & Hd & <- & _). by apply digits_val_ge. Qed.

Lemma read_request_body_exact len src body src' : 0 ≤ len →
  read_request_body len src = (Ok body, src') ↔ delivers src body src' ∧ Z.of_nat (length body) = len.
Proof.
  intros Hl. unfold read_request_body, delivers. destruct (Z.leb_spec len 0).
  - split; [intros [= <- <-]; split; [done|simpl; lia]|]. intros [[E HB] Hlen]. destruct body; [|simpl in *; lia]. destruct src, src'. simpl in *. by simplify_eq.
  - rewrite length_take. destruct (Nat.ltb_spec (Z.to_nat len `min` length (unread src)) (Z.to_nat len)) as [Hlt|Hge].
    + split; [by destruct (broken src)|]. intros [[E HB] Hlen]. rewrite E, length_app in Hlt. lia.
    + split.
      * intros [= <- <-]. simpl. rewrite take_drop, length_take. split; [done|lia].
      * intros [[E HB] Hlen]. rewrite E. rewrite take_app_length', drop_app_length' by lia. destruct src'. simpl in *. by rewrite HB.
Qed.

(** The usizes of a configuration. *)
Definition limits_ok (cfg : HttpConfig) : Prop :=
  0 ≤ max_request_line cfg ∧ 0 ≤ max_header_line cfg ∧ 0 ≤ max_header_bytes cfg ∧ 0 ≤ max_headers cfg ∧ 0 ≤ max_body_bytes cfg.

(** The grammar: the bytes that are a request, and the request they are. *)
Definition request_wire (cfg : HttpConfig) (wire : bytes) (rq : HttpRequest) : Prop :=
  ∃ target http_11 lines nvs,
    let line := request_line (rq_method rq) target (version_text http_11) in
    wire = crlf line ++ block_bytes lines ++ rq_body rq
    ∧ is_line (max_request_line cfg) line
    ∧ starts_with (bs "/") target = true ∧ free_of 32 target = true ∧ parse_target target = Ok (segments rq, params rq)
    ∧ header_block cfg lines nvs ∧ headers rq = list_to_map nvs
    ∧ headers rq !! bs "transfer-encoding" = None
    ∧ announces (headers rq) (Z.of_nat (length (rq_body rq))) ∧ Z.of_nat (length (rq_body rq)) ≤ max_body_bytes cfg
    ∧ keep_alive rq = stays_open http_11 (headers rq).

Lemma read_request_iff cfg src rq src' : limits_ok cfg →
  read_request cfg src = (Ok rq, src') ↔ ∃ wire, delivers src wire src' ∧ request_wire cfg wire rq.
Proof.
  intros (_ & _ & Hb & Hn & _). unfold read_request, request_wire. split.
  - intros H. apply bind_Ok_inv in H as (line & s1 & H1%wrap_err_Ok_inv%read_line_exact & H). destruct H1 as [D1 L1].
    apply bind_Ok_inv in H as ([] & ? & [_ ->]%fail_if_Ok_inv & H).
    apply bind_Ok_inv in H as ([[m target] version] & ? & [Hp ->]%lift_inv & H). apply parse_request_line_exact in Hp as (-> & Hs & Ht & _).
    apply bind_Ok_inv in H as ([segs ps] & ? & [Hpt ->]%lift_inv & H).
    apply bind_Ok_inv in H as (hs & s2 & H2 & H). apply read_headers_exact in H2 as (lines & nvs & D2 & Hblock & ->); [|done..].
    apply bind_Ok_inv in H as (b & ? & [->%version_11_exact ->]%lift_inv & H).
    apply bind_Ok_inv in H as ([] & ? & [Hte ->]%fail_if_Ok_inv & H). apply bool_decide_eq_false_1, eq_None_not_Some in Hte.
    apply bind_Ok_inv in H as (len & ? & [Hlen%content_length_exact ->]%lift_inv & H).
    apply bind_Ok_inv in H as ([] & ? & [Hmax ->]%fail_if_Ok_inv & H). apply Z.ltb_ge in Hmax.
    apply bind_Ok_inv in H as (body & s3 & H3 & H). apply read_request_body_exact in H3 as [D3 Hbl]; [|by eapply announces_nonneg].
    apply ret_inv in H as [[= ->] ->]. eexists. split; [eapply delivers_app; [exact D1|eapply delivers_app; [exact D2|exact D3]]|].
    exists target, b, lines, nvs. cbn [rq_method segments params headers rq_body keep_alive fst snd]. rewrite Hbl.
    split_and?; done.
  - intros (wire & D & target & b & lines & nvs & -> & L1 & Hs & Ht & Hpt & Hblock & Hhs & Hte & Hlen & Hmax & Hka).
    destruct D as [E HB]. rewrite <-!(assoc_L (++)) in E.
    set (s1 := {| unread := block_bytes lines ++ rq_body rq ++ unread src'; broken := broken src |}).
    set (s2 := {| unread := rq_body rq ++ unread src'; broken := broken src |}).
    rewrite (bind_run _ _ _ (request_line (rq_method rq) target (version_text b)) s1).
    2:{ unfold wrap_err. assert (read_line (max_request_line cfg) src = (Ok (request_line (rq_method rq) target (version_text b)), s1)) as ->; [|done].
        by apply read_line_exact. }
    unfold bind at 1, fail_if at 1. assert (is_nil (request_line (rq_method rq) target (version_text b)) = false) as -> by by destruct (rq_method rq).
    unfold bind at 1, lift at 1. rewrite (proj2 (parse_request_line_exact _ _ _ _)) by (split_and?; [done..|by destruct b]).
    unfold bind at 1, lift at 1. rewrite Hpt.
    rewrite (bind_run _ _ _ (headers rq) s2). 2:{ apply read_headers_exact; [done..|]. exists lines, nvs. by split_and?. }
    unfold bind at 1, lift at 1. rewrite (proj2 (version_11_exact _ b) eq_refl). unfold bind at 1, fail_if at 1. rewrite Hte, bool_decide_eq_false_2 by apply is_Some_None.
    unfold bind at 1, lift at 1. rewrite (proj2 (content_length_exact _ _) Hlen). unfold bind at 1, fail_if at 1.
    replace (max_body_bytes cfg <? Z.of_nat (length (rq_body rq))) with false by (symmetry; by apply Z.ltb_ge).
    rewrite (bind_run _ _ _ (rq_body rq) src'). 2:{ apply read_request_body_exact; [lia|]. split; [by split|done]. }
    unfold ret. cbn [fst snd]. rewrite <-Hka. by destruct rq.
Qed.

(** C27: the reader reads one grammar and nothing else.  A request is returned exactly when the
    connection starts with bytes that are that request: a request line of three fields, a
    header block with no name twice, no transfer coding, and the body the one content
    length announces, all within the limits; and what is left is what follows them.  And a
    stream has one reading: of two requests that start it the bytes and the request are
    the same, so no second reader of this grammar can put the boundary elsewhere. *)
Theorem read_request_exact cfg : limits_ok cfg →
  (∀ src rq src', read_request cfg src = (Ok rq, src') ↔ ∃ wire, delivers src wire src' ∧ request_wire cfg wire rq)
  ∧ (∀ wire1 rq1 rest1 wire2 rq2 rest2, request_wire cfg wire1 rq1 → request_wire cfg wire2 rq2 →
       wire1 ++ rest1 = wire2 ++ rest2 → wire1 = wire2 ∧ rq1 = rq2 ∧ rest1 = rest2).
Proof.
  intros Hok. split; [intros; by apply read_request_iff|]. intros wire1 rq1 rest1 wire2 rq2 rest2 H1 H2 E.
  set (src rest := {| unread := rest; broken := None |}).
  assert (read_request cfg (src (wire1 ++ rest1)) = (Ok rq1, src rest1)) as R1 by (apply read_request_iff; [done|by exists wire1]).
  assert (read_request cfg (src (wire2 ++ rest2)) = (Ok rq2, src rest2)) as R2 by (apply read_request_iff; [done|by exists wire2]).
  rewrite E, R2 in R1. assert (rest1 = rest2) as <- by (unfold src in R1; congruence). by apply app_inv_tail in E as ->; simplify_eq.
Qed.

(** ** How much a request may take *)

(** Whatever comes of it, [m] takes at most [n] bytes off the connection. *)
Definition takes {A} (m : M Source HttpError A) (n : Z) : Prop :=
  ∀ src r src', m src = (r, src') → ∃ b, delivers src b src' ∧ Z.of_nat (length b) ≤ n.

Lemma takes_weaken {A} (m : M Source HttpError A) n n' : takes m n → n ≤ n' → takes m n'.
Proof. intros H Hn src r src' E. destruct (H _ _ _ E) as (b & ? & ?). exists b. split; [done|lia]. Qed.
Lemma takes_bind {A B} (m : M Source HttpError A) (f : A → M Source HttpError B) n k :
  takes m n → 0 ≤ k → (∀ a, takes (f a) k) → takes (bind m f) (n + k).
Proof.
  intros Hm Hk Hf src r src' E. unfold bind in E. destruct (m src) as [[a|e] s1] eqn:E1; destruct (Hm _ _ _ E1) as (b1 & D1 & L1).
  - destruct (Hf _ _ _ _ E) as (b2 & D2 & L2). exists (b1 ++ b2). split; [by eapply delivers_app|rewrite length_app; lia].
  - injection E as <- <-. exists b1. split; [done|lia].
Qed.
(** Steps that only look. *)
Lemma takes_bind_0 {A B} (m : M Source HttpError A) (f : A → M Source HttpError B) k :
  takes m 0 → 0 ≤ k → (∀ a, takes (f a) k) → takes (bind m f) k.
Proof. intros. apply (takes_bind m f 0 k); done. Qed.
Lemma takes_quiet {A} (m : M Source HttpError A) n : (∀ src, (m src).2 = src) → 0 ≤ n → takes m n.
Proof. intros Hm Hn src r src' E. specialize (Hm src). rewrite E in Hm. simpl in Hm. subst. exists []. split; [apply delivers_nil|done]. Qed.

Lemma takes_guard {A} c e (k : unit → M Source HttpError A) n : (c = false → takes (k tt) n) → 0 ≤ n → takes (bind (fail_if c e) k) n.
Proof.
  intros Hk Hn src r src' E. unfold bind, fail_if in E. destruct c; [|by eapply Hk].
  injection E as <- <-. exists []. by split.
Qed.

Lemma read_request_body_takes len n : len ≤ n → 0 ≤ n → takes (read_request_body len) n.
Proof.
  intros Hl Hn src r src'. unfold read_request_body. destruct (Z.leb_spec len 0); intros E.
  - simplify_eq. exists []. split; [apply delivers_nil|done].
  - assert (src' = {| unread := drop (Z.to_nat len) (unread src); broken := broken src |}) as -> by (repeat case_match; congruence).
    exists (take (Z.to_nat len) (unread src)). split; [split; simpl; [by rewrite take_drop|done]|rewrite length_take; lia].
Qed.

Lemma read_headers_takes cfg fuel hs total : 0 ≤ max_header_line cfg →
  takes (read_headers_loop fuel cfg hs total) (Z.of_nat fuel * (max_header_line cfg + 1)).
Proof.
  intros Hm. revert hs total. induction fuel as [|fuel IH]; intros hs total; [by apply takes_quiet; [|lia]|].
  cbn [read_headers_loop]. replace (Z.of_nat (S fuel) * (max_header_line cfg + 1)) with ((max_header_line cfg + 1) + Z.of_nat fuel * (max_header_line cfg + 1)) by lia.
  apply takes_bind; [intros ? ? ?; by apply read_line_takes|lia|]. intros line. destruct (is_nil line); [apply takes_quiet; [done|lia]|].
  repeat (apply takes_bind_0; [by apply takes_quiet|lia|intros []]). apply IH.
Qed.

(** A request costs a bounded number of bytes.  Whatever a client sends, well formed or
    not, one call of the reader takes at most the request line, [max_headers + 1] header
    lines and the body off the connection, each within its limit. *)
Theorem read_request_bounded cfg : limits_ok cfg →
  takes (read_request cfg)
    ((max_request_line cfg + 1) + (max_headers cfg + 1) * (max_header_line cfg + 1) + max_body_bytes cfg).
Proof.
  intros (H1 & H2 & H3 & H4 & H5). unfold read_request. rewrite <-(assoc_L Z.add).
  apply takes_bind; [|nia|].
  { intros src r src' E. unfold wrap_err in E. destruct (read_line _ src) as [r' s'] eqn:El. injection E as <- <-. by eapply read_line_takes. }
  intros line. apply takes_bind_0; [by apply takes_quiet|nia|intros []]. apply takes_bind_0; [by apply takes_quiet|nia|intros [[m target] version]].
  apply takes_bind_0; [by apply takes_quiet|nia|intros [segs ps]].
  apply takes_bind; [|lia|].
  { eapply takes_weaken; [by apply read_headers_takes|]. lia. }
  intros hs. apply takes_bind_0; [by apply takes_quiet|lia|intros b]. apply takes_bind_0; [by apply takes_quiet|lia|intros []].
  apply takes_bind_0; [by apply takes_quiet|lia|intros len].
  apply takes_guard; [intros Hlen%Z.ltb_ge|lia]. eapply takes_weaken; [apply (takes_bind _ _ (max_body_bytes cfg) 0)|lia];
    [by apply read_request_body_takes|lia|]. intros body. by apply takes_quiet.
Qed.

(** * Targets *)

Definition escaped_byte (b : byte) : bool := unreserved b || byte_eqb 37 b.
Lemma escaped_facts b : escaped_byte b = true →
  byte_val b <? 128 = true ∧ byte_eqb 47 b = false ∧ byte_eqb 63 b = false ∧ byte_eqb 61 b = false ∧ byte_eqb 38 b = false ∧ byte_eqb 32 b = false.
Proof.
  intros Hb. pose proof (byte_cases (λ b, implb (escaped_byte b)
    ((byte_val b <? 128) && (negb (byte_eqb 47 b) && (negb (byte_eqb 63 b) && (negb (byte_eqb 61 b) && (negb (byte_eqb 38 b) && negb (byte_eqb 32 b))))))) ltac:(by vm_compute) b) as H.
  cbv beta in H. rewrite Hb in H. simpl in H. rewrite !andb_true_iff, !negb_true_iff in H. by rewrite Z.ltb_lt in *.
Qed.
Lemma encode_escaped s : forallb escaped_byte (encode_component s) = true.
Proof.
  induction s as [|b s IH]; [done|]. rewrite encode_component_cons, forallb_app, IH, andb_true_r.
  exact (byte_cases (λ b, forallb escaped_byte (if unreserved b then [b] else escape b)) ltac:(by vm_compute) b).
Qed.
Lemma encode_free_of c s : (∀ b, escaped_byte b = true → byte_eqb c b = false) → free_of c (encode_component s) = true.
Proof. intros H. eapply forallb_mono; [|apply encode_escaped]. intros b Hb. by rewrite (H b Hb). Qed.
Lemma encode_utf8 s : utf8_valid (encode_component s) = true.
Proof. apply utf8_ascii. eapply forallb_mono; [|apply encode_escaped]. intros b Hb. by apply escaped_facts. Qed.
Lemma encode_nil s : encode_component s = [] → s = [].
Proof. destruct s as [|b s]; [done|]. rewrite encode_component_cons. by destruct (unreserved b). Qed.

Lemma hexdigit_digit b : is_ascii_hexdigit b = bool_decide (is_Some (to_digit16 b)).
Proof. unfold is_ascii_hexdigit, to_digit16. repeat (destruct (in_range _ _ b); simpl; try done). Qed.

Lemma percent_bytes_encode s : percent_bytes (encode_component s) = Ok s.
Proof.
  induction s as [|b s IH]; [done|]. rewrite encode_component_cons. destruct (escape_digits b) as (H1 & H2 & H3 & H4 & _). destruct (unreserved b).
  - cbn [app percent_bytes]. rewrite H4 by done. by rewrite IH.
  - set (hi := hex_upper (byte_val b / 16)) in *. set (lo := hex_upper (byte_val b mod 16)) in *. change (escape b) with [byte_of 37; hi; lo].
    cbn [app percent_bytes]. change (byte_eqb 37 (byte_of 37)) with true. rewrite !hexdigit_digit, H1, H2. simpl. rewrite IH. simpl. by rewrite H3.
Qed.

Definition plain_text (s : bytes) : Prop := utf8_valid s = true ∧ has_control s = false.
Definition segment_ok (s : bytes) : Prop := plain_text s ∧ s ≠ [] ∧ s ≠ bs "." ∧ s ≠ bs "..".

Lemma percent_decode_encode s : plain_text s → percent_decode (encode_component s) = Ok s.
Proof. intros [H1 H2]. unfold percent_decode. rewrite percent_bytes_encode. simpl. by rewrite H1, H2. Qed.

(** The target a client writes for these segments and parameters. *)
Definition path_text (segs : list bytes) : bytes :=
  match segs with [] => bs "/" | _ => concat ((λ s, bs "/" ++ encode_component s) <$> segs) end.
Definition query_text (ps : list (bytes * bytes)) : bytes := join ((λ nv, param (encode_component nv.1) (encode_component nv.2)) <$> ps).
Definition target_text (segs : list bytes) (ps : list (bytes * bytes)) : bytes :=
  path_text segs ++ match ps with [] => [] | _ => bs "?" ++ query_text ps end.

Lemma slash_free s : free_of 47 (encode_component s) = true.
Proof. apply encode_free_of. intros b Hb. by apply escaped_facts. Qed.

Lemma split_on_concat c b w l : byte_val b = c → free_of c w = true → forallb (free_of c) l = true →
  split_on c (w ++ concat ((λ s, b :: s) <$> l)) = w :: l.
Proof.
  intros Hb. revert w. induction l as [|s l IH]; intros w Hw Hl; simpl in *.
  - rewrite app_nil_r. by apply split_on_free.
  - apply andb_true_iff in Hl as [Hs Hl]. rewrite split_on_app by done. by rewrite IH.
Qed.

Lemma path_splits segs : Forall segment_ok segs → decode_segments (split_on 47 (path_text segs)) = Ok segs.
Proof.
  intros Hs. assert (decode_segments (encode_component <$> segs) = Ok segs) as Hd.
  { induction Hs as [|s l (Hp & H1 & H2 & H3) Hl IH]; [done|]. cbn [fmap list_fmap decode_segments].
    destruct (is_nil (encode_component s)) eqn:En; [exfalso; apply H1, encode_nil; by destruct (encode_component s)|].
    rewrite percent_decode_encode by done. cbn [mbind result_bind]. rewrite !bool_decide_eq_false_2 by done. cbn [orb]. by rewrite IH. }
  destruct segs as [|s0 segs0]; [done|]. unfold path_text.
  pose proof (split_on_concat 47 (byte_of 47) [] (encode_component <$> (s0 :: segs0)) eq_refl eq_refl) as H.
  rewrite <-list_fmap_compose in H. cbn [app] in H. change (λ s, bs "/" ++ encode_component s) with ((λ s : bytes, byte_of 47 :: s) ∘ encode_component).
  rewrite H; [done|]. rewrite forallb_forall. intros x (s & -> & _)%list_elem_of_In%list_elem_of_fmap. apply slash_free.
Qed.

Lemma decode_pair_param n v : plain_text n → plain_text v →
  decode_pair (param (encode_component n) (encode_component v)) = Ok (n, v).
Proof.
  intros Hn Hv. unfold decode_pair, param. change (bs "=" ++ ?x) with (byte_of 61 :: x).
  rewrite (split_once_at 61) by (done || (apply encode_free_of; intros b Hb; by apply escaped_facts)).
  by rewrite !percent_decode_encode by done.
Qed.

Lemma params_decode ps : Forall (λ nv, plain_text nv.1 ∧ plain_text nv.2) ps → NoDup ps.*1 → ∀ m : gmap bytes bytes, (∀ n, n ∈ ps.*1 → m !! n = None) →
  decode_params ((λ nv, param (encode_component nv.1) (encode_component nv.2)) <$> ps) m = Ok (list_to_map ps ∪ m).
Proof.
  intros Hp. induction Hp as [|[n v] ps [Hn Hv] Hp IH]; intros Hd m Hm; [simpl; by rewrite (left_id_L ∅ (∪))|]. cbn [fmap list_fmap fst snd] in *.
  inversion Hd as [|? ? Hfresh Hd']; subst. cbn [decode_params].
  assert (is_nil (param (encode_component n) (encode_component v)) = false) as ->. { unfold param. by destruct (encode_component n). }
  rewrite decode_pair_param by done. cbn [mbind result_bind]. rewrite bool_decide_eq_false_2 by (rewrite Hm by (by left); by apply is_Some_None).
  rewrite IH; [|done|].
  - simpl. f_equal. apply union_insert_fresh. by apply not_elem_of_list_to_map_1.
  - intros k Hk. rewrite lookup_insert_ne; [apply Hm; by right|]. intros ->. by apply Hfresh.
Qed.

(** A target says what its author wrote.  Segments and parameters written with
    percent-escapes come back as they were, a slash or an ampersand inside one included,
    so escaping can neither split a segment nor add a parameter. *)
Theorem target_roundtrip segs ps :
  Forall segment_ok segs → Forall (λ nv, plain_text nv.1 ∧ plain_text nv.2) ps → NoDup ps.*1 →
  parse_target (target_text segs ps) = Ok (segs, list_to_map ps).
Proof.
  intros Hs Hp Hd. unfold parse_target.
  assert (free_of 63 (path_text segs) = true ∧ forallb (λ b, byte_val b <? 128) (path_text segs) = true) as [Hq Hpa].
  { unfold path_text. destruct segs as [|s0 segs0]; [done|]. generalize (s0 :: segs0) as l. intros l.
    assert (forallb (λ b, escaped_byte b || byte_eqb 47 b) (concat ((λ s, bs "/" ++ encode_component s) <$> l)) = true) as H.
    { induction l as [|s l IH]; [done|]. cbn [fmap list_fmap concat]. rewrite !forallb_app, IH, andb_true_r. cbn [forallb andb bs]. simpl.
      eapply forallb_mono; [|apply encode_escaped]. by intros b ->. }
    split; (eapply forallb_mono; [|exact H]); intros b Hb; simpl in Hb;
      apply orb_true_iff in Hb as [Hb|Hb]; try (destruct (escaped_facts b Hb) as (F1 & F2 & F3 & _); by rewrite ?F3);
      unfold byte_eqb in *; apply Z.eqb_eq in Hb; by rewrite Hb. }
  assert (utf8_valid (target_text segs ps) = true) as ->.
  { apply utf8_ascii. unfold target_text. rewrite forallb_app, Hpa. destruct ps as [|p ps']; [done|]. rewrite forallb_app. cbn [andb].
    unfold query_text. generalize (p :: ps') as l. intros l. simpl.
    assert (∀ nv : bytes * bytes, forallb (λ b, byte_val b <? 128) (param (encode_component nv.1) (encode_component nv.2)) = true) as Hpar.
    { intros nv. unfold param. rewrite !forallb_app. cbn. rewrite andb_true_iff. split; (eapply forallb_mono; [|apply encode_escaped]; intros b Hb; by apply escaped_facts). }
    induction l as [|nv l IH]; [done|]. cbn [fmap list_fmap join]. destruct l as [|nv' l]; [apply Hpar|].
    cbn [fmap list_fmap] in *. rewrite !forallb_app, Hpar. simpl in *. exact IH. }
  cbn [negb]. unfold target_text. destruct ps as [|p ps'].
  - rewrite app_nil_r.
    assert (split_once 63 (path_text segs) = None) as ->.
    { clear -Hq. induction (path_text segs) as [|b s IH]; [done|]. simpl in *. apply andb_true_iff in Hq as [Hb Hq]. apply negb_true_iff in Hb. by rewrite Hb, IH. }
    rewrite path_splits by done. done.
  - change (bs "?" ++ ?x) with (byte_of 63 :: x). rewrite (split_once_at 63) by done. rewrite path_splits by done. cbn [mbind result_bind].
    unfold query_text. rewrite split_join; [|done|].
    2:{ rewrite forallb_forall. intros x (nv & -> & _)%list_elem_of_In%list_elem_of_fmap. unfold param. rewrite !free_of_app, !encode_free. done. }
    rewrite params_decode by (done || set_solver). cbn [mbind result_bind]. by rewrite (right_id_L ∅ (∪)).
Qed.

(** * Responses *)

Definition clean (s : bytes) : Prop := CR ∉ s ∧ LF ∉ s.
Definition cleanb (s : bytes) : bool := negb (existsb (λ b, bool_decide (b = CR) || bool_decide (b = LF)) s).
Lemma cleanb_clean s : cleanb s = true ↔ clean s.
Proof.
  unfold cleanb, clean. rewrite negb_true_iff. split.
  - intros H. split; intros Hin; apply not_true_iff_false in H; apply H; rewrite existsb_exists; eexists; (split; [by apply list_elem_of_In|]); done.
  - intros [H1 H2]. apply not_true_iff_false. rewrite existsb_exists. intros (b & Hb%list_elem_of_In & H). apply orb_true_iff in H as [->%bool_decide_eq_true| ->%bool_decide_eq_true]; done.
Qed.
Lemma clean_app a b : clean (a ++ b) ↔ clean a ∧ clean b.
Proof. unfold clean. rewrite !not_elem_of_app. naive_solver. Qed.

Definition header_of (nv : bytes * bytes) : bytes := nv.1 ++ bs ": " ++ nv.2.
Definition status_line (s : HttpStatus) : bytes := bs "HTTP/1.1 " ++ u64_to_string (status_code s) ++ bs " " ++ reason s.
(** The lines of a response's head: those whose value cannot end a line. *)
Definition head_lines (r : HttpResponse) (keep : bool) (cfg : HttpConfig) : list bytes :=
  status_line (rs_status r) :: (header_of <$> filter (λ nv, cleanb nv.2 = true) (response_headers r keep cfg)).

Lemma header_lines_kept hs : concat ((λ nv, header_line nv.1 nv.2) <$> hs) = concat ((λ nv, crlf (header_of nv)) <$> filter (λ nv, cleanb nv.2 = true) hs).
Proof.
  induction hs as [|nv hs IH]; [done|]. rewrite filter_cons. cbn [fmap list_fmap concat]. rewrite IH. unfold header_line, cleanb.
  destruct (existsb _ nv.2); cbn [negb]; [by rewrite decide_False|]. rewrite decide_True by done. cbn [fmap list_fmap concat]. unfold crlf, header_of. by rewrite <-!(assoc_L (++)).
Qed.

(** Where a client that reads line by line finds the end of the head. *)
Fixpoint split_head (fuel : nat) (s : bytes) : list bytes * bytes :=
  match fuel with
  | O => ([], s)
  | S fuel =>
      let '(buf, rest) := until_lf (length s) s in
      let line := removelast (removelast buf) in
      if is_nil line then ([], rest) else let '(ls, body) := split_head fuel rest in (line :: ls, body)
  end.

Lemma split_head_lines ls body fuel : Forall (λ l, clean l ∧ l ≠ []) ls → (length ls < fuel)%nat →
  split_head fuel (block_bytes ls ++ body) = (ls, body).
Proof.
  unfold block_bytes. revert fuel. induction ls as [|l ls IH]; intros [|fuel] Hl Hf; try (simpl in *; lia).
  - done.
  - inversion Hl as [|? ? [[Hc Hn] Hne] Hl']; subst. cbn [fmap list_fmap concat split_head].
    assert (∀ x, crlf l ++ x = (l ++ [CR]) ++ LF :: x) as Hsh by (intros x; unfold crlf; by rewrite <-!(assoc_L (++))).
    rewrite <-!(assoc_L (++)), Hsh, until_lf_line.
    + rewrite !removelast_snoc. destruct (is_nil l) eqn:En; [by destruct l|]. rewrite (assoc_L (++)), IH by (done || (simpl in Hf; lia)). done.
    + rewrite not_elem_of_app. split; [done|]. by rewrite list_elem_of_singleton.
    + rewrite !length_app. simpl. lia.
Qed.

Lemma u64_digits x : digits (u64_to_string x).
Proof.
  unfold u64_to_string. assert (∀ fuel x acc, digits acc → digits (dec_digits fuel x acc)) as H; [|by apply H].
  clear x. induction fuel as [|fuel IH]; intros x acc Ha; [done|]. simpl.
  assert (digits (digit (x mod 10) :: acc)) as Hd.
  { simpl. destruct (digit_val (x mod 10)) as [_ ->]; [|done]. pose proof (Z.mod_pos_bound x 10). lia. }
  destruct (x / 10 =? 0); [done|by apply IH].
Qed.
Lemma digits_clean s : digits s → clean s.
Proof.
  rewrite forallb_forall. intros Hd. split; intros Hin%list_elem_of_In%Hd; done.
Qed.

Lemma status_line_clean s : clean (status_line s) ∧ status_line s ≠ [].
Proof. split; [apply cleanb_clean; by destruct s; vm_compute|by destruct s]. Qed.

(** Nothing an answer carries can become part of another.  For header names that are
    words, a client reading the bytes of a response line by line finds the status line,
    then each header whose value holds no line break, in order, and then exactly the body,
    whose length a header states; a value with a line break is dropped whole. *)
Theorem response_framed r keep cfg :
  Forall (λ nv, clean nv.1) (extra r) →
  let head := head_lines r keep cfg in
  split_head (S (length head)) (write_response r keep cfg) = (head, rs_body r)
  ∧ header_of (bs "Content-Length", u64_to_string (Z.of_nat (length (rs_body r)))) ∈ head
  ∧ (∀ nv, nv ∈ response_headers r keep cfg → cleanb nv.2 = true → header_of nv ∈ head).
Proof.
  intros Hx. assert (∀ nv, nv ∈ response_headers r keep cfg → cleanb nv.2 = true → header_of nv ∈ head_lines r keep cfg) as Hin.
  { intros nv Hnv Hc. right. apply list_elem_of_fmap. exists nv. split; [done|]. by apply list_elem_of_filter. }
  split_and!; [|apply Hin|exact Hin].
  - assert (write_response r keep cfg = block_bytes (head_lines r keep cfg) ++ rs_body r) as ->.
    { unfold write_response, block_bytes, head_lines. rewrite header_lines_kept. cbn [fmap list_fmap concat]. rewrite <-list_fmap_compose.
      unfold status_line, crlf. by rewrite <-!(assoc_L (++)). }
    apply split_head_lines; [|lia]. constructor; [apply status_line_clean|]. rewrite Forall_forall. intros x (nv & -> & [Hc Hnv]%list_elem_of_filter)%list_elem_of_fmap.
    unfold header_of. split; [|by intros [_ [Hbad _]%app_nil]%app_nil]. rewrite !clean_app. split; [|split; [apply cleanb_clean; by vm_compute|by apply cleanb_clean]].
    unfold response_headers in Hnv. rewrite Forall_forall in Hx. apply elem_of_app in Hnv as [Hnv|[Hnv|Hnv]%elem_of_app].
    + repeat (apply elem_of_cons in Hnv as [->|Hnv]; [apply cleanb_clean; by vm_compute|]). by apply elem_of_nil in Hnv.
    + destruct (allow_origin cfg); [|by apply elem_of_nil in Hnv]. apply elem_of_cons in Hnv as [->|Hnv]; [apply cleanb_clean; by vm_compute|by apply elem_of_nil in Hnv].
    + by apply Hx.
  - by right; left.
  - apply cleanb_clean, digits_clean, u64_digits.
Qed.
