(* ===== verification/Json.v ===== *)
(** The developer's view of an answer ([crates/http/src/json.rs]): JSON written by hand.

    The code appends to one string; here each writer maps the text so far to the text it
    leaves, since [close] looks back at it.  A literal written is shown to read back as the
    text it was written for, wherever it stands. *)

From S2P Require Import Prelude SortedVec Codec Primitives Crypto Smt Store Account Alias Bech32 Votes Request Tx Executor Block Rpc.

#[local] Notation "x |> f" := (f x) (at level 45, left associativity, only parsing).

(** Text with [~] for the double quote. *)
Definition quoted (s : string) : bytes := (λ b, if byte_eqb 126 b then byte_of 34 else b) <$> bs s.
Definition push (s : bytes) (out : bytes) : bytes := out ++ s.

Definition is_control_byte (b : byte) : bool := in_range 0 31 b || byte_eqb 127 b.
(** [\u{:04x}] of a code point below 256. *)
Definition unicode_escape (b : byte) : bytes := bs "\u00" ++ hex_of [b].
(** The characters of [write_string]; U+0080 to U+009F are the bytes C2 80 to C2 9F. *)
Fixpoint escape_chars (s : bytes) : bytes :=
  match s with
  | [] => []
  | b :: s =>
      if byte_eqb 34 b || byte_eqb 92 b then byte_of 92 :: b :: escape_chars s
      else if byte_eqb 10 b then bs "\n" ++ escape_chars s
      else if byte_eqb 13 b then bs "\r" ++ escape_chars s
      else if byte_eqb 9 b then bs "\t" ++ escape_chars s
      else if is_control_byte b then unicode_escape b ++ escape_chars s
      else
        match s with
        | c :: s' => if byte_eqb 0xC2 b && in_range 0x80 0x9F c then unicode_escape c ++ escape_chars s' else b :: escape_chars s
        | [] => [b]
        end
  end.
Definition write_string (value out : bytes) : bytes := out ++ [byte_of 34] ++ escape_chars value ++ [byte_of 34].

Definition field_str (name value out : bytes) : bytes := out |> write_string name |> push (bs ":") |> write_string value |> push (bs ",").
Definition field_num (name : bytes) (value : Z) (out : bytes) : bytes :=
  out |> write_string name |> push (bs ":") |> push (u64_to_string value) |> push (bs ",").
Definition field_hash (name : bytes) (value : Hash32) (out : bytes) : bytes := out |> field_str name (hex_of value).
Definition drop_comma (out : bytes) : bytes := if bool_decide (last out = Some (byte_of 44)) then removelast out else out.
Definition close (out : bytes) : bytes := drop_comma out |> push (bs "}").

Section json.
Context {Hs : Hasher} {Sg : Signer} {Un : Unicode}.

Definition write_header (h : BlockHeader) (out : bytes) : bytes :=
  out |> push (bs "{")
  |> field_str (bs "chain_id") (h_chain_id h)
  |> field_num (bs "height") (h_height h)
  |> field_num (bs "time_ms") (h_time h)
  |> field_hash (bs "block_id") (BlockHeader_id h)
  |> field_hash (bs "parent") (parent h)
  |> field_hash (bs "tx_root") (h_tx_root h)
  |> field_hash (bs "app_hash") (h_app_hash h)
  |> field_hash (bs "outcome_root") (h_outcome_root h)
  |> field_hash (bs "validators_hash") (validators_hash h)
  |> field_hash (bs "next_validators_hash") (next_validators_hash h)
  |> close.

Definition write_commit (c : Commit) (out : bytes) : bytes :=
  out |> push (bs "{")
  |> field_num (bs "height") (c_height c)
  |> field_num (bs "round") (c_round c)
  |> field_hash (bs "block_id") (c_block_id c)
  |> field_num (bs "signatures") (Z.of_nat (length (Votes.signatures c)))
  |> field_str (bs "bytes") (hex_of (encode Commit_codec c))
  |> close.

Definition write_signed_header (s : SignedHeader) (out : bytes) : bytes :=
  out |> push (bs "{") |> write_string (bs "header") |> push (bs ":") |> write_header (sh_header s)
  |> push (bs ",") |> write_string (bs "commit") |> push (bs ":") |> write_commit (sh_commit s) |> push (bs "}").

Definition write_status (s : NodeStatus) (out : bytes) : bytes :=
  out |> push (bs "{") |> field_str (bs "chain_id") (st_chain_id s)
  |> write_string (bs "tip") |> push (bs ":") |> write_signed_header (st_tip s) |> push (bs "}").

Definition write_proved_value (v : ProvedValue) (out : bytes) : bytes :=
  out |> push (bs "{") |> field_num (bs "height") (pv_height v)
  |> write_string (bs "value_unverified") |> push (bs ":")
  |> match pv_value v with Some b => write_string (hex_of b) | None => push (bs "null") end
  |> push (bs ",") |> field_str (bs "proof") (hex_of (encode Proof_codec (pv_proof v))) |> close.

(** The items of an array, a comma before each but the first. *)
Fixpoint write_items {A} (write : A → bytes → bytes) (first : bool) (l : list A) (out : bytes) : bytes :=
  match l with
  | [] => out
  | x :: l => write_items write false l (out |> push (if first then [] else bs ",") |> push (bs "{") |> write x |> close)
  end.

Definition write_block (b : Block) (out : bytes) : bytes :=
  out |> push (bs "{") |> write_string (bs "header") |> push (bs ":") |> write_header (b_header b) |> push (bs ",")
  |> field_num (bs "transaction_count") (Z.of_nat (length (transactions b)))
  |> write_string (bs "transactions") |> push (bs ":[")
  |> write_items (λ tx out, out |> field_str (bs "id") (hex_of (tx_id tx)) |> field_str (bs "bytes") (hex_of (encode Transaction_codec tx))) true (transactions b)
  |> push (bs "]") |> push (bs "}").

Definition write_proved_transaction (p : ProvedTransaction) (out : bytes) : bytes :=
  out |> push (bs "{") |> field_num (bs "height") (pt_height p)
  |> field_num (bs "index_unverified") (pt_index p)
  |> field_str (bs "id") (hex_of (tx_id (pt_transaction p)))
  |> field_str (bs "transaction_unverified") (hex_of (encode Transaction_codec (pt_transaction p)))
  |> field_str (bs "proof") (hex_of (encode ProvedTransaction_codec p))
  |> close.

Definition write_history (h : HistoryAnswer) (out : bytes) : bytes :=
  out |> push (bs "{")
  |> field_str (bs "address") (match Address_to_bech32 (ha_address h) with Ok s => s | Err _ => [] end)
  |> field_str (bs "note") (bs "an index, not a proof: this node can omit entries. Verify each id with          GET /v1/transactions/{id} against a header you trust")
  |> write_string (bs "truncated") |> push (bs ":") |> push (bs (if ha_truncated h then "true" else "false")) |> push (bs ",")
  |> write_string (bs "entries_unverified") |> push (bs ":[")
  |> write_items (λ e out, out |> field_num (bs "height") (he_height e) |> field_num (bs "index") (he_index e) |> field_hash (bs "id") (he_tx_id e)) true (ha_entries h)
  |> push (bs "]") |> push (bs "}").

(** [json::response]. *)
Definition response_json (r : Response) : bytes :=
  match r with
  | RStatus s => [] |> write_status s
  | RHeader h => [] |> write_signed_header h
  | RValue v =>
      [] |> push (bs "{") |> write_string (bs "value") |> push (bs ":") |> write_proved_value v |> push (bs ",")
      |> field_str (bs "response") (hex_of (encode Response_codec r)) |> close
  | RBlock b => [] |> write_block b
  | RTransaction p => [] |> write_proved_transaction p
  | RHistory h => [] |> write_history h
  end.
End json.

(** [json::index]. *)
Definition routes : list (string * string * string) := [
  ("GET", "/health", "liveness, and the current height");
  ("GET", "/v1/status", "tip header and the commit finalising it");
  ("GET", "/v1/blocks/{height}", "one header and its commit");
  ("GET", "/v1/accounts/{address}", "nonce and revealed public key");
  ("GET", "/v1/accounts/{address}/balance?denom=", "balance in one denomination");
  ("GET", "/v1/accounts/{address}/alias", "the name a wallet should display");
  ("GET", "/v1/accounts/{address}/frozen?denom=", "whether an issuer froze this account");
  ("GET", "/v1/supply?denom=", "total supply of a denomination");
  ("GET", "/v1/issuer?denom=", "registered issuer of a sovereign denomination");
  ("GET", "/v1/names/{name}", "which account a username points at");
  ("GET", "/v1/contacts/{commitment}", "which account a phone or email commitment points at");
  ("GET", "/v1/blocks/{height}/transactions", "a whole block; recompute tx_root over it to verify completeness");
  ("GET", "/v1/transactions/{id}", "one transaction, with an inclusion proof against its block's tx_root");
  ("GET", "/v1/accounts/{address}/history?from=&limit=", "which transactions touched an account — an index, not a proof");
  ("POST", "/v1/transactions", "a canonically-encoded Transaction to submit; answers 202 with its id");
  ("POST", "/v1/query", "a canonically-encoded Query; answers with a canonically-encoded Response")]%string.
Definition write_route (r : string * string * string) (out : bytes) : bytes :=
  let '(method, path, description) := r in
  out |> push (bs "{") |> field_str (bs "method") (bs method) |> field_str (bs "path") (bs path)
  |> field_str (bs "description") (bs description) |> close |> push (bs ",").
Definition index_json : bytes :=
  let out := quoted "{~service~:~afrolink~,~api~:~v1~," ++ quoted "~formats~:{~default~:~canonical bytes~,~json~:~?format=json, or Accept: application/json~},"
    ++ quoted "~note~:~every state answer carries a proof; verify it against a header you trust~," ++ quoted "~routes~:[" in
  drop_comma (foldl (λ out r, out |> write_route r) out routes) |> push (bs "]}").

(** * Reading a literal back *)

Definition utf8_of (c : Z) : bytes :=
  if c <? 0x80 then [byte_of c]
  else if c <? 0x800 then [byte_of (0xC0 + c / 64); byte_of (0x80 + c mod 64)]
  else [byte_of (0xE0 + c / 4096); byte_of (0x80 + c / 64 mod 64); byte_of (0x80 + c mod 64)].
Definition hex4 (h : list byte) : option Z :=
  foldl (λ a b, a ← a; d ← to_digit16 b; Some (a * 16 + d)) (Some 0) h.
(** What a JSON reader makes of the text after an opening quote. *)
Fixpoint read_chars (s : bytes) : option (bytes * bytes) :=
  match s with
  | [] => None
  | b :: s =>
      if byte_eqb 34 b then Some ([], s)
      else if byte_eqb 92 b then
        match s with
        | c :: s =>
            if byte_eqb 34 c || byte_eqb 92 c || byte_eqb 47 c then '(t, r) ← read_chars s; Some (c :: t, r)
            else if byte_eqb 110 c then '(t, r) ← read_chars s; Some (byte_of 10 :: t, r)
            else if byte_eqb 114 c then '(t, r) ← read_chars s; Some (byte_of 13 :: t, r)
            else if byte_eqb 116 c then '(t, r) ← read_chars s; Some (byte_of 9 :: t, r)
            else if byte_eqb 117 c then
              match s with
              | h1 :: h2 :: h3 :: h4 :: s => x ← hex4 [h1; h2; h3; h4]; '(t, r) ← read_chars s; Some (utf8_of x ++ t, r)
              | _ => None
              end
            else None
        | [] => None
        end
      else if in_range 0 31 b then None
      else '(t, r) ← read_chars s; Some (b :: t, r)
  end.

Lemma read_plain b s : byte_eqb 34 b || byte_eqb 92 b = false → in_range 0 31 b = false →
  read_chars (b :: s) = ('(t, r) ← read_chars s; Some (b :: t, r)).
Proof. intros [H1 H2]%orb_false_iff H3. cbn [read_chars]. by rewrite H1, H2, H3. Qed.

Lemma read_unicode c s : read_chars (unicode_escape c ++ s) = ('(t, r) ← read_chars s; Some (utf8_of (byte_val c) ++ t, r)).
Proof.
  unfold unicode_escape. assert (∃ h l, hex_of [c] = [h; l] ∧ hex4 [byte_of 48; byte_of 48; h; l] = Some (byte_val c)) as (h & l & -> & Hx).
  { eexists _, _. split; [done|]. apply (bool_decide_eq_true_1 _).
    exact (byte_cases (λ c, bool_decide (hex4 [byte_of 48; byte_of 48; hex_digit (byte_val c / 16); hex_digit (byte_val c mod 16)] = Some (byte_val c))) ltac:(by vm_compute) c). }
  change (bs "\u00" ++ [h; l] ++ s) with (byte_of 92 :: byte_of 117 :: byte_of 48 :: byte_of 48 :: h :: l :: s).
  rewrite <-(assoc_L (++)). change (bs "\u00" ++ [h; l] ++ s) with (byte_of 92 :: byte_of 117 :: byte_of 48 :: byte_of 48 :: h :: l :: s).
  cbn [read_chars]. change (byte_eqb 34 (byte_of 92)) with false. change (byte_eqb 92 (byte_of 92)) with true.
  repeat change (byte_eqb _ (byte_of 117)) with false. cbn [orb]. by rewrite Hx.
Qed.

(** Controls, and the second byte of the controls past ASCII. *)
Lemma control_text b : is_control_byte b = true → utf8_of (byte_val b) = [b].
Proof.
  intros Hb. pose proof (byte_cases (λ b, implb (is_control_byte b) (bool_decide (utf8_of (byte_val b) = [b]))) ltac:(by vm_compute) b) as H.
  cbv beta in H. rewrite Hb in H. by apply bool_decide_eq_true in H.
Qed.
Lemma control_pair b c : byte_eqb 0xC2 b && in_range 0x80 0x9F c = true → utf8_of (byte_val c) = [b; c].
Proof.
  intros [Hb%Z.eqb_eq Hc]%andb_true_iff. rewrite (byte_val_inj b (byte_of 0xC2)) by done.
  pose proof (byte_cases (λ c, implb (in_range 0x80 0x9F c) (bool_decide (utf8_of (byte_val c) = [byte_of 0xC2; c]))) ltac:(by vm_compute) c) as H.
  cbv beta in H. rewrite Hc in H. by apply bool_decide_eq_true in H.
Qed.

(** A literal reads back as the text it was written for, whatever follows it. *)
Theorem literal_roundtrip value rest : read_chars (escape_chars value ++ byte_of 34 :: rest) = Some (value, rest).
Proof.
  induction value as [value IH] using (induction_ltof1 _ (@length byte)). unfold ltof in IH.
  destruct value as [|b s]; [done|].
  assert (∀ t, (length t ≤ length s)%nat → read_chars (escape_chars t ++ byte_of 34 :: rest) = Some (t, rest)) as IHt by (intros; apply IH; simpl; lia).
  clear IH. pose proof (IHt s ltac:(lia)) as IHs. cbn [escape_chars]. set (rest' := byte_of 34 :: rest) in *.
  destruct (byte_eqb 34 b || byte_eqb 92 b) eqn:E1.
  { cbn [app read_chars]. change (byte_eqb 34 (byte_of 92)) with false. change (byte_eqb 92 (byte_of 92)) with true. rewrite E1. cbn [orb]. by rewrite IHs. }
  destruct (byte_eqb 10 b) eqn:E2.
  { apply Z.eqb_eq in E2. rewrite (byte_val_inj b (byte_of 10)) by done. change (bs "\n" ++ ?x) with (byte_of 92 :: byte_of 110 :: x). cbn -[read_chars]. 
    change (read_chars (byte_of 92 :: byte_of 110 :: ?x)) with ('(t, r) ← read_chars x; Some (byte_of 10 :: t, r)). by rewrite IHs. }
  destruct (byte_eqb 13 b) eqn:E3.
  { apply Z.eqb_eq in E3. rewrite (byte_val_inj b (byte_of 13)) by done. change (bs "\r" ++ ?x) with (byte_of 92 :: byte_of 114 :: x). cbn -[read_chars]. 
    change (read_chars (byte_of 92 :: byte_of 114 :: ?x)) with ('(t, r) ← read_chars x; Some (byte_of 13 :: t, r)). by rewrite IHs. }
  destruct (byte_eqb 9 b) eqn:E4.
  { apply Z.eqb_eq in E4. rewrite (byte_val_inj b (byte_of 9)) by done. change (bs "\t" ++ ?x) with (byte_of 92 :: byte_of 116 :: x). cbn -[read_chars]. 
    change (read_chars (byte_of 92 :: byte_of 116 :: ?x)) with ('(t, r) ← read_chars x; Some (byte_of 9 :: t, r)). by rewrite IHs. }
  destruct (is_control_byte b) eqn:E5.
  { rewrite <-(assoc_L (++)), read_unicode, IHs. cbn [mbind option_bind]. by rewrite control_text. }
  apply orb_false_iff in E5 as [E5 _]. destruct s as [|c s'].
  { cbn [app]. rewrite read_plain by done. done. }
  destruct (byte_eqb 0xC2 b && in_range 0x80 0x9F c) eqn:E6.
  - rewrite <-(assoc_L (++)), read_unicode, (IHt s') by (simpl; lia). cbn [mbind option_bind]. by rewrite (control_pair b c).
  - rewrite <-app_comm_cons, read_plain by done. by rewrite IHs.
Qed.

(** ** A state answer is never proof-free *)

Definition plain_byte (b : byte) : bool := is_ascii_alphanumeric b.
Lemma plain_escape s : forallb plain_byte s = true → escape_chars s = s.
Proof.
  induction s as [|b s IH]; [done|]. intros [Hb Hs]%andb_true_iff. specialize (IH Hs). cbn [escape_chars].
  pose proof (byte_cases (λ b, implb (plain_byte b) (negb (byte_eqb 34 b || byte_eqb 92 b || byte_eqb 10 b || byte_eqb 13 b || byte_eqb 9 b || is_control_byte b || byte_eqb 0xC2 b)))
    ltac:(by vm_compute) b) as H.
  cbv beta in H. rewrite Hb in H. simpl in H. apply negb_true_iff in H. rewrite !orb_false_iff in H. destruct H as [[[[[[-> ->] ->] ->] ->] ->] ->].
  cbn [orb andb]. rewrite IH. by destruct s.
Qed.
Lemma hex_plain b : forallb plain_byte (hex_of b) = true.
Proof.
  unfold hex_of. induction b as [|x b IH]; [done|]. change (mbind ?f (x :: b)) with (f x ++ mbind f b). rewrite forallb_app, IH, andb_true_r.
  exact (byte_cases (λ x, forallb plain_byte [hex_digit (byte_val x / 16); hex_digit (byte_val x mod 16)]) ltac:(by vm_compute) x).
Qed.
Lemma close_field name value out :
  close (field_str name value out) = out ++ [byte_of 34] ++ escape_chars name ++ [byte_of 34] ++ bs ":" ++ [byte_of 34] ++ escape_chars value ++ [byte_of 34] ++ bs "}".
Proof.
  unfold close, drop_comma, field_str, push. change (bs ",") with [byte_of 44]. rewrite last_snoc, bool_decide_eq_true_2, removelast_snoc by done.
  unfold write_string. by rewrite <-!(assoc_L (++)).
Qed.

(** The JSON of a state answer ends with the hexadecimal of its canonical encoding, proof
    and all, under the name [response]. *)
Theorem state_answer_carries_proof `{Hasher, Signer, Unicode} v :
  ∃ front, response_json (RValue v) = front ++ quoted "~response~:~" ++ hex_of (encode Response_codec (RValue v)) ++ quoted "~}".
Proof.
  unfold response_json. rewrite close_field. eexists. f_equal. rewrite (plain_escape (hex_of _)) by apply hex_plain.
  change (quoted "~response~:~") with ([byte_of 34] ++ escape_chars (bs "response") ++ [byte_of 34] ++ bs ":" ++ [byte_of 34]).
  change (quoted "~}") with ([byte_of 34] ++ bs "}"). by rewrite <-!(assoc_L (++)).
Qed.
