(* ===== verification/HttpServe.v ===== *)
(** The query server above its sockets: which query a request is ([crates/http/src/route.rs]),
    what it is answered with, and the requests of one connection in turn
    ([crates/http/src/server.rs]).

    Two things are parameters: the third-party [hex] decoder, and the words an error value
    prints as, which its derived [Display] generates.  The node's mempool is reached through
    [Submit] only, the chain through [ChainView].

    The server promises one spelling per hash and name, reads that change nothing, and
    connections whose bytes are requests answered in turn. *)

From S2P Require Import Prelude SortedVec Codec Primitives Crypto Store Account Alias AliasProofs Bech32 Request Tx TxProofs Executor Block Rpc Signing Http Json.

(** [hex::decode]: the inverse of [hex::encode], which writes lower case. *)
Class HexDecode := {
  hex_decode : bytes → option bytes;
  hex_decode_of b : hex_decode (hex_of b) = Some b;
  hex_decode_lower s b : hex_decode s = Some b → forallb (λ c, negb (is_ascii_uppercase c)) s = true → s = hex_of b;
}.

(** Values an answer's text quotes. *)
Inductive ErrorValue :=
| EvAddress (e : CryptoError)
| EvDenom (e : PrimError)
| EvName (e : NameError)
| EvNotCanonical (name : bytes)
| EvQuery (e : CodecError)
| EvTransaction (e : CodecError)
| EvFormat (other : bytes)
| EvWire (e : HttpError).
Class Wording := { wording : ErrorValue → bytes }.
Inductive Why := Said (text : bytes) | About (v : ErrorValue).

(** * Routes *)

Inductive Route := RtSubmit (body : bytes) | RtIndex | RtHealth | RtChain (q : Query) | RtPreflight.
Inductive RouteError := RNotFound | RMethodNotAllowed (allow : bytes) | RBadRequest (why : Why).
Inductive Format := Binary | Json.

Definition RouteError_status (e : RouteError) : HttpStatus :=
  match e with RNotFound => SNotFound | RMethodNotAllowed _ => SMethodNotAllowed | RBadRequest _ => SBadRequest end.

Definition bad {A} (why : string) : result RouteError A := Err (RBadRequest (Said (bs why))).
Definition is_word (w : string) (s : bytes) : bool := bool_decide (s = bs w).

Definition get_only (rq : HttpRequest) (r : Route) : result RouteError Route :=
  if bool_decide (rq_method rq = MGet) then Ok r else Err (RMethodNotAllowed (bs "GET")).
Definition chain_route (rq : HttpRequest) (q : Query) : result RouteError Route := get_only rq (RtChain q).


Section route.
Context {Un : Unicode} {Hx : HexDecode}.

Definition parse_address (text : bytes) : result RouteError Address :=
  map_err (λ e, RBadRequest (About (EvAddress e))) (Address_from_bech32 text).
Definition required_denom (ps : gmap bytes bytes) : result RouteError Denom :=
  raw ← ok_or (RBadRequest (Said (bs "this route needs a ?denom= parameter"))) (ps !! bs "denom");
  map_err (λ e, RBadRequest (About (EvDenom e))) (Denom_new raw).
Definition parse_name (raw : bytes) : result RouteError Username :=
  name ← map_err (λ e, RBadRequest (About (EvName e))) (Username_new raw);
  if bool_decide (name = raw) then Ok name else Err (RBadRequest (About (EvNotCanonical name))).

Definition parse_hash_bytes (text what : bytes) : result RouteError bytes :=
  if negb (length text =? 64)%nat || negb (forallb is_ascii_hexdigit text)
  then Err (RBadRequest (Said (what ++ bs " must be 64 hex characters")))
  else if existsb is_ascii_uppercase text then Err (RBadRequest (Said (what ++ bs " must be lower-case hex")))
  else
    decoded ← ok_or (RBadRequest (Said (what ++ bs " is not hex"))) (hex_decode text);
    if (length decoded =? 32)%nat then Ok decoded else Err (RBadRequest (Said (what ++ bs " is not 32 bytes"))).
Definition parse_hash (text what : bytes) : result RouteError Hash32 := parse_hash_bytes text what.
Definition parse_commitment (text : bytes) : result RouteError ContactCommitment :=
  b ← parse_hash_bytes text (bs "commitment");
  map_err (λ _, RBadRequest (Said (bs "commitment is not 32 bytes"))) (decode_exact ContactCommitment_codec b).

(** [parse::<u64>] and [parse::<u32>], as messages. *)
Definition whole_number (what : string) (s : bytes) : result RouteError Z :=
  ok_or (RBadRequest (Said (bs what ++ bs " must be a whole number"))) (Signing.parse_u64 s).
Definition whole_u32 (what : string) (s : bytes) : result RouteError Z :=
  n ← whole_number what s;
  if n <=? u32_max then Ok n else Err (RBadRequest (Said (bs what ++ bs " must be a whole number"))).

Definition post_only {A} (rq : HttpRequest) (r : result RouteError A) : result RouteError A :=
  if bool_decide (rq_method rq = MPost) then r else Err (RMethodNotAllowed (bs "POST")).

Definition route (rq : HttpRequest) : result RouteError Route :=
  if bool_decide (rq_method rq = MOptions) then Ok RtPreflight else
  match segments rq with
  | [] => get_only rq RtIndex
  | [a] => if is_word "health" a then get_only rq RtHealth else Err RNotFound
  | v :: rest =>
      if negb (is_word "v1" v) then Err RNotFound else
      match rest with
      | [a] =>
          if is_word "status" a then chain_route rq QStatus
          else if is_word "supply" a then d ← required_denom (params rq); chain_route rq (QSupply d)
          else if is_word "issuer" a then d ← required_denom (params rq); chain_route rq (QIssuer d)
          else if is_word "transactions" a then
            post_only rq (if is_nil (rq_body rq) then bad "a transaction body is required" else Ok (RtSubmit (rq_body rq)))
          else if is_word "query" a then
            post_only rq (q ← map_err (λ e, RBadRequest (About (EvQuery e))) (decode_exact Query_codec (rq_body rq)); Ok (RtChain q))
          else Err RNotFound
      | [a; x] =>
          if is_word "blocks" a then h ← whole_number "height" x; chain_route rq (QHeader h)
          else if is_word "accounts" a then ad ← parse_address x; chain_route rq (QAccount ad)
          else if is_word "names" a then n ← parse_name x; chain_route rq (QResolveName n)
          else if is_word "contacts" a then c ← parse_commitment x; chain_route rq (QResolveContact c)
          else if is_word "transactions" a then i ← parse_hash x (bs "transaction id"); chain_route rq (QTransaction i)
          else Err RNotFound
      | [a; x; b] =>
          if is_word "accounts" a && is_word "balance" b then
            ad ← parse_address x; d ← required_denom (params rq); chain_route rq (QBalance ad d)
          else if is_word "accounts" a && is_word "alias" b then ad ← parse_address x; chain_route rq (QPrimaryAlias ad)
          else if is_word "accounts" a && is_word "frozen" b then
            ad ← parse_address x; d ← required_denom (params rq); chain_route rq (QFrozen d ad)
          else if is_word "blocks" a && is_word "transactions" b then h ← whole_number "height" x; chain_route rq (QBlock h)
          else if is_word "accounts" a && is_word "history" b then
            ad ← parse_address x;
            from ← match rq_param rq (bs "from") with None => Ok GENESIS | Some raw => whole_number "from" raw end;
            limit ← match rq_param rq (bs "limit") with None => Ok MAX_HISTORY | Some raw => whole_u32 "limit" raw end;
            chain_route rq (QHistory ad from limit)
          else Err RNotFound
      | _ => Err RNotFound
      end
  end.

(** [str::contains]. *)
Fixpoint contains_text (p s : bytes) : bool :=
  starts_with p s || match s with [] => false | _ :: s => contains_text p s end.

Definition format_of (rq : HttpRequest) : result RouteError Format :=
  match rq_param rq (bs "format") with
  | Some requested =>
      if is_word "json" requested then Ok Json
      else if is_word "bin" requested || is_word "binary" requested then Ok Binary
      else Err (RBadRequest (About (EvFormat requested)))
  | None =>
      if contains_text (bs "application/json") (default [] (rq_header rq (bs "accept"))) then Ok Json else Ok Binary
  end.
End route.

(** * Answers *)

Class Submit (T : Type) := { submit : Transaction → M T SubmitError Hash32 }.

Section respond.
Context {Hs : Hasher} {Sg : Signer} {Un : Unicode} {Hx : HexDecode} {Wo : Wording}.
Context {V : Type} {CV : ChainView V} {T : Type} {Su : Submit T}.

Definition why_text (w : Why) : bytes := match w with Said t => t | About v => wording v end.
Definition RouteError_message (e : RouteError) : bytes :=
  match e with
  | RNotFound => bs "no such route; GET / lists them"
  | RMethodNotAllowed allow => bs "method not allowed; try " ++ allow
  | RBadRequest why => why_text why
  end.

(** [HttpResponse::error]. *)
Definition error_response (s : HttpStatus) (message : bytes) : HttpResponse :=
  HttpResponse_json s (push (bs "}") (push (u64_to_string (status_code s)) (push (quoted ",~status~:") (write_string message (quoted "{~error~:"))))).

Definition from_route_error (e : RouteError) : HttpResponse :=
  let response := error_response (RouteError_status e) (RouteError_message e) in
  match e with RMethodNotAllowed allow => with_header (bs "Allow") allow response | _ => response end.

Definition from_query_error (e : QueryError) : HttpResponse :=
  match e with
  | NoSuchHeight h => error_response SNotFound (bs "height " ++ u64_to_string h ++ bs " is not available on this node")
  | NoCommit h => error_response SUnavailable (bs "height " ++ u64_to_string h ++ bs " has no commit stored yet")
  | NoSuchTransaction id => error_response SNotFound (bs "no transaction " ++ hex_of id ++ bs " on this node")
  | NotIndexed what => error_response SNotImplemented (bs "this node does not maintain " ++ bs what ++ bs "; ask a serving node")
  | Backend _ => error_response SInternalError (bs "the node could not read its state")
  end.

Definition preflight : HttpResponse :=
  with_header (bs "Access-Control-Max-Age") (bs "86400")
    (with_header (bs "Access-Control-Allow-Headers") (bs "content-type, accept")
      (with_header (bs "Access-Control-Allow-Methods") (bs "GET, POST, OPTIONS")
        {| rs_status := SNoContent; content_type := CONTENT_TYPE_JSON; rs_body := []; extra := [] |})).

Definition submitted (r : result SubmitError Hash32) : HttpResponse :=
  match r with
  | Ok id => HttpResponse_json SAccepted (quoted "{~status~:~pending~,~id~:~" ++ hex_of id ++ quoted "~}")
  | Err (SubmitRejected why) => error_response SBadRequest (bs why)
  | Err NotAccepting => error_response SNotImplemented (bs "this node does not accept transactions; send it to a validator")
  | Err (SubmitBackend _) => error_response SInternalError (bs "the node could not accept the transaction")
  end.

Definition answered (format : Format) (r : Response) : HttpResponse :=
  with_header (bs "Vary") (bs "Accept")
    match format with
    | Binary => HttpResponse_binary SOk (encode Response_codec r)
    | Json => HttpResponse_json SOk (response_json r)
    end.

Definition respond (view : V) (rq : HttpRequest) (t : T) : HttpResponse * T :=
  match route rq with
  | Err e => (from_route_error e, t)
  | Ok (RtSubmit body) =>
      match decode_exact Transaction_codec body with
      | Err e => (error_response SBadRequest (wording (EvTransaction e)), t)
      | Ok tx => let '(r, t) := submit tx t in (submitted r, t)
      end
  | Ok RtPreflight => (preflight, t)
  | Ok RtIndex => (HttpResponse_json SOk index_json, t)
  | Ok RtHealth =>
      match cv_tip_height view with
      | Ok h => (HttpResponse_json SOk (quoted "{~status~:~ok~,~height~:" ++ u64_to_string h ++ bs "}"), t)
      | Err _ => (error_response SUnavailable (bs "node cannot read its own store"), t)
      end
  | Ok (RtChain q) =>
      match format_of rq with
      | Err e => (from_route_error e, t)
      | Ok format => (match answer view q with Ok r => answered format r | Err e => from_query_error e end, t)
      end
  end.

(** * A connection *)

(** What the world does to a connection: whether the server has been told to stop when it
    looks for the [i]th time, and whether the [i]th answer can be written. *)
Record ConnLink := { stopped : nat → bool; writable : nat → bool }.

(** The loop of [serve_connection]: the answers it sets out to write, each with whether the connection
    stays, what is left unread, and the mempool. *)
Fixpoint serve_loop (cfg : HttpConfig) (lk : ConnLink) (view : V) (n i : nat) (src : Source) (t : T) : list (HttpResponse * bool) * Source * T :=
  match n with
  | O => ([], src, t)
  | S n =>
      if stopped lk i then ([], src, t)
      else
        match read_request cfg src with
        | (Ok rq, src) =>
            let '(r, t) := respond view rq t in
            let keep := keep_alive rq && allows_keep_alive (rs_status r) in
            if writable lk i && keep
            then let '(out, src, t) := serve_loop cfg lk view n (S i) src t in ((r, keep) :: out, src, t)
            else ([(r, keep)], src, t)
        | (Err WClosed, src) => ([], src, t)
        | (Err e, src) => ([(error_response (error_status e) (wording (EvWire e)), false)], src, t)
        end
  end.
Definition serve_connection (cfg : HttpConfig) (lk : ConnLink) (view : V) (src : Source) (t : T) : list (HttpResponse * bool) * Source * T :=
  serve_loop cfg lk view (Z.to_nat (max_requests_per_connection cfg)) 0 src t.
End respond.

(** * What the server promises *)

Section routes.
Context {Un : Unicode} {Hx : HexDecode}.

Lemma is_word_iff w s : is_word w s = true ↔ s = bs w.
Proof. unfold is_word. by rewrite bool_decide_eq_true. Qed.

Lemma get_only_Ok rq r x : get_only rq r = Ok x ↔ rq_method rq = MGet ∧ x = r.
Proof. unfold get_only. case_bool_decide; naive_solver. Qed.

(** A hash is spelled one way. *)
Lemma parse_hash_exact text what h : parse_hash text what = Ok h ↔ text = hex_of h ∧ length h = 32%nat.
Proof.
  unfold parse_hash, parse_hash_bytes. split.
  - intros H. destruct (negb (length text =? 64)%nat || _); [done|]. destruct (existsb is_ascii_uppercase text) eqn:Hu; [done|].
    destruct (hex_decode text) as [b|] eqn:E; [|done]. simpl in H. destruct (Nat.eqb_spec (length b) 32); [|done]. simplify_eq. split; [|done].
    apply hex_decode_lower; [done|]. rewrite forallb_forall. intros c Hc. apply negb_true_iff, not_true_iff_false. intros Hc'.
    apply not_true_iff_false in Hu. apply Hu. rewrite existsb_exists. eauto.
  - intros [-> Hl]. assert (length (hex_of h) = 64%nat ∧ forallb is_ascii_hexdigit (hex_of h) = true ∧ existsb is_ascii_uppercase (hex_of h) = false) as (H1 & H2 & H3).
    { assert (length (hex_of h) = (2 * length h)%nat ∧ forallb is_ascii_hexdigit (hex_of h) = true ∧ existsb is_ascii_uppercase (hex_of h) = false) as Hh.
      { clear. unfold hex_of. induction h as [|x h (I1 & I2 & I3)]; [done|]. change (mbind ?f (x :: h)) with (f x ++ mbind f h).
        rewrite forallb_app, existsb_app, I2, I3, length_app, I1. split_and!; [simpl; lia| |].
        - rewrite andb_true_r. exact (byte_cases (λ x, forallb is_ascii_hexdigit [hex_digit (byte_val x / 16); hex_digit (byte_val x mod 16)]) ltac:(by vm_compute) x).
        - rewrite orb_false_r. apply negb_true_iff.
          exact (byte_cases (λ x, negb (existsb is_ascii_uppercase [hex_digit (byte_val x / 16); hex_digit (byte_val x mod 16)])) ltac:(by vm_compute) x). }
      rewrite Hl in Hh. exact Hh. }
    rewrite H1, H2, H3, hex_decode_of. simpl. by rewrite Hl.
Qed.

Lemma parse_name_exact raw n : parse_name raw = Ok n ↔ raw = n ∧ username_ok n.
Proof.
  unfold parse_name, username_ok. split.
  - destruct (Username_new raw) as [m|] eqn:E; [|done]. simpl. case_bool_decide; [|done]. intros [= <-]. by subst.
  - intros [-> E]. rewrite E. simpl. by rewrite bool_decide_eq_true_2.
Qed.

Lemma parse_commitment_exact text c : parse_commitment text = Ok c ↔ text = hex_of c ∧ length c = 32%nat.
Proof.
  unfold parse_commitment. split.
  - intros H. destruct (parse_hash_bytes text (bs "commitment")) as [b|] eqn:E; [|done]. apply parse_hash_exact in E as [-> Hl]. simpl in H.
    destruct (decode_exact ContactCommitment_codec b) as [x|] eqn:D; [|done]. injection H as ->. apply decode_exact_sound in D as [_ ->]; [|apply _]. done.
  - intros [-> Hl]. pose proof (proj2 (parse_hash_exact (hex_of c) (bs "commitment") c) (conj eq_refl Hl)) as E. unfold parse_hash in E. rewrite E. cbn [mbind result_bind].
    change c with (encode ContactCommitment_codec c) at 1. by rewrite decode_exact_encode by (apply _ || done).
Qed.

(** The table of what can be read, and where. *)
Inductive get_table (rq : HttpRequest) : Query → Prop :=
| get_status : segments rq = [bs "v1"; bs "status"] → get_table rq QStatus
| get_header x h : segments rq = [bs "v1"; bs "blocks"; x] → Signing.parse_u64 x = Some h → get_table rq (QHeader h)
| get_account x a : segments rq = [bs "v1"; bs "accounts"; x] → Address_from_bech32 x = Ok a → get_table rq (QAccount a)
| get_balance x a d : segments rq = [bs "v1"; bs "accounts"; x; bs "balance"] → Address_from_bech32 x = Ok a →
    required_denom (params rq) = Ok d → get_table rq (QBalance a d)
| get_alias x a : segments rq = [bs "v1"; bs "accounts"; x; bs "alias"] → Address_from_bech32 x = Ok a → get_table rq (QPrimaryAlias a)
| get_frozen x a d : segments rq = [bs "v1"; bs "accounts"; x; bs "frozen"] → Address_from_bech32 x = Ok a →
    required_denom (params rq) = Ok d → get_table rq (QFrozen d a)
| get_supply d : segments rq = [bs "v1"; bs "supply"] → required_denom (params rq) = Ok d → get_table rq (QSupply d)
| get_issuer d : segments rq = [bs "v1"; bs "issuer"] → required_denom (params rq) = Ok d → get_table rq (QIssuer d)
| get_name n : segments rq = [bs "v1"; bs "names"; n] → username_ok n → get_table rq (QResolveName n)
| get_contact c : segments rq = [bs "v1"; bs "contacts"; hex_of c] → length c = 32%nat → get_table rq (QResolveContact c)
| get_block x h : segments rq = [bs "v1"; bs "blocks"; x; bs "transactions"] → Signing.parse_u64 x = Some h → get_table rq (QBlock h)
| get_transaction i : segments rq = [bs "v1"; bs "transactions"; hex_of i] → length i = 32%nat → get_table rq (QTransaction i)
| get_history x a from limit : segments rq = [bs "v1"; bs "accounts"; x; bs "history"] → Address_from_bech32 x = Ok a →
    match rq_param rq (bs "from") with None => from = GENESIS | Some raw => Signing.parse_u64 raw = Some from end →
    match rq_param rq (bs "limit") with None => limit = MAX_HISTORY | Some raw => Signing.parse_u64 raw = Some limit ∧ limit ≤ u32_max end →
    get_table rq (QHistory a from limit).

Lemma whole_number_Ok what s h : whole_number what s = Ok h ↔ Signing.parse_u64 s = Some h.
Proof. unfold whole_number. destruct (Signing.parse_u64 s); simpl; naive_solver. Qed.
Lemma whole_u32_Ok what s h : whole_u32 what s = Ok h ↔ Signing.parse_u64 s = Some h ∧ h ≤ u32_max.
Proof.
  unfold whole_u32, whole_number. destruct (Signing.parse_u64 s) as [n|]; simpl; [|naive_solver].
  destruct (Z.leb_spec n u32_max); naive_solver lia.
Qed.
Lemma parse_address_Ok x a : parse_address x = Ok a ↔ Address_from_bech32 x = Ok a.
Proof. unfold parse_address. destruct (Address_from_bech32 x); simpl; naive_solver. Qed.
Lemma chain_route_Ok rq q r : chain_route rq q = Ok r ↔ rq_method rq = MGet ∧ r = RtChain q.
Proof. apply get_only_Ok. Qed.

(** One inversion of the route table. *)
Ltac route_inv :=
  repeat match goal with
  | H : (if is_word ?w ?s then _ else _) = Ok _ |- _ => destruct (is_word w s) eqn:?
  | H : (if is_word ?w ?s && is_word ?w' ?s' then _ else _) = Ok _ |- _ => destruct (is_word w s && is_word w' s') eqn:?
  | H : is_word _ _ && is_word _ _ = true |- _ => apply andb_true_iff in H as [? ?]
  | H : is_word _ _ = true |- _ => apply is_word_iff in H; subst
  | H : _ ≫= _ = Ok _ |- _ => apply result_bind_Ok_inv in H as (? & ? & ?)
  | H : get_only _ _ = Ok _ |- _ => apply get_only_Ok in H as [? ?]
  | H : chain_route _ _ = Ok _ |- _ => apply chain_route_Ok in H as [? ?]
  | H : parse_address _ = Ok _ |- _ => apply parse_address_Ok in H
  | H : parse_name _ = Ok _ |- _ => apply parse_name_exact in H as [? ?]
  | H : parse_commitment _ = Ok _ |- _ => apply parse_commitment_exact in H as [? ?]
  | H : parse_hash _ _ = Ok _ |- _ => apply parse_hash_exact in H as [? ?]
  | H : whole_number _ _ = Ok _ |- _ => apply whole_number_Ok in H
  | H : Err _ = Ok _ |- _ => discriminate H
  | H : RtChain _ = RtChain _ |- _ => injection H as H; subst
  | H : RtChain _ = _ |- _ => discriminate H
  | H : ?x = ?y |- _ => is_var x; subst x
  | H : ?x = ?y |- _ => is_var y; subst y
  end.

Ltac words :=
  repeat match goal with |- context [is_word ?w (bs ?v)] => let b := eval vm_compute in (is_word w (bs v)) in change (is_word w (bs v)) with b end;
  cbn [negb andb].

(** What a GET reads is the published table.  A GET resolves to a query exactly when the
    table has the query at its path and parameters: in particular a transaction id, a
    contact commitment and a name have one spelling each, and no path reaches two queries. *)
Theorem route_exact rq q : rq_method rq = MGet → route rq = Ok (RtChain q) ↔ get_table rq q.
Proof.
  intros Hm. unfold route. rewrite (bool_decide_eq_false_2 (rq_method rq = MOptions)) by congruence. split.
  - destruct (segments rq) as [|v [|a [|x [|b [|]]]]] eqn:Es; intros H; unfold post_only in *; rewrite ?Hm in *;
      rewrite ?(bool_decide_eq_false_2 (MGet = MPost)) in H by done;
      try (destruct (is_word "v1" v) eqn:Ev; cbn [negb] in H; [apply is_word_iff in Ev; subst v|]); route_inv;
      try (by econstructor).
    eapply get_history; [done|done| |].
    + destruct (rq_param rq (bs "from")); [by apply whole_number_Ok in H0|by injection H0].
    + destruct (rq_param rq (bs "limit")); [by apply whole_u32_Ok in H1|by injection H1].
  - intros Ht. destruct Ht as [E|? ? E P|? ? E P|? ? ? E P Q|? ? E P|? ? ? E P Q|? E P|? E P|? E P|? E P|? ? E P|? E P|? ? ? ? E P Q R]; rewrite E; words;
      try (apply (whole_number_Ok "height") in P; rewrite P); unfold parse_address, chain_route, get_only; rewrite ?Hm, ?P, ?Q; cbn -[whole_number whole_u32 rq_param bs]; rewrite ?bool_decide_eq_true_2 by done; try done.
    + by rewrite (proj2 (parse_name_exact _ _) (conj eq_refl P)).
    + by rewrite (proj2 (parse_commitment_exact _ _) (conj eq_refl P)).
    + by rewrite (proj2 (parse_hash_exact _ _ _) (conj eq_refl P)).
    + destruct (rq_param rq (bs "from")) as [raw|]; [apply (whole_number_Ok "from") in Q; rewrite Q|rewrite Q]; cbn -[whole_number whole_u32 rq_param bs];
        (destruct (rq_param rq (bs "limit")) as [raw'|]; [apply (whole_u32_Ok "limit") in R; by rewrite R|by rewrite R]).
Qed.

(** Everything a GET can read can be asked for by POST, as its canonical encoding, and by
    no other body. *)
Theorem post_query_exact rq q : rq_method rq = MPost → segments rq = [bs "v1"; bs "query"] →
  route rq = Ok (RtChain q) ↔ rq_body rq = encode Query_codec q ∧ wf Query_codec q.
Proof.
  intros Hm E. unfold route. rewrite Hm, E. words. unfold post_only. rewrite Hm. cbn. split.
  - intros H. destruct (decode_exact Query_codec (rq_body rq)) as [x|] eqn:D; [|done]. apply decode_exact_sound in D as [Hw Hd]; [|apply _].
    simpl in H. by simplify_eq.
  - intros [Hb Hw]. rewrite Hb, decode_exact_encode by (apply _ || done). done.
Qed.

(** A height, unlike a hash, has many spellings: a plus sign and zeros before it are read. *)
Theorem height_spellings x h : Signing.parse_u64 x = Some h → (∀ r, x ≠ byte_of 43 :: r) → x ≠ [] →
  ∀ rq rq', rq_method rq = MGet → rq_method rq' = MGet →
  segments rq = [bs "v1"; bs "blocks"; x] → segments rq' = [bs "v1"; bs "blocks"; byte_of 43 :: x] →
  route rq = Ok (RtChain (QHeader h)) ∧ route rq' = Ok (RtChain (QHeader h)).
Proof.
  intros Hnum Hp Hne rq rq' Hm Hm' E E'. split; (apply route_exact; [done|]).
  - by apply (get_header _ x).
  - apply (get_header _ (byte_of 43 :: x)); [done|]. unfold Signing.parse_u64 in *. simpl.
    destruct x as [|b x]; [done|]. destruct b; try exact Hnum; by destruct (Hp x).
Qed.
(** A route to a submission is the one path, by POST, and its body as sent. *)
Lemma route_submit rq body : route rq = Ok (RtSubmit body) →
  rq_method rq = MPost ∧ segments rq = [bs "v1"; bs "transactions"] ∧ body = rq_body rq ∧ body ≠ [].
Proof.
  unfold route. case_bool_decide as Ho; [done|].
  assert (∀ r, get_only rq r = Ok (RtSubmit body) → r = RtSubmit body) as Hg by (intros r [_ ->]%get_only_Ok; done).
  intros H. destruct (segments rq) as [|v rest] eqn:Es; [by apply Hg in H|].
  destruct rest as [|a rest]; [destruct (is_word "health" v); [by apply Hg in H|done]|].
  destruct (is_word "v1" v) eqn:Ev; [|done]. apply is_word_iff in Ev as ->. cbn [negb] in H.
  destruct rest as [|x [|b [|]]]; unfold post_only, chain_route, bad in H; route_inv; try (apply Hg in H; done);
    try (match goal with H : get_only _ _ = Ok _ |- _ => apply Hg in H; discriminate H end); try done.
  - case_bool_decide; [|done]. destruct (rq_body rq) as [|b body'] eqn:Eb; [done|]. cbn in H. by simplify_eq.
  - case_bool_decide; [|done]. by route_inv.
Qed.

End routes.

Section serving.
Context {Hs : Hasher} {Sg : Signer} {Un : Unicode} {Hx : HexDecode} {Wo : Wording}.
Context {V : Type} {CV : ChainView V} {T : Type} {Su : Submit T}.

(** Reading changes nothing.  Whatever is asked, in whatever form, the mempool is
    touched only by a POST to the transactions path whose body is the canonical encoding
    of one transaction, which is offered to it once; every other request leaves it as it
    was. *)
Theorem only_submissions_write view rq t r t' :
  respond view rq t = (r, t') →
  t' = t ∨ ∃ tx x, rq_method rq = MPost ∧ segments rq = [bs "v1"; bs "transactions"]
    ∧ wf Transaction_codec tx ∧ rq_body rq = encode Transaction_codec tx ∧ submit tx t = (x, t') ∧ r = submitted x.
Proof.
  unfold respond. destruct (route rq) as [[body| | |q|]|e] eqn:Er; intros H.
  - apply route_submit in Er as (Hm & Hp & -> & _). destruct (decode_exact Transaction_codec (rq_body rq)) as [tx|] eqn:Ed; [|left; congruence].
    apply decode_exact_sound in Ed as [Hw Hb]; [|apply _]. destruct (submit tx t) as [x t1] eqn:Ex. injection H as <- <-. right. by exists tx, x.
  - left. congruence.
  - left. destruct (cv_tip_height view); congruence.
  - left. destruct (format_of rq); congruence.
  - left. congruence.
  - left. congruence.
Qed.

(** What is served is the node's answer.  A request that resolves to a query is answered
    with exactly what the node's view answers: in the canonical form the body decodes to
    that answer, in JSON a state answer still ends with its canonical encoding, and an
    error is never a success. *)
Theorem served_is_answered view rq q t :
  route rq = Ok (RtChain q) →
  match format_of rq, answer view q with
  | Ok Binary, Ok a => (respond view rq t).1 = answered Binary a
      ∧ (wf Response_codec a → decode_exact Response_codec (rs_body (respond view rq t).1) = Ok a)
  | Ok Json, Ok a => (respond view rq t).1 = answered Json a
      ∧ ∀ v, a = RValue v → ∃ front, rs_body (respond view rq t).1 = front ++ quoted "~response~:~" ++ hex_of (encode Response_codec a) ++ quoted "~}"
  | _, _ => rs_status (respond view rq t).1 ≠ SOk
  end.
Proof.
  intros Hr. unfold respond. rewrite Hr. destruct (format_of rq) as [[]|e] eqn:Ef.
  - destruct (answer view q) as [a|e]; [|by destruct e]. split; [done|]. intros Hw. cbn. by apply decode_exact_encode; [apply _|].
  - destruct (answer view q) as [a|e]; [|by destruct e]. split; [done|]. intros v ->. cbn [fst answered with_header rs_body HttpResponse_json].
    apply state_answer_carries_proof.
  - destruct e; done.
Qed.

(** ** The requests of a connection *)

(** Answers to requests in turn, each from the mempool the one before left. *)
Fixpoint answers (view : V) (rqs : list HttpRequest) (t : T) : list (HttpResponse * bool) * T :=
  match rqs with
  | [] => ([], t)
  | rq :: rqs =>
      let '(r, t) := respond view rq t in
      let '(out, t) := answers view rqs t in
      ((r, keep_alive rq && allows_keep_alive (rs_status r)) :: out, t)
  end.
#[local] Ltac nothing_read := first [done | by constructor | by left | simpl; lia | by intros []].
(** All but the last answer keep the connection. *)
Fixpoint kept (out : list (HttpResponse * bool)) : Prop :=
  match out with (_, k) :: ((_ :: _) as rest) => k = true ∧ kept rest | _ => True end.

(** C26: a connection is its requests, in order.  Whatever bytes a client sends, what the
    server takes off the connection is a run of whole requests, each read by the grammar,
    answered once each in order and each from the state the one before left; after them at
    most one thing that is no request, which is answered with an error that closes, or not
    at all if the peer had gone; nothing is answered after a refusal, nor past the limit on
    requests. *)
Theorem connection_in_order cfg lk view n src t : limits_ok cfg → ∀ i out src' t',
  serve_loop cfg lk view n i src t = (out, src', t') →
  ∃ wires rqs tail refusal, Forall2 (request_wire cfg) wires rqs ∧ delivers src (concat wires ++ tail) src'
    ∧ out = (answers view rqs t).1 ++ refusal ∧ t' = (answers view rqs t).2 ∧ (length out ≤ n)%nat ∧ kept out
    ∧ (refusal = [] ∨ ∃ e, refusal = [(error_response (error_status e) (wording (EvWire e)), false)])
    ∧ (tail ≠ [] → ∃ s e, delivers src (concat wires) s ∧ read_request cfg s = (Err e, src')).
Proof.
  intros Hok. revert src t. induction n as [|n IH]; intros src t i out src' t' H; cbn [serve_loop] in H.
  { simplify_eq. exists [], [], [], []. split_and?; nothing_read. }
  destruct (stopped lk i); [simplify_eq; exists [], [], [], []; split_and?; nothing_read|].
  destruct (read_request cfg src) as [[rq|e] s1] eqn:Er.
  - destruct (proj1 (read_request_iff cfg src rq s1 Hok) Er) as (wire & Hd & Hw).
    destruct (respond view rq t) as [r t1] eqn:Ea. set (keep := keep_alive rq && allows_keep_alive (rs_status r)) in *.
    destruct (writable lk i && keep) eqn:Ek.
    + destruct (serve_loop cfg lk view n (S i) s1 t1) as [[out1 s2] t2] eqn:El. simplify_eq.
      destruct (IH _ _ _ _ _ _ El) as (wires & rqs & tail & refusal & H1 & H2 & -> & -> & H5 & H6 & H7 & H8).
      exists (wire :: wires), (rq :: rqs), tail, refusal. cbn [answers concat]. rewrite Ea. destruct (answers view rqs t1) as [o t3] eqn:Eo. cbn [fst snd] in *.
      rewrite <-(assoc_L (++)). apply andb_true_iff in Ek as [_ Ek]. fold keep. split_and?.
      * by constructor.
      * by eapply delivers_app.
      * done.
      * done.
      * simpl. lia.
      * cbn [app kept]. by destruct (o ++ refusal).
      * done.
      * intros Ht. destruct (H8 Ht) as (s & e & Hsd & He). exists s, e. split; [by eapply delivers_app|done].
    + simplify_eq. exists [wire], [rq], [], []. cbn [answers concat]. rewrite Ea. rewrite !app_nil_r. split_and?; try done; [by constructor|simpl; lia|by left].
  - destruct (read_request_bounded cfg Hok src _ _ Er) as (tail & Hd & _).
    assert (∃ refusal, out = refusal ∧ src' = s1 ∧ t' = t ∧ (length refusal ≤ 1)%nat
      ∧ (refusal = [] ∨ ∃ e, refusal = [(error_response (error_status e) (wording (EvWire e)), false)])) as (refusal & -> & -> & -> & Hl & Hr).
    { destruct e; simplify_eq; eexists; split_and!; first [done|by left|right; by eexists|simpl; lia]. }
    exists [], [], tail, refusal. split_and?; first [done|by constructor|by destruct Hr as [->|[? ->]]|by (simpl; lia)|idtac].
    intros _. exists src, e. split; [apply delivers_nil|done].
Qed.

Lemma read_request_gone cfg : 0 ≤ max_request_line cfg →
  read_request cfg {| unread := []; broken := None |} = (Err WClosed, {| unread := []; broken := None |}).
Proof.
  intros Hm. unfold read_request, bind at 1, wrap_err, read_line. cbn [unread broken].
  assert (until_lf (Z.to_nat (Z.min (max_request_line cfg + 1) u64_max)) [] = ([], [])) as -> by (by destruct (Z.to_nat _)). cbn [is_nil]. by destruct (_ && _).
Qed.

(** Requests sent one after another are all answered.  If a client sends whole requests
    back to back and stops, and every answer keeps the connection, then the server writes
    the answer to each, in order, leaves nothing unread and closes without a refusal. *)
Theorem pipeline_answered cfg lk view wires rqs n t :
  limits_ok cfg → (∀ i, stopped lk i = false ∧ writable lk i = true) →
  Forall2 (request_wire cfg) wires rqs → Forall (λ o, o.2 = true) (answers view rqs t).1 → (length rqs ≤ n)%nat → ∀ i,
  serve_loop cfg lk view n i {| unread := concat wires; broken := None |} t
    = ((answers view rqs t).1, {| unread := []; broken := None |}, (answers view rqs t).2).
Proof.
  intros Hok Hlk Hw. revert n t. induction Hw as [|wire rq wires rqs Hw Hws IH]; intros n t Hk Hn i.
  - destruct n as [|n]; [done|]. cbn [serve_loop concat]. destruct (Hlk i) as [-> _]. by rewrite read_request_gone by apply Hok.
  - destruct n as [|n]; [simpl in Hn; lia|]. cbn [serve_loop concat]. destruct (Hlk i) as [-> Hwr].
    assert (read_request cfg {| unread := wire ++ concat wires; broken := None |} = (Ok rq, {| unread := concat wires; broken := None |})) as ->.
    { apply read_request_iff; [done|]. by exists wire. }
    cbn [answers] in *. destruct (respond view rq t) as [r t1]. destruct (answers view rqs t1) as [o t2] eqn:Ea. cbn [fst snd] in *.
    inversion Hk as [|? ? Hkeep Hk']; subst. simpl in Hkeep. rewrite Hwr, Hkeep. cbn [andb].
    specialize (IH n t1). rewrite Ea in IH. rewrite IH; [done|done|simpl in Hn; lia].
Qed.
End serving.
