(* ===== verification/ChainTheorems.v ===== *)
(** Transactions and blocks: what executing one does, on every path, and the store's
    invariant through any number of them. *)

From S2P Require Import Prelude SortedVec Sorting Codec Primitives Crypto Smt Merkle Store Records Group.
From S2P Require Import GroupProofs GroupTheorems Account Issuer Bank BankProofs BankTheorems Validators Votes.
From S2P Require Import VoteProofs Params Alias AliasProofs Gov GovProofs GovTheorems Tx Staking StakingProofs.
From S2P Require Import StakingTheorems Footprint Executor ExecProofs ChainProofs ChainGroups ChainMessages.

(** * What transactions name *)

Section addresses.
Context {Hs : Hasher} {Sg : Signer} {Un : Unicode}.

Lemma vec_wf {A} (c : codec A) l : wf (vec_codec c) l → Forall (wf c) l.
Proof. by intros [_ ?]. Qed.

Lemma message_addresses_ok msg : wf Message_codec msg → Forall address_ok (message_addresses msg).
Proof.
  destruct msg; intros Hw; simpl; try (by repeat constructor); try (by constructor; [by destruct Hw|constructor]).
  - destruct Hw as (_ & (_ & Hms) & _). apply Forall_fmap. eapply Forall_impl; [exact Hms|]. by intros x [? _].
  - destruct Hw as (Hg & Hb & Hk). repeat constructor; [done..|]. destruct kind; [|done]. by destruct Hk as (_ & _ & ?).
  - destruct Hw as (_ & ? & _). by repeat constructor.
  - destruct Hw as (_ & ? & _). by repeat constructor.
  - destruct Hw as (_ & Ho). destruct freezer; by repeat constructor.
  - destruct Hw as (_ & ? & _). by repeat constructor.
  - destruct Hw as (_ & Ho). destruct to; by repeat constructor.
  - destruct action as [c|p|x att|x on|d au|id]; try done; try (by repeat constructor; destruct Hw).
    destruct Hw as [[(_ & Hss) _] _]. apply Forall_fmap. eapply Forall_impl; [exact Hss|]. by intros x [? _].
Qed.

(** Sender and messages of a decoded transaction. *)
Lemma Transaction_wf tx :
  wf Transaction_codec tx →
  address_ok (tx_sender (body tx)) ∧ wf u64_codec (tx_nonce (body tx)) ∧ denom_ok (fee_denom (fee (body tx)))
  ∧ amount_ok (fee_amount (fee (body tx))) ∧ (∀ p, payer (fee (body tx)) = Some p → address_ok p)
  ∧ Forall (wf Message_codec) (messages (body tx)).
Proof.
  intros [((_ & Hs1 & Hn & _ & (Hfa & Hfd & Hfp) & (_ & Hms) & _) & _) _]. split_and!; try done; [by apply amount_ok_wf|].
  intros p Hp. cbn in Hfp. by rewrite Hp in Hfp.
Qed.

Lemma touched_addresses_ok tx : wf Transaction_codec tx → Forall address_ok (touched_addresses tx).
Proof.
  intros (Hs1 & _ & _ & _ & _ & Hms)%Transaction_wf. apply Forall_forall. intros a. unfold touched_addresses.
  rewrite elem_of_sort_dedup, elem_of_cons. intros [->|Ha]; [done|].
  apply list_elem_of_In, in_concat in Ha as (l & Hl & Ha). apply list_elem_of_In, list_elem_of_fmap in Hl as (msg & -> & Hm).
  rewrite Forall_forall in Hms. pose proof (message_addresses_ok msg (Hms msg Hm)) as Hok. rewrite Forall_forall in Hok.
  by apply Hok, list_elem_of_In.
Qed.
End addresses.

Section chain.
Context {Hs : Hasher} {Sg : Signer} {Un : Unicode} {St : Type} {KV : KeyValueStore St} {KM : KVMap St}.
Implicit Types (s : St) (sender : Address).
Context (reserved : list Address) (staking_reserved : staking_account ∈ reserved).
Abbreviation bal s a d := (amount_at (kv_map s) (key_balance a d)).
Abbreviation supply s d := (amount_at (kv_map s) (key_supply d)).
Abbreviation acc s a := (acc_at (kv_map s) a).
Abbreviation effect := (effect reserved).
Abbreviation chain_ok := (chain_ok reserved).

(** * The messages of a transaction *)

Definition mints (msgs : list Message) (d : Denom) : Z := list_sum (λ msg, mint_of msg d) msgs.

Lemma mint_of_nonneg msg d : wf Message_codec msg → 0 ≤ mint_of msg d.
Proof.
  intros Hw. destruct msg; simpl; try lia. case_decide; [|lia]. destruct Hw as (_ & _ & Hx). apply amount_ok_wf in Hx. by destruct Hx.
Qed.
Lemma mints_nonneg msgs d : Forall message_ok msgs → 0 ≤ mints msgs d.
Proof. intros H. apply list_sum_nonneg. eapply Forall_impl; [exact H|]. intros msg [Hw _]. by apply mint_of_nonneg. Qed.

Lemma apply_messages_ok ctx sender msgs n s u s' :
  0 ≤ n → n + Z.of_nat (length msgs) ≤ 2 ^ 54 → context_ok ctx → address_ok sender → sender ∉ reserved →
  Forall message_ok msgs → (∀ d, denom_ok d → 2 * (supply s d + mints msgs d) ≤ u128_max) →
  group_address_of sender (nonce (acc s sender)) ∈ reserved →
  group_address_of sender (nonce (acc s sender)) ≠ staking_account →
  apply_messages ctx sender msgs s = (Ok u, s') → effect sender (mints msgs) n (n + Z.of_nat (length msgs)) s s'.
Proof.
  intros Hn Hle Hctx Ha Hr Hok. revert n s Hn Hle. induction Hok as [|msg msgs Hm Hms IH]; intros n s Hn Hle Hb Hg1 Hg2 H Hck.
  - cbn [apply_messages] in H. repeat inv_M_step. rewrite Z.add_0_r. split_and!; [done|apply keeps_refl|by eapply (spares_footprint _ _ []); [|set_solver..]].
  - cbn [apply_messages] in H. apply bind_Ok_inv in H as (v & s1 & H1 & H). rewrite length_cons in *.
    destruct Hm as [Hw Hlim].
    assert (bounded s) as Hbd.
    { intros d Hd. specialize (Hb d Hd). unfold mints in Hb. rewrite list_sum_cons in Hb.
      pose proof (mint_of_nonneg msg d Hw). pose proof (mints_nonneg msgs d Hms) as Hmn. unfold mints in Hmn. lia. }
    destruct (apply_message_effect reserved staking_reserved ctx sender msg n s v s1 ltac:(lia) Hbd Hctx Ha Hr (conj Hw Hlim) Hg1 Hg2 H1 Hck)
      as (Hck1 & K1 & B1).
    destruct (K1 sender Ha) as (En & _).
    destruct (IH (n + 1) s1 ltac:(lia) ltac:(lia)) as (Hck2 & K2 & B2); [|by rewrite En..|done|done|].
    { intros d Hd. pose proof (sp_supply _ _ _ _ _ B1 d Hd). specialize (Hb d Hd). unfold mints in *. rewrite list_sum_cons in Hb. lia. }
    split_and!; [by replace (n + Z.of_nat (S (length msgs))) with (n + 1 + Z.of_nat (length msgs)) by lia|by eapply keeps_trans|].
    eapply spares_le; [|by eapply spares_trans]. intros d. unfold mints. by rewrite list_sum_cons.
Qed.

(** * Nonces and history pointers *)

Lemma bump_nonce_ok n a s :
  address_ok a → chain_ok n s →
  chain_ok n (bump_nonce a s)
  ∧ (∀ a', address_ok a' → acc (bump_nonce a s) a' = if decide (a = a') then increment_nonce (acc s a) else acc s a')
  ∧ footprint [NsAccount] (kv_map s) (kv_map (bump_nonce a s)).
Proof.
  intros Ha Hck. unfold bump_nonce. rewrite account_or_new_acc.
  pose proof (increment_nonce_wf _ (acc_at_wf (kv_map s) a Ha)) as Hw.
  split_and!; [|by intros a' Ha'; apply store_account_acc|apply store_account_footprint].
  apply store_account_ok; try done. by destruct (ck_accounts _ _ _ Hck a Ha).
Qed.

Lemma move_history_pointer_ok n a p s prev s' :
  address_ok a → wf TxPointer_codec p → chain_ok n s → move_history_pointer a p s = (prev, s') →
  prev = last_txn (acc s a) ∧ chain_ok n s'
  ∧ (∀ a', address_ok a' → acc s' a' = if decide (a = a') then with_last_txn (Some p) (acc s a) else acc s a')
  ∧ footprint [NsAccount] (kv_map s) (kv_map s').
Proof.
  intros Ha Hp Hck. unfold move_history_pointer. rewrite account_or_new_acc. intros [= <- <-].
  pose proof (with_last_txn_wf p _ (acc_at_wf (kv_map s) a Ha) Hp) as Hw.
  split_and!; [done| |by intros a' Ha'; apply store_account_acc|apply store_account_footprint].
  apply store_account_ok; try done. by destruct (ck_accounts _ _ _ Hck a Ha).
Qed.

Lemma move_pointers_ok n p l s t s' :
  Forall address_ok l → NoDup l → wf TxPointer_codec p → chain_ok n s → move_pointers p l s = (t, s') →
  t = (λ a, {| ta_address := a; previous := last_txn (acc s a) |}) <$> l
  ∧ chain_ok n s'
  ∧ (∀ a, address_ok a → acc s' a = if decide (a ∈ l) then with_last_txn (Some p) (acc s a) else acc s a)
  ∧ footprint [NsAccount] (kv_map s) (kv_map s').
Proof.
  intros Hl. revert s t s'. induction Hl as [|a l Ha Hl IH]; intros s t s' Hnd Hp Hck H; cbn [move_pointers] in H.
  - injection H as <- <-. by split_and!.
  - destruct (move_history_pointer a p s) as [prev s1] eqn:E1. destruct (move_pointers p l s1) as [t1 s2] eqn:E2.
    injection H as <- <-. apply NoDup_cons in Hnd as [Hni Hnd].
    destruct (move_history_pointer_ok n a p s prev s1 Ha Hp Hck E1) as (-> & Hck1 & Eacc1 & F1).
    destruct (IH s1 t1 s2 Hnd Hp Hck1 E2) as (-> & Hck2 & Eacc2 & F2). rewrite Forall_forall in Hl.
    split; [|split; [done|split; [|by etrans]]].
    + rewrite fmap_cons. f_equal. apply list_fmap_ext. intros i b Hb%list_elem_of_lookup_2.
      rewrite Eacc1 by (by apply Hl). rewrite decide_False; [done|]. by intros ->.
    + intros b Hb. rewrite Eacc2, Eacc1 by done. destruct (decide (a = b)) as [->|Hne].
      * rewrite decide_False by done. by rewrite decide_True by (by left).
      * destruct (decide (b ∈ l)); [rewrite decide_True by (by right)|rewrite decide_False]; [done|done|].
        rewrite elem_of_cons. naive_solver.
Qed.

(** * One transaction *)

(** A transaction as a block carries it: decoded; none of its keys hashes to a reserved
    address; the group it could create would live at one; and the parameters it may
    propose keep the staking records readable. *)
Record tx_ok (tx : Transaction) : Prop := {
  to_wf : wf Transaction_codec tx;
  to_limits a : MsgProposeGovAction a ∈ messages (body tx) → action_limits a;
  to_keys k : k ∈ signing_keys tx ++ sponsor_keys tx → Address_from_public_key k ∉ reserved;
  to_group : group_address_of (tx_sender (body tx)) (tx_nonce (body tx)) ∈ reserved
             ∧ group_address_of (tx_sender (body tx)) (tx_nonce (body tx)) ≠ staking_account;
}.

Lemma tx_messages_ok tx : tx_ok tx → Forall message_ok (messages (body tx)).
Proof.
  intros [Hw Hl _ _]. apply Transaction_wf in Hw as (_ & _ & _ & _ & _ & Hms). rewrite Forall_forall in *. intros msg Hm.
  split; [by apply Hms|]. destruct msg; try done. by apply Hl.
Qed.

Lemma authorised_unreserved n s a keys :
  chain_ok n s → address_ok a → authorises (acc s a) keys = true →
  (∀ k, k ∈ keys → Address_from_public_key k ∉ reserved) → a ∉ reserved.
Proof.
  intros Hck Ha Hau Hk Hin. destruct (ck_accounts _ _ _ Hck a Ha) as [A1 A2 _]. destruct (A2 Hin) as [Hrk Hsg].
  unfold authorises in Hau. rewrite Hrk, Hsg in Hau. destruct (can_sign (acc s a)); simpl in Hau; [|done].
  destruct keys as [|k [|]]; try done. unfold master_key_may_sign in Hau. rewrite A1 in Hau.
  destruct (bool_decide (Address_from_public_key k = a)) eqn:E; [|by rewrite andb_false_r, orb_false_l in Hau; simpl in Hau].
  bool_simpl. apply (Hk k); [by left|by rewrite E].
Qed.

Lemma validate_basic_Ok b :
  validate_basic b = Ok tt → fee_amount (fee b) ≠ 0 ∧ Z.of_nat (length (messages b)) ≤ MAX_MESSAGES ∧ messages b ≠ [].
Proof.
  unfold validate_basic, Amount_is_zero. intros H.
  repeat match type of H with (if ?c then _ else _) = _ => destruct c eqn:?; [done|] end. by bool_simpl.
Qed.

Lemma verify_stateless_Ok tx chain h u :
  verify_stateless tx chain h = Ok u →
  validate_basic (body tx) = Ok tt ∧ tx_chain_id (body tx) = chain ∧ h ≤ valid_until (body tx) ∧ check_signatures tx = Ok u.
Proof.
  unfold verify_stateless. intros ([] & Hv & H)%result_bind_Ok_inv.
  repeat match type of H with (if ?c then _ else _) = _ => destruct c eqn:?; [done|] end. by bool_simpl.
Qed.

Lemma admission_Ok chain ctx tx s u :
  admission chain ctx tx s = Ok u →
  verify_stateless tx chain (ctx_height ctx) = Ok tt
  ∧ authorises (acc s (tx_sender (body tx))) (signing_keys tx) = true
  ∧ nonce (acc s (tx_sender (body tx))) = tx_nonce (body tx)
  ∧ (∀ p, payer (fee (body tx)) = Some p → authorises (acc s p) (sponsor_keys tx) = true).
Proof.
  unfold admission. intros ([] & Hv%map_err_Ok_inv & H)%result_bind_Ok_inv.
  apply result_bind_Ok_inv in H as (r & Hr%load_account_Ok & H). subst r.
  destruct (authorises _ _) eqn:Ea; [|done]. simpl in H. destruct (nonce _ =? tx_nonce _) eqn:En; [|done]. simpl in H.
  apply result_bind_Ok_inv in H as (v & Hsp & _). bool_simpl. split_and!; try done.
  intros p Hp. unfold is_sponsored, payer_or in Hsp. rewrite Hp in Hsp. simpl in Hsp.
  apply result_bind_Ok_inv in Hsp as (r & Hr%load_account_Ok & H). subst r. by destruct (authorises _ (sponsor_keys tx)).
Qed.

(** Whose history an executed transaction moves. *)
Definition moved (tx : Transaction) (res : result ExecError unit) : list Address :=
  match res with
  | Ok _ => touched_addresses tx
  | Err _ => sort_dedup [tx_sender (body tx); payer_or (fee (body tx)) (tx_sender (body tx))]
  end.

(** What its fee takes from an account. *)
Definition fee_due (tx : Transaction) (a : Address) (d : Denom) : Z :=
  if decide (a = payer_or (fee (body tx)) (tx_sender (body tx)) ∧ d = fee_denom (fee (body tx)))
  then fee_amount (fee (body tx)) else 0.

(** What executing an admitted transaction does. *)
Record tx_done (chain : ChainId) (ctx : BlockContext) (tx : Transaction) (n : Z) s (o : TxOutcome) s' : Prop := {
  td_admitted : admission chain ctx tx s = Ok tt;
  td_chain : chain_ok (n + Z.of_nat (length (messages (body tx)))) s';
  td_supply d : denom_ok d → supply s' d ≤ supply s d + mints (messages (body tx)) d;
  td_receipt : receipt o = {|
    r_tx_id := tx_id tx;
    code := match outcome o with Ok _ => RSuccess | Err e => code_of e end;
    fee_charged := fee_amount (fee (body tx));
    touched := (λ a, {| ta_address := a; previous := last_txn (acc s a) |}) <$> moved tx (outcome o) |};
  td_nonce a : address_ok a →
    nonce (acc s' a) = if decide (a = tx_sender (body tx)) then saturating_add u64_max (nonce (acc s a)) 1 else nonce (acc s a);
  td_pointer a : address_ok a →
    last_txn (acc s' a) = if decide (a ∈ moved tx (outcome o))
                          then Some {| tp_tx_id := tx_id tx; tp_height := ctx_height ctx |} else last_txn (acc s a);
  td_balance a d : address_ok a → denom_ok d → a ∉ reserved → a ≠ tx_sender (body tx) →
    bal s a d - fee_due tx a d ≤ bal s' a d;
  td_authority a : address_ok a → a ≠ tx_sender (body tx) →
    regular_key (acc s' a) = regular_key (acc s a) ∧ a_signers (acc s' a) = a_signers (acc s a) ∧ flags (acc s' a) = flags (acc s a);
  td_fee : ∃ s1,
    Bank.transfer (payer_or (fee (body tx)) (tx_sender (body tx))) fee_collector_address (fee_denom (fee (body tx)))
      (fee_amount (fee (body tx))) s = (Ok tt, s1)
    ∧ match outcome o with
      | Ok _ => ∃ s2, apply_messages ctx (tx_sender (body tx)) (messages (body tx)) s1 = (Ok tt, s2)
                  ∧ footprint [NsAccount] (kv_map s2) (kv_map s')
      | Err _ => footprint [NsAccount] (kv_map s1) (kv_map s')
      end;
}.

Lemma tx_id_wf tx ctx : context_ok ctx → wf TxPointer_codec {| tp_tx_id := tx_id tx; tp_height := ctx_height ctx |}.
Proof. intros [Hh _]. split; [apply hash_len|done]. Qed.

Lemma moved_ok tx res : wf Transaction_codec tx → Forall address_ok (moved tx res) ∧ NoDup (moved tx res).
Proof.
  intros Hw. destruct res; simpl; (split; [|apply sort_dedup_NoDup]); [by apply touched_addresses_ok|].
  apply Transaction_wf in Hw as (Ha & _ & _ & _ & Hp & _). apply Forall_forall. intros a.
  rewrite elem_of_sort_dedup, !elem_of_cons. unfold payer_or.
  intros [->|[->|[]%not_elem_of_nil]]; [done|]. destruct (payer (fee (body tx))); simpl; auto.
Qed.

(** The bookkeeping every executed transaction ends with. *)
Lemma bookkeeping n sender p l s t s' :
  address_ok sender → Forall address_ok l → NoDup l → wf TxPointer_codec p → chain_ok n s →
  move_pointers p l (bump_nonce sender s) = (t, s') →
  t = (λ a, {| ta_address := a; previous := last_txn (acc s a) |}) <$> l ∧ chain_ok n s'
  ∧ (∀ a, address_ok a → nonce (acc s' a) = if decide (a = sender) then saturating_add u64_max (nonce (acc s a)) 1 else nonce (acc s a))
  ∧ (∀ a, address_ok a → last_txn (acc s' a) = if decide (a ∈ l) then Some p else last_txn (acc s a))
  ∧ (∀ a, address_ok a →
      regular_key (acc s' a) = regular_key (acc s a) ∧ a_signers (acc s' a) = a_signers (acc s a) ∧ flags (acc s' a) = flags (acc s a))
  ∧ footprint [NsAccount] (kv_map s) (kv_map s').
Proof.
  intros Ha Hl Hnd Hp Hck H. destruct (bump_nonce_ok n sender s Ha Hck) as (Hck1 & E1 & F1).
  destruct (move_pointers_ok _ _ _ _ _ _ Hl Hnd Hp Hck1 H) as (-> & Hck2 & E2 & F2).
  assert (∀ a, address_ok a → last_txn (acc (bump_nonce sender s) a) = last_txn (acc s a)) as El.
  { intros a Hao. rewrite E1 by done. case_decide; [by subst|done]. }
  split; [|split; [done|split; [|split; [|split; [|by etrans]]]]].
  - apply list_fmap_ext. intros i a Hi%list_elem_of_lookup_2. rewrite Forall_forall in Hl. by rewrite El by (by apply Hl).
  - intros a Hao. rewrite E2 by done. trans (nonce (acc (bump_nonce sender s) a)); [by case_decide|]. rewrite E1 by done.
    destruct (decide (sender = a)) as [->|Hne]; [by rewrite decide_True|by rewrite decide_False by done].
  - intros a Hao. rewrite E2 by done. case_decide; [done|by apply El].
  - intros a Hao. rewrite E2, E1 by done. destruct (decide (a ∈ l)), (decide (sender = a)); by subst.
Qed.

Lemma execute_tx_spec chain ctx tx n s o s' :
  0 ≤ n → n + MAX_MESSAGES ≤ 2 ^ 54 → context_ok ctx → tx_ok tx →
  (∀ d, denom_ok d → 2 * (supply s d + mints (messages (body tx)) d) ≤ u128_max) → chain_ok n s →
  execute_tx chain ctx tx s = (o, s') →
  (∃ e, o = rejected (tx_id tx) e ∧ s' = s) ∨ tx_done chain ctx tx n s o s'.
Proof.
  intros Hn Hn2 Hctx Htx Hb Hck H. unfold execute_tx in H.
  destruct (admission chain ctx tx s) as [[]|e] eqn:Ead; [|injection H as <- <-; left; by eexists].
  destruct (admission_Ok _ _ _ _ _ Ead) as (Hv & Hau & Hnon & Hsp).
  apply verify_stateless_Ok in Hv as ((Hfee & Hlen & _)%validate_basic_Ok & _).
  destruct (Transaction_wf _ (to_wf _ Htx)) as (Ha & _ & Hd & Hfa & Hpa & _).
  set (sender := tx_sender (body tx)) in *. set (fp := payer_or (fee (body tx)) sender) in *.
  assert (sender ∉ reserved) as Hsr.
  { eapply authorised_unreserved; [exact Hck|done|exact Hau|]. intros k Hk. apply (to_keys _ Htx). apply elem_of_app. by left. }
  assert (address_ok fp ∧ fp ∉ reserved) as [Hfpa Hfpr].
  { unfold fp, payer_or. destruct (payer (fee (body tx))) as [p|] eqn:Ep; simpl; [|done]. split; [by apply Hpa|].
    eapply authorised_unreserved; [exact Hck|by apply Hpa|by apply Hsp|]. intros k Hk. apply (to_keys _ Htx). apply elem_of_app. by right. }
  unfold Amount_is_zero in H. rewrite (proj2 (Z.eqb_neq _ _) Hfee) in H.
  destruct (Bank.transfer fp fee_collector_address (fee_denom (fee (body tx))) (fee_amount (fee (body tx))) s) as [[[]|e] s1] eqn:Et.
  2:{ pose proof (bank_exec_atomic (Transfer _ _ _ _) _ _ _ Et) as ->. injection H as <- <-. left. by eexists. }
  assert (call_ok (Transfer fp fee_collector_address (fee_denom (fee (body tx))) (fee_amount (fee (body tx))))) as Hcall
    by (split_and!; [done|apply Address_derived_ok|done|done]).
  assert (safe_move fp (λ _, 0) s s1) as Hsm.
  { eapply (bank_safe fp (Transfer fp _ _ _) s tt s1 Hcall); [by intros E; rewrite E in Hfpr|by intros a [= <-]|exact Et]. }
  destruct (safe_move_effect reserved fp _ n _ _ staking_reserved (λ _, Hfpr) Hsm Hck) as (Hck1 & _ & [_ B1]).
  assert (keeps sender (kv_map s) (kv_map s1)) as K1.
  { apply keeps_ext. intros a _. apply (acc_at_footprint staking_ns); [apply Hsm|]. unfold staking_ns, bank_ns. set_solver. }
  set (len := Z.of_nat (length (messages (body tx)))) in *.
  destruct (apply_messages ctx sender (messages (body tx)) s1) as [res sb] eqn:Eap.
  destruct (move_pointers _ _ _) as [t s3] eqn:Emp in H. injection H as <- <-.
  set (s2 := match res with Ok _ => sb | Err _ => s1 end) in *.
  assert (chain_ok (n + len) s2 ∧ keeps sender (kv_map s) (kv_map s2)
    ∧ spares reserved sender (mints (messages (body tx))) s1 s2) as (Hck2 & K2 & [O2 B2]).
  { pose proof (tx_messages_ok _ Htx) as Hms. destruct (K1 sender Ha) as (En & _). destruct (to_group _ Htx) as [Hg1 Hg2].
    destruct res as [[]|e]; subst s2.
    - destruct (apply_messages_ok ctx sender (messages (body tx)) n s1 tt sb) as (? & K2 & B2); try done; [lia|..].
      + intros d Hdn. specialize (Hb d Hdn). specialize (B1 d Hdn). lia.
      + by rewrite En, Hnon.
      + by rewrite En, Hnon.
      + split_and!; [done|by eapply keeps_trans|done].
    - split_and!; [|done|]. { eapply chain_ok_mono; [|exact Hck1]. unfold len. lia. }
      split; [done|]. intros d Hdn. pose proof (mints_nonneg _ d Hms). lia. }
  destruct (moved_ok tx res (to_wf _ Htx)) as [Hmv Hnd].
  destruct (bookkeeping (n + len) sender _ (moved tx res) s2 t s3 Ha Hmv Hnd (tx_id_wf tx ctx Hctx) Hck2) as (-> & Hck3 & N3 & P3 & A3 & F3).
  { rewrite <- Emp. by destruct res. }
  right. split; simpl; try done.
  - intros d Hdn. unfold key_supply. rewrite (amount_at_footprint [NsAccount] (kv_map s2)); [|done|set_solver].
    specialize (B1 d Hdn). specialize (B2 d Hdn). unfold key_supply in *. lia.
  - f_equal. apply list_fmap_ext. intros i a Hi%list_elem_of_lookup_2. rewrite Forall_forall in Hmv.
    by destruct (K2 a (Hmv a Hi)) as (_ & -> & _).
  - intros a Hao. rewrite N3 by done. by destruct (K2 a Hao) as (-> & _).
  - intros a Hao. rewrite P3 by done. by destruct (K2 a Hao) as (_ & -> & _).
  - intros a d Hao Hdn Hnr Hne. unfold key_balance. rewrite (amount_at_footprint [NsAccount] (kv_map s2) (kv_map s3)); [|done|set_solver].
    specialize (O2 a d Hao Hdn Hne Hnr). destruct (bank_exec_ledger _ _ _ _ Hcall Et a d Hao Hdn) as (E1 & _). simpl in E1.
    destruct Hfa as [Hfa0 _]. unfold fee_due. fold sender. fold fp. unfold key_balance in *.
    revert E1. repeat case_decide; intros; destruct_and?; subst; try tauto; lia.
  - intros a Hao Hne. destruct (A3 a Hao) as (-> & -> & ->). by destruct (K2 a Hao) as (_ & _ & HK); apply HK.
  - exists s1. split; [done|]. destruct res as [[]|e]; [by exists sb|done].
Qed.
End chain.
