(* ===== verification/ChainRuns.v ===== *)
(** The life of a chain: genesis, then blocks of transactions, and what holds of the
    store, of every receipt and of every account through all of it. *)

From S2P Require Import Prelude SortedVec Sorting Codec Primitives Crypto Smt Merkle Store Records Group.
From S2P Require Import GroupProofs GroupTheorems Account Issuer Bank BankProofs BankTheorems Validators Votes.
From S2P Require Import VoteProofs Params Alias AliasProofs Gov GovProofs GovTheorems Tx Staking StakingProofs.
From S2P Require Import StakingTheorems Footprint Executor ExecProofs ChainProofs ChainGroups ChainMessages Block.
From S2P Require Import Genesis ChainTheorems.

(** Transactions in the order they ran, each with the block it was in. *)
Abbreviation step := (BlockContext * Transaction)%type.
Definition steps (bs : list (BlockContext * list Transaction)) : list step := concat ((λ b : BlockContext * list Transaction, (b.1,.) <$> b.2) <$> bs).
Definition results (os : list BlockOutcome) : list TxOutcome := concat (outcomes <$> os).

Definition charged (o : TxOutcome) : bool := negb (fee_charged (receipt o) =? 0).

Section runs.
Context {Hs : Hasher} {Sg : Signer} {Un : Unicode} {St : Type} {KV : KeyValueStore St} {Ro : Rooted St}.
Implicit Types (s : St).

Fixpoint run_blocks (chain : ChainId) (bs : list (BlockContext * list Transaction)) s : list BlockOutcome * St :=
  match bs with
  | [] => ([], s)
  | (ctx, txs) :: bs =>
      let '(o, s) := execute_block chain ctx txs s in
      let '(os, s) := run_blocks chain bs s in
      (o :: os, s)
  end.

Fixpoint run_steps (chain : ChainId) (l : list step) s : list TxOutcome * St :=
  match l with
  | [] => ([], s)
  | (ctx, tx) :: l =>
      let '(o, s) := execute_tx chain ctx tx s in
      let '(os, s) := run_steps chain l s in
      (o :: os, s)
  end.

Lemma run_steps_app chain l1 l2 s :
  run_steps chain (l1 ++ l2) s =
    let '(o1, s1) := run_steps chain l1 s in let '(o2, s2) := run_steps chain l2 s1 in (o1 ++ o2, s2).
Proof.
  revert s. induction l1 as [|[ctx tx] l1 IH]; intros s; cbn [app run_steps]; [by destruct (run_steps chain l2 s)|].
  destruct (execute_tx chain ctx tx s) as [o s1]. rewrite IH. destruct (run_steps chain l1 s1) as [o1 s2].
  by destruct (run_steps chain l2 s2).
Qed.

Lemma execute_txs_steps chain ctx txs s : execute_txs chain ctx txs s = run_steps chain ((ctx,.) <$> txs) s.
Proof.
  revert s. induction txs as [|tx txs IH]; intros s; [done|]. rewrite fmap_cons. cbn [execute_txs run_steps].
  destruct (execute_tx chain ctx tx s) as [o s1]. by rewrite IH.
Qed.

(** Blocks change nothing but where the roots are taken. *)
Lemma run_blocks_steps chain bs s os s' :
  run_blocks chain bs s = (os, s') → run_steps chain (steps bs) s = (results os, s').
Proof.
  revert s os s'. induction bs as [|[ctx txs] bs IH]; intros s os s' H; cbn [run_blocks] in H.
  - by injection H as <- <-.
  - unfold execute_block in H. destruct (execute_txs chain ctx txs s) as [o s1] eqn:E1.
    destruct (run_blocks chain bs s1) as [os1 s2] eqn:E2. injection H as <- <-.
    unfold steps. cbn [fmap list_fmap concat]. rewrite run_steps_app. cbn [fst snd].
    rewrite <- execute_txs_steps, E1. unfold steps in IH. by rewrite (IH _ _ _ E2).
Qed.

(** ** A transaction is refused whole, or it is charged *)

Context {KM : KVMap St}.

Lemma move_pointers_footprint p l s t s' : move_pointers p l s = (t, s') → footprint [NsAccount] (kv_map s) (kv_map s').
Proof.
  revert s t s'. induction l as [|a l IH]; intros s t s' H; cbn [move_pointers] in H; [by injection H as <- <-|].
  unfold move_history_pointer in H. destruct (move_pointers p l _) as [t1 s1] eqn:E. injection H as _ <-.
  etrans; [apply store_account_footprint|by eapply IH].
Qed.

Lemma rejected_charged id e : charged (rejected id e) = false.
Proof. done. Qed.

Lemma admission_fee chain ctx tx s u : admission chain ctx tx s = Ok u → fee_amount (fee (body tx)) ≠ 0.
Proof. intros (Hv & _)%admission_Ok. apply verify_stateless_Ok in Hv as (Hb & _). by apply validate_basic_Ok in Hb as (? & _). Qed.

Lemma execute_tx_cases chain ctx tx s o s' :
  execute_tx chain ctx tx s = (o, s') → admission chain ctx tx s = Ok tt ∨ (charged o = false ∧ s' = s).
Proof.
  unfold execute_tx. intros H. destruct (admission chain ctx tx s) as [[]|e]; [by left|]. injection H as <- <-. by right.
Qed.

(** C5: Every path through [execute_tx], on any store.  A transaction that fails either
    was refused before anything was charged (no fee, nobody touched, and the store
    exactly as it was), or had been admitted and paid for: then the fee was taken
    from its payer, none of its messages left a trace, and beyond the fee only
    account records (nonce and history pointers) changed.  A transaction that
    succeeds was admitted, paid for, and every one of its messages applied in
    order.  The receipt's code and fee say which of the three it was. *)
Theorem execute_tx_all_or_fee chain ctx tx s o s' :
  execute_tx chain ctx tx s = (o, s') →
  r_tx_id (receipt o) = tx_id tx
  ∧ match outcome o with
    | Err e =>
        code (receipt o) = code_of e
        ∧ if charged o then
            admission chain ctx tx s = Ok tt ∧ fee_charged (receipt o) = fee_amount (fee (body tx))
            ∧ ∃ s1, Bank.transfer (payer_or (fee (body tx)) (tx_sender (body tx))) fee_collector_address
                      (fee_denom (fee (body tx))) (fee_amount (fee (body tx))) s = (Ok tt, s1)
                    ∧ footprint [NsAccount] (kv_map s1) (kv_map s')
          else touched (receipt o) = [] ∧ s' = s
    | Ok _ =>
        code (receipt o) = RSuccess ∧ charged o = true
        ∧ admission chain ctx tx s = Ok tt ∧ fee_charged (receipt o) = fee_amount (fee (body tx))
        ∧ ∃ s1 s2, Bank.transfer (payer_or (fee (body tx)) (tx_sender (body tx))) fee_collector_address
                     (fee_denom (fee (body tx))) (fee_amount (fee (body tx))) s = (Ok tt, s1)
                   ∧ apply_messages ctx (tx_sender (body tx)) (messages (body tx)) s1 = (Ok tt, s2)
                   ∧ footprint [NsAccount] (kv_map s2) (kv_map s')
    end.
Proof.
  unfold execute_tx. intros H. destruct (admission chain ctx tx s) as [[]|e] eqn:Ead; [|by injection H as <- <-].
  pose proof (admission_fee _ _ _ _ _ Ead) as Hfee. unfold Amount_is_zero in H. rewrite (proj2 (Z.eqb_neq _ _) Hfee) in H.
  destruct (Bank.transfer _ _ _ _ s) as [[[]|e] s1] eqn:Et.
  2:{ pose proof (bank_exec_atomic (Transfer _ _ _ _) _ _ _ Et) as ->. by injection H as <- <-. }
  destruct (apply_messages _ _ _ s1) as [[[]|e] s2] eqn:Eap;
    destruct (move_pointers _ _ _) as [t s3] eqn:Emp in H; injection H as <- <-; unfold charged; simpl;
    rewrite (proj2 (Z.eqb_neq _ _) Hfee); simpl;
    apply move_pointers_footprint in Emp; split_and!; try done.
  - exists s1, s2. split_and!; [done..|]. etrans; [apply store_account_footprint|exact Emp].
  - exists s1. split; [done|]. etrans; [apply store_account_footprint|exact Emp].
Qed.
Lemma verify_entries_Ok doc l u :
  verify_entries doc l = Ok u →
  Forall (λ e, PublicKey_verify (ts_public_key e) DTxSignDoc doc (ts_signature e) = true) l.
Proof. induction l as [|e l IH]; simpl; [done|]. destruct (PublicKey_verify _ _ _ _) eqn:E; [|done]. intros H. constructor; auto. Qed.

Lemma check_list_Ok doc l u :
  check_list doc l = Ok u →
  signatures_sorted l = true ∧ Forall (λ e, PublicKey_verify (ts_public_key e) DTxSignDoc doc (ts_signature e) = true) l.
Proof. unfold check_list. destruct (signatures_sorted l); [|done]. simpl. intros H. split; [done|by eapply verify_entries_Ok]. Qed.

Lemma check_signatures_Ok tx u :
  check_signatures tx = Ok u →
  signatures tx ≠ [] ∧ (payer (fee (body tx)) = None ↔ sponsor_signatures tx = [])
  ∧ Forall (λ e, PublicKey_verify (ts_public_key e) DTxSignDoc (sign_doc (body tx)) (ts_signature e) = true)
      (signatures tx ++ sponsor_signatures tx).
Proof.
  unfold check_signatures. destruct (bool_decide_reflect (signatures tx = [])); [done|].
  destruct (MAX_SIGNATURES <? _); [done|]. cbn [orb]. destruct (MAX_SIGNATURES <? _); [done|].
  destruct (Bool.eqb _ _) eqn:E; [done|]. intros (v & [_ H1]%check_list_Ok & [_ H2]%check_list_Ok)%result_bind_Ok_inv.
  split_and!; [done| |by apply Forall_app]. unfold is_sponsored in E.
  destruct (payer (fee (body tx))), (sponsor_signatures tx); simpl in E; split; done.
Qed.

(** C3: Nothing is charged without authority, on any store.  If a transaction was charged
    then it names this chain and has not expired, every signature on it (the
    sender's and the sponsor's) verifies over its own signing document, the keys
    that signed may act for the sender by the sender's record as it stood, the
    nonce is that record's next one, and when somebody else pays the fee the keys
    that signed as sponsor may act for that account. *)
Theorem charged_was_authorised chain ctx tx s o s' :
  execute_tx chain ctx tx s = (o, s') → charged o = true →
  tx_chain_id (body tx) = chain ∧ ctx_height ctx ≤ valid_until (body tx)
  ∧ Forall (λ e, PublicKey_verify (ts_public_key e) DTxSignDoc (sign_doc (body tx)) (ts_signature e) = true)
      (signatures tx ++ sponsor_signatures tx)
  ∧ (∃ r, load_account (tx_sender (body tx)) s = Ok r ∧ authorises r (ts_public_key <$> signatures tx) = true
          ∧ nonce r = tx_nonce (body tx))
  ∧ ∀ p, payer (fee (body tx)) = Some p →
      ∃ r, load_account p s = Ok r ∧ authorises r (ts_public_key <$> sponsor_signatures tx) = true.
Proof.
  intros H Hc. assert (admission chain ctx tx s = Ok tt) as Had.
  { destruct (execute_tx_cases chain ctx tx s o s' H) as [? | [Hf _]]; [done|congruence]. }
  destruct (admission_Ok _ _ _ _ _ Had) as (Hv & _). apply verify_stateless_Ok in Hv as (_ & ? & ? & (_ & _ & ?)%check_signatures_Ok).
  unfold admission in Had. apply result_bind_Ok_inv in Had as (? & _ & Had).
  apply result_bind_Ok_inv in Had as (r & Hr & Had). destruct (authorises r _) eqn:Ea; [|done]. simpl in Had.
  destruct (nonce r =? _) eqn:En; [|done]. simpl in Had. apply result_bind_Ok_inv in Had as (v & Hsp & _). bool_simpl.
  split_and!; [done..|by exists r|]. intros p Hp. unfold is_sponsored, payer_or in Hsp. rewrite Hp in Hsp. simpl in Hsp.
  apply result_bind_Ok_inv in Hsp as (r' & Hr' & Hsp). exists r'. split; [done|]. unfold sponsor_keys in Hsp.
  by destruct (authorises r' _).
Qed.
End runs.

(** * A launched chain *)

Section launched.
Context {Hs : Hasher} {Sg : Signer} {Un : Unicode} {St : Type} {KV : KeyValueStore St} {KM : KVMap St} {Ro : Rooted St}.
Implicit Types (s : St).
Context (reserved : list Address) (staking_reserved : staking_account ∈ reserved).
Abbreviation bal s a d := (amount_at (kv_map s) (key_balance a d)).
Abbreviation supply s d := (amount_at (kv_map s) (key_supply d)).
Abbreviation acc s a := (acc_at (kv_map s) a).
Abbreviation chain_ok := (chain_ok reserved).

Definition total_mints (l : list step) (d : Denom) : Z := list_sum (λ st, mints (messages (body st.2)) d) l.

(** The assumptions on a chain: it starts from a genesis file applied to an empty
    store; blocks carry decoded transactions and none of their keys hashes to a
    reserved (module or group) address; at most 2^54 messages are ever executed, and
    what is allocated and minted of a denomination stays under 2^127. *)
Record launched (g : Genesis) (limits : GenesisLimits) s0 (b : Block) s (bs : list (BlockContext * list Transaction)) : Prop := {
  la_empty : kv_map s0 = ∅;
  la_genesis : wf Genesis_codec g;
  la_limits : limits_ok (Params.staking (g_params g));
  la_apply : genesis_apply g limits s0 = (Ok b, s);
  la_txs ctx tx : (ctx, tx) ∈ steps bs → context_ok ctx ∧ tx_ok reserved tx;
  la_length : MAX_MESSAGES * (Z.of_nat (length (steps bs)) + 1) ≤ 2 ^ 54;
  la_supply d : denom_ok d → 2 * (allocated_total g d + total_mints (steps bs) d) ≤ u128_max;
}.

(** What a run does, one transaction at a time. *)
Inductive history (chain : ChainId) : Z → St → list step → list TxOutcome → St → Prop :=
| history_nil n s : chain_ok n s → history chain n s [] [] s
| history_rejected n s ctx tx e l os s' :
    execute_tx chain ctx tx s = (rejected (tx_id tx) e, s) → history chain n s l os s' →
    history chain n s ((ctx, tx) :: l) (rejected (tx_id tx) e :: os) s'
| history_charged n s ctx tx o s1 l os s' :
    tx_ok reserved tx → tx_done reserved chain ctx tx n s o s1 →
    history chain (n + Z.of_nat (length (messages (body tx)))) s1 l os s' →
    history chain n s ((ctx, tx) :: l) (o :: os) s'.

Lemma run_history chain l n s os s' :
  0 ≤ n → n + MAX_MESSAGES * (Z.of_nat (length l) + 1) ≤ 2 ^ 54 →
  Forall (λ st, context_ok st.1 ∧ tx_ok reserved st.2) l →
  (∀ d, denom_ok d → 2 * (supply s d + total_mints l d) ≤ u128_max) → chain_ok n s →
  run_steps chain l s = (os, s') → history chain n s l os s'.
Proof.
  intros Hn Hle Hl. revert n s os s' Hn Hle. induction Hl as [|[ctx tx] l [Hc Ht] Hl IH]; intros n s os s' Hn Hle Hb Hck H.
  { injection H as <- <-. by constructor. }
  cbn [run_steps] in H. destruct (execute_tx chain ctx tx s) as [o s1] eqn:E. destruct (run_steps chain l s1) as [os1 s2] eqn:E2.
  injection H as <- <-. rewrite length_cons in Hle. unfold total_mints in Hb. simpl in Hc, Ht.
  assert (∀ d, denom_ok d → 0 ≤ list_sum (λ st : step, mints (messages (body st.2)) d) l) as Hr.
  { intros d Hd. apply list_sum_nonneg. eapply Forall_impl; [exact Hl|]. intros st [_ Hst]. by eapply mints_nonneg, tx_messages_ok. }
  assert (∀ d, denom_ok d → 0 ≤ mints (messages (body tx)) d) as Hm by (intros d Hd; by eapply mints_nonneg, tx_messages_ok).
  unfold MAX_MESSAGES in *.
  destruct (execute_tx_spec reserved staking_reserved chain ctx tx n s o s1) as [(e & -> & ->)|Hd]; try done.
  - unfold MAX_MESSAGES. lia.
  - intros d Hd. specialize (Hb d Hd). rewrite list_sum_cons in Hb. cbn [snd] in Hb. specialize (Hr d Hd). lia.
  - apply history_rejected; [done|]. apply IH; try done; [lia|]. intros d Hd. specialize (Hb d Hd). rewrite list_sum_cons in Hb.
    cbn [snd] in Hb. specialize (Hm d Hd). unfold total_mints. lia.
  - eapply history_charged; [done|exact Hd|]. pose proof (td_admitted _ _ _ _ _ _ _ _ Hd) as Had.
    apply admission_Ok in Had as (Hv & _). apply verify_stateless_Ok in Hv as ((_ & Hlen & _)%validate_basic_Ok & _).
    unfold MAX_MESSAGES in Hlen. apply IH; try done; [lia|lia| |apply Hd].
    intros d Hdn. specialize (Hb d Hdn). rewrite list_sum_cons in Hb. cbn [snd] in Hb.
    pose proof (td_supply _ _ _ _ _ _ _ _ Hd d Hdn). unfold total_mints. lia.
Qed.

Lemma launched_history g limits s0 b s bs chain os s' :
  launched g limits s0 b s bs → run_blocks chain bs s = (os, s') →
  history chain 0 s (steps bs) (results os) s' ∧ chain_ok 0 s.
Proof.
  intros [He Hg Hl Ha Ht Hlen Hsu] Hr%run_blocks_steps.
  destruct (genesis_apply_spec reserved staking_reserved _ _ _ _ _ He Hg Hl Ha) as (Hck & _ & Es & _).
  split; [|done]. eapply run_history; try done; [|intros d Hd; rewrite Es by done; auto].
  apply Forall_forall. intros [ctx tx] Hin. by apply Ht.
Qed.

Lemma run_chain_ok chain n s l os s' : history chain n s l os s' → ∃ n', chain_ok n' s'.
Proof. induction 1; eauto. Qed.

Lemma launched_ok g limits s0 b s bs chain os s' :
  launched g limits s0 b s bs → run_blocks chain bs s = (os, s') → ∃ n, chain_ok n s'.
Proof. intros Hl Hr. by eapply run_chain_ok, launched_history. Qed.

(** ** The store *)

(** C1: Conservation through any number of blocks.  On a chain launched from genesis,
    after any blocks (rejected and failed transactions included) the recorded supply
    of every denomination reads back and is exactly the sum of all balances of it,
    and staking's module account holds at least everything bonded and unbonding. *)
Theorem blocks_conserve g limits s0 b s bs chain os s' :
  launched g limits s0 b s bs → run_blocks chain bs s = (os, s') →
  (∀ d, denom_ok d → view_total_supply s' d = Ok (circulating s' d))
  ∧ ∃ held, view_balance s' staking_account Denom_native = Ok held ∧ staked (kv_map s') ≤ held.
Proof.
  intros Hl Hr. destruct (launched_ok _ _ _ _ _ _ _ _ _ Hl Hr) as [n Hck]. destruct (ck_money _ _ _ Hck) as [Hst _].
  pose proof (so_bank _ Hst) as Hb. split.
  - intros d Hd. rewrite bank_ok_view_supply by done. destruct Hb as [_ Hc]. by rewrite Hc.
  - eexists. split; [apply bank_ok_view_balance; [done|apply staking_account_ok|apply native_ok]|by apply so_solvent].
Qed.

(** C15: Every account stays readable and usable.  After any blocks every address loads:
    the record there (or the fresh one it stands for) is well formed, names that
    very address, and has a key, a signer list or a live master key that can sign
    for it; and only reserved addresses are groups. *)
Theorem accounts_stay_usable g limits s0 b s bs chain os s' a :
  launched g limits s0 b s bs → run_blocks chain bs s = (os, s') → address_ok a →
  ∃ r, load_account a s' = Ok r ∧ wf Account_codec r ∧ a_address r = a ∧ has_a_usable_authority r = true
       ∧ (a ∉ reserved → as_group r = None).
Proof.
  intros Hl Hr Ha. destruct (launched_ok _ _ _ _ _ _ _ _ _ Hl Hr) as [n Hck]. exists (acc s' a).
  destruct (ck_accounts _ _ _ Hck a Ha) as [A1 _ A3]. pose proof (acc_at_wf (kv_map s') a Ha) as Hw.
  split_and!; [by eapply load_account_ok|done|done|by apply (proj1 (Account_wf _)) in Hw as [_ ?]|].
  intros Hn. destruct (as_group (acc s' a)) as [gr|]; [|done]. by destruct (A3 gr eq_refl).
Qed.

(** C7: Every savings group stays sound and backed.  After any blocks, whatever record
    reads back as a group obeys the group rules, and the ledger holds at least its
    social fund for it, in the group's own denomination. *)
Theorem groups_stay_backed g limits s0 b s bs chain os s' a r gr :
  launched g limits s0 b s bs → run_blocks chain bs s = (os, s') →
  address_ok a → load_account a s' = Ok r → as_group r = Some gr →
  group_ok gr ∧ ∃ held, view_balance s' a (denom_of gr) = Ok held ∧ social_fund gr ≤ held.
Proof.
  intros Hl Hr Ha ->%load_account_Ok Hg. destruct (launched_ok _ _ _ _ _ _ _ _ _ Hl Hr) as [n Hck].
  destruct (as_group_denom _ _ _ _ _ Hck Ha Hg) as (Hd & _ & _ & Hok & _ & Hback). split; [done|].
  eexists. split; [|exact Hback]. destruct (ck_money _ _ _ Hck) as [Hst _].
  apply bank_ok_view_balance; [by apply so_bank|done|done].
Qed.

(** ** Accounts *)

Lemma done_charged chain ctx tx n s o s' : tx_done reserved chain ctx tx n s o s' → charged o = true.
Proof.
  intros Hd. unfold charged. rewrite (td_receipt _ _ _ _ _ _ _ _ Hd). simpl.
  by rewrite (proj2 (Z.eqb_neq _ _) (admission_fee _ _ _ _ _ (td_admitted _ _ _ _ _ _ _ _ Hd))).
Qed.

Lemma sender_ok tx : tx_ok reserved tx → address_ok (tx_sender (body tx)).
Proof. intros Ht. destruct (Transaction_wf _ (to_wf _ _ Ht)) as (? & _). done. Qed.

Lemma acc_nonce_bound s a : address_ok a → 0 ≤ nonce (acc s a) ≤ u64_max.
Proof. intros Ha. pose proof (acc_at_wf (kv_map s) a Ha) as Hw. apply (proj1 (Account_wf _)) in Hw as [(_ & Hn & _) _]. by apply wf_u64. Qed.

Lemma done_nonce chain ctx tx n s o s' a :
  tx_done reserved chain ctx tx n s o s' → address_ok a → nonce (acc s a) ≤ nonce (acc s' a).
Proof.
  intros Hd Ha. rewrite (td_nonce _ _ _ _ _ _ _ _ Hd a Ha). pose proof (acc_nonce_bound s a Ha). unfold saturating_add.
  case_decide; lia.
Qed.

Lemma history_tx_ok chain n s l os s' k ctx tx o :
  history chain n s l os s' → l !! k = Some (ctx, tx) → os !! k = Some o → charged o = true → tx_ok reserved tx.
Proof. intros Hh. revert k. induction Hh; intros [|k] Hl Ho Hc; simplify_eq/=; try done; by eapply IHHh. Qed.

(** A transaction charged later carries a nonce no lower than the account's now. *)
Lemma history_nonce chain n s l os s' j ctx tx o :
  history chain n s l os s' → l !! j = Some (ctx, tx) → os !! j = Some o → charged o = true →
  nonce (acc s (tx_sender (body tx))) ≤ tx_nonce (body tx).
Proof.
  intros Hh. revert j. induction Hh as [n s|n s ctx1 tx1 e l os s' _ _ IH|n s ctx1 tx1 o1 s1 l os s' Ht Hd Hh IH];
    intros [|j] Hl Ho Hc; simplify_eq/=; try done; [by eapply IH|..].
  - pose proof (td_admitted _ _ _ _ _ _ _ _ Hd) as (_ & _ & -> & _)%admission_Ok. done.
  - etrans; [|by eapply IH]. eapply done_nonce; [exact Hd|].
    by eapply sender_ok, history_tx_ok.
Qed.

(** C4: No replay.  On a launched chain two charged transactions of one sender, in any
    blocks, carry strictly increasing nonces: a transaction that was charged once
    is never charged again. *)
Theorem no_replay g limits s0 b s bs chain os s' i j c1 tx1 o1 c2 tx2 o2 :
  launched g limits s0 b s bs → run_blocks chain bs s = (os, s') → (i < j)%nat →
  steps bs !! i = Some (c1, tx1) → results os !! i = Some o1 → charged o1 = true →
  steps bs !! j = Some (c2, tx2) → results os !! j = Some o2 → charged o2 = true →
  tx_sender (body tx1) = tx_sender (body tx2) → tx_nonce (body tx1) < u64_max →
  tx_nonce (body tx1) < tx_nonce (body tx2).
Proof.
  intros Hl Hr Hij H1 O1 C1 H2 O2 C2 Hs' Hmax. destruct (launched_history _ _ _ _ _ _ _ _ _ Hl Hr) as [Hh _].
  clear Hl Hr. revert i j Hij H1 O1 H2 O2. generalize (steps bs), (results os), 0, s, s', Hh. clear Hh s s'.
  intros l os' n s s' Hh. induction Hh as [n s|n s ctx tx e l os1 s' _ _ IH|n s ctx tx o s1 l os1 s' Ht Hd Hh IH];
    intros [|i] [|j] Hij H1 O1 H2 O2; simplify_eq/=; try done; try lia; try (eapply (IH i j); eauto; lia).
  pose proof (sender_ok _ Ht) as Ha. pose proof (history_nonce _ _ _ _ _ _ _ _ _ _ Hh H2 O2 C2) as Hn.
  pose proof (td_admitted _ _ _ _ _ _ _ _ Hd) as (_ & _ & Hnon & _)%admission_Ok.
  rewrite <- Hs', (td_nonce _ _ _ _ _ _ _ _ Hd _ Ha), decide_True, Hnon in Hn by done. unfold saturating_add in Hn. lia.
Qed.

(** What charged transactions took from an account in fees. *)
Definition fees (l : list step) (os : list TxOutcome) (a : Address) (d : Denom) : Z :=
  list_sum (λ p, if charged p.2 then fee_due p.1.2 a d else 0) (zip l os).

Lemma history_custody chain n s l os s' a :
  history chain n s l os s' → address_ok a → a ∉ reserved →
  (∀ i ctx tx o, l !! i = Some (ctx, tx) → os !! i = Some o → charged o = true → tx_sender (body tx) ≠ a) →
  (nonce (acc s' a) = nonce (acc s a) ∧ regular_key (acc s' a) = regular_key (acc s a)
   ∧ a_signers (acc s' a) = a_signers (acc s a) ∧ flags (acc s' a) = flags (acc s a))
  ∧ ∀ d, denom_ok d → bal s a d - fees l os a d ≤ bal s' a d.
Proof.
  intros Hh Ha Hr. unfold fees. induction Hh as [n s|n s ctx tx e l os s' _ _ IH|n s ctx tx o s1 l os s' Ht Hd Hh IH]; intros Hno.
  - split; [done|]. intros d _. simpl. lia.
  - destruct IH as [? IH]; [intros i; apply (Hno (S i))|]. split; [done|]. intros d Hd. cbn [zip_with]. rewrite list_sum_cons. simpl. by apply IH.
  - pose proof (done_charged _ _ _ _ _ _ _ Hd) as Hc. pose proof (Hno 0%nat ctx tx o eq_refl eq_refl Hc) as Hne.
    destruct IH as [(E1 & E2 & E3 & E4) IH]; [intros i; apply (Hno (S i))|].
    destruct (td_authority _ _ _ _ _ _ _ _ Hd a Ha (not_eq_sym Hne)) as (F1 & F2 & F3).
    pose proof (td_nonce _ _ _ _ _ _ _ _ Hd a Ha) as Fn. rewrite decide_False in Fn by done.
    split; [split_and!; congruence|]. intros d Hdn. cbn [zip_with]. rewrite list_sum_cons. simpl. rewrite Hc.
    pose proof (td_balance _ _ _ _ _ _ _ _ Hd a d Ha Hdn Hr (not_eq_sym Hne)). specialize (IH d Hdn). lia.
Qed.

(** C2: Custody.  Through any blocks, an account (not a module's or a group's) that sent no
    charged transaction keeps its nonce, its regular key, its signer list and its
    flags, and loses nothing of any denomination but the fees of transactions it was
    itself the named payer of. *)
Theorem custody g limits s0 b s bs chain os s' a r r' :
  launched g limits s0 b s bs → run_blocks chain bs s = (os, s') → address_ok a → a ∉ reserved →
  (∀ i ctx tx o, steps bs !! i = Some (ctx, tx) → results os !! i = Some o → charged o = true → tx_sender (body tx) ≠ a) →
  load_account a s = Ok r → load_account a s' = Ok r' →
  (nonce r' = nonce r ∧ regular_key r' = regular_key r ∧ a_signers r' = a_signers r ∧ flags r' = flags r)
  ∧ ∀ d, denom_ok d → ∃ x x', view_balance s a d = Ok x ∧ view_balance s' a d = Ok x'
      ∧ x - fees (steps bs) (results os) a d ≤ x'.
Proof.
  intros Hl Hr Ha Hnr Hno ->%load_account_Ok ->%load_account_Ok.
  destruct (launched_history _ _ _ _ _ _ _ _ _ Hl Hr) as [Hh Hck]. destruct (run_chain_ok _ _ _ _ _ _ Hh) as [n' Hck'].
  destruct (history_custody _ _ _ _ _ _ _ Hh Ha Hnr Hno) as [? Hb]. split; [done|]. intros d Hd.
  destruct (ck_money _ _ _ Hck) as [[Hb1 _] _], (ck_money _ _ _ Hck') as [[Hb2 _] _].
  exists (ledger_balance s a d), (ledger_balance s' a d). split_and!; [by apply bank_ok_view_balance..|]. by apply Hb.
Qed.

(** ** Provable history *)

(** The receipts that name an account: where each stands, and what it says came before. *)
Definition appearance (a : Address) (p : step * TxOutcome) : option (TxPointer * option TxPointer) :=
  match previous_for (receipt p.2) a with
  | Some prev => Some ({| tp_tx_id := r_tx_id (receipt p.2); tp_height := ctx_height p.1.1 |}, prev)
  | None => None
  end.
Definition appearances (a : Address) (l : list step) (os : list TxOutcome) : list (TxPointer * option TxPointer) :=
  omap (appearance a) (zip l os).

(** Following [previous] from [to] passes every entry, newest first, and ends at [from]. *)
Fixpoint linked (from : option TxPointer) (es : list (TxPointer * option TxPointer)) (to : option TxPointer) : Prop :=
  match es with
  | [] => to = from
  | (p, prev) :: es => prev = from ∧ linked (Some p) es to
  end.

Lemma previous_for_moved s l r a :
  touched r = (λ a, {| ta_address := a; previous := last_txn (acc s a) |}) <$> l →
  previous_for r a = if decide (a ∈ l) then Some (last_txn (acc s a)) else None.
Proof.
  unfold previous_for. intros ->. induction l as [|b l IH]; [done|]. rewrite fmap_cons. cbn [list_find].
  cbn [ta_address]. destruct (decide (b = a)) as [->|Hne].
  - by rewrite decide_True by (by left).
  - revert IH. destruct (list_find _ _) as [[k t]|]; cbn [fmap option_fmap option_map prod_map]; simpl; intros ->;
      destruct (decide (a ∈ l)), (decide (a ∈ b :: l)); try done; set_solver.
Qed.

Lemma history_linked chain n s l os s' a :
  history chain n s l os s' → address_ok a → linked (last_txn (acc s a)) (appearances a l os) (last_txn (acc s' a)).
Proof.
  intros Hh Ha. unfold appearances. induction Hh as [n s|n s ctx tx e l os s' _ _ IH|n s ctx tx o s1 l os s' Ht Hd Hh IH]; try done.
  cbn [zip_with omap list_omap]. unfold appearance at 1. cbn [fst snd].
  pose proof (td_receipt _ _ _ _ _ _ _ _ Hd) as Er. pose proof (td_pointer _ _ _ _ _ _ _ _ Hd a Ha) as Ep.
  rewrite (previous_for_moved s (moved tx (outcome o))) by (by rewrite Er). rewrite Er. simpl.
  destruct (decide (a ∈ moved tx (outcome o))); rewrite Ep in IH; [by split|done].
Qed.

Lemma sender_moved tx res : tx_sender (body tx) ∈ moved tx res.
Proof. destruct res; simpl; rewrite ?elem_of_sort_dedup; [|by left]. unfold touched_addresses. rewrite elem_of_sort_dedup. by left. Qed.

(** Provable history.  After any blocks, following the [previous] pointers of receipts
    from an account's record visits exactly the receipts that name the account, newest
    first, and stops before its first one; and no charged transaction the account sent
    is missing from them. *)
Theorem history_pointers_linked g limits s0 b s bs chain os s' a r :
  launched g limits s0 b s bs → run_blocks chain bs s = (os, s') → address_ok a → load_account a s' = Ok r →
  linked None (appearances a (steps bs) (results os)) (last_txn r)
  ∧ ∀ i ctx tx o, steps bs !! i = Some (ctx, tx) → results os !! i = Some o → charged o = true → tx_sender (body tx) = a →
      is_Some (previous_for (receipt o) a).
Proof.
  intros Hl Hr Ha ->%load_account_Ok. destruct (launched_history _ _ _ _ _ _ _ _ _ Hl Hr) as [Hh _]. split.
  - destruct Hl as [He Hg Hlm Hap _ _ _].
    destruct (genesis_apply_spec reserved staking_reserved _ _ _ _ _ He Hg Hlm Hap) as (_ & _ & _ & Hacc & _).
    pose proof (history_linked _ _ _ _ _ _ a Hh Ha) as Hlk. by rewrite (Hacc a Ha) in Hlk.
  - clear Hl Hr Ha. induction Hh as [n s|n s ctx1 tx1 e l os1 s' _ _ IH|n s ctx1 tx1 o1 s1 l os1 s' Ht Hd Hh IH];
      intros [|i] ctx tx o H1 H2 Hc <-; simplify_eq/=; try done; try (by eapply IH).
    rewrite (previous_for_moved s (moved tx (outcome o))) by (by rewrite (td_receipt _ _ _ _ _ _ _ _ Hd)).
    rewrite decide_True by apply sender_moved. by eexists.
Qed.
End launched.
