(* ===== verification/RpcProofs.v ===== *)
(** What a wallet may conclude from a node's answers, and that a node's own answers pass
    the wallet's checks: the walk of an account's history over proved transactions is
    exact, what a node that follows its chain serves verifies, and questions and answers
    survive the wire. *)

From S2P Require Import Prelude SortedVec Sorting Codec Primitives Crypto Merkle Smt Store Account Bank Alias AliasProofs Validators.
From S2P Require Import Votes Tx Staking Executor Block ChainProofs ChainTheorems ChainRuns Light LightProofs Genesis StateNodes ChainStore ChainStoreProofs Rpc.

(** * A leaf at a place the prover chose *)

Section members.
Context {Hs : Hasher}.

(** What is hashed to build a tree over [items], leaves and empty root included. *)
Definition items_inputs (items : list bytes) : list bytes :=
  hash_input DMerkleNode [] :: (hash_input DMerkleLeaf <$> items) ++ tree_inputs (merkle_leaf_hash <$> items).

Lemma leaf_not_node inputs x a b :
  collision_free inputs → hash_input DMerkleLeaf x ∈ inputs → hash_input DMerkleNode (a ++ b) ∈ inputs →
  merkle_leaf_hash x ≠ merkle_node_hash a b.
Proof.
  intros Hc H1 H2. unfold merkle_leaf_hash, merkle_node_hash, hash_parts. simpl. rewrite app_nil_r.
  by intros [E _]%(hash_inj inputs).
Qed.

Lemma leaf_not_empty inputs x :
  collision_free inputs → hash_input DMerkleLeaf x ∈ inputs → hash_input DMerkleNode [] ∈ inputs → merkle_leaf_hash x ≠ empty_root.
Proof. intros Hc H1 H2. by intros [E _]%(hash_inj inputs). Qed.

Lemma node_not_empty inputs a b :
  collision_free inputs → hash_input DMerkleNode (a ++ b) ∈ inputs → hash_input DMerkleNode [] ∈ inputs → hash32_ok a →
  merkle_node_hash a b ≠ empty_root.
Proof.
  intros Hc H1 H2 Ha. unfold merkle_node_hash, hash_parts. simpl. rewrite app_nil_r.
  intros [_ E]%(hash_inj inputs); [|done..]. by destruct a.
Qed.

(** The top of a path that climbs at least once. *)
Lemma climb_top on_left frames s siblings leaf :
  hash32_ok leaf → Forall hash32_ok (s :: siblings) →
  ∃ a b, climb (on_left :: frames) (s :: siblings) leaf = merkle_node_hash a b ∧ hash32_ok a
       ∧ hash_input DMerkleNode (a ++ b) ∈ climb_inputs (on_left :: frames) (s :: siblings) leaf
       ∧ climb_inputs frames siblings leaf ⊆ climb_inputs (on_left :: frames) (s :: siblings) leaf
       ∧ (climb frames siblings leaf = a ∨ climb frames siblings leaf = b).
Proof.
  intros Hl [Hh _]%Forall_cons. destruct on_left; simpl; eexists _, _; (split_and!; [done| |by left|set_solver|eauto]); [|done].
  by apply climb_len.
Qed.

(** Whatever path and size the prover claims, a leaf that climbs to the root is a leaf. *)
Lemma climb_member x items frames siblings :
  Forall hash32_ok siblings → length frames = length siblings →
  collision_free (hash_input DMerkleLeaf x :: items_inputs items ++ climb_inputs frames siblings (merkle_leaf_hash x)) →
  climb frames siblings (merkle_leaf_hash x) = root_of (merkle_leaf_hash <$> items) → x ∈ items.
Proof.
  revert frames siblings. induction items as [l Hl|l Hl IHl IHr] using split_ind; intros frames siblings Hs' Hlen Hcf Hroot.
  - destruct frames as [|d fs], siblings as [|h ss]; try done.
    + destruct l as [|y [|]]; simpl in *; [| |lia].
      * rewrite root_of_equation_1 in Hroot. apply (leaf_not_empty _ _ Hcf) in Hroot; [done|set_solver..].
      * rewrite root_of_equation_2 in Hroot. apply (hash_inj _ _ _ _ _ Hcf) in Hroot as [_ ->]; set_solver.
    + destruct (climb_top d fs h ss (merkle_leaf_hash x)) as (a & b & E & Ha & Hin & _); [apply hash_len|done|].
      rewrite E in Hroot. destruct l as [|y [|]]; simpl in *; [| |lia].
      * rewrite root_of_equation_1 in Hroot. apply (node_not_empty _ _ _ Hcf) in Hroot; [done|set_solver..|done].
      * rewrite root_of_equation_2 in Hroot. symmetry in Hroot. apply (leaf_not_node _ _ _ _ Hcf) in Hroot; [done|set_solver..].
  - assert (length (merkle_leaf_hash <$> l) = length l) as El by apply length_fmap.
    rewrite root_of_split, El, <- fmap_take, <- fmap_drop in Hroot by lia.
    unfold items_inputs in Hcf. rewrite tree_inputs_split, El, <- fmap_take, <- fmap_drop in Hcf by lia.
    set (L := take _ l) in *. set (R := drop _ l) in *.
    assert (l = L ++ R) as El' by (symmetry; apply take_drop). rewrite El' in Hcf |- *. clear El'. clearbody L R. rewrite fmap_app in Hcf.
    destruct frames as [|d fs], siblings as [|h ss]; try done.
    + apply (leaf_not_node _ _ _ _ Hcf) in Hroot; [done|set_solver..].
    + destruct (climb_top d fs h ss (merkle_leaf_hash x)) as (a & b & E & Ha & Hin & Hsub & Hab); [apply hash_len|done|].
      rewrite E in Hroot. apply (merkle_node_hash_inj _ _ _ _ _ Hcf) in Hroot as [-> ->]; [|set_solver..|done|].
      2:{ apply root_of_len, Forall_fmap, Forall_forall. intros y _. apply hash_len. }
      apply Forall_cons in Hs' as [_ Hs']. injection Hlen as Hlen. apply elem_of_app.
      destruct Hab as [Hab|Hab]; [left; apply (IHl fs ss)|right; apply (IHr fs ss)]; try done;
        (eapply collision_free_mono; [|exact Hcf]); unfold items_inputs; set_solver.
Qed.
End members.

(** * Walking a history *)

Section walk.
Context {Hs : Hasher} {Sg : Signer} {Un : Unicode} {St : Type} {KV : KeyValueStore St} {KM : KVMap St} {Ro : Rooted St}.
Context (reserved : list Address) (staking_reserved : staking_account ∈ reserved).
Implicit Types (s : St).

(** A wallet that keeps stepping: the transactions the cursor handed back. *)
Fixpoint walk (l : list (ProvedTransaction * BlockHeader)) : M HistoryCursor HistoryError (list Transaction) :=
  match l with
  | [] => ret []
  | (p, h) :: l =>
      let! tx := cursor_step p h in
      let! txs := walk l in
      ret (tx :: txs)
  end.

(** The transactions whose receipts name an account, oldest first. *)
Definition own_transaction (a : Address) (p : step * TxOutcome) : option Transaction :=
  match previous_for (receipt p.2) a with Some _ => Some p.1.2 | None => None end.
Definition own_transactions (a : Address) (l : list step) (os : list TxOutcome) : list Transaction :=
  omap (own_transaction a) (zip l os).

(** What a proved transaction is made of, as it comes off the wire. *)
Definition proved_ok (p : ProvedTransaction) : Prop :=
  wf Transaction_codec (pt_transaction p) ∧ wf TxReceipt_codec (pt_receipt p) ∧ Forall hash32_ok (pt_receipt_siblings p).

Definition tx_input (tx : Transaction) : bytes := hash_input DTxId (encode Transaction_codec tx).
(** Everything hashed to check a proved transaction's receipt. *)
Definition proved_inputs (p : ProvedTransaction) : list bytes :=
  let leaf := encode TxReceipt_codec (pt_receipt p) in
  [tx_input (pt_transaction p); hash_input DMerkleLeaf leaf]
  ++ climb_inputs (frames_of (Z.to_nat (pt_index p)) (Z.to_nat (pt_total p))) (pt_receipt_siblings p) (merkle_leaf_hash leaf).
(** Everything hashed to commit to a block's outcomes. *)
Definition outcome_inputs (o : BlockOutcome) : list bytes := items_inputs ((λ x, encode TxReceipt_codec (receipt x)) <$> outcomes o).

Definition chain_inputs (bs : list (BlockContext * list Transaction)) (os : list BlockOutcome) : list bytes :=
  ((λ st : step, tx_input st.2) <$> steps bs) ++ concat (outcome_inputs <$> os).

Lemma tx_id_inj inputs tx1 tx2 :
  collision_free inputs → tx_input tx1 ∈ inputs → tx_input tx2 ∈ inputs → wf Transaction_codec tx1 → wf Transaction_codec tx2 →
  tx_id tx1 = tx_id tx2 → tx1 = tx2.
Proof. intros Hc H1 H2 W1 W2 [_ E]%(hash_inj inputs); [|done..]. by apply (encode_inj Transaction_codec) in E. Qed.

Lemma check_inclusion_Ok siblings root leaf i n u :
  check_inclusion siblings root leaf i n = Ok u →
  length (frames_of i n) = length siblings ∧ climb (frames_of i n) siblings leaf = root.
Proof.
  unfold check_inclusion, MerkleProof_verify. cbn [mp_index mp_total]. rewrite !Nat.eqb_refl. cbn [negb orb].
  destruct (MerkleProof_compute_root _ _) as [r|] eqn:E; cbn; [|done]. case_bool_decide; [|done].
  apply compute_root_Ok in E as (_ & ? & ->). done.
Qed.

(** An accepted proof carries a receipt the block really committed to. *)
Lemma proved_receipt p header tx r o :
  ProvedTransaction_verify p header = Ok (tx, r) → proved_ok p → Forall (λ x, wf TxReceipt_codec (receipt x)) (outcomes o) →
  h_outcome_root header = outcome_root o → collision_free (proved_inputs p ++ outcome_inputs o) →
  tx = pt_transaction p ∧ r_tx_id r = tx_id tx ∧ ∃ x, x ∈ outcomes o ∧ receipt x = r.
Proof.
  intros H (_ & Hw & Hsib) Hws Hroot Hcf. unfold ProvedTransaction_verify in H.
  destruct (_ =? _); [|done]. cbn [negb] in H. apply result_bind_Ok_inv in H as (u1 & _ & H). apply result_bind_Ok_inv in H as (u2 & H2 & H).
  case_bool_decide as Eid; [|done]. injection H as <- <-. split_and!; [done|done|].
  apply check_inclusion_Ok in H2 as [Hlen Hc]. rewrite Hroot in Hc.
  apply climb_member in Hc as (x & E & Hx)%list_elem_of_fmap; [|done|done|].
  - exists x. split; [done|]. rewrite Forall_forall in Hws. symmetry. by apply (encode_inj TxReceipt_codec); [|apply Hws|].
  - eapply collision_free_mono; [|exact Hcf]. unfold proved_inputs, outcome_inputs. set_solver.
Qed.

Lemma elem_of_appearances a l os e :
  e ∈ appearances a l os → ∃ j ctx tx o, l !! j = Some (ctx, tx) ∧ os !! j = Some o ∧ appearance a ((ctx, tx), o) = Some e.
Proof.
  unfold appearances. intros ([[ctx tx] o] & Hin & E)%list_elem_of_omap.
  apply list_elem_of_lookup in Hin as [j Hj]. apply lookup_zip_with_Some in Hj as (st & o' & [= <- <-] & H1 & H2). by exists j, ctx, tx, o.
Qed.

Lemma history_length chain n s l os s' : history reserved chain n s l os s' → length l = length os.
Proof. induction 1; simpl; congruence. Qed.

(** A receipt that names an account is of a charged transaction, under its own id. *)
Lemma history_named chain n s l os s' j ctx tx o a :
  history reserved chain n s l os s' → l !! j = Some (ctx, tx) → os !! j = Some o → is_Some (previous_for (receipt o) a) →
  charged o = true ∧ r_tx_id (receipt o) = tx_id tx.
Proof.
  intros Hh. revert j. induction Hh as [n s|n s c1 t1 e l os s' _ _ IH|n s c1 t1 o1 s1 l os s' Ht Hd Hh IH];
    intros [|j] Hl Ho Hn; simplify_eq/=; try (by eapply IH).
  - by destruct Hn.
  - split; [by eapply done_charged|]. by rewrite (td_receipt _ _ _ _ _ _ _ _ Hd).
Qed.

(** No transaction is charged twice, so no receipt is mistaken for another. *)
Lemma history_ids_unique chain n s l os s' a inputs :
  history reserved chain n s l os s' → collision_free inputs → (∀ st, st ∈ l → tx_input st.2 ∈ inputs) →
  (∀ st, st ∈ l → tx_nonce (body st.2) < u64_max) → NoDup ((λ e, tp_tx_id e.1) <$> appearances a l os).
Proof.
  intros Hh Hcf. induction Hh as [n s|n s ctx tx e l os s' _ _ IH|n s ctx tx o s1 l os s' Ht Hd Hh IH]; intros Hin Hnon.
  - constructor.
  - apply IH; set_solver.
  - cbn [appearances zip_with omap list_omap]. unfold appearances in *. cbn [zip_with omap list_omap].
    specialize (IH ltac:(set_solver) ltac:(set_solver)). unfold appearance at 1. cbn [fst snd].
    destruct (previous_for (receipt o) a) as [prev|]; [|done]. rewrite fmap_cons. constructor; [|done].
    intros (e & Eid & (j & ctx2 & tx2 & o2 & H1 & H2 & Ea)%elem_of_appearances)%list_elem_of_fmap.
    unfold appearance in Ea. cbn [fst snd] in Ea. destruct (previous_for (receipt o2) a) as [p2|] eqn:Ep; [|done].
    injection Ea as <-. cbn [fst tp_tx_id] in Eid. destruct (history_named _ _ _ _ _ _ _ _ _ _ _ Hh H1 H2 ltac:(eauto)) as [Hc2 E2].
    rewrite E2, (td_receipt _ _ _ _ _ _ _ _ Hd) in Eid. cbn [r_tx_id] in Eid.
    pose proof (history_tx_ok _ _ _ _ _ _ _ _ _ _ _ Hh H1 H2 Hc2) as Ht2. apply list_elem_of_lookup_2 in H1 as Hm.
    apply (tx_id_inj inputs) in Eid; [|done|apply (Hin (ctx, tx)); by left|apply (Hin (ctx2, tx2)); by right|apply Ht|apply Ht2].
    subst tx2. pose proof (history_nonce _ _ _ _ _ _ _ _ _ _ _ Hh H1 H2 Hc2) as Hle.
    pose proof (td_admitted _ _ _ _ _ _ _ _ Hd) as (_ & _ & En & _)%admission_Ok.
    rewrite (td_nonce _ _ _ _ _ _ _ _ Hd _ (sender_ok _ _ Ht)), decide_True, En in Hle by done. unfold saturating_add in Hle.
    pose proof (Hnon (ctx, tx) ltac:(by left)) as Hlt. cbn [snd] in Hlt. lia.
Qed.

Lemma appearance_ids chain n s l os s' a :
  history reserved chain n s l os s' → (λ e, tp_tx_id e.1) <$> appearances a l os = tx_id <$> own_transactions a l os.
Proof.
  unfold appearances, own_transactions. induction 1 as [n s|n s ctx tx e l os s' _ _ IH|n s ctx tx o s1 l os s' Ht Hd Hh IH]; [done|done|].
  cbn [zip_with omap list_omap]. unfold appearance at 1, own_transaction at 1. cbn [fst snd].
  destruct (previous_for (receipt o) a); [|done]. rewrite !fmap_cons. f_equal; [|done]. cbn [fst tp_tx_id].
  by rewrite (td_receipt _ _ _ _ _ _ _ _ Hd).
Qed.

(** The newest end of a linked history. *)
Lemma linked_snoc from es p prev to : linked from (es ++ [(p, prev)]) to → to = Some p ∧ linked from es prev.
Proof. revert from. induction es as [|[q pq] es IH]; intros from; simpl; [by intros [-> ->]|]. intros [-> H]. by apply IH in H as [-> ?]. Qed.

Lemma cursor_step_Ok p h c tx c' :
  cursor_step p h c = (Ok tx, c') →
  ∃ ptr r prev, hc_next c = Some ptr ∧ ProvedTransaction_verify p h = Ok (tx, r) ∧ tx_id tx = tp_tx_id ptr
    ∧ previous_for r (hc_address c) = Some prev ∧ hc_next c' = prev ∧ hc_address c' = hc_address c.
Proof.
  unfold cursor_step. intros H. repeat inv_M_step. bool_simpl.
  match goal with H : ProvedTransaction_verify _ _ = Ok ?y |- _ => destruct y as [tx r] end. simpl in *. eauto 10.
Qed.

Lemma elem_of_concat_2 {A} (x : A) l ls : x ∈ l → l ∈ ls → x ∈ concat ls.
Proof. rewrite !list_elem_of_In. intros. apply in_concat. by exists l. Qed.

(** The chain whose history is walked, and the headers the wallet holds of it. *)
Definition committed_in (os : list BlockOutcome) (h : BlockHeader) : Prop := ∃ o, o ∈ os ∧ h_outcome_root h = outcome_root o.

Section walking.
Context (chain : ChainId) (a : Address) (n : Z) (s s' : St) (bs : list (BlockContext * list Transaction)) (os : list BlockOutcome).
Context (Hh : history reserved chain n s (steps bs) (results os) s').
Context (receipts_wf : Forall (λ o, wf TxReceipt_codec (receipt o)) (results os)).
Abbreviation all := (appearances a (steps bs) (results os)).
Context (ids_unique : NoDup ((λ e, tp_tx_id e.1) <$> all)).

Lemma committed_appearance h p tx r prev :
  ProvedTransaction_verify p h = Ok (tx, r) → proved_ok p → committed_in os h → collision_free (proved_inputs p ++ chain_inputs bs os) →
  previous_for r a = Some prev → ∃ ht, ({| tp_tx_id := tx_id tx; tp_height := ht |}, prev) ∈ all.
Proof.
  intros Hv Hp (o & Ho & Er) Hcf Hprev.
  assert (∀ x, x ∈ outcomes o → x ∈ results os) as Hin.
  { intros x Hx. unfold results. by apply (elem_of_concat_2 _ (outcomes o)), list_elem_of_fmap_2. }
  destruct (proved_receipt p h tx r o) as (-> & Eid & x & Hx & <-); [done|done| |done| |].
  - apply Forall_forall. intros x Hx. rewrite Forall_forall in receipts_wf. by apply receipts_wf, Hin.
  - eapply collision_free_mono; [|exact Hcf]. apply list_subseteq_app_iff_l. split; [set_solver|]. unfold chain_inputs. intros y Hy.
    apply elem_of_app. right. apply elem_of_app. right. by apply (elem_of_concat_2 _ (outcome_inputs o)), list_elem_of_fmap_2.
  - apply Hin, list_elem_of_lookup in Hx as [j Hj]. pose proof (history_length _ _ _ _ _ _ Hh) as El.
    destruct (lookup_lt_is_Some_2 (steps bs) j) as [[ctx tx] Hst]; [rewrite El; by eapply lookup_lt_Some|].
    exists (ctx_height ctx). rewrite <- Eid. apply list_elem_of_omap. exists ((ctx, tx), x). split.
    + apply list_elem_of_lookup. exists j. by rewrite lookup_zip_with, Hst, Hj.
    + unfold appearance. cbn [fst snd]. by rewrite Hprev.
Qed.

Lemma walk_spec l c txs c' es later :
  walk l c = (Ok txs, c') → hc_address c = a → all = es ++ later → linked None es (hc_next c) →
  (∀ p h, (p, h) ∈ l → proved_ok p ∧ committed_in os h ∧ collision_free (proved_inputs p ++ chain_inputs bs os)) →
  ∃ rest, reverse ((λ e, tp_tx_id e.1) <$> es) = (tx_id <$> txs) ++ rest ∧ (complete c' = true ↔ rest = []).
Proof.
  revert c txs es later. induction l as [|[p h] l IH]; intros c txs es later H Ha Ees Hlk Hl; cbn [walk] in H.
  - apply ret_inv in H as [[= ->] ->]. exists (reverse ((λ e, tp_tx_id e.1) <$> es)). split; [done|]. unfold complete.
    destruct es as [|[q pq] es _] using rev_ind; [simpl in Hlk; by rewrite Hlk|].
    apply linked_snoc in Hlk as [-> _]. rewrite fmap_app, reverse_app. by split.
  - apply bind_Ok_inv in H as (tx & c1 & Hstep & H). apply bind_Ok_inv in H as (txs1 & c2 & Hw & H).
    apply ret_inv in H as [[= ->] ->]. apply cursor_step_Ok in Hstep as (ptr & r & prev & Hn & Hv & Eid & Hprev & Hnext & Haddr).
    rewrite Hn in Hlk. destruct es as [|[q pq] es _] using rev_ind; [done|]. apply linked_snoc in Hlk as [[= ->] Hlk].
    destruct (Hl p h) as (Hp & Hc & Hcf); [by left|]. rewrite Ha in Hprev.
    destruct (committed_appearance _ _ _ _ _ Hv Hp Hc Hcf Hprev) as [ht Hin].
    assert (prev = pq) as ->.
    { apply list_elem_of_lookup in Hin as [i Hi].
      assert (all !! length es = Some (q, pq)) as Hj by (rewrite Ees, <- app_assoc; by apply list_lookup_middle).
      rewrite NoDup_alt in ids_unique. assert (i = length es) as ->; [|by rewrite Hj in Hi; injection Hi].
      apply (ids_unique _ _ (tp_tx_id q)); rewrite list_lookup_fmap; [rewrite Hi; simpl; by rewrite Eid|by rewrite Hj]. }
    eapply IH in Hw as (rest & Er & Hcomp); [|congruence|by rewrite Ees, <- app_assoc| |].
    + exists rest. split; [|done]. rewrite fmap_app, reverse_app, Er. cbn. by rewrite Eid.
    + by rewrite Hnext.
    + intros p' h' Hm. apply Hl. by right.
Qed.
End walking.

Lemma walk_offered l c txs c' : walk l c = (Ok txs, c') → txs = (λ p, pt_transaction p.1) <$> l.
Proof.
  revert c txs. induction l as [|[p h] l IH]; intros c txs H; cbn [walk] in H; [by apply ret_inv in H as [[= ->] _]|].
  apply bind_Ok_inv in H as (tx & c1 & Hstep & H). apply bind_Ok_inv in H as (txs1 & c2 & Hw & H). apply ret_inv in H as [[= ->] ->].
  apply cursor_step_Ok in Hstep as (_ & r & _ & _ & Hv & _). apply IH in Hw as ->. rewrite fmap_cons. f_equal.
  unfold ProvedTransaction_verify in Hv. destruct (_ =? _); [|done]. cbn [negb] in Hv.
  apply result_bind_Ok_inv in Hv as (? & _ & Hv). apply result_bind_Ok_inv in Hv as (? & _ & Hv). by destruct (bool_decide _); simplify_eq/=.
Qed.

Lemma own_ok chain n s l os s' a tx :
  history reserved chain n s l os s' → tx ∈ own_transactions a l os → wf Transaction_codec tx ∧ ∃ ctx, (ctx, tx) ∈ l.
Proof.
  intros Hh ([[ctx tx'] o] & Hin & E)%list_elem_of_omap. unfold own_transaction in E. cbn [fst snd] in E.
  destruct (previous_for (receipt o) a) eqn:Ep; [injection E as ->|done]. apply list_elem_of_lookup in Hin as [j Hj].
  apply lookup_zip_with_Some in Hj as (st & o' & [= <- <-] & H1 & H2).
  destruct (history_named _ _ _ _ _ _ _ _ _ _ _ Hh H1 H2 ltac:(eauto)) as [Hc _].
  split; [eapply to_wf, history_tx_ok; eauto|]. exists ctx. by eapply list_elem_of_lookup_2.
Qed.

Lemma tx_ids_inj inputs l1 l2 :
  collision_free inputs → Forall (λ tx, tx_input tx ∈ inputs ∧ wf Transaction_codec tx) l1 →
  Forall (λ tx, tx_input tx ∈ inputs ∧ wf Transaction_codec tx) l2 → tx_id <$> l1 = tx_id <$> l2 → l1 = l2.
Proof.
  intros Hcf H1. revert l2. induction H1 as [|tx1 l1 [I1 W1] _ IH]; intros [|tx2 l2] H2 E; try done.
  apply Forall_cons in H2 as [[I2 W2] H2]. rewrite !fmap_cons in E. injection E as E E'.
  f_equal; [by apply (tx_id_inj inputs)|by apply IH].
Qed.

End walk.

(** * An honest node's answers *)

From S2P Require Import Mempool Round Signing Node NodeProofs.

Section served.
Context {Hs : Hasher} {Sg : Signer} {Un : Unicode}.

Abbreviation entry := (Block * Commit * list TxReceipt)%type.

(** The proof a tree makes is accepted under its own root and under no other. *)
Lemma prove_checks items i x root :
  items !! i = Some x →
  ∃ p, MerkleTree_prove (MerkleTree_from_items items) i = Ok p
    ∧ check_inclusion (mp_siblings p) root (merkle_leaf_hash x) i (length items)
      = if bool_decide (root = root_of (MerkleTree_from_items items)) then Ok tt else Err BadProof.
Proof.
  intros Hi. destruct (inclusion_proof_verifies (MerkleTree_from_items items) i (merkle_leaf_hash x)) as (p & Hp & Hv).
  { unfold MerkleTree_from_items. by rewrite list_lookup_fmap, Hi. }
  assert (length (MerkleTree_from_items items) = length items) as El by apply length_fmap.
  exists p. split; [done|]. unfold MerkleTree_prove in Hp. destruct (_ <=? _)%nat; [done|]. injection Hp as <-.
  rewrite El in Hv. revert Hv. unfold check_inclusion, MerkleProof_verify. cbn [mp_siblings mp_index mp_total].
  rewrite ?El, !Nat.eqb_refl. cbn [negb orb]. destruct (MerkleProof_compute_root _ _) as [r|]; [|done]. cbn [mbind result_bind].
  case_bool_decide as E; [|done]. intros _. rewrite <- E, (bool_decide_ext (r = root) (root = r)) by done. by case_bool_decide.
Qed.

Lemma answer_transaction_served {V} {CV : ChainView V} (v : V) (e : entry) n tx :
  cv_locate v (tx_id tx) = Ok (Some (e_height e, Z.of_nat n)) →
  cv_block v (e_height e) = Ok (Some (e_block e)) → cv_receipts v (e_height e) = Ok (Some e.2) →
  wf Block_codec (e_block e) → h_tx_root (b_header (e_block e)) = tx_root (transactions (e_block e)) →
  r_tx_id <$> e.2 = tx_id <$> transactions (e_block e) → transactions (e_block e) !! n = Some tx →
  ∃ p r, e.2 !! n = Some r ∧ answer_transaction v (tx_id tx) = Ok (RTransaction p)
    ∧ ProvedTransaction_verify p (b_header (e_block e))
      = if bool_decide (h_outcome_root (b_header (e_block e)) = root_of (MerkleTree_from_items (encode TxReceipt_codec <$> e.2)))
        then Ok (tx, r) else Err BadProof.
Proof.
  intros Hloc Hb Hrs Hw Ht Hids Hn.
  assert (length e.2 = length (transactions (e_block e))) as El by (apply (f_equal length) in Hids; by rewrite !length_fmap in Hids).
  destruct (lookup_lt_is_Some_2 e.2 n) as [r Hr]; [rewrite El; by eapply lookup_lt_Some|].
  assert (r_tx_id r = tx_id tx) as Eid.
  { apply (f_equal (.!! n)) in Hids. rewrite !list_lookup_fmap, Hr, Hn in Hids. by injection Hids. }
  destruct (prove_checks (tx_id <$> transactions (e_block e)) n (tx_id tx) (h_tx_root (b_header (e_block e)))) as (p1 & P1 & V1);
    [by rewrite list_lookup_fmap, Hn|].
  destruct (prove_checks (encode TxReceipt_codec <$> e.2) n (encode TxReceipt_codec r) (h_outcome_root (b_header (e_block e)))) as (p2 & P2 & V2);
    [by rewrite list_lookup_fmap, Hr|].
  assert (Z.of_nat (length (transactions (e_block e))) ≤ u32_max) as Hlen
    by (destruct Hw as [_ [Hl _]]; unfold MAX_FIELD_LEN, u32_max in *; cbn [snd] in Hl; lia).
  rewrite Ht, bool_decide_eq_true_2, length_fmap in V1 by done. rewrite length_fmap in V2.
  eexists _, r. split; [done|]. unfold answer_transaction.
  rewrite Hloc. cbn [mbind result_bind ok_or]. rewrite Hb. cbn [mbind result_bind ok_or].
  rewrite Nat2Z.id, Hn. cbn [mbind result_bind ok_or]. rewrite (proj2 (Z.ltb_ge _ _) Hlen), P1. cbn [map_err mbind result_bind].
  rewrite Hrs. cbn [mbind result_bind ok_or]. rewrite El, Nat.eqb_refl. cbn [negb]. rewrite Hr. cbn [ok_or mbind result_bind].
  rewrite P2. cbn [map_err mbind result_bind]. split; [done|].
  unfold ProvedTransaction_verify. cbn [pt_height pt_index pt_total pt_transaction pt_siblings pt_receipt pt_receipt_siblings].
  unfold e_height. rewrite Z.eqb_refl, Ht, !Nat2Z.id. cbn [negb].
  rewrite V1. cbn [mbind result_bind]. rewrite <- El, V2. case_bool_decide; [|done]. cbn [mbind result_bind].
  by rewrite bool_decide_eq_true_2.
Qed.

(** ** A node that follows its chain ([p2p/src/transport.rs])

    A peer's block goes through [Node::apply_synced]; what it commits goes to the daemon's
    sink with the receipts and the state the node then holds. *)

Section following.
Context {Sk : Signing} {R : Type} {SR : SignRecord R}.
#[local] Existing Instance tree_store.
#[local] Existing Instance tree_rooted.
Abbreviation FNode := (@Node Sg Sk TreeStore R).
Implicit Types (nd : FNode) (p : Persist) (s : TreeStore).

(** [Shared::after_commit], as far as the sink goes. *)
Definition after_commit (f : faults) (acts : list Action) (rs : list TxReceipt) s p : Persist :=
  foldl (λ p a,
    match a with
    | ACommitted b c => committed_sink (f_state f) (f_insert f) (f_block f) b c rs s p
    | _ => p
    end) p acts.

(** [Shared::apply_block] as far as the node and the sink go, and whether the block was
    applied; the manager it also informs is [Manager]'s. *)
Definition apply_block (f : faults) (b : Block) (c : Commit) nd p : bool * FNode * Persist :=
  match apply_synced b c nd with
  | (Ok acts, nd) => (true, nd, after_commit f acts (last_receipts nd) (n_store nd) p)
  | (Err _, nd) => (false, nd, p)
  end.

(** Whatever peers offer, in order, until a write fails and the daemon stops: what was
    stored, the node and the sink. *)
Fixpoint follow_chain (l : list (faults * (Block * Commit))) nd p : list entry * FNode * Persist :=
  match l with
  | [] => ([], nd, p)
  | (f, (b, c)) :: l =>
      let '(applied, nd, p) := apply_block f b c nd p in
      if negb applied then follow_chain l nd p else
      match ps_failed p with
      | Some _ => ([], nd, p)
      | None => let '(es, nd', p') := follow_chain l nd p in ((b, c, last_receipts nd) :: es, nd', p')
      end
  end.

(** A block's execution on the state before it. *)
Abbreviation run_block chain h b s :=
  (execute_block chain {| ctx_height := h; ctx_time := h_time (b_header b) |} (transactions b) s) (only parsing).

(** What a follower stored, block by block from height [h] and state [s] on. *)
Fixpoint followed chain vals (h : Height) s (es : list entry) : Prop :=
  match es with
  | [] => True
  | e :: es =>
      e_height e = h ∧ c_block_id e.1.2 = BlockHeader_id (b_header (e_block e)) ∧ c_height e.1.2 = h
      ∧ Commit_verify e.1.2 chain vals = Ok tt ∧ h_tx_root (b_header (e_block e)) = tx_root (transactions (e_block e))
      ∧ e.2 = receipt <$> outcomes (run_block chain h (e_block e) s).1
      ∧ h_app_hash (b_header (e_block e)) = kv_root (next_state chain h (e_block e) s)
      ∧ followed chain vals (h + 1) (next_state chain h (e_block e) s) es
  end.

(** Storing a block changes the tables by it, or the sink keeps the failure. *)
Lemma committed_sink_tables f e s p es db0 h :
  ps_failed p = None → tables_of es db0 (ps_store p) → e_height e = h → pub_at (ps_state p) ≤ h →
  let p' := committed_sink (f_state f) (f_insert f) (f_block f) (e_block e) e.1.2 e.2 s p in
  (ps_failed p' = None ∧ tables_of (es ++ [e]) db0 (ps_store p') ∧ ps_state p' = {| pub_state := s; pub_at := h |}
     ∧ Z.of_nat (length (transactions (e_block e))) ≤ u32_max + 1)
  ∨ (is_Some (ps_failed p') ∧ tables_of es db0 (ps_store p') ∧ ps_state p' = ps_state p).
Proof.
  intros Hf Ht Hh Hp. cbv zeta. unfold committed_sink, note_failure.
  destruct (persist_state (f_state f) (f_insert f) s (ps_store p)) as [[r|err] db1] eqn:E1; cbn [ps_failed ps_store ps_state].
  - apply persist_state_Ok in E1 as [_ E1]. apply (tables_of_meta es db0) in E1; [|done].
    destruct (put_block (f_block f) (e_block e) e.1.2 e.2 db1) as [[[]|err] db2] eqn:E2; cbn [ps_failed ps_store ps_state]; rewrite Hf.
    + left. pose proof (put_block_Ok _ _ _ _ _ _ E2) as (_ & _ & Hn & _). apply (put_block_tables es _ e db0) in E2; [|done].
      split_and!; [done|done| |done]. unfold advance. change (h_height (b_header (e_block e))) with (e_height e). rewrite Hh.
      by rewrite (proj2 (Z.ltb_ge _ _) Hp).
    + right. split_and!; [by eexists|done|done].
  - right. rewrite Hf. split_and!; [by eexists|done|done].
Qed.

(** What holds between two offers. *)
Record following chain vals (h : Height) db0 (es0 : list entry) nd p : Prop := {
  fo_chain : n_chain_id nd = chain;
  fo_vals : n_validators nd = vals;
  fo_height : n_height nd = h;
  fo_tables : tables_of es0 db0 (ps_store p);
  fo_sizes : Forall (λ e, Z.of_nat (length (transactions (e_block e))) ≤ u32_max + 1) es0;
  fo_state : pub_state (ps_state p) = n_store nd;
  fo_at : pub_at (ps_state p) = h - 1;
}.

Lemma apply_block_spec f b c nd p chain vals h db0 es0 :
  following chain vals h db0 es0 nd p → ps_failed p = None → h < u64_max →
  let '(applied, nd', p') := apply_block f b c nd p in
  if applied then
    let e := (b, c, last_receipts nd') : entry in
    followed chain vals h (n_store nd) [e] ∧ n_store nd' = next_state chain h b (n_store nd)
    ∧ if ps_failed p' then tables_of es0 db0 (ps_store p') ∧ ps_state p' = ps_state p
      else following chain vals (h + 1) db0 (es0 ++ [e]) nd' p'
  else nd' = nd ∧ p' = p.
Proof.
  intros [Ec Ev Eh Ht Hn Es Ea] Hf Hh. unfold apply_block. destruct (apply_synced b c nd) as [[acts|err] nd'] eqn:E.
  2:{ split; [by eapply apply_synced_Err|done]. }
  apply apply_synced_Ok in E as ([= H1 H2 _] & [= H3 H4] & H5 & _ & H6 & o & s & He & Hroot & E).
  unfold tx_root_matches in H5. apply bool_decide_eq_true in H5. rewrite Ec, ?Ev, ?Eh in *.
  unfold advance_past in E. injection E as <- <-. cbn [last_receipts set_last_receipts set_n_store n_store n_height n_chain_id n_validators after_commit foldl].
  assert (next_state chain h b (n_store nd) = s) as En by (unfold next_state; by rewrite He).
  assert (kv_root s = o_app_hash o) as Hr.
  { unfold execute_block in He. destruct (execute_txs _ _ _ _) as [os s1]. by injection He as <- <-. }
  set (e := (b, c, receipt <$> outcomes o) : entry).
  split_and!; [| |].
  - cbn [followed]. change (e_block e) with b. change (e_height e) with (h_height (b_header b)). rewrite En, He, Hr. by split_and!.
  - done.
  - pose proof (committed_sink_tables f e s p es0 db0 h Hf Ht ltac:(done) ltac:(lia)) as Hsp. cbv zeta in Hsp.
    change (committed_sink (f_state f) (f_insert f) (f_block f) b c (receipt <$> outcomes o) s p)
      with (committed_sink (f_state f) (f_insert f) (f_block f) (e_block e) e.1.2 e.2 s p).
    destruct (committed_sink _ _ _ _ _ _ s p) as [db1 pub1 failed1]. cbn [ps_failed ps_store ps_state] in *.
    destruct Hsp as [(-> & Ht' & -> & Hlen)|([err ->] & Ht' & ->)]; [|done].
    split; cbn [n_chain_id n_validators n_height n_store set_n_store set_last_receipts pub_state pub_at ps_store ps_state]; try done.
    + rewrite Eh. unfold Height_next, saturating_add. lia.
    + apply Forall_app. split; [done|by apply Forall_singleton].
    + lia.
Qed.

Lemma follow_chain_spec l nd p chain vals h db0 es0 :
  following chain vals h db0 es0 nd p → ps_failed p = None → h + Z.of_nat (length l) ≤ u64_max →
  let '(es, _, p') := follow_chain l nd p in
  followed chain vals h (n_store nd) es
  ∧ tables_of (es0 ++ es) db0 (ps_store p') ∧ Forall (λ e, Z.of_nat (length (transactions (e_block e))) ≤ u32_max + 1) (es0 ++ es)
  ∧ pub_at (ps_state p') = h - 1 + Z.of_nat (length es)
  ∧ pub_state (ps_state p') = default (n_store nd) (last (chain_states chain h (n_store nd) (e_block <$> es))).
Proof.
  revert nd p h es0. induction l as [|[f [b c]] l IH]; intros nd p h es0 Hfo Hf Hh; cbn [follow_chain length] in *.
  { destruct Hfo as [Ec Ev Eh Ht Hn Es Ea]. rewrite app_nil_r. cbn. split_and!; [done..|lia|done]. }
  pose proof (apply_block_spec f b c nd p chain vals h db0 es0 Hfo Hf ltac:(lia)) as Hsp.
  destruct (apply_block f b c nd p) as [[[] nd1] p1]; cbn [negb].
  2:{ destruct Hsp as [-> ->]. apply IH; [done|done|lia]. }
  destruct Hsp as (He & En & Hsp). set (e := (b, c, last_receipts nd1) : entry) in *. destruct (ps_failed p1) eqn:Ef.
  - destruct Hsp as [Ht ->]. destruct Hfo as [Ec Ev Eh _ Hn Es Ea]. rewrite app_nil_r. cbn. split_and!; [done..|lia|done].
  - specialize (IH nd1 p1 (h + 1) (es0 ++ [e]) Hsp Ef ltac:(lia)). destruct (follow_chain l nd1 p1) as [[es nd2] p2].
    rewrite <- app_assoc in IH. destruct IH as (Hfd & Ht & Hn & Ea & Es). cbn [app] in *. rewrite En in *.
    split_and!; [|done|done|cbn [length]; lia|].
    + cbn [followed] in He |- *. destruct He as (?&?&?&?&?&?&?&_). change (e_block e) with b in *. by split_and!.
    + rewrite Es. cbn [fmap list_fmap chain_states]. change (e_block e) with b. by rewrite last_cons; destruct (last _).
Qed.
Lemma execute_tx_id chain ctx tx s : r_tx_id (receipt (execute_tx chain ctx tx s).1) = tx_id tx.
Proof.
  unfold execute_tx. destruct (admission _ _ _ _); [|done]. destruct (Bank.transfer _ _ _ _ _) as [paid s1].
  destruct paid; repeat case_match; by simplify_eq.
Qed.

Lemma execute_txs_ids chain ctx txs s : r_tx_id <$> (receipt <$> (execute_txs chain ctx txs s).1) = tx_id <$> txs.
Proof.
  revert s. induction txs as [|tx txs IH]; intros s; [done|]. cbn [execute_txs]. pose proof (execute_tx_id chain ctx tx s) as E.
  destruct (execute_tx chain ctx tx s) as [o s1]. specialize (IH s1). destruct (execute_txs chain ctx txs s1) as [os s2].
  cbn [fst fmap list_fmap] in *. by rewrite E, IH.
Qed.

Lemma run_block_outcomes chain h b s :
  r_tx_id <$> (receipt <$> outcomes (run_block chain h b s).1) = tx_id <$> transactions b
  ∧ outcome_root (run_block chain h b s).1
    = root_of (MerkleTree_from_items (encode TxReceipt_codec <$> (receipt <$> outcomes (run_block chain h b s).1))).
Proof.
  unfold execute_block. pose proof (execute_txs_ids chain {| ctx_height := h; ctx_time := h_time (b_header b) |} (transactions b) s) as E.
  destruct (execute_txs _ _ _ _) as [os s1]. split; [exact E|]. unfold outcome_root. by rewrite <- list_fmap_compose.
Qed.

Lemma followed_heights chain vals h s es : followed chain vals h s es → e_height <$> es = seqZ h (Z.of_nat (length es)).
Proof.
  revert h s. induction es as [|e es IH]; intros h s; [done|]. intros (<- & _ & _ & _ & _ & _ & _ & Hes).
  cbn [fmap list_fmap length]. rewrite (seqZ_cons (e_height e)) by lia. rewrite (IH _ _ Hes). f_equal. f_equal; lia.
Qed.

Lemma followed_at chain vals h s es i e si :
  followed chain vals h s es → es !! i = Some e → (s :: chain_states chain h s (e_block <$> es)) !! i = Some si →
  followed chain vals (h + Z.of_nat i) si [e].
Proof.
  revert h s i. induction es as [|e0 es IH]; intros h s i Hes Hi Hsi; [done|].
  destruct Hes as (H1 & H2 & H3 & H4 & H5 & H6 & H7 & Hes). destruct i as [|i]; cbn in Hi, Hsi.
  - simplify_eq. rewrite Z.add_0_r. cbn [followed]. by split_and!.
  - replace (h + Z.of_nat (S i)) with (h + 1 + Z.of_nat i) by lia. by eapply IH.
Qed.

Lemma chain_states_length chain h s bs : length (chain_states chain h s bs) = length bs.
Proof. revert h s. induction bs as [|b bs IH]; intros h s; [done|]. cbn [chain_states length]. by rewrite IH. Qed.

Lemma followed_root chain vals h s es gb :
  followed chain vals h s es → h_app_hash (b_header gb) = kv_root s →
  h_app_hash (b_header (default gb (last (e_block <$> es)))) = kv_root (default s (last (chain_states chain h s (e_block <$> es)))).
Proof.
  revert h s gb. induction es as [|e es IH]; intros h s gb Hes Hgb; [done|]. destruct Hes as (_ & _ & _ & _ & _ & _ & H7 & Hes).
  specialize (IH _ _ (e_block e) Hes H7). cbn [fmap list_fmap chain_states]. rewrite !last_cons.
  destruct (last (e_block <$> es)), (last (chain_states _ _ _ _)); exact IH.
Qed.

Lemma genesis_block_root g limits gb s : genesis_apply g limits empty_state = (Ok gb, s) → gb = genesis_block g s.
Proof.
  unfold genesis_apply. intros H. do 6 (apply bind_Ok_inv in H as (? & ? & _ & H)). by apply reads_inv in H as [[= <-] ->].
Qed.

(** C30: What a node serves, a wallet accepts.  A node starts from its chain's genesis and
    follows the chain by whatever blocks and certificates peers offer, fewer than
    2^64 - 1, its daemon storing and publishing every block it applies until a write
    fails.  The stored
    blocks, provided they are values of their Rust types, have heights 1, 2, 3, ...
    Asked for a stored height, the daemon's view answers with that block's header and a
    certificate that passes a wallet's check against the validator set, and it knows
    no other height.  Asked for a transaction at the place the index names, it
    answers with a proof that a wallet holding the block's header accepts, as the
    transaction and the very receipt its execution gave, exactly when the header's
    receipt root is that of the execution, and refuses otherwise: no node checks that
    root.  Every question about the state is answered at the last stored height
    with a proof that a client trusting that block's header accepts, for the value
    that the execution of the chain left. *)
Theorem honest_answers_verify g limits gb s0 key vals rec l :
  genesis_apply g limits empty_state = (Ok gb, s0) → Z.of_nat (length l) < u64_max →
  let chain := g_chain_id g in
  let '(es, _, p) := follow_chain l (Node_new chain key vals s0 gb rec)
    {| ps_store := (put_genesis None g Database_new).2; ps_state := {| pub_state := s0; pub_at := GENESIS |}; ps_failed := None |} in
  let v := {| lv_chain_id := chain; lv_store := ps_store p; lv_state := ps_state p |} in
  let states := chain_states chain 1 s0 (e_block <$> es) in
  Forall entry_wf es →
  e_height <$> es = seqZ 1 (Z.of_nat (length es))
  ∧ (∀ e, e ∈ es → ∃ sh, answer v (QHeader (e_height e)) = Ok (RHeader sh)
      ∧ sh_header sh = b_header (e_block e) ∧ SignedHeader_verify sh chain vals = Ok tt)
  ∧ (∀ h, h ∉ e_height <$> es → answer v (QHeader h) = Err (NoSuchHeight h))
  ∧ (∀ i e s n tx, es !! i = Some e → (s0 :: states) !! i = Some s → transactions (e_block e) !! n = Some tx →
      newest (tx_id tx) es = Some (e_height e, Z.of_nat n) →
      let o := (run_block chain (e_height e) (e_block e) s).1 in
      ∃ pt r, (receipt <$> outcomes o) !! n = Some r ∧ answer v (QTransaction (tx_id tx)) = Ok (RTransaction pt)
        ∧ ProvedTransaction_verify pt (b_header (e_block e))
          = if bool_decide (h_outcome_root (b_header (e_block e)) = outcome_root o) then Ok (tx, r) else Err BadProof)
  ∧ (∀ q key lc, store_key q = Some key → lc_app_hash lc = h_app_hash (b_header (default gb (last (e_block <$> es)))) →
      ∃ pv, answer v q = Ok (RValue pv) ∧ pv_height pv = Z.of_nat (length es)
        ∧ ProvedValue_verify pv lc key = Ok (smt_get (tree_of (default s0 (last states))) key)).
Proof.
  intros Hg Hl chain. pose proof (genesis_block_root _ _ _ _ Hg) as Egb. set (db0 := (put_genesis None g Database_new).2).
  set (nd := Node_new chain key vals s0 gb rec). set (p0 := {| ps_store := db0; ps_state := _; ps_failed := None |}).
  assert (following chain vals 1 db0 [] nd p0) as Hfo.
  { split; [done|done|by subst gb|by split|done..]. }
  pose proof (follow_chain_spec l nd p0 chain vals 1 db0 [] Hfo eq_refl ltac:(lia)) as Hsp.
  destruct (follow_chain l nd p0) as [[es nd'] p]. destruct Hsp as (Hes & Ht & Hn & Ea & Est). cbn [app] in Ht, Hn.
  intros v states Hwf. pose proof (followed_heights _ _ _ _ _ Hes) as Hh.
  assert (rising es) as Hr by (unfold rising; rewrite Hh; apply seqZ_sorted).
  assert (Forall entry_ok es) as Hok by (eapply Forall_impl; [exact Hwf|]; by intros e [? _]).
  pose proof (λ e, stored_reads _ _ _ e Ht Hr Hwf) as Hreads. change (n_store nd) with s0 in *.
  split_and!; [done|..].
  - intros e He. destruct (Hreads e He) as (Hb & Hc & _). exists {| sh_header := b_header (e_block e); sh_commit := e.1.2 |}.
    split_and!; [|done|].
    + cbn [answer cv_signed_header live_chain served_chain]. unfold served_signed_header. cbn [sc_store live_served lv_store v]. rewrite Hb. cbn. by rewrite Hc.
    + apply list_elem_of_lookup in He as [i Hi]. destruct (lookup_lt_is_Some_2 (s0 :: states) i) as [si Hsi].
      { unfold states. apply lookup_lt_Some in Hi. cbn [length]. rewrite chain_states_length, length_fmap. lia. }
      destruct (followed_at _ _ _ _ _ _ _ _ Hes Hi Hsi) as (H1 & H2 & H3 & H4 & _). unfold SignedHeader_verify. cbn [sh_header sh_commit].
      rewrite bool_decide_eq_true_2 by done. rewrite H3, <- H1. unfold e_height. rewrite Z.eqb_refl. cbn [negb orb]. by rewrite H4.
  - intros h Hnin. cbn [answer cv_signed_header live_chain served_chain]. unfold served_signed_header, db_block. cbn [sc_store live_served lv_store v].
    by rewrite (to_blocks _ _ _ Ht), (proj2 (by_height_lookup _ es h Hr) Hnin).
  - intros i e s n tx Hi Hsi Hn' Hnew o. destruct (followed_at _ _ _ _ _ _ _ _ Hes Hi Hsi) as (H1 & _ & _ & _ & H5 & H6 & _).
    assert (e ∈ es) as He by (by eapply list_elem_of_lookup_2). destruct (Hreads e He) as (Hb & _ & Hrs).
    rewrite <- H1 in H6. fold o in H6. destruct (run_block_outcomes chain (e_height e) (e_block e) s) as [Hids Hor]. fold o in Hids, Hor.
    rewrite Hor, <- H6. rewrite <- H6 in Hids. rewrite Forall_forall in Hwf. destruct (Hwf e He) as (_ & Hwb & _).
    apply (answer_transaction_served v e n tx); try done; cbn [cv_locate cv_block cv_receipts live_chain served_chain sc_store live_served lv_store v].
    + by rewrite (locate_newest es _ _ _ Ht), Hnew.
    + by rewrite Hb.
    + by rewrite Hrs.
  - intros q key' lc Hq Hlc. rewrite (followed_root _ _ _ _ _ gb Hes) in Hlc by (by subst gb). fold states in Hlc, Est.
    exists {| pv_height := pub_at (ps_state p); pv_value := smt_get (tree_of (pub_state (ps_state p))) key'; pv_proof := smt_prove (tree_of (pub_state (ps_state p))) key' |}.
    split_and!; [|cbn [pv_height]; lia|].
    + by destruct q; try done; injection Hq as <-.
    + unfold ProvedValue_verify, verify_value. cbn [pv_value pv_proof]. rewrite Hlc, Est.
      by rewrite smt_prove_verifies by apply (proj2_sig _).
Qed.
(** Receipts can be invented.  Whatever a proposer claims the transactions of a valid block
    did, the block stays valid to every voting node with the root of the claims in its
    header, and a wallet holding that header accepts a proof of any of them. *)
Theorem forged_receipts_verify nd b (claims : list TxReceipt) n tx claimed :
  validate_block b nd = true → length claims = length (transactions b) →
  transactions b !! n = Some tx → claims !! n = Some claimed → r_tx_id claimed = tx_id tx →
  let forged := with_outcome_root (root_of (MerkleTree_from_items (encode TxReceipt_codec <$> claims))) b in
  validate_block forged nd = true ∧ ∃ pt, ProvedTransaction_verify pt (b_header forged) = Ok (tx, claimed).
Proof.
  intros Hv El Hn Hc Hid forged. split; [unfold forged; by rewrite outcome_root_unchecked|].
  assert (h_tx_root (b_header forged) = tx_root (transactions b)) as Ht.
  { unfold validate_block in Hv. repeat (case_match; [done|]). bool_simpl. change (h_tx_root (b_header forged)) with (h_tx_root (b_header b)).
    by match goal with H : tx_root_matches b = true |- _ => unfold tx_root_matches in H; apply bool_decide_eq_true in H end. }
  destruct (prove_checks (tx_id <$> transactions b) n (tx_id tx) (h_tx_root (b_header forged))) as (p1 & _ & V1); [by rewrite list_lookup_fmap, Hn|].
  destruct (prove_checks (encode TxReceipt_codec <$> claims) n (encode TxReceipt_codec claimed) (h_outcome_root (b_header forged))) as (p2 & _ & V2);
    [by rewrite list_lookup_fmap, Hc|].
  rewrite bool_decide_eq_true_2, length_fmap in V1 by done. rewrite bool_decide_eq_true_2, length_fmap, El in V2 by done.
  exists {| pt_height := h_height (b_header b); pt_index := Z.of_nat n; pt_total := Z.of_nat (length (transactions b));
    pt_transaction := tx; pt_siblings := mp_siblings p1; pt_receipt := claimed; pt_receipt_siblings := mp_siblings p2 |}.
  unfold ProvedTransaction_verify. cbn [pt_height pt_index pt_total pt_transaction pt_siblings pt_receipt pt_receipt_siblings].
  change (h_height (b_header forged)) with (h_height (b_header b)). rewrite Z.eqb_refl, !Nat2Z.id. cbn [negb].
  rewrite V1. cbn [mbind result_bind]. rewrite V2. cbn [mbind result_bind]. by rewrite bool_decide_eq_true_2.
Qed.
End following.

(** Questions and answers survive the wire, whatever follows them, and no bytes but an
    encoding decode: two nodes that exchange a frame agree on what was asked and told. *)
Theorem queries_and_answers_roundtrip :
  (∀ q rest, wf Query_codec q → decode Query_codec (encode Query_codec q ++ rest) = Ok (q, rest))
  ∧ (∀ b q rest, decode Query_codec b = Ok (q, rest) → b = encode Query_codec q ++ rest)
  ∧ (∀ r rest, wf Response_codec r → decode Response_codec (encode Response_codec r ++ rest) = Ok (r, rest))
  ∧ (∀ b r rest, decode Response_codec b = Ok (r, rest) → b = encode Response_codec r ++ rest).
Proof. split_and!; intros; (by apply decode_encode) || (by eapply decode_sound). Qed.
End served.
