(* ===== verification/ChainWitnesses.v ===== *)
(** A small chain, launched and run: concrete inputs at which the theorems about
    transactions, genesis and blocks apply. *)

From S2P Require Import Prelude SortedVec Sorting Codec Primitives Crypto Smt Merkle Store Records Group.
From S2P Require Import GroupProofs GroupTheorems Account Issuer Bank BankProofs BankTheorems Validators Votes.
From S2P Require Import VoteProofs Round Params Alias AliasProofs Gov GovProofs GovTheorems Tx TxProofs Staking.
From S2P Require Import StakingProofs StakingTheorems Footprint Executor ExecProofs ChainProofs ChainGroups.
From S2P Require Import ChainMessages Block Genesis ChainTheorems ChainRuns GroupWitnesses.

#[local] Existing Instance sample_hasher.
#[local] Existing Instance sample_signer.
#[local] Existing Instance sample_unicode.

(** Keys that sign as [sample_signer] checks, and a store whose root is not looked at. *)
Definition sample_signing_keys : Signing.
Proof.
  refine {| SecretKey := Z; verifying_key := sample_pk; raw_sign sk m := sample_sign (sample_pk sk) m |}.
  - done.
  - intros sk m. unfold sample_sign. by rewrite length_app, !(blake3_len (Hasher := sample_hasher)).
  - intros sk m. simpl. by apply bool_decide_eq_true.
Defined.
#[local] Existing Instance sample_signing_keys.
Definition sample_root : Rooted MapStore := {| kv_root _ := Hash32_ZERO |}.
#[local] Existing Instance sample_root.

Definition alice_key : SecretKey := 1.
Definition bob_key : SecretKey := 2.

(** ** Genesis *)

Definition alice : Address := Address_from_public_key (sample_pk 1).
Definition bob : Address := Address_from_public_key (sample_pk 2).

Definition sample_genesis : Genesis := {|
  g_chain_id := sample_chain; genesis_time := 1000; g_validators := four_validators;
  issuers := []; attestors := []; g_council := sample_council; g_params := ChainParams_default;
  allocations := [{| al_address := alice; al_denom := Denom_native; al_amount := 100000 |};
                  {| al_address := bob; al_denom := Denom_native; al_amount := 500 |}];
|}.
Definition launch : result GenesisError Block * MapStore := genesis_apply sample_genesis GenesisLimits_devnet ∅.
Definition state0 : MapStore := launch.2.

(** ** Blocks *)

Definition pay_body (sender : Address) (n fee_ : Z) (msg : Message) : TxBody := {|
  tx_chain_id := sample_chain; tx_sender := sender; tx_nonce := n; valid_until := 100;
  fee := Fee_new fee_ Denom_native; messages := [msg]; memo := [] |}.
Definition payment1 : Transaction := sign (pay_body alice 0 10 (MsgTransfer bob Denom_native 70 None)) alice_key.
Definition founding : Transaction :=
  sign (pay_body alice 1 10
    (MsgCreateGroup (bs "upendo")
       [{| fm_address := alice; fm_role := Treasurer |}; {| fm_address := bob; fm_role := OrdinaryMember |}]
       {| c_amount := 100; c_denom := Denom_native; period_blocks := 10 |}
       (Rotation [bob; alice] 0) Quorum_TWO_THIRDS)) alice_key.
Definition club : Address := group_address_of alice 1.
Definition joining : Transaction := sign (pay_body alice 2 10 (MsgContributeToGroup club 100)) alice_key.
Definition overspending : Transaction :=
  sign (pay_body bob 0 10 (MsgTransfer alice Denom_native 1000000 None)) bob_key.

(** The second [payment1] is a replay; [overspending] is paid for and fails. *)
Definition sample_blocks : list (BlockContext * list Transaction) :=
  [({| ctx_height := 1; ctx_time := 2000 |}, [payment1; payment1; founding]);
   ({| ctx_height := 2; ctx_time := 3000 |}, [overspending; joining])].
Definition sample_reserved : list Address :=
  staking_account :: (group_address_of alice <$> [0; 1; 2]) ++ [group_address_of bob 0].

Definition sample_run : list BlockOutcome * MapStore := run_blocks sample_chain sample_blocks state0.

Example sample_codes :
  (λ o, (code (receipt o), fee_charged (receipt o))) <$> results sample_run.1
  = [(RSuccess, 10); (RNonce, 0); (RSuccess, 10); (RBank, 10); (RSuccess, 10)].
Proof. by vm_compute. Qed.

(** ** The assumptions hold of it *)

Lemma wf_by_decoding {A} (c : codec A) `{!Lawful c} x : decode_exact c (encode c x) = Ok x → wf c x.
Proof. by intros [? _]%decode_exact_sound. Qed.

Definition proposes (msg : Message) : bool := match msg with MsgProposeGovAction _ => true | _ => false end.
Definition mints_any (msg : Message) : bool := match msg with MsgMint _ _ _ => true | _ => false end.

Definition tx_okb (reserved : list Address) (tx : Transaction) : bool :=
  forallb (λ m, negb (proposes m) && negb (mints_any m)) (messages (body tx))
  && forallb (λ k, negb (bool_decide (Address_from_public_key k ∈ reserved))) (signing_keys tx ++ sponsor_keys tx)
  && bool_decide (group_address_of (tx_sender (body tx)) (tx_nonce (body tx)) ∈ reserved)
  && negb (bool_decide (group_address_of (tx_sender (body tx)) (tx_nonce (body tx)) = staking_account)).

Lemma tx_okb_ok reserved tx : wf Transaction_codec tx → tx_okb reserved tx = true → tx_ok reserved tx.
Proof.
  unfold tx_okb. rewrite !andb_true_iff, !forallb_forall. intros Hw [[[H1 H2] H3] H4]. split; [done|..].
  - intros a Ha%list_elem_of_In%H1. done.
  - intros k Hk%list_elem_of_In%H2. by apply negb_true_iff, bool_decide_eq_false in Hk.
  - by apply negb_true_iff, bool_decide_eq_false in H4; apply bool_decide_eq_true in H3.
Qed.

Lemma no_mints l d : forallb (λ st, forallb (λ m, negb (mints_any m)) (messages (body st.2))) l = true → total_mints l d = 0.
Proof.
  unfold total_mints. induction l as [|st l IH]; [done|]. cbn [forallb]. intros [H1 H2]%andb_true_iff.
  rewrite list_sum_cons, IH by done. unfold mints. induction (messages (body st.2)) as [|m ms IHm]; [done|].
  cbn [forallb] in H1. apply andb_true_iff in H1 as [Hm Hms]. rewrite list_sum_cons. specialize (IHm Hms).
  destruct m; try done; simpl in *; lia.
Qed.

Lemma sample_txs_ok ctx tx : (ctx, tx) ∈ steps sample_blocks → context_ok ctx ∧ tx_ok sample_reserved tx.
Proof.
  assert (Forall (λ st, context_ok st.1 ∧ tx_ok sample_reserved st.2) (steps sample_blocks)) as H.
  { unfold sample_blocks, steps. cbn [fmap list_fmap concat app fst snd].
    repeat (apply Forall_cons; split; [split; [side|]; apply tx_okb_ok; [apply wf_by_decoding; [apply _|by vm_compute]|by vm_compute]|]).
    apply Forall_nil. done. }
  rewrite Forall_forall in H. apply (H (ctx, tx)).
Qed.

Lemma launch_Ok : launch = (Ok (genesis_block sample_genesis state0), state0).
Proof.
  assert (launch.1 = Ok (genesis_block sample_genesis state0)) as H by (by vm_compute). rewrite <- H. apply surjective_pairing.
Qed.

Lemma sample_launched : launched sample_reserved sample_genesis GenesisLimits_devnet ∅ (genesis_block sample_genesis state0) state0 sample_blocks.
Proof.
  split.
  - done.
  - apply wf_by_decoding; [apply _|]. by vm_compute.
  - side.
  - exact launch_Ok.
  - apply sample_txs_ok.
  - by vm_compute.
  - intros d _. rewrite no_mints by (by vm_compute). unfold allocated_total, sample_genesis. cbn [allocations].
    rewrite !list_sum_cons. cbn [al_denom al_amount]. unfold u128_max. simpl. repeat case_decide; lia.
Qed.

Lemma sample_runs : run_blocks sample_chain sample_blocks state0 = (sample_run.1, sample_run.2).
Proof. unfold sample_run. apply surjective_pairing. Qed.
Lemma staking_is_reserved : staking_account ∈ sample_reserved.
Proof. by left. Qed.

(** ** Witnesses *)

Lemma signed_is_accepted_witness :
  verify_stateless (sign_sponsored (body payment1) [alice_key] []) sample_chain 5 = Ok tt.
Proof.
  apply (signed_is_accepted (body payment1) [alice_key] [] 5).
  - apply wf_by_decoding; [apply _|]. by vm_compute.
  - by vm_compute.
  - by vm_compute.
  - done.
  - by vm_compute.
  - by vm_compute.
  - done.
Defined.

Lemma genesis_exact_witness : view_balance state0 alice Denom_native = Ok (allocated sample_genesis alice Denom_native).
Proof.
  destruct sample_launched as [He Hg Hl Ha _ _ _].
  destruct (genesis_exact sample_reserved staking_is_reserved _ _ _ _ _ He Hg Hl Ha) as [H _].
  apply H; by vm_compute.
Defined.

Definition failed_run : TxOutcome * MapStore :=
  execute_tx sample_chain {| ctx_height := 1; ctx_time := 2000 |} overspending state0.
Lemma failed_run_eq :
  execute_tx sample_chain {| ctx_height := 1; ctx_time := 2000 |} overspending state0 = (failed_run.1, failed_run.2).
Proof. unfold failed_run. apply surjective_pairing. Qed.

Lemma execute_tx_all_or_fee_witness : r_tx_id (receipt failed_run.1) = tx_id overspending.
Proof.
  destruct (execute_tx_all_or_fee sample_chain {| ctx_height := 1; ctx_time := 2000 |} overspending state0 failed_run.1 failed_run.2
    failed_run_eq) as [H _]. exact H.
Defined.

Lemma charged_was_authorised_witness :
  ∃ r, load_account bob state0 = Ok r ∧ authorises r [sample_pk 2] = true ∧ nonce r = 0.
Proof.
  destruct (charged_was_authorised sample_chain {| ctx_height := 1; ctx_time := 2000 |} overspending state0 failed_run.1 failed_run.2
    failed_run_eq) as (_ & _ & _ & (r & H1 & H2 & H3) & _).
  - by vm_compute.
  - exists r. exact (conj H1 (conj H2 H3)).
Defined.

Lemma blocks_conserve_witness :
  view_total_supply sample_run.2 Denom_native = Ok (circulating sample_run.2 Denom_native).
Proof.
  destruct (blocks_conserve sample_reserved staking_is_reserved _ _ _ _ _ _ _ _ _ sample_launched sample_runs) as [H _].
  apply H. by vm_compute.
Defined.

Lemma accounts_stay_usable_witness : ∃ r, load_account bob sample_run.2 = Ok r ∧ a_address r = bob.
Proof.
  destruct (accounts_stay_usable sample_reserved staking_is_reserved _ _ _ _ _ _ _ _ _ bob sample_launched sample_runs)
    as (r & H1 & _ & H2 & _).
  - by vm_compute.
  - exists r. exact (conj H1 H2).
Defined.

Definition club_record : Account := acc_at (kv_map sample_run.2) club.
Lemma groups_stay_backed_witness : ∃ g, as_group club_record = Some g ∧ group_ok g.
Proof.
  destruct (as_group club_record) as [g|] eqn:E.
  - exists g. split; [reflexivity|].
    destruct (groups_stay_backed sample_reserved staking_is_reserved _ _ _ _ _ _ _ _ _ club club_record g sample_launched sample_runs)
      as [H _]; [..|exact H].
    + by vm_compute.
    + destruct (launched_ok sample_reserved staking_is_reserved _ _ _ _ _ _ _ _ _ sample_launched sample_runs) as [n Hok].
      unfold club_record. apply (load_account_ok sample_reserved n); [exact Hok|by vm_compute].
    + exact E.
  - exfalso. revert E. apply (bool_decide_eq_false (as_group club_record = None)). by vm_compute.
Defined.

Definition outcome_at (i : nat) : TxOutcome := default (rejected [] Unauthorised) (results sample_run.1 !! i).
Lemma no_replay_witness : tx_nonce (body payment1) < tx_nonce (body founding).
Proof.
  apply (no_replay sample_reserved staking_is_reserved _ _ _ _ _ _ _ _ _ 0 2 {| ctx_height := 1; ctx_time := 2000 |} payment1 (outcome_at 0)
    {| ctx_height := 1; ctx_time := 2000 |} founding (outcome_at 2) sample_launched sample_runs).
  - lia.
  - by vm_compute.
  - by vm_compute.
  - by vm_compute.
  - by vm_compute.
  - by vm_compute.
  - by vm_compute.
  - by vm_compute.
  - by vm_compute.
Defined.

Definition carol : Address := Address_from_public_key (sample_pk 3).
Lemma carol_silent i ctx tx o :
  steps sample_blocks !! i = Some (ctx, tx) → results sample_run.1 !! i = Some o → charged o = true → tx_sender (body tx) ≠ carol.
Proof.
  intros H _ _. assert (Forall (λ st : step, tx_sender (body st.2) ≠ carol) (steps sample_blocks)) as Hf.
  { apply Forall_forall. intros st Hst%list_elem_of_In. revert st Hst.
    assert (forallb (λ st : step, negb (bool_decide (tx_sender (body st.2) = carol))) (steps sample_blocks) = true) as Hb by (by vm_compute).
    rewrite forallb_forall in Hb. intros st Hst. by apply Hb, negb_true_iff, bool_decide_eq_false in Hst. }
  by apply (Forall_lookup_1 _ _ _ _ Hf H).
Qed.

Lemma custody_witness :
  ∃ x x', view_balance state0 carol Denom_native = Ok x ∧ view_balance sample_run.2 carol Denom_native = Ok x'
    ∧ x - fees (steps sample_blocks) (results sample_run.1) carol Denom_native ≤ x'.
Proof.
  destruct (custody sample_reserved staking_is_reserved _ _ _ _ _ _ _ _ _ carol (acc_at (kv_map state0) carol)
    (acc_at (kv_map sample_run.2) carol) sample_launched sample_runs) as [_ H].
  - by vm_compute.
  - apply (bool_decide_eq_false (carol ∈ sample_reserved)). by vm_compute.
  - exact carol_silent.
  - destruct (launched_history sample_reserved staking_is_reserved _ _ _ _ _ _ _ _ _ sample_launched sample_runs) as [_ Hok].
    apply (load_account_ok sample_reserved 0); [exact Hok|by vm_compute].
  - destruct (launched_ok sample_reserved staking_is_reserved _ _ _ _ _ _ _ _ _ sample_launched sample_runs) as [n Hok].
    apply (load_account_ok sample_reserved n); [exact Hok|by vm_compute].
  - apply H. by vm_compute.
Defined.

Lemma history_pointers_linked_witness :
  linked None (appearances bob (steps sample_blocks) (results sample_run.1)) (last_txn (acc_at (kv_map sample_run.2) bob)).
Proof.
  destruct (history_pointers_linked sample_reserved staking_is_reserved _ _ _ _ _ _ _ _ _ bob (acc_at (kv_map sample_run.2) bob)
    sample_launched sample_runs) as [H _]; [..|exact H].
  - by vm_compute.
  - destruct (launched_ok sample_reserved staking_is_reserved _ _ _ _ _ _ _ _ _ sample_launched sample_runs) as [n Hok].
    apply (load_account_ok sample_reserved n); [exact Hok|by vm_compute].
Defined.
