(* ===== verification/Witnesses.v ===== *)
(** Concrete inputs at which the theorems of the foundation and consensus files apply,
    with every hypothesis discharged by evaluation. *)

From S2P Require Import Prelude SortedVec Codec Primitives Crypto Merkle Smt Store Records Issuer Validators Votes VoteProofs Round.

#[local] Existing Instance sample_hasher.
#[local] Existing Instance sample_signer.

Lemma forallb_Forall_len (l : list bytes) :
  forallb (λ h, length h =? 32)%nat l = true → Forall (λ h, length h = 32%nat) l.
Proof.
  rewrite forallb_forall. intros Hf. apply Forall_forall. intros x Hx.
  apply Nat.eqb_eq, Hf. by apply list_elem_of_In.
Qed.

(** ** Amounts *)

Lemma amount_decimal_roundtrip_witness :
  Amount_to_decimal 1500000000 = bs "1.5" ∧ Amount_from_decimal (Amount_to_decimal 1500000000) = Ok 1500000000.
Proof.
  split; [by vm_compute|]. apply (amount_decimal_roundtrip 1500000000). by vm_compute.
Defined.

Lemma mul_ratio_exact_witness :
  match Amount_mul_ratio 10 500 10000 with
  | Ok r => 10000 ≠ 0 ∧ r = 10 * 500 / 10000 ∧ amount_ok r
  | Err _ => 10000 = 0 ∨ u128_max < 10 mod 10000 * 500 ∨ u128_max < 10 * 500 / 10000
  end.
Proof. apply (mul_ratio_exact 10 500 10000); by vm_compute. Defined.

(** ** Merkle logs *)

Definition sample_leaf (n : Z) : Hash32 := replicate 32 (byte_of n).
Definition sample_log : list Hash32 := sample_leaf <$> [1; 2; 3; 4; 5].

Lemma inclusion_proof_verifies_witness :
  ∃ p, MerkleTree_prove sample_log 2 = Ok p
    ∧ MerkleProof_verify p (root_of sample_log) (sample_leaf 3) 2 (length sample_log) = Ok ().
Proof. apply (inclusion_proof_verifies sample_log 2 (sample_leaf 3)). done. Defined.

Definition sample_inclusion : MerkleProof :=
  {| mp_index := 2; mp_total := 5; mp_siblings := collect_siblings sample_log 2 |}.

Lemma inclusion_proof_sound_witness : sample_log !! 2%nat = Some (sample_leaf 3).
Proof.
  apply (inclusion_proof_sound sample_log sample_inclusion 2 (sample_leaf 3)).
  - by repeat constructor.
  - apply forallb_Forall_len. by vm_compute.
  - done.
  - apply collision_freeb_sound. by vm_compute.
  - by vm_compute.
Defined.

Lemma consistency_proof_verifies_witness :
  ∃ p, MerkleTree_prove_consistency sample_log 3 = Ok p
    ∧ ConsistencyProof_verify p (root_of (take 3 sample_log)) (root_of sample_log) 3 (length sample_log) = Ok ().
Proof. apply (consistency_proof_verifies sample_log 3). simpl. lia. Defined.

Definition sample_consistency : ConsistencyProof :=
  match MerkleTree_prove_consistency sample_log 3 with
  | Ok p => p
  | Err _ => {| cp_old_size := 0; cp_new_size := 0; cp_nodes := [] |}
  end.

Lemma consistency_proof_sound_witness :
  (3 ≤ length sample_log)%nat ∧ root_of (take 3 sample_log) = root_of (take 3 sample_log).
Proof.
  apply (consistency_proof_sound sample_log sample_consistency 3 (root_of (take 3 sample_log))).
  - by repeat constructor.
  - apply forallb_Forall_len. by vm_compute.
  - unfold hash32_ok. by vm_compute.
  - apply collision_freeb_sound. by vm_compute.
  - by vm_compute.
Defined.

(** ** The state tree *)

Definition sample_tree : SparseMerkleTree :=
  smt_insert (smt_insert (smt_insert smt_new (bs "a") (bs "1")) (bs "b") (bs "2")) (bs "c") (bs "3").
Lemma sample_insert_ok t k v : smt_ok t → smt_ok (smt_insert t k v).
Proof. intros Hok. by destruct (smt_insert_hashed_spec t (key_hash k) v Hok (hash_len _ _)). Qed.
Lemma sample_tree_ok : smt_ok sample_tree.
Proof. repeat apply sample_insert_ok. apply smt_new_ok. Qed.

Definition two_orders (k1 k2 : bytes) : SparseMerkleTree :=
  smt_insert (smt_insert smt_new k1 (bs "v")) k2 (bs "v").

Lemma get_two_orders k1 k2 kh :
  get_at (smt_root (two_orders k1 k2)) kh 0
  = if decide (kh = key_hash k2) then Some (bs "v") else if decide (kh = key_hash k1) then Some (bs "v") else None.
Proof.
  destruct (smt_insert_hashed_spec smt_new (key_hash k1) (bs "v") smt_new_ok (hash_len _ _)) as (Hok & Hg & _).
  destruct (smt_insert_hashed_spec _ (key_hash k2) (bs "v") Hok (hash_len _ _)) as (_ & Hg2 & _).
  unfold two_orders, smt_insert. rewrite Hg2. case_decide; [done|]. by rewrite Hg.
Qed.

Lemma smt_history_independent_witness :
  smt_root (two_orders (bs "a") (bs "b")) = smt_root (two_orders (bs "b") (bs "a"))
  ∧ smt_root_hash (two_orders (bs "a") (bs "b")) = smt_root_hash (two_orders (bs "b") (bs "a")).
Proof.
  apply (smt_history_independent (two_orders (bs "a") (bs "b")) (two_orders (bs "b") (bs "a"))).
  - repeat apply sample_insert_ok. apply smt_new_ok.
  - repeat apply sample_insert_ok. apply smt_new_ok.
  - intros kh. rewrite !get_two_orders. repeat case_decide; done.
Defined.

Lemma smt_remove_spec_witness :
  let '(t', existed) := smt_remove sample_tree (bs "b") in
  smt_ok t'
  ∧ (∀ k, smt_get t' k = if decide (key_hash k = key_hash (bs "b")) then None else smt_get sample_tree k)
  ∧ (existed = true ↔ is_Some (smt_get sample_tree (bs "b")))
  ∧ (smt_len sample_tree = smt_count sample_tree → smt_len t' = smt_count t').
Proof. apply (smt_remove_spec sample_tree (bs "b")). apply sample_tree_ok. Defined.

Lemma smt_prove_verifies_witness :
  Proof_verify (smt_prove sample_tree (bs "nobody")) (smt_root_hash sample_tree) (bs "nobody")
    (smt_get sample_tree (bs "nobody")) = true.
Proof. apply (smt_prove_verifies sample_tree (bs "nobody")). apply sample_tree_ok. Defined.

Lemma empty_freeb_sound (l : list bytes) :
  forallb (λ x, negb (bool_decide (blake3 x = EMPTY))) l = true → empty_free l.
Proof.
  rewrite forallb_forall. intros Hf x Hx. specialize (Hf x (proj1 (list_elem_of_In _ _) Hx)). by bool_simpl.
Qed.

Lemma smt_proof_sound_witness : smt_get sample_tree (bs "b") = Some (bs "2").
Proof.
  apply (smt_proof_sound sample_tree (smt_prove sample_tree (bs "b")) (bs "b") (Some (bs "2"))).
  - apply sample_tree_ok.
  - unfold Proof_codec. cbn [wf]. rewrite MAX_PROOF_DEPTH_eq.
    split; [apply Nat.leb_le; by vm_compute|]. split; [|by vm_compute]. split; [by vm_compute|].
    apply forallb_Forall_len. by vm_compute.
  - split; [apply collision_freeb_sound; by vm_compute|apply empty_freeb_sound; by vm_compute].
  - by vm_compute.
Defined.

(** ** The store *)

Lemma store_key_injective_witness :
  StoreKey_new NsBalance [bs "ab"; bs "c"] = StoreKey_new NsBalance [bs "a"; bs "bc"]
  ↔ NsBalance = NsBalance ∧ [bs "ab"; bs "c"] = [bs "a"; bs "bc"].
Proof.
  apply (store_key_injective NsBalance NsBalance [bs "ab"; bs "c"] [bs "a"; bs "bc"]);
    repeat constructor; by vm_compute.
Defined.

Definition sample_keys : list StoreKey := [bs "x"; bs "y"; bs "z"].
Definition sample_ops : list kv_op := [OpSet (bs "x") (bs "1"); OpSet (bs "y") (bs "2"); OpDelete (bs "x")].

Lemma memory_store_refines_witness :
  smt_ok (kv_run (kvs := memory_store) smt_new sample_ops)
  ∧ ∀ k, k ∈ sample_keys →
      @kv_get _ memory_store (kv_run (kvs := memory_store) smt_new sample_ops) k
      = kv_get (kv_run (∅ : MapStore) sample_ops) k.
Proof.
  apply (memory_store_refines sample_keys sample_ops); [|repeat constructor; set_solver].
  intros k1 k2 H1 H2 E.
  assert (forallb (λ a, forallb (λ b, implb (bool_decide (key_hash a = key_hash b)) (bool_decide (a = b))) sample_keys)
    sample_keys = true) as Hf by (by vm_compute).
  rewrite forallb_forall in Hf. specialize (Hf k1 (proj1 (list_elem_of_In _ _) H1)).
  rewrite forallb_forall in Hf. specialize (Hf k2 (proj1 (list_elem_of_In _ _) H2)).
  rewrite bool_decide_eq_true_2 in Hf by done. simpl in Hf. by bool_simpl.
Defined.

(** ** Consensus *)

Definition sample_members : list Validator := (λ n, Validator_new (sample_key n) 1 (bs "ke")) <$> [1; 2; 3; 4].

Lemma four_validators_ok : vs_ok four_validators.
Proof.
  apply (ValidatorSet_new_Ok sample_members); [|by vm_compute].
  repeat constructor; by vm_compute.
Qed.

Lemma validator_set_order_independent_witness :
  ValidatorSet_new sample_members = ValidatorSet_new (rev sample_members).
Proof.
  apply (validator_set_order_independent sample_members (rev sample_members)).
  - repeat constructor; by vm_compute.
  - apply Permutation_rev.
Defined.

Lemma proposer_stake_weighted_witness :
  (∃ i v, validators four_validators !! i = Some v ∧ proposer four_validators 7 0 = Some v)
  ∧ ∀ i v draw, validators four_validators !! i = Some v → 0 ≤ draw < total_power four_validators →
      pick draw 0 (validators four_validators) = Some v
      ↔ cumulative (validators four_validators) i ≤ draw
        < cumulative (validators four_validators) i + voting_power v.
Proof. apply (proposer_stake_weighted four_validators 7 0). apply four_validators_ok. Defined.

(** Precommits at height 7, round 0, by the members at the given positions. *)
Definition sample_precommits (b : Hash32) (who : list nat) : list SignedVote :=
  who ≫= λ i, match validators four_validators !! i with
              | Some m => [cast sample_signing sample_chain 7 0 Precommit m (Some b)]
              | None => []
              end.

Lemma vote_accounting_exact_witness :
  power_for (add_all four_validators (VoteSet_new sample_chain 7 0 Precommit)
               (sample_precommits block_A [0; 1; 1; 2]%nat)) (Some block_A)
  = list_sum (vs_power_of four_validators)
      (signers (votes_for (add_all four_validators (VoteSet_new sample_chain 7 0 Precommit)
         (sample_precommits block_A [0; 1; 1; 2]%nat)) (Some block_A))).
Proof.
  exact (proj1 (vote_accounting_exact four_validators four_validators_ok sample_chain 7 0 Precommit
    (sample_precommits block_A [0; 1; 1; 2]%nat) (Some block_A))).
Defined.

Abbreviation sample_vote_set :=
  (add_all four_validators (VoteSet_new sample_chain 7 0 Precommit) (sample_precommits block_A [0; 1; 2]%nat)).

Lemma sample_vote_set_power b : b ≠ Some block_A → power_for sample_vote_set b = 0.
Proof.
  intros Hne. assert (power_by_value sample_vote_set = [(Some block_A, 3)]) as Hp by (vm_compute; reflexivity).
  unfold power_for. rewrite Hp. destruct (bt_get value_key b [(Some block_A, 3)]) eqn:E; [|done].
  apply (bt_get_Some value_key value_key_inj) in E; [|by repeat constructor].
  apply list_elem_of_singleton in E. congruence.
Qed.

Lemma quorum_value_unique_witness : quorum_value sample_vote_set four_validators = Some (Some block_A).
Proof.
  refine (proj2 (quorum_value_unique four_validators four_validators_ok sample_chain 7 0 Precommit
    (sample_precommits block_A [0; 1; 2]%nat) (Some block_A)) _).
  split; [by vm_compute|]. intros b' Hne. rewrite (sample_vote_set_power b' Hne). by vm_compute.
Defined.

Lemma sample_signing_verifies chain h r t m b :
  signature_ok (v_public_key m) (cast sample_signing chain h r t m b) = true.
Proof.
  unfold signature_ok, PublicKey_verify, cast, Vote_sign, sample_signing. cbn [vote signature verify_strict sample_signer].
  by rewrite bool_decide_eq_true_2.
Qed.

(** Four members of equal power: the first decides alone, the last proposes again. *)
Definition member_at (i : nat) : Validator := nth i (validators four_validators) (Validator_new [] 0 []).


Definition sample_equivocation : Equivocation :=
  let m := nth 0 (validators four_validators) (Validator_new [] 0 []) in
  {| eq_validator := v_address m;
     eq_first := cast sample_signing sample_chain 7 0 Precommit m (Some block_A);
     eq_second := cast sample_signing sample_chain 7 0 Precommit m (Some block_B) |}.

Lemma equivocation_evidence_sound_witness :
  ∃ m, vs_get four_validators (eq_validator sample_equivocation) = Some m
  ∧ signature_ok (v_public_key m) (eq_first sample_equivocation) = true.
Proof.
  destruct (equivocation_evidence_sound four_validators four_validators_ok sample_chain 7 0 Precommit
    (sample_precommits block_A [0]%nat) (eq_second sample_equivocation) sample_equivocation
    (VoteSet_add four_validators (eq_second sample_equivocation)
       (add_all four_validators (VoteSet_new sample_chain 7 0 Precommit) (sample_precommits block_A [0]%nat))).2)
    as (m & Hm & Hs & _).
  - apply run_outcome. by vm_compute.
  - exists m. split; [exact Hm|exact Hs].
Defined.

Lemma assembled_commit_verifies_witness :
  Commit_verify (Commit_new 7 0 block_A
    (votes_for (add_all four_validators (VoteSet_new sample_chain 7 0 Precommit)
       (sample_precommits block_A [0; 1; 2]%nat)) (Some block_A))) sample_chain four_validators = Ok tt.
Proof.
  refine (assembled_commit_verifies four_validators four_validators_ok sample_chain 7 0
    (sample_precommits block_A [0; 1; 2]%nat) block_A _). by vm_compute.
Defined.

Lemma conflicting_commits_accountable_witness :
  ∃ culprits : list Address,
    NoDup culprits ∧ max_byzantine_power four_validators < list_sum (vs_power_of four_validators) culprits.
Proof.
  destruct (conflicting_commits_accountable four_validators four_validators_ok sample_chain
    (Commit_new 7 0 block_A (sample_precommits block_A [0; 1; 2]%nat))
    (Commit_new 7 0 block_B (sample_precommits block_B [1; 2; 3]%nat))) as (cs & Hn & Hp & _);
    [by vm_compute..|exists cs; split; [exact Hn|exact Hp]].
Defined.

Definition locked_state : RoundState := (decide_precommit (RoundState_new 7) (Some (Some block_A))).2.

Lemma locked_state_reachable : reachable 7 locked_state.
Proof. apply rtc_once. constructor. Qed.

Lemma prevote_rule_witness :
  decide_prevote locked_state (Some block_B) (Some 3) true = DPrevote (Some block_B)
  ↔ Some block_B = Some block_B ∧ true = true
    ∧ (locked_value locked_state = None ∨ locked_value locked_state = Some block_B
       ∨ ∃ lr r, locked_round locked_state = Some lr ∧ Some 3 = Some r ∧ lr < r).
Proof. apply (prevote_rule 7 locked_state (Some block_B) (Some 3) true block_B). apply locked_state_reachable. Defined.

Lemma lock_survives_rounds_witness :
  let st' := (decide_commit locked_state None).2 in
  rs_round st' = 1 ∧ locked_value st' = Some block_A
  ∧ (block_B ≠ block_A → None = @None Round → decide_prevote st' (Some block_B) None true = DPrevote None).
Proof.
  split; [done|].
  apply (lock_survives_rounds 7 block_A locked_state (decide_commit locked_state None).2 block_B None true);
    [apply locked_state_reachable|done|]. apply rtc_once. constructor.
Defined.

Lemma proposer_keeps_valid_value_witness :
  ∃ v vr lr, value_to_propose locked_state block_B = (v, Some vr) ∧ valid_value locked_state = Some v
    ∧ locked_round locked_state = Some lr ∧ lr ≤ vr ≤ rs_round locked_state.
Proof.
  apply (proposer_keeps_valid_value 7 locked_state block_B); [apply locked_state_reachable|by vm_compute].
Defined.
