(* ===== verification/NodeWitnesses.v ===== *)
(** Concrete wallets, pools, records and nodes: inputs at which the theorems about the
    light client, the mempool, the signing record, the node, the decentralisation
    metrics and the text addresses apply. *)

From S2P Require Import Prelude SortedVec Codec Primitives Crypto Smt Store Records Group Account Bank Validators.
From S2P Require Import Votes VoteProofs Round Decentralization Alias Bech32 Tx Executor Block Genesis GroupWitnesses.
From S2P Require Import Light LightProofs Mempool MempoolProofs Signing Node NodeProofs ChainWitnesses Witnesses.

#[local] Existing Instance sample_hasher.
#[local] Existing Instance sample_signer.
#[local] Existing Instance sample_unicode.
#[local] Existing Instance sample_signing_keys.
#[local] Existing Instance sample_root.

(** ** Addresses and metrics *)

Definition alice_text : bytes := match Address_to_bech32 alice with Ok s => s | Err _ => [] end.

Lemma address_text_unique_witness :
  ∃ s, Address_to_bech32 alice = Ok s ∧ length s = 43%nat
  ∧ ∀ t, Address_from_bech32 t = Ok alice ↔ ascii_lower <$> t = s ∧ mixed_case t = false.
Proof. apply (address_text_unique alice). by vm_compute. Defined.

Lemma address_typo_detected_witness :
  ∃ e, Address_from_bech32 (take 9 alice_text ++ x7a :: drop 10 alice_text) = Err e.
Proof.
  refine (address_typo_detected (take 9 alice_text) (drop 10 alice_text) (nth 9 alice_text x00) x7a alice _ _).
  - by vm_compute.
  - by vm_compute.
Defined.

Lemma nakamoto_exact_witness :
  nakamoto_halt (measure four_validators) = 2%nat
  ∧ fewest voting_power (validators four_validators) (max_byzantine_power four_validators + 1)
      (nakamoto_halt (measure four_validators)).
Proof.
  split; [by vm_compute|]. destruct (nakamoto_exact four_validators four_validators_ok) as [H _]. exact H.
Defined.

(** ** The signing record *)

(** The disk refuses one write. *)
Definition flaky_disk (text : bytes) : option string :=
  if bool_decide (text = record_text (1, 1, SPropose)) then Some "disk full" else None.
Definition sample_claims : list sign_point :=
  [(1, 0, SPropose); (1, 0, SPrevote); (1, 0, SPrevote); (1, 1, SPropose); (1, 0, SPrecommit)].

Lemma sign_record_survives_restart_witness :
  let rec := claim_all flaky_disk {| fr_file := None; fr_last := None |} sample_claims in
  fr_last rec = Some (1, 0, SPrecommit) ∧ fr_open (fr_file rec) = Ok rec.
Proof.
  split; [by vm_compute|].
  destruct (sign_record_survives_restart flaky_disk sample_claims) as [H _]; [|exact H].
  repeat constructor; by vm_compute.
Defined.

(** ** The mempool *)

Definition sample_pool_limits : MempoolLimits := {| max_transactions := 3; max_bytes := 5000; max_per_sender := 2 |}.
Definition alice_account : Account := Account_with_key (sample_pk 1).
Definition bob_account : Account := Account_with_key (sample_pk 2).
(** [joining] comes first, out of order; the fourth submission is over the sender's limit. *)
Definition sample_pool_ops : list pool_op :=
  [Submit joining sample_chain 1 alice_account None; Submit payment1 sample_chain 1 alice_account None;
   Submit overspending sample_chain 1 bob_account None; Submit founding sample_chain 1 alice_account None].

Lemma sample_pool_ops_ok : limits_ok sample_pool_limits ∧ Forall op_ok sample_pool_ops.
Proof. split; [unfold limits_ok, u64_max; simpl; lia|]. repeat constructor; unfold op_ok, u64_max; simpl; lia. Qed.

Lemma mempool_refines_witness :
  mp_len (foldl pool_step (Mempool_new sample_pool_limits) sample_pool_ops) = 3
  ∧ by_key (foldl pool_step (Mempool_new sample_pool_limits) sample_pool_ops)
    = foldl (spec_step sample_pool_limits) ∅ sample_pool_ops.
Proof.
  split; [by vm_compute|]. destruct sample_pool_ops_ok as [Hl Ho].
  destruct (mempool_refines sample_pool_limits sample_pool_ops Hl Ho) as [H _]. exact H.
Defined.

Lemma select_exact_witness :
  let mp := foldl pool_step (Mempool_new sample_pool_limits) sample_pool_ops in
  length (select (λ _, 0) mp) = 2%nat
  ∧ select (λ _, 0) mp = fit 0 0 (snd <$> List.filter (λ e, servedb (by_key mp) (λ _, 0) e.1) (pool_entries (by_key mp))).
Proof.
  split; [by vm_compute|]. destruct sample_pool_ops_ok as [Hl Ho].
  destruct (select_exact sample_pool_limits sample_pool_ops (λ _, 0)
    (b_header (genesis_block sample_genesis state0)) Hl Ho) as [H _]. exact H.
Defined.

(** ** The node *)

(** One validator, alone: it proposes, votes twice and commits. *)
Definition lone_validator : ValidatorSet :=
  match ValidatorSet_new [Validator_new (sample_pk 1) 1 (bs "ke")] with Ok s => s | Err _ => four_validators end.
Lemma lone_validator_ok : vs_ok lone_validator.
Proof.
  apply (ValidatorSet_new_Ok [Validator_new (sample_pk 1) 1 (bs "ke")]); [|by vm_compute].
  repeat constructor; by vm_compute.
Qed.

Definition lone_node : Node :=
  Node_new (Sk := sample_signing_keys) sample_chain alice_key lone_validator state0
    (genesis_block sample_genesis state0) (None : option sign_point).
Definition lone_ops : list (node_op (St := MapStore)) :=
  [NHandle (EvTransaction payment1); NStart 2000; NStart 3000; NHandle (EvTimeout SPropose)].

Example lone_node_commits :
  (λ r, (length (commits r.1), n_height r.2)) <$> run (SR := memory_record) lone_ops lone_node = Some (2%nat, 3).
Proof. by vm_compute. Qed.

Lemma node_commits_certified_witness :
  ∃ acts nd', run (SR := memory_record) lone_ops lone_node = Some (acts, nd')
  ∧ finalised sample_chain lone_validator (n_height lone_node) (commits acts) (n_height nd')
  ∧ committed nd' = fst <$> commits acts.
Proof.
  refine (node_commits_certified (Sk := sample_signing_keys) (SR := memory_record) sample_chain alice_key lone_validator
    state0 (genesis_block sample_genesis state0) (None : option sign_point) lone_ops _ _).
  - apply lone_validator_ok.
  - repeat constructor.
Defined.

(** ** The light client *)

Definition chain_header (h : Height) : BlockHeader := {|
  h_chain_id := sample_chain; h_height := h; h_time := 1000 * h; parent := block_A; h_tx_root := block_A;
  h_app_hash := block_B; h_outcome_root := block_A; validators_hash := vs_hash four_validators;
  next_validators_hash := vs_hash four_validators |}.
(** The same height, another state root. *)
Definition forged_header : BlockHeader :=
  let h := chain_header 8 in {|
  h_chain_id := h_chain_id h; h_height := h_height h; h_time := h_time h; parent := parent h; h_tx_root := h_tx_root h;
  h_app_hash := block_A; h_outcome_root := h_outcome_root h; validators_hash := validators_hash h;
  next_validators_hash := next_validators_hash h |}.

Definition header_commit (h : BlockHeader) (who : list nat) : Commit :=
  Commit_new (h_height h) 0 (BlockHeader_id h)
    (who ≫= λ i, match validators four_validators !! i with
                 | Some m => [cast sample_signing sample_chain (h_height h) 0 Precommit m (Some (BlockHeader_id h))]
                 | None => []
                 end).
Definition offer_of (skip : bool) (h : BlockHeader) (who : list nat) : offer := {|
  o_skip := skip; o_header := h; o_commit := header_commit h who; o_validators := four_validators;
  o_next_validators := four_validators; o_now := h_time h + 10 |}.

(** One corrupt validator signs the forgery. *)
Definition corrupt : list Address := [v_address (nth 0 (validators four_validators) (Validator_new [] 0 []))].
Definition sample_offers : list offer :=
  [offer_of false forged_header [0]%nat; offer_of false (chain_header 8) [1; 2; 3]%nat; offer_of true (chain_header 20) [0; 1; 2]%nat].
Definition on_chain (h : BlockHeader) : Prop := h ∈ [chain_header 7; chain_header 8; chain_header 20].
Definition wallet : LightClient := {|
  lc_chain_id := sample_chain; lc_validators := four_validators; lc_next_validators := four_validators;
  trusted := chain_header 7; trusting_period_ms := TRUSTING_PERIOD_MS |}.

Lemma light_never_leaves_chain_witness :
  h_height (trusted (follow wallet sample_offers)) = 20 ∧ on_chain (trusted (follow wallet sample_offers)).
Proof.
  split; [by vm_compute|].
  destruct (light_never_leaves_chain on_chain corrupt [four_validators] wallet sample_offers) as [H _]; [..|exact H].
  - apply NoDup_singleton.
  - constructor; [|done]. intros _. apply Z.leb_le. by vm_compute.
  - split; [apply four_validators_ok..|by vm_compute|by vm_compute].
  - by left.
  - by vm_compute.
  - by left.
  - by left.
  - repeat (constructor; [split_and!; [by vm_compute|apply four_validators_ok..|by left|by left]|]). constructor.
  - constructor; [|constructor; [|constructor; [|done]]]; apply Forall_forall.
    + intros s Hs set m _ _ _ _ Hn. destruct Hn.
      assert (forallb (λ s, bool_decide (validator (vote s) ∈ corrupt)) (Votes.signatures (o_commit (offer_of false forged_header [0]%nat))) = true)
        as Hb by (by vm_compute).
      rewrite forallb_forall in Hb. apply list_elem_of_In, Hb in Hs. by apply bool_decide_eq_true in Hs.
    + intros s _ set m _ _ _ _ _ _ _. right. by left.
    + intros s _ set m _ _ _ _ _ _ _. right. right. by left.
Defined.

Lemma light_bootstrap_pinned_witness :
  from_block_id sample_chain (BlockHeader_id (chain_header 7)) (chain_header 7) four_validators four_validators = Ok wallet.
Proof.
  assert (wf BlockHeader_codec (chain_header 7)) as Hh by (apply wf_by_decoding; [apply _|by vm_compute]).
  assert (wf ValidatorSet_codec four_validators) as Hv by (apply wf_by_decoding; [apply _|by vm_compute]).
  assert (collision_free [header_input (chain_header 7); header_input (chain_header 7); set_input four_validators;
    set_input four_validators; set_input four_validators; set_input four_validators]) as Hc
    by (apply collision_freeb_sound; by vm_compute).
  destruct (light_bootstrap_pinned sample_chain (chain_header 7) four_validators four_validators (chain_header 7)
    four_validators four_validators wallet eq_refl eq_refl eq_refl Hh Hv Hv Hh Hv Hv Hc) as [_ H].
  apply H. split; [reflexivity|reflexivity].
Defined.

Definition ledger_tree : TreeStore (Hs := sample_hasher) :=
  @kv_set _ tree_store (@kv_set _ tree_store (exist _ smt_new smt_new_ok) (key_balance bob Denom_native) (encode Amount_codec 500))
    (key_balance alice Denom_native) (encode Amount_codec 700).
Definition ledger_block : Block * BlockOutcome * TreeStore (Hs := sample_hasher) :=
  build_block (KV := tree_store) (Ro := tree_rooted) sample_chain 8 8000 block_A []
    (ValidatorSets_unchanged four_validators) ledger_tree.
Definition ledger_wallet : LightClient := {|
  lc_chain_id := sample_chain; lc_validators := four_validators; lc_next_validators := four_validators;
  trusted := b_header ledger_block.1.1; trusting_period_ms := TRUSTING_PERIOD_MS |}.

(** The wallet takes 700 for alice from the server's proof, and so it is the bank's. *)
Lemma light_balance_exact_witness :
  @view_balance _ tree_store ledger_block.2 alice Denom_native = Ok 700.
Proof.
  pose proof (light_balance_exact sample_chain 8 8000 block_A [] (ValidatorSets_unchanged four_validators) ledger_tree
    ledger_wallet alice Denom_native) as H.
  fold ledger_block in H. rewrite (surjective_pairing ledger_block), (surjective_pairing ledger_block.1) in H.
  destruct (H eq_refl) as [Hs _].
  refine (Hs (Some (encode Amount_codec 700)) (smt_prove (tree_of ledger_block.2) (key_balance alice Denom_native)) 700 _ _ _ _).
  - apply wf_by_decoding; [apply _|by vm_compute].
  - apply collision_freeb_sound. by vm_compute.
  - apply empty_freeb_sound. by vm_compute.
  - by vm_compute.
Defined.
