(* ===== verification/StoreWitnesses.v ===== *)
(** Concrete logs, stores, restarts and walks: inputs at which the theorems about the
    witness logs, the state's nodes, the block store and the queries apply. *)

From S2P Require Import Prelude SortedVec Codec Primitives Crypto Merkle Smt Store Records Group Account Bank Validators.
From S2P Require Import Votes VoteProofs Round Alias Tx Staking Executor Block Genesis GroupWitnesses Light LightProofs.
From S2P Require Import Witness WitnessProofs StateNodes ChainStore ChainStoreProofs Rpc ChainRuns ChainProofs RpcProofs ChainWitnesses Witnesses NodeWitnesses.

#[local] Existing Instance sample_hasher.
#[local] Existing Instance sample_signer.
#[local] Existing Instance sample_unicode.
#[local] Existing Instance sample_signing_keys.
#[local] Existing Instance sample_root.

(** ** Witness logs *)

Definition log_entry (h : Height) : LogEntry := {| le_height := h; le_block_id := BlockHeader_id (chain_header h); le_observed_at := 1000 * h |}.
Definition alice_log : bytes := LogId_from_public_key (verifying_key alice_key).
Definition alice_witness : Witness := Witness_new (verifying_key alice_key) (bs "ke") (bs "alice").
Definition bob_witness : Witness := Witness_new (verifying_key bob_key) (bs "tz") (bs "bob").
Definition sample_witnesses : list Witness := [alice_witness; bob_witness].

Definition early_log : WitnessLog := append_all [log_entry 1; log_entry 2] (WitnessLog_new sample_chain alice_log).
Definition later_log : WitnessLog := append_all [log_entry 4; log_entry 3; log_entry 7] early_log.

Lemma witness_log_answers_witness :
  length (wl_entries later_log) = 4%nat
  ∧ ∃ sth1 sth2, sign_head early_log alice_key 100 = Ok sth1 ∧ sign_head later_log alice_key 200 = Ok sth2
    ∧ ∃ p, prove_consistency later_log (wl_size early_log) = Ok p
           ∧ check_continuity sample_witnesses (Remembered_from_head sth1) sth2 p = Ok tt.
Proof.
  split; [by vm_compute|].
  destruct (witness_log_answers sample_witnesses alice_witness alice_key sample_chain [log_entry 1; log_entry 2]
    [log_entry 4; log_entry 3; log_entry 7] 100 200) as (sth1 & sth2 & H1 & H2 & _ & H3 & _).
  - by vm_compute.
  - by vm_compute.
  - by vm_compute.
  - exists sth1, sth2. exact (conj H1 (conj H2 H3)).
Defined.

Definition head_of (l : WitnessLog) (now : Timestamp) : SignedTreeHead := TreeHead_sign (wl_head l now) alice_key.
Definition inclusion_of (l : WitnessLog) (i : Z) : MerkleProof :=
  match prove_inclusion l i with Ok p => p | Err _ => {| mp_index := 0; mp_total := 0; mp_siblings := [] |} end.
Definition consistency_of (l : WitnessLog) (n : Z) : ConsistencyProof :=
  match prove_consistency l n with Ok p => p | Err _ => {| cp_old_size := 0; cp_new_size := 0; cp_nodes := [] |} end.

(** The heads, entries and proofs shown, evaluated once. *)
Definition later_entries : list LogEntry := Eval vm_compute in wl_entries later_log.
Definition early_head : SignedTreeHead := Eval vm_compute in head_of early_log 100.
Definition later_head : SignedTreeHead := Eval vm_compute in head_of later_log 200.
Definition shown_early : MerkleProof := Eval vm_compute in inclusion_of early_log 1.
Definition shown_continuity : ConsistencyProof := Eval vm_compute in consistency_of later_log 2.
Definition entry_two : LogEntry := Eval vm_compute in log_entry 2.
Definition entry_seven : LogEntry := Eval vm_compute in log_entry 7.
Definition later_proof : MerkleProof := Eval vm_compute in inclusion_of later_log 1.

Lemma witness_history_immutable_witness :
  let es := later_entries in
  es !! 1%nat = Some entry_two
  ∧ ∀ o2, observe sample_witnesses sample_chain later_head 1 entry_seven later_proof = Ok o2 →
      entry_seven = entry_two.
Proof.
  cbv zeta.
  assert (∃ o, observe sample_witnesses sample_chain early_head 1 entry_two shown_early = Ok o
    ∧ check_continuity sample_witnesses (ob_remembered o) later_head shown_continuity = Ok tt) as (o & Ho & Hc).
  { eexists. split; [vm_compute; reflexivity|by vm_compute]. }
  refine (witness_history_immutable sample_witnesses sample_chain later_entries early_head 1 entry_two
    shown_early o later_head shown_continuity _ _ _ _ _ _ _ Ho Hc entry_seven later_proof _ _ _).
  - by vm_compute.
  - by vm_compute.
  - repeat (apply Forall_cons; split; [apply wf_by_decoding; [apply _|by vm_compute]|]). by apply Forall_nil.
  - apply wf_by_decoding; [apply _|by vm_compute].
  - by vm_compute.
  - apply forallb_Forall_len. by vm_compute.
  - apply forallb_Forall_len. by vm_compute.
  - apply wf_by_decoding; [apply _|by vm_compute].
  - apply forallb_Forall_len. by vm_compute.
  - apply collision_freeb_sound. by vm_compute.
Defined.

Definition bob_log : WitnessLog := append_all [log_entry 3; log_entry 7] (WitnessLog_new sample_chain (LogId_from_public_key (verifying_key bob_key))).
(** Alice's witness is honest; Bob's might not be. *)
Definition alice_claim : claim := Eval vm_compute in
  {| cl_head := head_of later_log 200; cl_index := 3; cl_entry := log_entry 7; cl_proof := inclusion_of later_log 3 |}.
Definition bob_claim : claim := Eval vm_compute in
  {| cl_head := TreeHead_sign (wl_head bob_log 300) bob_key; cl_index := 1; cl_entry := log_entry 7; cl_proof := inclusion_of bob_log 1 |}.
Definition both_agree : Policy := {| min_witnesses := 2; min_countries := 1 |}.
Definition agreed : Checkpoint := Eval vm_compute in {| ck_chain_id := sample_chain; ck_height := 7; ck_block_id := BlockHeader_id (chain_header 7) |}.

Lemma sample_claims_honest :
  Forall (honest_heads sample_witnesses (λ h, BlockHeader_id (chain_header h)) [w_log bob_witness]) [alice_claim; bob_claim].
Proof.
  apply Forall_cons. split; [|apply Forall_cons; split; [|by apply Forall_nil]].
  - split; [apply wf_by_decoding; [apply _|by vm_compute]|split; [apply forallb_Forall_len; by vm_compute|]].
    intros w _ _ _. exists later_entries. split_and!.
    + by vm_compute.
    + by vm_compute.
    + repeat (apply Forall_cons; split; [apply wf_by_decoding; [apply _|by vm_compute]|]). by apply Forall_nil.
    + repeat (apply Forall_cons; split; [reflexivity|]). by apply Forall_nil.
    + apply collision_freeb_sound. by vm_compute.
  - split; [apply wf_by_decoding; [apply _|by vm_compute]|split; [apply forallb_Forall_len; by vm_compute|]].
    intros w Hw Hn _. exfalso. apply Hn. assert (ws_get sample_witnesses (th_log (sth_head (cl_head bob_claim))) = Some bob_witness) as E by (by vm_compute).
    rewrite E in Hw. injection Hw as <-. by left.
Qed.

Lemma wallet_bootstrap_sound_witness : BlockHeader_id (trusted wallet) = BlockHeader_id (chain_header 7).
Proof.
  assert (corroborate sample_chain (gathered sample_witnesses sample_chain [alice_claim; bob_claim]) both_agree = Ok agreed) as Hc by (by vm_compute).
  assert (from_block_id sample_chain (ck_block_id agreed) (chain_header 7) four_validators four_validators = Ok wallet) as Hl by (by vm_compute).
  destruct (wallet_bootstrap_sound sample_witnesses sample_chain (λ h, BlockHeader_id (chain_header h)) [w_log bob_witness] both_agree
    [alice_claim; bob_claim] agreed (chain_header 7) four_validators four_validators wallet sample_claims_honest) as [_ H].
  - left. by vm_compute.
  - exact Hc.
  - exact Hl.
  - exact H.
Defined.

(** ** The state's nodes *)

Definition earlier_tree : TreeStore (Hs := sample_hasher) :=
  @kv_set _ tree_store (exist _ smt_new smt_new_ok) (key_balance bob Denom_native) (encode Amount_codec 500).
Definition versions : list SparseMerkleTree := [tree_of earlier_tree; tree_of ledger_tree].

Lemma state_versions_survive_witness :
  ∃ t', load_tree LOAD_FUEL (smt_root_hash (tree_of earlier_tree)) (commit_all versions) = Some (Some t')
        ∧ smt_root t' = smt_root (tree_of earlier_tree).
Proof.
  destruct (state_versions_survive versions (tree_of earlier_tree) LOAD_FUEL) as [H _]; [..|exact H].
  - apply Forall_cons. split; [apply (proj2_sig earlier_tree)|]. apply Forall_cons. split; [apply (proj2_sig ledger_tree)|]. by apply Forall_nil.
  - assert (forallb (λ t, forallb (λ e : bytes * bytes, Z.of_nat (length e.2) <=? MAX_FIELD_LEN) (entries_of (smt_root t))) versions = true) as Hb by (by vm_compute).
    rewrite forallb_forall in Hb. apply Forall_forall. intros t Ht%list_elem_of_In%Hb. rewrite forallb_forall in Ht.
    apply Forall_forall. intros e He%list_elem_of_In%Ht. by apply Z.leb_le.
  - apply collision_freeb_sound. by vm_compute.
  - apply empty_freeb_sound. by vm_compute.
  - by left.
  - reflexivity.
Defined.

(** ** The block store *)

Definition tree_launch : result GenesisError Block * TreeStore (Hs := sample_hasher) :=
  genesis_apply (KV := tree_store) (Ro := tree_rooted) sample_genesis GenesisLimits_devnet empty_state.
Definition genesis_state : TreeStore (Hs := sample_hasher) := tree_launch.2.
Definition first_genesis_block : Block := match tree_launch.1 with Ok b => b | Err _ => {| b_header := chain_header 0; transactions := [] |} end.

Definition built (h : Height) (txs : list Transaction) (s : TreeStore (Hs := sample_hasher)) : (Block * Commit * list TxReceipt) * TreeStore (Hs := sample_hasher) :=
  let r := build_block (KV := tree_store) (Ro := tree_rooted) sample_chain h (1000 * h + 1000) block_A txs (ValidatorSets_unchanged four_validators) s in
  (r.1.1, header_commit (b_header r.1.1) [0; 1; 2]%nat, receipt <$> outcomes r.1.2, r.2).
Definition txs1 : list Transaction := [payment1; payment1; founding].
Definition txs2 : list Transaction := [overspending; joining].
(** The blocks, with their certificates and receipts, evaluated once. *)
Definition entry1 : Block * Commit * list TxReceipt := Eval vm_compute in (built 1 txs1 genesis_state).1.
Definition entry2 : Block * Commit * list TxReceipt := Eval vm_compute in (built 2 txs2 (built 1 txs1 genesis_state).2).1.

Example entry1_receipts : code <$> entry1.2 = [RSuccess; RNonce; RSuccess].
Proof. by vm_compute. Qed.

(** The second attempt fails as a whole and is made again. *)
Definition sample_attempts : list (option string * (Block * Commit * list TxReceipt)) :=
  [(None, entry1); (Some "disk full", entry2); (None, entry2)].
Definition stored : Database * list (Block * Commit * list TxReceipt) := put_all sample_attempts Database_new.

Lemma stored_eq : put_all sample_attempts Database_new = (stored.1, [entry1; entry2]).
Proof.
  assert (stored.2 = [entry1; entry2]) as E by (by vm_compute). rewrite <- E. unfold stored. apply surjective_pairing.
Qed.

Lemma sample_rising : rising [entry1; entry2].
Proof.
  assert (e_height <$> [entry1; entry2] = [1; 2]) as E by (by vm_compute). unfold rising. rewrite E. repeat constructor; lia.
Qed.

Definition entry_okb (e : Block * Commit * list TxReceipt) : bool :=
  (0 <=? e_height e) && (e_height e <=? u64_max)
  && forallb (λ tx, forallb (λ a, bool_decide (length a = ADDRESS_LEN)) (touched_addresses tx)) (transactions (e_block e)).
Lemma entry_okb_ok e : entry_okb e = true → entry_ok e.
Proof.
  unfold entry_okb. rewrite !andb_true_iff, forallb_forall. intros [[H1 H2] H3]. split; [unfold height_ok; lia|].
  intros tx a Htx%list_elem_of_In%H3 Ha%list_elem_of_In. rewrite forallb_forall in Htx. by apply Htx, bool_decide_eq_true in Ha.
Qed.

Lemma sample_entries_ok : Forall entry_ok [entry1; entry2].
Proof. repeat (apply Forall_cons; split; [apply entry_okb_ok; by vm_compute|]). by apply Forall_nil. Qed.

Lemma entry_wf_by_decoding e :
  entry_okb e = true → decode_exact Block_codec (encode Block_codec (e_block e)) = Ok (e_block e) →
  decode_exact Commit_codec (encode Commit_codec e.1.2) = Ok e.1.2 →
  decode_exact (vec_codec TxReceipt_codec) (encode (vec_codec TxReceipt_codec) e.2) = Ok e.2 → entry_wf e.
Proof. intros H1 H2 H3 H4. split; [by apply entry_okb_ok|]. split_and!; (apply wf_by_decoding; [apply _|assumption]). Qed.

Lemma sample_entries_wf : Forall entry_wf [entry1; entry2].
Proof. repeat (apply Forall_cons; split; [apply entry_wf_by_decoding; by vm_compute|]). by apply Forall_nil. Qed.

(** Bob is named by the first payment, its replay and the founding of the group. *)
Lemma history_exact_witness :
  let rows := filter (λ r : Height * Z * Hash32, 1 ≤ r.1.1) (account_rows bob [entry1; entry2]) in
  db_history stored.1 bob 1 2 = Ok (take 2 rows, (2 <? length rows)%nat).
Proof.
  pose proof (history_exact sample_attempts bob 1 2) as H. rewrite stored_eq in H.
  apply H; [exact sample_rising|exact sample_entries_ok|by vm_compute|split; by vm_compute].
Defined.

Lemma stored_blocks_exact_witness :
  db_height stored.1 = Ok (default GENESIS (last (e_height <$> [entry1; entry2])))
  ∧ db_block stored.1 (e_height entry1) = Ok (Some (e_block entry1)) ∧ db_block stored.1 3 = Ok None.
Proof.
  pose proof (stored_blocks_exact sample_attempts) as H. rewrite stored_eq in H.
  destruct (H sample_rising sample_entries_wf) as (Hh & He & Hn & _).
  assert (3 ∉ e_height <$> [entry1; entry2]) as H3 by (apply (bool_decide_eq_false (3 ∈ e_height <$> [entry1; entry2])); by vm_compute).
  exact (conj Hh (conj (proj1 (He entry1 (list_elem_of_here _ _))) (proj1 (Hn 3 H3)))).
Defined.

Definition first_block : Block * Commit * list TxReceipt := Eval vm_compute in (built 1 [payment1] genesis_state).1.
Definition second_block : Block * Commit * list TxReceipt := Eval vm_compute in (built 2 [] (built 1 [payment1] genesis_state).2).1.
(** The disk fails on the second block, after its state was written; then every node of
    the state tree is lost. *)
Definition no_faults : faults := {| f_state := None; f_insert := λ _ _, None; f_block := None |}.
Definition sample_sinks : list (faults * (Block * Commit * list TxReceipt)) :=
  [(no_faults, first_block); ({| f_state := None; f_insert := λ _ _, None; f_block := Some "disk full" |}, second_block)].
Abbreviation sunk := (e_block <$> sample_sinks.*2).
Abbreviation sample_states := (chain_states (g_chain_id sample_genesis) 1 genesis_state sunk).
Definition stopped : Persist :=
  sink_run (g_chain_id sample_genesis) 1 genesis_state sample_sinks
    {| ps_store := (put_genesis None sample_genesis Database_new).2; ps_state := {| pub_state := genesis_state; pub_at := 0 |}; ps_failed := None |}.

Lemma tree_launch_Ok :
  genesis_apply (KV := tree_store) (Ro := tree_rooted) sample_genesis GenesisLimits_devnet empty_state = (Ok first_genesis_block, genesis_state).
Proof.
  assert (is_ok tree_launch.1 = true) as H by (by vm_compute). change (genesis_apply _ _ _) with tree_launch.
  unfold first_genesis_block, genesis_state. revert H. destruct tree_launch as [[b|e] s]; [reflexivity|discriminate 1].
Qed.

Lemma sample_headers_ok : headers_ok (g_chain_id sample_genesis) 1 genesis_state sunk.
Proof. unfold sample_sinks. cbn [fmap list_fmap snd headers_ok]. split_and!; by vm_compute. Qed.

Lemma sunk_wf : Forall entry_wf sample_sinks.*2.
Proof. repeat (apply Forall_cons; split; [apply entry_wf_by_decoding; by vm_compute|]). by apply Forall_nil. Qed.

(** The states' trees, evaluated once. *)
Definition sample_trees : list SparseMerkleTree := Eval vm_compute in tree_of <$> sample_states.
Lemma sample_trees_eq : tree_of <$> sample_states = sample_trees.
Proof. by vm_compute. Qed.

Lemma restart_recovers_witness :
  ∃ k s replayed, (k ≤ length sample_sinks)%nat ∧ db_height (ps_store stopped) = Ok (Z.of_nat k)
  ∧ open_state LOAD_FUEL (with_nodes ∅ (ps_store stopped)) GenesisLimits_devnet
    = Some (Ok (s, default first_genesis_block (last (take k sunk)), replayed)).
Proof.
  assert (wf Genesis_codec sample_genesis) as Hg by (apply wf_by_decoding; [apply _|by vm_compute]).
  assert (collision_free (trees_inputs (tree_of <$> sample_states))) as Hcf by (rewrite sample_trees_eq; apply collision_freeb_sound; by vm_compute).
  assert (empty_free (trees_inputs (tree_of <$> sample_states))) as Hef by (rewrite sample_trees_eq; apply empty_freeb_sound; by vm_compute).
  pose proof (restart_recovers sample_genesis GenesisLimits_devnet first_genesis_block genesis_state sample_sinks
    {| pub_state := genesis_state; pub_at := 0 |} LOAD_FUEL ∅ tree_launch_Ok Hg sample_headers_ok sunk_wf Hcf Hef
    (map_empty_subseteq _) (le_n _)) as H.
  destruct H as (k & s & replayed & Hk & _ & Hh & Ho & _).
  exists k, s, replayed. exact (conj Hk (conj Hh Ho)).
Defined.

(** ** Queries *)

Definition header_for (ctx : BlockContext) (txs : list Transaction) (o : BlockOutcome) : BlockHeader := {|
  h_chain_id := sample_chain; h_height := ctx_height ctx; h_time := ctx_time ctx; parent := block_A; h_tx_root := tx_root txs;
  h_app_hash := o_app_hash o; h_outcome_root := outcome_root o; validators_hash := vs_hash four_validators;
  next_validators_hash := vs_hash four_validators |}.
Definition siblings_of (items : list bytes) (i : nat) : list Hash32 :=
  match MerkleTree_prove (MerkleTree_from_items items) i with Ok p => mp_siblings p | Err _ => [] end.
(** The sample chain's outcomes, evaluated once. *)
Definition run_outcomes : list BlockOutcome := Eval vm_compute in sample_run.1.
Lemma run_outcomes_eq : sample_run.1 = run_outcomes.
Proof. by vm_compute. Qed.

(** What a server shows of the transaction at a place of the sample chain. *)
Definition shown (k i : nat) : ProvedTransaction * BlockHeader :=
  let '(ctx, txs) := default ({| ctx_height := 0; ctx_time := 0 |}, []) (sample_blocks !! k) in
  let o := default {| o_app_hash := []; outcomes := [] |} (run_outcomes !! k) in
  let rs := receipt <$> outcomes o in
  ({| pt_height := ctx_height ctx; pt_index := Z.of_nat i; pt_total := Z.of_nat (length txs); pt_transaction := default payment1 (txs !! i);
      pt_siblings := siblings_of (tx_id <$> txs) i; pt_receipt := default (receipt (rejected [] Unauthorised)) (rs !! i);
      pt_receipt_siblings := siblings_of (encode TxReceipt_codec <$> rs) i |}, header_for ctx txs o).
Definition bob_record : Account := Eval vm_compute in acc_at (kv_map sample_run.2) bob.
Definition bob_walk : list (ProvedTransaction * BlockHeader) := Eval vm_compute in [shown 1 0; shown 0 2; shown 0 0].
Abbreviation bob_walked := (walk bob_walk (HistoryCursor_new bob bob_record)).

Lemma proved_by_decoding p :
  decode_exact Transaction_codec (encode Transaction_codec (pt_transaction p)) = Ok (pt_transaction p) →
  decode_exact TxReceipt_codec (encode TxReceipt_codec (pt_receipt p)) = Ok (pt_receipt p) →
  forallb (λ h, length h =? 32)%nat (pt_receipt_siblings p) = true → proved_ok p.
Proof. intros H1 H2 H3. split_and!; [apply wf_by_decoding; [apply _|assumption]..|by apply forallb_Forall_len]. Qed.

Lemma shown_committed k header o : run_outcomes !! k = Some o → h_outcome_root header = outcome_root o → committed_in run_outcomes header.
Proof. intros Ho E. exists o. split; [by eapply list_elem_of_lookup_2|done]. Qed.

Definition outcomes_at (k : nat) : BlockOutcome := default {| o_app_hash := []; outcomes := [] |} (run_outcomes !! k).

Lemma bob_walk_ok : Forall (λ ph : ProvedTransaction * BlockHeader, proved_ok ph.1 ∧ committed_in sample_run.1 ph.2) bob_walk.
Proof.
  rewrite run_outcomes_eq. unfold bob_walk. apply Forall_cons. split; [|apply Forall_cons; split; [|apply Forall_cons; split; [|by apply Forall_nil]]].
  - split; [apply proved_by_decoding; by vm_compute|apply (shown_committed 1 _ (outcomes_at 1)); by vm_compute].
  - split; [apply proved_by_decoding; by vm_compute|apply (shown_committed 0 _ (outcomes_at 0)); by vm_compute].
  - split; [apply proved_by_decoding; by vm_compute|apply (shown_committed 0 _ (outcomes_at 0)); by vm_compute].
Qed.

Lemma receipts_by_decoding os :
  decode_exact (vec_codec TxReceipt_codec) (encode (vec_codec TxReceipt_codec) (receipt <$> os)) = Ok (receipt <$> os) →
  Forall (λ o, wf TxReceipt_codec (receipt o)) os.
Proof. intros H. apply wf_by_decoding in H as [_ H]; [|apply _]. exact (proj1 (Forall_fmap _ _ _) H). Qed.

Lemma sample_receipts_wf : Forall (λ o, wf TxReceipt_codec (receipt o)) (results sample_run.1).
Proof. rewrite run_outcomes_eq. apply receipts_by_decoding. by vm_compute. Qed.

Lemma sample_nonces : Forall (λ st : step, tx_nonce (body st.2) < u64_max) (steps sample_blocks).
Proof. apply Forall_forall. intros st Hst%list_elem_of_In. revert st Hst.
  assert (forallb (λ st : step, tx_nonce (body st.2) <? u64_max) (steps sample_blocks) = true) as Hb by (by vm_compute).
  rewrite forallb_forall in Hb. intros st Hst%Hb. by apply Z.ltb_lt.
Qed.


From S2P Require Import Signing Node.

(** A node serving the stored blocks. *)
Definition sample_view : ServedChain := {| sc_chain_id := sample_chain; sc_store := stored.1; sc_state := genesis_state |}.

(** Two blocks on top of the genesis block, and a follower offered them out of order and twice. *)
Definition built_on (parent_ : Block) (h : Height) (txs : list Transaction) (s : TreeStore (Hs := sample_hasher))
  : (Block * Commit * list TxReceipt) * TreeStore (Hs := sample_hasher) :=
  let r := build_block (KV := tree_store) (Ro := tree_rooted) (g_chain_id sample_genesis) h (1000 * h + 1000)
             (BlockHeader_id (b_header parent_)) txs (ValidatorSets_unchanged four_validators) s in
  (r.1.1, header_commit (b_header r.1.1) [0; 1; 2]%nat, receipt <$> outcomes r.1.2, r.2).
Definition chained1 : Block * Commit * list TxReceipt := Eval vm_compute in (built_on first_genesis_block 1 [payment1] genesis_state).1.
Definition chained2 : Block * Commit * list TxReceipt := Eval vm_compute in
  (built_on (e_block chained1) 2 [] (built_on first_genesis_block 1 [payment1] genesis_state).2).1.
Abbreviation sample_follower :=
  (Node_new (g_chain_id sample_genesis) alice_key four_validators genesis_state first_genesis_block (None : option sign_point)).
Definition offered : list (faults * (Block * Commit)) := (λ e, (no_faults, e.1)) <$> [chained2; chained1; chained1; chained2].
Abbreviation fresh_sink := {|
  ps_store := (put_genesis None sample_genesis Database_new).2; ps_state := {| pub_state := genesis_state; pub_at := GENESIS |};
  ps_failed := None |}.
Definition sample_follow := follow_chain offered sample_follower fresh_sink.

Lemma sample_follow_eq :
  follow_chain offered sample_follower fresh_sink = ([chained1; chained2], sample_follow.1.2, sample_follow.2).
Proof.
  unfold sample_follow. assert ((follow_chain offered sample_follower fresh_sink).1.1 = [chained1; chained2]) as E by (by vm_compute).
  rewrite <- E. by destruct (follow_chain _ _ _) as [[? ?] ?].
Qed.

(** A client that trusts the second block. *)
Definition follower_client : LightClient := {|
  lc_chain_id := sample_chain; lc_validators := four_validators; lc_next_validators := four_validators;
  trusted := b_header (e_block chained2); trusting_period_ms := TRUSTING_PERIOD_MS |}.
Definition follower_view : LiveChain :=
  {| lv_chain_id := g_chain_id sample_genesis; lv_store := ps_store sample_follow.2; lv_state := ps_state sample_follow.2 |}.

Lemma chained_wf : Forall entry_wf [chained1; chained2].
Proof. repeat (apply Forall_cons; split; [apply entry_wf_by_decoding; by vm_compute|]). by apply Forall_nil. Qed.

Abbreviation chained1_run := (execute_block (KV := tree_store) (Ro := tree_rooted) (g_chain_id sample_genesis)
  {| ctx_height := e_height chained1; ctx_time := h_time (b_header (e_block chained1)) |} (transactions (e_block chained1)) genesis_state).1.
Lemma chained1_execution : receipt <$> outcomes chained1_run = chained1.2.
Proof. by vm_compute. Qed.
Lemma chained1_root : bool_decide (h_outcome_root (b_header (e_block chained1)) = outcome_root chained1_run) = true.
Proof. by vm_compute. Qed.

(** A header, a transaction with its receipt, and a balance. *)
Lemma honest_answers_verify_witness :
  (∃ sh, answer follower_view (QHeader 1) = Ok (RHeader sh)
    ∧ SignedHeader_verify sh (g_chain_id sample_genesis) four_validators = Ok tt)
  ∧ (∃ pt r, chained1.2 !! 0%nat = Some r ∧ answer follower_view (QTransaction (tx_id payment1)) = Ok (RTransaction pt)
    ∧ ProvedTransaction_verify pt (b_header (e_block chained1)) = Ok (payment1, r))
  ∧ ∃ pv x, answer follower_view (QBalance bob Denom_native) = Ok (RValue pv) ∧ pv_height pv = 2
    ∧ ProvedValue_verify pv follower_client (key_balance bob Denom_native) = Ok (Some x).
Proof.
  pose proof (honest_answers_verify sample_genesis GenesisLimits_devnet first_genesis_block genesis_state alice_key four_validators
    (None : option sign_point) offered tree_launch_Ok ltac:(by vm_compute)) as H.
  cbv zeta in H. rewrite sample_follow_eq in H.
  destruct (H chained_wf) as (_ & Hh & _ & Ht & Hv). split; [|split].
  - destruct (Hh chained1 (list_elem_of_here _ _)) as (sh & H1 & _ & H2). exists sh. exact (conj H1 H2).
  - assert (transactions (e_block chained1) !! 0%nat = Some payment1) as H1 by (by vm_compute).
    assert (newest (tx_id payment1) [chained1; chained2] = Some (e_height chained1, Z.of_nat 0)) as H2 by (by vm_compute).
    destruct (Ht 0%nat chained1 genesis_state 0%nat payment1 eq_refl eq_refl H1 H2) as (pt & r & Hr & Ha & Hp).
    rewrite chained1_execution in Hr. rewrite chained1_root in Hp. exists pt, r. exact (conj Hr (conj Ha Hp)).
  - destruct (Hv (QBalance bob Denom_native) (key_balance bob Denom_native) follower_client eq_refl eq_refl) as (pv & H1 & H2 & H3).
    destruct (smt_get (tree_of (default genesis_state (last (chain_states (g_chain_id sample_genesis) 1 genesis_state (e_block <$> [chained1; chained2])))))
      (key_balance bob Denom_native)) as [x|] eqn:E.
    + exists pv, x. split; [exact H1|]. split; [exact H2|]. by rewrite H3.
    + exfalso. assert (is_Some (smt_get (tree_of (default genesis_state (last (chain_states (g_chain_id sample_genesis) 1 genesis_state (e_block <$> [chained1; chained2])))))
        (key_balance bob Denom_native))) as [y Hy] by (apply (bool_decide_unpack _); by vm_compute). by rewrite E in Hy.
Defined.

(** The index keeps a transaction's newest place.  Once its replay is in a block, refused, the
    receipt that names the accounts it moved cannot be asked for any more, and an honest
    node's answer stops the walk. *)
Example replay_hides_history :
  match answer sample_view (QTransaction (tx_id payment1)) with
  | Ok (RTransaction p) =>
      (pt_index p, (cursor_step p (b_header (e_block entry1))
        {| hc_address := bob; hc_next := Some {| tp_tx_id := tx_id payment1; tp_height := 1 |}; hc_seen := 2 |}).1) = (1, Err HBrokenChain)
  | _ => False
  end.
Proof. by vm_compute. Qed.
