(* ===== verification/PeerWitnesses.v ===== *)
(** Concrete peers, channels and runs: inputs at which the theorems about the peer-to-peer
    layer apply. *)

From S2P Require Import Prelude SortedVec Sorting Codec Primitives Crypto Alias Votes Tx Executor Block Node.
From S2P Require Import Peer PeerProofs Wire Manager ManagerProofs Handshake GroupWitnesses ChainWitnesses Witnesses.

#[local] Existing Instance sample_hasher.
#[local] Existing Instance sample_signer.
#[local] Existing Instance sample_unicode.
#[local] Existing Instance sample_signing_keys.

(** ** A channel *)

(** A cipher that hides nothing but checks key, nonce and associated data. *)
Definition tag_of (k n a : bytes) : bytes := take 16 (k ++ n ++ a ++ replicate 16 (byte_of 0)).
Definition open_tagged (k n a c : bytes) : option bytes :=
  let m := take (length c - 16) c in if bool_decide (c = m ++ tag_of k n a) then Some m else None.

Lemma tag_of_len k n a : length (tag_of k n a) = 16%nat.
Proof. unfold tag_of. rewrite length_take, !length_app, length_replicate. lia. Qed.

#[local] Instance tagging : Aead.
Proof.
  refine {| aead_seal := λ k n a m, m ++ tag_of k n a; aead_open := open_tagged |}.
  - intros k n a m. rewrite length_app, tag_of_len. unfold TAG_LEN. lia.
  - intros k n a m. unfold open_tagged. rewrite length_app, tag_of_len.
    replace (length m + 16 - 16)%nat with (length m) by lia. rewrite take_app_length. by rewrite bool_decide_eq_true_2.
  - intros k n a c m. unfold open_tagged. case_bool_decide as H; [|done]. by intros [= <-].
Defined.

Definition sample_messages : list PeerMessage := [Ping 42; GetAddrs; PMStatus 7; NoBlock 3].
(** Each byte of the stream arrives on its own. *)
Definition bytewise (b : bytes) : Reader := (λ x, Got [x]) <$> b.

Lemma bytewise_pieces b : pieces (bytewise b) ∧ flow (bytewise b) = b.
Proof. unfold pieces, flow, bytewise. induction b as [|x b [IH1 IH2]]; [done|]. split; [by constructor|]. simpl. by f_equal. Qed.

Lemma frames_roundtrip_witness :
  ∃ wire, write_frames sample_messages (Direction_new (bs "key"), []) = (Ok tt, (moved 4 (Direction_new (bs "key")), wire))
  ∧ ∃ rs' d' costs, read_frames 4 (bytewise wire, Direction_new (bs "key")) = (Ok (zip sample_messages costs), (rs', d')) ∧ flow rs' = [].
Proof.
  destruct frames_roundtrip as (H & _ & _). destruct (H (bs "key") sample_messages) as (wire & Hw & Hr).
  - by vm_compute.
  - repeat (apply Forall_cons; split; [split; [apply wf_by_decoding; [apply _|by vm_compute]|by vm_compute]|]). by apply Forall_nil.
  - exists wire. split; [exact Hw|]. destruct (bytewise_pieces wire) as [Hp Hf].
    destruct (Hr (bytewise wire) Hp Hf) as (rs' & d' & costs & H1 & _ & _ & H2). exists rs', d', costs. exact (conj H1 H2).
Defined.

(** ** Two nodes shake hands *)

(** Key exchange by addition of octets. *)
Definition padded (s : bytes) : bytes := take 32 (s ++ replicate 32 (byte_of 0)).
Definition sum_bytes (a b : bytes) : bytes :=
  zip_with (λ x y, byte_of (coqutil.Byte.byte.unsigned x + coqutil.Byte.byte.unsigned y)) a b.
#[local] Instance additive : KeyExchange.
Proof.
  refine {| x_public := padded; x_shared := λ a p, sum_bytes (padded a) p; x_contributory := λ s, negb (forallb (byte_eqb 0) s) |}.
  - intros s. unfold padded. rewrite length_take, length_app, length_replicate. lia.
  - intros a b. unfold sum_bytes. rewrite <-zip_with_flip. apply zip_with_ext; [|done..]. intros x y. by rewrite Z.add_comm.
Defined.

Definition listens (n : Z) : SocketAddr := {| ip := V4 (byte_of <$> [10; 0; 0; n]); port := 26656 |}.
Definition half (seed : bytes) : Handshake := {| hs_chain := bs "c"; ephemeral := seed; hs_ours := x_public seed |}.
Definition caller : Handshake := half (bs "caller").
Definition callee : Handshake := half (bs "callee").

Lemma handshake_agrees_witness :
  ∃ p1 p2 e1 e2, respond caller (hello_of callee) alice_key None = Ok p1
    ∧ respond callee (hello_of caller) bob_key (Some (listens 2)) = Ok p2
    ∧ finish p1 (auth_frame p2) (verifying_key alice_key) (Some (verifying_key bob_key)) = Ok e1
    ∧ finish p2 (auth_frame p1) (verifying_key bob_key) None = Ok e2
    ∧ es_listen e1 = Some (listens 2) ∧ mirrored (es_session e1) (es_session e2).
Proof.
  destruct (handshake_agrees caller callee alice_key bob_key None (Some (listens 2)) true)
    as (p1 & p2 & e1 & e2 & H1 & H2 & H3 & H4 & _ & _ & H5 & _ & H6 & _).
  - reflexivity.
  - reflexivity.
  - reflexivity.
  - by vm_compute.
  - by vm_compute.
  - by vm_compute.
  - apply wf_by_decoding; [apply _|by vm_compute].
  - apply wf_by_decoding; [apply _|by vm_compute].
  - exists p1, p2, e1, e2. exact (conj H1 (conj H2 (conj H3 (conj H4 (conj H5 H6))))).
Defined.

(** What [callee] answered: [caller]'s hello, claiming where it listens. *)
Definition answers_given : list (Handshake * bytes * option SocketAddr) := [(callee, hs_ours caller, Some (listens 2))].
Definition or_fail {E A} (x : result E A) (d : A) : A := match x with Ok a => a | Err _ => d end.
Definition no_pending : Pending := {| pe_session := Session_new [] []; pe_transcript := []; auth_frame := [] |}.
Definition caller_pending : Pending := or_fail (respond caller (hello_of callee) alice_key None) no_pending.
Definition callee_pending : Pending := or_fail (respond callee (hello_of caller) bob_key (Some (listens 2))) no_pending.
Definition established : Established :=
  or_fail (finish caller_pending (auth_frame callee_pending) (verifying_key alice_key) (Some (verifying_key bob_key)))
    {| es_session := pe_session no_pending; es_peer := []; es_listen := None |}.

Lemma handshake_authentic_witness :
  finish caller_pending (auth_frame callee_pending) (verifying_key alice_key) (Some (verifying_key bob_key)) = Ok established
  ∧ es_peer established = verifying_key bob_key
  ∧ ∃ h' hello' l', (h', hello', l') ∈ answers_given ∧ hs_chain h' = bs "c" ∧ es_listen established = dialable l'.
Proof.
  destruct (handshake_authentic caller (hs_ours callee) alice_key None caller_pending (auth_frame callee_pending)
    (verifying_key alice_key) (Some (verifying_key bob_key)) established answers_given) as (_ & H2 & h' & hello' & l' & H3 & H4 & H5 & _).
  - by vm_compute.
  - by vm_compute.
  - intros auth d Hwf Hop doc _. exists (callee, hs_ours caller, Some (listens 2)). split; [by left|].
    assert (decode_exact Auth_codec (encode Auth_codec auth) = match open (auth_frame callee_pending) [] (s_recv (pe_session caller_pending)) with
      | (Ok pt, _) => decode_exact Auth_codec pt | _ => Err (CodecInvalid "") end) as H by by rewrite Hop.
    rewrite (decode_exact_encode Auth_codec _ Hwf) in H. subst doc. vm_compute in H. injection H as ->. by vm_compute.
  - apply wf_by_decoding; [apply _|by vm_compute].
  - by vm_compute.
  - by vm_compute.
  - apply Forall_singleton. split; [apply wf_by_decoding; [apply _|by vm_compute]|].
    split; [by vm_compute|]. split; [by vm_compute|]. apply wf_by_decoding; [apply _|by vm_compute].
  - apply collision_freeb_sound. by vm_compute.
  - split; [by vm_compute|]. split; [by apply H2|]. exists h', hello', l'. exact (conj H3 (conj H4 H5)).
Defined.

(** ** A stalled node *)

Definition peer_at (n : Z) : PeerAddr :=
  {| pa_id := replicate 31 (byte_of 0) ++ [byte_of n]; pa_addr := {| ip := V4 [byte_of (10 + n); byte_of 1; byte_of 2; byte_of 3]; port := 26656 |} |}.
Definition us : PeerId := pa_id (peer_at 9).
Definition fresh : Manager := Manager_new us (AddrBook_new (bs "secret")) Limits_default.

Definition far_block (h : Height) : SyncBlock := {|
  sb_block := {| b_header := {| h_chain_id := bs "c"; h_height := h; h_time := 0; parent := []; h_tx_root := []; h_app_hash := []; h_outcome_root := [];
    validators_hash := []; next_validators_hash := [] |}; transactions := [] |};
  sb_commit := {| c_height := h; c_round := 0; c_block_id := []; Votes.signatures := [] |} |}.

(** Everybody but [slow] answers at once. *)
Definition answers (slow : PeerId) (out : list Directive) : list ManagerEvent :=
  omap (λ d, match d with
             | DSend to (GetBlock h) => if bool_decide (to = slow) then None else Some (MMessage to (PMBlock (far_block h)) 500)
             | _ => None
             end) out.
Fixpoint busy (slow : PeerId) (rounds : nat) (m : Manager) : list ManagerEvent :=
  match rounds with
  | O => []
  | S rounds =>
      let '(out, m) := manager_step m (MTick (from_secs 1)) in
      let reply := answers slow out in
      MTick (from_secs 1) :: reply ++ busy slow rounds (manager_run reply m).2
  end.

Definition opening : list ManagerEvent :=
  MSetHeight 1 :: concat ((λ n, [MInbound (peer_at n); MMessage (pa_id (peer_at n)) (PMStatus 40) 50]) <$> [1; 2; 3]).
(** Three peers at height 40; the one asked for the first block says nothing for eight ticks. *)
Definition until_full : list ManagerEvent := opening ++ busy (pa_id (peer_at 2)) 8 (manager_run opening fresh).2.
Definition full : Manager := (manager_run until_full fresh).2.
(** The request is given up, goes to another peer, and is answered. *)
Definition afterwards : list ManagerEvent :=
  [MTick (from_secs 1); MMessage (pa_id (peer_at 1)) (PMBlock (far_block 1)) 500; MSetHeight 1; MTick (from_secs 1)].


Lemma until_full_stuck : stuck full.
Proof.
  split; [by vm_compute|split; [by vm_compute|]].
  assert (bool_decide (map_Forall (λ k _, m_height full ≤ k) (staged full)) = true) as H%bool_decide_eq_true by (by vm_compute).
  exact H.
Qed.

(** The next block is asked for, sent and dropped; the node stands where it stood. *)
Lemma full_staging_stalls_witness :
  DSend (pa_id (peer_at 1)) (GetBlock 1) ∈ (manager_step full (MTick (from_secs 1))).1
  ∧ is_behind full = true
  ∧ let '(o, m') := manager_run afterwards full in applied o = [] ∧ m_height m' = m_height full ∧ staged m' = staged full.
Proof.
  split; [|split; [by vm_compute|]].
  - assert ((manager_step full (MTick (from_secs 1))).1 !! 2%nat = Some (DSend (pa_id (peer_at 1)) (GetBlock 1))) as H by (by vm_compute).
    exact (list_elem_of_lookup_2 _ _ _ H).
  - apply (full_staging_stalls full afterwards until_full_stuck).
    apply Forall_cons. split; [exact I|]. apply Forall_cons. split; [exact I|]. apply Forall_cons. split; [by vm_compute|].
    apply Forall_cons. split; [exact I|]. by apply Forall_nil.
Defined.
