(* ===== verification/HttpWitnesses.v ===== *)
(** A client's bytes: concrete connections at which the theorems about the query server
    apply. *)

From S2P Require Import Prelude SortedVec Codec Primitives Crypto Smt Store Account Alias AliasProofs GroupWitnesses Bech32 Request Tx Executor Block Rpc Http Json HttpServe.

#[local] Existing Instance sample_hasher.
#[local] Existing Instance sample_signer.
#[local] Existing Instance sample_unicode.

(** Hexadecimal read back two digits at a time. *)
Fixpoint unhex (s : bytes) : option bytes :=
  match s with
  | [] => Some []
  | h :: l :: s => h ← to_digit16 h; l ← to_digit16 l; r ← unhex s; Some (byte_of (h * 16 + l) :: r)
  | _ => None
  end.

Lemma lower_digit b d : to_digit16 b = Some d → is_ascii_uppercase b = false → 0 ≤ d < 16 ∧ hex_digit d = b.
Proof.
  intros Hd Hu. pose proof (byte_cases (λ b, match to_digit16 b with
    | Some d => is_ascii_uppercase b || ((0 <=? d) && (d <? 16) && bool_decide (hex_digit d = b)) | None => true end) ltac:(by vm_compute) b) as H.
  cbv beta in H. rewrite Hd, Hu in H. simpl in H. rewrite !andb_true_iff, bool_decide_eq_true, Z.leb_le, Z.ltb_lt in H. destruct H as [[? ?] ?]. by repeat split.
Qed.

#[local] Instance unhexing : HexDecode.
Proof.
  refine {| hex_decode := unhex |}.
  - intros b. unfold hex_of. induction b as [|x b IH]; [done|]. change (mbind ?f (x :: b)) with (f x ++ mbind f b). cbn [app unhex]. rewrite IH.
    pose proof (byte_cases (λ x, bool_decide (unhex [hex_digit (byte_val x / 16); hex_digit (byte_val x mod 16)] = Some [x])) ltac:(by vm_compute) x) as H.
    apply bool_decide_eq_true in H. revert H. cbn [unhex]. destruct (to_digit16 (hex_digit (byte_val x / 16))); [|done]. destruct (to_digit16 (hex_digit (byte_val x mod 16))); [|done]. cbn. intros. by simplify_eq.
  - intros s. induction s as [s IH] using (induction_ltof1 _ (@length byte)). unfold ltof in IH. intros b H Hs.
    destruct s as [|h [|l s]]; [by simplify_eq/=|by cbn in H; simplify_eq|]. cbn [unhex] in H. destruct (to_digit16 h) as [x|] eqn:Eh; [|done].
    destruct (to_digit16 l) as [y|] eqn:El; [|done]. cbn in H. destruct (unhex s) as [r|] eqn:Er; [|done]. cbn in H. injection H as <-.
    cbn [forallb] in Hs. rewrite !andb_true_iff, !negb_true_iff in Hs. destruct Hs as (Hh & Hl & Hs).
    destruct (lower_digit _ _ Eh Hh) as [Hx <-]. destruct (lower_digit _ _ El Hl) as [Hy <-]. rewrite (IH s ltac:(simpl; lia) r Er Hs).
    unfold hex_of. change (mbind ?f (?x :: ?b)) with (f x ++ mbind f b). cbn [app].
    assert (byte_val (byte_of (x * 16 + y)) = x * 16 + y) as ->. { rewrite coqutil.Byte.byte.unsigned_of_Z. unfold coqutil.Byte.byte.wrap. apply Z.mod_small. lia. }
    rewrite Z.div_add_l, Z.div_small, Z.add_0_r by lia. by rewrite Z.add_comm, Z_mod_plus_full, Z.mod_small by lia.
Defined.

#[local] Instance curt : Wording := {| wording _ := bs "no" |}.
(** A node that knows its height and nothing else, and takes no transactions. *)
#[local] Instance bare : ChainView Height := {|
  cv_chain_id _ := bs "c"; cv_tip_height h := Ok h; cv_signed_header _ _ := Ok None; cv_prove _ _ := Err (Backend "none");
  cv_block _ _ := Ok None; cv_receipts _ _ := Ok None; cv_locate _ _ := Ok None; cv_history _ _ _ _ := Ok None |}.
#[local] Instance closed : Submit nat := {| submit tx t := (read_only_submit tx, S t) |}.

Definition crlf_text (s : string) : bytes := crlf (bs s).
Definition health : bytes := crlf_text "GET /health?format=json HTTP/1.1" ++ crlf_text "Host: node" ++ crlf_text "Accept:  application/json" ++ crlf [].
Definition posted : bytes := crlf_text "POST /v1/query HTTP/1.1" ++ crlf_text "Content-Length: 1" ++ crlf [] ++ [byte_of 0].
Definition two_lengths : bytes := crlf_text "POST /v1/query HTTP/1.1" ++ crlf_text "Content-Length: 1" ++ crlf_text "content-length: 2" ++ crlf [] ++ [byte_of 0; byte_of 0].
Definition stream (b : bytes) : Source := {| unread := b; broken := None |}.
Definition default_ok : limits_ok HttpConfig_default := ltac:(repeat split; vm_compute; discriminate).

Definition or_get (r : result HttpError HttpRequest * Source) : HttpRequest :=
  match r.1 with Ok rq => rq | Err _ => {| rq_method := MGet; segments := []; params := ∅; headers := ∅; rq_body := []; keep_alive := false |} end.

(** The first request of the stream is read, and the second is left. *)
Lemma read_request_exact_witness :
  rq_body (or_get (read_request HttpConfig_default (stream (posted ++ health)))) = [byte_of 0]
  ∧ ∃ wire, delivers (stream (posted ++ health)) wire (stream health)
    ∧ request_wire HttpConfig_default wire (or_get (read_request HttpConfig_default (stream (posted ++ health)))).
Proof.
  split; [by vm_compute|]. destruct (read_request_exact HttpConfig_default default_ok) as [H _]. apply (H (stream (posted ++ health))). by vm_compute.
Defined.

(** Three requests are answered in turn; the one with two lengths is refused, and nothing
    after it is looked at. *)
Definition link : ConnLink := {| stopped _ := false; writable _ := true |}.
Definition run : list (HttpResponse * bool) * Source * nat :=
  serve_connection HttpConfig_default link 7 (stream (health ++ posted ++ two_lengths ++ health)) 0%nat.
Lemma connection_in_order_witness :
  ((λ o, (status_code (rs_status o.1), o.2)) <$> run.1.1) = [(200, true); (404, true); (400, false)]
  ∧ ∃ wires rqs tail refusal, Forall2 (request_wire HttpConfig_default) wires rqs
    ∧ delivers (stream (health ++ posted ++ two_lengths ++ health)) (concat wires ++ tail) run.1.2
    ∧ run.1.1 = (answers 7 rqs 0%nat).1 ++ refusal.
Proof.
  split; [by vm_compute|].
  destruct (connection_in_order HttpConfig_default link 7 512 (stream (health ++ posted ++ two_lengths ++ health)) 0%nat default_ok 0 run.1.1 run.1.2 run.2)
    as (wires & rqs & tail & refusal & H1 & H2 & H3 & _); [by vm_compute|].
  exists wires, rqs, tail, refusal. exact (conj H1 (conj H2 H3)).
Defined.

(** A connection that ends between two header lines counts as one that sent nothing. *)
Lemma closed_mid_request :
  read_request HttpConfig_default (stream (crlf_text "GET /health HTTP/1.1" ++ crlf_text "Host: node")) = (Err WClosed, stream []).
Proof. by vm_compute. Qed.
